(* ===== verification/_CoqProject ===== *)
-Q . S2P
Prelude.v
Machine.v
Order.v
Utf8.v
Canonical.v
CanonicalFacts.v
CanonicalSpec.v
ObjectId.v
Types.v
Path.v
Objects.v
Fields.v
Decode.v
References.v
EdgeRoles.v
DecodeFacts.v
SignatureOrder.v
Storable.v
StoredKinds.v
Extended.v
ExtendedKinds.v
ObjectSpec.v
ReferencesFacts.v
Bootstrap.v
FastCdc.v
Tree.v
Diff.v
Merge.v
Explore.v
Reachability.v
ReachabilityFacts.v
GraphSpec.v
Traverse.v
StoreModel.v
MemoryStore.v
MemoryFacts.v
StoreInv.v
StoreSteps.v
StoreAuth.v
StoreSamples.v
StoreSpec.v
Access.v
CliMerge.v
CliMergeSpec.v
Ancestry.v
AncestryFacts.v
MergeBase.v
FileTree.v
LooseFrame.v
LoosePlatform.v
LooseStore.v
LooseFacts.v
LooseRuns.v
LooseOpen.v
LooseReturns.v
LoosePut.v
LooseInventory.v
LooseSpec.v
WorkingPlan.v
Publication.v
Transaction.v
WorkingFacts.v
PlanFacts.v
PublicationFacts.v
Recovery.v
TransactionFacts.v
TransactionSpec.v
Preservation.v
EdgeTargets.v
SqlSchema.v
SqliteIndex.v
SqliteStore.v
SqliteFacts.v
SqliteDerived.v
SqliteLoad.v
SqliteLoose.v
SqliteUpdate.v
SqlitePublish.v
SqliteCalls.v
SqliteSpec.v
