(* ===== verification/Prelude.v ===== *)
(** * RGit: a verification development

    RGit is an experimental source-control system in Rust. Its libraries under [src/crates]
    define content-addressed objects ([rgit-objects]), pure algorithms on manifests and
    commit graphs ([rgit-graph]) and verified storage with atomic reference publication
    ([rgit-store]); the client under [src/src] keeps snapshots of a working tree, merges them
    and restricts what each actor may see. This library translates that code into executable
    definitions and proves what makes it correct. Everything below names files under [src/].

    ** The parts and how they interact

    An object is built from typed fields (object.rs), encoded in a canonical subset of CBOR
    (canonical.rs), hashed under a domain-separated preimage (id.rs) and addressed by the
    digest. The decoder (decode.rs) accepts bytes strictly: canonical CBOR, the field set and
    shape of one of the 31 kinds; it then extracts the typed references of the object. The
    store (memory.rs) keeps verified bytes by identifier and moves named references by
    publications: an operation object declares what it does, and the store checks that the
    declared actions, the ancestry and the reference updates agree before it moves anything.
    On disk, every object is one framed, checksummed file that is written aside, verified and
    renamed into place (loose.rs, over the calls of platform.rs). The durable store (sqlite.rs)
    keeps the bytes in loose records and, in a database, which objects there are, their edges, the derived tables of
    the commit graph and the references; every call reloads and verifies all of it into an in-memory store, runs the
    call there and writes the difference in one transaction. A repository starts from a
    bootstrap graph of objects that name each other (extended.rs).
    Ancestry is answered by an index (reachability.rs). Manifests are compared and merged
    path by path (diff.rs, merge.rs), after a trie rules out names that collide on some
    platform (tree.rs, path.rs). The client (main.rs) has its own file records with access
    policies, its own diffs and merge plans, and computes merge bases over its snapshots
    (ancestry.rs). Its commands run in transactions (transaction.rs): records and working-file
    updates are staged in memory, committed to a journal in one database transaction and
    then published file by file (transaction/working_plan.rs, checkout_paths.rs); the next
    command first publishes whatever an interrupted one left in the journal.

    ** Files

    Prelude, Machine, Order, Utf8: results and loops, machine integers and byte order,
    [BTreeMap]/[BTreeSet] as sorted association lists with their laws, UTF-8.

    crates/rgit-objects: Canonical (canonical.rs), with CanonicalFacts and CanonicalSpec for
    the reference encoding, the round trips and the exact language of the decoder; ObjectId
    (id.rs); Types (types.rs); Path (path.rs); Objects (object.rs); Fields, Decode and
    References (decode.rs: field accessors, shape checks, reference extraction), with
    DecodeFacts, SignatureOrder, Storable, StoredKinds, ExtendedKinds, ObjectSpec and
    ReferencesFacts for their theorems; Extended (the typed kinds of extended.rs) and Bootstrap
    (its bootstrap graph); FastCdc (fastcdc.rs).

    crates/rgit-graph: Tree (tree.rs), Diff (diff.rs), Merge (merge.rs), Explore and
    Reachability (reachability.rs), ReachabilityFacts, GraphSpec.

    crates/rgit-store: StoreModel (model.rs, error.rs, store.rs), Traverse and MemoryStore
    (memory.rs), MemoryFacts, StoreInv (the invariant), StoreSteps (interleavings), StoreAuth,
    StoreSamples, StoreSpec. LooseFrame (the records of loose.rs and their streaming parser),
    LoosePlatform (the calls of platform.rs on a file system shared with other processes),
    LooseStore (LooseObjectStore and its helpers), with LooseFacts (what one process guarantees
    and relies on, and the rules of partial runs), LooseRuns and LooseOpen (the runs of put and
    of opening), LooseReturns and LoosePut (runs on a system that answers), LooseInventory and
    LooseSpec. EdgeRoles (edge_roles.rs), SqlSchema (the tables of migrations/0001_initial.sql,
    their constraints, and lemmas on tables), SqliteIndex (the functions of sqlite.rs on the tables: indexing an object, the
    derived tables, loading and verifying a snapshot) and SqliteStore (SqliteStore, its calls, the
    incidents and their evidence), with EdgeTargets (the targets of edges are well-formed identifiers),
    SqliteFacts, SqliteDerived (the derived tables are rebuilt as they are verified),
    SqliteLoad (which tables load, and [LooseLaws], what is asked of the loose store), SqliteLoose
    ([LooseLaws] of the loose-object store), SqliteUpdate and SqlitePublish (the transactions),
    SqliteCalls (the checks of a reload, and whole calls) and SqliteSpec.

    src (the client): Access (policies, visible files, diffs of main.rs), CliMerge and
    CliMergeSpec (plan_merge of main.rs and tree_conflicts.rs), Ancestry, AncestryFacts and
    MergeBase (ancestry.rs); FileTree (directory trees, and effects that stop or fail), WorkingPlan
    (checkout_paths.rs, the plans and checks of working_plan.rs), Publication (the file
    operations of transaction.rs and publish of working_plan.rs) and Transaction (the journal
    and CommandTransaction of transaction.rs), with WorkingFacts, PlanFacts, PublicationFacts,
    Recovery, TransactionFacts, TransactionSpec and Preservation for their theorems.

    ** What the theorems show

    Codec: encoding and decoding are inverse; the decoder accepts exactly the reference
    encodings within the limits; typed objects of all 31 kinds survive the round trip; an
    identifier determines kind, schema and payload; verification by identifier is exact;
    references are extracted without error or duplicates from whatever decodes; a bootstrap
    graph that validates names exactly the verified objects supplied with it.

    Graph algorithms: index construction terminates, succeeds exactly on closed acyclic
    graphs and reports exactly the nodes on cycles otherwise; generations are longest paths;
    diffs and merges follow their path-wise specification and obey unit and symmetry laws.

    Store: every state reachable by interleaving critical sections is sound (a
    rule-induction invariant over [StoreSteps]); concurrent runs refine sequential ones;
    a publication has exactly its declared effect or none; what it moves is authorised by
    its operation one to one; closures and ancestry queries are exact.

    Loose store: the parser accepts exactly the records that are written; whichever calls fail,
    wherever a run stops and whatever other processes do in between, [put] never replaces or
    exposes anything but complete verified records, and what it reported as stored is read back
    ever after; on a system that answers, its outcome is determined; an incident survives
    restarts; the inventory lists exactly the remnants.

    Durable store: wherever a call is refused, fails or is interrupted, the disk holds what it held or
    exactly what the in-memory store staged, and a call that succeeds has had its effect; after any
    history of such calls the disk holds the result of complete in-memory calls; which states
    a reload accepts is characterised call by call, and with it the calls that leave a store that
    cannot be read or opened, for good.

    Client: diffs reveal exactly the visible changes; merge plans implement the three-way rule
    and isolate file/directory clashes; conflicts are accessible exactly to those who may read
    all the files concerned; merge bases are best common ancestors.

    Transactions: a commit is all or nothing; the error that says that the command is committed
    and its publication incomplete is true, and with every other error the disk is untouched;
    however a command and the recoveries after it fail or are killed, the next undisturbed
    recovery succeeds and leaves the disk as before the command or with the whole command in
    effect; recovery on any disk leaves every file it does not own in place and stops, without a
    change, when a journalled file was edited.

    ** Modelling choices

    Fallible code returns [result]; panics, failed indexing and loops that run out of fuel are
    values of [fault] and are excluded by the theorems. Integers are [Z] with their width
    enforced where the source can overflow. Strings are lists of code points where the source
    compares or folds characters and lists of bytes where it hashes or encodes.

    Fuel: the decoder recurses [max_depth + 1] deep; ancestry traversals take twice the number
    of edges plus one steps; index construction one step per node; the store's closure one per
    root and stored edge; graph colouring one per node and recorded parent, plus one; the
    traversal of a directory one per node, plus two, and its removal two per node, plus three;
    the write loop of the loose store one per byte plus the interruptions the system may report,
    its inventory one per name, plus one (the 128 attempts at a name are the source's).
    Each bound is proved sufficient by the theorem about its loop.

    Failures: a command transaction runs on a schedule ([FileTree.fio]) that says of every call
    of the system, reads, writes and synchronisation, whether it is done, fails, or is where the
    process is killed; a write that stops has written a part. A transaction of the journal database
    that fails has no effect, and the database is its committed content. In the stores every change
    of the disk burns one unit of a fuse, and a run whose fuse is out stops there as a killed process
    would ([FileTree.io]); what else can fail there is said below. Changes reach the disk in the
    order the program makes them. The branches for Unix are the ones modelled; file names are Unicode
    text.

    The loose store runs against a [System]: before every call other processes may change the
    file system, a call may be denied with some error, writes may be short, and names are
    drawn from the system's entropy. [Others] is what is asked of the other processes (they
    keep to what this store guarantees itself), [Answers] that no call is denied, [Alone] that
    nobody interferes, and [Honest] that a denial does not claim a name to be absent.

    The durable store runs in an [Environment]: every check of the surroundings (locks, identities of
    files, connections, checkpoints, adoptions of evidence) is a gate that may refuse, the gates of a
    call's reload apart from those of its transaction, and failures are injected where the
    source injects them. A transaction is a function of the tables that takes effect at its commit, one
    change of the disk; a statement that violates a constraint of the schema fails it. What it asks of the loose store is the
    class [LooseObjects] with [LooseLaws], discharged in SqliteLoose; reads are observations of the disk, and a run meets
    no more interrupted writes than the [retries] of its system ([Bounded]).

    Parameters, for code outside the repository: the Unicode tables ([Unicode]: NFC and case
    folding; [FoldLaws] for what recovery needs of them), the digest functions ([Digests]:
    sizes only), the caller's publication validator ([PublicationValidator]), the creation
    mask and temporary names of the system ([Platform], [PlatformLaws]); and the command handlers'
    registry of linked worktrees ([Worktrees]). The store's mutex is the atomicity of a step of
    [StoreSteps].

    ** Findings

    The in-memory store accepts only generic transitions and rejects the key-bound
    transitions the specification requires ([StoreSpec.bound_transitions_unpublishable]); the
    decoder does not check the release-notes field of releases
    ([ReferencesFacts.release_notes_unchecked]). The durable store can never be read again after a
    publication advanced a line, since the operation has no edge to the line state that names it and loading
    demands one ([SqliteSpec.line_publication_unreadable]); a quarantine that stops between its evidence and its
    commit makes the store impossible to open, since the adopted evidence leaves the derived tables stale
    ([SqliteSpec.interrupted_quarantine_unopenable]); and a quarantine of an object that a reference
    needs makes it unreadable instead of read-only ([SqliteSpec.referenced_quarantine_unreadable]).

    ** Not modelled

    The VFS of the SQLite store and its connections (pragmas, the probe of the write-ahead log, the
    fingerprint of the schema, lock files, the C interface), with the parts of the platform layer only they use, the command handlers of main.rs and the files around them (argument parsing,
    prompts, rendering, orchestration of reads and writes), text merging (built on an external
    diff library), Git interoperation (runs the git program). Debug output and serde renderings
    are left out throughout. *)

From stdpp Require Export prelude.
From Stdlib Require Export ZArith Lia.

#[global] Open Scope Z_scope.

(** ** Results: Rust's [Result<T, E>] with the [?] operator as bind *)

Inductive result (E A : Type) : Type :=
  | Ok (a : A)
  | Err (e : E).
Arguments Ok {E A} a.
Arguments Err {E A} e.

#[global] Instance result_ret {E} : MRet (result E) := λ A a, Ok a.
#[global] Instance result_bind {E} : MBind (result E) := λ A B f r,
  match r with Ok a => f a | Err e => Err e end.
#[global] Instance result_fmap {E} : FMap (result E) := λ A B f r,
  match r with Ok a => Ok (f a) | Err e => Err e end.

#[global] Instance result_eq_dec {E A} `{EqDecision E, EqDecision A} :
  EqDecision (result E A).
Proof. solve_decision. Defined.

(** [r.map_err(f)], also the conversion performed by [?] between error types. *)
Definition map_err {E F A} (f : E → F) (r : result E A) : result F A :=
  match r with Ok a => Ok a | Err e => Err (f e) end.

(** [o.ok_or(e)]. *)
Definition ok_or {E A} (o : option A) (e : E) : result E A :=
  match o with Some a => Ok a | None => Err e end.

(** [r.ok()]. *)
Definition ok {E A} (r : result E A) : option A :=
  match r with Ok a => Some a | Err _ => None end.

(** An early return: [if b { return Err(e) }]. *)
Definition reject_if {E} (b : bool) (e : E) : result E () :=
  if b then Err e else Ok tt.

(** [for x in l { f(x)?; }] with a loop-carried state, and the stateless form.
    The bodies are section variables so that recursive functions over nested data
    can pass themselves as the body. *)
Section loops.
Context {E A B S : Type}.

Section fold.
Context (f : S → A → result E S).
Fixpoint try_fold (l : list A) (s : S) : result E S :=
  match l with
  | [] => Ok s
  | x :: l => s' ← f s x; try_fold l s'
  end.
End fold.

Section for_each.
Context (f : A → result E ()).
Fixpoint try_for_each (l : list A) : result E () :=
  match l with
  | [] => Ok tt
  | x :: l => _ ← f x; try_for_each l
  end.
End for_each.

(** [iter.map(f).collect::<Result<Vec<_>, _>>()]. *)
Section map.
Context (f : A → result E B).
Fixpoint try_map (l : list A) : result E (list B) :=
  match l with
  | [] => Ok []
  | x :: l => y ← f x; ys ← try_map l; Ok (y :: ys)
  end.
End map.
End loops.

Declare Scope rgit_scope.
Delimit Scope rgit_scope with rgit.
#[global] Open Scope rgit_scope.

(** [if cond { return Err(e) }; k], the guard of the sources. *)
Notation "'bail_if' b 'with' e ; k" :=
  (if b then Err e else k)
  (at level 20, b at level 99, e at level 99, k at level 200,
   format "'bail_if'  b  'with'  e ;  '/' k") : rgit_scope.

(** Case analysis on the [result] computations that a goal or hypothesis binds. *)
Lemma bind_Ok {E A B} (r : result E A) (f : A → result E B) b :
  (r ≫= f) = Ok b ↔ ∃ a, r = Ok a ∧ f a = Ok b.
Proof. destruct r; cbn; naive_solver. Qed.

Lemma bind_Ok_l {E A B} (a : A) (f : A → result E B) : (Ok a ≫= f) = f a.
Proof. done. Qed.

Lemma fmap_Ok {E A B} (r : result E A) (f : A → B) b :
  (f <$> r) = Ok b ↔ ∃ a, r = Ok a ∧ f a = b.
Proof. destruct r; cbn; naive_solver. Qed.

Lemma map_err_Ok {E F A} (f : E → F) (r : result E A) a :
  map_err f r = Ok a ↔ r = Ok a.
Proof. destruct r; cbn; naive_solver. Qed.

Lemma ok_or_Ok {E A} (o : option A) (e : E) a : ok_or o e = Ok a ↔ o = Some a.
Proof. destruct o; cbn; naive_solver. Qed.

Lemma ok_Some {E A} (r : result E A) a : ok r = Some a ↔ r = Ok a.
Proof. destruct r; cbn; naive_solver. Qed.

Lemma bail_Ok {E A} (b : bool) (e : E) (k : result E A) a :
  (bail_if b with e; k) = Ok a ↔ b = false ∧ k = Ok a.
Proof. destruct b; naive_solver. Qed.

Lemma elem_of_rev {A} (x : A) l : x ∈ rev l ↔ x ∈ l.
Proof. rewrite !list_elem_of_In. symmetry. apply in_rev. Qed.

Lemma try_fold_app {E A S} (f : S → A → result E S) l1 l2 s :
  try_fold f (l1 ++ l2) s = (s' ← try_fold f l1 s; try_fold f l2 s').
Proof.
  revert s; induction l1 as [|x l1 IH]; intros s; cbn; [done|].
  destruct (f s x); cbn; auto.
Qed.

Lemma try_fold_map {E A B S} (f : S → B → result E S) (g : A → B) l s :
  try_fold f (map g l) s = try_fold (λ s x, f s (g x)) l s.
Proof.
  revert s; induction l as [|x l IH]; intros s; cbn; [done|].
  destruct (f s (g x)); cbn; auto.
Qed.

(** A loop invariant for a successful [try_fold]. *)
Lemma try_fold_inv {E A S} (f : S → A → result E S) (P : list A → S → Prop) l s s' :
  (∀ done x st st', P done st → x ∈ l → f st x = Ok st' → P (done ++ [x]) st') →
  P [] s → try_fold f l s = Ok s' → P l s'.
Proof.
  intros Hstep H0 Hf.
  assert (∀ rest pre st, l = pre ++ rest → P pre st →
    try_fold f rest st = Ok s' → P l s') as Hgen.
  { induction rest as [|x rest IH]; intros pre st Hl Hp Hr; cbn in Hr.
    - simplify_eq. by rewrite app_nil_r in Hstep |- *.
    - apply bind_Ok in Hr as (st' & Hx & Hr).
      apply (IH (pre ++ [x]) st'); [by rewrite <-app_assoc| |done].
      eapply Hstep; eauto. rewrite Hl. set_solver. }
  by apply (Hgen l [] s).
Qed.

(** A failing [try_fold] fails at one element, after succeeding on those before it. *)
Lemma try_fold_Err {E A S} (f : S → A → result E S) l s e :
  try_fold f l s = Err e →
  ∃ pre x post st, l = pre ++ x :: post ∧ try_fold f pre s = Ok st ∧ f st x = Err e.
Proof.
  revert s. induction l as [|x l IH]; intros s; cbn; [done|].
  destruct (f s x) as [st|e'] eqn:Hx; cbn.
  - intros (pre & y & post & st' & -> & Hpre & Hy)%IH.
    exists (x :: pre), y, post, st'. cbn. by rewrite Hx.
  - intros [= ->]. by exists [], x, l, s.
Qed.

Lemma try_for_each_Err {E A} (f : A → result E ()) l e :
  try_for_each f l = Err e → ∃ x, x ∈ l ∧ f x = Err e.
Proof.
  induction l as [|x l IH]; cbn; [done|]. destruct (f x) as [[]|e'] eqn:Hx; cbn.
  - intros (y & ? & ?)%IH. exists y. split; [by right|done].
  - intros [= ->]. exists x. split; [left|done].
Qed.

(** Two loops run in step on related inputs. *)
Lemma try_fold_sim {E F A B S} (f : S → A → result E S) (g : S → B → result F S) (h : A → B)
    l s s' :
  (∀ x st st', x ∈ l → f st x = Ok st' → g st (h x) = Ok st') →
  try_fold f l s = Ok s' → try_fold g (map h l) s = Ok s'.
Proof.
  revert s. induction l as [|x l IH]; intros s Hstep; cbn; [by intros [= <-]|].
  intros (st & Hx & Hl)%bind_Ok. rewrite (Hstep x s st) by (done || left).
  cbn. apply IH; [|done]. intros y st1 st2 Hy. apply Hstep. by right.
Qed.

Lemma try_for_each_sim {E F A B} (f : A → result E ()) (g : B → result F ()) (h : A → B) l :
  (∀ x, x ∈ l → f x = Ok tt → g (h x) = Ok tt) →
  try_for_each f l = Ok tt → try_for_each g (map h l) = Ok tt.
Proof.
  induction l as [|x l IH]; intros Hstep; cbn; [done|].
  intros ([] & Hx & Hl)%bind_Ok. rewrite Hstep by (done || left).
  cbn. apply IH; [|done]. intros y Hy. apply Hstep. by right.
Qed.

Lemma try_for_each_Ok {E A} (f : A → result E ()) l :
  try_for_each f l = Ok tt ↔ Forall (λ x, f x = Ok tt) l.
Proof.
  induction l as [|x l IH]; cbn.
  { split; [constructor|done]. }
  rewrite Forall_cons, <-IH. destruct (f x) as [[]|]; cbn; naive_solver.
Qed.

Lemma try_map_Ok {E A B} (f : A → result E B) l k :
  try_map f l = Ok k ↔ Forall2 (λ x y, f x = Ok y) l k.
Proof.
  revert k; induction l as [|x l IH]; intros k; cbn.
  { split; [intros [= <-]; constructor|by inversion 1]. }
  rewrite bind_Ok. split.
  - intros (y & Hy & (ys & Hys & [= <-])%bind_Ok). constructor; [done|]. by apply IH.
  - inversion 1; simplify_eq. eexists; split; [done|].
    rewrite bind_Ok. eexists; split; [by apply IH|done].
Qed.

Lemma try_map_map {E A B} (f : A → result E B) (g : A → B) l :
  (∀ x, x ∈ l → f x = Ok (g x)) → try_map f l = Ok (map g l).
Proof.
  intros Hf. apply try_map_Ok. apply Forall2_fmap_r.
  apply Forall_Forall2_diag, Forall_forall. auto.
Qed.

Lemma forallb_Forall {A} (f : A → bool) l :
  forallb f l = true ↔ Forall (λ x, f x = true) l.
Proof. by rewrite forallb_forall, List.Forall_forall. Qed.

Lemma existsb_false_elem {A} (f : A → bool) l x :
  existsb f l = false → x ∈ l → f x = false.
Proof.
  intros Hf Hx. apply not_true_iff_false. intros Hfx. apply not_true_iff_false in Hf.
  apply Hf, existsb_exists. exists x. split; [by apply list_elem_of_In|done].
Qed.

Lemma existsb_false_intro {A} (f : A → bool) l :
  Forall (λ x, f x = false) l → existsb f l = false.
Proof. induction 1 as [|x l Hx _ IH]; cbn; [done|]. by rewrite Hx. Qed.

Lemma NoDup_snoc {A} (l : list A) x : x ∉ l → NoDup l → NoDup (l ++ [x]).
Proof.
  intros Hx Hl. apply NoDup_app. split_and!; [done| |apply NoDup_singleton].
  intros y Hy ->%list_elem_of_singleton. done.
Qed.

Lemma elem_of_map_snoc {A B} (f : A → B) l x y :
  y ∈ map f (l ++ [x]) ↔ y = f x ∨ y ∈ map f l.
Proof. rewrite map_app, elem_of_app. cbn. rewrite list_elem_of_singleton. tauto. Qed.

(** Split every bound computation of a hypothesis that ends in [Ok]. *)
Ltac inv_ok :=
  repeat match goal with
  | H : (_ ≫= _) = Ok _ |- _ => apply bind_Ok in H as (? & ? & H)
  | H : (_ <$> _) = Ok _ |- _ => apply fmap_Ok in H as (? & ? & H)
  | H : map_err _ _ = Ok _ |- _ => apply map_err_Ok in H
  | H : ok_or _ _ = Ok _ |- _ => apply ok_or_Ok in H
  | H : (if ?b then Err _ else _) = Ok _ |- _ =>
      let Hb := fresh "Hb" in apply bail_Ok in H as [Hb H]
  | H : reject_if _ _ = Ok _ |- _ =>
      let Hb := fresh "Hb" in apply bail_Ok in H as [Hb H]
  | H : Ok _ = Ok _ |- _ => injection H as H
  | H : Err _ = Ok _ |- _ => discriminate H
  | H : Ok _ = Err _ |- _ => discriminate H
  end; simplify_eq.

(** Split boolean conjunctions that are visible in a hypothesis, without unfolding. *)
Ltac split_andb :=
  repeat match goal with
  | H : (_ && _)%bool = true |- _ => apply andb_true_iff in H as [? ?]
  end.

Ltac goal_andb :=
  repeat match goal with |- (_ && _)%bool = true => apply andb_true_iff; split end.

Lemma is_Some_bool {A} (o : option A) :
  bool_decide (is_Some o) = match o with Some _ => true | None => false end.
Proof. by destruct o. Qed.
