(* ===== verification/Machine.v ===== *)
(** * Machine integers and byte strings

    Rust's fixed-width integers as [Z] with their ranges and wrap-around written
    out, the casts and bit operations the sources use on them, and big-endian byte
    strings.  [usize] is 64 bits wide, as on every Tier-1 target of the workspace.
    Byte strings ([Vec<u8>], [&[u8]]) are lists of [Z] whose elements are [u8]s. *)

From S2P Require Import Prelude.

Definition u8_max : Z := 0xff.
Definition u64_max : Z := 0xffff_ffff_ffff_ffff.
Definition usize_max : Z := u64_max.
Definition i64_min : Z := -0x8000_0000_0000_0000.
Definition i64_max : Z := 0x7fff_ffff_ffff_ffff.

Definition is_u8 (z : Z) : bool := (0 <=? z) && (z <=? u8_max).
Definition is_u64 (z : Z) : bool := (0 <=? z) && (z <=? u64_max).
Definition is_i64 (z : Z) : bool := (i64_min <=? z) && (z <=? i64_max).

(** Every element is a byte. *)
Definition is_bytes (bs : list Z) : bool := forallb is_u8 bs.

(** [bytes.len()] as an integer. *)
Definition len {A} (l : list A) : Z := Z.of_nat (length l).

(** [a.checked_add(b)] on [u64] and [usize]. *)
Definition checked_add (a b : Z) : option Z :=
  if a + b <=? u64_max then Some (a + b) else None.

(** [a.wrapping_add(b)], [a.wrapping_mul(b)], [a.rotate_left(n)] on [u64]. *)
Definition wrapping_add (a b : Z) : Z := Z.land (a + b) u64_max.
Definition wrapping_mul (a b : Z) : Z := Z.land (a * b) u64_max.
Definition rotate_left (a n : Z) : Z :=
  Z.lor (Z.land (Z.shiftl a n) u64_max) (Z.shiftr a (64 - n)).

(** [v as u8]. *)
Definition as_u8 (v : Z) : Z := Z.land v 0xff.

(** [v.to_be_bytes()] of an [n]-byte integer and its inverse. *)
Fixpoint to_be_bytes (n : nat) (v : Z) : list Z :=
  match n with
  | O => []
  | S n => as_u8 (Z.shiftr v (8 * Z.of_nat n)) :: to_be_bytes n v
  end.

Definition from_be_bytes (bs : list Z) : Z :=
  fold_left (λ acc b, Z.lor (Z.shiftl acc 8) b) bs 0.

(** ** Ranges *)

Lemma is_u8_spec z : is_u8 z = true ↔ 0 ≤ z < 256.
Proof. unfold is_u8, u8_max. rewrite andb_true_iff, !Z.leb_le. lia. Qed.

Lemma is_u64_spec z : is_u64 z = true ↔ 0 ≤ z < 2 ^ 64.
Proof. unfold is_u64, u64_max. rewrite andb_true_iff, !Z.leb_le. lia. Qed.

Lemma is_i64_spec z : is_i64 z = true ↔ - 2 ^ 63 ≤ z < 2 ^ 63.
Proof. unfold is_i64, i64_min, i64_max. rewrite andb_true_iff, !Z.leb_le. lia. Qed.

Lemma is_bytes_spec bs : is_bytes bs = true ↔ Forall (λ b, 0 ≤ b < 256) bs.
Proof.
  unfold is_bytes. rewrite forallb_forall, <-List.Forall_forall.
  apply Forall_proper; [intros b; apply is_u8_spec|done].
Qed.

Lemma is_bytes_app l1 l2 : is_bytes (l1 ++ l2) = is_bytes l1 && is_bytes l2.
Proof. apply forallb_app. Qed.

Lemma is_bytes_cons b l : is_bytes (b :: l) = is_u8 b && is_bytes l.
Proof. done. Qed.

Lemma is_bytes_take n l : is_bytes l = true → is_bytes (take n l) = true.
Proof. rewrite !is_bytes_spec. apply Forall_take. Qed.

Lemma is_bytes_drop n l : is_bytes l = true → is_bytes (drop n l) = true.
Proof. rewrite !is_bytes_spec. apply Forall_drop. Qed.

Lemma len_app {A} (l1 l2 : list A) : len (l1 ++ l2) = len l1 + len l2.
Proof. unfold len. rewrite length_app. lia. Qed.

Lemma len_cons {A} (x : A) l : len (x :: l) = 1 + len l.
Proof. unfold len. cbn. lia. Qed.

Lemma len_nil {A} : len (@nil A) = 0.
Proof. done. Qed.

Lemma len_map {A B} (f : A → B) l : len (map f l) = len l.
Proof. unfold len. by rewrite length_map. Qed.

Lemma len_snoc {A} (l : list A) x : len (l ++ [x]) = len l + 1.
Proof. unfold len. rewrite length_app. cbn. lia. Qed.

Lemma len_nonneg {A} (l : list A) : 0 ≤ len l.
Proof. unfold len. lia. Qed.

Create Rewrite HintDb len.
#[global] Hint Rewrite @len_app @len_cons @len_nil @len_map : len.
#[global] Hint Resolve len_nonneg : core.

(** ** Bit operations as arithmetic *)

Lemma lor_disjoint_add a b n :
  0 ≤ n → 0 ≤ b < 2 ^ n → Z.lor (Z.shiftl a n) b = a * 2 ^ n + b.
Proof.
  intros Hn Hb. rewrite <-Z.add_lor_land, <-Z.shiftl_mul_pow2 by lia.
  assert (Z.land (Z.shiftl a n) b = 0) as ->; [|lia].
  apply Z.bits_inj'. intros i Hi. rewrite Z.land_spec, Z.bits_0.
  destruct (decide (i < n)) as [Hlt|Hge].
  - rewrite Z.shiftl_spec_low by lia. done.
  - rewrite andb_false_intro2; [done|].
    destruct (decide (b = 0)) as [->|Hnz]; [apply Z.bits_0|].
    apply Z.bits_above_log2; [lia|].
    apply Z.log2_lt_pow2; [lia|]. eapply Z.lt_le_trans; [apply Hb|].
    apply Z.pow_le_mono_r; lia.
Qed.

Lemma land_mask a n : 0 ≤ n → Z.land a (2 ^ n - 1) = a `mod` 2 ^ n.
Proof. intros. rewrite <-Z.land_ones, Z.ones_equiv by lia. done. Qed.

Lemma land_1f a : Z.land a 0x1f = a `mod` 32.
Proof. by apply (land_mask a 5). Qed.

Lemma land_7f a : Z.land a 0x7f = a `mod` 128.
Proof. by apply (land_mask a 7). Qed.

(** A statement about a byte holds if it computes to true on all 256 of them. *)
Lemma byte_cases (P : Z → bool) b :
  forallb P (map Z.of_nat (seq 0 256)) = true → 0 ≤ b < 256 → P b = true.
Proof.
  intros HP Hb. rewrite forallb_forall in HP. apply HP, list_elem_of_In, list_elem_of_fmap.
  exists (Z.to_nat b). rewrite elem_of_seq. lia.
Qed.

Lemma land_80_zero b : 0 ≤ b < 256 → (Z.land b 0x80 =? 0) = (b <? 128).
Proof.
  intros Hb. apply eqb_prop. revert Hb.
  by apply (byte_cases (λ b, Bool.eqb (Z.land b 0x80 =? 0) (b <? 128))).
Qed.

Lemma as_u8_mod v : as_u8 v = v `mod` 256.
Proof. unfold as_u8. by apply (land_mask v 8). Qed.

Lemma as_u8_small v : 0 ≤ v < 256 → as_u8 v = v.
Proof. intros. rewrite as_u8_mod. by apply Z.mod_small. Qed.

Lemma as_u8_is_u8 v : is_u8 (as_u8 v) = true.
Proof. rewrite is_u8_spec, as_u8_mod. apply Z.mod_pos_bound. lia. Qed.

(** ** Big-endian byte strings *)

Lemma to_be_bytes_length n v : length (to_be_bytes n v) = n.
Proof. induction n; cbn; lia. Qed.

Lemma to_be_bytes_len n v : len (to_be_bytes n v) = Z.of_nat n.
Proof. unfold len. by rewrite to_be_bytes_length. Qed.

Lemma to_be_bytes_is_bytes n v : is_bytes (to_be_bytes n v) = true.
Proof. induction n; cbn; [done|]. by rewrite as_u8_is_u8. Qed.

Lemma from_be_bytes_acc bs acc :
  is_bytes bs = true →
  fold_left (λ acc b, Z.lor (Z.shiftl acc 8) b) bs acc =
    acc * 256 ^ len bs + from_be_bytes bs.
Proof.
  revert acc. induction bs as [|b bs IH]; intros acc Hbs.
  { cbn. change (256 ^ len (@nil Z)) with 1. unfold from_be_bytes. cbn. lia. }
  rewrite is_bytes_cons in Hbs. apply andb_true_iff in Hbs as [Hb%is_u8_spec Hbs].
  unfold from_be_bytes. cbn [fold_left]. rewrite !IH by done.
  rewrite !(lor_disjoint_add _ b 8) by lia. rewrite len_cons.
  rewrite Z.pow_add_r by auto with lia. lia.
Qed.

Lemma from_be_bytes_cons b bs :
  0 ≤ b < 256 → is_bytes bs = true →
  from_be_bytes (b :: bs) = b * 256 ^ len bs + from_be_bytes bs.
Proof.
  intros Hb Hbs. unfold from_be_bytes at 1. cbn [fold_left].
  rewrite from_be_bytes_acc by done. rewrite (lor_disjoint_add 0 b 8) by lia.
  lia.
Qed.

Lemma from_be_bytes_bound bs :
  is_bytes bs = true → 0 ≤ from_be_bytes bs < 256 ^ len bs.
Proof.
  induction bs as [|b bs IH]; intros Hbs; [by vm_compute|].
  rewrite is_bytes_cons in Hbs. apply andb_true_iff in Hbs as [Hb%is_u8_spec Hbs].
  rewrite from_be_bytes_cons, len_cons, Z.pow_add_r by auto with lia.
  specialize (IH Hbs). nia.
Qed.

Lemma from_to_be_bytes n v :
  0 ≤ v < 256 ^ Z.of_nat n → from_be_bytes (to_be_bytes n v) = v.
Proof.
  assert (∀ m w, from_be_bytes (to_be_bytes m w) = w `mod` 256 ^ Z.of_nat m) as H.
  { induction m as [|m IH]; intros w; cbn [to_be_bytes].
    { rewrite Z.mod_1_r. done. }
    rewrite from_be_bytes_cons;
      [|apply is_u8_spec, as_u8_is_u8|apply to_be_bytes_is_bytes].
    rewrite IH, to_be_bytes_len, as_u8_mod, Z.shiftr_div_pow2 by lia.
    rewrite Nat2Z.inj_succ, Z.pow_succ_r by lia.
    replace (2 ^ (8 * Z.of_nat m)) with (256 ^ Z.of_nat m)
      by (rewrite Z.pow_mul_r by lia; done).
    rewrite (Z.mul_comm 256), Z.rem_mul_r; [lia| |lia].
    apply Z.pow_nonzero; lia. }
  intros Hv. rewrite H. by apply Z.mod_small.
Qed.

Lemma from_be_bytes_inj bs1 bs2 :
  is_bytes bs1 = true → is_bytes bs2 = true → length bs1 = length bs2 →
  from_be_bytes bs1 = from_be_bytes bs2 → bs1 = bs2.
Proof.
  revert bs2. induction bs1 as [|b1 bs1 IH]; intros [|b2 bs2]; [done..|].
  rewrite !is_bytes_cons, !andb_true_iff, !is_u8_spec.
  intros [Hb1 Hbs1] [Hb2 Hbs2] Hlen Heq.
  rewrite !from_be_bytes_cons in Heq by done.
  assert (len bs1 = len bs2) as Hl by (unfold len; cbn in Hlen; lia).
  pose proof (from_be_bytes_bound bs1 Hbs1). pose proof (from_be_bytes_bound bs2 Hbs2).
  rewrite Hl in *. assert (b1 = b2) as -> by nia. f_equal.
  apply IH; [done..|cbn in Hlen; lia|lia].
Qed.

Lemma to_from_be_bytes bs :
  is_bytes bs = true → to_be_bytes (length bs) (from_be_bytes bs) = bs.
Proof.
  intros Hbs. apply from_be_bytes_inj; [apply to_be_bytes_is_bytes|done|apply to_be_bytes_length|].
  apply from_to_be_bytes. by apply from_be_bytes_bound.
Qed.

(** ** Wrapping arithmetic *)

Lemma wrapping_add_mod a b : wrapping_add a b = (a + b) `mod` 2 ^ 64.
Proof. unfold wrapping_add. by apply (land_mask _ 64). Qed.

Lemma wrapping_add_u64 a b : is_u64 (wrapping_add a b) = true.
Proof. rewrite is_u64_spec, wrapping_add_mod. by apply Z.mod_pos_bound. Qed.

Lemma wrapping_mul_u64 a b : is_u64 (wrapping_mul a b) = true.
Proof.
  rewrite is_u64_spec. unfold wrapping_mul. rewrite (land_mask _ 64) by lia.
  by apply Z.mod_pos_bound.
Qed.

Lemma checked_add_Some a b c :
  checked_add a b = Some c ↔ c = a + b ∧ a + b ≤ u64_max.
Proof. unfold checked_add. destruct (Z.leb_spec (a + b) u64_max); naive_solver lia. Qed.

Lemma checked_add_None a b : checked_add a b = None ↔ u64_max < a + b.
Proof. unfold checked_add. destruct (Z.leb_spec (a + b) u64_max); naive_solver lia. Qed.

(** ** Slices of an input *)

Section reads.
Context {A : Type} (input : list A).
Implicit Types bs cs : list A.

(** The items [bs] occupy the offsets from [i] up to [j] of the input. *)
Definition reads (i j : Z) bs : Prop :=
  ∃ pre rest, input = pre ++ bs ++ rest ∧ i = len pre ∧ j = i + len bs.

Lemma reads_app i j bs cs :
  reads i j (bs ++ cs) ↔ ∃ m, reads i m bs ∧ reads m j cs.
Proof.
  split.
  - intros (pre & rest & Hin & -> & ->). exists (len pre + len bs). split.
    + exists pre, (cs ++ rest). by rewrite Hin, <-app_assoc.
    + exists (pre ++ bs), rest. rewrite Hin, <-!app_assoc, !len_app. split_and!; [done|lia..].
  - intros (m & (pre & rest & Hin & -> & ->) & (pre' & rest' & Hin' & Hm & ->)).
    exists pre, rest'. rewrite len_app. split_and!; [|done|lia].
    assert (pre' = pre ++ bs) as ->; [|by rewrite Hin', <-!app_assoc].
    rewrite Hin, app_assoc in Hin'. symmetry in Hin'.
    apply (app_inj_1 pre' (pre ++ bs)) in Hin'; [by destruct Hin'|].
    unfold len in Hm. rewrite length_app. lia.
Qed.

Lemma reads_nil i j : reads i j [] ↔ i = j ∧ 0 ≤ i ≤ len input.
Proof.
  unfold reads. split.
  - intros (pre & rest & Hin & -> & ->). rewrite len_nil.
    pose proof (len_nonneg pre). pose proof (len_nonneg rest).
    rewrite Hin, len_app. cbn. lia.
  - intros [-> Hi]. exists (firstn (Z.to_nat j) input), (skipn (Z.to_nat j) input).
    rewrite len_nil. cbn [app]. rewrite take_drop. unfold len in *. rewrite length_take.
    split_and!; [done|lia..].
Qed.

Lemma reads_bounds i j bs : reads i j bs → 0 ≤ i ∧ i ≤ j ≤ len input ∧ j = i + len bs.
Proof.
  intros (pre & rest & Hin & -> & ->). rewrite Hin, !len_app.
  pose proof (len_nonneg pre). pose proof (len_nonneg rest). pose proof (len_nonneg bs). lia.
Qed.

Lemma reads_lookup i b : 0 ≤ i → input !! Z.to_nat i = Some b ↔ reads i (i + 1) [b].
Proof.
  intros Hi. split.
  - intros Hl. apply take_drop_middle in Hl as Heq. apply lookup_lt_Some in Hl.
    eexists _, _. split; [symmetry; exact Heq|].
    unfold len. rewrite length_take. cbn. lia.
  - intros (pre & rest & Hin & -> & _). rewrite Hin. unfold len. rewrite Nat2Z.id.
    cbn [app]. by rewrite list_lookup_middle by done.
Qed.

Lemma reads_all (j : Z) bs : reads 0 j bs → j = len input → bs = input.
Proof.
  intros (pre & rest & Hin & Hpre & ->) Hj.
  destruct pre; [|rewrite len_cons in Hpre; pose proof (len_nonneg pre); lia].
  cbn in Hin. rewrite Hin, len_app in Hj. destruct rest; [by rewrite app_nil_r in Hin|].
  rewrite len_cons in Hj. pose proof (len_nonneg rest). lia.
Qed.

Lemma reads_here pre bs rest :
  input = pre ++ bs ++ rest → reads (len pre) (len pre + len bs) bs.
Proof. intros ->. by exists pre, rest. Qed.
End reads.

Lemma reads_is_bytes (input : list Z) i j bs :
  is_bytes input = true → reads input i j bs → is_bytes bs = true.
Proof.
  intros Hb (pre & rest & Hin & _). rewrite Hin, !is_bytes_app, !andb_true_iff in Hb.
  naive_solver.
Qed.
