(* ===== verification/Order.v ===== *)
(** * Total orders and ordered collections

    Rust's [Ord] trait as a type class with its laws, the derived lexicographic
    orders, stable sorting ([sort_by_key]), and [BTreeMap]/[BTreeSet] as association
    lists kept in strictly increasing key order, so that iteration order is part of
    the model and two maps with the same lookups are equal. *)

From S2P Require Import Prelude Machine.
From stdpp Require sorting.
From Stdlib Require Import Sorting.Sorted Sorting.Permutation Btauto.

(** ** The [Ord] trait *)

Class Ord (A : Type) := cmp : A → A → comparison.

Class OrdLaws (A : Type) `{Ord A} : Prop := {
  cmp_eq_iff (x y : A) : cmp x y = Eq ↔ x = y;
  cmp_antisym (x y : A) : cmp y x = CompOpp (cmp x y);
  cmp_lt_trans (x y z : A) : cmp x y = Lt → cmp y z = Lt → cmp x z = Lt }.

Definition ltb {A} `{Ord A} (x y : A) : bool :=
  match cmp x y with Lt => true | _ => false end.
Definition geb {A} `{Ord A} (x y : A) : bool := negb (ltb x y).
Definition lt {A} `{Ord A} (x y : A) : Prop := cmp x y = Lt.

(** [values.windows(2).any(|pair| pair[0] >= pair[1])]. *)
Fixpoint any_window_geb {A} `{Ord A} (l : list A) : bool :=
  match l with
  | x :: (y :: _) as l' => geb x y || any_window_geb l'
  | _ => false
  end.

#[export] Instance Z_ord : Ord Z := Z.compare.
#[export] Instance Z_ord_laws : OrdLaws Z.
Proof.
  split; unfold cmp, Z_ord; intros.
  - apply Z.compare_eq_iff.
  - apply Z.compare_antisym.
  - rewrite Z.compare_lt_iff in *. lia.
Qed.

(** Lexicographic order of slices, [Vec]s and byte-wise strings. *)
Fixpoint list_cmp {A} `{Ord A} (l k : list A) : comparison :=
  match l, k with
  | [], [] => Eq
  | [], _ => Lt
  | _, [] => Gt
  | x :: l, y :: k => match cmp x y with Eq => list_cmp l k | c => c end
  end.
#[export] Instance list_ord {A} `{Ord A} : Ord (list A) := list_cmp.

#[export] Instance pair_ord {A B} `{Ord A, Ord B} : Ord (A * B) := λ p q,
  match cmp p.1 q.1 with Eq => cmp p.2 q.2 | c => c end.

(** The order pulled back along an injection, as [#[derive(Ord)]] does for a
    newtype, a C-like enum or a struct seen as the tuple of its fields. *)
Definition cmp_on {A B} `{Ord B} (f : A → B) (x y : A) : comparison := cmp (f x) (f y).

Section laws.
Context {A : Type} `{OrdLaws A}.
Implicit Types x y z : A.

Lemma cmp_refl x : cmp x x = Eq.
Proof. by apply cmp_eq_iff. Qed.

Lemma cmp_gt_lt x y : cmp x y = Gt ↔ cmp y x = Lt.
Proof. rewrite (cmp_antisym x y). destruct (cmp x y); naive_solver. Qed.

Lemma lt_irrefl x : ¬ lt x x.
Proof. unfold lt. by rewrite cmp_refl. Qed.

Lemma lt_trans x y z : lt x y → lt y z → lt x z.
Proof. apply cmp_lt_trans. Qed.

Lemma lt_ne x y : lt x y → x ≠ y.
Proof. intros Hlt ->. by apply (lt_irrefl y). Qed.

Lemma ltb_lt x y : ltb x y = true ↔ lt x y.
Proof. unfold ltb, lt. destruct (cmp x y); naive_solver. Qed.

Lemma geb_false x y : geb x y = false ↔ lt x y.
Proof. unfold geb. rewrite negb_false_iff. apply ltb_lt. Qed.

#[export] Instance ord_eq_dec : EqDecision A.
Proof.
  intros x y. destruct (cmp x y) eqn:E; [left; by apply cmp_eq_iff|right..];
    intros ->; by rewrite cmp_refl in E.
Defined.

Lemma list_cmp_eq (l k : list A) : list_cmp l k = Eq ↔ l = k.
Proof.
  revert k; induction l as [|x l IH]; intros [|y k]; cbn; [done..|].
  destruct (cmp x y) eqn:E.
  - apply cmp_eq_iff in E as ->. rewrite IH. naive_solver.
  - split; [done|]. intros [= -> ->]. by rewrite cmp_refl in E.
  - split; [done|]. intros [= -> ->]. by rewrite cmp_refl in E.
Qed.

Lemma any_window_geb_false (l : list A) :
  any_window_geb l = false ↔ StronglySorted lt l.
Proof.
  split.
  - intros Hl. apply Sorted_StronglySorted; [intros x y z; apply lt_trans|].
    induction l as [|x [|y l] IH]; [by repeat constructor..|].
    cbn in Hl. apply orb_false_iff in Hl as [Hxy%geb_false Hl].
    constructor; [by apply IH|]. by constructor.
  - induction 1 as [|x [|y l] Hs IH Hx]; [done..|].
    cbn. apply orb_false_iff. split; [|done].
    apply geb_false. by inversion Hx.
Qed.
End laws.

#[export] Instance list_ord_laws {A} `{OrdLaws A} : OrdLaws (list A).
Proof.
  split; unfold cmp, list_ord.
  - apply list_cmp_eq.
  - induction x as [|a x IH]; intros [|b y]; cbn; [done..|].
    rewrite (cmp_antisym a b). destruct (cmp a b); cbn; auto.
  - induction x as [|a x IH]; intros [|b y] [|c z]; cbn; [done..|].
    destruct (cmp a b) eqn:Eab; [apply cmp_eq_iff in Eab as ->| |done].
    + destruct (cmp b c); naive_solver.
    + intros _. destruct (cmp b c) eqn:Ebc; [apply cmp_eq_iff in Ebc as <-| |done].
      * by rewrite Eab.
      * by rewrite (cmp_lt_trans a b c).
Qed.

Lemma pair_cmp {A B} `{Ord A, Ord B} (p q : A * B) :
  cmp p q = match cmp p.1 q.1 with Eq => cmp p.2 q.2 | c => c end.
Proof. done. Qed.

#[export] Instance pair_ord_laws {A B} `{OrdLaws A, OrdLaws B} : OrdLaws (A * B).
Proof.
  split.
  - intros [a b] [c d]; rewrite pair_cmp; cbn. destruct (cmp a c) eqn:E.
    + apply cmp_eq_iff in E as ->. rewrite cmp_eq_iff. naive_solver.
    + split; [done|]. intros [= -> ->]. by rewrite cmp_refl in E.
    + split; [done|]. intros [= -> ->]. by rewrite cmp_refl in E.
  - intros [a b] [c d]; rewrite !pair_cmp; cbn.
    rewrite (cmp_antisym a c). destruct (cmp a c); cbn; auto using cmp_antisym.
  - intros [a1 b1] [a2 b2] [a3 b3]; rewrite !pair_cmp; cbn.
    destruct (cmp a1 a2) eqn:E12; [apply cmp_eq_iff in E12 as ->| |done].
    + destruct (cmp a2 a3); [apply cmp_lt_trans|done..].
    + intros _. destruct (cmp a2 a3) eqn:E23; [apply cmp_eq_iff in E23 as <-| |done].
      * by rewrite E12.
      * by rewrite (cmp_lt_trans a1 a2 a3).
Qed.

Lemma cmp_on_laws {A B} `{OrdLaws B} (f : A → B) `{!Inj (=) (=) f} :
  @OrdLaws A (cmp_on f).
Proof.
  split.
  - intros x y. transitivity (f x = f y); [apply (cmp_eq_iff (f x) (f y))|].
    split; [apply (inj f)|by intros ->].
  - intros x y. apply (cmp_antisym (f x) (f y)).
  - intros x y z. apply (cmp_lt_trans (f x) (f y) (f z)).
Qed.

(** ** Stable sorting: [v.sort_by_key(f)] *)

Section sort.
Context {A K : Type} `{Ord K} (key : A → K).

(** Insertion after every element whose key is not greater keeps the order of
    equal keys, as the standard library's stable sort does. *)
Fixpoint sort_insert (x : A) (l : list A) : list A :=
  match l with
  | [] => [x]
  | y :: l' => if ltb (key y) (key x) then y :: sort_insert x l' else x :: l
  end.

Fixpoint sort_by_key (l : list A) : list A :=
  match l with
  | [] => []
  | x :: l => sort_insert x (sort_by_key l)
  end.

Lemma sort_insert_perm x l : sort_insert x l ≡ₚ x :: l.
Proof.
  induction l as [|y l IH]; cbn; [done|].
  destruct (ltb (key y) (key x)); [|done]. rewrite IH. constructor.
Qed.

Lemma sort_by_key_perm l : sort_by_key l ≡ₚ l.
Proof. induction l as [|x l IH]; cbn; [done|]. by rewrite sort_insert_perm, IH. Qed.

Lemma sort_by_key_length l : length (sort_by_key l) = length l.
Proof. by rewrite sort_by_key_perm. Qed.

Lemma forallb_perm (f : A → bool) l k : l ≡ₚ k → forallb f l = forallb f k.
Proof.
  induction 1 as [|x l k _ IH|x y l|l1 l2 l3 _ IH1 _ IH2]; cbn; [done| |btauto|congruence].
  by rewrite IH.
Qed.

Lemma forallb_sort (f : A → bool) l : forallb f (sort_by_key l) = forallb f l.
Proof. apply forallb_perm, sort_by_key_perm. Qed.

(** A list whose keys are already in order is left alone. *)
Lemma sort_by_key_sorted l :
  StronglySorted (λ x y, ltb (key y) (key x) = false) l → sort_by_key l = l.
Proof.
  induction 1 as [|x l Hs IH Hx]; cbn; [done|]. rewrite IH.
  destruct l as [|y l]; cbn; [done|]. inversion Hx; simplify_eq.
  by match goal with E : ltb _ _ = false |- _ => rewrite E end.
Qed.
End sort.

Lemma sort_insert_map {A B K} `{Ord K} (kA : A → K) (kB : B → K) (f : A → B) x l :
  (∀ a, kB (f a) = kA a) →
  sort_insert kB (f x) (map f l) = map f (sort_insert kA x l).
Proof.
  intros Hk. induction l as [|y l IH]; cbn; [done|].
  rewrite !Hk. destruct (ltb (kA y) (kA x)); cbn; congruence.
Qed.

(** Sorting commutes with a key-preserving map. *)
Lemma sort_by_key_map {A B K} `{Ord K} (kA : A → K) (kB : B → K) (f : A → B) l :
  (∀ a, kB (f a) = kA a) →
  sort_by_key kB (map f l) = map f (sort_by_key kA l).
Proof.
  intros Hk. induction l as [|x l IH]; cbn; [done|].
  rewrite IH. by apply sort_insert_map.
Qed.

Section sort_laws.
Context {A K : Type} `{OrdLaws K} (key : A → K).

Definition key_lt (x y : A) : Prop := lt (key x) (key y).

Lemma sort_by_key_strict l :
  StronglySorted key_lt l → sort_by_key key l = l.
Proof.
  intros Hs. apply sort_by_key_sorted.
  induction Hs as [|x l Hs IH Hx]; constructor; [done|].
  eapply Forall_impl; [exact Hx|]. intros y Hxy. unfold key_lt in Hxy.
  destruct (ltb (key y) (key x)) eqn:E; [|done].
  apply ltb_lt in E. destruct (lt_irrefl (key x)). by eapply lt_trans.
Qed.

Lemma sort_insert_key_lt x l :
  StronglySorted key_lt l → key x ∉ map key l →
  StronglySorted key_lt (sort_insert key x l).
Proof.
  induction 1 as [|y l Hs IH Hy]; cbn; intros Hx.
  { repeat constructor. }
  apply not_elem_of_cons in Hx as [Hxy Hxl].
  destruct (ltb (key y) (key x)) eqn:E.
  - apply ltb_lt in E. constructor; [by apply IH|].
    rewrite sort_insert_perm. by constructor.
  - assert (key_lt x y) as Hlt.
    { unfold key_lt, lt. unfold ltb in E. destruct (cmp (key x) (key y)) eqn:E2.
      - by apply cmp_eq_iff in E2.
      - done.
      - apply cmp_gt_lt in E2. by rewrite E2 in E. }
    constructor; [by constructor|]. constructor; [done|].
    eapply Forall_impl; [exact Hy|]. intros z. by apply (lt_trans (key x) (key y) (key z)).
Qed.

(** With pairwise distinct keys the result is strictly increasing. *)
Lemma sort_by_key_nodup l :
  NoDup (map key l) → StronglySorted key_lt (sort_by_key key l).
Proof.
  induction l as [|x l IH]; cbn; [constructor|]. intros [Hx Hl]%NoDup_cons.
  apply sort_insert_key_lt; [auto|]. by rewrite sort_by_key_perm.
Qed.

Lemma ltb_false_trans (a b c : K) : ltb b a = false → ltb c b = false → ltb c a = false.
Proof.
  intros Hba Hcb. destruct (ltb c a) eqn:E; [|done]. apply ltb_lt in E.
  destruct (cmp a b) eqn:Eab.
  - apply cmp_eq_iff in Eab as ->. apply ltb_lt in E. congruence.
  - assert (lt c b) as Hlt%ltb_lt by (by eapply lt_trans). congruence.
  - apply cmp_gt_lt, ltb_lt in Eab. congruence.
Qed.

(** The result of the stable sort is ordered. *)
Lemma sort_by_key_ordered l :
  StronglySorted (λ x y, ltb (key y) (key x) = false) (sort_by_key key l).
Proof.
  induction l as [|x l IH]; cbn; [constructor|].
  induction IH as [|y k Hk IHk Hy]; cbn; [repeat constructor|].
  destruct (ltb (key y) (key x)) eqn:E.
  - constructor; [done|]. rewrite sort_insert_perm. constructor; [|done].
    destruct (ltb (key x) (key y)) eqn:E'; [|done]. apply ltb_lt in E, E'.
    destruct (lt_irrefl (key x)). by eapply lt_trans.
  - constructor; [by constructor|]. constructor; [done|].
    eapply Forall_impl; [exact Hy|]. intros z Hz. by eapply ltb_false_trans.
Qed.

Lemma sort_by_key_idem l : sort_by_key key (sort_by_key key l) = sort_by_key key l.
Proof. apply sort_by_key_sorted, sort_by_key_ordered. Qed.

Lemma strongly_sorted_nodup l : StronglySorted key_lt l → NoDup (map key l).
Proof.
  induction 1 as [|x l Hs IH Hx]; cbn; constructor; [|done].
  intros (y & Hxy & Hy)%list_elem_of_fmap. rewrite Forall_forall in Hx.
  apply Hx in Hy. unfold key_lt in Hy. rewrite Hxy in Hy. by eapply lt_irrefl.
Qed.

Lemma key_lt_unique l1 l2 :
  StronglySorted key_lt l1 → StronglySorted key_lt l2 → l1 ≡ₚ l2 → l1 = l2.
Proof.
  apply sorting.StronglySorted_unique_strong. intros x y _ _ Hxy Hyx.
  destruct (lt_irrefl (key x)). by eapply lt_trans.
Qed.

Lemma strongly_sorted_key l :
  StronglySorted key_lt l ↔ StronglySorted lt (map key l).
Proof.
  induction l as [|x l IH]; cbn; [split; constructor|].
  split; intros Hs; apply StronglySorted_inv in Hs as [Hs Hx];
    constructor; try by apply IH.
  - apply List.Forall_map. exact Hx.
  - apply (proj1 (List.Forall_map _ _ _)) in Hx. exact Hx.
Qed.
End sort_laws.

(** ** [BTreeMap] and [BTreeSet] *)

(** The entries in strictly increasing key order. *)
Definition BTreeMap (K V : Type) : Type := list (K * V).

Section btree.
Context {K V : Type} `{Ord K}.

(** [map.get(&k)]. *)
Fixpoint bt_get (k : K) (m : BTreeMap K V) : option V :=
  match m with
  | [] => None
  | (k', v) :: m => match cmp k k' with Eq => Some v | _ => bt_get k m end
  end.

(** [map.insert(k, v)]; the value it returns is the [bt_get k] of the old map. *)
Fixpoint bt_insert (k : K) (v : V) (m : BTreeMap K V) : BTreeMap K V :=
  match m with
  | [] => [(k, v)]
  | (k', v') :: m' =>
      match cmp k k' with
      | Lt => (k, v) :: m
      | Eq => (k, v) :: m'
      | Gt => (k', v') :: bt_insert k v m'
      end
  end.

(** [map.remove(&k)]. *)
Fixpoint bt_remove (k : K) (m : BTreeMap K V) : BTreeMap K V :=
  match m with
  | [] => []
  | (k', v) :: m =>
      match cmp k k' with Eq => m | _ => (k', v) :: bt_remove k m end
  end.

Definition bt_contains (k : K) (m : BTreeMap K V) : bool :=
  match bt_get k m with Some _ => true | None => false end.

Definition bt_keys (m : BTreeMap K V) : list K := map fst m.
Definition bt_values (m : BTreeMap K V) : list V := map snd m.

Definition bt_wf (m : BTreeMap K V) : Prop := StronglySorted lt (bt_keys m).
End btree.

Definition BTreeSet (K : Type) : Type := BTreeMap K ().

Section bset.
Context {K : Type} `{Ord K}.

Definition set_contains (k : K) (s : BTreeSet K) : bool := bt_contains k s.
(** [set.insert(k)]; it returned [true] iff [set_contains k] was [false]. *)
Definition set_insert (k : K) (s : BTreeSet K) : BTreeSet K := bt_insert k () s.
Definition set_remove (k : K) (s : BTreeSet K) : BTreeSet K := bt_remove k s.
(** [iter.collect::<BTreeSet<_>>()]. *)
Definition set_of_list (l : list K) : BTreeSet K :=
  fold_left (λ s k, set_insert k s) l [].
Definition set_elems (s : BTreeSet K) : list K := bt_keys s.
End bset.

Section btree_laws.
Context {K V : Type} `{OrdLaws K}.
Implicit Types (m : BTreeMap K V) (k : K).

Lemma bt_get_insert_eq k v m : bt_get k (bt_insert k v m) = Some v.
Proof.
  induction m as [|[k' v'] m IH]; cbn; [by rewrite cmp_refl|].
  destruct (cmp k k') eqn:E; cbn; rewrite ?cmp_refl, ?E; done.
Qed.

Lemma bt_get_insert_ne k k' v m : k ≠ k' → bt_get k' (bt_insert k v m) = bt_get k' m.
Proof.
  intros Hne. assert (∀ A (a b : A), match cmp k' k with Eq => a | _ => b end = b) as Hd.
  { intros. destruct (cmp k' k) eqn:E; [by apply cmp_eq_iff in E|done..]. }
  induction m as [|[k1 v1] m IH]; cbn; [by rewrite Hd|].
  destruct (cmp k k1) eqn:E; cbn.
  - apply cmp_eq_iff in E as <-. by rewrite !Hd.
  - by rewrite Hd.
  - by rewrite IH.
Qed.

Lemma bt_get_insert k k' v m :
  bt_get k' (bt_insert k v m) = if decide (k = k') then Some v else bt_get k' m.
Proof.
  case_decide as Hk; [subst; apply bt_get_insert_eq|by apply bt_get_insert_ne].
Qed.

Lemma bt_get_None k m : bt_get k m = None ↔ k ∉ bt_keys m.
Proof.
  induction m as [|[k' v] m IH]; cbn; [set_solver|].
  rewrite not_elem_of_cons. destruct (cmp k k') eqn:E.
  - apply cmp_eq_iff in E. naive_solver.
  - rewrite IH. split; [split; [|done]|naive_solver].
    intros ->. by rewrite cmp_refl in E.
  - rewrite IH. split; [split; [|done]|naive_solver].
    intros ->. by rewrite cmp_refl in E.
Qed.

Lemma bt_get_elem k v m : bt_get k m = Some v → (k, v) ∈ m.
Proof.
  induction m as [|[k' v'] m IH]; cbn; [done|].
  destruct (cmp k k') eqn:E; [apply cmp_eq_iff in E as ->|..];
    rewrite elem_of_cons; naive_solver.
Qed.

Lemma bt_get_key k v m : bt_get k m = Some v → k ∈ bt_keys m.
Proof. intros Hg%bt_get_elem. apply list_elem_of_fmap. by exists (k, v). Qed.

Lemma bt_contains_elem k m : bt_contains k m = true ↔ k ∈ bt_keys m.
Proof.
  unfold bt_contains. destruct (bt_get k m) as [v|] eqn:E.
  - split; [|done]. intros _. by eapply bt_get_key.
  - apply bt_get_None in E. by split.
Qed.

Lemma bt_insert_keys k v m x : x ∈ bt_keys (bt_insert k v m) ↔ x = k ∨ x ∈ bt_keys m.
Proof.
  rewrite <-!bt_contains_elem. unfold bt_contains. rewrite bt_get_insert.
  case_decide; destruct (bt_get x m); naive_solver.
Qed.

Lemma bt_insert_wf k v m : bt_wf m → bt_wf (bt_insert k v m).
Proof.
  unfold bt_wf. induction m as [|[k' v'] m IH]; cbn.
  { repeat constructor. }
  inversion 1 as [|?? Hs Hk']; simplify_eq. destruct (cmp k k') eqn:E; cbn.
  - by apply cmp_eq_iff in E as <-.
  - constructor; [by constructor|]. constructor; [done|].
    eapply Forall_impl; [exact Hk'|]. intros z. by apply lt_trans.
  - constructor; [by apply IH|]. apply Forall_forall. intros x Hx.
    change (x ∈ bt_keys (bt_insert k v m)) in Hx.
    rewrite bt_insert_keys in Hx. destruct Hx as [->|Hx]; [by apply cmp_gt_lt|].
    rewrite Forall_forall in Hk'. by apply Hk'.
Qed.

Lemma bt_wf_nil : bt_wf ([] : BTreeMap K V).
Proof. constructor. Qed.

Lemma bt_wf_cons k v m : bt_wf ((k, v) :: m) → bt_wf m ∧ Forall (lt k) (bt_keys m).
Proof. inversion 1; naive_solver. Qed.

Lemma bt_wf_nodup m : bt_wf m → NoDup (bt_keys m).
Proof.
  intros Hm. apply (strongly_sorted_nodup fst). by apply strongly_sorted_key.
Qed.

Lemma bt_get_elem_iff k v m : bt_wf m → bt_get k m = Some v ↔ (k, v) ∈ m.
Proof.
  intros Hm. split; [apply bt_get_elem|].
  induction m as [|[k' v'] m IH]; [set_solver|].
  apply bt_wf_cons in Hm as [Hm Hk']. cbn. rewrite elem_of_cons.
  intros [[= -> ->]|Hin]; [by rewrite cmp_refl|].
  destruct (cmp k k') eqn:E; [|by apply IH..].
  apply cmp_eq_iff in E as ->. rewrite Forall_forall in Hk'.
  destruct (lt_irrefl k'). apply Hk'. apply list_elem_of_fmap. by exists (k', v).
Qed.

(** Two ordered maps with the same lookups are equal. *)
Lemma bt_ext m1 m2 :
  bt_wf m1 → bt_wf m2 → (∀ k, bt_get k m1 = bt_get k m2) → m1 = m2.
Proof.
  revert m2. induction m1 as [|[k1 v1] m1 IH]; intros [|[k2 v2] m2] H1 H2 Heq.
  - done.
  - specialize (Heq k2). cbn in Heq. by rewrite cmp_refl in Heq.
  - specialize (Heq k1). cbn in Heq. by rewrite cmp_refl in Heq.
  - apply bt_wf_cons in H1 as [H1 Hk1]. apply bt_wf_cons in H2 as [H2 Hk2].
    rewrite Forall_forall in Hk1, Hk2.
    assert (k1 = k2) as ->.
    { destruct (cmp k1 k2) eqn:E; [by apply cmp_eq_iff| |].
      - pose proof (Heq k1) as Hq. cbn in Hq. rewrite cmp_refl, E in Hq.
        symmetry in Hq. apply bt_get_key, Hk2 in Hq.
        destruct (lt_irrefl k1). by eapply lt_trans.
      - pose proof (Heq k2) as Hq. cbn in Hq. apply cmp_gt_lt in E.
        rewrite cmp_refl, E in Hq. apply bt_get_key, Hk1 in Hq.
        destruct (lt_irrefl k2). by eapply lt_trans. }
    pose proof (Heq k2) as Hq. cbn in Hq. rewrite cmp_refl in Hq.
    simplify_eq. f_equal. apply IH; [done..|]. intros k. specialize (Heq k). cbn in Heq.
    destruct (cmp k k2) eqn:E; [|done..]. apply cmp_eq_iff in E as ->.
    assert (∀ m, (∀ x, x ∈ bt_keys m → lt k2 x) → bt_get k2 m = None) as Hn.
    { intros m Hm. apply bt_get_None. intros Hx%Hm. by eapply lt_irrefl. }
    by rewrite !Hn.
Qed.

Lemma bt_get_remove_ne k k' m : k ≠ k' → bt_get k' (bt_remove k m) = bt_get k' m.
Proof.
  intros Hne. induction m as [|[k1 v1] m IH]; cbn; [done|].
  destruct (cmp k k1) eqn:E; cbn; rewrite ?IH; [|done..].
  apply cmp_eq_iff in E as ->.
  destruct (cmp k' k1) eqn:E; [apply cmp_eq_iff in E; congruence|done..].
Qed.

Lemma bt_get_remove_eq k m : bt_wf m → bt_get k (bt_remove k m) = None.
Proof.
  induction m as [|[k1 v1] m IH]; [done|]. intros [Hm Hk]%bt_wf_cons. cbn.
  destruct (cmp k k1) eqn:E; cbn; rewrite ?E; [|by apply IH..].
  apply cmp_eq_iff in E as ->. apply bt_get_None. intros Hx.
  rewrite Forall_forall in Hk. by apply (lt_irrefl k1), Hk.
Qed.

Lemma bt_remove_keys_sub k m x : x ∈ bt_keys (bt_remove k m) → x ∈ bt_keys m.
Proof.
  induction m as [|[k1 v1] m IH]; cbn; [done|].
  destruct (cmp k k1); cbn; set_solver.
Qed.

Lemma bt_remove_wf k m : bt_wf m → bt_wf (bt_remove k m).
Proof.
  induction m as [|[k' v'] m IH]; [done|]. intros [Hm Hk]%bt_wf_cons.
  cbn. rewrite Forall_forall in Hk.
  destruct (cmp k k'); [done|..]; (constructor; [by apply IH|]);
    apply Forall_forall; intros x Hx; by eapply Hk, bt_remove_keys_sub.
Qed.
End btree_laws.

Section bset_laws.
Context {K : Type} `{OrdLaws K}.
Implicit Types (s : BTreeSet K) (k : K).

Lemma set_contains_elem k s : set_contains k s = true ↔ k ∈ set_elems s.
Proof. apply bt_contains_elem. Qed.

Lemma set_contains_false k s : set_contains k s = false ↔ k ∉ set_elems s.
Proof. rewrite <-set_contains_elem. by destruct (set_contains k s). Qed.

Lemma set_insert_elems k s x : x ∈ set_elems (set_insert k s) ↔ x = k ∨ x ∈ set_elems s.
Proof. apply bt_insert_keys. Qed.

Lemma set_insert_wf k s : bt_wf s → bt_wf (set_insert k s).
Proof. apply bt_insert_wf. Qed.

Lemma set_of_list_acc (l : list K) s x :
  x ∈ set_elems (fold_left (λ s k, set_insert k s) l s) ↔ x ∈ l ∨ x ∈ set_elems s.
Proof.
  revert s; induction l as [|y l IH]; intros s; cbn [fold_left]; [set_solver|].
  rewrite IH, set_insert_elems, elem_of_cons. naive_solver.
Qed.

Lemma set_of_list_elems (l : list K) x : x ∈ set_elems (set_of_list l) ↔ x ∈ l.
Proof. etransitivity; [apply (set_of_list_acc l [])|set_solver]. Qed.

Lemma set_of_list_wf (l : list K) : bt_wf (set_of_list l).
Proof.
  unfold set_of_list. assert (bt_wf ([] : BTreeSet K)) as Hs by constructor.
  revert Hs. generalize ([] : BTreeSet K). induction l; cbn; intros s Hs; [done|].
  by apply IHl, set_insert_wf.
Qed.

Lemma set_insert_present k s : bt_wf s → set_contains k s = true → set_insert k s = s.
Proof.
  intros Hs Hc. apply bt_ext; [by apply set_insert_wf|done|]. intros x.
  unfold set_insert. rewrite bt_get_insert. case_decide as E; [subst|done].
  unfold set_contains, bt_contains in Hc. by destruct (bt_get x s) as [[]|].
Qed.

Lemma set_insert_length k s :
  bt_wf s →
  length (set_insert k s) = if set_contains k s then length s else S (length s).
Proof.
  intros Hs. destruct (set_contains k s) eqn:Hc; [by rewrite set_insert_present|].
  clear Hs. revert Hc. unfold set_contains, bt_contains, set_insert.
  induction s as [|[k' []] s IH]; cbn; [done|].
  destruct (cmp k k'); cbn; [done|done|]. intros Hc. by rewrite IH.
Qed.

Lemma set_of_list_length_acc (l : list K) s :
  bt_wf s →
  (length (fold_left (λ s k, set_insert k s) l s) ≤ length l + length s)%nat ∧
  (length (fold_left (λ s k, set_insert k s) l s) = (length l + length s)%nat ↔
    NoDup l ∧ ∀ x, x ∈ l → x ∉ set_elems s).
Proof.
  revert s; induction l as [|y l IH]; intros s Hs; cbn [fold_left length].
  { split; [lia|]. split; [|done]. split; [constructor|set_solver]. }
  destruct (IH (set_insert y s)) as [Hle Heq]; [by apply set_insert_wf|].
  rewrite set_insert_length in Hle, Heq by done. setoid_rewrite set_insert_elems in Heq.
  rewrite NoDup_cons. destruct (set_contains y s) eqn:Hc.
  - apply set_contains_elem in Hc. split; [lia|]. split; [lia|set_solver].
  - apply set_contains_false in Hc. split; [lia|].
    rewrite Nat.add_succ_r in Heq. cbn. rewrite Heq. set_solver.
Qed.

(** [unique.len() == ids.len()] holds exactly for duplicate-free slices. *)
Lemma set_of_list_length (l : list K) :
  length (set_of_list l) = length l ↔ NoDup l.
Proof.
  destruct (set_of_list_length_acc l []) as [_ Hl]; [constructor|].
  unfold set_of_list. cbn in Hl. rewrite Nat.add_0_r in Hl. rewrite Hl. set_solver.
Qed.
End bset_laws.

(** ** Collecting into a map without repeated keys

    [for x in l { if map.insert(key(x), value(x)).is_some() { return Err(error(x)) } }]. *)

Section collect.
Context {E A K V : Type} `{Ord K} (error : A → E) (key : A → K) (value : A → V).

Definition insert_unique (m : BTreeMap K V) (x : A) : result E (BTreeMap K V) :=
  bail_if bt_contains (key x) m with error x;
  Ok (bt_insert (key x) (value x) m).

Definition collect_unique (l : list A) : result E (BTreeMap K V) :=
  try_fold insert_unique l [].
End collect.

Section collect_laws.
Context {E A K V : Type} `{OrdLaws K} (error : A → E) (key : A → K) (value : A → V).
Implicit Types (m : BTreeMap K V) (l : list A).

(** The map holds exactly the elements of [l]. *)
Definition collected l m : Prop :=
  bt_wf m ∧ NoDup (map key l) ∧
  ∀ k v, bt_get k m = Some v ↔ ∃ x, x ∈ l ∧ key x = k ∧ value x = v.

Lemma collected_nil : collected [] [].
Proof. split_and!; [constructor..|]. cbn. set_solver. Qed.

Lemma collected_snoc l m x :
  collected l m → key x ∉ map key l → collected (l ++ [x]) (bt_insert (key x) (value x) m).
Proof.
  intros (Hwf & Hnd & Hget) Hx. split_and!; [by apply bt_insert_wf| |].
  - rewrite map_app. by apply NoDup_snoc.
  - intros k v. rewrite bt_get_insert. case_decide as Hk.
    + split; [intros [= <-]; exists x; set_solver|].
      intros (y & [Hy|Hy%list_elem_of_singleton]%elem_of_app & Hky & Hv); [|congruence].
      destruct Hx. rewrite Hk, <-Hky. by apply list_elem_of_fmap_2.
    + rewrite Hget. split; [intros (y & ? & ?); exists y; set_solver|].
      intros (y & [Hy|Hy%list_elem_of_singleton]%elem_of_app & Hky & Hv); [by eauto|congruence].
Qed.

Lemma collected_contains l m k : collected l m → bt_contains k m = true ↔ k ∈ map key l.
Proof.
  intros (_ & _ & Hget). unfold bt_contains. rewrite list_elem_of_fmap.
  destruct (bt_get k m) as [v|] eqn:Hk.
  - split; [|done]. intros _. apply Hget in Hk as (x & ? & ? & _). eauto.
  - split; [done|]. intros (x & -> & Hx). assert (bt_get (key x) m = Some (value x)); [|congruence].
    apply Hget. eauto.
Qed.

Lemma collect_unique_Ok l m :
  collect_unique error key value l = Ok m → collected l m.
Proof.
  apply (try_fold_inv _ collected); [|apply collected_nil].
  intros pre x st st' Hc _. unfold insert_unique. intros [Hb [= <-]]%bail_Ok.
  apply collected_snoc; [done|]. by rewrite <-(collected_contains _ _ _ Hc), Hb.
Qed.

Lemma collect_unique_total l :
  NoDup (map key l) → ∃ m, collect_unique error key value l = Ok m ∧ collected l m.
Proof.
  induction l as [|x l IH] using rev_ind; intros Hnd.
  { exists []. split; [done|apply collected_nil]. }
  rewrite map_app in Hnd. apply NoDup_app in Hnd as (Hnd & Hdis & _).
  destruct (IH Hnd) as (m & Hm & Hc). unfold collect_unique in *.
  rewrite try_fold_app, Hm. cbn [mbind result_bind try_fold]. unfold insert_unique.
  assert (key x ∉ map key l) as Hx by (intros Hx; apply (Hdis _ Hx); by left).
  assert (bt_contains (key x) m = false) as ->.
  { apply not_true_iff_false. by rewrite (collected_contains _ _ _ Hc). }
  eexists; split; [reflexivity|]. by apply collected_snoc.
Qed.

Lemma collected_unique l l' m m' :
  collected l m → collected l' m' → l ≡ₚ l' → m = m'.
Proof.
  intros (Hw & _ & Hg) (Hw' & _ & Hg') Hp. apply bt_ext; [done..|]. intros k.
  apply option_eq. intros v. rewrite Hg, Hg'. by setoid_rewrite Hp.
Qed.

End collect_laws.

(** ** Walking a map along a sorted list of keys *)

Section walk.
Context {K V : Type} `{OrdLaws K}.

Lemma bt_get_cons_gt k k' v (m : BTreeMap K V) :
  lt k k' → bt_get k' ((k, v) :: m) = bt_get k' m.
Proof.
  intros Hlt. cbn. destruct (cmp k' k) eqn:E; [|done..].
  apply cmp_eq_iff in E as ->. by apply lt_irrefl in Hlt.
Qed.

Lemma bt_get_below k (m : BTreeMap K V) : Forall (lt k) (bt_keys m) → bt_get k m = None.
Proof.
  intros Hk. apply bt_get_None. intros Hin. rewrite Forall_forall in Hk.
  by apply (lt_irrefl k), Hk.
Qed.

(** Looking up the keys of a sorted superset visits the map in its own order. *)
Lemma omap_keys {B} (g : K → V → option B) ks (m : BTreeMap K V) :
  StronglySorted lt ks → bt_wf m → (∀ k, k ∈ bt_keys m → k ∈ ks) →
  omap (λ k, v ← bt_get k m; g k v) ks = omap (λ e, g e.1 e.2) m.
Proof.
  intros Hks. revert m. induction Hks as [|k ks Hks IH Hk]; intros m Hm Hsub.
  { destruct m as [|[k v] m]; [done|]. destruct (not_elem_of_nil k). apply Hsub. by left. }
  assert (∀ ks' m', Forall (lt k) ks' → ∀ v,
    omap (λ k0, v0 ← bt_get k0 ((k, v) :: m'); g k0 v0) ks' =
    omap (λ k0, v0 ← bt_get k0 m'; g k0 v0) ks') as Hskip.
  { intros ks' m' Hks' v. induction Hks' as [|k0 ks' Hlt _ IH']; [done|].
    cbn [omap list_omap]. rewrite bt_get_cons_gt by done. by rewrite IH'. }
  rewrite Forall_forall in Hk. destruct m as [|[k' v] m].
  { cbn [omap list_omap]. rewrite (IH []); [done|constructor|set_solver]. }
  apply bt_wf_cons in Hm as Hm'. destruct Hm' as [Hm' Hk'].
  destruct (decide (k = k')) as [<-|Hne].
  - assert (omap (λ k0, v0 ← bt_get k0 ((k, v) :: m); g k0 v0) ks = omap (λ e, g e.1 e.2) m) as Htl.
    { rewrite Hskip by (by apply Forall_forall). apply IH; [done|].
      intros x Hx. rewrite Forall_forall in Hk'. specialize (Hk' x Hx).
      assert (x ∈ k :: ks) as [->|?]%elem_of_cons by (apply Hsub; by right); [|done].
      by apply lt_irrefl in Hk'. }
    cbn [omap list_omap fst snd]. rewrite Htl. cbn [bt_get]. rewrite cmp_refl. done.
  - assert (k' ∈ ks) as Hin.
    { assert (k' ∈ k :: ks) as [->|?]%elem_of_cons by (apply Hsub; by left); done. }
    assert (bt_get k ((k', v) :: m) = None) as Hnone.
    { apply bt_get_below. constructor; [by apply Hk|]. eapply Forall_impl; [exact Hk'|].
      intros x. apply lt_trans. by apply Hk. }
    cbn [omap list_omap]. rewrite Hnone. cbn [mbind option_bind].
    apply (IH ((k', v) :: m)); [done|]. intros x Hx.
    assert (x ∈ k :: ks) as [->|?]%elem_of_cons by (by apply Hsub); [|done].
    apply bt_get_None in Hnone. done.
Qed.
End walk.
