(* ===== verification/Utf8.v ===== *)
(** * UTF-8 and Rust strings

    A Rust [String] is the list of its [char]s, which are Unicode scalar values; its
    bytes are their UTF-8 encoding.  [from_utf8] is [std::str::from_utf8]: it accepts
    exactly the well-formed encodings, so decoding and encoding are mutually inverse.
    Unicode normalization and case folding come from third-party crates
    ([unicode-normalization], [unicode-casefold]) and are parameters of the model. *)

From S2P Require Import Prelude Machine Order.
From Stdlib Require Strings.String Strings.Ascii.
Export String.StringSyntax.

(** A [char]: a scalar value, not a surrogate. *)
Definition is_char (c : Z) : bool :=
  (0 <=? c) && (c <=? 0x10ffff) && negb ((0xd800 <=? c) && (c <=? 0xdfff)).

Definition str : Type := list Z.

(** A Rust string literal of ASCII characters. *)
Definition lit (s : String.string) : str :=
  map (λ a, Z.of_N (Ascii.N_of_ascii a)) (String.list_ascii_of_string s).
#[global] Arguments lit s%_string_scope.

(** [c.encode_utf8()]. *)
Definition utf8_encode_char (c : Z) : list Z :=
  if c <? 0x80 then [c]
  else if c <? 0x800 then [0xc0 + c / 64; 0x80 + c `mod` 64]
  else if c <? 0x10000 then
    [0xe0 + c / 4096; 0x80 + (c / 64) `mod` 64; 0x80 + c `mod` 64]
  else
    [0xf0 + c / 262144; 0x80 + (c / 4096) `mod` 64; 0x80 + (c / 64) `mod` 64;
     0x80 + c `mod` 64].

(** [s.as_bytes()] and [s.len()]. *)
Definition as_bytes (s : str) : list Z := flat_map utf8_encode_char s.
Definition str_len (s : str) : Z := len (as_bytes s).

Definition is_cont (b : Z) : bool := (0x80 <=? b) && (b <=? 0xbf).

Definition cons_char (c : Z) (o : option str) : option str := cons c <$> o.
#[global] Arguments cons_char : simpl never.

(** [std::str::from_utf8(bytes)]: rejects stray and missing continuation bytes,
    overlong forms, surrogates and values above U+10FFFF. *)
Fixpoint from_utf8 (bs : list Z) : option str :=
  match bs with
  | [] => Some []
  | b0 :: r0 =>
      if b0 <? 0x80 then cons_char b0 (from_utf8 r0)
      else if b0 <? 0xe0 then
        match r0 with
        | b1 :: r1 =>
            let c := (b0 - 0xc0) * 64 + (b1 - 0x80) in
            if (0xc2 <=? b0) && is_cont b1 then cons_char c (from_utf8 r1) else None
        | _ => None
        end
      else if b0 <? 0xf0 then
        match r0 with
        | b1 :: b2 :: r2 =>
            let c := (b0 - 0xe0) * 4096 + (b1 - 0x80) * 64 + (b2 - 0x80) in
            if is_cont b1 && is_cont b2 && (0x800 <=? c) && is_char c
            then cons_char c (from_utf8 r2) else None
        | _ => None
        end
      else
        match r0 with
        | b1 :: b2 :: b3 :: r3 =>
            let c := (b0 - 0xf0) * 262144 + (b1 - 0x80) * 4096
                     + (b2 - 0x80) * 64 + (b3 - 0x80) in
            if is_cont b1 && is_cont b2 && is_cont b3 && (0x10000 <=? c) && is_char c
            then cons_char c (from_utf8 r3) else None
        | _ => None
        end
  end.

Definition is_str (s : str) : bool := forallb is_char s.

(** The Unicode services the sources import from third-party crates:
    [UnicodeNormalization::nfc] on a character sequence and
    [UnicodeCaseFold::case_fold] (full default case folding). *)
Class Unicode := {
  nfc : str → str;
  case_fold : str → str }.

(** [text.nfc().eq(text.chars())]. *)
Definition is_nfc `{Unicode} (s : str) : bool := bool_decide (nfc s = s).

(** A concrete instance for evaluation: correct on ASCII text, where every string is in
    NFC and folding is lower-casing. *)
Definition ascii_unicode : Unicode := {|
  nfc := id;
  case_fold := map (λ c, if (65 <=? c) && (c <=? 90) then c + 32 else c) |}.

(** ** Round trips *)

Lemma is_char_spec c :
  is_char c = true ↔ 0 ≤ c ≤ 0x10ffff ∧ ¬ (0xd800 ≤ c ≤ 0xdfff).
Proof.
  unfold is_char. rewrite !andb_true_iff, negb_true_iff, andb_false_iff, !Z.leb_le,
    !Z.leb_gt. lia.
Qed.

Lemma is_cont_spec b : is_cont b = true ↔ 0x80 ≤ b ≤ 0xbf.
Proof. unfold is_cont. rewrite andb_true_iff, !Z.leb_le. lia. Qed.

Ltac zdiv := Z.to_euclidean_division_equations; lia.

Lemma as_bytes_app s t : as_bytes (s ++ t) = as_bytes s ++ as_bytes t.
Proof. unfold as_bytes. by rewrite flat_map_app. Qed.

Lemma as_bytes_cons c s : as_bytes (c :: s) = utf8_encode_char c ++ as_bytes s.
Proof. done. Qed.

Lemma utf8_encode_char_bytes c : is_char c = true → is_bytes (utf8_encode_char c) = true.
Proof.
  rewrite is_char_spec, is_bytes_spec. intros Hc. unfold utf8_encode_char.
  repeat case_match; repeat constructor;
    repeat match goal with H : (_ <? _) = _ |- _ => apply Z.ltb_lt in H || apply Z.ltb_ge in H end;
    zdiv.
Qed.

Lemma as_bytes_is_bytes s : is_str s = true → is_bytes (as_bytes s) = true.
Proof.
  unfold is_str. induction s as [|c s IH]; [done|]. cbn [forallb].
  intros [Hc Hs]%andb_true_iff. rewrite as_bytes_cons, is_bytes_app.
  by rewrite utf8_encode_char_bytes, IH.
Qed.

(** Decoding peels off one encoded character. *)
Lemma from_utf8_char c bs :
  is_char c = true →
  from_utf8 (utf8_encode_char c ++ bs) = cons_char c (from_utf8 bs).
Proof.
  rewrite is_char_spec. intros Hc. unfold utf8_encode_char.
  destruct (Z.ltb_spec c 0x80) as [H1|H1].
  { cbn. destruct (Z.ltb_spec c 0x80); [done|lia]. }
  destruct (Z.ltb_spec c 0x800) as [H2|H2].
  { cbn. destruct (Z.ltb_spec (0xc0 + c / 64) 0x80); [zdiv|].
    destruct (Z.ltb_spec (0xc0 + c / 64) 0xe0); [|zdiv].
    replace ((0xc2 <=? 0xc0 + c / 64) && is_cont (0x80 + c `mod` 64)) with true.
    - f_equal. zdiv.
    - symmetry. rewrite andb_true_iff, Z.leb_le, is_cont_spec. zdiv. }
  destruct (Z.ltb_spec c 0x10000) as [H3|H3].
  { cbn. destruct (Z.ltb_spec (0xe0 + c / 4096) 0x80); [zdiv|].
    destruct (Z.ltb_spec (0xe0 + c / 4096) 0xe0); [zdiv|].
    destruct (Z.ltb_spec (0xe0 + c / 4096) 0xf0); [|zdiv].
    set (c' := (0xe0 + c / 4096 - 0xe0) * 4096 + _ + _).
    assert (c' = c) as -> by (unfold c'; zdiv).
    replace (is_cont _ && is_cont _ && _ && is_char c) with true; [done|].
    symmetry. rewrite !andb_true_iff, Z.leb_le, !is_cont_spec, is_char_spec. zdiv. }
  cbn. destruct (Z.ltb_spec (0xf0 + c / 262144) 0x80); [zdiv|].
  destruct (Z.ltb_spec (0xf0 + c / 262144) 0xe0); [zdiv|].
  destruct (Z.ltb_spec (0xf0 + c / 262144) 0xf0); [zdiv|].
  set (c' := (0xf0 + c / 262144 - 0xf0) * 262144 + _ + _ + _).
  assert (c' = c) as -> by (unfold c'; zdiv).
  replace (is_cont _ && is_cont _ && is_cont _ && _ && is_char c) with true; [done|].
  symmetry. rewrite !andb_true_iff, Z.leb_le, !is_cont_spec, is_char_spec. zdiv.
Qed.

(** Every string is recovered from its bytes. *)
Lemma from_utf8_as_bytes s : is_str s = true → from_utf8 (as_bytes s) = Some s.
Proof.
  unfold is_str. induction s as [|c s IH]; [done|]. cbn [forallb].
  intros [Hc Hs]%andb_true_iff. rewrite as_bytes_cons, from_utf8_char by done.
  by rewrite IH.
Qed.

Lemma cons_char_Some c o s :
  cons_char c o = Some s ↔ ∃ t, o = Some t ∧ s = c :: t.
Proof. unfold cons_char. destruct o; cbn; naive_solver. Qed.

(** Whatever is accepted is the unique encoding of the decoded string. *)
Lemma from_utf8_sound bs s :
  is_bytes bs = true → from_utf8 bs = Some s → as_bytes s = bs ∧ is_str s = true.
Proof.
  remember (length bs) as n eqn:Hn. revert bs s Hn.
  induction n as [n IH] using lt_wf_ind. intros bs s Hn Hbs Hs. subst n.
  assert (∀ r t c e, bs = e ++ r → e ≠ [] → from_utf8 r = Some t → s = c :: t →
    is_char c = true → utf8_encode_char c = e → as_bytes s = bs ∧ is_str s = true) as Hstep.
  { intros r t c e -> He Hr -> Hc Henc. rewrite is_bytes_app, andb_true_iff in Hbs.
    destruct (IH (length r)) with (bs := r) (s := t) as [Hb Ht]; try done.
    - rewrite length_app. destruct e; [done|cbn; lia].
    - by destruct Hbs.
    - rewrite as_bytes_cons, Hb, Henc. unfold is_str in *. cbn. by rewrite Hc, Ht. }
  clear IH. rewrite is_bytes_spec in Hbs. destruct bs as [|b0 r0]; cbn in Hs.
  { by simplify_eq. }
  apply Forall_cons in Hbs as [Hb0 Hbs].
  destruct (Z.ltb_spec b0 0x80).
  { apply cons_char_Some in Hs as (t & Ht & ->). eapply (Hstep r0 t b0 [b0]); try done.
    - apply is_char_spec. lia.
    - unfold utf8_encode_char. by destruct (Z.ltb_spec b0 0x80); [|lia]. }
  destruct (Z.ltb_spec b0 0xe0).
  { destruct r0 as [|b1 r1]; [done|].
    destruct ((0xc2 <=? b0) && is_cont b1) eqn:E; [|done].
    rewrite andb_true_iff, Z.leb_le, is_cont_spec in E.
    apply cons_char_Some in Hs as (t & Ht & ->).
    eapply (Hstep r1 t _ [b0; b1]); try done; [apply is_char_spec; lia|].
    unfold utf8_encode_char. repeat case_match; rewrite ?Z.ltb_lt, ?Z.ltb_ge in *; [lia| |lia..].
    f_equal; [zdiv|]. f_equal. zdiv. }
  destruct (Z.ltb_spec b0 0xf0).
  { destruct r0 as [|b1 [|b2 r2]]; [done..|].
    destruct (is_cont b1 && _ && _ && _) eqn:E; [|done].
    rewrite !andb_true_iff, Z.leb_le, !is_cont_spec in E. destruct E as [E Hc].
    apply cons_char_Some in Hs as (t & Ht & ->).
    eapply (Hstep r2 t _ [b0; b1; b2]); try done. apply is_char_spec in Hc.
    unfold utf8_encode_char. repeat case_match; rewrite ?Z.ltb_lt, ?Z.ltb_ge in *; [lia..| |lia].
    f_equal; [zdiv|]. f_equal; [zdiv|]. f_equal. zdiv. }
  destruct r0 as [|b1 [|b2 [|b3 r3]]]; [done..|].
  destruct (is_cont b1 && _ && _ && _ && _) eqn:E; [|done].
  rewrite !andb_true_iff, Z.leb_le, !is_cont_spec in E. destruct E as [E Hc].
  apply cons_char_Some in Hs as (t & Ht & ->).
  eapply (Hstep r3 t _ [b0; b1; b2; b3]); try done. apply is_char_spec in Hc.
  unfold utf8_encode_char. repeat case_match; rewrite ?Z.ltb_lt, ?Z.ltb_ge in *; [lia..|].
  f_equal; [zdiv|]. f_equal; [zdiv|]. f_equal; [zdiv|]. f_equal. zdiv.
Qed.

Lemma as_bytes_inj s t :
  is_str s = true → is_str t = true → as_bytes s = as_bytes t → s = t.
Proof.
  intros Hs Ht Heq. apply from_utf8_as_bytes in Hs, Ht. congruence.
Qed.
