(* ===== verification/Canonical.v ===== *)
(** * Canonical CBOR: [crates/rgit-objects/src/canonical.rs]

    The restricted value type, the resource limits, the bounded encoder and the strict
    decoder, each translated operation by operation.  The decoder keeps the input and
    a byte offset, as the source's [Decoder] does; its recursion is bounded by the
    nesting limit, so the fuel [max_depth + 1 - depth] is never exhausted
    ([CanonicalFacts.value_fuel]). *)

From S2P Require Import Prelude Machine Order Utf8.

Inductive Value : Type :=
  | Unsigned (n : Z)
  | Signed (n : Z)
  | Bytes (b : list Z)
  | Text (s : str)
  | Array (vs : list Value)
  | Map (es : list (Z * Value))
  | Bool (b : bool)
  | Null.

(** Induction through the nested lists. *)
Fixpoint value_rect' (P : Value → Prop)
    (HU : ∀ n, P (Unsigned n)) (HS : ∀ n, P (Signed n))
    (HB : ∀ b, P (Bytes b)) (HT : ∀ s, P (Text s))
    (HA : ∀ vs, Forall P vs → P (Array vs))
    (HM : ∀ es, Forall (λ e, P e.2) es → P (Map es))
    (HBo : ∀ b, P (Bool b)) (HN : P Null) (v : Value) : P v :=
  let go := value_rect' P HU HS HB HT HA HM HBo HN in
  match v with
  | Unsigned n => HU n
  | Signed n => HS n
  | Bytes b => HB b
  | Text s => HT s
  | Array vs => HA vs
      ((fix arr vs := match vs return Forall P vs with
        | [] => Forall_nil_2 _
        | v :: vs => Forall_cons_2 _ _ _ (go v) (arr vs) end) vs)
  | Map es => HM es
      ((fix ents es := match es return Forall (λ e, P e.2) es with
        | [] => Forall_nil_2 _
        | e :: es => Forall_cons_2 _ _ _ (go e.2) (ents es) end) es)
  | Bool b => HBo b
  | Null => HN
  end.

Fixpoint value_eqb (v w : Value) : bool :=
  match v, w with
  | Unsigned n, Unsigned m => n =? m
  | Signed n, Signed m => n =? m
  | Bytes b, Bytes c => bool_decide (b = c)
  | Text s, Text t => bool_decide (s = t)
  | Array vs, Array ws =>
      (fix arr vs ws := match vs, ws with
        | [], [] => true
        | v :: vs, w :: ws => value_eqb v w && arr vs ws
        | _, _ => false end) vs ws
  | Map es, Map fs =>
      (fix ents es fs := match es, fs with
        | [], [] => true
        | e :: es, f :: fs => (e.1 =? f.1) && value_eqb e.2 f.2 && ents es fs
        | _, _ => false end) es fs
  | Bool b, Bool c => Bool.eqb b c
  | Null, Null => true
  | _, _ => false
  end.

Lemma value_eqb_eq v w : value_eqb v w = true ↔ v = w.
Proof.
  revert w. induction v as [n|n|b|s|vs IH|es IH|b|] using value_rect'; intros w;
    destruct w as [n'|n'|b'|s'|ws|fs|b'|]; cbn; try done.
  - rewrite Z.eqb_eq. naive_solver.
  - rewrite Z.eqb_eq. naive_solver.
  - rewrite bool_decide_eq_true. naive_solver.
  - rewrite bool_decide_eq_true. naive_solver.
  - transitivity (vs = ws); [|naive_solver]. revert ws.
    induction IH as [|v vs Hv _ IH]; intros [|w ws]; [done..|].
    rewrite andb_true_iff, Hv, IH. naive_solver.
  - transitivity (es = fs); [|naive_solver]. revert fs.
    induction IH as [|[k v] es Hv _ IH]; intros [|[k' v'] fs]; [done..|]; cbn in *.
    rewrite !andb_true_iff, Hv, IH, Z.eqb_eq. naive_solver.
  - rewrite eqb_true_iff. naive_solver.
Qed.

#[export] Instance Value_eq_dec : EqDecision Value.
Proof.
  intros v w. destruct (value_eqb v w) eqn:E; [left; by apply value_eqb_eq|right].
  intros Heq%value_eqb_eq. congruence.
Defined.

(** ** Limits *)

Record CanonicalLimits := mk_limits {
  max_bytes : Z;
  max_byte_string_bytes : Z;
  max_string_bytes : Z;
  max_depth : Z;
  max_collection_items : Z }.

Definition METADATA_MAX_ENCODED_BYTES : Z := 1024 * 1024.
Definition METADATA_MAX_BYTE_STRING_BYTES : Z := 256 * 1024.
Definition METADATA_MAX_TEXT_STRING_BYTES : Z := 64 * 1024.
Definition METADATA_MAX_DEPTH : Z := 64.
Definition METADATA_MAX_COLLECTION_ITEMS : Z := 65536.
Definition BULK_MAX_ENCODED_BYTES : Z := 16 * 1024 * 1024.
Definition BULK_MAX_BYTE_STRING_BYTES : Z := 4 * 1024 * 1024.
Definition BULK_MAX_TEXT_STRING_BYTES : Z := 64 * 1024.
Definition BULK_MAX_DEPTH : Z := 64.
Definition BULK_MAX_COLLECTION_ITEMS : Z := 1000000.

Definition metadata : CanonicalLimits := {|
  max_bytes := METADATA_MAX_ENCODED_BYTES;
  max_byte_string_bytes := METADATA_MAX_BYTE_STRING_BYTES;
  max_string_bytes := METADATA_MAX_TEXT_STRING_BYTES;
  max_depth := METADATA_MAX_DEPTH;
  max_collection_items := METADATA_MAX_COLLECTION_ITEMS |}.

Definition bulk : CanonicalLimits := {|
  max_bytes := BULK_MAX_ENCODED_BYTES;
  max_byte_string_bytes := BULK_MAX_BYTE_STRING_BYTES;
  max_string_bytes := BULK_MAX_TEXT_STRING_BYTES;
  max_depth := BULK_MAX_DEPTH;
  max_collection_items := BULK_MAX_COLLECTION_ITEMS |}.

Definition min_usize (left right : Z) : Z := if left <? right then left else right.

Definition restricted_by (self ceiling : CanonicalLimits) : CanonicalLimits := {|
  max_bytes := min_usize (max_bytes self) (max_bytes ceiling);
  max_byte_string_bytes :=
    min_usize (max_byte_string_bytes self) (max_byte_string_bytes ceiling);
  max_string_bytes := min_usize (max_string_bytes self) (max_string_bytes ceiling);
  max_depth := min_usize (max_depth self) (max_depth ceiling);
  max_collection_items :=
    min_usize (max_collection_items self) (max_collection_items ceiling) |}.

Inductive CanonicalError : Type :=
  | SizeLimit | DepthLimit | CollectionLimit | Truncated | TrailingBytes
  | ForbiddenType | NonMinimalInteger | InvalidMapKey | MapOrder | Utf8
  | NonNormalizedText | NonCanonical | InvalidValue.

#[export] Instance CanonicalError_eq_dec : EqDecision CanonicalError.
Proof. solve_decision. Defined.

(** ** Encoder *)

Definition check_collection (n : Z) (limits : CanonicalLimits) :
    result CanonicalError () :=
  bail_if max_collection_items limits <? n with CollectionLimit;
  Ok tt.

Definition extend (out bytes : list Z) (limits : CanonicalLimits) :
    result CanonicalError (list Z) :=
  new_len ← ok_or (checked_add (len out) (len bytes)) SizeLimit;
  bail_if max_bytes limits <? new_len with SizeLimit;
  Ok (out ++ bytes).

Definition push_head (out : list Z) (major value : Z) (limits : CanonicalLimits) :
    result CanonicalError (list Z) :=
  let prefix := as_u8 (Z.shiftl major 5) in
  if value <=? 23 then extend out [Z.lor prefix (as_u8 value)] limits
  else if value <=? 0xff then extend out [Z.lor prefix 24; as_u8 value] limits
  else if value <=? 0xffff then
    out ← extend out [Z.lor prefix 25] limits;
    extend out (to_be_bytes 2 value) limits
  else if value <=? 0xffff_ffff then
    out ← extend out [Z.lor prefix 26] limits;
    extend out (to_be_bytes 4 value) limits
  else
    out ← extend out [Z.lor prefix 27] limits;
    extend out (to_be_bytes 8 value) limits.

(** [ordered.windows(2).any(|pair| pair[0].0 == pair[1].0)]. *)
Fixpoint any_equal_neighbours (keys : list Z) : bool :=
  match keys with
  | k :: (k' :: _) as l => (k =? k') || any_equal_neighbours l
  | _ => false
  end.

Section encoder.
Context `{Unicode}.

(** Map entries are paired with their suspended encodings before the sort by key, so
    that the recursion stays structural; [CanonicalFacts.encode_into_map] is the
    source's reading (sort the entries, then encode each). *)
Fixpoint encode_into (self : Value) (out : list Z) (limits : CanonicalLimits)
    (depth : Z) : result CanonicalError (list Z) :=
  bail_if max_depth limits <? depth with DepthLimit;
  match self with
  | Unsigned value => push_head out 0 value limits
  | Signed value =>
      if 0 <=? value then push_head out 0 value limits
      else push_head out 1 (-1 - value) limits
  | Bytes bytes =>
      bail_if max_byte_string_bytes limits <? len bytes with SizeLimit;
      out ← push_head out 2 (len bytes) limits;
      extend out bytes limits
  | Text text =>
      bail_if negb (is_nfc text) with InvalidValue;
      bail_if max_string_bytes limits <? str_len text with SizeLimit;
      out ← push_head out 3 (str_len text) limits;
      extend out (as_bytes text) limits
  | Array values =>
      _ ← check_collection (len values) limits;
      out ← push_head out 4 (len values) limits;
      try_fold (λ out value, encode_into value out limits (depth + 1)) values out
  | Map entries =>
      _ ← check_collection (len entries) limits;
      out ← push_head out 5 (len entries) limits;
      let ordered := sort_by_key fst
        (map (λ e, (e.1, λ out, encode_into e.2 out limits (depth + 1))) entries) in
      bail_if any_equal_neighbours (map fst ordered) with InvalidValue;
      try_fold (λ out e, out ← push_head out 0 e.1 limits; e.2 out) ordered out
  | Bool false => extend out [0xf4] limits
  | Bool true => extend out [0xf5] limits
  | Null => extend out [0xf6] limits
  end.

Definition encode_with_limits (self : Value) (limits : CanonicalLimits) :
    result CanonicalError (list Z) :=
  encode_into self [] limits 0.

Definition encode (self : Value) : result CanonicalError (list Z) :=
  encode_with_limits self metadata.

End encoder.

(** ** Decoder *)

Module Decoder.
Section decoder.
Context `{Unicode} (input : list Z) (limits : CanonicalLimits).

(** [usize::try_from(value)]. *)
Definition usize_try_from (value : Z) (e : CanonicalError) : result CanonicalError Z :=
  if value <=? usize_max then Ok value else Err e.

Definition byte (offset : Z) : result CanonicalError (Z * Z) :=
  byte ← ok_or (input !! Z.to_nat offset) Truncated;
  Ok (byte, offset + 1).

Definition take (n offset : Z) : result CanonicalError (list Z * Z) :=
  stop ← ok_or (checked_add offset n) SizeLimit;
  bail_if len input <? stop with Truncated;
  Ok (firstn (Z.to_nat n) (skipn (Z.to_nat offset) input), stop).

Definition argument (additional offset : Z) : result CanonicalError (Z * Z) :=
  if additional <=? 23 then Ok (additional, offset)
  else if additional =? 24 then
    '(n, offset) ← byte offset;
    bail_if n <? 24 with NonMinimalInteger; Ok (n, offset)
  else if additional =? 25 then
    '(b, offset) ← take 2 offset;
    let n := from_be_bytes b in
    bail_if n <=? 0xff with NonMinimalInteger; Ok (n, offset)
  else if additional =? 26 then
    '(b, offset) ← take 4 offset;
    let n := from_be_bytes b in
    bail_if n <=? 0xffff with NonMinimalInteger; Ok (n, offset)
  else if additional =? 27 then
    '(b, offset) ← take 8 offset;
    let n := from_be_bytes b in
    bail_if n <=? 0xffff_ffff with NonMinimalInteger; Ok (n, offset)
  else Err ForbiddenType.

Definition length_ (additional offset : Z) : result CanonicalError (Z * Z) :=
  '(value, offset) ← argument additional offset;
  n ← usize_try_from value CollectionLimit;
  bail_if max_collection_items limits <? n with CollectionLimit;
  Ok (n, offset).

Definition string_length (additional offset : Z) : result CanonicalError (Z * Z) :=
  '(value, offset) ← argument additional offset;
  n ← usize_try_from value SizeLimit;
  bail_if max_string_bytes limits <? n with SizeLimit;
  Ok (n, offset).

Definition byte_string_length (additional offset : Z) :
    result CanonicalError (Z * Z) :=
  '(value, offset) ← argument additional offset;
  n ← usize_try_from value SizeLimit;
  bail_if max_byte_string_bytes limits <? n with SizeLimit;
  Ok (n, offset).

Section items.
Context (value : Z → result CanonicalError (Value * Z)).

(** [for _ in 0..len { values.push(self.value(depth + 1)?) }]. *)
Fixpoint array_items (n : nat) (offset : Z) :
    result CanonicalError (list Value * Z) :=
  match n with
  | O => Ok ([], offset)
  | S n =>
      '(v, offset) ← value offset;
      '(vs, offset) ← array_items n offset;
      Ok (v :: vs, offset)
  end.

(** The map loop, with its [keys] set and [previous] key. *)
Fixpoint map_items (n : nat) (keys : BTreeSet Z) (previous : option Z)
    (offset : Z) : result CanonicalError (list (Z * Value) * Z) :=
  match n with
  | O => Ok ([], offset)
  | S n =>
      '(key_initial, offset) ← byte offset;
      bail_if negb (Z.shiftr key_initial 5 =? 0) with InvalidMapKey;
      '(key, offset) ← argument (Z.land key_initial 0x1f) offset;
      bail_if match previous with Some old => key <=? old | None => false end
              || set_contains key keys with MapOrder;
      '(v, offset) ← value offset;
      '(es, offset) ← map_items n (set_insert key keys) (Some key) offset;
      Ok ((key, v) :: es, offset)
  end.
End items.

Fixpoint value (fuel : nat) (depth offset : Z) : result CanonicalError (Value * Z) :=
  bail_if max_depth limits <? depth with DepthLimit;
  match fuel with
  | O => Err DepthLimit
  | S fuel =>
      '(initial, offset) ← byte offset;
      let major := Z.shiftr initial 5 in
      let additional := Z.land initial 0x1f in
      if major =? 0 then
        '(n, offset) ← argument additional offset;
        Ok (Unsigned n, offset)
      else if major =? 1 then
        '(n, offset) ← argument additional offset;
        bail_if i64_max <? n with ForbiddenType;
        Ok (Signed (-1 - n), offset)
      else if major =? 2 then
        '(n, offset) ← byte_string_length additional offset;
        '(b, offset) ← take n offset;
        Ok (Bytes b, offset)
      else if major =? 3 then
        '(n, offset) ← string_length additional offset;
        '(b, offset) ← take n offset;
        text ← ok_or (from_utf8 b) Utf8;
        bail_if negb (is_nfc text) with NonNormalizedText;
        Ok (Text text, offset)
      else if major =? 4 then
        '(n, offset) ← length_ additional offset;
        '(vs, offset) ← array_items (value fuel (depth + 1)) (Z.to_nat n) offset;
        Ok (Array vs, offset)
      else if major =? 5 then
        '(n, offset) ← length_ additional offset;
        '(es, offset) ←
          map_items (value fuel (depth + 1)) (Z.to_nat n) [] None offset;
        Ok (Map es, offset)
      else if major =? 7 then
        if additional =? 20 then Ok (Bool false, offset)
        else if additional =? 21 then Ok (Bool true, offset)
        else if additional =? 22 then Ok (Null, offset)
        else Err ForbiddenType
      else Err ForbiddenType
  end.
End decoder.
End Decoder.

Section decode.
Context `{Unicode}.

(** Enough fuel for every nesting depth the limits admit. *)
Definition decode_fuel (limits : CanonicalLimits) : nat :=
  Z.to_nat (max_depth limits + 1).

Definition decode_canonical (input : list Z) (limits : CanonicalLimits) :
    result CanonicalError Value :=
  bail_if max_bytes limits <? len input with SizeLimit;
  '(v, offset) ← Decoder.value input limits (decode_fuel limits) 0 0;
  bail_if negb (offset =? len input) with TrailingBytes;
  encoded ← encode_with_limits v limits;
  bail_if negb (bool_decide (encoded = input)) with NonCanonical;
  Ok v.
End decode.
