(* ===== verification/CanonicalFacts.v ===== *)
(** * The canonical encoding is bijective on normal values

    A reference encoding [raw] without limits, the admissibility predicate [fits], the
    normal form [normalize], and the theorems that relate them to the encoder and the
    decoder of [Canonical]. *)

From S2P Require Import Prelude Machine Order Utf8 Canonical.
From Stdlib Require Import Sorting.Sorted Btauto.

(** ** Reference encoding *)

(** The shortest CBOR head for a major type and an argument. *)
Definition head (major n : Z) : list Z :=
  if n <=? 23 then [major * 32 + n]
  else if n <=? 0xff then [major * 32 + 24; n]
  else if n <=? 0xffff then (major * 32 + 25) :: to_be_bytes 2 n
  else if n <=? 0xffff_ffff then (major * 32 + 26) :: to_be_bytes 4 n
  else (major * 32 + 27) :: to_be_bytes 8 n.

Fixpoint raw (v : Value) : list Z :=
  match v with
  | Unsigned n => head 0 n
  | Signed n => if 0 <=? n then head 0 n else head 1 (-1 - n)
  | Bytes b => head 2 (len b) ++ b
  | Text s => head 3 (str_len s) ++ as_bytes s
  | Array vs => head 4 (len vs) ++ flat_map raw vs
  | Map es =>
      head 5 (len es) ++
      flat_map (λ e, head 0 e.1 ++ e.2) (sort_by_key fst (map (λ e, (e.1, raw e.2)) es))
  | Bool false => [0xf4]
  | Bool true => [0xf5]
  | Null => [0xf6]
  end.

(** The value the decoder returns: maps in key order, no non-negative [Signed]. *)
Fixpoint normalize (v : Value) : Value :=
  match v with
  | Signed n => if 0 <=? n then Unsigned n else Signed n
  | Array vs => Array (map normalize vs)
  | Map es => Map (sort_by_key fst (map (λ e, (e.1, normalize e.2)) es))
  | v => v
  end.

(** The integers, bytes and characters are in the range of their Rust types. *)
Fixpoint value_ok (v : Value) : bool :=
  match v with
  | Unsigned n => is_u64 n
  | Signed n => is_i64 n
  | Bytes b => is_bytes b
  | Text s => is_str s
  | Array vs => forallb value_ok vs
  | Map es => forallb (λ e, is_u64 e.1 && value_ok e.2) es
  | Bool _ | Null => true
  end.

(** The limits are [usize] values. *)
Definition limits_ok (l : CanonicalLimits) : Prop :=
  0 ≤ max_bytes l ≤ usize_max ∧ 0 ≤ max_byte_string_bytes l ≤ usize_max ∧
  0 ≤ max_string_bytes l ≤ usize_max ∧ 0 ≤ max_depth l ≤ usize_max ∧
  0 ≤ max_collection_items l ≤ usize_max.

Section facts.
Context `{Unicode}.

(** Everything but the total size: depth, string and collection limits, NFC text and
    duplicate-free keys. *)
Fixpoint fits (limits : CanonicalLimits) (depth : Z) (v : Value) : bool :=
  (depth <=? max_depth limits) &&
  match v with
  | Unsigned _ | Signed _ | Bool _ | Null => true
  | Bytes b => len b <=? max_byte_string_bytes limits
  | Text s => is_nfc s && (str_len s <=? max_string_bytes limits)
  | Array vs =>
      (len vs <=? max_collection_items limits) &&
      forallb (fits limits (depth + 1)) vs
  | Map es =>
      (len es <=? max_collection_items limits) && bool_decide (NoDup (map fst es)) &&
      forallb (λ e, fits limits (depth + 1) e.2) es
  end.

(** ** The encoder *)

Lemma head_length_pos major n : 0 < len (head major n).
Proof.
  unfold head. repeat case_match; autorewrite with len; rewrite ?to_be_bytes_len; lia.
Qed.

Lemma len_head major n : len (head major n) ≤ 9.
Proof. unfold head, len. repeat case_match; cbn; lia. Qed.

Lemma extend_Ok out bs limits out' :
  limits_ok limits →
  extend out bs limits = Ok out' ↔ out' = out ++ bs ∧ len out' ≤ max_bytes limits.
Proof.
  intros (Hm & _). unfold extend, checked_add. unfold usize_max in Hm.
  destruct (Z.leb_spec (len out + len bs) u64_max); cbn.
  - destruct (Z.ltb_spec (max_bytes limits) (len out + len bs)).
    + split; [done|]. intros [-> Hl]. rewrite len_app in Hl. lia.
    + split; [|naive_solver]. intros [= <-]. rewrite len_app. naive_solver.
  - split; [done|]. intros [-> Hl]. rewrite len_app in Hl. lia.
Qed.

Lemma prefix_lor major n : 0 ≤ major < 8 → 0 ≤ n < 32 →
  Z.lor (as_u8 (Z.shiftl major 5)) n = major * 32 + n.
Proof.
  intros. rewrite as_u8_small by (rewrite Z.shiftl_mul_pow2 by lia; lia).
  by rewrite lor_disjoint_add by lia.
Qed.

Lemma push_head_Ok out major n limits out' :
  limits_ok limits → 0 ≤ major < 8 → 0 ≤ n →
  push_head out major n limits = Ok out' ↔
    out' = out ++ head major n ∧ len out' ≤ max_bytes limits.
Proof.
  intros Hl Hmaj Hn. unfold push_head, head.
  assert (∀ p q, (extend out p limits ≫= λ o, extend o q limits) = Ok out' ↔
    out' = out ++ (p ++ q) ∧ len out' ≤ max_bytes limits) as Hseq.
  { intros p q. rewrite bind_Ok. setoid_rewrite extend_Ok; [|done..]. split.
    - intros (o & [-> _] & -> & Hb). by rewrite <-app_assoc in *.
    - intros [-> Hb]. exists (out ++ p). rewrite <-app_assoc, !len_app in *.
      pose proof (len_nonneg q). naive_solver lia. }
  destruct (Z.leb_spec n 23);
    [rewrite (as_u8_small n) by lia; rewrite prefix_lor by lia; by apply extend_Ok|].
  rewrite !prefix_lor by lia.
  destruct (Z.leb_spec n 0xff); [rewrite (as_u8_small n) by lia; by apply extend_Ok|].
  destruct (Z.leb_spec n 0xffff); [apply Hseq|].
  destruct (Z.leb_spec n 0xffff_ffff); apply Hseq.
Qed.

Lemma check_collection_bind {A} n limits (k : () → result CanonicalError A) r :
  (check_collection n limits ≫= k) = Ok r ↔ n ≤ max_collection_items limits ∧ k tt = Ok r.
Proof.
  unfold check_collection.
  destruct (Z.ltb_spec (max_collection_items limits) n); cbn; naive_solver lia.
Qed.

(** A head followed by a continuation that appends [enc] when [P] holds. *)
Lemma push_head_then P enc k out out' major n limits :
  limits_ok limits → 0 ≤ major < 8 → 0 ≤ n →
  (∀ o, len o ≤ max_bytes limits → k o = Ok out' ↔
    P ∧ out' = o ++ enc ∧ len out' ≤ max_bytes limits) →
  (push_head out major n limits ≫= k) = Ok out' ↔
    P ∧ out' = out ++ (head major n ++ enc) ∧ len out' ≤ max_bytes limits.
Proof.
  intros Hl Hmaj Hn Hk. rewrite bind_Ok. split.
  - intros (o & Ho & Hko). apply push_head_Ok in Ho as [-> Ho]; [|done..].
    apply Hk in Hko; [|done]. by rewrite <-app_assoc in Hko.
  - intros (HP & -> & Hlen). exists (out ++ head major n).
    rewrite app_assoc in *. pose proof (len_nonneg enc).
    assert (len (out ++ head major n) ≤ max_bytes limits) by (rewrite len_app in Hlen; lia).
    split; [by apply push_head_Ok|]. by apply Hk.
Qed.

(** A sequence of appends succeeds exactly when each element fits and the whole
    stays within the size limit. *)
Lemma try_fold_extend {A} (f : list Z → A → result CanonicalError (list Z))
    (fit : A → bool) (enc : A → list Z) l out out' limits :
  (∀ x o o', x ∈ l → len o ≤ max_bytes limits → f o x = Ok o' ↔
    fit x = true ∧ o' = o ++ enc x ∧ len o' ≤ max_bytes limits) →
  len out ≤ max_bytes limits →
  try_fold f l out = Ok out' ↔
    forallb fit l = true ∧ out' = out ++ flat_map enc l ∧ len out' ≤ max_bytes limits.
Proof.
  revert out. induction l as [|x l IH]; intros out Hf Hout; cbn.
  { rewrite app_nil_r. split; [intros [= <-]; done|by intros (_ & -> & _)]. }
  rewrite bind_Ok, andb_true_iff. setoid_rewrite Hf; [|set_solver|done]. split.
  - intros (o & (Hx & -> & Ho) & Hr). apply IH in Hr; [|set_solver|done].
    rewrite <-app_assoc in Hr. naive_solver.
  - intros ((Hx & Hl) & -> & Ho). exists (out ++ enc x).
    rewrite app_assoc, len_app in Ho. pose proof (len_nonneg (flat_map enc l)).
    split; [split; [done|split; [done|lia]]|].
    apply IH; [set_solver|lia|]. rewrite app_assoc, len_app. naive_solver.
Qed.

Lemma any_equal_neighbours_sorted (ks : list Z) :
  StronglySorted Z.le ks → any_equal_neighbours ks = false ↔ NoDup ks.
Proof.
  induction 1 as [|k ks Hs IH Hk]; [by split; [constructor|]|].
  destruct ks as [|k' ks]; cbn.
  { split; [|done]. intros _. apply NoDup_singleton. }
  fold (any_equal_neighbours (k' :: ks)).
  rewrite orb_false_iff, Z.eqb_neq, IH, (NoDup_cons k).
  inversion Hk as [|?? Hkk Hks]; simplify_eq. split; [|set_solver].
  intros [Hne Hnd]. split; [|done]. rewrite elem_of_cons. intros [->|Hin]; [done|].
  inversion Hs as [|?? _ Hk']; simplify_eq. rewrite Forall_forall in Hk'.
  apply Hk' in Hin. lia.
Qed.

Lemma sort_by_key_le {A} (key : A → Z) l :
  StronglySorted Z.le (map key (sort_by_key key l)).
Proof.
  induction l as [|x l IH]; cbn; [constructor|].
  revert IH. generalize (sort_by_key key l). clear l. intros l Hl.
  induction l as [|y l IH]; cbn; [repeat constructor|].
  cbn in Hl. apply StronglySorted_inv in Hl as [Hl Hy].
  unfold ltb, cmp, Z_ord. destruct (Z.compare_spec (key y) (key x)); cbn.
  - constructor; [by constructor|]. constructor; [lia|].
    eapply Forall_impl; [exact Hy|]. cbn. lia.
  - constructor; [by apply IH|]. rewrite sort_insert_perm. cbn. constructor; [lia|done].
  - constructor; [by constructor|]. constructor; [lia|].
    eapply Forall_impl; [exact Hy|]. cbn. lia.
Qed.

Lemma any_equal_neighbours_sort {A} (key : A → Z) l :
  any_equal_neighbours (map key (sort_by_key key l)) = false ↔ NoDup (map key l).
Proof.
  rewrite any_equal_neighbours_sorted by apply sort_by_key_le.
  by rewrite sort_by_key_perm.
Qed.

(** The map case of the encoder as the source states it: sort the entries by key,
    reject equal neighbours, then encode each entry in order. *)
Lemma encode_into_map es out limits depth :
  encode_into (Map es) out limits depth =
  (bail_if max_depth limits <? depth with DepthLimit;
   _ ← check_collection (len es) limits;
   out ← push_head out 5 (len es) limits;
   bail_if any_equal_neighbours (map fst (sort_by_key fst es)) with InvalidValue;
   try_fold (λ out e, out ← push_head out 0 e.1 limits;
                      encode_into e.2 out limits (depth + 1)) (sort_by_key fst es) out).
Proof.
  cbn. case_match; [done|]. destruct (check_collection _ _); [cbn|done].
  destruct (push_head out 5 _ limits) as [o|]; [cbn|done].
  rewrite (sort_by_key_map fst fst _ es) by done. rewrite map_map. cbn.
  case_match; [done|]. by rewrite try_fold_map.
Qed.

Lemma raw_map es :
  raw (Map es) =
    head 5 (len es) ++ flat_map (λ e, head 0 e.1 ++ raw e.2) (sort_by_key fst es).
Proof.
  cbn. f_equal. rewrite (sort_by_key_map fst fst _ es) by done.
  by rewrite flat_map_concat_map, map_map, <-flat_map_concat_map.
Qed.

(** The encoder appends the reference encoding, exactly when the value fits. *)
Lemma encode_into_Ok v out out' limits depth :
  limits_ok limits → value_ok v = true → len out ≤ max_bytes limits →
  encode_into v out limits depth = Ok out' ↔
    fits limits depth v = true ∧ out' = out ++ raw v ∧ len out' ≤ max_bytes limits.
Proof.
  intros Hl. revert out out' depth.
  induction v as [n|n|b|s|vs IH|es IH|b|] using value_rect'; intros out out' depth Hok Hout.
  - cbn. cbn in Hok. apply is_u64_spec in Hok.
    rewrite bail_Ok, push_head_Ok, Z.ltb_ge, andb_true_iff, Z.leb_le by (done || lia).
    naive_solver.
  - cbn. cbn in Hok. apply is_i64_spec in Hok.
    rewrite bail_Ok, Z.ltb_ge, andb_true_iff, Z.leb_le.
    destruct (Z.leb_spec 0 n); rewrite push_head_Ok by (done || lia); naive_solver.
  - cbn. rewrite !bail_Ok, !Z.ltb_ge, andb_true_iff, !Z.leb_le.
    rewrite (push_head_then True b); [naive_solver|done|lia|apply len_nonneg|].
    intros o Ho. rewrite extend_Ok by done. naive_solver.
  - cbn. rewrite !bail_Ok, !Z.ltb_ge, !andb_true_iff, !Z.leb_le, negb_false_iff.
    rewrite (push_head_then True (as_bytes s)); [naive_solver|done|lia|apply len_nonneg|].
    intros o Ho. rewrite extend_Ok by done. naive_solver.
  - cbn [encode_into fits raw value_ok] in *.
    rewrite bail_Ok, check_collection_bind, Z.ltb_ge, !andb_true_iff, !Z.leb_le.
    rewrite (push_head_then (forallb (fits limits (depth + 1)) vs = true)
      (flat_map raw vs)); [naive_solver|done|lia|apply len_nonneg|].
    intros o Ho. apply try_fold_extend; [|done]. intros x p p' Hx Hp.
    rewrite Forall_forall in IH. apply IH; [done| |done].
    rewrite forallb_forall in Hok. by apply Hok, list_elem_of_In.
  - rewrite encode_into_map, raw_map. cbn [fits value_ok] in *.
    rewrite bail_Ok, check_collection_bind, Z.ltb_ge, !andb_true_iff, !Z.leb_le.
    rewrite bool_decide_eq_true.
    rewrite (push_head_then (NoDup (map fst es) ∧
      forallb (λ e, fits limits (depth + 1) e.2) es = true)
      (flat_map (λ e, head 0 e.1 ++ raw e.2) (sort_by_key fst es)));
      [naive_solver|done|lia|apply len_nonneg|].
    intros o Ho. rewrite bail_Ok, any_equal_neighbours_sort.
    rewrite (try_fold_extend _ (λ e, fits limits (depth + 1) e.2)
      (λ e, head 0 e.1 ++ raw e.2) _ _ _ limits); [|clear o Ho|done].
    { rewrite forallb_sort. naive_solver. }
    intros [k v] o o' Hx Ho. cbn. rewrite sort_by_key_perm in Hx.
    rewrite Forall_forall in IH. rewrite forallb_forall in Hok.
    pose proof (Hok _ (proj1 (list_elem_of_In _ _) Hx)) as Hkv. cbn in Hkv.
    apply andb_true_iff in Hkv as [Hk%is_u64_spec Hv].
    apply push_head_then; [done|lia|lia|]. intros p Hp. by apply (IH (k, v)).
  - cbn. destruct b; rewrite bail_Ok, extend_Ok, Z.ltb_ge, andb_true_iff, Z.leb_le by done;
      naive_solver.
  - cbn. rewrite bail_Ok, extend_Ok, Z.ltb_ge, andb_true_iff, Z.leb_le by done.
    naive_solver.
Qed.

(** ** The decoder *)

(** Normal values: what the decoder can return. *)
Fixpoint normal (v : Value) : bool :=
  match v with
  | Signed n => n <? 0
  | Array vs => forallb normal vs
  | Map es => negb (any_window_geb (map fst es)) && forallb (λ e, normal e.2) es
  | _ => true
  end.

Section decoder.
Context (input : list Z) (limits : CanonicalLimits).
Context (Hbytes : is_bytes input = true) (Hlen : len input ≤ usize_max).
Context (Hlimits : limits_ok limits).

Notation reads := (reads input).

Lemma reads_bytes i j bs : reads i j bs → is_bytes bs = true.
Proof. by apply reads_is_bytes. Qed.

Lemma byte_Ok i b j : 0 ≤ i → Decoder.byte input i = Ok (b, j) ↔ reads i j [b].
Proof.
  intros Hi. unfold Decoder.byte. split.
  - intros Hb. inv_ok. by apply reads_lookup.
  - intros Hr. pose proof (reads_bounds _ _ _ _ Hr) as (_ & _ & ->).
    by apply reads_lookup in Hr as ->.
Qed.

Lemma take_Ok n i bs j :
  0 ≤ i → 0 ≤ n → Decoder.take input n i = Ok (bs, j) ↔ reads i j bs ∧ len bs = n.
Proof.
  intros Hi Hn. unfold Decoder.take, checked_add. split.
  - destruct (Z.leb_spec (i + n) u64_max); cbn; [|done]. intros Ht. inv_ok.
    apply Z.ltb_ge in Hb. unfold len in Hb. split.
    + exists (firstn (Z.to_nat i) input),
        (skipn (Z.to_nat n) (skipn (Z.to_nat i) input)).
      rewrite take_drop, take_drop. unfold len.
      rewrite !length_take, length_drop. split_and!; [done|lia..].
    + unfold len. rewrite length_take, length_drop. lia.
  - intros [Hr <-]. apply reads_bounds in Hr as Hb.
    destruct Hr as (pre & rest & Hin & -> & ->). unfold usize_max in Hlen.
    destruct (Z.leb_spec (len pre + len bs) u64_max); [|lia]. cbn.
    destruct (Z.ltb_spec (len input) (len pre + len bs)); [lia|].
    rewrite Hin. unfold len. rewrite !Nat2Z.id, drop_app_length, take_app_length. done.
Qed.

(** The argument bytes that may follow an initial byte with this additional info. *)
Definition arg_bytes (additional n : Z) (tail : list Z) : Prop :=
  0 ≤ n ≤ u64_max ∧ ∀ major, head major n = (major * 32 + additional) :: tail.

Lemma take_arg_Ok (w : nat) additional i n j (lo : Z) :
  0 ≤ i → (∀ n, 0 ≤ n → (lo <? n) = true → n < 256 ^ Z.of_nat w →
    ∀ major, head major n = (major * 32 + additional) :: to_be_bytes w n) →
  (∀ n tail, arg_bytes additional n tail → lo < n < 256 ^ Z.of_nat w) →
  256 ^ Z.of_nat w ≤ 2 ^ 64 →
  ('(b, offset) ← Decoder.take input (Z.of_nat w) i;
   bail_if from_be_bytes b <=? lo with NonMinimalInteger;
   Ok (from_be_bytes b, offset)) = Ok (n, j) ↔
  ∃ tail, reads i j tail ∧ arg_bytes additional n tail.
Proof.
  intros Hi Hhead Hrange Hw. split.
  - intros Ht. apply bind_Ok in Ht as ([b o] & Ht & Hk). inv_ok.
    apply take_Ok in Ht as [Hr Hbl]; [|lia..]. apply Z.leb_gt in Hb.
    assert (length b = w) as Hbw by (unfold len in Hbl; lia).
    pose proof (reads_bytes _ _ _ Hr) as Hby.
    pose proof (from_be_bytes_bound b Hby) as Hfb. rewrite Hbl in Hfb.
    exists b. split; [done|]. split; [unfold u64_max; lia|].
    intros major. rewrite Hhead; [|lia|apply Z.ltb_lt; lia|lia].
    by rewrite <-Hbw, to_from_be_bytes.
  - intros (tail & Hr & Ha). pose proof (Hrange _ _ Ha) as Hn.
    destruct Ha as [Hn64 Ha]. specialize (Ha 0).
    rewrite Hhead in Ha; [|lia|apply Z.ltb_lt; lia|lia]. injection Ha as <-.
    rewrite (proj2 (take_Ok (Z.of_nat w) i (to_be_bytes w n) j Hi ltac:(lia))).
    + cbn. rewrite from_to_be_bytes by lia.
      destruct (Z.leb_spec n lo); [lia|done].
    + split; [done|apply to_be_bytes_len].
Qed.

Ltac head_cases := unfold head; repeat case_match;
  rewrite ?Z.leb_le, ?Z.leb_gt, ?Z.ltb_lt, ?Z.ltb_ge in *; try lia; try done.

(** The additional information determines the argument's range. *)
Lemma arg_bytes_cases additional n tail :
  arg_bytes additional n tail →
  (additional = n ∧ 0 ≤ n ≤ 23 ∧ tail = []) ∨
  (additional = 24 ∧ 23 < n ≤ 0xff ∧ tail = [n]) ∨
  (additional = 25 ∧ 0xff < n ≤ 0xffff ∧ tail = to_be_bytes 2 n) ∨
  (additional = 26 ∧ 0xffff < n ≤ 0xffff_ffff ∧ tail = to_be_bytes 4 n) ∨
  (additional = 27 ∧ 0xffff_ffff < n ∧ tail = to_be_bytes 8 n).
Proof.
  intros [Hn Hh]. specialize (Hh 0). revert Hh. head_cases; intros [= Ha Ht];
    naive_solver lia.
Qed.

Lemma argument_Ok additional i n j :
  0 ≤ additional → 0 ≤ i ≤ len input →
  Decoder.argument input additional i = Ok (n, j) ↔
  ∃ tail, reads i j tail ∧ arg_bytes additional n tail.
Proof.
  intros Hadd Hi. unfold Decoder.argument.
  destruct (Z.leb_spec additional 23).
  { split.
    - intros [= <- <-]. exists []. split; [by apply reads_nil|].
      split; [unfold u64_max; lia|]. intros major. head_cases.
    - intros (tail & Hr & Ha). apply arg_bytes_cases in Ha as Hc.
      destruct Hc as [(-> & _ & ->)|Hc]; [|naive_solver lia]. by apply reads_nil in Hr as [-> _]. }
  destruct (Z.eqb_spec additional 24) as [->|].
  { split.
    - intros Ht. apply bind_Ok in Ht as ([b o] & Ht & Hk). inv_ok.
      apply byte_Ok in Ht as Hr; [|lia]. apply Z.ltb_ge in Hb.
      pose proof (reads_bytes _ _ _ Hr) as Hby. rewrite is_bytes_spec, Forall_singleton in Hby.
      exists [n]. split; [done|]. split; [unfold u64_max; lia|]. intros major. head_cases.
    - intros (tail & Hr & Ha). apply arg_bytes_cases in Ha as Hc.
      assert (23 < n ∧ tail = [n]) as [Hn ->] by naive_solver lia.
      apply byte_Ok in Hr as ->; [|lia]. cbn. destruct (Z.ltb_spec n 24); [lia|done]. }
  destruct (Z.eqb_spec additional 25) as [->|].
  { apply (take_arg_Ok 2); [lia| | |lia].
    - intros m Hm Hlo%Z.ltb_lt Hhi major. head_cases.
    - intros m tail Hc%arg_bytes_cases. naive_solver lia. }
  destruct (Z.eqb_spec additional 26) as [->|].
  { apply (take_arg_Ok 4); [lia| | |lia].
    - intros m Hm Hlo%Z.ltb_lt Hhi major. head_cases.
    - intros m tail Hc%arg_bytes_cases. naive_solver lia. }
  destruct (Z.eqb_spec additional 27) as [->|].
  { apply (take_arg_Ok 8); [lia| | |lia].
    - intros m Hm Hlo%Z.ltb_lt Hhi major. head_cases.
    - intros m tail Hc. pose proof Hc as [Hm _]. apply arg_bytes_cases in Hc.
      unfold u64_max in Hm. naive_solver lia. }
  split; [done|]. intros (tail & _ & Hc%arg_bytes_cases). naive_solver lia.
Qed.

(** An initial byte followed by its argument is a head. *)
Lemma initial_split b :
  0 ≤ b < 256 → b = Z.shiftr b 5 * 32 + Z.land b 0x1f ∧
  0 ≤ Z.shiftr b 5 < 8 ∧ 0 ≤ Z.land b 0x1f < 32.
Proof.
  intros Hb. change 0x1f with (2 ^ 5 - 1).
  rewrite Z.shiftr_div_pow2, land_mask by lia. change (2 ^ 5) with 32. zdiv.
Qed.

Lemma initial_join major add :
  0 ≤ major < 8 → 0 ≤ add < 32 →
  Z.shiftr (major * 32 + add) 5 = major ∧ Z.land (major * 32 + add) 0x1f = add.
Proof.
  intros. change 0x1f with (2 ^ 5 - 1).
  rewrite Z.shiftr_div_pow2, land_mask by lia. change (2 ^ 5) with 32. zdiv.
Qed.

Lemma head_reads major n i j :
  0 ≤ n ≤ u64_max → reads i j (head major n) →
  ∃ add tail, 0 ≤ add < 32 ∧ reads i (i + 1) [major * 32 + add] ∧
    reads (i + 1) j tail ∧ arg_bytes add n tail.
Proof.
  intros Hn Hr.
  assert (∃ add tail, 0 ≤ add < 32 ∧ arg_bytes add n tail) as (add & tail & Hadd & Ha).
  { unfold arg_bytes, head.
    destruct (Z.leb_spec n 23); [exists n, []; split; [lia|done]|].
    destruct (Z.leb_spec n 0xff); [eexists 24, _; split; [lia|done]|].
    destruct (Z.leb_spec n 0xffff); [eexists 25, _; split; [lia|done]|].
    destruct (Z.leb_spec n 0xffff_ffff); [eexists 26, _; split; [lia|done]|].
    eexists 27, _; split; [lia|done]. }
  exists add, tail. destruct Ha as [? Hh]. rewrite Hh in Hr.
  apply (reads_app _ _ _ [major * 32 + add]) in Hr as (m & Hr1 & Hr2).
  pose proof (reads_bounds _ _ _ _ Hr1) as (_ & _ & ->). done.
Qed.

Section items.
Context (value' : Z → result CanonicalError (Value * Z)) (Q : Value → Prop).
Context (Hvalue : ∀ i w j, 0 ≤ i ≤ len input →
  value' i = Ok (w, j) ↔ Q w ∧ reads i j (raw w)).

Lemma array_items_Ok n i vs j :
  0 ≤ i ≤ len input →
  Decoder.array_items value' n i = Ok (vs, j) ↔
    length vs = n ∧ Forall Q vs ∧ reads i j (flat_map raw vs).
Proof.
  revert i vs. induction n as [|n IH]; intros i vs Hi; cbn.
  { split.
    - intros [= <- <-]. split_and!; [done|constructor|by apply reads_nil].
    - intros (->%nil_length_inv & _ & [-> _]%reads_nil). done. }
  rewrite bind_Ok. split.
  - intros ([w o] & (Hw & Hr)%Hvalue & Hk); [|done].
    apply bind_Ok in Hk as ([ws o'] & Hws & [= <- <-]).
    pose proof (reads_bounds _ _ _ _ Hr). apply IH in Hws as (<- & Hws & Hr'); [|lia].
    cbn. split_and!; [done|by constructor|]. apply reads_app. eauto.
  - destruct vs as [|w ws]; [by intros [? _]|].
    intros (Hl & [Hw Hws]%Forall_cons & Hr). cbn in Hl, Hr.
    apply reads_app in Hr as (m & Hr & Hr'). exists (w, m).
    pose proof (reads_bounds _ _ _ _ Hr). split; [by apply Hvalue|].
    rewrite (proj2 (IH m ws ltac:(lia))); [done|]. naive_solver.
Qed.

Lemma map_items_Ok n keys previous i es j :
  0 ≤ i ≤ len input →
  (∀ k, k ∈ set_elems keys → ∃ p, previous = Some p ∧ k ≤ p) →
  Decoder.map_items input value' n keys previous i = Ok (es, j) ↔
    length es = n ∧ Forall (λ e, is_u64 e.1 = true ∧ Q e.2) es ∧
    StronglySorted lt (map fst es) ∧
    Forall (λ k, ∀ p, previous = Some p → p < k) (map fst es) ∧
    reads i j (flat_map (λ e, head 0 e.1 ++ raw e.2) es).
Proof.
  revert keys previous i es j. induction n as [|n IH]; intros keys previous i es j Hi Hkeys.
  { cbn. split.
    - intros [= <- <-].
      split_and!; [done|constructor|constructor|constructor|by apply reads_nil].
    - intros (->%nil_length_inv & _ & _ & _ & [-> _]%reads_nil). done. }
  assert (∀ key o es j', 0 ≤ o ≤ len input → (∀ p, previous = Some p → p < key) →
    Decoder.map_items input value' n (set_insert key keys) (Some key) o = Ok (es, j') ↔
    length es = n ∧ Forall (λ e, is_u64 e.1 = true ∧ Q e.2) es ∧
    StronglySorted lt (map fst es) ∧ Forall (λ k, key < k) (map fst es) ∧
    reads o j' (flat_map (λ e, head 0 e.1 ++ raw e.2) es)) as IH'; [|clear IH].
  { intros key o es' j' Ho Hkey. rewrite IH; [|done|].
    - assert (Forall (λ k, ∀ p, Some key = Some p → p < k) (map fst es') ↔
        Forall (λ k, key < k) (map fst es')) as ->; [|done].
      apply Forall_proper; [intros k; naive_solver|done].
    - intros k [->|Hk]%set_insert_elems; [by eexists|]. exists key.
      split; [done|]. apply Hkeys in Hk as (p & Hp & Hle). apply Hkey in Hp. lia. }
  assert (∀ key, (match previous with Some old => key <=? old | None => false end
      || set_contains key keys) = false ↔ ∀ p, previous = Some p → p < key) as Hguard.
  { intros key. rewrite orb_false_iff, set_contains_false. split.
    - intros [Hp _] p ->. by apply Z.leb_gt.
    - intros Hp. split.
      + destruct previous; [|done]. by apply Z.leb_gt, Hp.
      + intros (p & Hp' & Hle)%Hkeys. apply Hp in Hp'. lia. }
  cbn [Decoder.map_items]. split.
  - intros Hm. apply bind_Ok in Hm as ([b o] & Hb & Hm). apply bail_Ok in Hm as [Hmaj Hm].
    apply bind_Ok in Hm as ([key o1] & Harg & Hm). apply bail_Ok in Hm as [Hg Hm].
    rewrite Hguard in Hg.
    apply bind_Ok in Hm as ([w o2] & Hw & Hm).
    apply bind_Ok in Hm as ([ws o3] & Hws & [= <- <-]).
    apply byte_Ok in Hb; [|lia]. pose proof (reads_bounds _ _ _ _ Hb) as Hb1.
    pose proof (reads_bytes _ _ _ Hb) as Hby. rewrite is_bytes_spec, Forall_singleton in Hby.
    destruct (initial_split b Hby) as (Hbs & _ & Hland).
    apply negb_false_iff, Z.eqb_eq in Hmaj. rewrite Hmaj in Hbs.
    apply argument_Ok in Harg as (tail & Ht & Hab); [|lia..].
    pose proof (reads_bounds _ _ _ _ Ht) as Ht1.
    apply Hvalue in Hw as [Hq Hr]; [|lia]. pose proof (reads_bounds _ _ _ _ Hr) as Hr1.
    apply IH' in Hws as (<- & HQ & Hsort & Hlt & Hrest); [|lia|done].
    destruct Hab as [Hu64 Hab]. cbn. split_and!; [done| | | |].
    + constructor; [|done]. split; [|done]. apply is_u64_spec. unfold u64_max in Hu64. cbn. lia.
    + constructor; [done|]. eapply Forall_impl; [exact Hlt|]. intros k Hk.
      by apply Z.compare_lt_iff.
    + constructor; [done|]. eapply Forall_impl; [exact Hlt|]. intros k Hk p Hp.
      apply Hg in Hp. cbn in Hk. lia.
    + rewrite (Hab 0), <-app_assoc. apply (reads_app _ _ _ [0 * 32 + Z.land b 31]).
      exists o. rewrite <-Hbs. split; [done|]. apply reads_app. exists o1. split; [done|].
      apply reads_app. eauto.
  - destruct es as [|[key w] es]; [by intros [? _]|].
    intros (Hl & [[Hu Hq] HQ]%Forall_cons & Hsort & [Hgt Hgts]%Forall_cons & Hr).
    cbn in Hu, Hq, Hl, Hr, Hsort, Hgt. injection Hl as Hl. apply is_u64_spec in Hu.
    rewrite <-app_assoc in Hr. apply reads_app in Hr as (m & Hh & Hr).
    apply reads_app in Hr as (m' & Hw & Hrest).
    pose proof (reads_bounds _ _ _ _ Hw). pose proof (reads_bounds _ _ _ _ Hrest).
    apply head_reads in Hh as (add & tail & Hadd & Hb & Htail & Hab);
      [|unfold u64_max; lia].
    pose proof (reads_bounds _ _ _ _ Hb). pose proof (reads_bounds _ _ _ _ Htail).
    apply byte_Ok in Hb as ->; [|lia]. cbn [mbind result_bind].
    destruct (initial_join 0 add) as [-> ->]; [lia..|]. cbn [negb Z.eqb].
    rewrite (proj2 (argument_Ok add (i + 1) key m ltac:(lia) ltac:(lia))) by eauto.
    cbn [mbind result_bind]. rewrite (proj2 (Hguard key) Hgt).
    rewrite (proj2 (Hvalue m w m' ltac:(lia))) by done. cbn [mbind result_bind].
    rewrite (proj2 (IH' key m' es j ltac:(lia) Hgt)); [done|].
    apply StronglySorted_inv in Hsort as [Hsort Hks]. by split_and!.
Qed.
End items.

(** Everything the decoder promises of a value it returns at this depth. *)
Definition good (depth : Z) (w : Value) : Prop :=
  fits limits depth w = true ∧ normal w = true ∧ value_ok w = true.

Lemma raw_map_normal es :
  StronglySorted lt (map fst es) →
  raw (Map es) = head 5 (len es) ++ flat_map (λ e, head 0 e.1 ++ raw e.2) es.
Proof.
  intros Hs. rewrite raw_map, sort_by_key_strict; [done|]. by apply strongly_sorted_key.
Qed.

Lemma length_Ok additional i n j :
  0 ≤ additional → 0 ≤ i ≤ len input →
  Decoder.length_ input limits additional i = Ok (n, j) ↔
  (∃ tail, reads i j tail ∧ arg_bytes additional n tail) ∧ n ≤ max_collection_items limits.
Proof.
  intros Ha Hi. rewrite <-argument_Ok by done. unfold Decoder.length_.
  destruct (Decoder.argument input additional i) as [[n' o]|]; cbn; [|naive_solver].
  unfold Decoder.usize_try_from.
  destruct Hlimits as (_ & _ & _ & _ & Hm). destruct (Z.leb_spec n' usize_max); cbn.
  - rewrite bail_Ok, Z.ltb_ge. naive_solver.
  - split; [done|]. intros [[= -> ->] Hle]. lia.
Qed.

Lemma string_length_Ok additional i n j :
  0 ≤ additional → 0 ≤ i ≤ len input →
  Decoder.string_length input limits additional i = Ok (n, j) ↔
  (∃ tail, reads i j tail ∧ arg_bytes additional n tail) ∧ n ≤ max_string_bytes limits.
Proof.
  intros Ha Hi. rewrite <-argument_Ok by done. unfold Decoder.string_length.
  destruct (Decoder.argument input additional i) as [[n' o]|]; cbn; [|naive_solver].
  unfold Decoder.usize_try_from.
  destruct Hlimits as (_ & _ & Hm & _ & _). destruct (Z.leb_spec n' usize_max); cbn.
  - rewrite bail_Ok, Z.ltb_ge. naive_solver.
  - split; [done|]. intros [[= -> ->] Hle]. lia.
Qed.

Lemma byte_string_length_Ok additional i n j :
  0 ≤ additional → 0 ≤ i ≤ len input →
  Decoder.byte_string_length input limits additional i = Ok (n, j) ↔
  (∃ tail, reads i j tail ∧ arg_bytes additional n tail) ∧
  n ≤ max_byte_string_bytes limits.
Proof.
  intros Ha Hi. rewrite <-argument_Ok by done. unfold Decoder.byte_string_length.
  destruct (Decoder.argument input additional i) as [[n' o]|]; cbn; [|naive_solver].
  unfold Decoder.usize_try_from.
  destruct Hlimits as (_ & Hm & _ & _ & _). destruct (Z.leb_spec n' usize_max); cbn.
  - rewrite bail_Ok, Z.ltb_ge. naive_solver.
  - split; [done|]. intros [[= -> ->] Hle]. lia.
Qed.

Section step.
Context (fuel : nat) (depth : Z).
Context (IH : ∀ i w j, 0 ≤ i ≤ len input →
  Decoder.value input limits fuel (depth + 1) i = Ok (w, j) ↔
  good (depth + 1) w ∧ reads i j (raw w)).

Lemma good_array vs :
  good depth (Array vs) ↔ depth ≤ max_depth limits ∧
    len vs ≤ max_collection_items limits ∧ Forall (good (depth + 1)) vs.
Proof.
  unfold good. cbn. rewrite !andb_true_iff, !Z.leb_le, !forallb_Forall.
  rewrite !Forall_forall. naive_solver.
Qed.

Lemma good_map es :
  good depth (Map es) ↔ depth ≤ max_depth limits ∧
    len es ≤ max_collection_items limits ∧ StronglySorted lt (map fst es) ∧
    Forall (λ e, is_u64 e.1 = true ∧ good (depth + 1) e.2) es.
Proof.
  unfold good. cbn.
  rewrite !andb_true_iff, !Z.leb_le, !forallb_Forall, negb_true_iff.
  rewrite any_window_geb_false, bool_decide_eq_true, !Forall_forall.
  split.
  - intros ((Hd & (Hl & _) & Hf) & (Hs & Hn) & Hok). split_and!; [done..|].
    intros e He. apply Hok in He as Hkv. apply andb_true_iff in Hkv as [??].
    split; [done|]. split; auto.
  - intros (Hd & Hl & Hs & Hall). split_and!; try done.
    + by apply strongly_sorted_nodup, strongly_sorted_key.
    + intros e He. by destruct (Hall e He) as (_ & ? & _).
    + intros e He. by destruct (Hall e He) as (_ & _ & ? & _).
    + intros e He. apply andb_true_iff. by destruct (Hall e He) as (? & _ & _ & ?).
Qed.

(** One level of decoding is sound. *)
Lemma value_step_sound i w j :
  0 ≤ i ≤ len input →
  Decoder.value input limits (S fuel) depth i = Ok (w, j) →
  good depth w ∧ reads i j (raw w).
Proof.
  intros Hi Hv. cbn [Decoder.value] in Hv. apply bail_Ok in Hv as [Hd%Z.ltb_ge Hv].
  apply bind_Ok in Hv as ([b o] & Hb & Hv). apply byte_Ok in Hb; [|lia].
  pose proof (reads_bounds _ _ _ _ Hb) as Hb1. pose proof (reads_bytes _ _ _ Hb) as Hby.
  rewrite is_bytes_spec, Forall_singleton in Hby.
  destruct (initial_split b Hby) as (Hbs & Hmaj & Hadd). cbn zeta in Hv.
  set (major := Z.shiftr b 5) in *. set (add := Z.land b 31) in *. clearbody major add.
  assert (∀ n j' tail, reads o j' tail → arg_bytes add n tail →
    0 ≤ n ≤ u64_max ∧ 0 ≤ j' ≤ len input ∧ reads i j' (head major n)) as Hhead.
  { intros n j' tail Ht [Hn Ha]. pose proof (reads_bounds _ _ _ _ Ht).
    rewrite Ha, <-Hbs. split_and!; [lia..|]. apply (reads_app _ _ _ [b]). eauto. }
  destruct (Z.eqb_spec major 0) as [->|_].
  { apply bind_Ok in Hv as ([n o'] & Hn & [= <- <-]).
    apply argument_Ok in Hn as (tail & Ht & Ha); [|lia..].
    destruct (Hhead _ _ _ Ht Ha) as (Hn & _ & Hr). split; [|done].
    unfold good; cbn. rewrite andb_true_iff, Z.leb_le. split_and!; [done..|].
    apply is_u64_spec. unfold u64_max in Hn. lia. }
  destruct (Z.eqb_spec major 1) as [->|_].
  { apply bind_Ok in Hv as ([n o'] & Hn & Hv).
    apply bail_Ok in Hv as [Hlt%Z.ltb_ge [= <- <-]].
    apply argument_Ok in Hn as (tail & Ht & Ha); [|lia..].
    destruct (Hhead _ _ _ Ht Ha) as (Hn & _ & Hr). unfold good. cbn.
    rewrite andb_true_iff, Z.leb_le, is_i64_spec, Z.ltb_lt. unfold i64_max in Hlt.
    destruct (Z.leb_spec 0 (-1 - n)); [lia|].
    replace (-1 - (-1 - n)) with n by lia. split_and!; (done || lia). }
  destruct (Z.eqb_spec major 2) as [->|_].
  { apply bind_Ok in Hv as ([n o'] & Hn & Hv). apply bind_Ok in Hv as ([bs o2] & Hbs' & [= <- <-]).
    apply byte_string_length_Ok in Hn as ((tail & Ht & Ha) & Hmax); [|lia..].
    destruct (Hhead _ _ _ Ht Ha) as (Hn & Ho' & Hr).
    apply take_Ok in Hbs' as [Hr' Hl]; [|lia..]. subst n. unfold good. cbn.
    rewrite andb_true_iff, !Z.leb_le. split_and!; [done..|by eapply reads_bytes|].
    apply reads_app. eauto. }
  destruct (Z.eqb_spec major 3) as [->|_].
  { apply bind_Ok in Hv as ([n o'] & Hn & Hv). apply bind_Ok in Hv as ([bs o2] & Hbs' & Hv).
    apply bind_Ok in Hv as (t & Hu%ok_or_Ok & Hv).
    apply bail_Ok in Hv as [Hnfc%negb_false_iff [= <- <-]].
    apply string_length_Ok in Hn as ((tail & Ht & Ha) & Hmax); [|lia..].
    destruct (Hhead _ _ _ Ht Ha) as (Hn & Ho' & Hr).
    apply take_Ok in Hbs' as [Hr' Hl]; [|lia..].
    apply from_utf8_sound in Hu as [<- Hstr]; [|by eapply reads_bytes].
    subst n. unfold good. cbn. unfold str_len.
    rewrite !andb_true_iff, !Z.leb_le. split_and!; [done..|]. apply reads_app. eauto. }
  destruct (Z.eqb_spec major 4) as [->|_].
  { apply bind_Ok in Hv as ([n o'] & Hn & Hv). apply bind_Ok in Hv as ([vs o2] & Hvs & [= <- <-]).
    apply length_Ok in Hn as ((tail & Ht & Ha) & Hmax); [|lia..].
    destruct (Hhead _ _ _ Ht Ha) as (Hn & Ho' & Hr).
    apply (array_items_Ok _ _ IH) in Hvs as (Hl & Hgood & Hr'); [|lia].
    assert (len vs = n) as <- by (unfold len; lia).
    split; [by apply good_array|]. apply reads_app. eauto. }
  destruct (Z.eqb_spec major 5) as [->|_].
  { apply bind_Ok in Hv as ([n o'] & Hn & Hv). apply bind_Ok in Hv as ([es o2] & Hes & [= <- <-]).
    apply length_Ok in Hn as ((tail & Ht & Ha) & Hmax); [|lia..].
    destruct (Hhead _ _ _ Ht Ha) as (Hn & Ho' & Hr).
    apply (map_items_Ok _ _ IH) in Hes as (Hl & Hgood & Hs & _ & Hr'); [|lia|set_solver].
    assert (len es = n) as <- by (unfold len; lia).
    split; [by apply good_map|]. rewrite raw_map_normal by done. apply reads_app. eauto. }
  destruct (Z.eqb_spec major 7) as [->|_]; [|done].
  unfold good.
  destruct (Z.eqb_spec add 20); [|destruct (Z.eqb_spec add 21);
    [|destruct (Z.eqb_spec add 22); [|done]]];
    subst add; injection Hv as <- <-; cbn; rewrite andb_true_iff, Z.leb_le;
    (split_and!; [done..|]); by rewrite Hbs in Hb.
Qed.

(** Reading the head of a value that is present in the input. *)
Lemma value_step_head major n i m :
  depth ≤ max_depth limits → 0 ≤ major < 8 → 0 ≤ n ≤ u64_max →
  reads i m (head major n) →
  ∃ b add tail, Decoder.byte input i = Ok (b, i + 1) ∧ Z.shiftr b 5 = major ∧
    Z.land b 31 = add ∧ 0 ≤ add ∧ 0 ≤ i + 1 ≤ len input ∧
    reads (i + 1) m tail ∧ arg_bytes add n tail.
Proof.
  intros Hd Hmaj Hn Hr.
  apply head_reads in Hr as (add & tail & Hadd & Hb & Ht & Ha); [|done].
  exists (major * 32 + add), add, tail.
  destruct (initial_join major add) as [-> ->]; [lia..|].
  pose proof (reads_bounds _ _ _ _ Hb). pose proof (reads_bounds _ _ _ _ Ht).
  split_and!; [apply byte_Ok; [lia|done]|done|done|lia|lia|lia|done|done].
Qed.

Lemma len_limit i m bs : reads i m bs → 0 ≤ len bs ≤ u64_max.
Proof.
  intros Hr%reads_bounds. pose proof (len_nonneg bs). unfold usize_max in Hlen. lia.
Qed.

(** Enter one level of decoding below an admitted head. *)
Ltac enter major n Hd Hr :=
  let b := fresh "b" in let add := fresh "add" in let tail := fresh "tail" in
  destruct (value_step_head major n _ _ Hd ltac:(lia) ltac:(assumption) Hr)
    as (b & add & tail & Hb & Hmaj & Hland & Hadd & Hi' & Ht & Ha);
  cbn [Decoder.value]; rewrite (proj2 (Z.ltb_ge _ _) Hd), Hb;
  cbn [mbind result_bind]; cbn zeta; rewrite Hmaj, Hland; cbn [Z.eqb Pos.eqb].

(** One level of decoding is complete. *)
Lemma value_step_complete i w j :
  0 ≤ i ≤ len input → good depth w → reads i j (raw w) →
  Decoder.value input limits (S fuel) depth i = Ok (w, j).
Proof.
  intros Hi Hg Hr. destruct w as [n|n|b|t|vs|es|b|].
  - destruct Hg as (Hf & _ & Hok%is_u64_spec). cbn in Hf, Hr.
    rewrite andb_true_iff, Z.leb_le in Hf. destruct Hf as [Hd _].
    assert (0 ≤ n ≤ u64_max) by (unfold u64_max; lia). enter 0 n Hd Hr.
    rewrite (proj2 (argument_Ok _ _ n j Hadd Hi')) by eauto. done.
  - destruct Hg as (Hf & Hn & Hok%is_i64_spec). cbn in Hf, Hr, Hn.
    rewrite andb_true_iff, Z.leb_le in Hf. destruct Hf as [Hd _]. apply Z.ltb_lt in Hn.
    destruct (Z.leb_spec 0 n); [lia|].
    assert (0 ≤ -1 - n ≤ u64_max) by (unfold u64_max; lia). enter 1 (-1 - n) Hd Hr.
    rewrite (proj2 (argument_Ok _ _ (-1 - n) j Hadd Hi')) by eauto. cbn.
    destruct (Z.ltb_spec i64_max (-1 - n)); [unfold i64_max in *; lia|].
    repeat f_equal; lia.
  - destruct Hg as (Hf & _ & Hok). cbn in Hf, Hr, Hok.
    rewrite andb_true_iff, !Z.leb_le in Hf. destruct Hf as [Hd Hmax].
    apply reads_app in Hr as (m & Hr & Hr'). pose proof (len_limit _ _ _ Hr').
    pose proof (reads_bounds _ _ _ _ Hr). enter 2 (len b) Hd Hr.
    rewrite (proj2 (byte_string_length_Ok _ _ (len b) m Hadd Hi')) by eauto.
    cbn [mbind result_bind].
    by rewrite (proj2 (take_Ok (len b) m b j ltac:(lia) (len_nonneg b))).
  - destruct Hg as (Hf & _ & Hok). cbn in Hf, Hr, Hok.
    rewrite !andb_true_iff, !Z.leb_le in Hf. destruct Hf as (Hd & Hnfc & Hmax).
    apply reads_app in Hr as (m & Hr & Hr'). pose proof (len_limit _ _ _ Hr').
    pose proof (reads_bounds _ _ _ _ Hr). enter 3 (str_len t) Hd Hr.
    rewrite (proj2 (string_length_Ok _ _ (str_len t) m Hadd Hi')) by eauto.
    cbn [mbind result_bind].
    rewrite (proj2 (take_Ok (str_len t) m (as_bytes t) j ltac:(lia)
      (len_nonneg (as_bytes t)))) by done.
    cbn. rewrite from_utf8_as_bytes by done. cbn. by rewrite Hnfc.
  - apply good_array in Hg as (Hd & Hmax & Hvs). cbn in Hr.
    apply reads_app in Hr as (m & Hr & Hr'). pose proof (len_nonneg vs).
    assert (0 ≤ len vs ≤ u64_max) by (destruct Hlimits; unfold usize_max in *; lia).
    pose proof (reads_bounds _ _ _ _ Hr). enter 4 (len vs) Hd Hr.
    rewrite (proj2 (length_Ok _ _ (len vs) m Hadd Hi')) by eauto. cbn [mbind result_bind].
    rewrite (proj2 (array_items_Ok _ _ IH (Z.to_nat (len vs)) m vs j ltac:(lia))); [done|].
    split_and!; [unfold len; lia|done|done].
  - apply good_map in Hg as (Hd & Hmax & Hs & Hes). rewrite raw_map_normal in Hr by done.
    apply reads_app in Hr as (m & Hr & Hr'). pose proof (len_nonneg es).
    assert (0 ≤ len es ≤ u64_max) by (destruct Hlimits; unfold usize_max in *; lia).
    pose proof (reads_bounds _ _ _ _ Hr). enter 5 (len es) Hd Hr.
    rewrite (proj2 (length_Ok _ _ (len es) m Hadd Hi')) by eauto. cbn [mbind result_bind].
    rewrite (proj2 (map_items_Ok _ _ IH (Z.to_nat (len es)) [] None m es j
      ltac:(lia) ltac:(set_solver))); [done|].
    split_and!; [unfold len; lia|done|done| |done]. by apply Forall_true.
  - destruct Hg as (Hf & _). cbn in Hf. rewrite andb_true_iff, Z.leb_le in Hf.
    destruct Hf as [Hd _]. cbn [Decoder.value]. rewrite (proj2 (Z.ltb_ge _ _) Hd).
    destruct b; apply byte_Ok in Hr as ->; (done || lia).
  - destruct Hg as (Hf & _). cbn in Hf. rewrite andb_true_iff, Z.leb_le in Hf.
    destruct Hf as [Hd _]. cbn [Decoder.value]. rewrite (proj2 (Z.ltb_ge _ _) Hd).
    apply byte_Ok in Hr as ->; (done || lia).
Qed.
End step.

(** The decoder returns [w] and stops at [j] exactly when [w] is a normal, admissible
    value whose reference encoding occupies the input from [i] to [j]. *)
Lemma value_Ok fuel depth i w j :
  max_depth limits - depth < Z.of_nat fuel → 0 ≤ i ≤ len input →
  Decoder.value input limits fuel depth i = Ok (w, j) ↔
  good depth w ∧ reads i j (raw w).
Proof.
  revert depth i w j. induction fuel as [|fuel IH]; intros depth i w j Hfuel Hi.
  - cbn. destruct (Z.ltb_spec (max_depth limits) depth); [|lia].
    split; [done|]. intros [(Hf & _) _].
    destruct w; cbn in Hf; rewrite ?andb_true_iff, Z.leb_le in Hf; lia.
  - split.
    + apply value_step_sound; [|done]. intros. apply IH; [lia|done].
    + intros [Hg Hr]. apply value_step_complete; [|done..]. intros. apply IH; [lia|done].
Qed.
End decoder.

(** ** Normal forms *)

Lemma keys_map {A B} (f : A → B) (es : list (Z * A)) :
  map fst (map (λ e, (e.1, f e.2)) es) = map fst es.
Proof. rewrite map_map. by apply map_ext. Qed.

Lemma raw_normalize v : raw (normalize v) = raw v.
Proof.
  induction v as [n|n|b|s|vs IH|es IH|b|] using value_rect'; try done.
  - cbn. destruct (Z.leb_spec 0 n); cbn; [done|]. by destruct (Z.leb_spec 0 n); [lia|].
  - cbn. rewrite len_map. f_equal. induction IH as [|v vs Hv _ IHvs]; cbn; congruence.
  - cbn [normalize]. rewrite !raw_map, sort_by_key_idem.
    rewrite (sort_by_key_map fst fst (λ e, (e.1, normalize e.2))) by done.
    unfold len. rewrite length_map, sort_by_key_length. f_equal.
    rewrite !flat_map_concat_map, map_map. cbn. f_equal.
    apply map_ext_in. intros e He. f_equal.
    rewrite Forall_forall in IH. apply IH. apply list_elem_of_In in He.
    by rewrite sort_by_key_perm in He.
Qed.

Lemma fits_normalize limits depth v : fits limits depth (normalize v) = fits limits depth v.
Proof.
  revert depth. induction v as [n|n|b|s|vs IH|es IH|b|] using value_rect'; intros depth; try done.
  - cbn. by destruct (0 <=? n).
  - cbn. rewrite len_map. do 2 f_equal.
    induction IH as [|v vs Hv _ IHvs]; cbn; congruence.
  - cbn. unfold len. rewrite sort_by_key_length, length_map, forallb_sort. do 2 f_equal.
    + f_equal. apply bool_decide_ext.
      rewrite <-(keys_map normalize es). by rewrite sort_by_key_perm.
    + induction IH as [|v vs Hv _ IHvs]; cbn; congruence.
Qed.

Lemma value_ok_normalize v : value_ok v = true → value_ok (normalize v) = true.
Proof.
  induction v as [n|n|b|s|vs IH|es IH|b|] using value_rect'; try done.
  - cbn. rewrite is_i64_spec. intros Hn.
    destruct (Z.leb_spec 0 n); cbn; [apply is_u64_spec|apply is_i64_spec]; lia.
  - cbn. induction IH as [|v vs Hv _ IHvs]; cbn; [done|].
    rewrite !andb_true_iff. naive_solver.
  - cbn. rewrite forallb_sort. induction IH as [|e es Hv _ IHes]; cbn; [done|].
    rewrite !andb_true_iff. naive_solver.
Qed.

Lemma normal_normalize limits depth v :
  fits limits depth v = true → normal (normalize v) = true.
Proof.
  revert depth. induction v as [n|n|b|s|vs IH|es IH|b|] using value_rect'; intros depth; try done.
  - cbn. intros _. destruct (Z.leb_spec 0 n); cbn; [done|]. by apply Z.ltb_lt.
  - cbn. rewrite !andb_true_iff. intros (_ & _ & Hf). revert Hf.
    induction IH as [|v vs Hv _ IHvs]; cbn; [done|]. rewrite !andb_true_iff. naive_solver.
  - cbn. rewrite !andb_true_iff, bool_decide_eq_true, negb_true_iff.
    intros (_ & (_ & Hnd) & Hf). split.
    + apply any_window_geb_false, (strongly_sorted_key fst), sort_by_key_nodup.
      by rewrite keys_map.
    + rewrite forallb_sort. revert Hf. clear Hnd.
      induction IH as [|e es Hv _ IHes]; cbn; [done|]. rewrite !andb_true_iff. naive_solver.
Qed.

Lemma normalize_normal v : normal v = true → normalize v = v.
Proof.
  induction v as [n|n|b|s|vs IH|es IH|b|] using value_rect'; try done.
  - cbn. intros Hn%Z.ltb_lt. by destruct (Z.leb_spec 0 n); [lia|].
  - cbn. intros Hn. f_equal. revert Hn.
    induction IH as [|v vs Hv _ IHvs]; cbn; [done|].
    intros [??]%andb_true_iff. f_equal; auto.
  - cbn. rewrite andb_true_iff, negb_true_iff, any_window_geb_false. intros [Hs Hn].
    assert (map (λ e, (e.1, normalize e.2)) es = es) as ->.
    { clear Hs. revert Hn. induction IH as [|[k v] es Hv _ IHes]; cbn; [done|].
      intros [??]%andb_true_iff. f_equal; [f_equal|]; auto. }
    f_equal. by apply sort_by_key_strict, strongly_sorted_key.
Qed.

Lemma head_is_bytes major n :
  0 ≤ major < 8 → 0 ≤ n → is_bytes (head major n) = true.
Proof.
  intros Hmaj Hn. unfold head. repeat case_match;
    rewrite ?Z.leb_le, ?Z.leb_gt in *; rewrite !is_bytes_cons, !andb_true_iff,
      ?to_be_bytes_is_bytes, ?is_u8_spec; (split_and!; (done || lia)).
Qed.

Lemma is_bytes_flat_map {A} (f : A → list Z) l :
  Forall (λ x, is_bytes (f x) = true) l → is_bytes (flat_map f l) = true.
Proof.
  induction 1 as [|x l Hx _ IH]; cbn; [done|]. by rewrite is_bytes_app, Hx, IH.
Qed.

Lemma raw_is_bytes v : value_ok v = true → is_bytes (raw v) = true.
Proof.
  induction v as [n|n|b|s|vs IH|es IH|b|] using value_rect'; intros Hok; cbn in Hok.
  - apply is_u64_spec in Hok. apply head_is_bytes; lia.
  - apply is_i64_spec in Hok. cbn. destruct (Z.leb_spec 0 n); apply head_is_bytes; lia.
  - cbn. by rewrite is_bytes_app, head_is_bytes, Hok by (lia || apply len_nonneg).
  - cbn. by rewrite is_bytes_app, head_is_bytes, as_bytes_is_bytes
      by (lia || apply len_nonneg || done).
  - cbn. rewrite is_bytes_app, head_is_bytes by (lia || apply len_nonneg). cbn.
    apply is_bytes_flat_map. rewrite forallb_Forall in Hok.
    rewrite !Forall_forall in *. auto.
  - rewrite raw_map, is_bytes_app, head_is_bytes by (lia || apply len_nonneg). cbn.
    apply is_bytes_flat_map. rewrite sort_by_key_perm, forallb_Forall in *.
    rewrite !Forall_forall in *. intros e He. apply Hok in He as Hkv.
    apply andb_true_iff in Hkv as [Hk%is_u64_spec Hv].
    by rewrite is_bytes_app, head_is_bytes, IH by (lia || done).
  - by destruct b.
  - done.
Qed.

(** ** The codec as a whole *)

Lemma encode_with_limits_Ok v limits out :
  limits_ok limits → value_ok v = true →
  encode_with_limits v limits = Ok out ↔
    fits limits 0 v = true ∧ out = raw v ∧ len out ≤ max_bytes limits.
Proof.
  intros Hl Hv. unfold encode_with_limits. rewrite encode_into_Ok; [done..|].
  destruct Hl as (? & _). cbn. rewrite len_nil. lia.
Qed.

Lemma value_top input limits w :
  is_bytes input = true → len input ≤ usize_max → limits_ok limits →
  Decoder.value input limits (decode_fuel limits) 0 0 = Ok (w, len input) ↔
  good limits 0 w ∧ raw w = input.
Proof.
  intros Hb Hlen Hl. pose proof (len_nonneg input). rewrite value_Ok; [|done|done|done| |lia].
  - split; intros [Hg Hr]; (split; [done|]).
    + by eapply reads_all.
    + exists [], []. rewrite app_nil_r, <-Hr. done.
  - unfold decode_fuel. destruct Hl as (_ & _ & _ & ? & _). lia.
Qed.

Lemma decode_canonical_Ok input limits w :
  is_bytes input = true → limits_ok limits →
  decode_canonical input limits = Ok w ↔
  normal w = true ∧ value_ok w = true ∧ fits limits 0 w = true ∧ raw w = input ∧
  len input ≤ max_bytes limits.
Proof.
  intros Hb Hl. unfold decode_canonical. rewrite bail_Ok, Z.ltb_ge, bind_Ok.
  assert (len input ≤ max_bytes limits → len input ≤ usize_max) as Hmax.
  { destruct Hl as (? & _). lia. }
  split.
  - intros (Hlen & [w' o] & Hv & Hk). apply bail_Ok in Hk as [Ho%negb_false_iff%Z.eqb_eq Hk].
    subst o. apply bind_Ok in Hk as (enc & _ & Hk). apply bail_Ok in Hk as [_ [= ->]].
    apply value_top in Hv as [(?&?&?) ?]; auto.
  - intros (Hn & Hok & Hf & Hraw & Hlen). split; [done|].
    exists (w, len input). split; [apply value_top; auto; done|]. rewrite Z.eqb_refl. cbn.
    assert (encode_with_limits w limits = Ok input) as ->.
    { apply encode_with_limits_Ok; [done..|]. subst. done. }
    cbn. by rewrite bool_decide_eq_true_2.
Qed.

(** ** Fuel *)

Lemma array_items_ext f g n i :
  (∀ o, f o = g o) → Decoder.array_items f n i = Decoder.array_items g n i.
Proof.
  intros Hfg. revert i. induction n as [|n IH]; intros i; cbn; [done|].
  rewrite Hfg. destruct (g i) as [[v o]|]; cbn; [|done]. by rewrite IH.
Qed.

Lemma map_items_ext input f g n keys previous i :
  (∀ o, f o = g o) →
  Decoder.map_items input f n keys previous i = Decoder.map_items input g n keys previous i.
Proof.
  intros Hfg. revert keys previous i. induction n as [|n IH]; intros keys previous i;
    cbn [Decoder.map_items]; [done|].
  destruct (Decoder.byte input i) as [[b o]|]; cbn [mbind result_bind]; [|done].
  case_match; [done|].
  destruct (Decoder.argument input _ o) as [[k o']|]; cbn [mbind result_bind]; [|done].
  case_match; [done|]. rewrite Hfg.
  destruct (g o') as [[v o2]|]; cbn [mbind result_bind]; [|done]. by rewrite IH.
Qed.

(** Fuel above the remaining nesting depth never changes the outcome, errors
    included. *)
Lemma value_fuel input limits f1 f2 depth i :
  max_depth limits - depth < Z.of_nat f1 → max_depth limits - depth < Z.of_nat f2 →
  Decoder.value input limits f1 depth i = Decoder.value input limits f2 depth i.
Proof.
  revert f2 depth i. induction f1 as [|f1 IH]; intros f2 depth i H1 H2.
  { destruct f2; cbn [Decoder.value]; by destruct (Z.ltb_spec (max_depth limits) depth); [|lia]. }
  destruct f2 as [|f2].
  { cbn [Decoder.value]. by destruct (Z.ltb_spec (max_depth limits) depth); [|lia]. }
  assert (∀ o, Decoder.value input limits f1 (depth + 1) o =
    Decoder.value input limits f2 (depth + 1) o) as Heq by (intros; apply IH; lia).
  cbn [Decoder.value]. case_match; [done|].
  destruct (Decoder.byte input i) as [[b o]|]; cbn [mbind result_bind]; [|done].
  repeat (case_match; [done|]). cbn zeta.
  repeat match goal with |- context [?a =? ?b] => destruct (a =? b); try done end.
  - destruct (Decoder.length_ _ _ _ _) as [[n o']|]; cbn [mbind result_bind]; [|done].
    by rewrite (array_items_ext _ _ _ _ Heq).
  - destruct (Decoder.length_ _ _ _ _) as [[n o']|]; cbn [mbind result_bind]; [|done].
    by rewrite (map_items_ext _ _ _ _ _ _ _ Heq).
Qed.

Lemma fits_restricted a b depth v :
  fits (restricted_by a b) depth v = fits a depth v && fits b depth v.
Proof.
  assert (∀ x y z, (x <=? min_usize y z) = (x <=? y) && (x <=? z)) as Hmin.
  { intros x y z. unfold min_usize. destruct (Z.ltb_spec y z), (Z.leb_spec x y),
      (Z.leb_spec x z); try done; lia. }
  revert depth. induction v as [n|n|s|s|vs IH|es IH|s|] using value_rect'; intros depth;
    cbn; rewrite !Hmin; try btauto.
  - assert (forallb (fits (restricted_by a b) (depth + 1)) vs =
      forallb (fits a (depth + 1)) vs && forallb (fits b (depth + 1)) vs) as ->; [|btauto].
    induction IH as [|v vs Hv _ IHvs]; cbn; [done|]. rewrite Hv, IHvs. btauto.
  - assert (forallb (λ e, fits (restricted_by a b) (depth + 1) e.2) es =
      forallb (λ e, fits a (depth + 1) e.2) es && forallb (λ e, fits b (depth + 1) e.2) es)
      as ->; [|btauto].
    induction IH as [|v vs Hv _ IHvs]; cbn; [done|]. rewrite Hv, IHvs. btauto.
Qed.

Lemma restricted_ok a b : limits_ok a → limits_ok b → limits_ok (restricted_by a b).
Proof.
  unfold limits_ok, restricted_by, min_usize. cbn.
  intros (?&?&?&?&?) (?&?&?&?&?). repeat case_match; lia.
Qed.

Lemma restricted_max_bytes a b n :
  n ≤ max_bytes (restricted_by a b) ↔ n ≤ max_bytes a ∧ n ≤ max_bytes b.
Proof.
  cbn. unfold min_usize. destruct (Z.ltb_spec (max_bytes a) (max_bytes b)); lia.
Qed.

(** Two normal values that spell out the same prefix are equal: encodings are
    self-delimiting. *)
Lemma raw_prefix_free limits v w r1 r2 :
  limits_ok limits → good limits 0 v → good limits 0 w →
  is_bytes r1 = true → is_bytes r2 = true → len (raw v ++ r1) ≤ usize_max →
  raw v ++ r1 = raw w ++ r2 → v = w ∧ r1 = r2.
Proof.
  intros Hl Hv Hw Hr1 Hr2 Hlen Heq.
  assert (is_bytes (raw v ++ r1) = true) as Hb.
  { rewrite is_bytes_app, Hr1, raw_is_bytes; [done|]. apply Hv. }
  pose proof (len_nonneg (raw v ++ r1)).
  assert (max_depth limits - 0 < Z.of_nat (decode_fuel limits)).
  { unfold decode_fuel. destruct Hl as (_ & _ & _ & ? & _). lia. }
  assert (Decoder.value (raw v ++ r1) limits (decode_fuel limits) 0 0 = Ok (v, len (raw v)))
    as Hdv.
  { apply value_Ok; [done..|lia|]. split; [done|]. by exists [], r1. }
  assert (Decoder.value (raw v ++ r1) limits (decode_fuel limits) 0 0 = Ok (w, len (raw w)))
    as Hdw.
  { apply value_Ok; [done..|lia|]. split; [done|]. exists [], r2. by rewrite Heq. }
  assert (v = w) as -> by congruence. split; [done|]. by apply app_inv_head in Heq.
Qed.
End facts.
