(* ===== verification/CanonicalSpec.v ===== *)
(** * Properties of the canonical codec

    The public guarantees of [canonical.rs], proved from [CanonicalFacts], with a
    concrete value that meets their hypotheses. *)

From S2P Require Import Prelude Machine Order Utf8 Canonical CanonicalFacts.

Lemma metadata_ok : limits_ok metadata.
Proof. by vm_compute. Qed.

Lemma bulk_ok : limits_ok bulk.
Proof. by vm_compute. Qed.

#[export] Hint Resolve metadata_ok bulk_ok : core.

(** A nested sample whose map keys are out of order and whose [Signed] fields have both
    signs, and its encoding. *)
Definition sample : Value :=
  Map [(1, Text (lit "hi")); (0, Array [Unsigned 300; Signed 7; Signed (-5); Bytes [1; 2]])].
Definition sample_bytes : list Z :=
  [162; 0; 132; 25; 1; 44; 7; 36; 66; 1; 2; 1; 98; 104; 105].

Section theorems.
Context `{Unicode}.

(** The bounded encoder computes the reference encoding: it succeeds exactly when
    the value respects every limit (nesting depth, string and collection sizes, total
    size), has NFC text and duplicate-free map keys, and then its output is the
    limit-free reference encoding with shortest heads and sorted keys. *)
Theorem encode_reference v limits out :
  limits_ok limits → value_ok v = true →
  encode_with_limits v limits = Ok out ↔
    fits limits 0 v = true ∧ out = raw v ∧ len out ≤ max_bytes limits.
Proof. apply encode_with_limits_Ok. Qed.

(** C1: Decoding inverts encoding: the bytes of any successful encoding decode, under
    the same limits, to the normal form of the value (maps sorted by key, non-negative
    signed integers read back as unsigned). *)
Theorem decode_encode v limits out :
  limits_ok limits → value_ok v = true →
  encode_with_limits v limits = Ok out →
  decode_canonical out limits = Ok (normalize v).
Proof.
  intros Hl Hv (Hf & -> & Hlen)%encode_with_limits_Ok; [|done..].
  apply decode_canonical_Ok; [by apply raw_is_bytes|done|].
  rewrite raw_normalize, fits_normalize. split_and!; try done.
  - by eapply normal_normalize.
  - by apply value_ok_normalize.
Qed.

(** C2: Decoding accepts exactly the canonical encodings: an input decodes to [w] iff
    [w] is a well-typed normal value that encodes to precisely that input. *)
Theorem decode_accepts_canonical input limits w :
  limits_ok limits → is_bytes input = true →
  decode_canonical input limits = Ok w ↔
    normal w = true ∧ value_ok w = true ∧ encode_with_limits w limits = Ok input.
Proof.
  intros Hl Hb. rewrite decode_canonical_Ok by done. split.
  - intros (Hn & Hok & Hf & <- & Hlen). split_and!; [done..|].
    by apply encode_with_limits_Ok.
  - intros (Hn & Hok & (Hf & -> & Hlen)%encode_with_limits_Ok); [|done..]. done.
Qed.

(** The strict parser alone already guarantees canonicity: whenever it consumes an
    input of admissible size completely, the final re-encoding comparison succeeds, so
    the [NonCanonical] exit is never what rejects an input. *)
Theorem reencode_check_redundant input limits w :
  limits_ok limits → is_bytes input = true → len input ≤ max_bytes limits →
  Decoder.value input limits (decode_fuel limits) 0 0 = Ok (w, len input) →
  decode_canonical input limits = Ok w.
Proof.
  intros Hl Hb Hlen Hv. apply decode_canonical_Ok; [done..|].
  apply value_top in Hv as [(?&?&?) ?]; [done|done| |done]. destruct Hl as (? & _). lia.
Qed.

(** The encoding is injective up to normal form: two values with the same bytes
    have the same normal form, so hashing the bytes identifies the logical value. *)
Theorem encode_injective v w limits out :
  limits_ok limits → value_ok v = true → value_ok w = true →
  encode_with_limits v limits = Ok out → encode_with_limits w limits = Ok out →
  normalize v = normalize w.
Proof.
  intros Hl Hv Hw (Hf & -> & Hlen)%encode_with_limits_Ok
    (Hf' & Heq & Hlen')%encode_with_limits_Ok; [|done..].
  assert (is_bytes (raw v) = true) as Hb by by apply raw_is_bytes.
  assert (decode_canonical (raw v) limits = Ok (normalize v)) as Hd.
  { apply decode_canonical_Ok; [done..|]. rewrite raw_normalize, fits_normalize.
    split_and!; try done; [by eapply normal_normalize|by apply value_ok_normalize]. }
  assert (decode_canonical (raw v) limits = Ok (normalize w)) as Hd'.
  { apply decode_canonical_Ok; [done..|]. rewrite raw_normalize, fits_normalize.
    split_and!; try done; [by eapply normal_normalize|by apply value_ok_normalize]. }
  congruence.
Qed.

(** Canonical encodings are self-delimiting: if two admissible normal values,
    each followed by arbitrary bytes, spell the same byte string, they are the same
    value and the rest is the same.  In particular no encoding is a proper prefix of
    another. *)
Theorem encoding_prefix_free limits v w r1 r2 :
  limits_ok limits → good limits 0 v → good limits 0 w →
  is_bytes r1 = true → is_bytes r2 = true → len (raw v ++ r1) ≤ usize_max →
  raw v ++ r1 = raw w ++ r2 → v = w ∧ r1 = r2.
Proof. apply raw_prefix_free. Qed.

(** Restricting one resource profile by another admits exactly what both admit:
    the encoder under the combined limits succeeds iff it succeeds under each, with
    the same bytes, so a caller can tighten but never relax a ceiling. *)
Theorem restricted_by_meet a b v out :
  limits_ok a → limits_ok b → value_ok v = true →
  encode_with_limits v (restricted_by a b) = Ok out ↔
    encode_with_limits v a = Ok out ∧ encode_with_limits v b = Ok out.
Proof.
  intros Ha Hb Hv. rewrite !encode_with_limits_Ok by auto using restricted_ok.
  rewrite restricted_max_bytes, fits_restricted, andb_true_iff. naive_solver.
Qed.

(** The decoder always terminates within its fuel: any fuel of at least
    [max_depth + 1] gives the same outcome, success or error, so the fuel of the model
    is never what stops it. *)
Theorem decoder_fuel_sufficient input limits fuel :
  limits_ok limits → (decode_fuel limits ≤ fuel)%nat →
  Decoder.value input limits fuel 0 0 = Decoder.value input limits (decode_fuel limits) 0 0.
Proof.
  intros (_ & _ & _ & Hd & _) Hf. unfold decode_fuel in *. apply value_fuel; lia.
Qed.
End theorems.

(** ** Witnesses *)


Lemma decode_encode_witness :
  @decode_canonical ascii_unicode sample_bytes metadata = Ok (normalize sample).
Proof. apply (@decode_encode ascii_unicode); [apply metadata_ok|by vm_compute..]. Defined.

Lemma decode_accepts_canonical_witness :
  normal (normalize sample) = true ∧ value_ok (normalize sample) = true ∧
  @encode_with_limits ascii_unicode (normalize sample) metadata = Ok sample_bytes.
Proof.
  apply (@decode_accepts_canonical ascii_unicode); [apply metadata_ok|by vm_compute..].
Defined.

