(* ===== verification/ObjectId.v ===== *)
(** * Object identifiers: [crates/rgit-objects/src/id.rs]

    Varints, the binary and textual form of object identifiers, and the hash preimage.
    The digest functions ([sha2], [blake3]) and the base32hex codec ([data-encoding])
    are third-party code and parameters of the model. *)

From S2P Require Import Prelude Machine Order Utf8.

Module HashAlgorithm.
Inductive t := Sha256 | Blake3_256.

(** [algorithm as u64]. *)
Definition code (a : t) : Z :=
  match a with Sha256 => 0x12 | Blake3_256 => 0x1e end.

#[global] Instance eq_dec : EqDecision t.
Proof. solve_decision. Defined.
End HashAlgorithm.

Record ObjectId := mk_oid {
  format_version : Z;
  algorithm : HashAlgorithm.t;
  digest : list Z }.

#[export] Instance ObjectId_eq_dec : EqDecision ObjectId.
Proof. solve_decision. Defined.

(** [#[derive(Ord)]]: the fields in declaration order, the enum by its variant order. *)
Definition oid_key (id : ObjectId) : Z * (Z * list Z) :=
  (format_version id, (HashAlgorithm.code (algorithm id), digest id)).
#[export] Instance oid_key_inj : Inj (=) (=) oid_key.
Proof. intros [f a d] [f' a' d'] [= -> Ha ->]. by destruct a, a'. Qed.
#[export] Instance ObjectId_ord : Ord ObjectId := cmp_on oid_key.
#[export] Instance ObjectId_ord_laws : OrdLaws ObjectId := cmp_on_laws oid_key.

(** What every constructible identifier satisfies: format 0 and a 32-byte digest. *)
Definition oid_ok (id : ObjectId) : bool :=
  (format_version id =? 0) && (len (digest id) =? 32) && is_bytes (digest id).

Inductive ObjectIdError : Type :=
  | Prefix | Base32 | Format (n : Z) | Algorithm (n : Z) | DigestLength (n : Z)
  | Length | NonMinimalVarint.

(** ** Varints *)

(** The loop of [push_varint]; ten rounds of seven bits exhaust a [u64]. *)
Fixpoint push_varint_loop (fuel : nat) (out : list Z) (value : Z) : list Z :=
  match fuel with
  | O => out
  | S fuel =>
      let byte := as_u8 (Z.land value 0x7f) in
      let value := Z.shiftr value 7 in
      let byte := if value =? 0 then byte else Z.lor byte 0x80 in
      let out := out ++ [byte] in
      if value =? 0 then out else push_varint_loop fuel out value
  end.

Definition push_varint (out : list Z) (value : Z) : list Z :=
  push_varint_loop 10 out value.

(** [(0..=63).step_by(7)]. *)
Definition varint_shifts : list Z := [0; 7; 14; 21; 28; 35; 42; 49; 56; 63].

Fixpoint read_varint_loop (shifts : list Z) (bytes : list Z) (start at_ acc : Z) :
    result ObjectIdError (Z * Z) :=
  match shifts with
  | [] => Err Length
  | shift :: shifts =>
      byte ← ok_or (bytes !! Z.to_nat at_) Length;
      let at_ := at_ + 1 in
      bail_if (shift =? 63) && (1 <? byte) with Length;
      let acc := Z.lor acc (Z.land (Z.shiftl (Z.land byte 0x7f) shift) u64_max) in
      if Z.land byte 0x80 =? 0 then
        bail_if negb (len (push_varint [] acc) =? at_ - start) with NonMinimalVarint;
        Ok (acc, at_)
      else read_varint_loop shifts bytes start at_ acc
  end.

Definition read_varint (bytes : list Z) (at_ : Z) : result ObjectIdError (Z * Z) :=
  read_varint_loop varint_shifts bytes at_ at_ 0.

(** ** Identifiers *)

(** The digest functions and the base32hex codec of the imported crates. *)
Class Digests := {
  sha256 : list Z → list Z;
  blake3 : list Z → list Z;
  base32hex_encode : list Z → str;
  base32hex_decode : list Z → option (list Z) }.

(** What the code relies on: 32-byte digests, and an unpadded base32hex codec over the
    upper-case alphabet [0-9A-V] whose decoder inverts its encoder. *)
Definition base32hex_symbol (c : Z) : Prop := 48 ≤ c ≤ 57 ∨ 65 ≤ c ≤ 86.

Class DigestLaws `{Digests} : Prop := {
  sha256_len bs : len (sha256 bs) = 32 ∧ is_bytes (sha256 bs) = true;
  blake3_len bs : len (blake3 bs) = 32 ∧ is_bytes (blake3 bs) = true;
  base32hex_symbols bs : Forall base32hex_symbol (base32hex_encode bs);
  base32hex_inverse bs :
    is_bytes bs = true → base32hex_decode (as_bytes (base32hex_encode bs)) = Some bs }.

(** [s.to_ascii_lowercase()], [s.to_ascii_uppercase()] and [s.strip_prefix(p)]. *)
Definition to_ascii_lowercase : str → str :=
  map (λ c, if (65 <=? c) && (c <=? 90) then c + 32 else c).
Definition to_ascii_uppercase : str → str :=
  map (λ c, if (97 <=? c) && (c <=? 122) then c - 32 else c).
Definition strip_prefix (text prefix : str) : option str :=
  if bool_decide (firstn (length prefix) text = prefix)
  then Some (skipn (length prefix) text) else None.

(** [b"RGIT-OBJECT\0"]. *)
Definition OBJECT_DOMAIN : list Z := lit "RGIT-OBJECT" ++ [0].

Definition preimage (kind schema_version : Z) (payload : list Z) : list Z :=
  let out := OBJECT_DOMAIN in
  let out := push_varint out kind in
  let out := push_varint out schema_version in
  out ++ payload.

Definition to_bytes (self : ObjectId) : list Z :=
  let out := push_varint [] (format_version self) in
  let out := push_varint out (HashAlgorithm.code (algorithm self)) in
  let out := push_varint out 32 in
  out ++ digest self.

Definition from_bytes (bytes : list Z) : result ObjectIdError ObjectId :=
  '(format, at_) ← read_varint bytes 0;
  bail_if negb (format =? 0) with Format format;
  '(code, at_) ← read_varint bytes at_;
  algorithm ← (if code =? 0x12 then Ok HashAlgorithm.Sha256
               else if code =? 0x1e then Ok HashAlgorithm.Blake3_256
               else Err (Algorithm code));
  '(n, at_) ← read_varint bytes at_;
  bail_if negb (n =? 32) with DigestLength n;
  bail_if negb (len bytes =? at_ + 32) with Length;
  Ok (mk_oid format algorithm (skipn (Z.to_nat at_) bytes)).

Section digests.
Context `{Digests}.

Definition from_payload (kind schema_version : Z) (payload : list Z)
    (algorithm : HashAlgorithm.t) : ObjectId :=
  let p := preimage kind schema_version payload in
  let digest := match algorithm with
                | HashAlgorithm.Sha256 => sha256 p
                | HashAlgorithm.Blake3_256 => blake3 p end in
  mk_oid 0 algorithm digest.

(** [impl Display for ObjectId]. *)
Definition to_string (self : ObjectId) : str :=
  lit "rg0_" ++ to_ascii_lowercase (base32hex_encode (to_bytes self)).

(** [impl FromStr for ObjectId]. *)
Definition from_str (text : str) : result ObjectIdError ObjectId :=
  encoded ← ok_or (match strip_prefix text (lit "rg0_") with
                   | Some e => Some e
                   | None => strip_prefix text (lit "RG0_") end) Prefix;
  bytes ← ok_or (base32hex_decode (as_bytes (to_ascii_uppercase encoded))) Base32;
  from_bytes bytes.
End digests.

(** ** Varint facts *)

(** Little-endian base-128 digits with continuation bits. *)
Fixpoint leb (fuel : nat) (v : Z) : list Z :=
  match fuel with
  | O => []
  | S fuel => if v / 128 =? 0 then [v `mod` 128]
              else (v `mod` 128 + 128) :: leb fuel (v / 128)
  end.

Fixpoint leb_value (bs : list Z) : Z :=
  match bs with [] => 0 | b :: bs => b `mod` 128 + 128 * leb_value bs end.

(** Every byte but the last carries the continuation bit. *)
Fixpoint leb_shape (bs : list Z) : Prop :=
  match bs with
  | [] => False
  | [b] => 0 ≤ b < 128
  | b :: bs => 128 ≤ b < 256 ∧ leb_shape bs
  end.

Lemma push_varint_loop_leb fuel out v :
  0 ≤ v → push_varint_loop fuel out v = out ++ leb fuel v.
Proof.
  revert out v. induction fuel as [|fuel IH]; intros out v Hv; cbn; [by rewrite app_nil_r|].
  rewrite Z.shiftr_div_pow2, land_7f by lia. change (2 ^ 7) with 128.
  rewrite as_u8_small by zdiv.
  destruct (Z.eqb_spec (v / 128) 0); [done|].
  rewrite IH by zdiv. rewrite <-app_assoc. cbn. do 2 f_equal.
  pose proof (Z.mod_pos_bound v 128).
  rewrite Z.lor_comm. change (Z.lor 128) with (Z.lor (Z.shiftl 1 7)).
  rewrite lor_disjoint_add by lia. lia.
Qed.

Lemma push_varint_leb out v : 0 ≤ v → push_varint out v = out ++ leb 10 v.
Proof. apply push_varint_loop_leb. Qed.

Lemma leb_spec fuel v :
  0 ≤ v < 128 ^ Z.of_nat fuel → (0 < fuel)%nat →
  leb_shape (leb fuel v) ∧ leb_value (leb fuel v) = v.
Proof.
  revert v. induction fuel as [|fuel IH]; intros v Hv Hf; [lia|].
  rewrite Nat2Z.inj_succ, Z.pow_succ_r in Hv by lia. cbn [leb].
  destruct (Z.eqb_spec (v / 128) 0) as [Hz|Hnz].
  { cbn. split; zdiv. }
  destruct fuel as [|fuel]; [cbn in Hv; zdiv|].
  destruct (IH (v / 128)) as [Hs Hval]; [zdiv|lia|].
  set (rest := leb (S fuel) (v / 128)) in *. clearbody rest. cbn [leb_value].
  split; [|rewrite Hval; zdiv].
  destruct rest; [done|]. split; [zdiv|done].
Qed.

Lemma leb_shape_inj bs cs :
  leb_shape bs → leb_shape cs → length bs = length cs → leb_value bs = leb_value cs → bs = cs.
Proof.
  revert cs. induction bs as [|b bs IH]; intros [|c cs]; [done..|].
  intros Hb Hc Hl Hv. cbn in Hl, Hv. injection Hl as Hl.
  assert (b `mod` 128 = c `mod` 128 ∧ leb_value bs = leb_value cs) as [Hbc Hrest] by zdiv.
  destruct bs as [|b' bs], cs as [|c' cs]; try done.
  - cbn in Hb, Hc. f_equal. zdiv.
  - destruct Hb as [Hb Hbs], Hc as [Hc Hcs]. f_equal; [zdiv|]. by apply IH.
Qed.

Lemma leb_shape_bytes bs : leb_shape bs → is_bytes bs = true.
Proof.
  rewrite is_bytes_spec. induction bs as [|b [|b' bs] IH]; [done|..].
  - cbn. intros Hb. repeat constructor; lia.
  - intros [Hb Hs]. constructor; [lia|by apply IH].
Qed.

(** Self-delimitation: the continuation bits mark the end. *)
Lemma leb_shape_prefix bs cs r s :
  leb_shape bs → leb_shape cs → bs ++ r = cs ++ s → bs = cs ∧ r = s.
Proof.
  revert cs. induction bs as [|b bs IH]; intros [|c cs]; [done..|].
  intros Hb Hc [= -> Heq]. destruct bs as [|b' bs], cs as [|c' cs].
  - done.
  - cbn in Hb. destruct Hc as [? _]. lia.
  - cbn in Hc. destruct Hb as [? _]. lia.
  - destruct Hb as [_ Hb], Hc as [_ Hc]. destruct (IH (c' :: cs)) as [-> ->]; done.
Qed.

(** The shifts that remain after [k] rounds. *)
Definition shifts_from (k m : nat) : list Z := map (λ i, 7 * Z.of_nat i) (seq k m).

Lemma leb_length fuel v : (length (leb fuel v) ≤ fuel)%nat.
Proof.
  revert v. induction fuel as [|fuel IH]; intros v; cbn; [lia|].
  case_match; cbn; [lia|]. specialize (IH (v / 128)). lia.
Qed.

(** One round of the loop adds seven bits above the accumulator. *)
Lemma varint_acc (k : nat) acc b :
  (k < 10)%nat → 0 ≤ acc < 2 ^ (7 * Z.of_nat k) → 0 ≤ b < 256 →
  (k = 9%nat → b ≤ 1) →
  Z.lor acc (Z.land (Z.shiftl (Z.land b 0x7f) (7 * Z.of_nat k)) u64_max) =
    acc + b `mod` 128 * 2 ^ (7 * Z.of_nat k) ∧
  acc + b `mod` 128 * 2 ^ (7 * Z.of_nat k) < 2 ^ Z.min 64 (7 * Z.of_nat (S k)).
Proof.
  intros Hk Hacc Hb Hlast. rewrite land_7f. pose proof (Z.mod_pos_bound b 128).
  assert (b `mod` 128 * 2 ^ (7 * Z.of_nat k) < 2 ^ 64 ∧
    acc + b `mod` 128 * 2 ^ (7 * Z.of_nat k) < 2 ^ Z.min 64 (7 * Z.of_nat (S k))) as [Hlt Hlt'].
  { destruct (decide (k = 9%nat)) as [->|Hne].
    - rewrite Z.mod_small by lia. specialize (Hlast eq_refl).
      change (Z.min 64 (7 * Z.of_nat 10)) with 64. change (2 ^ (7 * Z.of_nat 9)) with (2 ^ 63) in *.
      lia.
    - replace (Z.min 64 (7 * Z.of_nat (S k))) with (7 * Z.of_nat k + 7) by lia.
      rewrite Z.pow_add_r by lia.
      assert (2 ^ (7 * Z.of_nat k) ≤ 2 ^ 56) by (apply Z.pow_le_mono_r; lia). nia. }
  split; [|done].
  rewrite Z.shiftl_mul_pow2 by lia. change u64_max with (2 ^ 64 - 1).
  rewrite land_mask by lia.
  assert (0 ≤ b `mod` 128 * 2 ^ (7 * Z.of_nat k)) by (apply Z.mul_nonneg_nonneg; lia).
  rewrite (Z.mod_small (_ * _)) by lia.
  rewrite Z.lor_comm, <-(Z.shiftl_mul_pow2 _ (7 * Z.of_nat k)) by lia.
  rewrite lor_disjoint_add by lia. rewrite Z.shiftl_mul_pow2 by lia. lia.
Qed.

Lemma read_varint_loop_sound m k bytes start at_ acc n j :
  (k + m = 10)%nat → is_bytes bytes = true → 0 ≤ at_ → 0 ≤ acc < 2 ^ (7 * Z.of_nat k) →
  read_varint_loop (shifts_from k m) bytes start at_ acc = Ok (n, j) →
  ∃ bs, reads bytes at_ j bs ∧ leb_shape bs ∧ n = acc + leb_value bs * 2 ^ (7 * Z.of_nat k) ∧
    len (push_varint [] n) = j - start ∧ 0 ≤ n < 2 ^ 64.
Proof.
  revert k at_ acc. induction m as [|m IH]; intros k at_ acc Hkm Hb Hat Hacc Hr; [done|].
  cbn [shifts_from seq map read_varint_loop] in Hr.
  apply bind_Ok in Hr as (b & Hl%ok_or_Ok & Hr). apply bail_Ok in Hr as [Hg Hr].
  apply reads_lookup in Hl as Hrb; [|done].
  pose proof (reads_is_bytes _ _ _ _ Hb Hrb) as Hbb. rewrite is_bytes_spec, Forall_singleton in Hbb.
  destruct (varint_acc k acc b) as [Hacc' Hlt]; [lia|done|done| |].
  { intros ->. destruct (Z.ltb_spec 1 b); [done|lia]. }
  cbn zeta in Hr. rewrite Hacc', land_80_zero in Hr by done. clear Hacc'.
  pose proof (Z.mod_pos_bound b 128). pose proof (Z.pow_pos_nonneg 2 (7 * Z.of_nat k)).
  destruct (Z.ltb_spec b 128).
  - apply bail_Ok in Hr as [Hlen%negb_false_iff%Z.eqb_eq [= <- <-]].
    exists [b]. cbn. rewrite Z.add_0_r. split_and!; [done|lia|lia|done|done|lia|].
    eapply Z.lt_le_trans; [exact Hlt|]. apply Z.pow_le_mono_r; lia.
  - destruct (decide (k = 9%nat)) as [->|Hk].
    { destruct (Z.ltb_spec 1 b); [done|lia]. }
    apply (IH (S k)) in Hr as (bs & Hbs & Hshape & -> & Hlen & Hn); [|lia|done|lia|].
    + exists (b :: bs). split_and!; try done.
      * apply (reads_app _ _ _ [b]). eauto.
      * destruct bs; [done|]. split; [lia|done].
      * cbn. replace (7 * Z.of_nat (S k)) with (7 * Z.of_nat k + 7) by lia.
        rewrite Z.pow_add_r by lia. lia.
      * apply Hn.
      * apply Hn.
    + split; [nia|]. by replace (Z.min 64 (7 * Z.of_nat (S k))) with (7 * Z.of_nat (S k)) in Hlt by lia.
Qed.

Lemma read_varint_loop_complete bs m k bytes start at_ acc n j :
  (k + m = 10)%nat → (length bs ≤ m)%nat → 0 ≤ at_ → 0 ≤ acc < 2 ^ (7 * Z.of_nat k) →
  reads bytes at_ j bs → leb_shape bs → n = acc + leb_value bs * 2 ^ (7 * Z.of_nat k) →
  len (push_varint [] n) = j - start → n < 2 ^ 64 →
  read_varint_loop (shifts_from k m) bytes start at_ acc = Ok (n, j).
Proof.
  revert m k at_ acc. induction bs as [|b bs IH]; intros m k at_ acc Hkm Hlen Hat Hacc Hr Hs Hn Hmin Hlt;
    [done|].
  destruct m as [|m]; [cbn in Hlen; lia|]. cbn in Hlen, Hn.
  cbn [shifts_from seq map read_varint_loop].
  apply (reads_app _ _ _ [b]) in Hr as (o & Hrb & Hr).
  pose proof (reads_bounds _ _ _ _ Hrb) as (_ & _ & ->). apply reads_lookup in Hrb as ->; [|done].
  cbn [ok_or mbind result_bind].
  assert (0 ≤ b < 256) as Hb.
  { apply leb_shape_bytes in Hs. rewrite is_bytes_spec in Hs. by inversion Hs. }
  pose proof (Z.mod_pos_bound b 128). pose proof (Z.pow_pos_nonneg 2 (7 * Z.of_nat k)).
  assert (0 ≤ leb_value bs) as Hv0.
  { clear. induction bs as [|b bs IH]; cbn; [lia|]. pose proof (Z.mod_pos_bound b 128). lia. }
  assert (k = 9%nat → b ≤ 1) as Hk9.
  { intros ->. destruct bs; [|cbn in Hlen; lia]. cbn in Hs, Hn.
    change (2 ^ (7 * Z.of_nat 9)) with (2 ^ 63) in *. rewrite Z.mod_small in Hn by lia. lia. }
  destruct (varint_acc k acc b) as [Hacc' Hlt']; [lia|done..|].
  replace ((7 * Z.of_nat k =? 63) && (1 <? b)) with false; cycle 1.
  { symmetry. apply andb_false_iff. destruct (decide (k = 9%nat)) as [->|];
      [right; apply Z.ltb_ge; auto|left; apply Z.eqb_neq; lia]. }
  cbn zeta. rewrite Hacc', land_80_zero by done.
  destruct bs as [|b' bs].
  - cbn in Hs, Hn. destruct (Z.ltb_spec b 128); [|lia]. rewrite Z.add_0_r in Hn.
    apply reads_nil in Hr as [<- _]. rewrite <-Hn, Hmin, Z.eqb_refl. done.
  - destruct Hs as [Hb' Hs]. destruct (Z.ltb_spec b 128); [lia|]. apply IH; try done; try lia.
    + split; [nia|]. cbn in Hlen.
      by replace (Z.min 64 (7 * Z.of_nat (S k))) with (7 * Z.of_nat (S k)) in Hlt' by lia.
    + rewrite Hn. replace (7 * Z.of_nat (S k)) with (7 * Z.of_nat k + 7) by lia.
      rewrite Z.pow_add_r by lia. cbn. lia.
Qed.

(** [read_varint] accepts exactly the minimal encoding of a [u64]. *)
Lemma read_varint_Ok bytes i n j :
  is_bytes bytes = true → 0 ≤ i →
  read_varint bytes i = Ok (n, j) ↔ is_u64 n = true ∧ reads bytes i j (leb 10 n).
Proof.
  intros Hb Hi. unfold read_varint. change varint_shifts with (shifts_from 0 10).
  rewrite is_u64_spec. split.
  - intros Hr. apply read_varint_loop_sound in Hr as (bs & Hbs & Hs & Hn & Hlen & Hn64); [|done..].
    split; [done|]. rewrite push_varint_leb, app_nil_l in Hlen by lia.
    destruct (leb_spec 10 n) as [Hs' Hv]; [split; [lia|]; eapply Z.lt_le_trans; [apply Hn64|done]|lia|].
    assert (leb 10 n = bs) as ->; [|done].
    apply leb_shape_inj; [done..| |].
    + pose proof (reads_bounds _ _ _ _ Hbs). unfold len in *. lia.
    + rewrite Hv. change (2 ^ (7 * Z.of_nat 0)) with 1 in Hn. lia.
  - intros [Hn Hr].
    destruct (leb_spec 10 n) as [Hs' Hv]; [split; [lia|]; eapply Z.lt_le_trans; [apply Hn|done]|lia|].
    apply (read_varint_loop_complete (leb 10 n));
      [done|apply leb_length|done|done|done|done| | |lia].
    + rewrite Hv. change (2 ^ (7 * Z.of_nat 0)) with 1. lia.
    + pose proof (reads_bounds _ _ _ _ Hr). rewrite push_varint_leb, app_nil_l by lia. lia.
Qed.

(** ** Identifier facts *)

Lemma to_bytes_eq id :
  format_version id = 0 →
  to_bytes id = [0; HashAlgorithm.code (algorithm id); 32] ++ digest id.
Proof. destruct id as [f [] d]; cbn; intros ->; done. Qed.

Lemma oid_ok_spec id :
  oid_ok id = true ↔ format_version id = 0 ∧ len (digest id) = 32 ∧ is_bytes (digest id) = true.
Proof. unfold oid_ok. rewrite !andb_true_iff, !Z.eqb_eq. naive_solver. Qed.

Lemma from_bytes_Ok bs id :
  is_bytes bs = true → from_bytes bs = Ok id ↔ oid_ok id = true ∧ to_bytes id = bs.
Proof.
  intros Hb. rewrite oid_ok_spec. split.
  - unfold from_bytes. intros Hr.
    apply bind_Ok in Hr as ([f a1] & Hf & Hr). apply bail_Ok in Hr as [Hf0%negb_false_iff%Z.eqb_eq Hr].
    apply bind_Ok in Hr as ([code a2] & Hcode & Hr). apply bind_Ok in Hr as (alg & Halg & Hr).
    apply bind_Ok in Hr as ([n a3] & Hn & Hr). apply bail_Ok in Hr as [Hn32%negb_false_iff%Z.eqb_eq Hr].
    apply bail_Ok in Hr as [Hlen%negb_false_iff%Z.eqb_eq [= <-]]. subst f n.
    apply read_varint_Ok in Hf as [_ Hf]; [|done..]. pose proof (reads_bounds _ _ _ _ Hf).
    apply read_varint_Ok in Hcode as [_ Hcode]; [|done|lia]. pose proof (reads_bounds _ _ _ _ Hcode).
    apply read_varint_Ok in Hn as [_ Hn]; [|done|lia]. pose proof (reads_bounds _ _ _ _ Hn).
    assert (code = HashAlgorithm.code alg) as ->.
    { destruct (Z.eqb_spec code 0x12); [by simplify_eq|].
      destruct (Z.eqb_spec code 0x1e); by simplify_eq. }
    assert (reads bs 0 a3 [0; HashAlgorithm.code alg; 32]) as (pre & rest & Hbs & Hpre & ->).
    { apply (reads_app _ _ _ [0]). exists a1. split; [done|].
      apply (reads_app _ _ _ [HashAlgorithm.code alg]). exists a2. split; [|done].
      by destruct alg. }
    destruct pre; [|rewrite len_cons in Hpre; pose proof (len_nonneg pre); lia].
    cbn [app] in Hbs. rewrite to_bytes_eq by done. subst bs.
    change (0 + len [0; HashAlgorithm.code alg; 32]) with 3 in *.
    rewrite !is_bytes_cons, !andb_true_iff in Hb. rewrite !len_cons in Hlen.
    assert (len rest = 32) as Hrest by lia.
    change (skipn (Z.to_nat 3) _) with rest. naive_solver.
  - intros ((Hf & Hlen & Hd) & <-). destruct id as [f alg d].
    cbn [format_version digest] in Hf, Hlen, Hd. subst f.
    unfold from_bytes. set (bs := to_bytes _) in *.
    assert (bs = [0; HashAlgorithm.code alg; 32] ++ d) as Hbs by by apply to_bytes_eq.
    rewrite (proj2 (read_varint_Ok bs 0 0 1 Hb ltac:(lia))) by (split; [done|]; by exists [], ([HashAlgorithm.code alg; 32] ++ d)).
    cbn [mbind result_bind Z.eqb negb].
    rewrite (proj2 (read_varint_Ok bs 1 (HashAlgorithm.code alg) 2 Hb ltac:(lia)))
      by (split; [by destruct alg|]; exists [0], (32 :: d); by destruct alg).
    cbn [mbind result_bind].
    replace (if HashAlgorithm.code alg =? 18 then _ else _) with (@Ok ObjectIdError _ alg) by by destruct alg.
    cbn [mbind result_bind].
    rewrite (proj2 (read_varint_Ok bs 2 32 3 Hb ltac:(lia)))
      by (split; [done|]; by exists [0; HashAlgorithm.code alg], d).
    cbn [mbind result_bind negb Z.eqb Pos.eqb]. rewrite Hbs, len_app, Hlen. done.
Qed.

Lemma oid_bytes_is_bytes id : oid_ok id = true → is_bytes (to_bytes id) = true.
Proof.
  rewrite oid_ok_spec. intros (Hf & _ & Hd). rewrite to_bytes_eq, is_bytes_app, Hd by done.
  by destruct (algorithm id).
Qed.

Lemma from_to_bytes id : oid_ok id = true → from_bytes (to_bytes id) = Ok id.
Proof. intros Hid. apply from_bytes_Ok; [by apply oid_bytes_is_bytes|done]. Qed.

Lemma to_bytes_len id : oid_ok id = true → len (to_bytes id) = 35.
Proof.
  rewrite oid_ok_spec. intros (Hf & Hl & _). by rewrite to_bytes_eq, len_app, Hl.
Qed.

Lemma to_bytes_inj a b :
  oid_ok a = true → oid_ok b = true → to_bytes a = to_bytes b → a = b.
Proof. intros Ha Hb Heq. apply from_to_bytes in Ha, Hb. congruence. Qed.

Lemma push_varint_prefix_free p a b r s :
  is_u64 a = true → is_u64 b = true →
  push_varint p a ++ r = push_varint p b ++ s → a = b ∧ r = s.
Proof.
  rewrite !is_u64_spec. intros Ha Hb. rewrite !push_varint_leb, <-!app_assoc by lia.
  intros Heq%app_inv_head.
  assert (2 ^ 64 ≤ 128 ^ Z.of_nat 10) by done.
  destruct (leb_spec 10 a) as [Hsa Hva]; [lia..|]. destruct (leb_spec 10 b) as [Hsb Hvb]; [lia..|].
  apply leb_shape_prefix in Heq as [Heq ->]; [|done..]. split; [|done].
  by rewrite <-Hva, <-Hvb, Heq.
Qed.

(** The bytes [push_varint] appends. *)
Definition varint (v : Z) : list Z := push_varint [] v.

Lemma push_varint_app out v : is_u64 v = true → push_varint out v = out ++ varint v.
Proof. intros Hv%is_u64_spec. unfold varint. by rewrite !push_varint_leb by lia. Qed.

Lemma push_varint_extends out v : ∃ r, push_varint out v = out ++ r.
Proof.
  unfold push_varint. generalize 10%nat as fuel. intros fuel.
  revert out v; induction fuel as [|fuel IH]; intros out v; cbn [push_varint_loop].
  { exists []. by rewrite app_nil_r. }
  case_match; [by eexists|].
  edestruct IH as [r ->]. rewrite <-app_assoc. by eexists.
Qed.

(** Peels a varint off two equal concatenations. *)
Lemma varint_inj a b r s :
  is_u64 a = true → is_u64 b = true →
  varint a ++ r = varint b ++ s → a = b ∧ r = s.
Proof. apply push_varint_prefix_free. Qed.

Lemma preimage_inj k s p k' s' p' :
  is_u64 k = true → is_u64 s = true → is_u64 k' = true → is_u64 s' = true →
  preimage k s p = preimage k' s' p' → k = k' ∧ s = s' ∧ p = p'.
Proof.
  intros Hk Hs Hk' Hs'. unfold preimage. rewrite !push_varint_app, <-!app_assoc by done.
  intros (-> & (-> & ->)%varint_inj)%app_inv_head%varint_inj; done.
Qed.

Lemma upper_lower s :
  Forall base32hex_symbol s → to_ascii_uppercase (to_ascii_lowercase s) = s.
Proof.
  unfold to_ascii_uppercase, to_ascii_lowercase, base32hex_symbol.
  induction 1 as [|c s Hc _ IH]; cbn; [done|]. f_equal; [|done].
  destruct ((65 <=? c) && (c <=? 90)) eqn:E1.
  - apply andb_true_iff in E1 as [?%Z.leb_le ?%Z.leb_le].
    replace ((97 <=? c + 32) && (c + 32 <=? 122)) with true; [lia|].
    symmetry. apply andb_true_iff. rewrite !Z.leb_le. lia.
  - apply andb_false_iff in E1. rewrite !Z.leb_gt in E1.
    replace ((97 <=? c) && (c <=? 122)) with false; [done|].
    symmetry. apply andb_false_iff. rewrite !Z.leb_gt. lia.
Qed.

(** ** Properties *)

Lemma to_ascii_uppercase_app s t :
  to_ascii_uppercase (s ++ t) = to_ascii_uppercase s ++ to_ascii_uppercase t.
Proof. apply map_app. Qed.

Lemma to_ascii_uppercase_idem s :
  to_ascii_uppercase (to_ascii_uppercase s) = to_ascii_uppercase s.
Proof.
  unfold to_ascii_uppercase. rewrite map_map. apply map_ext. intros c.
  destruct ((97 <=? c) && (c <=? 122)) eqn:E; [|by rewrite E].
  apply andb_true_iff in E as [?%Z.leb_le ?%Z.leb_le].
  replace ((97 <=? c - 32) && (c - 32 <=? 122)) with false; [done|].
  symmetry. apply andb_false_iff. rewrite !Z.leb_gt. lia.
Qed.

Lemma strip_prefix_app p s : strip_prefix (p ++ s) p = Some s.
Proof.
  unfold strip_prefix. rewrite take_app_length, bool_decide_true by done.
  by rewrite drop_app_length.
Qed.

(** [read_varint] accepts exactly the minimal varint of a [u64]: it returns [n] and
    stops at [j] iff the bytes from [i] to [j] are what [push_varint] writes for [n];
    overlong, truncated and overflowing encodings are all rejected. *)
Theorem varint_minimal bytes i n j :
  is_bytes bytes = true → 0 ≤ i →
  read_varint bytes i = Ok (n, j) ↔
    is_u64 n = true ∧ reads bytes i j (push_varint [] n).
Proof.
  intros Hb Hi. rewrite read_varint_Ok by done. split; intros [Hn Hr]; (split; [done|]);
    apply is_u64_spec in Hn; by rewrite push_varint_leb, app_nil_l in * by lia.
Qed.


Definition sample_oid (b : Z) : ObjectId := mk_oid 0 HashAlgorithm.Sha256 (replicate 32 b).

(** The textual form round-trips in either letter case: parsing what [Display]
    prints, or its upper-case spelling, gives the identifier back. *)
Theorem oid_string_roundtrip `{DigestLaws} id :
  oid_ok id = true →
  from_str (to_string id) = Ok id ∧
  from_str (to_ascii_uppercase (to_string id)) = Ok id.
Proof.
  intros Hid. pose proof (base32hex_symbols (to_bytes id)) as Hsym.
  pose proof (base32hex_inverse (to_bytes id) (oid_bytes_is_bytes id Hid)) as Hinv.
  pose proof to_ascii_uppercase_idem as Hup.
  unfold from_str, to_string. split.
  - rewrite strip_prefix_app. cbn [ok_or mbind result_bind].
    rewrite upper_lower, Hinv by done. by apply from_to_bytes.
  - rewrite to_ascii_uppercase_app.
    change (to_ascii_uppercase (lit "rg0_")) with (lit "RG0_").
    change (strip_prefix (lit "RG0_" ++ ?x) (lit "rg0_")) with (@None str).
    rewrite strip_prefix_app.
    cbn [ok_or mbind result_bind]. rewrite Hup, upper_lower, Hinv by done.
    by apply from_to_bytes.
Qed.

(** A concrete instance: constant digests and a two-symbols-per-byte codec over the same
    alphabet. *)
Definition hex_symbol (n : Z) : Z := if n <? 10 then 48 + n else 55 + n.
Definition hex_digit (c : Z) : Z := if c <? 58 then c - 48 else c - 55.
Fixpoint hex_decode (cs : list Z) : option (list Z) :=
  match cs with
  | [] => Some []
  | a :: b :: cs => cons (hex_digit a * 16 + hex_digit b) <$> hex_decode cs
  | _ => None
  end.
Definition sample_digests : Digests := {|
  sha256 := λ _, replicate 32 1;
  blake3 := λ _, replicate 32 2;
  base32hex_encode := flat_map (λ b, [hex_symbol ((b / 16) `mod` 16); hex_symbol (b `mod` 16)]);
  base32hex_decode := hex_decode |}.

Lemma hex_symbol_spec n : 0 ≤ n < 16 →
  base32hex_symbol (hex_symbol n) ∧ hex_symbol n < 128 ∧ hex_digit (hex_symbol n) = n.
Proof.
  unfold base32hex_symbol, hex_symbol, hex_digit. intros Hn.
  destruct (Z.ltb_spec n 10).
  - destruct (Z.ltb_spec (48 + n) 58); lia.
  - destruct (Z.ltb_spec (55 + n) 58); lia.
Qed.

Lemma sample_digest_laws : @DigestLaws sample_digests.
Proof.
  split; [done|done|..]; cbn [base32hex_encode base32hex_decode sample_digests].
  - intros bs. induction bs as [|b bs IH]; cbn [flat_map app]; [constructor|].
    constructor; [|constructor; [|done]]; apply hex_symbol_spec; zdiv.
  - intros bs. rewrite is_bytes_spec. induction 1 as [|b bs Hb _ IH]; [done|].
    cbn [flat_map app]. rewrite !as_bytes_cons.
    destruct (hex_symbol_spec ((b / 16) `mod` 16)) as (_ & H1 & H2); [zdiv|].
    destruct (hex_symbol_spec (b `mod` 16)) as (_ & H3 & H4); [zdiv|].
    unfold utf8_encode_char.
    destruct (Z.ltb_spec (hex_symbol ((b / 16) `mod` 16)) 0x80); [|lia].
    destruct (Z.ltb_spec (hex_symbol (b `mod` 16)) 0x80); [|lia].
    cbn [app hex_decode]. rewrite IH. cbn. rewrite H2, H4. do 2 f_equal. zdiv.
Qed.
