(* ===== verification/Types.v ===== *)
(** * Shared object types: [crates/rgit-objects/src/types.rs]

    Stable identifiers, mutable-reference keys, typed references, wall-clock times,
    signatures and the registry of object kinds, each with its [value()] projection into
    canonical CBOR.  A Rust enum is a module with a type [t]; [code] is its [as u64] cast
    and [try_from] the conversion back. *)

From S2P Require Import Prelude Machine Order Utf8 Canonical ObjectId.

(** [[u8; n]]. *)
Definition is_array (n : Z) (bs : list Z) : bool := (len bs =? n) && is_bytes bs.

(** The [stable_id!] newtypes over [[u8; 16]]. *)
Definition StableId : Type := list Z.
Definition ChangeId : Type := StableId.
Definition LineId : Type := StableId.
Definition PolicyId : Type := StableId.
Definition ActorId : Type := StableId.
Definition DeviceId : Type := StableId.

(** [impl From<$name> for Value]. *)
Definition id_value (id : StableId) : Value := Bytes id.
Definition id_ok (id : StableId) : bool := is_array 16 id.

(** [oid], [oid_array], [text] and [optional]. *)
Definition oid (id : ObjectId) : Value := Bytes (to_bytes id).
Definition oid_array (ids : list ObjectId) : Value := Array (map oid ids).
Definition text (value : str) : Value := Text value.
Definition optional (m : list (Z * Value)) (key : Z) (value : option Value) : list (Z * Value) :=
  match value with Some value => m ++ [(key, value)] | None => m end.

(** ** The registry of object kinds *)

Module ObjectKind.
Inductive t :=
  | Chunk | Blob | SecretRef | Manifest | Subproject | Snapshot | ChangeRevision
  | LineState | Conflict | Operation | Marker | Release | Policy | RepositoryRoot
  | Identity | GroupMembership | KeyEnvelopeSet | ChangeRelation | ConflictResolution
  | ReviewEvidence | ApprovalEvidence | CiEvidence | PolicyDecisionEvidence
  | ProjectionRules | ProjectionProof | BuildProvenance | Artifact | OperationPayload
  | View | Migration | Ruleset.

#[global] Instance eq_dec : EqDecision t.
Proof. solve_decision. Defined.

Definition code (k : t) : Z :=
  match k with
  | Chunk => 1 | Blob => 2 | SecretRef => 3 | Manifest => 4 | Subproject => 5
  | Snapshot => 6 | ChangeRevision => 7 | LineState => 8 | Conflict => 9
  | Operation => 10 | Marker => 11 | Release => 12 | Policy => 13
  | RepositoryRoot => 14 | Identity => 15 | GroupMembership => 16
  | KeyEnvelopeSet => 17 | ChangeRelation => 18 | ConflictResolution => 19
  | ReviewEvidence => 20 | ApprovalEvidence => 21 | CiEvidence => 22
  | PolicyDecisionEvidence => 23 | ProjectionRules => 24 | ProjectionProof => 25
  | BuildProvenance => 26 | Artifact => 27 | OperationPayload => 28 | View => 29
  | Migration => 30 | Ruleset => 31
  end.

Definition supports_schema (k : t) (schema : Z) : bool :=
  (schema =? 0) || (bool_decide (k = Operation) && (schema =? 1)).

Definition latest_schema_version (k : t) : Z :=
  if bool_decide (k = Operation) then 1 else 0.

Definition try_from (value : Z) : result Z t :=
  match value with
  | 1 => Ok Chunk | 2 => Ok Blob | 3 => Ok SecretRef | 4 => Ok Manifest
  | 5 => Ok Subproject | 6 => Ok Snapshot | 7 => Ok ChangeRevision
  | 8 => Ok LineState | 9 => Ok Conflict | 10 => Ok Operation | 11 => Ok Marker
  | 12 => Ok Release | 13 => Ok Policy | 14 => Ok RepositoryRoot | 15 => Ok Identity
  | 16 => Ok GroupMembership | 17 => Ok KeyEnvelopeSet | 18 => Ok ChangeRelation
  | 19 => Ok ConflictResolution | 20 => Ok ReviewEvidence | 21 => Ok ApprovalEvidence
  | 22 => Ok CiEvidence | 23 => Ok PolicyDecisionEvidence | 24 => Ok ProjectionRules
  | 25 => Ok ProjectionProof | 26 => Ok BuildProvenance | 27 => Ok Artifact
  | 28 => Ok OperationPayload | 29 => Ok View | 30 => Ok Migration | 31 => Ok Ruleset
  | other => Err other
  end.

Lemma try_from_code k : try_from (code k) = Ok k.
Proof. by destruct k. Qed.

Lemma code_range k : 1 ≤ code k ≤ 31.
Proof. destruct k; cbn; lia. Qed.

Lemma try_from_Ok n k : try_from n = Ok k ↔ n = code k.
Proof.
  split; [|intros ->; apply try_from_code].
  destruct n as [|p|p]; [done| |done]. intros H.
  do 5 (try destruct p as [p|p|]; try discriminate H; try (by injection H as <-)).
Qed.

Lemma latest_supported k : supports_schema k (latest_schema_version k) = true.
Proof. by destruct k. Qed.
End ObjectKind.

(** ** Mutable references *)

Module ReferenceKey.
Inductive t :=
  | Line (id : LineId)
  | Change (id : ChangeId)
  | OperationHead
  | Release (id : LineId)
  | Marker (id : list Z).

Definition kind_code (key : t) : Z :=
  match key with
  | Line _ => 1 | Change _ => 2 | OperationHead => 3 | Release _ => 4 | Marker _ => 5
  end.

Definition expected_kind (key : t) : ObjectKind.t :=
  match key with
  | Line _ => ObjectKind.LineState
  | Change _ => ObjectKind.ChangeRevision
  | OperationHead => ObjectKind.Operation
  | Release _ => ObjectKind.Release
  | Marker _ => ObjectKind.Marker
  end.

Definition stable_id (key : t) : option (list Z) :=
  match key with
  | Line id | Release id => Some id
  | Change id => Some id
  | OperationHead => None
  | Marker id => Some id
  end.

Definition value (key : t) : Value :=
  Map ([(0, Unsigned (kind_code key))]
       ++ match stable_id key with Some id => [(1, Bytes id)] | None => [] end).

Definition wf (key : t) : bool :=
  match stable_id key with Some id => id_ok id | None => true end.

(** [#[derive(Ord)]]: by variant, then by payload. *)
Definition ord_key (key : t) : Z * list Z := (kind_code key, default [] (stable_id key)).
#[global] Instance ord_key_inj : Inj (=) (=) ord_key.
Proof. by intros [] [] [=]; subst. Qed.
#[global] Instance ord : Ord t := cmp_on ord_key.
#[global] Instance ord_laws : OrdLaws t := cmp_on_laws ord_key.
#[global] Instance eq_dec : EqDecision t.
Proof. solve_decision. Defined.
End ReferenceKey.

(** ** Small structures *)

Module PolicyRef.
Record t := mk { policy_id : PolicyId; version : ObjectId }.
#[global] Instance eq_dec : EqDecision t.
Proof. solve_decision. Defined.
Definition value (self : t) : Value :=
  Map [(0, id_value (policy_id self)); (1, oid (version self))].
Definition wf (self : t) : bool := id_ok (policy_id self) && oid_ok (version self).
End PolicyRef.

Module TypedObjectRef.
Record t := mk { kind : ObjectKind.t; id : ObjectId }.
#[global] Instance eq_dec : EqDecision t.
Proof. solve_decision. Defined.
Definition value (self : t) : Value :=
  Map [(0, Unsigned (ObjectKind.code (kind self))); (1, oid (id self))].
Definition wf (self : t) : bool := oid_ok (id self).
End TypedObjectRef.

Module WallTime.
Record t := mk { utc_seconds : Z; offset_seconds : Z }.
#[global] Instance eq_dec : EqDecision t.
Proof. solve_decision. Defined.
Definition value (self : t) : Value :=
  Map [(0, Signed (utc_seconds self)); (1, Signed (offset_seconds self))].
Definition wf (self : t) : bool := is_i64 (utc_seconds self) && is_i64 (offset_seconds self).
End WallTime.

(** ** Signatures *)

Module SignatureAlgorithm.
Inductive t := Ed25519.
#[global] Instance eq_dec : EqDecision t.
Proof. solve_decision. Defined.
Definition code (a : t) : Z := match a with Ed25519 => 0 end.
Definition try_from (value : Z) : result Z t :=
  match value with 0 => Ok Ed25519 | other => Err other end.
End SignatureAlgorithm.

Module SignaturePurpose.
Inductive t :=
  | LineState | Operation | Marker | Release | Policy | RepositoryRoot | Identity
  | GroupMembership | ConflictResolution | ReviewEvidence | ApprovalEvidence
  | CiEvidence | PolicyDecisionEvidence | BuildProvenance | View | Migration.

#[global] Instance eq_dec : EqDecision t.
Proof. solve_decision. Defined.

Definition code (p : t) : Z :=
  match p with
  | LineState => 0 | Operation => 1 | Marker => 2 | Release => 3 | Policy => 4
  | RepositoryRoot => 5 | Identity => 6 | GroupMembership => 7
  | ConflictResolution => 8 | ReviewEvidence => 9 | ApprovalEvidence => 10
  | CiEvidence => 11 | PolicyDecisionEvidence => 12 | BuildProvenance => 13
  | View => 14 | Migration => 15
  end.

Definition as_str (p : t) : str :=
  lit match p with
  | LineState => "line-state"
  | Operation => "operation"
  | Marker => "marker"
  | Release => "release"
  | Policy => "policy"
  | RepositoryRoot => "repository-root"
  | Identity => "identity"
  | GroupMembership => "group-membership"
  | ConflictResolution => "conflict-resolution"
  | ReviewEvidence => "review-evidence"
  | ApprovalEvidence => "approval-evidence"
  | CiEvidence => "ci-evidence"
  | PolicyDecisionEvidence => "policy-decision-evidence"
  | BuildProvenance => "build-provenance"
  | View => "view"
  | Migration => "migration"
  end.

(** [impl TryFrom<&str>]: the arms in source order. *)
Definition str_arms : list (str * t) :=
  [(lit "line-state", LineState);
   (lit "operation", Operation);
   (lit "marker", Marker);
   (lit "release", Release);
   (lit "policy", Policy);
   (lit "repository-root", RepositoryRoot);
   (lit "identity", Identity);
   (lit "group-membership", GroupMembership);
   (lit "conflict-resolution", ConflictResolution);
   (lit "review-evidence", ReviewEvidence);
   (lit "approval-evidence", ApprovalEvidence);
   (lit "ci-evidence", CiEvidence);
   (lit "policy-decision-evidence", PolicyDecisionEvidence);
   (lit "build-provenance", BuildProvenance);
   (lit "view", View);
   (lit "migration", Migration)].

Fixpoint match_arms (value : str) (arms : list (str * t)) : result () t :=
  match arms with
  | [] => Err tt
  | (s, p) :: arms => if bool_decide (value = s) then Ok p else match_arms value arms
  end.

Definition try_from_str (value : str) : result () t := match_arms value str_arms.

Definition try_from (value : Z) : result Z t :=
  match value with
  | 0 => Ok LineState | 1 => Ok Operation | 2 => Ok Marker | 3 => Ok Release
  | 4 => Ok Policy | 5 => Ok RepositoryRoot | 6 => Ok Identity
  | 7 => Ok GroupMembership | 8 => Ok ConflictResolution | 9 => Ok ReviewEvidence
  | 10 => Ok ApprovalEvidence | 11 => Ok CiEvidence | 12 => Ok PolicyDecisionEvidence
  | 13 => Ok BuildProvenance | 14 => Ok View | 15 => Ok Migration
  | other => Err other
  end.

Lemma try_from_purpose p : try_from (code p) = Ok p.
Proof. by destruct p. Qed.

Lemma purpose_range p : 0 ≤ code p ≤ 15.
Proof. destruct p; cbn; lia. Qed.

Lemma try_from_str_as_str p : try_from_str (as_str p) = Ok p.
Proof. by destruct p; vm_compute. Qed.

Lemma match_arms_Ok value arms p :
  match_arms value arms = Ok p → (value, p) ∈ arms.
Proof.
  induction arms as [|[s q] arms IH]; cbn; [done|].
  case_bool_decide; [intros [= ->]; subst; left|right; auto].
Qed.

Lemma try_from_str_Ok value p : try_from_str value = Ok p ↔ value = as_str p.
Proof.
  split; [|intros ->; apply try_from_str_as_str].
  intros H%match_arms_Ok. unfold str_arms in H.
  repeat (apply elem_of_cons in H as [[= -> ->]|H]; [done|]). by apply not_elem_of_nil in H.
Qed.
End SignaturePurpose.

Inductive SignatureError := PlaceholderKeyId | PlaceholderSignature.

Module Signature.
Record t := mk {
  algorithm : SignatureAlgorithm.t;
  signer : ActorId;
  signing_key_id : list Z;
  bytes : list Z;
  purpose : SignaturePurpose.t }.

#[global] Instance eq_dec : EqDecision t.
Proof. solve_decision. Defined.

Definition new (algorithm : SignatureAlgorithm.t) (signer : ActorId)
    (signing_key_id bytes : list Z) (purpose : SignaturePurpose.t) :
    result SignatureError t :=
  bail_if bool_decide (signing_key_id = replicate 32 0) with PlaceholderKeyId;
  bail_if bool_decide (bytes = replicate 64 0) with PlaceholderSignature;
  Ok (mk algorithm signer signing_key_id bytes purpose).

Definition value (self : t) : Value :=
  Map [(0, Unsigned (SignatureAlgorithm.code (algorithm self)));
       (1, id_value (signer self));
       (2, Bytes (signing_key_id self));
       (3, Bytes (bytes self));
       (4, Unsigned (SignaturePurpose.code (purpose self)))].

(** What [new] guarantees of its result, with the array lengths of its arguments. *)
Definition wf (self : t) : bool :=
  id_ok (signer self) && is_array 32 (signing_key_id self) && is_array 64 (bytes self)
  && negb (bool_decide (signing_key_id self = replicate 32 0))
  && negb (bool_decide (bytes self = replicate 64 0)).

(** [#[derive(Ord)]]: the fields in declaration order. *)
Definition ord_key (s : t) : Z * (list Z * (list Z * (list Z * Z))) :=
  (SignatureAlgorithm.code (algorithm s),
    (signer s, (signing_key_id s, (bytes s, SignaturePurpose.code (purpose s))))).
#[global] Instance ord_key_inj : Inj (=) (=) ord_key.
Proof.
  intros [[] ? ? ? p] [[] ? ? ? p'] [= -> -> -> Hp]. f_equal.
  by destruct p, p'.
Qed.
#[global] Instance ord : Ord t := cmp_on ord_key.
#[global] Instance ord_laws : OrdLaws t := cmp_on_laws ord_key.
End Signature.

(** The frozen signature-profile-0 preimage. *)
Definition signing_preimage (algorithm : SignatureAlgorithm.t)
    (purpose : SignaturePurpose.t) (signer : ActorId) (signing_key_id : list Z)
    (kind : ObjectKind.t) (schema_version : Z) (unsigned_cbor : list Z) : list Z :=
  let out := lit "RGIT-SIGNATURE" ++ [0] in
  let out := push_varint out 0 in
  let out := push_varint out (SignatureAlgorithm.code algorithm) in
  let out := push_varint out (SignaturePurpose.code purpose) in
  let out := out ++ signer in
  let out := push_varint out (len signing_key_id) in
  let out := out ++ signing_key_id in
  let out := push_varint out (ObjectKind.code kind) in
  let out := push_varint out schema_version in
  let out := push_varint out (len unsigned_cbor) in
  out ++ unsigned_cbor.

(** ** Facts *)

Lemma signature_algorithm_code a b :
  SignatureAlgorithm.code a = SignatureAlgorithm.code b → a = b.
Proof. by destruct a, b. Qed.

Lemma signature_purpose_code p q : SignaturePurpose.code p = SignaturePurpose.code q → p = q.
Proof.
  intros H. pose proof (SignaturePurpose.try_from_purpose p) as Hp.
  rewrite H, SignaturePurpose.try_from_purpose in Hp. congruence.
Qed.

Lemma object_kind_code k l : ObjectKind.code k = ObjectKind.code l → k = l.
Proof.
  intros H. pose proof (ObjectKind.try_from_code k) as Hk.
  rewrite H, ObjectKind.try_from_code in Hk. congruence.
Qed.

Lemma is_array_spec n bs : is_array n bs = true ↔ len bs = n ∧ is_bytes bs = true.
Proof. unfold is_array. by rewrite andb_true_iff, Z.eqb_eq. Qed.

Lemma new_signature_wf a signer key bs purpose s :
  id_ok signer = true → is_array 32 key = true → is_array 64 bs = true →
  Signature.new a signer key bs purpose = Ok s →
  s = Signature.mk a signer key bs purpose ∧ Signature.wf s = true.
Proof.
  unfold Signature.new, Signature.wf. intros H1 H2 H3 H. inv_ok. split; [done|].
  cbn [Signature.signer Signature.signing_key_id Signature.bytes].
  by rewrite H1, H2, H3, Hb, Hb0.
Qed.

Lemma purpose_u64 p : is_u64 (SignaturePurpose.code p) = true.
Proof. by destruct p. Qed.

Lemma kind_u64 k : is_u64 (ObjectKind.code k) = true.
Proof. by destruct k. Qed.

Create HintDb rgit_u64.
#[export] Hint Resolve purpose_u64 kind_u64 : rgit_u64.
#[export] Hint Extern 1 (is_u64 _ = true) => reflexivity : rgit_u64.

(** Equal-length heads of equal concatenations agree. *)
Lemma app_inj_len {A} (a b c d : list A) :
  len a = len b → a ++ c = b ++ d → a = b ∧ c = d.
Proof. unfold len. intros Hl. apply app_inj_1. lia. Qed.

(** ** Claims *)

(** The byte string handed to the signature scheme is unambiguous: equal signing
    preimages come from the same algorithm, purpose, signer, key, object kind, schema
    version and unsigned encoding, and none is the hash preimage of an object. *)
Theorem signing_preimage_injective a p s k kind schema cbor a' p' s' k' kind' schema' cbor' :
  id_ok s = true → id_ok s' = true → is_array 32 k = true → is_array 32 k' = true →
  is_u64 schema = true → is_u64 schema' = true →
  is_u64 (len cbor) = true → is_u64 (len cbor') = true →
  (signing_preimage a p s k kind schema cbor = signing_preimage a' p' s' k' kind' schema' cbor'
   → a = a' ∧ p = p' ∧ s = s' ∧ k = k' ∧ kind = kind' ∧ schema = schema' ∧ cbor = cbor')
  ∧ (∀ n m payload, signing_preimage a p s k kind schema cbor ≠ preimage n m payload).
Proof.
  intros Hs Hs' Hk Hk' Hv Hv' Hc Hc'.
  apply is_array_spec in Hs as [Hs _], Hs' as [Hs' _], Hk as [Hk _], Hk' as [Hk' _].
  pose proof (SignaturePurpose.purpose_range p). pose proof (SignaturePurpose.purpose_range p').
  pose proof (ObjectKind.code_range kind). pose proof (ObjectKind.code_range kind').
  split.
  - destruct a, a'. unfold signing_preimage. rewrite Hk, Hk'.
    rewrite !push_varint_app, <-!app_assoc by eauto with rgit_u64.
    intros Heq%app_inv_head%app_inv_head%app_inv_head%app_inv_head.
    apply varint_inj in Heq as [Hp Heq]; [|by apply purpose_u64..].
    apply app_inj_len in Heq as [-> Heq%app_inv_head]; [|congruence].
    apply app_inj_len in Heq as [-> Heq]; [|congruence].
    apply varint_inj in Heq as [Hkd Heq]; [|by apply kind_u64..].
    apply varint_inj in Heq as [-> Heq]; [|done..].
    apply varint_inj in Heq as [_ ->]; [|done..].
    apply signature_purpose_code in Hp as ->. by apply object_kind_code in Hkd as ->.
  - intros n m payload Heq. unfold signing_preimage, preimage in Heq.
    destruct a. rewrite Hk in Heq.
    rewrite !push_varint_app in Heq by eauto with rgit_u64.
    destruct (push_varint_extends OBJECT_DOMAIN n) as [r1 Hr1]. rewrite Hr1 in Heq.
    destruct (push_varint_extends (OBJECT_DOMAIN ++ r1) m) as [r2 Hr2].
    rewrite Hr2, <-!app_assoc in Heq. apply (f_equal (λ l, l !! 5%nat)) in Heq.
    by change (Some 83 = Some 79) in Heq.
Qed.

