(* ===== verification/Path.v ===== *)
(** * Portable paths: [crates/rgit-objects/src/path.rs]

    Validation of path segments, the portable filesystem profile, the sibling
    comparison key and the bounded relative path. *)

From S2P Require Import Prelude Machine Order Utf8 Canonical CanonicalFacts.

Definition PORTABLE_COMPONENT_MAX_BYTES : Z := 255.
Definition PORTABLE_PATH_MAX_BYTES : Z := 1023.

Module PathError.
Inductive t :=
  | Empty | NonNormalized | Unsafe | NonPortableCharacter | WindowsReserved
  | SegmentTooLong | PathTooLong.
#[global] Instance eq_dec : EqDecision t.
Proof. solve_decision. Defined.
End PathError.

(** The three superscript digits of the reserved device names. *)
Definition windows_stems : list str :=
  [lit "con"; lit "prn"; lit "aux"; lit "nul";
   lit "com1"; lit "com2"; lit "com3"; lit "com4"; lit "com5"; lit "com6"; lit "com7";
   lit "com8"; lit "com9"; lit "com" ++ [0xb9]; lit "com" ++ [0xb2]; lit "com" ++ [0xb3];
   lit "lpt1"; lit "lpt2"; lit "lpt3"; lit "lpt4"; lit "lpt5"; lit "lpt6"; lit "lpt7";
   lit "lpt8"; lit "lpt9"; lit "lpt" ++ [0xb9]; lit "lpt" ++ [0xb2]; lit "lpt" ++ [0xb3]].

(** [value.split('.').next()]: the text before the first dot. *)
Fixpoint before_dot (value : str) : str :=
  match value with
  | [] => []
  | c :: value => if c =? 0x2e then [] else c :: before_dot value
  end.

Definition is_windows_reserved (value : str) : bool :=
  let stem := before_dot value in
  bool_decide (stem ∈ windows_stems).

Definition is_nonportable_character (c : Z) : bool :=
  existsb (Z.eqb c) [0x3c; 0x3e; 0x3a; 0x22; 0x7c; 0x3f; 0x2a]
  || ((0x00 <=? c) && (c <=? 0x1f)) || (c =? 0x7f).

(** [value.trim_end_matches([' ', '.'])]. *)
Fixpoint trim_end (value : str) : str :=
  match value with
  | [] => []
  | c :: value =>
      match trim_end value with
      | [] => if (c =? 0x20) || (c =? 0x2e) then [] else [c]
      | t => c :: t
      end
  end.

Section path.
Context `{Unicode}.

Definition portable_case_fold (value : str) : str := nfc (case_fold value).

(** A [PathSegment] is the string its constructors validated. *)
Definition PathSegment : Type := str.

Definition validate (value : str) (portable : bool) : result PathError.t PathSegment :=
  bail_if bool_decide (value = []) with PathError.Empty;
  bail_if PORTABLE_COMPONENT_MAX_BYTES <? str_len value with PathError.SegmentTooLong;
  bail_if negb (is_nfc value) with PathError.NonNormalized;
  bail_if bool_decide (value = lit ".") || bool_decide (value = lit "..")
          || existsb (λ c, existsb (Z.eqb c) [0x00; 0x2f; 0x5c]) value
    with PathError.Unsafe;
  if portable then
    bail_if existsb is_nonportable_character value with PathError.NonPortableCharacter;
    bail_if negb (bool_decide (trim_end value = value))
            || is_windows_reserved (portable_case_fold value)
      with PathError.WindowsReserved;
    Ok value
  else Ok value.

Definition new_segment (value : str) : result PathError.t PathSegment :=
  validate value false.
Definition new_portable (value : str) : result PathError.t PathSegment :=
  validate value true.

Definition ensure_portable (self : PathSegment) : result PathError.t () :=
  (λ _, tt) <$> validate self true.

(** [canonical_bytes]; [None] is the panic of its [expect]. *)
Definition canonical_bytes (self : PathSegment) : option (list Z) :=
  ok (encode (Text self)).

(** What the private field of [PathSegment] guarantees. *)
Definition segment_ok (self : PathSegment) : bool :=
  is_str self && bool_decide (new_segment self = Ok self).

(** [PortablePath::new]: one step of the loop, then the loop. *)
Definition path_step (encoded_len : Z) (segment : PathSegment) : result PathError.t Z :=
  _ ← ensure_portable segment;
  encoded_len ← ok_or (length ← checked_add encoded_len (if encoded_len =? 0 then 0 else 1);
                       checked_add length (str_len segment)) PathError.PathTooLong;
  bail_if PORTABLE_PATH_MAX_BYTES <? encoded_len with PathError.PathTooLong;
  Ok encoded_len.

Definition PortablePath : Type := list PathSegment.

Definition new_path (segments : list PathSegment) : result PathError.t PortablePath :=
  _ ← try_fold path_step segments 0;
  Ok segments.

Definition path_value (self : PortablePath) : Value := Array (map Text self).

(** ** Facts *)

Lemma validate_Ok value portable seg : validate value portable = Ok seg → seg = value.
Proof. unfold validate. intros Hv. inv_ok. destruct portable; by inv_ok. Qed.

Lemma validate_weaken value portable seg :
  validate value portable = Ok seg → validate value false = Ok seg.
Proof.
  destruct portable; [|done]. unfold validate. intros Hv. inv_ok.
  by rewrite Hb, Hb0, Hb1, Hb2.
Qed.

Lemma ensure_portable_Ok seg : ensure_portable seg = Ok tt ↔ validate seg true = Ok seg.
Proof.
  unfold ensure_portable. rewrite fmap_Ok. split; [|by eauto].
  intros (s & Hs & _). by rewrite Hs, (validate_Ok _ _ _ Hs).
Qed.

(** The bounds and normal form every segment has, portable or not. *)
Lemma validate_bounds value portable seg :
  validate value portable = Ok seg →
  value ≠ [] ∧ str_len value ≤ 255 ∧ is_nfc value = true.
Proof.
  intros Hv%validate_weaken. unfold validate in Hv. inv_ok.
  apply bool_decide_eq_false in Hb. apply Z.ltb_ge in Hb0.
  rewrite negb_false_iff in Hb1. unfold PORTABLE_COMPONENT_MAX_BYTES in *. done.
Qed.

(** The [expect] in [canonical_bytes] never fires on a constructed segment. *)
Lemma canonical_bytes_total seg :
  segment_ok seg = true → canonical_bytes seg = Some (raw (Text seg)).
Proof.
  unfold segment_ok. intros [Hstr Hv%bool_decide_eq_true]%andb_true_iff.
  apply validate_bounds in Hv as (_ & Hlen & Hnfc).
  unfold canonical_bytes. apply ok_Some, encode_with_limits_Ok.
  { by unfold limits_ok. }
  { done. }
  assert (len (raw (Text seg)) ≤ 1048576).
  { change (raw (Text seg)) with (head 3 (str_len seg) ++ as_bytes seg).
    rewrite len_app. fold (str_len seg). unfold head.
    repeat case_match; autorewrite with len; rewrite ?to_be_bytes_len; lia. }
  split_and!; [|done|done]. cbn [fits]. rewrite Hnfc. apply andb_true_iff. split; [done|].
  apply Z.leb_le. change (max_string_bytes metadata) with 65536. lia.
Qed.

(** ** Materialized paths *)

(** The text a path materializes as: its segments separated by slashes. *)
Fixpoint join (segments : list str) : str :=
  match segments with
  | [] => []
  | [seg] => seg
  | seg :: segments => seg ++ [0x2f] ++ join segments
  end.

Fixpoint split_slash (text : str) : list str :=
  match text with
  | [] => [[]]
  | c :: text =>
      if c =? 0x2f then [] :: split_slash text
      else match split_slash text with
           | seg :: segs => (c :: seg) :: segs
           | [] => [[c]]
           end
  end.

Lemma join_cons seg segs :
  segs ≠ [] → join (seg :: segs) = seg ++ [0x2f] ++ join segs.
Proof. by destruct segs. Qed.

Lemma join_snoc_len segs seg :
  segs ≠ [] → str_len (join (segs ++ [seg])) = str_len (join segs) + 1 + str_len seg.
Proof.
  intros Hne. unfold str_len. induction segs as [|s [|s' segs] IH]; [done| |].
  - change ([s] ++ [seg]) with (s :: [seg]). rewrite join_cons by done.
    rewrite !as_bytes_app, !len_app. change (len (as_bytes [0x2f])) with 1. cbn [join]. lia.
  - change ((s :: s' :: segs) ++ [seg]) with (s :: ((s' :: segs) ++ [seg])).
    rewrite !join_cons, !as_bytes_app, !len_app, IH by done.
    change (len (as_bytes [0x2f])) with 1. lia.
Qed.

Lemma split_slash_segment seg rest :
  existsb (Z.eqb 0x2f) seg = false →
  split_slash (seg ++ [0x2f] ++ rest) = seg :: split_slash rest ∧ split_slash seg = [seg].
Proof.
  induction seg as [|c seg IH]; [done|].
  change ((c :: seg) ++ [0x2f] ++ rest) with (c :: (seg ++ [0x2f] ++ rest)).
  cbn [existsb split_slash]. intros [Hc Hseg]%orb_false_iff.
  destruct (IH Hseg) as [-> ->]. by rewrite Z.eqb_sym, Hc.
Qed.

Lemma trim_end_last value c :
  trim_end value = value → last value = Some c → c ≠ 0x20 ∧ c ≠ 0x2e.
Proof.
  induction value as [|d value IH]; [done|]. cbn [trim_end]. destruct value as [|e value].
  - cbn. destruct (Z.eqb_spec d 0x20), (Z.eqb_spec d 0x2e); cbn;
      intros Ht [= <-]; done.
  - rewrite last_cons_cons. destruct (trim_end (e :: value)) eqn:E; [by case_match|].
    intros Ht. apply IH. congruence.
Qed.

Lemma validate_no_slash value portable seg :
  validate value portable = Ok seg → existsb (Z.eqb 0x2f) value = false.
Proof.
  intros Hv%validate_weaken. unfold validate in Hv. inv_ok.
  apply orb_false_iff in Hb2 as [_ Hc].
  apply not_true_iff_false. intros (c & Hin & <-%Z.eqb_eq)%existsb_exists.
  apply list_elem_of_In in Hin. by apply (existsb_false_elem _ _ _ Hc) in Hin.
Qed.

Lemma split_slash_join segs :
  segs ≠ [] → Forall (λ s, existsb (Z.eqb 0x2f) s = false) segs → split_slash (join segs) = segs.
Proof.
  intros Hne. induction 1 as [|s [|s' segs] Hs Hall IH]; [done| |].
  - by apply (split_slash_segment s []).
  - rewrite join_cons by done. rewrite (proj1 (split_slash_segment _ _ Hs)).
    by rewrite IH.
Qed.

Lemma str_len_nonneg s : 0 ≤ str_len s.
Proof. apply len_nonneg. Qed.

Lemma str_len_pos s : is_str s = true → s ≠ [] → 0 < str_len s.
Proof.
  intros Hs Hne. destruct s as [|c s]; [done|]. unfold str_len.
  rewrite as_bytes_cons, len_app. pose proof (len_nonneg (as_bytes s)).
  unfold utf8_encode_char. repeat case_match; autorewrite with len; lia.
Qed.

Lemma join_prefix_len pre rest : str_len (join pre) ≤ str_len (join (pre ++ rest)).
Proof.
  destruct rest as [|seg rest]; [by rewrite app_nil_r|].
  induction pre as [|s [|s' pre] IH]; [apply str_len_nonneg| |].
  - change ([s] ++ seg :: rest) with (s :: seg :: rest).
    rewrite (join_cons s (seg :: rest)) by done.
    change (join [s]) with s. unfold str_len. rewrite (as_bytes_app s), len_app.
    pose proof (len_nonneg (as_bytes ([0x2f] ++ join (seg :: rest)))). lia.
  - change ((s :: s' :: pre) ++ seg :: rest) with (s :: ((s' :: pre) ++ seg :: rest)).
    rewrite (join_cons s (s' :: pre)), (join_cons s (_ ++ _)) by done.
    unfold str_len in *. rewrite !as_bytes_app, !len_app. lia.
Qed.

(** The loop keeps the byte length of the path materialized so far. *)
Lemma path_step_Ok pre seg n :
  (pre = [] ∨ 0 < str_len (join pre)) → str_len (join pre) ≤ 1023 →
  path_step (str_len (join pre)) seg = Ok n ↔
  validate seg true = Ok seg ∧ n = str_len (join (pre ++ [seg])) ∧ n ≤ 1023.
Proof.
  intros Hpre Hmax. unfold path_step. rewrite bind_Ok, <-ensure_portable_Ok.
  pose proof (str_len_nonneg seg) as Hn0.
  assert (str_len (join pre) + (if str_len (join pre) =? 0 then 0 else 1) + str_len seg
          = str_len (join (pre ++ [seg]))) as Hlen.
  { destruct Hpre as [->|Hpos]; [by cbn|].
    rewrite join_snoc_len by (intros ->; cbn in Hpos; done).
    destruct (Z.eqb_spec (str_len (join pre)) 0); lia. }
  rewrite <-Hlen. clear Hlen.
  set (sep := if str_len (join pre) =? 0 then 0 else 1).
  assert (0 ≤ sep ≤ 1) by (subst sep; case_match; lia).
  split.
  - intros ([] & Hp & Hk). inv_ok. destruct (checked_add _ sep) eqn:E1; [|done]; cbn in *.
    apply checked_add_Some in E1, H1. apply Z.ltb_ge in Hb. unfold PORTABLE_PATH_MAX_BYTES in *.
    split_and!; [done|lia|lia].
  - intros (Hp & -> & Hle). exists tt. split; [done|].
    replace (checked_add (str_len (join pre)) sep) with (Some (str_len (join pre) + sep))
      by (symmetry; apply checked_add_Some; unfold u64_max; lia).
    cbn [mbind option_bind].
    replace (checked_add (str_len (join pre) + sep) (str_len seg))
      with (Some (str_len (join pre) + sep + str_len seg))
      by (symmetry; apply checked_add_Some; unfold u64_max; lia).
    cbn [ok_or mbind result_bind].
    destruct (Z.ltb_spec PORTABLE_PATH_MAX_BYTES (str_len (join pre) + sep + str_len seg));
      [unfold PORTABLE_PATH_MAX_BYTES in *; lia|done].
Qed.
End path.

(** ** Claims *)

(** [PortablePath::new] accepts exactly the sequences of portable segments whose
    slash-separated text is at most 1023 bytes long, and returns them unchanged; the
    running length it keeps never overflows. *)
Theorem portable_path_exact `{Unicode} segs path :
  forallb is_str segs = true →
  new_path segs = Ok path ↔
  path = segs ∧ Forall (λ s, new_portable s = Ok s) segs ∧ str_len (join segs) ≤ 1023.
Proof.
  intros Hstr. unfold new_path, new_portable. rewrite bind_Ok.
  assert (∀ rest pre n, forallb is_str (pre ++ rest) = true →
    Forall (λ s, validate s true = Ok s) pre → str_len (join pre) ≤ 1023 →
    try_fold path_step rest (str_len (join pre)) = Ok n ↔
    Forall (λ s, validate s true = Ok s) rest ∧ n = str_len (join (pre ++ rest)) ∧ n ≤ 1023)
    as Hloop.
  2:{ split.
      - intros (n & Hn & [= <-]). apply (Hloop segs [] n) in Hn as (? & -> & ?); by auto.
      - intros (-> & Hall & Hlen). exists (str_len (join segs)). split; [|done].
        apply (Hloop segs []); by auto. }
  clear. induction rest as [|seg rest IH]; intros pre n Hstr Hpre Hmax; cbn [try_fold].
  { rewrite app_nil_r. split; [intros [= <-]; by auto|]. by intros (_ & -> & _). }
  assert (pre = [] ∨ 0 < str_len (join pre)) as Hpos.
  { destruct pre as [|s pre]; [by left|right].
    apply forallb_Forall, Forall_app, proj1, Forall_cons in Hstr as [Hs _].
    apply Forall_cons in Hpre as [(Hne & _)%validate_bounds _].
    pose proof (join_prefix_len [s] pre). pose proof (str_len_pos s Hs Hne). cbn in *. lia. }
  rewrite bind_Ok, (cons_middle seg pre rest), app_assoc, Forall_cons. split.
  - intros (m & (Hv & -> & Hle)%path_step_Ok & Hrest); [|done..].
    apply IH in Hrest as (? & -> & ?); [done|by rewrite <-app_assoc| |done].
    apply Forall_app. by rewrite Forall_singleton.
  - intros ([Hv Hall] & -> & Hle). exists (str_len (join (pre ++ [seg]))).
    assert (str_len (join (pre ++ [seg])) ≤ 1023).
    { destruct rest as [|s' rest]; [by rewrite app_nil_r in Hle|].
      etransitivity; [|exact Hle]. apply join_prefix_len. }
    rewrite path_step_Ok by done. split; [done|].
    apply IH; [by rewrite <-app_assoc| |done|done].
    apply Forall_app. by rewrite Forall_singleton.
Qed.

(** A materialized portable path is unambiguous: splitting its text at the slashes
    gives back exactly its segments. *)
Theorem portable_path_split `{Unicode} segs path :
  segs ≠ [] → new_path segs = Ok path → split_slash (join path) = segs.
Proof.
  unfold new_path. intros Hne Hp. inv_ok. apply split_slash_join; [done|].
  eapply (try_fold_inv path_step (λ pre _, Forall (λ s, existsb (Z.eqb 0x2f) s = false) pre));
    [|constructor|done].
  intros pre seg st st' Hpre _ Hst. apply Forall_app. split; [done|]. constructor; [|done].
  unfold path_step in Hst. apply bind_Ok in Hst as ([] & Hs%ensure_portable_Ok & _).
  by eapply validate_no_slash.
Qed.

(** Portable segments are safe file names on every platform: no separator, NUL or
    control character, not a dot entry, no trailing dot or space, not a Windows device
    name under case folding, and at most 255 bytes. *)
Theorem portable_segment_safe `{Unicode} value seg :
  new_portable value = Ok seg →
  seg = value ∧ 0 < len value ∧ str_len value ≤ 255 ∧ nfc value = value ∧
  value ≠ lit "." ∧ value ≠ lit ".." ∧
  (∀ c, c ∈ value → 0x20 ≤ c ∨ c < 0) ∧
  (∀ c, c ∈ lit "/\<>:|?*" ++ [0x22; 0x7f] → c ∉ value) ∧
  (∀ c, last value = Some c → c ≠ 0x20 ∧ c ≠ 0x2e) ∧
  before_dot (portable_case_fold value) ∉ windows_stems.
Proof.
  intros Hv. pose proof (validate_bounds _ _ _ Hv) as (Hne & Hlen & Hnfc).
  pose proof (validate_Ok _ _ _ Hv) as ->. unfold new_portable, validate in Hv. inv_ok.
  repeat match goal with H : _ || _ = false |- _ => apply orb_false_iff in H as [? ?] end.
  apply bool_decide_eq_true in Hnfc. rewrite negb_false_iff, bool_decide_eq_true in *.
  rewrite bool_decide_eq_false in *.
  assert (∀ c, c ∈ value → is_nonportable_character c = false) as Hc
    by (intros c; by apply existsb_false_elem).
  assert (∀ c, c ∈ value → c ≠ 0x2f ∧ c ≠ 0x5c) as Hsep.
  { intros c Hin. match goal with H : existsb (λ _, existsb _ _) _ = false |- _ =>
      apply (existsb_false_elem _ _ _ H) in Hin end. cbn in Hin.
    rewrite !orb_false_iff, !Z.eqb_neq in Hin. tauto. }
  split_and!; try done.
  - destruct value; [done|]. autorewrite with len. pose proof (len_nonneg value). lia.
  - intros c Hin%Hc. unfold is_nonportable_character in Hin.
    rewrite !orb_false_iff, andb_false_iff, !Z.leb_gt in Hin. lia.
  - intros c Hin Hcv. pose proof (Hc c Hcv) as Hp. destruct (Hsep c Hcv) as [Hs1 Hs2].
    cbv in Hin. repeat (apply elem_of_cons in Hin as [->|Hin]; [done|]).
    by apply not_elem_of_nil in Hin.
  - intros c. by apply trim_end_last.
  - by eapply bool_decide_eq_false.
Qed.
