(* ===== verification/Objects.v ===== *)
(** * Logical objects: [crates/rgit-objects/src/object.rs]

    The [CanonicalObject] and [SignedObject] traits as type classes, and the thirteen
    core object kinds: their fields, validation rules and canonical projections.  Each
    Rust struct is a module with a record [t]; [wf] states what its Rust field types
    guarantee (integer widths, array lengths, valid strings and constructed segments,
    identifiers and signatures). *)

From S2P Require Import Prelude Machine Order Utf8 Canonical ObjectId Types Path.

Definition MAX_INLINE_BLOB_BYTES : Z := 64 * 1024.
Definition MAX_CHUNK_BYTES : Z := BULK_MAX_BYTE_STRING_BYTES.
Definition SCHEMA_VERSION_0 : Z := 0.
Definition OPERATION_SCHEMA_VERSION_1 : Z := 1.
Definition FASTCDC_V0_MIN_SIZE : Z := 256 * 1024.
Definition FASTCDC_V0_TARGET_SIZE : Z := 1024 * 1024.
Definition FASTCDC_V0_MAX_SIZE : Z := 4 * 1024 * 1024.

Module ObjectError.
Inductive t :=
  | Canonical (e : CanonicalError)
  | NonNormalizedText
  | Invalid (message : String.string)
  | ManifestCollision.
#[global] Arguments Invalid message%_string_scope.
End ObjectError.

(** ** The [CanonicalObject] trait *)

Class CanonicalObject (T : Type) := {
  KIND : ObjectKind.t;
  SCHEMA_VERSION : Z;
  canonical_value : T → result ObjectError.t Value;
  validate_object : T → result ObjectError.t () }.
#[global] Arguments KIND T {_}.
#[global] Arguments SCHEMA_VERSION T {_}.

Definition kind_limits (kind : ObjectKind.t) : CanonicalLimits :=
  match kind with
  | ObjectKind.Chunk | ObjectKind.Blob => bulk
  | _ => metadata
  end.

Section trait.
Context `{Unicode} {T : Type} `{CanonicalObject T}.

Definition canonical_limits : CanonicalLimits := kind_limits (KIND T).

Definition encode_object_with_limits (self : T) (limits : CanonicalLimits) :
    result ObjectError.t (list Z) :=
  _ ← validate_object self;
  v ← canonical_value self;
  map_err ObjectError.Canonical (encode_with_limits v limits).

Definition encode_object (self : T) : result ObjectError.t (list Z) :=
  encode_object_with_limits self canonical_limits.

Definition object_id `{Digests} (self : T) (algorithm : HashAlgorithm.t) :
    result ObjectError.t ObjectId :=
  encoded ← encode_object self;
  Ok (from_payload (ObjectKind.code (KIND T)) (SCHEMA_VERSION T) encoded algorithm).
End trait.
#[global] Arguments canonical_limits T {_}.

(** ** The [SignedObject] trait *)

Class SignedObject (T : Type) `{CanonicalObject T} := {
  unsigned_value : T → result ObjectError.t Value;
  signatures_of : T → list Signature.t }.

Section signed.
Context `{Unicode} {T : Type} `{SignedObject T}.

Definition unsigned_encode (self : T) : result ObjectError.t (list Z) :=
  _ ← validate_object self;
  v ← unsigned_value self;
  map_err ObjectError.Canonical (encode_with_limits v (canonical_limits T)).

Definition object_signing_preimage (self : T) (signature : Signature.t) :
    result ObjectError.t (list Z) :=
  bail_if negb (bool_decide (signature ∈ signatures_of self))
    with ObjectError.Invalid "signature metadata is not carried by this object";
  unsigned ← unsigned_encode self;
  Ok (signing_preimage (Signature.algorithm signature) (Signature.purpose signature)
        (Signature.signer signature) (Signature.signing_key_id signature)
        (KIND T) (SCHEMA_VERSION T) unsigned).
End signed.

(** ** Shared helpers *)

Definition header_version (kind : ObjectKind.t) (schema : Z) (policy : PolicyRef.t) :
    list (Z * Value) :=
  [(0, Unsigned (ObjectKind.code kind)); (1, Unsigned schema); (2, PolicyRef.value policy)].
Definition header (kind : ObjectKind.t) (policy : PolicyRef.t) : list (Z * Value) :=
  header_version kind SCHEMA_VERSION_0 policy.
Definition optional_header (kind : ObjectKind.t) (policy : option PolicyRef.t) :
    list (Z * Value) :=
  optional [(0, Unsigned (ObjectKind.code kind)); (1, Unsigned SCHEMA_VERSION_0)]
    2 (PolicyRef.value <$> policy).

Definition ensure_nfc `{Unicode} (values : list str) : result ObjectError.t () :=
  if forallb is_nfc values then Ok tt else Err ObjectError.NonNormalizedText.

Definition ensure_signature_purpose (signature : Signature.t)
    (expected : SignaturePurpose.t) : result ObjectError.t () :=
  if bool_decide (Signature.purpose signature = expected) then Ok tt
  else Err (ObjectError.Invalid "signature purpose does not match object kind").

Definition ensure_signature_set (signatures : list Signature.t)
    (expected : SignaturePurpose.t) : result ObjectError.t () :=
  bail_if bool_decide (signatures = [])
    with ObjectError.Invalid "signed object requires at least one signature";
  _ ← try_for_each (λ s, ensure_signature_purpose s expected) signatures;
  bail_if any_window_geb signatures
    with ObjectError.Invalid "signatures must be canonically sorted and duplicate-free";
  Ok tt.

(** [let unique: BTreeSet<_> = items.iter().collect(); unique.len() == items.len()]. *)
Definition all_unique {A} `{Ord A} (items : list A) : bool :=
  len (set_of_list items) =? len items.

Definition opt_ok {A} (f : A → bool) (o : option A) : bool :=
  match o with Some a => f a | None => true end.

(** ** Content objects *)

Module Chunk.
Record t := mk { policy_ref : PolicyRef.t; bytes : list Z }.

Definition validate (self : t) : result ObjectError.t () :=
  bail_if MAX_CHUNK_BYTES <? len (bytes self)
    with ObjectError.Invalid "chunk exceeds schema-0 4 MiB maximum";
  Ok tt.

Definition canonical_map (self : t) : list (Z * Value) :=
  header ObjectKind.Chunk (policy_ref self) ++ [(3, Bytes (bytes self))].

#[global] Instance object : CanonicalObject t := {|
  KIND := ObjectKind.Chunk; SCHEMA_VERSION := SCHEMA_VERSION_0;
  canonical_value := λ self, Ok (Map (canonical_map self));
  validate_object := validate |}.

Definition wf (self : t) : bool :=
  PolicyRef.wf (policy_ref self) && is_bytes (bytes self).
End Chunk.

Module ChunkRef.
Record t := mk { id : ObjectId; plaintext_length : Z }.
#[global] Instance eq_dec : EqDecision t.
Proof. solve_decision. Defined.
Definition value (self : t) : Value :=
  Map [(0, oid (id self)); (1, Unsigned (plaintext_length self))].
Definition wf (self : t) : bool := oid_ok (id self) && is_u64 (plaintext_length self).
End ChunkRef.

Module BlobContent.
Inductive t := Inline (bytes : list Z) | Chunks (chunks : list ChunkRef.t).
Definition wf (self : t) : bool :=
  match self with
  | Inline bytes => is_bytes bytes
  | Chunks chunks => forallb ChunkRef.wf chunks
  end.
End BlobContent.

Module ChunkAlgorithm.
Inductive t := FastCdc.
#[global] Instance eq_dec : EqDecision t.
Proof. solve_decision. Defined.
Definition code (a : t) : Z := match a with FastCdc => 0 end.
End ChunkAlgorithm.

Module ChunkProfile.
Record t := mk {
  algorithm : ChunkAlgorithm.t; version : Z;
  min_size : Z; target_size : Z; max_size : Z }.
#[global] Instance eq_dec : EqDecision t.
Proof. solve_decision. Defined.

Definition fastcdc_v0 : t := {|
  algorithm := ChunkAlgorithm.FastCdc;
  version := 0;
  min_size := FASTCDC_V0_MIN_SIZE;
  target_size := FASTCDC_V0_TARGET_SIZE;
  max_size := FASTCDC_V0_MAX_SIZE |}.

Definition value (self : t) : Value :=
  Map [(0, Unsigned (ChunkAlgorithm.code (algorithm self)));
       (1, Unsigned (version self));
       (2, Unsigned (min_size self));
       (3, Unsigned (target_size self));
       (4, Unsigned (max_size self))].

Definition validate (self : t) : result ObjectError.t () :=
  bail_if negb (bool_decide (self = fastcdc_v0))
    with ObjectError.Invalid "invalid chunk profile size bounds";
  Ok tt.

Definition wf (self : t) : bool :=
  is_u64 (version self) && is_u64 (min_size self) && is_u64 (target_size self)
  && is_u64 (max_size self).
End ChunkProfile.

Module Blob.
Record t := mk {
  policy_ref : PolicyRef.t;
  byte_length : Z;
  content : BlobContent.t;
  chunk_profile : option ChunkProfile.t;
  content_hint : option str }.

(** [chunks.iter().try_fold(0_u64, |sum, chunk| sum.checked_add(..))]. *)
Fixpoint checked_sum (sum : Z) (chunks : list ChunkRef.t) : option Z :=
  match chunks with
  | [] => Some sum
  | chunk :: chunks =>
      sum ← checked_add sum (ChunkRef.plaintext_length chunk);
      checked_sum sum chunks
  end.

Definition chunks_mismatch (self : t) (chunks : list ChunkRef.t) : bool :=
  bool_decide (chunks = [])
  || existsb (λ chunk, (ChunkRef.plaintext_length chunk =? 0)
       || (match chunk_profile self with
           | Some p => ChunkProfile.max_size p | None => 0 end
           <? ChunkRef.plaintext_length chunk)) chunks
  || match checked_sum 0 chunks with
     | Some sum => negb (sum =? byte_length self)
     | None => true
     end.

Definition validate `{Unicode} (self : t) : result ObjectError.t () :=
  _ ← match content_hint self with Some hint => ensure_nfc [hint] | None => Ok tt end;
  let profile_ok :=
    match chunk_profile self with Some p => ChunkProfile.validate p | None => Ok tt end in
  match content self with
  | BlobContent.Inline bytes =>
      bail_if bool_decide (is_Some (chunk_profile self))
        with ObjectError.Invalid "inline blob must not declare a chunk profile";
      bail_if MAX_INLINE_BLOB_BYTES <? len bytes
        with ObjectError.Invalid "inline blob exceeds 64 KiB";
      bail_if negb (len bytes =? byte_length self)
        with ObjectError.Invalid "inline length mismatch";
      profile_ok
  | BlobContent.Chunks chunks =>
      bail_if negb (bool_decide (is_Some (chunk_profile self)))
        with ObjectError.Invalid "chunked blob requires a chunk profile";
      bail_if byte_length self <=? MAX_INLINE_BLOB_BYTES
        with ObjectError.Invalid "blob at or below 64 KiB must use inline representation";
      bail_if chunks_mismatch self chunks
        with ObjectError.Invalid "chunk lengths do not equal blob length";
      profile_ok
  end.

Definition canonical_map (self : t) : list (Z * Value) :=
  let m := header ObjectKind.Blob (policy_ref self)
           ++ [(3, Unsigned (byte_length self))] in
  let m := m ++ match content self with
                | BlobContent.Inline bytes => [(4, Bytes bytes)]
                | BlobContent.Chunks chunks => [(5, Array (map ChunkRef.value chunks))]
                end in
  let m := optional m 6 (text <$> content_hint self) in
  optional m 7 (ChunkProfile.value <$> chunk_profile self).

#[global] Instance object `{Unicode} : CanonicalObject t := {|
  KIND := ObjectKind.Blob; SCHEMA_VERSION := SCHEMA_VERSION_0;
  canonical_value := λ self, Ok (Map (canonical_map self));
  validate_object := validate |}.

Definition wf (self : t) : bool :=
  PolicyRef.wf (policy_ref self) && is_u64 (byte_length self)
  && BlobContent.wf (content self) && opt_ok ChunkProfile.wf (chunk_profile self)
  && opt_ok is_str (content_hint self).
End Blob.

Module FileMode.
Inductive t := Regular | Executable.
Definition code (m : t) : Z := match m with Regular => 0 | Executable => 1 end.
End FileMode.

Module ManifestTarget.
Inductive t :=
  | File (blob : ObjectId) (mode : FileMode.t)
  | Directory (manifest : ObjectId)
  | Symlink (target_blob : ObjectId)
  | Subproject (subproject : ObjectId)
  | SecretRef (secret_ref : ObjectId).
Definition id (self : t) : ObjectId :=
  match self with
  | File i _ | Directory i | Symlink i | Subproject i | SecretRef i => i
  end.
End ManifestTarget.

Module ManifestEntry.
Record t := mk {
  name : PathSegment;
  target : ManifestTarget.t;
  policy_ref : PolicyRef.t }.

Definition value (self : t) : Value :=
  let '(kind, target, mode) :=
    match target self with
    | ManifestTarget.File blob mode => (0, blob, Some (FileMode.code mode))
    | ManifestTarget.Directory manifest => (1, manifest, None)
    | ManifestTarget.Symlink target_blob => (2, target_blob, None)
    | ManifestTarget.Subproject subproject => (3, subproject, None)
    | ManifestTarget.SecretRef secret_ref => (4, secret_ref, None)
    end in
  Map (optional
    [(0, Text (name self)); (1, Unsigned kind); (2, oid target);
     (4, PolicyRef.value (policy_ref self))] 3 (Unsigned <$> mode)).

Definition wf `{Unicode} (self : t) : bool :=
  segment_ok (name self) && oid_ok (ManifestTarget.id (target self))
  && PolicyRef.wf (policy_ref self).
End ManifestEntry.

Module Manifest.
Record t := mk { policy_ref : PolicyRef.t; entries : list ManifestEntry.t }.

(** One round of the validation loop; the state is [(names, folded)].  The set of
    names is keyed by the UTF-8 bytes, as [&str] compares. *)
Definition step `{Unicode} (s : BTreeSet (list Z) * BTreeSet (list Z))
    (entry : ManifestEntry.t) :
    result ObjectError.t (BTreeSet (list Z) * BTreeSet (list Z)) :=
  let '(names, folded) := s in
  _ ← map_err (λ _, ObjectError.Invalid "manifest entry is not portable")
        (ensure_portable (ManifestEntry.name entry));
  let name := as_bytes (ManifestEntry.name entry) in
  let fold := as_bytes (portable_case_fold (ManifestEntry.name entry)) in
  bail_if set_contains name names || set_contains fold folded
    with ObjectError.ManifestCollision;
  Ok (set_insert name names, set_insert fold folded).

Definition validate `{Unicode} (self : t) : result ObjectError.t () :=
  _ ← try_fold step (entries self) ([], []);
  Ok tt.

(** The sort key; [canonical_bytes] panics on no constructed segment
    ([Path.canonical_bytes_total]). *)
Definition sort_key `{Unicode} (entry : ManifestEntry.t) : list Z :=
  default [] (canonical_bytes (ManifestEntry.name entry)).

Definition canonical_map `{Unicode} (self : t) : list (Z * Value) :=
  let entries := sort_by_key sort_key (entries self) in
  header ObjectKind.Manifest (policy_ref self)
  ++ [(3, Array (map ManifestEntry.value entries))].

#[global] Instance object `{Unicode} : CanonicalObject t := {|
  KIND := ObjectKind.Manifest; SCHEMA_VERSION := SCHEMA_VERSION_0;
  canonical_value := λ self, Ok (Map (canonical_map self));
  validate_object := validate |}.

Definition wf `{Unicode} (self : t) : bool :=
  PolicyRef.wf (policy_ref self) && forallb ManifestEntry.wf (entries self).
End Manifest.

Module Subproject.
Record t := mk {
  policy_ref : PolicyRef.t;
  system_kind : str;
  repository_identity : list Z;
  revision : list Z;
  native_projection : option ObjectId }.

Definition validate `{Unicode} (self : t) : result ObjectError.t () :=
  ensure_nfc [system_kind self].

Definition canonical_map (self : t) : list (Z * Value) :=
  optional
    (header ObjectKind.Subproject (policy_ref self)
     ++ [(3, text (system_kind self));
         (4, Bytes (repository_identity self));
         (5, Bytes (revision self))])
    6 (oid <$> native_projection self).

#[global] Instance object `{Unicode} : CanonicalObject t := {|
  KIND := ObjectKind.Subproject; SCHEMA_VERSION := SCHEMA_VERSION_0;
  canonical_value := λ self, Ok (Map (canonical_map self));
  validate_object := validate |}.

Definition wf (self : t) : bool :=
  PolicyRef.wf (policy_ref self) && is_str (system_kind self)
  && is_bytes (repository_identity self) && is_bytes (revision self)
  && opt_ok oid_ok (native_projection self).
End Subproject.

Module SecretRef.
Record t := mk {
  policy_ref : PolicyRef.t;
  provider_kind : str;
  locator : str;
  exact_version : option str;
  value_schema_id : list Z;
  materialization_target : str;
  required_capability : str;
  encrypted_development_value : option ObjectId }.

Definition validate `{Unicode} (self : t) : result ObjectError.t () :=
  _ ← ensure_nfc [provider_kind self; locator self; materialization_target self;
                  required_capability self];
  match exact_version self with Some v => ensure_nfc [v] | None => Ok tt end.

Definition canonical_map (self : t) : list (Z * Value) :=
  let m := header ObjectKind.SecretRef (policy_ref self)
     ++ [(3, text (provider_kind self));
         (4, text (locator self));
         (6, Bytes (value_schema_id self));
         (7, text (materialization_target self));
         (8, text (required_capability self))] in
  let m := optional m 5 (text <$> exact_version self) in
  optional m 9 (oid <$> encrypted_development_value self).

#[global] Instance object `{Unicode} : CanonicalObject t := {|
  KIND := ObjectKind.SecretRef; SCHEMA_VERSION := SCHEMA_VERSION_0;
  canonical_value := λ self, Ok (Map (canonical_map self));
  validate_object := validate |}.

Definition wf (self : t) : bool :=
  PolicyRef.wf (policy_ref self)
  && is_str (provider_kind self) && is_str (locator self)
  && opt_ok is_str (exact_version self) && is_bytes (value_schema_id self)
  && is_str (materialization_target self) && is_str (required_capability self)
  && opt_ok oid_ok (encrypted_development_value self).
End SecretRef.

(** ** History objects *)

Module Snapshot.
Record t := mk {
  policy_ref : PolicyRef.t;
  root_manifest : ObjectId;
  parents : list ObjectId;
  change_id : ChangeId;
  author : ActorId;
  device : DeviceId;
  logical_time : Z;
  wall_time : WallTime.t;
  message_blob : option ObjectId }.

Definition validate (self : t) : result ObjectError.t () :=
  if all_unique (parents self) then Ok tt
  else Err (ObjectError.Invalid "snapshot parents must be duplicate-free").

Definition canonical_map (self : t) : list (Z * Value) :=
  optional
    (header ObjectKind.Snapshot (policy_ref self)
     ++ [(3, oid (root_manifest self));
         (4, oid_array (parents self));
         (5, id_value (change_id self));
         (6, id_value (author self));
         (7, id_value (device self));
         (8, Unsigned (logical_time self));
         (9, WallTime.value (wall_time self))])
    10 (oid <$> message_blob self).

#[global] Instance object : CanonicalObject t := {|
  KIND := ObjectKind.Snapshot; SCHEMA_VERSION := SCHEMA_VERSION_0;
  canonical_value := λ self, Ok (Map (canonical_map self));
  validate_object := validate |}.

Definition wf (self : t) : bool :=
  PolicyRef.wf (policy_ref self) && oid_ok (root_manifest self)
  && forallb oid_ok (parents self) && id_ok (change_id self) && id_ok (author self)
  && id_ok (device self) && is_u64 (logical_time self) && WallTime.wf (wall_time self)
  && opt_ok oid_ok (message_blob self).
End Snapshot.

Module ChangeState.
Inductive t := Open | Abandoned | Landed | Superseded.
Definition code (s : t) : Z :=
  match s with Open => 0 | Abandoned => 1 | Landed => 2 | Superseded => 3 end.
End ChangeState.

Module ChangeRevision.
Record t := mk {
  policy_ref : PolicyRef.t;
  change_id : ChangeId;
  previous_revision : option ObjectId;
  title_blob : ObjectId;
  description_blob : ObjectId;
  base_snapshot : ObjectId;
  current_snapshot : ObjectId;
  target_line : LineId;
  observed_generation : Z;
  owner : ActorId;
  author : ActorId;
  state : ChangeState.t;
  review_policy : PolicyRef.t;
  landing_policy : PolicyRef.t }.

Definition canonical_map (self : t) : list (Z * Value) :=
  optional
    (header ObjectKind.ChangeRevision (policy_ref self)
     ++ [(3, id_value (change_id self));
         (5, oid (title_blob self));
         (6, oid (description_blob self));
         (7, oid (base_snapshot self));
         (8, oid (current_snapshot self));
         (9, id_value (target_line self));
         (10, Unsigned (observed_generation self));
         (11, id_value (owner self));
         (12, id_value (author self));
         (13, Unsigned (ChangeState.code (state self)));
         (14, PolicyRef.value (review_policy self));
         (15, PolicyRef.value (landing_policy self))])
    4 (oid <$> previous_revision self).

(** The trait's default [validate]. *)
Definition validate (self : t) : result ObjectError.t () := Ok tt.

#[global] Instance object : CanonicalObject t := {|
  KIND := ObjectKind.ChangeRevision; SCHEMA_VERSION := SCHEMA_VERSION_0;
  canonical_value := λ self, Ok (Map (canonical_map self));
  validate_object := validate |}.

Definition wf (self : t) : bool :=
  PolicyRef.wf (policy_ref self) && id_ok (change_id self)
  && opt_ok oid_ok (previous_revision self) && oid_ok (title_blob self)
  && oid_ok (description_blob self) && oid_ok (base_snapshot self)
  && oid_ok (current_snapshot self) && id_ok (target_line self)
  && is_u64 (observed_generation self) && id_ok (owner self) && id_ok (author self)
  && PolicyRef.wf (review_policy self) && PolicyRef.wf (landing_policy self).
End ChangeRevision.

Module LineState.
Record t := mk {
  policy_ref : PolicyRef.t;
  line_id : LineId;
  display_name : str;
  head_snapshot : ObjectId;
  generation : Z;
  previous_state : option ObjectId;
  integration_policy : PolicyRef.t;
  approval_policy : PolicyRef.t;
  release_policy : PolicyRef.t;
  visibility_policy : PolicyRef.t;
  transaction_operation : ObjectId;
  signature : Signature.t }.

Definition validate `{Unicode} (self : t) : result ObjectError.t () :=
  _ ← ensure_nfc [display_name self];
  bail_if Bool.eqb (generation self =? 0) (bool_decide (is_Some (previous_state self)))
    with ObjectError.Invalid "only generation zero may omit previous line state";
  ensure_signature_purpose (signature self) SignaturePurpose.LineState.

Definition unsigned_map (self : t) : list (Z * Value) :=
  optional
    (header ObjectKind.LineState (policy_ref self)
     ++ [(3, id_value (line_id self));
         (4, text (display_name self));
         (5, oid (head_snapshot self));
         (6, Unsigned (generation self));
         (8, PolicyRef.value (integration_policy self));
         (9, PolicyRef.value (approval_policy self));
         (10, PolicyRef.value (release_policy self));
         (11, PolicyRef.value (visibility_policy self));
         (12, oid (transaction_operation self))])
    7 (oid <$> previous_state self).

Definition canonical_map (self : t) : list (Z * Value) :=
  unsigned_map self ++ [(13, Signature.value (signature self))].

#[global] Instance object `{Unicode} : CanonicalObject t := {|
  KIND := ObjectKind.LineState; SCHEMA_VERSION := SCHEMA_VERSION_0;
  canonical_value := λ self, Ok (Map (canonical_map self));
  validate_object := validate |}.
#[global] Instance signed `{Unicode} : SignedObject t := {|
  unsigned_value := λ self, Ok (Map (unsigned_map self));
  signatures_of := λ self, [signature self] |}.

Definition wf (self : t) : bool :=
  PolicyRef.wf (policy_ref self) && id_ok (line_id self) && is_str (display_name self)
  && oid_ok (head_snapshot self) && is_u64 (generation self)
  && opt_ok oid_ok (previous_state self) && PolicyRef.wf (integration_policy self)
  && PolicyRef.wf (approval_policy self) && PolicyRef.wf (release_policy self)
  && PolicyRef.wf (visibility_policy self) && oid_ok (transaction_operation self)
  && Signature.wf (signature self).
End LineState.

Module ConflictRegion.
Record t := mk { start : Z; stop : Z }.
Definition value (r : t) : Value := Map [(0, Unsigned (start r)); (1, Unsigned (stop r))].
Definition wf (r : t) : bool := is_u64 (start r) && is_u64 (stop r).
End ConflictRegion.

Module ConflictKind.
Inductive t := Content | AddAdd | ModifyDelete | TypeChange.
Definition code (k : t) : Z :=
  match k with Content => 0 | AddAdd => 1 | ModifyDelete => 2 | TypeChange => 3 end.
End ConflictKind.

Module Conflict.
Record t := mk {
  policy_ref : PolicyRef.t;
  base : TypedObjectRef.t;
  left : TypedObjectRef.t;
  right : TypedObjectRef.t;
  path : PortablePath;
  conflict_kind : ConflictKind.t;
  merge_driver : str;
  merge_driver_version : str;
  regions : list ConflictRegion.t }.

(** One round of the loop over regions; the state is [previous_end]. *)
Definition region_step (previous_end : option Z) (region : ConflictRegion.t) :
    result ObjectError.t (option Z) :=
  bail_if (ConflictRegion.stop region <=? ConflictRegion.start region)
          || match previous_end with
             | Some stop => ConflictRegion.start region <? stop | None => false end
    with ObjectError.Invalid
      "conflict regions must be nonempty, ordered, and nonoverlapping";
  Ok (Some (ConflictRegion.stop region)).

Definition validate `{Unicode} (self : t) : result ObjectError.t () :=
  _ ← ensure_nfc [merge_driver self; merge_driver_version self];
  _ ← try_fold region_step (regions self) None;
  Ok tt.

Definition canonical_map (self : t) : list (Z * Value) :=
  header ObjectKind.Conflict (policy_ref self)
  ++ [(3, TypedObjectRef.value (base self));
      (4, TypedObjectRef.value (left self));
      (5, TypedObjectRef.value (right self));
      (6, path_value (path self));
      (7, Unsigned (ConflictKind.code (conflict_kind self)));
      (8, text (merge_driver self));
      (9, text (merge_driver_version self));
      (10, Array (map ConflictRegion.value (regions self)))].

#[global] Instance object `{Unicode} : CanonicalObject t := {|
  KIND := ObjectKind.Conflict; SCHEMA_VERSION := SCHEMA_VERSION_0;
  canonical_value := λ self, Ok (Map (canonical_map self));
  validate_object := validate |}.

Definition wf `{Unicode} (self : t) : bool :=
  PolicyRef.wf (policy_ref self) && TypedObjectRef.wf (base self)
  && TypedObjectRef.wf (left self) && TypedObjectRef.wf (right self)
  && forallb is_str (path self) && bool_decide (new_path (path self) = Ok (path self))
  && is_str (merge_driver self) && is_str (merge_driver_version self)
  && forallb ConflictRegion.wf (regions self).
End Conflict.

(** ** Operations *)

Module LineAdvanceDeclaration.
Record t := mk {
  policy_ref : PolicyRef.t;
  line_id : LineId;
  display_name : str;
  head_snapshot : ObjectId;
  generation : Z;
  previous_state : option ObjectId;
  integration_policy : PolicyRef.t;
  approval_policy : PolicyRef.t;
  release_policy : PolicyRef.t;
  visibility_policy : PolicyRef.t }.

Definition value (self : t) : Value :=
  Map (optional
    [(0, PolicyRef.value (policy_ref self));
     (1, id_value (line_id self));
     (2, text (display_name self));
     (3, oid (head_snapshot self));
     (4, Unsigned (generation self));
     (6, PolicyRef.value (integration_policy self));
     (7, PolicyRef.value (approval_policy self));
     (8, PolicyRef.value (release_policy self));
     (9, PolicyRef.value (visibility_policy self))]
    5 (oid <$> previous_state self)).

Definition validate `{Unicode} (self : t) : result ObjectError.t () :=
  _ ← ensure_nfc [display_name self];
  bail_if Bool.eqb (generation self =? 0) (bool_decide (is_Some (previous_state self)))
    with ObjectError.Invalid "only generation zero line advance may omit previous state";
  Ok tt.

Definition matches (self : t) (state : LineState.t) : bool :=
  bool_decide (policy_ref self = LineState.policy_ref state)
  && bool_decide (line_id self = LineState.line_id state)
  && bool_decide (display_name self = LineState.display_name state)
  && bool_decide (head_snapshot self = LineState.head_snapshot state)
  && (generation self =? LineState.generation state)
  && bool_decide (previous_state self = LineState.previous_state state)
  && bool_decide (integration_policy self = LineState.integration_policy state)
  && bool_decide (approval_policy self = LineState.approval_policy state)
  && bool_decide (release_policy self = LineState.release_policy state)
  && bool_decide (visibility_policy self = LineState.visibility_policy state).

Definition wf (self : t) : bool :=
  PolicyRef.wf (policy_ref self) && id_ok (line_id self) && is_str (display_name self)
  && oid_ok (head_snapshot self) && is_u64 (generation self)
  && opt_ok oid_ok (previous_state self) && PolicyRef.wf (integration_policy self)
  && PolicyRef.wf (approval_policy self) && PolicyRef.wf (release_policy self)
  && PolicyRef.wf (visibility_policy self).
End LineAdvanceDeclaration.

Module OperationAction.
Inductive t :=
  | Transition (before after : option TypedObjectRef.t)
  | LineAdvance (declaration : LineAdvanceDeclaration.t).

Definition value (self : t) : Value :=
  match self with
  | Transition before after =>
      let m := [(0, Unsigned 0)] in
      let m := optional m 1 (TypedObjectRef.value <$> before) in
      Map (optional m 2 (TypedObjectRef.value <$> after))
  | LineAdvance declaration =>
      Map [(0, Unsigned 1); (3, LineAdvanceDeclaration.value declaration)]
  end.

Definition wf (self : t) : bool :=
  match self with
  | Transition before after =>
      opt_ok TypedObjectRef.wf before && opt_ok TypedObjectRef.wf after
  | LineAdvance declaration => LineAdvanceDeclaration.wf declaration
  end.
End OperationAction.

Module Operation.
Record t := mk {
  policy_ref : PolicyRef.t;
  parents : list ObjectId;
  actor : ActorId;
  device : DeviceId;
  logical_time : Z;
  wall_time : WallTime.t;
  actions : list OperationAction.t;
  inverse_payloads : list ObjectId;
  public_envelope : option ObjectId;
  private_payload : option ObjectId;
  signature : Signature.t;
  client_implementation : str }.

Definition validate_action `{Unicode} (action : OperationAction.t) :
    result ObjectError.t () :=
  match action with
  | OperationAction.Transition before after =>
      bail_if negb (bool_decide (is_Some before)) && negb (bool_decide (is_Some after))
        with ObjectError.Invalid "operation transition requires a before or after reference";
      bail_if match after with
              | Some reference =>
                  bool_decide (TypedObjectRef.kind reference = ObjectKind.LineState)
              | None => false end
        with ObjectError.Invalid "generic operation transition cannot install a line state";
      Ok tt
  | OperationAction.LineAdvance declaration => LineAdvanceDeclaration.validate declaration
  end.

Definition validate `{Unicode} (self : t) : result ObjectError.t () :=
  _ ← ensure_nfc [client_implementation self];
  bail_if negb (all_unique (parents self))
    with ObjectError.Invalid "operation parents must be duplicate-free";
  _ ← try_for_each validate_action (actions self);
  ensure_signature_purpose (signature self) SignaturePurpose.Operation.

Definition unsigned_map (self : t) : list (Z * Value) :=
  let m := header ObjectKind.Operation (policy_ref self)
     ++ [(3, oid_array (parents self));
         (4, id_value (actor self));
         (5, id_value (device self));
         (6, Unsigned (logical_time self));
         (7, WallTime.value (wall_time self));
         (8, Array (map OperationAction.value (actions self)));
         (9, oid_array (inverse_payloads self));
         (13, text (client_implementation self))] in
  let m := optional m 10 (oid <$> public_envelope self) in
  optional m 11 (oid <$> private_payload self).

Definition canonical_map (self : t) : list (Z * Value) :=
  unsigned_map self ++ [(12, Signature.value (signature self))].

#[global] Instance object `{Unicode} : CanonicalObject t := {|
  KIND := ObjectKind.Operation; SCHEMA_VERSION := SCHEMA_VERSION_0;
  canonical_value := λ self, Ok (Map (canonical_map self));
  validate_object := validate |}.
#[global] Instance signed `{Unicode} : SignedObject t := {|
  unsigned_value := λ self, Ok (Map (unsigned_map self));
  signatures_of := λ self, [signature self] |}.

Definition wf (self : t) : bool :=
  PolicyRef.wf (policy_ref self) && forallb oid_ok (parents self) && id_ok (actor self)
  && id_ok (device self) && is_u64 (logical_time self) && WallTime.wf (wall_time self)
  && forallb OperationAction.wf (actions self) && forallb oid_ok (inverse_payloads self)
  && opt_ok oid_ok (public_envelope self) && opt_ok oid_ok (private_payload self)
  && Signature.wf (signature self) && is_str (client_implementation self).
End Operation.

Module OperationActionV1.
Inductive t :=
  | BoundTransition (key : ReferenceKey.t) (before : option TypedObjectRef.t)
      (after : TypedObjectRef.t)
  | LineAdvance (declaration : LineAdvanceDeclaration.t).

Definition value (self : t) : Value :=
  match self with
  | BoundTransition key before after =>
      Map (optional
        [(0, Unsigned 2); (1, ReferenceKey.value key); (3, TypedObjectRef.value after)]
        2 (TypedObjectRef.value <$> before))
  | LineAdvance declaration =>
      Map [(0, Unsigned 1); (3, LineAdvanceDeclaration.value declaration)]
  end.

Definition wf (self : t) : bool :=
  match self with
  | BoundTransition key before after =>
      ReferenceKey.wf key && opt_ok TypedObjectRef.wf before && TypedObjectRef.wf after
  | LineAdvance declaration => LineAdvanceDeclaration.wf declaration
  end.
End OperationActionV1.

Module OperationV1.
Record t := mk {
  policy_ref : PolicyRef.t;
  parents : list ObjectId;
  actor : ActorId;
  device : DeviceId;
  logical_time : Z;
  wall_time : WallTime.t;
  actions : list OperationActionV1.t;
  inverse_payloads : list ObjectId;
  public_envelope : option ObjectId;
  private_payload : option ObjectId;
  signature : Signature.t;
  client_implementation : str }.

Definition action_key `{Unicode} (action : OperationActionV1.t) :
    result ObjectError.t ReferenceKey.t :=
  match action with
  | OperationActionV1.BoundTransition key before after =>
      bail_if match key with
              | ReferenceKey.Line _ | ReferenceKey.OperationHead => true | _ => false end
        with ObjectError.Invalid "bound transition key requires a dedicated operation action";
      bail_if match before with
              | Some reference => negb (bool_decide
                  (TypedObjectRef.kind reference = ReferenceKey.expected_kind key))
              | None => false end
              || negb (bool_decide (TypedObjectRef.kind after = ReferenceKey.expected_kind key))
        with ObjectError.Invalid
          "bound transition object kind does not match its reference key";
      Ok key
  | OperationActionV1.LineAdvance declaration =>
      _ ← LineAdvanceDeclaration.validate declaration;
      Ok (ReferenceKey.Line (LineAdvanceDeclaration.line_id declaration))
  end.

(** One round of the action loop; the state is the set of keys seen. *)
Definition action_step `{Unicode} (keys : BTreeSet ReferenceKey.t)
    (action : OperationActionV1.t) : result ObjectError.t (BTreeSet ReferenceKey.t) :=
  key ← action_key action;
  bail_if set_contains key keys
    with ObjectError.Invalid "operation actions must have unique reference keys";
  Ok (set_insert key keys).

Definition validate `{Unicode} (self : t) : result ObjectError.t () :=
  _ ← ensure_nfc [client_implementation self];
  bail_if negb (all_unique (parents self))
    with ObjectError.Invalid "operation parents must be duplicate-free";
  _ ← try_fold action_step (actions self) [];
  ensure_signature_purpose (signature self) SignaturePurpose.Operation.

Definition unsigned_map (self : t) : list (Z * Value) :=
  let fields := header_version ObjectKind.Operation OPERATION_SCHEMA_VERSION_1 (policy_ref self)
     ++ [(3, oid_array (parents self));
         (4, id_value (actor self));
         (5, id_value (device self));
         (6, Unsigned (logical_time self));
         (7, WallTime.value (wall_time self));
         (8, Array (map OperationActionV1.value (actions self)));
         (9, oid_array (inverse_payloads self));
         (13, text (client_implementation self))] in
  let fields := optional fields 10 (oid <$> public_envelope self) in
  optional fields 11 (oid <$> private_payload self).

Definition canonical_map (self : t) : list (Z * Value) :=
  unsigned_map self ++ [(12, Signature.value (signature self))].

#[global] Instance object `{Unicode} : CanonicalObject t := {|
  KIND := ObjectKind.Operation; SCHEMA_VERSION := OPERATION_SCHEMA_VERSION_1;
  canonical_value := λ self, Ok (Map (canonical_map self));
  validate_object := validate |}.
#[global] Instance signed `{Unicode} : SignedObject t := {|
  unsigned_value := λ self, Ok (Map (unsigned_map self));
  signatures_of := λ self, [signature self] |}.

Definition wf (self : t) : bool :=
  PolicyRef.wf (policy_ref self) && forallb oid_ok (parents self) && id_ok (actor self)
  && id_ok (device self) && is_u64 (logical_time self) && WallTime.wf (wall_time self)
  && forallb OperationActionV1.wf (actions self) && forallb oid_ok (inverse_payloads self)
  && opt_ok oid_ok (public_envelope self) && opt_ok oid_ok (private_payload self)
  && Signature.wf (signature self) && is_str (client_implementation self).
End OperationV1.

(** [LineState::validate_transaction] and its schema-1 counterpart. *)
Module LineTransaction.
Section transaction.
Context `{Unicode, Digests}.

(** [actions.iter().filter_map(..).count()]. *)
Definition matching (self : LineState.t) (actions : list OperationAction.t) : nat :=
  length (List.filter (λ a, match a with
    | OperationAction.LineAdvance d => LineAdvanceDeclaration.matches d self
    | _ => false end) actions).
Definition matching_v1 (self : LineState.t) (actions : list OperationActionV1.t) : nat :=
  length (List.filter (λ a, match a with
    | OperationActionV1.LineAdvance d => LineAdvanceDeclaration.matches d self
    | _ => false end) actions).

Definition validate_transaction (self : LineState.t) (operation : Operation.t) :
    result ObjectError.t () :=
  id ← object_id operation (algorithm (LineState.transaction_operation self));
  bail_if negb (bool_decide (id = LineState.transaction_operation self))
    with ObjectError.Invalid "line state transaction operation ID does not match operation";
  bail_if negb (Nat.eqb (matching self (Operation.actions operation)) 1)
    with ObjectError.Invalid
      "operation must contain exactly one matching line advance declaration";
  Ok tt.

Definition validate_transaction_v1 (self : LineState.t) (operation : OperationV1.t) :
    result ObjectError.t () :=
  id ← object_id operation (algorithm (LineState.transaction_operation self));
  bail_if negb (bool_decide (id = LineState.transaction_operation self))
    with ObjectError.Invalid "line state transaction operation ID does not match operation";
  bail_if negb (Nat.eqb (matching_v1 self (OperationV1.actions operation)) 1)
    with ObjectError.Invalid
      "operation must contain exactly one matching line advance declaration";
  Ok tt.
End transaction.
End LineTransaction.

(** ** Attestations and policies *)

Module MarkerKind.
Inductive t := Release | Deployment | Review | Policy | Bookmark.
Definition code (k : t) : Z :=
  match k with Release => 0 | Deployment => 1 | Review => 2 | Policy => 3 | Bookmark => 4 end.
End MarkerKind.

Module Marker.
Record t := mk {
  policy_ref : PolicyRef.t;
  marker_kind : MarkerKind.t;
  target : TypedObjectRef.t;
  issuer : ActorId;
  issue_time : WallTime.t;
  typed_payload : list Z;
  signature : Signature.t }.

Definition validate (self : t) : result ObjectError.t () :=
  ensure_signature_purpose (signature self) SignaturePurpose.Marker.

Definition unsigned_map (self : t) : list (Z * Value) :=
  header ObjectKind.Marker (policy_ref self)
  ++ [(3, Unsigned (MarkerKind.code (marker_kind self)));
      (4, TypedObjectRef.value (target self));
      (5, id_value (issuer self));
      (6, WallTime.value (issue_time self));
      (7, Bytes (typed_payload self))].

Definition canonical_map (self : t) : list (Z * Value) :=
  unsigned_map self ++ [(8, Signature.value (signature self))].

#[global] Instance object : CanonicalObject t := {|
  KIND := ObjectKind.Marker; SCHEMA_VERSION := SCHEMA_VERSION_0;
  canonical_value := λ self, Ok (Map (canonical_map self));
  validate_object := validate |}.
#[global] Instance signed : SignedObject t := {|
  unsigned_value := λ self, Ok (Map (unsigned_map self));
  signatures_of := λ self, [signature self] |}.

Definition wf (self : t) : bool :=
  PolicyRef.wf (policy_ref self) && TypedObjectRef.wf (target self)
  && id_ok (issuer self) && WallTime.wf (issue_time self)
  && is_bytes (typed_payload self) && Signature.wf (signature self).
End Marker.

Module Release.
Record t := mk {
  policy_ref : PolicyRef.t;
  source_line : LineId;
  source_generation : Z;
  source_snapshot : ObjectId;
  audience_policy : PolicyRef.t;
  projection_rules : ObjectId;
  projected_root : ObjectId;
  projection_proof : ObjectId;
  version_identifier : str;
  release_notes_blob : option ObjectId;
  build_provenance : list ObjectId;
  artifacts : list ObjectId;
  policy_decision_evidence : list ObjectId;
  issue_time : WallTime.t;
  signatures : list Signature.t }.

Definition validate `{Unicode} (self : t) : result ObjectError.t () :=
  _ ← ensure_nfc [version_identifier self];
  ensure_signature_set (signatures self) SignaturePurpose.Release.

Definition unsigned_map (self : t) : list (Z * Value) :=
  optional
    (header ObjectKind.Release (policy_ref self)
     ++ [(3, id_value (source_line self));
         (4, Unsigned (source_generation self));
         (5, oid (source_snapshot self));
         (6, PolicyRef.value (audience_policy self));
         (7, oid (projection_rules self));
         (8, oid (projected_root self));
         (9, oid (projection_proof self));
         (10, text (version_identifier self));
         (12, oid_array (build_provenance self));
         (13, oid_array (artifacts self));
         (14, oid_array (policy_decision_evidence self));
         (15, WallTime.value (issue_time self))])
    11 (oid <$> release_notes_blob self).

Definition canonical_map (self : t) : list (Z * Value) :=
  unsigned_map self ++ [(16, Array (map Signature.value (signatures self)))].

#[global] Instance object `{Unicode} : CanonicalObject t := {|
  KIND := ObjectKind.Release; SCHEMA_VERSION := SCHEMA_VERSION_0;
  canonical_value := λ self, Ok (Map (canonical_map self));
  validate_object := validate |}.
#[global] Instance signed `{Unicode} : SignedObject t := {|
  unsigned_value := λ self, Ok (Map (unsigned_map self));
  signatures_of := signatures |}.

Definition wf (self : t) : bool :=
  PolicyRef.wf (policy_ref self) && id_ok (source_line self)
  && is_u64 (source_generation self) && oid_ok (source_snapshot self)
  && PolicyRef.wf (audience_policy self) && oid_ok (projection_rules self)
  && oid_ok (projected_root self) && oid_ok (projection_proof self)
  && is_str (version_identifier self) && opt_ok oid_ok (release_notes_blob self)
  && forallb oid_ok (build_provenance self) && forallb oid_ok (artifacts self)
  && forallb oid_ok (policy_decision_evidence self) && WallTime.wf (issue_time self)
  && forallb Signature.wf (signatures self).
End Release.

Module PrincipalKind.
Inductive t := Actor | Group | Role | Service.
Definition code (k : t) : Z :=
  match k with Actor => 0 | Group => 1 | Role => 2 | Service => 3 end.
End PrincipalKind.

Module Principal.
Record t := mk { kind : PrincipalKind.t; identifier : list Z }.
Definition value (p : t) : Value :=
  Map [(0, Unsigned (PrincipalKind.code (kind p))); (1, Bytes (identifier p))].
Definition wf (p : t) : bool := is_bytes (identifier p).
End Principal.

Module Capability.
Inductive t :=
  | Discover | Read | Materialize | Derive | Review | Integrate | Release | Administer
  | Audit.
#[global] Instance eq_dec : EqDecision t.
Proof. solve_decision. Defined.
Definition code (c : t) : Z :=
  match c with
  | Discover => 0 | Read => 1 | Materialize => 2 | Derive => 3 | Review => 4
  | Integrate => 5 | Release => 6 | Administer => 7 | Audit => 8
  end.
#[global] Instance code_inj : Inj (=) (=) code.
Proof. by intros [] []. Qed.
#[global] Instance ord : Ord t := cmp_on code.
#[global] Instance ord_laws : OrdLaws t := cmp_on_laws code.
End Capability.

Module Grant.
Record t := mk { principal_index : Z; capabilities : list Capability.t }.
Definition value (g : t) : Value :=
  let capabilities := sort_by_key id (map Capability.code (capabilities g)) in
  Map [(0, Unsigned (principal_index g)); (1, Array (map Unsigned capabilities))].
Definition wf (g : t) : bool := is_u64 (principal_index g).
End Grant.

Module RedactionMode.
Inductive t := Omit | OpaquePlaceholder | TypedSummary.
Definition code (m : t) : Z :=
  match m with Omit => 0 | OpaquePlaceholder => 1 | TypedSummary => 2 end.
End RedactionMode.

Module DerivationRule.
Inductive t := NoDerivation | SamePolicy | ExplicitEvidence.
Definition code (r : t) : Z :=
  match r with NoDerivation => 0 | SamePolicy => 1 | ExplicitEvidence => 2 end.
End DerivationRule.

Module Policy.
Record t := mk {
  policy_ref : option PolicyRef.t;
  policy_id : PolicyId;
  version_sequence : Z;
  previous_version : option ObjectId;
  principals : list Principal.t;
  grants : list Grant.t;
  redaction_mode : RedactionMode.t;
  derivation_rule : DerivationRule.t;
  declassification_requirements : list ObjectId;
  key_epoch : Z;
  key_envelope_set : ObjectId;
  administrators : list ActorId;
  activation_constraints : list Z;
  signatures : list Signature.t }.

Definition validate (self : t) : result ObjectError.t () :=
  _ ← ensure_signature_set (signatures self) SignaturePurpose.Policy;
  bail_if Bool.eqb (version_sequence self =? 0)
            (bool_decide (is_Some (previous_version self)))
    with ObjectError.Invalid "only policy version zero may omit a previous version";
  bail_if existsb (λ principal, bool_decide (Principal.identifier principal = []))
            (principals self)
    with ObjectError.Invalid "principal identifier must not be empty";
  bail_if existsb (λ grant, len (principals self) <=? Grant.principal_index grant)
            (grants self)
    with ObjectError.Invalid "grant references an absent principal";
  bail_if existsb (λ grant, negb (all_unique (Grant.capabilities grant))) (grants self)
    with ObjectError.Invalid "grant capabilities contain duplicates";
  bail_if negb (all_unique (declassification_requirements self))
    with ObjectError.Invalid "declassification requirements must be duplicate-free";
  Ok tt.

Definition unsigned_map (self : t) : list (Z * Value) :=
  optional
    (optional_header ObjectKind.Policy (policy_ref self)
     ++ [(3, id_value (policy_id self));
         (4, Unsigned (version_sequence self));
         (6, Array (map Principal.value (principals self)));
         (7, Array (map Grant.value (grants self)));
         (8, Unsigned (RedactionMode.code (redaction_mode self)));
         (9, Unsigned (DerivationRule.code (derivation_rule self)));
         (10, oid_array (declassification_requirements self));
         (11, Unsigned (key_epoch self));
         (12, oid (key_envelope_set self));
         (13, Array (map id_value (administrators self)));
         (14, Bytes (activation_constraints self))])
    5 (oid <$> previous_version self).

Definition canonical_map (self : t) : list (Z * Value) :=
  unsigned_map self ++ [(15, Array (map Signature.value (signatures self)))].

#[global] Instance object : CanonicalObject t := {|
  KIND := ObjectKind.Policy; SCHEMA_VERSION := SCHEMA_VERSION_0;
  canonical_value := λ self, Ok (Map (canonical_map self));
  validate_object := validate |}.
#[global] Instance signed : SignedObject t := {|
  unsigned_value := λ self, Ok (Map (unsigned_map self));
  signatures_of := signatures |}.

Definition wf (self : t) : bool :=
  opt_ok PolicyRef.wf (policy_ref self) && id_ok (policy_id self)
  && is_u64 (version_sequence self) && opt_ok oid_ok (previous_version self)
  && forallb Principal.wf (principals self) && forallb Grant.wf (grants self)
  && forallb oid_ok (declassification_requirements self) && is_u64 (key_epoch self)
  && oid_ok (key_envelope_set self) && forallb id_ok (administrators self)
  && is_bytes (activation_constraints self) && forallb Signature.wf (signatures self).
End Policy.
