(* ===== verification/Fields.v ===== *)
(** * Field accessors of the object decoder: [crates/rgit-objects/src/decode.rs], lines 1761-2031

    Typed access to the fields of a decoded canonical map, and the structural checks of
    the nested shapes (policy references, typed references, keys, signatures). *)

From S2P Require Import Prelude Machine Order Utf8 Canonical ObjectId Types Objects.

Module DecodeObjectError.
Inductive t :=
  | Canonical (e : CanonicalError)
  | NotMap
  | Field (key : Z)
  | Kind (n : Z)
  | Schema (n : Z)
  | UnknownField (key : Z)
  | ObjectId (key : Z)
  | Digest.
End DecodeObjectError.
Notation derr := DecodeObjectError.t.

Definition fields : Type := list (Z * Value).

(** [map.iter().find(|(key, _)| *key == k).map(|(_, v)| v)]. *)
Fixpoint optional_field (m : fields) (key : Z) : option Value :=
  match m with
  | [] => None
  | (actual, value) :: m => if actual =? key then Some value else optional_field m key
  end.

(** [map.iter().any(|(k, _)| *k == key)]. *)
Definition has_field (m : fields) (key : Z) : bool := existsb (λ e, e.1 =? key) m.

Definition contains_key (keys : list Z) (key : Z) : bool := existsb (Z.eqb key) keys.

Module Fields.
Import DecodeObjectError.

Definition as_map (v : Value) : result derr fields :=
  match v with Map m => Ok m | _ => Err NotMap end.

Definition field (m : fields) (k : Z) : result derr Value :=
  ok_or (optional_field m k) (Field k).

Definition unsigned (v : Value) (k : Z) : result derr Z :=
  match v with Unsigned n => Ok n | _ => Err (Field k) end.

Definition bytes (v : Value) (k : Z) : result derr (list Z) :=
  match v with Bytes b => Ok b | _ => Err (Field k) end.

Definition text (v : Value) (k : Z) : result derr str :=
  match v with Text s => Ok s | _ => Err (Field k) end.

Definition array (v : Value) (k : Z) : result derr (list Value) :=
  match v with Array a => Ok a | _ => Err (Field k) end.

Definition boolean (v : Value) (k : Z) : result derr bool :=
  match v with Bool b => Ok b | _ => Err (Field k) end.

Definition fixed_bytes (v : Value) (k n : Z) : result derr () :=
  b ← bytes v k;
  if len b =? n then Ok tt else Err (Field k).

Definition oid (v : Value) (k : Z) : result derr ObjectId.ObjectId :=
  b ← bytes v k;
  map_err (λ _, ObjectId k) (from_bytes b).

Definition oid_array (v : Value) (k : Z) : result derr () :=
  a ← array v k;
  try_for_each (λ x, _ ← oid x k; Ok tt) a.

Definition oid_values (v : Value) (k : Z) : result derr (list ObjectId.ObjectId) :=
  a ← array v k;
  try_map (λ x, oid x k) a.

Definition exact_map (value : Value) (required optional : list Z) (field_key : Z) :
    result derr fields :=
  m ← as_map value;
  bail_if existsb (λ key, negb (has_field m key)) required
          || existsb (λ e, negb (contains_key required e.1)
                           && negb (contains_key optional e.1)) m
    with Field field_key;
  Ok m.

Definition policy_ref (v : Value) (k : Z) : result derr () :=
  m ← exact_map v [0; 1] [] k;
  f0 ← field m 0; _ ← fixed_bytes f0 k 16;
  f1 ← field m 1; _ ← oid f1 k;
  Ok tt.

(** [ObjectKind::try_from(unsigned(v, k)?).map_err(DecodeObjectError::Kind)]. *)
Definition kind_of (v : Value) (k : Z) : result derr ObjectKind.t :=
  n ← unsigned v k;
  map_err Kind (ObjectKind.try_from n).

Definition typed_ref_kind (v : Value) (k : Z) : result derr ObjectKind.t :=
  m ← exact_map v [0; 1] [] k;
  f0 ← field m 0; kind ← kind_of f0 k;
  f1 ← field m 1; _ ← oid f1 k;
  Ok kind.

Definition typed_ref (v : Value) (k : Z) : result derr () :=
  (λ _, tt) <$> typed_ref_kind v k.

Definition typed_ref_value (v : Value) (k : Z) : result derr TypedObjectRef.t :=
  m ← exact_map v [0; 1] [] k;
  f0 ← field m 0; kind ← kind_of f0 k;
  f1 ← field m 1; id ← oid f1 k;
  Ok (TypedObjectRef.mk kind id).

(** [bytes.try_into()] into [[u8; 16]]. *)
Definition stable_bytes (v : Value) (k : Z) : result derr (list Z) :=
  b ← bytes v k;
  if len b =? 16 then Ok b else Err (Field k).

Definition reference_key (value : Value) (key : Z) : result derr ReferenceKey.t :=
  m ← as_map value;
  f0 ← field m 0; kind ← unsigned f0 key;
  if kind =? 3 then
    _ ← exact_map value [0] [] key;
    Ok ReferenceKey.OperationHead
  else
    m ← exact_map value [0; 1] [] key;
    f1 ← field m 1; stable ← stable_bytes f1 key;
    match kind with
    | 1 => Ok (ReferenceKey.Line stable)
    | 2 => Ok (ReferenceKey.Change stable)
    | 4 => Ok (ReferenceKey.Release stable)
    | 5 => Ok (ReferenceKey.Marker stable)
    | _ => Err (Field key)
    end.

(** [for (index, id) in ids.iter().enumerate() { if ids[..index].contains(id) .. }]. *)
Fixpoint any_repeated (before ids : list ObjectId.ObjectId) : bool :=
  match ids with
  | [] => false
  | id :: ids => bool_decide (id ∈ before) || any_repeated (before ++ [id]) ids
  end.

Definition ensure_unique_ids (ids : list ObjectId.ObjectId) (key : Z) : result derr () :=
  bail_if any_repeated [] ids with Field key;
  Ok tt.

Definition ensure_sorted_unique_ids (ids : list ObjectId.ObjectId) (key : Z) :
    result derr () :=
  bail_if any_window_geb ids with Field key;
  Ok tt.

(** [bytes.iter().all(|byte| *byte == 0)]. *)
Definition all_zero (b : list Z) : bool := forallb (Z.eqb 0) b.

Definition fixed_nonzero_bytes (value : Value) (key n : Z) : result derr () :=
  _ ← fixed_bytes value key n;
  b ← bytes value key;
  bail_if all_zero b with Field key;
  Ok tt.

Definition principal (value : Value) (key : Z) : result derr () :=
  m ← exact_map value [0; 1] [] key;
  f0 ← field m 0; kind ← unsigned f0 key;
  bail_if 3 <? kind with Field key;
  f1 ← field m 1; b ← bytes f1 key;
  bail_if bool_decide (b = []) with Field key;
  Ok tt.

Definition public_key (value : Value) (key : Z) : result derr (Z * list Z) :=
  m ← exact_map value [0; 1; 2] [3; 4] key;
  f0 ← field m 0; algorithm ← unsigned f0 key;
  bail_if 1 <? algorithm with Field key;
  f1 ← field m 1; _ ← fixed_nonzero_bytes f1 key 32;
  f2 ← field m 2; b ← bytes f2 key;
  bail_if negb (len b =? 32) with Field key;
  _ ← try_for_each (λ k, match optional_field m k with
                         | Some value => _ ← oid value key; Ok tt
                         | None => Ok tt end) [3; 4];
  f1 ← field m 1; id ← bytes f1 key;
  Ok (algorithm, id).

Section text_checks.
Context `{Unicode}.

Definition canonical_map_bytes (value : Value) (key : Z) : result derr () :=
  encoded ← bytes value key;
  match decode_canonical encoded metadata with
  | Ok (Map _) => Ok tt
  | _ => Err (Field key)
  end.

Definition ensure_sorted_unique_values (values : list Value) (key : Z) :
    result derr () :=
  encoded ← map_err Canonical (try_map encode values);
  bail_if any_window_geb encoded with Field key;
  Ok tt.
End text_checks.

Definition wall_time (value : Value) (key : Z) : result derr () :=
  m ← exact_map value [0; 1] [] key;
  try_for_each (λ field_key,
    f ← field m field_key;
    match f with Signed _ | Unsigned _ => Ok tt | _ => Err (Field key) end) [0; 1].

Definition signature (value : Value) (key : Z) (expected_purpose : SignaturePurpose.t) :
    result derr () :=
  m ← exact_map value [0; 1; 2; 3; 4] [] key;
  f0 ← field m 0; n ← unsigned f0 key;
  _ ← map_err (λ _, Field key) (SignatureAlgorithm.try_from n);
  f1 ← field m 1; _ ← fixed_bytes f1 key 16;
  f2 ← field m 2; _ ← fixed_bytes f2 key 32;
  f3 ← field m 3; _ ← fixed_bytes f3 key 64;
  b2 ← bytes f2 key;
  bail_if all_zero b2 with Field key;
  b3 ← bytes f3 key;
  bail_if all_zero b3 with Field key;
  f4 ← field m 4; n ← unsigned f4 key;
  purpose ← map_err (λ _, Field key) (SignaturePurpose.try_from n);
  bail_if negb (bool_decide (purpose = expected_purpose)) with Field key;
  Ok tt.

Definition signature_set `{Unicode} (value : Value) (key : Z)
    (purpose : SignaturePurpose.t) : result derr () :=
  values ← array value key;
  bail_if bool_decide (values = []) with Field key;
  _ ← try_for_each (λ value, signature value key purpose) values;
  ensure_sorted_unique_values values key.

(** [(generation == 0) == previous.is_some()], then the check of the previous id. *)
Definition line_advance (value : Value) (key : Z) : result derr LineId :=
  m ← exact_map value [0; 1; 2; 3; 4; 6; 7; 8; 9] [5] key;
  f0 ← field m 0; _ ← policy_ref f0 key;
  f1 ← field m 1; line_id ← stable_bytes f1 key;
  f2 ← field m 2; _ ← text f2 key;
  f3 ← field m 3; _ ← oid f3 key;
  f4 ← field m 4; generation ← unsigned f4 key;
  let previous := optional_field m 5 in
  bail_if Bool.eqb (generation =? 0) (bool_decide (is_Some previous)) with Field key;
  _ ← match previous with Some previous => _ ← oid previous key; Ok tt | None => Ok tt end;
  _ ← try_for_each (λ policy_key, f ← field m policy_key; policy_ref f key) [6; 7; 8; 9];
  Ok line_id.
End Fields.
