(* ===== verification/Decode.v ===== *)
(** * Object decoding: [crates/rgit-objects/src/decode.rs]

    The closed dispatch over object kinds: strict decoding, the per-kind field sets and
    shape checks ([Shapes], one definition per arm of [validate_shapes]), verification
    against an expected identifier, and schema-1 transitions. *)

From S2P Require Import Prelude Machine Order Utf8 Canonical ObjectId Types Path Objects Fields.
Import Fields DecodeObjectError.

(** Checks an optional field with [f] when it is present. *)
Definition check_optional {A} (m : fields) (k : Z) (f : Value → Z → result derr A) :
    result derr () :=
  match optional_field m k with Some v => _ ← f v k; Ok tt | None => Ok tt end.

(** [f(field(map, k)?, k)?;]. *)
Definition check {A} (m : fields) (k : Z) (f : Value → Z → result derr A) : result derr () :=
  v ← field m k; _ ← f v k; Ok tt.

(** [let n = unsigned(field(map, k)?, k)?]. *)
Definition unsigned_field (m : fields) (k : Z) : result derr Z :=
  v ← field m k; unsigned v k.

(** [if unsigned(field(map, k)?, k)? > bound { return Err(Field(k)) }]. *)
Definition check_code (m : fields) (k bound : Z) : result derr () :=
  n ← unsigned_field m k;
  bail_if bound <? n with Field k;
  Ok tt.

Definition id16 (v : Value) (k : Z) : result derr () := fixed_bytes v k 16.

(** [if (version == 0) == previous.is_some() { .. }; if let Some(v) = previous { oid(v)? }]. *)
Definition check_version_chain (m : fields) (version previous_key : Z) : result derr () :=
  bail_if Bool.eqb (version =? 0) (bool_decide (is_Some (optional_field m previous_key)))
    with Field previous_key;
  check_optional m previous_key oid.

Module Shapes.
Definition chunk (m : fields) : result derr () :=
  v ← field m 3; b ← bytes v 3;
  bail_if MAX_CHUNK_BYTES <? len b with Field 3;
  Ok tt.

(** The loop over chunk references; the state is [total]. *)
Definition blob_chunk (total : Z) (chunk : Value) : result derr Z :=
  chunk ← exact_map chunk [0; 1] [] 5;
  f0 ← field chunk 0; _ ← oid f0 5;
  f1 ← field chunk 1; n ← unsigned f1 5;
  bail_if (n =? 0) || (FASTCDC_V0_MAX_SIZE <? n) with Field 5;
  ok_or (checked_add total n) (Field 5).

Definition blob (m : fields) : result derr () :=
  byte_length ← unsigned_field m 3;
  bail_if negb (Nat.eqb (length (List.filter (λ e, (e.1 =? 4) || (e.1 =? 5)) m)) 1)
    with Field 4;
  _ ← match optional_field m 4 with
      | Some inline =>
          b ← bytes inline 4;
          bail_if (MAX_INLINE_BLOB_BYTES <? len b) || negb (len b =? byte_length)
                  || has_field m 7 with Field 4;
          Ok tt
      | None =>
          bail_if byte_length <=? MAX_INLINE_BLOB_BYTES with Field 5;
          v ← field m 5; chunk_values ← array v 5;
          bail_if bool_decide (chunk_values = []) with Field 5;
          total ← try_fold blob_chunk chunk_values 0;
          bail_if negb (total =? byte_length) with Field 5;
          v ← field m 7; profile ← exact_map v [0; 1; 2; 3; 4] [] 7;
          f0 ← field profile 0; a ← unsigned f0 7;
          bail_if negb (a =? 0) with Field 7;
          f1 ← field profile 1; version ← unsigned f1 7;
          bail_if negb (version =? 0) with Field 7;
          f2 ← field profile 2; min ← unsigned f2 7;
          f3 ← field profile 3; target ← unsigned f3 7;
          f4 ← field profile 4; max ← unsigned f4 7;
          bail_if negb (min =? FASTCDC_V0_MIN_SIZE) || negb (target =? FASTCDC_V0_TARGET_SIZE)
                  || negb (max =? FASTCDC_V0_MAX_SIZE) with Field 7;
          Ok tt
      end;
  check_optional m 6 text.

(** One manifest entry; the state is [(previous, folded_names)]. *)
Definition manifest_entry `{Unicode} (s : option (list Z) * BTreeSet (list Z))
    (entry : Value) : result derr (option (list Z) * BTreeSet (list Z)) :=
  let '(previous, folded_names) := s in
  entry ← exact_map entry [0; 1; 2; 4] [3] 3;
  f0 ← field entry 0; name ← text f0 3;
  segment ← map_err (λ _, Field 3) (new_portable name);
  let fold := as_bytes (portable_case_fold segment) in
  bail_if set_contains fold folded_names with Field 3;
  encoded ← map_err Canonical (encode (Text name));
  bail_if match previous with Some old => geb old encoded | None => false end
    with Field 3;
  f1 ← field entry 1; kind ← unsigned f1 3;
  bail_if (4 <? kind) || negb (Bool.eqb (kind =? 0) (has_field entry 3)) with Field 3;
  _ ← (if kind =? 0 then
         f3 ← field entry 3; mode ← unsigned f3 3;
         bail_if 1 <? mode with Field 3; Ok tt
       else Ok tt);
  f2 ← field entry 2; _ ← oid f2 3;
  f4 ← field entry 4; _ ← policy_ref f4 3;
  Ok (Some encoded, set_insert fold folded_names).

Definition manifest `{Unicode} (m : fields) : result derr () :=
  v ← field m 3; entries ← array v 3;
  _ ← try_fold manifest_entry entries (None, []);
  Ok tt.

Definition snapshot (m : fields) : result derr () :=
  _ ← check m 3 oid;
  v ← field m 4; parents ← oid_values v 4;
  _ ← ensure_unique_ids parents 4;
  _ ← check m 5 id16;
  _ ← check m 6 id16;
  _ ← check m 7 id16;
  _ ← check m 8 unsigned;
  _ ← check m 9 wall_time;
  check_optional m 10 oid.

Definition change_revision (m : fields) : result derr () :=
  _ ← check m 3 id16;
  _ ← check_optional m 4 oid;
  _ ← try_for_each (λ k, check m k oid) [5; 6; 7; 8];
  _ ← check m 9 id16;
  _ ← check m 10 unsigned;
  _ ← check m 11 id16;
  _ ← check m 12 id16;
  _ ← check_code m 13 3;
  _ ← check m 14 policy_ref;
  check m 15 policy_ref.

Definition line_state (m : fields) : result derr () :=
  _ ← check m 3 id16;
  _ ← check m 4 text;
  _ ← check m 5 oid;
  generation ← unsigned_field m 6;
  bail_if Bool.eqb (generation =? 0) (has_field m 7) with Field 7;
  _ ← check_optional m 7 oid;
  _ ← check m 12 oid;
  _ ← try_for_each (λ k, check m k policy_ref) [8; 9; 10; 11];
  v ← field m 13; signature v 13 SignaturePurpose.LineState.

(** The loop over conflict regions; the state is [previous_end]. *)
Definition conflict_region (previous_end : option Z) (region : Value) :
    result derr (option Z) :=
  region ← exact_map region [0; 1] [] 10;
  f0 ← field region 0; start ← unsigned f0 10;
  f1 ← field region 1; stop ← unsigned f1 10;
  bail_if (stop <=? start)
          || match previous_end with Some previous => start <? previous | None => false end
    with Field 10;
  Ok (Some stop).

Definition conflict `{Unicode} (m : fields) : result derr () :=
  _ ← check m 3 typed_ref;
  _ ← check m 4 typed_ref;
  _ ← check m 5 typed_ref;
  v ← field m 6; values ← array v 6;
  segments ← try_map (λ segment,
               name ← text segment 6;
               map_err (λ _, Field 6) (new_portable name)) values;
  _ ← map_err (λ _, Field 6) (new_path segments);
  _ ← check_code m 7 3;
  _ ← check m 8 text;
  _ ← check m 9 text;
  v ← field m 10; regions ← array v 10;
  _ ← try_fold conflict_region regions None;
  Ok tt.

(** One operation action; the state is [action_keys]. *)
Definition operation_action (schema : Z) (action_keys : BTreeSet ReferenceKey.t)
    (action : Value) : result derr (BTreeSet ReferenceKey.t) :=
  action_map ← as_map action;
  f0 ← field action_map 0; tag ← unsigned f0 8;
  if (schema =? 0) && (tag =? 0) then
    m ← exact_map action [0] [1; 2] 8;
    let before := optional_field m 1 in
    let after := optional_field m 2 in
    bail_if negb (bool_decide (is_Some before)) && negb (bool_decide (is_Some after))
      with Field 8;
    _ ← match before with Some value => typed_ref value 8 | None => Ok tt end;
    _ ← match after with
        | Some value =>
            kind ← typed_ref_kind value 8;
            bail_if bool_decide (kind = ObjectKind.LineState) with Field 8; Ok tt
        | None => Ok tt end;
    Ok action_keys
  else if ((schema =? 0) || (schema =? 1)) && (tag =? 1) then
    m ← exact_map action [0; 3] [] 8;
    f3 ← field m 3; line_id ← line_advance f3 8;
    if schema =? 1 then
      bail_if set_contains (ReferenceKey.Line line_id) action_keys with Field 8;
      Ok (set_insert (ReferenceKey.Line line_id) action_keys)
    else Ok action_keys
  else if (schema =? 1) && (tag =? 2) then
    m ← exact_map action [0; 1; 3] [2] 8;
    f1 ← field m 1; key ← reference_key f1 8;
    bail_if match key with
            | ReferenceKey.Line _ | ReferenceKey.OperationHead => true | _ => false end
            || set_contains key action_keys with Field 8;
    _ ← match optional_field m 2 with
        | Some before =>
            kind ← typed_ref_kind before 8;
            bail_if negb (bool_decide (kind = ReferenceKey.expected_kind key)) with Field 8;
            Ok tt
        | None => Ok tt end;
    f3 ← field m 3; kind ← typed_ref_kind f3 8;
    bail_if negb (bool_decide (kind = ReferenceKey.expected_kind key)) with Field 8;
    Ok (set_insert key action_keys)
  else Err (Field 8).

Definition operation (schema : Z) (m : fields) : result derr () :=
  v ← field m 3; parents ← oid_values v 3;
  _ ← ensure_unique_ids parents 3;
  _ ← check m 4 id16;
  _ ← check m 5 id16;
  _ ← check m 6 unsigned;
  _ ← check m 7 wall_time;
  v ← field m 8; actions ← array v 8;
  _ ← try_fold (operation_action schema) actions [];
  _ ← check m 9 oid_array;
  _ ← check_optional m 10 oid;
  _ ← check_optional m 11 oid;
  v ← field m 12; _ ← signature v 12 SignaturePurpose.Operation;
  check m 13 text.

Definition marker (m : fields) : result derr () :=
  _ ← check_code m 3 4;
  _ ← check m 4 typed_ref;
  _ ← check m 5 id16;
  _ ← check m 6 wall_time;
  _ ← check m 7 bytes;
  v ← field m 8; signature v 8 SignaturePurpose.Marker.

Definition release `{Unicode} (m : fields) : result derr () :=
  _ ← check m 3 id16;
  _ ← check m 4 unsigned;
  _ ← try_for_each (λ k, check m k oid) [5; 7; 8];
  _ ← check m 10 text;
  _ ← check m 6 policy_ref;
  _ ← check m 9 oid;
  _ ← try_for_each (λ k, check m k oid_array) [12; 13; 14];
  _ ← check m 15 wall_time;
  v ← field m 16; signatures ← array v 16;
  bail_if bool_decide (signatures = []) with Field 16;
  _ ← try_for_each (λ value, signature value 16 SignaturePurpose.Release) signatures;
  ensure_sorted_unique_values signatures 16.

(** The capabilities of a grant; the state is [previous_capability]. *)
Definition policy_capability (previous : option Z) (capability : Value) :
    result derr (option Z) :=
  capability ← unsigned capability 7;
  bail_if (8 <? capability)
          || match previous with Some p => capability <=? p | None => false end
    with Field 7;
  Ok (Some capability).

Definition policy_grant (principals : list Value) (grant : Value) : result derr () :=
  grant ← exact_map grant [0; 1] [] 7;
  f0 ← field grant 0; index ← unsigned f0 7;
  bail_if len principals <=? index with Field 7;
  f1 ← field grant 1; capabilities ← array f1 7;
  _ ← try_fold policy_capability capabilities None;
  Ok tt.

Definition policy `{Unicode} (m : fields) : result derr () :=
  _ ← check m 3 id16;
  version ← unsigned_field m 4;
  _ ← check_version_chain m version 5;
  v ← field m 6; principals ← array v 6;
  _ ← try_for_each (λ p, principal p 6) principals;
  v ← field m 7; grants ← array v 7;
  _ ← try_for_each (policy_grant principals) grants;
  _ ← check m 12 oid;
  _ ← check_code m 8 2;
  _ ← check_code m 9 2;
  v ← field m 10; requirements ← oid_values v 10;
  _ ← ensure_unique_ids requirements 10;
  _ ← check m 11 unsigned;
  v ← field m 13; administrators ← array v 13;
  _ ← try_for_each (λ a, fixed_bytes a 13 16) administrators;
  _ ← check m 14 bytes;
  v ← field m 15; signatures ← array v 15;
  bail_if bool_decide (signatures = []) with Field 15;
  _ ← try_for_each (λ value, signature value 15 SignaturePurpose.Policy) signatures;
  ensure_sorted_unique_values signatures 15.

Definition secret_ref (m : fields) : result derr () :=
  _ ← try_for_each (λ k, check m k text) [3; 4; 7; 8];
  _ ← check m 6 bytes;
  _ ← check_optional m 5 text;
  check_optional m 9 oid.

Definition subproject (m : fields) : result derr () :=
  _ ← check m 3 text;
  _ ← check m 4 bytes;
  _ ← check m 5 bytes;
  check_optional m 6 oid.

(** A required, sorted and duplicate-free array of identifiers; nonempty if [nonempty]. *)
Definition sorted_ids (m : fields) (k : Z) (nonempty : bool) : result derr () :=
  v ← field m k; ids ← oid_values v k;
  _ ← ensure_sorted_unique_ids ids k;
  bail_if nonempty && bool_decide (ids = []) with Field k;
  Ok tt.

(** A required array of typed references in canonical order. *)
Definition sorted_refs `{Unicode} (m : fields) (k : Z) : result derr () :=
  v ← field m k; refs ← array v k;
  _ ← try_for_each (λ value, typed_ref value k) refs;
  ensure_sorted_unique_values refs k.

Definition signatures_at `{Unicode} (m : fields) (k : Z) (purpose : SignaturePurpose.t) :
    result derr () :=
  v ← field m k; signature_set v k purpose.

Definition repository_root `{Unicode} (m : fields) : result derr () :=
  _ ← check m 3 id16;
  _ ← check m 4 oid;
  _ ← sorted_ids m 5 true;
  _ ← check m 6 oid;
  _ ← check m 7 oid;
  _ ← sorted_ids m 8 true;
  _ ← check_code m 9 1;
  signatures_at m 10 SignaturePurpose.RepositoryRoot.

(** The loop over the key records of one algorithm; the state is [key_ids]. *)
Definition identity_key (algorithm k : Z) (key_ids : BTreeSet (list Z)) (value : Value) :
    result derr (BTreeSet (list Z)) :=
  '(actual, key_id) ← public_key value k;
  bail_if negb (actual =? algorithm) || set_contains key_id key_ids with Field k;
  Ok (set_insert key_id key_ids).

Definition identity `{Unicode} (m : fields) : result derr () :=
  _ ← check_code m 3 1;
  _ ← check m 4 id16;
  version ← unsigned_field m 5;
  let previous := optional_field m 6 in
  let activation := optional_field m 11 in
  let no_previous := negb (bool_decide (is_Some previous)) in
  let no_activation := negb (bool_decide (is_Some activation)) in
  let has_policy := bool_decide (is_Some (optional_field m 2)) in
  bail_if negb (Bool.eqb (version =? 0) (no_previous && no_activation && negb has_policy))
    with Field 5;
  bail_if (0 <? version) && (no_previous || no_activation || negb has_policy) with Field 5;
  _ ← check_optional m 6 oid;
  v ← field m 7; signing ← array v 7;
  bail_if bool_decide (signing = []) with Field 7;
  v ← field m 8; encryption ← array v 8;
  key_ids ← try_fold (identity_key 0 7) signing [];
  _ ← try_fold (identity_key 1 8) encryption key_ids;
  _ ← ensure_sorted_unique_values signing 7;
  _ ← ensure_sorted_unique_values encryption 8;
  _ ← check m 9 id16;
  _ ← check_code m 10 2;
  _ ← check_optional m 11 oid;
  _ ← check_optional m 12 oid;
  signatures_at m 13 SignaturePurpose.Identity.

Definition group_membership `{Unicode} (m : fields) : result derr () :=
  _ ← check m 3 id16;
  _ ← check m 4 id16;
  version ← unsigned_field m 5;
  _ ← check_version_chain m version 6;
  _ ← check m 7 principal;
  _ ← check_code m 8 1;
  _ ← check m 9 id16;
  _ ← check m 10 oid;
  _ ← check_optional m 11 oid;
  signatures_at m 12 SignaturePurpose.GroupMembership.

Definition recipient (value : Value) : result derr () :=
  r ← exact_map value [0; 1; 2] [] 5;
  f0 ← field r 0; _ ← principal f0 5;
  f1 ← field r 1; _ ← fixed_nonzero_bytes f1 5 32;
  f2 ← field r 2; b ← bytes f2 5;
  bail_if bool_decide (b = []) with Field 5;
  Ok tt.

Definition key_envelope_set `{Unicode} (m : fields) : result derr () :=
  epoch ← unsigned_field m 3;
  bail_if negb (Bool.eqb (epoch =? 0) (negb (bool_decide (is_Some (optional_field m 2)))))
    with Field 3;
  suite ← unsigned_field m 4;
  bail_if negb (suite =? 0) with Field 4;
  v ← field m 5; recipients ← array v 5;
  bail_if bool_decide (recipients = []) with Field 5;
  _ ← try_for_each recipient recipients;
  ensure_sorted_unique_values recipients 5.

Definition change_relation (m : fields) : result derr () :=
  _ ← check_code m 3 2;
  _ ← try_for_each (λ key, sorted_ids m key (negb (key =? 6))) [4; 5; 6];
  check m 7 oid.

Definition conflict_resolution `{Unicode} (m : fields) : result derr () :=
  _ ← check m 3 oid;
  _ ← check m 4 typed_ref;
  _ ← check m 5 id16;
  _ ← check m 6 id16;
  _ ← check_code m 7 4;
  _ ← sorted_refs m 8;
  _ ← check m 9 wall_time;
  signatures_at m 10 SignaturePurpose.ConflictResolution.

Definition evidence_purpose (kind : ObjectKind.t) : SignaturePurpose.t :=
  match kind with
  | ObjectKind.ReviewEvidence => SignaturePurpose.ReviewEvidence
  | ObjectKind.ApprovalEvidence => SignaturePurpose.ApprovalEvidence
  | ObjectKind.CiEvidence => SignaturePurpose.CiEvidence
  | _ => SignaturePurpose.PolicyDecisionEvidence
  end.

Definition evidence `{Unicode} (kind : ObjectKind.t) (m : fields) : result derr () :=
  _ ← check m 3 typed_ref;
  _ ← check m 4 oid;
  _ ← check m 5 oid;
  _ ← check m 6 id16;
  _ ← check m 7 id16;
  _ ← check_code m 8 3;
  _ ← check m 9 canonical_map_bytes;
  _ ← sorted_refs m 10;
  _ ← check m 11 wall_time;
  _ ← signatures_at m 12 (evidence_purpose kind);
  if bool_decide (kind = ObjectKind.CiEvidence) then
    v ← field m 13; s ← text v 13;
    bail_if bool_decide (s = []) with Field 13;
    _ ← check m 14 oid;
    check_optional m 15 oid
  else Ok tt.

Definition projection_rule `{Unicode} (rule : Value) : result derr () :=
  r ← exact_map rule [0; 1] [] 5;
  f0 ← field r 0; n ← unsigned f0 5;
  bail_if 2 <? n with Field 5;
  f1 ← field r 1; canonical_map_bytes f1 5.

Definition projection_rules `{Unicode} (m : fields) : result derr () :=
  version ← unsigned_field m 3;
  _ ← check_version_chain m version 4;
  v ← field m 5; rules ← array v 5;
  _ ← try_for_each projection_rule rules;
  v ← field m 6; closed ← boolean v 6;
  bail_if negb closed with Field 6;
  Ok tt.

Definition projection_proof (m : fields) : result derr () :=
  n ← unsigned_field m 3;
  bail_if negb (n =? 0) with Field 3;
  _ ← try_for_each (λ key, check m key oid) [4; 5; 6; 7];
  v ← field m 8; b ← bytes v 8;
  bail_if bool_decide (b = []) with Field 8;
  Ok tt.

Definition build_provenance `{Unicode} (m : fields) : result derr () :=
  _ ← try_for_each (λ key, check m key oid) [3; 4; 5];
  _ ← sorted_refs m 6;
  _ ← sorted_ids m 7 false;
  _ ← check m 8 canonical_map_bytes;
  _ ← check m 9 wall_time;
  signatures_at m 10 SignaturePurpose.BuildProvenance.

Definition artifact (m : fields) : result derr () :=
  _ ← check_code m 3 3;
  _ ← check_code m 4 1;
  v ← field m 5; b ← bytes v 5;
  bail_if negb (len b =? 32) with Field 5;
  _ ← check m 6 unsigned;
  bail_if negb (bool_decide (is_Some (optional_field m 7)))
          && negb (bool_decide (is_Some (optional_field m 8))) with Field 7;
  _ ← check_optional m 7 text;
  check_optional m 8 oid.

Definition operation_payload `{Unicode} (m : fields) : result derr () :=
  _ ← check_code m 3 3;
  _ ← sorted_refs m 4;
  n ← unsigned_field m 5;
  bail_if negb (n =? 0) with Field 5;
  check m 6 canonical_map_bytes.

(** One line of a view; the state is [line_ids]. *)
Definition view_line (line_ids : BTreeSet (list Z)) (value : Value) :
    result derr (BTreeSet (list Z)) :=
  line ← exact_map value [0; 1; 2] [] 6;
  f0 ← field line 0; _ ← fixed_bytes f0 6 16;
  id ← bytes f0 6;
  bail_if set_contains id line_ids with Field 6;
  f1 ← field line 1; _ ← unsigned f1 6;
  f2 ← field line 2; _ ← oid f2 6;
  Ok (set_insert id line_ids).

Definition view `{Unicode} (m : fields) : result derr () :=
  _ ← check m 3 id16;
  _ ← check m 4 id16;
  _ ← sorted_ids m 5 false;
  v ← field m 6; lines ← array v 6;
  _ ← try_fold view_line lines [];
  _ ← ensure_sorted_unique_values lines 6;
  _ ← check m 7 oid;
  _ ← check m 8 canonical_map_bytes;
  signatures_at m 9 SignaturePurpose.View.

(** One mapping of a migration; the state is [(old, new)]. *)
Definition migration_mapping (s : BTreeSet ObjectId.ObjectId * BTreeSet ObjectId.ObjectId)
    (value : Value) : result derr (BTreeSet ObjectId.ObjectId * BTreeSet ObjectId.ObjectId) :=
  let '(old, new) := s in
  m ← exact_map value [0; 1] [] 5;
  f0 ← field m 0; a ← oid f0 5;
  f1 ← field m 1; b ← oid f1 5;
  bail_if set_contains a old || set_contains b new with Field 5;
  Ok (set_insert a old, set_insert b new).

Definition migration `{Unicode} (m : fields) : result derr () :=
  source ← unsigned_field m 3;
  target ← unsigned_field m 4;
  bail_if (1 <? source) || (1 <? target) || (source =? target) with Field 4;
  v ← field m 5; mappings ← array v 5;
  bail_if bool_decide (mappings = []) with Field 5;
  _ ← try_fold migration_mapping mappings ([], []);
  _ ← ensure_sorted_unique_values mappings 5;
  _ ← check m 6 oid;
  _ ← check m 7 wall_time;
  signatures_at m 8 SignaturePurpose.Migration.

(** The evidence kinds of a ruleset; the state is [prior]. *)
Definition ruleset_kind (prior : option Z) (value : Value) : result derr (option Z) :=
  n ← unsigned value 7;
  bail_if negb ((20 <=? n) && (n <=? 23))
          || match prior with Some p => n <=? p | None => false end with Field 7;
  Ok (Some n).

Definition ruleset `{Unicode} (m : fields) : result derr () :=
  _ ← check_code m 3 4;
  version ← unsigned_field m 4;
  _ ← check_version_chain m version 5;
  _ ← check m 6 canonical_map_bytes;
  v ← field m 7; kinds ← array v 7;
  _ ← try_fold ruleset_kind kinds None;
  Ok tt.
End Shapes.

Definition validate_shapes `{Unicode} (kind : ObjectKind.t) (schema : Z) (m : fields) :
    result derr () :=
  match kind with
  | ObjectKind.Chunk => Shapes.chunk m
  | ObjectKind.Blob => Shapes.blob m
  | ObjectKind.Manifest => Shapes.manifest m
  | ObjectKind.Snapshot => Shapes.snapshot m
  | ObjectKind.ChangeRevision => Shapes.change_revision m
  | ObjectKind.LineState => Shapes.line_state m
  | ObjectKind.Conflict => Shapes.conflict m
  | ObjectKind.Operation => Shapes.operation schema m
  | ObjectKind.Marker => Shapes.marker m
  | ObjectKind.Release => Shapes.release m
  | ObjectKind.Policy => Shapes.policy m
  | ObjectKind.SecretRef => Shapes.secret_ref m
  | ObjectKind.Subproject => Shapes.subproject m
  | ObjectKind.RepositoryRoot => Shapes.repository_root m
  | ObjectKind.Identity => Shapes.identity m
  | ObjectKind.GroupMembership => Shapes.group_membership m
  | ObjectKind.KeyEnvelopeSet => Shapes.key_envelope_set m
  | ObjectKind.ChangeRelation => Shapes.change_relation m
  | ObjectKind.ConflictResolution => Shapes.conflict_resolution m
  | ObjectKind.ReviewEvidence | ObjectKind.ApprovalEvidence | ObjectKind.CiEvidence
  | ObjectKind.PolicyDecisionEvidence => Shapes.evidence kind m
  | ObjectKind.ProjectionRules => Shapes.projection_rules m
  | ObjectKind.ProjectionProof => Shapes.projection_proof m
  | ObjectKind.BuildProvenance => Shapes.build_provenance m
  | ObjectKind.Artifact => Shapes.artifact m
  | ObjectKind.OperationPayload => Shapes.operation_payload m
  | ObjectKind.View => Shapes.view m
  | ObjectKind.Migration => Shapes.migration m
  | ObjectKind.Ruleset => Shapes.ruleset m
  end.

(** The required and optional field numbers of each kind. *)
Definition field_sets (kind : ObjectKind.t) : list Z * list Z :=
  match kind with
  | ObjectKind.Chunk => ([0; 1; 2; 3], [])
  | ObjectKind.Blob => ([0; 1; 2; 3], [4; 5; 6; 7])
  | ObjectKind.SecretRef => ([0; 1; 2; 3; 4; 6; 7; 8], [5; 9])
  | ObjectKind.Manifest => ([0; 1; 2; 3], [])
  | ObjectKind.Subproject => ([0; 1; 2; 3; 4; 5], [6])
  | ObjectKind.Snapshot => ([0; 1; 2; 3; 4; 5; 6; 7; 8; 9], [10])
  | ObjectKind.ChangeRevision =>
      ([0; 1; 2; 3; 5; 6; 7; 8; 9; 10; 11; 12; 13; 14; 15], [4])
  | ObjectKind.LineState => ([0; 1; 2; 3; 4; 5; 6; 8; 9; 10; 11; 12; 13], [7])
  | ObjectKind.Conflict => ([0; 1; 2; 3; 4; 5; 6; 7; 8; 9; 10], [])
  | ObjectKind.Operation => ([0; 1; 2; 3; 4; 5; 6; 7; 8; 9; 12; 13], [10; 11])
  | ObjectKind.Marker => ([0; 1; 2; 3; 4; 5; 6; 7; 8], [])
  | ObjectKind.Release => ([0; 1; 2; 3; 4; 5; 6; 7; 8; 9; 10; 12; 13; 14; 15; 16], [11])
  | ObjectKind.Policy => ([0; 1; 3; 4; 6; 7; 8; 9; 10; 11; 12; 13; 14; 15], [2; 5])
  | ObjectKind.RepositoryRoot => ([0; 1; 3; 4; 5; 6; 7; 8; 9; 10], [])
  | ObjectKind.Identity => ([0; 1; 3; 4; 5; 7; 8; 9; 10; 13], [2; 6; 11; 12])
  | ObjectKind.GroupMembership => ([0; 1; 2; 3; 4; 5; 7; 8; 9; 10; 12], [6; 11])
  | ObjectKind.KeyEnvelopeSet => ([0; 1; 3; 4; 5], [2])
  | ObjectKind.ChangeRelation => ([0; 1; 2; 3; 4; 5; 6; 7], [])
  | ObjectKind.ConflictResolution => ([0; 1; 2; 3; 4; 5; 6; 7; 8; 9; 10], [])
  | ObjectKind.ReviewEvidence | ObjectKind.ApprovalEvidence
  | ObjectKind.PolicyDecisionEvidence => ([0; 1; 2; 3; 4; 5; 6; 7; 8; 9; 10; 11; 12], [])
  | ObjectKind.CiEvidence =>
      ([0; 1; 2; 3; 4; 5; 6; 7; 8; 9; 10; 11; 12; 13; 14], [15])
  | ObjectKind.ProjectionRules => ([0; 1; 2; 3; 5; 6], [4])
  | ObjectKind.ProjectionProof => ([0; 1; 2; 3; 4; 5; 6; 7; 8], [])
  | ObjectKind.BuildProvenance => ([0; 1; 2; 3; 4; 5; 6; 7; 8; 9; 10], [])
  | ObjectKind.Artifact => ([0; 1; 2; 3; 4; 5; 6], [7; 8])
  | ObjectKind.OperationPayload => ([0; 1; 2; 3; 4; 5; 6], [])
  | ObjectKind.View => ([0; 1; 2; 3; 4; 5; 6; 7; 8; 9], [])
  | ObjectKind.Migration => ([0; 1; 2; 3; 4; 5; 6; 7; 8], [])
  | ObjectKind.Ruleset => ([0; 1; 2; 3; 4; 6; 7], [5])
  end.

Definition policy_optional (kind : ObjectKind.t) : bool :=
  match kind with
  | ObjectKind.Policy | ObjectKind.RepositoryRoot | ObjectKind.Identity
  | ObjectKind.KeyEnvelopeSet => true
  | _ => false
  end.

Definition validate_fields `{Unicode} (kind : ObjectKind.t) (schema : Z) (m : fields) :
    result derr () :=
  let '(required, optional) := field_sets kind in
  _ ← try_for_each (λ key, _ ← field m key; Ok tt) required;
  _ ← try_for_each (λ e, bail_if negb (contains_key required e.1)
                                 && negb (contains_key optional e.1)
                           with UnknownField e.1; Ok tt) m;
  _ ← (if negb (policy_optional kind) || has_field m 2
       then v ← field m 2; policy_ref v 2 else Ok tt);
  validate_shapes kind schema m.

Record DecodedObject := mk_decoded {
  kind : ObjectKind.t;
  schema_version : Z;
  value : Value }.

Module AnyObject.
Inductive t :=
  | Chunk (d : DecodedObject)
  | Blob (d : DecodedObject)
  | SecretRef (d : DecodedObject)
  | Manifest (d : DecodedObject)
  | Subproject (d : DecodedObject)
  | Snapshot (d : DecodedObject)
  | ChangeRevision (d : DecodedObject)
  | LineState (d : DecodedObject)
  | Conflict (d : DecodedObject)
  | Operation (d : DecodedObject)
  | Marker (d : DecodedObject)
  | Release (d : DecodedObject)
  | Policy (d : DecodedObject)
  | RepositoryRoot (d : DecodedObject)
  | Identity (d : DecodedObject)
  | GroupMembership (d : DecodedObject)
  | KeyEnvelopeSet (d : DecodedObject)
  | ChangeRelation (d : DecodedObject)
  | ConflictResolution (d : DecodedObject)
  | ReviewEvidence (d : DecodedObject)
  | ApprovalEvidence (d : DecodedObject)
  | CiEvidence (d : DecodedObject)
  | PolicyDecisionEvidence (d : DecodedObject)
  | ProjectionRules (d : DecodedObject)
  | ProjectionProof (d : DecodedObject)
  | BuildProvenance (d : DecodedObject)
  | Artifact (d : DecodedObject)
  | OperationPayload (d : DecodedObject)
  | View (d : DecodedObject)
  | Migration (d : DecodedObject)
  | Ruleset (d : DecodedObject).

Definition of_kind (k : ObjectKind.t) : DecodedObject → t :=
  match k with
  | ObjectKind.Chunk => Chunk
  | ObjectKind.Blob => Blob
  | ObjectKind.SecretRef => SecretRef
  | ObjectKind.Manifest => Manifest
  | ObjectKind.Subproject => Subproject
  | ObjectKind.Snapshot => Snapshot
  | ObjectKind.ChangeRevision => ChangeRevision
  | ObjectKind.LineState => LineState
  | ObjectKind.Conflict => Conflict
  | ObjectKind.Operation => Operation
  | ObjectKind.Marker => Marker
  | ObjectKind.Release => Release
  | ObjectKind.Policy => Policy
  | ObjectKind.RepositoryRoot => RepositoryRoot
  | ObjectKind.Identity => Identity
  | ObjectKind.GroupMembership => GroupMembership
  | ObjectKind.KeyEnvelopeSet => KeyEnvelopeSet
  | ObjectKind.ChangeRelation => ChangeRelation
  | ObjectKind.ConflictResolution => ConflictResolution
  | ObjectKind.ReviewEvidence => ReviewEvidence
  | ObjectKind.ApprovalEvidence => ApprovalEvidence
  | ObjectKind.CiEvidence => CiEvidence
  | ObjectKind.PolicyDecisionEvidence => PolicyDecisionEvidence
  | ObjectKind.ProjectionRules => ProjectionRules
  | ObjectKind.ProjectionProof => ProjectionProof
  | ObjectKind.BuildProvenance => BuildProvenance
  | ObjectKind.Artifact => Artifact
  | ObjectKind.OperationPayload => OperationPayload
  | ObjectKind.View => View
  | ObjectKind.Migration => Migration
  | ObjectKind.Ruleset => Ruleset
  end.

Definition decoded (self : t) : DecodedObject :=
  match self with
  | Chunk v | Blob v | SecretRef v | Manifest v | Subproject v | Snapshot v
  | ChangeRevision v | LineState v | Conflict v | Operation v | Marker v | Release v
  | Policy v => v
  | RepositoryRoot v | Identity v | GroupMembership v | KeyEnvelopeSet v
  | ChangeRelation v | ConflictResolution v | ReviewEvidence v | ApprovalEvidence v
  | CiEvidence v | PolicyDecisionEvidence v | ProjectionRules v | ProjectionProof v
  | BuildProvenance v | Artifact v | OperationPayload v | View v | Migration v
  | Ruleset v => v
  end.

Lemma decoded_of_kind k d : decoded (of_kind k d) = d.
Proof. by destruct k. Qed.

Section any_object.
Context `{Unicode}.

Definition decode (bytes : list Z) (limits : CanonicalLimits) : result derr t :=
  let admission_limits := restricted_by limits bulk in
  value ← map_err Canonical (decode_canonical bytes admission_limits);
  m ← as_map value;
  f0 ← field m 0; kind_number ← unsigned f0 0;
  kind ← map_err Kind (ObjectKind.try_from kind_number);
  f1 ← field m 1; schema ← unsigned f1 1;
  bail_if negb (ObjectKind.supports_schema kind schema) with Schema schema;
  let kind_limits := kind_limits kind in
  _ ← map_err Canonical (encode_with_limits value (restricted_by limits kind_limits));
  _ ← validate_fields kind schema m;
  Ok (of_kind kind (mk_decoded kind schema value)).

Definition id `{Digests} (self : t) (algorithm : HashAlgorithm.t) :
    result derr ObjectId.ObjectId :=
  let d := decoded self in
  let limits := kind_limits (kind d) in
  bytes ← map_err Canonical (encode_with_limits (value d) limits);
  Ok (from_payload (ObjectKind.code (kind d)) (schema_version d) bytes algorithm).

Definition decode_verified `{Digests} (bytes : list Z) (expected : ObjectId.ObjectId)
    (limits : CanonicalLimits) : result derr t :=
  object ← decode bytes limits;
  actual ← id object (algorithm expected);
  bail_if negb (bool_decide (actual = expected)) with Digest;
  Ok object.
End any_object.
End AnyObject.
