(* ===== verification/References.v ===== *)
(** * Reference extraction: [crates/rgit-objects/src/decode.rs], lines 53-171, 315-346 and 1121-1760

    The typed edges a decoded object contributes to the object graph, and the schema-1
    reference transitions of an operation. *)

From S2P Require Import Prelude Machine Order Utf8 Canonical ObjectId Types Path Objects Fields Decode.
Import Fields DecodeObjectError.

Module ReferenceRole.
Inductive t :=
  | ObjectPolicy | ManifestEntryPolicy | ReviewPolicy | LandingPolicy | IntegrationPolicy
  | ApprovalPolicy | ReleasePolicy | VisibilityPolicy | AudiencePolicy | BlobChunk
  | ManifestEntryTarget | SnapshotRootManifest | SnapshotParent | SnapshotMessage
  | ChangePreviousRevision | ChangeTitle | ChangeDescription | ChangeBaseSnapshot
  | ChangeCurrentSnapshot | LineHeadSnapshot | LinePreviousState
  | LineTransactionOperation | SubprojectNativeProjection | SecretDevelopmentValue
  | ConflictBase | ConflictLeft | ConflictRight | OperationParent | OperationBefore
  | OperationAfter | OperationLinePolicy | OperationLineHeadSnapshot
  | OperationLinePreviousState | OperationLineIntegrationPolicy
  | OperationLineApprovalPolicy | OperationLineReleasePolicy
  | OperationLineVisibilityPolicy | OperationInversePayload | OperationPublicEnvelope
  | OperationPrivatePayload | MarkerTarget | ReleaseSourceSnapshot
  | ReleaseProjectionRules | ReleaseProjectionProof | ReleaseProjectedRoot | ReleaseNotes
  | ReleaseBuildProvenance | ReleaseArtifact | ReleasePolicyEvidence
  | PolicyPreviousVersion | PolicyDeclassificationRequirement | PolicyKeyEnvelopeSet
  | RepositoryRootPolicy | RepositoryTrustedIdentity | RepositoryBootstrapKeyEnvelopeSet
  | RepositoryGenesisOperation | RepositoryInitialLineState | IdentityPrevious
  | IdentityKeyNotBefore | IdentityKeyNotAfter | IdentityActivationOperation
  | IdentityNotAfterOperation | MembershipPrevious | MembershipActivationOperation
  | MembershipNotAfterOperation | ChangeRelationSource | ChangeRelationResult
  | ChangeRelationProvenance | ChangeRelationOperation | ResolutionConflict
  | ResolutionResult | ResolutionProvenance | EvidenceTarget | EvidenceSnapshot
  | EvidenceRuleset | EvidenceRelated | CiRunnerIdentity | CiBuildProvenance
  | ProjectionRulesPrevious | ProjectionSourceSnapshot | ProjectionRules
  | ProjectionAudiencePolicy | ProjectionManifest | BuildSnapshot | BuildRuleset
  | BuildIdentity | BuildInput | BuildOutput | ArtifactBlob | PayloadReference
  | ViewPolicy | ViewLineState | ViewManifest | MigrationOldObject | MigrationNewObject
  | MigrationToolIdentity | RulesetPrevious.

Scheme Equality for t.
#[global] Instance eq_dec : EqDecision t := t_eq_dec.
End ReferenceRole.

Record ReferenceEdge := mk_edge {
  role : ReferenceRole.t;
  expected_kind : option ObjectKind.t;
  edge_id : ObjectId.ObjectId }.

#[export] Instance ReferenceEdge_eq_dec : EqDecision ReferenceEdge.
Proof. solve_decision. Defined.

Import ReferenceRole.

Definition policy_fields (kind : ObjectKind.t) : list (Z * ReferenceRole.t) :=
  match kind with
  | ObjectKind.ChangeRevision => [(2, ObjectPolicy); (14, ReviewPolicy); (15, LandingPolicy)]
  | ObjectKind.LineState =>
      [(2, ObjectPolicy); (8, IntegrationPolicy); (9, ApprovalPolicy); (10, ReleasePolicy);
       (11, VisibilityPolicy)]
  | ObjectKind.Release => [(2, ObjectPolicy); (6, AudiencePolicy)]
  | _ => [(2, ObjectPolicy)]
  end.

(** The edges are appended to [out] in the source; each helper returns the edges it adds. *)
Definition edges : Type := result derr (list ReferenceEdge).

(** [a; b] on the output vector. *)
Definition then_edges (a b : edges) : edges := x ← a; y ← b; Ok (x ++ y).
Infix "+++" := then_edges (at level 60, right associativity) : rgit_scope.

(** [for x in items { out.push(f(x)?) }]. *)
Definition for_edges {A} (f : A → result derr ReferenceEdge) (items : list A) : edges :=
  try_map f items.

(** The [add!] macro: an optional identifier, skipped when absent or null. *)
Definition add (m : fields) (key : Z) (r : ReferenceRole.t) (expected : option ObjectKind.t) :
    edges :=
  match optional_field m key with
  | Some Null | None => Ok []
  | Some v => i ← oid v key; Ok [mk_edge r expected i]
  end.

(** [for value in array(field(map, key)?, key)? { out.push(.. oid(value, key)? ..) }]. *)
Definition add_array (m : fields) (key : Z) (r : ReferenceRole.t) (expected : ObjectKind.t) :
    edges :=
  v ← field m key; values ← array v key;
  for_edges (λ value, i ← oid value key; Ok (mk_edge r (Some expected) i)) values.

(** An edge to a typed reference map. *)
Definition typed_edge (r : ReferenceRole.t) (key : Z) (reference : Value) :
    result derr ReferenceEdge :=
  m ← as_map reference;
  f0 ← field m 0; k ← kind_of f0 key;
  f1 ← field m 1; i ← oid f1 key;
  Ok (mk_edge r (Some k) i).

Definition add_typed (m : fields) (key : Z) (r : ReferenceRole.t) : edges :=
  v ← field m key; e ← typed_edge r key v; Ok [e].

Definition add_typed_array (m : fields) (key : Z) (r : ReferenceRole.t) : edges :=
  v ← field m key; values ← array v key;
  for_edges (typed_edge r key) values.

(** An edge to an exact policy version. *)
Definition policy_edge (r : ReferenceRole.t) (key : Z) (policy : Value) :
    result derr ReferenceEdge :=
  p ← as_map policy;
  f1 ← field p 1; i ← oid f1 key;
  Ok (mk_edge r (Some ObjectKind.Policy) i).

Definition concat_edges {A} (f : A → edges) (items : list A) : edges :=
  try_fold (λ out x, es ← f x; Ok (out ++ es)) items [].

Definition policy_edges (kind : ObjectKind.t) (m : fields) : edges :=
  concat_edges (λ '(key, r),
    match optional_field m key with
    | Some v => e ← policy_edge r key v; Ok [e]
    | None => Ok []
    end) (policy_fields kind).

Module Edges.
Definition blob (m : fields) : edges :=
  match optional_field m 5 with
  | Some chunks =>
      values ← array chunks 5;
      for_edges (λ chunk, c ← as_map chunk; f0 ← field c 0; i ← oid f0 5;
                          Ok (mk_edge BlobChunk (Some ObjectKind.Chunk) i)) values
  | None => Ok []
  end.

Definition manifest_entry (entry : Value) : edges :=
  entry ← as_map entry;
  f1 ← field entry 1; kind ← unsigned f1 3;
  expected ← match kind with
             | 0 | 2 => Ok ObjectKind.Blob
             | 1 => Ok ObjectKind.Manifest
             | 3 => Ok ObjectKind.Subproject
             | 4 => Ok ObjectKind.SecretRef
             | _ => Err (Field 3)
             end;
  f2 ← field entry 2; i ← oid f2 3;
  f4 ← field entry 4; p ← policy_edge ManifestEntryPolicy 3 f4;
  Ok [mk_edge ManifestEntryTarget (Some expected) i; p].

Definition manifest (m : fields) : edges :=
  v ← field m 3; entries ← array v 3;
  concat_edges manifest_entry entries.

Definition snapshot (m : fields) : edges :=
  add m 3 SnapshotRootManifest (Some ObjectKind.Manifest)
  +++ add m 10 SnapshotMessage (Some ObjectKind.Blob)
  +++ add_array m 4 SnapshotParent ObjectKind.Snapshot.

Definition change_revision (m : fields) : edges :=
  add m 4 ChangePreviousRevision (Some ObjectKind.ChangeRevision)
  +++ add m 5 ChangeTitle (Some ObjectKind.Blob)
  +++ add m 6 ChangeDescription (Some ObjectKind.Blob)
  +++ add m 7 ChangeBaseSnapshot (Some ObjectKind.Snapshot)
  +++ add m 8 ChangeCurrentSnapshot (Some ObjectKind.Snapshot).

Definition line_state (m : fields) : edges :=
  add m 5 LineHeadSnapshot (Some ObjectKind.Snapshot)
  +++ add m 7 LinePreviousState (Some ObjectKind.LineState)
  +++ add m 12 LineTransactionOperation (Some ObjectKind.Operation).

Definition release (m : fields) : edges :=
  add m 5 ReleaseSourceSnapshot (Some ObjectKind.Snapshot)
  +++ add m 7 ReleaseProjectionRules (Some ObjectKind.ProjectionRules)
  +++ add m 8 ReleaseProjectedRoot (Some ObjectKind.Manifest)
  +++ add m 9 ReleaseProjectionProof (Some ObjectKind.ProjectionProof)
  +++ add m 11 ReleaseNotes (Some ObjectKind.Blob)
  +++ add_array m 12 ReleaseBuildProvenance ObjectKind.BuildProvenance
  +++ add_array m 13 ReleaseArtifact ObjectKind.Artifact
  +++ add_array m 14 ReleasePolicyEvidence ObjectKind.PolicyDecisionEvidence.

Definition policy (m : fields) : edges :=
  add m 5 PolicyPreviousVersion (Some ObjectKind.Policy)
  +++ add m 12 PolicyKeyEnvelopeSet (Some ObjectKind.KeyEnvelopeSet)
  +++ add_array m 10 PolicyDeclassificationRequirement ObjectKind.PolicyDecisionEvidence.

Definition conflict (m : fields) : edges :=
  add_typed m 3 ConflictBase +++ add_typed m 4 ConflictLeft +++ add_typed m 5 ConflictRight.

(** The before/after references of an action, at field numbers [before] and [after]. *)
Definition transition (action : fields) (before after : Z) : edges :=
  concat_edges (λ '(key, r),
    match optional_field action key with
    | Some reference => e ← typed_edge r 8 reference; Ok [e]
    | None => Ok []
    end) [(before, OperationBefore); (after, OperationAfter)].

Definition line_advance (action : fields) : edges :=
  v ← field action 3; declaration ← as_map v;
  concat_edges (λ '(key, r),
    policy ← field declaration key; e ← policy_edge r 8 policy; Ok [e])
    [(0, OperationLinePolicy); (6, OperationLineIntegrationPolicy);
     (7, OperationLineApprovalPolicy); (8, OperationLineReleasePolicy);
     (9, OperationLineVisibilityPolicy)]
  +++ (f3 ← field declaration 3; i ← oid f3 8;
       Ok [mk_edge OperationLineHeadSnapshot (Some ObjectKind.Snapshot) i])
  +++ match optional_field declaration 5 with
      | Some previous =>
          i ← oid previous 8;
          Ok [mk_edge OperationLinePreviousState (Some ObjectKind.LineState) i]
      | None => Ok []
      end.

Definition operation_action (action : Value) : edges :=
  action ← as_map action;
  f0 ← field action 0; tag ← unsigned f0 8;
  match tag with
  | 0 => transition action 1 2
  | 2 => transition action 2 3
  | 1 => line_advance action
  | _ => Err (Field 8)
  end.

Definition operation (m : fields) : edges :=
  add_array m 3 OperationParent ObjectKind.Operation
  +++ add_array m 9 OperationInversePayload ObjectKind.OperationPayload
  +++ (v ← field m 8; actions ← array v 8; concat_edges operation_action actions)
  +++ add m 10 OperationPublicEnvelope (Some ObjectKind.OperationPayload)
  +++ add m 11 OperationPrivatePayload (Some ObjectKind.OperationPayload).

Definition repository_root (m : fields) : edges :=
  add m 4 RepositoryRootPolicy (Some ObjectKind.Policy)
  +++ add_array m 5 RepositoryTrustedIdentity ObjectKind.Identity
  +++ add m 6 RepositoryBootstrapKeyEnvelopeSet (Some ObjectKind.KeyEnvelopeSet)
  +++ add m 7 RepositoryGenesisOperation (Some ObjectKind.Operation)
  +++ add_array m 8 RepositoryInitialLineState ObjectKind.LineState.

(** The validity bounds of one key record. *)
Definition key_bounds (key : Z) (record : Value) : edges :=
  record ← as_map record;
  let bound k r := match optional_field record k with
    | Some value => i ← oid value key; Ok [mk_edge r (Some ObjectKind.Operation) i]
    | None => Ok [] end in
  bound 3 IdentityKeyNotBefore +++ bound 4 IdentityKeyNotAfter.

Definition identity (m : fields) : edges :=
  add m 6 IdentityPrevious (Some ObjectKind.Identity)
  +++ concat_edges (λ key, v ← field m key; records ← array v key;
                           concat_edges (key_bounds key) records) [7; 8]
  +++ add m 11 IdentityActivationOperation (Some ObjectKind.Operation)
  +++ add m 12 IdentityNotAfterOperation (Some ObjectKind.Operation).

Definition group_membership (m : fields) : edges :=
  add m 6 MembershipPrevious (Some ObjectKind.GroupMembership)
  +++ add m 10 MembershipActivationOperation (Some ObjectKind.Operation)
  +++ add m 11 MembershipNotAfterOperation (Some ObjectKind.Operation).

Definition change_relation (m : fields) : edges :=
  add_array m 4 ChangeRelationSource ObjectKind.ChangeRevision
  +++ add_array m 5 ChangeRelationResult ObjectKind.ChangeRevision
  +++ add_array m 6 ChangeRelationProvenance ObjectKind.Snapshot
  +++ add m 7 ChangeRelationOperation (Some ObjectKind.Operation).

Definition conflict_resolution (m : fields) : edges :=
  add m 3 ResolutionConflict (Some ObjectKind.Conflict)
  +++ add_typed m 4 ResolutionResult
  +++ add_typed_array m 8 ResolutionProvenance.

Definition evidence (kind : ObjectKind.t) (m : fields) : edges :=
  add_typed m 3 EvidenceTarget
  +++ add m 4 EvidenceSnapshot (Some ObjectKind.Snapshot)
  +++ add m 5 EvidenceRuleset (Some ObjectKind.Ruleset)
  +++ add_typed_array m 10 EvidenceRelated
  +++ (if bool_decide (kind = ObjectKind.CiEvidence) then
         add m 14 CiRunnerIdentity (Some ObjectKind.Identity)
         +++ add m 15 CiBuildProvenance (Some ObjectKind.BuildProvenance)
       else Ok []).

Definition projection_proof (m : fields) : edges :=
  add m 4 ProjectionSourceSnapshot (Some ObjectKind.Snapshot)
  +++ add m 5 ProjectionRules (Some ObjectKind.ProjectionRules)
  +++ add m 6 ProjectionAudiencePolicy (Some ObjectKind.Policy)
  +++ add m 7 ProjectionManifest (Some ObjectKind.Manifest).

Definition build_provenance (m : fields) : edges :=
  add m 3 BuildSnapshot (Some ObjectKind.Snapshot)
  +++ add m 4 BuildRuleset (Some ObjectKind.Ruleset)
  +++ add m 5 BuildIdentity (Some ObjectKind.Identity)
  +++ add_typed_array m 6 BuildInput
  +++ add_array m 7 BuildOutput ObjectKind.Artifact.

Definition view (m : fields) : edges :=
  add_array m 5 ViewPolicy ObjectKind.Policy
  +++ (v ← field m 6; lines ← array v 6;
       for_edges (λ value, line ← as_map value; f2 ← field line 2; i ← oid f2 6;
                           Ok (mk_edge ViewLineState (Some ObjectKind.LineState) i)) lines)
  +++ add m 7 ViewManifest (Some ObjectKind.Manifest).

Definition migration (m : fields) : edges :=
  (v ← field m 5; mappings ← array v 5;
   concat_edges (λ value,
     m ← as_map value;
     f0 ← field m 0; a ← oid f0 5;
     f1 ← field m 1; b ← oid f1 5;
     Ok [mk_edge MigrationOldObject None a; mk_edge MigrationNewObject None b]) mappings)
  +++ add m 6 MigrationToolIdentity (Some ObjectKind.Identity).

(** The [match d.kind] of [references]. *)
Definition by_kind (kind : ObjectKind.t) (m : fields) : edges :=
  match kind with
  | ObjectKind.Blob => blob m
  | ObjectKind.Manifest => manifest m
  | ObjectKind.Snapshot => snapshot m
  | ObjectKind.ChangeRevision => change_revision m
  | ObjectKind.LineState => line_state m
  | ObjectKind.Subproject => add m 6 SubprojectNativeProjection None
  | ObjectKind.SecretRef => add m 9 SecretDevelopmentValue None
  | ObjectKind.Release => release m
  | ObjectKind.Policy => policy m
  | ObjectKind.Conflict => conflict m
  | ObjectKind.Marker => add_typed m 4 MarkerTarget
  | ObjectKind.Operation => operation m
  | ObjectKind.RepositoryRoot => repository_root m
  | ObjectKind.Identity => identity m
  | ObjectKind.GroupMembership => group_membership m
  | ObjectKind.ChangeRelation => change_relation m
  | ObjectKind.ConflictResolution => conflict_resolution m
  | ObjectKind.ReviewEvidence | ObjectKind.ApprovalEvidence | ObjectKind.CiEvidence
  | ObjectKind.PolicyDecisionEvidence => evidence kind m
  | ObjectKind.ProjectionRules => add m 4 ProjectionRulesPrevious (Some ObjectKind.ProjectionRules)
  | ObjectKind.ProjectionProof => projection_proof m
  | ObjectKind.BuildProvenance => build_provenance m
  | ObjectKind.Artifact => add m 8 ArtifactBlob (Some ObjectKind.Blob)
  | ObjectKind.OperationPayload => add_typed_array m 4 PayloadReference
  | ObjectKind.View => view m
  | ObjectKind.Migration => migration m
  | ObjectKind.Ruleset => add m 5 RulesetPrevious (Some ObjectKind.Ruleset)
  | ObjectKind.Chunk | ObjectKind.KeyEnvelopeSet => Ok []
  end.
End Edges.

(** The defensive deduplication at the end of [references], keeping first occurrences. *)
Definition push_unique (unique : list ReferenceEdge) (edge : ReferenceEdge) :
    list ReferenceEdge :=
  if bool_decide (edge ∈ unique) then unique else unique ++ [edge].
Definition dedup (out : list ReferenceEdge) : list ReferenceEdge := fold_left push_unique out [].

Definition references (d : DecodedObject) : edges :=
  m ← as_map (value d);
  out ← policy_edges (kind d) m +++ Edges.by_kind (kind d) m;
  Ok (dedup out).

Record BoundReferenceTransition := mk_transition {
  transition_key : ReferenceKey.t;
  transition_before : option TypedObjectRef.t;
  transition_after : TypedObjectRef.t }.

Definition bound_transition (action : Value) :
    result derr (list BoundReferenceTransition) :=
  action ← as_map action;
  f0 ← field action 0; tag ← unsigned f0 8;
  if negb (tag =? 2) then Ok []
  else
    f1 ← field action 1; key ← reference_key f1 8;
    before ← match optional_field action 2 with
             | Some v => Some <$> typed_ref_value v 8
             | None => Ok None end;
    f3 ← field action 3; after ← typed_ref_value f3 8;
    Ok [mk_transition key before after].

Definition bound_reference_transitions (d : DecodedObject) :
    result derr (option (list BoundReferenceTransition)) :=
  if negb (bool_decide (kind d = ObjectKind.Operation)) || negb (schema_version d =? 1)
  then Ok None
  else
    m ← as_map (value d);
    v ← field m 8; actions ← array v 8;
    transitions ← try_fold (λ out a, ts ← bound_transition a; Ok (out ++ ts)) actions [];
    Ok (Some transitions).
