(* ===== verification/EdgeRoles.v ===== *)
(** * Edge roles on disk: [crates/rgit-store/src/edge_roles.rs]

    The frozen names under which the roles of reference edges are stored, and the registry of
    all of them, which the first migration installs row by row. *)

From Stdlib Require Import String.
From S2P Require Import Prelude Machine Utf8 References.
Import ReferenceRole.

Definition name (role : ReferenceRole.t) : str :=
  match role with
  | ObjectPolicy => lit "object_policy"
  | ManifestEntryPolicy => lit "manifest_entry_policy"
  | ReviewPolicy => lit "review_policy"
  | LandingPolicy => lit "landing_policy"
  | IntegrationPolicy => lit "integration_policy"
  | ApprovalPolicy => lit "approval_policy"
  | ReleasePolicy => lit "release_policy"
  | VisibilityPolicy => lit "visibility_policy"
  | AudiencePolicy => lit "audience_policy"
  | BlobChunk => lit "blob_chunk"
  | ManifestEntryTarget => lit "manifest_entry_target"
  | SnapshotRootManifest => lit "snapshot_root_manifest"
  | SnapshotParent => lit "snapshot_parent"
  | SnapshotMessage => lit "snapshot_message"
  | ChangePreviousRevision => lit "change_previous_revision"
  | ChangeTitle => lit "change_title"
  | ChangeDescription => lit "change_description"
  | ChangeBaseSnapshot => lit "change_base_snapshot"
  | ChangeCurrentSnapshot => lit "change_current_snapshot"
  | LineHeadSnapshot => lit "line_head_snapshot"
  | LinePreviousState => lit "line_previous_state"
  | LineTransactionOperation => lit "line_transaction_operation"
  | SubprojectNativeProjection => lit "subproject_native_projection"
  | SecretDevelopmentValue => lit "secret_development_value"
  | ConflictBase => lit "conflict_base"
  | ConflictLeft => lit "conflict_left"
  | ConflictRight => lit "conflict_right"
  | OperationParent => lit "operation_parent"
  | OperationBefore => lit "operation_before"
  | OperationAfter => lit "operation_after"
  | OperationLinePolicy => lit "operation_line_policy"
  | OperationLineHeadSnapshot => lit "operation_line_head_snapshot"
  | OperationLinePreviousState => lit "operation_line_previous_state"
  | OperationLineIntegrationPolicy => lit "operation_line_integration_policy"
  | OperationLineApprovalPolicy => lit "operation_line_approval_policy"
  | OperationLineReleasePolicy => lit "operation_line_release_policy"
  | OperationLineVisibilityPolicy => lit "operation_line_visibility_policy"
  | OperationInversePayload => lit "operation_inverse_payload"
  | OperationPublicEnvelope => lit "operation_public_envelope"
  | OperationPrivatePayload => lit "operation_private_payload"
  | MarkerTarget => lit "marker_target"
  | ReleaseSourceSnapshot => lit "release_source_snapshot"
  | ReleaseProjectionRules => lit "release_projection_rules"
  | ReleaseProjectionProof => lit "release_projection_proof"
  | ReleaseProjectedRoot => lit "release_projected_root"
  | ReleaseNotes => lit "release_notes"
  | ReleaseBuildProvenance => lit "release_build_provenance"
  | ReleaseArtifact => lit "release_artifact"
  | ReleasePolicyEvidence => lit "release_policy_evidence"
  | PolicyPreviousVersion => lit "policy_previous_version"
  | PolicyDeclassificationRequirement => lit "policy_declassification_requirement"
  | PolicyKeyEnvelopeSet => lit "policy_key_envelope_set"
  | RepositoryRootPolicy => lit "repository_root_policy"
  | RepositoryTrustedIdentity => lit "repository_trusted_identity"
  | RepositoryBootstrapKeyEnvelopeSet => lit "repository_bootstrap_key_envelope_set"
  | RepositoryGenesisOperation => lit "repository_genesis_operation"
  | RepositoryInitialLineState => lit "repository_initial_line_state"
  | IdentityPrevious => lit "identity_previous"
  | IdentityKeyNotBefore => lit "identity_key_not_before"
  | IdentityKeyNotAfter => lit "identity_key_not_after"
  | IdentityActivationOperation => lit "identity_activation_operation"
  | IdentityNotAfterOperation => lit "identity_not_after_operation"
  | MembershipPrevious => lit "membership_previous"
  | MembershipActivationOperation => lit "membership_activation_operation"
  | MembershipNotAfterOperation => lit "membership_not_after_operation"
  | ChangeRelationSource => lit "change_relation_source"
  | ChangeRelationResult => lit "change_relation_result"
  | ChangeRelationProvenance => lit "change_relation_provenance"
  | ChangeRelationOperation => lit "change_relation_operation"
  | ResolutionConflict => lit "resolution_conflict"
  | ResolutionResult => lit "resolution_result"
  | ResolutionProvenance => lit "resolution_provenance"
  | EvidenceTarget => lit "evidence_target"
  | EvidenceSnapshot => lit "evidence_snapshot"
  | EvidenceRuleset => lit "evidence_ruleset"
  | EvidenceRelated => lit "evidence_related"
  | CiRunnerIdentity => lit "ci_runner_identity"
  | CiBuildProvenance => lit "ci_build_provenance"
  | ProjectionRulesPrevious => lit "projection_rules_previous"
  | ProjectionSourceSnapshot => lit "projection_source_snapshot"
  | ProjectionRules => lit "projection_rules"
  | ProjectionAudiencePolicy => lit "projection_audience_policy"
  | ProjectionManifest => lit "projection_manifest"
  | BuildSnapshot => lit "build_snapshot"
  | BuildRuleset => lit "build_ruleset"
  | BuildIdentity => lit "build_identity"
  | BuildInput => lit "build_input"
  | BuildOutput => lit "build_output"
  | ArtifactBlob => lit "artifact_blob"
  | PayloadReference => lit "payload_reference"
  | ViewPolicy => lit "view_policy"
  | ViewLineState => lit "view_line_state"
  | ViewManifest => lit "view_manifest"
  | MigrationOldObject => lit "migration_old_object"
  | MigrationNewObject => lit "migration_new_object"
  | MigrationToolIdentity => lit "migration_tool_identity"
  | RulesetPrevious => lit "ruleset_previous"
  end.

(** The variants, in the order of the registry. *)
Definition variants : list ReferenceRole.t :=
  [ObjectPolicy; ManifestEntryPolicy; ReviewPolicy; LandingPolicy; IntegrationPolicy;
   ApprovalPolicy; ReleasePolicy; VisibilityPolicy; AudiencePolicy; BlobChunk; ManifestEntryTarget;
   SnapshotRootManifest; SnapshotParent; SnapshotMessage; ChangePreviousRevision; ChangeTitle;
   ChangeDescription; ChangeBaseSnapshot; ChangeCurrentSnapshot; LineHeadSnapshot;
   LinePreviousState; LineTransactionOperation; SubprojectNativeProjection; SecretDevelopmentValue;
   ConflictBase; ConflictLeft; ConflictRight; OperationParent; OperationBefore; OperationAfter;
   OperationLinePolicy; OperationLineHeadSnapshot; OperationLinePreviousState;
   OperationLineIntegrationPolicy; OperationLineApprovalPolicy; OperationLineReleasePolicy;
   OperationLineVisibilityPolicy; OperationInversePayload; OperationPublicEnvelope;
   OperationPrivatePayload; MarkerTarget; ReleaseSourceSnapshot; ReleaseProjectionRules;
   ReleaseProjectionProof; ReleaseProjectedRoot; ReleaseNotes; ReleaseBuildProvenance;
   ReleaseArtifact; ReleasePolicyEvidence; PolicyPreviousVersion;
   PolicyDeclassificationRequirement; PolicyKeyEnvelopeSet; RepositoryRootPolicy;
   RepositoryTrustedIdentity; RepositoryBootstrapKeyEnvelopeSet; RepositoryGenesisOperation;
   RepositoryInitialLineState; IdentityPrevious; IdentityKeyNotBefore; IdentityKeyNotAfter;
   IdentityActivationOperation; IdentityNotAfterOperation; MembershipPrevious;
   MembershipActivationOperation; MembershipNotAfterOperation; ChangeRelationSource;
   ChangeRelationResult; ChangeRelationProvenance; ChangeRelationOperation; ResolutionConflict;
   ResolutionResult; ResolutionProvenance; EvidenceTarget; EvidenceSnapshot; EvidenceRuleset;
   EvidenceRelated; CiRunnerIdentity; CiBuildProvenance; ProjectionRulesPrevious;
   ProjectionSourceSnapshot; ProjectionRules; ProjectionAudiencePolicy; ProjectionManifest;
   BuildSnapshot; BuildRuleset; BuildIdentity; BuildInput; BuildOutput; ArtifactBlob;
   PayloadReference; ViewPolicy; ViewLineState; ViewManifest; MigrationOldObject;
   MigrationNewObject; MigrationToolIdentity; RulesetPrevious].

Definition V1 : list str := map name variants.

Lemma variants_complete role : role ∈ variants.
Proof. apply (bool_decide_unpack _). by destruct role. Qed.

(** The name of every role is registered. *)
Lemma name_registered role : name role ∈ V1.
Proof. apply list_elem_of_fmap. exists role. split; [done|apply variants_complete]. Qed.

Lemma V1_nodup : NoDup V1.
Proof. apply (bool_decide_unpack _). by vm_compute. Qed.

(** Stored names determine the roles. *)
#[global] Instance name_inj : Inj (=) (=) name.
Proof.
  intros a b Hab.
  destruct (proj1 (list_elem_of_lookup _ _) (variants_complete a)) as [i Hi].
  destruct (proj1 (list_elem_of_lookup _ _) (variants_complete b)) as [j Hj].
  assert (i = j) as ->; [|congruence].
  apply (NoDup_lookup V1 i j (name a) V1_nodup); unfold V1; rewrite list_lookup_fmap.
  - by rewrite Hi.
  - by rewrite Hj, Hab.
Qed.
