(* ===== verification/DecodeFacts.v ===== *)
(** * Facts about object decoding

    How a typed object's canonical map looks to the decoder: the decoder sees the
    normal form of the map ([norm_fields]), where field lookups agree with the source
    map, so that every accessor of [Fields] computes on the projections of [Objects]. *)

From S2P Require Import Prelude Machine Order Utf8 Canonical CanonicalFacts ObjectId Types Path Objects Fields Decode.
Import Fields DecodeObjectError.

(** ** Lookups in normal forms *)

Definition norm_fields (es : fields) : fields :=
  sort_by_key fst (map (λ e, (e.1, normalize e.2)) es).

Lemma normalize_map es : normalize (Map es) = Map (norm_fields es).
Proof. done. Qed.

Lemma optional_field_elem m k v :
  NoDup (map fst m) → optional_field m k = Some v ↔ (k, v) ∈ m.
Proof.
  induction m as [|[k' v'] m IH]; cbn; [by intros; split; [|intros ?%not_elem_of_nil]|].
  intros [Hk Hm]%NoDup_cons. rewrite elem_of_cons, <-IH by done.
  destruct (Z.eqb_spec k' k) as [->|Hne]; [|naive_solver].
  split; [naive_solver|]. intros [[= ->]|Hin]; [done|].
  destruct Hk. apply IH in Hin; [|done]. apply list_elem_of_fmap. by exists (k, v).
Qed.

Lemma optional_field_perm m1 m2 k :
  NoDup (map fst m1) → m1 ≡ₚ m2 → optional_field m1 k = optional_field m2 k.
Proof.
  intros Hnd Hp. assert (NoDup (map fst m2)) as Hnd2 by by rewrite <-Hp.
  apply option_eq. intros v. by rewrite !optional_field_elem, Hp.
Qed.

Lemma optional_field_fmap (f : Value → Value) m k :
  optional_field (map (λ e, (e.1, f e.2)) m) k = f <$> optional_field m k.
Proof. induction m as [|[k' v] m IH]; cbn; [done|]. by case_match. Qed.

Lemma norm_fields_perm es : norm_fields es ≡ₚ map (λ e, (e.1, normalize e.2)) es.
Proof. apply sort_by_key_perm. Qed.

Lemma optional_field_norm es k :
  NoDup (map fst es) → optional_field (norm_fields es) k = normalize <$> optional_field es k.
Proof.
  intros Hnd. rewrite <-optional_field_fmap. apply optional_field_perm, norm_fields_perm.
  by rewrite norm_fields_perm, keys_map.
Qed.

Lemma has_field_optional m k : has_field m k = bool_decide (is_Some (optional_field m k)).
Proof.
  unfold has_field. induction m as [|[k' v] m IH]; cbn; [done|].
  destruct (k' =? k); [done|]. apply IH.
Qed.

Lemma existsb_perm {A} (f : A → bool) l k : l ≡ₚ k → existsb f l = existsb f k.
Proof.
  induction 1 as [|x l k _ IH|x y l|l k m _ IH1 _ IH2]; cbn;
    [done|by rewrite IH|by destruct (f x), (f y)|by rewrite IH1].
Qed.

Lemma existsb_keys_norm (f : Z → bool) es :
  existsb (λ e, f e.1) (norm_fields es) = existsb f (map fst es).
Proof.
  rewrite (existsb_perm _ _ _ (norm_fields_perm es)).
  induction es as [|e es IH]; cbn; [done|]. by rewrite IH.
Qed.

(** The keys of a literal map, decided by computation. *)
Definition keys_match (required optional keys : list Z) : bool :=
  negb (existsb (λ k, negb (contains_key keys k)) required)
  && negb (existsb (λ k, negb (contains_key required k) && negb (contains_key optional k)) keys).

Lemma has_field_keys m k : has_field m k = contains_key (map fst m) k.
Proof.
  unfold has_field, contains_key. induction m as [|e m IH]; cbn; [done|].
  by rewrite Z.eqb_sym, IH.
Qed.

Lemma contains_key_perm l1 l2 k : l1 ≡ₚ l2 → contains_key l1 k = contains_key l2 k.
Proof. apply existsb_perm. Qed.

Lemma norm_keys_perm es : map fst (norm_fields es) ≡ₚ map fst es.
Proof. by rewrite norm_fields_perm, keys_map. Qed.

Lemma exact_map_norm es required optional k :
  keys_match required optional (map fst es) = true →
  exact_map (Map (norm_fields es)) required optional k = Ok (norm_fields es).
Proof.
  unfold keys_match, exact_map.
  rewrite andb_true_iff, !negb_true_iff. intros [Hreq Hkeys]. cbn [as_map mbind result_bind].
  replace (existsb (λ key, negb (has_field (norm_fields es) key)) required) with false.
  { rewrite (existsb_keys_norm (λ k, negb (contains_key required k)
      && negb (contains_key optional k))). by rewrite Hkeys. }
  rewrite <-Hreq. clear Hreq Hkeys. induction required as [|r required IH]; [done|].
  cbn [existsb]. by rewrite <-IH, has_field_keys, (contains_key_perm _ _ r (norm_keys_perm es)).
Qed.

Lemma field_norm es k v :
  NoDup (map fst es) → optional_field es k = Some v →
  field (norm_fields es) k = Ok (normalize v).
Proof. intros Hnd Hk. unfold field. by rewrite optional_field_norm, Hk. Qed.

(** ** Identifiers *)

Lemma oid_norm id k : oid_ok id = true → oid (normalize (Types.oid id)) k = Ok id.
Proof.
  intros Hid. unfold oid. cbn [normalize Types.oid bytes mbind result_bind].
  by rewrite from_to_bytes.
Qed.

Lemma oid_value_ok id : oid_ok id = true → value_ok (Types.oid id) = true.
Proof. intros Hid. by apply oid_bytes_is_bytes. Qed.

(** ** Evaluating accessors on literal maps *)

Lemma optional_field_lit es k o :
  NoDup (map fst es) → optional_field es k = o →
  optional_field (norm_fields es) k = normalize <$> o.
Proof. intros Hnd <-. by apply optional_field_norm. Qed.

Lemma unsigned_norm n k : unsigned (normalize (Unsigned n)) k = Ok n.
Proof. done. Qed.
Lemma bytes_norm b k : bytes (normalize (Bytes b)) k = Ok b.
Proof. done. Qed.
Lemma text_norm s k : text (normalize (Types.text s)) k = Ok s.
Proof. done. Qed.
Lemma array_norm vs k : array (normalize (Array vs)) k = Ok (map normalize vs).
Proof. done. Qed.
Lemma bytes_id_norm id k : bytes (normalize (id_value id)) k = Ok id.
Proof. done. Qed.

(** [NoDup] of literal field numbers, by computation. *)
Lemma nodup_keys_intro (l : list Z) : bool_decide (NoDup l) = true → NoDup l.
Proof. apply bool_decide_eq_true. Qed.
Ltac nodup_keys := apply nodup_keys_intro; reflexivity.

(** One evaluation step on the fields of a literal map. *)
Ltac field_step :=
  match goal with
  | |- context [exact_map (normalize (Map ?es)) ?r ?o ?k] => rewrite (normalize_map es)
  | |- context [as_map (normalize (Map ?es))] => rewrite (normalize_map es)
  | |- context [exact_map (Map (norm_fields ?es)) ?r ?o ?k] =>
      rewrite (exact_map_norm es r o k) by reflexivity
  | |- context [as_map (Map ?es)] => change (as_map (Map es)) with (@Ok derr _ es)
  | |- context [field (norm_fields ?es) ?k] =>
      erewrite (field_norm es k) by (nodup_keys || reflexivity)
  | |- context [has_field (norm_fields ?es) ?k] =>
      rewrite (has_field_optional (norm_fields es) k)
  | |- context [optional_field (norm_fields ?es) ?k] =>
      let o := eval cbv [optional_field Z.eqb Pos.eqb] in (optional_field es k) in
      rewrite (optional_field_lit es k o) by (nodup_keys || reflexivity)
  end.

Create HintDb shape.
#[export] Hint Rewrite unsigned_norm bytes_norm text_norm array_norm bytes_id_norm : shape.

Lemma fixed_bytes_norm b k n : len b = n → fixed_bytes (normalize (Bytes b)) k n = Ok tt.
Proof. intros <-. unfold fixed_bytes. cbn. by rewrite Z.eqb_refl. Qed.

Lemma id16_norm id k : id_ok id = true → id16 (normalize (id_value id)) k = Ok tt.
Proof. intros [Hid _]%is_array_spec. by apply fixed_bytes_norm. Qed.

Lemma stable_bytes_norm id k :
  id_ok id = true → stable_bytes (normalize (Bytes id)) k = Ok id.
Proof.
  intros [Hid _]%is_array_spec. unfold stable_bytes. cbn [normalize bytes mbind result_bind].
  by rewrite Hid.
Qed.

Lemma policy_ref_norm p k :
  PolicyRef.wf p = true → policy_ref (normalize (PolicyRef.value p)) k = Ok tt.
Proof.
  intros [Hid Hv]%andb_true_iff. apply id16_norm with (k := k) in Hid.
  unfold policy_ref, PolicyRef.value, id16 in *.
  repeat first [progress cbn [mbind result_bind] | field_step | rewrite Hid | rewrite oid_norm by done].
  done.
Qed.

Lemma kind_of_norm kd k : kind_of (normalize (Unsigned (ObjectKind.code kd))) k = Ok kd.
Proof.
  unfold kind_of. rewrite unsigned_norm. cbn [mbind result_bind].
  by rewrite ObjectKind.try_from_code.
Qed.

Lemma typed_ref_value_norm r k :
  TypedObjectRef.wf r = true →
  typed_ref_value (normalize (TypedObjectRef.value r)) k = Ok r.
Proof.
  intros Hr. unfold typed_ref_value, TypedObjectRef.value.
  repeat first [progress cbn [mbind result_bind] | field_step | rewrite kind_of_norm
               | rewrite oid_norm by done].
  by destruct r.
Qed.

Lemma typed_ref_kind_value v k :
  typed_ref_kind v k = TypedObjectRef.kind <$> typed_ref_value v k.
Proof.
  unfold typed_ref_kind, typed_ref_value.
  repeat (case_match || destruct (exact_map _ _ _ _) || destruct (field _ _)
    || destruct (kind_of _ _) || destruct (oid _ _) || cbn); done.
Qed.

Lemma typed_ref_kind_norm r k :
  TypedObjectRef.wf r = true →
  typed_ref_kind (normalize (TypedObjectRef.value r)) k = Ok (TypedObjectRef.kind r).
Proof. intros Hr. by rewrite typed_ref_kind_value, typed_ref_value_norm. Qed.

Lemma typed_ref_norm r k :
  TypedObjectRef.wf r = true → typed_ref (normalize (TypedObjectRef.value r)) k = Ok tt.
Proof. intros Hr. unfold typed_ref. by rewrite typed_ref_kind_norm. Qed.

Lemma wall_time_norm t k : wall_time (normalize (WallTime.value t)) k = Ok tt.
Proof.
  unfold wall_time, WallTime.value. field_step. cbn [mbind result_bind]. field_step.
  cbn [mbind result_bind try_for_each]. repeat field_step. cbn.
  by destruct (0 <=? _), (0 <=? _).
Qed.

Lemma all_zero_replicate b : all_zero b = true ↔ b = replicate (length b) 0.
Proof.
  unfold all_zero. induction b as [|x b IH]; cbn [forallb length replicate]; [done|].
  rewrite andb_true_iff, IH, Z.eqb_eq. split; [intros [<- <-]|intros [= <- <-]]; done.
Qed.

Lemma not_all_zero n b :
  len b = Z.of_nat n → bool_decide (b = replicate n 0) = false → all_zero b = false.
Proof.
  intros Hl Hb%bool_decide_eq_false. apply not_true_iff_false. intros Hz%all_zero_replicate.
  destruct Hb. unfold len in Hl. by replace n with (length b) by lia.
Qed.

Lemma signature_norm s k :
  Signature.wf s = true →
  signature (normalize (Signature.value s)) k (Signature.purpose s) = Ok tt.
Proof.
  unfold Signature.wf. rewrite !andb_true_iff, !negb_true_iff.
  intros ((((Hs & [Hk _]%is_array_spec) & [Hb _]%is_array_spec) & Hk0) & Hb0).
  apply (not_all_zero 32) in Hk0; [|done]. apply (not_all_zero 64) in Hb0; [|done].
  apply id16_norm with (k := k) in Hs. unfold id16 in Hs.
  unfold signature, Signature.value.
  repeat first [progress cbn [mbind result_bind] | field_step | rewrite Hs
    | rewrite fixed_bytes_norm by done | rewrite unsigned_norm | rewrite bytes_norm
    | rewrite Hk0 | rewrite Hb0].
  destruct (Signature.algorithm s). cbn [SignatureAlgorithm.code SignatureAlgorithm.try_from map_err].
  rewrite SignaturePurpose.try_from_purpose. cbn [map_err mbind result_bind].
  by rewrite bool_decide_true.
Qed.

(** Evaluates the checks of a shape on literal maps, with the hypotheses at hand. *)
Ltac shape_step :=
  first [ progress cbn [mbind result_bind map_err ok_or fmap option_fmap option_map result_fmap
                        try_for_each]
        | field_step
        | rewrite unsigned_norm | rewrite bytes_norm | rewrite text_norm | rewrite array_norm
        | rewrite bytes_id_norm | rewrite wall_time_norm
        | rewrite oid_norm by done | rewrite id16_norm by done
        | rewrite stable_bytes_norm by done | rewrite policy_ref_norm by done
        | rewrite typed_ref_norm by done | rewrite typed_ref_kind_norm by done
        | rewrite typed_ref_value_norm by done ].
Ltac shape := repeat shape_step; rewrite ?is_Some_bool in *; cbn [fmap option_fmap option_map] in *.

Lemma forallb_elem {A} (f : A → bool) l x : forallb f l = true → x ∈ l → f x = true.
Proof. rewrite forallb_Forall, Forall_forall. auto. Qed.

Lemma oid_values_norm ids k :
  forallb oid_ok ids = true → oid_values (normalize (Types.oid_array ids)) k = Ok ids.
Proof.
  intros Hids. unfold oid_values, Types.oid_array. rewrite array_norm. cbn [mbind result_bind].
  rewrite map_map. apply try_map_Ok. apply Forall2_fmap_l, Forall_Forall2_diag.
  apply forallb_Forall in Hids. eapply Forall_impl; [exact Hids|].
  intros id Hid. by apply oid_norm.
Qed.

Lemma oid_array_norm ids k :
  forallb oid_ok ids = true → oid_array (normalize (Types.oid_array ids)) k = Ok tt.
Proof.
  intros Hids. unfold oid_array, Types.oid_array. rewrite array_norm. cbn [mbind result_bind].
  apply try_for_each_Ok. rewrite map_map. apply Forall_fmap.
  apply forallb_Forall in Hids. eapply Forall_impl; [exact Hids|].
  intros id Hid. unfold compose. by rewrite oid_norm.
Qed.

Lemma any_repeated_false before ids :
  NoDup before → any_repeated before ids = false ↔ NoDup (before ++ ids).
Proof.
  revert before. induction ids as [|id ids IH]; intros before Hb; cbn [any_repeated].
  { by rewrite app_nil_r. }
  rewrite orb_false_iff, bool_decide_eq_false. rewrite (cons_middle id before ids), app_assoc.
  split.
  - intros [Hid Hr]. apply IH; [|done]. apply NoDup_app.
    split_and!; [done|set_solver|apply NoDup_singleton].
  - intros Hnd. assert (NoDup (before ++ [id])) as Hbi by by apply NoDup_app in Hnd as [? _].
    split; [|by apply IH]. apply NoDup_app in Hbi as (_ & Hd & _). set_solver.
Qed.

Lemma all_unique_spec {A} `{OrdLaws A} (l : list A) : all_unique l = true ↔ NoDup l.
Proof.
  unfold all_unique, len. rewrite Z.eqb_eq, <-set_of_list_length. lia.
Qed.

Lemma ensure_unique_ids_Ok ids k : ensure_unique_ids ids k = Ok tt ↔ NoDup ids.
Proof.
  unfold ensure_unique_ids. rewrite bail_Ok, any_repeated_false by constructor. naive_solver.
Qed.

Lemma ensure_unique_of ids k : all_unique ids = true → ensure_unique_ids ids k = Ok tt.
Proof. rewrite all_unique_spec. by apply ensure_unique_ids_Ok. Qed.

Lemma line_advance_norm `{Unicode} d k :
  LineAdvanceDeclaration.wf d = true → LineAdvanceDeclaration.validate d = Ok tt →
  line_advance (normalize (LineAdvanceDeclaration.value d)) k
  = Ok (LineAdvanceDeclaration.line_id d).
Proof.
  unfold LineAdvanceDeclaration.wf, LineAdvanceDeclaration.validate.
  intros Hwf Hv. split_andb. inv_ok. unfold line_advance, LineAdvanceDeclaration.value.
  destruct (LineAdvanceDeclaration.previous_state d) as [prev|];
    cbn [fmap option_fmap option_map optional app opt_ok] in *; shape; rewrite Hb; by shape.
Qed.

Lemma reference_key_norm key k :
  ReferenceKey.wf key = true → reference_key (normalize (ReferenceKey.value key)) k = Ok key.
Proof.
  unfold ReferenceKey.wf, reference_key, ReferenceKey.value.
  destruct key; cbn [ReferenceKey.stable_id ReferenceKey.kind_code app]; intros Hid;
    shape; cbn [Z.eqb Pos.eqb]; by shape.
Qed.

(** ** Values in range *)

Create HintDb vok.

Lemma value_ok_map es : value_ok (Map es) = forallb (λ e, is_u64 e.1 && value_ok e.2) es.
Proof. done. Qed.

Lemma id_value_ok id : id_ok id = true → value_ok (id_value id) = true.
Proof. by intros [_ ?]%is_array_spec. Qed.

Lemma value_ok_array {A} (f : A → Value) (wf : A → bool) l :
  (∀ x, x ∈ l → wf x = true → value_ok (f x) = true) → forallb wf l = true →
  value_ok (Array (map f l)) = true.
Proof.
  intros Hf Hl. cbn. apply forallb_Forall, Forall_fmap. apply forallb_Forall in Hl.
  rewrite Forall_forall in Hl |- *. intros x Hx. apply Hf; auto.
Qed.

Lemma oid_array_value_ok ids : forallb oid_ok ids = true → value_ok (Types.oid_array ids) = true.
Proof. apply value_ok_array. eauto using oid_value_ok. Qed.

#[export] Hint Resolve id_value_ok oid_value_ok oid_array_value_ok : vok.
#[export] Hint Resolve kind_u64 purpose_u64 : vok.
#[export] Hint Extern 1 (is_u64 _ = true) => reflexivity : vok.
#[export] Hint Extern 2 (value_ok _ = true) => assumption : vok.

(** Splits a literal map into its entries. *)
Ltac value_ok_lit :=
  rewrite ?value_ok_map; cbn [forallb fst snd app];
  goal_andb; eauto with vok.

Lemma policy_ref_value_ok p : PolicyRef.wf p = true → value_ok (PolicyRef.value p) = true.
Proof. unfold PolicyRef.wf, PolicyRef.value. intros. split_andb. value_ok_lit. Qed.

Lemma typed_ref_value_ok r : TypedObjectRef.wf r = true → value_ok (TypedObjectRef.value r) = true.
Proof.
  unfold TypedObjectRef.wf, TypedObjectRef.value. intros. value_ok_lit.
Qed.

Lemma wall_time_value_ok t : WallTime.wf t = true → value_ok (WallTime.value t) = true.
Proof. unfold WallTime.wf, WallTime.value. intros. split_andb. value_ok_lit. Qed.

Lemma signature_value_ok s : Signature.wf s = true → value_ok (Signature.value s) = true.
Proof.
  unfold Signature.wf, Signature.value. intros. split_andb.
  destruct (Signature.algorithm s). value_ok_lit.
  - match goal with H : is_array 32 _ = true |- _ => by apply is_array_spec in H as [_ ?] end.
  - match goal with H : is_array 64 _ = true |- _ => by apply is_array_spec in H as [_ ?] end.
Qed.

Lemma signatures_value_ok l :
  forallb Signature.wf l = true → value_ok (Array (map Signature.value l)) = true.
Proof. apply value_ok_array. eauto using signature_value_ok. Qed.

#[export] Hint Resolve policy_ref_value_ok typed_ref_value_ok wall_time_value_ok
  signature_value_ok signatures_value_ok : vok.
