(* ===== verification/SignatureOrder.v ===== *)
(** * Signature sets

    The encoder sorts signatures by the derived order of their fields; the decoder
    requires their canonical encodings to increase strictly.  Both agree, because the
    encoding is a concatenation of fixed-width fields in declaration order. *)

From S2P Require Import Prelude Machine Order Utf8 Canonical CanonicalFacts ObjectId Types Path Objects Fields Decode DecodeFacts.
From Stdlib Require Import Sorting.Sorted.
Import Fields DecodeObjectError.

Lemma list_cmp_app {A} `{OrdLaws A} (a a' b b' : list A) :
  length a = length a' →
  cmp (a ++ b) (a' ++ b') = match cmp a a' with Eq => cmp b b' | c => c end.
Proof.
  revert a'. induction a as [|x a IH]; intros [|x' a']; [done..|]. intros [= Hl].
  change (cmp ((x :: a) ++ b) ((x' :: a') ++ b'))
    with (match cmp x x' with Eq => cmp (a ++ b) (a' ++ b') | c => c end).
  change (cmp (x :: a) (x' :: a')) with (match cmp x x' with Eq => cmp a a' | c => c end).
  rewrite (IH a' Hl). by destruct (cmp x x').
Qed.

Lemma list_cmp_app_same {A} `{OrdLaws A} (a b b' : list A) : cmp (a ++ b) (a ++ b') = cmp b b'.
Proof. by rewrite list_cmp_app, cmp_refl. Qed.

(** The bytes of a signature's encoding. *)
Definition signature_bytes (s : Signature.t) : list Z :=
  [0xa5; 0x00; 0x00; 0x01; 0x50] ++ Signature.signer s
  ++ [0x02; 0x58; 0x20] ++ Signature.signing_key_id s
  ++ [0x03; 0x58; 0x40] ++ Signature.bytes s
  ++ [0x04; SignaturePurpose.code (Signature.purpose s)].

Lemma signature_wf_lens s :
  Signature.wf s = true →
  len (Signature.signer s) = 16 ∧ len (Signature.signing_key_id s) = 32 ∧
  len (Signature.bytes s) = 64.
Proof.
  unfold Signature.wf. intros. split_andb.
  repeat match goal with H : is_array _ _ = true |- _ => apply is_array_spec in H as [? _] end.
  match goal with H : id_ok _ = true |- _ => apply is_array_spec in H as [? _] end. done.
Qed.

Lemma signature_raw s :
  Signature.wf s = true → raw (Signature.value s) = signature_bytes s.
Proof.
  intros (H1 & H2 & H3)%signature_wf_lens. unfold Signature.value, signature_bytes, id_value.
  rewrite raw_map.
  change (sort_by_key fst ?l) with l. cbn [flat_map fst snd raw]. rewrite H1, H2, H3.
  destruct (Signature.algorithm s), (Signature.purpose s); by cbn.
Qed.

Lemma signature_bytes_cmp s t :
  Signature.wf s = true → Signature.wf t = true →
  cmp (signature_bytes s) (signature_bytes t) = cmp s t.
Proof.
  intros (H1 & H2 & H3)%signature_wf_lens (H1' & H2' & H3')%signature_wf_lens.
  unfold len in *. unfold signature_bytes. rewrite !list_cmp_app_same.
  rewrite (list_cmp_app (Signature.signer s)), !list_cmp_app_same,
    (list_cmp_app (Signature.signing_key_id s)), !list_cmp_app_same,
    (list_cmp_app (Signature.bytes s)) by lia.
  change (cmp s t) with (cmp (Signature.ord_key s) (Signature.ord_key t)).
  unfold Signature.ord_key. rewrite !pair_cmp. cbn [fst snd].
  destruct (Signature.algorithm s), (Signature.algorithm t).
  rewrite cmp_refl.
  do 3 match goal with
  | |- match ?c with _ => _ end = match ?d with _ => _ end =>
      change d with c; destruct c; [|done..]
  end.
  change (cmp [0x04; ?a] [0x04; ?b]) with (match cmp a b with Eq => Eq | c => c end).
  by destruct (cmp (SignaturePurpose.code (Signature.purpose s)) _).
Qed.

Lemma any_window_geb_map {A B} `{Ord A, Ord B} (f : A → B) l :
  (∀ x y, x ∈ l → y ∈ l → cmp (f x) (f y) = cmp x y) →
  any_window_geb (map f l) = any_window_geb l.
Proof.
  intros Hf. induction l as [|x [|y l] IH]; [done..|].
  change (geb (f x) (f y) || any_window_geb (map f (y :: l)) = geb x y || any_window_geb (y :: l)).
  rewrite IH by (intros; apply Hf; by right). f_equal.
  unfold geb, ltb. by rewrite Hf by set_solver.
Qed.

Lemma signature_encode `{Unicode} s :
  Signature.wf s = true →
  encode (normalize (Signature.value s)) = Ok (signature_bytes s).
Proof.
  intros Hwf. pose proof (signature_wf_lens s Hwf) as (H1 & H2 & H3).
  apply encode_with_limits_Ok; [done| |].
  { by apply value_ok_normalize, signature_value_ok. }
  rewrite fits_normalize, raw_normalize. split_and!.
  - unfold Signature.value, id_value. cbn [fits fst snd map forallb]. rewrite H1, H2, H3.
    apply andb_true_iff. split; [done|]. apply andb_true_iff. split; [|done].
    apply andb_true_iff. split; [done|]. apply bool_decide_eq_true. nodup_keys.
  - symmetry. by apply signature_raw.
  - unfold signature_bytes. rewrite !len_app, H1, H2, H3. done.
Qed.

Lemma signature_purposed s k p :
  Signature.wf s = true → ensure_signature_purpose s p = Ok tt →
  signature (normalize (Signature.value s)) k p = Ok tt.
Proof.
  unfold ensure_signature_purpose. intros Hwf. case_bool_decide; [subst|done].
  intros _. by apply signature_norm.
Qed.

(** The signature checks of the decoder on an accepted signature set. *)
Lemma signature_set_norm `{Unicode} l k p :
  forallb Signature.wf l = true → ensure_signature_set l p = Ok tt →
  map normalize (map Signature.value l) ≠ [] ∧
  try_for_each (λ v, signature v k p) (map normalize (map Signature.value l)) = Ok tt ∧
  ensure_sorted_unique_values (map normalize (map Signature.value l)) k = Ok tt.
Proof.
  intros Hwf Hset. unfold ensure_signature_set in Hset. inv_ok.
  apply bool_decide_eq_false in Hb. destruct x. split_and!.
  - by destruct l.
  - apply try_for_each_Ok. rewrite map_map. apply Forall_fmap, Forall_forall.
    intros s Hs. unfold compose. apply signature_purposed; [by eapply forallb_elem|].
    apply try_for_each_Ok in H0. by eapply Forall_forall in H0.
  - unfold ensure_sorted_unique_values. rewrite map_map.
    replace (try_map encode (map (λ x, normalize (Signature.value x)) l))
      with (@Ok CanonicalError _ (map signature_bytes l)).
    { cbn [map_err mbind result_bind]. rewrite any_window_geb_map; [by rewrite Hb0|].
      intros s t Hs Ht. apply signature_bytes_cmp; by eapply forallb_elem. }
    symmetry. apply try_map_Ok, Forall2_fmap, Forall_Forall2_diag, Forall_forall.
    intros s Hs. apply signature_encode. by eapply forallb_elem.
Qed.
