(* ===== verification/Storable.v ===== *)
(** * The storable-object interface

    What a typed object promises to the decoder: its canonical map has distinct field
    numbers, in-range values and a supported header, and a validated object passes the
    decoder's field and shape checks.  Against this interface, encoding followed by
    decoding, and by decoding against the computed identifier, always succeeds. *)

From S2P Require Import Prelude Machine Order Utf8 Canonical CanonicalFacts ObjectId Types Path Objects Fields Decode DecodeFacts.
Import Fields DecodeObjectError.

(** The range of a type's values and its canonical map. *)
Class ObjectModel (T : Type) := {
  object_wf : T → bool;
  object_map : T → fields }.

Class Storable `{Unicode} (T : Type) `{CanonicalObject T, ObjectModel T} : Prop := {
  storable_value o : canonical_value o = Ok (Map (object_map o));
  storable_keys o : NoDup (map fst (object_map o));
  storable_value_ok o : object_wf o = true → value_ok (Map (object_map o)) = true;
  storable_kind o : optional_field (object_map o) 0 = Some (Unsigned (ObjectKind.code (KIND T)));
  storable_schema o : optional_field (object_map o) 1 = Some (Unsigned (SCHEMA_VERSION T));
  storable_supported : ObjectKind.supports_schema (KIND T) (SCHEMA_VERSION T) = true;
  storable_fields o : object_wf o = true → validate_object o = Ok tt →
    validate_fields (KIND T) (SCHEMA_VERSION T) (norm_fields (object_map o)) = Ok tt }.

Lemma kind_limits_ok kind : limits_ok (kind_limits kind).
Proof. unfold limits_ok. by destruct kind. Qed.

Lemma bulk_limits_ok : limits_ok bulk.
Proof. done. Qed.

(** The kind's own profile is within the bulk profile. *)
Lemma kind_limits_bulk kind : restricted_by (kind_limits kind) bulk = kind_limits kind.
Proof. by destruct kind. Qed.

Lemma kind_fits_bulk `{Unicode} kind depth v :
  fits (kind_limits kind) depth v = true → fits bulk depth v = true.
Proof.
  rewrite <-kind_limits_bulk, fits_restricted. by intros [_ ?]%andb_true_iff.
Qed.

Lemma kind_max_bytes kind : max_bytes (kind_limits kind) ≤ max_bytes bulk.
Proof. by destruct kind. Qed.

Section storable.
Context {T : Type} `{Storable T}.
Implicit Types o : T.

(** The decoded form of a typed object. *)
Definition stored o : AnyObject.t :=
  AnyObject.of_kind (KIND T)
    (mk_decoded (KIND T) (SCHEMA_VERSION T) (normalize (Map (object_map o)))).

Lemma encode_object_Ok o limits bytes :
  limits_ok limits → object_wf o = true →
  encode_object_with_limits o limits = Ok bytes ↔
  validate_object o = Ok tt ∧ fits limits 0 (Map (object_map o)) = true ∧
  bytes = raw (Map (object_map o)) ∧ len bytes ≤ max_bytes limits.
Proof.
  intros Hl Hwf. unfold encode_object_with_limits. rewrite storable_value, bind_Ok.
  cbn [mbind result_bind]. setoid_rewrite map_err_Ok.
  setoid_rewrite encode_with_limits_Ok; [|done|by apply storable_value_ok].
  split; [intros ([] & ?); naive_solver|]. intros (Hv & ?). by exists tt.
Qed.

Lemma stored_decode o limits bytes :
  limits_ok limits → object_wf o = true →
  encode_object_with_limits o (restricted_by limits (canonical_limits T)) = Ok bytes →
  AnyObject.decode bytes limits = Ok (stored o).
Proof.
  intros Hl Hwf Henc. unfold canonical_limits in Henc.
  pose proof (kind_limits_ok (KIND T)) as Hkl.
  assert (limits_ok (restricted_by limits (kind_limits (KIND T)))) as Hrl
    by by apply restricted_ok.
  apply encode_object_Ok in Henc as (Hval & Hfit & -> & Hlen); [|done..].
  pose proof (storable_value_ok o Hwf) as Hok.
  pose proof Hfit as Hfit0. rewrite fits_restricted in Hfit0.
  apply andb_true_iff in Hfit0 as [Hf1 Hf2].
  pose proof Hlen as Hlen0. apply restricted_max_bytes in Hlen0 as [Hl1 Hl2].
  pose proof (kind_max_bytes (KIND T)).
  assert (decode_canonical (raw (Map (object_map o))) (restricted_by limits bulk)
          = Ok (normalize (Map (object_map o)))) as Hdec.
  { apply decode_canonical_Ok; [by apply raw_is_bytes|by apply restricted_ok|].
    assert (fits (restricted_by limits bulk) 0 (Map (object_map o)) = true).
    { by rewrite fits_restricted, Hf1, (kind_fits_bulk (KIND T)). }
    rewrite fits_normalize, raw_normalize. split_and!; try done.
    - by eapply normal_normalize.
    - by apply value_ok_normalize.
    - apply restricted_max_bytes. lia. }
  unfold AnyObject.decode. rewrite Hdec. rewrite normalize_map.
  cbn [map_err mbind result_bind as_map].
  rewrite (field_norm _ 0 _ (storable_keys o) (storable_kind o)).
  cbn [mbind result_bind normalize unsigned]. rewrite ObjectKind.try_from_code.
  cbn [map_err mbind result_bind].
  rewrite (field_norm _ 1 _ (storable_keys o) (storable_schema o)).
  cbn [mbind result_bind normalize unsigned]. rewrite storable_supported. cbn [negb].
  rewrite <-normalize_map.
  replace (encode_with_limits (normalize (Map (object_map o)))
             (restricted_by limits (kind_limits (KIND T))))
    with (@Ok CanonicalError _ (raw (Map (object_map o)))).
  { cbn [map_err mbind result_bind]. by rewrite storable_fields. }
  symmetry. apply encode_with_limits_Ok; [done|by apply value_ok_normalize|].
  by rewrite fits_normalize, raw_normalize.
Qed.

Lemma stored_id `{Digests} o algorithm id :
  object_wf o = true → object_id o algorithm = Ok id →
  AnyObject.id (stored o) algorithm = Ok id.
Proof.
  intros Hwf Hid. unfold object_id, encode_object in Hid.
  apply bind_Ok in Hid as (bytes & Henc & [= <-]). apply encode_object_Ok in Henc as (_ & Hfit & -> & Hlen); [|apply kind_limits_ok|done].
  unfold AnyObject.id, stored. rewrite AnyObject.decoded_of_kind. cbn [kind value schema_version].
  apply bind_Ok. exists (raw (Map (object_map o))). split; [|done].
  apply map_err_Ok, encode_with_limits_Ok; [apply kind_limits_ok| |].
  - by apply value_ok_normalize, storable_value_ok.
  - by rewrite fits_normalize, raw_normalize.
Qed.
End storable.

(** ** Discharging the interface for literal maps *)

Lemma validate_fields_norm `{Unicode} kind schema es :
  NoDup (map fst es) →
  keys_match (field_sets kind).1 (field_sets kind).2 (map fst es) = true →
  (has_field es 2 = true → ∀ v, optional_field es 2 = Some v → policy_ref (normalize v) 2 = Ok tt) →
  (policy_optional kind = false → has_field es 2 = true) →
  validate_shapes kind schema (norm_fields es) = Ok tt →
  validate_fields kind schema (norm_fields es) = Ok tt.
Proof.
  intros Hnd Hkeys Hpol Hopt Hshape. unfold validate_fields.
  destruct (field_sets kind) as [required optional]. cbn [fst snd] in Hkeys.
  unfold keys_match in Hkeys. apply andb_true_iff in Hkeys as [Hreq Hall].
  rewrite negb_true_iff in Hreq, Hall.
  assert (has_field (norm_fields es) 2 = has_field es 2) as Hhas.
  { rewrite !has_field_keys. apply contains_key_perm, norm_keys_perm. }
  replace (try_for_each _ required) with (@Ok derr _ tt).
  2:{ symmetry. apply try_for_each_Ok, Forall_forall. intros k Hk.
      apply (existsb_false_elem _ _ _ Hreq) in Hk. rewrite negb_false_iff in Hk.
      rewrite <-has_field_keys, has_field_optional, bool_decide_eq_true in Hk.
      destruct Hk as [v Hv]. by rewrite (field_norm _ _ _ Hnd Hv). }
  cbn [mbind result_bind].
  replace (try_for_each _ (norm_fields es)) with (@Ok derr _ tt).
  2:{ symmetry. apply try_for_each_Ok, Forall_forall. intros [k v] Hk. cbn [fst].
      assert (k ∈ map fst es) as Hin.
      { rewrite <-norm_keys_perm. apply list_elem_of_fmap. by exists (k, v). }
      apply (existsb_false_elem _ _ _ Hall) in Hin. by rewrite Hin. }
  cbn [mbind result_bind]. rewrite Hhas.
  destruct (negb (policy_optional kind) || has_field es 2) eqn:E; [|done].
  assert (has_field es 2 = true) as H2.
  { apply orb_true_iff in E as [E|E]; [|done]. rewrite negb_true_iff in E. auto. }
  pose proof H2 as H2'. rewrite has_field_optional, bool_decide_eq_true in H2'.
  destruct H2' as [v Hv]. rewrite (field_norm _ _ _ Hnd Hv). cbn [mbind result_bind].
  by rewrite (Hpol H2 v Hv).
Qed.
