(* ===== verification/StoredKinds.v ===== *)
(** * Storable instances of the core object kinds

    Every struct of [Objects] discharges the [Storable] interface: what its [validate]
    accepts is what the decoder's shape check for its kind accepts. *)

From S2P Require Import Prelude Machine Order Utf8 Canonical CanonicalFacts ObjectId Types Path Objects Fields Decode DecodeFacts SignatureOrder Storable.
From Stdlib Require Import Sorting.Sorted.
Import Fields DecodeObjectError.

(** Reduces a canonical map to the literal list of its entries. *)
Ltac literal_map :=
  unfold header, header_version, optional_header, optional in *;
  cbn [app fmap option_fmap option_map opt_ok] in *.

(** The field-set half of [validate_fields] for a literal map. *)
Ltac literal_fields :=
  apply validate_fields_norm;
    [ nodup_keys | reflexivity
    | intros _ v Hv; cbv [optional_field Z.eqb Pos.eqb] in Hv; first [injection Hv as <- | discriminate Hv];
      by apply policy_ref_norm
    | done
    | cbn [validate_shapes] ].

(** Enum codes are in range. *)
#[export] Hint Extern 3 (value_ok (Unsigned (ChangeState.code ?x)) = true) => destruct x; reflexivity : vok.
#[export] Hint Extern 3 (value_ok (Unsigned (ConflictKind.code ?x)) = true) => destruct x; reflexivity : vok.
#[export] Hint Extern 3 (value_ok (Unsigned (MarkerKind.code ?x)) = true) => destruct x; reflexivity : vok.
#[export] Hint Extern 3 (value_ok (Unsigned (PrincipalKind.code ?x)) = true) => destruct x; reflexivity : vok.
#[export] Hint Extern 3 (value_ok (Unsigned (RedactionMode.code ?x)) = true) => destruct x; reflexivity : vok.
#[export] Hint Extern 3 (value_ok (Unsigned (DerivationRule.code ?x)) = true) => destruct x; reflexivity : vok.

(** The shape checks of a kind. *)
Ltac shapes := unfold check, check_optional, check_code, unsigned_field; shape.

(** Discharges every law but the shape checks: [wf] and [map] are the kind's range
    predicate and canonical map, [cases] splits its optional fields. *)
Tactic Notation "laws" reference(wf) reference(map) tactic3(cases) :=
  match goal with
  | |- ∀ o, NoDup _ => intros o; unfold map; cases o; nodup_keys
  | |- ∀ o, _ = true → value_ok _ = true =>
      intros o Hwf; unfold wf in Hwf; split_andb; unfold map; cases o; literal_map; value_ok_lit
  | |- ∀ o, optional_field _ _ = _ => intros o; unfold map; by cases o
  | |- ∀ o, _ → _ → validate_fields ?k ?s _ = _ =>
      let k' := eval hnf in k in let s' := eval cbv in s in change k with k'; change s with s';
      intros o Hwf Hval; unfold wf in Hwf; split_andb; unfold map
  | _ => done
  end.

#[export] Instance chunk_model : ObjectModel Chunk.t := {|
  object_wf := Chunk.wf; object_map := Chunk.canonical_map |}.
#[export] Instance chunk_storable `{Unicode} : Storable Chunk.t.
Proof.
  refine (Build_Storable _ _ _ chunk_model _ _ _ _ _ _ _); cbn [object_wf object_map chunk_model];
    laws Chunk.wf Chunk.canonical_map (fun o => idtac).
  change (Chunk.validate o = Ok tt) in Hval. unfold Chunk.validate in Hval. inv_ok. literal_map. literal_fields.
  unfold Shapes.chunk. shapes. by rewrite Hb.
Qed.

#[export] Instance subproject_model : ObjectModel Subproject.t := {|
  object_wf := Subproject.wf; object_map := Subproject.canonical_map |}.
#[export] Instance subproject_storable `{Unicode} : Storable Subproject.t.
Proof.
  refine (Build_Storable _ _ _ subproject_model _ _ _ _ _ _ _); cbn [object_wf object_map subproject_model];
    laws Subproject.wf Subproject.canonical_map
    (fun o => destruct (Subproject.native_projection o)).
  destruct (Subproject.native_projection o); literal_map; literal_fields;
    unfold Shapes.subproject; by shapes.
Qed.

#[export] Instance secret_ref_model : ObjectModel SecretRef.t := {|
  object_wf := SecretRef.wf; object_map := SecretRef.canonical_map |}.
#[export] Instance secret_ref_storable `{Unicode} : Storable SecretRef.t.
Proof.
  refine (Build_Storable _ _ _ secret_ref_model _ _ _ _ _ _ _); cbn [object_wf object_map secret_ref_model];
    laws SecretRef.wf SecretRef.canonical_map
    (fun o => destruct (SecretRef.exact_version o), (SecretRef.encrypted_development_value o)).
  destruct (SecretRef.exact_version o), (SecretRef.encrypted_development_value o);
    literal_map; literal_fields; unfold Shapes.secret_ref; by shapes.
Qed.

#[export] Instance snapshot_model : ObjectModel Snapshot.t := {|
  object_wf := Snapshot.wf; object_map := Snapshot.canonical_map |}.
#[export] Instance snapshot_storable `{Unicode} : Storable Snapshot.t.
Proof.
  refine (Build_Storable _ _ _ snapshot_model _ _ _ _ _ _ _); cbn [object_wf object_map snapshot_model];
    laws Snapshot.wf Snapshot.canonical_map (fun o => destruct (Snapshot.message_blob o)).
  change (Snapshot.validate o = Ok tt) in Hval. unfold Snapshot.validate in Hval. destruct (all_unique _) eqn:Hu; [|done].
  apply (ensure_unique_of _ 4) in Hu.
  destruct (Snapshot.message_blob o); literal_map; literal_fields;
    unfold Shapes.snapshot; shapes; rewrite oid_values_norm by done; shape; rewrite Hu; by shapes.
Qed.

#[export] Instance change_revision_model : ObjectModel ChangeRevision.t := {|
  object_wf := ChangeRevision.wf; object_map := ChangeRevision.canonical_map |}.
#[export] Instance change_revision_storable `{Unicode} : Storable ChangeRevision.t.
Proof.
  refine (Build_Storable _ _ _ change_revision_model _ _ _ _ _ _ _); cbn [object_wf object_map change_revision_model];
    laws ChangeRevision.wf ChangeRevision.canonical_map
    (fun o => destruct (ChangeRevision.previous_revision o)).
  destruct (ChangeRevision.previous_revision o), (ChangeRevision.state o);
    literal_map; literal_fields; unfold Shapes.change_revision; by shapes.
Qed.

#[export] Instance line_state_model : ObjectModel LineState.t := {|
  object_wf := LineState.wf; object_map := LineState.canonical_map |}.
#[export] Instance line_state_storable `{Unicode} : Storable LineState.t.
Proof.
  refine (Build_Storable _ _ _ line_state_model _ _ _ _ _ _ _); cbn [object_wf object_map line_state_model];
    laws LineState.wf LineState.canonical_map
    (fun o => unfold LineState.unsigned_map; destruct (LineState.previous_state o)).
  change (LineState.validate o = Ok tt) in Hval. unfold LineState.validate in Hval. inv_ok.
  unfold LineState.unsigned_map. destruct (LineState.previous_state o);
    literal_map; literal_fields; unfold Shapes.line_state; shapes;
    rewrite Hb; by apply signature_purposed.
Qed.

#[export] Instance marker_model : ObjectModel Marker.t := {|
  object_wf := Marker.wf; object_map := Marker.canonical_map |}.
#[export] Instance marker_storable `{Unicode} : Storable Marker.t.
Proof.
  refine (Build_Storable _ _ _ marker_model _ _ _ _ _ _ _); cbn [object_wf object_map marker_model];
    laws Marker.wf Marker.canonical_map (fun o => unfold Marker.unsigned_map).
  change (Marker.validate o = Ok tt) in Hval. unfold Marker.validate in Hval.
  unfold Marker.unsigned_map. literal_map. literal_fields. unfold Shapes.marker. shapes.
  destruct (Marker.marker_kind o); cbn [MarkerKind.code Z.ltb Z.compare Pos.compare Pos.compare_cont];
    shapes; by apply signature_purposed.
Qed.

#[export] Instance release_model : ObjectModel Release.t := {|
  object_wf := Release.wf; object_map := Release.canonical_map |}.
#[export] Instance release_storable `{Unicode} : Storable Release.t.
Proof.
  refine (Build_Storable _ _ _ release_model _ _ _ _ _ _ _); cbn [object_wf object_map release_model];
    laws Release.wf Release.canonical_map
      (fun o => unfold Release.unsigned_map; destruct (Release.release_notes_blob o)).
  change (Release.validate o = Ok tt) in Hval. unfold Release.validate in Hval.
  apply bind_Ok in Hval as (_ & _ & Hset).
  apply (signature_set_norm _ 16) in Hset as (Hne & Heach & Hsorted); [|done].
  unfold Release.unsigned_map. destruct (Release.release_notes_blob o);
    literal_map; literal_fields; unfold Shapes.release; shapes;
    rewrite !oid_array_norm by done; shape; rewrite bool_decide_false, Heach by done; exact Hsorted.
Qed.

(** ** Blobs *)

Lemma count_keys_norm (f : Z → bool) es :
  length (List.filter (λ e, f e.1) (norm_fields es)) = length (List.filter f (map fst es)).
Proof.
  assert (∀ l k : fields, l ≡ₚ k →
    length (List.filter (λ e, f e.1) l) = length (List.filter (λ e, f e.1) k)) as Hperm.
  { induction 1 as [|x l k _ IH|x y l|l k m _ IH1 _ IH2]; cbn;
      [done|by case_match; cbn; rewrite IH|by repeat case_match|by rewrite IH1]. }
  rewrite (Hperm _ _ (norm_fields_perm es)).
  induction es as [|e es IH]; cbn; [done|]. by case_match; cbn; rewrite IH.
Qed.

Lemma blob_chunks_norm chunks sum total :
  forallb ChunkRef.wf chunks = true →
  existsb (λ c, (ChunkRef.plaintext_length c =? 0)
                || (FASTCDC_V0_MAX_SIZE <? ChunkRef.plaintext_length c)) chunks = false →
  Blob.checked_sum sum chunks = Some total →
  try_fold Shapes.blob_chunk (map normalize (map ChunkRef.value chunks)) sum = Ok total.
Proof.
  revert sum. induction chunks as [|c chunks IH]; intros sum Hwf Hlen Hsum.
  { by injection Hsum as <-. }
  cbn [forallb existsb Blob.checked_sum map try_fold] in *. split_andb.
  apply orb_false_iff in Hlen as [Hc Hlen].
  destruct (checked_add sum (ChunkRef.plaintext_length c)) as [sum'|] eqn:Hadd; [|done].
  replace (Shapes.blob_chunk sum (normalize (ChunkRef.value c))) with (@Ok derr _ sum').
  { cbn [mbind result_bind]. by apply IH. }
  unfold ChunkRef.wf in *. split_andb. unfold Shapes.blob_chunk, ChunkRef.value.
  shape. by rewrite Hc, Hadd.
Qed.

#[export] Hint Extern 3 (value_ok (Types.text _) = true) => assumption : vok.

Lemma chunk_refs_value_ok l :
  forallb ChunkRef.wf l = true → value_ok (Array (map ChunkRef.value l)) = true.
Proof.
  apply value_ok_array. intros c _ Hc. unfold ChunkRef.wf, ChunkRef.value in *. split_andb.
  value_ok_lit.
Qed.

Lemma chunk_profile_value_ok p : ChunkProfile.wf p = true → value_ok (ChunkProfile.value p) = true.
Proof.
  unfold ChunkProfile.wf, ChunkProfile.value. intros. split_andb.
  destruct (ChunkProfile.algorithm p). value_ok_lit.
Qed.
#[export] Hint Resolve chunk_refs_value_ok chunk_profile_value_ok : vok.

Lemma blob_inline_shape `{Unicode} o bs :
  Blob.wf o = true → Blob.content o = BlobContent.Inline bs → Blob.validate o = Ok tt →
  validate_fields ObjectKind.Blob 0 (norm_fields (Blob.canonical_map o)) = Ok tt.
Proof.
  unfold Blob.wf, Blob.validate, Blob.canonical_map. intros Hwf Hc Hval. rewrite Hc in *. split_andb.
  apply bind_Ok in Hval as (_ & _ & Hval).
  apply bail_Ok in Hval as [Hp Hval]. rewrite is_Some_bool in Hp.
  destruct (Blob.chunk_profile o); [done|]. inv_ok.
  destruct (Blob.content_hint o); literal_map; literal_fields; unfold Shapes.blob; shapes;
    rewrite (count_keys_norm (λ k, (k =? 4) || (k =? 5)));
    cbn [map fst List.filter Z.eqb Pos.eqb orb length Nat.eqb negb];
    by rewrite Hb, Hb0.
Qed.

Lemma blob_chunked_shape `{Unicode} o chunks :
  Blob.wf o = true → Blob.content o = BlobContent.Chunks chunks → Blob.validate o = Ok tt →
  validate_fields ObjectKind.Blob 0 (norm_fields (Blob.canonical_map o)) = Ok tt.
Proof.
  unfold Blob.wf, Blob.validate, Blob.canonical_map. intros Hwf Hc Hval. rewrite Hc in *. split_andb.
  apply bind_Ok in Hval as (_ & _ & Hval).
  apply bail_Ok in Hval as [Hp Hval]. rewrite is_Some_bool in Hp.
  unfold Blob.chunks_mismatch in Hval.
  destruct (Blob.chunk_profile o) as [p|]; [|done]. apply bail_Ok in Hval as [Hlen Hval].
  apply bail_Ok in Hval as [Hmis Hprof]. unfold ChunkProfile.validate in Hprof. inv_ok.
  apply negb_false_iff, bool_decide_eq_true in Hb as ->.
  apply orb_false_iff in Hmis as [[Hne Hbound]%orb_false_iff Hsum].
  cbn [ChunkProfile.max_size ChunkProfile.fastcdc_v0] in Hbound.
  destruct (Blob.checked_sum 0 chunks) as [total|] eqn:Hcs; [|done].
  apply negb_false_iff, Z.eqb_eq in Hsum as ->. apply bool_decide_eq_false in Hne.
  apply blob_chunks_norm in Hcs; [|done..].
  assert (bool_decide (map normalize (map ChunkRef.value chunks) = []) = false) as Hne'.
  { apply bool_decide_eq_false. by destruct chunks. }
  destruct (Blob.content_hint o); literal_map; literal_fields; unfold Shapes.blob; shapes;
    rewrite (count_keys_norm (λ k, (k =? 4) || (k =? 5)));
    cbn [map fst List.filter Z.eqb Pos.eqb orb length Nat.eqb negb];
    rewrite Hlen, Hne', Hcs; cbn [mbind result_bind]; rewrite Z.eqb_refl; cbn [negb];
    unfold ChunkProfile.value; by shape.
Qed.

Lemma blob_fields `{Unicode} o :
  Blob.wf o = true → Blob.validate o = Ok tt →
  validate_fields ObjectKind.Blob 0 (norm_fields (Blob.canonical_map o)) = Ok tt.
Proof.
  destruct (Blob.content o) eqn:Hc; eauto using blob_inline_shape, blob_chunked_shape.
Qed.

#[export] Instance blob_model : ObjectModel Blob.t := {|
  object_wf := Blob.wf; object_map := Blob.canonical_map |}.
#[export] Instance blob_storable `{Unicode} : Storable Blob.t.
Proof.
  refine (Build_Storable _ _ Blob.object blob_model _ _ _ _ _ _ blob_fields); cbn [object_wf object_map blob_model];
    laws Blob.wf Blob.canonical_map
      (fun o => destruct (Blob.content o), (Blob.content_hint o), (Blob.chunk_profile o)).
Qed.

(** ** Conflicts *)

Lemma conflict_regions_norm l s s' :
  try_fold Conflict.region_step l s = Ok s' →
  try_fold Shapes.conflict_region (map normalize (map ConflictRegion.value l)) s = Ok s'.
Proof.
  rewrite map_map. apply try_fold_sim. intros r st st' _ Hr. unfold Conflict.region_step in Hr.
  inv_ok. unfold Shapes.conflict_region, ConflictRegion.value. shape. by rewrite Hb.
Qed.

Lemma path_norm `{Unicode} path :
  new_path path = Ok path →
  try_map (λ segment, name ← text segment 6; map_err (λ _, Field 6) (new_portable name))
    (map normalize (map Text path)) = Ok path.
Proof.
  intros Hp. rewrite map_map. apply try_map_Ok, Forall2_fmap_l, Forall_Forall2_diag.
  unfold new_path in Hp. apply bind_Ok in Hp as (n & Hp & _).
  eapply (try_fold_inv path_step (λ pre _, Forall _ pre)); [|constructor|exact Hp].
  intros pre seg st st' Hpre _ Hst. apply Forall_app. split; [done|]. constructor; [|done].
  unfold path_step in Hst. apply bind_Ok in Hst as ([] & Hs%ensure_portable_Ok & _).
  cbn. unfold new_portable. by rewrite Hs.
Qed.

Lemma regions_value_ok l :
  forallb ConflictRegion.wf l = true → value_ok (Array (map ConflictRegion.value l)) = true.
Proof.
  apply value_ok_array. intros r _ Hr. unfold ConflictRegion.wf, ConflictRegion.value in *.
  split_andb. value_ok_lit.
Qed.

Lemma path_value_ok p : forallb is_str p = true → value_ok (path_value p) = true.
Proof. apply value_ok_array. done. Qed.
#[export] Hint Resolve regions_value_ok path_value_ok : vok.

#[export] Instance conflict_model `{Unicode} : ObjectModel Conflict.t := {|
  object_wf := Conflict.wf; object_map := Conflict.canonical_map |}.
#[export] Instance conflict_storable `{Unicode} : Storable Conflict.t.
Proof.
  refine (Build_Storable _ _ _ conflict_model _ _ _ _ _ _ _); cbn [object_wf object_map conflict_model];
    laws Conflict.wf Conflict.canonical_map (fun o => idtac).
  change (Conflict.validate o = Ok tt) in Hval. unfold Conflict.validate in Hval.
  apply bind_Ok in Hval as (_ & _ & (s & Hr%conflict_regions_norm & _)%bind_Ok).
  match goal with H : bool_decide _ = true |- _ => apply bool_decide_eq_true in H as Hpath end.
  literal_map. literal_fields. unfold Shapes.conflict, path_value. shapes.
  rewrite path_norm by done. shape. rewrite Hpath. shape.
  destruct (Conflict.conflict_kind o); shape; by rewrite Hr.
Qed.

(** ** Operations *)

Lemma declaration_value_ok d :
  LineAdvanceDeclaration.wf d = true → value_ok (LineAdvanceDeclaration.value d) = true.
Proof.
  unfold LineAdvanceDeclaration.wf, LineAdvanceDeclaration.value. intros. split_andb.
  destruct (LineAdvanceDeclaration.previous_state d); literal_map; value_ok_lit.
Qed.
#[export] Hint Resolve declaration_value_ok : vok.

Lemma actions_value_ok l :
  forallb OperationAction.wf l = true → value_ok (Array (map OperationAction.value l)) = true.
Proof.
  apply value_ok_array. intros [before after|d] _ Ha; cbn [OperationAction.wf] in Ha; split_andb;
    unfold OperationAction.value; [destruct before, after|]; literal_map; value_ok_lit.
Qed.

Lemma reference_key_value_ok k : ReferenceKey.wf k = true → value_ok (ReferenceKey.value k) = true.
Proof.
  unfold ReferenceKey.wf, ReferenceKey.value.
  destruct k; cbn [ReferenceKey.stable_id ReferenceKey.kind_code]; intros; literal_map; value_ok_lit;
    by apply id_value_ok.
Qed.
#[export] Hint Resolve actions_value_ok reference_key_value_ok : vok.

Lemma actions_v1_value_ok l :
  forallb OperationActionV1.wf l = true → value_ok (Array (map OperationActionV1.value l)) = true.
Proof.
  apply value_ok_array. intros [key before after|d] _ Ha; cbn [OperationActionV1.wf] in Ha;
    split_andb; unfold OperationActionV1.value; [destruct before|]; literal_map; value_ok_lit.
Qed.
#[export] Hint Resolve actions_v1_value_ok : vok.

(** A validated schema-0 action passes the decoder's check and adds no key. *)
Lemma action_norm `{Unicode} keys a :
  OperationAction.wf a = true → Operation.validate_action a = Ok tt →
  Shapes.operation_action 0 keys (normalize (OperationAction.value a)) = Ok keys.
Proof.
  unfold Operation.validate_action, Shapes.operation_action, OperationAction.value.
  destruct a as [before after|d]; cbn [OperationAction.wf]; intros Hwf Hval; split_andb.
  - inv_ok. destruct before, after; literal_map; try done; shape; cbn [Z.eqb andb]; shape;
      try done; by rewrite Hb0.
  - shape. cbn [Z.eqb andb orb]. shape. rewrite line_advance_norm by done. by shape.
Qed.

(** Schema-1 actions collect the same reference keys. *)
Lemma action_v1_norm `{Unicode} keys a keys' :
  OperationActionV1.wf a = true → OperationV1.action_step keys a = Ok keys' →
  Shapes.operation_action 1 keys (normalize (OperationActionV1.value a)) = Ok keys'.
Proof.
  unfold OperationV1.action_step, OperationV1.action_key, Shapes.operation_action,
    OperationActionV1.value.
  destruct a as [key before after|d]; cbn [OperationActionV1.wf]; intros Hwf Hval; split_andb.
  - inv_ok. apply orb_false_iff in Hb1 as [Hbef Haft].
    destruct before; literal_map; shape; cbn [Z.eqb Pos.eqb andb orb]; shape;
      rewrite reference_key_norm by done; shape; rewrite Hb0, Hb; cbn [orb]; shape;
      rewrite ?Hbef, ?Haft; by shape; rewrite ?Haft.
  - inv_ok. destruct x0. shape. cbn [Z.eqb Pos.eqb andb orb]. shape.
    rewrite line_advance_norm by done. shape. by rewrite Hb.
Qed.

#[export] Instance operation_model : ObjectModel Operation.t := {|
  object_wf := Operation.wf; object_map := Operation.canonical_map |}.
#[export] Instance operation_storable `{Unicode} : Storable Operation.t.
Proof.
  refine (Build_Storable _ _ _ operation_model _ _ _ _ _ _ _); cbn [object_wf object_map operation_model];
    laws Operation.wf Operation.canonical_map
      (fun o => unfold Operation.unsigned_map;
        destruct (Operation.public_envelope o), (Operation.private_payload o)).
  change (Operation.validate o = Ok tt) in Hval. unfold Operation.validate in Hval. inv_ok.
  apply negb_false_iff, (ensure_unique_of _ 3) in Hb.
  assert (try_fold (Shapes.operation_action 0)
    (map normalize (map OperationAction.value (Operation.actions o))) [] = Ok []) as Hact.
  { rewrite map_map.
    apply (try_fold_sim (λ s a, _ ← Operation.validate_action a; Ok s)).
    - intros a st st' Ha ([] & Hst & [= <-])%bind_Ok. apply action_norm; [|done].
      by eapply forallb_elem.
    - destruct x0. match goal with H : try_for_each _ _ = _ |- _ => revert H end.
      generalize (Operation.actions o). induction l as [|a l IH]; cbn; [done|].
      intros ([] & -> & Hl)%bind_Ok. by apply IH. }
  unfold Operation.unsigned_map.
  destruct (Operation.public_envelope o), (Operation.private_payload o);
    literal_map; literal_fields; unfold Shapes.operation; shapes;
    rewrite oid_values_norm by done; shape; rewrite Hb; shape; rewrite Hact; shape;
    rewrite oid_array_norm by done; shape; by rewrite signature_purposed.
Qed.

#[export] Instance operation_v1_model : ObjectModel OperationV1.t := {|
  object_wf := OperationV1.wf; object_map := OperationV1.canonical_map |}.
#[export] Instance operation_v1_storable `{Unicode} : Storable OperationV1.t.
Proof.
  refine (Build_Storable _ _ _ operation_v1_model _ _ _ _ _ _ _); cbn [object_wf object_map operation_v1_model];
    laws OperationV1.wf OperationV1.canonical_map
      (fun o => unfold OperationV1.unsigned_map;
        destruct (OperationV1.public_envelope o), (OperationV1.private_payload o)).
  change (OperationV1.validate o = Ok tt) in Hval. unfold OperationV1.validate in Hval. inv_ok.
  apply negb_false_iff, (ensure_unique_of _ 3) in Hb.
  match goal with H : try_fold OperationV1.action_step _ _ = Ok ?s |- _ =>
    apply (try_fold_sim _ (Shapes.operation_action 1)
      (λ a, normalize (OperationActionV1.value a))) in H as Hact end.
  2:{ intros a st st' Ha. apply action_v1_norm. by eapply forallb_elem. }
  unfold OperationV1.unsigned_map.
  destruct (OperationV1.public_envelope o), (OperationV1.private_payload o);
    literal_map; literal_fields; unfold Shapes.operation; shapes;
    rewrite oid_values_norm by done; shape; rewrite Hb; shape; rewrite map_map, Hact; shape;
    rewrite oid_array_norm by done; shape; by rewrite signature_purposed.
Qed.

(** ** Policies *)

Lemma principals_value_ok l :
  forallb Principal.wf l = true → value_ok (Array (map Principal.value l)) = true.
Proof.
  apply value_ok_array. intros p _ Hp. unfold Principal.wf, Principal.value in *. value_ok_lit.
Qed.

Lemma capability_u64 c : is_u64 (Capability.code c) = true.
Proof. by destruct c. Qed.

Lemma grants_value_ok l :
  forallb Grant.wf l = true → value_ok (Array (map Grant.value l)) = true.
Proof.
  apply value_ok_array. intros g _ Hg. unfold Grant.wf, Grant.value in *. value_ok_lit.
  eapply (value_ok_array Unsigned is_u64); [done|]. rewrite forallb_sort.
  apply forallb_Forall, Forall_fmap, Forall_forall. intros c _. apply capability_u64.
Qed.

Lemma administrators_value_ok l :
  forallb id_ok l = true → value_ok (Array (map id_value l)) = true.
Proof. apply value_ok_array. intros id _. apply id_value_ok. Qed.
#[export] Hint Resolve principals_value_ok grants_value_ok administrators_value_ok : vok.

Lemma principals_norm l :
  existsb (λ p, bool_decide (Principal.identifier p = [])) l = false →
  try_for_each (λ p, principal p 6) (map normalize (map Principal.value l)) = Ok tt.
Proof.
  intros Hl. rewrite map_map. apply try_for_each_Ok, Forall_fmap, Forall_forall. intros p Hp.
  apply (existsb_false_elem _ _ _ Hl) in Hp. unfold compose, principal, Principal.value. shape.
  destruct (Principal.kind p); shape; by rewrite Hp.
Qed.

(** Strictly increasing capability codes pass the decoder's loop. *)
Lemma capabilities_norm codes previous :
  Forall (λ c, c ≤ 8) codes → StronglySorted lt codes →
  match previous with Some p => Forall (lt p) codes | None => True end →
  ∃ s, try_fold Shapes.policy_capability (map normalize (map Unsigned codes)) previous = Ok s.
Proof.
  intros Hle Hs. revert previous.
  induction Hs as [|c codes Hs IH Hc]; intros previous Hp; [by eexists|].
  apply Forall_cons in Hle as [Hc8 Hle].
  cbn [map try_fold].
  replace (Shapes.policy_capability previous (normalize (Unsigned c))) with (@Ok derr _ (Some c)).
  { cbn [mbind result_bind]. by apply IH. }
  unfold Shapes.policy_capability. cbn [normalize unsigned mbind result_bind].
  replace (8 <? c) with false by (symmetry; apply Z.ltb_ge; lia).
  destruct previous as [p|]; [|done]. apply Forall_cons in Hp as [Hpc _].
  apply (proj1 (Z.compare_lt_iff p c)) in Hpc.
  by replace (c <=? p) with false by (symmetry; apply Z.leb_gt; lia).
Qed.

Lemma grant_norm principals g :
  (len principals <=? Grant.principal_index g) = false →
  all_unique (Grant.capabilities g) = true →
  Shapes.policy_grant principals (normalize (Grant.value g)) = Ok tt.
Proof.
  intros Hi Hu%all_unique_spec. unfold Shapes.policy_grant, Grant.value. shape. rewrite Hi.
  destruct (capabilities_norm (sort_by_key id (map Capability.code (Grant.capabilities g))) None)
    as [s Hs]; [| |done|].
  - rewrite sort_by_key_perm. apply Forall_fmap, Forall_forall. intros c _. by destruct c.
  - apply (sort_by_key_nodup (id : Z → Z)). unfold id. rewrite map_id.
    apply (NoDup_fmap_2 Capability.code), Hu.
  - by rewrite Hs.
Qed.

#[export] Instance policy_model : ObjectModel Policy.t := {|
  object_wf := Policy.wf; object_map := Policy.canonical_map |}.
#[export] Instance policy_storable `{Unicode} : Storable Policy.t.
Proof.
  refine (Build_Storable _ _ _ policy_model _ _ _ _ _ _ _); cbn [object_wf object_map policy_model];
    laws Policy.wf Policy.canonical_map
      (fun o => unfold Policy.unsigned_map;
        destruct (Policy.policy_ref o), (Policy.previous_version o)).
  change (Policy.validate o = Ok tt) in Hval. unfold Policy.validate in Hval.
  apply bind_Ok in Hval as ([] & Hset & Hval). inv_ok.
  apply (signature_set_norm _ 15) in Hset as (Hne & Heach & Hsorted); [|done].
  apply principals_norm in Hb0. rewrite negb_false_iff in Hb3. apply (ensure_unique_of _ 10) in Hb3.
  assert (try_for_each (Shapes.policy_grant (map normalize (map Principal.value (Policy.principals o))))
    (map normalize (map Grant.value (Policy.grants o))) = Ok tt) as Hgrants.
  { rewrite (map_map Grant.value). apply try_for_each_Ok, Forall_fmap, Forall_forall. intros g Hg.
    apply grant_norm.
    - apply (existsb_false_elem _ _ _ Hb1) in Hg. by rewrite !len_map.
    - apply (existsb_false_elem _ _ _ Hb2) in Hg. by rewrite negb_false_iff in Hg. }
  assert (try_for_each (λ a, fixed_bytes a 13 16)
    (map normalize (map id_value (Policy.administrators o))) = Ok tt) as Hadm.
  { rewrite map_map. apply try_for_each_Ok, Forall_fmap, Forall_forall. intros a Ha.
    unfold compose. apply (id16_norm a 13). by eapply forallb_elem. }
  rewrite is_Some_bool in Hb.
  unfold Policy.unsigned_map. destruct (Policy.policy_ref o), (Policy.previous_version o),
      (Policy.redaction_mode o), (Policy.derivation_rule o);
    literal_map; literal_fields; unfold Shapes.policy, check_version_chain; shapes; rewrite Hb; shape;
    rewrite Hb0; shape; rewrite Hgrants; shape; rewrite oid_values_norm by done; shape;
    rewrite Hb3; shape; rewrite Hadm; shape; rewrite bool_decide_false, Heach by done; exact Hsorted.
Qed.

(** ** Manifests *)

Section manifest.
Context `{Unicode}.

Definition entry_name (e : ManifestEntry.t) : list Z := as_bytes (ManifestEntry.name e).
Definition entry_fold (e : ManifestEntry.t) : list Z :=
  as_bytes (portable_case_fold (ManifestEntry.name e)).
Definition entry_key (e : ManifestEntry.t) : list Z := raw (Text (ManifestEntry.name e)).

(** What the validation loop establishes. *)
Lemma manifest_validate_Ok o :
  Manifest.validate o = Ok tt →
  Forall (λ e, ensure_portable (ManifestEntry.name e) = Ok tt) (Manifest.entries o) ∧
  NoDup (map entry_name (Manifest.entries o)) ∧ NoDup (map entry_fold (Manifest.entries o)).
Proof.
  intros ([names folded] & Hloop & _)%bind_Ok.
  eapply (try_fold_inv Manifest.step (λ pre s,
    (Forall (λ e, ensure_portable (ManifestEntry.name e) = Ok tt) pre ∧
     NoDup (map entry_name pre) ∧ NoDup (map entry_fold pre)) ∧
    (∀ x, x ∈ set_elems s.1 ↔ x ∈ map entry_name pre) ∧
    (∀ x, x ∈ set_elems s.2 ↔ x ∈ map entry_fold pre))) in Hloop as [? _]; [done| |].
  - clear. intros pre e [ns fs] s' ((Hp & Hn & Hf) & Hns & Hfs) _ Hstep.
    unfold Manifest.step in Hstep. inv_ok. destruct x. fold (entry_name e) (entry_fold e) in Hb |- *.
    apply orb_false_iff in Hb as [Hb1%set_contains_false Hb2%set_contains_false].
    cbn [fst snd] in *. rewrite Hns in Hb1. rewrite Hfs in Hb2.
    rewrite Forall_app, Forall_singleton.
    split_and!; try done; try (rewrite map_app; by apply NoDup_snoc).
    + intros x. by rewrite set_insert_elems, Hns, elem_of_map_snoc.
    + intros x. by rewrite set_insert_elems, Hfs, elem_of_map_snoc.
  - split_and!; try constructor; done.
Qed.

(** And the loop accepts every such list. *)
Lemma manifest_validate_intro policy l :
  Forall (λ e, ensure_portable (ManifestEntry.name e) = Ok tt) l →
  NoDup (map entry_name l) → NoDup (map entry_fold l) →
  Manifest.validate (Manifest.mk policy l) = Ok tt.
Proof.
  intros Hp Hn Hf. unfold Manifest.validate. cbn [Manifest.entries].
  assert (∀ ns fs, (∀ e, e ∈ l → entry_name e ∉ set_elems ns) →
    (∀ e, e ∈ l → entry_fold e ∉ set_elems fs) →
    ∃ s, try_fold Manifest.step l (ns, fs) = Ok s) as Hloop.
  2:{ destruct (Hloop [] []) as [s Hs]; [intros e _; apply not_elem_of_nil..|].
      apply bind_Ok. by exists s. }
  induction Hp as [|e l He Hl IH]; intros ns fs Hns Hfs; [by eexists|].
  cbn [map] in Hn, Hf. apply NoDup_cons in Hn as [Hn1 Hn], Hf as [Hf1 Hf].
  assert (Manifest.step (ns, fs) e
    = Ok (set_insert (entry_name e) ns, set_insert (entry_fold e) fs)) as Hstep.
  { unfold Manifest.step. rewrite He. cbn [map_err mbind result_bind].
    fold (entry_name e) (entry_fold e).
    pose proof (Hns e (list_elem_of_here _ _)) as ->%set_contains_false.
    by pose proof (Hfs e (list_elem_of_here _ _)) as ->%set_contains_false. }
  cbn [try_fold]. rewrite Hstep. cbn [mbind result_bind].
  apply IH; try done; intros d Hd; rewrite set_insert_elems; intros [Heq|Hin].
  - apply Hn1. rewrite <-Heq. by apply list_elem_of_fmap_2.
  - by apply (Hns d); [right|].
  - apply Hf1. rewrite <-Heq. by apply list_elem_of_fmap_2.
  - by apply (Hfs d); [right|].
Qed.

Lemma manifest_sort_key e : ManifestEntry.wf e = true → Manifest.sort_key e = entry_key e.
Proof.
  unfold ManifestEntry.wf, Manifest.sort_key, entry_key. intros. split_andb.
  by rewrite canonical_bytes_total.
Qed.

Lemma segment_good s : segment_ok s = true → good metadata 0 (Text s).
Proof.
  intros Hs. pose proof (canonical_bytes_total s Hs) as Hc.
  apply ok_Some, encode_with_limits_Ok in Hc as (Hf & _); [|done|].
  - unfold good. split_and!; [done..|]. by apply andb_true_iff in Hs as [? _].
  - by apply andb_true_iff in Hs as [? _].
Qed.

Lemma entry_key_inj a b :
  ManifestEntry.wf a = true → ManifestEntry.wf b = true →
  entry_key a = entry_key b → entry_name a = entry_name b.
Proof.
  unfold ManifestEntry.wf, entry_key, entry_name. intros Ha Hb Heq. split_andb.
  apply (f_equal (λ l, l ++ [])) in Heq.
  apply (raw_prefix_free metadata) in Heq as [[= ->] _]; try done; try by apply segment_good.
  rewrite app_nil_r.
  assert (canonical_bytes (ManifestEntry.name a) = Some (raw (Text (ManifestEntry.name a)))) as Hc
    by by apply canonical_bytes_total.
  apply ok_Some, encode_with_limits_Ok in Hc as (_ & _ & Hlen); [|done|].
  - etransitivity; [exact Hlen|done].
  - by apply segment_good.
Qed.

(** The entries are written in strictly increasing order of their encoded names. *)
Lemma manifest_sorted l :
  Forall (λ e, ManifestEntry.wf e = true) l → NoDup (map entry_name l) →
  StronglySorted (key_lt entry_key) (sort_by_key Manifest.sort_key l).
Proof.
  intros Hwf Hnd.
  assert (sort_by_key Manifest.sort_key l = sort_by_key entry_key l) as ->.
  { clear Hnd. induction Hwf as [|e l He Hl IH]; cbn; [done|]. rewrite IH.
    assert (Forall (λ e, ManifestEntry.wf e = true) (sort_by_key entry_key l)) as Hs
      by by rewrite sort_by_key_perm.
    clear IH Hl. induction Hs as [|d k Hd Hk IH]; cbn; [done|].
    rewrite !manifest_sort_key by done. by rewrite IH. }
  apply sort_by_key_nodup. clear -Hwf Hnd.
  induction Hwf as [|e l He Hl IH]; cbn in *; [constructor|].
  apply NoDup_cons in Hnd as [Hx Hnd]. constructor; [|auto].
  intros (d & Heq & Hd)%list_elem_of_fmap. destruct Hx. apply list_elem_of_fmap. exists d.
  split; [|done]. rewrite Forall_forall in Hl. apply entry_key_inj; auto.
Qed.

(** One entry passes the decoder's check. *)
Lemma manifest_entry_norm e previous folded :
  ManifestEntry.wf e = true → ensure_portable (ManifestEntry.name e) = Ok tt →
  match previous with Some p => lt p (entry_key e) | None => True end →
  entry_fold e ∉ set_elems folded →
  Shapes.manifest_entry (previous, folded) (normalize (ManifestEntry.value e))
  = Ok (Some (entry_key e), set_insert (entry_fold e) folded).
Proof.
  intros Hwf Hport%ensure_portable_Ok Hprev Hfold%set_contains_false.
  unfold ManifestEntry.wf in Hwf. split_andb.
  assert (encode (Text (ManifestEntry.name e)) = Ok (entry_key e)) as Henc.
  { apply ok_Some. by apply canonical_bytes_total. }
  assert (match previous with Some old => geb old (entry_key e) | None => false end = false) as Hlt.
  { destruct previous; [|done]. by apply geb_false. }
  unfold Shapes.manifest_entry, ManifestEntry.value, entry_fold in *.
  destruct (ManifestEntry.target e) as [b []|b|b|b|b]; cbn [ManifestTarget.id FileMode.code] in *;
    literal_map; shape;
    change (text (normalize (Text ?s)) 3) with (@Ok derr _ s); shape;
    unfold new_portable; rewrite Hport; shape; rewrite Hfold, Henc; shape; rewrite Hlt; by shape.
Qed.

Lemma manifest_loop l previous folded :
  Forall (λ e, ManifestEntry.wf e = true) l →
  Forall (λ e, ensure_portable (ManifestEntry.name e) = Ok tt) l →
  StronglySorted (key_lt entry_key) l → NoDup (map entry_fold l) →
  match previous with Some p => Forall (λ e, lt p (entry_key e)) l | None => True end →
  (∀ e, e ∈ l → entry_fold e ∉ set_elems folded) →
  ∃ s, try_fold Shapes.manifest_entry (map normalize (map ManifestEntry.value l))
         (previous, folded) = Ok s.
Proof.
  intros Hwf. revert previous folded.
  induction Hwf as [|e l He Hl IH]; intros previous folded Hp Hs Hnd Hprev Hdisj; [by eexists|].
  apply Forall_cons in Hp as [Hpe Hp]. apply StronglySorted_inv in Hs as [Hs Hmin].
  cbn [map] in Hnd. apply NoDup_cons in Hnd as [Hnew Hnd].
  cbn [map try_fold]. rewrite manifest_entry_norm; [|done|done| |by apply Hdisj; left].
  - cbn [mbind result_bind]. apply IH; try done.
    intros d Hd. rewrite set_insert_elems. intros [Heq|Hin].
    + apply Hnew. rewrite <-Heq. by apply list_elem_of_fmap_2.
    + by apply (Hdisj d); [right|].
  - destruct previous; [|done]. by apply Forall_cons in Hprev as [? _].
Qed.

Lemma manifest_fields o :
  Manifest.wf o = true → Manifest.validate o = Ok tt →
  validate_fields ObjectKind.Manifest 0 (norm_fields (Manifest.canonical_map o)) = Ok tt.
Proof.
  unfold Manifest.wf, Manifest.canonical_map. intros Hwf (Hp & Hn & Hf)%manifest_validate_Ok.
  split_andb.
  match goal with H : forallb _ _ = true |- _ => apply forallb_Forall in H as Hall end.
  destruct (manifest_loop (sort_by_key Manifest.sort_key (Manifest.entries o)) None [])
    as [s Hs].
  { by rewrite sort_by_key_perm. } { by rewrite sort_by_key_perm. }
  { by apply manifest_sorted. } { by rewrite sort_by_key_perm. } { done. }
  { intros e _. apply not_elem_of_nil. }
  literal_map. literal_fields. unfold Shapes.manifest. shape.
  apply bind_Ok. by exists s.
Qed.

Lemma entries_value_ok l :
  forallb ManifestEntry.wf l = true → value_ok (Array (map ManifestEntry.value l)) = true.
Proof.
  apply value_ok_array. intros e _ He. unfold ManifestEntry.wf, ManifestEntry.value in *. split_andb.
  match goal with H : segment_ok _ = true |- _ => apply andb_true_iff in H as [Hstr _] end.
  destruct (ManifestEntry.target e) as [b []|b|b|b|b]; cbn [ManifestTarget.id FileMode.code] in *;
    literal_map; value_ok_lit.
Qed.
End manifest.

#[export] Instance manifest_model `{Unicode} : ObjectModel Manifest.t := {|
  object_wf := Manifest.wf; object_map := Manifest.canonical_map |}.
#[export] Instance manifest_storable `{Unicode} : Storable Manifest.t.
Proof.
  refine (Build_Storable _ _ Manifest.object manifest_model _ _ _ _ _ _ manifest_fields); cbn [object_wf object_map manifest_model];
    try done.
  - intros o. nodup_keys.
  - intros o Hwf. unfold Manifest.wf in Hwf. split_andb. unfold Manifest.canonical_map.
    literal_map. value_ok_lit. apply entries_value_ok. by rewrite forallb_sort.
Qed.
