(* ===== verification/Extended.v ===== *)
(** * Registry objects: [crates/rgit-objects/src/extended.rs]

    The typed builders of object kinds 14 to 31: their fields, validation rules and
    canonical projections, in the style of [Objects]. *)

From S2P Require Import Prelude Machine Order Utf8 Canonical ObjectId Types Path Objects.

Definition MAX_REGISTRY_ITEMS : Z := 65536.

(** ** Helpers *)

Module Registry.
Section helpers.
Context `{Unicode}.

Definition header (kind : ObjectKind.t) (policy : option PolicyRef.t) : list (Z * Value) :=
  let m := [(0, Unsigned (ObjectKind.code kind)); (1, Unsigned 0)] in
  match policy with
  | Some policy => m ++ [(2, PolicyRef.value policy)]
  | None => m
  end.

Definition nfc (text : str) : result ObjectError.t () :=
  if is_nfc text then Ok tt else Err ObjectError.NonNormalizedText.

Definition validate_canonical_map (bytes : list Z) (message : String.string) :
    result ObjectError.t () :=
  match decode_canonical bytes metadata with
  | Ok (Map _) => Ok tt
  | _ => Err (ObjectError.Invalid message)
  end.

Definition sorted_unique_ids (ids : list ObjectId) (what : String.string) :
    result ObjectError.t () :=
  bail_if MAX_REGISTRY_ITEMS <? len ids
    with ObjectError.Invalid "object reference set exceeds schema limit";
  bail_if any_window_geb ids with ObjectError.Invalid what;
  Ok tt.

(** [items.iter().map(|v| v.value().encode()).collect()], then the windows test. *)
Definition sorted_unique_values (values : list Value) (what : String.string) :
    result ObjectError.t () :=
  encoded ← map_err ObjectError.Canonical (try_map encode values);
  bail_if any_window_geb encoded with ObjectError.Invalid what;
  Ok tt.

Definition sorted_unique_refs (values : list TypedObjectRef.t) (what : String.string) :
    result ObjectError.t () :=
  bail_if MAX_REGISTRY_ITEMS <? len values
    with ObjectError.Invalid "typed reference set exceeds schema limit";
  sorted_unique_values (map TypedObjectRef.value values) what.
End helpers.
#[global] Arguments validate_canonical_map {_} bytes message%_string_scope.
#[global] Arguments sorted_unique_ids ids what%_string_scope.
#[global] Arguments sorted_unique_values {_} values what%_string_scope.
#[global] Arguments sorted_unique_refs {_} values what%_string_scope.

Definition signatures (values : list Signature.t) (purpose : SignaturePurpose.t) :
    result ObjectError.t () :=
  bail_if bool_decide (values = [])
    with ObjectError.Invalid "signed object requires signatures";
  bail_if existsb (λ s, negb (bool_decide (Signature.purpose s = purpose))) values
    with ObjectError.Invalid "signature purpose does not match object kind";
  bail_if any_window_geb values
    with ObjectError.Invalid "signatures must be sorted and unique";
  Ok tt.

Definition signatures_value (values : list Signature.t) : Value :=
  Array (map Signature.value values).

(** [T::try_new]: the checked constructor of every kind. *)
Definition try_new {T} `{CanonicalObject T} (value : T) : result ObjectError.t T :=
  _ ← validate_object value;
  Ok value.
End Registry.
Import Registry.

(** ** Repository roots *)

Module FilesystemProfile.
Inductive t := Portable | Native.
Definition code (p : t) : Z := match p with Portable => 0 | Native => 1 end.
End FilesystemProfile.

Module RepositoryRoot.
Record t := mk {
  repository_id : list Z;
  root_policy : ObjectId;
  trusted_identities : list ObjectId;
  bootstrap_key_envelope_set : ObjectId;
  genesis_operation : ObjectId;
  initial_line_states : list ObjectId;
  filesystem_profile : FilesystemProfile.t;
  signatures : list Signature.t }.

Definition unsigned_map (self : t) : list (Z * Value) :=
  header ObjectKind.RepositoryRoot None
  ++ [(3, id_value (repository_id self));
      (4, oid (root_policy self));
      (5, oid_array (trusted_identities self));
      (6, oid (bootstrap_key_envelope_set self));
      (7, oid (genesis_operation self));
      (8, oid_array (initial_line_states self));
      (9, Unsigned (FilesystemProfile.code (filesystem_profile self)))].

Definition validate (self : t) : result ObjectError.t () :=
  _ ← sorted_unique_ids (trusted_identities self)
        "trusted identities must be sorted and unique";
  _ ← sorted_unique_ids (initial_line_states self)
        "initial line states must be sorted and unique";
  bail_if bool_decide (trusted_identities self = [])
          || bool_decide (initial_line_states self = [])
    with ObjectError.Invalid "repository bootstrap sets must not be empty";
  Registry.signatures (signatures self) SignaturePurpose.RepositoryRoot.

Definition canonical_map (self : t) : list (Z * Value) :=
  unsigned_map self ++ [(10, signatures_value (signatures self))].

#[global] Instance object : CanonicalObject t := {|
  KIND := ObjectKind.RepositoryRoot; SCHEMA_VERSION := SCHEMA_VERSION_0;
  canonical_value := λ self, Ok (Map (canonical_map self));
  validate_object := validate |}.
#[global] Instance signed : SignedObject t := {|
  unsigned_value := λ self, Ok (Map (unsigned_map self));
  signatures_of := signatures |}.

Definition wf (self : t) : bool :=
  id_ok (repository_id self) && oid_ok (root_policy self)
  && forallb oid_ok (trusted_identities self) && oid_ok (bootstrap_key_envelope_set self)
  && oid_ok (genesis_operation self) && forallb oid_ok (initial_line_states self)
  && forallb Signature.wf (signatures self).
End RepositoryRoot.

(** ** Identities *)

Module IdentitySubjectKind.
Inductive t := Actor | Device.
#[global] Instance eq_dec : EqDecision t.
Proof. solve_decision. Defined.
Definition code (k : t) : Z := match k with Actor => 0 | Device => 1 end.
End IdentitySubjectKind.

Module IdentityStatus.
Inductive t := Active | Suspended | Revoked.
Definition code (s : t) : Z := match s with Active => 0 | Suspended => 1 | Revoked => 2 end.
End IdentityStatus.

Module PublicKeyAlgorithm.
Inductive t := Ed25519 | X25519.
#[global] Instance eq_dec : EqDecision t.
Proof. solve_decision. Defined.
Definition code (a : t) : Z := match a with Ed25519 => 0 | X25519 => 1 end.
End PublicKeyAlgorithm.

Module PublicKeyRecord.
Record t := mk {
  algorithm : PublicKeyAlgorithm.t;
  key_id : list Z;
  public_key : list Z;
  not_before : option ObjectId;
  not_after : option ObjectId }.

Definition value (self : t) : Value :=
  let m := [(0, Unsigned (PublicKeyAlgorithm.code (algorithm self)));
            (1, Bytes (key_id self));
            (2, Bytes (public_key self))] in
  let m := optional m 3 (oid <$> not_before self) in
  Map (optional m 4 (oid <$> not_after self)).

Definition validate (self : t) : result ObjectError.t () :=
  bail_if bool_decide (key_id self = replicate 32 0) || negb (len (public_key self) =? 32)
    with ObjectError.Invalid "identity key record is empty or reserved";
  Ok tt.

Definition wf (self : t) : bool :=
  is_array 32 (key_id self) && is_bytes (public_key self)
  && opt_ok oid_ok (not_before self) && opt_ok oid_ok (not_after self).
End PublicKeyRecord.

(** [items.iter().any(|item| !set.insert(item))]: some item repeats an earlier one. *)
Fixpoint repeats {A} `{Ord A} (seen : BTreeSet A) (items : list A) : bool :=
  match items with
  | [] => false
  | x :: items => set_contains x seen || repeats (set_insert x seen) items
  end.

Module Identity.
Record t := mk {
  policy_ref : option PolicyRef.t;
  subject_kind : IdentitySubjectKind.t;
  subject : list Z;
  version : Z;
  previous : option ObjectId;
  signing_keys : list PublicKeyRecord.t;
  encryption_keys : list PublicKeyRecord.t;
  issuer : ActorId;
  status : IdentityStatus.t;
  activation_operation : option ObjectId;
  not_after_operation : option ObjectId;
  signatures : list Signature.t }.

Definition unsigned_map (self : t) : list (Z * Value) :=
  let m := header ObjectKind.Identity (policy_ref self)
    ++ [(3, Unsigned (IdentitySubjectKind.code (subject_kind self)));
        (4, Bytes (subject self));
        (5, Unsigned (version self));
        (7, Array (map PublicKeyRecord.value (signing_keys self)));
        (8, Array (map PublicKeyRecord.value (encryption_keys self)));
        (9, id_value (issuer self));
        (10, Unsigned (IdentityStatus.code (status self)))] in
  let m := optional m 6 (oid <$> previous self) in
  let m := optional m 11 (oid <$> activation_operation self) in
  optional m 12 (oid <$> not_after_operation self).

Definition is_none {A} (o : option A) : bool := negb (bool_decide (is_Some o)).

Definition validate `{Unicode} (self : t) : result ObjectError.t () :=
  let bootstrap := version self =? 0 in
  bail_if negb (Bool.eqb bootstrap
            (is_none (previous self) && is_none (activation_operation self)
             && is_none (policy_ref self)))
    with ObjectError.Invalid
      "only a version-zero bootstrap identity may omit policy, previous identity, and activation operation";
  bail_if negb bootstrap
          && (is_none (policy_ref self) || is_none (previous self)
              || is_none (activation_operation self))
    with ObjectError.Invalid
      "nonbootstrap identity requires policy, previous identity, and activation operation";
  bail_if bool_decide (signing_keys self = [])
    with ObjectError.Invalid "identity requires a signing key";
  _ ← try_for_each PublicKeyRecord.validate (signing_keys self ++ encryption_keys self);
  bail_if existsb (λ key, negb (bool_decide
              (PublicKeyRecord.algorithm key = PublicKeyAlgorithm.Ed25519))) (signing_keys self)
          || existsb (λ key, negb (bool_decide
              (PublicKeyRecord.algorithm key = PublicKeyAlgorithm.X25519))) (encryption_keys self)
    with ObjectError.Invalid "key algorithm does not match key use";
  _ ← try_for_each (λ keys, sorted_unique_values (map PublicKeyRecord.value keys)
        "identity key records must be sorted and unique")
        [signing_keys self; encryption_keys self];
  bail_if repeats [] (map PublicKeyRecord.key_id (signing_keys self ++ encryption_keys self))
    with ObjectError.Invalid
      "identity key IDs must be unique across signing and encryption keys";
  Registry.signatures (signatures self) SignaturePurpose.Identity.

Definition canonical_map (self : t) : list (Z * Value) :=
  unsigned_map self ++ [(13, signatures_value (signatures self))].

#[global] Instance object `{Unicode} : CanonicalObject t := {|
  KIND := ObjectKind.Identity; SCHEMA_VERSION := SCHEMA_VERSION_0;
  canonical_value := λ self, Ok (Map (canonical_map self));
  validate_object := validate |}.
#[global] Instance signed `{Unicode} : SignedObject t := {|
  unsigned_value := λ self, Ok (Map (unsigned_map self));
  signatures_of := signatures |}.

Definition wf (self : t) : bool :=
  opt_ok PolicyRef.wf (policy_ref self) && id_ok (subject self) && is_u64 (version self)
  && opt_ok oid_ok (previous self) && forallb PublicKeyRecord.wf (signing_keys self)
  && forallb PublicKeyRecord.wf (encryption_keys self) && id_ok (issuer self)
  && opt_ok oid_ok (activation_operation self) && opt_ok oid_ok (not_after_operation self)
  && forallb Signature.wf (signatures self).
End Identity.

(** ** Groups and key envelopes *)

Module MembershipState.
Inductive t := Active | Removed.
Definition code (s : t) : Z := match s with Active => 0 | Removed => 1 end.
End MembershipState.

Module GroupMembership.
Record t := mk {
  policy_ref : PolicyRef.t;
  membership_id : list Z;
  group_id : list Z;
  version : Z;
  previous : option ObjectId;
  principal : Principal.t;
  state : MembershipState.t;
  issuer : ActorId;
  activation_operation : ObjectId;
  not_after_operation : option ObjectId;
  signatures : list Signature.t }.

Definition unsigned_map (self : t) : list (Z * Value) :=
  let m := header ObjectKind.GroupMembership (Some (policy_ref self))
    ++ [(3, id_value (membership_id self));
        (4, id_value (group_id self));
        (5, Unsigned (version self));
        (7, Principal.value (principal self));
        (8, Unsigned (MembershipState.code (state self)));
        (9, id_value (issuer self));
        (10, oid (activation_operation self))] in
  let m := optional m 6 (oid <$> previous self) in
  optional m 11 (oid <$> not_after_operation self).

Definition validate (self : t) : result ObjectError.t () :=
  bail_if Bool.eqb (version self =? 0) (bool_decide (is_Some (previous self)))
    with ObjectError.Invalid "only membership version zero may omit previous";
  bail_if bool_decide (Principal.identifier (principal self) = [])
    with ObjectError.Invalid "membership principal is empty";
  Registry.signatures (signatures self) SignaturePurpose.GroupMembership.

Definition canonical_map (self : t) : list (Z * Value) :=
  unsigned_map self ++ [(12, signatures_value (signatures self))].

#[global] Instance object : CanonicalObject t := {|
  KIND := ObjectKind.GroupMembership; SCHEMA_VERSION := SCHEMA_VERSION_0;
  canonical_value := λ self, Ok (Map (canonical_map self));
  validate_object := validate |}.
#[global] Instance signed : SignedObject t := {|
  unsigned_value := λ self, Ok (Map (unsigned_map self));
  signatures_of := signatures |}.

Definition wf (self : t) : bool :=
  PolicyRef.wf (policy_ref self) && id_ok (membership_id self) && id_ok (group_id self)
  && is_u64 (version self) && opt_ok oid_ok (previous self)
  && Principal.wf (principal self) && id_ok (issuer self)
  && oid_ok (activation_operation self) && opt_ok oid_ok (not_after_operation self)
  && forallb Signature.wf (signatures self).
End GroupMembership.

Module RecipientEnvelope.
Record t := mk { recipient : Principal.t; key_id : list Z; envelope : list Z }.
Definition value (self : t) : Value :=
  Map [(0, Principal.value (recipient self));
       (1, Bytes (key_id self));
       (2, Bytes (envelope self))].
Definition wf (self : t) : bool :=
  Principal.wf (recipient self) && is_array 32 (key_id self) && is_bytes (envelope self).
End RecipientEnvelope.

Module KeyEnvelopeSuite.
Inductive t := X25519HkdfSha256Aes256Gcm.
Definition code (s : t) : Z := match s with X25519HkdfSha256Aes256Gcm => 0 end.
End KeyEnvelopeSuite.

Module KeyEnvelopeSet.
Record t := mk {
  policy_ref : option PolicyRef.t;
  epoch : Z;
  suite : KeyEnvelopeSuite.t;
  recipients : list RecipientEnvelope.t }.

Definition validate `{Unicode} (self : t) : result ObjectError.t () :=
  bail_if negb (Bool.eqb (epoch self =? 0) (Identity.is_none (policy_ref self)))
    with ObjectError.Invalid "only bootstrap key envelope epoch zero may omit policy";
  bail_if bool_decide (recipients self = [])
    with ObjectError.Invalid "key envelope set has no recipients";
  _ ← try_for_each (λ r,
        bail_if bool_decide (Principal.identifier (RecipientEnvelope.recipient r) = [])
                || bool_decide (RecipientEnvelope.key_id r = replicate 32 0)
                || bool_decide (RecipientEnvelope.envelope r = [])
          with ObjectError.Invalid "invalid recipient envelope";
        Ok tt) (recipients self);
  sorted_unique_values (map RecipientEnvelope.value (recipients self))
    "recipient envelopes must be sorted and unique".

Definition canonical_map (self : t) : list (Z * Value) :=
  header ObjectKind.KeyEnvelopeSet (policy_ref self)
  ++ [(3, Unsigned (epoch self));
      (4, Unsigned (KeyEnvelopeSuite.code (suite self)));
      (5, Array (map RecipientEnvelope.value (recipients self)))].

#[global] Instance object `{Unicode} : CanonicalObject t := {|
  KIND := ObjectKind.KeyEnvelopeSet; SCHEMA_VERSION := SCHEMA_VERSION_0;
  canonical_value := λ self, Ok (Map (canonical_map self));
  validate_object := validate |}.

Definition wf (self : t) : bool :=
  opt_ok PolicyRef.wf (policy_ref self) && is_u64 (epoch self)
  && forallb RecipientEnvelope.wf (recipients self).
End KeyEnvelopeSet.

(** ** Relations and resolutions *)

Module ChangeRelationKind.
Inductive t := Split | Combine | Supersede.
Definition code (k : t) : Z := match k with Split => 0 | Combine => 1 | Supersede => 2 end.
End ChangeRelationKind.

Module ChangeRelation.
Record t := mk {
  policy_ref : PolicyRef.t;
  relation_kind : ChangeRelationKind.t;
  sources : list ObjectId;
  results : list ObjectId;
  provenance : list ObjectId;
  creating_operation : ObjectId }.

Definition validate (self : t) : result ObjectError.t () :=
  bail_if bool_decide (sources self = []) || bool_decide (results self = [])
    with ObjectError.Invalid "change relation endpoints must not be empty";
  _ ← sorted_unique_ids (sources self) "relation sources must be sorted and unique";
  _ ← sorted_unique_ids (results self) "relation results must be sorted and unique";
  sorted_unique_ids (provenance self) "relation provenance must be sorted and unique".

Definition canonical_map (self : t) : list (Z * Value) :=
  header ObjectKind.ChangeRelation (Some (policy_ref self))
  ++ [(3, Unsigned (ChangeRelationKind.code (relation_kind self)));
      (4, oid_array (sources self));
      (5, oid_array (results self));
      (6, oid_array (provenance self));
      (7, oid (creating_operation self))].

#[global] Instance object : CanonicalObject t := {|
  KIND := ObjectKind.ChangeRelation; SCHEMA_VERSION := SCHEMA_VERSION_0;
  canonical_value := λ self, Ok (Map (canonical_map self));
  validate_object := validate |}.

Definition wf (self : t) : bool :=
  PolicyRef.wf (policy_ref self) && forallb oid_ok (sources self)
  && forallb oid_ok (results self) && forallb oid_ok (provenance self)
  && oid_ok (creating_operation self).
End ChangeRelation.

Module ResolutionKind.
Inductive t := Left | Right | Base | Manual | Driver.
Definition code (k : t) : Z :=
  match k with Left => 0 | Right => 1 | Base => 2 | Manual => 3 | Driver => 4 end.
End ResolutionKind.

Module ConflictResolution.
Record t := mk {
  policy_ref : PolicyRef.t;
  conflict : ObjectId;
  resolved : TypedObjectRef.t;
  resolver : ActorId;
  device : DeviceId;
  resolution_kind : ResolutionKind.t;
  provenance : list TypedObjectRef.t;
  wall_time : WallTime.t;
  signatures : list Signature.t }.

Definition unsigned_map (self : t) : list (Z * Value) :=
  header ObjectKind.ConflictResolution (Some (policy_ref self))
  ++ [(3, oid (conflict self));
      (4, TypedObjectRef.value (resolved self));
      (5, id_value (resolver self));
      (6, id_value (device self));
      (7, Unsigned (ResolutionKind.code (resolution_kind self)));
      (8, Array (map TypedObjectRef.value (provenance self)));
      (9, WallTime.value (wall_time self))].

Definition validate `{Unicode} (self : t) : result ObjectError.t () :=
  _ ← sorted_unique_refs (provenance self) "resolution provenance must be sorted and unique";
  Registry.signatures (signatures self) SignaturePurpose.ConflictResolution.

Definition canonical_map (self : t) : list (Z * Value) :=
  unsigned_map self ++ [(10, signatures_value (signatures self))].

#[global] Instance object `{Unicode} : CanonicalObject t := {|
  KIND := ObjectKind.ConflictResolution; SCHEMA_VERSION := SCHEMA_VERSION_0;
  canonical_value := λ self, Ok (Map (canonical_map self));
  validate_object := validate |}.
#[global] Instance signed `{Unicode} : SignedObject t := {|
  unsigned_value := λ self, Ok (Map (unsigned_map self));
  signatures_of := signatures |}.

Definition wf (self : t) : bool :=
  PolicyRef.wf (policy_ref self) && oid_ok (conflict self)
  && TypedObjectRef.wf (resolved self) && id_ok (resolver self) && id_ok (device self)
  && forallb TypedObjectRef.wf (provenance self) && WallTime.wf (wall_time self)
  && forallb Signature.wf (signatures self).
End ConflictResolution.

(** ** Evidence *)

Module EvidenceOutcome.
Inductive t := Pass | Fail | Abstain | Error.
Definition code (o : t) : Z :=
  match o with Pass => 0 | Fail => 1 | Abstain => 2 | Error => 3 end.
End EvidenceOutcome.

Module EvidenceFields.
Record t := mk {
  policy_ref : PolicyRef.t;
  target : TypedObjectRef.t;
  snapshot : ObjectId;
  ruleset : ObjectId;
  issuer : ActorId;
  device : DeviceId;
  outcome : EvidenceOutcome.t;
  constraints : list Z;
  related : list TypedObjectRef.t;
  wall_time : WallTime.t;
  signatures : list Signature.t }.

Definition evidence_map (kind : ObjectKind.t) (v : t) : list (Z * Value) :=
  header kind (Some (policy_ref v))
  ++ [(3, TypedObjectRef.value (target v));
      (4, oid (snapshot v));
      (5, oid (ruleset v));
      (6, id_value (issuer v));
      (7, id_value (device v));
      (8, Unsigned (EvidenceOutcome.code (outcome v)));
      (9, Bytes (constraints v));
      (10, Array (map TypedObjectRef.value (related v)));
      (11, WallTime.value (wall_time v))].

Definition validate_evidence `{Unicode} (v : t) (p : SignaturePurpose.t) :
    result ObjectError.t () :=
  _ ← sorted_unique_refs (related v) "related evidence references must be sorted and unique";
  _ ← validate_canonical_map (constraints v)
        "evidence constraints must be a canonical CBOR map";
  Registry.signatures (signatures v) p.

Definition wf (v : t) : bool :=
  PolicyRef.wf (policy_ref v) && TypedObjectRef.wf (target v) && oid_ok (snapshot v)
  && oid_ok (ruleset v) && id_ok (issuer v) && id_ok (device v) && is_bytes (constraints v)
  && forallb TypedObjectRef.wf (related v) && WallTime.wf (wall_time v)
  && forallb Signature.wf (signatures v).

(** [evidence_object!]: the canonical map of the three plain evidence kinds. *)
Definition signed_evidence_map (kind : ObjectKind.t) (v : t) : list (Z * Value) :=
  evidence_map kind v ++ [(12, signatures_value (signatures v))].
End EvidenceFields.
Import EvidenceFields.

Module ReviewEvidence.
Record t := mk { fields : EvidenceFields.t }.
#[global] Instance object `{Unicode} : CanonicalObject t := {|
  KIND := ObjectKind.ReviewEvidence; SCHEMA_VERSION := SCHEMA_VERSION_0;
  canonical_value := λ self, Ok (Map (signed_evidence_map ObjectKind.ReviewEvidence (fields self)));
  validate_object := λ self, validate_evidence (fields self) SignaturePurpose.ReviewEvidence |}.
#[global] Instance signed `{Unicode} : SignedObject t := {|
  unsigned_value := λ self, Ok (Map (evidence_map ObjectKind.ReviewEvidence (fields self)));
  signatures_of := λ self, EvidenceFields.signatures (fields self) |}.
End ReviewEvidence.

Module ApprovalEvidence.
Record t := mk { fields : EvidenceFields.t }.
#[global] Instance object `{Unicode} : CanonicalObject t := {|
  KIND := ObjectKind.ApprovalEvidence; SCHEMA_VERSION := SCHEMA_VERSION_0;
  canonical_value := λ self, Ok (Map (signed_evidence_map ObjectKind.ApprovalEvidence (fields self)));
  validate_object := λ self, validate_evidence (fields self) SignaturePurpose.ApprovalEvidence |}.
#[global] Instance signed `{Unicode} : SignedObject t := {|
  unsigned_value := λ self, Ok (Map (evidence_map ObjectKind.ApprovalEvidence (fields self)));
  signatures_of := λ self, EvidenceFields.signatures (fields self) |}.
End ApprovalEvidence.

Module PolicyDecisionEvidence.
Record t := mk { fields : EvidenceFields.t }.
#[global] Instance object `{Unicode} : CanonicalObject t := {|
  KIND := ObjectKind.PolicyDecisionEvidence; SCHEMA_VERSION := SCHEMA_VERSION_0;
  canonical_value := λ self,
    Ok (Map (signed_evidence_map ObjectKind.PolicyDecisionEvidence (fields self)));
  validate_object := λ self,
    validate_evidence (fields self) SignaturePurpose.PolicyDecisionEvidence |}.
#[global] Instance signed `{Unicode} : SignedObject t := {|
  unsigned_value := λ self, Ok (Map (evidence_map ObjectKind.PolicyDecisionEvidence (fields self)));
  signatures_of := λ self, EvidenceFields.signatures (fields self) |}.
End PolicyDecisionEvidence.

Module CiEvidence.
Record t := mk {
  fields : EvidenceFields.t;
  check_name : str;
  runner_identity : ObjectId;
  build_provenance : option ObjectId }.

Definition unsigned_map (self : t) : list (Z * Value) :=
  let m := evidence_map ObjectKind.CiEvidence (fields self)
    ++ [(13, Text (check_name self)); (14, oid (runner_identity self))] in
  optional m 15 (oid <$> build_provenance self).

Definition validate `{Unicode} (self : t) : result ObjectError.t () :=
  _ ← nfc (check_name self);
  bail_if bool_decide (check_name self = [])
    with ObjectError.Invalid "CI check name must not be empty";
  validate_evidence (fields self) SignaturePurpose.CiEvidence.

Definition canonical_map (self : t) : list (Z * Value) :=
  sort_by_key fst
    (unsigned_map self ++ [(12, signatures_value (EvidenceFields.signatures (fields self)))]).

#[global] Instance object `{Unicode} : CanonicalObject t := {|
  KIND := ObjectKind.CiEvidence; SCHEMA_VERSION := SCHEMA_VERSION_0;
  canonical_value := λ self, Ok (Map (canonical_map self));
  validate_object := validate |}.
#[global] Instance signed `{Unicode} : SignedObject t := {|
  unsigned_value := λ self, Ok (Map (unsigned_map self));
  signatures_of := λ self, EvidenceFields.signatures (fields self) |}.

Definition wf (self : t) : bool :=
  EvidenceFields.wf (fields self) && is_str (check_name self) && oid_ok (runner_identity self)
  && opt_ok oid_ok (build_provenance self).
End CiEvidence.

(** ** Projections *)

Module ProjectionRuleKind.
Inductive t := Include | Exclude | Redact.
Definition code (k : t) : Z := match k with Include => 0 | Exclude => 1 | Redact => 2 end.
End ProjectionRuleKind.

Module ProjectionRule.
Record t := mk { rule_kind : ProjectionRuleKind.t; parameters : list Z }.
Definition value (self : t) : Value :=
  Map [(0, Unsigned (ProjectionRuleKind.code (rule_kind self)));
       (1, Bytes (parameters self))].
Definition wf (self : t) : bool := is_bytes (parameters self).
End ProjectionRule.

Module ProjectionRules.
Record t := mk {
  policy_ref : PolicyRef.t;
  version : Z;
  previous : option ObjectId;
  rules : list ProjectionRule.t;
  default_fail : bool }.

Definition validate `{Unicode} (self : t) : result ObjectError.t () :=
  bail_if Bool.eqb (version self =? 0) (bool_decide (is_Some (previous self)))
    with ObjectError.Invalid "only projection rules version zero may omit previous";
  bail_if negb (default_fail self)
    with ObjectError.Invalid "schema-0 projection rules must fail closed";
  try_for_each (λ rule, validate_canonical_map (ProjectionRule.parameters rule)
    "projection rule parameters must be canonical CBOR maps") (rules self).

Definition canonical_map (self : t) : list (Z * Value) :=
  optional
    (header ObjectKind.ProjectionRules (Some (policy_ref self))
     ++ [(3, Unsigned (version self));
         (5, Array (map ProjectionRule.value (rules self)));
         (6, Bool (default_fail self))])
    4 (oid <$> previous self).

#[global] Instance object `{Unicode} : CanonicalObject t := {|
  KIND := ObjectKind.ProjectionRules; SCHEMA_VERSION := SCHEMA_VERSION_0;
  canonical_value := λ self, Ok (Map (canonical_map self));
  validate_object := validate |}.

Definition wf (self : t) : bool :=
  PolicyRef.wf (policy_ref self) && is_u64 (version self) && opt_ok oid_ok (previous self)
  && forallb ProjectionRule.wf (rules self).
End ProjectionRules.

Module ProjectionProofAlgorithm.
Inductive t := MerkleV0.
Definition code (a : t) : Z := match a with MerkleV0 => 0 end.
End ProjectionProofAlgorithm.

Module ProjectionProof.
Record t := mk {
  policy_ref : PolicyRef.t;
  algorithm : ProjectionProofAlgorithm.t;
  source_snapshot : ObjectId;
  rules : ObjectId;
  audience_policy : ObjectId;
  projected_manifest : ObjectId;
  proof : list Z }.

Definition validate (self : t) : result ObjectError.t () :=
  bail_if bool_decide (proof self = [])
    with ObjectError.Invalid "projection proof must not be empty";
  Ok tt.

Definition canonical_map (self : t) : list (Z * Value) :=
  header ObjectKind.ProjectionProof (Some (policy_ref self))
  ++ [(3, Unsigned (ProjectionProofAlgorithm.code (algorithm self)));
      (4, oid (source_snapshot self));
      (5, oid (rules self));
      (6, oid (audience_policy self));
      (7, oid (projected_manifest self));
      (8, Bytes (proof self))].

#[global] Instance object : CanonicalObject t := {|
  KIND := ObjectKind.ProjectionProof; SCHEMA_VERSION := SCHEMA_VERSION_0;
  canonical_value := λ self, Ok (Map (canonical_map self));
  validate_object := validate |}.

Definition wf (self : t) : bool :=
  PolicyRef.wf (policy_ref self) && oid_ok (source_snapshot self) && oid_ok (rules self)
  && oid_ok (audience_policy self) && oid_ok (projected_manifest self)
  && is_bytes (proof self).
End ProjectionProof.

(** ** Builds and artifacts *)

Module BuildProvenance.
Record t := mk {
  policy_ref : PolicyRef.t;
  snapshot : ObjectId;
  ruleset : ObjectId;
  builder_identity : ObjectId;
  inputs : list TypedObjectRef.t;
  outputs : list ObjectId;
  reproducibility : list Z;
  wall_time : WallTime.t;
  signatures : list Signature.t }.

Definition unsigned_map (self : t) : list (Z * Value) :=
  header ObjectKind.BuildProvenance (Some (policy_ref self))
  ++ [(3, oid (snapshot self));
      (4, oid (ruleset self));
      (5, oid (builder_identity self));
      (6, Array (map TypedObjectRef.value (inputs self)));
      (7, oid_array (outputs self));
      (8, Bytes (reproducibility self));
      (9, WallTime.value (wall_time self))].

Definition validate `{Unicode} (self : t) : result ObjectError.t () :=
  _ ← sorted_unique_refs (inputs self) "build inputs must be sorted and unique";
  _ ← sorted_unique_ids (outputs self) "build outputs must be sorted and unique";
  _ ← validate_canonical_map (reproducibility self)
        "build reproducibility metadata must be a canonical CBOR map";
  Registry.signatures (signatures self) SignaturePurpose.BuildProvenance.

Definition canonical_map (self : t) : list (Z * Value) :=
  unsigned_map self ++ [(10, signatures_value (signatures self))].

#[global] Instance object `{Unicode} : CanonicalObject t := {|
  KIND := ObjectKind.BuildProvenance; SCHEMA_VERSION := SCHEMA_VERSION_0;
  canonical_value := λ self, Ok (Map (canonical_map self));
  validate_object := validate |}.
#[global] Instance signed `{Unicode} : SignedObject t := {|
  unsigned_value := λ self, Ok (Map (unsigned_map self));
  signatures_of := signatures |}.

Definition wf (self : t) : bool :=
  PolicyRef.wf (policy_ref self) && oid_ok (snapshot self) && oid_ok (ruleset self)
  && oid_ok (builder_identity self) && forallb TypedObjectRef.wf (inputs self)
  && forallb oid_ok (outputs self) && is_bytes (reproducibility self)
  && WallTime.wf (wall_time self) && forallb Signature.wf (signatures self).
End BuildProvenance.

Module ArtifactKind.
Inductive t := Binary | SourceArchive | Sbom | Attestation.
Definition code (k : t) : Z :=
  match k with Binary => 0 | SourceArchive => 1 | Sbom => 2 | Attestation => 3 end.
End ArtifactKind.

Module ArtifactDigestAlgorithm.
Inductive t := Sha256 | Blake3_256.
Definition code (a : t) : Z := match a with Sha256 => 0 | Blake3_256 => 1 end.
End ArtifactDigestAlgorithm.

Module Artifact.
Record t := mk {
  policy_ref : PolicyRef.t;
  artifact_kind : ArtifactKind.t;
  digest_algorithm : ArtifactDigestAlgorithm.t;
  digest : list Z;
  byte_length : Z;
  locator : option str;
  blob : option ObjectId }.

Definition validate `{Unicode} (self : t) : result ObjectError.t () :=
  bail_if negb (len (digest self) =? 32)
          || (Identity.is_none (locator self) && Identity.is_none (blob self))
    with ObjectError.Invalid "artifact requires digest and location or blob";
  match locator self with Some v => nfc v | None => Ok tt end.

Definition canonical_map (self : t) : list (Z * Value) :=
  let m := header ObjectKind.Artifact (Some (policy_ref self))
    ++ [(3, Unsigned (ArtifactKind.code (artifact_kind self)));
        (4, Unsigned (ArtifactDigestAlgorithm.code (digest_algorithm self)));
        (5, Bytes (digest self));
        (6, Unsigned (byte_length self))] in
  let m := optional m 7 (Text <$> locator self) in
  optional m 8 (oid <$> blob self).

#[global] Instance object `{Unicode} : CanonicalObject t := {|
  KIND := ObjectKind.Artifact; SCHEMA_VERSION := SCHEMA_VERSION_0;
  canonical_value := λ self, Ok (Map (canonical_map self));
  validate_object := validate |}.

Definition wf (self : t) : bool :=
  PolicyRef.wf (policy_ref self) && is_bytes (digest self) && is_u64 (byte_length self)
  && opt_ok is_str (locator self) && opt_ok oid_ok (blob self).
End Artifact.

(** ** Operation payloads *)

Module OperationPayloadKind.
Inductive t := Inverse | Recovery | PublicRedaction | PrivateAudit.
Definition code (k : t) : Z :=
  match k with Inverse => 0 | Recovery => 1 | PublicRedaction => 2 | PrivateAudit => 3 end.
End OperationPayloadKind.

Module OperationPayloadSchema.
Inductive t := CanonicalCborMapV0.
Definition code (s : t) : Z := match s with CanonicalCborMapV0 => 0 end.
End OperationPayloadSchema.

Module OperationPayload.
Record t := mk {
  policy_ref : PolicyRef.t;
  payload_kind : OperationPayloadKind.t;
  references : list TypedObjectRef.t;
  payload_schema : OperationPayloadSchema.t;
  canonical_payload : list Z }.

Definition validate `{Unicode} (self : t) : result ObjectError.t () :=
  _ ← sorted_unique_refs (references self) "payload references must be sorted and unique";
  validate_canonical_map (canonical_payload self)
    "operation payload must be a canonical CBOR map".

Definition canonical_map (self : t) : list (Z * Value) :=
  header ObjectKind.OperationPayload (Some (policy_ref self))
  ++ [(3, Unsigned (OperationPayloadKind.code (payload_kind self)));
      (4, Array (map TypedObjectRef.value (references self)));
      (5, Unsigned (OperationPayloadSchema.code (payload_schema self)));
      (6, Bytes (canonical_payload self))].

#[global] Instance object `{Unicode} : CanonicalObject t := {|
  KIND := ObjectKind.OperationPayload; SCHEMA_VERSION := SCHEMA_VERSION_0;
  canonical_value := λ self, Ok (Map (canonical_map self));
  validate_object := validate |}.

Definition wf (self : t) : bool :=
  PolicyRef.wf (policy_ref self) && forallb TypedObjectRef.wf (references self)
  && is_bytes (canonical_payload self).
End OperationPayload.

(** ** Views *)

Module LineGeneration.
Record t := mk { line_id : LineId; generation : Z; state : ObjectId }.
Definition value (self : t) : Value :=
  Map [(0, id_value (line_id self));
       (1, Unsigned (generation self));
       (2, oid (state self))].

(** [#[derive(Ord)]]: the fields in declaration order. *)
Definition ord_key (self : t) : list Z * (Z * ObjectId) :=
  (line_id self, (generation self, state self)).
#[global] Instance ord_key_inj : Inj (=) (=) ord_key.
Proof. intros [] [] [=]. by subst. Qed.
#[global] Instance ord : Ord t := cmp_on ord_key.
#[global] Instance ord_laws : OrdLaws t := cmp_on_laws ord_key.

Definition wf (self : t) : bool :=
  id_ok (line_id self) && is_u64 (generation self) && oid_ok (state self).
End LineGeneration.

Module View.
Record t := mk {
  policy_ref : PolicyRef.t;
  actor : ActorId;
  device : DeviceId;
  policies : list ObjectId;
  lines : list LineGeneration.t;
  projected_manifest : ObjectId;
  validity_constraints : list Z;
  signatures : list Signature.t }.

Definition unsigned_map (self : t) : list (Z * Value) :=
  header ObjectKind.View (Some (policy_ref self))
  ++ [(3, id_value (actor self));
      (4, id_value (device self));
      (5, oid_array (policies self));
      (6, Array (map LineGeneration.value (lines self)));
      (7, oid (projected_manifest self));
      (8, Bytes (validity_constraints self))].

Definition validate `{Unicode} (self : t) : result ObjectError.t () :=
  _ ← sorted_unique_ids (policies self) "view policies must be sorted and unique";
  bail_if any_window_geb (lines self)
    with ObjectError.Invalid "view lines must be sorted and unique";
  bail_if repeats [] (map LineGeneration.line_id (lines self))
    with ObjectError.Invalid "view contains duplicate line IDs";
  _ ← validate_canonical_map (validity_constraints self)
        "view validity constraints must be a canonical CBOR map";
  Registry.signatures (signatures self) SignaturePurpose.View.

Definition canonical_map (self : t) : list (Z * Value) :=
  unsigned_map self ++ [(9, signatures_value (signatures self))].

#[global] Instance object `{Unicode} : CanonicalObject t := {|
  KIND := ObjectKind.View; SCHEMA_VERSION := SCHEMA_VERSION_0;
  canonical_value := λ self, Ok (Map (canonical_map self));
  validate_object := validate |}.
#[global] Instance signed `{Unicode} : SignedObject t := {|
  unsigned_value := λ self, Ok (Map (unsigned_map self));
  signatures_of := signatures |}.

Definition wf (self : t) : bool :=
  PolicyRef.wf (policy_ref self) && id_ok (actor self) && id_ok (device self)
  && forallb oid_ok (policies self) && forallb LineGeneration.wf (lines self)
  && oid_ok (projected_manifest self) && is_bytes (validity_constraints self)
  && forallb Signature.wf (signatures self).
End View.

(** ** Migrations *)

Module IdMapping.
Record t := mk { old : ObjectId; new : ObjectId }.
Definition value (self : t) : Value := Map [(0, oid (old self)); (1, oid (new self))].
Definition wf (self : t) : bool := oid_ok (old self) && oid_ok (new self).
End IdMapping.

Module ObjectIdFormat.
Inductive t := V0 | V1.
#[global] Instance eq_dec : EqDecision t.
Proof. solve_decision. Defined.
Definition code (f : t) : Z := match f with V0 => 0 | V1 => 1 end.
End ObjectIdFormat.

Module Migration.
Record t := mk {
  policy_ref : PolicyRef.t;
  source_format : ObjectIdFormat.t;
  target_format : ObjectIdFormat.t;
  mappings : list IdMapping.t;
  tool_identity : ObjectId;
  wall_time : WallTime.t;
  signatures : list Signature.t }.

Definition unsigned_map (self : t) : list (Z * Value) :=
  header ObjectKind.Migration (Some (policy_ref self))
  ++ [(3, Unsigned (ObjectIdFormat.code (source_format self)));
      (4, Unsigned (ObjectIdFormat.code (target_format self)));
      (5, Array (map IdMapping.value (mappings self)));
      (6, oid (tool_identity self));
      (7, WallTime.value (wall_time self))].

(** [any(|m| !old.insert(&m.old) || !new.insert(&m.new))]. *)
Fixpoint not_one_to_one (old new : BTreeSet ObjectId) (mappings : list IdMapping.t) : bool :=
  match mappings with
  | [] => false
  | m :: mappings =>
      set_contains (IdMapping.old m) old || set_contains (IdMapping.new m) new
      || not_one_to_one (set_insert (IdMapping.old m) old) (set_insert (IdMapping.new m) new)
           mappings
  end.

Definition validate `{Unicode} (self : t) : result ObjectError.t () :=
  bail_if bool_decide (source_format self = target_format self)
          || bool_decide (mappings self = [])
    with ObjectError.Invalid "migration must change formats and contain mappings";
  _ ← sorted_unique_values (map IdMapping.value (mappings self))
        "migration mappings must be sorted and unique";
  bail_if not_one_to_one [] [] (mappings self)
    with ObjectError.Invalid "migration must be one-to-one";
  Registry.signatures (signatures self) SignaturePurpose.Migration.

Definition canonical_map (self : t) : list (Z * Value) :=
  unsigned_map self ++ [(8, signatures_value (signatures self))].

#[global] Instance object `{Unicode} : CanonicalObject t := {|
  KIND := ObjectKind.Migration; SCHEMA_VERSION := SCHEMA_VERSION_0;
  canonical_value := λ self, Ok (Map (canonical_map self));
  validate_object := validate |}.
#[global] Instance signed `{Unicode} : SignedObject t := {|
  unsigned_value := λ self, Ok (Map (unsigned_map self));
  signatures_of := signatures |}.

Definition wf (self : t) : bool :=
  PolicyRef.wf (policy_ref self) && forallb IdMapping.wf (mappings self)
  && oid_ok (tool_identity self) && WallTime.wf (wall_time self)
  && forallb Signature.wf (signatures self).
End Migration.

(** ** Rulesets *)

Module RulesetKind.
Inductive t := Review | Approval | Ci | Landing | Release.
Definition code (k : t) : Z :=
  match k with Review => 0 | Approval => 1 | Ci => 2 | Landing => 3 | Release => 4 end.
End RulesetKind.

Module Ruleset.
Record t := mk {
  policy_ref : PolicyRef.t;
  ruleset_kind : RulesetKind.t;
  version : Z;
  previous : option ObjectId;
  constraints : list Z;
  required_evidence_kinds : list ObjectKind.t }.

Definition is_evidence_kind (k : ObjectKind.t) : bool :=
  match k with
  | ObjectKind.ReviewEvidence | ObjectKind.ApprovalEvidence | ObjectKind.CiEvidence
  | ObjectKind.PolicyDecisionEvidence => true
  | _ => false
  end.

Definition validate `{Unicode} (self : t) : result ObjectError.t () :=
  bail_if Bool.eqb (version self =? 0) (bool_decide (is_Some (previous self)))
    with ObjectError.Invalid "only ruleset version zero may omit previous";
  bail_if any_window_geb (map ObjectKind.code (required_evidence_kinds self))
          || existsb (λ k, negb (is_evidence_kind k)) (required_evidence_kinds self)
    with ObjectError.Invalid "ruleset evidence kinds must be sorted, unique evidence kinds";
  validate_canonical_map (constraints self)
    "ruleset constraints must be a canonical CBOR map".

Definition canonical_map (self : t) : list (Z * Value) :=
  optional
    (header ObjectKind.Ruleset (Some (policy_ref self))
     ++ [(3, Unsigned (RulesetKind.code (ruleset_kind self)));
         (4, Unsigned (version self));
         (6, Bytes (constraints self));
         (7, Array (map (λ k, Unsigned (ObjectKind.code k)) (required_evidence_kinds self)))])
    5 (oid <$> previous self).

#[global] Instance object `{Unicode} : CanonicalObject t := {|
  KIND := ObjectKind.Ruleset; SCHEMA_VERSION := SCHEMA_VERSION_0;
  canonical_value := λ self, Ok (Map (canonical_map self));
  validate_object := validate |}.

Definition wf (self : t) : bool :=
  PolicyRef.wf (policy_ref self) && is_u64 (version self) && opt_ok oid_ok (previous self)
  && is_bytes (constraints self).
End Ruleset.
