(* ===== verification/ExtendedKinds.v ===== *)
(** * Storable instances of the registry kinds

    Every builder of [Extended] discharges the [Storable] interface: what its [validate]
    accepts is what the decoder's shape check for its kind accepts. *)

From S2P Require Import Prelude Machine Order Utf8 Canonical CanonicalFacts ObjectId Types Path Objects Fields Decode DecodeFacts SignatureOrder Storable StoredKinds Extended.
From Stdlib Require Import Sorting.Sorted.
Import Fields DecodeObjectError.

(** ** Checks shared by the kinds *)

Lemma registry_signatures l p :
  Registry.signatures l p = Ok tt → ensure_signature_set l p = Ok tt.
Proof.
  unfold Registry.signatures, ensure_signature_set. intros Hs. inv_ok.
  rewrite Hb, Hb1. apply bind_Ok. exists tt. split; [|done].
  apply try_for_each_Ok, Forall_forall. intros s Hin.
  apply (existsb_false_elem _ _ _ Hb0), negb_false_iff in Hin.
  unfold ensure_signature_purpose. by rewrite Hin.
Qed.

Lemma signatures_at_norm `{Unicode} l k p :
  forallb Signature.wf l = true → Registry.signatures l p = Ok tt →
  signature_set (normalize (Registry.signatures_value l)) k p = Ok tt.
Proof.
  intros Hwf Hs%registry_signatures. apply (signature_set_norm _ k) in Hs as (Hne & Heach & Hs); [|done].
  unfold signature_set, Registry.signatures_value. rewrite array_norm. cbn [mbind result_bind].
  by rewrite bool_decide_false, Heach.
Qed.

Lemma encode_normalize `{Unicode} v bytes :
  value_ok v = true → encode v = Ok bytes → encode (normalize v) = Ok bytes.
Proof.
  intros Hv Henc. apply encode_with_limits_Ok in Henc; [|done..].
  apply encode_with_limits_Ok; [done|by apply value_ok_normalize|].
  by rewrite fits_normalize, raw_normalize.
Qed.

Lemma sorted_values_norm `{Unicode} {A} (f : A → Value) l k what :
  (∀ x, x ∈ l → value_ok (f x) = true) →
  Registry.sorted_unique_values (map f l) what = Ok tt →
  ensure_sorted_unique_values (map normalize (map f l)) k = Ok tt.
Proof.
  intros Hok Hs. unfold Registry.sorted_unique_values in Hs.
  apply bind_Ok in Hs as (encoded & Henc%map_err_Ok & [Hw _]%bail_Ok).
  unfold ensure_sorted_unique_values. rewrite map_map.
  replace (try_map encode (map (λ x, normalize (f x)) l)) with (@Ok CanonicalError _ encoded).
  { cbn [map_err mbind result_bind]. by rewrite Hw. }
  symmetry. rewrite try_map_Ok in Henc |- *. clear Hw. revert encoded Henc.
  induction l as [|x l IH]; cbn [map]; intros encoded Henc;
    inversion Henc as [|? b ? bs Hb Hbs]; subst; constructor.
  - apply encode_normalize; [apply Hok; left|done].
  - apply IH; [|done]. intros y Hy. apply Hok. by right.
Qed.

Lemma typed_refs_value_ok l :
  forallb TypedObjectRef.wf l = true → value_ok (Array (map TypedObjectRef.value l)) = true.
Proof. apply value_ok_array. eauto using typed_ref_value_ok. Qed.
#[export] Hint Resolve typed_refs_value_ok : vok.

Lemma sorted_refs_norm `{Unicode} es k l what :
  NoDup (map fst es) → optional_field es k = Some (Array (map TypedObjectRef.value l)) →
  forallb TypedObjectRef.wf l = true → Registry.sorted_unique_refs l what = Ok tt →
  Shapes.sorted_refs (norm_fields es) k = Ok tt.
Proof.
  intros Hnd Hk Hwf [_ Hs]%bail_Ok. unfold Shapes.sorted_refs.
  rewrite (field_norm _ _ _ Hnd Hk). cbn [mbind result_bind]. rewrite array_norm.
  cbn [mbind result_bind].
  replace (try_for_each _ _) with (@Ok derr _ tt).
  { cbn [mbind result_bind]. eapply sorted_values_norm; [|exact Hs].
    intros r Hr. apply typed_ref_value_ok. by eapply forallb_elem. }
  symmetry. apply try_for_each_Ok. rewrite map_map. apply Forall_fmap, Forall_forall. intros r Hr.
  apply typed_ref_norm. by eapply forallb_elem.
Qed.

Lemma sorted_ids_norm es k l nonempty what :
  NoDup (map fst es) → optional_field es k = Some (Types.oid_array l) →
  forallb oid_ok l = true → Registry.sorted_unique_ids l what = Ok tt →
  nonempty && bool_decide (l = []) = false →
  Shapes.sorted_ids (norm_fields es) k nonempty = Ok tt.
Proof.
  intros Hnd Hk Hwf Hs Hne. unfold Registry.sorted_unique_ids in Hs. inv_ok. unfold Shapes.sorted_ids.
  rewrite (field_norm _ _ _ Hnd Hk). cbn [mbind result_bind]. rewrite oid_values_norm by done.
  cbn [mbind result_bind]. unfold ensure_sorted_unique_ids. rewrite Hb0. cbn [mbind result_bind].
  by rewrite Hne.
Qed.

Lemma signatures_field_norm `{Unicode} es k l p :
  NoDup (map fst es) → optional_field es k = Some (Registry.signatures_value l) →
  forallb Signature.wf l = true → Registry.signatures l p = Ok tt →
  Shapes.signatures_at (norm_fields es) k p = Ok tt.
Proof.
  intros Hnd Hk Hwf Hs. unfold Shapes.signatures_at. rewrite (field_norm _ _ _ Hnd Hk).
  by apply signatures_at_norm.
Qed.

Lemma canonical_map_norm `{Unicode} b k what :
  Registry.validate_canonical_map b what = Ok tt →
  canonical_map_bytes (normalize (Bytes b)) k = Ok tt.
Proof.
  unfold Registry.validate_canonical_map, canonical_map_bytes. rewrite bytes_norm.
  cbn [mbind result_bind]. by destruct (decode_canonical b metadata) as [[]|].
Qed.

(** The checks above, where a hypothesis discharges them. *)
Ltac registry_step :=
  first [ shape_step
        | erewrite sorted_ids_norm by (nodup_keys || reflexivity || eassumption || done)
        | erewrite sorted_refs_norm by (nodup_keys || reflexivity || eassumption)
        | erewrite signatures_field_norm by (nodup_keys || reflexivity || eassumption)
        | erewrite canonical_map_norm by eassumption ].
Ltac registry :=
  unfold check, check_optional, check_code, unsigned_field, check_version_chain;
  repeat registry_step; rewrite ?is_Some_bool in *; cbn [fmap option_fmap option_map] in *;
  repeat registry_step.

Ltac registry_map :=
  unfold Registry.header, Registry.signatures_value, optional in *;
  cbn [app fmap option_fmap option_map opt_ok] in *.

(** The validity of an object under its class, unfolded to the kind's own function. *)
Ltac validated H f :=
  match type of H with validate_object ?o = _ => change (f o = Ok tt) in H end;
  match f with ?g _ => unfold g in H | _ => unfold f in H end.

#[export] Hint Extern 3 (value_ok (Unsigned (FilesystemProfile.code ?x)) = true) => destruct x; reflexivity : vok.

#[export] Instance repository_root_model : ObjectModel RepositoryRoot.t := {|
  object_wf := RepositoryRoot.wf; object_map := RepositoryRoot.canonical_map |}.
#[export] Instance repository_root_storable `{Unicode} : Storable RepositoryRoot.t.
Proof.
  refine (Build_Storable _ _ _ repository_root_model _ _ _ _ _ _ _);
    cbn [object_wf object_map repository_root_model];
    laws RepositoryRoot.wf RepositoryRoot.canonical_map
      (fun o => unfold RepositoryRoot.unsigned_map, Registry.header, Registry.signatures_value).
  validated Hval RepositoryRoot.validate. inv_ok. destruct x, x0. apply orb_false_iff in Hb as [Hne1 Hne2].
  unfold RepositoryRoot.unsigned_map, Registry.header. cbn [app]. literal_fields.
  unfold Shapes.repository_root. destruct (RepositoryRoot.filesystem_profile o); by registry.
Qed.

#[export] Hint Extern 3 (value_ok (Unsigned (MembershipState.code ?x)) = true) => destruct x; reflexivity : vok.
#[export] Hint Extern 3 (value_ok (Unsigned (ChangeRelationKind.code ?x)) = true) => destruct x; reflexivity : vok.
#[export] Hint Extern 3 (value_ok (Unsigned (ResolutionKind.code ?x)) = true) => destruct x; reflexivity : vok.
#[export] Hint Extern 3 (value_ok (Unsigned (EvidenceOutcome.code ?x)) = true) => destruct x; reflexivity : vok.
#[export] Hint Extern 3 (value_ok (Unsigned (ProjectionProofAlgorithm.code ?x)) = true) => destruct x; reflexivity : vok.
#[export] Hint Extern 3 (value_ok (Unsigned (ArtifactKind.code ?x)) = true) => destruct x; reflexivity : vok.
#[export] Hint Extern 3 (value_ok (Unsigned (ArtifactDigestAlgorithm.code ?x)) = true) => destruct x; reflexivity : vok.
#[export] Hint Extern 3 (value_ok (Unsigned (OperationPayloadKind.code ?x)) = true) => destruct x; reflexivity : vok.
#[export] Hint Extern 3 (value_ok (Unsigned (OperationPayloadSchema.code ?x)) = true) => destruct x; reflexivity : vok.
#[export] Hint Extern 3 (value_ok (Unsigned (RulesetKind.code ?x)) = true) => destruct x; reflexivity : vok.

Lemma principal_value_ok p : Principal.wf p = true → value_ok (Principal.value p) = true.
Proof. unfold Principal.wf, Principal.value. intros. value_ok_lit. Qed.
#[export] Hint Resolve principal_value_ok : vok.

Lemma principal_norm p k :
  bool_decide (Principal.identifier p = []) = false →
  principal (normalize (Principal.value p)) k = Ok tt.
Proof.
  intros Hp. unfold principal, Principal.value. shape.
  destruct (Principal.kind p); shape; by rewrite Hp.
Qed.

#[export] Instance group_membership_model : ObjectModel GroupMembership.t := {|
  object_wf := GroupMembership.wf; object_map := GroupMembership.canonical_map |}.
#[export] Instance group_membership_storable `{Unicode} : Storable GroupMembership.t.
Proof.
  refine (Build_Storable _ _ _ group_membership_model _ _ _ _ _ _ _);
    cbn [object_wf object_map group_membership_model];
    laws GroupMembership.wf GroupMembership.canonical_map
      (fun o => unfold GroupMembership.unsigned_map, Registry.header, Registry.signatures_value;
        destruct (GroupMembership.previous o), (GroupMembership.not_after_operation o)).
  validated Hval GroupMembership.validate. inv_ok. rewrite is_Some_bool in Hb.
  apply (principal_norm _ 7) in Hb0.
  unfold GroupMembership.unsigned_map, Registry.header.
  destruct (GroupMembership.previous o), (GroupMembership.not_after_operation o),
    (GroupMembership.state o); literal_map; literal_fields; unfold Shapes.group_membership;
    registry; rewrite Hb; registry; rewrite Hb0; by registry.
Qed.

#[export] Instance change_relation_model : ObjectModel ChangeRelation.t := {|
  object_wf := ChangeRelation.wf; object_map := ChangeRelation.canonical_map |}.
#[export] Instance change_relation_storable `{Unicode} : Storable ChangeRelation.t.
Proof.
  refine (Build_Storable _ _ _ change_relation_model _ _ _ _ _ _ _);
    cbn [object_wf object_map change_relation_model];
    laws ChangeRelation.wf ChangeRelation.canonical_map (fun o => unfold Registry.header).
  validated Hval ChangeRelation.validate. inv_ok. destruct x, x0.
  apply orb_false_iff in Hb as [Hs Hr].
  unfold Registry.header. cbn [app]. literal_fields. unfold Shapes.change_relation.
  destruct (ChangeRelation.relation_kind o); by registry.
Qed.

#[export] Instance conflict_resolution_model : ObjectModel ConflictResolution.t := {|
  object_wf := ConflictResolution.wf; object_map := ConflictResolution.canonical_map |}.
#[export] Instance conflict_resolution_storable `{Unicode} : Storable ConflictResolution.t.
Proof.
  refine (Build_Storable _ _ _ conflict_resolution_model _ _ _ _ _ _ _);
    cbn [object_wf object_map conflict_resolution_model];
    laws ConflictResolution.wf ConflictResolution.canonical_map
      (fun o => unfold ConflictResolution.unsigned_map, Registry.header, Registry.signatures_value).
  validated Hval ConflictResolution.validate. inv_ok. destruct x.
  unfold ConflictResolution.unsigned_map, Registry.header. cbn [app]. literal_fields.
  unfold Shapes.conflict_resolution. destruct (ConflictResolution.resolution_kind o); by registry.
Qed.

(** ** Evidence *)

Import EvidenceFields.

(** The plain evidence kinds share their map and their checks. *)
Lemma evidence_fields `{Unicode} kind e :
  (kind = ObjectKind.ReviewEvidence ∨ kind = ObjectKind.ApprovalEvidence
   ∨ kind = ObjectKind.PolicyDecisionEvidence) →
  EvidenceFields.wf e = true → validate_evidence e (Shapes.evidence_purpose kind) = Ok tt →
  validate_fields kind 0 (norm_fields (signed_evidence_map kind e)) = Ok tt.
Proof.
  intros Hk Hwf Hval. unfold validate_evidence in Hval. inv_ok. destruct x, x0.
  unfold EvidenceFields.wf in Hwf. split_andb.
  unfold signed_evidence_map, evidence_map, Registry.header. cbn [app].
  destruct Hk as [->|[->| ->]]; literal_fields; unfold Shapes.evidence;
    destruct (outcome e); by registry.
Qed.

Lemma evidence_keys kind v : NoDup (map fst (signed_evidence_map kind v)).
Proof. nodup_keys. Qed.

Lemma evidence_value_ok kind v :
  EvidenceFields.wf v = true → value_ok (Map (signed_evidence_map kind v)) = true.
Proof.
  unfold EvidenceFields.wf. intros. split_andb.
  unfold signed_evidence_map, evidence_map, Registry.header, Registry.signatures_value. cbn [app].
  value_ok_lit.
Qed.

#[export] Instance review_evidence_model : ObjectModel ReviewEvidence.t := {|
  object_wf := λ o, EvidenceFields.wf (ReviewEvidence.fields o);
  object_map := λ o, signed_evidence_map ObjectKind.ReviewEvidence (ReviewEvidence.fields o) |}.
#[export] Instance review_evidence_storable `{Unicode} : Storable ReviewEvidence.t.
Proof.
  refine (Build_Storable _ _ _ review_evidence_model _ _ _ _ _ _ _);
    cbn [object_wf object_map review_evidence_model]; try done.
  - intros o. apply evidence_keys.
  - intros o. apply evidence_value_ok.
  - intros o Hwf Hval. apply (evidence_fields ObjectKind.ReviewEvidence); auto.
Qed.

#[export] Instance approval_evidence_model : ObjectModel ApprovalEvidence.t := {|
  object_wf := λ o, EvidenceFields.wf (ApprovalEvidence.fields o);
  object_map := λ o, signed_evidence_map ObjectKind.ApprovalEvidence (ApprovalEvidence.fields o) |}.
#[export] Instance approval_evidence_storable `{Unicode} : Storable ApprovalEvidence.t.
Proof.
  refine (Build_Storable _ _ _ approval_evidence_model _ _ _ _ _ _ _);
    cbn [object_wf object_map approval_evidence_model]; try done.
  - intros o. apply evidence_keys.
  - intros o. apply evidence_value_ok.
  - intros o Hwf Hval. apply (evidence_fields ObjectKind.ApprovalEvidence); auto.
Qed.

#[export] Instance policy_decision_evidence_model : ObjectModel PolicyDecisionEvidence.t := {|
  object_wf := λ o, EvidenceFields.wf (PolicyDecisionEvidence.fields o);
  object_map := λ o,
    signed_evidence_map ObjectKind.PolicyDecisionEvidence (PolicyDecisionEvidence.fields o) |}.
#[export] Instance policy_decision_evidence_storable `{Unicode} :
  Storable PolicyDecisionEvidence.t.
Proof.
  refine (Build_Storable _ _ _ policy_decision_evidence_model _ _ _ _ _ _ _);
    cbn [object_wf object_map policy_decision_evidence_model]; try done.
  - intros o. apply evidence_keys.
  - intros o. apply evidence_value_ok.
  - intros o Hwf Hval. apply (evidence_fields ObjectKind.PolicyDecisionEvidence); auto.
Qed.

(** The sorted map of CI evidence, as a literal. *)
Lemma ci_evidence_map o :
  CiEvidence.canonical_map o
  = signed_evidence_map ObjectKind.CiEvidence (CiEvidence.fields o)
    ++ optional [(13, Text (CiEvidence.check_name o)); (14, Types.oid (CiEvidence.runner_identity o))]
         15 (Types.oid <$> CiEvidence.build_provenance o).
Proof.
  unfold CiEvidence.canonical_map, CiEvidence.unsigned_map. by destruct (CiEvidence.build_provenance o).
Qed.

#[export] Instance ci_evidence_model : ObjectModel CiEvidence.t := {|
  object_wf := CiEvidence.wf; object_map := CiEvidence.canonical_map |}.
#[export] Instance ci_evidence_storable `{Unicode} : Storable CiEvidence.t.
Proof.
  refine (Build_Storable _ _ _ ci_evidence_model _ _ _ _ _ _ _);
    cbn [object_wf object_map ci_evidence_model]; try done;
    intros o; rewrite ci_evidence_map;
    unfold signed_evidence_map, evidence_map, Registry.header.
  - destruct (CiEvidence.build_provenance o); nodup_keys.
  - unfold CiEvidence.wf, EvidenceFields.wf. intros. split_andb. unfold Registry.signatures_value.
    destruct (CiEvidence.build_provenance o); literal_map; value_ok_lit.
  - by destruct (CiEvidence.build_provenance o).
  - by destruct (CiEvidence.build_provenance o).
  - intros Hwf Hval. validated Hval CiEvidence.validate. unfold validate_evidence in Hval. inv_ok.
    destruct x, x0, x1. unfold CiEvidence.wf, EvidenceFields.wf in Hwf. split_andb.
    change (KIND CiEvidence.t) with ObjectKind.CiEvidence. change (SCHEMA_VERSION CiEvidence.t) with 0.
    destruct (CiEvidence.build_provenance o); literal_map; literal_fields; unfold Shapes.evidence;
      destruct (outcome (CiEvidence.fields o)); registry;
      rewrite bool_decide_true by done; registry;
      change (text (normalize (Text ?s)) ?k) with (@Ok derr _ s); registry;
      change (3 <? EvidenceOutcome.code ?x) with false; cbn [mbind result_bind];
      by rewrite bool_decide_false by by apply bool_decide_eq_false in Hb.
Qed.

(** ** Projections, builds, artifacts, payloads, rulesets *)

Lemma projection_rules_value_ok l :
  forallb ProjectionRule.wf l = true → value_ok (Array (map ProjectionRule.value l)) = true.
Proof.
  apply value_ok_array. intros r _ Hr. unfold ProjectionRule.wf, ProjectionRule.value in *.
  destruct (ProjectionRule.rule_kind r); value_ok_lit.
Qed.
#[export] Hint Resolve projection_rules_value_ok : vok.

Lemma projection_rule_norm `{Unicode} r what :
  Registry.validate_canonical_map (ProjectionRule.parameters r) what = Ok tt →
  Shapes.projection_rule (normalize (ProjectionRule.value r)) = Ok tt.
Proof.
  intros Hr. unfold Shapes.projection_rule, ProjectionRule.value.
  destruct (ProjectionRule.rule_kind r); by registry.
Qed.

#[export] Instance projection_rules_model : ObjectModel ProjectionRules.t := {|
  object_wf := ProjectionRules.wf; object_map := ProjectionRules.canonical_map |}.
#[export] Instance projection_rules_storable `{Unicode} : Storable ProjectionRules.t.
Proof.
  refine (Build_Storable _ _ _ projection_rules_model _ _ _ _ _ _ _);
    cbn [object_wf object_map projection_rules_model];
    laws ProjectionRules.wf ProjectionRules.canonical_map
      (fun o => unfold Registry.header; destruct (ProjectionRules.previous o)).
  validated Hval ProjectionRules.validate. inv_ok. rewrite is_Some_bool in Hb.
  assert (try_for_each Shapes.projection_rule
    (map normalize (map ProjectionRule.value (ProjectionRules.rules o))) = Ok tt) as Hrules.
  { apply try_for_each_Ok. rewrite map_map. apply Forall_fmap. apply try_for_each_Ok in Hval.
    eapply Forall_impl; [exact Hval|]. intros r Hr. unfold compose.
    exact (projection_rule_norm r _ Hr). }
  unfold Registry.header. destruct (ProjectionRules.previous o); literal_map; literal_fields;
    unfold Shapes.projection_rules; registry; rewrite Hb; registry; rewrite Hrules; registry;
    cbn [normalize boolean mbind result_bind]; by rewrite Hb0.
Qed.

#[export] Instance projection_proof_model : ObjectModel ProjectionProof.t := {|
  object_wf := ProjectionProof.wf; object_map := ProjectionProof.canonical_map |}.
#[export] Instance projection_proof_storable `{Unicode} : Storable ProjectionProof.t.
Proof.
  refine (Build_Storable _ _ _ projection_proof_model _ _ _ _ _ _ _);
    cbn [object_wf object_map projection_proof_model];
    laws ProjectionProof.wf ProjectionProof.canonical_map (fun o => unfold Registry.header).
  validated Hval ProjectionProof.validate. inv_ok.
  unfold Registry.header. cbn [app]. literal_fields. unfold Shapes.projection_proof.
  destruct (ProjectionProof.algorithm o). registry. by rewrite Hb.
Qed.

#[export] Instance build_provenance_model : ObjectModel BuildProvenance.t := {|
  object_wf := BuildProvenance.wf; object_map := BuildProvenance.canonical_map |}.
#[export] Instance build_provenance_storable `{Unicode} : Storable BuildProvenance.t.
Proof.
  refine (Build_Storable _ _ _ build_provenance_model _ _ _ _ _ _ _);
    cbn [object_wf object_map build_provenance_model];
    laws BuildProvenance.wf BuildProvenance.canonical_map
      (fun o => unfold BuildProvenance.unsigned_map, Registry.header, Registry.signatures_value).
  validated Hval BuildProvenance.validate. inv_ok. destruct x, x0, x1.
  unfold BuildProvenance.unsigned_map, Registry.header. cbn [app]. literal_fields.
  unfold Shapes.build_provenance. by registry.
Qed.

#[export] Instance artifact_model : ObjectModel Artifact.t := {|
  object_wf := Artifact.wf; object_map := Artifact.canonical_map |}.
#[export] Instance artifact_storable `{Unicode} : Storable Artifact.t.
Proof.
  refine (Build_Storable _ _ _ artifact_model _ _ _ _ _ _ _);
    cbn [object_wf object_map artifact_model];
    laws Artifact.wf Artifact.canonical_map
      (fun o => unfold Registry.header; destruct (Artifact.locator o), (Artifact.blob o)).
  validated Hval Artifact.validate. apply bail_Ok in Hval as [[Hd Hloc]%orb_false_iff _].
  unfold Identity.is_none in Hloc. rewrite !is_Some_bool in Hloc.
  unfold Registry.header. destruct (Artifact.locator o), (Artifact.blob o); try done;
    destruct (Artifact.artifact_kind o), (Artifact.digest_algorithm o);
    literal_map; literal_fields; unfold Shapes.artifact; registry; rewrite Hd; by registry.
Qed.

#[export] Instance operation_payload_model : ObjectModel OperationPayload.t := {|
  object_wf := OperationPayload.wf; object_map := OperationPayload.canonical_map |}.
#[export] Instance operation_payload_storable `{Unicode} : Storable OperationPayload.t.
Proof.
  refine (Build_Storable _ _ _ operation_payload_model _ _ _ _ _ _ _);
    cbn [object_wf object_map operation_payload_model];
    laws OperationPayload.wf OperationPayload.canonical_map (fun o => unfold Registry.header).
  validated Hval OperationPayload.validate. inv_ok. destruct x.
  unfold Registry.header. cbn [app]. literal_fields. unfold Shapes.operation_payload.
  destruct (OperationPayload.payload_kind o), (OperationPayload.payload_schema o); by registry.
Qed.

(** The loop of the decoder over the kinds a ruleset requires. *)
Lemma ruleset_kinds_norm l prior :
  existsb (λ k, negb (Ruleset.is_evidence_kind k)) l = false →
  any_window_geb (map ObjectKind.code l) = false →
  match prior, l with Some p, k :: _ => p < ObjectKind.code k | _, _ => True end →
  ∃ s, try_fold Shapes.ruleset_kind
         (map normalize (map (λ k, Unsigned (ObjectKind.code k)) l)) prior = Ok s.
Proof.
  revert prior. induction l as [|k l IH]; intros prior Hk Hw Hp; [by eexists|].
  cbn [existsb] in Hk. apply orb_false_iff in Hk as [Hk Hl]. apply negb_false_iff in Hk.
  assert (Shapes.ruleset_kind prior (Unsigned (ObjectKind.code k))
    = Ok (Some (ObjectKind.code k))) as Hstep.
  { unfold Shapes.ruleset_kind. cbn [unsigned mbind result_bind].
    replace ((20 <=? ObjectKind.code k) && (ObjectKind.code k <=? 23)) with true by by destruct k.
    destruct prior as [p|]; [|done]. by rewrite (proj2 (Z.leb_gt _ _) Hp). }
  cbn [map try_fold normalize]. rewrite Hstep. cbn [mbind result_bind]. apply IH; [done| |].
  - destruct l; [done|]. by apply orb_false_iff in Hw as [_ Hw].
  - destruct l as [|k' l]; [done|]. apply orb_false_iff in Hw as [Hlt%geb_false _].
    by apply (proj1 (Z.compare_lt_iff _ _)) in Hlt.
Qed.

Lemma evidence_kinds_value_ok l :
  value_ok (Array (map (λ k, Unsigned (ObjectKind.code k)) l)) = true.
Proof.
  apply (value_ok_array _ (λ _, true)); [intros k _ _; apply kind_u64|].
  by apply forallb_Forall, Forall_forall.
Qed.
#[export] Hint Resolve evidence_kinds_value_ok : vok.

#[export] Instance ruleset_model : ObjectModel Ruleset.t := {|
  object_wf := Ruleset.wf; object_map := Ruleset.canonical_map |}.
#[export] Instance ruleset_storable `{Unicode} : Storable Ruleset.t.
Proof.
  refine (Build_Storable _ _ _ ruleset_model _ _ _ _ _ _ _);
    cbn [object_wf object_map ruleset_model];
    laws Ruleset.wf Ruleset.canonical_map
      (fun o => unfold Registry.header; destruct (Ruleset.previous o)).
  validated Hval Ruleset.validate. inv_ok. rewrite is_Some_bool in Hb.
  apply orb_false_iff in Hb0 as [Hw Hk].
  destruct (ruleset_kinds_norm _ None Hk Hw) as [s Hs]; [done|].
  unfold Registry.header. destruct (Ruleset.previous o), (Ruleset.ruleset_kind o);
    literal_map; literal_fields; unfold Shapes.ruleset; registry; rewrite Hb; registry;
    by rewrite Hs.
Qed.

(** ** Key envelopes *)

Lemma fixed_nonzero_norm b k :
  is_array 32 b = true → bool_decide (b = replicate 32 0) = false →
  fixed_nonzero_bytes (normalize (Bytes b)) k 32 = Ok tt.
Proof.
  intros [Hl _]%is_array_spec Hz. unfold fixed_nonzero_bytes. rewrite fixed_bytes_norm by done.
  cbn [mbind result_bind]. rewrite bytes_norm. cbn [mbind result_bind].
  by rewrite (not_all_zero 32).
Qed.

Lemma is_array_bytes n b : is_array n b = true → is_bytes b = true.
Proof. by intros [_ ?]%is_array_spec. Qed.
#[export] Hint Extern 4 (value_ok (Bytes _) = true) => by eapply is_array_bytes : vok.

Lemma recipient_value_ok r :
  RecipientEnvelope.wf r = true → value_ok (RecipientEnvelope.value r) = true.
Proof.
  unfold RecipientEnvelope.wf, RecipientEnvelope.value. intros. split_andb. value_ok_lit.
Qed.

Lemma recipients_value_ok l :
  forallb RecipientEnvelope.wf l = true → value_ok (Array (map RecipientEnvelope.value l)) = true.
Proof. apply value_ok_array. eauto using recipient_value_ok. Qed.
#[export] Hint Resolve recipients_value_ok : vok.

Lemma recipient_norm r :
  RecipientEnvelope.wf r = true →
  bool_decide (Principal.identifier (RecipientEnvelope.recipient r) = [])
    || bool_decide (RecipientEnvelope.key_id r = replicate 32 0)
    || bool_decide (RecipientEnvelope.envelope r = []) = false →
  Shapes.recipient (normalize (RecipientEnvelope.value r)) = Ok tt.
Proof.
  unfold RecipientEnvelope.wf. intros Hwf [[Hp Hk]%orb_false_iff He]%orb_false_iff. split_andb.
  unfold Shapes.recipient, RecipientEnvelope.value. shape. rewrite principal_norm by done. shape.
  rewrite fixed_nonzero_norm by done. shape. by rewrite He.
Qed.

#[export] Instance key_envelope_set_model : ObjectModel KeyEnvelopeSet.t := {|
  object_wf := KeyEnvelopeSet.wf; object_map := KeyEnvelopeSet.canonical_map |}.
#[export] Instance key_envelope_set_storable `{Unicode} : Storable KeyEnvelopeSet.t.
Proof.
  refine (Build_Storable _ _ _ key_envelope_set_model _ _ _ _ _ _ _);
    cbn [object_wf object_map key_envelope_set_model];
    laws KeyEnvelopeSet.wf KeyEnvelopeSet.canonical_map
      (fun o => unfold Registry.header; destruct (KeyEnvelopeSet.policy_ref o), (KeyEnvelopeSet.suite o)).
  validated Hval KeyEnvelopeSet.validate. inv_ok. destruct x. unfold Identity.is_none in Hb.
  rewrite is_Some_bool in Hb.
  match goal with H : forallb RecipientEnvelope.wf _ = true |- _ => rename H into Hwf end.
  assert (try_for_each Shapes.recipient
    (map normalize (map RecipientEnvelope.value (KeyEnvelopeSet.recipients o))) = Ok tt) as Heach.
  { apply try_for_each_Ok. rewrite map_map. apply Forall_fmap, Forall_forall. intros r Hr.
    match goal with H : try_for_each _ _ = Ok tt |- _ =>
      apply try_for_each_Ok in H; rewrite Forall_forall in H; apply H in Hr as Hr' end.
    apply bail_Ok in Hr' as [Hr' _]. apply recipient_norm; [by eapply forallb_elem|done]. }
  eapply (sorted_values_norm _ _ 5) in Hval.
  2:{ intros r Hr. apply recipient_value_ok. by eapply forallb_elem. }
  apply bool_decide_eq_false in Hb0.
  assert (bool_decide (map normalize (map RecipientEnvelope.value (KeyEnvelopeSet.recipients o)) = [])
    = false) as Hne by (apply bool_decide_eq_false; by destruct (KeyEnvelopeSet.recipients o)).
  unfold Registry.header. destruct (KeyEnvelopeSet.policy_ref o), (KeyEnvelopeSet.suite o);
    literal_map; literal_fields; unfold Shapes.key_envelope_set; registry; rewrite Hb; registry;
    rewrite Hne; registry; by rewrite Heach.
Qed.

(** ** Identities *)

Lemma repeats_app {A} `{OrdLaws A} (seen : BTreeSet A) l k :
  repeats seen (l ++ k) = repeats seen l || repeats (fold_left (λ s x, set_insert x s) l seen) k.
Proof.
  revert seen. induction l as [|x l IH]; intros seen; cbn; [done|]. by rewrite IH, orb_assoc.
Qed.

Lemma public_key_value_ok k :
  PublicKeyRecord.wf k = true → value_ok (PublicKeyRecord.value k) = true.
Proof.
  unfold PublicKeyRecord.wf, PublicKeyRecord.value. intros. split_andb.
  destruct (PublicKeyRecord.algorithm k), (PublicKeyRecord.not_before k),
    (PublicKeyRecord.not_after k); literal_map; value_ok_lit.
Qed.

Lemma public_keys_value_ok l :
  forallb PublicKeyRecord.wf l = true → value_ok (Array (map PublicKeyRecord.value l)) = true.
Proof. apply value_ok_array. eauto using public_key_value_ok. Qed.
#[export] Hint Resolve public_keys_value_ok : vok.

Lemma public_key_norm r k :
  PublicKeyRecord.wf r = true → PublicKeyRecord.validate r = Ok tt →
  public_key (normalize (PublicKeyRecord.value r)) k
  = Ok (PublicKeyAlgorithm.code (PublicKeyRecord.algorithm r), PublicKeyRecord.key_id r).
Proof.
  unfold PublicKeyRecord.wf, PublicKeyRecord.validate. intros Hwf [[Hz Hl]%orb_false_iff _]%bail_Ok.
  split_andb. unfold public_key, PublicKeyRecord.value.
  destruct (PublicKeyRecord.algorithm r), (PublicKeyRecord.not_before r),
    (PublicKeyRecord.not_after r); literal_map; shape;
    rewrite fixed_nonzero_norm by done; shape; rewrite Hl; by shape.
Qed.

(** One loop over the keys of an identity. *)
Lemma identity_keys_norm a k l seen :
  forallb PublicKeyRecord.wf l = true →
  Forall (λ r, PublicKeyRecord.validate r = Ok tt) l →
  existsb (λ r, negb (bool_decide (PublicKeyRecord.algorithm r = a))) l = false →
  repeats seen (map PublicKeyRecord.key_id l) = false →
  try_fold (Shapes.identity_key (PublicKeyAlgorithm.code a) k)
    (map normalize (map PublicKeyRecord.value l)) seen
  = Ok (fold_left (λ s x, set_insert x s) (map PublicKeyRecord.key_id l) seen).
Proof.
  revert seen. induction l as [|r l IH]; intros seen Hwf Hv Ha Hr; [done|].
  cbn [forallb existsb map repeats try_fold fold_left] in *. split_andb.
  apply orb_false_iff in Ha as [Har%negb_false_iff%bool_decide_eq_true Ha], Hr as [Hseen Hr].
  apply Forall_cons in Hv as [Hvr Hv].
  replace (Shapes.identity_key _ k seen _)
    with (@Ok derr _ (set_insert (PublicKeyRecord.key_id r) seen)).
  { cbn [mbind result_bind]. by apply IH. }
  unfold Shapes.identity_key. rewrite public_key_norm by done. cbn [mbind result_bind].
  by rewrite Har, Z.eqb_refl, Hseen.
Qed.

#[export] Hint Extern 3 (value_ok (Unsigned (IdentitySubjectKind.code ?x)) = true) => destruct x; reflexivity : vok.
#[export] Hint Extern 3 (value_ok (Unsigned (IdentityStatus.code ?x)) = true) => destruct x; reflexivity : vok.
#[export] Hint Extern 4 (value_ok (Bytes _) = true) => by apply id_value_ok : vok.

(** What the checks of [validate] give the decoder's loops over both key lists. *)
Lemma identity_key_checks `{Unicode} o :
  Identity.wf o = true → Identity.validate o = Ok tt →
  (∃ seen s, try_fold (Shapes.identity_key 0 7)
     (map normalize (map PublicKeyRecord.value (Identity.signing_keys o))) [] = Ok seen ∧
   try_fold (Shapes.identity_key 1 8)
     (map normalize (map PublicKeyRecord.value (Identity.encryption_keys o))) seen = Ok s) ∧
  ensure_sorted_unique_values
    (map normalize (map PublicKeyRecord.value (Identity.signing_keys o))) 7 = Ok tt ∧
  ensure_sorted_unique_values
    (map normalize (map PublicKeyRecord.value (Identity.encryption_keys o))) 8 = Ok tt.
Proof.
  unfold Identity.wf, Identity.validate. intros Hwf Hval. split_andb.
  apply bail_Ok in Hval as [_ Hval]. apply bail_Ok in Hval as [_ Hval].
  apply bail_Ok in Hval as [_ Hval]. apply bind_Ok in Hval as ([] & Hkeys%try_for_each_Ok & Hval).
  apply bail_Ok in Hval as [[Hs He]%orb_false_iff Hval].
  apply bind_Ok in Hval as ([] & Hsorted%try_for_each_Ok & Hval).
  apply bail_Ok in Hval as [Hrep _]. rewrite map_app, repeats_app in Hrep.
  apply orb_false_iff in Hrep as [Hrs Hre]. apply Forall_app in Hkeys as [Hks Hke].
  apply Forall_cons in Hsorted as [Hss Hsorted]. apply Forall_cons in Hsorted as [Hse _].
  split_and!.
  - eexists _, _. split.
    + by apply (identity_keys_norm PublicKeyAlgorithm.Ed25519).
    + by apply (identity_keys_norm PublicKeyAlgorithm.X25519).
  - eapply sorted_values_norm; [|exact Hss]. intros r Hr. apply public_key_value_ok.
    eapply forallb_elem; [|exact Hr]; done.
  - eapply sorted_values_norm; [|exact Hse]. intros r Hr. apply public_key_value_ok.
    eapply forallb_elem; [|exact Hr]; done.
Qed.

#[export] Instance identity_model : ObjectModel Identity.t := {|
  object_wf := Identity.wf; object_map := Identity.canonical_map |}.
#[export] Instance identity_storable `{Unicode} : Storable Identity.t.
Proof.
  refine (Build_Storable _ _ _ identity_model _ _ _ _ _ _ _);
    cbn [object_wf object_map identity_model];
    laws Identity.wf Identity.canonical_map
      (fun o => unfold Identity.unsigned_map, Registry.header, Registry.signatures_value;
        destruct (Identity.policy_ref o), (Identity.previous o), (Identity.activation_operation o),
          (Identity.not_after_operation o)).
  assert (Identity.wf o = true) as Hwf by (unfold Identity.wf; goal_andb; done).
  change (Identity.validate o = Ok tt) in Hval.
  destruct (identity_key_checks o Hwf Hval) as ((seen & s & Hs1 & Hs2) & Hsort1 & Hsort2).
  unfold Identity.validate, Identity.is_none in Hval. rewrite !is_Some_bool in Hval.
  apply bail_Ok in Hval as [Hb1 Hval]. apply bail_Ok in Hval as [Hb2 Hval].
  apply bail_Ok in Hval as [Hne%bool_decide_eq_false Hval]. inv_ok. destruct x, x0.
  assert (map normalize (map PublicKeyRecord.value (Identity.signing_keys o)) ≠ []) as Hne'
    by by destruct (Identity.signing_keys o).
  assert ((0 <? Identity.version o) = negb (Identity.version o =? 0)) as Hgt
    by (match goal with H : is_u64 _ = true |- _ => apply is_u64_spec in H end; lia).
  unfold Identity.unsigned_map, Registry.header.
  destruct (Identity.policy_ref o), (Identity.previous o), (Identity.activation_operation o),
    (Identity.not_after_operation o), (Identity.subject_kind o), (Identity.status o);
    literal_map; try (by destruct (Identity.version o =? 0));
    literal_fields; unfold Shapes.identity; registry;
    change (1 <? IdentitySubjectKind.code ?x) with false; cbn [mbind result_bind];
    rewrite Hgt; destruct (Identity.version o =? 0); try done; cbn [Bool.eqb negb andb orb];
    rewrite bool_decide_false, Hs1 by done; cbn [mbind result_bind];
    rewrite Hs2; cbn [mbind result_bind]; by rewrite Hsort1, Hsort2.
Qed.

(** ** Views *)

Lemma repeats_false {A} `{OrdLaws A} (seen : BTreeSet A) l :
  repeats seen l = false ↔ NoDup l ∧ Forall (λ x, x ∉ set_elems seen) l.
Proof.
  revert seen. induction l as [|x l IH]; intros seen; cbn.
  { by split; [split; constructor|]. }
  rewrite orb_false_iff, set_contains_false, IH, NoDup_cons, Forall_cons, !Forall_forall.
  setoid_rewrite set_insert_elems. split.
  - intros (Hx & Hnd & Hl). split_and!; try done.
    + intros Hin. destruct (Hl x Hin). by left.
    + intros y Hy Hs. destruct (Hl y Hy). by right.
  - intros ((Hx & Hnd) & Hs & Hl). split_and!; try done. intros y Hy [->|Hin]; [done|].
    by apply (Hl y).
Qed.

Definition line_bytes (l : LineGeneration.t) : list Z :=
  [0xa3; 0x00; 0x50] ++ LineGeneration.line_id l
  ++ [0x01] ++ head 0 (LineGeneration.generation l)
  ++ [0x02; 0x58; 0x23] ++ to_bytes (LineGeneration.state l).

Lemma line_value_ok l : LineGeneration.wf l = true → value_ok (LineGeneration.value l) = true.
Proof. unfold LineGeneration.wf, LineGeneration.value. intros. split_andb. value_ok_lit. Qed.

Lemma lines_value_ok l :
  forallb LineGeneration.wf l = true → value_ok (Array (map LineGeneration.value l)) = true.
Proof. apply value_ok_array. eauto using line_value_ok. Qed.
#[export] Hint Resolve lines_value_ok : vok.

Lemma line_encode `{Unicode} l :
  LineGeneration.wf l = true → encode (normalize (LineGeneration.value l)) = Ok (line_bytes l).
Proof.
  intros Hwf. pose proof (line_value_ok l Hwf) as Hok. unfold LineGeneration.wf in Hwf. split_andb.
  assert (len (LineGeneration.line_id l) = 16) as Hid
    by (match goal with H : id_ok _ = true |- _ => by apply is_array_spec in H as [? _] end).
  assert (len (to_bytes (LineGeneration.state l)) = 35) as Hst by by apply to_bytes_len.
  apply encode_normalize; [done|]. apply encode_with_limits_Ok; [done..|].
  pose proof (len_head 0 (LineGeneration.generation l)). split_and!.
  - unfold LineGeneration.value, id_value, Types.oid. cbn [fits fst snd map forallb]. rewrite Hid, Hst.
    apply andb_true_iff. split; [done|]. apply andb_true_iff. split; [|done].
    apply andb_true_iff. split; [done|]. apply bool_decide_eq_true. nodup_keys.
  - unfold LineGeneration.value, line_bytes, id_value, Types.oid. rewrite raw_map.
    change (sort_by_key fst ?l) with l. cbn [flat_map fst snd raw]. rewrite Hid, Hst.
    change (head 5 3) with [0xa3]. change (head 0 0) with [0x00]. change (head 2 16) with [0x50].
    change (head 0 1) with [0x01]. change (head 0 2) with [0x02]. change (head 2 35) with [0x58; 0x23].
    by rewrite app_nil_r, <-!app_assoc.
  - unfold line_bytes. rewrite !len_app, Hid, Hst.
    assert (200 ≤ max_bytes metadata) by done.
    change (len [?a; ?b; ?c]) with 3. change (len [?a]) with 1. lia.
Qed.

Lemma line_bytes_cmp a b :
  LineGeneration.wf a = true → LineGeneration.wf b = true →
  (LineGeneration.line_id a = LineGeneration.line_id b → a = b) →
  cmp (line_bytes a) (line_bytes b) = cmp a b.
Proof.
  unfold LineGeneration.wf. intros Ha Hb Hinj. split_andb.
  destruct (decide (LineGeneration.line_id a = LineGeneration.line_id b)) as [Heq|Hne].
  { rewrite (Hinj Heq). by rewrite !cmp_refl. }
  repeat match goal with H : id_ok _ = true |- _ => apply is_array_spec in H as [? _] end.
  unfold line_bytes. rewrite list_cmp_app_same. rewrite list_cmp_app by (unfold len in *; lia).
  change (cmp a b) with (cmp (LineGeneration.ord_key a) (LineGeneration.ord_key b)).
  unfold LineGeneration.ord_key. rewrite pair_cmp. cbn [fst snd].
  match goal with
  | |- match ?c with _ => _ end = match ?d with _ => _ end =>
      change d with c; destruct c eqn:E; [|done..]
  end.
  by apply cmp_eq_iff in E.
Qed.

Lemma view_line_norm (seen : BTreeSet (list Z)) l :
  LineGeneration.wf l = true → (LineGeneration.line_id l : list Z) ∉ set_elems seen →
  Shapes.view_line seen (normalize (LineGeneration.value l))
  = Ok (set_insert (LineGeneration.line_id l) seen).
Proof.
  unfold LineGeneration.wf. intros Hwf Hs%set_contains_false. split_andb.
  unfold Shapes.view_line, LineGeneration.value. shape.
  rewrite fixed_bytes_norm by (by eapply is_array_spec). shape.
  match goal with |- (if ?b then _ else _) = _ => by replace b with false by (symmetry; exact Hs) end.
Qed.

Lemma view_lines_norm (seen : BTreeSet (list Z)) l :
  forallb LineGeneration.wf l = true →
  repeats seen (map LineGeneration.line_id l : list (list Z)) = false →
  ∃ s, try_fold Shapes.view_line (map normalize (map LineGeneration.value l)) seen = Ok s.
Proof.
  revert seen. induction l as [|x l IH]; intros seen Hwf Hr; [by eexists|].
  cbn [forallb map repeats try_fold] in *. split_andb. apply orb_false_iff in Hr as [Hx Hr].
  rewrite view_line_norm; [|done|by apply set_contains_false]. cbn [mbind result_bind]. by apply IH.
Qed.

Lemma nodup_map_elem {A B} (f : A → B) l x y :
  NoDup (map f l) → x ∈ l → y ∈ l → f x = f y → x = y.
Proof.
  induction l as [|z l IH]; cbn; [by intros _ ?%not_elem_of_nil|].
  rewrite NoDup_cons, !elem_of_cons. intros [Hz Hnd] [->|Hx] [->|Hy] Heq; auto; destruct Hz.
  - rewrite Heq. by apply list_elem_of_fmap_2.
  - rewrite <-Heq. by apply list_elem_of_fmap_2.
Qed.

Lemma view_lines_sorted `{Unicode} l k :
  forallb LineGeneration.wf l = true → any_window_geb l = false →
  NoDup (map LineGeneration.line_id l) →
  ensure_sorted_unique_values (map normalize (map LineGeneration.value l)) k = Ok tt.
Proof.
  intros Hwf Hw Hnd. unfold ensure_sorted_unique_values. rewrite map_map.
  replace (try_map encode (map (λ x, normalize (LineGeneration.value x)) l))
    with (@Ok CanonicalError _ (map line_bytes l)).
  { cbn [map_err mbind result_bind]. rewrite any_window_geb_map; [by rewrite Hw|].
    intros a b Ha Hb. apply line_bytes_cmp; [by eapply forallb_elem..|].
    intros Heq. by eapply (nodup_map_elem LineGeneration.line_id l). }
  symmetry. apply try_map_Ok, Forall2_fmap, Forall_Forall2_diag, Forall_forall.
  intros s Hs. apply line_encode. by eapply forallb_elem.
Qed.

#[export] Instance view_model : ObjectModel View.t := {|
  object_wf := View.wf; object_map := View.canonical_map |}.
#[export] Instance view_storable `{Unicode} : Storable View.t.
Proof.
  refine (Build_Storable _ _ _ view_model _ _ _ _ _ _ _);
    cbn [object_wf object_map view_model];
    laws View.wf View.canonical_map
      (fun o => unfold View.unsigned_map, Registry.header, Registry.signatures_value).
  validated Hval View.validate. inv_ok. destruct x, x0.
  destruct (view_lines_norm [] (View.lines o)) as [s Hs]; [done..|].
  apply repeats_false in Hb0 as [Hnd _].
  unfold View.unsigned_map, Registry.header. cbn [app]. literal_fields. unfold Shapes.view.
  registry. rewrite Hs. registry. rewrite view_lines_sorted by done. by registry.
Qed.

(** ** Migrations *)

Lemma mapping_value_ok m : IdMapping.wf m = true → value_ok (IdMapping.value m) = true.
Proof. unfold IdMapping.wf, IdMapping.value. intros. split_andb. value_ok_lit. Qed.

Lemma mappings_value_ok l :
  forallb IdMapping.wf l = true → value_ok (Array (map IdMapping.value l)) = true.
Proof. apply value_ok_array. eauto using mapping_value_ok. Qed.
#[export] Hint Resolve mappings_value_ok : vok.
#[export] Hint Extern 3 (value_ok (Unsigned (ObjectIdFormat.code ?x)) = true) => destruct x; reflexivity : vok.

Lemma migration_mappings_norm old new l :
  forallb IdMapping.wf l = true → Migration.not_one_to_one old new l = false →
  ∃ s, try_fold Shapes.migration_mapping (map normalize (map IdMapping.value l)) (old, new) = Ok s.
Proof.
  revert old new. induction l as [|m l IH]; intros old new Hwf Hn; [by eexists|].
  cbn [forallb map Migration.not_one_to_one try_fold] in *. unfold IdMapping.wf in Hwf at 1.
  split_andb. apply orb_false_iff in Hn as [Hm Hn].
  replace (Shapes.migration_mapping (old, new) (normalize (IdMapping.value m)))
    with (@Ok derr _ (set_insert (IdMapping.old m) old, set_insert (IdMapping.new m) new)).
  { cbn [mbind result_bind]. by apply IH. }
  unfold Shapes.migration_mapping, IdMapping.value. shape. by rewrite Hm.
Qed.

#[export] Instance migration_model : ObjectModel Migration.t := {|
  object_wf := Migration.wf; object_map := Migration.canonical_map |}.
#[export] Instance migration_storable `{Unicode} : Storable Migration.t.
Proof.
  refine (Build_Storable _ _ _ migration_model _ _ _ _ _ _ _);
    cbn [object_wf object_map migration_model];
    laws Migration.wf Migration.canonical_map
      (fun o => unfold Migration.unsigned_map, Registry.header, Registry.signatures_value).
  validated Hval Migration.validate. inv_ok. destruct x.
  apply orb_false_iff in Hb as [Hf%bool_decide_eq_false Hne%bool_decide_eq_false].
  destruct (migration_mappings_norm [] [] (Migration.mappings o)) as [s Hs]; [done..|].
  match goal with H : Registry.sorted_unique_values _ _ = Ok tt |- _ =>
    eapply (sorted_values_norm _ _ 5) in H as Hsort end.
  2:{ intros m Hm. apply mapping_value_ok. by eapply forallb_elem. }
  assert (map normalize (map IdMapping.value (Migration.mappings o)) ≠ []) as Hne'
    by by destruct (Migration.mappings o).
  unfold Migration.unsigned_map, Registry.header. cbn [app]. literal_fields. unfold Shapes.migration.
  registry. destruct (Migration.source_format o), (Migration.target_format o); try done;
    cbn [ObjectIdFormat.code Z.ltb Z.eqb Z.compare Pos.compare Pos.compare_cont orb];
    rewrite bool_decide_false by done; apply bind_Ok; exists s; (split; [exact Hs|]);
    rewrite Hsort; by registry.
Qed.
