(* ===== verification/ObjectSpec.v ===== *)
(** * Object layer: the properties of encoding, decoding and identification *)

From S2P Require Import Prelude Machine Order Utf8 Canonical CanonicalFacts ObjectId Types Path Objects Fields Decode References DecodeFacts SignatureOrder Storable StoredKinds Extended ExtendedKinds.
From Stdlib Require Import Sorting.Sorted.
Import Fields DecodeObjectError.

(** Every typed object of [object.rs] and [extended.rs]. *)
Inductive LogicalObject : Type :=
  | OChunk (o : Chunk.t) | OBlob (o : Blob.t) | OSecretRef (o : SecretRef.t)
  | OManifest (o : Manifest.t) | OSubproject (o : Subproject.t) | OSnapshot (o : Snapshot.t)
  | OChangeRevision (o : ChangeRevision.t) | OLineState (o : LineState.t)
  | OConflict (o : Conflict.t) | OOperation (o : Operation.t) | OOperationV1 (o : OperationV1.t)
  | OMarker (o : Marker.t) | ORelease (o : Release.t) | OPolicy (o : Policy.t)
  | ORepositoryRoot (o : RepositoryRoot.t) | OIdentity (o : Identity.t)
  | OGroupMembership (o : GroupMembership.t) | OKeyEnvelopeSet (o : KeyEnvelopeSet.t)
  | OChangeRelation (o : ChangeRelation.t) | OConflictResolution (o : ConflictResolution.t)
  | OReviewEvidence (o : ReviewEvidence.t) | OApprovalEvidence (o : ApprovalEvidence.t)
  | OCiEvidence (o : CiEvidence.t) | OPolicyDecisionEvidence (o : PolicyDecisionEvidence.t)
  | OProjectionRules (o : ProjectionRules.t) | OProjectionProof (o : ProjectionProof.t)
  | OBuildProvenance (o : BuildProvenance.t) | OArtifact (o : Artifact.t)
  | OOperationPayload (o : OperationPayload.t) | OView (o : View.t)
  | OMigration (o : Migration.t) | ORuleset (o : Ruleset.t).

Section logical.
Context `{Unicode}.

(** Applies a function that works for every storable type. *)
Definition with_object {R : Type}
    (f : ∀ T (c : CanonicalObject T) (m : ObjectModel T), Storable T → T → R) (x : LogicalObject) : R :=
  match x with
  | OChunk o => f _ _ _ _ o | OBlob o => f _ _ _ _ o | OSecretRef o => f _ _ _ _ o
  | OManifest o => f _ _ _ _ o | OSubproject o => f _ _ _ _ o | OSnapshot o => f _ _ _ _ o
  | OChangeRevision o => f _ _ _ _ o | OLineState o => f _ _ _ _ o | OConflict o => f _ _ _ _ o
  | OOperation o => f _ _ _ _ o | OOperationV1 o => f _ _ _ _ o | OMarker o => f _ _ _ _ o
  | ORelease o => f _ _ _ _ o | OPolicy o => f _ _ _ _ o
  | ORepositoryRoot o => f _ _ _ _ o | OIdentity o => f _ _ _ _ o
  | OGroupMembership o => f _ _ _ _ o | OKeyEnvelopeSet o => f _ _ _ _ o
  | OChangeRelation o => f _ _ _ _ o | OConflictResolution o => f _ _ _ _ o
  | OReviewEvidence o => f _ _ _ _ o | OApprovalEvidence o => f _ _ _ _ o
  | OCiEvidence o => f _ _ _ _ o | OPolicyDecisionEvidence o => f _ _ _ _ o
  | OProjectionRules o => f _ _ _ _ o | OProjectionProof o => f _ _ _ _ o
  | OBuildProvenance o => f _ _ _ _ o | OArtifact o => f _ _ _ _ o
  | OOperationPayload o => f _ _ _ _ o | OView o => f _ _ _ _ o | OMigration o => f _ _ _ _ o
  | ORuleset o => f _ _ _ _ o
  end.

Definition logical_wf : LogicalObject → bool := with_object (λ _ _ _ _, object_wf).
Definition logical_kind : LogicalObject → ObjectKind.t := with_object (λ T _ _ _ _, KIND T).
Definition logical_schema : LogicalObject → Z := with_object (λ T _ _ _ _, SCHEMA_VERSION T).
Definition logical_value : LogicalObject → result ObjectError.t Value :=
  with_object (λ _ _ _ _, canonical_value).
Definition logical_encode (limits : CanonicalLimits) :
    LogicalObject → result ObjectError.t (list Z) :=
  with_object (λ _ _ _ _ o, encode_object_with_limits o limits).
Definition logical_id `{Digests} (algorithm : HashAlgorithm.t) :
    LogicalObject → result ObjectError.t ObjectId.ObjectId :=
  with_object (λ _ _ _ _ o, object_id o algorithm).
Definition logical_stored : LogicalObject → AnyObject.t := with_object (λ _ _ _ _, stored).

Lemma logical_decode x limits bytes :
  limits_ok limits → logical_wf x = true →
  logical_encode (restricted_by limits (kind_limits (logical_kind x))) x = Ok bytes →
  AnyObject.decode bytes limits = Ok (logical_stored x).
Proof. destruct x; apply stored_decode. Qed.

Lemma logical_stored_id `{Digests} x algorithm id :
  logical_wf x = true → logical_id algorithm x = Ok id →
  AnyObject.id (logical_stored x) algorithm = Ok id.
Proof. destruct x; apply stored_id. Qed.

Lemma logical_stored_decoded x v :
  logical_value x = Ok v →
  AnyObject.decoded (logical_stored x)
  = mk_decoded (logical_kind x) (logical_schema x) (normalize v).
Proof.
  destruct x; unfold logical_value, logical_stored, with_object, stored;
    rewrite storable_value; intros [= <-]; apply AnyObject.decoded_of_kind.
Qed.

Lemma logical_id_encode `{Digests} x algorithm id :
  logical_id algorithm x = Ok id →
  ∃ bytes, logical_encode (kind_limits (logical_kind x)) x = Ok bytes ∧
    id = from_payload (ObjectKind.code (logical_kind x)) (logical_schema x) bytes algorithm.
Proof.
  destruct x; unfold logical_id, with_object, object_id; intros (bytes & Hb & [= <-])%bind_Ok;
    by exists bytes.
Qed.

(** ** Decoding in general *)

Lemma bulk_kind_limits kind : restricted_by bulk (kind_limits kind) = kind_limits kind.
Proof. by destruct kind. Qed.

(** A canonical map that the decoder accepts as an object. *)
Definition object_map_ok (kind : ObjectKind.t) (schema : Z) (m : fields) : Prop :=
  normal (Map m) = true ∧ value_ok (Map m) = true ∧
  optional_field m 0 = Some (Unsigned (ObjectKind.code kind)) ∧
  optional_field m 1 = Some (Unsigned schema) ∧
  ObjectKind.supports_schema kind schema = true ∧
  validate_fields kind schema m = Ok tt.

Lemma field_Ok m k v : field m k = Ok v ↔ optional_field m k = Some v.
Proof. apply ok_or_Ok. Qed.

Lemma unsigned_Ok v k n : unsigned v k = Ok n ↔ v = Unsigned n.
Proof. destruct v; cbn; naive_solver. Qed.

(** Decoding, characterized: the caller's limits and the kind's own profile only
    decide admission; the result is read off the bytes. *)
Lemma decode_iff bytes limits o :
  is_bytes bytes = true → limits_ok limits →
  AnyObject.decode bytes limits = Ok o ↔
  ∃ kind schema m, o = AnyObject.of_kind kind (mk_decoded kind schema (Map m)) ∧
    object_map_ok kind schema m ∧ raw (Map m) = bytes ∧
    fits (restricted_by limits (kind_limits kind)) 0 (Map m) = true ∧
    len bytes ≤ max_bytes (restricted_by limits (kind_limits kind)).
Proof.
  intros Hb Hl. unfold AnyObject.decode. split.
  - intros (v & Hv%map_err_Ok & Hd)%bind_Ok.
    apply decode_canonical_Ok in Hv as (Hn & Hok & _ & Hraw & _);
      [|done|by apply restricted_ok].
    destruct v as [| | | | |m| |]; try done. cbn [as_map mbind result_bind] in Hd.
    apply bind_Ok in Hd as (f0 & Hf0%field_Ok & Hd).
    apply bind_Ok in Hd as (n & ->%unsigned_Ok & Hd).
    apply bind_Ok in Hd as (kd & ->%map_err_Ok%ObjectKind.try_from_Ok & Hd).
    apply bind_Ok in Hd as (f1 & Hf1%field_Ok & Hd).
    apply bind_Ok in Hd as (schema & ->%unsigned_Ok & Hd).
    apply bail_Ok in Hd as [Hs%negb_false_iff Hd].
    apply bind_Ok in Hd as (bs & Henc%map_err_Ok & Hd).
    apply bind_Ok in Hd as ([] & Hval & [= <-]).
    apply encode_with_limits_Ok in Henc as (Hfit & -> & Hlen); [|apply restricted_ok, kind_limits_ok|]; try done.
    rewrite Hraw in Hlen. by exists kd, schema, m.
  - intros (kd & schema & m & -> & (Hn & Hok & Hf0 & Hf1 & Hs & Hval) & <- & Hfit & Hlen).
    pose proof (kind_limits_ok kd) as Hkl.
    assert (decode_canonical (raw (Map m)) (restricted_by limits bulk) = Ok (Map m)) as ->.
    { apply decode_canonical_Ok; [done|by apply restricted_ok|].
      rewrite fits_restricted in Hfit |- *. apply andb_true_iff in Hfit as [Hf Hk].
      apply restricted_max_bytes in Hlen as [H1 H2]. pose proof (kind_max_bytes kd).
      rewrite Hf, (kind_fits_bulk kd) by done. split_and!; try done.
      apply restricted_max_bytes. lia. }
    cbn [map_err mbind result_bind as_map].
    assert (∀ k v, optional_field m k = Some v → field m k = Ok v) as Hfield
      by (intros; by apply field_Ok).
    rewrite (Hfield 0 _ Hf0). cbn [mbind result_bind unsigned].
    rewrite ObjectKind.try_from_code. cbn [map_err mbind result_bind].
    rewrite (Hfield 1 _ Hf1). cbn [mbind result_bind unsigned]. rewrite Hs. cbn [negb].
    replace (encode_with_limits (Map m) (restricted_by limits (kind_limits kd)))
      with (@Ok CanonicalError _ (raw (Map m))).
    { cbn [map_err mbind result_bind]. by rewrite Hval. }
    symmetry. apply encode_with_limits_Ok; [by apply restricted_ok|done..].
Qed.

(** The identifier of a decoded object is the hash of the decoded bytes. *)
Lemma decode_id `{Digests} bytes limits o alg :
  is_bytes bytes = true → limits_ok limits → AnyObject.decode bytes limits = Ok o →
  let d := AnyObject.decoded o in
  AnyObject.id o alg
  = Ok (from_payload (ObjectKind.code (kind d)) (schema_version d) bytes alg).
Proof.
  intros Hb Hl (kd & schema & m & -> & (Hn & Hok & _) & Hraw & Hfit & Hlen)%decode_iff; [|done..].
  unfold AnyObject.id. rewrite AnyObject.decoded_of_kind. cbn [kind value schema_version].
  apply bind_Ok. exists bytes. split; [|done].
  rewrite fits_restricted in Hfit. apply andb_true_iff in Hfit as [_ Hfit].
  apply restricted_max_bytes in Hlen as [_ Hlen].
  apply map_err_Ok, encode_with_limits_Ok; [apply kind_limits_ok|done|by subst].
Qed.
End logical.

(** ** Claims *)

(** C3: Every object that validates and encodes decodes back: for each of the thirty-two
    typed structs of all 31 kinds, encoding under any limits tightened to its kind's profile gives bytes
    that [AnyObject::decode] accepts under those limits, dispatching to the object's own
    kind and schema with the normal form of its canonical value. *)
Theorem typed_object_roundtrip `{Unicode} x limits bytes v :
  limits_ok limits → logical_wf x = true → logical_value x = Ok v →
  logical_encode (restricted_by limits (kind_limits (logical_kind x))) x = Ok bytes →
  ∃ o, AnyObject.decode bytes limits = Ok o ∧
    AnyObject.decoded o = mk_decoded (logical_kind x) (logical_schema x) (normalize v).
Proof.
  intros Hl Hwf Hv Henc. exists (logical_stored x). split.
  - by apply logical_decode.
  - by apply logical_stored_decoded.
Qed.

(** Concrete objects for the witnesses. *)
Definition sample_policy : PolicyRef.t := PolicyRef.mk (replicate 16 5) (sample_oid 6).
Definition sample_signature (p : SignaturePurpose.t) : Signature.t :=
  Signature.mk SignatureAlgorithm.Ed25519 (replicate 16 1) (replicate 32 2) (replicate 64 3) p.
Definition sample_manifest : Manifest.t := Manifest.mk sample_policy
  [ManifestEntry.mk (lit "src") (ManifestTarget.Directory (sample_oid 8)) sample_policy;
   ManifestEntry.mk (lit "README.md") (ManifestTarget.File (sample_oid 9) FileMode.Regular)
     sample_policy].
Definition sample_operation_v1 : OperationV1.t := OperationV1.mk sample_policy [sample_oid 1]
  (replicate 16 7) (replicate 16 8) 4 (WallTime.mk 1700000000 (-3600))
  [OperationActionV1.BoundTransition (ReferenceKey.Marker (replicate 16 4)) None
     (TypedObjectRef.mk ObjectKind.Marker (sample_oid 2))]
  [] None None (sample_signature SignaturePurpose.Operation) (lit "rgit").

Lemma typed_object_roundtrip_witness :
  ∃ o, @AnyObject.decode ascii_unicode
         (default [] (ok (@logical_encode ascii_unicode metadata (OManifest sample_manifest)))) bulk
       = Ok o ∧ kind (AnyObject.decoded o) = ObjectKind.Manifest.
Proof.
  destruct (@typed_object_roundtrip ascii_unicode (OManifest sample_manifest) bulk
    (default [] (ok (@logical_encode ascii_unicode metadata (OManifest sample_manifest))))
    (Map (@Manifest.canonical_map ascii_unicode sample_manifest))) as (o & Ho & Hd).
  - exact bulk_limits_ok.
  - vm_compute. reflexivity.
  - reflexivity.
  - vm_compute. reflexivity.
  - exists o. split; [exact Ho|]. rewrite Hd. reflexivity.
Defined.

(** The bytes of an object pass the verified decoding under the object's own identifier. *)
Lemma logical_verified `{Unicode, Digests} x algorithm id v :
  logical_wf x = true → logical_value x = Ok v → logical_id algorithm x = Ok id →
  ∃ bytes o, logical_encode (kind_limits (logical_kind x)) x = Ok bytes ∧
    AnyObject.decode_verified bytes id bulk = Ok o ∧
    AnyObject.decoded o = mk_decoded (logical_kind x) (logical_schema x) (normalize v).
Proof.
  intros Hwf Hv Hid. destruct (logical_id_encode x algorithm id Hid) as (bytes & Henc & Heq).
  exists bytes, (logical_stored x). split_and!; [done| |by apply logical_stored_decoded].
  unfold AnyObject.decode_verified. rewrite (logical_decode x bulk bytes);
    [|apply bulk_limits_ok|done|by rewrite bulk_kind_limits].
  cbn [mbind result_bind].
  replace (ObjectId.algorithm id) with algorithm by by rewrite Heq.
  rewrite (logical_stored_id x algorithm id) by done.
  cbn [mbind result_bind]. by rewrite bool_decide_true.
Qed.

(** Content addressing is consistent: the bytes an object encodes to, looked up under
    the identifier the object computed for itself, pass the verified decoding and give
    the object back. *)
Theorem verified_object_roundtrip `{Unicode, Digests} x algorithm id v :
  logical_wf x = true → logical_value x = Ok v → logical_id algorithm x = Ok id →
  ∃ bytes o, logical_encode (kind_limits (logical_kind x)) x = Ok bytes ∧
    AnyObject.decode_verified bytes id bulk = Ok o ∧
    AnyObject.decoded o = mk_decoded (logical_kind x) (logical_schema x) (normalize v).
Proof. apply logical_verified. Qed.

(** C19: [decode_verified] accepts exactly the decodable byte strings whose hash, under
    the expected identifier's algorithm, is the expected identifier; the hash covers the
    bytes as given, so no second byte string is accepted for the same decoded object. *)
Theorem decode_verified_exact `{Unicode, Digests} bytes expected limits o :
  is_bytes bytes = true → limits_ok limits →
  let d := AnyObject.decoded o in
  AnyObject.decode_verified bytes expected limits = Ok o ↔
  AnyObject.decode bytes limits = Ok o ∧ raw (value d) = bytes ∧
  expected = from_payload (ObjectKind.code (kind d)) (schema_version d) bytes
               (ObjectId.algorithm expected).
Proof.
  intros Hb Hl d. unfold AnyObject.decode_verified. rewrite bind_Ok. split.
  - intros (o' & Hdec & (actual & Hid & [Hd [= <-]]%bail_Ok)%bind_Ok).
    rewrite (decode_id bytes limits o' _ Hb Hl Hdec) in Hid. injection Hid as <-.
    apply negb_false_iff, bool_decide_eq_true in Hd. split; [done|]. split; [|done].
    apply decode_iff in Hdec as (kd & s & m & -> & _ & <- & _); [|done..].
    subst d. by rewrite AnyObject.decoded_of_kind.
  - intros (Hdec & _ & Heq). exists o. split; [done|].
    rewrite (decode_id bytes limits o _ Hb Hl Hdec). cbn [mbind result_bind].
    by rewrite bool_decide_true.
Qed.

Lemma decode_verified_exact_witness :
  let bytes := default [] (ok (@logical_encode ascii_unicode metadata (OManifest sample_manifest))) in
  let o := @logical_stored ascii_unicode (OManifest sample_manifest) in
  @AnyObject.decode_verified ascii_unicode sample_digests bytes
    (mk_oid 0 HashAlgorithm.Sha256 (replicate 32 1)) bulk = Ok o.
Proof.
  intros bytes o. apply (@decode_verified_exact ascii_unicode sample_digests bytes _ bulk o).
  - vm_compute. reflexivity.
  - exact bulk_limits_ok.
  - split; [|split]; vm_compute; reflexivity.
Defined.

(** Resource limits only reject: whatever limits admit an encoding, the decoded object
    is the same one that the widest (bulk) profile gives. *)
Theorem decode_limits_monotone `{Unicode} bytes limits o :
  is_bytes bytes = true → limits_ok limits →
  AnyObject.decode bytes limits = Ok o → AnyObject.decode bytes bulk = Ok o.
Proof.
  intros Hb Hl (kd & s & m & -> & Hm & Hraw & Hfit & Hlen)%decode_iff; [|done..].
  apply decode_iff; [done|apply bulk_limits_ok|]. exists kd, s, m.
  rewrite bulk_kind_limits. rewrite fits_restricted in Hfit.
  apply andb_true_iff in Hfit as [_ Hfit]. by apply restricted_max_bytes in Hlen as [_ Hlen].
Qed.

(** The order in which a manifest lists its entries is immaterial: permuting the
    entries of a valid manifest gives a valid manifest with the same encoding. *)
Theorem manifest_order_irrelevant `{Unicode} policy entries entries' bytes :
  forallb ManifestEntry.wf entries = true → entries ≡ₚ entries' →
  encode_object (Manifest.mk policy entries) = Ok bytes →
  encode_object (Manifest.mk policy entries') = Ok bytes.
Proof.
  intros Hwf Hperm Henc. unfold encode_object, encode_object_with_limits in *.
  apply bind_Ok in Henc as ([] & Hval & Henc).
  pose proof (manifest_validate_Ok _ Hval) as (Hp & Hn & Hf). cbn [Manifest.entries] in *.
  change (validate_object (Manifest.mk policy entries')) with
    (Manifest.validate (Manifest.mk policy entries')).
  rewrite manifest_validate_intro by by rewrite <-Hperm. cbn [mbind result_bind].
  change (canonical_value (Manifest.mk policy ?es)) with
    (@Ok ObjectError.t _ (Map (Manifest.canonical_map (Manifest.mk policy es)))) in *.
  replace (Manifest.canonical_map (Manifest.mk policy entries'))
    with (Manifest.canonical_map (Manifest.mk policy entries)); [done|].
  unfold Manifest.canonical_map. cbn [Manifest.entries Manifest.policy_ref]. do 5 f_equal.
  apply forallb_Forall in Hwf.
  apply (key_lt_unique entry_key).
  - by apply manifest_sorted.
  - apply manifest_sorted; by rewrite <-Hperm.
  - by rewrite !sort_by_key_perm.
Qed.


(** The transitions an operation declares, in action order. *)
Definition declared_transitions (actions : list OperationActionV1.t) :
    list BoundReferenceTransition :=
  flat_map (λ a, match a with
    | OperationActionV1.BoundTransition key before after => [mk_transition key before after]
    | OperationActionV1.LineAdvance _ => []
    end) actions.

Lemma bound_transition_norm a :
  OperationActionV1.wf a = true →
  bound_transition (normalize (OperationActionV1.value a)) = Ok (declared_transitions [a]).
Proof.
  unfold bound_transition, OperationActionV1.value.
  destruct a as [key before after|d]; cbn [OperationActionV1.wf]; intros; split_andb.
  - destruct before; literal_map; shape; cbn [Z.eqb Pos.eqb negb]; shape;
      rewrite reference_key_norm by done; by shape.
  - literal_map. by shape.
Qed.

(** The storage layer reads back exactly the key-bound transitions an operation
    declared: decoding a schema-1 operation and projecting its transitions gives the
    bound transitions of its actions, in order, with their keys and references. *)
Theorem bound_transitions_faithful `{Unicode} o bytes limits :
  limits_ok limits → OperationV1.wf o = true →
  encode_object_with_limits o (restricted_by limits metadata) = Ok bytes →
  ∃ any, AnyObject.decode bytes limits = Ok any ∧
    bound_reference_transitions (AnyObject.decoded any)
    = Ok (Some (declared_transitions (OperationV1.actions o))).
Proof.
  intros Hl Hwf Henc. exists (stored o). split; [by apply stored_decode|].
  unfold stored. rewrite AnyObject.decoded_of_kind. unfold bound_reference_transitions.
  cbn [kind schema_version value negb orb].
  change (object_map o) with (OperationV1.canonical_map o). rewrite normalize_map.
  assert (optional_field (OperationV1.canonical_map o) 8
    = Some (Array (map OperationActionV1.value (OperationV1.actions o)))) as H8.
  { unfold OperationV1.canonical_map, OperationV1.unsigned_map.
    by destruct (OperationV1.public_envelope o), (OperationV1.private_payload o). }
  cbn [as_map mbind result_bind]. rewrite (field_norm (OperationV1.canonical_map o) 8 _
    (@storable_keys _ _ _ operation_v1_model _ o) H8).
  cbn [mbind result_bind normalize array].
  unfold OperationV1.wf in Hwf. split_andb.
  match goal with H : forallb OperationActionV1.wf _ = true |- _ => revert H end. clear.
  rewrite map_map. generalize (OperationV1.actions o) as l.
  assert (∀ l out, forallb OperationActionV1.wf l = true →
    try_fold (λ out a, ts ← bound_transition a; Ok (out ++ ts))
      (map (λ x, normalize (OperationActionV1.value x)) l) out
    = Ok (out ++ declared_transitions l)) as Hgen.
  { induction l as [|a l IH]; intros out Hl; cbn [map try_fold].
    { by rewrite app_nil_r. }
    cbn [forallb] in Hl. split_andb. rewrite bound_transition_norm by done.
    cbn [mbind result_bind]. rewrite IH by done. rewrite <-app_assoc. do 2 f_equal.
    by destruct a. }
  intros l Hl. by rewrite Hgen.
Qed.

