(* ===== verification/ReferencesFacts.v ===== *)
(** * Reference extraction succeeds on decoded objects

    The shape checks of the decoder cover every field that [references] reads, kind by
    kind, with one exception: the release-notes field of a release. *)

From S2P Require Import Prelude Machine Order Utf8 Canonical CanonicalFacts ObjectId Types Path Objects Fields Decode References DecodeFacts Storable StoredKinds ObjectSpec.
Import Fields DecodeObjectError.

Definition is_Ok {E A} (r : result E A) : Prop := ∃ a, r = Ok a.

Create HintDb edges.

Lemma is_Ok_Ok {E A} (a : A) : is_Ok (@Ok E A a).
Proof. by eexists. Qed.

Lemma is_Ok_bind {E A B} (r : result E A) (f : A → result E B) a :
  r = Ok a → is_Ok (f a) → is_Ok (r ≫= f).
Proof. by intros ->. Qed.

Lemma then_edges_Ok a b : is_Ok a → is_Ok b → is_Ok (a +++ b).
Proof. intros [x ->] [y ->]. by eexists. Qed.

Lemma for_edges_Ok {A} (f : A → result derr ReferenceEdge) l :
  Forall (λ x, is_Ok (f x)) l → is_Ok (for_edges f l).
Proof.
  unfold for_edges. induction 1 as [|x l [e He] _ [es IH]]; cbn; [by eexists|].
  rewrite He. cbn. rewrite IH. by eexists.
Qed.

Lemma concat_edges_Ok {A} (f : A → edges) l :
  Forall (λ x, is_Ok (f x)) l → is_Ok (concat_edges f l).
Proof.
  unfold concat_edges. intros Hl. generalize (@nil ReferenceEdge) as out.
  induction Hl as [|x l [e He] _ IH]; intros out; cbn; [by eexists|].
  rewrite He. cbn. apply IH.
Qed.

Lemma check_field {A} m k (f : Value → Z → result derr A) u :
  check m k f = Ok u → ∃ v a, optional_field m k = Some v ∧ f v k = Ok a.
Proof. unfold check. intros (v & Hv%field_Ok & (a & Ha & _)%bind_Ok)%bind_Ok. eauto. Qed.

Lemma add_field m k r e v i : optional_field m k = Some v → oid v k = Ok i → is_Ok (add m k r e).
Proof. unfold add. intros -> Hi. destruct v; rewrite ?Hi; by eexists. Qed.

Lemma add_check m k r e u : check m k oid = Ok u → is_Ok (add m k r e).
Proof. intros (v & i & Hv & Hi)%check_field. by eapply add_field. Qed.

Lemma add_optional m k r e u : check_optional m k oid = Ok u → is_Ok (add m k r e).
Proof.
  unfold check_optional. destruct (optional_field m k) as [v|] eqn:Hv.
  - intros (i & Hi & _)%bind_Ok. by eapply add_field.
  - intros _. unfold add. rewrite Hv. by eexists.
Qed.

Lemma add_chain m n k r e u : check_version_chain m n k = Ok u → is_Ok (add m k r e).
Proof. unfold check_version_chain. intros [_ H]%bail_Ok. by eapply add_optional. Qed.

Lemma oid_array_values v k u : oid_array v k = Ok u → is_Ok (oid_values v k).
Proof.
  unfold oid_array, oid_values. intros (a & -> & Ha)%bind_Ok. cbn. destruct u.
  apply try_for_each_Ok in Ha. induction Ha as [|x a Hx _ [ids IH]]; cbn; [by eexists|].
  apply bind_Ok in Hx as (i & Hi & _). rewrite Hi. cbn. rewrite IH. by eexists.
Qed.

Lemma add_array_values m k r e v :
  field m k = Ok v → is_Ok (oid_values v k) → is_Ok (add_array m k r e).
Proof.
  unfold add_array, oid_values. intros -> [ids Hids]. cbn.
  apply bind_Ok in Hids as (a & -> & Ha%try_map_Ok). cbn. apply for_edges_Ok.
  induction Ha as [|x i a ids Hx _ IH]; constructor; [|done]. rewrite Hx. by eexists.
Qed.

Lemma add_array_check m k r e u : check m k oid_array = Ok u → is_Ok (add_array m k r e).
Proof.
  intros (v & u' & Hv%field_Ok & Hu)%check_field.
  eapply add_array_values; [done|by eapply oid_array_values].
Qed.

Lemma add_array_sorted m k b r e u : Shapes.sorted_ids m k b = Ok u → is_Ok (add_array m k r e).
Proof.
  unfold Shapes.sorted_ids. intros (v & Hv & (ids & Hids & _)%bind_Ok)%bind_Ok.
  eapply add_array_values; [done|by eexists].
Qed.

Lemma exact_map_as_map v req opt k m : exact_map v req opt k = Ok m → as_map v = Ok m.
Proof. unfold exact_map. intros (m' & Hm & [_ [= <-]]%bail_Ok)%bind_Ok. done. Qed.

(** Replays the accessors that a successful check has evaluated. *)
Ltac replay :=
  repeat match goal with
  | H : exact_map ?v _ _ _ = Ok ?m |- context [as_map ?v] =>
      rewrite (exact_map_as_map _ _ _ _ _ H); cbn [mbind result_bind]
  | H : ?x = Ok _ |- context [?x] => rewrite H; cbn [mbind result_bind]
  | H : ?x = Some _ |- context [?x] => rewrite H; cbn [mbind result_bind]
  end.

Lemma typed_edge_Ok v k r kd : typed_ref_kind v k = Ok kd → is_Ok (typed_edge r k v).
Proof. unfold typed_ref_kind, typed_edge. intros H. inv_ok. replay. by eexists. Qed.

Lemma typed_ref_Ok v k u : typed_ref v k = Ok u → ∃ kd, typed_ref_kind v k = Ok kd.
Proof. unfold typed_ref. intros (kd & Hk & _)%fmap_Ok. eauto. Qed.

Lemma add_typed_check m k r u : check m k typed_ref = Ok u → is_Ok (add_typed m k r).
Proof.
  intros (v & u' & Hv%field_Ok & (kd & Hk)%typed_ref_Ok)%check_field. unfold add_typed. rewrite Hv.
  cbn. destruct (typed_edge_Ok v k r kd Hk) as [e ->]. by eexists.
Qed.

Lemma add_typed_array_sorted `{Unicode} m k r u :
  Shapes.sorted_refs m k = Ok u → is_Ok (add_typed_array m k r).
Proof.
  unfold Shapes.sorted_refs, add_typed_array.
  intros (v & Hv & (refs & Ha & ([] & Hrefs%try_for_each_Ok & _)%bind_Ok)%bind_Ok)%bind_Ok.
  replay. apply for_edges_Ok. eapply Forall_impl; [exact Hrefs|].
  intros x (kd & Hk)%typed_ref_Ok. by eapply typed_edge_Ok.
Qed.

Lemma policy_edge_Ok v k r u : policy_ref v k = Ok u → is_Ok (policy_edge r k v).
Proof. unfold policy_ref, policy_edge. intros H. inv_ok. replay. by eexists. Qed.

#[export] Hint Resolve is_Ok_Ok then_edges_Ok add_check add_optional add_chain add_array_check
  add_array_sorted add_typed_check add_typed_array_sorted : edges.

(** ** Policy edges *)

Lemma policy_edges_Ok kind m :
  (∀ k r v, (k, r) ∈ policy_fields kind → optional_field m k = Some v →
    ∃ u, policy_ref v k = Ok u) →
  is_Ok (policy_edges kind m).
Proof.
  intros Hp. unfold policy_edges. apply concat_edges_Ok, Forall_forall. intros [k r] Hk.
  destruct (optional_field m k) as [v|] eqn:Hv; [|apply is_Ok_Ok].
  destruct (Hp k r v Hk Hv) as [u Hu]. destruct (policy_edge_Ok v k r u Hu) as [e ->].
  by eexists.
Qed.

Lemma check_policy_field m k u v :
  check m k policy_ref = Ok u → optional_field m k = Some v → ∃ u, policy_ref v k = Ok u.
Proof. intros (v' & u' & Hv' & Hu)%check_field Hv. simplify_eq. eauto. Qed.

(** What [validate_fields] says beyond the shapes. *)
Lemma validate_fields_Ok `{Unicode} kind schema m :
  validate_fields kind schema m = Ok tt →
  validate_shapes kind schema m = Ok tt ∧
  (∀ v, optional_field m 2 = Some v → ∃ u, policy_ref v 2 = Ok u).
Proof.
  unfold validate_fields. destruct (field_sets kind) as [required optional]. intros H1. inv_ok.
  split; [done|]. intros v Hv.
  assert (has_field m 2 = true) as Hhas
    by (rewrite has_field_optional, Hv; by apply bool_decide_eq_true; eexists).
  rewrite Hhas, orb_true_r in *.
  match goal with H : (field m 2 ≫= _) = Ok _ |- _ =>
    apply bind_Ok in H as (v' & Hv'%field_Ok & Hp) end.
  simplify_eq. eauto.
Qed.

(** ** The kinds *)

(** Opens a successful shape check into the checks it made. *)
Ltac open_shape H :=
  cbn [try_for_each] in H; inv_ok;
  repeat match goal with
  | H : (bail_if _ with _; _) = Ok _ |- _ => apply bail_Ok in H as [? H]
  | H : (_ ≫= _) = Ok _ |- _ => apply bind_Ok in H as (? & ? & H)
  end.

Lemma snapshot_edges m u : Shapes.snapshot m = Ok u → is_Ok (Edges.snapshot m).
Proof.
  unfold Shapes.snapshot, Edges.snapshot. intros Hs. open_shape Hs.
  repeat apply then_edges_Ok; eauto with edges.
  eapply add_array_values; [eassumption|by eexists].
Qed.

Lemma change_revision_edges m u : Shapes.change_revision m = Ok u → is_Ok (Edges.change_revision m).
Proof. unfold Shapes.change_revision, Edges.change_revision. intros Hs. open_shape Hs. eauto 10 with edges. Qed.

Lemma line_state_edges m u : Shapes.line_state m = Ok u → is_Ok (Edges.line_state m).
Proof. unfold Shapes.line_state, Edges.line_state. intros Hs. open_shape Hs. eauto 10 with edges. Qed.

Lemma policy_kind_edges `{Unicode} m u : Shapes.policy m = Ok u → is_Ok (Edges.policy m).
Proof.
  unfold Shapes.policy, Edges.policy. intros Hs. open_shape Hs.
  repeat apply then_edges_Ok; eauto with edges.
  eapply add_array_values; [eassumption|by eexists].
Qed.

Lemma conflict_edges `{Unicode} m u : Shapes.conflict m = Ok u → is_Ok (Edges.conflict m).
Proof. unfold Shapes.conflict, Edges.conflict. intros Hs. open_shape Hs. eauto 10 with edges. Qed.

Lemma repository_root_edges `{Unicode} m u :
  Shapes.repository_root m = Ok u → is_Ok (Edges.repository_root m).
Proof.
  unfold Shapes.repository_root, Edges.repository_root. intros Hs. open_shape Hs.
  eauto 10 with edges.
Qed.

Lemma group_membership_edges `{Unicode} m u :
  Shapes.group_membership m = Ok u → is_Ok (Edges.group_membership m).
Proof.
  unfold Shapes.group_membership, Edges.group_membership. intros Hs. open_shape Hs.
  eauto 10 with edges.
Qed.

Lemma change_relation_edges m u : Shapes.change_relation m = Ok u → is_Ok (Edges.change_relation m).
Proof.
  unfold Shapes.change_relation, Edges.change_relation. intros Hs. open_shape Hs.
  eauto 10 with edges.
Qed.

Lemma conflict_resolution_edges `{Unicode} m u :
  Shapes.conflict_resolution m = Ok u → is_Ok (Edges.conflict_resolution m).
Proof.
  unfold Shapes.conflict_resolution, Edges.conflict_resolution. intros Hs. open_shape Hs.
  eauto 10 with edges.
Qed.

Lemma evidence_edges `{Unicode} kind m u : Shapes.evidence kind m = Ok u → is_Ok (Edges.evidence kind m).
Proof.
  unfold Shapes.evidence, Edges.evidence. intros Hs. open_shape Hs.
  repeat apply then_edges_Ok; eauto with edges. case_bool_decide; [|apply is_Ok_Ok].
  open_shape Hs. eauto with edges.
Qed.

Lemma projection_proof_edges m u :
  Shapes.projection_proof m = Ok u → is_Ok (Edges.projection_proof m).
Proof.
  unfold Shapes.projection_proof, Edges.projection_proof. intros Hs. open_shape Hs.
  eauto 10 with edges.
Qed.

Lemma build_provenance_edges `{Unicode} m u :
  Shapes.build_provenance m = Ok u → is_Ok (Edges.build_provenance m).
Proof.
  unfold Shapes.build_provenance, Edges.build_provenance. intros Hs. open_shape Hs.
  eauto 10 with edges.
Qed.

(** A loop that succeeded has visited every element. *)
Lemma try_fold_each {E A S} (f : S → A → result E S) l s s' :
  try_fold f l s = Ok s' → Forall (λ x, ∃ st st', f st x = Ok st') l.
Proof.
  intros Hl. eapply (try_fold_inv f (λ pre _, Forall (λ x, ∃ st st', f st x = Ok st') pre));
    [|constructor|exact Hl].
  intros pre x st st' Hpre _ Hx. apply Forall_app. split; [done|]. constructor; eauto.
Qed.

Lemma optional_field_in m k v : optional_field m k = Some v → (k, v) ∈ m.
Proof.
  induction m as [|[k' v'] m IH]; cbn; [done|].
  destruct (Z.eqb_spec k' k); [intros [= ->]; subst; left|right; auto].
Qed.

Lemma blob_content_exclusive m v w :
  length (List.filter (λ e, (e.1 =? 4) || (e.1 =? 5)) m) = 1%nat →
  optional_field m 4 = Some v → optional_field m 5 = Some w → False.
Proof.
  intros Hlen Hv%optional_field_in Hw%optional_field_in.
  apply list_elem_of_In in Hv, Hw.
  assert (In (4, v) (List.filter (λ e, (e.1 =? 4) || (e.1 =? 5)) m)) as Hv'
    by (apply List.filter_In; done).
  assert (In (5, w) (List.filter (λ e, (e.1 =? 4) || (e.1 =? 5)) m)) as Hw'
    by (apply List.filter_In; done).
  destruct (List.filter _ m) as [|e [|]]; try done. cbn in Hv', Hw'.
  destruct Hv' as [->|[]], Hw' as [[=]|[]].
Qed.

Lemma blob_edges m u : Shapes.blob m = Ok u → is_Ok (Edges.blob m).
Proof.
  unfold Shapes.blob, Edges.blob. intros Hs. open_shape Hs.
  destruct (optional_field m 5) as [w|] eqn:H5; [|apply is_Ok_Ok].
  destruct (optional_field m 4) as [v|] eqn:H4.
  { exfalso. eapply blob_content_exclusive; [|done|done].
    by apply negb_false_iff, Nat.eqb_eq in Hb. }
  match goal with H : (bail_if _ with _; _) = Ok _ |- _ => open_shape H end.
  match goal with H : field m 5 = Ok _ |- _ => apply field_Ok in H end. simplify_eq.
  replay. apply for_edges_Ok.
  match goal with H : try_fold Shapes.blob_chunk _ _ = Ok _ |- _ => apply try_fold_each in H as Hall end.
  eapply Forall_impl; [exact Hall|]. intros c (st & st' & Hx). unfold Shapes.blob_chunk in Hx.
  open_shape Hx. replay. by eexists.
Qed.

(** Values inside an in-range value are in range. *)
Lemma value_ok_field m k v : value_ok (Map m) = true → field m k = Ok v → value_ok v = true.
Proof.
  rewrite value_ok_map. intros Hm Hv%field_Ok%optional_field_in.
  eapply forallb_elem in Hv; [|exact Hm]. by apply andb_true_iff in Hv as [_ ?].
Qed.

Lemma value_ok_elem a x : value_ok (Array a) = true → x ∈ a → value_ok x = true.
Proof. apply forallb_elem. Qed.

Lemma array_Ok v k a : array v k = Ok a → v = Array a.
Proof. destruct v; cbn; naive_solver. Qed.

Lemma exact_map_Map v r o k m : exact_map v r o k = Ok m → v = Map m.
Proof. intros H%exact_map_as_map. destruct v; cbn in H; naive_solver. Qed.

Lemma manifest_entry_edges `{Unicode} s e s' :
  value_ok e = true → Shapes.manifest_entry s e = Ok s' → is_Ok (Edges.manifest_entry e).
Proof.
  intros Hok He. destruct s as [p fs]. unfold Shapes.manifest_entry in He.
  apply bind_Ok in He as (m & Hm & He). pose proof (exact_map_Map _ _ _ _ _ Hm) as ->.
  unfold Edges.manifest_entry. cbn [as_map mbind result_bind].
  open_shape He.
  match goal with H : unsigned ?f 3 = Ok ?k, H2 : field m 1 = Ok ?f |- _ =>
    pose proof (value_ok_field _ _ _ Hok H2) as Hrange;
    apply unsigned_Ok in H as Hf; rewrite Hf in Hrange, H2; clear H; rename k into tag end.
  replay. cbn [unsigned mbind result_bind].
  match goal with H : (4 <? tag) || _ = false |- _ =>
    apply orb_false_iff in H as [Hk%Z.ltb_ge _] end.
  apply is_u64_spec in Hrange.
  match goal with H : policy_ref ?v 3 = Ok _ |- _ =>
    destruct (policy_edge_Ok v 3 ReferenceRole.ManifestEntryPolicy _ H) as [pe Hpe] end.
  assert (tag = 0 ∨ tag = 1 ∨ tag = 2 ∨ tag = 3 ∨ tag = 4) as Htag by lia.
  destruct Htag as [->|[->|[->|[->| ->]]]]; cbn [mbind result_bind]; replay; by eexists.
Qed.

Lemma manifest_edges `{Unicode} m u :
  value_ok (Map m) = true → Shapes.manifest m = Ok u → is_Ok (Edges.manifest m).
Proof.
  unfold Shapes.manifest, Edges.manifest. intros Hok Hs. open_shape Hs. replay.
  match goal with H : try_fold _ _ _ = Ok _ |- _ => apply try_fold_each in H as Hall end.
  apply concat_edges_Ok. rewrite Forall_forall in Hall |- *. intros e He.
  destruct (Hall e He) as (st & st' & Hst). eapply manifest_entry_edges; [|exact Hst].
  eapply value_ok_elem; [|exact He].
  match goal with H : array _ 3 = Ok _ |- _ => apply array_Ok in H as -> end.
  by eapply value_ok_field.
Qed.

Lemma line_advance_edges v action line :
  line_advance v 8 = Ok line → field action 3 = Ok v → is_Ok (Edges.line_advance action).
Proof.
  unfold line_advance, Edges.line_advance. intros Hl Hf. open_shape Hl. replay.
  repeat apply then_edges_Ok.
  - apply concat_edges_Ok.
    repeat match goal with
    | H : try_for_each _ [_; _; _; _] = Ok _ |- _ => cbn [try_for_each] in H; open_shape H
    end.
    repeat constructor;
      match goal with |- is_Ok (field ?m ?k ≫= _) =>
        match goal with H : field m k = Ok ?f, H' : policy_ref ?f 8 = Ok _ |- _ =>
          rewrite H; cbn [mbind result_bind];
          match goal with |- is_Ok (policy_edge ?r _ _ ≫= _) =>
            destruct (policy_edge_Ok f 8 r _ H') as [e ->] end; by eexists
        end end.
  - replay. by eexists.
  - match goal with |- is_Ok (match ?o with _ => _ end) => destruct o end; [|apply is_Ok_Ok].
    inv_ok. replay. by eexists.
Qed.

Lemma transition_edges action before after :
  (∀ k v, k ∈ [before; after] → optional_field action k = Some v →
    ∃ kd, typed_ref_kind v 8 = Ok kd) →
  is_Ok (Edges.transition action before after).
Proof.
  intros Ht. unfold Edges.transition. apply concat_edges_Ok.
  repeat constructor;
    match goal with |- is_Ok (match optional_field _ ?k with _ => _ end) =>
      destruct (optional_field action k) as [v|] eqn:Hv; [|apply is_Ok_Ok];
      destruct (Ht k v) as [kd Hk]; [set_solver|done|]
    end;
    match goal with |- is_Ok (typed_edge ?r _ _ ≫= _) =>
      destruct (typed_edge_Ok v 8 r kd Hk) as [e ->]; by eexists end.
Qed.

Lemma operation_action_edges schema keys a keys' :
  Shapes.operation_action schema keys a = Ok keys' → is_Ok (Edges.operation_action a).
Proof.
  unfold Shapes.operation_action, Edges.operation_action.
  intros (m & Hm & (f0 & Hf0 & (tag & Htag & Ha)%bind_Ok)%bind_Ok)%bind_Ok.
  rewrite Hm. cbn [mbind result_bind]. rewrite Hf0. cbn [mbind result_bind]. rewrite Htag.
  cbn [mbind result_bind].
  destruct ((schema =? 0) && (tag =? 0)) eqn:E0;
    [|destruct (((schema =? 0) || (schema =? 1)) && (tag =? 1)) eqn:E1;
      [|destruct ((schema =? 1) && (tag =? 2)) eqn:E2; [|done]]].
  - apply andb_true_iff in E0 as [_ ->%Z.eqb_eq]. apply bind_Ok in Ha as (m' & Hm' & Ha).
    apply exact_map_as_map in Hm'. rewrite Hm in Hm'. simplify_eq. inv_ok.
    apply transition_edges. intros k v Hk Hv.
    apply elem_of_cons in Hk as [->|Hk]; [|apply list_elem_of_singleton in Hk as ->];
      rewrite Hv in *; [by eapply typed_ref_Ok|inv_ok; eauto].
  - apply andb_true_iff in E1 as [_ ->%Z.eqb_eq]. apply bind_Ok in Ha as (m' & Hm' & Ha).
    apply exact_map_as_map in Hm'. rewrite Hm in Hm'. simplify_eq.
    apply bind_Ok in Ha as (v & Hv & (line & Hl & _)%bind_Ok). by eapply line_advance_edges.
  - apply andb_true_iff in E2 as [_ ->%Z.eqb_eq]. apply bind_Ok in Ha as (m' & Hm' & Ha).
    apply exact_map_as_map in Hm'. rewrite Hm in Hm'. simplify_eq. inv_ok.
    apply transition_edges. intros k v Hk Hv.
    apply elem_of_cons in Hk as [->|Hk]; [|apply list_elem_of_singleton in Hk as ->].
    + rewrite Hv in *. inv_ok. eauto.
    + match goal with H : field _ 3 = Ok _ |- _ => apply field_Ok in H end. simplify_eq. eauto.
Qed.

Lemma operation_edges schema m u : Shapes.operation schema m = Ok u → is_Ok (Edges.operation m).
Proof.
  unfold Shapes.operation, Edges.operation. intros Hs. open_shape Hs.
  repeat apply then_edges_Ok; eauto with edges.
  - eapply add_array_values; [eassumption|by eexists].
  - replay. apply concat_edges_Ok.
    match goal with H : try_fold _ _ _ = Ok _ |- _ => apply try_fold_each in H as Hall end.
    eapply Forall_impl; [exact Hall|]. intros a (st & st' & Ha).
    by eapply operation_action_edges.
Qed.

Lemma key_bounds_Ok key v a : public_key v key = Ok a → is_Ok (Edges.key_bounds key v).
Proof.
  unfold public_key, Edges.key_bounds. intros Hp. open_shape Hp. cbn [try_for_each] in *. inv_ok. replay.
  apply then_edges_Ok;
    match goal with |- is_Ok (match ?o with _ => _ end) => destruct o end; try apply is_Ok_Ok;
    inv_ok; replay; by eexists.
Qed.

Lemma identity_edges `{Unicode} m u : Shapes.identity m = Ok u → is_Ok (Edges.identity m).
Proof.
  unfold Shapes.identity, Edges.identity. intros Hs. open_shape Hs.
  assert (∀ alg k s recs s', try_fold (Shapes.identity_key alg k) recs s = Ok s' →
    is_Ok (concat_edges (Edges.key_bounds k) recs)) as Hkeys.
  { intros alg k s recs s' Hall%try_fold_each. apply concat_edges_Ok.
    eapply Forall_impl; [exact Hall|]. intros v (st & st' & Hv).
    unfold Shapes.identity_key in Hv. apply bind_Ok in Hv as ([alg' id] & Hp & _).
    by eapply key_bounds_Ok. }
  repeat apply then_edges_Ok; eauto with edges.
  apply concat_edges_Ok. repeat constructor; replay; by eapply Hkeys.
Qed.

Lemma view_edges `{Unicode} m u : Shapes.view m = Ok u → is_Ok (Edges.view m).
Proof.
  unfold Shapes.view, Edges.view. intros Hs. open_shape Hs.
  repeat apply then_edges_Ok; eauto with edges. replay. apply for_edges_Ok.
  match goal with H : try_fold _ _ _ = Ok _ |- _ => apply try_fold_each in H as Hall end.
  eapply Forall_impl; [exact Hall|]. intros v (st & st' & Hv). unfold Shapes.view_line in Hv.
  open_shape Hv. replay. by eexists.
Qed.

Lemma migration_edges `{Unicode} m u : Shapes.migration m = Ok u → is_Ok (Edges.migration m).
Proof.
  unfold Shapes.migration, Edges.migration. intros Hs. open_shape Hs.
  apply then_edges_Ok; eauto with edges. replay. apply concat_edges_Ok.
  match goal with H : try_fold _ _ _ = Ok _ |- _ => apply try_fold_each in H as Hall end.
  eapply Forall_impl; [exact Hall|]. intros v ([o n] & st' & Hv). unfold Shapes.migration_mapping in Hv.
  open_shape Hv. replay. by eexists.
Qed.

(** Release notes are the one reference without a shape check. *)
Lemma release_edges `{Unicode} m u :
  Shapes.release m = Ok u → check_optional m 11 oid = Ok tt → is_Ok (Edges.release m).
Proof.
  unfold Shapes.release, Edges.release. intros Hs Hn. open_shape Hs.
  repeat apply then_edges_Ok; eauto with edges.
Qed.

(** The shape checks cover what [references] reads. *)
Lemma by_kind_Ok `{Unicode} kind schema m :
  value_ok (Map m) = true → validate_shapes kind schema m = Ok tt →
  (kind = ObjectKind.Release → check_optional m 11 oid = Ok tt) →
  is_Ok (Edges.by_kind kind m).
Proof.
  intros Hok Hs Hr. destruct kind; cbn [validate_shapes Edges.by_kind] in *;
    eauto using blob_edges, manifest_edges, snapshot_edges, change_revision_edges,
      line_state_edges, policy_kind_edges, conflict_edges, operation_edges, repository_root_edges,
      identity_edges, group_membership_edges, change_relation_edges, conflict_resolution_edges,
      evidence_edges, projection_proof_edges, build_provenance_edges, view_edges,
      migration_edges, release_edges, is_Ok_Ok.
  - unfold Shapes.secret_ref in Hs. open_shape Hs. eauto with edges.
  - unfold Shapes.subproject in Hs. open_shape Hs. eauto with edges.
  - unfold Shapes.marker in Hs. open_shape Hs. eauto with edges.
  - unfold Shapes.projection_rules in Hs. open_shape Hs. eauto with edges.
  - unfold Shapes.artifact in Hs. open_shape Hs. eauto with edges.
  - unfold Shapes.operation_payload in Hs. open_shape Hs. eauto with edges.
  - unfold Shapes.ruleset in Hs. open_shape Hs. eauto with edges.
Qed.

Lemma policy_fields_checked `{Unicode} kind schema m :
  validate_fields kind schema m = Ok tt →
  ∀ k r v, (k, r) ∈ policy_fields kind → optional_field m k = Some v →
  ∃ u, policy_ref v k = Ok u.
Proof.
  intros [Hs H2]%validate_fields_Ok k r v Hk Hv.
  destruct kind; cbn [policy_fields validate_shapes] in *;
    try (apply list_elem_of_singleton in Hk as [= -> ->]; by apply H2).
  - unfold Shapes.change_revision in Hs. open_shape Hs.
    repeat (apply elem_of_cons in Hk as [[= -> ->]|Hk]; [by eauto using check_policy_field|]).
    by apply not_elem_of_nil in Hk.
  - unfold Shapes.line_state in Hs. open_shape Hs.
    repeat (apply elem_of_cons in Hk as [[= -> ->]|Hk]; [by eauto using check_policy_field|]).
    by apply not_elem_of_nil in Hk.
  - unfold Shapes.release in Hs. open_shape Hs.
    repeat (apply elem_of_cons in Hk as [[= -> ->]|Hk]; [by eauto using check_policy_field|]).
    by apply not_elem_of_nil in Hk.
Qed.

(** Deduplication keeps each edge once. *)
Lemma dedup_spec out : NoDup (dedup out) ∧ ∀ e, e ∈ dedup out ↔ e ∈ out.
Proof.
  unfold dedup. assert (∀ acc, NoDup acc →
    NoDup (fold_left push_unique out acc) ∧
    ∀ e, e ∈ fold_left push_unique out acc ↔ e ∈ acc ∨ e ∈ out) as Hgen.
  { induction out as [|x out IH]; intros acc Hacc; cbn.
    { split; [done|]. intros e. rewrite elem_of_nil. tauto. }
    destruct (IH (push_unique acc x)) as [Hn He].
    { unfold push_unique. case_bool_decide; [done|]. by apply NoDup_snoc. }
    split; [done|]. intros e. rewrite He, elem_of_cons. unfold push_unique.
    case_bool_decide; [|rewrite elem_of_app, list_elem_of_singleton]; naive_solver. }
  destruct (Hgen [] (NoDup_nil_2)) as [Hn He]. split; [done|].
  intros e. rewrite He, elem_of_nil. tauto.
Qed.

(** ** Claims *)

(** C21: Whatever decodes can be walked: for every object the decoder accepts, [references]
    succeeds and lists each edge once.  For a release this needs its release-notes field,
    when present, to be an object identifier, which is the one reference the decoder
    does not check. *)
Theorem references_total `{Unicode} bytes limits o m :
  is_bytes bytes = true → limits_ok limits → AnyObject.decode bytes limits = Ok o →
  value (AnyObject.decoded o) = Map m →
  (kind (AnyObject.decoded o) = ObjectKind.Release → check_optional m 11 oid = Ok tt) →
  ∃ es, references (AnyObject.decoded o) = Ok es ∧ NoDup es.
Proof.
  intros Hb Hl (kd & schema & m' & -> & (_ & Hok & _ & _ & _ & Hval) & _)%decode_iff; [|done..].
  rewrite AnyObject.decoded_of_kind. cbn [kind value]. intros [= ->] Hr.
  unfold references. cbn [kind value as_map mbind result_bind].
  destruct (policy_edges_Ok kd m) as [pe Hpe].
  { by eapply policy_fields_checked. }
  apply validate_fields_Ok in Hval as [Hs _].
  destruct (by_kind_Ok kd schema m Hok Hs Hr) as [be Hbe].
  unfold then_edges. rewrite Hpe. cbn [mbind result_bind]. rewrite Hbe. cbn [mbind result_bind].
  eexists. split; [done|]. apply dedup_spec.
Qed.

Lemma references_total_witness :
  let o := @logical_stored ascii_unicode (OManifest sample_manifest) in
  ∃ es, references (AnyObject.decoded o) = Ok es ∧ NoDup es.
Proof.
  intros o.
  apply (@references_total ascii_unicode
    (default [] (ok (@logical_encode ascii_unicode metadata (OManifest sample_manifest)))) bulk o
    (norm_fields (@Manifest.canonical_map ascii_unicode sample_manifest))).
  - vm_compute. reflexivity.
  - exact bulk_limits_ok.
  - vm_compute. reflexivity.
  - vm_compute. reflexivity.
  - vm_compute. discriminate.
Defined.

(** A release whose release-notes field holds an integer instead of an identifier. *)
Definition bad_release : fields :=
  Release.canonical_map (Release.mk sample_policy (replicate 16 1) 3 (sample_oid 1) sample_policy
    (sample_oid 2) (sample_oid 3) (sample_oid 4) (lit "1.0") None [] [] []
    (WallTime.mk 0 0) [sample_signature SignaturePurpose.Release])
  ++ [(11, Unsigned 7)].

(** The decoder accepts a release whose release-notes reference is not an object
    identifier, although the comment in [validate_fields] says that all identifier fields
    are structurally checked there; extracting the references of the accepted object
    then fails. *)
Theorem release_notes_unchecked :
  ∃ bytes o, @AnyObject.decode ascii_unicode bytes bulk = Ok o ∧
    references (AnyObject.decoded o) = Err (Field 11).
Proof.
  exists (raw (Map bad_release)),
    (AnyObject.Release (mk_decoded ObjectKind.Release 0 (Map (norm_fields bad_release)))).
  split; vm_compute; reflexivity.
Qed.
