(* ===== verification/Bootstrap.v ===== *)
(** * Repository bootstrap: [BootstrapGraph] of [crates/rgit-objects/src/extended.rs]

    The objects a new repository starts from, and the check that they form one linked and
    signed whole. *)

From S2P Require Import Prelude Machine Order Utf8 Canonical CanonicalFacts ObjectId Types Path Objects Fields Decode DecodeFacts Storable StoredKinds Extended ExtendedKinds ObjectSpec.

Module BootstrapGraph.
Record t := mk {
  root : RepositoryRoot.t;
  root_policy : Policy.t;
  identities : list Identity.t;
  key_envelope_set : KeyEnvelopeSet.t;
  genesis_operation : Operation.t;
  initial_line_states : list LineState.t }.

Section validate.
Context `{Unicode, Digests}.

Definition identity_link (algorithm : HashAlgorithm.t) (identity : Identity.t) :
    result ObjectError.t ObjectId.ObjectId :=
  _ ← Identity.validate identity;
  bail_if negb (Identity.version identity =? 0)
          || bool_decide (is_Some (Identity.policy_ref identity))
          || bool_decide (is_Some (Identity.previous identity))
          || bool_decide (is_Some (Identity.activation_operation identity))
    with ObjectError.Invalid "bootstrap identity has nonbootstrap links";
  object_id identity algorithm.

Definition line_link (algorithm : HashAlgorithm.t) (policy_ref : PolicyRef.t)
    (genesis : Operation.t) (line : LineState.t) : result ObjectError.t ObjectId.ObjectId :=
  _ ← LineState.validate line;
  bail_if negb (LineState.generation line =? 0)
          || bool_decide (is_Some (LineState.previous_state line))
          || negb (bool_decide (LineState.policy_ref line = policy_ref))
    with ObjectError.Invalid "initial line state is not a policy-bound genesis state";
  _ ← LineTransaction.validate_transaction line genesis;
  object_id line algorithm.

(** [self.identities.iter().any(..)] of the loop over the root's signatures. *)
Definition signed_by_identity (identities : list Identity.t) (signature : Signature.t) : bool :=
  existsb (λ identity,
    bool_decide (Identity.subject_kind identity = IdentitySubjectKind.Actor)
    && bool_decide (Identity.subject identity = Signature.signer signature)
    && existsb (λ key, bool_decide
         (PublicKeyRecord.key_id key = Signature.signing_key_id signature))
         (Identity.signing_keys identity)) identities.

Definition validate (self : t) (algorithm : HashAlgorithm.t) : result ObjectError.t () :=
  let root := root self in
  let policy := root_policy self in
  let genesis := genesis_operation self in
  _ ← RepositoryRoot.validate root;
  _ ← Policy.validate policy;
  _ ← KeyEnvelopeSet.validate (key_envelope_set self);
  _ ← Operation.validate genesis;
  bail_if bool_decide (is_Some (Policy.policy_ref policy))
          || negb (Policy.version_sequence policy =? 0)
          || bool_decide (is_Some (Policy.previous_version policy))
    with ObjectError.Invalid "bootstrap root policy must be version zero and parentless";
  bail_if bool_decide (is_Some (KeyEnvelopeSet.policy_ref (key_envelope_set self)))
          || negb (KeyEnvelopeSet.epoch (key_envelope_set self) =? 0)
    with ObjectError.Invalid "bootstrap key envelope set must be epoch zero and policy-free";
  bail_if bool_decide (length (identities self) = 0%nat)
          || bool_decide (length (initial_line_states self) = 0%nat)
    with ObjectError.Invalid "bootstrap identity and line sets must not be empty";
  identity_ids ← try_map (identity_link algorithm) (identities self);
  bail_if negb (bool_decide (identity_ids = RepositoryRoot.trusted_identities root))
    with ObjectError.Invalid
      "repository root identity links do not match bootstrap identities";
  policy_oid ← object_id policy algorithm;
  (* the operands of [||] are computed in order, each only when those before it match *)
  mismatch ←
    (if negb (bool_decide (RepositoryRoot.root_policy root = policy_oid)) then Ok true
     else
       envelope_oid ← object_id (key_envelope_set self) algorithm;
       if negb (bool_decide (RepositoryRoot.bootstrap_key_envelope_set root = envelope_oid))
       then Ok true
       else
         genesis_oid ← object_id genesis algorithm;
         Ok (negb (bool_decide (RepositoryRoot.genesis_operation root = genesis_oid))));
  bail_if (mismatch : bool)
    with ObjectError.Invalid "repository root bootstrap object link mismatch";
  bail_if negb (bool_decide (Policy.key_envelope_set policy
                             = RepositoryRoot.bootstrap_key_envelope_set root))
    with ObjectError.Invalid "root policy does not name bootstrap key envelope set";
  bail_if negb (bool_decide (Operation.parents genesis = []))
    with ObjectError.Invalid "genesis operation must not have parents";
  let policy_ref := PolicyRef.mk (Policy.policy_id policy) (RepositoryRoot.root_policy root) in
  bail_if negb (bool_decide (Operation.policy_ref genesis = policy_ref))
    with ObjectError.Invalid "genesis operation does not use the root policy";
  line_ids ← try_map (line_link algorithm policy_ref genesis) (initial_line_states self);
  bail_if negb (bool_decide (line_ids = RepositoryRoot.initial_line_states root))
    with ObjectError.Invalid "repository root line links do not match initial states";
  try_for_each (λ signature,
    bail_if negb (signed_by_identity (identities self) signature)
      with ObjectError.Invalid "repository root signer is not a bootstrap identity key";
    Ok tt) (RepositoryRoot.signatures root).
End validate.

Definition wf `{Unicode} (self : t) : bool :=
  RepositoryRoot.wf (root self) && Policy.wf (root_policy self)
  && forallb Identity.wf (identities self) && KeyEnvelopeSet.wf (key_envelope_set self)
  && Operation.wf (genesis_operation self) && forallb LineState.wf (initial_line_states self).
End BootstrapGraph.
Import BootstrapGraph.

Lemma or_else_Ok {E} (P : Prop) `{Decision P} (r : result E bool) :
  (if negb (bool_decide P) then Ok true else r) = Ok false ↔ P ∧ r = Ok false.
Proof. case_bool_decide; cbn; naive_solver. Qed.

Lemma Forall2_elem_l {A B} (P : A → B → Prop) l k :
  Forall2 P l k → ∀ x, x ∈ l → ∃ y, y ∈ k ∧ P x y.
Proof.
  induction 1 as [|x y l k Hxy _ IH]; intros z; [by intros ?%not_elem_of_nil|].
  rewrite elem_of_cons. intros [->|Hz]; [exists y; split; [left|done]|].
  destruct (IH z Hz) as (w & ? & ?). exists w. split; [by right|done].
Qed.

Section bootstrap.
Context `{Unicode, Digests}.

(** The encoding of [x] passes the verified decoding under [id], as an object of its kind. *)
Definition verifies (x : LogicalObject) (id : ObjectId.ObjectId) : Prop :=
  ∃ bytes o, logical_encode (kind_limits (logical_kind x)) x = Ok bytes ∧
    AnyObject.decode_verified bytes id bulk = Ok o ∧
    kind (AnyObject.decoded o) = logical_kind x.

Lemma id_verifies x algorithm id :
  logical_wf x = true → logical_id algorithm x = Ok id → verifies x id.
Proof.
  intros Hwf Hid. assert (∃ v, logical_value x = Ok v) as [v Hv].
  { destruct x; unfold logical_value, with_object; rewrite storable_value; by eexists. }
  destruct (logical_verified x algorithm id v Hwf Hv Hid) as (bytes & o & Henc & Hver & Hd).
  exists bytes, o. by rewrite Hd.
Qed.

(** What the repository root vouches for. *)
Record trusted (g : BootstrapGraph.t) : Prop := {
  trusted_policy : verifies (OPolicy (root_policy g)) (RepositoryRoot.root_policy (root g));
  trusted_envelopes :
    verifies (OKeyEnvelopeSet (key_envelope_set g))
      (RepositoryRoot.bootstrap_key_envelope_set (root g)) ∧
    Policy.key_envelope_set (root_policy g)
    = RepositoryRoot.bootstrap_key_envelope_set (root g);
  trusted_genesis :
    verifies (OOperation (genesis_operation g)) (RepositoryRoot.genesis_operation (root g)) ∧
    Operation.parents (genesis_operation g) = [];
  trusted_identities :
    Forall2 (λ i, verifies (OIdentity i)) (identities g)
      (RepositoryRoot.trusted_identities (root g)) ∧
    NoDup (RepositoryRoot.trusted_identities (root g));
  trusted_lines :
    Forall2 (λ l, verifies (OLineState l)) (initial_line_states g)
      (RepositoryRoot.initial_line_states (root g)) ∧
    NoDup (RepositoryRoot.initial_line_states (root g));
  (* every line starts at generation zero, under the root policy, by one declared advance *)
  trusted_starts l : l ∈ initial_line_states g →
    LineState.generation l = 0 ∧ LineState.previous_state l = None ∧
    LineState.policy_ref l
    = PolicyRef.mk (Policy.policy_id (root_policy g)) (RepositoryRoot.root_policy (root g)) ∧
    ∃ d, OperationAction.LineAdvance d ∈ Operation.actions (genesis_operation g) ∧
      LineAdvanceDeclaration.matches d l = true ∧
      LineTransaction.matching l (Operation.actions (genesis_operation g)) = 1%nat;
  (* every root signature is by a signing key of an actor among the identities *)
  trusted_signers s : s ∈ RepositoryRoot.signatures (root g) →
    Signature.purpose s = SignaturePurpose.RepositoryRoot ∧
    ∃ i k, i ∈ identities g ∧ k ∈ Identity.signing_keys i ∧
      Identity.subject_kind i = IdentitySubjectKind.Actor ∧
      Identity.subject i = Signature.signer s ∧
      PublicKeyRecord.key_id k = Signature.signing_key_id s ∧
      PublicKeyRecord.algorithm k = PublicKeyAlgorithm.Ed25519;
  trusted_signed : RepositoryRoot.signatures (root g) ≠ [] }.

Lemma sorted_unique_ids_nodup ids what :
  Registry.sorted_unique_ids ids what = Ok tt → NoDup ids.
Proof.
  unfold Registry.sorted_unique_ids. intros Hs. inv_ok.
  apply any_window_geb_false in Hb0. clear Hb.
  induction Hb0 as [|x l _ IH Hx]; constructor; [|done].
  intros Hin. rewrite Forall_forall in Hx. by apply (lt_irrefl x), Hx.
Qed.

Lemma identity_link_Ok algorithm i id :
  identity_link algorithm i = Ok id →
  Identity.validate i = Ok tt ∧ logical_id algorithm (OIdentity i) = Ok id.
Proof. unfold identity_link. intros Hl. inv_ok. by destruct x. Qed.

Lemma line_link_Ok algorithm policy genesis l id :
  line_link algorithm policy genesis l = Ok id →
  LineState.generation l = 0 ∧ LineState.previous_state l = None ∧
  LineState.policy_ref l = policy ∧
  LineTransaction.matching l (Operation.actions genesis) = 1%nat ∧
  logical_id algorithm (OLineState l) = Ok id.
Proof.
  unfold line_link. intros Hl. inv_ok.
  apply orb_false_iff in Hb as [[Hg%negb_false_iff%Z.eqb_eq Hp]%orb_false_iff
    Hr%negb_false_iff%bool_decide_eq_true].
  apply bool_decide_eq_false in Hp. destruct (LineState.previous_state l); [by destruct Hp|].
  match goal with H : LineTransaction.validate_transaction _ _ = Ok _ |- _ =>
    unfold LineTransaction.validate_transaction in H end. inv_ok.
  split_and!; try done. by apply Nat.eqb_eq, negb_false_iff.
Qed.

Lemma matching_one l actions :
  LineTransaction.matching l actions = 1%nat →
  ∃ d, OperationAction.LineAdvance d ∈ actions ∧ LineAdvanceDeclaration.matches d l = true.
Proof.
  unfold LineTransaction.matching. destruct (List.filter _ actions) as [|a as'] eqn:E; [done|]. intros _.
  assert (a ∈ List.filter (λ a, match a with
    | OperationAction.LineAdvance d => LineAdvanceDeclaration.matches d l
    | _ => false end) actions) as Hin by (rewrite E; left).
  apply list_elem_of_In, filter_In in Hin as [Hin%list_elem_of_In Hm].
  destruct a as [|d]; [done|]. by exists d.
Qed.

Lemma identity_signing_key i k :
  Identity.validate i = Ok tt → k ∈ Identity.signing_keys i →
  PublicKeyRecord.algorithm k = PublicKeyAlgorithm.Ed25519.
Proof.
  unfold Identity.validate. intros Hv Hk. inv_ok. apply orb_false_iff in Hb2 as [Hs _].
  apply (existsb_false_elem _ _ _ Hs), negb_false_iff in Hk. by apply bool_decide_eq_true in Hk.
Qed.

Lemma signed_by_identity_spec all s :
  signed_by_identity all s = true →
  ∃ i k, i ∈ all ∧ k ∈ Identity.signing_keys i ∧
    Identity.subject_kind i = IdentitySubjectKind.Actor ∧
    Identity.subject i = Signature.signer s ∧
    PublicKeyRecord.key_id k = Signature.signing_key_id s.
Proof.
  unfold signed_by_identity. rewrite existsb_exists. intros (i & Hi%list_elem_of_In & Hs). split_andb.
  match goal with H : existsb _ _ = true |- _ =>
    apply existsb_exists in H as (k & Hk%list_elem_of_In & Hid%bool_decide_eq_true) end.
  exists i, k. split_and!; try done; by eapply bool_decide_eq_true_1.
Qed.

Lemma links_verify {A} (link : A → result ObjectError.t ObjectId.ObjectId) (inj : A → LogicalObject)
    algorithm (l : list A) ids :
  try_map link l = Ok ids → (∀ x, x ∈ l → logical_wf (inj x) = true) →
  (∀ x id, link x = Ok id → logical_id algorithm (inj x) = Ok id) →
  Forall2 (λ x, verifies (inj x)) l ids.
Proof.
  intros Hl%try_map_Ok Hwf Hid. induction Hl as [|x id l ids Hx Hl IH]; constructor.
  - eapply id_verifies; [apply Hwf; left|eauto].
  - apply IH. intros y Hy. apply Hwf. by right.
Qed.

Lemma root_checks g algorithm :
  BootstrapGraph.validate g algorithm = Ok tt →
  RepositoryRoot.validate (root g) = Ok tt ∧
  try_map (identity_link algorithm) (identities g)
    = Ok (RepositoryRoot.trusted_identities (root g)) ∧
  object_id (root_policy g) algorithm = Ok (RepositoryRoot.root_policy (root g)) ∧
  object_id (key_envelope_set g) algorithm
    = Ok (RepositoryRoot.bootstrap_key_envelope_set (root g)) ∧
  object_id (genesis_operation g) algorithm = Ok (RepositoryRoot.genesis_operation (root g)) ∧
  Policy.key_envelope_set (root_policy g) = RepositoryRoot.bootstrap_key_envelope_set (root g) ∧
  Operation.parents (genesis_operation g) = [] ∧
  try_map (line_link algorithm
      (PolicyRef.mk (Policy.policy_id (root_policy g)) (RepositoryRoot.root_policy (root g)))
      (genesis_operation g)) (initial_line_states g)
    = Ok (RepositoryRoot.initial_line_states (root g)) ∧
  Forall (λ s, signed_by_identity (identities g) s = true) (RepositoryRoot.signatures (root g)).
Proof.
  unfold BootstrapGraph.validate. intros Hv. inv_ok.
  repeat match goal with x : () |- _ => destruct x end.
  repeat match goal with H : negb (bool_decide _) = false |- _ =>
    apply negb_false_iff, bool_decide_eq_true in H end.
  match goal with H : (if negb _ then Ok true else _) = Ok false |- _ =>
    apply or_else_Ok in H as [<- (? & ? & [<- H]%or_else_Ok)%bind_Ok];
    apply bind_Ok in H as (? & ? & [= H%negb_false_iff%bool_decide_eq_true]) end. subst.
  split_and!; try done; try congruence.
  apply try_for_each_Ok in Hv. eapply Forall_impl; [exact Hv|].
  intros s [Hs _]%bail_Ok. by apply negb_false_iff in Hs.
Qed.

(** C20: A repository starts from a trusted whole. If the bootstrap check accepts, then every
    object the repository root names is the supplied one: its encoding passes the verified
    decoding under the named identifier, as an object of the right kind, and no name occurs
    twice; the root policy names the same key envelopes; the genesis operation has no
    parents; every line starts at generation zero under the root policy and is declared by
    exactly one advance of the genesis operation; and the root carries signatures, each by
    an Ed25519 signing key of an actor among the supplied identities. *)
Theorem bootstrap_trusted g algorithm :
  BootstrapGraph.wf g = true → BootstrapGraph.validate g algorithm = Ok tt → trusted g.
Proof.
  unfold BootstrapGraph.wf. intros Hwf Hval. split_andb.
  destruct (root_checks g algorithm Hval) as
    (Hroot & Hids & Hpol & Henv & Hgen & Hkey & Hpar & Hlines & Hsigs).
  unfold RepositoryRoot.validate in Hroot. inv_ok.
  repeat match goal with x : () |- _ => destruct x end.
  match goal with H : Registry.signatures _ _ = Ok tt |- _ => unfold Registry.signatures in H end. inv_ok.
  constructor.
  - by apply (id_verifies _ algorithm).
  - split; [by apply (id_verifies _ algorithm)|done].
  - split; [by apply (id_verifies _ algorithm)|done].
  - split; [|by eapply sorted_unique_ids_nodup].
    eapply (links_verify _ OIdentity); [exact Hids| |].
    + intros i Hi. eapply (forallb_elem Identity.wf); [|exact Hi]; done.
    + intros i id Hi. by apply identity_link_Ok in Hi as [_ ?].
  - split; [|by eapply sorted_unique_ids_nodup].
    eapply (links_verify _ OLineState); [exact Hlines| |].
    + intros l Hl. eapply (forallb_elem LineState.wf); [|exact Hl]; done.
    + intros l id Hl. by apply line_link_Ok in Hl as (_ & _ & _ & _ & ?).
  - intros l Hl. apply try_map_Ok in Hlines.
    destruct (Forall2_elem_l _ _ _ Hlines l Hl) as (id & _ & Hlink).
    apply line_link_Ok in Hlink as (? & ? & ? & Hm & _). split_and!; try done.
    destruct (matching_one _ _ Hm) as (d & ? & ?). by exists d.
  - intros s Hs. split.
    + apply (existsb_false_elem _ _ _ Hb1), negb_false_iff in Hs. by apply bool_decide_eq_true in Hs.
    + rewrite Forall_forall in Hsigs.
      destruct (signed_by_identity_spec _ _ (Hsigs s Hs)) as (i & k & Hi & Hk & ? & ? & ?).
      apply try_map_Ok in Hids. destruct (Forall2_elem_l _ _ _ Hids i Hi) as (id & _ & Hlink).
      apply identity_link_Ok in Hlink as [Hv _]. exists i, k. split_and!; try done.
      by eapply identity_signing_key.
  - by apply bool_decide_eq_false in Hb0.
Qed.
End bootstrap.

(** A smallest repository: one identity, one line, all identifiers under constant digests. *)
Definition boot_oid : ObjectId.ObjectId := mk_oid 0 HashAlgorithm.Sha256 (replicate 32 1).
Definition boot_ref : PolicyRef.t := PolicyRef.mk (replicate 16 5) boot_oid.
Definition boot_signature (p : SignaturePurpose.t) : Signature.t :=
  Signature.mk SignatureAlgorithm.Ed25519 (replicate 16 1) (replicate 32 2) (replicate 64 3) p.
Definition boot_advance : LineAdvanceDeclaration.t := LineAdvanceDeclaration.mk boot_ref
  (replicate 16 9) (lit "main") (sample_oid 8) 0 None boot_ref boot_ref boot_ref boot_ref.
Definition boot_graph : BootstrapGraph.t := BootstrapGraph.mk
  (RepositoryRoot.mk (replicate 16 3) boot_oid [boot_oid] boot_oid boot_oid [boot_oid]
     FilesystemProfile.Portable [boot_signature SignaturePurpose.RepositoryRoot])
  (Policy.mk None (replicate 16 5) 0 None [] [] RedactionMode.Omit DerivationRule.NoDerivation []
     0 boot_oid [] [] [boot_signature SignaturePurpose.Policy])
  [Identity.mk None IdentitySubjectKind.Actor (replicate 16 1) 0 None
     [PublicKeyRecord.mk PublicKeyAlgorithm.Ed25519 (replicate 32 2) (replicate 32 4) None None]
     [] (replicate 16 1) IdentityStatus.Active None None
     [boot_signature SignaturePurpose.Identity]]
  (KeyEnvelopeSet.mk None 0 KeyEnvelopeSuite.X25519HkdfSha256Aes256Gcm
     [RecipientEnvelope.mk (Principal.mk PrincipalKind.Actor [7]) (replicate 32 2) [1; 2; 3]])
  (Operation.mk boot_ref [] (replicate 16 1) (replicate 16 8) 0 (WallTime.mk 1700000000 0)
     [OperationAction.LineAdvance boot_advance] [] None None
     (boot_signature SignaturePurpose.Operation) (lit "rgit"))
  [LineState.mk boot_ref (replicate 16 9) (lit "main") (sample_oid 8) 0 None
     boot_ref boot_ref boot_ref boot_ref boot_oid (boot_signature SignaturePurpose.LineState)].

Lemma bootstrap_trusted_witness :
  @BootstrapGraph.validate ascii_unicode sample_digests boot_graph HashAlgorithm.Sha256 = Ok tt ∧
  @trusted ascii_unicode sample_digests boot_graph.
Proof.
  split; [vm_compute; reflexivity|].
  apply (@bootstrap_trusted ascii_unicode sample_digests boot_graph HashAlgorithm.Sha256);
    vm_compute; reflexivity.
Defined.
