(* ===== verification/FastCdc.v ===== *)
(** * Content-defined chunking: [crates/rgit-objects/src/fastcdc.rs]

    The frozen FastCDC profile, its incremental chunker and the one canonical
    representation of a byte string as a blob. The theorems relate the chunker to a
    declarative description of its cut points, show that its output does not depend on
    how the stream was segmented, and that the blobs it builds are valid objects. *)

From S2P Require Import Prelude Machine Order Utf8 Canonical CanonicalFacts ObjectId Types Path Objects Fields Decode DecodeFacts SignatureOrder Storable StoredKinds.

Definition FASTCDC_V0_GEAR_SEED : Z := 0x7267_6974_6663_6463.
Definition FASTCDC_V0_EARLY_MASK : Z := Z.shiftl 1 21 - 1.
Definition FASTCDC_V0_LATE_MASK : Z := Z.shiftl 1 19 - 1.

Definition fastcdc_v0_gear (byte : Z) : Z :=
  let value := wrapping_add FASTCDC_V0_GEAR_SEED
                 (wrapping_mul (byte + 1) 0x9e37_79b9_7f4a_7c15) in
  let value := wrapping_mul (Z.lxor value (Z.shiftr value 30)) 0xbf58_476d_1ce4_e5b9 in
  let value := wrapping_mul (Z.lxor value (Z.shiftr value 27)) 0x94d0_49bb_1331_11eb in
  Z.lxor value (Z.shiftr value 31).

Module FastCdcV0.
Record t := mk { pending : list Z; rolling : Z }.

Definition new : t := mk [] 0.

(** The body of the loop of [push], on the completed chunks and the chunker. *)
Definition push_byte (state : list (list Z) * t) (byte : Z) : list (list Z) * t :=
  let '(completed, self) := state in
  let pending := pending self ++ [byte] in
  let length := len pending in
  if length <? FASTCDC_V0_MIN_SIZE then (completed, mk pending (rolling self)) else
  let rolling := wrapping_add (rotate_left (rolling self) 1) (fastcdc_v0_gear byte) in
  let mask := if length <? FASTCDC_V0_TARGET_SIZE then FASTCDC_V0_EARLY_MASK
              else FASTCDC_V0_LATE_MASK in
  if (Z.land rolling mask =? 0) || (length =? FASTCDC_V0_MAX_SIZE)
  then (completed ++ [pending], mk [] 0)
  else (completed, mk pending rolling).

Definition push (self : t) (input : list Z) : list (list Z) * t :=
  fold_left push_byte input ([], self).

Definition finish (self : t) : list (list Z) :=
  match pending self with [] => [] | _ => [pending self] end.
End FastCdcV0.

Definition fastcdc_v0_chunks (bytes : list Z) : list (list Z) :=
  let '(chunks, chunker) := FastCdcV0.push FastCdcV0.new bytes in
  chunks ++ FastCdcV0.finish chunker.

Record ChunkedBlob := mk_chunked { blob : Blob.t; chunks : list Chunk.t }.

Definition from_bytes_fastcdc_v0 `{Unicode, Digests} (policy_ref : PolicyRef.t)
    (bytes : list Z) (hash_algorithm : HashAlgorithm.t) : result ObjectError.t ChunkedBlob :=
  if len bytes <=? MAX_INLINE_BLOB_BYTES then
    Ok (mk_chunked (Blob.mk policy_ref (len bytes) (BlobContent.Inline bytes) None None) [])
  else
    let chunks := map (Chunk.mk policy_ref) (fastcdc_v0_chunks bytes) in
    references ← try_map (λ chunk, id ← object_id chunk hash_algorithm;
                           Ok (ChunkRef.mk id (len (Chunk.bytes chunk)))) chunks;
    Ok (mk_chunked (Blob.mk policy_ref (len bytes) (BlobContent.Chunks references)
                      (Some ChunkProfile.fastcdc_v0) None) chunks).

(** Pushing the segments of a stream one after the other, then finishing. *)
Definition push_all (self : FastCdcV0.t) (segments : list (list Z)) :
    list (list Z) * FastCdcV0.t :=
  fold_left (λ st segment, let '(out, self) := FastCdcV0.push st.2 segment in
                           (st.1 ++ out, self)) segments ([], self).

(** ** Cut points, declaratively *)

(** The rolling hash of a chunk prefix: the gear hash of the bytes from the minimum
    size on. *)
Definition roll (p : list Z) : Z :=
  fold_left (λ h b, wrapping_add (rotate_left h 1) (fastcdc_v0_gear b))
    (drop (Z.to_nat (FASTCDC_V0_MIN_SIZE - 1)) p) 0.

(** A chunk may end after the bytes [p]. *)
Definition cut_point (p : list Z) : bool :=
  (FASTCDC_V0_MIN_SIZE <=? len p) &&
  ((Z.land (roll p) (if len p <? FASTCDC_V0_TARGET_SIZE then FASTCDC_V0_EARLY_MASK
                     else FASTCDC_V0_LATE_MASK) =? 0)
   || (len p =? FASTCDC_V0_MAX_SIZE)).

(** No proper prefix of [c] is a cut point. *)
Definition uncut (c : list Z) : Prop := ∀ p b q, c = p ++ b :: q → cut_point p = false.

(** Every chunk ends at the first cut point of what is left of the stream; only the last
    one may end with the stream instead. *)
Inductive Chunking : list Z → list (list Z) → Prop :=
  | chunking_nil : Chunking [] []
  | chunking_last c : c ≠ [] → uncut c → Chunking c [c]
  | chunking_cut c rest cs :
      cut_point c = true → uncut c → rest ≠ [] → Chunking rest cs →
      Chunking (c ++ rest) (c :: cs).

(** ** The chunker implements them *)

Lemma roll_snoc p b :
  roll (p ++ [b]) =
  if len (p ++ [b]) <? FASTCDC_V0_MIN_SIZE then 0
  else wrapping_add (rotate_left (roll p) 1) (fastcdc_v0_gear b).
Proof.
  unfold roll. rewrite drop_app, len_snoc.
  destruct (Z.ltb_spec (len p + 1) FASTCDC_V0_MIN_SIZE) as [Hl|Hl]; unfold len in Hl.
  - rewrite !drop_ge; [done|cbn [length]; lia|lia].
  - replace (Z.to_nat (FASTCDC_V0_MIN_SIZE - 1) - length p)%nat with 0%nat by lia.
    by rewrite drop_0, fold_left_app.
Qed.

Lemma roll_short p : len p < FASTCDC_V0_MIN_SIZE → roll p = 0.
Proof. intros Hl. unfold roll. rewrite drop_ge; [done|]. unfold len in Hl. lia. Qed.

Lemma uncut_nil : uncut [].
Proof. intros [|] b q; done. Qed.

Lemma uncut_snoc p b : uncut p → cut_point p = false → uncut (p ++ [b]).
Proof.
  intros Hu Hp p' b' q Heq. destruct (decide (q = [])) as [->|Hq].
  - apply app_inj_tail in Heq as [-> _]. done.
  - destruct (exists_last Hq) as (q' & z & ->).
    rewrite (app_comm_cons q' [z] b'), app_assoc in Heq. apply app_inj_tail in Heq as [-> _]. by apply (Hu p' b' q').
Qed.

(** One byte of [push] on a chunker whose pending bytes hold no cut point. *)
Lemma push_byte_spec completed p b :
  FastCdcV0.push_byte (completed, FastCdcV0.mk p (roll p)) b =
  if cut_point (p ++ [b]) then (completed ++ [p ++ [b]], FastCdcV0.new)
  else (completed, FastCdcV0.mk (p ++ [b]) (roll (p ++ [b]))).
Proof.
  unfold FastCdcV0.push_byte, cut_point. cbn [FastCdcV0.pending FastCdcV0.rolling].
  rewrite (roll_snoc p b). rewrite Z.leb_antisym.
  destruct (Z.ltb_spec (len (p ++ [b])) FASTCDC_V0_MIN_SIZE) as [Hl|Hl]; cbn [negb andb].
  - rewrite roll_short; [done|]. rewrite len_snoc in Hl. lia.
  - by destruct ((_ =? 0) || _).
Qed.

(** What the loop of [push] has produced after [input]. *)
Lemma push_loop_spec input completed p :
  uncut p → cut_point p = false →
  ∃ cs p', fold_left FastCdcV0.push_byte input (completed, FastCdcV0.mk p (roll p))
           = (completed ++ cs, FastCdcV0.mk p' (roll p')) ∧
    p ++ input = concat cs ++ p' ∧
    Forall (λ c, cut_point c = true ∧ uncut c) cs ∧ uncut p' ∧ cut_point p' = false.
Proof.
  revert completed p. induction input as [|b input IH]; intros completed p Hu Hp.
  { exists [], p. cbn. rewrite !app_nil_r. auto. }
  cbn [fold_left]. rewrite push_byte_spec. destruct (cut_point (p ++ [b])) eqn:Hc.
  - destruct (IH (completed ++ [p ++ [b]]) []) as (cs & p' & Hf & Hb & Hcs & Hp').
    { apply uncut_nil. } { done. }
    exists ((p ++ [b]) :: cs), p'. split_and!; [| | |apply Hp'..].
    + etransitivity; [exact Hf|]. by rewrite <-app_assoc.
    + cbn [concat app] in *. by rewrite <-app_assoc, <-Hb, <-app_assoc.
    + constructor; [|done]. eauto using uncut_snoc.
  - destruct (IH completed (p ++ [b])) as (cs & p' & Hf & Hb & ?); [by apply uncut_snoc|done|].
    exists cs, p'. rewrite <-app_assoc in Hb. done.
Qed.

Lemma push_spec input :
  ∃ cs p, FastCdcV0.push FastCdcV0.new input = (cs, FastCdcV0.mk p (roll p)) ∧
    input = concat cs ++ p ∧
    Forall (λ c, cut_point c = true ∧ uncut c) cs ∧ uncut p ∧ cut_point p = false.
Proof. by apply (push_loop_spec input [] []); [apply uncut_nil|]. Qed.

Lemma cut_point_nonempty c : cut_point c = true → c ≠ [].
Proof. by intros Hc ->. Qed.

Lemma chunking_concat cs p :
  Forall (λ c, cut_point c = true ∧ uncut c) cs → uncut p →
  Chunking (concat cs ++ p) (cs ++ match p with [] => [] | _ => [p] end).
Proof.
  intros Hcs Hp. induction Hcs as [|c cs [Hc Hu] Hcs IH]; cbn [concat app].
  { destruct p; by constructor. }
  rewrite <-app_assoc. destruct (decide (concat cs ++ p = [])) as [Hn|Hn].
  - destruct cs as [|c' cs]; [destruct p; [|done]|].
    + cbn. rewrite !app_nil_r. constructor; [by apply cut_point_nonempty|done].
    + apply Forall_cons in Hcs as [[Hc' _] _]. apply cut_point_nonempty in Hc'.
      by destruct c'.
  - by constructor.
Qed.

Lemma fastcdc_chunking bytes : Chunking bytes (fastcdc_v0_chunks bytes).
Proof.
  unfold fastcdc_v0_chunks. destruct (push_spec bytes) as (cs & p & -> & Hb & Hcs & Hp & _).
  rewrite Hb at 1. by apply chunking_concat.
Qed.

(** The first cut of a stream is unique. *)
Lemma uncut_prefix c c' r r' :
  c ++ r = c' ++ r' → uncut c → cut_point c' = true → r' ≠ [] →
  ∃ d, c' = c ++ d.
Proof.
  revert r r'. intros r r' Heq Hu Hc Hr.
  destruct (app_eq_inv c r c' r' Heq) as [(d & Hd & _)|(d & Hd & _)]; [|eauto].
  subst c. destruct d as [|b d]; [exists []; by rewrite !app_nil_r|].
  by rewrite (Hu c' b d) in Hc.
Qed.

Lemma chunking_deterministic bytes cs cs' :
  Chunking bytes cs → Chunking bytes cs' → cs = cs'.
Proof.
  intros Hc. revert cs'. induction Hc as [|c Hne Hu|c rest cs Hc Hu Hr Hcs IH]; intros cs' Hc'.
  - inversion Hc' as [|? Hne|c' rest' cs2 Hc2 Hu2 Hr2]; [done|done|].
    destruct c', rest'; done.
  - inversion Hc' as [|? ?|c' rest' cs2 Hc2 Hu2 Hr2 ? Heq]; [done|done|]. subst.
    destruct rest' as [|b rest']; [done|]. by rewrite (Hu c' b rest' eq_refl) in Hc2.
  - inversion Hc' as [|? Hne2 Hu2|c' rest' cs2 Hc2 Hu2 Hr2 Hcs2 Heq]; subst.
    + by destruct c, rest.
    + destruct rest as [|b rest]; [done|]. by rewrite (Hu2 c b rest eq_refl) in Hc.
    + destruct (uncut_prefix c c' rest rest') as (d & ->); [done..|].
      destruct (uncut_prefix (c ++ d) c rest' rest) as (e & He); [done..|].
      assert (d = []) as ->.
      { apply (f_equal length) in He. rewrite !length_app in He. destruct d; [done|cbn in He; lia]. }
      rewrite app_nil_r in Heq. apply app_inv_head in Heq as ->. rewrite app_nil_r.
      f_equal. by apply IH.
Qed.

(** ** Consequences of the cut rule *)

Lemma max_cut p : len p = FASTCDC_V0_MAX_SIZE → cut_point p = true.
Proof. unfold cut_point. intros ->. by rewrite orb_true_r. Qed.

Lemma uncut_max c : uncut c → len c ≤ FASTCDC_V0_MAX_SIZE.
Proof.
  intros Hu. apply Z.nlt_ge. intros Hl.
  destruct (Z_of_nat_complete FASTCDC_V0_MAX_SIZE) as [n Hn]; [done|].
  assert (n < length c)%nat as Hc by (unfold len in Hl; lia).
  destruct (lookup_lt_is_Some_2 c n Hc) as [b Hb].
  specialize (Hu _ _ _ (eq_sym (take_drop_middle _ _ _ Hb))).
  rewrite max_cut in Hu; [done|]. unfold len. rewrite length_take. lia.
Qed.

Lemma cut_bounds c :
  cut_point c = true → uncut c → FASTCDC_V0_MIN_SIZE ≤ len c ≤ FASTCDC_V0_MAX_SIZE.
Proof.
  intros [Hc%Z.leb_le _]%andb_true_iff Hu. apply uncut_max in Hu. done.
Qed.

Lemma chunking_facts bytes cs :
  Chunking bytes cs →
  concat cs = bytes ∧ Forall (λ c, c ≠ [] ∧ len c ≤ FASTCDC_V0_MAX_SIZE) cs.
Proof.
  induction 1 as [|c Hne Hu|c rest cs Hc Hu Hr _ [IHb IHl]]; cbn [concat].
  - done.
  - split; [apply app_nil_r|]. constructor; [|constructor]. split; [done|by apply uncut_max].
  - split; [by rewrite IHb|]. constructor; [|done].
    split; [by apply cut_point_nonempty|by apply uncut_max].
Qed.

(** ** Segmentation *)

Lemma push_byte_completed c0 c self b :
  FastCdcV0.push_byte (c0 ++ c, self) b =
  ((c0 ++ (FastCdcV0.push_byte (c, self) b).1), (FastCdcV0.push_byte (c, self) b).2).
Proof.
  unfold FastCdcV0.push_byte. repeat case_match; cbn [fst snd]; by rewrite ?app_assoc.
Qed.

Lemma push_completed input c0 self :
  fold_left FastCdcV0.push_byte input (c0, self) =
  (c0 ++ (FastCdcV0.push self input).1, (FastCdcV0.push self input).2).
Proof.
  assert (∀ c, fold_left FastCdcV0.push_byte input (c0 ++ c, self) =
    (c0 ++ (fold_left FastCdcV0.push_byte input (c, self)).1,
     (fold_left FastCdcV0.push_byte input (c, self)).2)) as Hgen.
  { revert self. induction input as [|b input IH]; intros self c; [done|]. cbn [fold_left].
    rewrite push_byte_completed, IH. by destruct (FastCdcV0.push_byte (c, self) b). }
  specialize (Hgen []). by rewrite app_nil_r in Hgen.
Qed.

Lemma push_app self a b :
  FastCdcV0.push self (a ++ b) =
  ((FastCdcV0.push self a).1 ++ (FastCdcV0.push (FastCdcV0.push self a).2 b).1,
   (FastCdcV0.push (FastCdcV0.push self a).2 b).2).
Proof.
  unfold FastCdcV0.push at 1. rewrite fold_left_app.
  rewrite (surjective_pairing (fold_left _ a _)). apply push_completed.
Qed.

Lemma push_all_concat self segments :
  push_all self segments = FastCdcV0.push self (concat segments).
Proof.
  unfold push_all. assert (∀ out, fold_left (λ st segment,
      let '(out, self) := FastCdcV0.push st.2 segment in (st.1 ++ out, self))
      segments (out, self) = (out ++ (FastCdcV0.push self (concat segments)).1,
                              (FastCdcV0.push self (concat segments)).2)) as Hgen.
  { revert self. induction segments as [|s segments IH]; intros self out; cbn [fold_left concat].
    - cbn. by rewrite app_nil_r.
    - cbn [fst snd]. rewrite push_app. destruct (FastCdcV0.push self s) as [o self'].
      rewrite IH. cbn [fst snd]. by rewrite app_assoc. }
  rewrite Hgen. by destruct (FastCdcV0.push self (concat segments)).
Qed.

(** ** Blobs *)

Lemma checked_sum_total sum (refs : list ChunkRef.t) (chunks : list (list Z)) :
  Forall2 (λ c r, ChunkRef.plaintext_length r = len c) chunks refs →
  0 ≤ sum → sum + len (concat chunks) ≤ u64_max →
  Blob.checked_sum sum refs = Some (sum + len (concat chunks)).
Proof.
  intros Hf. revert sum. induction Hf as [|c r chunks refs Hr _ IH]; intros sum Hs Hl.
  { cbn. f_equal. unfold len. cbn. lia. }
  cbn [concat Blob.checked_sum] in *. rewrite len_app in *.
  pose proof (len_nonneg c). pose proof (len_nonneg (concat chunks)).
  rewrite Hr. unfold checked_add. rewrite (proj2 (Z.leb_le _ _)) by lia.
  cbn [mbind option_bind]. rewrite IH by lia. f_equal. lia.
Qed.

(** A bound on the encoding of a map: nine bytes per head. *)
Definition entries_bound (es : list (Z * list Z)) : Z :=
  fold_right (λ e n, 9 + len e.2 + n) 0 es.

Lemma entries_bound_perm es es' : es ≡ₚ es' → entries_bound es = entries_bound es'.
Proof. unfold entries_bound. induction 1; cbn in *; lia. Qed.

Lemma entries_len es : len (flat_map (λ e, head 0 e.1 ++ e.2) es) ≤ entries_bound es.
Proof.
  unfold entries_bound in *. induction es as [|e es IH]; cbn; [done|]. rewrite !len_app.
  pose proof (len_head 0 e.1). lia.
Qed.

Lemma raw_map_len es :
  len (raw (Map es)) ≤ 9 + entries_bound (map (λ e, (e.1, raw e.2)) es).
Proof.
  cbn [raw]. rewrite len_app. pose proof (len_head 5 (len es)).
  pose proof (entries_len (sort_by_key fst (map (λ e, (e.1, raw e.2)) es))) as He.
  rewrite (entries_bound_perm _ _ (sort_by_key_perm _ _)) in He. lia.
Qed.

Lemma raw_bytes_len b : len (raw (Bytes b)) ≤ 9 + len b.
Proof. cbn [raw]. rewrite len_app. pose proof (len_head 2 (len b)). lia. Qed.

Lemma policy_raw_len p : PolicyRef.wf p = true → len (raw (PolicyRef.value p)) ≤ 100.
Proof.
  unfold PolicyRef.wf, PolicyRef.value, id_value, oid. intros Hp. split_andb.
  etransitivity; [apply raw_map_len|]. cbn [map entries_bound fold_right fst snd].
  pose proof (raw_bytes_len (PolicyRef.policy_id p)).
  pose proof (raw_bytes_len (to_bytes (PolicyRef.version p))) as Hv.
  rewrite to_bytes_len in Hv by done.
  assert (len (PolicyRef.policy_id p) = 16) by (by apply is_array_spec). lia.
Qed.

(** A chunk of admissible size is far below the encoded-size limit. *)
Lemma chunk_raw_len p bytes :
  PolicyRef.wf p = true → len bytes ≤ FASTCDC_V0_MAX_SIZE →
  len (raw (Map (Chunk.canonical_map (Chunk.mk p bytes)))) ≤ BULK_MAX_ENCODED_BYTES.
Proof.
  intros Hp Hb. etransitivity; [apply raw_map_len|].
  cbn [Chunk.canonical_map header header_version app map entries_bound fold_right fst snd
       Chunk.policy_ref Chunk.bytes].
  pose proof (policy_raw_len p Hp). pose proof (raw_bytes_len bytes).
  assert (∀ n, len (raw (Unsigned n)) ≤ 9) as Hu by (intros; apply len_head).
  pose proof (Hu (ObjectKind.code ObjectKind.Chunk)). pose proof (Hu SCHEMA_VERSION_0).
  unfold FASTCDC_V0_MAX_SIZE, BULK_MAX_ENCODED_BYTES in *. lia.
Qed.

Lemma chunk_fits `{Unicode} p bytes :
  PolicyRef.wf p = true → len bytes ≤ FASTCDC_V0_MAX_SIZE →
  fits bulk 0 (Map (Chunk.canonical_map (Chunk.mk p bytes))) = true.
Proof.
  intros Hp Hb. unfold PolicyRef.wf in Hp. apply andb_true_iff in Hp as [Hi Hv].
  apply to_bytes_len in Hv. apply andb_true_iff in Hi as [Hi%Z.eqb_eq _].
  unfold Chunk.canonical_map, header, header_version, PolicyRef.value, id_value, oid.
  cbn [Chunk.policy_ref Chunk.bytes]. revert Hv.
  generalize (to_bytes (PolicyRef.version p)) as v. intros v Hv.
  cbn. rewrite Hi, Hv. cbn. rewrite !andb_true_r. by apply Z.leb_le.
Qed.

(** A chunk of admissible size always has an identifier. *)
Lemma chunk_id_total `{Unicode, Digests} p bytes algorithm :
  PolicyRef.wf p = true → is_bytes bytes = true → len bytes ≤ FASTCDC_V0_MAX_SIZE →
  ∃ id, object_id (Chunk.mk p bytes) algorithm = Ok id.
Proof.
  intros Hp Hb Hl. unfold object_id, encode_object.
  assert (encode_object_with_limits (Chunk.mk p bytes) (canonical_limits Chunk.t)
          = Ok (raw (Map (Chunk.canonical_map (Chunk.mk p bytes))))) as ->.
  { apply encode_object_Ok; [apply kind_limits_ok|by apply andb_true_iff|].
    split_and!; [| |done|by apply chunk_raw_len].
    - cbn. unfold Chunk.validate. cbn [Chunk.bytes]. by rewrite (proj2 (Z.ltb_ge _ _)).
    - by apply chunk_fits. }
  cbn. eauto.
Qed.

(** ** The properties *)

Section properties.
Context `{Unicode, Digests}.

(** What a reader reassembles from a chunked blob. *)
Definition contents (b : ChunkedBlob) : list Z :=
  match Blob.content (blob b) with
  | BlobContent.Inline bytes => bytes
  | BlobContent.Chunks _ => concat (map Chunk.bytes (chunks b))
  end.

(** The references of a blob list the identifiers and lengths of its chunks, in order. *)
Definition references_match (algorithm : HashAlgorithm.t) (b : ChunkedBlob) : Prop :=
  match Blob.content (blob b) with
  | BlobContent.Inline _ => chunks b = []
  | BlobContent.Chunks refs =>
      Forall2 (λ c r, object_id c algorithm = Ok (ChunkRef.id r) ∧
                      ChunkRef.plaintext_length r = len (Chunk.bytes c)) (chunks b) refs
  end.

Lemma chunk_refs_total p cs algorithm :
  PolicyRef.wf p = true →
  Forall (λ c, is_bytes c = true ∧ len c ≤ FASTCDC_V0_MAX_SIZE) cs →
  ∃ refs, try_map (λ chunk, id ← object_id chunk algorithm;
                    Ok (ChunkRef.mk id (len (Chunk.bytes chunk)))) (map (Chunk.mk p) cs)
          = Ok refs ∧
    Forall2 (λ c r, object_id c algorithm = Ok (ChunkRef.id r) ∧
                    ChunkRef.plaintext_length r = len (Chunk.bytes c)) (map (Chunk.mk p) cs) refs.
Proof.
  intros Hp. induction 1 as [|c cs [Hb Hl] _ (refs & IH & Hf)]; [by exists []|].
  destruct (chunk_id_total p c algorithm) as [id Hid]; [done..|].
  exists (ChunkRef.mk id (len c) :: refs). cbn [map try_map]. rewrite Hid.
  cbn [mbind result_bind]. rewrite IH. split; [done|by constructor].
Qed.

(** A blob whose references describe chunks of admissible size is valid. *)
Lemma chunked_blob_valid p (bytes : list Z) cs refs :
  concat cs = bytes → Forall (λ c, c ≠ [] ∧ len c ≤ FASTCDC_V0_MAX_SIZE) cs →
  Forall2 (λ c r, ChunkRef.plaintext_length r = len c) cs refs →
  MAX_INLINE_BLOB_BYTES < len bytes ≤ u64_max →
  Blob.validate (Blob.mk p (len bytes) (BlobContent.Chunks refs)
                   (Some ChunkProfile.fastcdc_v0) None) = Ok tt.
Proof.
  intros Hcat Hcs Hrefs Hlen. unfold Blob.validate. cbn.
  rewrite (proj2 (Z.leb_gt _ _)) by lia. unfold Blob.chunks_mismatch. cbn.
  rewrite (checked_sum_total 0 refs cs), Hcat, Z.eqb_refl by (rewrite ?Hcat; done || lia).
  rewrite bool_decide_false.
  2:{ intros ->. inversion Hrefs; subst. unfold MAX_INLINE_BLOB_BYTES in *.
      unfold len in Hlen. cbn in Hlen. lia. }
  rewrite (existsb_false_intro _ refs); [done|].
  eapply Forall2_Forall_r; [exact Hrefs|]. eapply Forall_impl; [exact Hcs|].
  intros c [Hne Hmax] r ->. apply orb_false_iff. split; [|by apply Z.ltb_ge].
  apply Z.eqb_neq. by destruct c.
Qed.

(** C39: The chunker cuts exactly where the profile says. [fastcdc_v0_chunks bytes] is
    the one list that splits [bytes] at the first admissible cut point of what is left of
    the stream, again and again; hence the chunks concatenate to the input, every chunk
    but the last is between the minimum and the maximum size, and none is empty. *)
Theorem fastcdc_cut_points bytes cs :
  (fastcdc_v0_chunks bytes = cs ↔ Chunking bytes cs) ∧
  concat (fastcdc_v0_chunks bytes) = bytes ∧
  (∀ pre c post, fastcdc_v0_chunks bytes = pre ++ c :: post →
     0 < len c ≤ FASTCDC_V0_MAX_SIZE ∧ (post ≠ [] → FASTCDC_V0_MIN_SIZE ≤ len c)).
Proof.
  pose proof (fastcdc_chunking bytes) as Hc. split_and!.
  - split; [by intros <-|]. intros Hc'. by apply (chunking_deterministic bytes).
  - by apply chunking_facts.
  - intros pre c post Heq. rewrite Heq in Hc. clear Heq. split.
    + apply chunking_facts in Hc as [_ Hf]. apply Forall_app in Hf as [_ Hf].
      apply Forall_cons in Hf as [[Hne Hl] _]. split; [|done]. by destruct c.
    + remember (pre ++ c :: post) as l eqn:Hl. revert pre Hl.
      induction Hc as [|c' _ _|c' rest cs' Hcut Hu _ _ IH]; intros pre Hl Hp.
      * by destruct pre.
      * destruct pre as [|? [|]]; cbn in Hl; simplify_eq.
      * destruct pre as [|c0 pre]; cbn in Hl; simplify_eq; [by apply cut_bounds|].
        by apply (IH pre).
Qed.

(** The incremental chunker does not depend on how the stream was segmented: pushing
    any segments one after the other and finishing gives the chunks of their
    concatenation. After a completed chunk it restarts from scratch: what follows a
    boundary is chunked as if it were a stream of its own. *)
Theorem fastcdc_segmentation segments rest :
  (let '(completed, self) := push_all FastCdcV0.new segments in
   completed ++ FastCdcV0.finish self = fastcdc_v0_chunks (concat segments)) ∧
  (let '(completed, self) := push_all FastCdcV0.new segments in
   FastCdcV0.pending self = [] →
   fastcdc_v0_chunks (concat segments ++ rest) = completed ++ fastcdc_v0_chunks rest).
Proof.
  rewrite push_all_concat. destruct (push_spec (concat segments)) as (cs & p & Hp & _).
  rewrite Hp. split; [unfold fastcdc_v0_chunks; by rewrite Hp|].
  cbn [FastCdcV0.pending]. intros ->. unfold fastcdc_v0_chunks. rewrite push_app, Hp.
  cbn [fst snd]. replace (FastCdcV0.mk [] (roll [])) with FastCdcV0.new by done.
  destruct (FastCdcV0.push FastCdcV0.new rest). cbn [fst snd]. by rewrite app_assoc.
Qed.

(** Storing bytes always succeeds and loses nothing. For a well-formed policy
    reference and a byte string, [from_bytes_fastcdc_v0] returns a blob and chunks whose
    contents are the bytes; the blob and every chunk pass their own validation, the
    references list the chunks' identifiers and lengths in order, and the inline form is
    used exactly up to 64 KiB. *)
Theorem fastcdc_blob_faithful p (bytes : list Z) algorithm :
  PolicyRef.wf p = true → is_bytes bytes = true → len bytes ≤ u64_max →
  ∃ b, from_bytes_fastcdc_v0 p bytes algorithm = Ok b ∧ contents b = bytes ∧
    Blob.validate (blob b) = Ok tt ∧
    Forall (λ c, Chunk.validate c = Ok tt) (chunks b) ∧
    references_match algorithm b ∧
    (chunks b = [] ↔ len bytes ≤ MAX_INLINE_BLOB_BYTES).
Proof.
  intros Hp Hb Hu. unfold from_bytes_fastcdc_v0.
  destruct (Z.leb_spec (len bytes) MAX_INLINE_BLOB_BYTES) as [Hs|Hs].
  - eexists; split_and!; try done. unfold Blob.validate. cbn.
    by rewrite (proj2 (Z.ltb_ge _ _)), Z.eqb_refl.
  - destruct (chunking_facts _ _ (fastcdc_chunking bytes)) as [Hcat Hcs].
    assert (Forall (λ c, is_bytes c = true ∧ len c ≤ FASTCDC_V0_MAX_SIZE)
      (fastcdc_v0_chunks bytes)) as Hcs'.
    { apply Forall_forall. intros c Hc. rewrite Forall_forall in Hcs. split; [|by apply Hcs].
      rewrite <-Hcat, is_bytes_spec in Hb. apply is_bytes_spec.
      apply Forall_concat in Hb. rewrite Forall_forall in Hb. by apply Hb. }
    destruct (chunk_refs_total p _ algorithm Hp Hcs') as (refs & -> & Hrefs).
    eexists; split_and!; [reflexivity|..]; cbn [contents blob chunks Blob.content].
    + rewrite map_map. cbn. by rewrite map_id.
    + apply (chunked_blob_valid p bytes (fastcdc_v0_chunks bytes)); [done..| |lia].
      apply Forall2_fmap_l in Hrefs. eapply Forall2_impl; [exact Hrefs|]. by intros ? ? [_ ?].
    + apply Forall_fmap. eapply Forall_impl; [exact Hcs'|]. intros c [_ Hl]. cbn.
      unfold Chunk.validate. cbn. by rewrite (proj2 (Z.ltb_ge _ _)).
    + done.
    + split; [|lia]. intros Hn%fmap_nil_inv. rewrite Hn in Hcat. subst bytes.
      unfold len in Hs. cbn in Hs. unfold MAX_INLINE_BLOB_BYTES in Hs. lia.
Qed.
End properties.

