(* ===== verification/Tree.v ===== *)
(** * Flattened trees: [crates/rgit-graph/src/tree.rs]

    Tree entries at full repository paths and the trie that finds the first pair of
    paths which cannot coexist in one portable tree. *)

From S2P Require Import Prelude Machine Order Utf8 Canonical ObjectId Types Path Objects.

#[export] Instance file_mode_eq_dec : EqDecision FileMode.t.
Proof. solve_decision. Defined.
#[export] Instance manifest_target_eq_dec : EqDecision ManifestTarget.t.
Proof. solve_decision. Defined.

Module TreeEntryError.
Inductive t := EmptyPath.
End TreeEntryError.

Module TreeEntry.
Record t := mk { path : PortablePath; target : ManifestTarget.t; policy_ref : PolicyRef.t }.

#[global] Instance eq_dec : EqDecision t.
Proof. solve_decision. Defined.

Definition new (path : PortablePath) (target : ManifestTarget.t) (policy_ref : PolicyRef.t) :
    result TreeEntryError.t t :=
  bail_if bool_decide (path = []) with TreeEntryError.EmptyPath;
  Ok (mk path target policy_ref).
End TreeEntry.

(** [PathKey], ordered by the bytes of the segments. *)
Definition PathKey : Type := list (list Z).

Definition path_key_bytes (path : PortablePath) : PathKey := map as_bytes path.
Definition path_key (self : TreeEntry.t) : PathKey := path_key_bytes (TreeEntry.path self).

Inductive PortableTreeNode : Type :=
  | Node (terminal : option PortablePath) (children : list (str * PortableTreeChild))
with PortableTreeChild : Type :=
  | Child (spelling : str) (representative : PortablePath) (node : PortableTreeNode).

Definition terminal (n : PortableTreeNode) : option PortablePath :=
  match n with Node t _ => t end.
Definition children (n : PortableTreeNode) : BTreeMap str PortableTreeChild :=
  match n with Node _ c => c end.
Definition spelling (c : PortableTreeChild) : str := match c with Child s _ _ => s end.
Definition representative (c : PortableTreeChild) : PortablePath :=
  match c with Child _ r _ => r end.
Definition child_node (c : PortableTreeChild) : PortableTreeNode :=
  match c with Child _ _ n => n end.

(** [iter.min_by_key(path_key_bytes)]: the first of the least elements. *)
Fixpoint min_by_path_key (paths : list PortablePath) : option PortablePath :=
  match paths with
  | [] => None
  | p :: paths =>
      match min_by_path_key paths with
      | Some q => if ltb (path_key_bytes q) (path_key_bytes p) then Some q else Some p
      | None => Some p
      end
  end.

Section collision.
Context `{Unicode}.

(** One iteration of the outer loop: the walk along the segments of [current_path],
    creating the nodes it is missing, and the checks at its end. *)
Fixpoint insert_path (node : PortableTreeNode) (segments : list PathSegment)
    (current_path : PortablePath) : result (PortablePath * PortablePath) PortableTreeNode :=
  match segments with
  | [] =>
      match min_by_path_key (map (λ e, representative e.2) (children node)) with
      | Some descendant => Err (current_path, descendant)
      | None => Ok (Node (Some current_path) (children node))
      end
  | segment :: segments =>
      match terminal node with
      | Some ancestor => Err (ancestor, current_path)
      | None =>
          let folded := portable_case_fold segment in
          let child :=
            match bt_get folded (children node) with
            | Some child => child
            | None => Child segment current_path (Node None [])
            end in
          bail_if negb (bool_decide (spelling child = segment))
            with (representative child, current_path);
          next ← insert_path (child_node child) segments current_path;
          Ok (Node None (bt_insert folded
                (Child (spelling child) (representative child) next) (children node)))
      end
  end.

Definition first_portable_collision (entries : BTreeMap PathKey TreeEntry.t) :
    option (PortablePath * PortablePath) :=
  match try_fold (λ root entry, insert_path root (TreeEntry.path entry) (TreeEntry.path entry))
          (bt_values entries) (Node None []) with
  | Ok _ => None
  | Err found => Some found
  end.

(** ** Which paths coexist *)

(** Two paths can be materialized side by side: neither contains the other, and where they
    part their segments differ beyond spelling. *)
Fixpoint coexist (p q : PortablePath) : bool :=
  match p, q with
  | s :: p, t :: q =>
      if decide (s = t) then coexist p q
      else negb (bool_decide (portable_case_fold s = portable_case_fold t))
  | _, _ => false
  end.

Lemma coexist_sym p q : coexist p q = coexist q p.
Proof.
  revert q. induction p as [|s p IH]; intros [|t q]; cbn; [done..|].
  destruct (decide (s = t)) as [->|Hst].
  - by rewrite decide_True.
  - rewrite decide_False by congruence. f_equal. by apply bool_decide_ext.
Qed.

(** ** The trie holds the paths inserted so far *)

(** [rep n P]: below [n] the paths [a] were inserted whose remaining segments [q] satisfy
    [P q a]. *)
Inductive rep : PortableTreeNode → (list PathSegment → PortablePath → Prop) → Prop :=
  | rep_node t cs (P : list PathSegment → PortablePath → Prop) :
      bt_wf cs →
      (∀ a, t = Some a → P [] a) →
      (t = None → ∀ a, ¬ P [] a) →
      (∀ f c, bt_get f cs = Some c →
        portable_case_fold (spelling c) = f ∧ ∃ q, P (spelling c :: q) (representative c)) →
      (∀ f c, bt_get f cs = Some c →
        rep (child_node c) (λ q a, P (spelling c :: q) a)) →
      (∀ s q a, P (s :: q) a →
        ∃ c, bt_get (portable_case_fold s) cs = Some c ∧ spelling c = s) →
      rep (Node t cs) P.

Lemma rep_ext n P Q : rep n P → (∀ q a, P q a ↔ Q q a) → rep n Q.
Proof.
  intros Hr. revert Q. induction Hr as [t cs P Hwf H1 H2 H3 H4 IH H5]; intros Q HPQ.
  constructor; [done|..].
  - intros a Ha. by apply HPQ, H1.
  - intros Ht a Ha%HPQ. by apply (H2 Ht a).
  - intros f c Hc. destruct (H3 f c Hc) as (Hf & q & Hq). split; [done|]. exists q. by apply HPQ.
  - intros f c Hc. apply (IH f c Hc). intros q a. apply HPQ.
  - intros s q a Hq%HPQ. by apply (H5 s q a).
Qed.

Lemma rep_empty P : (∀ q a, ¬ P q a) → rep (Node None []) P.
Proof. intros HP. constructor; try done; [constructor|..]; intros; by destruct (HP _ _ ltac:(eassumption)). Qed.

Lemma min_by_path_key_elem ps p : min_by_path_key ps = Some p → p ∈ ps.
Proof.
  revert p. induction ps as [|x ps IH]; intros p; cbn; [done|].
  destruct (min_by_path_key ps) as [y|].
  - destruct (ltb _ _); intros [= <-]; [right; by apply IH|left].
  - intros [= <-]. left.
Qed.

Lemma min_by_path_key_None ps : min_by_path_key ps = None → ps = [].
Proof.
  destruct ps as [|x ps]; cbn; [done|]. destruct (min_by_path_key ps); [|done].
  by destruct (ltb _ _).
Qed.

(** What one insertion reports: a stored path that cannot coexist with the new one. *)
Definition clashes (P : list PathSegment → PortablePath → Prop) (segs : list PathSegment)
    (cur x y : PortablePath) : Prop :=
  ∃ q a, P q a ∧ coexist q segs = false ∧ ((x, y) = (a, cur) ∨ (x, y) = (cur, a)).

(** The end of the walk: a node with children cannot become a file. *)
Lemma insert_end_spec n P cur :
  rep n P → (∀ a, ¬ P [] a) →
  match insert_path n [] cur with
  | Ok n' => rep n' (λ q a, P q a ∨ q = [] ∧ a = cur) ∧ ∀ q a, ¬ P q a
  | Err (x, y) => clashes P [] cur x y
  end.
Proof.
  intros Hr Hn. destruct Hr as [t cs P Hwf H1 H2 H3 H4 H5]. cbn [insert_path children].
  destruct (min_by_path_key _) as [r|] eqn:Hmin.
  - apply min_by_path_key_elem, list_elem_of_fmap in Hmin as ([f c] & -> & Hc).
    apply bt_get_elem_iff in Hc; [|done]. destruct (H3 f c Hc) as (_ & q & Hq).
    exists (spelling c :: q), (representative c). auto.
  - apply min_by_path_key_None, fmap_nil_inv in Hmin as ->.
    assert (∀ q a, ¬ P q a) as Hemp.
    { intros [|s q] a Hq; [by apply (Hn a)|]. by destruct (H5 s q a Hq) as (? & ? & _). }
    split; [|done]. constructor; try done; cbn; naive_solver.
Qed.

(** Hanging the walked child back into its parent. *)
Lemma rep_insert_child cs (P : list PathSegment → PortablePath → Prop) s segs cur c n' :
  bt_wf cs →
  (∀ a, ¬ P [] a) →
  (∀ f c, bt_get f cs = Some c →
    portable_case_fold (spelling c) = f ∧ ∃ q, P (spelling c :: q) (representative c)) →
  (∀ f c, bt_get f cs = Some c → rep (child_node c) (λ q a, P (spelling c :: q) a)) →
  (∀ s q a, P (s :: q) a → ∃ c, bt_get (portable_case_fold s) cs = Some c ∧ spelling c = s) →
  (∀ c0, bt_get (portable_case_fold s) cs = Some c0 → spelling c0 = s) →
  spelling c = s → rep n' (λ q a, P (s :: q) a ∨ q = segs ∧ a = cur) →
  (∃ q, P (s :: q) (representative c)) ∨ representative c = cur →
  rep (Node None (bt_insert (portable_case_fold s)
                   (Child (spelling c) (representative c) n') cs))
      (λ q a, P q a ∨ q = s :: segs ∧ a = cur).
Proof.
  intros Hwf H2 H3 H4 H5 Hsame Hs Hr' Hrep. constructor.
  - by apply bt_insert_wf.
  - done.
  - intros _ a [Ha|[? _]]; [by apply (H2 a)|done].
  - intros f c'. rewrite bt_get_insert. case_decide as Hf.
    + intros [= <-]. cbn. rewrite Hs. split; [done|]. destruct Hrep as [[q Hq]| ->]; eauto.
    + intros Hc'. destruct (H3 f c' Hc') as (? & q & Hq). eauto.
  - intros f c'. rewrite bt_get_insert. case_decide as Hf.
    + intros [= <-]. cbn. eapply rep_ext; [exact Hr'|]. intros q a. cbn. rewrite Hs. naive_solver.
    + intros Hc'. eapply rep_ext; [exact (H4 f c' Hc')|]. intros q a. cbn.
      destruct (H3 f c' Hc') as (Hfc & _). split; [by left|].
      intros [?|[[= Hsp _] _]]; [done|]. by rewrite Hsp in Hfc.
  - intros t q a Hq. rewrite bt_get_insert. case_decide as Hf.
    + eexists; split; [reflexivity|]. cbn.
      destruct Hq as [Hq|[[= -> _] _]]; [|done].
      destruct (H5 t q a Hq) as (c0 & Hc0 & <-). rewrite <-Hf in Hc0.
      by rewrite Hs, (Hsame c0 Hc0).
    + destruct Hq as [Hq|[[= -> _] _]]; [by apply (H5 t q a)|done].
Qed.

(** One step of the walk, given the rest of it. *)
Lemma insert_step_spec s segs n P cur :
  (∀ n P, rep n P → (∀ a, ¬ P segs a) →
    match insert_path n segs cur with
    | Ok n' => rep n' (λ q a, P q a ∨ q = segs ∧ a = cur) ∧ ∀ q a, P q a → coexist q segs = true
    | Err (x, y) => clashes P segs cur x y
    end) →
  rep n P → (∀ a, ¬ P (s :: segs) a) →
  match insert_path n (s :: segs) cur with
  | Ok n' => rep n' (λ q a, P q a ∨ q = s :: segs ∧ a = cur) ∧
             ∀ q a, P q a → coexist q (s :: segs) = true
  | Err (x, y) => clashes P (s :: segs) cur x y
  end.
Proof.
  intros IH Hr Hn. destruct Hr as [t cs P Hwf H1 H2 H3 H4 H5].
  cbn [insert_path terminal children]. destruct t as [anc|].
  { exists [], anc. naive_solver. }
  set (c := match bt_get (portable_case_fold s) cs with Some c => c | None => _ end).
  destruct (decide (spelling c = s)) as [Hs|Hs].
  2:{ rewrite bool_decide_false by done. cbn [negb]. unfold c in *. clear c.
      destruct (bt_get _ cs) as [c|] eqn:Hc; [|done]. destruct (H3 _ c Hc) as (Hf & q & Hq).
      exists (spelling c :: q), (representative c). split; [done|]. split; [|auto].
      cbn. rewrite decide_False by done. by rewrite bool_decide_true. }
  rewrite bool_decide_true by done. cbn [negb].
  assert (rep (child_node c) (λ q a, P (s :: q) a)) as Hc.
  { unfold c in *. clear c. destruct (bt_get _ cs) as [c|] eqn:Hc.
    - rewrite <-Hs. by apply (H4 _ c Hc).
    - apply rep_empty. intros q a Hq. destruct (H5 s q a Hq) as (? & ? & _). congruence. }
  specialize (IH _ _ Hc Hn). destruct (insert_path (child_node c) segs cur) as [n'|[x y]].
  2:{ destruct IH as (q & a & Hq & Hco & Hxy). exists (s :: q), a. split; [done|].
      split; [|done]. cbn. by rewrite decide_True. }
  destruct IH as [Hr' Hco]. cbn [mbind result_bind]. split.
  - apply rep_insert_child; try done; [by apply H2|..]; unfold c in *; clear c Hc.
    + intros c0 Hc0. by rewrite Hc0 in Hs.
    + destruct (bt_get _ cs) as [c|] eqn:Hc; [left|by right].
      destruct (H3 _ c Hc) as [_ Hq]. by rewrite Hs in Hq.
  - intros [|t q] a Hq; [by destruct (H2 eq_refl a)|]. cbn.
    destruct (decide (t = s)) as [->|Hts]; [by apply (Hco q a)|].
    rewrite bool_decide_false; [done|]. intros Hf.
    destruct (H5 t q a Hq) as (c' & Hc' & Hsp).
    apply Hts. rewrite <-Hs, <-Hsp. unfold c. by rewrite <-Hf, Hc'.
Qed.

Lemma insert_path_spec segs n P cur :
  rep n P → (∀ a, ¬ P segs a) →
  match insert_path n segs cur with
  | Ok n' => rep n' (λ q a, P q a ∨ q = segs ∧ a = cur) ∧ ∀ q a, P q a → coexist q segs = true
  | Err (x, y) => clashes P segs cur x y
  end.
Proof.
  revert n P. induction segs as [|s segs IH]; intros n P Hr Hn.
  - pose proof (insert_end_spec n P cur Hr Hn) as Hend.
    destruct (insert_path n [] cur) as [n'|[x y]]; [|done].
    destruct Hend as [Hr' Hemp]. split; [done|]. intros q a Hq. by destruct (Hemp q a).
  - by apply insert_step_spec.
Qed.

(** ** Collision-free trees *)

(** The maps the callers build: every entry under its own key. *)
Definition entries_wf (m : BTreeMap PathKey TreeEntry.t) : Prop :=
  bt_wf m ∧ Forall (λ e, e.1 = path_key e.2) m.

(** Distinct entries of the tree have coexisting paths. *)
Definition portable_tree (es : list TreeEntry.t) : Prop :=
  ∀ e f, e ∈ es → f ∈ es → e ≠ f → coexist (TreeEntry.path e) (TreeEntry.path f) = true.

Lemma portable_tree_snoc es e :
  portable_tree es →
  (∀ f, f ∈ es → coexist (TreeEntry.path f) (TreeEntry.path e) = true) →
  portable_tree (es ++ [e]).
Proof.
  intros Hes He x y [Hx|Hx%list_elem_of_singleton]%elem_of_app
    [Hy|Hy%list_elem_of_singleton]%elem_of_app Hne; subst; [auto..| |done].
  rewrite coexist_sym. auto.
Qed.

Lemma collision_loop es :
  NoDup (map TreeEntry.path es) →
  match try_fold (λ root entry, insert_path root (TreeEntry.path entry) (TreeEntry.path entry))
          es (Node None []) with
  | Ok root => rep root (λ q a, q = a ∧ a ∈ map TreeEntry.path es) ∧ portable_tree es
  | Err (x, y) => ∃ e f, e ∈ es ∧ f ∈ es ∧ e ≠ f ∧ x = TreeEntry.path e ∧ y = TreeEntry.path f ∧
                   coexist x y = false
  end.
Proof.
  induction es as [|e es IH] using rev_ind; intros Hnd.
  { cbn. split; [apply rep_empty; set_solver|]. intros e f He. by apply not_elem_of_nil in He. }
  rewrite map_app in Hnd. apply NoDup_app in Hnd as (Hnd & Hdis & _).
  specialize (IH Hnd). rewrite try_fold_app.
  destruct (try_fold _ es _) as [root|[x y]]; cbn [mbind result_bind try_fold].
  2:{ destruct IH as (a & b & Ha & Hb & ?). exists a, b.
      split_and!; try apply elem_of_app; naive_solver. }
  destruct IH as [Hr Hp].
  assert (∀ f, f ∈ es → TreeEntry.path f ≠ TreeEntry.path e) as Hne.
  { intros f Hf Heq. apply (Hdis (TreeEntry.path f)); [apply list_elem_of_fmap; eauto|].
    rewrite Heq. by left. }
  assert (∀ a, ¬ (TreeEntry.path e = a ∧ a ∈ map TreeEntry.path es)) as Hfresh.
  { intros a [<- (f & Hf & Hfe)%list_elem_of_fmap]. by apply (Hne f Hfe). }
  pose proof (insert_path_spec _ _ _ (TreeEntry.path e) Hr Hfresh) as Hins.
  destruct (insert_path root _ _) as [root'|[x y]]; cbn [mbind result_bind].
  - destruct Hins as [Hr' Hco]. split.
    + eapply rep_ext; [exact Hr'|]. intros q a. cbn. rewrite elem_of_map_snoc. naive_solver.
    + apply portable_tree_snoc; [done|]. intros f Hf. apply (Hco _ (TreeEntry.path f)).
      split; [done|]. apply list_elem_of_fmap. eauto.
  - destruct Hins as (q & a & [-> (f & -> & Hf)%list_elem_of_fmap] & Hco & [[= -> ->]|[= -> ->]]).
    + exists f, e. split_and!; try apply elem_of_app; [by left|right; by left| |done..].
      intros ->. by apply (Hne e).
    + exists e, f. split_and!; try apply elem_of_app; [right; by left|by left| |done..|].
      * intros ->. by apply (Hne f).
      * by rewrite coexist_sym.
Qed.

Lemma entries_wf_paths m : entries_wf m → NoDup (map TreeEntry.path (bt_values m)).
Proof.
  intros [Hwf Hk]. apply bt_wf_nodup in Hwf.
  apply (NoDup_fmap_1 path_key_bytes). unfold bt_values. rewrite !map_map.
  replace (map (λ x, path_key_bytes (TreeEntry.path x.2)) m) with (bt_keys m); [done|].
  unfold bt_keys. apply map_ext_in. intros e He. rewrite Forall_forall in Hk.
  apply Hk. by apply list_elem_of_In.
Qed.

(** A map collected from a list of entries holds them under their own keys. *)
Lemma collected_entries es m :
  collected path_key id es m →
  entries_wf m ∧ (∀ e, e ∈ bt_values m ↔ e ∈ es) ∧
  ∀ k e, bt_get k m = Some e ↔ e ∈ es ∧ path_key e = k.
Proof.
  intros (Hwf & Hnd & Hget).
  assert (∀ k e, bt_get k m = Some e ↔ e ∈ es ∧ path_key e = k) as Hg.
  { intros k e. rewrite Hget. unfold id. naive_solver. }
  split_and!; [split; [done|]| |done].
  - apply Forall_forall. intros [k e] He. apply bt_get_elem_iff, Hg in He; naive_solver.
  - intros e. unfold bt_values. rewrite list_elem_of_fmap. split.
    + intros ([k e'] & -> & He). apply bt_get_elem_iff, Hg in He; naive_solver.
    + intros He. exists (path_key e, e). split; [done|]. apply bt_get_elem, Hg. done.
Qed.

Lemma portable_tree_equiv es es' :
  (∀ e, e ∈ es ↔ e ∈ es') → portable_tree es ↔ portable_tree es'.
Proof. unfold portable_tree. intros He. by setoid_rewrite He. Qed.

Lemma first_portable_collision_None m :
  entries_wf m → first_portable_collision m = None ↔ portable_tree (bt_values m).
Proof.
  intros Hm%entries_wf_paths. unfold first_portable_collision.
  pose proof (collision_loop _ Hm) as Hl. destruct (try_fold _ _ _) as [root|[x y]].
  - split; [by intros _; apply Hl|done].
  - split; [done|]. destruct Hl as (e & f & He & Hf & Hne & -> & -> & Hco). intros Hp.
    by rewrite (Hp e f) in Hco.
Qed.

Lemma collected_portable es m :
  collected path_key id es m → first_portable_collision m = None ↔ portable_tree es.
Proof.
  intros (Hwf & Hv & _)%collected_entries. rewrite first_portable_collision_None by done.
  by apply portable_tree_equiv.
Qed.

(** The collision search is exact. On a tree with every entry under its own path key,
    [first_portable_collision] returns nothing precisely when all pairs of entries can
    coexist in a portable working tree (no path contains another, and sibling names that
    differ only in spelling never meet); and a pair it returns consists of two entries of
    the tree that cannot coexist. *)
Theorem collision_search_exact m :
  entries_wf m →
  (first_portable_collision m = None ↔ portable_tree (bt_values m)) ∧
  (∀ x y, first_portable_collision m = Some (x, y) →
    ∃ e f, e ∈ bt_values m ∧ f ∈ bt_values m ∧ e ≠ f ∧
      x = TreeEntry.path e ∧ y = TreeEntry.path f ∧ coexist x y = false).
Proof.
  intros Hm. split; [by apply first_portable_collision_None|]. intros x y.
  unfold first_portable_collision. pose proof (collision_loop _ (entries_wf_paths m Hm)) as Hl.
  destruct (try_fold _ _ _) as [root|[x' y']]; [done|]. by intros [= -> ->].
Qed.
End collision.

(** Concrete trees for the witnesses. *)
Definition sample_file (path : PortablePath) (b : Z) : TreeEntry.t :=
  TreeEntry.mk path (ManifestTarget.File (sample_oid b) FileMode.Regular)
    (PolicyRef.mk (replicate 16 5) (sample_oid 6)).
Definition sample_tree : BTreeMap PathKey TreeEntry.t :=
  map (λ e, (path_key e, e))
    [sample_file [lit "SRC"; lit "main.rs"] 1; sample_file [lit "src"; lit "lib.rs"] 2].

