(* ===== verification/Diff.v ===== *)
(** * Tree diffs: [crates/rgit-graph/src/diff.rs]

    Construction of an authorized tree view and the path-level diff of two views. The
    entries a caller may not see contribute only an aggregate count. *)

From S2P Require Import Prelude Machine Order Utf8 Canonical ObjectId Types Path Objects Tree.
From Stdlib Require Import Sorting.Sorted.

(** [OpaqueEntryId([u8; 32])]. *)
Definition OpaqueEntryId : Type := list Z.

Module OpaqueEntry.
Record t := mk { id : OpaqueEntryId; fingerprint : ObjectId }.
End OpaqueEntry.

Module DiffError.
Inductive t :=
  | DuplicateVisiblePath
  | PortablePathCollision (first second : PortablePath)
  | DuplicateOpaqueIdentity
  | OpaqueCountOverflow.
End DiffError.

Module DiffInput.
Record t := mk {
  visible : BTreeMap PathKey TreeEntry.t;
  opaque : BTreeMap OpaqueEntryId ObjectId }.

Definition new `{Unicode} (visible : list TreeEntry.t) (opaque : list OpaqueEntry.t) :
    result DiffError.t t :=
  visible_by_path ← collect_unique (λ _, DiffError.DuplicateVisiblePath) path_key id visible;
  _ ← match first_portable_collision visible_by_path with
      | Some (first, second) => Err (DiffError.PortablePathCollision first second)
      | None => Ok tt
      end;
  opaque_by_id ← collect_unique (λ _, DiffError.DuplicateOpaqueIdentity)
                   OpaqueEntry.id OpaqueEntry.fingerprint opaque;
  Ok (mk visible_by_path opaque_by_id).
End DiffInput.

Module FileDiff.
Record t := mk {
  added : list PortablePath;
  modified : list PortablePath;
  deleted : list PortablePath;
  opaque_changed : Z }.
Definition default : t := mk [] [] [] 0.
End FileDiff.

(** The body of the loop over [visible_paths]. *)
Definition diff_step (previous current : DiffInput.t) (result : FileDiff.t) (key : PathKey) :
    FileDiff.t :=
  let '(FileDiff.mk added modified deleted n) := result in
  match bt_get key (DiffInput.visible previous), bt_get key (DiffInput.visible current) with
  | None, Some after => FileDiff.mk (added ++ [TreeEntry.path after]) modified deleted n
  | Some before, None => FileDiff.mk added modified (deleted ++ [TreeEntry.path before]) n
  | Some before, Some after =>
      if bool_decide (before ≠ after)
      then FileDiff.mk added (modified ++ [TreeEntry.path after]) deleted n
      else result
  | None, None => result
  end.

Definition union_keys {K V} `{Ord K} (a b : BTreeMap K V) : list K :=
  set_elems (set_of_list (bt_keys a ++ bt_keys b)).

Definition opaque_changed (previous current : DiffInput.t) : Z :=
  len (List.filter (λ id, negb (bool_decide (bt_get id (DiffInput.opaque previous)
                                             = bt_get id (DiffInput.opaque current))))
         (union_keys (DiffInput.opaque previous) (DiffInput.opaque current))).

Definition diff (previous current : DiffInput.t) : result DiffError.t FileDiff.t :=
  let visible_paths := union_keys (DiffInput.visible previous) (DiffInput.visible current) in
  let '(FileDiff.mk added modified deleted _) :=
    fold_left (diff_step previous current) visible_paths FileDiff.default in
  bail_if u64_max <? opaque_changed previous current with DiffError.OpaqueCountOverflow;
  Ok (FileDiff.mk added modified deleted (opaque_changed previous current)).

(** ** What a diff reports *)

Definition input_wf (i : DiffInput.t) : Prop :=
  bt_wf (DiffInput.visible i) ∧ bt_wf (DiffInput.opaque i).

(** The paths of the entries of [m] that satisfy [f], in path order. *)
Definition paths_where (f : PathKey → TreeEntry.t → bool) (m : BTreeMap PathKey TreeEntry.t) :
    list PortablePath :=
  map (λ e, TreeEntry.path e.2) (List.filter (λ e, f e.1 e.2) m).

Definition absent_in (m : BTreeMap PathKey TreeEntry.t) (k : PathKey) (_ : TreeEntry.t) : bool :=
  negb (bt_contains k m).
Definition differs_in (m : BTreeMap PathKey TreeEntry.t) (k : PathKey) (e : TreeEntry.t) : bool :=
  match bt_get k m with Some e' => bool_decide (e' ≠ e) | None => false end.

Lemma paths_where_omap (f : PathKey → TreeEntry.t → bool) m :
  omap (λ e : PathKey * TreeEntry.t, if f e.1 e.2 then Some (TreeEntry.path e.2) else None) m
  = paths_where f m.
Proof.
  unfold paths_where. induction m as [|[k e] m IH]; [done|]. cbn.
  destruct (f k e); cbn; by rewrite <-IH.
Qed.

Lemma union_keys_elem {K V} `{OrdLaws K} (a b : BTreeMap K V) k :
  k ∈ union_keys a b ↔ k ∈ bt_keys a ∨ k ∈ bt_keys b.
Proof. unfold union_keys. by rewrite set_of_list_elems, elem_of_app. Qed.

Lemma union_keys_sorted {K V} `{OrdLaws K} (a b : BTreeMap K V) :
  StronglySorted lt (union_keys a b).
Proof. apply (set_of_list_wf (bt_keys a ++ bt_keys b)). Qed.

(** The loop appends, per key, what the three lists get. *)
Lemma diff_loop previous current ks a m d n :
  fold_left (diff_step previous current) ks (FileDiff.mk a m d n) =
  FileDiff.mk
    (a ++ omap (λ k, e ← bt_get k (DiffInput.visible current);
                 if absent_in (DiffInput.visible previous) k e
                 then Some (TreeEntry.path e) else None) ks)
    (m ++ omap (λ k, e ← bt_get k (DiffInput.visible current);
                 if differs_in (DiffInput.visible previous) k e
                 then Some (TreeEntry.path e) else None) ks)
    (d ++ omap (λ k, e ← bt_get k (DiffInput.visible previous);
                 if absent_in (DiffInput.visible current) k e
                 then Some (TreeEntry.path e) else None) ks) n.
Proof.
  revert a m d. induction ks as [|k ks IH]; intros a m d.
  { cbn. by rewrite !app_nil_r. }
  cbn [fold_left]. unfold diff_step at 2. unfold absent_in, differs_in, bt_contains in *.
  cbn [omap list_omap].
  destruct (bt_get k (DiffInput.visible previous)) as [before|] eqn:Hp,
    (bt_get k (DiffInput.visible current)) as [after|] eqn:Hc; cbn [mbind option_bind negb];
    try case_bool_decide; rewrite IH, ?Hp, ?Hc; cbn [mbind option_bind negb];
    rewrite <-?app_assoc; try done.
  all: by rewrite ?bool_decide_true, ?bool_decide_false by done.
Qed.

Lemma paths_walk (f : PathKey → TreeEntry.t → bool) ks m :
  StronglySorted lt ks → bt_wf m → (∀ k, k ∈ bt_keys m → k ∈ ks) →
  omap (λ k, e ← bt_get k m; if f k e then Some (TreeEntry.path e) else None) ks
  = paths_where f m.
Proof.
  intros. rewrite (omap_keys (λ k e, if f k e then Some (TreeEntry.path e) else None)) by done.
  apply paths_where_omap.
Qed.

Lemma diff_reference previous current :
  input_wf previous → input_wf current →
  diff previous current =
  bail_if u64_max <? opaque_changed previous current with DiffError.OpaqueCountOverflow;
  Ok (FileDiff.mk
        (paths_where (absent_in (DiffInput.visible previous)) (DiffInput.visible current))
        (paths_where (differs_in (DiffInput.visible previous)) (DiffInput.visible current))
        (paths_where (absent_in (DiffInput.visible current)) (DiffInput.visible previous))
        (opaque_changed previous current)).
Proof.
  intros [Hp _] [Hc _]. unfold diff, FileDiff.default. rewrite diff_loop. cbn [app].
  rewrite !paths_walk; try done; try apply union_keys_sorted;
    intros k ?; apply union_keys_elem; auto.
Qed.

Lemma opaque_changed_spec previous current :
  ∃ ids, NoDup ids ∧ len ids = opaque_changed previous current ∧
    ∀ id, id ∈ ids ↔
      bt_get id (DiffInput.opaque previous) ≠ bt_get id (DiffInput.opaque current).
Proof.
  eexists; split_and!; [|reflexivity|].
  - apply NoDup_ListNoDup, List.NoDup_filter, NoDup_ListNoDup.
    apply (bt_wf_nodup (V := ())), set_of_list_wf.
  - intros id. rewrite list_elem_of_In, filter_In, <-list_elem_of_In, negb_true_iff,
      bool_decide_eq_false, union_keys_elem. split; [by intros [_ ?]|].
    intros Hne. split; [|done].
    destruct (bt_get id (DiffInput.opaque previous)) eqn:Hp; [left; by eapply bt_get_key|].
    destruct (bt_get id (DiffInput.opaque current)) eqn:Hc; [right; by eapply bt_get_key|done].
Qed.

Lemma paths_where_nil f m :
  bt_wf m → paths_where f m = [] ↔ ∀ k e, bt_get k m = Some e → f k e = false.
Proof.
  intros Hm. unfold paths_where. split.
  - intros Hn%map_eq_nil k e He%bt_get_elem. apply not_true_iff_false. intros Hf.
    assert ((k, e) ∈ List.filter (λ e, f e.1 e.2) m) as Hin.
    { apply list_elem_of_In, filter_In. split; [by apply list_elem_of_In|done]. }
    rewrite Hn in Hin. by apply not_elem_of_nil in Hin.
  - intros Hf. destruct (List.filter _ m) as [|[k e] l] eqn:Hl; [done|].
    assert ((k, e) ∈ List.filter (λ e, f e.1 e.2) m) as Hin by (rewrite Hl; left).
    apply list_elem_of_In, filter_In in Hin as [Hin%list_elem_of_In Hfe]. cbn in Hfe.
    rewrite (Hf k e) in Hfe; [done|]. by apply bt_get_elem_iff.
Qed.

(** Maps without additions, changes or removals between them are equal. *)
Lemma visible_eq a b :
  bt_wf a → bt_wf b →
  paths_where (absent_in a) b = [] → paths_where (differs_in a) b = [] →
  paths_where (absent_in b) a = [] → a = b.
Proof.
  intros Ha Hb. rewrite !paths_where_nil by done. unfold absent_in, differs_in, bt_contains.
  intros Hadd Hmod Hdel. apply bt_ext; [done..|]. intros k.
  destruct (bt_get k a) as [x|] eqn:Hx, (bt_get k b) as [y|] eqn:Hy; [|exfalso..|done].
  - specialize (Hmod k y Hy). rewrite Hx in Hmod. apply bool_decide_eq_false in Hmod.
    by apply dec_stable in Hmod as ->.
  - specialize (Hdel k x Hx). by rewrite Hy in Hdel.
  - specialize (Hadd k y Hy). by rewrite Hx in Hadd.
Qed.

Lemma paths_where_refl a :
  bt_wf a → paths_where (absent_in a) a = [] ∧ paths_where (differs_in a) a = [].
Proof.
  intros Ha. rewrite !paths_where_nil by done. unfold absent_in, differs_in, bt_contains.
  split; intros k e ->; [done|]. apply bool_decide_eq_false. auto.
Qed.

Lemma diff_input_Ok `{Unicode} visible opaque i :
  DiffInput.new visible opaque = Ok i ↔
  collected path_key id visible (DiffInput.visible i) ∧ portable_tree visible ∧
  collected OpaqueEntry.id OpaqueEntry.fingerprint opaque (DiffInput.opaque i).
Proof.
  unfold DiffInput.new. split.
  - intros (v & Hv%collect_unique_Ok & Hd)%bind_Ok. apply bind_Ok in Hd as ([] & Hc & Hd).
    apply bind_Ok in Hd as (o & Ho%collect_unique_Ok & [= <-]). split_and!; [done| |done].
    apply (collected_portable _ _ Hv). by destruct (first_portable_collision v) as [[]|].
  - intros (Hv & Hp & Ho). destruct i as [v o]; cbn in *.
    destruct (collect_unique_total (λ _, DiffError.DuplicateVisiblePath) path_key id visible)
      as (v' & -> & Hv'); [apply Hv|].
    destruct (collect_unique_total (λ _, DiffError.DuplicateOpaqueIdentity)
      OpaqueEntry.id OpaqueEntry.fingerprint opaque) as (o' & Ho1 & Ho'); [apply Ho|].
    rewrite (collected_unique _ _ _ _ _ _ Hv' Hv), (collected_unique _ _ _ _ _ _ Ho' Ho) in *
      by done.
    cbn [mbind result_bind]. rewrite (proj2 (collected_portable _ _ Hv) Hp).
    cbn [mbind result_bind]. by rewrite Ho1.
Qed.

Lemma collected_perm {A K V} `{OrdLaws K} (key : A → K) (value : A → V) l l' m :
  collected key value l m → l ≡ₚ l' → collected key value l' m.
Proof.
  intros (Hw & Hn & Hg) Hp. split_and!; [done|by rewrite <-Hp|].
  intros k v. rewrite Hg. by setoid_rewrite Hp.
Qed.

(** Constructing a view accepts exactly the portable trees without repeated paths and
    without repeated opaque identities, and stores every entry under its own key; the
    view does not depend on the order of its inputs. *)
Theorem diff_input_exact `{Unicode} visible opaque :
  ((∃ i, DiffInput.new visible opaque = Ok i) ↔
    NoDup (map path_key visible) ∧ portable_tree visible ∧
    NoDup (map OpaqueEntry.id opaque)) ∧
  (∀ i, DiffInput.new visible opaque = Ok i →
    input_wf i ∧ (∀ e, bt_get (path_key e) (DiffInput.visible i) = Some e ↔ e ∈ visible) ∧
    (∀ visible' opaque', visible ≡ₚ visible' → opaque ≡ₚ opaque' →
      DiffInput.new visible' opaque' = Ok i)).
Proof.
  split; [split|].
  - intros (i & (Hv & ? & Ho)%diff_input_Ok). split_and!; [apply Hv|done|apply Ho].
  - intros (Hv & Hp & Ho).
    destruct (collect_unique_total (λ _, tt) path_key id visible Hv) as (v & _ & Hv').
    destruct (collect_unique_total (λ _, tt) OpaqueEntry.id OpaqueEntry.fingerprint opaque Ho)
      as (o & _ & Ho').
    exists (DiffInput.mk v o). by apply diff_input_Ok.
  - intros i (Hv & Hp & Ho)%diff_input_Ok. split_and!.
    + split; [apply Hv|apply Ho].
    + intros e. destruct (collected_entries _ _ Hv) as (_ & _ & Hg). rewrite Hg. naive_solver.
    + intros visible' opaque' Hpv Hpo. apply diff_input_Ok.
      split_and!; [by eapply collected_perm| |by eapply collected_perm].
      eapply portable_tree_equiv; [|exact Hp]. intros e. by rewrite Hpv.
Qed.

(** C38: The diff is exact and minimal. Between well-formed views it lists, in path order,
    precisely the paths that exist only in the current view, that carry another entry
    there, and that exist only in the previous view; hidden changes are counted as the
    number of opaque identities whose fingerprints differ. *)
Theorem diff_exact previous current :
  input_wf previous → input_wf current → opaque_changed previous current ≤ u64_max →
  diff previous current =
    Ok (FileDiff.mk
          (paths_where (absent_in (DiffInput.visible previous)) (DiffInput.visible current))
          (paths_where (differs_in (DiffInput.visible previous)) (DiffInput.visible current))
          (paths_where (absent_in (DiffInput.visible current)) (DiffInput.visible previous))
          (opaque_changed previous current)) ∧
  ∃ ids, NoDup ids ∧ len ids = opaque_changed previous current ∧
    ∀ id, id ∈ ids ↔
      bt_get id (DiffInput.opaque previous) ≠ bt_get id (DiffInput.opaque current).
Proof.
  intros Hp Hc Hn. split; [|apply opaque_changed_spec]. rewrite diff_reference by done.
  by rewrite (proj2 (Z.ltb_ge _ _)).
Qed.

(** A diff is empty exactly when the two views are the same: no visible or hidden
    change goes unreported, and equal views never differ. *)
Theorem diff_empty_iff_equal previous current :
  input_wf previous → input_wf current →
  diff previous current = Ok FileDiff.default ↔ previous = current.
Proof.
  intros Hp Hc. rewrite diff_reference by done. split.
  - intros [_ [= Ha Hm Hd Ho]]%bail_Ok. destruct previous as [pv po], current as [cv co].
    destruct Hp as [Hpv Hpo], Hc as [Hcv Hco]; cbn in *. f_equal; [by apply visible_eq|].
    destruct (opaque_changed_spec (DiffInput.mk pv po) (DiffInput.mk cv co))
      as (ids & _ & Hlen & Hids); cbn in *.
    rewrite Ho in Hlen. destruct ids as [|x ids]; [|unfold len in Hlen; cbn in Hlen; lia].
    apply bt_ext; [done..|]. intros k. apply dec_stable. intros Hne.
    apply Hids in Hne. by apply not_elem_of_nil in Hne.
  - intros ->. destruct (paths_where_refl (DiffInput.visible current)) as [-> ->]; [apply Hc|].
    assert (opaque_changed current current = 0) as ->; [|done].
    destruct (opaque_changed_spec current current) as (ids & _ & <- & Hids).
    destruct ids as [|x ids]; [done|]. by destruct (proj1 (Hids x)); [left|].
Qed.

(** Two concrete views: a file added, one changed, one removed, one hidden change. *)
Definition sample_view (files : list (list str * Z)) (hidden : Z) : DiffInput.t :=
  match @DiffInput.new ascii_unicode (map (λ f, sample_file f.1 f.2) files)
          [OpaqueEntry.mk (replicate 32 1) (sample_oid hidden)] with
  | Ok i => i
  | Err _ => DiffInput.mk [] []
  end.
Definition view_before := sample_view [([lit "a"], 1); ([lit "b"], 2)] 7.
Definition view_after := sample_view [([lit "b"], 3); ([lit "c"], 4)] 8.

Lemma sample_views_wf : input_wf view_before ∧ input_wf view_after.
Proof. split; split; repeat constructor. Qed.

Lemma diff_exact_witness :
  diff view_before view_after = Ok (FileDiff.mk [[lit "c"]] [[lit "b"]] [[lit "a"]] 1).
Proof.
  destruct sample_views_wf as [Hb Ha].
  destruct (diff_exact view_before view_after Hb Ha) as [Hd _]; [vm_compute; discriminate|].
  rewrite Hd. vm_compute. reflexivity.
Defined.

