(* ===== verification/Merge.v ===== *)
(** * Three-way merge: [crates/rgit-graph/src/merge.rs]

    The path-level merge plan of two trees against a base: what is taken from either
    side, which paths conflict, and when the merged tree cannot be materialized. *)

From stdpp Require Import strings.
From Stdlib Require Import Sorting.Sorted.
From S2P Require Import Prelude Machine Order Utf8 Canonical ObjectId Types Path Objects Tree.

Module ConflictKind.
Inductive t := AddAdd | BothModified | DeleteModify.
End ConflictKind.

Module ConflictSide.
Record t := mk { target : ManifestTarget.t; policy_ref : PolicyRef.t }.
Definition from (entry : TreeEntry.t) : t :=
  mk (TreeEntry.target entry) (TreeEntry.policy_ref entry).
End ConflictSide.

Module MergeConflict.
Record t := mk {
  path : PortablePath;
  kind : ConflictKind.t;
  base : option ConflictSide.t;
  line : option ConflictSide.t;
  incoming : option ConflictSide.t;
  source_policy_refs : list PolicyRef.t }.
End MergeConflict.

Module MergePlan.
Record t := mk { merged_entries : list TreeEntry.t; conflicts : list MergeConflict.t }.
Definition default : t := mk [] [].
End MergePlan.

Module MergeError.
Inductive t :=
  | DuplicatePath (input : string)
  | PortablePathCollision (input : string) (first second : PortablePath).
End MergeError.

(** The order-preserving union of the policy references. *)
Definition push_policy_ref (refs : list PolicyRef.t) (entry : option TreeEntry.t) :
    list PolicyRef.t :=
  match entry with
  | Some entry =>
      if bool_decide (TreeEntry.policy_ref entry ∈ refs) then refs
      else refs ++ [TreeEntry.policy_ref entry]
  | None => refs
  end.

Definition conflict (path : PortablePath) (base line incoming : option TreeEntry.t) :
    MergeConflict.t :=
  let kind :=
    match base, line, incoming with
    | None, Some _, Some _ => ConflictKind.AddAdd
    | Some _, None, Some _ | Some _, Some _, None => ConflictKind.DeleteModify
    | _, _, _ => ConflictKind.BothModified
    end in
  MergeConflict.mk path kind (ConflictSide.from <$> base) (ConflictSide.from <$> line)
    (ConflictSide.from <$> incoming) (fold_left push_policy_ref [line; incoming; base] []).

Section merge.
Context `{Unicode}.

Definition entries_by_path (input : string) (entries : list TreeEntry.t) :
    result MergeError.t (BTreeMap PathKey TreeEntry.t) :=
  by_path ← collect_unique (λ _, MergeError.DuplicatePath input) path_key id entries;
  match first_portable_collision by_path with
  | Some (first, second) => Err (MergeError.PortablePathCollision input first second)
  | None => Ok by_path
  end.

Definition push_entry (plan : MergePlan.t) (entry : option TreeEntry.t) : MergePlan.t :=
  match entry with
  | Some entry => MergePlan.mk (MergePlan.merged_entries plan ++ [entry])
                    (MergePlan.conflicts plan)
  | None => plan
  end.

(** The body of the loop over [all_paths]. *)
Definition merge_step (base line incoming : BTreeMap PathKey TreeEntry.t)
    (plan : MergePlan.t) (key : PathKey) : MergePlan.t :=
  let base_entry := bt_get key base in
  let line_entry := bt_get key line in
  let incoming_entry := bt_get key incoming in
  if bool_decide (line_entry = incoming_entry) then push_entry plan line_entry else
  let line_changed := negb (bool_decide (base_entry = line_entry)) in
  let incoming_changed := negb (bool_decide (base_entry = incoming_entry)) in
  match line_changed, incoming_changed with
  | false, true => push_entry plan incoming_entry
  | true, false => push_entry plan line_entry
  | false, false => push_entry plan base_entry
  | true, true =>
      match union line_entry (union incoming_entry base_entry) with
      | None => plan
      | Some source =>
          MergePlan.mk (MergePlan.merged_entries plan)
            (MergePlan.conflicts plan
             ++ [conflict (TreeEntry.path source) base_entry line_entry incoming_entry])
      end
  end.

Definition merge_three_way (base line incoming : list TreeEntry.t) :
    result MergeError.t MergePlan.t :=
  base ← entries_by_path "base" base;
  line ← entries_by_path "line" line;
  incoming ← entries_by_path "incoming" incoming;
  let all_paths := set_elems (set_of_list (bt_keys base ++ bt_keys line ++ bt_keys incoming)) in
  let plan := fold_left (merge_step base line incoming) all_paths MergePlan.default in
  merged ← entries_by_path "merged result" (MergePlan.merged_entries plan);
  match first_portable_collision merged with
  | Some (first, second) =>
      Err (MergeError.PortablePathCollision "merged result" first second)
  | None => Ok plan
  end.

(** ** The rule *)

Inductive outcome := Take (entry : option TreeEntry.t) | Clash.

(** The textbook rule: agreement wins, otherwise the side that left the base wins. *)
Definition three_way (base line incoming : option TreeEntry.t) : outcome :=
  if decide (line = incoming) then Take line
  else if decide (base = line) then Take incoming
  else if decide (base = incoming) then Take line
  else Clash.

Definition taken (base line incoming : option TreeEntry.t) : option TreeEntry.t :=
  match three_way base line incoming with Take e => e | Clash => None end.

Definition clash (base line incoming : option TreeEntry.t) : option MergeConflict.t :=
  match three_way base line incoming, union line (union incoming base) with
  | Clash, Some source => Some (conflict (TreeEntry.path source) base line incoming)
  | _, _ => None
  end.

Definition option_list {A} (o : option A) : list A :=
  match o with Some a => [a] | None => [] end.

Lemma merge_step_rule base line incoming plan key :
  merge_step base line incoming plan key =
  MergePlan.mk
    (MergePlan.merged_entries plan
     ++ option_list (taken (bt_get key base) (bt_get key line) (bt_get key incoming)))
    (MergePlan.conflicts plan
     ++ option_list (clash (bt_get key base) (bt_get key line) (bt_get key incoming))).
Proof.
  unfold merge_step, clash, taken, three_way. destruct plan as [es cs].
  destruct (bt_get key base) as [b|], (bt_get key line) as [l|], (bt_get key incoming) as [i|];
    repeat case_bool_decide; repeat case_decide; cbn; rewrite ?app_nil_r; try done; congruence.
Qed.

Lemma omap_cons {A B} (f : A → option B) x l : omap f (x :: l) = option_list (f x) ++ omap f l.
Proof. cbn. by destruct (f x). Qed.

Lemma merge_loop base line incoming ks plan :
  fold_left (merge_step base line incoming) ks plan =
  MergePlan.mk
    (MergePlan.merged_entries plan
     ++ omap (λ k, taken (bt_get k base) (bt_get k line) (bt_get k incoming)) ks)
    (MergePlan.conflicts plan
     ++ omap (λ k, clash (bt_get k base) (bt_get k line) (bt_get k incoming)) ks).
Proof.
  revert plan. induction ks as [|k ks IH]; intros plan.
  { destruct plan. cbn. by rewrite !app_nil_r. }
  cbn [fold_left]. rewrite IH, merge_step_rule, !omap_cons.
  cbn [MergePlan.merged_entries MergePlan.conflicts]. by rewrite !app_assoc.
Qed.

(** ** The merge of three trees *)

(** A tree the merge accepts as input. *)
Definition valid_tree (es : list TreeEntry.t) : Prop :=
  NoDup (map path_key es) ∧ portable_tree es.

(** The entry of a tree at a path. *)
Definition entry_at (es : list TreeEntry.t) (k : PathKey) : option TreeEntry.t :=
  List.find (λ e, bool_decide (path_key e = k)) es.

Definition merge_keys (base line incoming : list TreeEntry.t) : list PathKey :=
  set_elems (set_of_list (map path_key base ++ map path_key line ++ map path_key incoming)).

(** The plan the rule prescribes, path by path. *)
Definition merge_reference (base line incoming : list TreeEntry.t) : MergePlan.t :=
  MergePlan.mk
    (omap (λ k, taken (entry_at base k) (entry_at line k) (entry_at incoming k))
       (merge_keys base line incoming))
    (omap (λ k, clash (entry_at base k) (entry_at line k) (entry_at incoming k))
       (merge_keys base line incoming)).

Lemma entry_at_Some es k e :
  NoDup (map path_key es) → entry_at es k = Some e ↔ e ∈ es ∧ path_key e = k.
Proof.
  unfold entry_at. intros Hnd. split.
  - intros [Hin Hk]%find_some. apply bool_decide_eq_true in Hk. by rewrite list_elem_of_In.
  - intros [He Hk]. induction es as [|x es IH]; [by apply not_elem_of_nil in He|].
    cbn in *. apply NoDup_cons in Hnd as [Hx Hnd]. apply elem_of_cons in He as [->|He].
    + by rewrite bool_decide_true.
    + rewrite bool_decide_false; [by apply IH|]. intros Hkx. destruct Hx.
      rewrite Hkx, <-Hk. by apply list_elem_of_fmap_2.
Qed.

Lemma collected_entry_at es m k : collected path_key id es m → bt_get k m = entry_at es k.
Proof.
  intros Hc. apply option_eq. intros e. rewrite entry_at_Some by apply Hc.
  by destruct (collected_entries es m Hc) as (_ & _ & ->).
Qed.

Lemma collected_keys es m k : collected path_key id es m → k ∈ bt_keys m ↔ k ∈ map path_key es.
Proof. intros Hc. rewrite <-bt_contains_elem. by apply (collected_contains path_key id). Qed.

Lemma set_of_list_ext {K} `{OrdLaws K} (l l' : list K) :
  (∀ k, k ∈ l ↔ k ∈ l') → set_of_list l = set_of_list l'.
Proof.
  intros Hl. apply bt_ext; [apply set_of_list_wf..|]. intros k.
  assert (∀ l, bt_get k (set_of_list l) = if decide (k ∈ l) then Some () else None) as Hg.
  { intros l0. case_decide as Hk.
    - apply set_of_list_elems, bt_contains_elem in Hk. unfold bt_contains in Hk.
      by destruct (bt_get k _) as [[]|].
    - apply bt_get_None. intros Hin. by apply Hk, set_of_list_elems. }
  rewrite !Hg. by repeat case_decide; naive_solver.
Qed.

Lemma entries_by_path_Ok input es m :
  entries_by_path input es = Ok m ↔ collected path_key id es m ∧ portable_tree es.
Proof.
  unfold entries_by_path. split.
  - intros (v & Hv%collect_unique_Ok & Hd)%bind_Ok.
    pose proof (collected_portable _ _ Hv) as Hp.
    destruct (first_portable_collision v) as [[]|]; [done|]. injection Hd as <-. naive_solver.
  - intros [Hv Hp]. destruct (collect_unique_total (λ _, MergeError.DuplicatePath input)
      path_key id es) as (v & -> & Hv'); [apply Hv|].
    rewrite (collected_unique _ _ _ _ _ _ Hv' Hv) by done. cbn [mbind result_bind].
    by rewrite (proj2 (collected_portable _ _ Hv) Hp).
Qed.

Lemma entries_by_path_total input es :
  valid_tree es → ∃ m, entries_by_path input es = Ok m ∧ collected path_key id es m.
Proof.
  intros [Hn Hp]. destruct (collect_unique_total (λ _, tt) path_key id es Hn) as (m & _ & Hm).
  exists m. split; [|done]. by apply entries_by_path_Ok.
Qed.

(** The plan computed from the three maps is the reference plan. *)
Lemma plan_reference base line incoming B L I :
  collected path_key id base B → collected path_key id line L →
  collected path_key id incoming I →
  fold_left (merge_step B L I)
    (set_elems (set_of_list (bt_keys B ++ bt_keys L ++ bt_keys I))) MergePlan.default
  = merge_reference base line incoming.
Proof.
  intros HB HL HI. rewrite merge_loop. unfold merge_reference, merge_keys. cbn [app
    MergePlan.default MergePlan.merged_entries MergePlan.conflicts].
  rewrite (set_of_list_ext (bt_keys B ++ _) (map path_key base ++ map path_key line
    ++ map path_key incoming)).
  - f_equal; apply list_omap_ext, Forall_Forall2_diag, Forall_forall; intros k _;
      by rewrite (collected_entry_at _ _ _ HB), (collected_entry_at _ _ _ HL),
        (collected_entry_at _ _ _ HI).
  - intros k. rewrite !elem_of_app, (collected_keys _ _ _ HB), (collected_keys _ _ _ HL),
      (collected_keys _ _ _ HI). done.
Qed.

Lemma taken_key base line incoming k e :
  valid_tree base → valid_tree line → valid_tree incoming →
  taken (entry_at base k) (entry_at line k) (entry_at incoming k) = Some e → path_key e = k.
Proof.
  intros [Hb _] [Hl _] [Hi _]. unfold taken, three_way.
  repeat case_decide; intros He; try done; by eapply entry_at_Some; [|exact He].
Qed.

Lemma omap_sorted {A K} `{OrdLaws K} (key : A → K) (f : K → option A) ks :
  (∀ k x, f k = Some x → key x = k) →
  StronglySorted lt ks → StronglySorted (key_lt key) (omap f ks).
Proof.
  intros Hf. induction 1 as [|k ks Hs IH Hk]; [constructor|]. rewrite omap_cons.
  destruct (f k) as [x|] eqn:Hx; [|done]. cbn [option_list app]. constructor; [done|].
  apply Forall_forall. intros y (k' & Hk' & Hy)%list_elem_of_omap.
  unfold key_lt. rewrite (Hf _ _ Hx), (Hf _ _ Hy). rewrite Forall_forall in Hk. by apply Hk.
Qed.

Lemma reference_sorted base line incoming :
  valid_tree base → valid_tree line → valid_tree incoming →
  StronglySorted (key_lt path_key)
    (MergePlan.merged_entries (merge_reference base line incoming)).
Proof.
  intros Hb Hl Hi. apply omap_sorted; [|apply (set_of_list_wf (_ ++ _))].
  intros k e. by apply taken_key.
Qed.

Lemma merge_keys_elem base line incoming k :
  k ∈ merge_keys base line incoming ↔
  k ∈ map path_key base ∨ k ∈ map path_key line ∨ k ∈ map path_key incoming.
Proof. unfold merge_keys. by rewrite set_of_list_elems, !elem_of_app. Qed.

Lemma merge_Ok base line incoming plan :
  merge_three_way base line incoming = Ok plan ↔
  valid_tree base ∧ valid_tree line ∧ valid_tree incoming ∧
  plan = merge_reference base line incoming ∧
  portable_tree (MergePlan.merged_entries (merge_reference base line incoming)).
Proof.
  unfold merge_three_way. split.
  - intros (B & [HB HBp]%entries_by_path_Ok & Hd)%bind_Ok.
    apply bind_Ok in Hd as (L & [HL HLp]%entries_by_path_Ok & Hd).
    apply bind_Ok in Hd as (I & [HI HIp]%entries_by_path_Ok & Hd).
    rewrite (plan_reference base line incoming B L I) in Hd by done.
    apply bind_Ok in Hd as (M & [HM HMp]%entries_by_path_Ok & Hd).
    destruct (first_portable_collision M) as [[]|]; [done|]. injection Hd as <-.
    split_and!; try done; split; try done; [apply HB|apply HL|apply HI].
  - intros (Hb & Hl & Hi & -> & Hp).
    destruct (entries_by_path_total "base" base Hb) as (B & -> & HB).
    destruct (entries_by_path_total "line" line Hl) as (L & -> & HL).
    destruct (entries_by_path_total "incoming" incoming Hi) as (I & -> & HI).
    cbn [mbind result_bind]. rewrite (plan_reference base line incoming B L I) by done.
    destruct (entries_by_path_total "merged result"
      (MergePlan.merged_entries (merge_reference base line incoming))) as (M & -> & HM).
    { split; [|done]. by apply strongly_sorted_nodup, reference_sorted. }
    cbn [mbind result_bind]. by rewrite (proj2 (collected_portable _ _ HM) Hp).
Qed.

Lemma taken_elem base line incoming e :
  valid_tree base → valid_tree line → valid_tree incoming →
  e ∈ MergePlan.merged_entries (merge_reference base line incoming) ↔
  three_way (entry_at base (path_key e)) (entry_at line (path_key e))
    (entry_at incoming (path_key e)) = Take (Some e).
Proof.
  intros Hb Hl Hi. cbn [merge_reference MergePlan.merged_entries].
  rewrite list_elem_of_omap. split.
  - intros (k & _ & Hk). pose proof (taken_key _ _ _ _ _ Hb Hl Hi Hk) as <-. unfold taken in Hk.
    destruct (three_way _ _ _); by simplify_eq.
  - intros He. exists (path_key e). unfold taken. rewrite He. split; [|done].
    assert (∀ es, NoDup (map path_key es) → entry_at es (path_key e) = Some e →
      path_key e ∈ map path_key es) as Hin.
    { intros es Hn [Hes _]%entry_at_Some; [|done]. by apply list_elem_of_fmap_2. }
    apply merge_keys_elem. destruct Hb as [Hb _], Hl as [Hl _], Hi as [Hi _].
    unfold three_way in He. repeat case_decide; simplify_eq; auto.
Qed.

Lemma clash_elem base line incoming c :
  c ∈ MergePlan.conflicts (merge_reference base line incoming) ↔
  ∃ k, clash (entry_at base k) (entry_at line k) (entry_at incoming k) = Some c.
Proof.
  cbn [merge_reference MergePlan.conflicts]. rewrite list_elem_of_omap.
  split; [intros (k & _ & Hk); eauto|]. intros (k & Hk). exists k. split; [|done].
  assert (∀ es e, entry_at es k = Some e → k ∈ map path_key es) as Hin.
  { intros es e [He Hke]%find_some. apply bool_decide_eq_true in Hke as <-.
    apply list_elem_of_In in He. by apply list_elem_of_fmap_2. }
  apply merge_keys_elem. unfold clash in Hk.
  destruct (entry_at base k) eqn:?, (entry_at line k) eqn:?, (entry_at incoming k) eqn:?;
    eauto. by destruct (three_way _ _ _).
Qed.

(** C37: The merge follows the three-way rule at every path and succeeds exactly when its
    result can be materialized. It returns a plan iff the three inputs and the merged
    entries are valid portable trees; the entries of the plan are, in path order, those
    the rule takes (agreement, or the side that changed against the base), and its
    conflicts are those of the paths that both sides changed differently. *)
Theorem merge_follows_rule base line incoming :
  ((∃ plan, merge_three_way base line incoming = Ok plan) ↔
    valid_tree base ∧ valid_tree line ∧ valid_tree incoming ∧
    portable_tree (MergePlan.merged_entries (merge_reference base line incoming))) ∧
  ∀ plan, merge_three_way base line incoming = Ok plan →
    (∀ e, e ∈ MergePlan.merged_entries plan ↔
      three_way (entry_at base (path_key e)) (entry_at line (path_key e))
        (entry_at incoming (path_key e)) = Take (Some e)) ∧
    (∀ c, c ∈ MergePlan.conflicts plan ↔
      ∃ k, clash (entry_at base k) (entry_at line k) (entry_at incoming k) = Some c) ∧
    StronglySorted (key_lt path_key) (MergePlan.merged_entries plan).
Proof.
  split; [split|].
  - intros (plan & (? & ? & ? & _ & ?)%merge_Ok). done.
  - intros (? & ? & ? & ?). exists (merge_reference base line incoming). by apply merge_Ok.
  - intros plan (Hb & Hl & Hi & -> & _)%merge_Ok.
    split_and!; [intros; by apply taken_elem|apply clash_elem|by apply reference_sorted].
Qed.

(** The same entries in path order. *)
Definition in_path_order (es : list TreeEntry.t) : list TreeEntry.t := sort_by_key path_key es.

Lemma sorted_permuted es es' :
  valid_tree es → StronglySorted (key_lt path_key) es' → (∀ e, e ∈ es' ↔ e ∈ es) →
  es' = in_path_order es.
Proof.
  intros [Hn _] Hs He. apply (key_lt_unique path_key); [done|by apply sort_by_key_nodup|].
  unfold in_path_order. rewrite sort_by_key_perm. apply NoDup_Permutation; [| |done].
  - by apply (NoDup_fmap_1 path_key), strongly_sorted_nodup.
  - by apply (NoDup_fmap_1 path_key).
Qed.

(** When the rule never clashes and always yields the entry of one tree, the merge is it. *)
Lemma merge_yields base line incoming es :
  valid_tree base → valid_tree line → valid_tree incoming → valid_tree es →
  (∀ k, three_way (entry_at base k) (entry_at line k) (entry_at incoming k)
        = Take (entry_at es k)) →
  merge_three_way base line incoming = Ok (MergePlan.mk (in_path_order es) []).
Proof.
  intros Hb Hl Hi Hes Hk.
  assert (MergePlan.merged_entries (merge_reference base line incoming) = in_path_order es) as Hm.
  { apply sorted_permuted; [done|by apply reference_sorted|]. intros e.
    rewrite taken_elem, Hk by done. split.
    - intros [= He]. apply entry_at_Some in He as [? _]; [done|apply Hes].
    - intros He. f_equal. apply entry_at_Some; [apply Hes|done]. }
  assert (MergePlan.conflicts (merge_reference base line incoming) = []) as Hc.
  { apply elem_of_nil_inv. intros c (k & Hc)%clash_elem. unfold clash in Hc. by rewrite Hk in Hc. }
  apply merge_Ok. split_and!; try done.
  - rewrite <-Hm, <-Hc. by destruct (merge_reference base line incoming).
  - rewrite Hm. eapply portable_tree_equiv; [|apply Hes]. intros e. unfold in_path_order.
    by rewrite sort_by_key_perm.
Qed.

(** The unit laws of merging: a side that did not change contributes nothing, and two
    sides that agree merge to themselves, without conflicts; merging never invents
    entries. *)
Theorem merge_unit_laws base side :
  valid_tree base → valid_tree side →
  merge_three_way base base side = Ok (MergePlan.mk (in_path_order side) []) ∧
  merge_three_way base side base = Ok (MergePlan.mk (in_path_order side) []) ∧
  merge_three_way base side side = Ok (MergePlan.mk (in_path_order side) []).
Proof.
  intros Hb Hs. split_and!; apply merge_yields; try done; intros k; unfold three_way;
    repeat case_decide; congruence.
Qed.

(** What swapping the sides does to a conflict. *)
Definition mirrored (c c' : MergeConflict.t) : Prop :=
  MergeConflict.kind c = MergeConflict.kind c' ∧
  MergeConflict.base c = MergeConflict.base c' ∧
  MergeConflict.line c = MergeConflict.incoming c' ∧
  MergeConflict.incoming c = MergeConflict.line c' ∧
  ∀ p, p ∈ MergeConflict.source_policy_refs c ↔ p ∈ MergeConflict.source_policy_refs c'.

Lemma push_policy_ref_elem refs entry p :
  p ∈ push_policy_ref refs entry ↔ p ∈ refs ∨ Some p = TreeEntry.policy_ref <$> entry.
Proof.
  destruct entry as [e|]; cbn; [|naive_solver]. case_bool_decide; [naive_solver|].
  rewrite elem_of_app, list_elem_of_singleton. naive_solver.
Qed.

Lemma three_way_sym b l i : three_way b l i = three_way b i l.
Proof. unfold three_way. repeat case_decide; congruence. Qed.

Lemma clash_mirrored b l i :
  match clash b l i, clash b i l with
  | Some c, Some c' => mirrored c c'
  | None, None => True
  | _, _ => False
  end.
Proof.
  unfold clash. rewrite (three_way_sym b i l). destruct (three_way b l i); [done|].
  destruct b as [b|], l as [l|], i as [i|]; cbn; try done; split_and!; try done;
    intros p; cbn [conflict MergeConflict.source_policy_refs fold_left];
    rewrite !push_policy_ref_elem; cbn; naive_solver.
Qed.

Lemma merge_keys_sym base line incoming :
  merge_keys base line incoming = merge_keys base incoming line.
Proof.
  unfold merge_keys. f_equal. apply set_of_list_ext. intros k. rewrite !elem_of_app. tauto.
Qed.

(** Merging is symmetric. Swapping the line and the incoming side gives a plan exactly
    when the original order does, with the same merged entries in the same order and the
    same conflicts with their sides exchanged (and the same set of source policies). *)
Theorem merge_symmetric base line incoming plan :
  merge_three_way base line incoming = Ok plan →
  ∃ plan', merge_three_way base incoming line = Ok plan' ∧
    MergePlan.merged_entries plan' = MergePlan.merged_entries plan ∧
    Forall2 mirrored (MergePlan.conflicts plan) (MergePlan.conflicts plan').
Proof.
  intros (Hb & Hl & Hi & -> & Hp)%merge_Ok.
  assert (MergePlan.merged_entries (merge_reference base incoming line)
    = MergePlan.merged_entries (merge_reference base line incoming)) as Hm.
  { cbn. rewrite merge_keys_sym. apply list_omap_ext, Forall_Forall2_diag, Forall_forall.
    intros k _. unfold taken. by rewrite three_way_sym. }
  exists (merge_reference base incoming line). split_and!; [|done|].
  - apply merge_Ok. by rewrite Hm.
  - cbn. rewrite (merge_keys_sym base incoming line).
    induction (merge_keys base line incoming) as [|k ks IH]; [constructor|]. rewrite !omap_cons.
    pose proof (clash_mirrored (entry_at base k) (entry_at line k) (entry_at incoming k)).
    do 2 destruct (clash _ _ _); cbn; try done. by constructor.
Qed.
End merge.

Definition merge_base_tree := [sample_file [lit "a"] 1; sample_file [lit "b"] 2].
Definition merge_line_tree := [sample_file [lit "a"] 3; sample_file [lit "b"] 2].
Definition merge_incoming_tree := [sample_file [lit "b"] 2; sample_file [lit "a"] 4].

Lemma sample_valid : @valid_tree ascii_unicode merge_base_tree ∧
  @valid_tree ascii_unicode merge_line_tree ∧ @valid_tree ascii_unicode merge_incoming_tree.
Proof.
  assert (∀ plan, @merge_three_way ascii_unicode merge_base_tree merge_line_tree
    merge_incoming_tree = Ok plan → @valid_tree ascii_unicode merge_base_tree ∧
    @valid_tree ascii_unicode merge_line_tree ∧ @valid_tree ascii_unicode merge_incoming_tree)
    as Hv by (intros plan (? & ? & ? & _)%merge_Ok; done).
  eapply Hv. vm_compute. reflexivity.
Qed.

