(* ===== verification/Explore.v ===== *)
(** * Worklist traversals

    The two iterative graph traversals of the sources: collecting everything reachable
    from a stack of pending nodes, and searching one target. Panicking lookups and the
    exhaustion of the fuel are faults of their own, excluded by the theorems. *)

From stdpp Require Import relations.
From S2P Require Import Prelude Machine Order.

(** What ends a computation without a value: an error the source returns, a panic
    (failed index, failed [expect], arithmetic overflow), or a loop that was given too
    little fuel. *)
Inductive fault (E : Type) : Type :=
  | Raise (e : E)
  | Panic
  | OutOfFuel.
Arguments Raise {E} e.
Arguments Panic {E}.
Arguments OutOfFuel {E}.

(** [o.expect(..)] and [map[key]]. *)
Definition expect {E A} (o : option A) : result (fault E) A := ok_or o Panic.

Section explore.
Context {K : Type} `{Ord K} {E : Type}.

(** [succ x] is the adjacency list of [x]; [None] where the source's index panics. *)
Context (succ : K → option (list K)).

(** [while let Some(x) = pending.pop() { if visited.insert(x) { pending.extend(succ(x)) } }].
    The stack is kept with its top first. *)
Fixpoint explore (fuel : nat) (visited : BTreeSet K) (pending : list K) :
    result (fault E) (BTreeSet K) :=
  match fuel with
  | O => Err OutOfFuel
  | S fuel =>
      match pending with
      | [] => Ok visited
      | x :: pending =>
          if set_contains x visited then explore fuel visited pending
          else
            next ← expect (succ x);
            explore fuel (set_insert x visited) (rev next ++ pending)
      end
  end.

(** The same loop, stopping as soon as it meets [target]. *)
Fixpoint search (target : K) (fuel : nat) (visited : BTreeSet K) (pending : list K) :
    result (fault E) bool :=
  match fuel with
  | O => Err OutOfFuel
  | S fuel =>
      match pending with
      | [] => Ok false
      | x :: pending =>
          match cmp x target with
          | Eq => Ok true
          | _ =>
              if set_contains x visited then search target fuel visited pending
              else
                next ← expect (succ x);
                search target fuel (set_insert x visited) (rev next ++ pending)
          end
      end
  end.
End explore.

Section facts.
Context {K : Type} `{OrdLaws K} {E : Type}.
Context (succ : K → option (list K)) (dom : list K).

(** The edge relation and what the traversals need of the graph: its nodes are listed
    once and closed under edges. *)
Definition edge (x y : K) : Prop := ∃ next, succ x = Some next ∧ y ∈ next.

Context (dom_nodup : NoDup dom).
Context (dom_succ : ∀ x, x ∈ dom → ∃ next, succ x = Some next ∧ ∀ y, y ∈ next → y ∈ dom).

(** Edges out of the nodes not yet visited: with the stack, the measure of the loops. *)
Definition out_degree (x : K) : nat := length (default [] (succ x)).
Definition weight (l : list K) (visited : BTreeSet K) : nat :=
  sum_list_with (λ x, if set_contains x visited then 0%nat else out_degree x) l.

Lemma set_contains_insert x y (s : BTreeSet K) :
  set_contains y (set_insert x s) = bool_decide (x = y) || set_contains y s.
Proof.
  unfold set_contains, bt_contains, set_insert. rewrite bt_get_insert.
  case_decide; [by rewrite bool_decide_true|by rewrite bool_decide_false].
Qed.

Lemma weight_insert_notin l x (visited : BTreeSet K) :
  x ∉ l → weight l (set_insert x visited) = weight l visited.
Proof.
  intros Hx. induction l as [|y l IH]; [done|]. apply not_elem_of_cons in Hx as [Hxy Hx].
  unfold weight in *. cbn. rewrite IH by done. rewrite set_contains_insert.
  by rewrite bool_decide_false.
Qed.

Lemma weight_insert l x (visited : BTreeSet K) :
  NoDup l → x ∈ l → set_contains x visited = false →
  weight l visited = (weight l (set_insert x visited) + out_degree x)%nat.
Proof.
  intros Hnd Hx Hv. induction Hnd as [|y l Hy Hnd IH]; [by apply not_elem_of_nil in Hx|].
  unfold weight in *. cbn. rewrite set_contains_insert.
  apply elem_of_cons in Hx as [->|Hx].
  - rewrite bool_decide_true, Hv by done. cbn.
    pose proof (weight_insert_notin l y visited Hy) as Hw. unfold weight in Hw. rewrite Hw. lia.
  - rewrite bool_decide_false by (intros ->; done). cbn. rewrite IH by done. lia.
Qed.

(** Everything outside the stack was left only through the stack. *)
Definition frontier (visited : BTreeSet K) (pending : list K) : Prop :=
  ∀ x y, x ∈ set_elems visited → edge x y → y ∈ set_elems visited ∨ y ∈ pending.

Lemma frontier_pop x visited pending :
  frontier visited (x :: pending) → x ∈ set_elems visited → frontier visited pending.
Proof.
  intros Hf Hx a b Ha Hab. destruct (Hf a b Ha Hab) as [|[->|?]%elem_of_cons]; auto.
Qed.

Lemma frontier_push x next visited pending :
  frontier visited (x :: pending) → succ x = Some next →
  frontier (set_insert x visited) (rev next ++ pending).
Proof.
  intros Hf Hn a b Ha Hab. rewrite set_insert_elems in *. rewrite elem_of_app, elem_of_rev.
  destruct Ha as [->|Ha].
  - destruct Hab as (n' & Hn' & Hb). simplify_eq. auto.
  - destruct (Hf a b Ha Hab) as [|[->|?]%elem_of_cons]; auto.
Qed.

(** A closed visited set absorbs everything reachable from it. *)
Lemma frontier_closed visited x y :
  frontier visited [] → x ∈ set_elems visited → rtc edge x y → y ∈ set_elems visited.
Proof.
  intros Hf Hx Hr. induction Hr as [|x z y Hxz _ IH]; [done|]. apply IH.
  destruct (Hf x z Hx Hxz) as [|Hn]; [done|by apply not_elem_of_nil in Hn].
Qed.

(** A path from a visited node to an unvisited one passes through the stack. *)
Lemma frontier_exit visited pending x y :
  frontier visited pending → x ∈ set_elems visited → y ∉ set_elems visited → rtc edge x y →
  ∃ p, p ∈ pending ∧ rtc edge p y.
Proof.
  intros Hf Hx Hy Hr. induction Hr as [x|x z y Hxz Hr IH]; [done|].
  destruct (Hf x z Hx Hxz) as [Hz|Hz]; [by apply IH|eauto].
Qed.

Lemma explore_spec fuel visited pending :
  bt_wf visited → (∀ x, x ∈ pending → x ∈ dom) → frontier visited pending →
  (length pending + weight dom visited < fuel)%nat →
  ∃ s, explore (E := E) succ fuel visited pending = Ok s ∧ bt_wf s ∧
    (∀ x, x ∈ set_elems visited → x ∈ set_elems s) ∧
    (∀ x, x ∈ pending → x ∈ set_elems s) ∧ frontier s [] ∧
    (∀ x, x ∈ set_elems s → x ∈ set_elems visited ∨ ∃ p, p ∈ pending ∧ rtc edge p x).
Proof.
  revert visited pending. induction fuel as [|fuel IH]; intros visited pending Hwf Hp Hf Hfuel;
    [lia|].
  destruct pending as [|x pending]; cbn [explore].
  { exists visited. split_and!; try done; [intros ? Hn; by apply not_elem_of_nil in Hn|auto]. }
  cbn [length] in Hfuel. destruct (set_contains x visited) eqn:Hx.
  - apply set_contains_elem in Hx.
    destruct (IH visited pending) as (s & Hs & Hsw & Hsub & Hpen & Hcl & Hb);
      [done|intros; apply Hp; by right|by eapply frontier_pop|lia|].
    exists s. split_and!; try done.
    + intros y [->|Hy]%elem_of_cons; auto.
    + intros y Hy. destruct (Hb y Hy) as [?|(p & Hpp & Hr)]; [by left|right].
      exists p. split; [by right|done].
  - destruct (dom_succ x) as (next & Hn & Hnd); [apply Hp; left|].
    rewrite Hn. cbn [expect ok_or mbind result_bind].
    pose proof (weight_insert dom x visited dom_nodup (Hp x ltac:(left)) Hx) as Hw.
    unfold out_degree in Hw. rewrite Hn in Hw. cbn in Hw.
    destruct (IH (set_insert x visited) (rev next ++ pending))
      as (s & Hs & Hsw & Hsub & Hpen & Hcl & Hb).
    + by apply set_insert_wf.
    + intros y. rewrite elem_of_app, elem_of_rev. intros [?|?]; [auto|apply Hp; by right].
    + by eapply frontier_push.
    + rewrite length_app, length_rev. lia.
    + exists s. split_and!; try done.
      * intros y Hy. apply Hsub, set_insert_elems. auto.
      * intros y [->|Hy]%elem_of_cons; [apply Hsub, set_insert_elems; auto|].
        apply Hpen, elem_of_app. auto.
      * intros y Hy. destruct (Hb y Hy) as [[->|?]%set_insert_elems|(p & Hpp & Hr)].
        -- right. exists x. split; [left|done].
        -- by left.
        -- right. rewrite elem_of_app, elem_of_rev in Hpp. destruct Hpp as [Hpp|Hpp].
           ++ exists x. split; [left|]. eapply rtc_l; [|exact Hr]. by exists next.
           ++ exists p. split; [by right|done].
Qed.

(** The set the traversal returns, from an empty visited set. *)
Lemma explore_reachable fuel pending :
  (∀ x, x ∈ pending → x ∈ dom) → (length pending + weight dom [] < fuel)%nat →
  ∃ s, explore (E := E) succ fuel [] pending = Ok s ∧ bt_wf s ∧
    ∀ x, x ∈ set_elems s ↔ ∃ p, p ∈ pending ∧ rtc edge p x.
Proof.
  intros Hp Hf. destruct (explore_spec fuel [] pending) as (s & Hs & Hw & _ & Hpen & Hcl & Hb);
    [constructor|done| |done|].
  { intros x y Hx. by apply not_elem_of_nil in Hx. }
  exists s. split_and!; [done..|]. intros x. split.
  - intros Hx. destruct (Hb x Hx) as [Hn|?]; [by apply not_elem_of_nil in Hn|done].
  - intros (p & Hpp & Hr). eapply frontier_closed; [done| |exact Hr]. auto.
Qed.

Lemma search_spec target fuel visited pending :
  (∀ x, x ∈ pending → x ∈ dom) → frontier visited pending → target ∉ set_elems visited →
  (length pending + weight dom visited < fuel)%nat →
  ∃ b, search (E := E) succ target fuel visited pending = Ok b ∧
    (b = true ↔ ∃ p, p ∈ pending ∧ rtc edge p target).
Proof.
  revert visited pending. induction fuel as [|fuel IH]; intros visited pending Hp Hf Ht Hfuel;
    [lia|].
  destruct pending as [|x pending]; cbn [search].
  { exists false. split; [done|]. split; [done|]. intros (p & Hn & _).
    by apply not_elem_of_nil in Hn. }
  cbn [length] in Hfuel. destruct (decide (x = target)) as [->|Hxt].
  { rewrite cmp_refl. exists true. split; [done|]. split; [|done]. intros _. exists target.
    split; [left|done]. }
  replace (match cmp x target with Eq => _ | _ => _ end) with
    (if set_contains x visited then search (E := E) succ target fuel visited pending
     else next ← expect (succ x);
          search succ target fuel (set_insert x visited) (rev next ++ pending)).
  2:{ destruct (cmp x target) eqn:Hc; [by apply cmp_eq_iff in Hc|done..]. }
  destruct (set_contains x visited) eqn:Hx.
  - apply set_contains_elem in Hx.
    destruct (IH visited pending) as (b & Hb & Hspec);
      [intros; apply Hp; by right|by eapply frontier_pop|done|lia|].
    exists b. split; [done|]. rewrite Hspec. split.
    + intros (p & Hpp & Hr). exists p. split; [by right|done].
    + intros (p & [->|Hpp]%elem_of_cons & Hr); [|eauto].
      destruct (frontier_exit visited pending x target) as (q & Hq & Hqr); try done;
        [by eapply frontier_pop|eauto].
  - destruct (dom_succ x) as (next & Hn & Hnd); [apply Hp; left|].
    rewrite Hn. cbn [expect ok_or mbind result_bind].
    pose proof (weight_insert dom x visited dom_nodup (Hp x ltac:(left)) Hx) as Hw.
    unfold out_degree in Hw. rewrite Hn in Hw. cbn in Hw.
    destruct (IH (set_insert x visited) (rev next ++ pending)) as (b & Hb & Hspec).
    + intros y. rewrite elem_of_app, elem_of_rev. intros [?|?]; [auto|apply Hp; by right].
    + by eapply frontier_push.
    + rewrite set_insert_elems. intros [?|?]; [by subst|done].
    + rewrite length_app, length_rev. lia.
    + exists b. split; [done|]. rewrite Hspec. split.
      * intros (p & Hpp & Hr). rewrite elem_of_app, elem_of_rev in Hpp. destruct Hpp as [Hpp|Hpp].
        -- exists x. split; [left|]. eapply rtc_l; [|exact Hr]. by exists next.
        -- exists p. split; [by right|done].
      * intros (p & [->|Hpp]%elem_of_cons & Hr).
        -- apply rtc_inv in Hr as [?|(z & (n' & Hn' & Hz) & Hr)]; [done|]. simplify_eq.
           exists z. split; [|done]. rewrite elem_of_app, elem_of_rev. auto.
        -- exists p. split; [|done]. apply elem_of_app. auto.
Qed.

Lemma search_reachable target fuel pending :
  (∀ x, x ∈ pending → x ∈ dom) → (length pending + weight dom [] < fuel)%nat →
  ∃ b, search (E := E) succ target fuel [] pending = Ok b ∧
    (b = true ↔ ∃ p, p ∈ pending ∧ rtc edge p target).
Proof.
  intros Hp Hf. apply search_spec; [done| | |done].
  - intros x y Hx. by apply not_elem_of_nil in Hx.
  - apply not_elem_of_nil.
Qed.
End facts.
