(* ===== verification/Reachability.v ===== *)
(** * Commit graphs: [crates/rgit-graph/src/reachability.rs]

    Construction of a validated graph index (Kahn's algorithm with generation numbers),
    the nodes reported for a cyclic input, and the ancestry queries. *)

From stdpp Require Import relations.
From Stdlib Require Import Sorting.Sorted.
From S2P Require Import Prelude Machine Order Explore.

Record GraphNode (K : Type) := mk_node { node_id : K; node_parents : list K }.
Arguments mk_node {K} node_id node_parents.
Arguments node_id {K} _.
Arguments node_parents {K} _.

Inductive GenerationError := Overflow.

(** [iter.max()]. *)
Fixpoint iter_max (l : list Z) : option Z :=
  match l with
  | [] => None
  | x :: l => match iter_max l with Some y => Some (Z.max x y) | None => Some x end
  end.

Definition next_generation (parent_generations : list Z) : result GenerationError Z :=
  match iter_max parent_generations with
  | None => Ok 0
  | Some generation => ok_or (checked_add generation 1) Overflow
  end.

Module GraphError.
Inductive t (K : Type) :=
  | DuplicateNode (node : K)
  | MissingParent (node parent : K)
  | Cycle (cycle_nodes : list K)
  | GenerationOverflow (node : K)
  | UnknownNode (node : K).
Arguments DuplicateNode {K} node.
Arguments MissingParent {K} node parent.
Arguments Cycle {K} cycle_nodes.
Arguments GenerationOverflow {K} node.
Arguments UnknownNode {K} node.
End GraphError.

Record IndexedNode (K : Type) := mk_indexed { parents : list K; generation_of : Z }.
Arguments mk_indexed {K} parents generation_of.
Arguments parents {K} _.
Arguments generation_of {K} _.

Record GraphIndex (K : Type) := mk_index {
  nodes : BTreeMap K (IndexedNode K);
  topological_order : list K }.
Arguments mk_index {K} nodes topological_order.
Arguments nodes {K} _.
Arguments topological_order {K} _.

Section graph.
Context {K : Type} `{Ord K}.

Notation gerr := (fault (GraphError.t K)).
Notation parent_map := (BTreeMap K (BTreeSet K)).

(** Twice the number of edges and one more: enough for every traversal of the map. *)
Definition edge_count (m : parent_map) : nat := sum_list_with (λ e, length e.2) m.
Definition traversal_fuel (m : parent_map) : nat := S (2 * edge_count m).

Section cycle_members.
Context (parents_by_node : parent_map) (blocked_nodes : BTreeSet K).

Definition blocked_parents (node : K) : option (list K) :=
  ps ← bt_get node parents_by_node;
  Some (List.filter (λ p, set_contains p blocked_nodes) (set_elems ps)).

(** [blocked_nodes.iter().filter(..).cloned().collect()]: the nodes that a blocked parent
    reaches through blocked nodes. *)
Definition on_cycle (node : K) : result gerr bool :=
  pending ← expect (blocked_parents node);
  search blocked_parents node (traversal_fuel parents_by_node) [] (rev pending).

Definition cycle_members : result gerr (list K) :=
  try_fold (λ members node,
      found ← on_cycle node;
      Ok (if (found : bool) then members ++ [node] else members))
    (set_elems blocked_nodes) [].
End cycle_members.

Section build.
Context (parents_by_node : parent_map).

Definition check_parents : result gerr () :=
  try_for_each (λ e, try_for_each (λ parent,
      bail_if negb (bt_contains parent parents_by_node)
        with Raise (GraphError.MissingParent e.1 parent);
      Ok tt) (set_elems e.2)) parents_by_node.

(** [children.get_mut(parent).expect(..).insert(node.clone())]. *)
Definition add_child (node : K) (children : parent_map) (parent : K) :
    result gerr parent_map :=
  siblings ← expect (bt_get parent children);
  Ok (bt_insert parent (set_insert node siblings) children).

Definition children_of : result gerr parent_map :=
  try_fold (λ children e, try_fold (add_child e.1) (set_elems e.2) children)
    parents_by_node (map (λ e, (e.1, [])) parents_by_node).

(** The state of the main loop. *)
Record Progress := mk_progress {
  ready : BTreeSet K;
  generations : BTreeMap K Z;
  order : list K;
  remaining_parents : BTreeMap K Z }.

Definition start : Progress :=
  let remaining := map (λ e, (e.1, len (set_elems e.2))) parents_by_node in
  mk_progress (set_of_list (map fst (List.filter (λ e, e.2 =? 0) remaining))) [] [] remaining.

(** [*count -= 1; if *count == 0 { ready.insert(child) }]. *)
Definition release_child (state : BTreeSet K * BTreeMap K Z) (child : K) :
    result gerr (BTreeSet K * BTreeMap K Z) :=
  let '(ready, remaining) := state in
  count ← expect (bt_get child remaining);
  bail_if count =? 0 with Panic;
  let count := count - 1 in
  Ok (if count =? 0 then set_insert child ready else ready, bt_insert child count remaining).

(** One iteration of [while let Some(node) = ready.pop_first()]. *)
Definition visit (children : parent_map) (node : K) (state : Progress) : result gerr Progress :=
  ps ← expect (bt_get node parents_by_node);
  gens ← try_map (λ parent, expect (bt_get parent (generations state))) (set_elems ps);
  generation ← map_err (λ _, Raise (GraphError.GenerationOverflow node)) (next_generation gens);
  cs ← expect (bt_get node children);
  '(ready, remaining) ← try_fold release_child (set_elems cs)
                          (ready state, remaining_parents state);
  Ok (mk_progress ready (bt_insert node generation (generations state))
        (order state ++ [node]) remaining).

Fixpoint kahn (fuel : nat) (children : parent_map) (state : Progress) : result gerr Progress :=
  match ready state with
  | [] => Ok state
  | (node, _) :: rest =>
      match fuel with
      | O => Err OutOfFuel
      | S fuel =>
          state ← visit children node
                    (mk_progress rest (generations state) (order state)
                       (remaining_parents state));
          kahn fuel children state
      end
  end.
End build.

Definition build (input : list (GraphNode K)) : result gerr (GraphIndex K) :=
  parents_by_node ← collect_unique (λ n, Raise (GraphError.DuplicateNode (node_id n))) node_id
                      (λ n, set_of_list (node_parents n)) input;
  _ ← check_parents parents_by_node;
  children ← children_of parents_by_node;
  state ← kahn parents_by_node (length parents_by_node) children (start parents_by_node);
  if negb (len (order state) =? len parents_by_node) then
    let blocked := set_of_list (map fst (List.filter (λ e, negb (e.2 =? 0))
                                           (remaining_parents state))) in
    cycle_nodes ← cycle_members parents_by_node blocked;
    Err (Raise (GraphError.Cycle cycle_nodes))
  else
    nodes ← try_map (λ e, g ← expect (bt_get e.1 (generations state));
                          Ok (e.1, mk_indexed (set_elems e.2) g)) parents_by_node;
    Ok (mk_index nodes (order state)).

Definition generation (self : GraphIndex K) (node : K) : result gerr Z :=
  ok_or (generation_of <$> bt_get node (nodes self)) (Raise (GraphError.UnknownNode node)).

(** Edges of an index, for the fuel of the query below. *)
Definition index_fuel (self : GraphIndex K) : nat :=
  S (2 * sum_list_with (λ e, length (parents e.2)) (nodes self)).

Definition index_parents (self : GraphIndex K) (node : K) : option (list K) :=
  parents <$> bt_get node (nodes self).

Definition ancestors (self : GraphIndex K) (node : K) : result gerr (BTreeSet K) :=
  bail_if negb (bt_contains node (nodes self)) with Raise (GraphError.UnknownNode node);
  pending ← expect (index_parents self node);
  explore (index_parents self) (index_fuel self) [] (rev pending).

Definition is_reachable (self : GraphIndex K) (ancestor descendant : K) : result gerr bool :=
  bail_if negb (bt_contains ancestor (nodes self)) with Raise (GraphError.UnknownNode ancestor);
  match cmp ancestor descendant with
  | Eq => Ok true
  | _ => s ← ancestors self descendant; Ok (set_contains ancestor s)
  end.
End graph.
Arguments Progress : clear implicits.
