(* ===== verification/ReachabilityFacts.v ===== *)
(** * Commit graphs: the loop invariant of the index construction

    The state of Kahn's loop, related to the set of nodes already ordered; preservation by
    every iteration; what the final state says about the graph. *)

From stdpp Require Import relations.
From Stdlib Require Import Sorting.Sorted.
From S2P Require Import Prelude Machine Order Explore Reachability.

Section kahn.
Context {K : Type} `{OrdLaws K}.
Context (pm : BTreeMap K (BTreeSet K)).

(** [p] is a parent of [n]. *)
Definition parent (n p : K) : Prop := ∃ ps, bt_get n pm = Some ps ∧ p ∈ set_elems ps.

(** What the first two loops of [build] establish. *)
Definition graph_wf : Prop :=
  bt_wf pm ∧ (∀ n ps, bt_get n pm = Some ps → bt_wf ps) ∧
  ∀ n p, parent n p → p ∈ bt_keys pm.

(** The parents that are not yet ordered. *)
Definition missing (ord : list K) (ps : list K) : list K :=
  List.filter (λ p, negb (bool_decide (p ∈ ord))) ps.

Lemma missing_elem ord ps p : p ∈ missing ord ps ↔ p ∈ ps ∧ p ∉ ord.
Proof.
  unfold missing. rewrite list_elem_of_In, filter_In, <-list_elem_of_In, negb_true_iff.
  by rewrite bool_decide_eq_false.
Qed.

Lemma missing_nil ord ps : len (missing ord ps) = 0 ↔ ∀ p, p ∈ ps → p ∈ ord.
Proof.
  split.
  - intros Hl p Hp. apply dec_stable. intros Hn.
    assert (p ∈ missing ord ps) as Hm by (by apply missing_elem).
    destruct (missing ord ps) as [|x l]; [by apply not_elem_of_nil in Hm|].
    unfold len in Hl. cbn in Hl. lia.
  - intros Hp. destruct (missing ord ps) as [|x l] eqn:Hm; [done|].
    assert (x ∈ missing ord ps) as [? ?]%missing_elem by (rewrite Hm; left). naive_solver.
Qed.

Lemma missing_notin ord ps x : x ∉ ps → missing (ord ++ [x]) ps = missing ord ps.
Proof.
  intros Hx. unfold missing. apply filter_ext_in. intros p Hp%list_elem_of_In. f_equal.
  apply bool_decide_ext. rewrite elem_of_app, list_elem_of_singleton. naive_solver.
Qed.

Lemma missing_in ord ps x :
  NoDup ps → x ∈ ps → x ∉ ord → len (missing (ord ++ [x]) ps) = len (missing ord ps) - 1.
Proof.
  intros Hnd Hx Ho. induction Hnd as [|y ps Hy Hnd IH]; [by apply not_elem_of_nil in Hx|].
  apply elem_of_cons in Hx as [->|Hx].
  - unfold missing. cbn [List.filter]. rewrite bool_decide_true by set_solver.
    rewrite (bool_decide_false (y ∈ ord)) by done. cbn [negb]. rewrite len_cons.
    pose proof (missing_notin ord ps y Hy) as Hm. unfold missing in Hm. rewrite Hm. lia.
  - assert (x ≠ y) by (intros ->; done). specialize (IH Hx).
    unfold missing in *. cbn [List.filter].
    rewrite (bool_decide_ext (y ∈ ord ++ [x]) (y ∈ ord)).
    2:{ rewrite elem_of_app, list_elem_of_singleton. naive_solver. }
    destruct (bool_decide (y ∈ ord)); cbn [negb]; [done|]. rewrite !len_cons. lia.
Qed.

(** ** The loop invariant *)

(** Parents come before their children. *)
Definition topological (ord : list K) : Prop :=
  ∀ pre n post, ord = pre ++ n :: post → ∀ p, parent n p → p ∈ pre.

(** The generation recorded for a node follows from those of its parents. *)
Definition generation_ok (gens : BTreeMap K Z) (n : K) (g : Z) : Prop :=
  ∃ ps gs, bt_get n pm = Some ps ∧
    Forall2 (λ p g, bt_get p gens = Some g) (set_elems ps) gs ∧ next_generation gs = Ok g.

Record Inv (st : Progress K) : Prop := {
  inv_nodup : NoDup (order st);
  inv_nodes n : n ∈ order st → n ∈ bt_keys pm;
  inv_topo : topological (order st);
  inv_ready_wf : bt_wf (ready st);
  inv_ready n : n ∈ set_elems (ready st) ↔
    n ∈ bt_keys pm ∧ n ∉ order st ∧ ∀ p, parent n p → p ∈ order st;
  inv_remaining_wf : bt_wf (remaining_parents st);
  inv_remaining n : bt_get n (remaining_parents st)
    = ps ← bt_get n pm; Some (len (missing (order st) (set_elems ps)));
  inv_gens n : n ∈ order st ↔ is_Some (bt_get n (generations st));
  inv_gen n g : bt_get n (generations st) = Some g →
    0 ≤ g < len (order st) ∧ generation_ok (generations st) n g }.

Context (Hwf : graph_wf).

Lemma key_get n : n ∈ bt_keys pm ↔ is_Some (bt_get n pm).
Proof.
  rewrite <-bt_contains_elem. unfold bt_contains. rewrite <-is_Some_bool.
  apply bool_decide_eq_true.
Qed.

Lemma parents_nodup n ps : bt_get n pm = Some ps → NoDup (set_elems ps).
Proof. intros Hn. apply (bt_wf_nodup (V := ())). destruct Hwf as (_ & Hp & _). by eapply Hp. Qed.

Lemma topological_snoc ord n :
  topological ord → (∀ p, parent n p → p ∈ ord) → topological (ord ++ [n]).
Proof.
  intros Ht Hn pre x post Heq p Hp. destruct (decide (post = [])) as [->|Hpost].
  - apply app_inj_tail in Heq as [-> ->]. auto.
  - destruct (exists_last Hpost) as (post' & y & ->).
    rewrite app_comm_cons, app_assoc in Heq. apply app_inj_tail in Heq as [-> _].
    by eapply Ht.
Qed.

Lemma topological_parent ord n p : topological ord → n ∈ ord → parent n p → p ∈ ord.
Proof.
  intros Ht (pre & post & ->)%list_elem_of_split Hp. apply elem_of_app. left. by eapply Ht.
Qed.

(** ** The initial state *)

Lemma bt_get_map {V W} (f : V → W) (m : BTreeMap K V) k :
  bt_get k (map (λ e, (e.1, f e.2)) m) = f <$> bt_get k m.
Proof.
  induction m as [|[k' v] m IH]; cbn; [done|]. by destruct (cmp k k').
Qed.

Lemma bt_wf_map {V W} (f : V → W) (m : BTreeMap K V) :
  bt_wf m → bt_wf (map (λ e, (e.1, f e.2)) m).
Proof. unfold bt_wf, bt_keys. by rewrite map_map. Qed.

Lemma keys_where_elem {V} (f : V → bool) (m : BTreeMap K V) k :
  bt_wf m →
  k ∈ set_elems (set_of_list (map fst (List.filter (λ e, f e.2) m))) ↔
  ∃ v, bt_get k m = Some v ∧ f v = true.
Proof.
  intros Hm. rewrite set_of_list_elems, list_elem_of_fmap. split.
  - intros ([k' v] & -> & Hin). apply list_elem_of_In, filter_In in Hin as [Hin Hf].
    apply list_elem_of_In in Hin. exists v. split; [by apply bt_get_elem_iff|done].
  - intros (v & Hv & Hf). exists (k, v). split; [done|]. apply list_elem_of_In, filter_In.
    split; [|done]. by apply list_elem_of_In, bt_get_elem.
Qed.

Lemma missing_none ps : missing [] ps = ps.
Proof.
  unfold missing. induction ps as [|p ps IH]; cbn; [done|].
  rewrite bool_decide_false by apply not_elem_of_nil. cbn. by rewrite IH.
Qed.

Lemma start_inv : Inv (start pm).
Proof.
  destruct Hwf as (Hpm & Hps & Hcl).
  assert (bt_wf (map (λ e, (e.1, len (set_elems e.2))) pm)) as Hrem.
  { by apply (bt_wf_map (λ ps : BTreeSet K, len (set_elems ps))). }
  split; unfold start; cbn [order ready generations remaining_parents].
  - constructor.
  - intros n Hn. by apply not_elem_of_nil in Hn.
  - intros pre n post Heq. by destruct pre.
  - apply set_of_list_wf.
  - intros n. rewrite (keys_where_elem (λ c, c =? 0)) by done.
    rewrite (bt_get_map (λ ps : BTreeSet K, len (set_elems ps))). rewrite key_get.
    unfold parent. destruct (bt_get n pm) as [ps|] eqn:Hn; cbn.
    + split.
      * intros (v & [= <-] & Hv%Z.eqb_eq). split_and!; [done|apply not_elem_of_nil|].
        intros p (ps' & [= <-] & Hp). destruct (set_elems ps); [done|].
        unfold len in Hv. cbn in Hv. lia.
      * intros (_ & _ & Hp). eexists; split; [done|]. apply Z.eqb_eq.
        destruct (set_elems ps) as [|p l] eqn:Hl; [done|].
        destruct (not_elem_of_nil p). apply Hp. exists ps. rewrite Hl. split; [done|left].
    + split; [by intros (? & ? & _)|by intros ([? ?] & _)].
  - done.
  - intros n. rewrite (bt_get_map (λ ps : BTreeSet K, len (set_elems ps))).
    destruct (bt_get n pm); cbn; [|done]. by rewrite missing_none.
  - intros n. split; [intros Hn; by apply not_elem_of_nil in Hn|by intros [? ?]].
  - done.
Qed.

(** ** The children map *)

(** Every node has an entry listing exactly the nodes that name it as a parent. *)
Definition children_ok (cm : BTreeMap K (BTreeSet K)) : Prop :=
  ∀ p, p ∈ bt_keys pm → ∃ cs, bt_get p cm = Some cs ∧ bt_wf cs ∧
    ∀ n, n ∈ set_elems cs ↔ parent n p.

(** The same for the edges added so far. *)
Definition children_of_edges (edges : K → K → Prop) (cm : BTreeMap K (BTreeSet K)) : Prop :=
  ∀ p, p ∈ bt_keys pm → ∃ cs, bt_get p cm = Some cs ∧ bt_wf cs ∧
    ∀ n, n ∈ set_elems cs ↔ edges n p.

Lemma add_child_spec edges cm n p :
  children_of_edges edges cm → p ∈ bt_keys pm →
  ∃ cm', add_child n cm p = Ok cm' ∧
    children_of_edges (λ n' p', edges n' p' ∨ n' = n ∧ p' = p) cm'.
Proof.
  intros Hc Hp. unfold add_child. destruct (Hc p Hp) as (cs & Hcs & Hw & Hn).
  rewrite Hcs. cbn. eexists; split; [reflexivity|]. intros p' Hp'. rewrite bt_get_insert.
  case_decide as Heq.
  - subst p'. eexists; split_and!; [reflexivity|by apply set_insert_wf|].
    intros n'. rewrite set_insert_elems, Hn. naive_solver.
  - destruct (Hc p' Hp') as (cs' & ? & ? & Hn'). exists cs'. split_and!; [done..|].
    intros n'. rewrite Hn'. naive_solver.
Qed.

Lemma add_children_spec edges cm n ps :
  children_of_edges edges cm → (∀ p, p ∈ ps → p ∈ bt_keys pm) →
  ∃ cm', try_fold (add_child n) ps cm = Ok cm' ∧
    children_of_edges (λ n' p', edges n' p' ∨ n' = n ∧ p' ∈ ps) cm'.
Proof.
  revert edges cm. induction ps as [|p ps IH]; intros edges cm Hc Hp; cbn [try_fold].
  - exists cm. split; [done|]. intros p Hk. destruct (Hc p Hk) as (cs & ? & ? & Hn).
    exists cs. split_and!; [done..|]. intros n'. rewrite Hn, elem_of_nil. tauto.
  - destruct (add_child_spec edges cm n p Hc) as (cm1 & -> & Hc1); [apply Hp; left|].
    destruct (IH _ cm1 Hc1) as (cm' & Hcm' & Hc'); [intros; apply Hp; by right|].
    exists cm'. split; [done|]. intros q Hk. destruct (Hc' q Hk) as (cs & ? & ? & Hn).
    exists cs. split_and!; [done..|]. intros n'. rewrite Hn, elem_of_cons. tauto.
Qed.

Lemma children_loop (es : list (K * BTreeSet K)) edges cm :
  children_of_edges edges cm → (∀ e p, e ∈ es → p ∈ set_elems e.2 → p ∈ bt_keys pm) →
  ∃ cm', try_fold (λ children e, try_fold (add_child e.1) (set_elems e.2) children) es cm
         = Ok cm' ∧
    children_of_edges (λ n p, edges n p ∨ ∃ ps, (n, ps) ∈ es ∧ p ∈ set_elems ps) cm'.
Proof.
  revert edges cm. induction es as [|[n ps] es IH]; intros edges cm Hc Hp; cbn [try_fold].
  - exists cm. split; [done|]. intros p Hk. destruct (Hc p Hk) as (cs & ? & ? & Hn).
    exists cs. split_and!; [done..|]. intros n'. rewrite Hn.
    split; [auto|]. intros [?|(ps & Hin & _)]; [done|by apply not_elem_of_nil in Hin].
  - destruct (add_children_spec edges cm n (set_elems ps) Hc) as (cm1 & Hcm1 & Hc1).
    { intros p Hin. apply (Hp (n, ps)); [left|done]. }
    cbn [fst snd]. rewrite Hcm1. cbn [mbind result_bind].
    destruct (IH _ cm1 Hc1) as (cm' & Hcm' & Hc'); [intros e p He; apply Hp; by right|].
    exists cm'. split; [done|]. intros q Hk. destruct (Hc' q Hk) as (cs & ? & ? & Hn).
    exists cs. split_and!; [done..|]. intros n'. rewrite Hn. setoid_rewrite elem_of_cons.
    naive_solver.
Qed.

Lemma children_of_Ok : ∃ cm, children_of pm = Ok cm ∧ children_ok cm.
Proof.
  destruct Hwf as (Hpm & Hps & Hcl).
  destruct (children_loop pm (λ _ _, False) (map (λ e, (e.1, [])) pm)) as (cm & Hcm & Hc).
  - intros p Hp. exists []. rewrite (bt_get_map (λ _ : BTreeSet K, ([] : BTreeSet K))).
    apply key_get in Hp as [ps ->].
    split_and!; [done|constructor|]. intros n. by rewrite elem_of_nil.
  - intros [n ps] p Hin Hp. apply (Hcl n p). exists ps. split; [by apply bt_get_elem_iff|done].
  - exists cm. split; [done|]. intros p Hp. destruct (Hc p Hp) as (cs & ? & ? & Hn).
    exists cs. split_and!; [done..|]. intros n. rewrite Hn. unfold parent.
    setoid_rewrite (bt_get_elem_iff n _ pm Hpm). naive_solver.
Qed.

(** ** One iteration *)

(** The inner loop after the children [done] of [node] were released. *)
Definition released (ord : list K) (node : K) (base : K → Prop) (done : list K)
    (state : BTreeSet K * BTreeMap K Z) : Prop :=
  bt_wf state.1 ∧ bt_wf state.2 ∧
  (∀ n, n ∈ set_elems state.1 ↔
    base n ∨ n ∈ done ∧ ∀ p, parent n p → p ∈ ord ++ [node]) ∧
  ∀ n, bt_get n state.2 = ps ← bt_get n pm;
    Some (len (missing (if decide (n ∈ done) then ord ++ [node] else ord) (set_elems ps))).

Lemma release_child_spec ord node base done state child :
  node ∉ ord → released ord node base done state → child ∉ done → parent child node →
  ∃ state', release_child state child = Ok state' ∧
    released ord node base (done ++ [child]) state'.
Proof.
  intros Ho (Hw1 & Hw2 & Hrd & Hrem) Hd (ps & Hps & Hp). destruct state as [rd rem]; cbn in *.
  unfold release_child. rewrite Hrem, Hps. cbn [mbind option_bind expect ok_or result_bind].
  rewrite decide_False by done.
  pose proof (missing_in ord (set_elems ps) node (parents_nodup _ _ Hps) Hp Ho) as Hm.
  pose proof (len_nonneg (missing (ord ++ [node]) (set_elems ps))) as Hpos.
  rewrite (proj2 (Z.eqb_neq _ _)) by lia. rewrite <-Hm. eexists; split; [reflexivity|].
  split_and!; cbn [fst snd].
  - destruct (_ =? 0); [by apply set_insert_wf|done].
  - by apply bt_insert_wf.
  - intros n. rewrite elem_of_app, list_elem_of_singleton.
    assert ((∀ p, parent child p → p ∈ ord ++ [node]) ↔
      len (missing (ord ++ [node]) (set_elems ps)) = 0) as Hz.
    { rewrite missing_nil. unfold parent. setoid_rewrite Hps. naive_solver. }
    destruct (Z.eqb_spec (len (missing (ord ++ [node]) (set_elems ps))) 0) as [Hc|Hc].
    + rewrite set_insert_elems, Hrd. pose proof (proj2 Hz Hc) as Hall. split.
      * intros [->|[?|[? ?]]]; auto.
      * intros [?|[[?| ->] ?]]; auto.
    + rewrite Hrd. split; [intros [?|[? ?]]; auto|].
      intros [?|[[?| ->] Hall]]; auto. by destruct (Hc (proj1 Hz Hall)).
  - intros n. rewrite bt_get_insert. case_decide as Hn.
    + subst n. rewrite Hps. cbn. rewrite decide_True; [done|]. apply elem_of_app. right. left.
    + rewrite Hrem. destruct (bt_get n pm); cbn; [|done]. do 3 f_equal.
      apply decide_ext. rewrite elem_of_app, list_elem_of_singleton. naive_solver.
Qed.

Lemma release_loop ord node base cs done state :
  node ∉ ord → released ord node base done state → NoDup (done ++ cs) →
  (∀ c, c ∈ cs → parent c node) →
  ∃ state', try_fold release_child cs state = Ok state' ∧
    released ord node base (done ++ cs) state'.
Proof.
  intros Ho. revert done state. induction cs as [|c cs IH]; intros done state Hr Hnd Hp.
  { exists state. by rewrite app_nil_r. }
  destruct (release_child_spec ord node base done state c) as (st1 & Hst1 & Hr1); [done..| | |].
  { apply NoDup_app in Hnd as (_ & Hdis & _). intros Hin. apply (Hdis c Hin). left. }
  { apply Hp. left. }
  cbn [try_fold]. rewrite Hst1. cbn [mbind result_bind].
  rewrite cons_middle, app_assoc in Hnd |- *. apply IH; [done..|]. intros c' Hc'. apply Hp. by right.
Qed.

Lemma next_generation_bound gs n :
  Forall (λ g, 0 ≤ g < n) gs → 0 ≤ n ≤ u64_max →
  ∃ g, next_generation gs = Ok g ∧ 0 ≤ g ≤ n.
Proof.
  intros Hgs Hn. unfold next_generation.
  assert (∀ m, iter_max gs = Some m → 0 ≤ m < n) as Hmax.
  { induction Hgs as [|g gs Hg _ IH]; [done|]. cbn. intros m.
    destruct (iter_max gs) as [y|]; intros [= <-]; [|done]. specialize (IH y eq_refl). lia. }
  destruct (iter_max gs) as [m|]; [|exists 0; split; [done|lia]].
  specialize (Hmax m eq_refl). unfold checked_add. rewrite (proj2 (Z.leb_le _ _)) by lia.
  exists (m + 1). split; [done|lia].
Qed.

Lemma generation_ok_insert gens node g n g' :
  bt_get node gens = None → generation_ok gens n g' →
  generation_ok (bt_insert node g gens) n g'.
Proof.
  intros Hnone (ps & gs & Hps & Hgs & Hg). exists ps, gs. split_and!; [done| |done].
  eapply Forall2_impl; [exact Hgs|]. intros p x Hp. rewrite bt_get_insert_ne; [done|].
  intros ->. congruence.
Qed.

Lemma lookup_all {V} (m : BTreeMap K V) (P : V → Prop) (ks : list K) :
  (∀ k, k ∈ ks → ∃ v, bt_get k m = Some v ∧ P v) →
  ∃ vs, Forall2 (λ k v, bt_get k m = Some v) ks vs ∧ Forall P vs.
Proof.
  induction ks as [|k ks IH]; intros Hk; [by exists []|].
  destruct (Hk k) as (v & Hv & HP); [left|].
  destruct IH as (vs & Hvs & HPs); [intros; apply Hk; by right|].
  exists (v :: vs). split; by constructor.
Qed.

Lemma order_len st : Inv st → len (order st) ≤ len pm.
Proof.
  intros Hi. unfold len. rewrite <-(length_map fst pm). apply inj_le.
  apply submseteq_length, NoDup_submseteq; [apply Hi|]. intros n. apply Hi.
Qed.

(** The first ready node and the rest. *)
Lemma ready_pop st node u rest :
  Inv st → ready st = (node, u) :: rest →
  (node ∈ bt_keys pm ∧ node ∉ order st ∧ ∀ p, parent node p → p ∈ order st) ∧
  bt_wf rest ∧ ∀ n, n ∈ set_elems rest ↔ n ∈ set_elems (ready st) ∧ n ≠ node.
Proof.
  intros Hi Hr. pose proof (inv_ready_wf st Hi) as Hw. rewrite Hr in Hw.
  apply bt_wf_cons in Hw as [Hrest Hlt]. split_and!; try done.
  1-3: apply (inv_ready st Hi); rewrite Hr; left.
  intros n. rewrite Hr. unfold set_elems at 2. cbn [bt_keys map fst]. rewrite elem_of_cons.
  rewrite Forall_forall in Hlt. split.
  - intros Hn. split; [by right|]. intros ->. by apply (lt_irrefl node), Hlt.
  - intros [[->|?] ?]; done.
Qed.

(** The released children together with the rest are the next ready set. *)
Lemma ready_next st node rest n (cs : list K) :
  Inv st → node ∉ order st →
  (∀ p, parent node p → p ∈ order st) →
  (∀ n, n ∈ set_elems rest ↔ n ∈ set_elems (ready st) ∧ n ≠ node) →
  (∀ n, n ∈ cs ↔ parent n node) →
  (n ∈ set_elems rest ∨ n ∈ cs ∧ ∀ p, parent n p → p ∈ order st ++ [node]) ↔
  n ∈ bt_keys pm ∧ n ∉ order st ++ [node] ∧ ∀ p, parent n p → p ∈ order st ++ [node].
Proof.
  intros Hi Hno Hnp Hrest Hcs. rewrite Hrest, (inv_ready st Hi), Hcs.
  rewrite not_elem_of_app, list_elem_of_singleton. setoid_rewrite elem_of_app.
  setoid_rewrite list_elem_of_singleton. split.
  - intros [[(? & ? & ?) ?]|[Hp Hall]]; [naive_solver|]. split_and!; [| | |done].
    + destruct Hp as (ps & Hps & _). apply key_get. eauto.
    + intros Hin. apply Hno. by eapply topological_parent; [apply Hi|..].
    + intros ->. by apply Hno, Hnp.
  - intros (Hk & (Ho & Hne) & Hall). apply key_get in Hk as Hps. destruct Hps as [ps Hps].
    destruct (decide (node ∈ set_elems ps)) as [Hin|Hin].
    + right. split; [by exists ps|done].
    + left. split_and!; [done..| |done]. intros p Hp. destruct (Hall p Hp) as [| ->]; [done|].
      destruct Hp as (ps' & ? & ?). by simplify_eq.
Qed.

Lemma visit_inv cm st node u rest :
  len pm ≤ u64_max → children_ok cm → Inv st → ready st = (node, u) :: rest →
  ∃ st', visit pm cm node
           (mk_progress rest (generations st) (order st) (remaining_parents st)) = Ok st' ∧
    Inv st' ∧ order st' = order st ++ [node].
Proof.
  intros Hu Hcm Hi Hr. destruct (ready_pop st node u rest Hi Hr)
    as ((Hk & Hno & Hnp) & Hrw & Hrest).
  apply key_get in Hk as Hps. destruct Hps as [ps Hps].
  destruct (lookup_all (generations st) (λ g, 0 ≤ g < len (order st)) (set_elems ps))
    as (gs & Hgs & Hb).
  { intros p Hp. destruct (proj1 (inv_gens st Hi p)) as [g Hg]; [apply Hnp; by exists ps|].
    exists g. split; [done|]. by apply (inv_gen st Hi p). }
  pose proof (order_len st Hi). pose proof (len_nonneg (order st)).
  destruct (next_generation_bound gs (len (order st)) Hb) as (g & Hg & Hgb); [lia|].
  destruct (Hcm node Hk) as (cs & Hcs & Hcw & Hcn).
  destruct (release_loop (order st) node (λ n, n ∈ set_elems rest) (set_elems cs) []
    (rest, remaining_parents st)) as ([rd rem] & Hrel & Hw1 & Hw2 & Hrd & Hrem); cbn [fst snd] in *.
  { done. }
  { split_and!; cbn [fst snd]; [done|apply Hi| |apply (inv_remaining st Hi)].
    intros n. rewrite elem_of_nil. tauto. }
  { by apply (bt_wf_nodup (V := ())). }
  { intros c Hc. by apply Hcn. }
  unfold visit. cbn [generations order ready remaining_parents].
  rewrite Hps. cbn [expect ok_or mbind result_bind].
  assert (try_map (λ parent, expect (bt_get parent (generations st))) (set_elems ps)
    = @Ok (fault (GraphError.t K)) _ gs) as ->.
  { apply try_map_Ok. eapply Forall2_impl; [exact Hgs|]. by intros p x ->. }
  cbn [mbind result_bind]. rewrite Hg, Hcs. cbn [map_err expect ok_or mbind result_bind].
  eexists; split; [apply bind_Ok; exists (rd, rem); split; [exact Hrel|reflexivity]|].
  split; [|done].
  assert (bt_get node (generations st) = None) as Hnone.
  { apply eq_None_not_Some. by rewrite <-(inv_gens st Hi). }
  split; cbn [generations order ready remaining_parents].
  - by apply NoDup_snoc, Hi.
  - intros n [Hn|Hn%list_elem_of_singleton]%elem_of_app; [by apply Hi|by subst].
  - by apply topological_snoc; [apply Hi|].
  - done.
  - intros n. rewrite Hrd. by apply ready_next.
  - done.
  - intros n. rewrite Hrem. cbn [app]. destruct (bt_get n pm) as [ps'|] eqn:Hn; cbn; [|done].
    case_decide as Hin; [done|]. rewrite missing_notin; [done|]. intros Hp. apply Hin, Hcn.
    by exists ps'.
  - intros n. rewrite elem_of_app, list_elem_of_singleton, (inv_gens st Hi), bt_get_insert.
    case_decide; [naive_solver|]. naive_solver.
  - intros n g'. rewrite bt_get_insert, len_snoc. case_decide as Hn.
    + intros [= <-]. subst n. split; [lia|].
      apply generation_ok_insert; [done|]. exists ps, gs. done.
    + intros Hg'. destruct (inv_gen st Hi n g' Hg') as [? ?]. split; [lia|].
      by apply generation_ok_insert.
Qed.

(** ** The whole loop *)

Lemma kahn_inv cm fuel st :
  len pm ≤ u64_max → children_ok cm → Inv st →
  (length pm ≤ length (order st) + fuel)%nat →
  ∃ st', kahn pm fuel cm st = Ok st' ∧ Inv st' ∧ ready st' = [].
Proof.
  intros Hu Hcm. revert st. induction fuel as [|fuel IH]; intros st Hi Hf; cbn [kahn].
  - destruct (ready st) as [|[node u] rest] eqn:Hr; [eauto|].
    destruct (visit_inv cm st node u rest Hu Hcm Hi Hr) as (st' & _ & Hi' & Ho).
    pose proof (order_len st' Hi') as Hl. rewrite Ho, len_snoc in Hl. unfold len in Hl. lia.
  - destruct (ready st) as [|[node u] rest] eqn:Hr; [eauto|].
    destruct (visit_inv cm st node u rest Hu Hcm Hi Hr) as (st' & -> & Hi' & Ho).
    cbn [mbind result_bind]. apply IH; [done|]. rewrite Ho, length_app. cbn. lia.
Qed.

(** ** What the final state says about the graph *)

Definition acyclic : Prop := ∀ n, ¬ tc parent n n.

(** Along a topological order every ancestor comes earlier. *)
Lemma topological_ancestor ord i n m :
  topological ord → ord !! i = Some n → tc parent n m → ∃ j, (j < i)%nat ∧ ord !! j = Some m.
Proof.
  intros Ht Hi Hr. revert i Hi.
  assert (∀ i n p, ord !! i = Some n → parent n p → ∃ j, (j < i)%nat ∧ ord !! j = Some p) as Hstep.
  { intros i x p Hi Hp. pose proof (take_drop_middle _ _ _ Hi) as Heq.
    assert (p ∈ take i ord) as Hin by (by eapply Ht).
    apply list_elem_of_lookup in Hin as [j Hj]. apply lookup_take_Some in Hj as [Hj Hlt].
    eauto. }
  induction Hr as [x y Hxy|x y z Hxy _ IH]; intros i Hi.
  - by eapply Hstep.
  - destruct (Hstep i x y Hi Hxy) as (j & Hj & Hjy). destruct (IH j Hjy) as (k & ? & ?).
    exists k. split; [lia|done].
Qed.

Lemma topological_acyclic ord n : topological ord → NoDup ord → n ∈ ord → ¬ tc parent n n.
Proof.
  intros Ht Hnd [i Hi]%list_elem_of_lookup Hr.
  destruct (topological_ancestor ord i n n Ht Hi Hr) as (j & Hj & Hjn).
  rewrite (NoDup_lookup ord i j n Hnd Hi Hjn) in Hj. lia.
Qed.

Lemma tc_parent_key n m : tc parent n m → n ∈ bt_keys pm ∧ m ∈ bt_keys pm.
Proof.
  assert (∀ x y, parent x y → x ∈ bt_keys pm ∧ y ∈ bt_keys pm) as Hk.
  { intros x y Hxy. split; [destruct Hxy as (ps & ? & _); apply key_get; eauto|].
    by apply (proj2 (proj2 Hwf) x y). }
  induction 1 as [x y Hxy|x y z Hxy _ [_ IH]]; [by apply Hk|]. split; [|done]. by apply (Hk x y).
Qed.

Section final.
Context (st : Progress K) (Hi : Inv st) (Hready : ready st = []).

Lemma final_ready n : n ∈ bt_keys pm → (∀ p, parent n p → p ∈ order st) → n ∈ order st.
Proof.
  intros Hk Hp. apply dec_stable. intros Hn.
  assert (n ∈ set_elems (ready st)) as Hin by (by apply (inv_ready st Hi)).
  rewrite Hready in Hin. by apply not_elem_of_nil in Hin.
Qed.

Lemma final_acyclic n : acyclic → n ∈ bt_keys pm → n ∈ order st.
Proof.
  intros Hac Hk. assert (sn parent n) as Hsn.
  { apply tc_finite_sn; [intros x; apply Hac|]. exists (bt_keys pm).
    intros x Hx. by apply tc_parent_key in Hx as [_ ?]. }
  induction Hsn as [n _ IH]. apply final_ready; [done|]. intros p Hp.
  apply IH; [done|]. by apply (proj2 (proj2 Hwf) n p).
Qed.

Lemma final_complete : len (order st) = len pm ↔ ∀ n, n ∈ bt_keys pm → n ∈ order st.
Proof.
  assert (len pm = len (bt_keys pm)) as -> by (unfold len, bt_keys; by rewrite length_map).
  assert (NoDup (bt_keys pm)) as Hnd by (apply bt_wf_nodup, Hwf).
  unfold len. split.
  - intros Hl n Hn.
    assert (order st ≡ₚ bt_keys pm) as ->; [|done].
    apply submseteq_length_Permutation; [|lia].
    apply NoDup_submseteq; [apply Hi|]. intros x. apply Hi.
  - intros Hall. assert (order st ≡ₚ bt_keys pm) as ->; [|done].
    apply NoDup_Permutation; [apply Hi|done|]. intros x. split; [apply Hi|apply Hall].
Qed.

Lemma complete_acyclic : (∀ n, n ∈ bt_keys pm → n ∈ order st) ↔ acyclic.
Proof.
  split; [|intros ? ? ?; by apply final_acyclic].
  intros Hall n Hn. eapply topological_acyclic; [apply Hi|apply Hi| |exact Hn].
  apply Hall. by apply tc_parent_key in Hn as [? _].
Qed.

(** The nodes whose counter is not zero are those left out of the order. *)
Definition blocked_set : BTreeSet K :=
  set_of_list (map fst (List.filter (λ e, negb (e.2 =? 0)) (remaining_parents st))).

Lemma blocked_elem n : n ∈ set_elems blocked_set ↔ n ∈ bt_keys pm ∧ n ∉ order st.
Proof.
  unfold blocked_set. rewrite (keys_where_elem (λ c, negb (c =? 0))) by apply Hi.
  rewrite (inv_remaining st Hi), key_get. split.
  - destruct (bt_get n pm) as [ps|] eqn:Hn; cbn; [|by intros (? & ? & _)].
    intros (c & [= <-] & Hc%negb_true_iff%Z.eqb_neq). split; [done|]. intros Ho. apply Hc.
    apply missing_nil. intros p Hp. eapply topological_parent; [apply Hi|done|]. by exists ps.
  - intros [[ps Hn] Ho]. rewrite Hn. cbn. eexists; split; [reflexivity|].
    apply negb_true_iff, Z.eqb_neq. intros Hz. apply Ho, final_ready; [apply key_get; eauto|].
    intros p (ps' & ? & Hp). simplify_eq. by apply (missing_nil (order st) (set_elems ps)).
Qed.

Lemma on_cycle_blocked n : tc parent n n → n ∈ set_elems blocked_set.
Proof.
  intros Hc. apply blocked_elem. split; [by apply tc_parent_key in Hc as [? _]|].
  intros Ho. by apply (topological_acyclic (order st) n) in Hc; [|apply Hi..|].
Qed.
End final.
End kahn.
