(* ===== verification/GraphSpec.v ===== *)
(** * Commit graphs: what the index guarantees

    The outcome of [GraphIndex::build] on every input, the generation numbers, and the
    ancestry queries, in terms of the parent relation of the input. *)

From stdpp Require Import relations.
From Stdlib Require Import Sorting.Sorted.
From S2P Require Import Prelude Machine Order Explore Reachability ReachabilityFacts.

Lemma tc_mono {A} (R S : relation A) x y :
  (∀ a b, R a b → S a b) → tc R x y → tc S x y.
Proof. intros HRS. induction 1; [by apply tc_once, HRS|]. eapply tc_l; eauto. Qed.

(** ** Sums over keys, for the fuel of the traversals *)

Section sums.
Context {K : Type} `{OrdLaws K}.

Lemma sum_submseteq {A} (f : A → nat) l k :
  l ⊆+ k → (sum_list_with f l ≤ sum_list_with f k)%nat.
Proof. induction 1; cbn; lia. Qed.

Lemma sum_list_with_le {A} (f g : A → nat) l :
  (∀ x, x ∈ l → (f x ≤ g x)%nat) → (sum_list_with f l ≤ sum_list_with g l)%nat.
Proof.
  induction l as [|x l IH]; intros Hfg; cbn; [done|].
  pose proof (Hfg x ltac:(left)). specialize (IH ltac:(intros y Hy; apply Hfg; by right)). lia.
Qed.

Lemma sum_keys {V} (m : BTreeMap K V) (f : V → nat) :
  bt_wf m →
  sum_list_with (λ k, default 0%nat (f <$> bt_get k m)) (bt_keys m)
  = sum_list_with (λ e, f e.2) m.
Proof.
  intros Hm. assert (∀ m', (∀ e, e ∈ m' → e ∈ m) →
    sum_list_with (λ k, default 0%nat (f <$> bt_get k m)) (bt_keys m')
    = sum_list_with (λ e, f e.2) m') as Hgen; [|by apply Hgen].
  induction m' as [|[k v] m' IH]; intros Hsub; cbn; [done|].
  rewrite (proj2 (bt_get_elem_iff k v m Hm)) by (apply Hsub; left). cbn.
  f_equal. apply IH. intros e He. apply Hsub. by right.
Qed.

(** The traversal measure is at most the number of entries of the adjacency map. *)
Lemma weight_bound {V} (m : BTreeMap K V) (size : V → nat) succ dom :
  bt_wf m → NoDup dom → (∀ x, x ∈ dom → x ∈ bt_keys m) →
  (∀ x v next, bt_get x m = Some v → succ x = Some next → (length next ≤ size v)%nat) →
  (weight succ dom [] ≤ sum_list_with (λ e, size e.2) m)%nat.
Proof.
  intros Hm Hnd Hsub Hlen. rewrite <-(sum_keys m size Hm). etransitivity.
  2:{ apply (sum_submseteq _ dom), NoDup_submseteq; [done|exact Hsub]. }
  apply sum_list_with_le. intros x Hx. cbn. unfold out_degree.
  apply Hsub, bt_contains_elem in Hx. unfold bt_contains in Hx.
  destruct (bt_get x m) as [v|] eqn:Hv; [|done]. cbn.
  destruct (succ x) as [next|] eqn:Hn; cbn; [by eapply Hlen|lia].
Qed.

Lemma size_bound {V} (m : BTreeMap K V) (size : V → nat) x v :
  bt_get x m = Some v → (size v ≤ sum_list_with (λ e, size e.2) m)%nat.
Proof. intros Hv%bt_get_elem. by apply (sum_list_with_in (x, v) (λ e, size e.2)). Qed.
End sums.

(** ** The nodes on cycles *)

Section cycles.
Context {K : Type} `{OrdLaws K}.
Context (pm : BTreeMap K (BTreeSet K)) (Hwf : graph_wf pm).
Context (st : Progress K) (Hi : Inv pm st) (Hready : ready st = []).

Notation blocked := (blocked_set st).
Notation bparents := (blocked_parents pm blocked).

Lemma blocked_parents_spec n :
  n ∈ set_elems blocked →
  ∃ next, bparents n = Some next ∧ ∀ p, p ∈ next ↔ parent pm n p ∧ p ∈ set_elems blocked.
Proof.
  intros [Hk _]%(blocked_elem pm st Hi Hready). apply key_get in Hk as [ps Hps].
  unfold blocked_parents. rewrite Hps. cbn. eexists; split; [reflexivity|]. intros p.
  rewrite list_elem_of_In, filter_In, <-list_elem_of_In, set_contains_elem. unfold parent.
  rewrite Hps. naive_solver.
Qed.

Lemma blocked_edge n p :
  n ∈ set_elems blocked →
  edge bparents n p ↔ parent pm n p ∧ p ∈ set_elems blocked.
Proof.
  intros Hn. destruct (blocked_parents_spec n Hn) as (next & Hnext & Hp). unfold edge.
  rewrite <-Hp. split; [|eauto]. intros (next' & ? & ?). by simplify_eq.
Qed.

Lemma blocked_path n p :
  p ∈ set_elems blocked → rtc (edge bparents) p n → rtc (parent pm) p n.
Proof.
  intros Hp Hr. induction Hr as [|x y z Hxy _ IH]; [done|].
  apply blocked_edge in Hxy as [? ?]; [|done]. eapply rtc_l; eauto.
Qed.

(** A cycle runs through blocked nodes only. *)
Lemma cycle_path n p :
  tc (parent pm) n p → rtc (parent pm) p n → rtc (edge bparents) p n.
Proof.
  intros Hnp Hr. induction Hr as [|p q n Hpq Hr IH]; [done|].
  assert (∀ x, tc (parent pm) n x → rtc (parent pm) x n → x ∈ set_elems blocked) as Hb.
  { intros x Hnx Hxn. apply (on_cycle_blocked pm Hwf st Hi Hready). by eapply tc_rtc_l. }
  assert (tc (parent pm) n q) by (by eapply tc_r). eapply rtc_l; [|by apply IH].
  apply blocked_edge; [apply Hb; [done|by eapply rtc_l]|]. split; [done|]. by apply Hb.
Qed.

Lemma on_cycle_spec n :
  n ∈ set_elems blocked →
  ∃ b, on_cycle pm blocked n = Ok b ∧ (b = true ↔ tc (parent pm) n n).
Proof.
  intros Hn. destruct (blocked_parents_spec n Hn) as (next & Hnext & Hp).
  unfold on_cycle. rewrite Hnext. cbn [expect ok_or mbind result_bind].
  assert (NoDup (set_elems blocked)) as Hnd
    by (apply (bt_wf_nodup (V := ())), set_of_list_wf).
  assert (∀ x ps next', bt_get x pm = Some ps → bparents x = Some next' →
    (length next' ≤ length (ps : list (K * ())))%nat) as Hlen.
  { intros x ps next' Hx. unfold blocked_parents. rewrite Hx. intros [= <-].
    etransitivity; [apply List.filter_length_le|]. by unfold set_elems, bt_keys; rewrite length_map. }
  assert (weight bparents (set_elems blocked) [] ≤ edge_count pm)%nat as Hw.
  { apply weight_bound; [apply Hwf|done| |done].
    intros x Hx. by apply (blocked_elem pm st Hi Hready) in Hx as [? _]. }
  destruct (proj1 (key_get pm n)) as [ps Hps].
  { by apply (blocked_elem pm st Hi Hready) in Hn as [? _]. }
  assert (length next ≤ edge_count pm)%nat as Hl.
  { etransitivity; [by eapply Hlen|]. by apply (size_bound pm length n). }
  edestruct (search_reachable (E := GraphError.t K) bparents (set_elems blocked) Hnd) as (b & Hb & Hspec).
  4:{ exists b. split; [exact Hb|]. rewrite Hspec. split.
      - intros (p & Hpn & Hr). rewrite elem_of_rev in Hpn. apply Hp in Hpn as [Hnp Hpb].
        eapply tc_rtc_r; [by apply tc_once|by apply blocked_path].
      - intros Hc. inversion Hc as [x y Hxy|x y z Hxy Hr]; subst.
        + exists n. split; [|done]. rewrite elem_of_rev. by apply Hp.
        + exists y. assert (rtc (parent pm) y n) by (by apply tc_rtc).
          split; [|by apply cycle_path; [apply tc_once|]].
          rewrite elem_of_rev. apply Hp. split; [done|].
          apply (on_cycle_blocked pm Hwf st Hi Hready). eapply tc_rtc_r; [exact Hr|].
          apply tc_rtc. by apply tc_once. }
  - intros x Hx. destruct (blocked_parents_spec x Hx) as (nx & ? & Hnx). exists nx.
    split; [done|]. intros y [_ ?]%Hnx. done.
  - intros x. rewrite elem_of_rev. by intros [_ ?]%Hp.
  - rewrite length_rev. unfold traversal_fuel. lia.
Qed.

Lemma cycle_members_spec :
  ∃ ms, cycle_members pm blocked = Ok ms ∧ StronglySorted lt ms ∧
    ∀ n, n ∈ ms ↔ tc (parent pm) n n.
Proof.
  assert (∀ l, (∀ n, n ∈ l → n ∈ set_elems blocked) → StronglySorted lt l →
    ∃ ms, try_fold (λ members node, found ← on_cycle pm blocked node;
            Ok (if (found : bool) then members ++ [node] else members)) l [] = Ok ms ∧
      StronglySorted lt ms ∧ ∀ n, n ∈ ms ↔ n ∈ l ∧ tc (parent pm) n n) as Hgen.
  { induction l as [|n l IH] using rev_ind; intros Hl Hs.
    { exists []. split_and!; [done|constructor|]. intros n. rewrite elem_of_nil. tauto. }
    apply sorting.StronglySorted_app in Hs as (Hcross & Hs & _).
    destruct IH as (ms & Hms & Hss & Hmem);
      [intros x Hx; apply Hl, elem_of_app; by left|done|].
    destruct (on_cycle_spec n) as (b & Hb & Hspec); [apply Hl, elem_of_app; right; left|].
    rewrite try_fold_app, Hms. cbn [mbind result_bind try_fold]. rewrite Hb.
    eexists; split; [reflexivity|]. destruct b.
    - split.
      + apply sorting.StronglySorted_app. split_and!; [|done|repeat constructor].
        intros x y Hx%Hmem ->%list_elem_of_singleton. apply Hcross; [apply Hx|left].
      + intros x. rewrite !elem_of_app, list_elem_of_singleton, Hmem. naive_solver.
    - split; [done|]. intros x. rewrite elem_of_app, list_elem_of_singleton, Hmem.
      naive_solver. }
  destruct (Hgen (set_elems blocked)) as (ms & Hms & Hs & Hmem); [done|apply set_of_list_wf|].
  exists ms. split_and!; [exact Hms|done|]. intros n. rewrite Hmem.
  split; [tauto|]. intros Hn. split; [by apply (on_cycle_blocked pm Hwf st Hi Hready)|done].
Qed.
End cycles.

(** ** Building *)

Section build.
Context {K : Type} `{OrdLaws K}.
Implicit Types (input : list (GraphNode K)) (n p : K).

(** The parent relation an input describes. *)
Definition input_parent input n p : Prop :=
  ∃ g, g ∈ input ∧ node_id g = n ∧ p ∈ node_parents g.

Notation collected_input :=
  (collected (node_id (K := K)) (λ g, set_of_list (node_parents g))).

Lemma collected_parent input pm n p :
  collected_input input pm → parent pm n p ↔ input_parent input n p.
Proof.
  intros (_ & _ & Hg). unfold parent, input_parent. setoid_rewrite Hg. split.
  - intros (ps & (g & Hin & <- & <-) & Hp). rewrite set_of_list_elems in Hp. eauto.
  - intros (g & Hin & <- & Hp). exists (set_of_list (node_parents g)).
    rewrite set_of_list_elems. eauto.
Qed.

Lemma collected_key input pm n : collected_input input pm → n ∈ bt_keys pm ↔ n ∈ map node_id input.
Proof.
  intros Hc. rewrite <-bt_contains_elem. exact (collected_contains _ _ _ _ n Hc).
Qed.

(** All parents are nodes of the input. *)
Definition closed input : Prop := ∀ n p, input_parent input n p → p ∈ map node_id input.

Lemma collected_wf input pm : collected_input input pm → closed input → graph_wf pm.
Proof.
  intros Hc Hcl. split_and!; [apply Hc| |].
  - intros n ps Hn. destruct Hc as (_ & _ & Hg). apply Hg in Hn as (g & _ & _ & <-).
    apply set_of_list_wf.
  - intros n p Hp. apply (collected_parent input pm n p Hc) in Hp.
    apply (collected_key input pm p Hc). by apply (Hcl n).
Qed.

Lemma check_parents_spec input pm :
  collected_input input pm →
  match check_parents pm with
  | Ok _ => closed input
  | Err e => ∃ n p, e = Raise (GraphError.MissingParent n p) ∧ input_parent input n p ∧
                    p ∉ map node_id input
  end.
Proof.
  intros Hc. destruct (check_parents pm) as [[]|e] eqn:Hcheck; unfold check_parents in Hcheck.
  - rewrite try_for_each_Ok, Forall_forall in Hcheck. intros n p Hnp.
    apply (collected_parent input pm) in Hnp as (ps & Hps & Hp); [|done].
    specialize (Hcheck (n, ps) (bt_get_elem _ _ _ Hps)). cbn in Hcheck.
    rewrite try_for_each_Ok, Forall_forall in Hcheck. apply (collected_key input pm); [done|].
    apply bt_contains_elem. specialize (Hcheck p Hp). cbn in Hcheck.
    by apply bail_Ok in Hcheck as [?%negb_false_iff _].
  - apply try_for_each_Err in Hcheck as ([n ps] & Hin & (p & Hp & He)%try_for_each_Err).
    cbn in *. destruct (bt_contains p pm) eqn:Hcp; [done|]. injection He as <-.
    exists n, p. split_and!; [done| |].
    + apply (collected_parent input pm); [done|]. exists ps. split; [|done].
      apply bt_get_elem_iff; [apply Hc|done].
    + intros Hk. apply (collected_key input pm p Hc), bt_contains_elem in Hk. congruence.
Qed.

Lemma collect_input_spec input :
  match collect_unique (λ g, Raise (GraphError.DuplicateNode (node_id g))) node_id
          (λ g, set_of_list (node_parents g)) input with
  | Ok pm => collected_input input pm
  | Err e => ∃ n, e = Raise (GraphError.DuplicateNode n) ∧
      ∃ pre g post, input = pre ++ g :: post ∧ node_id g = n ∧ n ∈ map node_id pre
  end.
Proof.
  destruct (collect_unique _ _ _ input) as [pm|e] eqn:Hc; [by apply collect_unique_Ok in Hc|].
  unfold collect_unique in Hc. apply try_fold_Err in Hc as (pre & g & post & pm & -> & Hpre & Hg).
  unfold insert_unique in Hg. destruct (bt_contains (node_id g) pm) eqn:Hb; [|done].
  injection Hg as <-. exists (node_id g). split; [done|]. exists pre, g, post.
  split_and!; [done..|]. apply collect_unique_Ok in Hpre.
  by apply (collected_contains _ _ _ _ _ Hpre).
Qed.

Lemma bt_get_map_key {V W} (f : K → V → W) (m : BTreeMap K V) k :
  bt_get k (map (λ e, (e.1, f e.1 e.2)) m) = f k <$> bt_get k m.
Proof.
  induction m as [|[k' v] m IH]; cbn; [done|].
  destruct (cmp k k') eqn:Hc; [|done..]. by apply cmp_eq_iff in Hc as ->.
Qed.

(** The index assembled from a complete final state. *)
Definition index_of (pm : BTreeMap K (BTreeSet K)) (st : Progress K) : GraphIndex K :=
  mk_index (map (λ e, (e.1, mk_indexed (set_elems e.2) (default 0 (bt_get e.1 (generations st))))) pm)
    (order st).

Lemma index_get pm st k :
  bt_get k (nodes (index_of pm st))
  = (λ ps, mk_indexed (set_elems ps) (default 0 (bt_get k (generations st)))) <$> bt_get k pm.
Proof.
  apply (bt_get_map_key (λ k (ps : BTreeSet K),
    mk_indexed (set_elems ps) (default 0 (bt_get k (generations st))))).
Qed.

(** What a successful run of [build] went through. *)
Definition built input (idx : GraphIndex K) : Prop :=
  ∃ pm st, collected_input input pm ∧ closed input ∧ Inv pm st ∧
    (∀ n, n ∈ bt_keys pm → n ∈ order st) ∧ idx = index_of pm st.

Lemma acyclic_input input pm :
  collected_input input pm → acyclic pm ↔ ∀ n, ¬ tc (input_parent input) n n.
Proof.
  intros Hc. unfold acyclic.
  assert (∀ n m, tc (parent pm) n m ↔ tc (input_parent input) n m) as Heq.
  { intros n m. split; apply tc_mono; intros x y; by apply collected_parent. }
  by setoid_rewrite Heq.
Qed.

Lemma build_cases input :
  len input ≤ u64_max →
  match build input with
  | Ok idx => built input idx ∧ ∀ n, ¬ tc (input_parent input) n n
  | Err (Raise (GraphError.DuplicateNode n)) =>
      ∃ pre g post, input = pre ++ g :: post ∧ node_id g = n ∧ n ∈ map node_id pre
  | Err (Raise (GraphError.MissingParent n p)) =>
      NoDup (map node_id input) ∧ input_parent input n p ∧ p ∉ map node_id input
  | Err (Raise (GraphError.Cycle ns)) =>
      NoDup (map node_id input) ∧ closed input ∧ ns ≠ [] ∧ StronglySorted lt ns ∧
      ∀ n, n ∈ ns ↔ tc (input_parent input) n n
  | Err _ => False
  end.
Proof.
  intros Hlen. unfold build. pose proof (collect_input_spec input) as Hc.
  destruct (collect_unique _ _ _ input) as [pm|e]; [|by destruct Hc as (n & -> & ?)].
  cbn [mbind result_bind]. pose proof (check_parents_spec input pm Hc) as Hcl.
  destruct (check_parents pm) as [[]|e]; cbn [mbind result_bind].
  2:{ destruct Hcl as (n & p & -> & ? & ?). split; [apply Hc|done]. }
  pose proof (collected_wf input pm Hc Hcl) as Hwf.
  destruct (children_of_Ok pm Hwf) as (cm & -> & Hcm). cbn [mbind result_bind].
  assert (len pm ≤ u64_max) as Hpm.
  { etransitivity; [|exact Hlen]. unfold len. rewrite <-(length_map fst pm), <-(length_map node_id).
    apply inj_le, submseteq_length, NoDup_submseteq; [apply bt_wf_nodup, Hc|].
    intros n. by apply collected_key. }
  destruct (kahn_inv pm Hwf cm (length pm) (start pm)) as (st & Hst & Hi & Hr);
    [done|done|by apply start_inv|lia|].
  rewrite Hst. cbn [mbind result_bind].
  pose proof (final_complete pm Hwf st Hi) as Hfc.
  pose proof (complete_acyclic pm Hwf st Hi Hr) as Hca.
  rewrite (acyclic_input input pm Hc) in Hca.
  destruct (Z.eqb_spec (len (order st)) (len pm)) as [Heq|Hne]; cbn [negb].
  - pose proof (proj1 Hfc Heq) as Hall. rewrite (try_map_map _ (λ e,
      (e.1, mk_indexed (set_elems e.2) (default 0 (bt_get e.1 (generations st)))))).
    + cbn [mbind result_bind]. split; [by exists pm, st|by apply Hca].
    + intros [n ps] Hin. assert (n ∈ order st) as Hn.
      { apply Hall. apply list_elem_of_fmap. by exists (n, ps). }
      apply (inv_gens pm st Hi) in Hn as [g Hg]. cbn. by rewrite Hg.
  - destruct (cycle_members_spec pm Hwf st Hi Hr) as (ms & Hms & Hs & Hmem).
    unfold blocked_set in Hms. rewrite Hms. cbn [mbind result_bind].
    assert (∀ n, n ∈ ms ↔ tc (input_parent input) n n) as Hmem'.
    { intros n. rewrite Hmem. split; apply tc_mono; intros x y; by apply collected_parent. }
    split_and!; try done; [apply Hc|]. intros ->. apply Hne, Hfc, Hca. intros n Hn.
    apply Hmem' in Hn. by apply not_elem_of_nil in Hn.
Qed.

(** ** Queries *)

Lemma built_parents input idx n :
  built input idx → n ∈ map node_id input →
  ∃ ps, index_parents idx n = Some ps ∧ ∀ p, p ∈ ps ↔ input_parent input n p.
Proof.
  intros (pm & st & Hc & _ & _ & _ & ->) Hn. apply (collected_key input pm n Hc) in Hn.
  apply key_get in Hn as [ps Hps]. unfold index_parents.
  rewrite index_get, Hps. cbn.
  eexists; split; [reflexivity|]. intros p. rewrite <-(collected_parent input pm n p Hc).
  unfold parent. rewrite Hps. naive_solver.
Qed.

Lemma built_keys input idx :
  built input idx → bt_wf (nodes idx) ∧ ∀ n, n ∈ bt_keys (nodes idx) ↔ n ∈ map node_id input.
Proof.
  intros (pm & st & Hc & _ & _ & _ & ->). cbn [index_of nodes].
  assert (bt_keys (map (λ e, (e.1, mk_indexed (set_elems e.2)
    (default 0 (bt_get e.1 (generations st))))) pm) = bt_keys pm) as Hk.
  { unfold bt_keys. by rewrite map_map. }
  unfold bt_wf. rewrite Hk. split; [apply Hc|]. intros n. by apply collected_key.
Qed.

Lemma input_edge input idx n p :
  built input idx → n ∈ map node_id input →
  edge (index_parents idx) n p ↔ input_parent input n p.
Proof.
  intros Hb Hn. destruct (built_parents input idx n Hb Hn) as (ps & Hps & Hp).
  rewrite <-Hp. unfold edge. rewrite Hps. naive_solver.
Qed.

Lemma input_path input idx n m :
  built input idx → closed input → n ∈ map node_id input →
  rtc (edge (index_parents idx)) n m ↔ rtc (input_parent input) n m.
Proof.
  intros Hb Hcl Hn. split; intros Hr; revert Hn; induction Hr as [|x y z Hxy _ IH]; intros Hn;
    try done.
  - apply (input_edge input idx x y Hb Hn) in Hxy. eapply rtc_l; [exact Hxy|]. by apply IH, (Hcl x).
  - eapply rtc_l; [by apply (input_edge input idx x y Hb Hn)|]. by apply IH, (Hcl x).
Qed.

Lemma ancestors_spec input idx n :
  built input idx →
  if decide (n ∈ map node_id input)
  then ∃ s, ancestors idx n = Ok s ∧ bt_wf s ∧
         ∀ m, m ∈ set_elems s ↔ tc (input_parent input) n m
  else ancestors idx n = Err (Raise (GraphError.UnknownNode n)).
Proof.
  intros Hb. destruct (built_keys input idx Hb) as [Hw Hk]. unfold ancestors.
  case_decide as Hn.
  2:{ destruct (bt_contains n (nodes idx)) eqn:Hc; [|done].
      by apply bt_contains_elem, Hk in Hc. }
  rewrite (proj2 (bt_contains_elem n (nodes idx)) (proj2 (Hk n) Hn)). cbn [negb].
  destruct (built_parents input idx n Hb Hn) as (ps & Hps & Hp). rewrite Hps.
  cbn [expect ok_or mbind result_bind].
  assert (closed input) as Hcl by (by destruct Hb as (? & ? & _ & ? & _)).
  edestruct (explore_reachable (E := GraphError.t K) (index_parents idx) (bt_keys (nodes idx)))
    as (s & Hs & Hsw & Hspec).
  5:{ exists s. split_and!; [exact Hs|done|]. intros m. rewrite Hspec. split.
      - intros (p & Hpp & Hr). rewrite elem_of_rev in Hpp. apply Hp in Hpp.
        apply (input_path input idx p m Hb Hcl) in Hr; [|by apply (Hcl n)].
        eapply tc_rtc_r; [by apply tc_once|done].
      - intros Hr. inversion Hr as [x y Hxy|x y z Hxy Hyz]; subst.
        + exists m. rewrite elem_of_rev. split; [by apply Hp|done].
        + exists y. rewrite elem_of_rev. split; [by apply Hp|].
          apply (input_path input idx y m Hb Hcl); [by apply (Hcl n)|by apply tc_rtc]. }
  - by apply bt_wf_nodup.
  - intros x Hx%Hk. destruct (built_parents input idx x Hb Hx) as (nx & ? & Hnx).
    exists nx. split; [done|]. intros y Hy%Hnx. by apply Hk, (Hcl x).
  - intros x. rewrite elem_of_rev. intros Hx%Hp. by apply Hk, (Hcl n).
  - rewrite length_rev. unfold index_fuel.
    assert (weight (index_parents idx) (bt_keys (nodes idx)) [] ≤
      sum_list_with (λ e, length (parents e.2)) (nodes idx))%nat.
    { apply (weight_bound (nodes idx) (λ v, length (parents v))); [done|by apply bt_wf_nodup|done|].
      intros x v next Hv. unfold index_parents. rewrite Hv. by intros [= <-]. }
    unfold index_parents in Hps. destruct (bt_get n (nodes idx)) as [v|] eqn:Hv; [|done].
    injection Hps as <-. pose proof (size_bound (nodes idx) (λ v, length (parents v)) n v Hv). lia.
Qed.

(** ** Generations *)

Lemma next_generation_spec gs g :
  next_generation gs = Ok g →
  (gs = [] ∧ g = 0) ∨ ∃ m, m ∈ gs ∧ g = m + 1 ∧ ∀ x, x ∈ gs → x ≤ m.
Proof.
  unfold next_generation. intros Hg.
  assert (match iter_max gs with
          | None => gs = []
          | Some m => m ∈ gs ∧ ∀ x, x ∈ gs → x ≤ m end) as Hmax.
  { clear Hg. induction gs as [|x gs IH]; cbn; [done|]. destruct (iter_max gs) as [y|].
    - destruct IH as [Hy Hle]. destruct (Z.max_spec x y) as [[? ->]|[? ->]].
      + split; [by right|]. intros z [->|Hz]%elem_of_cons; [lia|by apply Hle].
      + split; [left|]. intros z [->|Hz]%elem_of_cons; [lia|]. specialize (Hle z Hz). lia.
    - subst gs. split; [left|]. intros z ->%list_elem_of_singleton. lia. }
  destruct (iter_max gs) as [m|]; [right|left; by simplify_eq].
  apply ok_or_Ok, checked_add_Some in Hg as [-> _]. exists m. split_and!; [apply Hmax|done|apply Hmax].
Qed.

Lemma built_generation input idx n :
  built input idx → n ∈ map node_id input →
  ∃ g, generation idx n = Ok g ∧ 0 ≤ g ∧
    ((g = 0 ∧ ∀ p, ¬ input_parent input n p) ∨
     (∃ p, input_parent input n p ∧ generation idx p = Ok (g - 1)) ∧
     ∀ p, input_parent input n p → ∃ gp, generation idx p = Ok gp ∧ gp ≤ g - 1).
Proof.
  intros (pm & st & Hc & _ & Hi & Hall & ->) Hn.
  assert (∀ m g, bt_get m (generations st) = Some g → generation (index_of pm st) m = Ok g) as Hgen.
  { intros m g Hg. unfold generation. rewrite index_get.
    destruct (inv_gen pm st Hi m g Hg) as (_ & ps & _ & Hps & _). rewrite Hps. cbn. by rewrite Hg. }
  apply (collected_key input pm n Hc) in Hn. apply Hall, (inv_gens pm st Hi) in Hn as [g Hg].
  destruct (inv_gen pm st Hi n g Hg) as ([Hpos _] & ps & gs & Hps & Hgs & Hnext).
  exists g. split_and!; [by apply Hgen|done|].
  assert (∀ p, input_parent input n p ↔ p ∈ set_elems ps) as Hp.
  { intros p. rewrite <-(collected_parent input pm n p Hc). unfold parent. rewrite Hps. naive_solver. }
  destruct (next_generation_spec gs g Hnext) as [[-> ->]|(m & Hm & -> & Hmax)].
  - left. split; [done|]. intros p Hin%Hp. inversion Hgs as [Heq|]; subst.
    rewrite <-Heq in Hin. by apply not_elem_of_nil in Hin.
  - right. replace (m + 1 - 1) with m by lia. split.
    + apply list_elem_of_lookup in Hm as [i Hm].
      destruct (Forall2_lookup_r _ _ _ _ _ Hgs Hm) as (p & Hpi & Hpg). exists p.
      split; [apply Hp; by eapply list_elem_of_lookup_2|by apply Hgen].
    + intros p Hin%Hp. apply list_elem_of_lookup in Hin as [i Hpi].
      destruct (Forall2_lookup_l _ _ _ _ _ Hgs Hpi) as (gp & Hgi & Hgp). exists gp.
      split; [by apply Hgen|]. apply Hmax. by eapply list_elem_of_lookup_2.
Qed.

(** The length of the longest path that starts at [n]. *)
Definition longest_path (R : K → K → Prop) (n : K) (g : Z) : Prop :=
  0 ≤ g ∧ (∃ m, nsteps R (Z.to_nat g) n m) ∧ ∀ k m, nsteps R k n m → Z.of_nat k ≤ g.

Lemma built_longest input idx n :
  built input idx → (∀ x, ¬ tc (input_parent input) x x) → n ∈ map node_id input →
  ∃ g, generation idx n = Ok g ∧ longest_path (input_parent input) n g.
Proof.
  intros Hb Hac Hn. assert (closed input) as Hcl by (by destruct Hb as (? & ? & _ & ? & _)).
  assert (sn (input_parent input) n) as Hsn.
  { apply tc_finite_sn; [intros x Hx; by apply (Hac x)|]. exists (map node_id input).
    intros x Hx. clear Hn. induction Hx as [x y Hxy|]; [by apply (Hcl x)|done]. }
  induction Hsn as [n _ IH].
  destruct (built_generation input idx n Hb Hn)
    as (g & Hg & Hpos & [[-> Hroot]|[(p & Hp & Hgp) Hmax]]); [exists 0|exists g];
    unfold longest_path.
  - split_and!; [done..|exists n; constructor|]. intros k m Hk.
    inversion Hk as [|k' ? y ? Hny]; subst; [done|]. by destruct (Hroot y).
  - destruct (IH p Hp (Hcl n p Hp)) as (gp & Hgp' & Hgpos & (m & Hm) & _).
    rewrite Hgp in Hgp'. injection Hgp' as <-. split_and!; [done|done| |].
    + exists m. replace (Z.to_nat g) with (S (Z.to_nat (g - 1))) by lia. by econstructor.
    + intros k m' Hk. inversion Hk as [|k' ? y ? Hny Hk']; subst; [lia|].
      destruct (Hmax y Hny) as (gy & Hgy & Hle).
      destruct (IH y Hny (Hcl n y Hny)) as (gy' & Hgy' & _ & _ & Hb').
      rewrite Hgy in Hgy'. injection Hgy' as <-. specialize (Hb' k' m' Hk'). lia.
Qed.

Lemma built_reachable input idx n a :
  built input idx → a ∈ map node_id input → n ∈ map node_id input →
  ∃ b, is_reachable idx a n = Ok b ∧ (b = true ↔ rtc (input_parent input) n a).
Proof.
  intros Hb Ha Hin. pose proof (ancestors_spec input idx n Hb) as Hn.
  destruct (built_keys input idx Hb) as [_ Hk].
  rewrite decide_True in Hn by done. destruct Hn as (s & Hs & _ & Hm).
  unfold is_reachable. rewrite (proj2 (bt_contains_elem a (nodes idx)) (proj2 (Hk a) Ha)).
  cbn [negb]. rewrite Hs. destruct (decide (a = n)) as [->|Hne].
  - rewrite cmp_refl. exists true. done.
  - exists (set_contains a s). split.
    + destruct (cmp a n) eqn:Hc; [by apply cmp_eq_iff in Hc|done..].
    + rewrite set_contains_elem, Hm, rtc_tc. naive_solver.
Qed.

(** ** The properties *)

(** C22: Building an index classifies every input correctly. For any list of at most
    2{^64}-1 nodes, [GraphIndex::build] neither panics nor fails to terminate: it
    succeeds exactly when the identifiers are distinct, every parent is a node and the
    graph is acyclic, and then its topological order is a permutation of the nodes in which
    parents precede children; otherwise it reports a repeated identifier, a missing
    parent, or precisely the nodes that lie on a cycle, in key order. *)
Theorem build_outcome input :
  len input ≤ u64_max →
  match build input with
  | Ok idx =>
      NoDup (map node_id input) ∧ closed input ∧ (∀ n, ¬ tc (input_parent input) n n) ∧
      topological_order idx ≡ₚ map node_id input ∧
      ∀ pre n post, topological_order idx = pre ++ n :: post →
        ∀ p, input_parent input n p → p ∈ pre
  | Err (Raise (GraphError.DuplicateNode n)) =>
      ∃ pre g post, input = pre ++ g :: post ∧ node_id g = n ∧ n ∈ map node_id pre
  | Err (Raise (GraphError.MissingParent n p)) =>
      NoDup (map node_id input) ∧ input_parent input n p ∧ p ∉ map node_id input
  | Err (Raise (GraphError.Cycle ns)) =>
      NoDup (map node_id input) ∧ closed input ∧ ns ≠ [] ∧ StronglySorted lt ns ∧
      ∀ n, n ∈ ns ↔ tc (input_parent input) n n
  | Err _ => False
  end.
Proof.
  intros Hlen. pose proof (build_cases input Hlen) as Hb.
  destruct (build input) as [idx|e]; [|exact Hb].
  destruct Hb as [(pm & st & Hc & Hcl & Hi & Hall & ->) Hac]. cbn [index_of topological_order].
  split_and!; [apply Hc|done|done| |].
  - apply NoDup_Permutation; [apply Hi|apply Hc|]. intros n.
    rewrite <-(collected_key input pm n Hc). split; [apply Hi|apply Hall].
  - intros pre n post Ho p Hp. eapply (inv_topo pm st Hi); [exact Ho|].
    by apply (collected_parent input pm n p Hc).
Qed.

(** A generation number is the length of the longest ancestry path. In a built index
    every node has a generation [g]; some path of [g] parent steps starts at it and none is
    longer. In particular generations strictly increase from parents to children. *)
Theorem generation_longest_path input idx n :
  len input ≤ u64_max → build input = Ok idx → n ∈ map node_id input →
  ∃ g, generation idx n = Ok g ∧ longest_path (input_parent input) n g.
Proof.
  intros Hlen Hbuild Hn. pose proof (build_cases input Hlen) as Hb. rewrite Hbuild in Hb.
  destruct Hb as [Hb Hac]. by apply built_longest.
Qed.

(** The ancestry queries compute the transitive closure. On a built index,
    [ancestors] returns exactly the proper ancestors of a known node, [is_reachable]
    decides whether an ancestry path (possibly empty) leads from the descendant to a known
    ancestor, and unknown nodes are reported as such. *)
Theorem ancestry_exact input idx n a :
  len input ≤ u64_max → build input = Ok idx →
  (if decide (n ∈ map node_id input)
   then ∃ s, ancestors idx n = Ok s ∧ ∀ m, set_contains m s = true ↔ tc (input_parent input) n m
   else ancestors idx n = Err (Raise (GraphError.UnknownNode n))) ∧
  (a ∈ map node_id input → n ∈ map node_id input →
   ∃ b, is_reachable idx a n = Ok b ∧ (b = true ↔ rtc (input_parent input) n a)) ∧
  (a ∉ map node_id input → is_reachable idx a n = Err (Raise (GraphError.UnknownNode a))).
Proof.
  intros Hlen Hbuild. pose proof (build_cases input Hlen) as Hb. rewrite Hbuild in Hb.
  destruct Hb as [Hb _]. pose proof (ancestors_spec input idx n Hb) as Hn.
  destruct (built_keys input idx Hb) as [_ Hk]. split_and!.
  - case_decide; [|done]. destruct Hn as (s & Hs & _ & Hm). exists s. split; [done|].
    intros m. by rewrite set_contains_elem.
  - intros Ha Hin. by apply built_reachable.
  - intros Ha. unfold is_reachable. destruct (bt_contains a (nodes idx)) eqn:Hc; [|done].
    by apply bt_contains_elem, Hk in Hc.
Qed.
End build.

(** A diamond and a graph with a cycle. *)
Definition diamond : list (GraphNode Z) :=
  [mk_node 4 [2; 3]; mk_node 1 []; mk_node 2 [1]; mk_node 3 [1; 1]].
Definition cyclic : list (GraphNode Z) :=
  [mk_node 1 [2]; mk_node 2 [3]; mk_node 3 [2]; mk_node 4 []].

Lemma build_outcome_witness :
  build cyclic = Err (Raise (GraphError.Cycle [2; 3])) ∧
  tc (input_parent cyclic) 2 2 ∧ ¬ tc (input_parent cyclic) 1 1.
Proof.
  assert (build cyclic = Err (Raise (GraphError.Cycle [2; 3]))) as Hb by (vm_compute; reflexivity).
  assert (len cyclic ≤ u64_max) as Hlen by (vm_compute; discriminate).
  pose proof (build_outcome cyclic Hlen) as Ho. rewrite Hb in Ho.
  destruct Ho as (_ & _ & _ & _ & Hn). split; [exact Hb|]. split.
  - apply Hn. left.
  - intros Hc. apply Hn in Hc. by repeat (apply elem_of_cons in Hc as [Hc|Hc]; [done|]);
      apply not_elem_of_nil in Hc.
Defined.


