(* ===== verification/Traverse.v ===== *)
(** * Collecting traversals that can fail

    The worklist loop of the object store: every item is resolved to a keyed node or an
    error, a node seen for the first time contributes its own items. The general lemma says
    what a run collects, when it fails and that its fuel suffices. *)

From stdpp Require Import relations.
From S2P Require Import Prelude Machine Order Explore.

Section traverse.
Context {X K V E : Type} `{Ord K}.
Context (visit : X → result E (K * V * list X)).

(** [while let Some(x) = pending.pop() { let (k, v, next) = visit(x)?;
      if found.insert(k, v).is_none() { pending.extend(next) } }], the stack with its top
    first. *)
Fixpoint traverse (fuel : nat) (found : BTreeMap K V) (pending : list X) :
    result (fault E) (BTreeMap K V) :=
  match fuel with
  | O => Err OutOfFuel
  | S fuel =>
      match pending with
      | [] => Ok found
      | x :: pending =>
          '(k, v, next) ← map_err Raise (visit x);
          traverse fuel (bt_insert k v found)
            (if bt_contains k found then pending else rev next ++ pending)
      end
  end.
End traverse.

Section facts.
Context {X K V E : Type} `{OrdLaws K}.
Context (visit : X → result E (K * V * list X)).

(** The nodes: each key has one value and one list of items, whoever names it. *)
Context (node : K → option (V * list X)) (dom : list K) (dom_nodup : NoDup dom).
Context (visit_node : ∀ x k v next,
  visit x = Ok (k, v, next) → node k = Some (v, next) ∧ k ∈ dom).

(** [y] is named by the node that [x] resolves to. *)
Definition names (x y : X) : Prop := ∃ k v next, visit x = Ok (k, v, next) ∧ y ∈ next.

(** [x] resolves to an entry of [found]. *)
Definition resolved (found : BTreeMap K V) (x : X) : Prop :=
  ∃ k v next, visit x = Ok (k, v, next) ∧ bt_get k found = Some v.

Definition degree (k : K) : nat := length (default [] (snd <$> node k)).
Definition unexplored (l : list K) (found : BTreeMap K V) : nat :=
  sum_list_with (λ k, if bt_contains k found then 0%nat else degree k) l.

Lemma bt_contains_insert k v k' (m : BTreeMap K V) :
  bt_contains k' (bt_insert k v m) = bool_decide (k = k') || bt_contains k' m.
Proof.
  unfold bt_contains. rewrite bt_get_insert.
  case_decide; [by rewrite bool_decide_true|by rewrite bool_decide_false].
Qed.

Lemma unexplored_notin l k v (found : BTreeMap K V) :
  k ∉ l → unexplored l (bt_insert k v found) = unexplored l found.
Proof.
  intros Hk. unfold unexplored. induction l as [|y l IH]; [done|].
  apply not_elem_of_cons in Hk as [Hky Hk]. cbn. rewrite IH by done.
  by rewrite bt_contains_insert, bool_decide_false.
Qed.

Lemma unexplored_insert l k v (found : BTreeMap K V) :
  NoDup l → k ∈ l → bt_contains k found = false →
  unexplored l found = (unexplored l (bt_insert k v found) + degree k)%nat.
Proof.
  intros Hnd Hk Hf. induction Hnd as [|y l Hy Hnd IH]; [by apply not_elem_of_nil in Hk|].
  unfold unexplored in *. cbn. rewrite bt_contains_insert. apply elem_of_cons in Hk as [->|Hk].
  - rewrite bool_decide_true, Hf by done. cbn.
    pose proof (unexplored_notin l y v found Hy) as Hw. unfold unexplored in Hw. rewrite Hw. lia.
  - rewrite bool_decide_false by (intros ->; done). cbn. rewrite IH by done. lia.
Qed.

Lemma unexplored_present l k v (found : BTreeMap K V) :
  bt_contains k found = true → unexplored l (bt_insert k v found) = unexplored l found.
Proof.
  intros Hk. unfold unexplored. induction l as [|y l IH]; [done|]. cbn. rewrite IH.
  rewrite bt_contains_insert. by case_bool_decide; subst; rewrite ?Hk.
Qed.

(** Loop invariant: the entries are nodes, and what they name is resolved or pending. *)
Definition inv (found : BTreeMap K V) (pending : list X) : Prop :=
  ∀ k v, bt_get k found = Some v → ∃ next, node k = Some (v, next) ∧
    ∀ y, y ∈ next → resolved found y ∨ y ∈ pending.

Lemma resolved_insert found k v next x y :
  visit x = Ok (k, v, next) → (∀ v', bt_get k found = Some v' → v' = v) →
  resolved found y → resolved (bt_insert k v found) y.
Proof.
  intros Hx Hk (k' & v' & next' & Hy & Hg). exists k', v', next'. split; [done|].
  rewrite bt_get_insert. case_decide as Heq; [|done]. subst. f_equal. symmetry. by apply Hk.
Qed.

Lemma inv_step found pending x k v next :
  inv found (x :: pending) → visit x = Ok (k, v, next) →
  inv (bt_insert k v found)
    (if bt_contains k found then pending else rev next ++ pending).
Proof.
  intros Hi Hx. destruct (visit_node _ _ _ _ Hx) as [Hn _].
  assert (∀ v', bt_get k found = Some v' → v' = v) as Hsame.
  { intros v' Hv'. destruct (Hi k v' Hv') as (next' & Hn' & _). congruence. }
  assert (∀ y, resolved found y → resolved (bt_insert k v found) y) as Hmono.
  { intros y. eapply resolved_insert; eauto. }
  assert (resolved (bt_insert k v found) x) as Hxr.
  { exists k, v, next. by rewrite bt_get_insert_eq. }
  intros k' v'. rewrite bt_get_insert. case_decide as Heq.
  - intros [= <-]. subst k'. exists next. split; [done|]. intros y Hy.
    unfold bt_contains. destruct (bt_get k found) as [v'|] eqn:Hg.
    + destruct (Hi k v' Hg) as (next' & Hn' & Hnext). rewrite Hn in Hn'. simplify_eq.
      destruct (Hnext y Hy) as [?|[->|?]%elem_of_cons]; auto.
    + right. rewrite elem_of_app, elem_of_rev. auto.
  - intros Hg. destruct (Hi k' v' Hg) as (next' & Hn' & Hnext). exists next'. split; [done|].
    intros y Hy. destruct (Hnext y Hy) as [?|[->|?]%elem_of_cons]; [by auto..|].
    right. destruct (bt_contains k found); [done|]. apply elem_of_app. auto.
Qed.

(** The outcome of the loop: all of what the pending items reach is resolved and nothing
    else was added, or one of the items they reach fails with the returned error. *)
Lemma traverse_spec fuel found pending :
  inv found pending → (length pending + unexplored dom found < fuel)%nat →
  match traverse visit fuel found pending with
  | Ok result =>
      inv result [] ∧ (∀ y, resolved found y ∨ y ∈ pending → resolved result y) ∧
      (∀ k v, bt_get k result = Some v → bt_get k found = Some v ∨
        ∃ x y next, x ∈ pending ∧ rtc names x y ∧ visit y = Ok (k, v, next))
  | Err (Raise e) => ∃ x y, x ∈ pending ∧ rtc names x y ∧ visit y = Err e
  | Err _ => False
  end.
Proof.
  revert found pending. induction fuel as [|fuel IH]; intros found pending Hi Hf; [lia|].
  destruct pending as [|x pending]; cbn [traverse].
  { split_and!; [done| |auto]. intros y [?|Hy]; [done|by apply not_elem_of_nil in Hy]. }
  destruct (visit x) as [[[k v] next]|e] eqn:Hx; cbn [map_err mbind result_bind].
  2:{ exists x, x. split_and!; [left|done|done]. }
  destruct (visit_node _ _ _ _ Hx) as [Hn Hk]. pose proof (inv_step _ _ _ _ _ _ Hi Hx) as Hi'.
  set (pending' := if bt_contains k found then pending else rev next ++ pending) in *.
  assert (∀ y, y ∈ pending' → y ∈ pending ∨ y ∈ next) as Hsub.
  { unfold pending'. intros y. destruct (bt_contains k found); [auto|].
    rewrite elem_of_app, elem_of_rev. tauto. }
  assert (∀ y z, y ∈ pending' → rtc names y z → ∃ w, w ∈ x :: pending ∧ rtc names w z) as Hreach.
  { intros y z Hy Hr. destruct (Hsub y Hy) as [?|?]; [exists y; split; [by right|done]|].
    exists x. split; [left|]. eapply rtc_l; [|exact Hr]. by exists k, v, next. }
  assert (length pending' + unexplored dom (bt_insert k v found) < fuel)%nat as Hf'.
  { cbn [length] in Hf. unfold pending'. destruct (bt_contains k found) eqn:Hc.
    - rewrite unexplored_present by done. lia.
    - rewrite length_app, length_rev.
      pose proof (unexplored_insert dom k v found dom_nodup Hk Hc) as Hu.
      unfold degree in Hu. rewrite Hn in Hu. cbn in Hu. lia. }
  specialize (IH _ _ Hi' Hf'). destruct (traverse visit fuel _ pending') as [result|[e| |]];
    [|destruct IH as (y & z & Hy & Hr & Hz); destruct (Hreach y z Hy Hr) as (w & ? & ?); eauto|done..].
  destruct IH as (Hinv & Hres & Hsound). split_and!; [done| |].
  - assert (∀ y, resolved found y → resolved result y) as Hold.
    { intros y Hy. apply Hres. left. eapply resolved_insert; eauto. intros v' Hv'.
      destruct (Hi k v' Hv') as (next' & Hn' & _). congruence. }
    intros y [Hy|[->|Hy]%elem_of_cons]; [by apply Hold| |].
    + apply Hres. left. exists k, v, next. by rewrite bt_get_insert_eq.
    + apply Hres. right. unfold pending'. destruct (bt_contains k found); [done|].
      apply elem_of_app. auto.
  - intros k' v' Hg. destruct (Hsound k' v' Hg) as [Hins|(y & z & next' & Hy & Hr & Hz)].
    + rewrite bt_get_insert in Hins. case_decide; [|by left]. simplify_eq. right.
      exists x, x, next. split_and!; [left|done|done].
    + right. destruct (Hreach y z Hy Hr) as (w & ? & ?). eauto 10.
Qed.

Lemma inv_reach found x y : inv found [] → resolved found x → rtc names x y → resolved found y.
Proof.
  intros Hi Hx Hr. induction Hr as [|x y z (k & v & next & Hv & Hy) _ IH]; [done|]. apply IH.
  destruct Hx as (k' & v' & next' & Hv' & Hg). rewrite Hv in Hv'. injection Hv' as <- <- <-.
  destruct (Hi k v Hg) as (next0 & Hn & Hnext). destruct (visit_node _ _ _ _ Hv) as [Hn' _].
  rewrite Hn in Hn'. injection Hn' as ->. destruct (Hnext y Hy) as [?|Hn2]; [done|by apply not_elem_of_nil in Hn2].
Qed.

(** The whole run, from nothing found. *)
Lemma traverse_exact fuel roots :
  (length roots + unexplored dom [] < fuel)%nat →
  match traverse visit fuel [] roots with
  | Ok result =>
      ∀ k v, bt_get k result = Some v ↔
        ∃ x y next, x ∈ roots ∧ rtc names x y ∧ visit y = Ok (k, v, next)
  | Err (Raise e) => ∃ x y, x ∈ roots ∧ rtc names x y ∧ visit y = Err e
  | Err _ => False
  end ∧
  ((∃ result, traverse visit fuel [] roots = Ok result) ↔
   ∀ x y, x ∈ roots → rtc names x y → ∃ n, visit y = Ok n).
Proof.
  intros Hf. pose proof (traverse_spec fuel [] roots) as Ht.
  assert (inv [] roots) as Hi0 by (intros k v; done). specialize (Ht Hi0 Hf).
  destruct (traverse visit fuel [] roots) as [result|[e| |]]; [|split|done..].
  - destruct Ht as (Hi & Hres & Hsound).
    assert (∀ x y, x ∈ roots → rtc names x y → resolved result y) as Hall.
    { intros x y Hx Hr. eapply inv_reach; [done| |exact Hr]. apply Hres. by right. }
    split.
    + intros k v. split.
      * intros Hg. by destruct (Hsound k v Hg) as [?|?].
      * intros (x & y & next & Hx & Hr & Hv). destruct (Hall x y Hx Hr) as (k' & v' & n' & Hv' & Hg).
        rewrite Hv in Hv'. by injection Hv' as <- <- <-.
    + split; [|eauto]. intros _ x y Hx Hr. destruct (Hall x y Hx Hr) as (? & ? & ? & ? & _). eauto.
  - done.
  - split; [by intros [? ?]|]. intros Hall. destruct Ht as (x & y & Hx & Hr & Hy).
    destruct (Hall x y Hx Hr) as [? ?]. congruence.
Qed.
Lemma traverse_wf fuel found pending result :
  bt_wf found → traverse visit fuel found pending = Ok result → bt_wf result.
Proof.
  revert found pending. induction fuel as [|fuel IH]; intros found pending Hwf; [done|].
  destruct pending as [|x pending]; cbn [traverse]; [by intros [= <-]|].
  intros ([[k v] next] & _ & Ht)%bind_Ok. eapply IH; [|exact Ht]. by apply bt_insert_wf.
Qed.

(** The run in terms of a relation that agrees with [names] wherever items resolve. *)
Section steps.
Context (step : X → X → Prop).
Context (names_step : ∀ x y, names x y → step x y).
Context (step_names : ∀ x y n, visit x = Ok n → step x y → names x y).

Lemma rtc_names_step x y : rtc names x y → rtc step x y.
Proof. apply rtc_subrel. exact names_step. Qed.

Lemma rtc_step_names x y :
  (∀ z, rtc names x z → ∃ n, visit z = Ok n) → rtc step x y → rtc names x y.
Proof.
  intros Hall. revert y. apply rtc_ind_r; [done|]. intros y z _ Hyz IH.
  eapply rtc_r; [exact IH|]. destruct (Hall y IH) as [n Hn]. by apply (step_names y z n).
Qed.

Lemma traverse_steps fuel roots :
  (length roots + unexplored dom [] < fuel)%nat →
  match traverse visit fuel [] (rev roots) with
  | Ok result =>
      bt_wf result ∧ (∀ r x, r ∈ roots → rtc step r x → ∃ n, visit x = Ok n) ∧
      ∀ k v, bt_get k result = Some v ↔
        ∃ r x next, r ∈ roots ∧ rtc step r x ∧ visit x = Ok (k, v, next)
  | Err (Raise e) => ∃ r x, r ∈ roots ∧ rtc step r x ∧ visit x = Err e
  | Err _ => False
  end.
Proof.
  intros Hf. rewrite <-(length_rev roots) in Hf. destruct (traverse_exact fuel (rev roots) Hf) as [Hm Hok].
  setoid_rewrite elem_of_rev in Hok.
  destruct (traverse visit fuel [] (rev roots)) as [result|[e| |]] eqn:Ht; [|..|done|done].
  - assert (∀ r x, r ∈ roots → rtc names r x → ∃ n, visit x = Ok n) as Hall.
    { apply (proj1 Hok). by exists result. }
    setoid_rewrite elem_of_rev in Hm.
    assert (∀ r x, r ∈ roots → rtc step r x ↔ rtc names r x) as Hiff.
    { intros r x Hr. split; [|apply rtc_names_step]. apply rtc_step_names. intros z. by apply Hall. }
    split_and!; [by apply (traverse_wf fuel [] (rev roots)); [apply bt_wf_nil|]| |].
    + intros r x Hr Hp. apply (Hall r x Hr). by apply Hiff.
    + intros k v. rewrite Hm. split; intros (r & x & next & Hr & Hp & Hv);
        exists r, x, next; (split_and!; [done|by apply Hiff|done]).
  - destruct Hm as (r & x & Hr & Hp & Hx). rewrite elem_of_rev in Hr.
    exists r, x. split_and!; [done|by apply rtc_names_step|done].
Qed.
End steps.
End facts.
