(* ===== verification/StoreModel.v ===== *)
(** * The verified store: data model

    [crates/rgit-store/src/model.rs], [error.rs] and [store.rs]: stored objects, reference
    states, publications, the error types and the candidate shown to validators. *)

From S2P Require Import Prelude Machine Order Utf8 Canonical ObjectId Types Objects Fields Decode References.

Notation oid := ObjectId.ObjectId (only parsing).

Module ClosureError.
Inductive t :=
  | Missing | Promised | Quarantined
  | WrongKind (expected actual : ObjectKind.t).
End ClosureError.

Module StoreError.
Inductive t :=
  | InvalidObject (error : DecodeObjectError.t)
  | NotPresent | Quarantined | Promised | InvalidReferenceKey | ReferenceConflict
  | DuplicateReferenceUpdate | ReferenceKind | OperationMismatch | GenerationOverflow
  | RevisionOverflow | PublicationDenied
  | Closure (error : ClosureError.t)
  | InvalidGraph | Database | UnsupportedDatabase | UpgradeRequired | MigrationRequired
  | RetryableConflict | IncidentReadOnly | InjectedTransactionFailure | ObjectStorage.
End StoreError.

Module PutOutcome.
Inductive t := New | AlreadyPresent.
End PutOutcome.

Module ObjectPresence.
Inductive t := Present | Promised | Quarantined.
End ObjectPresence.

Module StoredObject.
Record t := mk {
  id : oid;
  bytes : list Z;
  object : AnyObject.t;
  references : list ReferenceEdge }.

Definition new (id : oid) (bytes : list Z) (object : AnyObject.t) :
    result DecodeObjectError.t t :=
  references ← References.references (AnyObject.decoded object);
  Ok (mk id bytes object references).

Definition kind (self : t) : ObjectKind.t := Decode.kind (AnyObject.decoded (object self)).
Definition value (self : t) : Value := Decode.value (AnyObject.decoded (object self)).
End StoredObject.

Module ReferenceState.
Record t := mk { target : oid; generation : Z; operation : oid }.
#[global] Instance eq_dec : EqDecision t.
Proof. solve_decision. Defined.
End ReferenceState.

Module ExpectedRef.
Inductive t := Absent | Exact (state : ReferenceState.t).
End ExpectedRef.

Module PublicationObject.
Record t := mk { id : oid; bytes : list Z }.
End PublicationObject.

Module RefUpdate.
Record t := mk { key : ReferenceKey.t; expected : ExpectedRef.t; target : oid }.
End RefUpdate.

Module Publication.
Record t := mk {
  objects : list PublicationObject.t;
  updates : list RefUpdate.t;
  operation : oid }.
End Publication.

(** [Closure]: the objects a set of edges reaches. *)
Definition Closure : Type := BTreeMap oid StoredObject.t.

Module PublicationCandidate.
Record t := mk {
  publication : Publication.t;
  objects : BTreeMap oid StoredObject.t;
  references : BTreeMap ReferenceKey.t ReferenceState.t }.
Definition object (self : t) (id : oid) : option StoredObject.t := bt_get id (objects self).
Definition reference (self : t) (key : ReferenceKey.t) : option ReferenceState.t :=
  bt_get key (references self).
End PublicationCandidate.

(** [PublicationValidator]: the caller's check on a staged publication. *)
Definition PublicationValidator : Type :=
  PublicationCandidate.t → result StoreError.t ().
