(* ===== verification/MemoryStore.v ===== *)
(** * The in-memory store: [crates/rgit-store/src/memory.rs]

    The snapshot a [MemoryStore] guards with its mutex, and every operation on it. A
    critical section is a computation of a state-and-error monad in which writes made
    before a failure persist, as they do behind the lock. A publication is two critical
    sections with the caller's validator between them. *)

From S2P Require Import Prelude Machine Order Utf8 Canonical ObjectId Types Objects Fields Decode References Explore Reachability Traverse StoreModel.

(** Failures of the store: the errors of the source, and the faults that the theorems
    exclude. *)
Notation ferr := (fault StoreError.t) (only parsing).

Definition raise {A} (r : result StoreError.t A) : result ferr A := map_err Raise r.

Record MemorySnapshot := mk_snapshot {
  objects : BTreeMap oid StoredObject.t;
  promised : BTreeSet oid;
  quarantined : BTreeSet oid;
  references : BTreeMap ReferenceKey.t ReferenceState.t;
  revision : Z }.

(** [MemorySnapshot::default()]. *)
Definition new : MemorySnapshot := mk_snapshot [] [] [] [] 0.

Definition with_objects (objects : BTreeMap oid StoredObject.t) (s : MemorySnapshot) :=
  mk_snapshot objects (promised s) (quarantined s) (references s) (revision s).
Definition with_promised (promised : BTreeSet oid) (s : MemorySnapshot) :=
  mk_snapshot (objects s) promised (quarantined s) (references s) (revision s).
Definition with_quarantined (quarantined : BTreeSet oid) (s : MemorySnapshot) :=
  mk_snapshot (objects s) (promised s) quarantined (references s) (revision s).
Definition with_references (references : BTreeMap ReferenceKey.t ReferenceState.t)
    (s : MemorySnapshot) :=
  mk_snapshot (objects s) (promised s) (quarantined s) references (revision s).
Definition with_revision (revision : Z) (s : MemorySnapshot) :=
  mk_snapshot (objects s) (promised s) (quarantined s) (references s) revision.

(** ** Critical sections *)

Definition locked (A : Type) : Type := MemorySnapshot → MemorySnapshot * result ferr A.

Definition pure {A} (a : A) : locked A := λ s, (s, Ok a).
Definition fail {A} (e : StoreError.t) : locked A := λ s, (s, Err (Raise e)).
Definition bind {A B} (m : locked A) (f : A → locked B) : locked B := λ s,
  match m s with
  | (s, Ok a) => f a s
  | (s, Err e) => (s, Err e)
  end.
(** [&*state], [*state = ..] and a fallible computation that only reads. *)
Definition state_ref : locked MemorySnapshot := λ s, (s, Ok s).
Definition update (f : MemorySnapshot → MemorySnapshot) : locked () := λ s, (f s, Ok tt).
Definition attempt {A} (r : result ferr A) : locked A := λ s, (s, r).

Notation "'let!' x := m 'in' k" := (bind m (λ x, k))
  (at level 200, x pattern, m at level 99, k at level 200) : rgit_scope.

(** ** Reading canonical fields *)

Definition value_map (value : Value) : option fields :=
  match value with Map m => Some m | _ => None end.
Definition value_array (value : Value) : option (list Value) :=
  match value with Array a => Some a | _ => None end.
Definition value_field (m : fields) (key : Z) : option Value :=
  snd <$> List.find (λ e, e.1 =? key) m.
Definition value_bytes (value : Value) : option (list Z) :=
  match value with Bytes b => Some b | _ => None end.
Definition value_unsigned (value : Value) : option Z :=
  match value with Unsigned n => Some n | _ => None end.
Definition object_id (value : Value) : option oid :=
  b ← value_bytes value; ok (ObjectId.from_bytes b).
Definition object_id_field (m : fields) (key : Z) : option oid :=
  v ← value_field m key; object_id v.
Definition typed_ref (value : Value) : option (ObjectKind.t * oid) :=
  m ← value_map value;
  v ← value_field m 0; n ← value_unsigned v; kind ← ok (ObjectKind.try_from n);
  i ← object_id_field m 1;
  Some (kind, i).

Definition validate_line_predecessor (state : fields) (expected : ExpectedRef.t) :
    result StoreError.t () :=
  v ← ok_or (value_field state 6) StoreError.OperationMismatch;
  generation ← ok_or (value_unsigned v) StoreError.OperationMismatch;
  let previous := v ← value_field state 7; object_id v in
  match expected with
  | ExpectedRef.Absent =>
      if (generation =? 0) && bool_decide (previous = None) then Ok tt
      else Err StoreError.OperationMismatch
  | ExpectedRef.Exact old =>
      next ← ok_or (checked_add (ReferenceState.generation old) 1)
               StoreError.GenerationOverflow;
      if (generation =? next) && bool_decide (previous = Some (ReferenceState.target old))
      then Ok tt
      else Err StoreError.OperationMismatch
  end.

(** The fields of a line declaration and of the line state it announces. *)
Definition declared_fields : list (Z * Z) :=
  [(0, 2); (1, 3); (2, 4); (3, 5); (4, 6); (6, 8); (7, 9); (8, 10); (9, 11)].

Definition line_action_matches (action : Value) (state : fields) : bool :=
  match value_map action with
  | None => false
  | Some action =>
      if negb (bool_decide ((v ← value_field action 0; value_unsigned v) = Some 1)) then false
      else
        match v ← value_field action 3; value_map v with
        | None => false
        | Some declaration =>
            forallb (λ keys, bool_decide (value_field declaration keys.1
                                          = value_field state keys.2)) declared_fields
            && bool_decide (value_field declaration 5 = value_field state 7)
        end
  end.

Definition expected_before (update : RefUpdate.t) : option (ObjectKind.t * oid) :=
  match RefUpdate.expected update with
  | ExpectedRef.Absent => None
  | ExpectedRef.Exact state =>
      Some (ReferenceKey.expected_kind (RefUpdate.key update), ReferenceState.target state)
  end.

Definition transition_matches (action : Value) (update : RefUpdate.t) : bool :=
  match value_map action with
  | None => false
  | Some action =>
      if negb (bool_decide ((v ← value_field action 0; value_unsigned v) = Some 0)) then false
      else
        let before := v ← value_field action 1; typed_ref v in
        let after := v ← value_field action 2; typed_ref v in
        bool_decide (before = expected_before update) &&
        bool_decide (after = Some (ReferenceKey.expected_kind (RefUpdate.key update),
                                   RefUpdate.target update))
  end.

Definition reference_identity_matches (key : ReferenceKey.t) (target : StoredObject.t) : bool :=
  match value_map (StoredObject.value target) with
  | None => false
  | Some m =>
      match key with
      | ReferenceKey.Line id | ReferenceKey.Release id | ReferenceKey.Change id =>
          bool_decide ((v ← value_field m 3; value_bytes v) = Some id)
      | ReferenceKey.OperationHead | ReferenceKey.Marker _ => true
      end
  end.

Section store.
Context `{Unicode, Digests}.

(** ** Objects and references *)

Definition decode (id : oid) (bytes : list Z) : result StoreError.t StoredObject.t :=
  object ← map_err StoreError.InvalidObject (AnyObject.decode_verified bytes id bulk);
  map_err StoreError.InvalidObject (StoredObject.new id bytes object).

Definition visible_object (state : MemorySnapshot) (id : oid) :
    result StoreError.t StoredObject.t :=
  bail_if set_contains id (quarantined state) with StoreError.Quarantined;
  match bt_get id (objects state) with
  | Some object => Ok object
  | None =>
      bail_if set_contains id (promised state) with StoreError.Promised;
      Err StoreError.NotPresent
  end.

Definition check_expected (state : MemorySnapshot) (update : RefUpdate.t) :
    result StoreError.t () :=
  let actual := bt_get (RefUpdate.key update) (references state) in
  let matches :=
    match RefUpdate.expected update with
    | ExpectedRef.Absent => bool_decide (actual = None)
    | ExpectedRef.Exact expected => bool_decide (actual = Some expected)
    end in
  if matches then Ok tt else Err StoreError.ReferenceConflict.

Definition next_state (state : MemorySnapshot) (publication : Publication.t)
    (update : RefUpdate.t) : result StoreError.t ReferenceState.t :=
  generation ←
    match bt_get (RefUpdate.key update) (references state) with
    | None => Ok 0
    | Some old =>
        ok_or (checked_add (ReferenceState.generation old) 1) StoreError.GenerationOverflow
    end;
  Ok (ReferenceState.mk (RefUpdate.target update) generation
        (Publication.operation publication)).

(** ** Closures and ancestry graphs *)

Definition resolve_edge (state : MemorySnapshot) (edge : ReferenceEdge) :
    result StoreError.t (oid * StoredObject.t * list ReferenceEdge) :=
  object ←
    match visible_object state (edge_id edge) with
    | Ok object => Ok object
    | Err StoreError.NotPresent => Err (StoreError.Closure ClosureError.Missing)
    | Err StoreError.Promised => Err (StoreError.Closure ClosureError.Promised)
    | Err StoreError.Quarantined => Err (StoreError.Closure ClosureError.Quarantined)
    | Err error => Err error
    end;
  _ ←
    match expected_kind edge with
    | Some expected =>
        bail_if negb (bool_decide (StoredObject.kind object = expected))
          with StoreError.Closure (ClosureError.WrongKind expected (StoredObject.kind object));
        Ok tt
    | None => Ok tt
    end;
  Ok (edge_id edge, object, StoredObject.references object).

(** One step per root and per edge of a stored object, and one to notice the end. *)
Definition closure_fuel {A} (state : MemorySnapshot) (roots : list A) : nat :=
  S (length roots
     + sum_list_with (λ e, length (StoredObject.references e.2)) (objects state)).

Definition closure_from (state : MemorySnapshot) (roots : list ReferenceEdge) :
    result ferr Closure :=
  traverse (resolve_edge state) (closure_fuel state roots) [] (rev roots).

(** [GraphIndex] failures become [StoreError::InvalidGraph]. *)
Definition invalid_graph {A} (r : result (fault (GraphError.t oid)) A) : result ferr A :=
  map_err (λ e, match e with
                | Raise _ => Raise StoreError.InvalidGraph
                | Panic => Panic
                | OutOfFuel => OutOfFuel
                end) r.

Definition parent_role (kind : ObjectKind.t) : result StoreError.t ReferenceRole.t :=
  match kind with
  | ObjectKind.Snapshot => Ok ReferenceRole.SnapshotParent
  | ObjectKind.Operation => Ok ReferenceRole.OperationParent
  | _ => Err StoreError.InvalidGraph
  end.

(** [object.references().iter().filter(|edge| edge.role == role).map(|edge| edge.id)]. *)
Definition role_targets (role : ReferenceRole.t) (object : StoredObject.t) : list oid :=
  map edge_id (List.filter (λ edge, bool_decide (References.role edge = role))
                 (StoredObject.references object)).

Definition graph_nodes (objects : BTreeMap oid StoredObject.t) (kind : ObjectKind.t)
    (role : ReferenceRole.t) : list (GraphNode oid) :=
  map (λ object, mk_node (StoredObject.id object) (role_targets role object))
    (List.filter (λ object, bool_decide (StoredObject.kind object = kind)) (bt_values objects)).

Definition graph (objects : BTreeMap oid StoredObject.t) (kind : ObjectKind.t) :
    result ferr (GraphIndex oid) :=
  role ← raise (parent_role kind);
  invalid_graph (build (graph_nodes objects kind role)).

Definition validate_affected_graphs (closure : Closure) : result ferr () :=
  try_for_each (λ kind, _ ← graph closure kind; Ok tt)
    [ObjectKind.Snapshot; ObjectKind.Operation].

Definition resolve_ancestor (state : MemorySnapshot) (kind : ObjectKind.t)
    (role : ReferenceRole.t) (id : oid) :
    result StoreError.t (oid * StoredObject.t * list oid) :=
  object ← visible_object state id;
  bail_if negb (bool_decide (StoredObject.kind object = kind)) with StoreError.InvalidGraph;
  Ok (id, object, role_targets role object).

Definition ancestry_closure (state : MemorySnapshot) (roots : list oid) (kind : ObjectKind.t) :
    result ferr (BTreeMap oid StoredObject.t) :=
  role ← raise (parent_role kind);
  traverse (resolve_ancestor state kind role) (closure_fuel state roots) [] (rev roots).

(** ** Authorisation of the updates by the operation *)

(** [actions.iter().enumerate().find_map(..)]: the first action that is not consumed and
    matches. *)
Fixpoint find_action (matches : Value → bool) (consumed : BTreeSet Z) (index : Z)
    (actions : list Value) : option Z :=
  match actions with
  | [] => None
  | action :: actions =>
      if negb (set_contains index consumed) && matches action then Some index
      else find_action matches consumed (index + 1) actions
  end.

Definition consume (matches : Value → bool) (actions : list Value) (consumed : BTreeSet Z) :
    result StoreError.t (BTreeSet Z) :=
  index ← ok_or (find_action matches consumed 0 actions) StoreError.OperationMismatch;
  Ok (set_insert index consumed).

(** The identifiers of the operation's parents. *)
Definition operation_parents (operation : StoredObject.t) : BTreeSet oid :=
  set_of_list (role_targets ReferenceRole.OperationParent operation).

Definition authorize (publication : Publication.t) (operation : StoredObject.t)
    (actions : list Value) (state : MemorySnapshot) (consumed : BTreeSet Z)
    (update : RefUpdate.t) : result StoreError.t (BTreeSet Z) :=
  match RefUpdate.key update with
  | ReferenceKey.OperationHead =>
      bail_if negb (bool_decide (RefUpdate.target update = Publication.operation publication))
        with StoreError.OperationMismatch;
      let parents := operation_parents operation in
      match RefUpdate.expected update with
      | ExpectedRef.Absent =>
          bail_if negb (bool_decide (parents = [])) with StoreError.OperationMismatch;
          Ok consumed
      | ExpectedRef.Exact state =>
          bail_if negb (set_contains (ReferenceState.target state) parents)
            with StoreError.OperationMismatch;
          Ok consumed
      end
  | ReferenceKey.Line line_id =>
      object ← visible_object state (RefUpdate.target update);
      line_state ← ok_or (value_map (StoredObject.value object)) StoreError.OperationMismatch;
      v ← ok_or (value_field line_state 3) StoreError.OperationMismatch;
      bail_if negb (bool_decide (value_bytes v = Some line_id))
        with StoreError.OperationMismatch;
      bail_if negb (bool_decide (object_id_field line_state 12
                                 = Some (Publication.operation publication)))
        with StoreError.OperationMismatch;
      _ ← validate_line_predecessor line_state (RefUpdate.expected update);
      consume (λ action, line_action_matches action line_state) actions consumed
  | _ => consume (λ action, transition_matches action update) actions consumed
  end.

Definition validate_operation (publication : Publication.t) (operation : StoredObject.t)
    (state : MemorySnapshot) : result StoreError.t () :=
  operation_map ← ok_or (value_map (StoredObject.value operation)) StoreError.OperationMismatch;
  v ← ok_or (value_field operation_map 8) StoreError.OperationMismatch;
  actions ← ok_or (value_array v) StoreError.OperationMismatch;
  consumed ← try_fold (authorize publication operation actions state)
               (Publication.updates publication) [];
  bail_if negb (len consumed =? len actions) with StoreError.OperationMismatch;
  Ok tt.

(** ** Staging a publication *)

Definition stage_object (staged : MemorySnapshot) (candidate : PublicationObject.t) :
    result StoreError.t MemorySnapshot :=
  let id := PublicationObject.id candidate in
  decoded ← decode id (PublicationObject.bytes candidate);
  staged ←
    match bt_get id (objects staged) with
    | Some existing =>
        bail_if negb (bool_decide (StoredObject.bytes existing = StoredObject.bytes decoded))
          with StoreError.InvalidObject DecodeObjectError.Digest;
        Ok staged
    | None => Ok (with_objects (bt_insert id decoded (objects staged)) staged)
    end;
  Ok (with_promised (set_remove id (promised staged)) staged).

Definition check_update (state staged : MemorySnapshot) (keys : BTreeSet ReferenceKey.t)
    (update : RefUpdate.t) : result StoreError.t (BTreeSet ReferenceKey.t) :=
  let key := RefUpdate.key update in
  bail_if set_contains key keys with StoreError.DuplicateReferenceUpdate;
  let keys := set_insert key keys in
  _ ← check_expected state update;
  target ← visible_object staged (RefUpdate.target update);
  bail_if negb (bool_decide (StoredObject.kind target = ReferenceKey.expected_kind key))
    with StoreError.ReferenceKind;
  bail_if negb (reference_identity_matches key target) with StoreError.ReferenceKind;
  Ok keys.

Definition publication_roots (publication : Publication.t) : list ReferenceEdge :=
  mk_edge ReferenceRole.OperationAfter (Some ObjectKind.Operation)
    (Publication.operation publication)
  :: map (λ update, mk_edge ReferenceRole.OperationAfter
                      (Some (ReferenceKey.expected_kind (RefUpdate.key update)))
                      (RefUpdate.target update)) (Publication.updates publication).

Definition insert_reference (state : MemorySnapshot) (publication : Publication.t)
    (staged : MemorySnapshot) (update : RefUpdate.t) : result StoreError.t MemorySnapshot :=
  next ← next_state state publication update;
  Ok (with_references (bt_insert (RefUpdate.key update) next (references staged)) staged).

Definition stage (publication : Publication.t) (state : MemorySnapshot) :
    result ferr MemorySnapshot :=
  staged ← raise (try_fold stage_object (Publication.objects publication) state);
  operation ← raise (visible_object staged (Publication.operation publication));
  bail_if negb (bool_decide (StoredObject.kind operation = ObjectKind.Operation))
    with Raise StoreError.ReferenceKind;
  _ ← raise (try_fold (check_update state staged) (Publication.updates publication) []);
  _ ← raise (validate_operation publication operation staged);
  closure ← closure_from staged (publication_roots publication);
  _ ← validate_affected_graphs closure;
  raise (try_fold (insert_reference state publication) (Publication.updates publication) staged).

(** ** The [Store] operations *)

(** [state.revision.checked_add(1).ok_or(StoreError::RevisionOverflow)?]. *)
Definition next_revision : locked Z :=
  let! state := state_ref in
  attempt (raise (ok_or (checked_add (revision state) 1) StoreError.RevisionOverflow)).

Definition put (id : oid) (bytes : list Z) : locked PutOutcome.t :=
  let! decoded := attempt (raise (decode id bytes)) in
  let! state := state_ref in
  match bt_get id (objects state) with
  | Some existing =>
      if bool_decide (StoredObject.bytes existing = StoredObject.bytes decoded)
      then pure PutOutcome.AlreadyPresent
      else fail (StoreError.InvalidObject DecodeObjectError.Digest)
  | None =>
      let! next := next_revision in
      let! _ := update (λ s, with_objects (bt_insert id decoded (objects s)) s) in
      let! _ := update (λ s, with_promised (set_remove id (promised s)) s) in
      let! _ := update (with_revision next) in
      pure PutOutcome.New
  end.

Definition get (id : oid) : locked StoredObject.t :=
  let! state := state_ref in attempt (raise (visible_object state id)).

Definition presence (id : oid) : locked (option ObjectPresence.t) :=
  let! state := state_ref in
  pure (if set_contains id (quarantined state) then Some ObjectPresence.Quarantined
        else if bt_contains id (objects state) then Some ObjectPresence.Present
        else if set_contains id (promised state) then Some ObjectPresence.Promised
        else None).

Definition mark_promised (id : oid) : locked () :=
  let! state := state_ref in
  if negb (bt_contains id (objects state)) && negb (set_contains id (promised state)) then
    let! next := next_revision in
    let! _ := update (λ s, with_promised (set_insert id (promised s)) s) in
    update (with_revision next)
  else pure tt.

Definition quarantine (id : oid) : locked () :=
  let! state := state_ref in
  if negb (bt_contains id (objects state)) && negb (set_contains id (promised state))
  then fail StoreError.NotPresent
  else if negb (set_contains id (quarantined state)) then
    let! next := next_revision in
    let! _ := update (λ s, with_quarantined (set_insert id (quarantined s)) s) in
    update (with_revision next)
  else pure tt.

Definition reference (key : ReferenceKey.t) : locked (option ReferenceState.t) :=
  let! state := state_ref in pure (bt_get key (references state)).

(** The first critical section of [publish]. *)
Record Staged := mk_staged {
  staged_state : MemorySnapshot;
  base_revision : Z;
  target_revision : Z }.

Definition publish_stage (publication : Publication.t) : locked Staged :=
  let! state := state_ref in
  let! next := next_revision in
  let! staged := attempt (stage publication state) in
  pure (mk_staged staged (revision state) next).

(** Outside the lock: the validator, and the answer a successful publication returns. *)
Definition publish_validate (publication : Publication.t) (validator : PublicationValidator)
    (staged : Staged) : result StoreError.t (list ReferenceState.t) :=
  _ ← validator (PublicationCandidate.mk publication (objects (staged_state staged))
                   (references (staged_state staged)));
  Ok (omap (λ update, bt_get (RefUpdate.key update) (references (staged_state staged)))
        (Publication.updates publication)).

(** The second critical section. *)
Definition publish_commit (staged : Staged) (results : list ReferenceState.t) :
    locked (list ReferenceState.t) :=
  let! state := state_ref in
  if negb (revision state =? base_revision staged) then fail StoreError.ReferenceConflict
  else
    let! _ := update (λ _, with_revision (target_revision staged) (staged_state staged)) in
    pure results.

(** The whole call, when no other thread runs between its critical sections. *)
Definition publish (publication : Publication.t) (validator : PublicationValidator) :
    locked (list ReferenceState.t) :=
  let! staged := publish_stage publication in
  let! results := attempt (raise (publish_validate publication validator staged)) in
  publish_commit staged results.

Definition compare_and_swap (key : ReferenceKey.t) (expected : ExpectedRef.t)
    (target operation : oid) (validator : PublicationValidator) : locked ReferenceState.t :=
  let! results := publish (Publication.mk [] [RefUpdate.mk key expected target] operation)
                    validator in
  attempt (raise (ok_or (head results) StoreError.ReferenceConflict)).

Definition closure (roots : list ReferenceEdge) : locked Closure :=
  let! state := state_ref in attempt (closure_from state roots).

Definition generation (id : oid) : locked Z :=
  let! state := state_ref in
  let! object := attempt (raise (visible_object state id)) in
  let! objects := attempt (ancestry_closure state [id] (StoredObject.kind object)) in
  let! index := attempt (graph objects (StoredObject.kind object)) in
  attempt (invalid_graph (Reachability.generation index id)).

Definition is_reachable (ancestor descendant : oid) : locked bool :=
  let! state := state_ref in
  let! ancestor_object := attempt (raise (visible_object state ancestor)) in
  let! descendant_object := attempt (raise (visible_object state descendant)) in
  if negb (bool_decide (StoredObject.kind ancestor_object = StoredObject.kind descendant_object))
  then fail StoreError.InvalidGraph
  else
    let kind := StoredObject.kind ancestor_object in
    let! objects := attempt (ancestry_closure state [descendant] kind) in
    if negb (bt_contains ancestor objects) then pure false
    else
      let! index := attempt (graph objects kind) in
      attempt (invalid_graph (Reachability.is_reachable index ancestor descendant)).

(** ** Snapshots exchanged with the durable backends *)

Definition snapshot : locked MemorySnapshot := state_ref.
Definition replace (replacement : MemorySnapshot) : locked () := update (λ _, replacement).
Definition replace_if_revision (expected_revision : Z) (replacement : MemorySnapshot) :
    locked () :=
  let! state := state_ref in
  if negb (revision state =? expected_revision) then fail StoreError.ReferenceConflict
  else update (λ _, replacement).
Definition raw_ids : locked (list oid) :=
  let! state := state_ref in pure (bt_keys (objects state)).
End store.
