(* ===== verification/MemoryFacts.v ===== *)
(** * The in-memory store: reading

    What is visible, what a closure contains, and the ancestry queries, in terms of the
    edges of the stored objects. *)

From stdpp Require Import relations.
From S2P Require Import Prelude Machine Order Utf8 Canonical ObjectId Types Objects Fields Decode References Explore Reachability ReachabilityFacts GraphSpec Traverse StoreModel MemoryStore.

Lemma raise_Ok {A} (r : result StoreError.t A) a : raise r = Ok a ↔ r = Ok a.
Proof. apply map_err_Ok. Qed.

Lemma visible_Ok s id o :
  visible_object s id = Ok o ↔
  set_contains id (quarantined s) = false ∧ bt_get id (objects s) = Some o.
Proof.
  unfold visible_object. rewrite bail_Ok. destruct (bt_get id (objects s)); [naive_solver|].
  destruct (set_contains id (promised s)); naive_solver.
Qed.

(** The edge allows the object's kind. *)
Definition kind_ok (e : ReferenceEdge) (o : StoredObject.t) : Prop :=
  ∀ k, expected_kind e = Some k → StoredObject.kind o = k.

Lemma resolve_edge_Ok s e k o next :
  resolve_edge s e = Ok (k, o, next) ↔
  k = edge_id e ∧ visible_object s (edge_id e) = Ok o ∧ kind_ok e o ∧
  next = StoredObject.references o.
Proof.
  unfold resolve_edge, kind_ok. destruct (visible_object s (edge_id e)) as [o'|[]];
    cbn; try naive_solver.
  destruct (expected_kind e) as [k'|]; cbn; [|naive_solver].
  case_bool_decide; cbn; naive_solver.
Qed.

(** ** Closures *)

(** The object that [e] names holds the edge [e']. *)
Definition edge_step (s : MemorySnapshot) (e e' : ReferenceEdge) : Prop :=
  ∃ o, visible_object s (edge_id e) = Ok o ∧ e' ∈ StoredObject.references o.

Definition reaches (s : MemorySnapshot) (roots : list ReferenceEdge) (e : ReferenceEdge) : Prop :=
  ∃ r, r ∈ roots ∧ rtc (edge_step s) r e.

Definition resolves (s : MemorySnapshot) (e : ReferenceEdge) : Prop :=
  ∃ o, visible_object s (edge_id e) = Ok o ∧ kind_ok e o.

(** The measure of a traversal in which each object contributes at most its references. *)
Lemma unexplored_bound {X} (s : MemorySnapshot) (node : oid → option (StoredObject.t * list X)) :
  bt_wf (objects s) →
  (∀ id o next, node id = Some (o, next) → visible_object s id = Ok o ∧
     (length next ≤ length (StoredObject.references o))%nat) →
  (unexplored node (bt_keys (objects s)) [] ≤
   sum_list_with (λ e, length (StoredObject.references e.2)) (objects s))%nat.
Proof.
  intros Hwf Hnode.
  rewrite <-(sum_keys (objects s) (λ o, length (StoredObject.references o)) Hwf).
  apply sum_list_with_le. intros id Hid. cbn. unfold degree.
  destruct (node id) as [[o next]|] eqn:Hn; cbn; [|lia].
  destruct (Hnode id o next Hn) as [Hv Hlen]. apply visible_Ok in Hv as [_ ->]. done.
Qed.

Definition edge_node (s : MemorySnapshot) (id : oid) :
    option (StoredObject.t * list ReferenceEdge) :=
  o ← ok (visible_object s id); Some (o, StoredObject.references o).

Lemma edge_node_visit s e k o next :
  resolve_edge s e = Ok (k, o, next) →
  edge_node s k = Some (o, next) ∧ k ∈ bt_keys (objects s).
Proof.
  intros (-> & Hv & _ & ->)%resolve_edge_Ok. unfold edge_node. rewrite Hv. split; [done|].
  apply visible_Ok in Hv as [_ Hg]. by eapply bt_get_key.
Qed.

Lemma edge_fuel s (roots : list ReferenceEdge) :
  bt_wf (objects s) →
  (length roots + unexplored (edge_node s) (bt_keys (objects s)) [] < closure_fuel s roots)%nat.
Proof.
  intros Hwf. apply Nat.lt_succ_r, Nat.add_le_mono_l, unexplored_bound; [done|].
  unfold edge_node. intros id o next. destruct (visible_object s id); [|done].
  by intros [= -> <-].
Qed.

Lemma edge_names_step s e e' : names (resolve_edge s) e e' → edge_step s e e'.
Proof. intros (k & o & next & (_ & Hv & _ & ->)%resolve_edge_Ok & He). by exists o. Qed.

Lemma edge_step_names s e e' n :
  resolve_edge s e = Ok n → edge_step s e e' → names (resolve_edge s) e e'.
Proof.
  destruct n as [[k o] next]. intros Hn (o' & Hv & He). exists k, o, next. split; [done|].
  apply resolve_edge_Ok in Hn as (_ & Hv' & _ & ->). rewrite Hv in Hv'. by injection Hv' as <-.
Qed.

Lemma closure_from_spec s roots :
  bt_wf (objects s) →
  match closure_from s roots with
  | Ok c =>
      bt_wf c ∧ (∀ e, reaches s roots e → resolves s e) ∧
      ∀ id o, bt_get id c = Some o ↔
        visible_object s id = Ok o ∧ ∃ e, reaches s roots e ∧ edge_id e = id
  | Err (Raise error) => ∃ e, reaches s roots e ∧ resolve_edge s e = Err error
  | Err _ => False
  end.
Proof.
  intros Hwf. unfold closure_from, reaches.
  pose proof (traverse_steps (resolve_edge s) (edge_node s) (bt_keys (objects s))
    (bt_wf_nodup _ Hwf) (edge_node_visit s) (edge_step s) (edge_names_step s) (edge_step_names s)
    (closure_fuel s roots) roots) as Ht.
  destruct (traverse _ _ _ _) as [c|[error| |]]; [|..|apply Ht|apply Ht].
  - destruct Ht as (Hc & Hall & Hg); [by apply edge_fuel|]. split_and!; [done| |].
    + intros e (r & Hr & Hp).
      destruct (Hall r e Hr Hp) as [[[k o] next] (_ & Hv & Hk & _)%resolve_edge_Ok]. by exists o.
    + intros id o. rewrite Hg. split.
      * intros (r & e & next & Hr & Hp & (-> & Hv & _ & _)%resolve_edge_Ok). eauto 10.
      * intros (Hv & e & (r & Hr & Hp) & <-). destruct (Hall r e Hr Hp) as [[[k o'] next] Hn].
        exists r, e, next. apply resolve_edge_Ok in Hn as Hn'. destruct Hn' as (-> & Hv' & _ & _).
        rewrite Hv in Hv'. by injection Hv' as <-.
  - destruct Ht as (r & e & Hr & Hp & He); [by apply edge_fuel|]. eauto.
  - by apply edge_fuel.
  - by apply edge_fuel.
Qed.

(** ** Ancestry *)

(** [p] is a parent of the visible object [id]. *)
Definition history (s : MemorySnapshot) (role : ReferenceRole.t) (id p : oid) : Prop :=
  ∃ o, visible_object s id = Ok o ∧ p ∈ role_targets role o.

Lemma resolve_ancestor_Ok s kind role id k o next :
  resolve_ancestor s kind role id = Ok (k, o, next) ↔
  k = id ∧ visible_object s id = Ok o ∧ StoredObject.kind o = kind ∧ next = role_targets role o.
Proof.
  unfold resolve_ancestor. destruct (visible_object s id) as [o'|]; cbn; [|naive_solver].
  case_bool_decide; cbn; naive_solver.
Qed.

Definition ancestor_node (s : MemorySnapshot) (role : ReferenceRole.t) (id : oid) :
    option (StoredObject.t * list oid) :=
  o ← ok (visible_object s id); Some (o, role_targets role o).

Lemma ancestor_fuel s role (roots : list oid) :
  bt_wf (objects s) →
  (length roots + unexplored (ancestor_node s role) (bt_keys (objects s)) []
   < closure_fuel s roots)%nat.
Proof.
  intros Hwf. apply Nat.lt_succ_r, Nat.add_le_mono_l, unexplored_bound; [done|].
  unfold ancestor_node. intros id o next. destruct (visible_object s id); [|done].
  intros [= -> <-]. split; [done|]. unfold role_targets. rewrite length_map.
  apply List.filter_length_le.
Qed.

Lemma ancestry_closure_spec s kind role id :
  bt_wf (objects s) → parent_role kind = Ok role →
  match ancestry_closure s [id] kind with
  | Ok c =>
      bt_wf c ∧
      (∀ a, rtc (history s role) id a → ∃ o, visible_object s a = Ok o ∧ StoredObject.kind o = kind) ∧
      ∀ a o, bt_get a c = Some o ↔ visible_object s a = Ok o ∧ rtc (history s role) id a
  | Err (Raise error) =>
      ∃ a, rtc (history s role) id a ∧ resolve_ancestor s kind role a = Err error
  | Err _ => False
  end.
Proof.
  intros Hwf Hrole. unfold ancestry_closure. rewrite Hrole. cbn [raise map_err mbind result_bind].
  assert (∀ x k v next, resolve_ancestor s kind role x = Ok (k, v, next) →
    ancestor_node s role k = Some (v, next) ∧ k ∈ bt_keys (objects s)) as Hnode.
  { intros x k o next (-> & Hv & _ & ->)%resolve_ancestor_Ok. unfold ancestor_node. rewrite Hv.
    split; [done|]. apply visible_Ok in Hv as [_ Hg]. by eapply bt_get_key. }
  assert (∀ x y, names (resolve_ancestor s kind role) x y → history s role x y) as Hns.
  { intros x y (k & o & next & (_ & Hv & _ & ->)%resolve_ancestor_Ok & Hy). by exists o. }
  assert (∀ x y n, resolve_ancestor s kind role x = Ok n → history s role x y →
    names (resolve_ancestor s kind role) x y) as Hsn.
  { intros x y [[k o] next] Hn (o' & Hv & Hy). exists k, o, next. split; [done|].
    apply resolve_ancestor_Ok in Hn as (_ & Hv' & _ & ->). rewrite Hv in Hv'. by injection Hv' as <-. }
  assert (length [id] + unexplored (ancestor_node s role) (bt_keys (objects s)) []
    < closure_fuel s [id])%nat as Hfuel by (by apply ancestor_fuel).
  pose proof (traverse_steps _ _ _ (bt_wf_nodup _ Hwf) Hnode _ Hns Hsn _ [id] Hfuel) as Ht.
  destruct (traverse _ _ _ _) as [c|[error| |]]; [|..|done|done].
  - destruct Ht as (Hc & Hall & Hg). split_and!; [done| |].
    + intros a Hp. destruct (Hall id a ltac:(left) Hp) as [[[k o] next] Hn].
      apply resolve_ancestor_Ok in Hn as (_ & Hv & Hk & _). eauto.
    + intros a o. rewrite Hg. split.
      * intros (r & x & next & ->%list_elem_of_singleton & Hp & (-> & Hv & _)%resolve_ancestor_Ok).
        done.
      * intros [Hv Hp]. destruct (Hall id a ltac:(left) Hp) as [[[k o'] next] Hn].
        exists id, a, next. apply resolve_ancestor_Ok in Hn as Hn'. destruct Hn' as (-> & Hv' & _).
        rewrite Hv in Hv'. injection Hv' as <-. split_and!; [left|done|done].
  - destruct Ht as (r & x & ->%list_elem_of_singleton & Hp & Hx). eauto.
Qed.

(** ** Graphs of stored objects *)

Definition keyed (c : BTreeMap oid StoredObject.t) : Prop :=
  ∀ id o, bt_get id c = Some o → StoredObject.id o = id.

(** The nodes of the graph and its parent relation, read off the map. *)
Lemma graph_nodes_elem c kind role n :
  bt_wf c → keyed c →
  n ∈ graph_nodes c kind role ↔
  ∃ id o, bt_get id c = Some o ∧ StoredObject.kind o = kind ∧
    n = mk_node id (role_targets role o).
Proof.
  intros Hc Hk. unfold graph_nodes. rewrite list_elem_of_fmap. split.
  - intros (o & -> & Ho). apply list_elem_of_In, filter_In in Ho as [Ho Hkind].
    apply list_elem_of_In, list_elem_of_fmap in Ho as ([id o'] & -> & Hin).
    apply bt_get_elem_iff in Hin; [|done]. apply bool_decide_eq_true in Hkind.
    exists id, o'. cbn in *. by rewrite (Hk id o').
  - intros (id & o & Hg & Hkind & ->). exists o. rewrite (Hk id o Hg). split; [done|].
    apply list_elem_of_In, filter_In. rewrite bool_decide_eq_true. split; [|done].
    apply list_elem_of_In, list_elem_of_fmap. exists (id, o). split; [done|].
    by apply bt_get_elem.
Qed.

Lemma graph_nodes_ids c kind role id :
  bt_wf c → keyed c →
  id ∈ map node_id (graph_nodes c kind role) ↔
  ∃ o, bt_get id c = Some o ∧ StoredObject.kind o = kind.
Proof.
  intros Hc Hk. rewrite list_elem_of_fmap. setoid_rewrite graph_nodes_elem; [|done..]. split.
  - intros (n & -> & id' & o & Hg & Ho & ->). eauto.
  - intros (o & Hg & Ho). exists (mk_node id (role_targets role o)). eauto 10.
Qed.

Lemma graph_nodes_parent c kind role id p :
  bt_wf c → keyed c →
  input_parent (graph_nodes c kind role) id p ↔
  ∃ o, bt_get id c = Some o ∧ StoredObject.kind o = kind ∧ p ∈ role_targets role o.
Proof.
  intros Hc Hk. unfold input_parent. setoid_rewrite graph_nodes_elem; [|done..]. split.
  - intros (n & (id' & o & Hg & Ho & ->) & <- & Hp). eauto.
  - intros (o & Hg & Ho & Hp). exists (mk_node id (role_targets role o)). eauto 10.
Qed.

Lemma graph_nodes_nodup c kind role :
  bt_wf c → keyed c → NoDup (map node_id (graph_nodes c kind role)).
Proof.
  intros Hc Hk. unfold graph_nodes. rewrite map_map. cbn.
  assert (∀ m : BTreeMap oid StoredObject.t, (∀ e, e ∈ m → e ∈ c) → NoDup (bt_keys m) →
    NoDup (map StoredObject.id (List.filter (λ o, bool_decide (StoredObject.kind o = kind))
      (bt_values m)))) as Hgen; [|by apply Hgen, bt_wf_nodup].
  induction m as [|[id o] m IH]; intros Hsub Hnd; cbn; [constructor|].
  cbn in Hnd. apply NoDup_cons in Hnd as [Hid Hnd].
  specialize (IH ltac:(intros e He; apply Hsub; by right) Hnd).
  case_bool_decide; [|done]. cbn. constructor; [|done].
  intros (o' & Heq & Ho')%list_elem_of_fmap. apply Hid.
  apply list_elem_of_In, filter_In in Ho' as [Ho' _].
  apply list_elem_of_In, list_elem_of_fmap in Ho' as ([id' o''] & -> & Hin). cbn in Heq.
  rewrite (Hk id o) in Heq by (apply bt_get_elem_iff; [done|apply Hsub; left]).
  rewrite (Hk id' o'') in Heq by (apply bt_get_elem_iff; [done|apply Hsub; by right]).
  subst. apply list_elem_of_fmap. by exists (id', o'').
Qed.

Lemma graph_nodes_len c kind role : len (graph_nodes c kind role) ≤ len c.
Proof.
  unfold graph_nodes, len. rewrite length_map. apply inj_le.
  etransitivity; [apply List.filter_length_le|]. unfold bt_values. by rewrite length_map.
Qed.

(** A graph whose parents are all present is rejected exactly for a cycle. *)
Lemma graph_spec c kind role :
  bt_wf c → keyed c → len c ≤ u64_max → parent_role kind = Ok role →
  let nodes := graph_nodes c kind role in
  match graph c kind with
  | Ok idx => built nodes idx ∧ ∀ x, ¬ tc (input_parent nodes) x x
  | Err (Raise e) =>
      e = StoreError.InvalidGraph ∧
      ((∃ x p, input_parent nodes x p ∧ p ∉ map node_id nodes) ∨
       ∃ x, tc (input_parent nodes) x x)
  | Err _ => False
  end.
Proof.
  intros Hc Hk Hlen Hrole nodes. unfold graph. rewrite Hrole. cbn [raise map_err mbind result_bind]. fold nodes.
  pose proof (build_cases nodes ltac:(etransitivity; [apply graph_nodes_len|done])) as Hb.
  destruct (build nodes) as [idx|[[n|n p|ns|n|n]| |]]; cbn [invalid_graph map_err];
    try (exact Hb); try (exfalso; exact Hb).
  - exfalso. destruct Hb as (pre & g & post & Hn & Hid & Hin).
    pose proof (graph_nodes_nodup c kind role Hc Hk) as Hnd. fold nodes in Hnd. rewrite Hn in Hnd.
    rewrite map_app in Hnd. apply NoDup_app in Hnd as (_ & Hdis & _).
    apply (Hdis n Hin). rewrite <-Hid. left.
  - split; [done|]. left. destruct Hb as (_ & Hp & Hnot). eauto.
  - split; [done|]. right. destruct Hb as (_ & _ & Hne & _ & Hns).
    destruct ns as [|n ns]; [done|]. exists n. apply Hns. left.
Qed.

(** ** The graph of an object's ancestry *)

Section ancestry.
Context (s : MemorySnapshot) (Hwf : bt_wf (objects s)) (Hkeyed : keyed (objects s)).
Context (Hlen : len (objects s) ≤ u64_max).
Context (kind : ObjectKind.t) (role : ReferenceRole.t) (Hrole : parent_role kind = Ok role).
Context (id : oid) (c : BTreeMap oid StoredObject.t).
Context (Hc : ancestry_closure s [id] kind = Ok c).

Notation nodes := (graph_nodes c kind role).

Lemma ancestry_get a o :
  bt_get a c = Some o ↔ visible_object s a = Ok o ∧ rtc (history s role) id a.
Proof.
  pose proof (ancestry_closure_spec s kind role id Hwf Hrole) as Ha. rewrite Hc in Ha.
  by destruct Ha as (_ & _ & Ha).
Qed.

Lemma ancestry_visible a :
  rtc (history s role) id a → ∃ o, visible_object s a = Ok o ∧ StoredObject.kind o = kind.
Proof.
  pose proof (ancestry_closure_spec s kind role id Hwf Hrole) as Ha. rewrite Hc in Ha.
  destruct Ha as (_ & Ha & _). apply Ha.
Qed.

Lemma ancestry_wf : bt_wf c.
Proof.
  pose proof (ancestry_closure_spec s kind role id Hwf Hrole) as Ha. rewrite Hc in Ha.
  by destruct Ha as (Ha & _).
Qed.

Lemma ancestry_keyed : keyed c.
Proof. intros a o [[_ Hg]%visible_Ok _]%ancestry_get. by apply Hkeyed. Qed.

Lemma ancestry_len : len c ≤ u64_max.
Proof.
  etransitivity; [|exact Hlen]. unfold len. rewrite <-(length_map fst c), <-(length_map fst (objects s)).
  apply inj_le, submseteq_length, NoDup_submseteq; [apply bt_wf_nodup, ancestry_wf|].
  intros a Ha. apply bt_contains_elem in Ha. unfold bt_contains in Ha.
  destruct (bt_get a c) as [o|] eqn:Hg; [|done].
  apply ancestry_get in Hg as [[_ Hg]%visible_Ok _]. by eapply bt_get_key.
Qed.

Lemma ancestry_ids a : a ∈ map node_id nodes ↔ rtc (history s role) id a.
Proof.
  rewrite graph_nodes_ids by (apply ancestry_wf || apply ancestry_keyed).
  setoid_rewrite ancestry_get. split; [by intros (o & [_ ?] & _)|].
  intros Ha. destruct (ancestry_visible a Ha) as (o & Ho & Hk). eauto.
Qed.

Lemma ancestry_parent a p :
  rtc (history s role) id a → input_parent nodes a p ↔ history s role a p.
Proof.
  intros Ha. rewrite graph_nodes_parent by (apply ancestry_wf || apply ancestry_keyed).
  setoid_rewrite ancestry_get. unfold history at 2. split.
  - intros (o & [Hv _] & _ & Hp). eauto.
  - intros (o & Hv & Hp). destruct (ancestry_visible a Ha) as (o' & Ho & Hk).
    rewrite Hv in Ho. injection Ho as <-. eauto 10.
Qed.

(** Paths that start in the ancestry stay in it, in the graph and in the store. *)
Lemma ancestry_nsteps k a b :
  rtc (history s role) id a → nsteps (input_parent nodes) k a b ↔ nsteps (history s role) k a b.
Proof.
  revert a. induction k as [|k IH]; intros a Ha.
  { split; inversion 1; constructor. }
  split; inversion 1 as [|k' ? y ? Hay Hyb]; subst; (econstructor;
    [apply (ancestry_parent a y Ha), Hay|]);
    (apply IH; [eapply rtc_r; [exact Ha|]|exact Hyb]); [by apply ancestry_parent|done].
Qed.

Lemma ancestry_rtc a b :
  rtc (history s role) id a → rtc (input_parent nodes) a b ↔ rtc (history s role) a b.
Proof.
  intros Ha. rewrite !rtc_nsteps. split; intros [k Hk]; exists k; by apply ancestry_nsteps.
Qed.

Lemma ancestry_graph :
  match graph c kind with
  | Ok idx => built nodes idx ∧ ∀ x, ¬ tc (input_parent nodes) x x
  | Err (Raise e) =>
      e = StoreError.InvalidGraph ∧
      ∃ a, rtc (history s role) id a ∧ tc (history s role) a a
  | Err _ => False
  end.
Proof.
  pose proof (graph_spec c kind role ancestry_wf ancestry_keyed ancestry_len Hrole) as Hg.
  cbv zeta in Hg. destruct (graph c kind) as [idx|[e| |]]; [done| |done|done].
  destruct Hg as [-> [(x & p & Hxp & Hp)|(x & Hx)]]; split; try done.
  - exfalso. apply Hp, ancestry_ids. assert (rtc (history s role) id x) as Hid.
    { apply ancestry_ids, graph_nodes_ids; [apply ancestry_wf|apply ancestry_keyed|].
      apply graph_nodes_parent in Hxp as (o & ? & ? & _); [eauto|apply ancestry_wf|apply ancestry_keyed]. }
    eapply rtc_r; [exact Hid|]. by apply ancestry_parent.
  - exists x. assert (rtc (history s role) id x) as Hid.
    { apply tc_nsteps in Hx as (k & Hk & Hx). inversion Hx as [|k' ? y ? Hxy]; subst; [lia|].
      apply ancestry_ids, graph_nodes_ids; [apply ancestry_wf|apply ancestry_keyed|].
      apply graph_nodes_parent in Hxy as (o & ? & ? & _); [eauto|apply ancestry_wf|apply ancestry_keyed]. }
    split; [done|]. apply tc_nsteps in Hx as (k & Hk & Hx). apply tc_nsteps. exists k.
    split; [done|]. by apply ancestry_nsteps.
Qed.
End ancestry.
