(* ===== verification/StoreInv.v ===== *)
(** * The in-memory store: integrity and staging

    The invariant of a store, what staging a publication does to a snapshot, and that every
    operation preserves the invariant. *)

From stdpp Require Import relations.
From S2P Require Import Prelude Machine Order Utf8 Canonical ObjectId Types Objects Fields Decode References Explore Reachability ReachabilityFacts GraphSpec Traverse StoreModel MemoryStore MemoryFacts.

Notation object_map := (BTreeMap oid StoredObject.t).

(** The stored object that [e] names holds the edge [e']. *)
Definition holds (objs : object_map) (e e' : ReferenceEdge) : Prop :=
  ∃ o, bt_get (edge_id e) objs = Some o ∧ e' ∈ StoredObject.references o.

(** Everything that the roots reach is stored, with the kind its edge expects. *)
Definition complete (objs : object_map) (roots : list ReferenceEdge) : Prop :=
  ∀ r e, r ∈ roots → rtc (holds objs) r e →
    ∃ o, bt_get (edge_id e) objs = Some o ∧ kind_ok e o.

(** [m'] has at least the entries of [m]. *)
Definition extends {K V} `{Ord K} (m m' : BTreeMap K V) : Prop :=
  ∀ k v, bt_get k m = Some v → bt_get k m' = Some v.

Lemma complete_extends objs objs' roots :
  extends objs objs' → complete objs roots → complete objs' roots.
Proof.
  intros Hext Hc r e Hr. assert (∀ e, rtc (holds objs') r e → rtc (holds objs) r e) as Hback.
  { apply rtc_ind_r; [done|]. intros x y _ (o & Ho & Hy) IH. eapply rtc_r; [exact IH|].
    destruct (Hc r x Hr IH) as (o' & Ho' & _). exists o'. split; [done|].
    apply Hext in Ho'. rewrite Ho in Ho'. by injection Ho' as <-. }
  intros Hp. destruct (Hc r e Hr (Hback e Hp)) as (o & Ho & Hk). exists o. auto.
Qed.

Definition reference_roots (key : ReferenceKey.t) (state : ReferenceState.t) :
    list ReferenceEdge :=
  [mk_edge ReferenceRole.OperationAfter (Some ObjectKind.Operation) (ReferenceState.operation state);
   mk_edge ReferenceRole.OperationAfter (Some (ReferenceKey.expected_kind key))
     (ReferenceState.target state)].

(** A published reference: its generation is a machine integer, its target has the right
    kind and identity, and the history of target and operation is complete. *)
Definition published (objs : object_map) (key : ReferenceKey.t) (state : ReferenceState.t) : Prop :=
  is_u64 (ReferenceState.generation state) = true ∧
  (∃ o, bt_get (ReferenceState.target state) objs = Some o ∧
        StoredObject.kind o = ReferenceKey.expected_kind key ∧
        reference_identity_matches key o = true) ∧
  complete objs (reference_roots key state).

Lemma published_extends objs objs' key state :
  extends objs objs' → published objs key state → published objs' key state.
Proof.
  intros Hext (Hg & (o & Ho & ?) & Hc). split_and!; [done|by eauto|by eapply complete_extends].
Qed.

Section integrity.
Context `{Unicode, Digests}.

(** Objects: what is stored was decoded and verified under its identifier. *)
Record objects_ok (s : MemorySnapshot) : Prop := {
  ok_objects_wf : bt_wf (objects s);
  ok_promised_wf : bt_wf (promised s);
  ok_quarantined_wf : bt_wf (quarantined s);
  ok_verified : ∀ id o, bt_get id (objects s) = Some o → decode id (StoredObject.bytes o) = Ok o;
  ok_promised : ∀ id, set_contains id (promised s) = true → bt_get id (objects s) = None;
  ok_quarantined : ∀ id, set_contains id (quarantined s) = true →
    is_Some (bt_get id (objects s)) ∨ set_contains id (promised s) = true }.

Record integrity (s : MemorySnapshot) : Prop := {
  int_objects : objects_ok s;
  int_references_wf : bt_wf (references s);
  int_published : ∀ key state,
    bt_get key (references s) = Some state → published (objects s) key state;
  int_revision : is_u64 (revision s) = true }.

Lemma decode_id_bytes id bytes o :
  decode id bytes = Ok o → StoredObject.id o = id ∧ StoredObject.bytes o = bytes.
Proof.
  unfold decode, StoredObject.new. intros (a & _ & Ho%map_err_Ok)%bind_Ok.
  apply bind_Ok in Ho as (es & _ & [= <-]). done.
Qed.

Lemma objects_ok_keyed s : objects_ok s → keyed (objects s).
Proof. intros Hs id o Ho%(ok_verified s Hs). by apply decode_id_bytes in Ho as [? _]. Qed.

(** ** One object *)

Lemma set_contains_remove k x (m : BTreeSet oid) :
  bt_wf m → set_contains x (set_remove k m) = negb (bool_decide (x = k)) && set_contains x m.
Proof.
  intros Hm. unfold set_contains, bt_contains, set_remove. case_bool_decide as Hk; cbn.
  - subst. by rewrite bt_get_remove_eq.
  - by rewrite bt_get_remove_ne.
Qed.

Lemma bool_decide_sym {A} `{EqDecision A} (x y : A) : bool_decide (x = y) = bool_decide (y = x).
Proof. by apply bool_decide_ext. Qed.

Lemma bt_insert_extends {V} k v (m : BTreeMap oid V) :
  bt_get k m = None → extends m (bt_insert k v m).
Proof. intros Hk x w Hx. rewrite bt_get_insert. case_decide; [by simplify_eq|done]. Qed.

(** Storing a verified object that was not stored. *)
Definition store_object (id : oid) (o : StoredObject.t) (s : MemorySnapshot) : MemorySnapshot :=
  with_promised (set_remove id (promised s)) (with_objects (bt_insert id o (objects s)) s).

Lemma store_object_ok id bytes o s :
  objects_ok s → decode id bytes = Ok o → objects_ok (store_object id o s).
Proof.
  intros [Ho Hp Hq Hv Hpr Hqu] Hd. destruct (decode_id_bytes _ _ _ Hd) as [_ Hb].
  split; cbn.
  - by apply bt_insert_wf.
  - by apply bt_remove_wf.
  - done.
  - intros x o'. rewrite bt_get_insert. case_decide; [|by apply Hv]. intros [= <-]. subst x.
    by rewrite Hb.
  - intros x. rewrite set_contains_remove by done. intros [Hx Hin]%andb_true_iff.
    apply negb_true_iff, bool_decide_eq_false in Hx. rewrite bt_get_insert_ne by done. auto.
  - intros x Hx. rewrite set_contains_remove, bt_get_insert by done.
    destruct (decide (id = x)) as [->|Hne]; [by left|].
    rewrite bool_decide_false by done. apply (Hqu x Hx).
Qed.

Lemma with_promised_ok id s :
  objects_ok s → is_Some (bt_get id (objects s)) →
  objects_ok (with_promised (set_remove id (promised s)) s).
Proof.
  intros [Ho Hp Hq Hv Hpr Hqu] Hid. split; cbn; [done|by apply bt_remove_wf|done|done|..].
  - intros x. rewrite set_contains_remove by done. intros [_ Hin]%andb_true_iff. auto.
  - intros x Hx. rewrite set_contains_remove by done.
    case_bool_decide; [subst; by left|]. apply (Hqu x Hx).
Qed.

Lemma stage_object_spec s c s' :
  objects_ok s → stage_object s c = Ok s' →
  objects_ok s' ∧ quarantined s' = quarantined s ∧ references s' = references s ∧
  revision s' = revision s ∧ extends (objects s) (objects s') ∧
  (∃ o, decode (PublicationObject.id c) (PublicationObject.bytes c) = Ok o ∧
        ∀ x, bt_get x (objects s') =
          if decide (PublicationObject.id c = x) then Some o else bt_get x (objects s)).
Proof.
  intros Hs (o & Hd & (s1 & H1 & [= <-])%bind_Ok)%bind_Ok.
  destruct (bt_get (PublicationObject.id c) (objects s)) as [o'|] eqn:Hg.
  - apply bail_Ok in H1 as [Hb%negb_false_iff%bool_decide_eq_true [= <-]].
    assert (o' = o) as ->.
    { apply (ok_verified s Hs) in Hg. rewrite Hb in Hg.
      destruct (decode_id_bytes _ _ _ Hd) as [_ Hbo]. rewrite Hbo in Hg. congruence. }
    split_and!; [by apply with_promised_ok|done..|by intros ??|]. exists o. split; [done|]. intros x. cbn.
    case_decide; [by subst|done].
  - injection H1 as <-. split_and!; [exact (store_object_ok _ _ o s Hs Hd)|done..|by apply bt_insert_extends|].
    exists o. split; [done|]. intros x. cbn. rewrite bt_get_insert.
    by repeat case_decide.
Qed.

(** Staging the objects of a publication adds exactly those objects. *)
Lemma stage_objects_spec l s s' :
  objects_ok s → try_fold stage_object l s = Ok s' →
  objects_ok s' ∧ quarantined s' = quarantined s ∧ references s' = references s ∧
  revision s' = revision s ∧
  ∀ id o, bt_get id (objects s') = Some o ↔ bt_get id (objects s) = Some o ∨
    ∃ c, c ∈ l ∧ PublicationObject.id c = id ∧ decode id (PublicationObject.bytes c) = Ok o.
Proof.
  intros Hs. apply (try_fold_inv _ (λ l s', objects_ok s' ∧ quarantined s' = quarantined s ∧
    references s' = references s ∧ revision s' = revision s ∧
    ∀ id o, bt_get id (objects s') = Some o ↔ bt_get id (objects s) = Some o ∨
      ∃ c, c ∈ l ∧ PublicationObject.id c = id ∧ decode id (PublicationObject.bytes c) = Ok o)).
  - intros pre c st st' (Hst & Hq & Hr & Hrev & Hg) _ Hc.
    destruct (stage_object_spec st c st' Hst Hc) as (Hok & Hq' & Hr' & Hrev' & Hext & o & Hd & Hget).
    split_and!; [done|congruence..|]. intros id o'.
    setoid_rewrite elem_of_app. setoid_rewrite list_elem_of_singleton.
    assert (bt_get id (objects st') = Some o' ↔ bt_get id (objects st) = Some o' ∨
      PublicationObject.id c = id ∧ decode id (PublicationObject.bytes c) = Ok o') as Hstep.
    { split.
      - rewrite Hget. case_decide as Heq; [|by left]. subst id. intros [= <-]. by right.
      - intros [Ho'|[<- Ho']]; [by apply Hext|]. rewrite Hget, decide_True by done. congruence. }
    rewrite Hstep, Hg. naive_solver.
  - split_and!; [done..|]. intros id o. split; [by left|]. intros [?|(c & Hc & _)]; [done|].
    by apply not_elem_of_nil in Hc.
Qed.

(** ** The updates *)

(** The expectation of an update holds of what the reference is. *)
Definition expectation_met (actual : option ReferenceState.t) (expected : ExpectedRef.t) : Prop :=
  match expected with
  | ExpectedRef.Absent => actual = None
  | ExpectedRef.Exact state => actual = Some state
  end.

Lemma check_expected_Ok s u :
  check_expected s u = Ok tt ↔
  expectation_met (bt_get (RefUpdate.key u) (references s)) (RefUpdate.expected u).
Proof.
  unfold check_expected, expectation_met.
  destruct (RefUpdate.expected u); case_bool_decide; naive_solver.
Qed.

Definition update_ok (s staged : MemorySnapshot) (u : RefUpdate.t) : Prop :=
  expectation_met (bt_get (RefUpdate.key u) (references s)) (RefUpdate.expected u) ∧
  ∃ o, visible_object staged (RefUpdate.target u) = Ok o ∧
       StoredObject.kind o = ReferenceKey.expected_kind (RefUpdate.key u) ∧
       reference_identity_matches (RefUpdate.key u) o = true.

Lemma check_updates_spec s staged us keys :
  try_fold (check_update s staged) us [] = Ok keys →
  NoDup (map RefUpdate.key us) ∧ Forall (update_ok s staged) us.
Proof.
  intros Hf. enough (NoDup (map RefUpdate.key us) ∧ Forall (update_ok s staged) us ∧
    ∀ k, k ∈ set_elems keys ↔ k ∈ map RefUpdate.key us) by naive_solver.
  revert Hf. apply (try_fold_inv _ (λ us keys, NoDup (map RefUpdate.key us) ∧
    Forall (update_ok s staged) us ∧ ∀ k, k ∈ set_elems keys ↔ k ∈ map RefUpdate.key us)).
  - intros pre u st st' (Hnd & Hall & Hk) _ [Hnew%set_contains_false Hu]%bail_Ok.
    apply bind_Ok in Hu as ([] & He%check_expected_Ok & Hu).
    apply bind_Ok in Hu as (o & Ho & [Hkind [Hid [= <-]]%bail_Ok]%bail_Ok).
    apply negb_false_iff in Hkind, Hid. apply bool_decide_eq_true in Hkind.
    rewrite Hk in Hnew. split_and!.
    + rewrite map_app. by apply NoDup_snoc.
    + apply Forall_app. split; [done|]. apply Forall_singleton. split; [done|]. eauto.
    + intros k. rewrite set_insert_elems, elem_of_map_snoc, Hk. done.
  - split_and!; [constructor..|done].
Qed.

(** The state a successful update gives its reference. *)
Definition next_of (s : MemorySnapshot) (publication : Publication.t) (u : RefUpdate.t) :
    ReferenceState.t :=
  ReferenceState.mk (RefUpdate.target u)
    (match bt_get (RefUpdate.key u) (references s) with
     | None => 0
     | Some old => ReferenceState.generation old + 1
     end) (Publication.operation publication).

Lemma next_state_Ok s pub u st :
  next_state s pub u = Ok st →
  st = next_of s pub u ∧ ReferenceState.generation st ≤ u64_max.
Proof.
  unfold next_state, next_of. intros (g & Hg & [= <-])%bind_Ok. cbn.
  destruct (bt_get (RefUpdate.key u) (references s)) as [old|]; [|by injection Hg as <-].
  by apply ok_or_Ok, checked_add_Some in Hg as [-> ?].
Qed.

Lemma insert_references_spec s pub us st st' :
  NoDup (map RefUpdate.key us) → try_fold (insert_reference s pub) us st = Ok st' →
  st' = with_references (references st') st ∧
  (∀ u, u ∈ us → bt_get (RefUpdate.key u) (references st') = Some (next_of s pub u) ∧
     ReferenceState.generation (next_of s pub u) ≤ u64_max) ∧
  (∀ k, k ∉ map RefUpdate.key us → bt_get k (references st') = bt_get k (references st)) ∧
  (bt_wf (references st) → bt_wf (references st')).
Proof.
  revert st. induction us as [|u us IH]; intros st Hnd; cbn [try_fold].
  { intros [= <-]. split_and!; [by destruct st| |done|done]. intros u Hu. by apply not_elem_of_nil in Hu. }
  cbn in Hnd. apply NoDup_cons in Hnd as [Hu Hnd].
  intros (st1 & (n & (-> & Hmax)%next_state_Ok & [= <-])%bind_Ok & Hf)%bind_Ok.
  destruct (IH _ Hnd Hf) as (Heq & Hin & Hout & Hwf). cbn in *. split_and!.
  - rewrite Heq. by destruct st.
  - intros u' [->|Hu']%elem_of_cons; [|by apply Hin]. rewrite Hout by done.
    by rewrite bt_get_insert_eq.
  - intros k [Hk Hk']%not_elem_of_cons. rewrite Hout by done. by rewrite bt_get_insert_ne.
  - intros Hst. by apply Hwf, bt_insert_wf.
Qed.

(** ** Staging *)

Lemma complete_of_reaches s roots :
  (∀ e, reaches s roots e → resolves s e) → complete (objects s) roots.
Proof.
  intros Hall r e Hr. revert e. assert (∀ e, rtc (holds (objects s)) r e → rtc (edge_step s) r e) as Hp.
  { apply rtc_ind_r; [done|]. intros x y _ (o & Ho & Hy) IH. eapply rtc_r; [exact IH|].
    destruct (Hall x) as (o' & Hv & _); [by exists r|]. exists o'. split; [done|].
    apply visible_Ok in Hv as [_ Hv]. rewrite Ho in Hv. by injection Hv as <-. }
  intros e He. destruct (Hall e) as (o & [_ Ho]%visible_Ok & Hk); [exists r; auto|]. eauto.
Qed.

(** What a successful [stage] has checked and built. *)
Record staged_from (pub : Publication.t) (s st : MemorySnapshot) : Prop := {
  sf_objects : objects_ok st;
  sf_added : ∀ id o, bt_get id (objects st) = Some o ↔ bt_get id (objects s) = Some o ∨
    ∃ c, c ∈ Publication.objects pub ∧ PublicationObject.id c = id ∧
         decode id (PublicationObject.bytes c) = Ok o;
  sf_quarantined : quarantined st = quarantined s;
  sf_revision : revision st = revision s;
  sf_keys : NoDup (map RefUpdate.key (Publication.updates pub));
  sf_updates : Forall (update_ok s st) (Publication.updates pub);
  sf_operation : ∃ o, visible_object st (Publication.operation pub) = Ok o ∧
    StoredObject.kind o = ObjectKind.Operation ∧ validate_operation pub o st = Ok tt;
  sf_complete : complete (objects st) (publication_roots pub);
  sf_references : ∀ u, u ∈ Publication.updates pub →
    bt_get (RefUpdate.key u) (references st) = Some (next_of s pub u) ∧
    ReferenceState.generation (next_of s pub u) ≤ u64_max;
  sf_others : ∀ k, k ∉ map RefUpdate.key (Publication.updates pub) →
    bt_get k (references st) = bt_get k (references s);
  sf_references_wf : bt_wf (references s) → bt_wf (references st) }.

(** Replacing the references leaves what is visible alone. *)
Lemma visible_with_references refs s id :
  visible_object (with_references refs s) id = visible_object s id.
Proof. done. Qed.

Lemma authorize_with_references pub o actions refs s consumed u :
  authorize pub o actions (with_references refs s) consumed u = authorize pub o actions s consumed u.
Proof. done. Qed.

Lemma objects_ok_with_references refs s : objects_ok s → objects_ok (with_references refs s).
Proof. by intros []. Qed.

Lemma stage_Ok pub s st : objects_ok s → stage pub s = Ok st → staged_from pub s st.
Proof.
  intros Hs (s1 & H1%raise_Ok & Hst)%bind_Ok.
  destruct (stage_objects_spec _ _ _ Hs H1) as (Hok & Hq & Hr & Hrev & Hadd).
  apply bind_Ok in Hst as (op & Hop%raise_Ok & [Hkind Hst]%bail_Ok).
  apply negb_false_iff, bool_decide_eq_true in Hkind.
  apply bind_Ok in Hst as (keys & Hkeys%raise_Ok & Hst).
  apply bind_Ok in Hst as ([] & Hval%raise_Ok & Hst).
  apply bind_Ok in Hst as (c & Hc & Hst).
  apply bind_Ok in Hst as ([] & _ & Hst%raise_Ok).
  destruct (check_updates_spec _ _ _ _ Hkeys) as [Hnd Hall].
  destruct (insert_references_spec _ _ _ _ _ Hnd Hst) as (Heq & Hin & Hout & Hwf).
  pose proof (closure_from_spec s1 (publication_roots pub) (ok_objects_wf _ Hok)) as Hcl.
  rewrite Hc in Hcl. destruct Hcl as (_ & Hres & _).
  rewrite Hr in Hwf. setoid_rewrite Hr in Hout.
  rewrite Heq. split; cbn; try done.
  - by apply objects_ok_with_references.
  - by exists op.
  - by apply complete_of_reaches.
Qed.

Lemma staged_extends pub s st : staged_from pub s st → extends (objects s) (objects st).
Proof. intros Hst id o Ho. apply (sf_added _ _ _ Hst). by left. Qed.

Lemma staged_published pub s st key state :
  integrity s → staged_from pub s st → bt_get key (references st) = Some state →
  published (objects st) key state.
Proof.
  intros Hs Hst Hk. destruct (decide (key ∈ map RefUpdate.key (Publication.updates pub)))
    as [(u & -> & Hu)%list_elem_of_fmap|Hnot].
  - destruct (sf_references _ _ _ Hst u Hu) as [Hg Hmax]. rewrite Hg in Hk. injection Hk as <-.
    pose proof (sf_updates _ _ _ Hst) as Hall. rewrite Forall_forall in Hall.
    destruct (Hall u Hu) as (_ & o & [_ Ho]%visible_Ok & Hkind & Hid). split_and!.
    + unfold is_u64. apply andb_true_iff. split; [|by apply Z.leb_le]. apply Z.leb_le. cbn.
      destruct (bt_get (RefUpdate.key u) (references s)) as [old|] eqn:Hold; [|done].
      apply (int_published s Hs) in Hold as (Hu64 & _). unfold is_u64 in Hu64. lia.
    + by exists o.
    + intros r e Hr. apply (sf_complete _ _ _ Hst). unfold publication_roots.
      apply elem_of_cons in Hr as [->|Hr%list_elem_of_singleton]; [left|subst r; right].
      apply list_elem_of_fmap. by exists u.
  - rewrite (sf_others _ _ _ Hst key Hnot) in Hk.
    eapply published_extends; [by eapply staged_extends|]. by apply (int_published s Hs).
Qed.

Lemma staged_integrity pub s st n :
  integrity s → staged_from pub s st → is_u64 n = true → integrity (with_revision n st).
Proof.
  intros Hs Hst Hn. split; cbn; [..|done].
  - by destruct (sf_objects _ _ _ Hst).
  - apply (sf_references_wf _ _ _ Hst), Hs.
  - intros key state. by apply (staged_published pub s).
Qed.
End integrity.
