(* ===== verification/StoreSteps.v ===== *)
(** * The in-memory store as a transition system

    The sequential system, in which every call is atomic, and the concurrent one, in which
    a publication holds the lock only while it stages and while it commits. *)

From stdpp Require Import relations.
From S2P Require Import Prelude Machine Order Utf8 Canonical ObjectId Types Objects Fields Decode References Explore Reachability ReachabilityFacts GraphSpec Traverse StoreModel MemoryStore MemoryFacts StoreInv.

Section steps.
Context `{Unicode, Digests}.

(** ** The calls as case distinctions *)

(** Run [f] with the next revision, or fail when the counter is exhausted. *)
Definition with_next_revision {A} (s : MemorySnapshot) (f : Z → MemorySnapshot * result ferr A) :
    MemorySnapshot * result ferr A :=
  match checked_add (revision s) 1 with
  | Some n => f n
  | None => (s, Err (Raise StoreError.RevisionOverflow))
  end.

Lemma put_cases id bytes s :
  put id bytes s =
  match decode id bytes with
  | Err e => (s, Err (Raise e))
  | Ok o =>
      match bt_get id (objects s) with
      | Some existing =>
          if bool_decide (StoredObject.bytes existing = StoredObject.bytes o)
          then (s, Ok PutOutcome.AlreadyPresent)
          else (s, Err (Raise (StoreError.InvalidObject DecodeObjectError.Digest)))
      | None =>
          with_next_revision s (λ n, (with_revision n (store_object id o s), Ok PutOutcome.New))
      end
  end.
Proof.
  unfold put, bind, attempt, state_ref, raise. destruct (decode id bytes) as [o|]; cbn; [|done].
  destruct (bt_get id (objects s)); cbn; [by case_bool_decide|].
  unfold with_next_revision, next_revision, bind, attempt, state_ref, raise, update. cbn.
  by destruct (checked_add (revision s) 1).
Qed.

Lemma mark_promised_cases id s :
  mark_promised id s =
  if negb (bt_contains id (objects s)) && negb (set_contains id (promised s))
  then with_next_revision s (λ n,
         (with_revision n (with_promised (set_insert id (promised s)) s), Ok tt))
  else (s, Ok tt).
Proof.
  unfold mark_promised, with_next_revision, next_revision, bind, attempt, state_ref, raise, update.
  cbn. destruct (negb _ && negb _); [|done]. by destruct (checked_add (revision s) 1).
Qed.

Lemma quarantine_cases id s :
  quarantine id s =
  if negb (bt_contains id (objects s)) && negb (set_contains id (promised s))
  then (s, Err (Raise StoreError.NotPresent))
  else if negb (set_contains id (quarantined s))
  then with_next_revision s (λ n,
         (with_revision n (with_quarantined (set_insert id (quarantined s)) s), Ok tt))
  else (s, Ok tt).
Proof.
  unfold quarantine, with_next_revision, next_revision, bind, attempt, state_ref, raise, update.
  cbn. destruct (negb _ && negb _); [done|]. destruct (negb _); [|done].
  by destruct (checked_add (revision s) 1).
Qed.

Lemma publish_stage_cases pub s :
  publish_stage pub s =
  with_next_revision s (λ n,
    match stage pub s with
    | Ok st => (s, Ok (mk_staged st (revision s) n))
    | Err e => (s, Err e)
    end).
Proof.
  unfold publish_stage, with_next_revision, next_revision, bind, attempt, state_ref, raise. cbn.
  by destruct (checked_add (revision s) 1); cbn; [destruct (stage pub s)|].
Qed.

Lemma publish_commit_cases st results s :
  publish_commit st results s =
  if revision s =? base_revision st
  then (with_revision (target_revision st) (staged_state st), Ok results)
  else (s, Err (Raise StoreError.ReferenceConflict)).
Proof. unfold publish_commit, bind, state_ref, update. cbn. by destruct (_ =? _). Qed.

Lemma publish_cases pub validator s :
  publish pub validator s =
  with_next_revision s (λ n,
    match stage pub s with
    | Err e => (s, Err e)
    | Ok st =>
        match publish_validate pub validator (mk_staged st (revision s) n) with
        | Err e => (s, Err (Raise e))
        | Ok results => (with_revision n st, Ok results)
        end
    end).
Proof.
  unfold publish, bind, attempt. rewrite publish_stage_cases. unfold with_next_revision.
  destruct (checked_add (revision s) 1) as [n|]; [|done]. destruct (stage pub s) as [st|]; [|done].
  destruct (publish_validate _ _ _) as [results|]; cbn [raise map_err]; [|done].
  rewrite publish_commit_cases. cbn. by rewrite Z.eqb_refl.
Qed.

(** The update that [compare_and_swap] publishes. *)
Definition single_update (key : ReferenceKey.t) (expected : ExpectedRef.t) (target operation : oid) :
    Publication.t :=
  Publication.mk [] [RefUpdate.mk key expected target] operation.

Lemma compare_and_swap_state key expected target operation validator s :
  (compare_and_swap key expected target operation validator s).1 =
  (publish (single_update key expected target operation) validator s).1.
Proof.
  unfold compare_and_swap, bind, attempt, single_update. by destruct (publish _ _ s) as [? []].
Qed.

(** ** Sequential calls *)

(** The calls that can write; the others return the state they are given. *)
Inductive call :=
  | Put (id : oid) (bytes : list Z)
  | MarkPromised (id : oid)
  | Quarantine (id : oid)
  | Publish (publication : Publication.t) (validator : PublicationValidator)
  | CompareAndSwap (key : ReferenceKey.t) (expected : ExpectedRef.t) (target operation : oid)
      (validator : PublicationValidator).

(** The state after a call, whether it succeeds or fails. *)
Definition after (c : call) (s : MemorySnapshot) : MemorySnapshot :=
  match c with
  | Put id bytes => (put id bytes s).1
  | MarkPromised id => (mark_promised id s).1
  | Quarantine id => (quarantine id s).1
  | Publish publication validator => (publish publication validator s).1
  | CompareAndSwap key expected target operation validator =>
      (compare_and_swap key expected target operation validator s).1
  end.

Definition step (s s' : MemorySnapshot) : Prop := ∃ c, s' = after c s.

(** Every call keeps the state or advances the revision by one. *)
Definition advances (s s' : MemorySnapshot) : Prop := s' = s ∨ revision s' = revision s + 1.

Lemma with_next_revision_advances {A} s (f : Z → MemorySnapshot * result ferr A) :
  (∀ n, (f n).1 = s ∨ revision (f n).1 = n) → advances s (with_next_revision s f).1.
Proof.
  intros Hf. unfold with_next_revision. destruct (checked_add (revision s) 1) as [n|] eqn:Hn;
    [|by left]. apply checked_add_Some in Hn as [-> _]. destruct (Hf (revision s + 1)) as [->|Hr];
    [by left|by right].
Qed.

Lemma publish_advances pub validator s : advances s (publish pub validator s).1.
Proof.
  rewrite publish_cases. apply with_next_revision_advances. intros n.
  destruct (stage pub s); [|by left]. destruct (publish_validate _ _ _); [by right|by left].
Qed.

Lemma after_advances c s : advances s (after c s).
Proof.
  destruct c as [id bytes|id|id|pub validator|key expected target operation validator]; cbn [after].
  - rewrite put_cases. destruct (decode id bytes); [|by left].
    destruct (bt_get id (objects s)); [case_bool_decide; by left|].
    apply with_next_revision_advances. by right.
  - rewrite mark_promised_cases. destruct (negb _ && negb _); [|by left].
    apply with_next_revision_advances. by right.
  - rewrite quarantine_cases. destruct (negb _ && negb _); [by left|].
    destruct (negb _); [|by left]. apply with_next_revision_advances. by right.
  - apply publish_advances.
  - rewrite compare_and_swap_state. apply publish_advances.
Qed.

(** ** Integrity is preserved *)

Lemma with_next_revision_integrity {A} s (f : Z → MemorySnapshot * result ferr A) :
  integrity s → (∀ n, is_u64 n = true → integrity (f n).1) → integrity (with_next_revision s f).1.
Proof.
  intros Hs Hf. unfold with_next_revision. destruct (checked_add (revision s) 1) as [n|] eqn:Hn;
    [|done]. apply Hf. apply checked_add_Some in Hn as [-> Hn].
  pose proof (int_revision s Hs) as Hr. unfold is_u64 in *. lia.
Qed.

(** A write that touches objects only, and only adds to them. *)
Lemma objects_write_integrity s s' n :
  integrity s → objects_ok s' → references s' = references s →
  extends (objects s) (objects s') → is_u64 n = true → integrity (with_revision n s').
Proof.
  intros Hs Hok Hr Hext Hn. split; cbn; [by destruct Hok| |..|done].
  - rewrite Hr. apply Hs.
  - intros key state. rewrite Hr. intros Hk%(int_published s Hs). by eapply published_extends.
Qed.

Lemma mark_promised_ok id s :
  objects_ok s → bt_get id (objects s) = None →
  objects_ok (with_promised (set_insert id (promised s)) s).
Proof.
  intros [Ho Hp Hq Hv Hpr Hqu] Hid. split; cbn; [done|by apply set_insert_wf|done|done|..].
  - intros x. rewrite set_contains_insert. intros [Hx%bool_decide_eq_true|Hx]%orb_true_iff;
      [by subst|auto].
  - intros x Hx. rewrite set_contains_insert, orb_true_iff. destruct (Hqu x Hx); auto.
Qed.

Lemma quarantine_ok id s :
  objects_ok s → is_Some (bt_get id (objects s)) ∨ set_contains id (promised s) = true →
  objects_ok (with_quarantined (set_insert id (quarantined s)) s).
Proof.
  intros [Ho Hp Hq Hv Hpr Hqu] Hid. split; cbn; [done|done|by apply set_insert_wf|done|done|].
  intros x. rewrite set_contains_insert. intros [Hx%bool_decide_eq_true|Hx]%orb_true_iff;
    [by subst|auto].
Qed.

Lemma publish_integrity pub validator s : integrity s → integrity (publish pub validator s).1.
Proof.
  intros Hs. rewrite publish_cases. apply with_next_revision_integrity; [done|]. intros n Hn.
  destruct (stage pub s) as [st|] eqn:Hst; [|done].
  destruct (publish_validate _ _ _); [|done]. cbn.
  apply (staged_integrity pub s); [done| |done]. apply stage_Ok; [apply Hs|done].
Qed.

Lemma after_integrity c s : integrity s → integrity (after c s).
Proof.
  intros Hs. pose proof (int_objects s Hs) as Hok.
  destruct c as [id bytes|id|id|pub validator|key expected target operation validator]; cbn [after].
  - rewrite put_cases. destruct (decode id bytes) as [o|] eqn:Hd; [|done].
    destruct (bt_get id (objects s)) eqn:Hg; [by case_bool_decide|].
    apply with_next_revision_integrity; [done|]. intros n Hn.
    apply (objects_write_integrity s); [done| |done| |done].
    + by eapply store_object_ok.
    + by apply bt_insert_extends.
  - rewrite mark_promised_cases. destruct (negb _ && negb _) eqn:Hb; [|done].
    apply andb_true_iff in Hb as [Hb _]. unfold bt_contains in Hb.
    destruct (bt_get id (objects s)) eqn:Hg; [done|].
    apply with_next_revision_integrity; [done|]. intros n Hn.
    apply (objects_write_integrity s); [done|by apply mark_promised_ok|done|by intros ??|done].
  - rewrite quarantine_cases. destruct (negb _ && negb _) eqn:Hb; [done|].
    destruct (negb (set_contains id (quarantined s))); [|done].
    apply with_next_revision_integrity; [done|]. intros n Hn.
    apply (objects_write_integrity s); [done| |done|by intros ??|done].
    apply quarantine_ok; [done|]. unfold bt_contains in Hb.
    destruct (bt_get id (objects s)); [by left|]. cbn in Hb. right. by apply negb_false_iff.
  - by apply publish_integrity.
  - rewrite compare_and_swap_state. by apply publish_integrity.
Qed.

Lemma new_integrity : integrity new.
Proof. split; cbn; [split; cbn; try done; constructor|constructor|done|done]. Qed.

Lemma steps_integrity s s' : integrity s → rtc step s s' → integrity s'.
Proof. intros Hs. induction 1 as [|x y z [c ->] _ IH]; [done|]. apply IH. by apply after_integrity. Qed.

(** ** Concurrent calls *)

(** The store and the publications between their two critical sections. *)
Record System := mk_system {
  store : MemorySnapshot;
  inflight : list (Publication.t * Staged) }.

Definition is_publish (c : call) : bool :=
  match c with Publish _ _ | CompareAndSwap _ _ _ _ _ => true | _ => false end.

(** One critical section of one thread. *)
Inductive cstep : System → System → Prop :=
  | cstep_call c s fl : is_publish c = false →
      cstep (mk_system s fl) (mk_system (after c s) fl)
  | cstep_stage pub s s' st fl : publish_stage pub s = (s', Ok st) →
      cstep (mk_system s fl) (mk_system s' ((pub, st) :: fl))
  | cstep_stage_fails pub s s' e fl : publish_stage pub s = (s', Err e) →
      cstep (mk_system s fl) (mk_system s' fl)
  | cstep_rejected pub st validator e s fl1 fl2 : publish_validate pub validator st = Err e →
      cstep (mk_system s (fl1 ++ (pub, st) :: fl2)) (mk_system s (fl1 ++ fl2))
  | cstep_commit pub st validator results s s' r fl1 fl2 :
      publish_validate pub validator st = Ok results → publish_commit st results s = (s', r) →
      cstep (mk_system s (fl1 ++ (pub, st) :: fl2)) (mk_system s' (fl1 ++ fl2)).

(** A staged publication is not ahead of the store, and if the store has not moved since,
    staging again would give the same. *)
Definition current (s : MemorySnapshot) (p : Publication.t * Staged) : Prop :=
  base_revision p.2 ≤ revision s ∧
  (base_revision p.2 = revision s → publish_stage p.1 s = (s, Ok p.2)).

Definition coherent (sys : System) : Prop := Forall (current (store sys)) (inflight sys).

Lemma current_advances s s' p : advances s s' → current s p → current s' p.
Proof.
  intros [->|Hr] [Hle Heq]; [by split|]. split; [lia|]. intros He. lia.
Qed.

Lemma publish_stage_state pub s s' r : publish_stage pub s = (s', r) → s' = s.
Proof.
  rewrite publish_stage_cases. unfold with_next_revision.
  destruct (checked_add _ _); [destruct (stage pub s)|]; by intros [= <- _].
Qed.

Lemma publish_stage_base pub s s' st :
  publish_stage pub s = (s', Ok st) → base_revision st = revision s.
Proof.
  rewrite publish_stage_cases. unfold with_next_revision.
  destruct (checked_add _ _); [destruct (stage pub s)|]; by intros [= _ <-].
Qed.

(** A commit is rejected, or is what the whole call would do if run now. *)
Lemma commit_atomic s pub st validator results s' r :
  current s (pub, st) → publish_validate pub validator st = Ok results →
  publish_commit st results s = (s', r) →
  (s' = s ∧ r = Err (Raise StoreError.ReferenceConflict) ∧ base_revision st < revision s) ∨
  publish pub validator s = (s', r).
Proof.
  intros [Hle Heq] Hval. rewrite publish_commit_cases. destruct (Z.eqb_spec (revision s) (base_revision st))
    as [Hb|Hb]; intros [= <- <-]; [right|left; split_and!; [done|done|cbn in *; lia]].
  specialize (Heq (eq_sym Hb)). cbn [fst snd] in Heq. unfold publish, bind, attempt. rewrite Heq, Hval. cbn [raise map_err].
  rewrite publish_commit_cases. by rewrite (proj2 (Z.eqb_eq _ _) Hb).
Qed.

Lemma coherent_drop s fl1 p fl2 :
  Forall (current s) (fl1 ++ p :: fl2) → current s p ∧ Forall (current s) (fl1 ++ fl2).
Proof. rewrite !Forall_app, Forall_cons. naive_solver. Qed.

Lemma commit_step s pub st validator results s' r :
  current s (pub, st) → publish_validate pub validator st = Ok results →
  publish_commit st results s = (s', r) → s' = s ∨ step s s'.
Proof.
  intros Hcur Hval Hc. destruct (commit_atomic _ _ _ _ _ _ _ Hcur Hval Hc) as [(-> & _)|Hp];
    [by left|right]. exists (Publish pub validator). cbn. by rewrite Hp.
Qed.

Lemma step_advances s s' : s' = s ∨ step s s' → advances s s'.
Proof. intros [->|[c ->]]; [by left|apply after_advances]. Qed.

(** One concurrent step is no step or one sequential call, and keeps the bookkeeping. *)
Lemma cstep_simulation sys sys' :
  coherent sys → cstep sys sys' →
  coherent sys' ∧ (store sys' = store sys ∨ step (store sys) (store sys')).
Proof.
  unfold coherent. intros Hall0. destruct 1 as [c s fl Hc|pub s s' st fl Hst|pub s s' e fl Hst
    |pub st validator e s fl1 fl2 Hv|pub st validator results s s' r fl1 fl2 Hv Hc]; cbn in *.
  - split; [|right; by exists c]. eapply Forall_impl; [done|]. intros p.
    apply current_advances, after_advances.
  - apply publish_stage_state in Hst as Heq. subst s'. split; [|by left]. constructor; [|done].
    split; cbn; [|done]. by rewrite (publish_stage_base _ _ _ _ Hst).
  - apply publish_stage_state in Hst as ->. split; [done|by left].
  - split; [|by left]. by apply coherent_drop in Hall0 as [_ ?].
  - apply coherent_drop in Hall0 as [Hcur Hall].
    pose proof (commit_step _ _ _ _ _ _ _ Hcur Hv Hc) as Hs. split; [|exact Hs].
    eapply Forall_impl; [exact Hall|]. intros p. by apply current_advances, step_advances.
Qed.

Lemma csteps_simulation sys sys' :
  coherent sys → rtc cstep sys sys' → coherent sys' ∧ rtc step (store sys) (store sys').
Proof.
  intros Hc. induction 1 as [|x y z Hxy _ IH]; [done|].
  destruct (cstep_simulation _ _ Hc Hxy) as [Hy [Heq|Hs]]; destruct (IH Hy) as [Hz Hr];
    split; [done|by rewrite <-Heq|done|by eapply rtc_l].
Qed.

Definition start_system : System := mk_system new [].
End steps.
