(* ===== verification/StoreAuth.v ===== *)
(** * The in-memory store: authorisation

    What [validate_operation] establishes: the actions that an operation declares are paired
    one to one with the references a publication moves. *)

From stdpp Require Import relations.
From S2P Require Import Prelude Machine Order Utf8 Canonical ObjectId Types Objects Fields Decode References Explore Reachability Traverse StoreModel MemoryStore MemoryFacts.

(** The declared action covers the update. *)
Definition authorises (s : MemorySnapshot) (action : Value) (u : RefUpdate.t) : Prop :=
  match RefUpdate.key u with
  | ReferenceKey.OperationHead => False
  | ReferenceKey.Line _ =>
      ∃ o m, visible_object s (RefUpdate.target u) = Ok o ∧
        value_map (StoredObject.value o) = Some m ∧ line_action_matches action m = true
  | _ => transition_matches action u = true
  end.

Definition is_head (u : RefUpdate.t) : bool :=
  match RefUpdate.key u with ReferenceKey.OperationHead => true | _ => false end.

(** The actions declared by an operation object. *)
Definition declared_actions (operation : StoredObject.t) : option (list Value) :=
  m ← value_map (StoredObject.value operation);
  v ← value_field m 8;
  value_array v.

Lemma find_action_spec f consumed base actions i :
  find_action f consumed base actions = Some i →
  set_contains i consumed = false ∧ base ≤ i ∧
  ∃ a, actions !! Z.to_nat (i - base) = Some a ∧ f a = true.
Proof.
  revert base. induction actions as [|a actions IH]; intros base; cbn; [done|].
  destruct (negb (set_contains base consumed) && f a) eqn:Hb.
  - intros [= <-]. apply andb_true_iff in Hb as [Hc%negb_true_iff Hf].
    split_and!; [done|lia|]. exists a. by rewrite Z.sub_diag.
  - intros (Hc & Hle & b & Hb' & Hf)%IH. split_and!; [done|lia|]. exists b.
    replace (Z.to_nat (i - base)) with (S (Z.to_nat (i - (base + 1)))) by lia. done.
Qed.

(** The actions consumed so far are those of [indices], one for each update in [us]. *)
Definition consumed_by (s : MemorySnapshot) (actions : list Value) (us : list RefUpdate.t)
    (consumed : BTreeSet Z) : Prop :=
  bt_wf consumed ∧ ∃ indices : list Z,
    NoDup indices ∧ (∀ i, i ∈ set_elems consumed ↔ i ∈ indices) ∧
    Forall2 (λ i u, 0 ≤ i ∧ ∃ a, actions !! Z.to_nat i = Some a ∧ authorises s a u)
      indices (List.filter (λ u, negb (is_head u)) us).

Lemma consume_spec s actions us consumed consumed' f u :
  consumed_by s actions us consumed → is_head u = false →
  (∀ a, f a = true → authorises s a u) → consume f actions consumed = Ok consumed' →
  consumed_by s actions (us ++ [u]) consumed'.
Proof.
  intros (Hwf & ixs & Hnd & Helem & Hall) Hu Hf (i & Hi%ok_or_Ok & [= <-])%bind_Ok.
  destruct (find_action_spec _ _ _ _ _ Hi) as (Hnew & Hpos & a & Ha & Hfa).
  rewrite Z.sub_0_r in Ha. split; [by apply set_insert_wf|]. exists (ixs ++ [i]).
  apply set_contains_false in Hnew. rewrite Helem in Hnew. split_and!.
  - by apply NoDup_snoc.
  - intros j. rewrite set_insert_elems, elem_of_app, list_elem_of_singleton, Helem. tauto.
  - rewrite List.filter_app. cbn. rewrite Hu. cbn. apply Forall2_app; [done|].
    constructor; [|constructor]. split; [done|]. eauto.
Qed.

Lemma authorize_spec pub o actions s us consumed consumed' u :
  consumed_by s actions us consumed → authorize pub o actions s consumed u = Ok consumed' →
  consumed_by s actions (us ++ [u]) consumed'.
Proof.
  intros Hc. unfold authorize.
  destruct (RefUpdate.key u) as [line_id|id| |id|id] eqn:Hkey.
  - intros (lo & Hlo & (m & Hm%ok_or_Ok & Hu)%bind_Ok)%bind_Ok.
    apply bind_Ok in Hu as (v & _ & [_ [_ Hu]%bail_Ok]%bail_Ok).
    apply bind_Ok in Hu as ([] & _ & Hu). revert Hu. apply consume_spec; [done| |].
    + unfold is_head. by rewrite Hkey.
    + intros a Ha. unfold authorises. rewrite Hkey. eauto.
  - apply consume_spec; [done|unfold is_head; by rewrite Hkey|]. intros a Ha.
    unfold authorises. by rewrite Hkey.
  - intros [_ Hu]%bail_Ok. assert (consumed' = consumed) as ->.
    { destruct (RefUpdate.expected u); by apply bail_Ok in Hu as [_ [= <-]]. }
    destruct Hc as (Hwf & ixs & Hnd & Helem & Hall). split; [done|]. exists ixs. split_and!; [done..|].
    rewrite List.filter_app. cbn. unfold is_head at 2. rewrite Hkey. cbn. by rewrite app_nil_r.
  - apply consume_spec; [done|unfold is_head; by rewrite Hkey|]. intros a Ha.
    unfold authorises. by rewrite Hkey.
  - apply consume_spec; [done|unfold is_head; by rewrite Hkey|]. intros a Ha.
    unfold authorises. by rewrite Hkey.
Qed.

(** Looking up a permutation of all positions permutes the list. *)
Lemma omap_lookup_seq {A} (l : list A) : omap (λ i, l !! i) (seq 0 (length l)) = l.
Proof.
  assert (∀ pre, omap (λ i, (pre ++ l) !! i) (seq (length pre) (length l)) = l) as Hgen;
    [|exact (Hgen [])].
  induction l as [|x l IH]; intros pre; [done|]. cbn [length seq omap list_omap].
  rewrite list_lookup_middle by done. f_equal.
  specialize (IH (pre ++ [x])). rewrite <-app_assoc, length_app in IH. cbn in IH.
  by rewrite Nat.add_comm in IH.
Qed.

Lemma positions_permutation {A} (l : list A) (ixs : list nat) :
  NoDup ixs → length ixs = length l → (∀ i, i ∈ ixs → (i < length l)%nat) →
  omap (λ i, l !! i) ixs ≡ₚ l.
Proof.
  intros Hnd Hlen Hlt. assert (ixs ≡ₚ seq 0 (length l)) as Hp.
  { apply submseteq_length_Permutation; [|by rewrite length_seq, Hlen].
    apply NoDup_submseteq; [done|]. intros i Hi. apply elem_of_seq. specialize (Hlt i Hi). lia. }
  transitivity (omap (λ i, l !! i) (seq 0 (length l))); [by rewrite Hp|by rewrite omap_lookup_seq].
Qed.

Lemma validate_operation_spec pub o s :
  validate_operation pub o s = Ok tt →
  ∃ actions matched, declared_actions o = Some actions ∧ matched ≡ₚ actions ∧
    Forall2 (authorises s) matched
      (List.filter (λ u, negb (is_head u)) (Publication.updates pub)).
Proof.
  intros (m & Hm%ok_or_Ok & (v & Hv%ok_or_Ok & Hval)%bind_Ok)%bind_Ok.
  apply bind_Ok in Hval as (actions & Ha%ok_or_Ok & Hval).
  apply bind_Ok in Hval as (consumed & Hc & [Hlen%negb_false_iff%Z.eqb_eq _]%bail_Ok).
  assert (consumed_by s actions (Publication.updates pub) consumed) as (Hwf & ixs & Hnd & Helem & Hall).
  { revert Hc. apply (try_fold_inv _ (consumed_by s actions)).
    - intros pre u st st' Hst _. by apply authorize_spec.
    - split; [constructor|]. exists []. split_and!; [constructor|done|constructor]. }
  exists actions, (omap (λ i, actions !! i) (map Z.to_nat ixs)). split_and!.
  - unfold declared_actions. rewrite Hm. cbn. rewrite Hv. cbn. done.
  - assert (∀ i, i ∈ ixs → 0 ≤ i ∧ (Z.to_nat i < length actions)%nat) as Hin.
    { intros i Hi. apply list_elem_of_lookup in Hi as [k Hk].
      destruct (Forall2_lookup_l _ _ _ _ _ Hall Hk) as (u & _ & Hpos & a & Hla & _).
      split; [done|]. by eapply lookup_lt_Some. }
    apply positions_permutation.
    + apply NoDup_fmap_2_strong; [|done]. intros i j Hi Hj Hij. destruct (Hin i Hi), (Hin j Hj). lia.
    + rewrite length_map. apply Nat2Z.inj. fold (len actions). rewrite <-Hlen. unfold len.
      rewrite <-(length_map fst consumed). f_equal. apply Permutation_length, NoDup_Permutation;
        [done|by apply bt_wf_nodup|]. intros i. symmetry. apply Helem.
    + intros i (j & -> & Hj)%list_elem_of_fmap. by apply Hin.
  - clear -Hall. induction Hall as [|i u ixs us (_ & a & Ha & Hu) _ IH]; cbn; [constructor|].
    rewrite Ha. by constructor.
Qed.
