(* ===== verification/StoreSamples.v ===== *)
(** * A small repository history, for the witnesses about the store

    A key-envelope set, a policy, a genesis operation, a marker and the operation that
    installs it, under a digest function that tells byte strings apart by their length. *)

From Stdlib Require Import String.
From S2P Require Import Prelude Machine Order Utf8 Canonical CanonicalFacts ObjectId Types Objects Fields Decode References Storable StoredKinds ObjectSpec StoreModel MemoryStore.

Definition length_digests : Digests := {|
  sha256 := λ p, replicate 32 (len p `mod` 251);
  blake3 := λ p, replicate 32 (len p `mod` 241);
  base32hex_encode := @base32hex_encode sample_digests;
  base32hex_decode := @base32hex_decode sample_digests |}.

(** The object with the given kind and canonical map, as a publication carries it. *)
Definition sample_object (kind : ObjectKind.t) (m : list (Z * Value)) : PublicationObject.t :=
  let bytes := raw (Map m) in
  PublicationObject.mk
    (@from_payload length_digests (ObjectKind.code kind) 0 bytes HashAlgorithm.Sha256) bytes.

Definition envelopes : PublicationObject.t := sample_object ObjectKind.KeyEnvelopeSet
  [(0, Unsigned (ObjectKind.code ObjectKind.KeyEnvelopeSet)); (1, Unsigned 0); (3, Unsigned 0);
   (4, Unsigned 0);
   (5, Array [Map [(0, Principal.value (Principal.mk PrincipalKind.Actor (replicate 16 1)));
                   (1, Bytes (replicate 32 9)); (2, Bytes [7])]])].

Definition root_policy : PublicationObject.t := sample_object ObjectKind.Policy
  (Policy.canonical_map (Policy.mk None (replicate 16 5) 0 None [] [] RedactionMode.Omit
     DerivationRule.SamePolicy [] 0 (PublicationObject.id envelopes) [] []
     [sample_signature SignaturePurpose.Policy])).

Definition root_policy_ref : PolicyRef.t :=
  PolicyRef.mk (replicate 16 5) (PublicationObject.id root_policy).

Definition operation_object (parents : list oid) (actions : list OperationAction.t) (client : String.string) :
    PublicationObject.t :=
  sample_object ObjectKind.Operation (Operation.canonical_map (Operation.mk root_policy_ref parents
    (replicate 16 7) (replicate 16 8) 1 (WallTime.mk 0 0) actions [] None None
    (sample_signature SignaturePurpose.Operation) (lit client))).

Definition genesis : PublicationObject.t := operation_object [] [] "genesis".

Definition tag : PublicationObject.t := sample_object ObjectKind.Marker
  (Marker.canonical_map (Marker.mk root_policy_ref MarkerKind.Bookmark
     (TypedObjectRef.mk ObjectKind.Operation (PublicationObject.id genesis)) (replicate 16 7)
     (WallTime.mk 0 0) [] (sample_signature SignaturePurpose.Marker))).

Definition tagging : PublicationObject.t :=
  operation_object [PublicationObject.id genesis]
    [OperationAction.Transition None
       (Some (TypedObjectRef.mk ObjectKind.Marker (PublicationObject.id tag)))] "tag".

Definition tag_key : ReferenceKey.t := ReferenceKey.Marker (replicate 16 4).

Definition first_publication : Publication.t :=
  Publication.mk [envelopes; root_policy; genesis]
    [RefUpdate.mk ReferenceKey.OperationHead ExpectedRef.Absent (PublicationObject.id genesis)]
    (PublicationObject.id genesis).

Definition second_publication (head : ReferenceState.t) : Publication.t :=
  Publication.mk [tag; tagging]
    [RefUpdate.mk ReferenceKey.OperationHead (ExpectedRef.Exact head) (PublicationObject.id tagging);
     RefUpdate.mk tag_key ExpectedRef.Absent (PublicationObject.id tag)]
    (PublicationObject.id tagging).

(** The validator that accepts everything. *)
Definition allow : PublicationValidator := λ _, Ok tt.

Definition genesis_head : ReferenceState.t :=
  ReferenceState.mk (PublicationObject.id genesis) 0 (PublicationObject.id genesis).

Definition publish_sample := @publish ascii_unicode length_digests.

(** The store after the first and after both publications. *)
Definition store1 : MemorySnapshot := (publish_sample first_publication allow new).1.
Definition store2 : MemorySnapshot := (publish_sample (second_publication genesis_head) allow store1).1.

(** The publications between their critical sections. *)
Definition staged1 : Staged :=
  mk_staged (default new (ok (@stage ascii_unicode length_digests first_publication new))) 0 1.
Definition staged2 : Staged :=
  mk_staged (default new (ok (@stage ascii_unicode length_digests
    (second_publication genesis_head) store1))) 1 2.
Definition tag_state : ReferenceState.t :=
  ReferenceState.mk (PublicationObject.id tag) 0 (PublicationObject.id tagging).
Definition tagging_head : ReferenceState.t :=
  ReferenceState.mk (PublicationObject.id tagging) 1 (PublicationObject.id tagging).
