(* ===== verification/StoreSpec.v ===== *)
(** * The in-memory store: what it guarantees

    The theorems about the store as its clients see it: reads, publications, the
    invariant of every reachable state, and the interleaving of concurrent calls. *)

From stdpp Require Import relations.
From S2P Require Import Prelude Machine Order Utf8 Canonical CanonicalFacts ObjectId Types Objects Fields Decode References ObjectSpec Explore Reachability ReachabilityFacts GraphSpec Traverse StoreModel MemoryStore MemoryFacts StoreInv StoreSteps StoreAuth StoreSamples.

Section spec.
Context `{Unicode, Digests}.

(** ** Faults cannot occur *)

Lemma bt_insert_len {V} k v (m : BTreeMap oid V) : len (bt_insert k v m) ≤ len m + 1.
Proof.
  unfold len. induction m as [|[k' v'] m IH]; cbn; [lia|]. destruct (cmp k k'); cbn in *; lia.
Qed.

Lemma stage_object_len s c s' :
  stage_object s c = Ok s' → len (objects s') ≤ len (objects s) + 1.
Proof.
  intros (o & _ & (s1 & H1 & [= <-])%bind_Ok)%bind_Ok. cbn.
  destruct (bt_get _ (objects s)); [apply bail_Ok in H1 as [_ [= <-]]; lia|].
  injection H1 as <-. apply bt_insert_len.
Qed.

Lemma stage_objects_len l s s' :
  try_fold stage_object l s = Ok s' → len (objects s') ≤ len (objects s) + len l.
Proof.
  apply (try_fold_inv _ (λ l s', len (objects s') ≤ len (objects s) + len l)).
  - intros pre c st st' Hle _ Hc%stage_object_len. rewrite len_snoc. lia.
  - unfold len at 3. cbn. lia.
Qed.

(** A closure has no more objects than the store. *)
Lemma closure_facts s roots c :
  objects_ok s → closure_from s roots = Ok c →
  bt_wf c ∧ keyed c ∧ len c ≤ len (objects s) ∧
  (∀ e, reaches s roots e → resolves s e) ∧
  ∀ id o, bt_get id c = Some o ↔
    visible_object s id = Ok o ∧ ∃ e, reaches s roots e ∧ edge_id e = id.
Proof.
  intros Hs Hc. pose proof (closure_from_spec s roots (ok_objects_wf _ Hs)) as Hcl.
  rewrite Hc in Hcl. destruct Hcl as (Hwf & Hres & Hg).
  assert (∀ id o, bt_get id c = Some o → bt_get id (objects s) = Some o) as Hsub.
  { intros id o [[_ Ho]%visible_Ok _]%Hg. done. }
  split_and!; [done| | |done|done].
  - intros id o Ho%Hsub. by apply (objects_ok_keyed s Hs).
  - unfold len. rewrite <-(length_map fst c), <-(length_map fst (objects s)).
    apply inj_le, submseteq_length, NoDup_submseteq; [by apply bt_wf_nodup|].
    intros id Hid%bt_contains_elem. unfold bt_contains in Hid.
    destruct (bt_get id c) as [o|] eqn:Ho; [|done]. apply Hsub in Ho. by eapply bt_get_key.
Qed.

Lemma affected_graphs_Err c e :
  bt_wf c → keyed c → len c ≤ u64_max → validate_affected_graphs c = Err e →
  e = Raise StoreError.InvalidGraph.
Proof.
  intros Hwf Hk Hlen (kind & Hkind & He)%try_for_each_Err.
  assert (∃ role, parent_role kind = Ok role) as [role Hrole].
  { apply elem_of_cons in Hkind as [->|Hkind%list_elem_of_singleton]; subst; by eexists. }
  pose proof (graph_spec c kind role Hwf Hk Hlen Hrole) as Hg. cbv zeta in Hg.
  destruct (graph c kind) as [idx|[e'| |]]; [done| |done|done]. cbn in He.
  destruct Hg as [-> _]. by injection He as <-.
Qed.

Lemma raise_Err {A} (r : result StoreError.t A) f : raise r = Err f → ∃ e, f = Raise e.
Proof. destruct r; [done|]. intros [= <-]. by eexists. Qed.

Lemma stage_Err pub s f :
  objects_ok s → len (objects s) + len (Publication.objects pub) ≤ u64_max →
  stage pub s = Err f → ∃ e, f = Raise e.
Proof.
  intros Hs Hlen. unfold stage.
  destruct (try_fold stage_object (Publication.objects pub) s) as [s1|] eqn:H1;
    cbn [raise map_err mbind result_bind]; [|intros [= <-]; by eexists].
  destruct (stage_objects_spec _ _ _ Hs H1) as (Hok & _). pose proof (stage_objects_len _ _ _ H1).
  destruct (visible_object s1 (Publication.operation pub)) as [o|];
    cbn [raise map_err mbind result_bind]; [|intros [= <-]; by eexists].
  destruct (negb _); [intros [= <-]; by eexists|].
  destruct (try_fold (check_update s s1) (Publication.updates pub) []);
    cbn [raise map_err mbind result_bind]; [|intros [= <-]; by eexists].
  destruct (validate_operation pub o s1);
    cbn [raise map_err mbind result_bind]; [|intros [= <-]; by eexists].
  destruct (closure_from s1 (publication_roots pub)) as [c|f'] eqn:Hc; cbn [mbind result_bind].
  2:{ pose proof (closure_from_spec s1 (publication_roots pub) (ok_objects_wf _ Hok)) as Hcl.
      rewrite Hc in Hcl. destruct f' as [e| |]; [|done..]. intros [= <-]. by eexists. }
  destruct (closure_facts s1 _ c Hok Hc) as (Hwf & Hk & Hle & _).
  destruct (validate_affected_graphs c) as [[]|f'] eqn:Hg; cbn [mbind result_bind].
  - apply raise_Err.
  - apply affected_graphs_Err in Hg as ->; [|done|done|lia]. intros [= <-]. by eexists.
Qed.

(** ** The history of a publication *)

Lemma stage_graphs pub s st kind :
  objects_ok s → stage pub s = Ok st → kind ∈ [ObjectKind.Snapshot; ObjectKind.Operation] →
  ∃ c idx, closure_from st (publication_roots pub) = Ok c ∧ graph c kind = Ok idx.
Proof.
  intros Hs (s1 & H1%raise_Ok & Hst)%bind_Ok Hkind.
  destruct (stage_objects_spec _ _ _ Hs H1) as (Hok & _).
  apply bind_Ok in Hst as (op & _ & [_ Hst]%bail_Ok).
  apply bind_Ok in Hst as (keys & Hkeys%raise_Ok & Hst).
  apply bind_Ok in Hst as ([] & _ & Hst).
  apply bind_Ok in Hst as (c & Hc & Hst).
  apply bind_Ok in Hst as ([] & Hg & Hst%raise_Ok).
  destruct (check_updates_spec _ _ _ _ Hkeys) as [Hnd _].
  destruct (insert_references_spec _ _ _ _ _ Hnd Hst) as (Heq & _).
  unfold validate_affected_graphs in Hg. rewrite try_for_each_Ok, Forall_forall in Hg.
  destruct (proj1 (bind_Ok _ _ _) (Hg kind Hkind)) as (idx & Hidx & _).
  exists c, idx. split; [|done]. by rewrite Heq.
Qed.

(** Inside a closure whose graph of one kind was accepted, ancestry stays inside, keeps
    its kind, and never returns to where it started. *)
Lemma accepted_history s roots c kind role idx :
  objects_ok s → len (objects s) ≤ u64_max → parent_role kind = Ok role →
  closure_from s roots = Ok c → graph c kind = Ok idx →
  ∀ a o, bt_get a c = Some o → StoredObject.kind o = kind →
    (∀ b, rtc (history s role) a b → ∃ o', visible_object s b = Ok o' ∧ StoredObject.kind o' = kind) ∧
    (∀ b, rtc (history s role) a b → ¬ tc (history s role) b b).
Proof.
  intros Hs Hlen Hrole Hc Hg. destruct (closure_facts s roots c Hs Hc) as (Hwf & Hk & Hle & _ & Hget).
  pose proof (graph_spec c kind role Hwf Hk ltac:(lia) Hrole) as Hspec. rewrite Hg in Hspec.
  destruct Hspec as [Hb Hac]. assert (closed (graph_nodes c kind role)) as Hcl
    by (by destruct Hb as (? & ? & _ & ? & _)).
  set (inside := λ a, ∃ o, bt_get a c = Some o ∧ StoredObject.kind o = kind).
  assert (∀ a b, inside a → history s role a b →
    inside b ∧ input_parent (graph_nodes c kind role) a b) as Hstep.
  { intros a b (o & Ho & Hko) (o' & Hv & Hb'). assert (o' = o) as ->.
    { apply Hget in Ho as [Hv' _]. congruence. }
    assert (input_parent (graph_nodes c kind role) a b) as Hp.
    { apply graph_nodes_parent; [done..|]. eauto. }
    split; [|done]. apply (graph_nodes_ids c kind role b Hwf Hk). by apply (Hcl a). }
  assert (∀ a b, inside a → rtc (history s role) a b → inside b) as Hin.
  { intros a b Ha Hr. induction Hr as [|x y z Hxy _ IH]; [done|]. apply IH. by apply (Hstep x). }
  intros a o Ho Hko. assert (inside a) as Ha by (by exists o). split.
  - intros b Hr. destruct (Hin a b Ha Hr) as (o' & Ho' & Hk'). apply Hget in Ho' as [Hv _]. eauto.
  - intros b Hr Hcyc. apply (Hac b). assert (∀ x y, inside x → tc (history s role) x y →
      tc (input_parent (graph_nodes c kind role)) x y) as Ht.
    { intros x y Hx Hy. induction Hy as [x y Hxy|x z y Hxz _ IH].
      - apply tc_once. by apply Hstep.
      - eapply tc_l; [by apply Hstep|]. apply IH. by apply (Hstep x). }
    apply Ht; [by apply (Hin a)|done].
Qed.

(** ** Generation queries *)

Lemma generation_cases id s :
  (generation id s).2 =
  (object ← raise (visible_object s id);
   objects ← ancestry_closure s [id] (StoredObject.kind object);
   index ← graph objects (StoredObject.kind object);
   invalid_graph (Reachability.generation index id)).
Proof.
  unfold generation, bind, state_ref, attempt, raise. cbn. destruct (visible_object s id); cbn; [|done].
  destruct (ancestry_closure _ _ _); cbn; [|done]. by destruct (graph _ _).
Qed.

Lemma ancestor_resolves s kind role a e :
  resolve_ancestor s kind role a = Err e →
  ¬ ∃ o, visible_object s a = Ok o ∧ StoredObject.kind o = kind.
Proof.
  unfold resolve_ancestor. intros He (o & Ho & Hk). rewrite Ho in He. cbn in He.
  by rewrite bool_decide_true in He.
Qed.

(** The generation of an object is the longest ancestry path, in an accepted graph. *)
Lemma graph_generation s kind role id c idx :
  objects_ok s → len (objects s) ≤ u64_max → parent_role kind = Ok role →
  ancestry_closure s [id] kind = Ok c → graph c kind = Ok idx →
  ∃ g, Reachability.generation idx id = Ok g ∧ longest_path (history s role) id g.
Proof.
  intros Hs Hlen Hrole Hc Hg. pose proof (ok_objects_wf s Hs) as Hwf.
  pose proof (objects_ok_keyed s Hs) as Hk.
  pose proof (ancestry_graph s Hwf Hk Hlen kind role Hrole id c Hc) as Hag. rewrite Hg in Hag.
  destruct Hag as [Hb Hac]. destruct (built_longest _ _ id Hb Hac) as (g & Hgen & Hpos & (m & Hm) & Hmax).
  { by apply (ancestry_ids s Hwf Hk kind role Hrole id c Hc). }
  pose proof (λ k b, ancestry_nsteps s Hwf Hk kind role Hrole id c Hc k id b ltac:(done)) as Hn.
  exists g. split; [done|]. split_and!; [done| |].
  - exists m. by apply Hn.
  - intros k b Hkb. apply (Hmax k b). by apply Hn.
Qed.

Lemma generation_defined s id o role :
  objects_ok s → len (objects s) ≤ u64_max → visible_object s id = Ok o →
  parent_role (StoredObject.kind o) = Ok role →
  (∀ a, rtc (history s role) id a → ∃ o', visible_object s a = Ok o' ∧
     StoredObject.kind o' = StoredObject.kind o) →
  (∀ a, rtc (history s role) id a → ¬ tc (history s role) a a) →
  ∃ g, (generation id s).2 = Ok g ∧ longest_path (history s role) id g.
Proof.
  intros Hs Hlen Ho Hrole Hvis Hac. rewrite generation_cases, Ho. cbn [raise map_err mbind result_bind].
  pose proof (ancestry_closure_spec s _ role id (ok_objects_wf s Hs) Hrole) as Ha.
  destruct (ancestry_closure s [id] (StoredObject.kind o)) as [c|[e| |]] eqn:Hc; [| |done|done].
  2:{ destruct Ha as (a & Hp & He). by destruct (ancestor_resolves _ _ _ _ _ He (Hvis a Hp)). }
  cbn [mbind result_bind].
  pose proof (ancestry_graph s (ok_objects_wf s Hs) (objects_ok_keyed s Hs) Hlen _ role Hrole id c Hc) as Hg.
  destruct (graph c (StoredObject.kind o)) as [idx|[e| |]] eqn:Hgr; [| |done|done].
  2:{ destruct Hg as (_ & a & Hp & Hcyc). by destruct (Hac a Hp). }
  cbn [mbind result_bind].
  destruct (graph_generation s _ role id c idx Hs Hlen Hrole Hc Hgr) as (g & -> & Hl). by exists g.
Qed.

Lemma publish_staged pub validator s s' results :
  integrity s → publish pub validator s = (s', Ok results) →
  ∃ st n, stage pub s = Ok st ∧ s' = with_revision n st.
Proof.
  intros Hs. rewrite publish_cases. unfold with_next_revision.
  destruct (checked_add (revision s) 1) as [n|]; [|done]. destruct (stage pub s) as [st|]; [|done].
  destruct (publish_validate _ _ _); [|done]. intros [= <- _]. by exists st, n.
Qed.

Lemma stage_len pub s st :
  stage pub s = Ok st → len (objects s) + len (Publication.objects pub) ≤ u64_max →
  len (objects st) ≤ u64_max.
Proof.
  intros (s1 & H1%raise_Ok & Hst)%bind_Ok Hlen. apply stage_objects_len in H1.
  apply bind_Ok in Hst as (op & _ & [_ Hst]%bail_Ok).
  apply bind_Ok in Hst as (keys & Hkeys%raise_Ok & Hst).
  apply bind_Ok in Hst as ([] & _ & Hst). apply bind_Ok in Hst as (c & _ & Hst).
  apply bind_Ok in Hst as ([] & _ & Hst%raise_Ok).
  destruct (check_updates_spec _ _ _ _ Hkeys) as [Hnd _].
  destruct (insert_references_spec _ _ _ _ _ Hnd Hst) as (Heq & _). rewrite Heq. cbn. lia.
Qed.

Lemma generation_state id s : (generation id s).1 = s.
Proof.
  unfold generation, bind, state_ref, attempt, raise. cbn. destruct (visible_object s id); cbn; [|done].
  destruct (ancestry_closure _ _ _); cbn; [|done]. by destruct (graph _ _).
Qed.

Lemma is_reachable_cases ancestor descendant s :
  (is_reachable ancestor descendant s).2 =
  (a ← raise (visible_object s ancestor);
   d ← raise (visible_object s descendant);
   if negb (bool_decide (StoredObject.kind a = StoredObject.kind d))
   then Err (Raise StoreError.InvalidGraph)
   else
     objects ← ancestry_closure s [descendant] (StoredObject.kind a);
     if negb (bt_contains ancestor objects) then Ok false
     else
       index ← graph objects (StoredObject.kind a);
       invalid_graph (Reachability.is_reachable index ancestor descendant)).
Proof.
  unfold is_reachable, bind, state_ref, attempt, raise. cbn.
  destruct (visible_object s ancestor); cbn; [|done].
  destruct (visible_object s descendant); cbn; [|done]. destruct (negb _); [done|].
  destruct (ancestry_closure _ _ _); cbn; [|done]. destruct (negb _); [done|]. by destruct (graph _ _).
Qed.

Lemma is_reachable_state ancestor descendant s : (is_reachable ancestor descendant s).1 = s.
Proof.
  unfold is_reachable, bind, state_ref, attempt, raise. cbn.
  destruct (visible_object s ancestor); cbn; [|done].
  destruct (visible_object s descendant); cbn; [|done]. destruct (negb _); [done|].
  destruct (ancestry_closure _ _ _); cbn; [|done]. destruct (negb _); [done|]. by destruct (graph _ _).
Qed.

(** Neither the ancestry of an object nor its graph faults. *)
Lemma ancestry_cases s o role id :
  objects_ok s → len (objects s) ≤ u64_max → parent_role (StoredObject.kind o) = Ok role →
  match ancestry_closure s [id] (StoredObject.kind o) with
  | Ok c => match graph c (StoredObject.kind o) with Err Panic | Err OutOfFuel => False | _ => True end
  | Err (Raise _) => True
  | Err _ => False
  end.
Proof.
  intros Hs Hlen Hrole. pose proof (ancestry_closure_spec s _ role id (ok_objects_wf s Hs) Hrole) as Ha.
  destruct (ancestry_closure _ _ _) as [c|[e| |]] eqn:Hc; [|done..].
  pose proof (ancestry_graph s (ok_objects_wf s Hs) (objects_ok_keyed s Hs) Hlen _ role Hrole id c Hc) as Hg.
  by destruct (graph _ _) as [|[]].
Qed.

Lemma ancestry_contains s o role id a c :
  objects_ok s → parent_role (StoredObject.kind o) = Ok role →
  ancestry_closure s [id] (StoredObject.kind o) = Ok c →
  bt_contains a c = true ↔ rtc (history s role) id a.
Proof.
  intros Hs Hrole Hc. pose proof (ancestry_get s (ok_objects_wf s Hs) _ role Hrole id c Hc a) as Hg.
  unfold bt_contains. destruct (bt_get a c) as [o'|] eqn:Ho.
  - split; [|done]. intros _. by destruct (proj1 (Hg o') eq_refl) as [_ ?].
  - split; [done|]. intros Hp.
    destruct (ancestry_visible s (ok_objects_wf s Hs) _ role Hrole id c Hc a Hp) as (o' & Ho' & _).
    by discriminate (proj2 (Hg o') (conj Ho' Hp)).
Qed.

Lemma graph_reachable s kind role id a c idx :
  objects_ok s → len (objects s) ≤ u64_max → parent_role kind = Ok role →
  ancestry_closure s [id] kind = Ok c → graph c kind = Ok idx → rtc (history s role) id a →
  ∃ b, Reachability.is_reachable idx a id = Ok b ∧ (b = true ↔ rtc (history s role) id a).
Proof.
  intros Hs Hlen Hrole Hc Hg Hp. pose proof (ok_objects_wf s Hs) as Hwf.
  pose proof (objects_ok_keyed s Hs) as Hk.
  pose proof (ancestry_graph s Hwf Hk Hlen kind role Hrole id c Hc) as Hag. rewrite Hg in Hag.
  destruct Hag as [Hb _].
  destruct (built_reachable _ _ id a Hb) as (b & Hr & Hspec);
    [by apply (ancestry_ids s Hwf Hk kind role Hrole id c Hc)..|]. exists b. split; [done|].
  rewrite Hspec. by apply (ancestry_rtc s Hwf Hk kind role Hrole id c Hc).
Qed.

(** ** The properties *)

(** C4: Every state a store can reach is sound, whatever the interleaving of concurrent
    calls and whether they succeed or fail: each stored object decodes and verifies under
    its own identifier, no stored object is still promised, only stored or promised objects
    are quarantined, and each reference names an object of its kind and identity whose
    whole history, and that of the operation that published it, is stored with the kinds
    its edges expect. *)
Theorem store_integrity sys : rtc cstep start_system sys → integrity (store sys).
Proof.
  intros Hr. apply csteps_simulation in Hr as [_ Hr]; [|constructor].
  eapply steps_integrity; [|exact Hr]. apply new_integrity.
Qed.

(** C5: The concurrent store refines the sequential one: although [publish] releases
    the lock while the caller's validator runs, every state that interleaved calls reach is
    reached by running whole calls one after the other. *)
Theorem concurrent_refines_sequential sys :
  rtc cstep start_system sys → rtc step new (store sys).
Proof. intros Hr. apply csteps_simulation in Hr as [_ Hr]; [done|constructor]. Qed.

(** C7: Optimistic commit. When a staged publication commits, however long ago it was
    staged, it either reports a reference conflict, without effect and only because the
    store has moved on, or does and answers exactly what the whole [publish] call would if
    it ran alone at that moment; the validator saw precisely what is committed. *)
Theorem publication_linearizable sys pub st validator results s' r :
  rtc cstep start_system sys → (pub, st) ∈ inflight sys →
  publish_validate pub validator st = Ok results →
  publish_commit st results (store sys) = (s', r) →
  (s' = store sys ∧ r = Err (Raise StoreError.ReferenceConflict) ∧
   base_revision st < revision (store sys)) ∨
  publish pub validator (store sys) = (s', r).
Proof.
  intros Hr Hin Hval Hc. apply csteps_simulation in Hr as [Hcoh _]; [|constructor].
  unfold coherent in Hcoh. rewrite Forall_forall in Hcoh.
  exact (commit_atomic _ _ _ _ _ _ _ (Hcoh _ Hin) Hval Hc).
Qed.

(** C6: The effect of [publish]. It fails with an error of the interface and changes
    nothing, or it moves exactly the updated references: each had its expected state, gets the
    new target and operation, and the successor of its generation (0 for a new reference);
    all other references, and the quarantine marks, are as before; the stored
    objects are the old ones and the verified new ones; the revision advances by one. *)
Theorem publish_effect pub validator s s' r :
  integrity s → len (objects s) + len (Publication.objects pub) ≤ u64_max →
  publish pub validator s = (s', r) →
  match r with
  | Err f => s' = s ∧ ∃ e, f = Raise e
  | Ok results =>
      NoDup (map RefUpdate.key (Publication.updates pub)) ∧
      results = map (next_of s pub) (Publication.updates pub) ∧
      (∀ u, u ∈ Publication.updates pub →
         expectation_met (bt_get (RefUpdate.key u) (references s)) (RefUpdate.expected u) ∧
         bt_get (RefUpdate.key u) (references s') = Some (next_of s pub u)) ∧
      (∀ k, k ∉ map RefUpdate.key (Publication.updates pub) →
         bt_get k (references s') = bt_get k (references s)) ∧
      (∀ id o, bt_get id (objects s') = Some o ↔ bt_get id (objects s) = Some o ∨
         ∃ c, c ∈ Publication.objects pub ∧ PublicationObject.id c = id ∧
              decode id (PublicationObject.bytes c) = Ok o) ∧
      quarantined s' = quarantined s ∧ revision s' = revision s + 1 ∧
      validator (PublicationCandidate.mk pub (objects s') (references s')) = Ok tt
  end.
Proof.
  intros Hs Hlen. rewrite publish_cases. unfold with_next_revision.
  destruct (checked_add (revision s) 1) as [n|] eqn:Hn; [|intros [= <- <-]; split; [done|by eexists]].
  apply checked_add_Some in Hn as [-> _]. destruct (stage pub s) as [st|f] eqn:Hst.
  2:{ intros [= <- <-]. split; [done|]. by eapply stage_Err; [apply Hs| |]. }
  apply stage_Ok in Hst; [|apply Hs].
  destruct (publish_validate _ _ _) as [results|e] eqn:Hv; intros [= <- <-]; [|by eauto].
  unfold publish_validate in Hv. apply bind_Ok in Hv as ([] & Hval & [= <-]). cbn in *.
  destruct Hst as [_ Hadd Hq _ Hnd Hall _ _ Hin Hout _]. rewrite Forall_forall in Hall.
  split_and!; try done.
  - clear -Hin. induction (Publication.updates pub) as [|u us IH]; [done|]. cbn.
    destruct (Hin u ltac:(left)) as [-> _]. f_equal. apply IH. intros u' Hu'. apply Hin. by right.
  - intros u Hu. destruct (Hall u Hu) as [He _], (Hin u Hu) as [Hg _]. done.
Qed.

(** C23: A successful publication leaves a usable history: the ancestry of its operation
    consists of visible operations and never cycles, so the store can answer the generation
    of the operation right away. *)
Theorem published_history pub validator s s' results :
  integrity s → len (objects s) + len (Publication.objects pub) ≤ u64_max →
  publish pub validator s = (s', Ok results) →
  let parent := history s' ReferenceRole.OperationParent in
  (∀ a, rtc parent (Publication.operation pub) a →
     (∃ o, visible_object s' a = Ok o ∧ StoredObject.kind o = ObjectKind.Operation) ∧
     ¬ tc parent a a) ∧
  ∃ g, (generation (Publication.operation pub) s').2 = Ok g ∧
       longest_path parent (Publication.operation pub) g.
Proof.
  intros Hs Hlen Hp parent. destruct (publish_staged pub validator s s' results Hs Hp)
    as (st & n & Hst & ->). pose proof (int_objects s Hs) as Hok.
  pose proof (stage_Ok _ _ _ Hok Hst) as Hsf. pose proof (stage_len _ _ _ Hst Hlen) as Hlst.
  destruct (stage_graphs pub s st ObjectKind.Operation Hok Hst) as (c & idx & Hc & Hg);
    [right; left|]. destruct (sf_operation _ _ _ Hsf) as (o & Ho & Hko & _).
  destruct (closure_facts _ _ _ (sf_objects _ _ _ Hsf) Hc) as (_ & _ & _ & _ & Hget).
  assert (bt_get (Publication.operation pub) c = Some o) as Hco.
  { apply Hget. split; [done|]. exists (mk_edge ReferenceRole.OperationAfter
      (Some ObjectKind.Operation) (Publication.operation pub)). split; [|done].
    eexists. split; [left|done]. }
  destruct (accepted_history st _ c ObjectKind.Operation ReferenceRole.OperationParent idx
    (sf_objects _ _ _ Hsf) Hlst eq_refl Hc Hg _ o Hco Hko) as [Hvis Hac].
  split; [intros a Ha; split; [by apply Hvis|by apply Hac]|].
  apply (generation_defined (with_revision n st) _ o ReferenceRole.OperationParent);
    [|done|exact Ho|by rewrite Hko|rewrite Hko; exact Hvis|exact Hac].
  by destruct (sf_objects _ _ _ Hsf).
Qed.

(** C24: A closure is exact. [closure] terminates without a fault; it succeeds exactly when
    every edge reachable from the roots names a visible object of the kind the edge expects,
    and then holds precisely the objects those edges name; otherwise it returns the error of
    such an edge. *)
Theorem closure_exact s roots :
  bt_wf (objects s) →
  match (closure roots s).2 with
  | Ok c =>
      (∀ e, reaches s roots e → resolves s e) ∧
      ∀ id o, bt_get id c = Some o ↔
        visible_object s id = Ok o ∧ ∃ e, reaches s roots e ∧ edge_id e = id
  | Err (Raise error) =>
      ∃ e, reaches s roots e ∧ ¬ resolves s e ∧ resolve_edge s e = Err error
  | Err _ => False
  end.
Proof.
  intros Hwf. pose proof (closure_from_spec s roots Hwf) as Hc.
  change (closure roots s) with (s, closure_from s roots). cbn [snd].
  destruct (closure_from s roots) as [c|[error| |]]; [by destruct Hc as (_ & ?)| |done|done].
  destruct Hc as (e & He & Herr). exists e. split_and!; [done| |done]. intros (o & Ho & Hk).
  assert (resolve_edge s e = Ok (edge_id e, o, StoredObject.references o)); [|congruence].
  by apply resolve_edge_Ok.
Qed.

(** C25: The ancestry queries of the store. On a sound store [generation] returns the length
    of the longest ancestry path of a snapshot or operation, and [is_reachable] decides
    whether an ancestry path leads from the descendant to the ancestor; neither faults, and
    neither changes the store. *)
Theorem ancestry_queries s id ancestor :
  integrity s → len (objects s) ≤ u64_max →
  (generation id s).1 = s ∧ (is_reachable ancestor id s).1 = s ∧
  (match (generation id s).2 with
   | Ok g => ∃ o role, visible_object s id = Ok o ∧ parent_role (StoredObject.kind o) = Ok role ∧
       longest_path (history s role) id g
   | Err (Raise _) => True
   | Err _ => False
   end) ∧
  match (is_reachable ancestor id s).2 with
  | Ok b => ∃ o role, visible_object s id = Ok o ∧ parent_role (StoredObject.kind o) = Ok role ∧
      (b = true ↔ rtc (history s role) id ancestor)
  | Err (Raise _) => True
  | Err _ => False
  end.
Proof.
  intros Hs Hlen. pose proof (int_objects s Hs) as Hok. split_and!.
  - apply generation_state.
  - apply is_reachable_state.
  - rewrite generation_cases. destruct (visible_object s id) as [o|] eqn:Ho; [|done].
    cbn [raise map_err mbind result_bind].
    destruct (parent_role (StoredObject.kind o)) as [role|] eqn:Hrole.
    2:{ unfold ancestry_closure. rewrite Hrole. exact I. }
    pose proof (ancestry_cases s o role id Hok Hlen Hrole) as Ha.
    destruct (ancestry_closure _ _ _) as [c|[e| |]] eqn:Hc; [|done..]. cbn [mbind result_bind].
    destruct (graph c _) as [idx|[e| |]] eqn:Hg; [|done..]. cbn [mbind result_bind].
    destruct (graph_generation s _ role id c idx Hok Hlen Hrole Hc Hg) as (g & -> & Hl). cbn. eauto.
  - rewrite is_reachable_cases. destruct (visible_object s ancestor) as [a|] eqn:Ha; [|done].
    cbn [raise map_err mbind result_bind].
    destruct (visible_object s id) as [o|] eqn:Ho; [|done]. cbn [raise map_err mbind result_bind].
    case_bool_decide as Hk; [|done]. rewrite Hk. cbn [negb].
    destruct (parent_role (StoredObject.kind o)) as [role|] eqn:Hrole.
    2:{ unfold ancestry_closure. rewrite Hrole. exact I. }
    pose proof (ancestry_cases s o role id Hok Hlen Hrole) as Hcases.
    destruct (ancestry_closure _ _ _) as [c|[e| |]] eqn:Hc; [|done..]. cbn [mbind result_bind].
    pose proof (ancestry_contains s o role id ancestor c Hok Hrole Hc) as Hin.
    destruct (bt_contains ancestor c); cbn [negb].
    2:{ exists o, role. split_and!; [done..|]. split; [done|]. intros Hp. by apply Hin in Hp. }
    destruct (graph c _) as [idx|[e| |]] eqn:Hg; [|done..]. cbn [mbind result_bind].
    destruct (graph_reachable s _ role id ancestor c idx Hok Hlen Hrole Hc Hg) as (b & -> & Hb);
      [by apply Hin|]. cbn. eauto 10.
Qed.

(** Storing and reading back. [put] fails without effect, or afterwards the store holds
    under the identifier exactly the verified bytes and [get] returns them unless the object
    is quarantined; no other object changes, the object is no longer merely promised, and
    a second [put] of the same bytes finds it present. *)
Theorem put_get id bytes s s' r :
  integrity s → put id bytes s = (s', r) →
  match r with
  | Err f => s' = s ∧ ∃ e, f = Raise e
  | Ok _ =>
      ∃ o, decode id bytes = Ok o ∧ StoredObject.bytes o = bytes ∧
        bt_get id (objects s') = Some o ∧
        (∀ id', id' ≠ id → bt_get id' (objects s') = bt_get id' (objects s)) ∧
        get id s' = (s', if set_contains id (quarantined s) then Err (Raise StoreError.Quarantined)
                         else Ok o) ∧
        set_contains id (promised s') = false ∧
        put id bytes s' = (s', Ok PutOutcome.AlreadyPresent)
  end.
Proof.
  intros Hs Hput. pose proof (after_integrity (Put id bytes) s Hs) as Hs'. cbn [after] in Hs'.
  rewrite Hput in Hs'. cbn [fst] in Hs'. rewrite put_cases in Hput.
  destruct (decode id bytes) as [o|e] eqn:Hd; [|injection Hput as <- <-; by eauto].
  destruct (decode_id_bytes _ _ _ Hd) as [_ Hb].
  assert (∀ s', objects_ok s' → bt_get id (objects s') = Some o →
    quarantined s' = quarantined s →
    get id s' = (s', if set_contains id (quarantined s) then Err (Raise StoreError.Quarantined)
                     else Ok o) ∧
    set_contains id (promised s') = false ∧ put id bytes s' = (s', Ok PutOutcome.AlreadyPresent)) as Hdone.
  { intros t Ht Hg Hq. split_and!.
    - cbn. unfold visible_object. rewrite Hg, Hq. by destruct (set_contains id (quarantined s)).
    - destruct (set_contains id (promised t)) eqn:Hp; [|done]. apply (ok_promised t Ht) in Hp. congruence.
    - rewrite put_cases, Hd, Hg. by rewrite bool_decide_true. }
  destruct (bt_get id (objects s)) as [o'|] eqn:Hg.
  - case_bool_decide as Heq; injection Hput as <- <-; [|by eauto]. assert (o' = o) as ->.
    { apply (ok_verified s (int_objects s Hs)) in Hg. rewrite Heq, Hb in Hg. congruence. }
    exists o. split_and!; [done|done|done|done|by apply Hdone; [apply Hs| |]..].
  - unfold with_next_revision in Hput. destruct (checked_add _ _); injection Hput as <- <-; [|by eauto].
    assert (bt_get id (bt_insert id o (objects s)) = Some o) as Hget by apply bt_get_insert_eq.
    exists o. split_and!; [done|done|exact Hget| |by apply Hdone; [apply Hs'|exact Hget|done]..].
    intros id' Hne. cbn. by rewrite bt_get_insert_ne.
Qed.

(** C8: Nothing moves that the operation did not declare. After a successful publication
    the actions declared by the stored operation, in some order, match the updates of
    references other than the operation head one to one: a line advance declares the
    fields of the new line state, a transition the kinds and identifiers before and after. *)
Theorem operation_authorises_updates pub validator s s' results :
  integrity s → publish pub validator s = (s', Ok results) →
  ∃ o actions matched,
    bt_get (Publication.operation pub) (objects s') = Some o ∧
    StoredObject.kind o = ObjectKind.Operation ∧
    declared_actions o = Some actions ∧ matched ≡ₚ actions ∧
    Forall2 (authorises s') matched
      (List.filter (λ u, negb (is_head u)) (Publication.updates pub)).
Proof.
  intros Hs Hp. destruct (publish_staged _ _ _ _ _ Hs Hp) as (st & n & Hst & ->).
  apply stage_Ok in Hst; [|apply Hs].
  destruct (sf_operation _ _ _ Hst) as (o & [_ Ho]%visible_Ok & Hk & Hv).
  apply validate_operation_spec in Hv as (actions & matched & Ha & Hm & Hall).
  exists o, actions, matched. done.
Qed.

(** The tag of a declared action. *)
Definition action_tag (action : Value) : option Z :=
  m ← value_map action; v ← value_field m 0; value_unsigned v.

Lemma authorises_tag s action u : authorises s action u → action_tag action ∈ [Some 0; Some 1].
Proof.
  unfold authorises, action_tag.
  assert (transition_matches action u = true → action_tag action = Some 0) as Ht.
  { unfold transition_matches, action_tag. destruct (value_map action) as [m|]; [|done]. cbn.
    case_bool_decide as Htag; [|done]. by rewrite Htag. }
  assert (∀ m, line_action_matches action m = true → action_tag action = Some 1) as Hl.
  { intros m. unfold line_action_matches, action_tag. destruct (value_map action) as [a|]; [|done]. cbn.
    case_bool_decide as Htag; [|done]. by rewrite Htag. }
  unfold action_tag in *. destruct (RefUpdate.key u).
  - intros (o & m & _ & _ & ->%Hl). right. left.
  - intros ->%Ht. left.
  - done.
  - intros ->%Ht. left.
  - intros ->%Ht. left.
Qed.

Lemma bound_transition_tag key before after :
  action_tag (normalize (OperationActionV1.value (OperationActionV1.BoundTransition key before after)))
  = Some 2.
Proof. by destruct before. Qed.

(** C40: No publication whose operation declares a bound transition (schema 1) is ever
    accepted: the actions of an accepted operation are generic transitions or line advances,
    although the specification reserves generic transitions to frozen history and makes
    bound transitions the way to move change, release and marker references. *)
Theorem bound_transitions_unpublishable pub validator s s' results o actions key before after :
  integrity s → publish pub validator s = (s', Ok results) →
  bt_get (Publication.operation pub) (objects s') = Some o →
  declared_actions o = Some actions →
  normalize (OperationActionV1.value (OperationActionV1.BoundTransition key before after)) ∉ actions.
Proof.
  intros Hs Hp Ho Ha Hin. destruct (publish_staged _ _ _ _ _ Hs Hp) as (st & n & Hst & ->).
  apply stage_Ok in Hst; [|apply Hs].
  destruct (sf_operation _ _ _ Hst) as (o' & [_ Ho']%visible_Ok & _ & Hv).
  cbn in Ho. rewrite Ho in Ho'. injection Ho' as <-.
  apply validate_operation_spec in Hv as (actions' & matched & Ha' & Hm & Hall).
  rewrite Ha in Ha'. injection Ha' as <-. rewrite <-Hm in Hin.
  apply list_elem_of_lookup in Hin as [i Hi].
  destruct (Forall2_lookup_l _ _ _ _ _ Hall Hi) as (u & _ & Hu%authorises_tag).
  rewrite bound_transition_tag in Hu.
  by apply elem_of_cons in Hu as [?|[?|?%not_elem_of_nil]%elem_of_cons].
Qed.
End spec.

(** ** Witnesses: a small history *)

Notation csteps := (rtc (@cstep ascii_unicode length_digests)) (only parsing).

(** Two publications of the same genesis race; one commits. *)
Lemma sample_race : csteps start_system (mk_system store1 [(first_publication, staged1)]).
Proof.
  eapply rtc_l; [apply (cstep_stage first_publication new new staged1 []); vm_compute; reflexivity|].
  eapply rtc_l; [apply (cstep_stage first_publication new new staged1); vm_compute; reflexivity|].
  eapply rtc_l; [|apply rtc_refl].
  eapply (cstep_commit first_publication staged1 allow _ new store1 _
            [(first_publication, staged1)] []); vm_compute; reflexivity.
Qed.

(** The second publication is staged on top. *)
Lemma sample_staged :
  csteps start_system
    (mk_system store1 [(second_publication genesis_head, staged2); (first_publication, staged1)]).
Proof.
  eapply rtc_r; [exact sample_race|].
  apply (cstep_stage (second_publication genesis_head) store1 store1 staged2).
  vm_compute. reflexivity.
Qed.

Lemma sample_integrity : @integrity ascii_unicode length_digests store1.
Proof.
  pose proof sample_race as Hr. apply csteps_simulation in Hr as [_ Hr]; [|constructor].
  eapply steps_integrity; [|exact Hr]. apply new_integrity.
Qed.

Lemma sample_publish :
  publish_sample (second_publication genesis_head) allow store1
  = (store2, Ok [tagging_head; tag_state]).
Proof. vm_compute. reflexivity. Qed.

Lemma store_integrity_witness :
  @integrity ascii_unicode length_digests store1 ∧ len (objects store1) = 3.
Proof.
  split; [|vm_compute; reflexivity].
  exact (@store_integrity ascii_unicode length_digests _ sample_race).
Defined.

Lemma concurrent_refines_sequential_witness :
  rtc (@step ascii_unicode length_digests) new store1 ∧ store1 ≠ new.
Proof.
  split; [|vm_compute; discriminate].
  exact (@concurrent_refines_sequential ascii_unicode length_digests _ sample_race).
Defined.

Lemma publication_linearizable_witness :
  @publish ascii_unicode length_digests (second_publication genesis_head) allow store1
  = (store2, Ok [tagging_head; tag_state]).
Proof.
  destruct (@publication_linearizable ascii_unicode length_digests _
    (second_publication genesis_head) staged2 allow [tagging_head; tag_state] store2
    (Ok [tagging_head; tag_state]) sample_staged) as [(_ & Hr & _)|Hp].
  - left.
  - vm_compute. reflexivity.
  - vm_compute. reflexivity.
  - discriminate Hr.
  - exact Hp.
Defined.

Lemma publish_effect_witness :
  bt_get tag_key (references store2) = Some tag_state ∧
  bt_get ReferenceKey.OperationHead (references store2) = Some tagging_head ∧
  quarantined store2 = quarantined store1.
Proof.
  destruct (@publish_effect ascii_unicode length_digests (second_publication genesis_head) allow
    store1 store2 _ sample_integrity ltac:(vm_compute; discriminate) sample_publish)
    as (_ & _ & Hin & _ & _ & Hq & _).
  split; [|split; [|exact Hq]].
  - etransitivity; [apply (proj2 (Hin (RefUpdate.mk tag_key ExpectedRef.Absent
      (PublicationObject.id tag)) ltac:(right; left)))|]. vm_compute. reflexivity.
  - etransitivity; [apply (proj2 (Hin (RefUpdate.mk ReferenceKey.OperationHead
      (ExpectedRef.Exact genesis_head) (PublicationObject.id tagging)) ltac:(left)))|].
    vm_compute. reflexivity.
Defined.

Lemma published_history_witness :
  ∃ g, (@generation (PublicationObject.id tagging) store2).2 = Ok g ∧ g = 1.
Proof.
  destruct (@published_history ascii_unicode length_digests (second_publication genesis_head) allow
    store1 store2 _ sample_integrity ltac:(vm_compute; discriminate) sample_publish)
    as [_ (g & Hg & _)].
  exists g. split; [exact Hg|]. vm_compute in Hg. by injection Hg as <-.
Defined.

Lemma closure_exact_witness :
  ∃ c, (closure (publication_roots first_publication) store1).2 = Ok c ∧
    bt_get (PublicationObject.id envelopes) c ≠ None.
Proof.
  pose proof (closure_exact store1 (publication_roots first_publication)
    ltac:(apply sample_integrity)) as Hc.
  destruct (closure _ store1).2 as [c|] eqn:Hr; [|vm_compute in Hr; discriminate].
  exists c. split; [reflexivity|]. vm_compute in Hr. injection Hr as <-. vm_compute. discriminate.
Defined.

Lemma ancestry_queries_witness :
  (generation (PublicationObject.id genesis) store1).2 = Ok 0 ∧
  ∃ o role, visible_object store1 (PublicationObject.id genesis) = Ok o ∧
    parent_role (StoredObject.kind o) = Ok role ∧
    longest_path (history store1 role) (PublicationObject.id genesis) 0.
Proof.
  assert ((generation (PublicationObject.id genesis) store1).2 = Ok 0) as Hg
    by (vm_compute; reflexivity).
  destruct (@ancestry_queries ascii_unicode length_digests store1 (PublicationObject.id genesis)
    (PublicationObject.id genesis) sample_integrity ltac:(vm_compute; discriminate)) as (_ & _ & Hm & _).
  split; [exact Hg|]. rewrite Hg in Hm. exact Hm.
Defined.

Lemma operation_authorises_updates_witness :
  ∃ actions matched : list Value, matched ≡ₚ actions ∧
    Forall2 (authorises store2) matched
      [RefUpdate.mk tag_key ExpectedRef.Absent (PublicationObject.id tag)].
Proof.
  destruct (@operation_authorises_updates ascii_unicode length_digests
    (second_publication genesis_head) allow store1 store2 _ sample_integrity sample_publish)
    as (o & actions & matched & _ & _ & _ & Hm & Hall).
  exists actions, matched. split; [exact Hm|exact Hall].
Defined.

Lemma bound_transitions_unpublishable_witness :
  ∃ o actions, bt_get (PublicationObject.id tagging) (objects store2) = Some o ∧
    declared_actions o = Some actions ∧
    normalize (OperationActionV1.value (OperationActionV1.BoundTransition tag_key None
      (TypedObjectRef.mk ObjectKind.Marker (PublicationObject.id tag)))) ∉ actions.
Proof.
  destruct (bt_get (PublicationObject.id tagging) (objects store2)) as [o|] eqn:Ho;
    [|vm_compute in Ho; discriminate].
  destruct (declared_actions o) as [actions|] eqn:Ha.
  2:{ vm_compute in Ho. injection Ho as <-. vm_compute in Ha. discriminate. }
  exists o, actions. split; [reflexivity|]. split; [exact Ha|].
  exact (@bound_transitions_unpublishable ascii_unicode length_digests
    (second_publication genesis_head) allow store1 store2 _ o actions tag_key None
    (TypedObjectRef.mk ObjectKind.Marker (PublicationObject.id tag)) sample_integrity
    sample_publish Ho Ha).
Defined.
