(* ===== verification/Access.v ===== *)
(** * Access policies of the command-line client: [src/main.rs]

    Actors and policies are sets of domains. This file models the client's records, the
    access decisions on them, the views and diffs an actor is shown, and the policies the
    client derives for combined or conflicting content. *)

From Stdlib Require Import Sorting.Sorted.
From S2P Require Import Prelude Machine Order Utf8.

Definition PUBLIC_DOMAIN : str := lit "public".
Definition ADMIN_DOMAIN : str := lit "admin".
Definition DEFAULT_LINE : str := lit "main".

(** ** Records *)

Module Redaction.
Inductive t := Omit | Placeholder | MetadataOnly.
#[global] Instance eq_dec : EqDecision t.
Proof. solve_decision. Defined.
End Redaction.

Module AccessPolicy.
Record t := mk { domains : list str; redaction : Redaction.t }.
#[global] Instance eq_dec : EqDecision t.
Proof. solve_decision. Defined.
End AccessPolicy.

Module Actor.
Record t := mk { name : str; domains : list str }.
End Actor.

Module PathPolicy.
Record t := mk { prefix : str; policy : AccessPolicy.t }.
End PathPolicy.

Module FileEntry.
Record t := mk {
  symlink : bool;
  path : str;
  executable : bool;
  hash : str;
  bytes : Z;
  policy : AccessPolicy.t }.
#[global] Instance eq_dec : EqDecision t.
Proof. solve_decision. Defined.
End FileEntry.

Module CommitMetadata.
Record t := mk { object_id : str; object_format : str; raw_commit : list Z }.
End CommitMetadata.

Module Change.
Record t := mk {
  id : str;
  name : str;
  base_snapshot : option str;
  target_line : str;
  current_snapshot : option str;
  policy : AccessPolicy.t;
  created_at : Z }.
Definition workspace_base_snapshot_id (self : t) : option str :=
  match current_snapshot self with Some id => Some id | None => base_snapshot self end.
End Change.

Module Snapshot.
Record t := mk {
  author : option str;
  git : option CommitMetadata.t;
  id : str;
  change_id : str;
  parent_snapshot : option str;
  merge_parents : list str;
  message : str;
  manifest_hash : str;
  files : list FileEntry.t;
  policy : AccessPolicy.t;
  created_at : Z }.
End Snapshot.

Module Line.
Record t := mk {
  name : str;
  head_snapshot : option str;
  policy : AccessPolicy.t;
  created_at : Z }.
End Line.

Module ConflictStatus.
Inductive t := Unresolved | Resolved.
#[global] Instance eq_dec : EqDecision t.
Proof. solve_decision. Defined.
End ConflictStatus.

Module ConflictKind.
Inductive t := BothModified | DeleteModify | AddAdd | FileDirectory.
#[global] Instance eq_dec : EqDecision t.
Proof. solve_decision. Defined.
End ConflictKind.

Module Resolution.
Inductive t := Custom | Base | Line | Incoming | Delete.
#[global] Instance eq_dec : EqDecision t.
Proof. solve_decision. Defined.
End Resolution.

Module Conflict.
Record t := mk {
  id : str;
  line : str;
  change_id : str;
  base_snapshot : option str;
  line_snapshot : option str;
  incoming_snapshot : str;
  path : str;
  kind : ConflictKind.t;
  policy : AccessPolicy.t;
  line_policy : AccessPolicy.t;
  change_policy : AccessPolicy.t;
  file_policy : AccessPolicy.t;
  file_policies : list AccessPolicy.t;
  source_policy : AccessPolicy.t;
  status : ConflictStatus.t;
  resolution : option Resolution.t;
  replacement : option FileEntry.t;
  created_at : Z }.
End Conflict.

Module PendingConflict.
Record t := mk {
  path : str;
  kind : ConflictKind.t;
  policy : AccessPolicy.t;
  file_policies : list AccessPolicy.t }.
End PendingConflict.

Module MergePlan.
Record t := mk { merged_files : list FileEntry.t; conflicts : list PendingConflict.t }.
End MergePlan.

Module FileDiff.
Record t := mk { added : list str; modified : list str; deleted : list str; hidden : Z }.
End FileDiff.

(** ** Policies *)

Definition public_policy : AccessPolicy.t := AccessPolicy.mk [PUBLIC_DOMAIN] Redaction.Omit.
Definition admin_policy : AccessPolicy.t := AccessPolicy.mk [ADMIN_DOMAIN] Redaction.Placeholder.

(** Membership in a [Vec<String>]. *)
Definition has_domain (domain : str) (domains : list str) : bool :=
  existsb (λ d, bool_decide (d = domain)) domains.

Definition can_access (actor : Actor.t) (policy : AccessPolicy.t) : bool :=
  if has_domain ADMIN_DOMAIN (Actor.domains actor) then true
  else existsb (λ domain, has_domain domain (Actor.domains actor)) (AccessPolicy.domains policy).

(** The union of the domains as a placeholder policy, public when it is empty. *)
Definition union_policy (domains : list str) : AccessPolicy.t :=
  match set_elems (set_of_list domains) with
  | [] => public_policy
  | domains => AccessPolicy.mk domains Redaction.Placeholder
  end.

Definition combined_access_policy (policies : list AccessPolicy.t) : AccessPolicy.t :=
  union_policy (flat_map AccessPolicy.domains policies).

(** [[primary, secondary, fallback].into_iter().flatten()]. *)
Definition present (entries : list (option FileEntry.t)) : list FileEntry.t := omap id entries.

Definition combined_policy (primary secondary fallback : option FileEntry.t) : AccessPolicy.t :=
  union_policy (flat_map (λ e, AccessPolicy.domains (FileEntry.policy e))
                  (present [primary; secondary; fallback])).

(** [if !policies.contains(&policy) { policies.push(policy) }]. *)
Definition push_policy (policies : list AccessPolicy.t) (policy : AccessPolicy.t) :
    list AccessPolicy.t :=
  if existsb (λ p, bool_decide (p = policy)) policies then policies else policies ++ [policy].

Definition present_file_policies (primary secondary fallback : option FileEntry.t) :
    list AccessPolicy.t :=
  fold_left push_policy (map FileEntry.policy (present [primary; secondary; fallback])) [].

Definition integration_metadata_policy (policies : list AccessPolicy.t) : AccessPolicy.t :=
  if forallb (λ p, bool_decide (AccessPolicy.domains p = [PUBLIC_DOMAIN])) policies
  then public_policy else admin_policy.

Definition merge_source_policy (line_policy change_policy : AccessPolicy.t)
    (incoming : Snapshot.t) (base_snapshot line_snapshot : option Snapshot.t) : AccessPolicy.t :=
  integration_metadata_policy
    [line_policy; change_policy; Snapshot.policy incoming;
     default line_policy (Snapshot.policy <$> base_snapshot);
     default line_policy (Snapshot.policy <$> line_snapshot)].

(** The characters [str::trim] removes: Unicode [White_Space]. *)
Definition is_whitespace (c : Z) : bool :=
  ((9 <=? c) && (c <=? 13)) || (c =? 0x20) || (c =? 0x85) || (c =? 0xa0) || (c =? 0x1680)
  || ((0x2000 <=? c) && (c <=? 0x200a)) || (c =? 0x2028) || (c =? 0x2029) || (c =? 0x202f)
  || (c =? 0x205f) || (c =? 0x3000).

Fixpoint trim_start (s : str) : str :=
  match s with
  | [] => []
  | c :: s' => if is_whitespace c then trim_start s' else s
  end.
Definition trim (s : str) : str := rev (trim_start (rev (trim_start s))).

Definition normalize_domains (domains : list str) : list str :=
  let normalized :=
    set_of_list (map trim (List.filter (λ d, negb (bool_decide (trim d = []))) domains)) in
  set_elems (match normalized with [] => set_insert PUBLIC_DOMAIN normalized | _ => normalized end).

Definition policy_from_domains (domains : list str) : AccessPolicy.t :=
  AccessPolicy.mk (normalize_domains domains) Redaction.Omit.

(** [path.starts_with(prefix)]. *)
Fixpoint starts_with (prefix s : str) : bool :=
  match prefix, s with
  | [], _ => true
  | p :: prefix, c :: s => (p =? c) && starts_with prefix s
  | _ :: _, [] => false
  end.

(** [iter.max_by_key(key)]: the last of the maximal elements. *)
Fixpoint max_by_key {A} (key : A → Z) (l : list A) : option A :=
  match l with
  | [] => None
  | x :: l =>
      match max_by_key key l with
      | Some y => if key y <? key x then Some x else Some y
      | None => Some x
      end
  end.

Definition SLASH : Z := 0x2f.

Definition rule_applies (path : str) (rule : PathPolicy.t) : bool :=
  bool_decide (path = PathPolicy.prefix rule)
  || starts_with (PathPolicy.prefix rule ++ [SLASH]) path.

Definition policy_for_path (path : str) (policies : list PathPolicy.t) : AccessPolicy.t :=
  default public_policy
    (PathPolicy.policy <$>
       max_by_key (λ rule, str_len (PathPolicy.prefix rule))
         (List.filter (rule_applies path) policies)).

(** ** Decisions on files, snapshots and conflicts *)

Definition can_access_pending_conflict (actor : Actor.t) (conflict : PendingConflict.t) : bool :=
  forallb (can_access actor) (PendingConflict.file_policies conflict).

Definition can_access_conflict (actor : Actor.t) (conflict : Conflict.t) : bool :=
  let file_policies :=
    if bool_decide (Conflict.file_policies conflict = []) then [Conflict.file_policy conflict]
    else Conflict.file_policies conflict in
  can_access actor (Conflict.line_policy conflict)
  && can_access actor (Conflict.change_policy conflict)
  && can_access actor (Conflict.source_policy conflict)
  && forallb (can_access actor) file_policies.

Definition can_access_merge_inputs (actor : Actor.t) (file_sets : list (list FileEntry.t)) : bool :=
  forallb (λ file, can_access actor (FileEntry.policy file)) (concat file_sets).

Definition can_access_merge_sources (actor : Actor.t) (snapshots : list (option Snapshot.t))
    (file_sets : list (list FileEntry.t)) : bool :=
  forallb (λ snapshot, match snapshot with
                       | Some s => can_access actor (Snapshot.policy s)
                       | None => true
                       end) snapshots
  && can_access_merge_inputs actor file_sets.

Definition visible_files_with_hidden (files : list FileEntry.t) (actor : Actor.t) :
    list FileEntry.t * Z :=
  fold_left (λ '(visible, hidden) file,
      if can_access actor (FileEntry.policy file) then (visible ++ [file], hidden)
      else (visible, hidden + 1)) files ([], 0).

(** ** Diffs *)

(** [entries.into_iter().map(|entry| (entry.path.clone(), entry)).collect()]. *)
Definition manifest_map (entries : list FileEntry.t) : BTreeMap str FileEntry.t :=
  fold_left (λ m e, bt_insert (FileEntry.path e) e m) entries [].

(** The sorted union of the keys of two maps. *)
Definition all_paths {V} (previous current : BTreeMap str V) : list str :=
  set_elems (set_of_list (bt_keys previous ++ bt_keys current)).

Definition diff_path (previous current : BTreeMap str FileEntry.t) (diff : FileDiff.t)
    (path : str) : FileDiff.t :=
  let '(FileDiff.mk added modified deleted hidden) := diff in
  match bt_get path previous, bt_get path current with
  | None, Some _ => FileDiff.mk (added ++ [path]) modified deleted hidden
  | Some _, None => FileDiff.mk added modified (deleted ++ [path]) hidden
  | Some before, Some after =>
      if bool_decide (before ≠ after)
      then FileDiff.mk added (modified ++ [path]) deleted hidden else diff
  | None, None => diff
  end.

Definition diff_files (previous current : list FileEntry.t) (hidden : Z) : FileDiff.t :=
  let previous_map := manifest_map previous in
  let current_map := manifest_map current in
  fold_left (diff_path previous_map current_map) (all_paths previous_map current_map)
    (FileDiff.mk [] [] [] hidden).

Definition hidden_changed_paths (previous current : BTreeMap str FileEntry.t) : Z :=
  len (List.filter (λ path, bool_decide (bt_get path previous ≠ bt_get path current))
         (all_paths previous current)).

Module DiffInput.
Record t := mk { visible : list FileEntry.t; hidden_by_path : BTreeMap str FileEntry.t }.
End DiffInput.

Definition diff_input (files : list FileEntry.t) (actor : Actor.t) : DiffInput.t :=
  fold_left (λ input file,
      if can_access actor (FileEntry.policy file)
      then DiffInput.mk (DiffInput.visible input ++ [file]) (DiffInput.hidden_by_path input)
      else DiffInput.mk (DiffInput.visible input)
             (bt_insert (FileEntry.path file) file (DiffInput.hidden_by_path input)))
    files (DiffInput.mk [] []).

Definition permissioned_diff (previous current : list FileEntry.t) (actor : Actor.t) :
    FileDiff.t :=
  let previous := diff_input previous actor in
  let current := diff_input current actor in
  let hidden :=
    hidden_changed_paths (DiffInput.hidden_by_path previous) (DiffInput.hidden_by_path current) in
  diff_files (DiffInput.visible previous) (DiffInput.visible current) hidden.

(** ** Facts about domains *)

Lemma has_domain_elem d ds : has_domain d ds = true ↔ d ∈ ds.
Proof.
  unfold has_domain. rewrite existsb_exists. setoid_rewrite bool_decide_eq_true. split.
  - intros (x & Hx & ->). by apply list_elem_of_In.
  - intros Hd. exists d. split; [by apply list_elem_of_In|done].
Qed.

(** An administrator sees everything; others share a domain with the policy. *)
Lemma can_access_spec actor policy :
  can_access actor policy = true ↔
  ADMIN_DOMAIN ∈ Actor.domains actor ∨
  ∃ d, d ∈ AccessPolicy.domains policy ∧ d ∈ Actor.domains actor.
Proof.
  unfold can_access. destruct (has_domain ADMIN_DOMAIN (Actor.domains actor)) eqn:Ha.
  { apply has_domain_elem in Ha. naive_solver. }
  rewrite <-not_true_iff_false, has_domain_elem in Ha. rewrite existsb_exists.
  setoid_rewrite has_domain_elem. setoid_rewrite list_elem_of_In. rewrite list_elem_of_In in Ha.
  naive_solver.
Qed.

Lemma push_policy_elem policies p q :
  q ∈ push_policy policies p ↔ q ∈ policies ∨ q = p.
Proof.
  unfold push_policy. destruct (existsb _ policies) eqn:He.
  - apply existsb_exists in He as (x & Hx & Hxp%bool_decide_eq_true). subst x.
    split; [by left|]. intros [?| ->]; [done|]. by apply list_elem_of_In.
  - rewrite elem_of_app, list_elem_of_singleton. done.
Qed.

Lemma push_policies_elem l policies q :
  q ∈ fold_left push_policy l policies ↔ q ∈ policies ∨ q ∈ l.
Proof.
  revert policies. induction l as [|p l IH]; intros policies; cbn [fold_left].
  { split; [by left|]. intros [?|Hn]; [done|by apply not_elem_of_nil in Hn]. }
  rewrite IH, push_policy_elem, elem_of_cons. naive_solver.
Qed.

Lemma union_policy_domains ds d :
  ds ≠ [] → d ∈ AccessPolicy.domains (union_policy ds) ↔ d ∈ ds.
Proof.
  intros Hne. pose proof (set_of_list_elems ds d) as He. unfold union_policy.
  destruct (set_elems (set_of_list ds)) as [|x xs] eqn:Hs; [|done].
  destruct ds as [|y ds]; [done|]. pose proof (set_of_list_elems (y :: ds) y) as Hy.
  rewrite Hs in Hy. destruct (not_elem_of_nil y). apply Hy. left.
Qed.

(** ** Views and diffs *)

(** The entry a manifest has at a path. *)
Definition entry_at (files : list FileEntry.t) (path : str) : option FileEntry.t :=
  List.find (λ f, bool_decide (FileEntry.path f = path)) files.

(** What the actor sees of it, and what is kept from the actor. *)
Definition seen (actor : Actor.t) (files : list FileEntry.t) (path : str) : option FileEntry.t :=
  f ← entry_at files path;
  if can_access actor (FileEntry.policy f) then Some f else None.
Definition unseen (actor : Actor.t) (files : list FileEntry.t) (path : str) : option FileEntry.t :=
  f ← entry_at files path;
  if can_access actor (FileEntry.policy f) then None else Some f.

Lemma file_at_Some files path f :
  NoDup (map FileEntry.path files) →
  entry_at files path = Some f ↔ f ∈ files ∧ FileEntry.path f = path.
Proof.
  unfold entry_at. intros Hnd. split.
  - intros Hf. apply find_some in Hf as [Hin Hp%bool_decide_eq_true].
    split; [by apply list_elem_of_In|done].
  - intros [Hin Hp]. induction files as [|g files IH]; [by apply not_elem_of_nil in Hin|].
    cbn in *. apply NoDup_cons in Hnd as [Hg Hnd]. apply elem_of_cons in Hin as [->|Hin].
    + by rewrite bool_decide_true.
    + rewrite bool_decide_false; [by apply IH|]. intros Hgp. apply Hg. rewrite Hgp, <-Hp.
      by apply list_elem_of_fmap_2.
Qed.

Lemma entry_at_None files path :
  entry_at files path = None ↔ path ∉ map FileEntry.path files.
Proof.
  unfold entry_at. induction files as [|g files IH]; cbn.
  { split; [|done]. intros _. apply not_elem_of_nil. }
  rewrite not_elem_of_cons. case_bool_decide; naive_solver.
Qed.

Lemma entry_at_ext files m path :
  NoDup (map FileEntry.path files) →
  (∀ f, bt_get path m = Some f ↔ f ∈ files ∧ FileEntry.path f = path) →
  bt_get path m = entry_at files path.
Proof.
  intros Hnd Hm. apply option_eq. intros f. by rewrite Hm, file_at_Some.
Qed.

(** Filling a map from a list without repeated paths. *)
Lemma manifest_map_acc files m :
  bt_wf m → NoDup (map FileEntry.path files) →
  (∀ f, f ∈ files → bt_get (FileEntry.path f) m = None) →
  let m' := fold_left (λ m e, bt_insert (FileEntry.path e) e m) files m in
  bt_wf m' ∧ ∀ path f, bt_get path m' = Some f ↔
    bt_get path m = Some f ∨ f ∈ files ∧ FileEntry.path f = path.
Proof.
  revert m. induction files as [|g files IH]; intros m Hm Hnd Hfresh; cbn [fold_left].
  { split; [done|]. intros path f. split; [by left|]. intros [?|[Hn _]]; [done|].
    by apply not_elem_of_nil in Hn. }
  cbn in Hnd. apply NoDup_cons in Hnd as [Hg Hnd].
  destruct (IH (bt_insert (FileEntry.path g) g m)) as [Hwf Hget]; [by apply bt_insert_wf|done| |].
  { intros f Hf. rewrite bt_get_insert_ne; [apply Hfresh; by right|].
    intros Heq. apply Hg. rewrite Heq. by apply list_elem_of_fmap_2. }
  split; [done|]. intros path f. rewrite Hget, bt_get_insert, elem_of_cons.
  case_decide as Hp.
  - subst path. rewrite (Hfresh g) by left. naive_solver.
  - naive_solver.
Qed.

Lemma manifest_map_get files path :
  NoDup (map FileEntry.path files) → bt_get path (manifest_map files) = entry_at files path.
Proof.
  intros Hnd. apply entry_at_ext; [done|].
  destruct (manifest_map_acc files [] bt_wf_nil Hnd) as [_ Hget]; [done|].
  intros f. unfold manifest_map. rewrite Hget. naive_solver.
Qed.

Lemma manifest_map_wf files : bt_wf (manifest_map files).
Proof.
  unfold manifest_map. assert (bt_wf ([] : BTreeMap str FileEntry.t)) as Hm by constructor.
  revert Hm. generalize ([] : BTreeMap str FileEntry.t).
  induction files as [|f files IH]; intros m Hm; cbn; [done|]. by apply IH, bt_insert_wf.
Qed.

Definition accessible (actor : Actor.t) (f : FileEntry.t) : bool :=
  can_access actor (FileEntry.policy f).

Lemma diff_input_acc actor files input :
  fold_left (λ input file,
      if can_access actor (FileEntry.policy file)
      then DiffInput.mk (DiffInput.visible input ++ [file]) (DiffInput.hidden_by_path input)
      else DiffInput.mk (DiffInput.visible input)
             (bt_insert (FileEntry.path file) file (DiffInput.hidden_by_path input)))
    files input
  = DiffInput.mk (DiffInput.visible input ++ List.filter (accessible actor) files)
      (fold_left (λ m e, bt_insert (FileEntry.path e) e m)
         (List.filter (λ f, negb (accessible actor f)) files) (DiffInput.hidden_by_path input)).
Proof.
  revert input. induction files as [|f files IH]; intros [v h]; cbn; [by rewrite app_nil_r|].
  rewrite IH. assert (accessible actor f = can_access actor (FileEntry.policy f)) as -> by done.
  destruct (can_access actor (FileEntry.policy f)); cbn; [by rewrite <-app_assoc|done].
Qed.

Lemma diff_input_spec actor files :
  diff_input files actor =
  DiffInput.mk (List.filter (accessible actor) files)
    (manifest_map (List.filter (λ f, negb (accessible actor f)) files)).
Proof. apply diff_input_acc. Qed.

Lemma filter_paths_nodup (P : FileEntry.t → bool) files :
  NoDup (map FileEntry.path files) → NoDup (map FileEntry.path (List.filter P files)).
Proof.
  induction files as [|f files IH]; cbn; [done|]. intros [Hf Hnd]%NoDup_cons.
  destruct (P f); [|by apply IH]. cbn. constructor; [|by apply IH].
  intros (g & Hg & Hin)%list_elem_of_fmap. apply Hf. rewrite Hg.
  apply list_elem_of_fmap_2. apply list_elem_of_In, filter_In in Hin as [Hin _].
  by apply list_elem_of_In.
Qed.

Lemma entry_at_filter (P : FileEntry.t → bool) files path :
  NoDup (map FileEntry.path files) →
  entry_at (List.filter P files) path = (f ← entry_at files path; if P f then Some f else None).
Proof.
  intros Hnd. apply option_eq. intros f.
  rewrite file_at_Some by (by apply filter_paths_nodup).
  rewrite list_elem_of_In, filter_In, <-list_elem_of_In.
  destruct (entry_at files path) as [g|] eqn:Hg; cbn.
  - pose proof (proj1 (file_at_Some files path g Hnd) Hg) as [Hgin Hgp]. split.
    + intros [[Hin Hp] Hfp]. assert (entry_at files path = Some f) as Hf by (by apply file_at_Some).
      rewrite Hg in Hf. injection Hf as ->. by rewrite Hp.
    + destruct (P g) eqn:Hp; [|done]. by intros [= <-].
  - split; [|done]. intros [[Hin _] Hfp]. apply entry_at_None in Hg. destruct Hg. rewrite <-Hfp.
    by apply list_elem_of_fmap_2.
Qed.

Lemma seen_entry actor files path :
  NoDup (map FileEntry.path files) →
  entry_at (List.filter (accessible actor) files) path = seen actor files path.
Proof. intros Hnd. by rewrite entry_at_filter. Qed.

Lemma unseen_entry actor files path :
  NoDup (map FileEntry.path files) →
  entry_at (List.filter (λ f, negb (accessible actor f)) files) path = unseen actor files path.
Proof.
  intros Hnd. rewrite entry_at_filter by done. unfold unseen, accessible.
  destruct (entry_at files path) as [f|]; cbn; [|done]. by destruct (can_access _ _).
Qed.

(** The three lists of a diff as filters of the paths. *)
Lemma diff_path_fold (previous current : BTreeMap str FileEntry.t) paths A M D h :
  fold_left (diff_path previous current) paths (FileDiff.mk A M D h) =
  let sel P := List.filter (λ p, P (bt_get p previous) (bt_get p current)) paths in
  FileDiff.mk
    (A ++ sel (λ a b, match a, b with None, Some _ => true | _, _ => false end))
    (M ++ sel (λ a b, match a, b with Some x, Some y => bool_decide (x ≠ y) | _, _ => false end))
    (D ++ sel (λ a b, match a, b with Some _, None => true | _, _ => false end)) h.
Proof.
  revert A M D. induction paths as [|p paths IH]; intros A M D; cbn; [by rewrite !app_nil_r|].
  destruct (bt_get p previous) as [x|], (bt_get p current) as [y|]; cbn;
    try (case_bool_decide); rewrite IH; cbn; by rewrite <-?app_assoc.
Qed.

Lemma all_paths_elem {V} (a b : BTreeMap str V) p :
  p ∈ all_paths a b ↔ bt_get p a ≠ None ∨ bt_get p b ≠ None.
Proof.
  unfold all_paths. rewrite set_of_list_elems, elem_of_app, <-!bt_contains_elem.
  unfold bt_contains. destruct (bt_get p a), (bt_get p b); naive_solver.
Qed.

Lemma all_paths_sorted {V} (a b : BTreeMap str V) : StronglySorted lt (all_paths a b).
Proof. apply set_of_list_wf. Qed.

Lemma filter_strongly_sorted (P : str → bool) l :
  StronglySorted lt l → StronglySorted lt (List.filter P l).
Proof.
  induction 1 as [|x l Hs IH Hx]; cbn; [constructor|]. destruct (P x); [|done]. constructor; [done|].
  rewrite Forall_forall in *. intros y Hy. apply Hx.
  apply list_elem_of_In, filter_In in Hy as [Hy _]. by apply list_elem_of_In.
Qed.

(** [l] is the sorted list of the paths that satisfy [P]. *)
Definition sorted_paths (l : list str) (P : str → Prop) : Prop :=
  StronglySorted lt l ∧ ∀ p, p ∈ l ↔ P p.

Lemma filter_sorted_paths {V} (a b : BTreeMap str V) (f : str → bool) (P : str → Prop) :
  (∀ p, f p = true ↔ P p) → (∀ p, P p → bt_get p a ≠ None ∨ bt_get p b ≠ None) →
  sorted_paths (List.filter f (all_paths a b)) P.
Proof.
  intros Hf HP. split; [apply filter_strongly_sorted, all_paths_sorted|].
  intros p. rewrite list_elem_of_In, filter_In, <-list_elem_of_In, all_paths_elem, Hf. naive_solver.
Qed.

(** C36: The diff an actor is shown. For manifests without repeated paths it lists, in order,
    exactly the paths whose accessible entries were added, changed or removed; about the rest
    it discloses one number: at how many paths the inaccessible entries differ. *)
Theorem permissioned_diff_exact previous current actor :
  NoDup (map FileEntry.path previous) → NoDup (map FileEntry.path current) →
  let diff := permissioned_diff previous current actor in
  let before := seen actor previous in
  let after := seen actor current in
  sorted_paths (FileDiff.added diff) (λ p, before p = None ∧ after p ≠ None) ∧
  sorted_paths (FileDiff.modified diff)
    (λ p, before p ≠ None ∧ after p ≠ None ∧ before p ≠ after p) ∧
  sorted_paths (FileDiff.deleted diff) (λ p, before p ≠ None ∧ after p = None) ∧
  ∃ l, sorted_paths l (λ p, unseen actor previous p ≠ unseen actor current p) ∧
       FileDiff.hidden diff = len l.
Proof.
  intros Hp Hc. unfold permissioned_diff. rewrite !diff_input_spec. cbn [DiffInput.visible
    DiffInput.hidden_by_path]. unfold diff_files. rewrite diff_path_fold. cbn.
  assert (∀ files path, NoDup (map FileEntry.path files) →
    bt_get path (manifest_map (List.filter (accessible actor) files)) = seen actor files path) as Hs.
  { intros files path Hnd. rewrite manifest_map_get, seen_entry; [done..|by apply filter_paths_nodup]. }
  assert (∀ files path, NoDup (map FileEntry.path files) →
    bt_get path (manifest_map (List.filter (λ f, negb (accessible actor f)) files))
    = unseen actor files path) as Hu.
  { intros files path Hnd. rewrite manifest_map_get, unseen_entry; [done..|by apply filter_paths_nodup]. }
  split_and!; [apply filter_sorted_paths; intros p; rewrite !Hs by done;
    destruct (seen actor previous p), (seen actor current p);
    rewrite ?bool_decide_eq_true; naive_solver..|].
  eexists. split; [|reflexivity]. apply filter_sorted_paths; intros p; rewrite !Hu by done.
  - by rewrite bool_decide_eq_true.
  - destruct (unseen actor previous p), (unseen actor current p); naive_solver.
Qed.

(** For concrete manifests. *)
Lemma nodup_paths (files : list FileEntry.t) :
  bool_decide (NoDup (map FileEntry.path files)) = true → NoDup (map FileEntry.path files).
Proof. apply bool_decide_eq_true. Qed.

Lemma permissioned_diff_exact_witness :
  let file path hash policy := FileEntry.mk false path false hash 1 policy in
  let previous := [file (lit "a") (lit "1") public_policy; file (lit "s") (lit "2") admin_policy] in
  let current := [file (lit "a") (lit "3") public_policy; file (lit "s") (lit "4") admin_policy] in
  let diff := permissioned_diff previous current (Actor.mk (lit "anyone") [PUBLIC_DOMAIN]) in
  FileDiff.modified diff = [lit "a"] ∧ FileDiff.hidden diff = 1 ∧
  sorted_paths (FileDiff.modified diff) (λ p,
    seen (Actor.mk (lit "anyone") [PUBLIC_DOMAIN]) previous p ≠ None ∧
    seen (Actor.mk (lit "anyone") [PUBLIC_DOMAIN]) current p ≠ None ∧
    seen (Actor.mk (lit "anyone") [PUBLIC_DOMAIN]) previous p
    ≠ seen (Actor.mk (lit "anyone") [PUBLIC_DOMAIN]) current p).
Proof.
  intros file previous current diff. split; [vm_compute; reflexivity|].
  split; [vm_compute; reflexivity|].
  destruct (permissioned_diff_exact previous current (Actor.mk (lit "anyone") [PUBLIC_DOMAIN]))
    as (_ & Hm & _); [apply nodup_paths; vm_compute; reflexivity..|]. exact Hm.
Defined.
