(* ===== verification/CliMerge.v ===== *)
(** * The merge plan of the command-line client: [plan_merge] and [src/tree_conflicts.rs]

    A three-way merge per path, followed by the grouping of file/directory clashes into
    conflicts over whole subtrees. *)

From Stdlib Require Import Sorting.Sorted.
From S2P Require Import Prelude Machine Order Utf8 Access.

(** ** Grouping file/directory conflicts *)

Definition contains (root path : str) : bool :=
  bool_decide (path = root) || starts_with (root ++ [SLASH]) path.

(** The prefixes of [pre ++ s] that end where a slash of [s] stands, shortest first:
    [path.match_indices('/').map(|(index, _)| &path[..index])]. *)
Fixpoint slash_prefixes (pre s : str) : list str :=
  match s with
  | [] => []
  | c :: s =>
      if c =? SLASH then pre :: slash_prefixes (pre ++ [c]) s
      else slash_prefixes (pre ++ [c]) s
  end.

Definition output_paths (plan : MergePlan.t) : list str :=
  map FileEntry.path (MergePlan.merged_files plan)
  ++ map PendingConflict.path (MergePlan.conflicts plan).

(** The shortest proper ancestor of [path] that is itself an output. *)
Definition clash_root (paths : BTreeSet str) (path : str) : option str :=
  List.find (λ ancestor, set_contains ancestor paths) (slash_prefixes [] path).

Definition group_roots (plan : MergePlan.t) : list str :=
  let paths := set_of_list (output_paths plan) in
  set_elems (set_of_list (omap (clash_root paths) (set_elems paths))).

(** The entries of the three sources at or below [root], in source order. *)
Definition subtree (sources : list (BTreeMap str FileEntry.t)) (root : str) : list FileEntry.t :=
  List.filter (λ file, contains root (FileEntry.path file)) (flat_map bt_values sources).

Definition subtree_conflict (sources : list (BTreeMap str FileEntry.t)) (root : str) :
    PendingConflict.t :=
  let policies := fold_left push_policy (map FileEntry.policy (subtree sources root)) [] in
  PendingConflict.mk root ConflictKind.FileDirectory
    (AccessPolicy.mk (set_elems (set_of_list (flat_map AccessPolicy.domains policies)))
       Redaction.Placeholder)
    policies.

Definition group_root (sources : list (BTreeMap str FileEntry.t)) (plan : MergePlan.t)
    (root : str) : MergePlan.t :=
  MergePlan.mk
    (List.filter (λ file, negb (contains root (FileEntry.path file))) (MergePlan.merged_files plan))
    (List.filter (λ c, negb (contains root (PendingConflict.path c))) (MergePlan.conflicts plan)
     ++ [subtree_conflict sources root]).

Definition group (plan : MergePlan.t) (sources : list (BTreeMap str FileEntry.t)) : MergePlan.t :=
  let plan := fold_left (group_root sources) (group_roots plan) plan in
  MergePlan.mk (MergePlan.merged_files plan)
    (sort_by_key PendingConflict.path (MergePlan.conflicts plan)).

(** ** The plan *)

Definition same_file (left_file right_file : option FileEntry.t) : bool :=
  match left_file, right_file with
  | None, None => true
  | Some l, Some r => bool_decide (l = r)
  | _, _ => false
  end.

Definition conflict_kind_for_entries (base line incoming : option FileEntry.t) : ConflictKind.t :=
  match base, line, incoming with
  | None, Some _, Some _ => ConflictKind.AddAdd
  | Some _, None, Some _ | Some _, Some _, None => ConflictKind.DeleteModify
  | _, _, _ => ConflictKind.BothModified
  end.

Definition push_file (plan : MergePlan.t) (entry : option FileEntry.t) : MergePlan.t :=
  match entry with
  | Some file => MergePlan.mk (MergePlan.merged_files plan ++ [file]) (MergePlan.conflicts plan)
  | None => plan
  end.

(** One iteration of the loop over all paths. *)
Definition plan_path (base line incoming : BTreeMap str FileEntry.t) (plan : MergePlan.t)
    (path : str) : MergePlan.t :=
  let base_entry := bt_get path base in
  let line_entry := bt_get path line in
  let incoming_entry := bt_get path incoming in
  if same_file line_entry incoming_entry then push_file plan line_entry
  else
    let line_changed := negb (same_file base_entry line_entry) in
    let incoming_changed := negb (same_file base_entry incoming_entry) in
    match line_changed, incoming_changed with
    | false, true => push_file plan incoming_entry
    | true, false => push_file plan line_entry
    | false, false => push_file plan base_entry
    | true, true =>
        MergePlan.mk (MergePlan.merged_files plan)
          (MergePlan.conflicts plan
           ++ [PendingConflict.mk path
                 (conflict_kind_for_entries base_entry line_entry incoming_entry)
                 (combined_policy line_entry incoming_entry base_entry)
                 (present_file_policies line_entry incoming_entry base_entry)])
    end.

Definition plan_merge (base line incoming : list FileEntry.t) : MergePlan.t :=
  let base := manifest_map base in
  let line := manifest_map line in
  let incoming := manifest_map incoming in
  let all_paths :=
    set_elems (set_of_list
      (set_elems (set_of_list (bt_keys base ++ bt_keys line)) ++ bt_keys incoming)) in
  let plan := fold_left (plan_path base line incoming) all_paths (MergePlan.mk [] []) in
  let plan := MergePlan.mk (sort_by_key FileEntry.path (MergePlan.merged_files plan))
                (MergePlan.conflicts plan) in
  group plan [base; line; incoming].

(** ** Containment of paths *)

Lemma starts_with_spec p s : starts_with p s = true ↔ ∃ rest, s = p ++ rest.
Proof.
  revert s. induction p as [|c p IH]; intros s; cbn.
  { split; [by exists s|done]. }
  destruct s as [|d s]; [split; [done|by intros [? ?]]|].
  rewrite andb_true_iff, Z.eqb_eq, IH. split.
  - intros [-> [rest ->]]. by exists rest.
  - intros [rest [= -> ->]]. eauto.
Qed.

(** [root] is a directory above [path]. *)
Definition above (root path : str) : Prop := ∃ rest, path = root ++ SLASH :: rest.

Lemma contains_spec root path : contains root path = true ↔ path = root ∨ above root path.
Proof.
  unfold contains, above. rewrite orb_true_iff, bool_decide_eq_true, starts_with_spec.
  by setoid_rewrite <-(assoc_L (++)).
Qed.

Lemma contains_refl root : contains root root = true.
Proof. apply contains_spec. by left. Qed.

Lemma above_trans a b c : above a b → above b c → above a c.
Proof.
  intros [r ->] [t ->]. exists (r ++ SLASH :: t). by rewrite <-app_assoc.
Qed.

Lemma above_irrefl a : ¬ above a a.
Proof. intros [r Hr]. apply (f_equal length) in Hr. rewrite length_app in Hr. cbn in Hr. lia. Qed.

Lemma above_length a b : above a b → (length a < length b)%nat.
Proof. intros [r ->]. rewrite length_app. cbn. lia. Qed.

(** Two directories above the same path are nested. *)
Lemma above_linear a b c : above a c → above b c → (length a < length b)%nat → above a b.
Proof.
  intros [r ->] [t Ht] Hlen. apply app_eq_inv in Ht as [(k & -> & Hk)|(k & -> & Hk)].
  - rewrite length_app in Hlen. lia.
  - destruct k as [|c k]; [rewrite app_nil_r in Hlen; lia|]. injection Hk as <- ->. by exists k.
Qed.

Lemma slash_prefixes_spec pre s a :
  a ∈ slash_prefixes pre s ↔ ∃ l r, s = l ++ SLASH :: r ∧ a = pre ++ l.
Proof.
  revert pre. induction s as [|c s IH]; intros pre; cbn.
  { split; [by intros Hn%not_elem_of_nil|]. intros (l & r & Hl & _). by destruct l. }
  assert ((∃ l r, c :: s = l ++ SLASH :: r ∧ a = pre ++ l) ↔
    (c = SLASH ∧ a = pre) ∨ ∃ l r, s = l ++ SLASH :: r ∧ a = (pre ++ [c]) ++ l) as ->.
  { split.
    - intros ([|d l] & r & Hs & ->); cbn in Hs; injection Hs as -> ->.
      + left. by rewrite app_nil_r.
      + right. exists l, r. by rewrite <-app_assoc.
    - intros [[-> ->]|(l & r & -> & ->)].
      + exists [], s. by rewrite app_nil_r.
      + exists (c :: l), r. by rewrite <-app_assoc. }
  destruct (Z.eqb_spec c SLASH); rewrite ?elem_of_cons, IH; naive_solver.
Qed.

Lemma slash_prefixes_above path a : a ∈ slash_prefixes [] path ↔ above a path.
Proof.
  rewrite slash_prefixes_spec. unfold above. cbn. split.
  - intros (l & r & -> & ->). by exists r.
  - intros [r ->]. by exists a, r.
Qed.

Lemma slash_prefixes_sorted pre s :
  StronglySorted (λ a b, (length a < length b)%nat) (slash_prefixes pre s).
Proof.
  revert pre. induction s as [|c s IH]; intros pre; cbn; [constructor|].
  destruct (c =? SLASH); [|apply IH]. constructor; [apply IH|].
  apply Forall_forall. intros a (l & r & _ & ->)%slash_prefixes_spec.
  rewrite !length_app. cbn. lia.
Qed.

(** The first hit of a search is before all others. *)
Lemma find_first {A} (f : A → bool) (R : A → A → Prop) l x y :
  StronglySorted R l → List.find f l = Some x → y ∈ l → f y = true → y = x ∨ R x y.
Proof.
  induction 1 as [|z l Hs IH Hz]; cbn; [done|]. destruct (f z) eqn:Hf.
  - intros [= <-] [->|Hy]%elem_of_cons _; [by left|right]. rewrite Forall_forall in Hz. by apply Hz.
  - intros Hx [->|Hy]%elem_of_cons Hfy; [congruence|]. by apply IH.
Qed.

Lemma clash_root_spec paths path r :
  clash_root paths path = Some r →
  above r path ∧ r ∈ set_elems paths ∧
  ∀ a, above a path → a ∈ set_elems paths → a = r ∨ above r a.
Proof.
  intros Hr. unfold clash_root in Hr. pose proof (find_some _ _ Hr) as [Hin Hp].
  apply list_elem_of_In, slash_prefixes_above in Hin. apply set_contains_elem in Hp.
  split_and!; [done..|]. intros a Ha Hpa.
  destruct (find_first _ _ _ _ a (slash_prefixes_sorted [] path) Hr) as [->|Hlt];
    [by apply slash_prefixes_above|by apply set_contains_elem|by left|right].
  by eapply above_linear.
Qed.

Lemma clash_root_None paths path a :
  clash_root paths path = None → above a path → a ∉ set_elems paths.
Proof.
  unfold clash_root. intros Hn Ha Hin. apply slash_prefixes_above, list_elem_of_In in Ha.
  pose proof (find_none _ _ Hn a Ha) as Hf. cbn in Hf. apply set_contains_elem in Hin. congruence.
Qed.

(** ** What grouping does *)

Section group.
Context (plan : MergePlan.t) (sources : list (BTreeMap str FileEntry.t)).
Notation outputs := (output_paths plan).

Lemma group_roots_elem r :
  r ∈ group_roots plan ↔
  ∃ p, p ∈ outputs ∧ clash_root (set_of_list outputs) p = Some r.
Proof.
  unfold group_roots. rewrite set_of_list_elems, list_elem_of_omap.
  by setoid_rewrite set_of_list_elems.
Qed.

(** The roots are the topmost outputs with outputs below them. *)
Lemma group_roots_spec r :
  r ∈ group_roots plan ↔
  r ∈ outputs ∧ (∃ q, q ∈ outputs ∧ above r q) ∧ ∀ a, a ∈ outputs → ¬ above a r.
Proof.
  rewrite group_roots_elem. split.
  - intros (p & Hp & (Hrp & Hr & Hmin)%clash_root_spec). rewrite set_of_list_elems in Hr.
    split_and!; [done|by exists p|]. intros a Ha Har.
    destruct (Hmin a) as [->|Hra]; [by eapply above_trans|by apply set_of_list_elems| |].
    + by apply above_irrefl in Har.
    + by apply (above_irrefl a), (above_trans a r a).
  - intros (Hr & (q & Hq & Hrq) & Htop). exists q. split; [done|].
    destruct (clash_root (set_of_list outputs) q) as [r'|] eqn:Hc.
    + apply clash_root_spec in Hc as (Hrq' & Hr' & Hmin). rewrite set_of_list_elems in Hr'.
      destruct (Hmin r Hrq) as [->|Ha]; [by apply set_of_list_elems|done|]. by destruct (Htop r' Hr').
    + destruct (clash_root_None _ _ r Hc Hrq). by apply set_of_list_elems.
Qed.

Lemma group_roots_nodup : NoDup (group_roots plan).
Proof. apply bt_wf_nodup, set_of_list_wf. Qed.

Lemma group_roots_apart r r' :
  r ∈ group_roots plan → r' ∈ group_roots plan → r' ≠ r → contains r r' = false.
Proof.
  intros (Hr & _)%group_roots_spec (_ & _ & Htop)%group_roots_spec Hne.
  apply not_true_iff_false. intros [?|Ha]%contains_spec; [done|]. by apply (Htop r).
Qed.

(** [path] is outside the subtrees of all roots. *)
Definition kept (roots : list str) (path : str) : bool :=
  forallb (λ r, negb (contains r path)) roots.

Lemma kept_snoc roots r path : kept (roots ++ [r]) path = kept roots path && negb (contains r path).
Proof. unfold kept. rewrite forallb_app. cbn. by rewrite andb_true_r. Qed.

Lemma filter_filter_andb {A} (f g : A → bool) l :
  List.filter f (List.filter g l) = List.filter (λ x, g x && f x) l.
Proof.
  induction l as [|x l IH]; cbn; [done|]. destruct (g x); cbn; [|done].
  destruct (f x); by rewrite IH.
Qed.

Lemma filter_all {A} (f : A → bool) l : (∀ x, x ∈ l → f x = true) → List.filter f l = l.
Proof.
  induction l as [|x l IH]; cbn; intros Hf; [done|]. rewrite Hf by left. f_equal.
  apply IH. intros y Hy. apply Hf. by right.
Qed.

Lemma group_fold roots :
  (∀ r r', r ∈ roots → r' ∈ roots → r' ≠ r → contains r r' = false) → NoDup roots →
  fold_left (group_root sources) roots plan =
  MergePlan.mk
    (List.filter (λ f, kept roots (FileEntry.path f)) (MergePlan.merged_files plan))
    (List.filter (λ c, kept roots (PendingConflict.path c)) (MergePlan.conflicts plan)
     ++ map (subtree_conflict sources) roots).
Proof.
  induction roots as [|r roots IH] using rev_ind; intros Hap Hnd.
  { cbn. rewrite !filter_all by done. rewrite app_nil_r. by destruct plan. }
  apply NoDup_app in Hnd as (Hnd & Hr & _). rewrite fold_left_app. cbn [fold_left].
  rewrite IH; [|by intros a b Ha Hb; apply Hap; apply elem_of_app; left|done].
  unfold group_root. cbn [MergePlan.merged_files MergePlan.conflicts].
  rewrite List.filter_app, !filter_filter_andb, map_app, app_assoc. cbn [map]. f_equal.
  - apply List.filter_ext. intros f. by rewrite kept_snoc.
  - f_equal. f_equal.
    + apply List.filter_ext. intros c. by rewrite kept_snoc.
    + apply filter_all. intros c (r' & -> & Hr')%list_elem_of_fmap. cbn.
      rewrite (Hap r r'); [done|apply elem_of_app; right; left|apply elem_of_app; by left|].
      intros ->. apply (Hr r Hr'). left.
Qed.

Lemma group_spec :
  group plan sources =
  MergePlan.mk
    (List.filter (λ f, kept (group_roots plan) (FileEntry.path f)) (MergePlan.merged_files plan))
    (sort_by_key PendingConflict.path
       (List.filter (λ c, kept (group_roots plan) (PendingConflict.path c)) (MergePlan.conflicts plan)
        ++ map (subtree_conflict sources) (group_roots plan))).
Proof.
  unfold group. rewrite group_fold; [done|intros; by apply group_roots_apart|apply group_roots_nodup].
Qed.

(** An output stays as it is iff no other output is above or below it. *)
Definition isolated (path : str) : Prop :=
  ∀ q, q ∈ outputs → ¬ above path q ∧ ¬ above q path.

Lemma kept_isolated p : p ∈ outputs → kept (group_roots plan) p = true ↔ isolated p.
Proof.
  intros Hp. unfold kept. rewrite forallb_Forall, Forall_forall. setoid_rewrite negb_true_iff. split.
  - intros Hk q Hq. split.
    + intros Hpq. destruct (clash_root (set_of_list outputs) q) as [r|] eqn:Hc.
      * assert (r ∈ group_roots plan) as Hr by (apply group_roots_elem; eauto).
        apply clash_root_spec in Hc as (_ & _ & Hmin). specialize (Hk r Hr).
        apply not_true_iff_false in Hk. apply Hk, contains_spec.
        apply (Hmin p Hpq). by apply set_of_list_elems.
      * destruct (clash_root_None _ _ p Hc Hpq). by apply set_of_list_elems.
    + intros Hqp. destruct (clash_root (set_of_list outputs) p) as [r|] eqn:Hc.
      * assert (r ∈ group_roots plan) as Hr by (apply group_roots_elem; eauto).
        apply clash_root_spec in Hc as (Hrp & _). specialize (Hk r Hr).
        apply not_true_iff_false in Hk. apply Hk, contains_spec. by right.
      * destruct (clash_root_None _ _ q Hc Hqp). by apply set_of_list_elems.
  - intros Hiso r (Hr & (q & Hq & Hrq) & _)%group_roots_spec. apply not_true_iff_false.
    intros [->|Ha]%contains_spec; [by destruct (Hiso q Hq)|by destruct (Hiso r Hr)].
Qed.
End group.
