(* ===== verification/CliMergeSpec.v ===== *)
(** * The merge plan of the command-line client: what it guarantees *)

From Stdlib Require Import Sorting.Sorted.
From S2P Require Import Prelude Machine Order Utf8 Access CliMerge.

(** ** The rule for one path *)

Inductive outcome := Take (entry : option FileEntry.t) | Clash.

(** The textbook three-way rule: agreement, then the side that changed. *)
Definition three_way (base line incoming : option FileEntry.t) : outcome :=
  if decide (line = incoming) then Take line
  else if decide (line = base) then Take incoming
  else if decide (incoming = base) then Take line
  else Clash.

Definition clash_conflict (path : str) (base line incoming : option FileEntry.t) :
    PendingConflict.t :=
  PendingConflict.mk path (conflict_kind_for_entries base line incoming)
    (combined_policy line incoming base) (present_file_policies line incoming base).

Lemma same_file_eq l r : same_file l r = bool_decide (l = r).
Proof.
  destruct l, r; cbn; repeat case_bool_decide; naive_solver.
Qed.

Section plan.
Context (B L I : BTreeMap str FileEntry.t).
Notation rule p := (three_way (bt_get p B) (bt_get p L) (bt_get p I)).
Notation conflict_at p := (clash_conflict p (bt_get p B) (bt_get p L) (bt_get p I)).

Lemma plan_path_rule plan p :
  plan_path B L I plan p =
  match rule p with
  | Take entry => push_file plan entry
  | Clash => MergePlan.mk (MergePlan.merged_files plan) (MergePlan.conflicts plan ++ [conflict_at p])
  end.
Proof.
  unfold plan_path, three_way. rewrite !same_file_eq.
  repeat (case_decide || case_bool_decide); cbn; try congruence; done.
Qed.

Definition taken (p : str) : option FileEntry.t :=
  match rule p with Take entry => entry | Clash => None end.
Definition clashing (p : str) : option PendingConflict.t :=
  match rule p with Take _ => None | Clash => Some (conflict_at p) end.

Lemma plan_fold paths plan :
  fold_left (plan_path B L I) paths plan =
  MergePlan.mk (MergePlan.merged_files plan ++ omap taken paths)
    (MergePlan.conflicts plan ++ omap clashing paths).
Proof.
  revert plan. induction paths as [|p paths IH]; intros plan; cbn [fold_left omap list_omap].
  { rewrite !app_nil_r. by destruct plan. }
  rewrite IH, plan_path_rule. unfold taken at 2, clashing at 2.
  destruct (rule p) as [[f|]|]; cbn; by rewrite <-?app_assoc.
Qed.
End plan.

(** ** The whole plan *)

Section spec.
Context (base line incoming : list FileEntry.t).
Context (base_nodup : NoDup (map FileEntry.path base)).
Context (line_nodup : NoDup (map FileEntry.path line)).
Context (incoming_nodup : NoDup (map FileEntry.path incoming)).

Definition rule_at (p : str) : outcome :=
  three_way (entry_at base p) (entry_at line p) (entry_at incoming p).

(** The rule leaves something at [p]: an entry or a conflict. *)
Definition output (p : str) : Prop := rule_at p ≠ Take None.

(** No output above or below [p]. *)
Definition alone (p : str) : Prop := ∀ q, output q → ¬ above p q ∧ ¬ above q p.

(** The topmost output of a file/directory clash. *)
Definition clash_top (r : str) : Prop :=
  output r ∧ (∃ q, output q ∧ above r q) ∧ ∀ a, output a → ¬ above a r.

Notation B := (manifest_map base).
Notation L := (manifest_map line).
Notation I := (manifest_map incoming).
Notation paths := (set_elems (set_of_list
  (set_elems (set_of_list (bt_keys B ++ bt_keys L)) ++ bt_keys I))).

Lemma rule_at_maps p : three_way (bt_get p B) (bt_get p L) (bt_get p I) = rule_at p.
Proof. by rewrite !manifest_map_get. Qed.

Lemma output_listed p : output p → p ∈ paths.
Proof.
  intros Ho. rewrite set_of_list_elems, elem_of_app, set_of_list_elems, elem_of_app.
  rewrite <-!bt_contains_elem. unfold bt_contains. rewrite !manifest_map_get by done.
  unfold output, rule_at, three_way in Ho.
  destruct (entry_at base p), (entry_at line p), (entry_at incoming p); auto.
Qed.

(** Entries are found at their own paths. *)
Lemma rule_path p f : rule_at p = Take (Some f) → FileEntry.path f = p.
Proof.
  unfold rule_at, three_way. intros Hr.
  assert (entry_at line p = Some f ∨ entry_at incoming p = Some f) as [Hf|Hf]
    by (repeat case_decide; naive_solver);
    by apply file_at_Some in Hf as [_ ?].
Qed.

Lemma taken_spec p : taken B L I p = match rule_at p with Take entry => entry | Clash => None end.
Proof. unfold taken. by rewrite rule_at_maps. Qed.

Definition conflict_at (p : str) : PendingConflict.t :=
  clash_conflict p (entry_at base p) (entry_at line p) (entry_at incoming p).

Lemma clashing_spec p :
  clashing B L I p = match rule_at p with Take _ => None | Clash => Some (conflict_at p) end.
Proof. unfold clashing. rewrite rule_at_maps. unfold conflict_at. by rewrite !manifest_map_get. Qed.

(** The plan before grouping. *)
Definition raw_plan : MergePlan.t :=
  MergePlan.mk (sort_by_key FileEntry.path (omap (taken B L I) paths)) (omap (clashing B L I) paths).

Lemma plan_merge_raw : plan_merge base line incoming = group raw_plan [B; L; I].
Proof. unfold plan_merge. by rewrite plan_fold. Qed.

Lemma raw_merged f : f ∈ MergePlan.merged_files raw_plan ↔ rule_at (FileEntry.path f) = Take (Some f).
Proof.
  cbn. rewrite sort_by_key_perm, list_elem_of_omap. setoid_rewrite taken_spec. split.
  - intros (p & _ & Hp). destruct (rule_at p) as [entry|] eqn:Hr; [|done]. subst entry.
    by rewrite (rule_path p f Hr).
  - intros Hr. exists (FileEntry.path f). rewrite Hr. split; [|done].
    apply output_listed. unfold output. by rewrite Hr.
Qed.

Lemma raw_conflicts c :
  c ∈ MergePlan.conflicts raw_plan ↔ ∃ p, rule_at p = Clash ∧ c = conflict_at p.
Proof.
  cbn. rewrite list_elem_of_omap. setoid_rewrite clashing_spec. split.
  - intros (p & _ & Hp). destruct (rule_at p) eqn:Hr; [done|]. injection Hp as <-. by exists p.
  - intros (p & Hr & ->). exists p. rewrite Hr. split; [|done]. apply output_listed.
    unfold output. by rewrite Hr.
Qed.

Lemma raw_outputs p : p ∈ output_paths raw_plan ↔ output p.
Proof.
  unfold output_paths, output. rewrite elem_of_app, !list_elem_of_fmap.
  setoid_rewrite raw_merged. setoid_rewrite raw_conflicts. split.
  - intros [(f & -> & ->)|(c & -> & q & Hq & ->)]; [done|]. cbn. by rewrite Hq.
  - intros Ho. destruct (rule_at p) as [[f|]|] eqn:Hr; [left|done|right].
    + exists f. pose proof (rule_path p f Hr) as Hp. by rewrite Hp.
    + exists (conflict_at p). split; [done|]. by exists p.
Qed.

Lemma isolated_alone p : isolated raw_plan p ↔ alone p.
Proof. unfold isolated, alone. by setoid_rewrite raw_outputs. Qed.

Lemma roots_clash_top r : r ∈ group_roots raw_plan ↔ clash_top r.
Proof.
  rewrite group_roots_spec. unfold clash_top. rewrite raw_outputs. by setoid_rewrite raw_outputs.
Qed.

Lemma plan_merged f :
  f ∈ MergePlan.merged_files (plan_merge base line incoming) ↔
  rule_at (FileEntry.path f) = Take (Some f) ∧ alone (FileEntry.path f).
Proof.
  rewrite plan_merge_raw, group_spec. cbn [MergePlan.merged_files].
  rewrite list_elem_of_In, filter_In, <-list_elem_of_In, raw_merged.
  split; intros [Hr Hk]; (split; [done|]); [apply isolated_alone|apply isolated_alone in Hk];
    apply kept_isolated; try done; apply raw_outputs; unfold output; by rewrite Hr.
Qed.

Lemma plan_conflicts c :
  c ∈ MergePlan.conflicts (plan_merge base line incoming) ↔
  (∃ p, rule_at p = Clash ∧ alone p ∧ c = conflict_at p) ∨
  (∃ r, clash_top r ∧ c = subtree_conflict [B; L; I] r).
Proof.
  rewrite plan_merge_raw, group_spec. cbn [MergePlan.conflicts].
  rewrite sort_by_key_perm, elem_of_app, list_elem_of_fmap.
  rewrite list_elem_of_In, filter_In, <-list_elem_of_In, raw_conflicts.
  setoid_rewrite roots_clash_top. split; (intros [Hl|Hr]; [left|right]).
  - destruct Hl as [(p & Hr & ->) Hk]. exists p. split_and!; [done| |done].
    change (kept (group_roots raw_plan) p = true) in Hk.
    apply isolated_alone. apply kept_isolated; [|done]. apply raw_outputs. unfold output. by rewrite Hr.
  - destruct Hr as (r & -> & Hr). by exists r.
  - destruct Hl as (p & Hr & Ha & ->). split; [by exists p|].
    change (kept (group_roots raw_plan) p = true).
    apply isolated_alone in Ha. apply kept_isolated; [|done]. apply raw_outputs. unfold output. by rewrite Hr.
  - destruct Hr as (r & Hr & ->). by exists r.
Qed.

(** ** Order *)

Lemma omap_keys_nodup {A K} (f : K → option A) (key : A → K) l :
  (∀ k x, f k = Some x → key x = k) → NoDup l → NoDup (map key (omap f l)).
Proof.
  intros Hkey. induction 1 as [|k l Hk _ IH]; cbn; [constructor|].
  destruct (f k) as [x|] eqn:Hx; [|done]. cbn. constructor; [|done].
  rewrite (Hkey k x Hx). intros (y & Hy & (k' & Hk' & Hf)%list_elem_of_omap)%list_elem_of_fmap.
  rewrite (Hkey k' y Hf) in Hy. by subst k'.
Qed.

Lemma paths_nodup : NoDup paths.
Proof. apply bt_wf_nodup, set_of_list_wf. Qed.

Lemma filter_key_sorted {A} (key : A → str) (P : A → bool) l :
  StronglySorted (key_lt key) l → StronglySorted (key_lt key) (List.filter P l).
Proof.
  induction 1 as [|x l Hs IH Hx]; cbn; [constructor|]. destruct (P x); [|done]. constructor; [done|].
  rewrite Forall_forall in *. intros y Hy. apply Hx.
  apply list_elem_of_In, filter_In in Hy as [Hy _]. by apply list_elem_of_In.
Qed.

Lemma plan_merged_sorted :
  StronglySorted (key_lt FileEntry.path) (MergePlan.merged_files (plan_merge base line incoming)).
Proof.
  rewrite plan_merge_raw, group_spec. cbn. apply filter_key_sorted, sort_by_key_nodup.
  apply omap_keys_nodup; [|apply paths_nodup]. intros p f. rewrite taken_spec.
  destruct (rule_at p) as [entry|] eqn:Hr; [|done]. intros ->. by apply rule_path.
Qed.

Lemma plan_conflicts_sorted :
  StronglySorted (key_lt PendingConflict.path)
    (MergePlan.conflicts (plan_merge base line incoming)).
Proof.
  rewrite plan_merge_raw, group_spec. cbn [MergePlan.conflicts]. apply sort_by_key_nodup.
  rewrite map_app, map_map. cbn [PendingConflict.path subtree_conflict].
  rewrite map_id. apply NoDup_app. split_and!.
  - apply (strongly_sorted_nodup PendingConflict.path), filter_key_sorted.
    apply strongly_sorted_key. unfold raw_plan. cbn [MergePlan.conflicts].
    assert (StronglySorted lt paths) as Hs by apply set_of_list_wf. revert Hs.
    generalize paths. intros l Hl. induction Hl as [|p l _ IH Hp]; cbn; [constructor|].
    rewrite clashing_spec. destruct (rule_at p); [done|]. cbn. constructor; [done|].
    rewrite Forall_forall in *. intros q (c & -> & (q' & Hq & Hc)%list_elem_of_omap)%list_elem_of_fmap.
    rewrite clashing_spec in Hc. destruct (rule_at q'); [done|]. injection Hc as <-. by apply Hp.
  - intros p (c & -> & Hc)%list_elem_of_fmap Hr.
    apply list_elem_of_In, filter_In in Hc as [_ Hk]. unfold kept in Hk.
    rewrite forallb_Forall, Forall_forall in Hk. specialize (Hk _ Hr). by rewrite contains_refl in Hk.
  - apply group_roots_nodup.
Qed.

Lemma plan_outputs p :
  p ∈ output_paths (plan_merge base line incoming) → output p ∧ (alone p ∨ clash_top p).
Proof.
  unfold output_paths. rewrite elem_of_app, !list_elem_of_fmap.
  intros [(f & -> & [Hr Ha]%plan_merged)|(c & -> & [(q & Hr & Ha & ->)|(r & Hr & ->)]%plan_conflicts)].
  - split; [unfold output; by rewrite Hr|by left].
  - split; [unfold output; cbn; by rewrite Hr|by left].
  - split; [apply Hr|by right].
Qed.

(** C32: What the client's merge plan contains. For manifests without repeated paths, the
    merged files are exactly the entries that the three-way rule takes at paths with no other
    output above or below; the conflicts are exactly the clashes at such paths and one subtree
    conflict for each topmost output that has outputs below it; both lists are strictly ordered
    by path, and no output of the plan lies above another. *)
Theorem plan_merge_exact :
  let plan := plan_merge base line incoming in
  (∀ f, f ∈ MergePlan.merged_files plan ↔
     rule_at (FileEntry.path f) = Take (Some f) ∧ alone (FileEntry.path f)) ∧
  (∀ c, c ∈ MergePlan.conflicts plan ↔
     (∃ p, rule_at p = Clash ∧ alone p ∧ c = conflict_at p) ∨
     (∃ r, clash_top r ∧ c = subtree_conflict [B; L; I] r)) ∧
  StronglySorted (key_lt FileEntry.path) (MergePlan.merged_files plan) ∧
  StronglySorted (key_lt PendingConflict.path) (MergePlan.conflicts plan) ∧
  (∀ p q, p ∈ output_paths plan → q ∈ output_paths plan → ¬ above p q).
Proof.
  split_and!; [apply plan_merged|apply plan_conflicts|apply plan_merged_sorted
    |apply plan_conflicts_sorted|].
  intros p q [_ Hp]%plan_outputs [Hq Hq']%plan_outputs Hpq.
  assert (output p) as Ho.
  { destruct Hp as [Hp|[? _]]; [|done]. by destruct (Hp q Hq). }
  destruct Hq' as [Hq'|(_ & _ & Htop)]; [by destruct (Hq' p Ho)|by apply (Htop p)].
Qed.

(** ** Access to conflicts *)

Lemma sources_elem f :
  f ∈ flat_map bt_values [B; L; I] ↔ f ∈ base ∨ f ∈ line ∨ f ∈ incoming.
Proof.
  assert (∀ files, NoDup (map FileEntry.path files) →
    (f ∈ bt_values (manifest_map files) ↔ f ∈ files)) as Hv.
  { intros files Hnd. unfold bt_values. rewrite list_elem_of_fmap. split.
    - intros ([k g] & -> & Hin). apply bt_get_elem_iff in Hin; [|apply manifest_map_wf].
      rewrite manifest_map_get in Hin by done. by apply file_at_Some in Hin as [? _].
    - intros Hf. exists (FileEntry.path f, f). split; [done|].
      apply bt_get_elem_iff; [apply manifest_map_wf|]. rewrite manifest_map_get by done.
      by apply file_at_Some. }
  cbn. rewrite app_nil_r, !elem_of_app, !Hv by done. done.
Qed.

(** The source files a conflict is about. *)
Definition concerns (c : PendingConflict.t) (f : FileEntry.t) : Prop :=
  (f ∈ base ∨ f ∈ line ∨ f ∈ incoming) ∧
  (FileEntry.path f = PendingConflict.path c ∨
   PendingConflict.kind c = ConflictKind.FileDirectory ∧
   above (PendingConflict.path c) (FileEntry.path f)).

Lemma present_elem (a b c : option FileEntry.t) f :
  f ∈ present [a; b; c] ↔ a = Some f ∨ b = Some f ∨ c = Some f.
Proof.
  unfold present. rewrite list_elem_of_omap. setoid_rewrite elem_of_cons.
  setoid_rewrite elem_of_cons. setoid_rewrite list_elem_of_singleton. naive_solver.
Qed.

Lemma conflict_policies c q :
  c ∈ MergePlan.conflicts (plan_merge base line incoming) →
  q ∈ PendingConflict.file_policies c ↔ ∃ f, concerns c f ∧ FileEntry.policy f = q.
Proof.
  unfold concerns. intros [(p & Hr & _ & ->)|(r & _ & ->)]%plan_conflicts; cbn.
  - unfold present_file_policies. rewrite push_policies_elem, list_elem_of_fmap.
    setoid_rewrite present_elem.
    assert (conflict_kind_for_entries (entry_at base p) (entry_at line p) (entry_at incoming p)
      ≠ ConflictKind.FileDirectory) as Hk
      by (by destruct (entry_at base p), (entry_at line p), (entry_at incoming p)).
    assert (∀ f, (entry_at line p = Some f ∨ entry_at incoming p = Some f ∨ entry_at base p = Some f) ↔
      (f ∈ base ∨ f ∈ line ∨ f ∈ incoming) ∧ FileEntry.path f = p) as Hf.
    { intros f. rewrite !file_at_Some by done. tauto. }
    setoid_rewrite Hf. split.
    + intros [Hn|(f & -> & Hin & Hp)]; [by apply not_elem_of_nil in Hn|]. eauto.
    + intros (f & (Hin & [Hp|[? _]]) & <-); [|done]. right. eauto.
  - rewrite push_policies_elem, list_elem_of_fmap. unfold subtree.
    assert (∀ f, f ∈ List.filter (λ file, contains r (FileEntry.path file))
      (flat_map bt_values [B; L; I]) ↔
      (f ∈ base ∨ f ∈ line ∨ f ∈ incoming) ∧ (FileEntry.path f = r ∨ above r (FileEntry.path f))) as Hf.
    { intros f. rewrite list_elem_of_In, filter_In, <-list_elem_of_In, sources_elem, contains_spec. done. }
    setoid_rewrite Hf. split.
    + intros [Hn|(f & -> & Hin & Hp)]; [by apply not_elem_of_nil in Hn|]. naive_solver.
    + intros (f & (Hin & Hp) & <-). right. exists f. naive_solver.
Qed.

(** C35: Who may see a conflict. A conflict of the plan is accessible to an actor exactly when
    the actor may read every version, in any of the three trees, of the file it is about,
    and for a file/directory conflict every file in the whole clashing subtree. *)
Theorem conflict_access_exact actor c :
  c ∈ MergePlan.conflicts (plan_merge base line incoming) →
  can_access_pending_conflict actor c = true ↔
  ∀ f, concerns c f → can_access actor (FileEntry.policy f) = true.
Proof.
  intros Hc. unfold can_access_pending_conflict. rewrite forallb_Forall, Forall_forall.
  split.
  - intros Hall f Hf. apply Hall. apply (conflict_policies c _ Hc). eauto.
  - intros Hall q (f & Hf & <-)%(conflict_policies c _ Hc). by apply Hall.
Qed.
End spec.

(** ** Unit laws *)

(** A tree as the client stores it: strictly ordered by path, no file above another. *)
Definition tree_ok (files : list FileEntry.t) : Prop :=
  StronglySorted (key_lt FileEntry.path) files ∧
  ∀ f g, f ∈ files → g ∈ files → ¬ above (FileEntry.path f) (FileEntry.path g).

Lemma tree_ok_nodup files : tree_ok files → NoDup (map FileEntry.path files).
Proof. intros [Hs _]. by apply strongly_sorted_nodup. Qed.

(** A merge whose rule always takes the entry of [result] gives [result]. *)
Lemma plan_merge_takes base line incoming result :
  NoDup (map FileEntry.path base) → NoDup (map FileEntry.path line) →
  NoDup (map FileEntry.path incoming) → tree_ok result →
  (∀ p, rule_at base line incoming p = Take (entry_at result p)) →
  plan_merge base line incoming = MergePlan.mk result [].
Proof.
  intros Hb Hl Hi Hr Hrule. pose proof (tree_ok_nodup _ Hr) as Hnd. destruct Hr as [Hs Hap].
  assert (∀ p, output base line incoming p ↔ ∃ f, f ∈ result ∧ FileEntry.path f = p) as Hout.
  { intros p. unfold output. rewrite Hrule. setoid_rewrite <-(file_at_Some result p _ Hnd).
    destruct (entry_at result p); naive_solver. }
  assert (∀ p q, output base line incoming p → output base line incoming q → ¬ above p q) as Hflat.
  { intros p q (f & Hf & <-)%Hout (g & Hg & <-)%Hout. by apply Hap. }
  destruct (plan_merge base line incoming) as [merged conflicts] eqn:Hplan. f_equal.
  - apply (key_lt_unique FileEntry.path); [|done|].
    { pose proof (plan_merged_sorted base line incoming Hb Hl Hi) as Hms. by rewrite Hplan in Hms. }
    pose proof (plan_merged_sorted base line incoming Hb Hl Hi) as Hms. rewrite Hplan in Hms.
    apply NoDup_Permutation;
      [by eapply NoDup_fmap_1, (strongly_sorted_nodup FileEntry.path)
      |by eapply NoDup_fmap_1, Hnd|].
    intros f. pose proof (plan_merged base line incoming Hb Hl Hi f) as Hf. rewrite Hplan in Hf.
    cbn in Hf. rewrite Hf, Hrule. split.
    + intros [[= He] _]. by apply file_at_Some in He as [? _].
    + intros Hin. assert (entry_at result (FileEntry.path f) = Some f) as He by (by apply file_at_Some).
      rewrite He. split; [done|]. intros q Hq.
      assert (output base line incoming (FileEntry.path f)) as Ho by (apply Hout; eauto). auto.
  - destruct conflicts as [|c conflicts]; [done|].
    pose proof (plan_conflicts base line incoming Hb Hl Hi c) as Hc. rewrite Hplan in Hc. cbn in Hc.
    destruct (proj1 Hc ltac:(left)) as [(p & Hclash & _)|(r & (Ho & (q & Hq & Hrq) & _) & _)].
    + by rewrite Hrule in Hclash.
    + by destruct (Hflat r q Ho Hq).
Qed.

(** A merge with an unchanged side is the other side, and two equal sides merge to
    themselves: on valid trees the plan then has no conflicts and exactly those files. *)
Theorem plan_merge_unit_laws t u :
  tree_ok t → tree_ok u →
  plan_merge t t u = MergePlan.mk u [] ∧ plan_merge t u t = MergePlan.mk u [] ∧
  plan_merge t u u = MergePlan.mk u [].
Proof.
  intros Ht Hu. pose proof (tree_ok_nodup _ Ht). pose proof (tree_ok_nodup _ Hu).
  split_and!; apply plan_merge_takes; try done; intros p; unfold rule_at, three_way;
    repeat case_decide; congruence.
Qed.

(** ** Witnesses *)

Definition sample_file (path hash : str) (policy : AccessPolicy.t) : FileEntry.t :=
  FileEntry.mk false path false hash 1 policy.
Definition sample_tree : list FileEntry.t :=
  [sample_file (lit "a") (lit "x") public_policy; sample_file (lit "d") (lit "y") admin_policy].
(** One side turned the file [a] into a directory, the other changed it. *)
Definition sample_line : list FileEntry.t :=
  [sample_file (lit "a/b") (lit "x") public_policy; sample_file (lit "d") (lit "y") admin_policy].
Definition sample_incoming : list FileEntry.t :=
  [sample_file (lit "a") (lit "z") public_policy; sample_file (lit "d") (lit "w") admin_policy].

Lemma plan_merge_exact_witness :
  StronglySorted (key_lt PendingConflict.path)
    (MergePlan.conflicts (plan_merge sample_tree sample_line sample_incoming)) ∧
  map PendingConflict.path (MergePlan.conflicts (plan_merge sample_tree sample_line sample_incoming))
  = [lit "a"].
Proof.
  split; [|vm_compute; reflexivity].
  apply (plan_merge_exact sample_tree sample_line sample_incoming);
    apply nodup_paths; vm_compute; reflexivity.
Defined.

Lemma conflict_access_exact_witness :
  ∃ c, c ∈ MergePlan.conflicts (plan_merge sample_tree sample_line sample_incoming) ∧
    (can_access_pending_conflict (Actor.mk (lit "eve") []) c = true ↔
     ∀ f, concerns sample_tree sample_line sample_incoming c f →
       can_access (Actor.mk (lit "eve") []) (FileEntry.policy f) = true).
Proof.
  destruct (MergePlan.conflicts (plan_merge sample_tree sample_line sample_incoming))
    as [|c cs] eqn:Hc; [vm_compute in Hc; discriminate|].
  exists c. split; [left|].
  apply (conflict_access_exact sample_tree sample_line sample_incoming);
    [apply nodup_paths; vm_compute; reflexivity..|rewrite Hc; left].
Defined.

Lemma sample_trees_ok : tree_ok sample_tree ∧ tree_ok sample_incoming.
Proof.
  split; (split; [repeat constructor|]);
    (intros f g Hf Hg Ha%above_length;
     repeat (apply elem_of_cons in Hf as [->|Hf]; [|]);
     repeat (apply elem_of_cons in Hg as [->|Hg]; [|]);
     try (by apply not_elem_of_nil in Hf); try (by apply not_elem_of_nil in Hg);
     cbn in Ha; lia).
Qed.

