(* ===== verification/Ancestry.v ===== *)
(** * Snapshot ancestry of the command-line client: [src/ancestry.rs]

    The depth-first validation of a snapshot graph, ancestor sets, and the merge base of a
    line and an incoming snapshot. The repository's snapshot directory is a finite map from
    identifiers to parsed records. *)

From S2P Require Import Prelude Machine Order Utf8 Access Explore.

(** The failures of these commands, by their messages. *)
Module AncestryError.
Inductive t :=
  | InvalidIdentifier | NotFound | IdentityMismatch
  | Cycle | MissingParent | DuplicateParents | MultipleBases.
End AncestryError.

Notation aerr := (fault AncestryError.t) (only parsing).
Notation snapshots := (BTreeMap str Snapshot.t).

(** ** Reading snapshots *)

Definition is_hex_digit (b : Z) : bool :=
  ((0x30 <=? b) && (b <=? 0x39)) || ((0x61 <=? b) && (b <=? 0x66)).

(** [s.strip_prefix(prefix)]. *)
Definition strip_prefix (prefix s : str) : option str :=
  if starts_with prefix s then Some (drop (length prefix) s) else None.

Definition validate_object_id (id prefix : str) : result AncestryError.t () :=
  let suffix := as_bytes (default [] (strip_prefix prefix id)) in
  bail_if negb ((len suffix =? 12) || (len suffix =? 32)) || negb (forallb is_hex_digit suffix)
    with AncestryError.InvalidIdentifier;
  Ok tt.

Definition read_snapshot (repo : snapshots) (id : str) : result AncestryError.t Snapshot.t :=
  _ ← validate_object_id id (lit "snap_");
  value ← ok_or (bt_get id repo) AncestryError.NotFound;
  bail_if negb (bool_decide (Snapshot.id value = id)) with AncestryError.IdentityMismatch;
  Ok value.

Definition read_optional_snapshot (repo : snapshots) (id : option str) :
    result AncestryError.t (option Snapshot.t) :=
  match id with
  | Some id => Some <$> read_snapshot repo id
  | None => Ok None
  end.

(** ** Validation *)

Definition parents (snapshot : Snapshot.t) : list str :=
  option_list (Snapshot.parent_snapshot snapshot) ++ Snapshot.merge_parents snapshot.

Inductive color := Gray | Black.

(** The inner loop of [validate_graph]; [(id, true)] is the marker that leaves [id]. The
    stack is kept with its top first. *)
Fixpoint color_from (graph : snapshots) (fuel : nat) (colors : BTreeMap str color)
    (stack : list (str * bool)) : result aerr (BTreeMap str color) :=
  match fuel with
  | O => Err OutOfFuel
  | S fuel =>
      match stack with
      | [] => Ok colors
      | (id, true) :: stack => color_from graph fuel (bt_insert id Black colors) stack
      | (id, false) :: stack =>
          match bt_get id colors with
          | Some Black => color_from graph fuel colors stack
          | Some Gray => Err (Raise AncestryError.Cycle)
          | None =>
              snapshot ← ok_or (bt_get id graph) (Raise AncestryError.MissingParent);
              bail_if negb (len (set_elems (set_of_list (parents snapshot)))
                            =? len (parents snapshot))
                with Raise AncestryError.DuplicateParents;
              color_from graph fuel (bt_insert id Gray colors)
                (rev (map (λ p, (p, false)) (parents snapshot)) ++ (id, true) :: stack)
          end
      end
  end.

(** Entering every node once pushes its marker and its parents. *)
Definition graph_fuel (graph : snapshots) : nat :=
  S (S (sum_list_with (λ e, S (length (parents e.2))) graph)).

Definition validate_graph (graph : snapshots) : result aerr () :=
  _ ← try_fold (λ colors root, color_from graph (graph_fuel graph) colors [(root, false)])
        (bt_keys graph) [];
  Ok tt.

(** ** Ancestors and merge bases *)

Definition ancestors (root : str) (graph : snapshots) : result aerr (BTreeSet str) :=
  explore (λ id, parents <$> bt_get id graph) (graph_fuel graph) [] [root].

(** The loop that loads everything reachable from the two heads. *)
Fixpoint load_graph (repo : snapshots) (fuel : nat) (graph : snapshots) (pending : list str) :
    result aerr snapshots :=
  match fuel with
  | O => Err OutOfFuel
  | S fuel =>
      match pending with
      | [] => Ok graph
      | id :: pending =>
          if bt_contains id graph then load_graph repo fuel graph pending
          else
            snapshot ← map_err Raise (read_snapshot repo id);
            load_graph repo fuel (bt_insert id snapshot graph) (rev (parents snapshot) ++ pending)
      end
  end.

Definition load_fuel (repo : snapshots) : nat :=
  S (2 + sum_list_with (λ e, length (parents e.2)) repo).

(** [for id in &common { for parent in parents(&graph[id]) { best.remove(parent); } }]. *)
Definition remove_parents (graph : snapshots) (best : BTreeSet str) (id : str) :
    result aerr (BTreeSet str) :=
  snapshot ← expect (bt_get id graph);
  Ok (fold_left (λ best parent, set_remove parent best) (parents snapshot) best).

Definition merge_base (repo : snapshots) (line : option str) (incoming : Snapshot.t)
    (legacy_base : option str) : result aerr (option Snapshot.t) :=
  match line with
  | None => Ok None
  | Some line =>
      graph ← load_graph repo (load_fuel repo) [] [Snapshot.id incoming; line];
      _ ← validate_graph graph;
      line_ancestors ← ancestors line graph;
      incoming_ancestors ← ancestors (Snapshot.id incoming) graph;
      let common := List.filter (λ e, set_contains e.1 incoming_ancestors) line_ancestors in
      best ← try_fold (remove_parents graph) (set_elems common) common;
      bail_if 1 <? len best with Raise AncestryError.MultipleBases;
      match best with
      | (id, _) :: _ => Some <$> expect (bt_get id graph)
      | [] => map_err Raise (read_optional_snapshot repo legacy_base)
      end
  end.
