(* ===== verification/AncestryFacts.v ===== *)
(** * Snapshot ancestry: what validation establishes *)

From stdpp Require Import relations.
From S2P Require Import Prelude Machine Order Utf8 Access Explore Traverse GraphSpec Ancestry.

Section validate.
Context (graph : snapshots) (graph_wf : bt_wf graph).

Definition parent (n p : str) : Prop := ∃ s, bt_get n graph = Some s ∧ p ∈ parents s.
Definition known (n : str) : Prop := bt_get n graph ≠ None.

(** ** The stack of the traversal *)

(** The node whose marker is nearest to the top. *)
Fixpoint top_marker (stack : list (str * bool)) : option str :=
  match stack with
  | [] => None
  | (x, true) :: _ => Some x
  | (_, false) :: stack => top_marker stack
  end.

Definition black (colors : BTreeMap str color) (x : str) : Prop := bt_get x colors = Some Black.

(** Items are parents of the marker below them; a marked node has its parents finished or
    above it; [above] lists the nodes over this part of the stack. *)
Fixpoint stack_ok (colors : BTreeMap str color) (above : list str) (stack : list (str * bool)) :
    Prop :=
  match stack with
  | [] => True
  | (x, b) :: rest =>
      (match top_marker rest with Some v => parent v x | None => known x end) ∧
      (b = true → (x, true) ∉ rest ∧ ∀ p, parent x p → black colors p ∨ p ∈ above) ∧
      stack_ok colors (x :: above) rest
  end.

Lemma stack_ok_mono colors colors' above above' stack :
  (∀ p, black colors p ∨ p ∈ above → black colors' p ∨ p ∈ above') →
  stack_ok colors above stack → stack_ok colors' above' stack.
Proof.
  revert above above'. induction stack as [|[x b] rest IH]; intros above above' Hm; cbn; [done|].
  intros (Hc & Hb & Hr). split_and!; [done| |].
  - intros Hbt. destruct (Hb Hbt) as [Hn Hp]. split; [done|]. auto.
  - eapply IH; [|exact Hr]. intros p. rewrite !elem_of_cons. naive_solver.
Qed.

Lemma top_marker_items items id rest :
  top_marker (map (λ p, (p, false)) items ++ (id, true) :: rest) = Some id.
Proof. by induction items. Qed.

Lemma stack_ok_items colors above items id rest :
  (∀ p, p ∈ items → parent id p) → stack_ok colors (rev items ++ above) ((id, true) :: rest) →
  stack_ok colors above (map (λ p, (p, false)) items ++ (id, true) :: rest).
Proof.
  revert above. induction items as [|x items IH]; intros above Hi Hs; [done|].
  cbn [map app stack_ok]. rewrite top_marker_items. split_and!.
  - apply Hi. left.
  - done.
  - apply IH; [intros p Hp; apply Hi; by right|]. cbn in Hs. by rewrite <-app_assoc in Hs.
Qed.

(** From a marked node, parent steps lead up to the marker nearest to the top. *)
Lemma marker_path colors above stack x v :
  stack_ok colors above stack → (x, true) ∈ stack → top_marker stack = Some v → rtc parent x v.
Proof.
  revert above v. induction stack as [|[y b] rest IH]; intros above v; cbn.
  { intros _ Hn. by apply not_elem_of_nil in Hn. }
  intros (Hc & _ & Hr) [[= -> <-]|Hx]%elem_of_cons.
  { by intros [= ->]. }
  assert (∃ u, top_marker rest = Some u) as [u Hu].
  { clear -Hx. induction rest as [|[z [|]] rest IH]; [by apply not_elem_of_nil in Hx|by eexists|].
    apply elem_of_cons in Hx as [?|Hx]; [done|]. by apply IH. }
  rewrite Hu in Hc. specialize (IH _ _ Hr Hx Hu). destruct b.
  - intros [= ->]. by eapply rtc_r.
  - by intros [= ->]%(eq_trans (eq_sym Hu)).
Qed.

(** ** The invariant *)

(** The finished nodes in an order that puts parents first. *)
Definition finished (colors : BTreeMap str color) : Prop :=
  ∃ ord, NoDup ord ∧ (∀ x, x ∈ ord ↔ black colors x) ∧
    ∀ pre x post, ord = pre ++ x :: post → ∀ p, parent x p → p ∈ pre.

Record cinv (colors : BTreeMap str color) (stack : list (str * bool)) : Prop := {
  ci_gray : ∀ x, bt_get x colors = Some Gray ↔ (x, true) ∈ stack;
  ci_known : ∀ x, bt_get x colors ≠ None →
    ∃ s, bt_get x graph = Some s ∧ NoDup (parents s);
  ci_stack : stack_ok colors [] stack;
  ci_finished : finished colors }.

Lemma finished_insert colors v :
  finished colors → ¬ black colors v → (∀ p, parent v p → black colors p) →
  finished (bt_insert v Black colors).
Proof.
  intros (ord & Hnd & Hord & Htop) Hv Hp. exists (ord ++ [v]).
  assert (v ∉ ord) as Hvo by (by rewrite Hord). split_and!.
  - by apply NoDup_snoc.
  - intros x. unfold black. rewrite elem_of_app, list_elem_of_singleton, bt_get_insert, Hord.
    case_decide; naive_solver.
  - intros pre x post Heq p Hxp. destruct post as [|y post _] using rev_ind.
    + apply app_inj_tail in Heq as [<- <-]. by apply Hord, Hp.
    + rewrite app_comm_cons, app_assoc in Heq. apply app_inj_tail in Heq as [-> _]. by eapply Htop.
Qed.

Lemma cinv_leave colors v stack :
  cinv colors ((v, true) :: stack) → cinv (bt_insert v Black colors) stack.
Proof.
  intros [Hg Hk (_ & Hm & Hs) Hf]. destruct (Hm eq_refl) as [Hn Hp].
  assert (bt_get v colors = Some Gray) as Hgv by (apply Hg; left). split.
  - intros x. rewrite bt_get_insert. case_decide as Hx.
    + subst x. naive_solver.
    + rewrite Hg, elem_of_cons. naive_solver.
  - intros x. rewrite bt_get_insert. case_decide as Hx; [|apply Hk]. intros _. subst x.
    apply Hk. congruence.
  - eapply stack_ok_mono; [|exact Hs]. intros p. unfold black. rewrite bt_get_insert.
    case_decide; [by left|]. intros [?|Hin]; [by left|].
    apply list_elem_of_singleton in Hin. congruence.
  - apply finished_insert; [done|unfold black; congruence|]. intros p Hpp.
    destruct (Hp p Hpp) as [?|Hn']; [done|by apply not_elem_of_nil in Hn'].
Qed.

Lemma cinv_skip colors x stack :
  cinv colors ((x, false) :: stack) → black colors x → cinv colors stack.
Proof.
  intros [Hg Hk (_ & _ & Hs) Hf] Hx. split; [|done| |done].
  - intros y. rewrite Hg, elem_of_cons. naive_solver.
  - eapply stack_ok_mono; [|exact Hs]. intros p [?|Hin]; [by left|].
    apply list_elem_of_singleton in Hin. subst p. by left.
Qed.

Lemma cinv_enter colors x s stack :
  cinv colors ((x, false) :: stack) → bt_get x colors = None → bt_get x graph = Some s →
  NoDup (parents s) →
  cinv (bt_insert x Gray colors) (rev (map (λ p, (p, false)) (parents s)) ++ (x, true) :: stack).
Proof.
  intros [Hg Hk (Hc & _ & Hs) Hf] Hx Hgx Hnd. rewrite <-map_rev.
  assert ((x, true) ∉ stack) as Hxs.
  { intros Hin. assert (bt_get x colors = Some Gray) by (apply Hg; by right). congruence. }
  assert (∀ p, black (bt_insert x Gray colors) p ↔ black colors p) as Hbl.
  { intros p. unfold black. rewrite bt_get_insert. case_decide; [|done]. subst. naive_solver. }
  split.
  - intros y. rewrite bt_get_insert, elem_of_app, elem_of_cons, list_elem_of_fmap.
    case_decide as Hy; [subst; naive_solver|]. rewrite Hg, elem_of_cons. naive_solver.
  - intros y. rewrite bt_get_insert. case_decide; [subst; by eauto|apply Hk].
  - apply stack_ok_items.
    + intros p Hp. rewrite elem_of_rev in Hp. by exists s.
    + rewrite rev_involutive, app_nil_r. cbn. split_and!; [done| |].
      * intros _. split; [done|]. intros p (s' & Hs' & Hp). rewrite Hgx in Hs'. injection Hs' as <-.
        by right.
      * eapply stack_ok_mono; [|exact Hs]. intros p. rewrite Hbl, !elem_of_cons.
        intros [?|[->|[]%not_elem_of_nil]]; auto.
  - destruct Hf as (ord & ? & Hord & ?). exists ord. split_and!; [done| |done].
    intros y. by rewrite Hord, Hbl.
Qed.

(** ** The traversal *)

(** What entering a node pushes, for the measure. *)
Definition pushes (x : str) : option (color * list (str * bool)) :=
  s ← bt_get x graph; Some (Gray, (x, true) :: map (λ p, (p, false)) (parents s)).

Notation remaining := (unexplored pushes (bt_keys graph)).

Lemma pushes_degree x s : bt_get x graph = Some s → degree pushes x = S (length (parents s)).
Proof. intros Hs. unfold degree, pushes. rewrite Hs. cbn. by rewrite length_map. Qed.

Lemma remaining_bound colors :
  (remaining colors ≤ sum_list_with (λ e, S (length (parents e.2))) graph)%nat.
Proof.
  rewrite <-(sum_keys graph (λ s, S (length (parents s))) graph_wf). apply sum_list_with_le.
  intros x Hx. cbn. destruct (bt_contains x colors); [lia|].
  apply bt_contains_elem in Hx. unfold bt_contains in Hx.
  destruct (bt_get x graph) as [s|] eqn:Hs; [|done]. by rewrite (pushes_degree _ _ Hs).
Qed.

Lemma color_from_spec fuel colors stack :
  cinv colors stack → (length stack + remaining colors < fuel)%nat →
  match color_from graph fuel colors stack with
  | Ok colors' =>
      cinv colors' [] ∧ (∀ x b, (x, b) ∈ stack → black colors' x) ∧
      (∀ x, black colors x → black colors' x)
  | Err (Raise AncestryError.Cycle) => ∃ n, tc parent n n
  | Err (Raise AncestryError.MissingParent) => ∃ n p, parent n p ∧ ¬ known p
  | Err (Raise AncestryError.DuplicateParents) =>
      ∃ n s, bt_get n graph = Some s ∧ ¬ NoDup (parents s)
  | Err _ => False
  end.
Proof.
  revert colors stack. induction fuel as [|fuel IH]; intros colors stack Hi Hf; [lia|].
  destruct stack as [|[x [|]] stack]; cbn [color_from].
  { split_and!; [done| |done]. intros x b Hn. by apply not_elem_of_nil in Hn. }
  - pose proof (cinv_leave _ _ _ Hi) as Hi'.
    assert (bt_contains x colors = true) as Hx.
    { unfold bt_contains. rewrite (proj2 (ci_gray _ _ Hi x)); [done|left]. }
    specialize (IH _ _ Hi'). rewrite (unexplored_present _ _ _ _ _ Hx) in IH. cbn in Hf.
    specialize (IH ltac:(lia)).
    destruct (color_from graph fuel (bt_insert x Black colors) stack) as [colors'|]; [|exact IH].
    destruct IH as (Hi2 & Hst & Hm). split_and!; [done| |].
    + intros y b [[= -> _]|Hy]%elem_of_cons; [|by eapply Hst]. apply Hm. apply bt_get_insert_eq.
    + intros y Hy. apply Hm. unfold black. rewrite bt_get_insert. by case_decide.
  - destruct (bt_get x colors) as [[|]|] eqn:Hx.
    + destruct Hi as [Hg _ Hs _]. pose proof (proj1 (Hg x) Hx) as Hin. destruct Hs as (Hc & _ & Hs).
      apply elem_of_cons in Hin as [?|Hin]; [done|].
      destruct (top_marker stack) as [v|] eqn:Hv.
      * exists x. eapply tc_rtc_l; [by eapply marker_path|by apply tc_once].
      * exfalso. clear -Hin Hv. induction stack as [|[z [|]] stack IH]; [|done|].
        { by apply not_elem_of_nil in Hin. }
        apply elem_of_cons in Hin as [?|Hin]; [done|]. by apply IH.
    + pose proof (cinv_skip _ _ _ Hi Hx) as Hi'. cbn in Hf. specialize (IH _ _ Hi' ltac:(lia)).
      destruct (color_from graph fuel colors stack) as [colors'|]; [|exact IH].
      destruct IH as (Hi2 & Hst & Hm). split_and!; [done| |done].
      intros y b [[= -> _]|Hy]%elem_of_cons; [by apply Hm|by eapply Hst].
    + destruct (bt_get x graph) as [s|] eqn:Hgx; cbn [ok_or mbind result_bind].
      2:{ destruct Hi as [_ _ (Hc & _) _]. destruct (top_marker stack) as [v|]; [|by destruct Hc].
          exists v, x. split; [done|]. unfold known. tauto. }
      destruct (Z.eqb_spec (len (set_elems (set_of_list (parents s)))) (len (parents s))) as [Hl|Hl];
        cbn [negb].
      2:{ exists x, s. split; [done|]. intros Hnd. apply Hl. unfold len, set_elems, bt_keys.
          rewrite length_map. f_equal. by apply set_of_list_length. }
      assert (NoDup (parents s)) as Hnd.
      { apply set_of_list_length. unfold len, set_elems, bt_keys in Hl. rewrite length_map in Hl. lia. }
      pose proof (cinv_enter _ _ _ _ Hi Hx Hgx Hnd) as Hi'.
      assert (bt_contains x colors = false) as Hcx by (unfold bt_contains; by rewrite Hx).
      pose proof (unexplored_insert pushes (bt_keys graph) x Gray colors (bt_wf_nodup _ graph_wf)
        (bt_get_key _ _ _ Hgx) Hcx) as Hu.
      rewrite (pushes_degree _ _ Hgx) in Hu.
      cbn in Hf. specialize (IH _ _ Hi').
      rewrite length_app, length_rev, length_map in IH. cbn [length] in IH. specialize (IH ltac:(lia)).
      destruct (color_from graph fuel (bt_insert x Gray colors) _) as [colors'|]; [|exact IH].
      destruct IH as (Hi2 & Hst & Hm). split_and!; [done| |].
      * intros y b [[= -> _]|Hy]%elem_of_cons.
        -- apply (Hst x true), elem_of_app. right. left.
        -- apply (Hst y b), elem_of_app. right. by right.
      * intros y Hy. apply Hm. unfold black. rewrite bt_get_insert. case_decide; [|done].
        subst y. unfold black in Hy. congruence.
Qed.

Definition well_founded_graph : Prop :=
  (∀ n p, parent n p → known p) ∧ (∀ n s, bt_get n graph = Some s → NoDup (parents s)) ∧
  ∀ n, ¬ tc parent n n.

Lemma finished_acyclic colors n : finished colors → black colors n → ¬ tc parent n n.
Proof.
  intros (ord & Hnd & Hord & Htop) Hn Hc. rewrite <-Hord in Hn.
  assert (∀ x y, tc parent x y → ∀ pre post, ord = pre ++ x :: post → y ∈ pre) as Hpre.
  { induction 1 as [x y Hxy|x y z Hxy _ IH]; intros pre post ->; [by eapply Htop|].
    pose proof (Htop _ _ _ eq_refl _ Hxy) as (p1 & p2 & ->)%list_elem_of_split.
    apply elem_of_app. left. eapply (IH p1 (p2 ++ x :: post)). by rewrite <-app_assoc. }
  apply list_elem_of_split in Hn as (pre & post & ->).
  pose proof (Hpre _ _ Hc _ _ eq_refl) as Hin. apply NoDup_app in Hnd as (_ & Hd & _).
  apply (Hd n Hin). left.
Qed.

Lemma cinv_nil : cinv [] [].
Proof.
  split; [|done|done|].
  - intros x. split; [done|]. intros Hn. by apply not_elem_of_nil in Hn.
  - exists []. split_and!; [constructor| |by intros [|] ? ?].
    intros x. split; [|done]. intros Hn. by apply not_elem_of_nil in Hn.
Qed.

Lemma cinv_root colors x :
  cinv colors [] → x ∈ bt_keys graph → cinv colors [(x, false)].
Proof.
  intros [Hg Hk _ Hf] Hx. split; [|done| |done].
  - intros y. rewrite Hg, list_elem_of_singleton. split; [|done].
    intros Hn. by apply not_elem_of_nil in Hn.
  - split_and!; [|done|done]. cbn. by intros Hn%bt_get_None.
Qed.

Definition colors_outcome (seen : list str) (r : result aerr (BTreeMap str color)) : Prop :=
  match r with
  | Ok colors => cinv colors [] ∧ ∀ x, x ∈ seen → black colors x
  | Err (Raise AncestryError.Cycle) => ∃ n, tc parent n n
  | Err (Raise AncestryError.MissingParent) => ∃ n p, parent n p ∧ ¬ known p
  | Err (Raise AncestryError.DuplicateParents) =>
      ∃ n s, bt_get n graph = Some s ∧ ¬ NoDup (parents s)
  | Err _ => False
  end.

Lemma color_all roots colors seen :
  (∀ x, x ∈ roots → x ∈ bt_keys graph) → cinv colors [] → (∀ x, x ∈ seen → black colors x) →
  colors_outcome (seen ++ roots)
    (try_fold (λ colors root, color_from graph (graph_fuel graph) colors [(root, false)])
       roots colors).
Proof.
  revert colors seen. induction roots as [|x roots IH]; intros colors seen Hr Hi Hs; cbn [try_fold].
  { rewrite app_nil_r. done. }
  pose proof (color_from_spec (graph_fuel graph) colors [(x, false)]) as Hc.
  specialize (Hc (cinv_root _ _ Hi (Hr x ltac:(left)))).
  pose proof (remaining_bound colors) as Hb. specialize (Hc ltac:(unfold graph_fuel; cbn; lia)).
  destruct (color_from graph _ colors [(x, false)]) as [colors'|e]; cbn [mbind result_bind];
    [|exact Hc].
  destruct Hc as (Hi' & Hx & Hm).
  specialize (IH colors' (seen ++ [x])). rewrite <-app_assoc in IH. apply IH.
  - intros y Hy. apply Hr. by right.
  - done.
  - intros y [Hy|Hy]%elem_of_app; [by apply Hm, Hs|]. apply list_elem_of_singleton in Hy as ->.
    apply (Hx x false). left.
Qed.

Lemma parent_known x y : parent x y → known x.
Proof. intros (s & Hs & _). unfold known. congruence. Qed.

Lemma tc_known x y : tc parent x y → known x.
Proof. by intros [? ? ?%parent_known|? ? ? ?%parent_known _]. Qed.

Lemma validate_graph_spec :
  match validate_graph graph with
  | Ok _ => well_founded_graph
  | Err (Raise AncestryError.Cycle) => ∃ n, tc parent n n
  | Err (Raise AncestryError.MissingParent) => ∃ n p, parent n p ∧ ¬ known p
  | Err (Raise AncestryError.DuplicateParents) =>
      ∃ n s, bt_get n graph = Some s ∧ ¬ NoDup (parents s)
  | Err _ => False
  end.
Proof.
  unfold validate_graph. pose proof (color_all (bt_keys graph) [] []) as Hc.
  specialize (Hc ltac:(done) cinv_nil ltac:(intros x Hn; by apply not_elem_of_nil in Hn)).
  match type of Hc with colors_outcome _ ?r => destruct r as [colors|e] end;
    cbn [mbind result_bind]; [|exact Hc].
  destruct Hc as [Hi Hall]. destruct Hi as [_ Hk _ Hf].
  assert (∀ n, known n → black colors n) as Hb.
  { intros n Hn. apply Hall. apply bt_contains_elem. unfold bt_contains, known in *.
    by destruct (bt_get n graph). }
  split_and!.
  - intros n p Hp. assert (black colors p) as Hbp.
    { destruct Hf as (ord & _ & Hord & Htop).
      assert (n ∈ ord) as (pre & post & ->)%list_elem_of_split.
      { apply Hord, Hb. destruct Hp as (s & Hs & _). unfold known. congruence. }
      apply Hord. apply elem_of_app. left. by eapply Htop. }
    destruct (Hk p) as (s & Hs & _); [unfold black in Hbp; congruence|]. unfold known. congruence.
  - intros n s Hs. destruct (Hk n) as (s' & Hs' & Hnd); [|congruence].
    rewrite (Hb n); [done|]. unfold known. congruence.
  - intros n Hc. apply (finished_acyclic colors n); [done| |done]. apply Hb.
    by eapply tc_known.
Qed.
End validate.
