(* ===== verification/MergeBase.v ===== *)
(** * Merge bases: the graph they are computed on and what is returned *)

From stdpp Require Import relations.
From S2P Require Import Prelude Machine Order Utf8 Access Explore Traverse GraphSpec Ancestry AncestryFacts.

Section load.
Context (repo : snapshots) (repo_wf : bt_wf repo).

(** [p] is a recorded parent of the readable snapshot [n]. *)
Definition recorded (n p : str) : Prop :=
  ∃ s, read_snapshot repo n = Ok s ∧ p ∈ parents s.

Definition visit_snapshot (id : str) : result AncestryError.t (str * Snapshot.t * list str) :=
  s ← read_snapshot repo id; Ok (id, s, parents s).

Definition snapshot_node (id : str) : option (Snapshot.t * list str) :=
  match read_snapshot repo id with Ok s => Some (s, parents s) | Err _ => None end.

Lemma read_snapshot_get id s :
  read_snapshot repo id = Ok s → bt_get id repo = Some s ∧ Snapshot.id s = id.
Proof.
  unfold read_snapshot. intros (_ & _ & H)%bind_Ok. apply bind_Ok in H as (s' & Hg & H).
  apply bail_Ok in H as [Hb H]. injection H as <-. split.
  - by destruct (bt_get id repo); [injection Hg as ->|].
  - apply negb_false_iff in Hb. by apply bool_decide_eq_true in Hb.
Qed.

Lemma visit_snapshot_Ok x k v next :
  visit_snapshot x = Ok (k, v, next) ↔ k = x ∧ read_snapshot repo x = Ok v ∧ next = parents v.
Proof.
  unfold visit_snapshot. destruct (read_snapshot repo x) as [s|]; cbn; naive_solver.
Qed.

Lemma visit_snapshot_node x k v next :
  visit_snapshot x = Ok (k, v, next) → snapshot_node k = Some (v, next) ∧ k ∈ bt_keys repo.
Proof.
  intros (-> & Hr & ->)%visit_snapshot_Ok. unfold snapshot_node. rewrite Hr. split; [done|].
  apply read_snapshot_get in Hr as [Hr _]. by eapply bt_get_key.
Qed.

Lemma load_graph_traverse fuel graph pending :
  bt_wf graph → (∀ k v, bt_get k graph = Some v → read_snapshot repo k = Ok v) →
  load_graph repo fuel graph pending = traverse visit_snapshot fuel graph pending.
Proof.
  revert graph pending. induction fuel as [|fuel IH]; intros graph pending Hwf Hg; [done|].
  destruct pending as [|x pending]; [done|]. cbn [load_graph traverse].
  unfold bt_contains at 1. destruct (bt_get x graph) as [s|] eqn:Hx.
  - rewrite (proj2 (visit_snapshot_Ok x x s (parents s))) by (split_and!; [done|by apply Hg|done]).
    cbn [mbind result_bind map_err]. unfold bt_contains. rewrite Hx.
    replace (bt_insert x s graph) with graph; [by apply IH|].
    apply bt_ext; [done|by apply bt_insert_wf|]. intros k. rewrite bt_get_insert.
    case_decide; [by subst|done].
  - destruct (read_snapshot repo x) as [s|e] eqn:Hr.
    2:{ assert (visit_snapshot x = Err e) as -> by (unfold visit_snapshot; by rewrite Hr). done. }
    rewrite (proj2 (visit_snapshot_Ok x x s (parents s))) by done.
    cbn [mbind result_bind map_err]. unfold bt_contains. rewrite Hx. apply IH.
    + by apply bt_insert_wf.
    + intros k v. rewrite bt_get_insert. case_decide; [by intros [= <-]; subst|by apply Hg].
Qed.

Lemma load_measure :
  (unexplored snapshot_node (bt_keys repo) ([] : snapshots)
   ≤ sum_list_with (λ e, length (parents e.2)) repo)%nat.
Proof.
  rewrite <-(sum_keys repo (λ s, length (parents s)) repo_wf). apply sum_list_with_le.
  intros x _. cbn. unfold degree, snapshot_node.
  destruct (read_snapshot repo x) as [s|] eqn:Hr; cbn; [|lia].
  apply read_snapshot_get in Hr as [-> _]. done.
Qed.

(** Loading from the two heads gives every snapshot they reach, or an unreadable one. *)
Lemma load_graph_spec line incoming :
  match load_graph repo (load_fuel repo) [] [incoming; line] with
  | Ok graph =>
      bt_wf graph ∧
      (∀ r x, r ∈ [line; incoming] → rtc recorded r x → ∃ s, read_snapshot repo x = Ok s) ∧
      ∀ k s, bt_get k graph = Some s ↔
        (rtc recorded line k ∨ rtc recorded incoming k) ∧ read_snapshot repo k = Ok s
  | Err (Raise e) =>
      ∃ x, (rtc recorded line x ∨ rtc recorded incoming x) ∧ read_snapshot repo x = Err e
  | Err _ => False
  end.
Proof.
  rewrite load_graph_traverse by (done || apply bt_wf_nil).
  pose proof (traverse_steps visit_snapshot snapshot_node (bt_keys repo) (bt_wf_nodup _ repo_wf)
    visit_snapshot_node recorded) as Ht.
  assert (∀ x y, names visit_snapshot x y → recorded x y) as Hns.
  { intros x y (k & v & next & (-> & Hr & ->)%visit_snapshot_Ok & Hy). by exists v. }
  assert (∀ x y n, visit_snapshot x = Ok n → recorded x y → names visit_snapshot x y) as Hsn.
  { intros x y [[k v] next] (-> & Hr & ->)%visit_snapshot_Ok (s & Hs & Hy).
    exists x, v, (parents v). rewrite visit_snapshot_Ok. rewrite Hr in Hs. by injection Hs as <-. }
  specialize (Ht Hns Hsn (load_fuel repo) [line; incoming]). cbn [rev app] in Ht.
  pose proof load_measure as Hm. specialize (Ht ltac:(unfold load_fuel; cbn [length]; lia)).
  destruct (traverse visit_snapshot _ _ _) as [graph|[e| |]]; [|..|done|done].
  - destruct Ht as (Hwf & Hall & Hg). split_and!; [done| |].
    + intros r x Hr Hp. destruct (Hall r x Hr Hp) as [[[k v] next] (-> & Hv & _)%visit_snapshot_Ok].
      by exists v.
    + intros k s. rewrite Hg. setoid_rewrite visit_snapshot_Ok. split.
      * intros (r & x & next & Hr & Hp & -> & Hs & _). split; [|done].
        apply elem_of_cons in Hr as [->|Hr%list_elem_of_singleton]; [by left|subst; by right].
      * intros [[Hp|Hp] Hs]; [exists line|exists incoming]; exists k, (parents s);
          (split_and!; [|done..]); [left|right; left].
  - destruct Ht as (r & x & Hr & Hp & Hx). exists x. split.
    + apply elem_of_cons in Hr as [->|Hr%list_elem_of_singleton]; [by left|subst; by right].
    + unfold visit_snapshot in Hx. by destruct (read_snapshot repo x); [|injection Hx as ->].
Qed.
End load.

Lemma set_remove_elems k (m : BTreeSet str) x :
  bt_wf m → x ∈ set_elems (set_remove k m) ↔ x ∈ set_elems m ∧ x ≠ k.
Proof.
  intros Hm. rewrite <-!set_contains_elem. unfold set_contains, bt_contains, set_remove.
  destruct (decide (x = k)) as [->|Hne]; [rewrite bt_get_remove_eq by done|
    rewrite bt_get_remove_ne by done]; naive_solver.
Qed.

Lemma remove_all_elems (ps : list str) (best : BTreeSet str) :
  bt_wf best →
  bt_wf (fold_left (λ best parent, set_remove parent best) ps best) ∧
  ∀ x, x ∈ set_elems (fold_left (λ best parent, set_remove parent best) ps best) ↔
    x ∈ set_elems best ∧ x ∉ ps.
Proof.
  revert best. induction ps as [|p ps IH]; intros best Hw; cbn [fold_left].
  { split; [done|]. intros x. split; [|tauto]. intros ?. split; [done|apply not_elem_of_nil]. }
  destruct (IH (set_remove p best)) as [Hw' Hx]; [by apply bt_remove_wf|]. split; [done|].
  intros x. rewrite Hx, not_elem_of_cons, (set_remove_elems p best x Hw). tauto.
Qed.

Section bases.
Context (graph : snapshots) (graph_wf : bt_wf graph) (Hg : well_founded_graph graph).

Lemma graph_edge x y : edge (λ id, parents <$> bt_get id graph) x y ↔ parent graph x y.
Proof.
  unfold edge, parent. destruct (bt_get x graph) as [s|]; cbn; naive_solver.
Qed.

Lemma snapshot_ancestors root :
  known graph root →
  ∃ s, ancestors root graph = Ok s ∧ bt_wf s ∧
    ∀ x, x ∈ set_elems s ↔ rtc (parent graph) root x.
Proof.
  intros Hr. unfold ancestors.
  destruct (explore_reachable (E := AncestryError.t) (λ id, parents <$> bt_get id graph)
    (bt_keys graph) (bt_wf_nodup _ graph_wf)) with (graph_fuel graph) [root] as (s & Hs & Hw & Hx).
  - intros x Hx. apply bt_contains_elem in Hx. unfold bt_contains in Hx.
    destruct (bt_get x graph) as [s|] eqn:Hs; [|done]. exists (parents s). split; [done|].
    intros y Hy. apply bt_contains_elem. unfold bt_contains.
    assert (known graph y) as Hk by (apply (proj1 Hg x); by exists s).
    unfold known in Hk. by destruct (bt_get y graph).
  - intros x Hx%list_elem_of_singleton. subst. apply bt_contains_elem. unfold bt_contains.
    unfold known in Hr. by destruct (bt_get root graph).
  - pose proof (weight_bound graph (λ s, S (length (parents s))) (λ id, parents <$> bt_get id graph)
      (bt_keys graph) graph_wf (bt_wf_nodup _ graph_wf) ltac:(done)) as Hw.
    unfold graph_fuel. cbn [length]. cbn beta in Hw. apply Nat.lt_succ_r, le_n_S, Hw.
    intros x v next Hv. rewrite Hv. cbn. intros [= <-]. lia.
  - exists s. split_and!; [done..|]. intros x. rewrite Hx.
    assert (∀ p, rtc (edge (λ id, parents <$> bt_get id graph)) p x ↔ rtc (parent graph) p x) as He.
    { intros p. split; apply rtc_subrel; intros ? ?; apply graph_edge. }
    setoid_rewrite He. setoid_rewrite list_elem_of_singleton. naive_solver.
Qed.

(** One pass removes the parents of the listed snapshots. *)
Lemma remove_parents_spec l best :
  bt_wf best → (∀ id, id ∈ l → known graph id) →
  ∃ best', try_fold (remove_parents graph) l best = Ok best' ∧ bt_wf best' ∧
    ∀ x, x ∈ set_elems best' ↔ x ∈ set_elems best ∧ ∀ id, id ∈ l → ¬ parent graph id x.
Proof.
  revert best. induction l as [|id l IH]; intros best Hw Hk; cbn [try_fold].
  { exists best. split_and!; [done..|]. intros x. split; [|tauto].
    intros ?. split; [done|]. intros ? Hn. by apply not_elem_of_nil in Hn. }
  pose proof (Hk id ltac:(left)) as Hid. unfold known in Hid.
  destruct (bt_get id graph) as [s|] eqn:Hs; [|done].
  assert (remove_parents graph best id = Ok (fold_left (λ best parent, set_remove parent best)
    (parents s) best)) as -> by (unfold remove_parents; by rewrite Hs).
  cbn [mbind result_bind].
  destruct (remove_all_elems (parents s) best Hw) as [Hw' Hx'].
  destruct (IH _ Hw') as (best' & Hb & Hwb & Hx).
  { intros y Hy. apply Hk. by right. }
  exists best'. split_and!; [done..|]. intros x. rewrite Hx, Hx'.
  assert (parent graph id x ↔ x ∈ parents s) as Hp.
  { unfold parent. rewrite Hs. naive_solver. }
  setoid_rewrite elem_of_cons. split.
  - intros [[Hin Hn] Hall]. split; [done|]. intros y [->|Hy]; [by rewrite Hp|by apply Hall].
  - intros [Hin Hall]. split_and!; [done| |auto]. rewrite <-Hp. apply Hall. by left.
Qed.

Lemma tc_flip {A} (R : A → A → Prop) x y : tc (flip R) x y → tc R y x.
Proof. induction 1; [by apply tc_once|by eapply tc_r]. Qed.

#[local] Instance parent_dec n p : Decision (parent graph n p).
Proof.
  refine (cast_if (decide (p ∈ default [] (parents <$> bt_get n graph))));
    unfold parent; destruct (bt_get n graph); set_solver.
Defined.

Context (common : list str) (common_known : ∀ c, c ∈ common → known graph c).

(** The common ancestors that are a parent of no common ancestor. *)
Definition best_common (b : str) : Prop := b ∈ common ∧ ∀ c, c ∈ common → ¬ parent graph c b.

Lemma best_above c : c ∈ common → ∃ b, best_common b ∧ rtc (parent graph) b c.
Proof.
  intros Hc. assert (sn (flip (parent graph)) c) as Hsn.
  { apply tc_finite_sn.
    - intros x Hx. by apply (proj2 (proj2 Hg) x), tc_flip.
    - exists (bt_keys graph). intros x Hx%tc_flip%tc_known. apply bt_contains_elem.
      unfold bt_contains, known in *. by destruct (bt_get x graph). }
  induction Hsn as [c _ IH].
  destruct (decide (Exists (λ c', parent graph c' c) common)) as [He|Hn].
  - apply Exists_exists in He as (c' & Hc' & Hp). destruct (IH c' Hp Hc') as (b & Hb & Hr).
    exists b. split; [done|]. by eapply rtc_r.
  - exists c. split; [|done]. split; [done|]. intros c' Hc' Hp. apply Hn, Exists_exists. eauto.
Qed.
End bases.

(** ** The merge base *)

Section merge_base.
Context (repo : snapshots) (repo_wf : bt_wf repo) (line : str) (incoming : Snapshot.t).

(** What the two heads reach, and what both reach. *)
Definition history (n : str) : Prop :=
  rtc (recorded repo) line n ∨ rtc (recorded repo) (Snapshot.id incoming) n.
Definition common_ancestor (n : str) : Prop :=
  rtc (recorded repo) line n ∧ rtc (recorded repo) (Snapshot.id incoming) n.

(** A common ancestor that is a parent of no common ancestor. *)
Definition nearest (n : str) : Prop :=
  common_ancestor n ∧ ∀ c, common_ancestor c → ¬ recorded repo c n.

Section loaded.
Context (graph : snapshots) (graph_wf : bt_wf graph).
Context (heads_read : ∀ r x, r ∈ [line; Snapshot.id incoming] → rtc (recorded repo) r x →
  ∃ s, read_snapshot repo x = Ok s).
Context (graph_get : ∀ k s, bt_get k graph = Some s ↔ history k ∧ read_snapshot repo k = Ok s).

Lemma history_known n : history n → known graph n.
Proof.
  intros Hn. assert (∃ s, read_snapshot repo n = Ok s) as [s Hs].
  { destruct Hn as [Hn|Hn]; [apply (heads_read line)|apply (heads_read (Snapshot.id incoming))];
      set_solver. }
  unfold known. rewrite (proj2 (graph_get n s)); done.
Qed.

Lemma parent_recorded n p : parent graph n p ↔ history n ∧ recorded repo n p.
Proof.
  unfold parent, recorded. setoid_rewrite graph_get. naive_solver.
Qed.

Lemma history_step n p : history n → recorded repo n p → history p.
Proof. intros [Hn|Hn] Hp; [left|right]; by eapply rtc_r. Qed.

Lemma rtc_parent n p : history n → rtc (parent graph) n p ↔ rtc (recorded repo) n p.
Proof.
  intros Hn. split.
  - apply rtc_subrel. intros x y [_ H]%parent_recorded. done.
  - intros Hr. induction Hr as [|n m p Hnm _ IH]; [done|].
    eapply rtc_l; [by apply parent_recorded|]. apply IH. by eapply history_step.
Qed.

Lemma tc_parent x y : tc (parent graph) x y ↔ history x ∧ tc (recorded repo) x y.
Proof.
  split.
  - induction 1 as [x y [Hx Hxy]%parent_recorded|x y z [Hx Hxy]%parent_recorded _ [_ IH]];
      (split; [done|]); [by apply tc_once|by eapply tc_l].
  - intros [Hx Hc]. revert Hx. induction Hc as [x y Hxy|x y z Hxy _ IH]; intros Hx.
    + by apply tc_once, parent_recorded.
    + eapply tc_l; [by apply parent_recorded|]. apply IH. by eapply history_step.
Qed.

Section valid.
Context (valid : well_founded_graph graph).

Definition common_of (line_ancestors incoming_ancestors : BTreeSet str) : BTreeSet str :=
  List.filter (λ e, set_contains e.1 incoming_ancestors) line_ancestors.

Lemma common_of_elems la ia x :
  x ∈ set_elems (common_of la ia) ↔ x ∈ set_elems la ∧ x ∈ set_elems ia.
Proof.
  unfold set_elems at 1 2, bt_keys, common_of. rewrite !list_elem_of_fmap.
  setoid_rewrite list_elem_of_In at 1. setoid_rewrite filter_In. setoid_rewrite <-list_elem_of_In.
  setoid_rewrite set_contains_elem. naive_solver.
Qed.

Lemma common_of_wf la ia : bt_wf la → bt_wf (common_of la ia).
Proof.
  unfold common_of. induction la as [|[k v] la IH]; intros Hw; [done|].
  apply bt_wf_cons in Hw as [Hw Hk]. cbn. case_match; [|by apply IH].
  constructor; [by apply IH|]. apply Forall_forall. intros x Hx%common_of_elems.
  by apply (proj1 (Forall_forall _ _) Hk), Hx.
Qed.

(** The set the code calls [best] holds the nearest common ancestors. *)
Lemma nearest_spec :
  ∃ la ia best, ancestors line graph = Ok la ∧ ancestors (Snapshot.id incoming) graph = Ok ia ∧
    try_fold (remove_parents graph) (set_elems (common_of la ia)) (common_of la ia) = Ok best ∧
    bt_wf best ∧ (∀ x, x ∈ set_elems best ↔ nearest x) ∧
    ∀ c, common_ancestor c → ∃ b, nearest b ∧ rtc (recorded repo) b c.
Proof.
  assert (history line ∧ history (Snapshot.id incoming)) as [Hl Hi] by (split; [by left|by right]).
  destruct (snapshot_ancestors graph graph_wf valid line (history_known _ Hl)) as (la & Hla & Hwl & Hel).
  destruct (snapshot_ancestors graph graph_wf valid _ (history_known _ Hi)) as (ia & Hia & Hwi & Hei).
  assert (∀ x, x ∈ set_elems (common_of la ia) ↔ common_ancestor x) as Hc.
  { intros x. rewrite common_of_elems, Hel, Hei, !rtc_parent by done. done. }
  assert (∀ c, common_ancestor c → history c) as Hch by (intros c [? _]; by left).
  destruct (remove_parents_spec graph (set_elems (common_of la ia)) (common_of la ia))
    as (best & Hb & Hwb & Heb).
  { by apply common_of_wf. }
  { intros id Hid%Hc. auto using history_known. }
  assert (∀ x, best_common graph (set_elems (common_of la ia)) x ↔ nearest x) as Hbest.
  { intros x. unfold best_common, nearest. setoid_rewrite Hc. setoid_rewrite parent_recorded.
    naive_solver. }
  exists la, ia, best. split_and!; [done..| |].
  - intros x. rewrite Heb, <-Hbest. done.
  - intros c Hcc. destruct (best_above graph graph_wf valid (set_elems (common_of la ia)) c) as (b & Hbb & Hr).
    { by apply Hc. }
    exists b. rewrite <-Hbest. split; [done|]. apply Hbest in Hbb as [Hbc _].
    by apply (rtc_parent b c (Hch b Hbc)).
Qed.
End valid.
End loaded.

Lemma read_snapshot_Err n e :
  read_snapshot repo n = Err e →
  e = AncestryError.InvalidIdentifier ∨ e = AncestryError.NotFound ∨
  e = AncestryError.IdentityMismatch.
Proof.
  unfold read_snapshot, validate_object_id.
  destruct (negb _ || _); cbn; [naive_solver|]. destruct (bt_get n repo) as [s|]; cbn; [|naive_solver].
  case_bool_decide; cbn; naive_solver.
Qed.

Lemma read_optional_Err legacy e :
  read_optional_snapshot repo legacy = Err e → ∃ n, read_snapshot repo n = Err e.
Proof.
  destruct legacy as [n|]; cbn; [|done]. destruct (read_snapshot repo n) eqn:Hn; [done|].
  intros [= <-]. eauto.
Qed.

(** What a result of [merge_base] says about the recorded history. *)
Definition base_outcome (legacy : option str) (r : result aerr (option Snapshot.t)) : Prop :=
  match r with
  | Ok base =>
      (∀ n, history n → ∃ s, read_snapshot repo n = Ok s ∧ NoDup (parents s)) ∧
      (∀ n, history n → ¬ tc (recorded repo) n n) ∧
      ((∃ b, base = Some b ∧ read_snapshot repo (Snapshot.id b) = Ok b ∧
          common_ancestor (Snapshot.id b) ∧
          ∀ c, common_ancestor c → rtc (recorded repo) (Snapshot.id b) c) ∨
       (∀ c, ¬ common_ancestor c) ∧ read_optional_snapshot repo legacy = Ok base)
  | Err (Raise AncestryError.Cycle) => ∃ n, history n ∧ tc (recorded repo) n n
  | Err (Raise AncestryError.DuplicateParents) =>
      ∃ n s, history n ∧ read_snapshot repo n = Ok s ∧ ¬ NoDup (parents s)
  | Err (Raise AncestryError.MultipleBases) => ∃ a b, a ≠ b ∧ nearest a ∧ nearest b
  | Err (Raise AncestryError.MissingParent) => False
  | Err (Raise e) =>
      (∃ n, history n ∧ read_snapshot repo n = Err e) ∨
      (∀ c, ¬ common_ancestor c) ∧ read_optional_snapshot repo legacy = Err e
  | Err _ => False
  end.

Lemma read_outcome legacy e :
  (∃ n, read_snapshot repo n = Err e) →
  (∃ n, history n ∧ read_snapshot repo n = Err e) ∨
  (∀ c, ¬ common_ancestor c) ∧ read_optional_snapshot repo legacy = Err e →
  base_outcome legacy (Err (Raise e)).
Proof. intros [n [->|[->| ->]]%read_snapshot_Err] H; exact H. Qed.

(** The last part of the code, once the nearest common ancestors are known. *)
Lemma choose_base legacy graph best :
  bt_wf best → (∀ k s, bt_get k graph = Some s ↔ history k ∧ read_snapshot repo k = Ok s) →
  (∀ n, history n → ∃ s, read_snapshot repo n = Ok s ∧ NoDup (parents s)) →
  (∀ n, history n → ¬ tc (recorded repo) n n) → (∀ x, x ∈ set_elems best ↔ nearest x) →
  (∀ c, common_ancestor c → ∃ b, nearest b ∧ rtc (recorded repo) b c) →
  base_outcome legacy
    (bail_if 1 <? len best with Raise AncestryError.MultipleBases;
     match best with
     | (id, _) :: _ => Some <$> expect (bt_get id graph)
     | [] => map_err Raise (read_optional_snapshot repo legacy)
     end).
Proof.
  intros Hw Hget Hread Hac Hbest Habove. destruct best as [|[a ua] [|[b ub] best]].
  - change (1 <? len ([] : BTreeSet str)) with false. cbn iota.
    assert (∀ c, ¬ common_ancestor c) as Hnone.
    { intros c (b & Hb & _)%Habove. apply Hbest in Hb. by apply not_elem_of_nil in Hb. }
    destruct (read_optional_snapshot repo legacy) as [r|e] eqn:Hr; cbn [map_err].
    + split_and!; [done..|]. by right.
    + apply read_outcome; [by eapply read_optional_Err|]. by right.
  - change (1 <? len [(a, ua)]) with false. cbn iota.
    assert (nearest a) as Ha by (apply Hbest; left).
    assert (history a) as Hh by (left; apply Ha). destruct (Hread a Hh) as (s & Hs & _).
    rewrite (proj2 (Hget a s) (conj Hh Hs)). cbn [expect ok_or fmap].
    pose proof (read_snapshot_get _ _ _ Hs) as [_ Hid].
    split_and!; [done..|]. left. exists s. rewrite Hid. split_and!; [done..|apply Ha|].
    intros c (b & Hb & Hr)%Habove. apply Hbest in Hb. apply list_elem_of_singleton in Hb. by subst b.
  - assert (1 <? len ((a, ua) :: (b, ub) :: best) = true) as ->.
    { apply Z.ltb_lt. unfold len. cbn [length]. lia. }
    apply bt_wf_nodup in Hw. apply NoDup_cons in Hw as [Hn _]. exists a, b. split_and!.
    + intros ->. apply Hn. left.
    + apply Hbest. left.
    + apply Hbest. right. left.
Qed.

(** C33: The merge base of a line and an incoming snapshot. A returned base is a common
    ancestor of both heads from which every other common ancestor is reached, so it is
    their best common ancestor; the legacy base is used only when there is no common
    ancestor at all; success implies that everything the heads reach is readable, has
    distinct parents and is acyclic. An error says which of these fails, or that there are
    two nearest common ancestors; no missing parent is ever reported after loading, and the
    loops neither panic nor run out of steps. *)
Theorem merge_base_exact legacy :
  base_outcome legacy (merge_base repo (Some line) incoming legacy).
Proof.
  unfold merge_base. pose proof (load_graph_spec repo repo_wf line (Snapshot.id incoming)) as Hl.
  destruct (load_graph repo _ _ _) as [graph|[e| |]]; cbn [mbind result_bind]; [|..|done|done].
  2:{ destruct Hl as (x & Hx & He). apply read_outcome; [by exists x|]. left. by exists x. }
  destruct Hl as (Hw & Hheads & Hget). pose proof (validate_graph_spec graph Hw) as Hv.
  destruct (validate_graph graph) as [u|[[]| |]]; cbn [mbind result_bind]; try done.
  2:{ destruct Hv as (n & Hc). apply (tc_parent graph Hget) in Hc. by exists n. }
  2:{ destruct Hv as (n & p & Hp & Hk). apply Hk, (history_known graph Hw Hheads Hget).
      apply (parent_recorded graph Hget) in Hp as [Hn Hp]. by eapply history_step. }
  2:{ destruct Hv as (n & s & [Hn Hs]%Hget & Hd). by exists n, s. }
  destruct (nearest_spec graph Hw Hheads Hget Hv)
    as (la & ia & best & -> & -> & Hb & Hwb & Hbest & Habove).
  cbn [mbind result_bind]. unfold common_of in Hb. rewrite Hb. cbn [mbind result_bind].
  destruct Hv as (_ & Hnd & Hac). apply choose_base; try done.
  - intros n Hn. pose proof (history_known graph Hw Hheads Hget n Hn) as Hk. unfold known in Hk.
    destruct (bt_get n graph) as [s|] eqn:Hs; [|done]. exists s. split; [|by eapply Hnd].
    by apply Hget in Hs as [_ ?].
  - intros n Hn Hc. apply (Hac n). by apply (tc_parent graph Hget).
Qed.
End merge_base.

(** C34: Graph validation decides its specification: a snapshot graph is accepted exactly when
    every recorded parent is in it, no snapshot names a parent twice and no snapshot is its
    own ancestor; and each error is truthful about the graph. *)
Theorem validate_graph_exact graph :
  bt_wf graph →
  (validate_graph graph = Ok tt ↔ well_founded_graph graph) ∧
  match validate_graph graph with
  | Ok _ => True
  | Err (Raise AncestryError.Cycle) => ∃ n, tc (parent graph) n n
  | Err (Raise AncestryError.MissingParent) => ∃ n p, parent graph n p ∧ bt_get p graph = None
  | Err (Raise AncestryError.DuplicateParents) =>
      ∃ n s, bt_get n graph = Some s ∧ ¬ NoDup (parents s)
  | Err _ => False
  end.
Proof.
  intros Hw. pose proof (validate_graph_spec graph Hw) as Hv.
  destruct (validate_graph graph) as [[]|[[]| |]]; try done; (split; [split; [done|]|]).
  - intros (_ & _ & Hac). destruct Hv as (n & Hn). by destruct (Hac n).
  - done.
  - intros (Hk & _). destruct Hv as (n & p & Hp & Hn). by destruct (Hn (Hk n p Hp)).
  - destruct Hv as (n & p & Hp & Hn). exists n, p. split; [done|]. unfold known in Hn.
    by destruct (bt_get p graph); [destruct Hn|].
  - intros (_ & Hd & _). destruct Hv as (n & s & Hs & Hn). by destruct (Hn (Hd n s Hs)).
  - done.
Qed.

(** ** Witnesses *)

Definition sample_snapshot (id : str) (parent : option str) (merged : list str) : Snapshot.t :=
  Snapshot.mk None None id [] parent merged [] [] [] public_policy 0.
Definition sample_root : str := lit "snap_000000000001".
Definition sample_left : str := lit "snap_000000000002".
Definition sample_right : str := lit "snap_000000000003".

(** A root with two children, and a cycle. *)
Definition sample_repo : snapshots :=
  [(sample_root, sample_snapshot sample_root None []);
   (sample_left, sample_snapshot sample_left (Some sample_root) []);
   (sample_right, sample_snapshot sample_right None [sample_root])].
Definition sample_cycle : snapshots :=
  [(sample_root, sample_snapshot sample_root (Some sample_left) []);
   (sample_left, sample_snapshot sample_left (Some sample_root) [])].

Lemma validate_graph_exact_witness :
  well_founded_graph sample_repo ∧ ¬ well_founded_graph sample_cycle ∧
  validate_graph sample_cycle = Err (Raise AncestryError.Cycle).
Proof.
  split_and!; [|intros Hw|vm_compute; reflexivity].
  - apply (validate_graph_exact sample_repo); [repeat constructor|vm_compute; reflexivity].
  - apply (validate_graph_exact sample_cycle) in Hw; [vm_compute in Hw; discriminate|repeat constructor].
Defined.

Lemma merge_base_exact_witness :
  merge_base sample_repo (Some sample_left) (sample_snapshot sample_right None [sample_root]) None
  = Ok (Some (sample_snapshot sample_root None [])) ∧
  base_outcome sample_repo sample_left (sample_snapshot sample_right None [sample_root]) None
    (Ok (Some (sample_snapshot sample_root None []))).
Proof.
  assert (merge_base sample_repo (Some sample_left)
    (sample_snapshot sample_right None [sample_root]) None
    = Ok (Some (sample_snapshot sample_root None []))) as Hm by (vm_compute; reflexivity).
  split; [exact Hm|]. rewrite <-Hm. apply (merge_base_exact sample_repo). repeat constructor.
Defined.
