(* ===== verification/FileTree.v ===== *)
(** * Directory trees, and effects that may stop or fail

    A directory below a fixed root is a finite map from relative paths to nodes; the root
    itself is the empty path and always a directory. Effects run in a monad whose state is
    such a directory (or a record of them) and what decides how the run goes on: either a fuse, one
    unit of which every change of the disk burns, so that a run whose fuse is out stops there as a
    killed process would; or a schedule, which says of every call of the system whether it is
    done, fails, or is where the process is killed. *)

From stdpp Require Import gmap.
From S2P Require Import Prelude Machine Order Utf8.

(** ** Nodes *)

Notation path := (list str).

(** What [fs::symlink_metadata] distinguishes: directories, regular files with their
    permission bits, symbolic links, everything else. *)
Inductive node := Dir | File (bytes : list Z) (mode : Z) | Link (target : list Z) | Special.

#[global] Instance node_eq_dec : EqDecision node.
Proof. solve_decision. Defined.

Notation tree := (gmap path node).

(** [metadata.is_dir() && !metadata.file_type().is_symlink()]. *)
Definition is_dir (n : node) : bool := match n with Dir => true | _ => false end.

(** [fs::symlink_metadata(root.join(path))]; [None] is [ErrorKind::NotFound]. *)
Definition lstat (t : tree) (p : path) : option node :=
  match p with [] => Some Dir | _ => t !! p end.

(** A file name is not empty and has no slash. *)
Definition name_ok (s : str) : Prop := s ≠ [] ∧ existsb (Z.eqb 0x2f) s = false.

(** A tree as the system keeps it: nodes lie in directories, under proper names. *)
Definition tree_wf (t : tree) : Prop :=
  ∀ p s n, t !! (p ++ [s]) = Some n → lstat t p = Some Dir ∧ name_ok s.

Definition parent_of (p : path) : path := removelast p.

(** The names in a directory, whatever the nodes are. *)
Definition read_dir {N} (t : gmap path N) (p : path) : list str :=
  omap (λ e : path * N,
    match e.1 with
    | [] => None
    | _ => if decide (parent_of e.1 = p) then last e.1 else None
    end) (map_to_list t).

(** ** Effects *)

(** How a run ends without a value: an error of the program, the interruption, or a loop of
    the model out of fuel. *)
Inductive stop (E : Type) : Type := Raised (e : E) | Interrupted | Stuck.
Arguments Raised {E} e.
Arguments Interrupted {E}.
Arguments Stuck {E}.

Section effects.
Context {F E : Type}.

Definition eff (S A : Type) : Type := S * F → result (stop E) A * (S * F).

Definition ret {S A} (a : A) : eff S A := λ s, (Ok a, s).
Definition raise {S A} (e : E) : eff S A := λ s, (Err (Raised e), s).
Definition stuck {S A} : eff S A := λ s, (Err Stuck, s).
Definition io_bind {S A B} (m : eff S A) (f : A → eff S B) : eff S B := λ s,
  match m s with
  | (Ok a, s') => f a s'
  | (Err e, s') => (Err e, s')
  end.

(** A computation on the state that may fail. *)
Definition inspect {S A} (f : S → result E A) : eff S A := λ s,
  (map_err Raised (f s.1), s).

(** Running [m], and [cleanup] if it failed; an interruption skips the cleanup. *)
Definition on_error {S A} (m : eff S A) (cleanup : eff S ()) : eff S A := λ s,
  match m s with
  | (Err (Raised e), s') =>
      match cleanup s' with
      | (Err Interrupted, s'') => (Err Interrupted, s'')
      | (_, s'') => (Err (Raised e), s'')
      end
  | r => r
  end.

(** [m.unwrap_or(a)]. *)
Definition or_else {S A} (a : A) (m : eff S A) : eff S A := λ s,
  match m s with
  | (Err (Raised _), s') => (Ok a, s')
  | r => r
  end.

(** [m.context(..)]: another error for each error of [m]. *)
Definition with_context {S A} (f : E → E) (m : eff S A) : eff S A := λ s,
  match m s with
  | (Err (Raised e), s') => (Err (Raised (f e)), s')
  | r => r
  end.

(** Running on a part of the state. *)
Definition zoom {S T A} (get : S → T) (set : T → S → S) (m : eff T A) : eff S A := λ s,
  match m (get s.1, s.2) with
  | (r, (t, fuse)) => (r, (set t s.1, fuse))
  end.

Section loop.
Context {S A : Type} (f : A → eff S ()).
Fixpoint io_each (l : list A) : eff S () :=
  match l with
  | [] => ret tt
  | x :: l => io_bind (f x) (λ _, io_each l)
  end.
End loop.
End effects.
Arguments eff : clear implicits.

Notation "'do!' x := m 'in' k" := (io_bind m (fun x => k))
  (at level 200, x pattern, m at level 100, k at level 200,
   format "'[v' 'do!'  x  :=  m  'in' '/' k ']'") : rgit_scope.

(** *** Under a fuse

    [Some n] allows [n] changes, [None] any number. *)
Notation io := (eff (option nat)).

(** One change of the disk. *)
Definition change {E S} (f : S → S) : io E S () := λ s,
  match s.2 with
  | Some O => (Err Interrupted, s)
  | Some (Datatypes.S n) => (Ok tt, (f s.1, Some n))
  | None => (Ok tt, (f s.1, None))
  end.

(** *** Under a schedule *)

(** The fate of a call: it is done, it fails, or the process is killed in it; a call that
    works step by step has made [progress] then. *)
Inductive fate := Done | Failed (progress : nat) | Killed (progress : nat).

(** What the next calls meet; all calls after them are done. *)
Notation schedule := (list fate).
Notation fio := (eff schedule).

(** A call, [partial] being what it leaves behind when it stops on the way. *)
Definition syscall {E S A} (error : E) (partial : nat → S → S) (f : S → result E (A * S)) : fio E S A :=
  λ '(s, fates),
    match fates with
    | Failed k :: fates => (Err (Raised error), (partial k s, fates))
    | Killed k :: fates => (Err Interrupted, (partial k s, fates))
    | _ =>
        match f s with
        | Ok (a, s') => (Ok a, (s', tail fates))
        | Err e => (Err (Raised e), (s, tail fates))
        end
    end.

(** A call that happens entirely or not at all, and one that only looks. *)
Definition commit_call {E S A} (error : E) (f : S → result E (A * S)) : fio E S A :=
  syscall error (λ _ s, s) f.
Definition observe_call {E S A} (error : E) (f : S → result E A) : fio E S A :=
  commit_call error (λ s, a ← f s; Ok (a, s)).

(** ** Reasoning about runs *)

(** No call fails and the process is not killed. *)
Definition calm (fates : schedule) : Prop := Forall (eq Done) fates.

Lemma calm_tail fates : calm fates → calm (tail fates).
Proof. destruct fates; [done|]. by intros [_ ?]%Forall_cons. Qed.

Lemma not_calm_failed k fates : ¬ calm (Failed k :: fates).
Proof. by intros [? _]%Forall_cons. Qed.

Lemma not_calm_killed k fates : ¬ calm (Killed k :: fates).
Proof. by intros [? _]%Forall_cons. Qed.

(** From [s], whatever the schedule, the run returns in a state satisfying [Q], or it fails or is
    killed in a state satisfying [I]. *)
Definition ends {E S A} (m : fio E S A) (Q : A → S → Prop) (I : S → Prop) (s : S) : Prop :=
  ∀ fates,
    match m (s, fates) with
    | (Ok a, (s', _)) => Q a s'
    | (Err Stuck, _) => False
    | (Err _, (s', _)) => I s'
    end.

(** Besides, it returns on a calm schedule. *)
Definition runs {E S A} (m : fio E S A) (Q : A → S → Prop) (I : S → Prop) (s : S) : Prop :=
  ∀ fates,
    match m (s, fates) with
    | (Ok a, (s', fates')) => Q a s' ∧ (calm fates → calm fates')
    | (Err Stuck, _) => False
    | (Err _, (s', _)) => I s' ∧ ¬ calm fates
    end.

(** Every state in which the run can end satisfies [P]. *)
Definition preserves {E S A} (P : S → Prop) (m : fio E S A) (s : S) : Prop :=
  ∀ fates, P (m (s, fates)).2.1.

Section rules.
Context {E S : Type}.

Lemma runs_ret {A} (a : A) (Q : A → S → Prop) I s : Q a s → runs (E := E) (ret a) Q I s.
Proof. intros HQ fates. by cbn. Qed.

Lemma runs_bind {A B} (m : fio E S A) (f : A → fio E S B) Q R I s :
  runs m R I s → (∀ a s', R a s' → runs (f a) Q I s') → runs (io_bind m f) Q I s.
Proof.
  intros Hm Hf fates. specialize (Hm fates). unfold io_bind.
  destruct (m (s, fates)) as [[a|[e| |]] [s' fates']]; [|done..].
  destruct Hm as [HR Hn]. specialize (Hf a s' HR fates').
  destruct (f a (s', fates')) as [[b|[e| |]] [s'' fates'']]; naive_solver.
Qed.

Lemma runs_mono {A} (m : fio E S A) Q Q' I I' s :
  runs m Q I s → (∀ a s', Q a s' → Q' a s') → (∀ s', I s' → I' s') → runs m Q' I' s.
Proof.
  intros Hm HQ HI fates. specialize (Hm fates).
  destruct (m (s, fates)) as [[a|[e| |]] [s' fates']]; naive_solver.
Qed.

Lemma runs_ends {A} (m : fio E S A) Q I s : runs m Q I s → ends m Q I s.
Proof.
  intros Hm fates. specialize (Hm fates).
  destruct (m (s, fates)) as [[a|[e| |]] [s' fates']]; naive_solver.
Qed.

Lemma ends_mono {A} (m : fio E S A) Q Q' I I' s :
  ends m Q I s → (∀ a s', Q a s' → Q' a s') → (∀ s', I s' → I' s') → ends m Q' I' s.
Proof.
  intros Hm HQ HI fates. specialize (Hm fates).
  destruct (m (s, fates)) as [[a|[e| |]] [s' fates']]; naive_solver.
Qed.

Lemma ends_then {A B} (m : fio E S A) (f : A → fio E S B) Q R I s :
  ends m R I s → (∀ a s', R a s' → ends (f a) Q I s') → ends (io_bind m f) Q I s.
Proof.
  intros Hm Hf fates. specialize (Hm fates). unfold io_bind.
  destruct (m (s, fates)) as [[a|[e| |]] [s' fates']]; [|done..]. by apply Hf.
Qed.

Lemma runs_inspect {A} (f : S → result E A) a Q I s :
  f s = Ok a → Q a s → runs (inspect f) Q I s.
Proof. intros Hf HQ fates. unfold inspect. cbn. rewrite Hf. by cbn. Qed.

Lemma runs_syscall {A} (error : E) partial (f : S → result E (A * S)) a s' Q (I : S → Prop) s :
  f s = Ok (a, s') → Q a s' → (∀ k, I (partial k s)) → runs (syscall error partial f) Q I s.
Proof.
  intros Hf HQ HI [|[|k|k] fates]; cbn; rewrite ?Hf.
  - done.
  - split; [done|]. apply (calm_tail (Done :: fates)).
  - split; [done|apply not_calm_failed].
  - split; [done|apply not_calm_killed].
Qed.

Lemma runs_commit {A} (error : E) (f : S → result E (A * S)) a s' Q (I : S → Prop) s :
  f s = Ok (a, s') → Q a s' → I s → runs (commit_call error f) Q I s.
Proof. intros Hf HQ HI. by apply (runs_syscall _ _ _ a s'). Qed.

Lemma runs_observe {A} (error : E) (f : S → result E A) a Q (I : S → Prop) s :
  f s = Ok a → Q a s → I s → runs (observe_call error f) Q I s.
Proof. intros Hf HQ HI. apply (runs_commit _ _ a s); [by rewrite Hf|done..]. Qed.

Lemma ends_observe {A} (error : E) (f : S → result E A) Q (I : S → Prop) s :
  (∀ a, f s = Ok a → Q a s) → I s → ends (observe_call error f) Q I s.
Proof. intros HQ HI [|[|k|k] fates]; cbn; destruct (f s); cbn; auto. Qed.

(** A look whose failure is taken for an answer. *)
Lemma runs_or_else {A B} (error : E) (f : S → result E A) (a a0 : A) (k : A → fio E S B) Q (I : S → Prop) s :
  f s = Ok a → I s → runs (k a) Q I s → ends (k a0) Q I s →
  runs (io_bind (or_else a0 (observe_call error f)) k) Q I s.
Proof.
  intros Hf HI Hr He fates. unfold io_bind, or_else, observe_call, commit_call, syscall.
  destruct fates as [|[|n|n] fates]; cbn; rewrite ?Hf; cbn.
  - exact (Hr []).
  - pose proof (Hr fates) as Hr1. pose proof (calm_tail (Done :: fates)) as Ht. cbn [tail] in Ht.
    destruct (k a (s, fates)) as [[b|[e| |]] [s' fates']]; naive_solver.
  - specialize (He fates). pose proof (not_calm_failed n fates).
    destruct (k a0 (s, fates)) as [[b|[e| |]] [s' fates']]; naive_solver.
  - split; [done|apply not_calm_killed].
Qed.

Lemma runs_on_error {A} (m : fio E S A) cleanup Q (I J : S → Prop) s :
  runs m Q J s → (∀ s', J s' → I s' ∧ preserves I cleanup s') → runs (on_error m cleanup) Q I s.
Proof.
  intros Hm Hc fates. specialize (Hm fates). unfold on_error.
  destruct (m (s, fates)) as [[a|[e| |]] [s' fates']]; [done| |destruct Hm; split; [by apply Hc|done]|done].
  destruct Hm as [HJ Hn]. destruct (Hc s' HJ) as [_ Hp]. specialize (Hp fates').
  by destruct (cleanup (s', fates')) as [[|[| |]] [s'' ?]].
Qed.

Lemma runs_context {A} f (m : fio E S A) Q I s : runs m Q I s → runs (with_context f m) Q I s.
Proof.
  intros Hm fates. specialize (Hm fates). unfold with_context.
  by destruct (m (s, fates)) as [[a|[e| |]] [s' fates']].
Qed.

Lemma runs_each {A} (f : A → fio E S ()) (P : list A → S → Prop) (I : S → Prop) l s :
  (∀ x todo s', P (x :: todo) s' → x ∈ l → runs (f x) (λ _, P todo) I s') →
  P l s → runs (io_each f l) (λ _, P []) I s.
Proof.
  intros Hstep. assert (∀ todo s', (∀ x, x ∈ todo → x ∈ l) → P todo s' →
    runs (io_each f todo) (λ _, P []) I s') as Hgen; [|by apply Hgen].
  induction todo as [|x todo IH]; intros s' Hin HP; cbn [io_each]; [by apply runs_ret|].
  eapply runs_bind; [apply Hstep; [exact HP|apply Hin; left]|].
  intros ? s'' HP'. apply IH; [|done]. intros y Hy. apply Hin. by right.
Qed.

(** *** Properties kept by every outcome *)

Context (P : S → Prop).

Lemma preserves_bind {A B} (m : fio E S A) (k : A → fio E S B) s :
  preserves P m s → (∀ a s', P s' → preserves P (k a) s') → preserves P (io_bind m k) s.
Proof.
  intros Hm Hk fates. specialize (Hm fates). unfold io_bind.
  destruct (m (s, fates)) as [[a|e] [s' fates']]; [by apply Hk|done].
Qed.

Lemma preserves_inspect {A B} (f : S → result E A) (k : A → fio E S B) s :
  P s → (∀ a, f s = Ok a → preserves P (k a) s) → preserves P (io_bind (inspect f) k) s.
Proof.
  intros Hs Hk fates. unfold io_bind, inspect. cbn. destruct (f s) as [a|e]; cbn; [by apply Hk|done].
Qed.

Lemma preserves_syscall {A} (error : E) partial (f : S → result E (A * S)) s :
  P s → (∀ k, P (partial k s)) → (∀ a s', f s = Ok (a, s') → P s') → preserves P (syscall error partial f) s.
Proof.
  intros Hs Hk Hf [|[|k|k] fates]; cbn; try done; destruct (f s) as [[a s']|e] eqn:Heq; cbn; by eauto.
Qed.

Lemma preserves_commit {A} (error : E) (f : S → result E (A * S)) s :
  P s → (∀ a s', f s = Ok (a, s') → P s') → preserves P (commit_call error f) s.
Proof. intros Hs Hf. by apply preserves_syscall. Qed.

Lemma preserves_look {A} (error : E) (f : S → result E A) s : P s → preserves P (observe_call error f) s.
Proof. intros Hs. apply preserves_commit; [done|]. by intros a s' (? & _ & [= _ <-])%bind_Ok. Qed.

Lemma preserves_observe {A B} (error : E) (f : S → result E A) (k : A → fio E S B) s :
  P s → (∀ a, f s = Ok a → preserves P (k a) s) → preserves P (io_bind (observe_call error f) k) s.
Proof.
  intros Hs Hk fates. unfold io_bind, observe_call, commit_call, syscall.
  destruct fates as [|[|n|n] fates]; cbn; try done; destruct (f s) as [a|e] eqn:Hf; cbn; try done; by apply Hk.
Qed.

Lemma preserves_or_else {A} a (m : fio E S A) s : preserves P m s → preserves P (or_else a m) s.
Proof. intros Hm fates. specialize (Hm fates). unfold or_else. by destruct (m _) as [[|[]] ?]. Qed.

Lemma preserves_on_error {A} (m : fio E S A) cleanup s :
  preserves P m s → (∀ s', P s' → preserves P cleanup s') → preserves P (on_error m cleanup) s.
Proof.
  intros Hm Hc fates. specialize (Hm fates). unfold on_error.
  destruct (m (s, fates)) as [[a|[e| |]] [s' fates']]; try done. specialize (Hc s' Hm fates').
  by destruct (cleanup (s', fates')) as [[a|[e'| |]] [s'' fates'']].
Qed.

Lemma preserves_each {A} (f : A → fio E S ()) l s :
  (∀ x s', x ∈ l → P s' → preserves P (f x) s') → P s → preserves P (io_each f l) s.
Proof.
  revert s. induction l as [|x l IH]; intros s Hf Hs; cbn [io_each]; [by intros fates|].
  apply preserves_bind; [apply Hf; [left|done]|]. intros ? s' Hs'. apply IH; [|done].
  intros y s'' Hy. apply Hf. by right.
Qed.
End rules.

Lemma runs_zoom {E S T A} (get : S → T) (set : T → S → S) (m : fio E T A) Q I s :
  runs m (λ a t, Q a (set t s)) (λ t, I (set t s)) (get s) → runs (zoom get set m) Q I s.
Proof.
  intros Hm fates. specialize (Hm fates). unfold zoom. cbn.
  by destruct (m (get s, fates)) as [[a|[e| |]] [t fates']].
Qed.

Lemma preserves_zoom {E S T A} (P : S → Prop) (get : S → T) (set : T → S → S) (m : fio E T A) s :
  preserves (λ t, P (set t s)) m (get s) → preserves P (zoom get set m) s.
Proof.
  intros Hm fates. specialize (Hm fates). unfold zoom. cbn.
  by destruct (m (get s, fates)) as [r [t fates']].
Qed.

(** ** Directories *)

Lemma removelast_snoc {A} (l : list A) x : removelast (l ++ [x]) = l.
Proof. by rewrite removelast_last. Qed.

Lemma read_dir_elem {N} (t : gmap path N) p s : s ∈ read_dir t p ↔ is_Some (t !! (p ++ [s])).
Proof.
  unfold read_dir, parent_of. rewrite list_elem_of_omap. split.
  - intros ([q n] & Hq%elem_of_map_to_list & Hs). cbn in Hs.
    destruct q as [|x q _] using rev_ind; [done|].
    rewrite removelast_snoc, last_snoc in Hs.
    destruct (q ++ [x]) eqn:Hx; [by destruct q|]. rewrite <-Hx in *. case_decide; [|done].
    simplify_eq. by exists n.
  - intros [n Hn]. exists (p ++ [s], n). rewrite elem_of_map_to_list. split; [done|]. cbn.
    rewrite removelast_snoc, last_snoc. destruct (p ++ [s]) eqn:Hx; [by destruct p|].
    by rewrite decide_True.
Qed.

Lemma read_dir_nodup {N} (t : gmap path N) p : NoDup (read_dir t p).
Proof.
  unfold read_dir. pose proof (NoDup_map_to_list t) as Hnd. revert Hnd.
  assert (∀ e, e ∈ map_to_list t → t !! e.1 = Some e.2) as Hin.
  { intros [q n]. by rewrite elem_of_map_to_list. }
  revert Hin. generalize (map_to_list t). intros l Hin Hnd.
  induction Hnd as [|[q n] l Hq Hnd IH]; [constructor|]. cbn.
  assert (∀ e, e ∈ l → t !! e.1 = Some e.2) as Hin' by (intros e He; apply Hin; by right).
  specialize (IH Hin'). destruct q as [|x q _] using rev_ind; [done|].
  unfold parent_of at 1. rewrite removelast_snoc, last_snoc.
  destruct (q ++ [x]) eqn:Hx; [by destruct q|]. rewrite <-Hx in *. case_decide as Hp; [|done].
  subst. constructor; [|done]. rewrite list_elem_of_omap. intros ([r m] & Hr & Hs).
  cbn in Hs. destruct r as [|y r _] using rev_ind; [done|].
  unfold parent_of in Hs. rewrite removelast_snoc, last_snoc in Hs.
  destruct (r ++ [y]) eqn:Hy; [by destruct r|]. rewrite <-Hy in *. case_decide; [|done].
  simplify_eq. pose proof (Hin' _ Hr) as H1. pose proof (Hin (p ++ [x], n) ltac:(left)) as H2.
  cbn in *. simplify_eq. done.
Qed.

(** Every proper prefix of a path with a node is a directory. *)
Lemma tree_wf_prefix t p q n :
  tree_wf t → t !! (p ++ q) = Some n → q ≠ [] → lstat t p = Some Dir.
Proof.
  intros Hwf. revert n. induction q as [|s q IH] using rev_ind; intros n Hn Hne; [done|].
  rewrite app_assoc in Hn. apply Hwf in Hn as [Hn _].
  destruct q as [|s' q]; [by rewrite app_nil_r in Hn|].
  apply (IH Dir); [|done]. unfold lstat in Hn. by destruct (p ++ s' :: q) eqn:?; [destruct p|].
Qed.

Lemma lstat_lookup t p : p ≠ [] → lstat t p = t !! p.
Proof. by destruct p. Qed.

Lemma lstat_snoc t p s : lstat t (p ++ [s]) = t !! (p ++ [s]).
Proof. apply lstat_lookup. by destruct p. Qed.

Lemma tree_wf_names t p n : tree_wf t → t !! p = Some n → Forall name_ok p.
Proof.
  intros Hwf. revert n. induction p as [|s p IH] using rev_ind; intros n Hn; [done|].
  apply Hwf in Hn as [Hd Hs]. apply Forall_app. split; [|by apply Forall_singleton].
  destruct p as [|s' p]; [done|]. by apply (IH Dir).
Qed.

Lemma tree_wf_insert t p s n :
  tree_wf t → lstat t p = Some Dir → name_ok s →
  (∀ x, is_Some (t !! ((p ++ [s]) ++ [x])) → n = Dir) → tree_wf (<[p ++ [s] := n]> t).
Proof.
  intros Hwf Hp Hs Hn q x m. rewrite lookup_insert. case_decide as Hqx.
  - intros _. apply app_inj_tail in Hqx as [<- <-]. split; [|done].
    destruct p as [|y p]; [done|]. rewrite !lstat_lookup in * by done.
    rewrite lookup_insert_ne; [done|]. intros Heq%(f_equal length).
    rewrite length_app in Heq. cbn in Heq. lia.
  - intros Hm. pose proof (Hwf _ _ _ Hm) as [Hd Hx]. split; [|done].
    destruct q as [|y q]; [done|]. rewrite lstat_lookup in * by done.
    rewrite lookup_insert. case_decide as Heq; [|done]. f_equal. apply (Hn x).
    rewrite Heq. by exists m.
Qed.

Lemma tree_wf_delete t p :
  tree_wf t → (∀ s, t !! (p ++ [s]) = None) → tree_wf (delete p t).
Proof.
  intros Hwf Hp q x m. rewrite lookup_delete_Some. intros [Hne Hm].
  pose proof (Hwf _ _ _ Hm) as [Hd Hx]. split; [|done].
  destruct q as [|y q]; [done|]. rewrite lstat_lookup in * by done.
  rewrite lookup_delete_ne; [done|]. intros ->. by rewrite Hp in Hm.
Qed.

(** The nodes at the proper prefixes of a list of parts, one part at a time. *)
Lemma prefix_nodes_cons (t : tree) (dir : path) (P : path → node → Prop) part x rest :
  (∀ q r n, part :: x :: rest = q ++ r → q ≠ [] → r ≠ [] → t !! (dir ++ q) = Some n → P q n) ↔
  (∀ n, t !! (dir ++ [part]) = Some n → P [part] n) ∧
  (∀ q r n, x :: rest = q ++ r → q ≠ [] → r ≠ [] → t !! ((dir ++ [part]) ++ q) = Some n →
    P (part :: q) n).
Proof.
  setoid_rewrite <-app_assoc. split.
  - intros HP. split.
    + intros n Hn. by apply (HP [part] (x :: rest)).
    + intros q r n Hq Hne Hr Hn. apply (HP (part :: q) r); [by rewrite Hq|done..].
  - intros [H1 H2] [|y q] r n Hq Hne Hr Hn; [done|]. injection Hq as <- Hq.
    destruct q as [|z q]; [by apply H1|]. eapply H2; [exact Hq|done..].
Qed.

(** ** Counting the nodes below a path *)

Definition indicator (b : bool) : nat := if b then 1 else 0.
Definition prefixb (p q : path) : bool := bool_decide (p `prefix_of` q).
Definition tree_paths {N} (t : gmap path N) : list path := map fst (map_to_list t).
Definition below {N} (t : gmap path N) (p : path) : nat :=
  sum_list_with (λ q, indicator (prefixb p q)) (tree_paths t).

Lemma sum_list_with_plus {A} (f g : A → nat) l :
  sum_list_with (λ x, f x + g x)%nat l = (sum_list_with f l + sum_list_with g l)%nat.
Proof. induction l as [|x l IH]; cbn; [done|]. rewrite IH. lia. Qed.

Lemma sum_list_with_zero {A} (f : A → nat) l : (∀ x, x ∈ l → f x = 0%nat) → sum_list_with f l = 0%nat.
Proof.
  induction l as [|x l IH]; intros Hf; cbn; [done|]. rewrite Hf by left. apply IH.
  intros y Hy. apply Hf. by right.
Qed.

Lemma sum_list_swap {A B} (f : A → B → nat) l k :
  sum_list_with (λ x, sum_list_with (f x) k) l = sum_list_with (λ y, sum_list_with (λ x, f x y) l) k.
Proof.
  induction l as [|x l IH]; cbn; [|by rewrite IH, sum_list_with_plus].
  symmetry. apply sum_list_with_zero. done.
Qed.

Lemma sum_indicator_unique (f : str → bool) (cs : list str) :
  NoDup cs → (∀ x y, f x = true → f y = true → x = y) →
  (sum_list_with (λ s, indicator (f s)) cs ≤ 1)%nat.
Proof.
  intros Hnd Hu. induction Hnd as [|s cs Hs Hnd IH]; cbn; [lia|].
  destruct (f s) eqn:Hf; cbn; [|lia]. rewrite sum_list_with_zero; [lia|].
  intros y Hy. destruct (f y) eqn:Hfy; [|done]. rewrite (Hu s y Hf Hfy) in Hs. done.
Qed.

Lemma children_at_most d q cs :
  NoDup cs →
  (sum_list_with (λ s, indicator (prefixb (d ++ [s]) q)) cs + indicator (bool_decide (q = d))
   ≤ indicator (prefixb d q))%nat.
Proof.
  intros Hnd. unfold prefixb.
  assert (∀ s, (d ++ [s]) `prefix_of` q → d `prefix_of` q ∧ q ≠ d) as Hs.
  { intros s [r ->]. rewrite <-app_assoc. split; [by apply prefix_app_r|]. intros Heq%(f_equal length).
    rewrite length_app in Heq. cbn in Heq. lia. }
  case_bool_decide as Hqd; cbn.
  - rewrite sum_list_with_zero.
    + subst. rewrite bool_decide_true by done. cbn. lia.
    + intros s _. rewrite bool_decide_false; [done|]. intros ?%Hs. tauto.
  - destruct (decide (d `prefix_of` q)) as [Hd|Hd].
    + rewrite (bool_decide_true _ Hd). cbn. rewrite Nat.add_0_r.
      apply (sum_indicator_unique (λ s, bool_decide ((d ++ [s]) `prefix_of` q))); [done|].
      intros x y Hx%bool_decide_eq_true Hy%bool_decide_eq_true.
      destruct Hx as [r ->], Hy as [r' Hr]. rewrite <-!app_assoc in Hr. by simplify_list_eq.
    + rewrite sum_list_with_zero; [lia|]. intros s _. rewrite bool_decide_false; [done|].
      intros ?%Hs. tauto.
Qed.

Lemma tree_paths_elem {N} (t : gmap path N) p : p ∈ tree_paths t ↔ is_Some (t !! p).
Proof.
  unfold tree_paths. rewrite list_elem_of_fmap. split.
  - intros ([q n] & -> & Hq%elem_of_map_to_list). by exists n.
  - intros [n Hn]. exists (p, n). by rewrite elem_of_map_to_list.
Qed.

Lemma tree_paths_nodup {N} (t : gmap path N) : NoDup (tree_paths t).
Proof. apply NoDup_fst_map_to_list. Qed.

Lemma below_self {N} (t : gmap path N) p :
  sum_list_with (λ q, indicator (bool_decide (q = p))) (tree_paths t)
  = indicator (bool_decide (is_Some (t !! p))).
Proof.
  pose proof (tree_paths_nodup t) as Hnd.
  assert (bool_decide (is_Some (t !! p)) = bool_decide (p ∈ tree_paths t)) as ->
    by (apply bool_decide_ext; by rewrite tree_paths_elem).
  induction Hnd as [|q l Hq Hnd IH]; [done|]. cbn. rewrite IH.
  repeat case_bool_decide; subst; cbn; set_solver.
Qed.

Lemma below_children {N} (t : gmap path N) d cs :
  NoDup cs →
  (sum_list_with (λ s, below t (d ++ [s])) cs + indicator (bool_decide (is_Some (t !! d)))
   ≤ below t d)%nat.
Proof.
  intros Hnd. unfold below. rewrite sum_list_swap, <-below_self, <-sum_list_with_plus.
  induction (tree_paths t) as [|q l IH]; cbn; [lia|].
  pose proof (children_at_most d q cs Hnd). lia.
Qed.

Lemma below_size {N} (t : gmap path N) p : (below t p ≤ size t)%nat.
Proof.
  unfold below, tree_paths. rewrite <-(length_map_to_list t), <-(length_map fst).
  induction (map fst (map_to_list t)) as [|q l IH]; cbn; [lia|].
  destruct (prefixb p q); cbn; lia.
Qed.

Lemma below_pos {N} (t : gmap path N) p : is_Some (t !! p) → (1 ≤ below t p)%nat.
Proof.
  intros Hp. pose proof (below_children t p [] ltac:(constructor)) as Hb.
  rewrite bool_decide_true in Hb by done. cbn in Hb. lia.
Qed.

Lemma sum_rev_map {A B} (f : B → nat) (g : A → B) l :
  sum_list_with f (rev (map g l)) = sum_list_with (λ x, f (g x)) l.
Proof.
  induction l as [|x l IH]; cbn; [done|]. rewrite sum_list_with_app, IH. cbn. lia.
Qed.
