(* ===== verification/LooseFrame.v ===== *)
(** * Records of the loose-object store

    The framing of [crates/rgit-store/src/loose.rs]: [encode_frame] and the streaming parser
    behind every read. A record is the magic, a format number, the identifier, kind and
    schema of an object, the length of its payload, the payload and a checksum of all that.
    An open file is the list of bytes that remain to be read. *)

From stdpp Require Import pretty.
From S2P Require Import Prelude Machine Order Utf8 Canonical CanonicalFacts CanonicalSpec ObjectId Types Objects Fields Decode DecodeFacts Storable ObjectSpec.

(** [io::ErrorKind], as far as the store tells the kinds apart. *)
Module ErrorKind.
Inductive t := NotFound | AlreadyExists | Interrupted | WriteZero | Other.
#[global] Instance eq_dec : EqDecision t.
Proof. solve_decision. Defined.
End ErrorKind.

Module LooseStoreError.
Inductive t :=
  | Io (operation : String.string) (source : ErrorKind.t)
  | InvalidFrame | UnsupportedFormat | InvalidVarint | AllocationLimit | Checksum
  | InvalidObject (error : DecodeObjectError.t)
  | MetadataMismatch | PathMismatch | Unavailable | CollisionIncident | ReadOnlyIncident
  | InjectedFailure | UnsupportedPlatform.
#[global] Arguments Io operation%_string_scope source.
End LooseStoreError.
Import LooseStoreError.
Notation lerr := LooseStoreError.t (only parsing).

(** [b"RGITLOOS"] and [b"RGIT-LOOSE-CHECKSUM\0"]. *)
Definition MAGIC : list Z := lit "RGITLOOS".
Definition CHECKSUM_DOMAIN : list Z := lit "RGIT-LOOSE-CHECKSUM" ++ [0].
Definition CHECKSUM_LEN : Z := 32.
Definition ABSOLUTE_RECORD_MAX : Z := 16777358.

Module VerifiedRecord.
Record t := mk { payload : list Z; object : AnyObject.t }.
End VerifiedRecord.

Definition payload_limit (kind : ObjectKind.t) : Z :=
  match kind with
  | ObjectKind.Chunk | ObjectKind.Blob => BULK_MAX_ENCODED_BYTES
  | _ => METADATA_MAX_ENCODED_BYTES
  end.

Definition limits_for (kind : ObjectKind.t) : CanonicalLimits :=
  match kind with
  | ObjectKind.Chunk | ObjectKind.Blob => bulk
  | _ => metadata
  end.

(** ** Varints: the loops of this file are those of [id.rs], with one error *)

Module Varint.
Fixpoint push_varint_loop (fuel : nat) (output : list Z) (value : Z) : list Z :=
  match fuel with
  | O => output
  | S fuel =>
      let byte := as_u8 (Z.land value 0x7f) in
      let value := Z.shiftr value 7 in
      let byte := if negb (value =? 0) then Z.lor byte 0x80 else byte in
      let output := output ++ [byte] in
      if value =? 0 then output else push_varint_loop fuel output value
  end.

(** Ten rounds of seven bits exhaust a [u64]. *)
Definition push_varint (output : list Z) (value : Z) : list Z := push_varint_loop 10 output value.

Fixpoint read_varint_loop (shifts : list Z) (input : list Z) (start at_ value : Z) :
    result lerr (Z * Z) :=
  match shifts with
  | [] => Err InvalidVarint
  | shift :: shifts =>
      byte ← ok_or (input !! Z.to_nat at_) InvalidVarint;
      let at_ := at_ + 1 in
      bail_if (shift =? 63) && (1 <? byte) with InvalidVarint;
      let value := Z.lor value (Z.land (Z.shiftl (Z.land byte 0x7f) shift) u64_max) in
      if Z.land byte 0x80 =? 0 then
        let canonical := push_varint [] value in
        bail_if negb (len canonical =? at_ - start) with InvalidVarint;
        Ok (value, at_)
      else read_varint_loop shifts input start at_ value
  end.

Definition read_varint (input : list Z) (at_ : Z) : result lerr (Z * Z) :=
  read_varint_loop varint_shifts input at_ at_ 0.
End Varint.

(** ** The hashing reader *)

Module Stream.
(** The unread bytes, the bytes given to the checksum so far, and their count. *)
Record t := mk { rest : list Z; checksum : list Z; consumed : Z }.
End Stream.

(** [reader.read_exact(output)] for an output of [n] bytes. *)
Definition read_exact (n : Z) (rest : list Z) : result lerr (list Z * list Z) :=
  if n <=? len rest then Ok (firstn (Z.to_nat n) rest, skipn (Z.to_nat n) rest)
  else Err InvalidFrame.

Definition read_hashed (n : Z) (s : Stream.t) : result lerr (list Z * Stream.t) :=
  '(output, rest) ← read_exact n (Stream.rest s);
  consumed ← ok_or (checked_add (Stream.consumed s) (len output)) InvalidFrame;
  Ok (output, Stream.mk rest (Stream.checksum s ++ output) consumed).

(** [for index in 0..10], with [encoded] the bytes [encoded[..index]]. *)
Fixpoint read_varint_stream_loop (indices : list Z) (encoded : list Z) (s : Stream.t) :
    result lerr (Z * Stream.t) :=
  match indices with
  | [] => Err InvalidVarint
  | index :: indices =>
      '(output, s) ← read_hashed 1 s;
      let encoded := encoded ++ output in
      let byte := default 0 (encoded !! Z.to_nat index) in
      bail_if (index =? 9) && (1 <? byte) with InvalidVarint;
      if Z.land byte 0x80 =? 0 then
        '(value, at_) ← Varint.read_varint encoded 0;
        bail_if negb (at_ =? index + 1) with InvalidVarint;
        Ok (value, s)
      else read_varint_stream_loop indices encoded s
  end.

Definition read_varint_stream (s : Stream.t) : result lerr (Z * Stream.t) :=
  read_varint_stream_loop [0; 1; 2; 3; 4; 5; 6; 7; 8; 9] [] s.

(** ** Paths of objects *)

(** [hex::encode]. *)
Definition hex_char (n : Z) : Z := if n <? 10 then 48 + n else 87 + n.
Definition hex_encode (bytes : list Z) : str :=
  flat_map (λ b, [hex_char (b / 16); hex_char (b `mod` 16)]) bytes.

Definition path_components (id : ObjectId) : list str * str :=
  let digest := hex_encode (digest id) in
  ([lit (pretty (format_version id));
    hex_encode [HashAlgorithm.code (algorithm id)];
    firstn 2 digest],
   skipn 2 digest ++ lit ".rgl").

Section frames.
Context `{Unicode, Digests}.

(** ** Writing *)

Definition encode_frame (id : ObjectId) (object : AnyObject.t) (payload : list Z) :
    result lerr (list Z) :=
  let limit := payload_limit (kind (AnyObject.decoded object)) in
  bail_if limit <? len payload with AllocationLimit;
  let frame := MAGIC in
  let frame := Varint.push_varint frame 0 in
  let frame := frame ++ to_bytes id in
  let frame := Varint.push_varint frame (ObjectKind.code (kind (AnyObject.decoded object))) in
  let frame := Varint.push_varint frame (schema_version (AnyObject.decoded object)) in
  let frame := Varint.push_varint frame (len payload) in
  let frame := frame ++ payload in
  Ok (frame ++ sha256 (CHECKSUM_DOMAIN ++ frame)).

(** ** Reading *)

Definition validate_logical_record (id : ObjectId) (kind : ObjectKind.t) (schema : Z)
    (payload : list Z) (expected_id : option ObjectId) (actual_path : option (list str)) :
    result lerr VerifiedRecord.t :=
  object ← map_err InvalidObject (AnyObject.decode_verified payload id (limits_for kind));
  let decoded := AnyObject.decoded object in
  bail_if negb (bool_decide (Decode.kind decoded = kind)) || negb (schema_version decoded =? schema)
    with MetadataMismatch;
  bail_if match expected_id with
          | Some expected => negb (bool_decide (expected = id))
          | None => false
          end with MetadataMismatch;
  bail_if match actual_path with
          | Some path =>
              let '(components, suffix) := path_components id in
              let tail := firstn 4 (rev path) in
              negb (bool_decide (tail = suffix :: rev components))
          | None => false
          end with PathMismatch;
  Ok (VerifiedRecord.mk payload object).

Definition parse_record_stream (reader : list Z) (observed_length : Z)
    (expected_id : option ObjectId) (actual_path : option (list str)) :
    result lerr VerifiedRecord.t :=
  let s := Stream.mk reader CHECKSUM_DOMAIN 0 in
  '(magic, s) ← read_hashed 8 s;
  bail_if negb (bool_decide (magic = MAGIC)) with InvalidFrame;
  '(version, s) ← read_varint_stream s;
  bail_if negb (version =? 0) with UnsupportedFormat;
  '(format, s) ← read_varint_stream s;
  '(algorithm, s) ← read_varint_stream s;
  '(digest_length, s) ← read_varint_stream s;
  bail_if negb (format =? 0) || negb ((algorithm =? 0x12) || (algorithm =? 0x1e)) ||
          negb (digest_length =? 32) with UnsupportedFormat;
  '(digest, s) ← read_hashed 32 s;
  let id_bytes := Varint.push_varint [] format in
  let id_bytes := Varint.push_varint id_bytes algorithm in
  let id_bytes := Varint.push_varint id_bytes digest_length in
  let id_bytes := id_bytes ++ digest in
  id ← map_err (λ _, InvalidFrame) (from_bytes id_bytes);
  '(kind_number, s) ← read_varint_stream s;
  kind ← map_err (λ _, UnsupportedFormat) (ObjectKind.try_from kind_number);
  '(schema, s) ← read_varint_stream s;
  bail_if negb (ObjectKind.supports_schema kind schema) with UnsupportedFormat;
  '(payload_length, s) ← read_varint_stream s;
  bail_if payload_limit kind <? payload_length with AllocationLimit;
  expected_length ← ok_or (length ← checked_add (Stream.consumed s) payload_length;
                           checked_add length CHECKSUM_LEN) InvalidFrame;
  bail_if negb (expected_length =? observed_length) with InvalidFrame;
  '(payload, s) ← read_hashed payload_length s;
  '(physical_checksum, _) ← read_exact CHECKSUM_LEN (Stream.rest s);
  bail_if negb (bool_decide (sha256 (Stream.checksum s) = physical_checksum)) with Checksum;
  validate_logical_record id kind schema payload expected_id actual_path.
End frames.

(** ** Varints *)

Lemma push_varint_same output value : Varint.push_varint output value = push_varint output value.
Proof.
  unfold Varint.push_varint, push_varint. generalize 10%nat. intros fuel. revert output value.
  induction fuel as [|fuel IH]; intros output value; cbn; [done|].
  destruct (Z.shiftr value 7 =? 0); [done|]. apply IH.
Qed.

Lemma read_varint_same input at_ :
  Varint.read_varint input at_ = map_err (λ _, InvalidVarint) (read_varint input at_).
Proof.
  unfold Varint.read_varint, read_varint.
  assert (∀ shifts start at_ value,
    Varint.read_varint_loop shifts input start at_ value
    = map_err (λ _, InvalidVarint) (read_varint_loop shifts input start at_ value)) as Hloop;
    [|apply Hloop].
  induction shifts as [|shift shifts IH]; intros start i value; [done|].
  cbn [Varint.read_varint_loop read_varint_loop].
  destruct (input !! Z.to_nat i) as [byte|]; cbn [ok_or mbind result_bind map_err]; [|done].
  destruct (_ && _); [done|]. destruct (Z.land byte 128 =? 0); [|apply IH].
  rewrite push_varint_same. by destruct (negb _).
Qed.

(** ** The hashing reader *)

(** A stream whose count cannot overflow. *)
Definition stream_ok (s : Stream.t) : Prop :=
  is_bytes (Stream.rest s) = true ∧ 0 ≤ Stream.consumed s ∧
  Stream.consumed s + len (Stream.rest s) ≤ u64_max.

(** The stream after reading [out]. *)
Definition after (s : Stream.t) (out rest : list Z) : Stream.t :=
  Stream.mk rest (Stream.checksum s ++ out) (Stream.consumed s + len out).

Lemma after_ok s out rest :
  stream_ok s → Stream.rest s = out ++ rest → stream_ok (after s out rest).
Proof.
  intros (Hb & Hc & Hu) Hr. rewrite Hr, is_bytes_app, andb_true_iff, len_app in *.
  pose proof (len_nonneg out). unfold stream_ok, after. cbn. split_and!; [naive_solver|lia|lia].
Qed.

Lemma after_app s a b rest rest' : after (after s a rest') b rest = after s (a ++ b) rest.
Proof. unfold after. cbn. rewrite <-app_assoc, len_app. f_equal. lia. Qed.

Lemma read_exact_Ok n rest out rest' : 0 ≤ n →
  read_exact n rest = Ok (out, rest') ↔ rest = out ++ rest' ∧ len out = n.
Proof.
  intros Hn. unfold read_exact, len. destruct (Z.leb_spec n (Z.of_nat (length rest))) as [Hl|Hl]; split.
  - intros [= <- <-]. rewrite take_drop, length_take. split; [done|lia].
  - intros [-> <-]. by rewrite Nat2Z.id, take_app_length, drop_app_length.
  - done.
  - intros [-> <-]. rewrite length_app in Hl. lia.
Qed.

Lemma read_hashed_Ok n s out s' : 0 ≤ n → stream_ok s →
  read_hashed n s = Ok (out, s') ↔
    Stream.rest s = out ++ Stream.rest s' ∧ len out = n ∧ s' = after s out (Stream.rest s').
Proof.
  intros Hn (Hb & Hc & Hu). unfold read_hashed. rewrite bind_Ok. split.
  - intros ([o r] & [Hr Hl]%read_exact_Ok & Hk); [|done].
    apply bind_Ok in Hk as (c & [-> _]%ok_or_Ok%checked_add_Some & [= <- <-]). done.
  - intros (Hr & Hl & Hs). exists (out, Stream.rest s'). split; [by apply read_exact_Ok|].
    apply bind_Ok. exists (Stream.consumed s + len out). split; [|by rewrite Hs].
    apply ok_or_Ok, checked_add_Some. split; [done|].
    rewrite Hr, len_app in Hu. pose proof (len_nonneg (Stream.rest s')). lia.
Qed.

(** Reading what is there, as an equation. *)
Lemma read_hashed_here n s out rest : stream_ok s → Stream.rest s = out ++ rest → len out = n →
  read_hashed n s = Ok (out, after s out rest).
Proof. intros Hs Hr <-. by apply read_hashed_Ok; [apply len_nonneg|..]. Qed.

(** What the streaming reader of varints has read so far: continuation bytes. *)
Lemma stream_loop_sound k s encoded v s' m :
  (length encoded = k)%nat → (k + m = 10)%nat → stream_ok s → is_bytes encoded = true →
  read_varint_stream_loop (map Z.of_nat (seq k m)) encoded s = Ok (v, s') →
  ∃ out, is_u64 v = true ∧ encoded ++ out = varint v ∧
    Stream.rest s = out ++ Stream.rest s' ∧ s' = after s out (Stream.rest s').
Proof.
  revert k s encoded. induction m as [|m IH]; intros k s encoded Hk Hm Hs Hb; [done|].
  cbn [seq map read_varint_stream_loop]. intros ([o s1] & Hread & Hr)%bind_Ok.
  apply read_hashed_Ok in Hread as (Ho & Hl & Hs1); [|lia|done].
  assert (is_bytes o = true) as Hob.
  { destruct Hs as [Hsb _]. rewrite Ho, is_bytes_app, andb_true_iff in Hsb. by destruct Hsb. }
  assert (is_bytes (encoded ++ o) = true) as Heb by (rewrite is_bytes_app; by apply andb_true_iff).
  apply bail_Ok in Hr as [_ Hr]. destruct (Z.land _ 128 =? 0).
  - apply bind_Ok in Hr as ([v' j] & Hv & [Hj%negb_false_iff%Z.eqb_eq [= -> ->]]%bail_Ok).
    rewrite read_varint_same in Hv. apply map_err_Ok, read_varint_Ok in Hv as [Hu Hrd]; [|done|lia].
    exists o. split_and!; try done. unfold varint. apply is_u64_spec in Hu as Hu'.
    rewrite push_varint_leb by lia. symmetry. apply (reads_all _ j); [done|].
    rewrite len_app, Hl. unfold len. lia.
  - assert (stream_ok s1) as Hs1ok by (rewrite Hs1; by apply after_ok).
    apply (IH (S k)) in Hr as (out & Hu & Henc & Hrest & Hs'); [|rewrite length_app; unfold len in Hl; lia|lia|done..].
    exists (o ++ out). split_and!; [done|by rewrite app_assoc|by rewrite Ho, Hrest, app_assoc|].
    rewrite Hs', Hs1, after_app. done.
Qed.

Lemma leb_value_nonneg bs : 0 ≤ leb_value bs.
Proof. induction bs as [|b bs IH]; cbn; [lia|]. pose proof (Z.mod_pos_bound b 128). lia. Qed.

Lemma leb_value_app a b :
  leb_value (a ++ b) = leb_value a + 128 ^ Z.of_nat (length a) * leb_value b.
Proof.
  induction a as [|x a IH]; [cbn [app leb_value length Z.of_nat]; lia|].
  cbn [app leb_value length]. rewrite IH, Nat2Z.inj_succ, Z.pow_succ_r by lia. lia.
Qed.

Lemma varint_shape v : is_u64 v = true →
  varint v = leb 10 v ∧ leb_shape (varint v) ∧ leb_value (varint v) = v.
Proof.
  intros Hu%is_u64_spec. unfold varint. rewrite push_varint_leb, app_nil_l by lia.
  assert (2 ^ 64 ≤ 128 ^ Z.of_nat 10) by done.
  split; [done|]. apply leb_spec; lia.
Qed.

Lemma varint_is_bytes v : is_u64 v = true → is_bytes (varint v) = true.
Proof. intros Hu. by apply leb_shape_bytes, varint_shape. Qed.

Lemma varint_len v : is_u64 v = true → 0 < len (varint v) ≤ 10.
Proof.
  intros Hu. destruct (varint_shape v Hu) as (Hl & Hs & _). pose proof (leb_length 10 v) as Hn.
  rewrite <-Hl in Hn. unfold len. destruct (varint v); [done|]. cbn in *. lia.
Qed.

(** The tenth byte of a varint is at most one. *)
Lemma varint_tenth v a b r :
  is_u64 v = true → varint v = a ++ b :: r → length a = 9%nat → 0 ≤ b < 256 → b ≤ 1.
Proof.
  intros Hu Hv Ha Hb. destruct (varint_shape v Hu) as (Hl & _ & Hval).
  apply is_u64_spec in Hu. rewrite Hv, leb_value_app, Ha in Hval. cbn [leb_value] in Hval.
  pose proof (leb_value_nonneg a). pose proof (leb_value_nonneg r). pose proof (leb_length 10 v) as Hlen.
  rewrite <-Hl, Hv, length_app, Ha in Hlen. change (128 ^ Z.of_nat 9) with (2 ^ 63) in Hval.
  assert (b `mod` 128 ≤ 1) by lia. destruct r; [|cbn in Hlen; lia].
  assert (leb_shape (varint v)) as Hsh by (apply varint_shape, is_u64_spec; lia).
  rewrite Hv in Hsh. clear -Hsh Hb H1. induction a as [|x a IH].
  - cbn in Hsh. rewrite Z.mod_small in H1; lia.
  - apply IH. destruct a; apply Hsh.
Qed.

Lemma stream_loop_complete k s encoded v m bs rest :
  (length encoded = k)%nat → (k + m = 10)%nat → stream_ok s →
  is_u64 v = true → encoded ++ bs = varint v → leb_shape bs →
  Stream.rest s = bs ++ rest →
  read_varint_stream_loop (map Z.of_nat (seq k m)) encoded s = Ok (v, after s bs rest).
Proof.
  intros Hk Hm Hs Hu Henc Hsh Hr. destruct (varint_shape v Hu) as (Hvl & _ & _).
  pose proof (leb_length 10 v) as Hlen. rewrite <-Hvl in Hlen.
  revert k s encoded bs Hk Hm Hs Henc Hsh Hr.
  induction m as [|m IH]; intros k s encoded [|b bs] Hk Hm Hs Henc Hsh Hr; [done| |done|].
  { rewrite <-Henc, length_app in Hlen. cbn in Hlen. lia. }
  cbn [seq map read_varint_stream_loop].
  rewrite (read_hashed_here 1 s [b] (bs ++ rest)) by done. cbn [mbind result_bind].
  rewrite Nat2Z.id, lookup_app_r, Hk, Nat.sub_diag by lia. change (default 0 ([b] !! 0%nat)) with b.
  assert (0 ≤ b < 256) as Hb.
  { apply leb_shape_bytes in Hsh. rewrite is_bytes_spec in Hsh. by inversion Hsh. }
  replace ((Z.of_nat k =? 9) && (1 <? b)) with false.
  2: { symmetry. apply andb_false_iff. destruct (Z.eqb_spec (Z.of_nat k) 9); [|by left].
       right. apply Z.ltb_ge. eapply varint_tenth; [done|by symmetry|lia|done]. }
  rewrite land_80_zero by done. destruct bs as [|b' bs].
  - cbn in Hsh. rewrite (proj2 (Z.ltb_lt _ _)) by lia.
    rewrite Henc, read_varint_same. assert (read_varint (varint v) 0 = Ok (v, Z.of_nat k + 1)) as ->.
    { apply read_varint_Ok; [by apply varint_is_bytes|lia|]. split; [done|]. rewrite <-Hvl.
      exists [], []. rewrite app_nil_r. split_and!; [done..|]. rewrite <-Henc, len_app. unfold len. cbn. lia. }
    cbn [map_err mbind result_bind]. by rewrite Z.eqb_refl.
  - destruct Hsh as [Hb' Hsh]. rewrite (proj2 (Z.ltb_ge _ _)) by lia.
    assert (Stream.rest s = [b] ++ (b' :: bs) ++ rest) as Hr' by done.
    rewrite (IH (S k) _ (encoded ++ [b]) (b' :: bs));
      [by rewrite after_app|rewrite length_app; cbn; lia|lia|by apply after_ok|by rewrite <-app_assoc|done..].
Qed.

(** The streaming reader accepts exactly the minimal varint of a [u64], at the front. *)
Lemma read_varint_stream_Ok s v s' : stream_ok s →
  read_varint_stream s = Ok (v, s') ↔
    is_u64 v = true ∧ Stream.rest s = varint v ++ Stream.rest s' ∧
    s' = after s (varint v) (Stream.rest s').
Proof.
  intros Hs. unfold read_varint_stream. change [0; 1; 2; 3; 4; 5; 6; 7; 8; 9] with (map Z.of_nat (seq 0 10)).
  split.
  - intros (out & Hu & <- & Hr & Hs')%stream_loop_sound; done.
  - intros (Hu & Hr & ->). by apply (stream_loop_complete 0); [..|apply varint_shape|].
Qed.

Lemma read_varint_here s v rest : stream_ok s → is_u64 v = true → Stream.rest s = varint v ++ rest →
  read_varint_stream s = Ok (v, after s (varint v) rest).
Proof. intros Hs Hv Hr. by apply read_varint_stream_Ok. Qed.

(** The reads of the parser, in bound position. *)
Lemma varint_step {A} s (k : Z * Stream.t → result lerr A) r : stream_ok s →
  (read_varint_stream s ≫= k) = Ok r ↔
  ∃ v rest, is_u64 v = true ∧ Stream.rest s = varint v ++ rest ∧
    stream_ok (after s (varint v) rest) ∧ k (v, after s (varint v) rest) = Ok r.
Proof.
  intros Hs. rewrite bind_Ok. split.
  - intros ([v s'] & (Hv & Hr & Hs')%read_varint_stream_Ok & Hk); [|done].
    exists v, (Stream.rest s'). rewrite <-Hs'. split_and!; try done. rewrite Hs'. by apply after_ok.
  - intros (v & rest & Hv & Hr & _ & Hk). exists (v, after s (varint v) rest).
    by rewrite (read_varint_here s v rest).
Qed.

Lemma hashed_step {A} n s (k : list Z * Stream.t → result lerr A) r : 0 ≤ n → stream_ok s →
  (read_hashed n s ≫= k) = Ok r ↔
  ∃ out rest, len out = n ∧ Stream.rest s = out ++ rest ∧
    stream_ok (after s out rest) ∧ k (out, after s out rest) = Ok r.
Proof.
  intros Hn Hs. rewrite bind_Ok. split.
  - intros ([out s'] & (Hr & Hl & Hs')%read_hashed_Ok & Hk); [|done..].
    exists out, (Stream.rest s'). rewrite <-Hs'. split_and!; try done. rewrite Hs'. by apply after_ok.
  - intros (out & rest & Hl & Hr & _ & Hk). exists (out, after s out rest).
    by rewrite (read_hashed_here n s out rest).
Qed.

(** ** Records *)

(** The hashed part of a record. *)
Definition frame_body (id : ObjectId) (kind : ObjectKind.t) (schema : Z) (payload : list Z) : list Z :=
  MAGIC ++ varint 0 ++ to_bytes id ++ varint (ObjectKind.code kind) ++ varint schema ++
  varint (len payload) ++ payload.

(** The directory and name a record lies at, if its path is known. *)
Definition placed (actual_path : option (list str)) (id : ObjectId) : Prop :=
  match actual_path with
  | Some path => firstn 4 (rev path) = (path_components id).2 :: rev (path_components id).1
  | None => True
  end.

Lemma schema_u64 kind schema : ObjectKind.supports_schema kind schema = true → is_u64 schema = true.
Proof.
  unfold ObjectKind.supports_schema. rewrite orb_true_iff, andb_true_iff, !Z.eqb_eq, is_u64_spec. lia.
Qed.

Lemma payload_limit_small kind : payload_limit kind ≤ 16 * 1024 * 1024.
Proof. by destruct kind. Qed.

Lemma len_u64 {A} (l : list A) : len l ≤ u64_max → is_u64 (len l) = true.
Proof. intros Hl. apply is_u64_spec. pose proof (len_nonneg l). unfold u64_max in Hl. lia. Qed.

Lemma to_bytes_varints id : format_version id = 0 →
  to_bytes id = varint 0 ++ varint (HashAlgorithm.code (algorithm id)) ++ varint 32 ++ digest id.
Proof. destruct id as [f [] d]; cbn; by intros ->. Qed.

(** The next read of the parser finds what it expects at the front of the stream. *)
Ltac read_here :=
  first [apply varint_step; [done|] | apply hashed_step; [lia|done|]];
  do 2 eexists; split; [|split; [first [eassumption|reflexivity]|]];
  [done|
   match goal with |- ?P ∧ _ => assert P by (by apply after_ok); split; [done|] end; cbn beta iota].

Section exact.
Context `{Unicode, DigestLaws}.

Lemma encode_frame_Ok id o payload bytes :
  let d := AnyObject.decoded o in
  ObjectKind.supports_schema (kind d) (schema_version d) = true → format_version id = 0 →
  encode_frame id o payload = Ok bytes ↔
  len payload ≤ payload_limit (kind d) ∧
  bytes = let body := frame_body id (kind d) (schema_version d) payload in
          body ++ sha256 (CHECKSUM_DOMAIN ++ body).
Proof.
  intros d Hs Hf. subst d. unfold encode_frame. rewrite bail_Ok, Z.ltb_ge.
  set (kd := kind _) in *. set (schema := schema_version _) in *.
  assert (len payload ≤ payload_limit kd →
    Varint.push_varint (Varint.push_varint (Varint.push_varint (Varint.push_varint MAGIC 0 ++
      to_bytes id) (ObjectKind.code kd)) schema) (len payload) ++ payload
    = frame_body id kd schema payload) as Hbody.
  { intros Hl. pose proof (payload_limit_small kd). rewrite !push_varint_same.
    rewrite !push_varint_app; [by rewrite <-!app_assoc|..];
      [done|apply kind_u64|by eapply schema_u64|apply len_u64; unfold u64_max; lia]. }
  split; (intros [Hl Hb]; split; [done|]); rewrite Hbody in * by done; naive_solver.
Qed.

Lemma validate_payload id kind schema payload expected path r :
  validate_logical_record id kind schema payload expected path = Ok r →
  VerifiedRecord.payload r = payload.
Proof. unfold validate_logical_record. intros Hv. inv_ok. by subst. Qed.

Lemma frame_is_bytes id o payload frame :
  oid_ok id = true → is_bytes payload = true →
  ObjectKind.supports_schema (kind (AnyObject.decoded o)) (schema_version (AnyObject.decoded o)) = true →
  encode_frame id o payload = Ok frame → is_bytes frame = true.
Proof.
  intros Hid Hb Hs. apply oid_ok_spec in Hid as Hf. destruct Hf as (Hf & _).
  rewrite encode_frame_Ok by done. intros [Hl ->]. cbn zeta. unfold frame_body.
  pose proof (payload_limit_small (kind (AnyObject.decoded o))).
  rewrite !is_bytes_app, Hb, oid_bytes_is_bytes, (proj2 (sha256_len _)), !varint_is_bytes; try done.
  - apply len_u64. unfold u64_max. lia.
  - by eapply schema_u64.
  - apply kind_u64.
Qed.

(** What the parser reads, and that it reads what is written. *)
Lemma parse_exact bytes expected path r :
  is_bytes bytes = true → len bytes ≤ u64_max →
  parse_record_stream bytes (len bytes) expected path = Ok r ↔
  ∃ id kind schema, oid_ok id = true ∧ ObjectKind.supports_schema kind schema = true ∧
    len (VerifiedRecord.payload r) ≤ payload_limit kind ∧
    (let body := frame_body id kind schema (VerifiedRecord.payload r) in
     bytes = body ++ sha256 (CHECKSUM_DOMAIN ++ body)) ∧
    validate_logical_record id kind schema (VerifiedRecord.payload r) expected path = Ok r.
Proof.
  intros Hb Hl. unfold parse_record_stream.
  set (s := Stream.mk bytes CHECKSUM_DOMAIN 0).
  assert (stream_ok s) as Hs by (split_and!; [done|cbn; lia|cbn; lia]).
  split.
  - intros (magic & r1 & _ & Hr1 & Hs1 & Hp)%hashed_step; [|lia|done].
    apply bail_Ok in Hp as [->%negb_false_iff%bool_decide_eq_true Hp].
    apply varint_step in Hp as (version & r2 & _ & Hr2 & Hs2 & Hp); [|done].
    apply bail_Ok in Hp as [->%negb_false_iff%Z.eqb_eq Hp].
    apply varint_step in Hp as (format & r3 & _ & Hr3 & Hs3 & Hp); [|done].
    apply varint_step in Hp as (alg & r4 & Ha & Hr4 & Hs4 & Hp); [|done].
    apply varint_step in Hp as (dl & r5 & _ & Hr5 & Hs5 & Hp); [|done].
    apply bail_Ok in Hp as [Hg Hp]. rewrite !orb_false_iff, !negb_false_iff, !Z.eqb_eq in Hg.
    destruct Hg as [[-> _] ->].
    apply hashed_step in Hp as (dg & r6 & Hdg & Hr6 & Hs6 & Hp); [|lia|done].
    apply bind_Ok in Hp as (id & Hid%map_err_Ok & Hp).
    apply varint_step in Hp as (kn & r7 & _ & Hr7 & Hs7 & Hp); [|done].
    apply bind_Ok in Hp as (kd & ->%map_err_Ok%ObjectKind.try_from_Ok & Hp).
    apply varint_step in Hp as (schema & r8 & _ & Hr8 & Hs8 & Hp); [|done].
    apply bail_Ok in Hp as [Hschema%negb_false_iff Hp].
    apply varint_step in Hp as (n & r9 & Hn & Hr9 & Hs9 & Hp); [|done].
    apply bail_Ok in Hp as [Hlim%Z.ltb_ge Hp].
    apply bind_Ok in Hp as (el & Hel%ok_or_Ok & [->%negb_false_iff%Z.eqb_eq Hp]%bail_Ok).
    apply bind_Some in Hel as (el & [-> _]%checked_add_Some & [Hel _]%checked_add_Some).
    apply hashed_step in Hp as (payload & r10 & Hpl & Hr10 & Hs10 & Hp); [|apply is_u64_spec in Hn; lia|done].
    apply bind_Ok in Hp as ([pc r11] & [Hr11 Hpc]%read_exact_Ok & Hp); [|done].
    apply bail_Ok in Hp as [Hsum%negb_false_iff%bool_decide_eq_true Hp].
    cbn [Stream.rest Stream.checksum Stream.consumed after s] in *. subst.
    destruct r11 as [|z r11].
    2: { exfalso. rewrite !len_app in Hel. rewrite len_cons, Hpc, Hdg in Hel.
         pose proof (len_nonneg r11). lia. }
    rewrite app_nil_r in *. apply validate_payload in Hp as Hpay. rewrite Hpay.
    assert (is_bytes dg = true) as Hdb.
    { destruct Hs5 as (Hdb & _). cbn in Hdb. rewrite is_bytes_app, andb_true_iff in Hdb. apply Hdb. }
    rewrite !push_varint_same, !push_varint_app in Hid by done.
    apply from_bytes_Ok in Hid as [Hok Hid]; [|by rewrite !is_bytes_app, Hdb, !varint_is_bytes].
    exists id, kd, schema. split_and!; try done. cbn zeta. unfold frame_body. rewrite Hid.
    unfold varint at 2 5. cbn [app]. rewrite <-!app_assoc. done.
  - intros (id & kd & schema & Hid & Hschema & Hlim & Hbytes & Hv).
    set (payload := VerifiedRecord.payload r) in *. cbn zeta in Hbytes. set (sum := sha256 _) in *.
    apply oid_ok_spec in Hid as Hid'. destruct Hid' as (Hf & Hdl & Hdb).
    pose proof (payload_limit_small kd) as Hsmall. pose proof (len_nonneg payload) as Hnn.
    assert (is_u64 (len payload) = true) as Hpu by (apply len_u64; unfold u64_max; lia).
    assert (is_u64 (HashAlgorithm.code (algorithm id)) = true) as Hau by by destruct (algorithm id).
    assert (is_u64 (ObjectKind.code kd) = true) as Hku by apply kind_u64.
    assert (is_u64 schema = true) as Hsu by by eapply schema_u64.
    assert (len sum = 32) as Hsl by apply sha256_len.
    assert (Stream.rest s = MAGIC ++ varint 0 ++ varint 0 ++
      varint (HashAlgorithm.code (algorithm id)) ++ varint 32 ++ digest id ++
      varint (ObjectKind.code kd) ++ varint schema ++ varint (len payload) ++ payload ++ sum) as Hr.
    { cbn. rewrite Hbytes. unfold frame_body. rewrite to_bytes_varints by done. by rewrite <-!app_assoc. }
    assert (len bytes = len (MAGIC ++ varint 0 ++ varint 0 ++
      varint (HashAlgorithm.code (algorithm id)) ++ varint 32 ++ digest id ++
      varint (ObjectKind.code kd) ++ varint schema ++ varint (len payload) ++ payload ++ sum)) as Hbl
      by by rewrite <-Hr.
    cbv zeta. fold s.
    read_here. apply bail_Ok. split; [by rewrite bool_decide_true|].
    read_here. apply bail_Ok. split; [done|]. do 3 read_here.
    apply bail_Ok. split; [by destruct (algorithm id)|]. read_here.
    rewrite !push_varint_same, !push_varint_app by done.
    apply bind_Ok. exists id. split.
    { apply map_err_Ok, from_bytes_Ok; [by rewrite !is_bytes_app, Hdb, !varint_is_bytes|].
      split; [done|]. rewrite to_bytes_varints by done. by rewrite <-!app_assoc. }
    read_here. apply bind_Ok. exists kd. split; [by rewrite ObjectKind.try_from_code|].
    read_here. apply bail_Ok. split; [by rewrite Hschema|]. read_here.
    apply bail_Ok. split; [by apply Z.ltb_ge|].
    apply bind_Ok. exists (len bytes). split.
    { apply ok_or_Ok, bind_Some. eexists. split; [apply checked_add_Some; split; [done|]|
        apply checked_add_Some; split]; cbn [Stream.consumed after s];
        rewrite Hbl, !len_app in *; change CHECKSUM_LEN with 32; rewrite ?Hsl in *; lia. }
    apply bail_Ok. split; [by rewrite Z.eqb_refl|]. read_here.
    apply bind_Ok. exists (sum, []). split; [by apply read_exact_Ok; [done|rewrite app_nil_r]|].
    apply bail_Ok. split; [|done]. rewrite bool_decide_true; [done|]. cbn [Stream.checksum after s].
    unfold sum, frame_body. rewrite to_bytes_varints by done. by rewrite <-!app_assoc.
Qed.

Lemma limits_for_kind kind : limits_for kind = kind_limits kind.
Proof. by destruct kind. Qed.

(** Verified decoding under the limits of the object's own kind or under the widest ones. *)
Lemma decode_verified_Ok payload id limits o :
  AnyObject.decode_verified payload id limits = Ok o ↔
  AnyObject.decode payload limits = Ok o ∧ AnyObject.id o (algorithm id) = Ok id.
Proof.
  unfold AnyObject.decode_verified. rewrite bind_Ok. split.
  - intros (o' & Hd & (i & Hi & [->%negb_false_iff%bool_decide_eq_true [= <-]]%bail_Ok)%bind_Ok). done.
  - intros [Hd Hi]. exists o. split; [done|]. rewrite Hi. cbn [mbind result_bind].
    by rewrite bool_decide_true.
Qed.

Lemma decode_own_limits payload o :
  is_bytes payload = true →
  AnyObject.decode payload (limits_for (kind (AnyObject.decoded o))) = Ok o ↔
  AnyObject.decode payload bulk = Ok o.
Proof.
  intros Hb. rewrite limits_for_kind, !decode_iff; [|done|apply bulk_limits_ok|done|apply kind_limits_ok].
  assert (∀ k, restricted_by (kind_limits k) (kind_limits k) = kind_limits k) as Hself by by intros [].
  split; intros (kd & schema & m & -> & Hm & Hr & Hf & Hl); exists kd, schema, m;
    rewrite ?AnyObject.decoded_of_kind, ?bulk_kind_limits in *; cbn [kind] in *;
    rewrite ?Hself in *; done.
Qed.

Lemma validate_logical_Ok id kd schema payload expected path r :
  is_bytes payload = true → VerifiedRecord.payload r = payload →
  validate_logical_record id kd schema payload expected path = Ok r ↔
  AnyObject.decode_verified payload id bulk = Ok (VerifiedRecord.object r) ∧
  kind (AnyObject.decoded (VerifiedRecord.object r)) = kd ∧
  schema_version (AnyObject.decoded (VerifiedRecord.object r)) = schema ∧
  (expected = None ∨ expected = Some id) ∧ placed path id.
Proof.
  intros Hb Hr. destruct r as [p o]. cbn in Hr. subst p. cbn [VerifiedRecord.object].
  unfold validate_logical_record. rewrite bind_Ok, decode_verified_Ok. split.
  - intros (o' & [Hd Hi]%map_err_Ok%decode_verified_Ok & Hk).
    apply bail_Ok in Hk as [[Hkd%negb_false_iff%bool_decide_eq_true
      Hs%negb_false_iff%Z.eqb_eq]%orb_false_iff [He [Hp Hk]%bail_Ok]%bail_Ok].
    injection Hk as <-. split_and!; [|done|done|done| |].
    + subst kd. by apply decode_own_limits.
    + destruct expected; [|by left]. right.
      apply negb_false_iff, bool_decide_eq_true in He. by subst.
    + destruct path; [|done]. by apply negb_false_iff, bool_decide_eq_true in Hp.
  - intros ([Hd Hi] & Hkd & Hs & He & Hp). exists o. split.
    + apply map_err_Ok, decode_verified_Ok. split; [|done]. subst kd. by apply decode_own_limits.
    + rewrite bool_decide_true, Hs, Z.eqb_refl by done. cbn [negb orb].
      apply bail_Ok. split.
      { destruct He as [->| ->]; [done|]. by rewrite bool_decide_true. }
      apply bail_Ok. split; [|done]. destruct path; [|done]. cbn in Hp |- *. by rewrite bool_decide_true.
Qed.

(** The supported schema of a decoded object. *)
Lemma decode_schema payload limits o : is_bytes payload = true → limits_ok limits →
  AnyObject.decode payload limits = Ok o →
  ObjectKind.supports_schema (kind (AnyObject.decoded o)) (schema_version (AnyObject.decoded o)) = true ∧
  len payload ≤ payload_limit (kind (AnyObject.decoded o)).
Proof.
  intros Hb Hl (kd & schema & m & -> & (_ & _ & _ & _ & Hs & _) & _ & _ & Hlen)%decode_iff; [|done..].
  rewrite AnyObject.decoded_of_kind. split; [done|]. apply restricted_max_bytes in Hlen as [_ Hlen].
  by destruct kd.
Qed.

(** Every object that decodes has a record. *)
Lemma encode_frame_total payload id limits o : is_bytes payload = true → limits_ok limits →
  AnyObject.decode payload limits = Ok o → ∃ frame, encode_frame id o payload = Ok frame.
Proof.
  intros Hb Hl Hd. apply decode_schema in Hd as [_ Hlen]; [|done..].
  unfold encode_frame. rewrite (proj2 (Z.ltb_ge _ _)) by done. by eexists.
Qed.

Lemma encode_frame_payload id o payload frame :
  encode_frame id o payload = Ok frame → is_bytes frame = true → is_bytes payload = true.
Proof.
  unfold encode_frame. intros [_ [= <-]]%bail_Ok. rewrite !is_bytes_app, !andb_true_iff. naive_solver.
Qed.

(** A record that verifies, as the parser of records sees it. *)
Lemma parse_iff bytes expected path r :
  is_bytes bytes = true → len bytes ≤ u64_max →
  parse_record_stream bytes (len bytes) expected path = Ok r ↔
  ∃ id, oid_ok id = true ∧ (expected = None ∨ expected = Some id) ∧ placed path id ∧
    AnyObject.decode_verified (VerifiedRecord.payload r) id bulk = Ok (VerifiedRecord.object r) ∧
    encode_frame id (VerifiedRecord.object r) (VerifiedRecord.payload r) = Ok bytes.
Proof.
  intros Hb Hl. rewrite parse_exact by done.
  assert (∀ id kd schema payload tail,
    bytes = frame_body id kd schema payload ++ tail → is_bytes payload = true) as Hpb.
  { intros id kd schema payload tail ->. unfold frame_body in Hb.
    rewrite !is_bytes_app, !andb_true_iff in Hb. naive_solver. }
  split.
  - intros (id & kd & schema & Hid & Hs & Hlim & Hbytes & Hv).
    apply validate_logical_Ok in Hv as (Hd & <- & <- & He & Hp); [|by eapply Hpb|done].
    exists id. split_and!; try done. apply oid_ok_spec in Hid as (Hf & _). by apply encode_frame_Ok.
  - intros (id & Hid & He & Hp & Hd & Henc). apply oid_ok_spec in Hid as Hf. destruct Hf as (Hf & _).
    pose proof (encode_frame_payload _ _ _ _ Henc Hb) as Hpay.
    apply decode_verified_Ok in Hd as Hd'. destruct Hd' as [Hdec _].
    apply decode_schema in Hdec as [Hs Hlim]; [|done|apply bulk_limits_ok].
    apply encode_frame_Ok in Henc as [_ Hbytes]; [|done..].
    eexists id, _, _. split_and!; [done..|]. by apply validate_logical_Ok.
Qed.
End exact.

(** ** Claims *)

(** C29: A loose record verifies exactly when it was written. The streaming parser accepts a
    file as the record of an object, for the identifier and place the caller expects, if and
    only if the file is, byte for byte, what [encode_frame] writes for an identifier, an
    object and a payload such that the payload decodes to that object under that
    identifier. In particular every record that is written can be read back. *)
Theorem record_exact `{Unicode, DigestLaws} bytes expected path r :
  is_bytes bytes = true → len bytes ≤ u64_max →
  parse_record_stream bytes (len bytes) expected path = Ok r ↔
  ∃ id, oid_ok id = true ∧ (expected = None ∨ expected = Some id) ∧ placed path id ∧
    AnyObject.decode_verified (VerifiedRecord.payload r) id bulk = Ok (VerifiedRecord.object r) ∧
    encode_frame id (VerifiedRecord.object r) (VerifiedRecord.payload r) = Ok bytes.
Proof. apply parse_iff. Qed.

Definition loose_payload : list Z :=
  default [] (ok (@logical_encode ascii_unicode metadata (OManifest sample_manifest))).
Definition loose_object : AnyObject.t := @logical_stored ascii_unicode (OManifest sample_manifest).
Definition loose_id : ObjectId := mk_oid 0 HashAlgorithm.Sha256 (replicate 32 1).
Definition loose_frame : list Z :=
  default [] (ok (@encode_frame sample_digests loose_id loose_object loose_payload)).

Lemma record_exact_witness :
  @parse_record_stream ascii_unicode sample_digests loose_frame (len loose_frame) (Some loose_id)
    (Some [lit "loose"; lit "0"; lit "12"; lit "01"; concat (replicate 31 (lit "01")) ++ lit ".rgl"])
  = Ok (VerifiedRecord.mk loose_payload loose_object).
Proof.
  apply (@record_exact ascii_unicode sample_digests sample_digest_laws);
    [vm_compute; reflexivity|vm_compute; discriminate|].
  exists loose_id. split; [|split; [by right|split; [|split]]]; vm_compute; reflexivity.
Defined.

Lemma frame_len `{Unicode, DigestLaws} id o payload frame :
  oid_ok id = true →
  ObjectKind.supports_schema (kind (AnyObject.decoded o)) (schema_version (AnyObject.decoded o)) = true →
  encode_frame id o payload = Ok frame →
  len payload + 79 ≤ len frame ≤ len payload + 106 ∧ len frame ≤ ABSOLUTE_RECORD_MAX.
Proof.
  intros Hid Hs. apply oid_ok_spec in Hid as Hf. destruct Hf as (Hf & _).
  rewrite encode_frame_Ok by done. intros [Hl ->]. cbn zeta. unfold frame_body.
  rewrite !len_app, to_bytes_len, (proj1 (sha256_len _)) by done.
  pose proof (payload_limit_small (kind (AnyObject.decoded o))). pose proof (len_nonneg payload).
  pose proof (varint_len _ (kind_u64 (kind (AnyObject.decoded o)))).
  pose proof (varint_len _ (schema_u64 _ _ Hs)).
  pose proof (varint_len (len payload) ltac:(apply len_u64; unfold u64_max; lia)).
  change (len MAGIC) with 8. change (len (varint 0)) with 1. unfold ABSOLUTE_RECORD_MAX. lia.
Qed.

(** C30: The size limit of the reader is wide enough. The record of every object that decodes is
    at most 106 bytes longer than its payload, and no record that [encode_frame] writes exceeds
    [ABSOLUTE_RECORD_MAX], above which files are rejected without being read. *)
Theorem record_bounds `{Unicode, DigestLaws} id o payload frame :
  oid_ok id = true → is_bytes payload = true →
  AnyObject.decode_verified payload id bulk = Ok o → encode_frame id o payload = Ok frame →
  len payload < len frame ≤ len payload + 106 ∧ len frame ≤ ABSOLUTE_RECORD_MAX.
Proof.
  intros Hid Hb [Hd _]%decode_verified_Ok Henc.
  apply decode_schema in Hd as [Hs _]; [|done|apply bulk_limits_ok].
  pose proof (frame_len id o payload frame Hid Hs Henc). lia.
Qed.

Lemma record_bounds_witness :
  len loose_payload < len loose_frame ≤ len loose_payload + 106 ∧
  len loose_frame ≤ ABSOLUTE_RECORD_MAX.
Proof.
  apply (@record_bounds ascii_unicode sample_digests sample_digest_laws loose_id loose_object);
    vm_compute; reflexivity.
Defined.
