(* ===== verification/LoosePlatform.v ===== *)
(** * The system under the loose-object store

    What [crates/rgit-store/src/platform.rs] asks of a Unix system: names of a directory tree
    that lead to files, calls relative to pinned directories, and the two calls that never
    replace an entry. A run of the store is a sequence of such calls. Before each call other
    processes may act; each call may fail, and the run may be cut off before it. *)

From stdpp Require Import gmap.
From S2P Require Import Prelude Machine Order Utf8 ObjectId Decode FileTree LooseFrame.

(** ** Names and files *)

(** The identity of a file: the process that created it, and a serial number. *)
Definition ino : Type := Z * nat.

Inductive entry := Directory | Regular (i : ino) | Symlink | Special.

#[global] Instance entry_eq_dec : EqDecision entry.
Proof. solve_decision. Defined.

(** The tree of names, the contents of the files, and the incident flag that the threads of
    the process share. The empty path is the root directory. *)
Module World.
Record t := mk { names : gmap path entry; files : gmap ino (list Z); incident : bool }.
End World.
Import World.

Notation world := World.t (only parsing).

Definition set_names (f : gmap path entry → gmap path entry) (w : world) : world :=
  World.mk (f (names w)) (files w) (incident w).
Definition set_files (f : gmap ino (list Z) → gmap ino (list Z)) (w : world) : world :=
  World.mk (names w) (f (files w)) (incident w).
Definition set_incident (b : bool) (w : world) : world :=
  World.mk (names w) (files w) b.

Definition entry_at (w : world) (p : path) : option entry :=
  match p with [] => Some Directory | _ => names w !! p end.

(** [metadata.nlink()]. *)
Definition nlink (w : world) (i : ino) : nat :=
  size (filter (λ e : path * entry, e.2 = Regular i) (names w)).

(** ** The system *)

Module FailurePoint.
Inductive t :=
  | AfterEncode | AfterTempCreate | AfterFrameWrite | AfterTempSync | AfterTempVerify
  | AfterDirectoryCreate | BeforePublish | AfterPublish | AfterParentSync.
End FailurePoint.

(** How the system answers a run of [process]: what other processes do before the [n]-th call
    ([interfere]), whether that call fails ([denies]), how many bytes a write takes
    ([accepts]), the entropy it returns ([random]), the devices that directories and files
    lie on, the injected failures ([check], the trait [FailureInjector]), and how many
    interrupted writes a run sees at most ([retries]). *)
Class System := {
  process : Z;
  interfere : nat → world → world;
  denies : nat → option ErrorKind.t;
  accepts : nat → nat;
  random : nat → list Z;
  directory_device : path → Z;
  file_device : ino → Z;
  check : FailurePoint.t → result lerr ();
  retries : nat }.

Module State.
Record t := mk { world : World.t; ticks : nat }.
End State.
Notation lio := (io lerr State.t).

(** A handle of [open_file_at]: a regular file, or something else that could be opened. *)
Inductive handle := HFile (i : ino) | HOther.

Module FileIdentity.
Record t := mk { filesystem : Z; file : ino; length : Z }.
#[global] Instance eq_dec : EqDecision t.
Proof. solve_decision. Defined.
End FileIdentity.

Section platform.
Context `{System}.

(** One call: others act, then the call fails or takes effect. *)
Definition call {A} (f : world → result ErrorKind.t (A * world)) : lio (result ErrorKind.t A) :=
  λ '(s, fuse),
    match fuse with
    | Some O => (Err Interrupted, (s, fuse))
    | _ =>
        let fuse := pred <$> fuse in
        let w := interfere (State.ticks s) (State.world s) in
        match denies (State.ticks s) with
        | Some e => (Ok (Err e), (State.mk w (S (State.ticks s)), fuse))
        | None =>
            match f w with
            | Ok (a, w') => (Ok (Ok a), (State.mk w' (S (State.ticks s)), fuse))
            | Err e => (Ok (Err e), (State.mk w (S (State.ticks s)), fuse))
            end
        end
    end.

(** A call that only looks. *)
Definition look {A} (f : world → result ErrorKind.t A) : lio (result ErrorKind.t A) :=
  call (λ w, a ← f w; Ok (a, w)).

(** A call whose answer depends on when it is made. *)
Definition at_tick {A} (m : nat → lio A) : lio A := λ '(s, fuse), m (State.ticks s) (s, fuse).

(** [r.map_err(|error| LooseStoreError::io(operation, error))?]. *)
Definition or_io {A} (operation : String.string) (m : lio (result ErrorKind.t A)) : lio A :=
  do! r := m in
  match r with Ok a => ret a | Err e => raise (LooseStoreError.Io operation e) end.

(** A result kept as a value: [m.is_ok()], [let _ = m]. *)
Definition attempt {A} (m : lio A) : lio (result lerr A) := λ s,
  match m s with
  | (Ok a, s') => (Ok (Ok a), s')
  | (Err (Raised e), s') => (Ok (Err e), s')
  | (Err Interrupted, s') => (Err Interrupted, s')
  | (Err Stuck, s') => (Err Stuck, s')
  end.

(** [m.map_err(f)]. *)
Definition io_map_err {A} (f : lerr → lerr) (m : lio A) : lio A :=
  do! r := attempt m in
  match r with Ok a => ret a | Err e => raise (f e) end.

Definition pure_result {A} (r : result lerr A) : lio A := inspect (λ _, r).

(** ** The calls of [platform.rs]; a directory handle is the path it was opened at *)

Definition open_directory (p : path) : lio (result ErrorKind.t path) :=
  look (λ w, match entry_at w p with
             | Some Directory => Ok p
             | None => Err ErrorKind.NotFound
             | _ => Err ErrorKind.Other
             end).

Definition open_directory_at (parent : path) (name : str) : lio (result ErrorKind.t path) :=
  open_directory (parent ++ [name]).

(** [mkdirat], where [AlreadyExists] is the answer [false]. *)
Definition mkdir (p : path) (w : world) : result ErrorKind.t (() * world) :=
  match entry_at w p with
  | Some _ => Err ErrorKind.AlreadyExists
  | None =>
      match entry_at w (parent_of p) with
      | Some Directory => Ok (tt, set_names <[p := Directory]> w)
      | None => Err ErrorKind.NotFound
      | _ => Err ErrorKind.Other
      end
  end.

Definition create_directory_at (parent : path) (name : str) : lio (result ErrorKind.t bool) :=
  do! r := call (mkdir (parent ++ [name])) in
  ret match r with
      | Ok _ => Ok true
      | Err ErrorKind.AlreadyExists => Ok false
      | Err e => Err e
      end.

(** The first serial number of this process that no file has. *)
Definition fresh_ino (w : world) : ino :=
  (process, fresh (map snd (elements (dom (files w))))).

(** [openat] with [O_CREAT | O_EXCL | O_NOFOLLOW]. *)
Definition create_file_at (parent : path) (name : str) : lio (result ErrorKind.t ino) :=
  call (λ w,
    match entry_at w (parent ++ [name]), entry_at w parent with
    | Some _, _ => Err ErrorKind.AlreadyExists
    | None, Some Directory =>
        let i := fresh_ino w in
        Ok (i, set_files <[i := []]> (set_names <[parent ++ [name] := Regular i]> w))
    | None, None => Err ErrorKind.NotFound
    | None, _ => Err ErrorKind.Other
    end).

(** [openat] with [O_NOFOLLOW], for reading. *)
Definition open_file_at (parent : path) (name : str) : lio (result ErrorKind.t handle) :=
  look (λ w,
    match entry_at w (parent ++ [name]) with
    | Some (Regular i) => Ok (HFile i)
    | Some Symlink => Err ErrorKind.Other
    | Some _ => Ok HOther
    | None => Err ErrorKind.NotFound
    end).

(** [unlinkat] of a name that is not a directory. *)
Definition remove_file_at (parent : path) (name : str) : lio (result ErrorKind.t ()) :=
  call (λ w,
    match entry_at w (parent ++ [name]) with
    | None => Err ErrorKind.NotFound
    | Some Directory => Err ErrorKind.Other
    | Some _ => Ok (tt, set_names (delete (parent ++ [name])) w)
    end).

(** [renameat2] with [RENAME_NOREPLACE]; the store only renames files. *)
Definition rename_no_replace_at (source_parent : path) (source_name : str)
    (destination_parent : path) (destination_name : str) : lio (result ErrorKind.t ()) :=
  let source := source_parent ++ [source_name] in
  let destination := destination_parent ++ [destination_name] in
  call (λ w,
    match entry_at w source, entry_at w destination, entry_at w destination_parent with
    | None, _, _ => Err ErrorKind.NotFound
    | Some _, Some _, _ => Err ErrorKind.AlreadyExists
    | Some Directory, None, _ => Err ErrorKind.Other
    | Some e, None, Some Directory =>
        Ok (tt, set_names (λ m, <[destination := e]> (delete source m)) w)
    | Some _, None, None => Err ErrorKind.NotFound
    | Some _, None, _ => Err ErrorKind.Other
    end).

(** Another handle of the same directory. *)
Definition try_clone (directory : path) : lio (result ErrorKind.t path) := look (λ _, Ok directory).

(** Directory and file synchronisation: durability is the order of the calls. *)
Definition sync_handle (directory : path) : lio (result ErrorKind.t ()) := look (λ _, Ok tt).
Definition sync_all (i : ino) : lio (result ErrorKind.t ()) := look (λ _, Ok tt).

(** [file.metadata()] of a regular file: its length and its number of names. *)
Definition metadata (i : ino) : lio (result ErrorKind.t (Z * nat)) :=
  look (λ w, Ok (len (default [] (files w !! i)), nlink w i)).

Definition file_identity (i : ino) : lio (result ErrorKind.t FileIdentity.t) :=
  look (λ w, Ok (FileIdentity.mk (file_device i) i (len (default [] (files w !! i))))).

Definition same_file (expected : FileIdentity.t) (observed : ino) : lio (result ErrorKind.t bool) :=
  do! r := file_identity observed in
  ret (observed ← r; Ok (bool_decide (expected = observed))).

(** [file.seek(SeekFrom::Start(0))] and reading to the end. *)
Definition seek_start (i : ino) : lio (result ErrorKind.t ()) := look (λ _, Ok tt).
Definition read_to_end (i : ino) : lio (result ErrorKind.t (list Z)) :=
  look (λ w, Ok (default [] (files w !! i))).

(** One [write]: the system takes some of the bytes. *)
Definition write (i : ino) (bytes : list Z) : lio (result ErrorKind.t Z) :=
  at_tick (λ tick,
    let n := Nat.min (accepts tick) (length bytes) in
    call (λ w, Ok (Z.of_nat n,
      set_files (alter (λ content, content ++ firstn n bytes) i) w))).

(** [fill_random] of 16 bytes. *)
Definition fill_random : lio (result ErrorKind.t (list Z)) :=
  at_tick (λ tick, look (λ _, Ok (random tick))).

(** [symlink_metadata]. *)
Definition symlink_metadata (p : path) : lio (result ErrorKind.t entry) :=
  look (λ w, ok_or (entry_at w p) ErrorKind.NotFound).
End platform.
#[global] Arguments or_io {A} operation%_string_scope m.
