(* ===== verification/LooseStore.v ===== *)
(** * The loose-object store: [crates/rgit-store/src/loose.rs]

    Immutable objects as single files. A new object is written to a temporary file, read back
    and verified, and only then renamed, never over an existing entry, to the path its
    identifier determines. An existing entry that differs is evidence of corruption: the
    candidate is quarantined and the store refuses further writes. *)

From stdpp Require Import gmap.
From S2P Require Import Prelude Machine Order Utf8 Canonical ObjectId Types Objects Decode StoreModel FileTree LooseFrame LoosePlatform.
Import World LooseStoreError.

Module PutLooseOutcome.
Inductive t := New | AlreadyPresent.
End PutLooseOutcome.

Module InventoryEntryKind.
Inductive t := StaleTemporary | UnindexedOrphan | Quarantined | Unexpected.
End InventoryEntryKind.

Module InventoryEntry.
Record t := mk { kind : InventoryEntryKind.t; relative_path : path }.
End InventoryEntry.

(** A verified payload and the position of its cursor. *)
Module VerifiedReader.
Record t := mk { bytes : list Z; position : Z; object : AnyObject.t }.
Definition len (self : t) : Z := Machine.len (bytes self).
Definition is_empty (self : t) : bool := len self =? 0.

(** [Read::read] into a buffer of [n] bytes. *)
Definition read (n : Z) (self : t) : list Z * t :=
  let output := firstn (Z.to_nat n) (skipn (Z.to_nat (position self)) (bytes self)) in
  (output, mk (bytes self) (position self + Machine.len output) (object self)).
End VerifiedReader.

Definition TEMP_ATTEMPTS : nat := 128.
Definition INCIDENT : str := lit "INCIDENT".

Section helpers.
Context `{Unicode, Digests, System}.

Definition injected (point : FailurePoint.t) : lio () := pure_result (check point).

(** ** Files *)

(** The loop of [write_complete]; the fuel allows one write per byte and the interruptions. *)
Fixpoint write_loop (fuel : nat) (i : ino) (bytes : list Z) : lio (result ErrorKind.t ()) :=
  match bytes, fuel with
  | [], _ => ret (Ok tt)
  | _, O => stuck
  | _, S fuel =>
      do! r := write i bytes in
      match r with
      | Ok 0 => ret (Err ErrorKind.WriteZero)
      | Ok written => write_loop fuel i (skipn (Z.to_nat written) bytes)
      | Err ErrorKind.Interrupted => write_loop fuel i bytes
      | Err error => ret (Err error)
      end
  end.

Definition write_complete (i : ino) (bytes : list Z) : lio (result ErrorKind.t ()) :=
  write_loop (retries + length bytes) i bytes.

Definition verify_open_file (i : ino) (expected_id : option ObjectId) (actual_path : option path) :
    lio VerifiedRecord.t :=
  do! (length, links) := or_io "inspect loose record" (metadata i) in
  if ABSOLUTE_RECORD_MAX <? length then raise AllocationLimit else
  if negb (bool_decide (links = 1%nat)) then raise PathMismatch else
  do! _ := or_io "rewind loose record" (seek_start i) in
  do! content := io_map_err (λ _, InvalidFrame) (or_io "read" (read_to_end i)) in
  pure_result (parse_record_stream content length expected_id actual_path).

Definition open_regular_at (parent : path) (name : str) (operation : String.string) : lio ino :=
  do! file := or_io operation (open_file_at parent name) in
  match file with
  | HOther =>
      do! _ := or_io operation (look (λ _, Ok tt)) in
      raise PathMismatch
  | HFile i =>
      do! (_, links) := or_io operation (metadata i) in
      if negb (bool_decide (links = 1%nat)) then raise PathMismatch else ret i
  end.

#[local] Arguments open_regular_at parent name operation%_string_scope.

(** ** Directories *)

Definition reject_link (p : path) : lio () :=
  do! metadata := or_io "inspect control path" (symlink_metadata p) in
  match metadata with Directory => ret tt | _ => raise PathMismatch end.

Definition ensure_directory (p : path) (operation : String.string) : lio bool :=
  do! metadata := symlink_metadata p in
  match metadata with
  | Ok Directory => ret false
  | Ok _ => raise PathMismatch
  | Err ErrorKind.NotFound =>
      do! created := call (mkdir p) in
      match created with
      | Ok _ => ret true
      | Err ErrorKind.AlreadyExists => do! _ := reject_link p in ret false
      | Err error => raise (Io operation error)
      end
  | Err error => raise (Io operation error)
  end.

#[local] Arguments ensure_directory p operation%_string_scope.

Definition open_or_create_directory (parent : path) (name : str) : lio path :=
  do! created := or_io "create repository directory" (create_directory_at parent name) in
  do! child := or_io "pin repository directory" (open_directory_at parent name) in
  if created : bool then
    do! _ := or_io "sync new repository directory" (sync_handle child) in
    do! _ := or_io "sync repository directory parent" (sync_handle parent) in
    ret child
  else ret child.

Definition ensure_handle_filesystems (root : path) (children : list path) : lio () :=
  do! device := or_io "inspect repository filesystem" (look (λ _, Ok (directory_device root))) in
  io_each (λ child,
    do! d := or_io "inspect object filesystem" (look (λ _, Ok (directory_device child))) in
    if negb (d =? device) then raise UnsupportedPlatform else ret tt) children.

(** ** The incident marker *)

Definition marker_may_exist (directory : path) : lio bool :=
  do! r := open_file_at directory INCIDENT in
  ret match r with Err ErrorKind.NotFound => false | _ => true end.

Definition incident_text : list Z :=
  lit "RGIT-LOOSE-INCIDENT" ++ [10] ++ lit "version=0" ++ [10].

Definition persist_marker (directory : path) : lio () :=
  do! created := create_file_at directory INCIDENT in
  do! _ := match created with
           | Ok marker =>
               do! _ := or_io "write incident marker" (write_complete marker incident_text) in
               or_io "sync incident marker" (sync_all marker)
           | Err ErrorKind.AlreadyExists => ret tt
           | Err error => raise (Io "create incident marker" error)
           end in
  or_io "sync incident marker directory" (sync_handle directory).

(** A name that this store makes up. *)
Definition probe_name (stem suffix : str) : str := lit "probe-" ++ stem ++ suffix.

Definition probe_publication_capabilities (directory : path) : lio () :=
  do! entropy := or_io "obtain capability-probe entropy" fill_random in
  let stem := hex_encode entropy in
  let source := probe_name stem (lit "-source") in
  let occupied := probe_name stem (lit "-occupied") in
  let published := probe_name stem (lit "-published") in
  do! source_file := or_io "create capability probe" (create_file_at directory source) in
  do! _ := or_io "write capability probe" (write_complete source_file (lit "probe")) in
  do! _ := or_io "sync capability probe" (sync_all source_file) in
  do! occupied_file := or_io "create occupied probe target" (create_file_at directory occupied) in
  do! _ := or_io "sync occupied probe target" (sync_all occupied_file) in
  do! collision := rename_no_replace_at directory source directory occupied in
  match collision with
  | Err ErrorKind.AlreadyExists =>
      let unsupported {A} (m : lio A) := io_map_err (λ _, UnsupportedPlatform) m in
      do! _ := unsupported (or_io "rename" (rename_no_replace_at directory source directory published)) in
      do! _ := unsupported (or_io "sync" (sync_handle directory)) in
      do! _ := io_each (λ name, or_io "remove capability probe" (remove_file_at directory name))
                 [occupied; published] in
      unsupported (or_io "sync" (sync_handle directory))
  | _ => raise UnsupportedPlatform
  end.
End helpers.
#[global] Arguments open_regular_at {_} parent name operation%_string_scope.
#[global] Arguments ensure_directory {_} p operation%_string_scope.

(** ** The store *)

Module LooseObjectStore.
(** The directories the store has pinned. *)
Record t := mk { control : path; loose : path; temporary : path; quarantine : path }.

(** The layout below a control directory. *)
Definition layout (control : path) : t :=
  let objects := control ++ [lit "objects"] in
  mk control (objects ++ [lit "loose"]) (objects ++ [lit "tmp"]) (objects ++ [lit "quarantine"]).

Definition object_path (self : t) (id : ObjectId) : path :=
  let '(components, name) := path_components id in loose self ++ components ++ [name].

Section store.
Context `{Unicode, Digests, System}.

(** [self.incident.store(value)], visible to the other threads at once. *)
Definition store_incident (value : bool) : lio () := λ '(s, fuse),
  (Ok tt, (State.mk (set_incident value (State.world s)) (State.ticks s), fuse)).

Definition load_incident : lio bool := λ '(s, fuse),
  (Ok (incident (State.world s)), (s, fuse)).

(** [open_with_injector] up to the construction of the store: the pinned directories, and
    whether an incident is on record. *)
Definition open_layout (control : path) : lio (t * bool) :=
  do! _ := ensure_directory control "create control directory" in
  do! _ := reject_link control in
  do! control_handle := or_io "pin repository control directory" (open_directory control) in
  do! objects_handle := open_or_create_directory control_handle (lit "objects") in
  do! loose_handle := open_or_create_directory objects_handle (lit "loose") in
  do! temporary_handle := open_or_create_directory objects_handle (lit "tmp") in
  do! quarantine_handle := open_or_create_directory objects_handle (lit "quarantine") in
  do! _ := ensure_handle_filesystems control_handle
             [objects_handle; loose_handle; temporary_handle; quarantine_handle] in
  do! _ := probe_publication_capabilities temporary_handle in
  do! first := marker_may_exist quarantine_handle in
  do! found := if first : bool then ret true else marker_may_exist temporary_handle in
  ret (mk control loose_handle temporary_handle quarantine_handle, found).

Definition open_with_injector (control : path) : lio t :=
  do! (store, incident) := open_layout control in
  do! _ := store_incident incident in
  ret store.

Definition persist_incident (self : t) : lio () :=
  do! r := attempt (persist_marker (quarantine self)) in
  match r with
  | Ok _ => ret tt
  | Err _ => persist_marker (temporary self)
  end.

(** ** Temporary names *)

Definition temporary_name (entropy : list Z) : str := lit "put-" ++ hex_encode entropy.
Definition quarantine_name (entropy : list Z) : str :=
  lit "record-" ++ hex_encode entropy ++ lit ".rgl".

(** [for _ in 0..TEMP_ATTEMPTS]. *)
Fixpoint create_temporary_loop (attempts : nat) (self : t) : lio (str * ino) :=
  match attempts with
  | O => raise (Io "allocate unique temporary record" ErrorKind.AlreadyExists)
  | S attempts =>
      do! entropy := or_io "obtain temporary-name entropy" fill_random in
      let name := temporary_name entropy in
      do! r := create_file_at (temporary self) name in
      match r with
      | Ok file => ret (name, file)
      | Err ErrorKind.AlreadyExists => create_temporary_loop attempts self
      | Err error => raise (Io "create temporary record" error)
      end
  end.

Definition create_temporary (self : t) : lio (str * ino) := create_temporary_loop TEMP_ATTEMPTS self.

Fixpoint quarantine_loop (attempts : nat) (self : t) (name : str) : lio () :=
  match attempts with
  | O => raise (Io "allocate unique quarantine record" ErrorKind.AlreadyExists)
  | S attempts =>
      do! entropy := or_io "obtain quarantine-name entropy" fill_random in
      do! r := rename_no_replace_at (temporary self) name
                 (quarantine self) (quarantine_name entropy) in
      match r with
      | Ok _ => ret tt
      | Err ErrorKind.AlreadyExists => quarantine_loop attempts self name
      | Err error => raise (Io "quarantine collision candidate" error)
      end
  end.

Definition quarantine_candidate (self : t) (name : str) : lio () :=
  quarantine_loop TEMP_ATTEMPTS self name.

(** ** Directories of objects *)

Fixpoint create_fanout_loop (current : path) (components : list str) : lio path :=
  match components with
  | [] => ret current
  | component :: components =>
      do! created := or_io "create fanout directory" (create_directory_at current component) in
      do! child := or_io "pin fanout directory" (open_directory_at current component) in
      do! _ := if created : bool then
                 do! _ := or_io "sync new fanout directory" (sync_handle child) in
                 or_io "sync fanout parent" (sync_handle current)
               else ret tt in
      create_fanout_loop child components
  end.

Definition create_fanout (self : t) (id : ObjectId) : lio (path * str) :=
  let '(components, name) := path_components id in
  do! current := or_io "clone loose directory handle" (try_clone (loose self)) in
  do! parent := create_fanout_loop current components in
  ret (parent, name).

Fixpoint open_fanout_loop (current : path) (components : list str) : lio path :=
  match components with
  | [] => ret current
  | component :: components =>
      do! child := or_io "open fanout directory" (open_directory_at current component) in
      open_fanout_loop child components
  end.

Definition open_fanout (self : t) (id : ObjectId) : lio (path * str) :=
  let '(components, name) := path_components id in
  do! current := or_io "clone loose directory handle" (try_clone (loose self)) in
  do! parent := open_fanout_loop current components in
  ret (parent, name).

(** ** Writing *)

(** Reading the entry that is already there, for comparison: at most one byte more than the
    largest record. *)
Definition existing_matches (id : ObjectId) (candidate : list Z) (parent : path) (name : str) :
    lio bool :=
  do! opened := attempt (open_regular_at parent name "open existing object") in
  match opened with
  | Ok file =>
      do! valid := attempt (verify_open_file file (Some id) None) in
      do! rewound := seek_start file in
      do! bytes := match rewound with
                   | Ok _ => read_to_end file
                   | Err error => ret (Err error)
                   end in
      ret match valid, bytes with
          | Ok _, Ok bytes =>
              bool_decide (firstn (Z.to_nat (ABSOLUTE_RECORD_MAX + 1)) bytes = candidate)
          | _, _ => false
          end
  | Err _ => ret false
  end.

Definition resolve_existing (self : t) (id : ObjectId) (candidate : list Z)
    (temporary_name : str) (temporary_file : ino) (final_parent : path) (final_name : str) :
    lio PutLooseOutcome.t :=
  do! matches := existing_matches id candidate final_parent final_name in
  if matches : bool then
    do! _ := or_io "remove duplicate temporary record"
               (remove_file_at (temporary self) temporary_name) in
    do! _ := or_io "sync temporary directory" (sync_handle (temporary self)) in
    do! _ := or_io "sync existing object directory" (sync_handle final_parent) in
    ret PutLooseOutcome.AlreadyPresent
  else
    do! _ := verify_open_file temporary_file (Some id) None in
    do! _ := store_incident true in
    do! _ := attempt (persist_incident self) in
    do! _ := quarantine_candidate self temporary_name in
    do! _ := or_io "sync temporary directory" (sync_handle (temporary self)) in
    do! _ := or_io "sync quarantine directory" (sync_handle (quarantine self)) in
    raise CollisionIncident.

(** The answer to a publication that took effect. *)
Definition confirm_publication (self : t) (expected : FileIdentity.t) (parent : path)
    (final_name : str) : lio PutLooseOutcome.t :=
  do! _ := injected FailurePoint.AfterPublish in
  do! published := open_regular_at parent final_name "open published record" in
  do! identity_matches := or_io "verify published record identity" (same_file expected published) in
  if negb identity_matches then
    do! _ := store_incident true in
    do! _ := attempt (persist_incident self) in
    raise CollisionIncident
  else
    do! _ := or_io "sync temporary directory" (sync_handle (temporary self)) in
    do! _ := or_io "sync final object directory" (sync_handle parent) in
    do! _ := injected FailurePoint.AfterParentSync in
    ret PutLooseOutcome.New.

(** [put] from the moment it has a temporary file. *)
Definition publish_temporary (self : t) (id : ObjectId) (frame : list Z)
    (temporary_name : str) (temporary_file : ino) : lio PutLooseOutcome.t :=
  do! _ := injected FailurePoint.AfterTempCreate in
  do! _ := or_io "write temporary record" (write_complete temporary_file frame) in
  do! _ := injected FailurePoint.AfterFrameWrite in
  do! _ := or_io "sync temporary record" (sync_all temporary_file) in
  do! _ := injected FailurePoint.AfterTempSync in
  do! expected_identity := or_io "inspect temporary record" (file_identity temporary_file) in
  do! _ := verify_open_file temporary_file (Some id) None in
  do! _ := injected FailurePoint.AfterTempVerify in
  do! (parent, final_name) := create_fanout self id in
  do! _ := injected FailurePoint.AfterDirectoryCreate in
  do! _ := injected FailurePoint.BeforePublish in
  do! renamed := rename_no_replace_at (temporary self) temporary_name parent final_name in
  match renamed with
  | Ok _ => confirm_publication self expected_identity parent final_name
  | Err ErrorKind.AlreadyExists =>
      resolve_existing self id frame temporary_name temporary_file parent final_name
  | Err error => raise (Io "publish object without replacement" error)
  end.

Definition put (self : t) (id : ObjectId) (payload : list Z) : lio PutLooseOutcome.t :=
  do! incident := load_incident in
  if incident : bool then raise ReadOnlyIncident else
  do! object := pure_result (map_err InvalidObject (AnyObject.decode_verified payload id bulk)) in
  do! frame := pure_result (encode_frame id object payload) in
  do! _ := injected FailurePoint.AfterEncode in
  do! (temporary_name, temporary_file) := create_temporary self in
  publish_temporary self id frame temporary_name temporary_file.

Definition put_canonical (self : t) (payload : list Z) (algorithm : HashAlgorithm.t) :
    lio (ObjectId * PutLooseOutcome.t) :=
  do! object := pure_result (map_err InvalidObject (AnyObject.decode payload bulk)) in
  do! id := pure_result (map_err InvalidObject (AnyObject.id object algorithm)) in
  do! outcome := put self id payload in
  ret (id, outcome).

(** ** Reading *)

Definition unavailable_io (_ : LooseStoreError.t) : LooseStoreError.t := Unavailable.

(** Opening and verifying the record of an object. *)
Definition open_record (self : t) (id : ObjectId) : lio VerifiedRecord.t :=
  do! (parent, name) := io_map_err unavailable_io (open_fanout self id) in
  do! file := io_map_err unavailable_io (open_regular_at parent name "open loose record") in
  verify_open_file file (Some id) None.

Definition read_audited (self : t) (id : ObjectId) : lio VerifiedReader.t :=
  do! verified := open_record self id in
  ret (VerifiedReader.mk (VerifiedRecord.payload verified) 0 (VerifiedRecord.object verified)).

Definition read (self : t) (id : ObjectId) : lio VerifiedReader.t :=
  io_map_err (λ _, Unavailable) (read_audited self id).

Definition read_typed_audited (self : t) (id : ObjectId) (expected_kind : ObjectKind.t) :
    lio VerifiedReader.t :=
  do! reader := read_audited self id in
  if negb (bool_decide (kind (AnyObject.decoded (VerifiedReader.object reader)) = expected_kind))
  then raise MetadataMismatch else ret reader.

Definition read_typed (self : t) (id : ObjectId) (expected_kind : ObjectKind.t) :
    lio VerifiedReader.t :=
  io_map_err (λ _, Unavailable) (read_typed_audited self id expected_kind).

Definition read_object_audited (self : t) (id : ObjectId) : lio StoredObject.t :=
  do! verified := open_record self id in
  pure_result (map_err InvalidObject
    (StoredObject.new id (VerifiedRecord.payload verified) (VerifiedRecord.object verified))).

Definition read_object (self : t) (id : ObjectId) : lio StoredObject.t :=
  io_map_err (λ _, Unavailable) (read_object_audited self id).

Definition contains (self : t) (id : ObjectId) : lio bool :=
  do! r := attempt (read self id) in
  ret match r with Ok _ => true | Err _ => false end.

Definition is_read_only_incident (self : t) : lio bool := load_incident.

(** ** Inventory *)

(** [path.strip_prefix(root)]. *)
Definition strip_root (root p : path) : result LooseStoreError.t path :=
  if bool_decide (firstn (length root) p = root) then Ok (skipn (length root) p) else Err PathMismatch.

(** [fs::read_dir]: the entries of a directory. *)
Definition list_directory (operation : String.string) (directory : path) : lio (list (str * entry)) :=
  or_io operation (look (λ w,
    match entry_at w directory with
    | Some Directory =>
        Ok (omap (λ name, pair name <$> names w !! (directory ++ [name])) (read_dir (names w) directory))
    | None => Err ErrorKind.NotFound
    | _ => Err ErrorKind.Other
    end)).

#[local] Arguments list_directory operation%_string_scope directory.

Definition inventory_flat (root directory : path) (kind : InventoryEntryKind.t)
    (output : list InventoryEntry.t) : lio (list InventoryEntry.t) :=
  do! entries := list_directory "inventory object directory" directory in
  pure_result (try_fold (λ output '(name, _),
    relative_path ← strip_root root (directory ++ [name]);
    Ok (output ++ [InventoryEntry.mk kind relative_path])) entries output).

(** One entry of a directory below the published objects. *)
Definition inventory_entry (root current : path) (acc : list path * list InventoryEntry.t)
    (e : str * entry) : result LooseStoreError.t (list path * list InventoryEntry.t) :=
  let '(pending, output) := acc in
  let '(name, file_type) := e in
  let p := current ++ [name] in
  match file_type with
  | Directory => Ok (p :: pending, output)
  | _ =>
      relative_path ← strip_root root p;
      Ok (pending, output ++ [InventoryEntry.mk
        (match file_type with
         | Regular _ => InventoryEntryKind.UnindexedOrphan
         | _ => InventoryEntryKind.Unexpected
         end) relative_path])
  end.

(** [while let Some(current) = pending.pop()], with the end of the vector first. *)
Fixpoint inventory_loop (fuel : nat) (root : path) (pending : list path)
    (output : list InventoryEntry.t) : lio (list InventoryEntry.t) :=
  match pending, fuel with
  | [], _ => ret output
  | _, O => stuck
  | current :: pending, S fuel =>
      do! entries := list_directory "inventory loose directory" current in
      do! (pending, output) :=
        pure_result (try_fold (inventory_entry root current) entries (pending, output)) in
      inventory_loop fuel root pending output
  end.

(** The fuel is one round for every name in the tree. *)
Definition inventory_loose (root directory : path) (output : list InventoryEntry.t) :
    lio (list InventoryEntry.t) :=
  do! fuel := inspect (λ s, Ok (S (size (names (State.world s))))) in
  inventory_loop fuel root [directory] output.

Definition inventory_audited (self : t) : lio (list InventoryEntry.t) :=
  do! entries := inventory_flat (control self) (temporary self) InventoryEntryKind.StaleTemporary [] in
  do! entries := inventory_flat (control self) (quarantine self) InventoryEntryKind.Quarantined entries in
  do! entries := inventory_loose (control self) (loose self) entries in
  ret (sort_by_key InventoryEntry.relative_path entries).
End store.
End LooseObjectStore.
