(* ===== verification/LooseFacts.v ===== *)
(** * Runs of the loose-object store among other processes

    A rely-guarantee reading of the store. What other processes may do between two calls
    ([rely]), what a call of this process does ([guarantee]), and the rules for runs that
    may fail or stop at any call. Published objects are never altered by either side. *)

From stdpp Require Import gmap.
From S2P Require Import Prelude Machine Order Utf8 Canonical ObjectId Types Objects Decode DecodeFacts Storable ObjectSpec StoreModel FileTree LooseFrame LoosePlatform LooseStore.
Import World LooseStoreError LooseObjectStore.

(** ** What stays as it is *)

(** Names lie in directories and lead to files. *)
Definition world_ok (w : world) : Prop :=
  (∀ p i, names w !! p = Some (Regular i) → is_Some (files w !! i)) ∧
  (∀ p n e, names w !! (p ++ [n]) = Some e → entry_at w p = Some Directory).

Lemma entry_at_snoc w p n : entry_at w (p ++ [n]) = names w !! (p ++ [n]).
Proof. by destruct p. Qed.

Lemma dir_kept w p q e fs :
  entry_at w p = Some Directory → names w !! q = None →
  entry_at (World.mk (<[q := e]> (names w)) fs (incident w)) p = Some Directory.
Proof.
  destruct p as [|x p]; [done|]. cbn. intros Hp Hq. rewrite lookup_insert_ne; [done|]. congruence.
Qed.

(** The content and the names of one file. *)
Definition frozen (i : ino) (w w' : world) : Prop :=
  files w' !! i = files w !! i ∧
  ∀ q, names w' !! q = Some (Regular i) ↔ names w !! q = Some (Regular i).

Definition only_name (w : world) (p : path) (i : ino) : Prop :=
  ∀ q, names w !! q = Some (Regular i) ↔ q = p.

Section relations.
Context `{Unicode, Digests} (self : LooseObjectStore.t).

(** The record of an object, complete and verified, at its place. *)
Definition holds (w : world) (id : ObjectId) (payload : list Z) (i : ino) : Prop :=
  ∃ o frame, oid_ok id = true ∧ is_bytes payload = true ∧
    AnyObject.decode_verified payload id bulk = Ok o ∧ encode_frame id o payload = Ok frame ∧
    files w !! i = Some frame ∧ only_name w (object_path self id) i.

Definition published (w : world) (p : path) (i : ino) : Prop :=
  ∃ id payload, p = object_path self id ∧ holds w id payload i.

Definition markers : list path := [quarantine self ++ [INCIDENT]; temporary self ++ [INCIDENT]].

(** What every process leaves alone: directories, everything published, the incident. New
    entries among the published ones are directories and verified records. *)
Record extends (w w' : world) : Prop := {
  ext_dirs p : entry_at w p = Some Directory → entry_at w' p = Some Directory;
  ext_loose p e : loose self `prefix_of` p → names w !! p = Some e → names w' !! p = Some e;
  ext_files p i : loose self `prefix_of` p → names w !! p = Some (Regular i) → frozen i w w';
  ext_new p e : loose self `prefix_of` p → names w !! p = None → names w' !! p = Some e →
    e = Directory ∨ ∃ i, e = Regular i ∧ published w' p i;
  ext_incident : incident w = true → incident w' = true;
  ext_markers p : p ∈ markers → is_Some (names w !! p) → is_Some (names w' !! p);
  ext_ok : world_ok w → world_ok w' }.

(** A step of others, and a step of [process]. Each process leaves the files of the others. *)
Definition rely (me : Z) (w w' : world) : Prop :=
  extends w w' ∧ ∀ i, i.1 = me → frozen i w w'.
Definition guarantee (me : Z) (w w' : world) : Prop :=
  extends w w' ∧ ∀ i, i.1 ≠ me → frozen i w w'.

Lemma frozen_refl i w : frozen i w w.
Proof. by split. Qed.

Lemma frozen_trans i w w' w'' : frozen i w w' → frozen i w' w'' → frozen i w w''.
Proof. intros [Hf Hn] [Hf' Hn']. split; [congruence|]. intros q. by rewrite Hn', Hn. Qed.

Lemma frozen_only_name i w w' p : frozen i w w' → only_name w p i → only_name w' p i.
Proof. intros [_ Hn] Ho q. by rewrite Hn. Qed.

Lemma frozen_holds i w w' id payload : frozen i w w' → holds w id payload i → holds w' id payload i.
Proof.
  intros Hf (o & frame & ? & ? & ? & ? & Hc & Ho). exists o, frame. split_and!; try done.
  - destruct Hf as [-> _]. done.
  - by eapply frozen_only_name.
Qed.

Lemma object_path_loose id : loose self `prefix_of` object_path self id.
Proof. unfold object_path. destruct (path_components id). by eexists. Qed.

Lemma holds_name w id payload i : holds w id payload i → names w !! object_path self id = Some (Regular i).
Proof. intros (o & frame & _ & _ & _ & _ & _ & Ho). by apply Ho. Qed.

Lemma extends_holds w w' id payload i : extends w w' → holds w id payload i → holds w' id payload i.
Proof.
  intros He Hh. eapply frozen_holds; [|done].
  eapply (ext_files _ _ He); [apply object_path_loose|by eapply holds_name].
Qed.

Lemma extends_refl w : extends w w.
Proof. split; try done; by intros; simplify_eq; try apply frozen_refl. Qed.

Lemma extends_trans w w' w'' : extends w w' → extends w' w'' → extends w w''.
Proof.
  intros H1 H2. split.
  - intros p Hp. by apply H2, H1.
  - intros p e Hp He. by apply H2, H1.
  - intros p i Hp Hi. eapply frozen_trans; [by eapply (ext_files _ _ H1)|].
    eapply (ext_files _ _ H2); [done|]. by apply H1.
  - intros p e Hp Hn He. destruct (names w' !! p) as [e'|] eqn:Hw'.
    + pose proof (ext_loose _ _ H2 p e' Hp Hw') as Heq. rewrite He in Heq. injection Heq as ->.
      destruct (ext_new _ _ H1 p e' Hp Hn Hw') as [->|(i & -> & id & payload & -> & Hh)]; [by left|].
      right. exists i. split; [done|]. exists id, payload. split; [done|].
      by eapply extends_holds.
    + by eapply (ext_new _ _ H2).
  - intros Hi. by apply H2, H1.
  - intros p Hp Hs. by apply H2, H1.
  - intros Hw. by apply H2, H1.
Qed.

Lemma rely_refl me w : rely me w w.
Proof. split; [apply extends_refl|]. intros i _. apply frozen_refl. Qed.

(** Processes are compatible: what one does, the others tolerate. *)
Lemma guarantee_rely p q w w' : p ≠ q → guarantee p w w' → rely q w w'.
Proof. intros Hpq [He Hf]. split; [done|]. intros i Hi. apply Hf. congruence. Qed.

(** Runs: steps of this process between steps of others. *)
Definition moves (me : Z) : relation world := rtc (λ w w', rely me w w' ∨ guarantee me w w').

Lemma moves_extends me w w' : moves me w w' → extends w w'.
Proof.
  induction 1 as [w|w w1 w' Hs _ IH]; [apply extends_refl|].
  eapply extends_trans; [|exact IH]. by destruct Hs as [[? _]|[? _]].
Qed.
End relations.

(** ** Single links *)

Lemma nlink_one w p i :
  names w !! p = Some (Regular i) → nlink w i = 1%nat ↔ only_name w p i.
Proof.
  intros Hp. unfold nlink. set (m := filter _ _).
  assert (∀ q e, m !! q = Some e ↔ names w !! q = Some e ∧ e = Regular i) as Hm
    by (intros; apply map_lookup_filter_Some).
  assert (m !! p = Some (Regular i)) as Hmp by by apply Hm.
  rewrite <-(insert_delete_id m p (Regular i)) by done.
  rewrite map_size_insert_None by apply lookup_delete_eq. split.
  - intros [= Hz%map_size_empty_inv] q. split; [|by intros ->]. intros Hq.
    destruct (decide (q = p)) as [|Hne]; [done|].
    assert (delete p m !! q = Some (Regular i)) as Hd by (rewrite lookup_delete_ne by done; by apply Hm).
    rewrite Hz in Hd. by rewrite lookup_empty in Hd.
  - intros Ho. f_equal. apply map_size_empty_iff, map_eq. intros q. rewrite lookup_empty.
    destruct (decide (q = p)) as [->|Hne]; [apply lookup_delete_eq|].
    rewrite lookup_delete_ne by done. destruct (m !! q) as [e|] eqn:Hq; [|done].
    apply Hm in Hq as [Hq ->]. by apply Ho in Hq.
Qed.

(** ** Runs *)

(** However the run of [m] from [w] ends, the value and the world satisfy [Q], or the world
    where it failed or stopped satisfies [X]. *)
Definition outcome {A} (m : lio A) (Q : A → world → Prop) (X : world → Prop) (w : world) : Prop :=
  ∀ ticks fuse,
    match m (State.mk w ticks, fuse) with
    | (Ok a, (s, _)) => Q a (State.world s)
    | (Err _, (s, _)) => X (State.world s)
    end.

Section rules.
Context `{System}.

Lemma outcome_ret {A} (a : A) (Q : A → world → Prop) X w : Q a w → outcome (ret a) Q X w.
Proof. by intros HQ ticks fuse. Qed.

Lemma outcome_raise {A} e (Q : A → world → Prop) (X : world → Prop) w : X w → outcome (raise e) Q X w.
Proof. by intros HX ticks fuse. Qed.

Lemma outcome_bind {A B} (m : lio A) (f : A → lio B) R Q X w :
  outcome m R X w → (∀ a w', R a w' → outcome (f a) Q X w') → outcome (io_bind m f) Q X w.
Proof.
  intros Hm Hf ticks fuse. specialize (Hm ticks fuse). unfold io_bind.
  destruct (m _) as [[a|e] [[w' t'] fuse']]; [|done]. by apply Hf.
Qed.

Lemma outcome_mono {A} (m : lio A) (Q Q' : A → world → Prop) (X X' : world → Prop) w :
  outcome m Q X w → (∀ a w', Q a w' → Q' a w') → (∀ w', X w' → X' w') → outcome m Q' X' w.
Proof.
  intros Hm HQ HX ticks fuse. specialize (Hm ticks fuse).
  destruct (m _) as [[a|e] [[w' t'] fuse']]; auto.
Qed.

Lemma outcome_pure {A} (r : result lerr A) (Q : A → world → Prop) (X : world → Prop) w :
  (∀ a, r = Ok a → Q a w) → X w → outcome (pure_result r) Q X w.
Proof. intros HQ HX ticks fuse. cbn. destruct r; cbn; auto. Qed.

(** A result kept as a value: the run of [m] failed where [X] held. *)
Lemma outcome_attempt {A} (m : lio A) (Q : result lerr A → world → Prop) (X : world → Prop) w :
  outcome m (λ a w', Q (Ok a) w' ∧ X w') (λ w', X w' ∧ ∀ e, Q (Err e) w') w →
  outcome (attempt m) Q X w.
Proof.
  intros Hm ticks fuse. specialize (Hm ticks fuse). unfold attempt.
  destruct (m _) as [[a|[e| |]] [[w' t'] fuse']]; naive_solver.
Qed.

Lemma outcome_map_err {A} f (m : lio A) (Q : A → world → Prop) (X : world → Prop) w :
  outcome m Q X w → outcome (io_map_err f m) Q X w.
Proof.
  intros Hm ticks fuse. specialize (Hm ticks fuse). unfold io_map_err, io_bind, attempt.
  by destruct (m _) as [[a|[e| |]] [[w' t'] fuse']].
Qed.

Lemma outcome_or_io {A} op (m : lio (result ErrorKind.t A)) (Q : A → world → Prop) (X : world → Prop) w :
  outcome m (λ r w', match r with Ok a => Q a w' | Err _ => X w' end) X w →
  outcome (or_io op m) Q X w.
Proof.
  intros Hm. eapply outcome_bind; [exact Hm|]. cbn. intros [a|e] w' HR; [by apply outcome_ret|].
  by apply outcome_raise.
Qed.
End rules.

(** ** Steps of this process *)

Section steps.
Context `{Unicode, Digests, System} (self : LooseObjectStore.t).

(** A step that concerns one file of this process, which is not published yet. *)
Lemma own_step i w w' :
  i.1 = process →
  (∀ p, loose self `prefix_of` p → names w !! p ≠ Some (Regular i)) →
  (∀ j, j ≠ i → frozen j w w') →
  (∀ p e, names w !! p = Some e → e ≠ Regular i → names w' !! p = Some e) →
  (∀ p, p ∈ markers self → is_Some (names w !! p) → is_Some (names w' !! p)) →
  (∀ p e, loose self `prefix_of` p → names w !! p = None → names w' !! p = Some e →
    e = Directory ∨ ∃ i, e = Regular i ∧ published self w' p i) →
  (incident w = true → incident w' = true) → is_Some (files w' !! i) →
  (∀ p n e, names w' !! (p ++ [n]) = Some e →
    is_Some (names w !! (p ++ [n])) ∨ entry_at w p = Some Directory) →
  guarantee self process w w'.
Proof.
  intros Hi Hloose Hfrozen Hnames Hmarkers Hnew Hinc Hfile Htree.
  assert (∀ p, entry_at w p = Some Directory → entry_at w' p = Some Directory) as Hdirs.
  { intros [|x p] Hp; [done|]. by apply (Hnames (x :: p)). }
  split; [split|]; try done.
  - intros p e Hp He. apply Hnames; [done|]. intros ->. by apply (Hloose p).
  - intros p j Hp Hj. apply Hfrozen. intros ->. by apply (Hloose p).
  - intros [Hok1 Hok2]. split.
    + intros p j Hj. destruct (decide (j = i)) as [->|Hne]; [done|].
      destruct (Hfrozen j Hne) as [-> Hn]. apply (Hok1 p). by apply Hn.
    + intros p n e He. apply Hdirs. destruct (Htree p n e He) as [[e' He']|]; [|done]. by eapply Hok2.
  - intros j Hj. apply Hfrozen. congruence.
Qed.

(** A new directory. *)
Lemma mkdir_step p w w' : mkdir p w = Ok (tt, w') →
  guarantee self process w w' ∧ (∀ i, frozen i w w') ∧ entry_at w' p = Some Directory.
Proof.
  unfold mkdir. destruct (entry_at w p) eqn:Hp; [done|].
  destruct (entry_at w (parent_of p)) as [[]|] eqn:Hpar; try done. intros [= <-].
  assert (names w !! p = None) as Hpn by by destruct p.
  assert (∀ q e, names w !! q = Some e → <[p:=Directory]> (names w) !! q = Some e) as Hsub.
  { intros q e Hq. rewrite lookup_insert_ne; [done|]. intros ->. congruence. }
  assert (∀ i, frozen i w (set_names <[p:=Directory]> w)) as Hfr.
  { intros i. split; [done|]. intros q. cbn. rewrite lookup_insert. case_decide; [|done].
    subst. split; congruence. }
  assert (∀ q, entry_at w q = Some Directory → entry_at (set_names <[p:=Directory]> w) q = Some Directory) as Hdir.
  { intros [|x q] Hq; [done|]. by apply (Hsub (x :: q)). }
  split_and!; [|done|].
  - split; [split|by intros]; try done.
    + intros q e _. apply Hsub.
    + intros q e _ Hq. cbn. rewrite lookup_insert. case_decide; [|congruence].
      intros [= <-]. by left.
    + intros q _ [e He]. exists e. by apply Hsub.
    + intros [Hok1 Hok2]. split; [intros q i Hi%Hfr; by apply (Hok1 q)|].
      intros q n e. cbn. rewrite lookup_insert. case_decide as Heq; [|by intros ?%Hok2%Hdir].
      intros _. apply Hdir. subst p. unfold parent_of in Hpar. by rewrite removelast_snoc in Hpar.
  - destruct p; [done|]. cbn. by rewrite lookup_insert_eq.
Qed.

(** A file of this process, not published, under its only name. *)
Definition mine (p : path) (i : ino) (bytes : list Z) (w : world) : Prop :=
  i.1 = process ∧ ¬ loose self `prefix_of` p ∧ only_name w p i ∧ files w !! i = Some bytes.

Lemma mine_not_loose p i bytes w : mine p i bytes w →
  ∀ q, loose self `prefix_of` q → names w !! q ≠ Some (Regular i).
Proof. by intros (_ & Hp & Ho & _) q Hq ->%Ho. Qed.

Lemma frozen_mine p i bytes w w' : frozen i w w' → mine p i bytes w → mine p i bytes w'.
Proof.
  intros Hf (Hi & Hp & Ho & Hc). split_and!; [done|done|by eapply frozen_only_name|].
  by destruct Hf as [-> _].
Qed.

Lemma fresh_ino_new w : files w !! fresh_ino w = None.
Proof.
  apply not_elem_of_dom. intros Hin. unfold fresh_ino in Hin.
  eapply (infinite_is_fresh (map snd (elements (dom (files w))))).
  apply list_elem_of_fmap. eexists. split; [|apply elem_of_elements; exact Hin]. done.
Qed.

(** A new file outside the published objects. *)
Lemma create_step parent name w :
  let p := parent ++ [name] in
  ¬ loose self `prefix_of` p → world_ok w → entry_at w p = None →
  entry_at w parent = Some Directory →
  let i := fresh_ino w in
  let w' := set_files <[i := []]> (set_names <[p := Regular i]> w) in
  guarantee self process w w' ∧ (∀ j, j ≠ i → frozen j w w') ∧ mine p i [] w' ∧
  files w !! i = None.
Proof.
  intros p Hp [Hok _] Hn Hpar i w'.
  assert (names w !! p = None) as Hpn by (subst p; by destruct parent).
  pose proof (fresh_ino_new w) as Hnew. fold i in Hnew.
  assert (∀ q, names w !! q ≠ Some (Regular i)) as Hno.
  { intros q Hq. apply Hok in Hq. rewrite Hnew in Hq. by destruct Hq. }
  assert (∀ j, j ≠ i → frozen j w w') as Hfr.
  { intros j Hj. split; cbn; [by rewrite lookup_insert_ne|]. intros q. rewrite lookup_insert.
    case_decide; [|done]. subst q. split; [congruence|]. congruence. }
  assert (files w' !! i = Some []) as Hfi by (cbn; by rewrite lookup_insert_eq).
  split_and!; try done.
  - apply (own_step i); try done.
    + intros q e Hq _. cbn. rewrite lookup_insert_ne; [done|]. intros <-. congruence.
    + intros q _ [e He]. exists e. cbn. rewrite lookup_insert_ne; [done|]. intros <-. congruence.
    + intros q e Hq Hqn. cbn. rewrite lookup_insert. case_decide as Heq; [|congruence].
      by subst q.
    + intros q n e. cbn. rewrite lookup_insert. case_decide as Heq; [|intros He; left; by eexists].
      intros _. right. subst p. by apply app_inj_tail in Heq as [<- _].
  - split_and!; try done. intros q. cbn. rewrite lookup_insert. case_decide; [done|].
    split; [by intros ?%Hno|congruence].
Qed.

Lemma write_step p i bytes chunk w :
  mine p i bytes w →
  let w' := set_files (alter (λ content, content ++ chunk) i) w in
  guarantee self process w w' ∧ mine p i (bytes ++ chunk) w' ∧ (∀ j, j ≠ i → frozen j w w').
Proof.
  intros Hm w'. pose proof (mine_not_loose _ _ _ _ Hm) as Hnl. destruct Hm as (Hi & Hp & Ho & Hc).
  assert (files w' !! i = Some (bytes ++ chunk)) as Hc' by (cbn; by rewrite lookup_alter_eq, Hc).
  assert (∀ j, j ≠ i → frozen j w w') as Hfr by (intros j Hj; split; cbn; [by rewrite lookup_alter_ne|done]).
  split_and!; [|done..]. apply (own_step i); try done; [cbn; congruence|].
  intros q n e He. left. by exists e.
Qed.

Lemma remove_frozen p i bytes w j : mine p i bytes w → j ≠ i → frozen j w (set_names (delete p) w).
Proof.
  intros (_ & _ & Ho & _) Hj. assert (names w !! p = Some (Regular i)) by by apply Ho.
  split; [done|]. intros q. cbn. rewrite lookup_delete_Some. split; [naive_solver|].
  intros Hq. split; [|done]. congruence.
Qed.

Lemma rename_frozen p i bytes d w j : mine p i bytes w → names w !! d = None → j ≠ i →
  frozen j w (set_names (λ m, <[d := Regular i]> (delete p m)) w).
Proof.
  intros Hm Hd Hj. split; [done|]. intros q. cbn. rewrite lookup_insert. case_decide as Hq.
  - subst q. split; congruence.
  - apply (remove_frozen p i bytes w j Hm Hj).
Qed.

(** Taking a name away, and moving it elsewhere without replacing anything. *)
Lemma remove_step p i bytes w : p ∉ markers self →
  mine p i bytes w → guarantee self process w (set_names (delete p) w).
Proof.
  intros Hname Hm. pose proof (mine_not_loose _ _ _ _ Hm) as Hnl. pose proof Hm as (Hi & Hp & Ho & Hc).
  assert (names w !! p = Some (Regular i)) as Hsrc by by apply Ho.
  apply (own_step i); try done; cbn.
  - intros j Hj. by eapply remove_frozen.
  - intros q e Hq He. rewrite lookup_delete_ne; [done|]. congruence.
  - intros q Hq Hs. rewrite lookup_delete_ne; [done|]. by intros <-.
  - intros q e _ Hq. rewrite lookup_delete_Some. intros [_ Hq']. congruence.
  - intros q n e. rewrite lookup_delete_Some. intros [_ Hq]. left. by exists e.
Qed.

Lemma rename_step p i bytes d w :
  let w' := set_names (λ m, <[d := Regular i]> (delete p m)) w in
  p ∉ markers self → mine p i bytes w → names w !! d = None →
  entry_at w (parent_of d) = Some Directory →
  (loose self `prefix_of` d → only_name w' d i → published self w' d i) →
  guarantee self process w w' ∧ only_name w' d i ∧ files w' !! i = Some bytes.
Proof.
  intros w' Hname Hm Hd Hpar Hpub. pose proof (mine_not_loose _ _ _ _ Hm) as Hnl.
  pose proof Hm as (Hi & Hp & Ho & Hc).
  assert (names w !! p = Some (Regular i)) as Hsrc by by apply Ho.
  assert (only_name w' d i) as Hon.
  { intros q. cbn. rewrite lookup_insert. case_decide as Hq; [by subst|].
    rewrite lookup_delete_Some. split; [|by intros ->]. intros [Hne ->%Ho]. done. }
  split_and!; [|done|done]. apply (own_step i); try done; cbn.
  - intros j Hj. by eapply rename_frozen.
  - intros q e Hq He. rewrite lookup_insert_ne by congruence. rewrite lookup_delete_ne; congruence.
  - intros q Hq [e He]. exists e. rewrite lookup_insert_ne by congruence.
    rewrite lookup_delete_ne; [done|]. by intros <-.
  - intros q e Hq Hqn. rewrite lookup_insert. case_decide as Hqd.
    + intros [= <-]. right. exists i. subst q. auto.
    + rewrite lookup_delete_Some. intros [_ ?]. congruence.
  - intros q n e. rewrite lookup_insert. case_decide as Hqd.
    + intros _. right. subst d. unfold parent_of in Hpar. by rewrite removelast_snoc in Hpar.
    + rewrite lookup_delete_Some. intros [_ Hq]. left. by exists e.
Qed.

(** Raising the flag. *)
Lemma incident_step w : guarantee self process w (set_incident true w) ∧ ∀ i, frozen i w (set_incident true w).
Proof.
  split; [split; [split|]|]; try done. cbn. congruence.
Qed.
End steps.

(** ** Triples *)

(** The other processes keep to the rely. *)
Class Others `{Unicode, Digests, System} (self : LooseObjectStore.t) : Prop :=
  others_rely n w : world_ok w → rely self process w (interfere n w).

Section triples.
Context `{Unicode, Digests, System} (self : LooseObjectStore.t) `{!Others self} (w0 : world).

(** Reached from [w0] by steps of this process between steps of others. *)
Definition good (w : world) : Prop := moves self process w0 w ∧ world_ok w.

(** What no step of the others makes false. *)
Class Stable (J : world → Prop) : Prop :=
  stable w w' : world_ok w → rely self process w w' → J w → J w'.

#[global] Instance stable_and J K : Stable J → Stable K → Stable (λ w, J w ∧ K w).
Proof. intros HJ HK w w' Hok Hr [? ?]. split; [by eapply HJ|by eapply HK]. Qed.
#[global] Instance stable_pure (P : Prop) : Stable (λ _, P).
Proof. by intros w w' _ _. Qed.
#[global] Instance stable_mine p i bytes : Stable (mine self p i bytes).
Proof. intros w w' _ [_ Hf] Hm. eapply frozen_mine; [|done]. apply Hf, Hm. Qed.
#[global] Instance stable_holds id payload i : Stable (λ w, holds self w id payload i).
Proof. intros w w' _ [He _]. by apply extends_holds. Qed.
#[global] Instance stable_dir p : Stable (λ w, entry_at w p = Some Directory).
Proof. intros w w' _ [He _]. apply He. Qed.
#[global] Instance stable_incident : Stable (λ w, incident w = true).
Proof. intros w w' _ [He _]. apply He. Qed.
#[global] Instance stable_marker p : p ∈ markers self → Stable (λ w, is_Some (names w !! p)).
Proof. intros Hp w w' _ [He _]. by apply He. Qed.

Lemma good_step w w' : good w → rely self process w w' ∨ guarantee self process w w' → good w'.
Proof.
  intros [Hm Hok] Hs. split; [by eapply rtc_r|].
  destruct Hs as [[He _]|[He _]]; by apply He.
Qed.

(** From a good world satisfying [P], the run of [m] stays good; it returns in [Q], or fails
    or stops in [X]. *)
Definition triple (X : world → Prop) {A} (P : world → Prop) (m : lio A) (Q : A → world → Prop) : Prop :=
  ∀ w, good w → P w → outcome m (λ a w', good w' ∧ Q a w') (λ w', good w' ∧ X w') w.

Section rules.
Context (X : world → Prop).

Lemma triple_ret {A} (a : A) P Q : (∀ w, P w → Q a w) → triple X P (ret a) Q.
Proof. intros HQ w Hg HP. apply outcome_ret. auto. Qed.

Lemma triple_raise {A} e P (Q : A → world → Prop) : (∀ w, P w → X w) → triple X P (raise e) Q.
Proof. intros HX w Hg HP. apply outcome_raise. auto. Qed.

Lemma triple_bind {A B} P (m : lio A) (f : A → lio B) R Q :
  triple X P m R → (∀ a, triple X (R a) (f a) Q) → triple X P (io_bind m f) Q.
Proof.
  intros Hm Hf w Hg HP. eapply outcome_bind; [by apply Hm|]. intros a w' [Hg' HR]. by apply Hf.
Qed.

Lemma triple_conseq {A} (P P' : world → Prop) (m : lio A) (Q Q' : A → world → Prop) :
  triple X P' m Q' → (∀ w, P w → P' w) → (∀ a w, good w → Q' a w → Q a w) → triple X P m Q.
Proof.
  intros Hm HP HQ w Hg Hw. eapply outcome_mono; [apply Hm; auto|naive_solver|done].
Qed.

Lemma triple_pre {A} (P' P : world → Prop) (m : lio A) Q :
  (∀ w, good w → P w → P' w) → triple X P' m Q → triple X P m Q.
Proof. intros HP Hm w Hg Hw. apply Hm; auto. Qed.

Lemma triple_exists {A B} (P : B → world → Prop) (m : lio A) Q :
  (∀ x, triple X (P x) m Q) → triple X (λ w, ∃ x, P x w) m Q.
Proof. intros Hm w Hg [x Hx]. by apply (Hm x). Qed.

Lemma triple_given {A} (φ : Prop) P (m : lio A) Q :
  (φ → triple X P m Q) → triple X (λ w, φ ∧ P w) m Q.
Proof. intros Hm w Hg [Hφ HP]. by apply Hm. Qed.

Lemma triple_pure {A} (r : result lerr A) P : (∀ w, P w → X w) →
  triple X P (pure_result r) (λ a w, P w ∧ r = Ok a).
Proof. intros HX w Hg HP. apply outcome_pure; auto. Qed.

(** A result kept as a value may fail elsewhere. *)
Lemma triple_attempt {A} (Y : world → Prop) P (m : lio A) Q :
  triple Y P m Q → (∀ w, Y w → X w) → (∀ a w, Q a w → X w) →
  triple X P (attempt m) (λ r w, match r with Ok a => Q a w | Err _ => Y w end).
Proof.
  intros Hm HX HQ w Hg HP. apply outcome_attempt.
  eapply outcome_mono; [by apply Hm| |]; naive_solver.
Qed.

Lemma triple_map_err {A} f P (m : lio A) Q : triple X P m Q → triple X P (io_map_err f m) Q.
Proof. intros Hm w Hg HP. apply outcome_map_err. by apply Hm. Qed.

Lemma triple_or_io {A} op P (m : lio (result ErrorKind.t A)) (Q : A → world → Prop) :
  triple X P m (λ r w, match r with Ok a => Q a w | Err _ => X w end) → triple X P (or_io op m) Q.
Proof.
  intros Hm w Hg HP. apply outcome_or_io. eapply outcome_mono; [by apply Hm| |done].
  intros [a|e] w'; naive_solver.
Qed.

Lemma triple_call {A} (J : world → Prop) `{!Stable J} (f : world → result ErrorKind.t (A * world))
    (Q : result ErrorKind.t A → world → Prop) :
  (∀ w, J w → X w) →
  (∀ w a w', good w → J w → f w = Ok (a, w') → guarantee self process w w' ∧ Q (Ok a) w') →
  (∀ w e, J w → Q (Err e) w) → triple X J (call f) Q.
Proof.
  intros HX Hok Herr w Hg HJ ticks fuse. unfold call.
  assert (good w) as [_ Hw] by done. pose proof (others_rely ticks w Hw) as Hr.
  assert (good (interfere ticks w)) as Hg1 by (eapply good_step; [done|by left]).
  assert (J (interfere ticks w)) as HJ1 by by eapply stable.
  destruct fuse as [[|n]|]; [by auto|..]; cbn; destruct (denies ticks); [by auto| |by auto|];
    (destruct (f _) as [[a w']|e] eqn:Hf; cbn; [|by auto];
     destruct (Hok _ _ _ Hg1 HJ1 Hf); split; [|done]; eapply good_step; [done|by right]).
Qed.

Lemma triple_look {A} (J : world → Prop) `{!Stable J} (f : world → result ErrorKind.t A) :
  (∀ w, J w → X w) → triple X J (look f) (λ r w, J w ∧ ∀ a, r = Ok a → f w = Ok a).
Proof.
  intros HX. apply triple_call; [done|done| |by intros].
  intros w a w' Hg HJ. destruct (f w) as [a'|] eqn:Hf; [|done]. cbn. intros [= <- <-].
  split; [|naive_solver]. split; [apply extends_refl|]. intros i _. apply frozen_refl.
Qed.

Lemma triple_at_tick {A} P (m : nat → lio A) Q :
  (∀ tick, triple X P (m tick) Q) → triple X P (at_tick m) Q.
Proof. intros Hm w Hg HP ticks fuse. by apply (Hm ticks). Qed.

Lemma triple_or_io_look {A} op (J : world → Prop) `{!Stable J} (f : world → result ErrorKind.t A) :
  (∀ w, J w → X w) → triple X J (or_io op (look f)) (λ a w, J w ∧ f w = Ok a).
Proof.
  intros HX. apply triple_or_io. eapply triple_conseq; [by apply triple_look|done|].
  intros [a|e] w; naive_solver.
Qed.

(** A look whose answer is not used. *)
Lemma triple_keep {A} op J `{!Stable J} (f : world → result ErrorKind.t A) :
  (∀ w, J w → X w) → triple X J (or_io op (look f)) (λ _, J).
Proof. intros HX. eapply triple_conseq; [by apply triple_or_io_look|done|naive_solver]. Qed.
End rules.
End triples.
