(* ===== verification/LooseRuns.v ===== *)
(** * What a run of the loose-object store does

    Triples for the operations of the store: under every behaviour of the other processes,
    every failure and every interruption, each step of this process keeps to the guarantee,
    and what an operation returns is true of the published objects. *)

From stdpp Require Import gmap.
From S2P Require Import Prelude Machine Order Utf8 Canonical CanonicalFacts ObjectId Types Objects Decode DecodeFacts Storable ObjectSpec StoreModel FileTree LooseFrame LoosePlatform LooseStore LooseFacts.
Import World LooseStoreError LooseObjectStore.

(** The directories of the store are apart. *)
Definition apart (self : LooseObjectStore.t) : Prop :=
  ∀ p n, p = temporary self ∨ p = quarantine self → ¬ loose self `prefix_of` p ++ [n].

Lemma layout_apart control : apart (layout control).
Proof.
  intros p n [->| ->] [r Hr]; cbn in Hr; rewrite <-!app_assoc in Hr;
    apply app_inv_head in Hr; cbn in Hr; by injection Hr.
Qed.

(** A published file under its only name, and its content. *)
Definition linked (self : LooseObjectStore.t) (p : path) (i : ino) (w : world) : Prop :=
  loose self `prefix_of` p ∧ only_name w p i.
Definition recorded (self : LooseObjectStore.t) (p : path) (i : ino) (bytes : list Z) (w : world) : Prop :=
  linked self p i w ∧ files w !! i = Some bytes.

Section operations.
Context `{Unicode, DigestLaws, System} (self : LooseObjectStore.t) `{!Others self} (w0 : world).
Context (Hapart : apart self).
Notation triple := (triple self w0).
Notation good := (good self w0).
Notation any := (λ _ : world, True).

#[local] Instance stable_loose_entry p e :
  loose self `prefix_of` p → Stable self (λ w, names w !! p = Some e).
Proof. intros Hp w w' _ [He _]. by apply He. Qed.

#[local] Instance stable_linked p i : Stable self (linked self p i).
Proof.
  intros w w' _ [He _] [Hp Ho]. split; [done|]. eapply frozen_only_name; [|done].
  eapply (ext_files _ _ _ He); [done|]. by apply Ho.
Qed.

#[local] Instance stable_recorded p i bytes : Stable self (recorded self p i bytes).
Proof.
  intros w w' Hok Hr [Hl Hc]. split; [by eapply stable_linked|]. destruct Hl as [Hp Ho].
  destruct Hr as [He _]. destruct (ext_files _ _ _ He p i Hp) as [-> _]; [by apply Ho|done].
Qed.

Lemma triple_injected X P point : (∀ w, P w → X w) → triple X P (injected point) (λ _, P).
Proof. intros HX. eapply triple_conseq; [by apply triple_pure|done|naive_solver]. Qed.

Lemma triple_fill_random op J `{!Stable self J} : triple any J (or_io op fill_random) (λ _, J).
Proof.
  apply triple_or_io, triple_at_tick. intros tick.
  eapply triple_conseq; [by apply triple_look|done|]. intros []; naive_solver.
Qed.

(** ** Writing *)

(** Other files of this process that a write leaves alone. *)
Definition beside (i : ino) (K : world → Prop) : Prop :=
  ∀ w w', (∀ j, j ≠ i → frozen j w w') → K w → K w'.

Lemma triple_write X p i bytes chunk K `{!Stable self K} : (∀ w, K w → X w) → beside i K →
  triple X (λ w, mine self p i bytes w ∧ K w) (write i chunk)
    (λ r w, match r with
            | Ok n => 0 ≤ n ∧ mine self p i (bytes ++ firstn (Z.to_nat n) chunk) w ∧ K w
            | Err _ => mine self p i bytes w ∧ K w
            end).
Proof.
  intros HX Hbeside. apply triple_at_tick. intros tick.
  apply (triple_call self w0 X (λ w, mine self p i bytes w ∧ K w)); [naive_solver|..].
  - intros w1 n w2 Hg1 [Hm HK]. cbn. intros [= <- <-]. rewrite Nat2Z.id.
    destruct (write_step self p i bytes (firstn (Nat.min (accepts tick) (length chunk)) chunk) w1 Hm)
      as (HG & Hm' & Hfr).
    split_and!; [done|lia|done|]. by eapply Hbeside.
  - by intros w1 e [Hm HK].
Qed.

Lemma triple_write_loop X fuel p i bytes rest K `{!Stable self K} : (∀ w, K w → X w) → beside i K →
  triple X (λ w, mine self p i bytes w ∧ K w) (write_loop fuel i rest)
    (λ r w, match r with Ok _ => mine self p i (bytes ++ rest) w | Err _ => True end ∧ K w).
Proof.
  intros HX Hbeside. revert bytes rest.
  induction fuel as [|fuel IH]; intros bytes [|b rest]; cbn [write_loop].
  1,3: apply triple_ret; rewrite app_nil_r; naive_solver.
  - intros w Hg [Hm HK] ticks fuse'. split; [done|]. by apply HX.
  - eapply triple_bind; [by apply triple_write|]. intros [n|e]; cbn beta iota.
    + assert (∀ P, (n = 0 → P (ret (Err ErrorKind.WriteZero))) →
        (n ≠ 0 → P (write_loop fuel i (skipn (Z.to_nat n) (b :: rest)))) →
        P (match n with 0 => ret (Err ErrorKind.WriteZero)
           | _ => write_loop fuel i (skipn (Z.to_nat n) (b :: rest)) end)) as Hcase
        by (intros P H0' H1'; destruct n; auto).
      apply (Hcase (λ m, triple _ _ m _)); intros Hn.
      * apply triple_ret. naive_solver.
      * eapply triple_conseq; [apply (IH (bytes ++ firstn (Z.to_nat n) (b :: rest)))|naive_solver|].
        intros r w _. by rewrite <-app_assoc, take_drop.
    + destruct e; try (apply triple_ret; naive_solver). apply IH.
Qed.

Lemma triple_write_complete X op p i bytes K `{!Stable self K} : (∀ w, K w → X w) → beside i K →
  triple X (λ w, mine self p i [] w ∧ K w) (or_io op (write_complete i bytes))
    (λ _ w, mine self p i bytes w ∧ K w).
Proof.
  intros HX HK. apply triple_or_io. eapply triple_conseq; [by apply (triple_write_loop X _ p i [])|done|].
  intros [[]|e] w; naive_solver.
Qed.

(** ** Reading *)

Lemma triple_verify X i expected J `{!Stable self J} : (∀ w, J w → X w) →
  triple X J (verify_open_file i expected None) (λ _, J).
Proof.
  intros HX. eapply triple_bind; [by apply triple_keep|]. intros [length links]. cbn beta iota.
  destruct (_ <? _); [by apply triple_raise|]. destruct (negb _); [by apply triple_raise|].
  eapply triple_bind; [by apply triple_keep|]. intros ?. cbn beta.
  eapply triple_bind; [by apply triple_map_err, triple_keep|]. intros content. cbn beta.
  eapply triple_conseq; [by apply triple_pure|done|naive_solver].
Qed.

Lemma triple_open_regular X parent name op J `{!Stable self J} : (∀ w, J w → X w) →
  loose self `prefix_of` parent ++ [name] →
  triple X J (open_regular_at parent name op) (λ i w, J w ∧ linked self (parent ++ [name]) i w).
Proof.
  intros HX Hp. eapply triple_bind; [by apply triple_or_io_look|]. intros [i|]; cbn beta iota.
  - apply (triple_pre _ _ _ (λ w, J w ∧ names w !! (parent ++ [name]) = Some (Regular i))).
    + intros w _ [HJ Hn]. split; [done|]. unfold entry_at in Hn.
      destruct (parent ++ [name]) eqn:Hpn; [by destruct parent|].
      destruct (names w !! _) as [[]|]; naive_solver.
    + pose proof (stable_loose_entry (parent ++ [name]) (Regular i) Hp).
      eapply triple_bind; [apply triple_or_io_look; [apply _|apply _|naive_solver]|]. intros [length links]. cbn beta iota.
      destruct (bool_decide (links = 1%nat)) eqn:Hl; cbn; [|apply triple_raise; naive_solver].
      apply triple_ret. intros w [[HJ Hn] [= <- Hlinks]]. split; [done|]. split; [done|].
      apply nlink_one; [done|]. apply bool_decide_eq_true in Hl. congruence.
  - apply (triple_pre _ _ _ J); [naive_solver|].
    eapply triple_bind; [by apply triple_keep|]. intros ?. cbn beta. by apply triple_raise.
Qed.

Lemma recorded_content p i frame bytes w : linked self p i w → world_ok w →
  len frame ≤ ABSOLUTE_RECORD_MAX → default [] (files w !! i) = bytes →
  firstn (Z.to_nat (ABSOLUTE_RECORD_MAX + 1)) bytes = frame → recorded self p i frame w.
Proof.
  intros Hl Hok Hlen Hbytes Hf. split; [done|]. destruct Hl as [_ Ho].
  destruct (proj1 Hok p i ltac:(by apply Ho)) as [content Hc]. rewrite Hc in *. cbn in Hbytes. subst content.
  f_equal. assert (length bytes ≤ Z.to_nat (ABSOLUTE_RECORD_MAX + 1))%nat as Hle.
  { destruct (decide (length bytes ≤ Z.to_nat (ABSOLUTE_RECORD_MAX + 1))%nat) as [|Hgt]; [done|].
    exfalso. rewrite <-Hf in Hlen. unfold len in Hlen. rewrite length_take in Hlen.
    unfold ABSOLUTE_RECORD_MAX in *. lia. }
  by rewrite take_ge in Hf.
Qed.

Lemma triple_existing_matches id frame parent name J `{!Stable self J} :
  loose self `prefix_of` parent ++ [name] → len frame ≤ ABSOLUTE_RECORD_MAX →
  triple any J (existing_matches id frame parent name)
    (λ b w, J w ∧ (b = true → ∃ i, recorded self (parent ++ [name]) i frame w)).
Proof.
  intros Hp Hlen. set (p := parent ++ [name]) in *. eapply triple_bind.
  { apply (triple_attempt self w0 any J); [by apply triple_open_regular|done|done]. }
  intros [i|e]; cbn beta iota; [|apply triple_ret; naive_solver].
  set (K := λ w, J w ∧ linked self p i w). assert (Stable self K) as HK by apply _.
  eapply triple_bind. { apply (triple_attempt self w0 any K); [by apply triple_verify|done|done]. }
  intros valid. apply (triple_pre _ _ _ K); [by destruct valid|].
  eapply triple_bind; [by apply triple_look|]. intros rewound. cbn beta.
  eapply triple_bind with (R := λ r w, K w ∧ ∀ bytes, r = Ok bytes → default [] (files w !! i) = bytes).
  { destruct rewound; [|apply triple_ret; naive_solver].
    eapply triple_conseq; [by apply triple_look|naive_solver|].
    intros r w _ [HKw Hr]. split; [done|]. intros bytes ->. specialize (Hr bytes eq_refl). congruence. }
  intros bytes. apply (triple_pre _ _ _ (λ w, good w ∧ K w ∧
    ∀ bs, bytes = Ok bs → default [] (files w !! i) = bs)); [naive_solver|].
  apply triple_ret. intros w ([_ Hok] & [HJ Hl] & Hb). split; [done|].
  destruct valid, bytes as [bytes|]; try done. intros Heq%bool_decide_eq_true. exists i.
  apply (recorded_content _ _ _ bytes); try done. by apply Hb.
Qed.

(** ** New files and directories *)

(** What a new file leaves alone, and later writes to it as well. *)
Definition unborn (K : world → Prop) : Prop :=
  ∀ w w' i, files w !! i = None → (∀ j, j ≠ i → frozen j w w') → K w → K w' ∧ beside i K.

Lemma unborn_any : unborn any.
Proof. by intros w w' i _ _ _. Qed.

Lemma unborn_mine p i bytes : unborn (mine self p i bytes).
Proof.
  intros w w' j Hj Hfr Hm. assert (i ≠ j) as Hij by (intros ->; destruct Hm as (_ & _ & _ & Hc); congruence).
  split; [by eapply frozen_mine; [apply Hfr|]|]. intros w1 w2 Hfr'. by apply frozen_mine, Hfr'.
Qed.

Lemma triple_create X parent name K `{!Stable self K} :
  (∀ w, K w → X w) → unborn K → ¬ loose self `prefix_of` parent ++ [name] →
  triple X K (create_file_at parent name)
    (λ r w, K w ∧ ∀ i, r = Ok i → mine self (parent ++ [name]) i [] w ∧ beside i K).
Proof.
  intros HX HK Hp. apply triple_call; [apply _|apply _|done| |by intros].
  intros w i w' [_ Hok] HKw.
  destruct (entry_at w (parent ++ [name])) eqn:Hn; [done|].
  destruct (entry_at w parent) as [[]|] eqn:Hpar; try done. intros [= <- <-].
  destruct (create_step self parent name w Hp Hok Hn Hpar) as (HG & Hfr & Hm & Hnew).
  destruct (HK _ _ _ Hnew Hfr HKw) as [HK' Hb]. split; [done|]. split; [done|].
  by intros i [= <-].
Qed.

Lemma temporary_name_marker entropy : temporary self ++ [temporary_name entropy] ∉ markers self.
Proof.
  unfold markers. rewrite !elem_of_cons.
  intros [[_ H']%app_inj_tail|[[_ H']%app_inj_tail|H'%not_elem_of_nil]]; done.
Qed.

Lemma triple_create_temporary attempts :
  triple any any (create_temporary_loop attempts self)
    (λ r w, mine self (temporary self ++ [r.1]) r.2 [] w ∧ temporary self ++ [r.1] ∉ markers self).
Proof.
  induction attempts as [|attempts IH]; cbn [create_temporary_loop]; [by apply triple_raise|].
  eapply triple_bind; [apply triple_fill_random, _|]. intros entropy. cbn beta zeta.
  eapply triple_bind; [apply triple_create; [apply _|done|apply unborn_any|apply Hapart; by left]|].
  intros [i|e]; cbn beta iota.
  - apply triple_ret. intros w [_ Hm]. destruct (Hm i eq_refl) as [Hm' _]. split; [done|].
    apply temporary_name_marker.
  - apply (triple_pre _ _ _ any); [done|]. destruct e; try by apply triple_raise. apply IH.
Qed.

Lemma triple_create_directory op parent name K `{!Stable self K} :
  (∀ w w', (∀ j, frozen j w w') → K w → K w') →
  triple any K (or_io op (create_directory_at parent name)) (λ _, K).
Proof.
  intros HK. apply triple_or_io. eapply triple_bind.
  - apply (triple_call self w0 any K _ (λ _, K)); [done| |done].
    intros w [] w' Hg HKw Hd. destruct (mkdir_step self _ _ _ Hd) as (HG & Hfr & _). eauto.
  - intros r. apply triple_ret. by destruct r as [|[]].
Qed.

Lemma triple_create_fanout current components K `{!Stable self K} :
  (∀ w w', (∀ j, frozen j w w') → K w → K w') →
  triple any K (create_fanout_loop current components) (λ d w, K w ∧ d = current ++ components).
Proof.
  intros HK. revert current. induction components as [|c components IH]; intros current; cbn [create_fanout_loop].
  { apply triple_ret. intros w HKw. by rewrite app_nil_r. }
  eapply triple_bind; [by apply triple_create_directory|]. intros created. cbn beta.
  eapply triple_bind; [apply triple_or_io_look; [apply _|apply _|done]|]. intros child. cbn beta.
  apply (triple_pre _ _ _ (λ w, K w ∧ child = current ++ [c])).
  { intros w _ [HKw Hc]. split; [done|]. destruct (entry_at w (current ++ [c])) as [[]|]; naive_solver. }
  eapply triple_bind with (R := λ _ w, K w ∧ child = current ++ [c]).
  { destruct created; [|by apply triple_ret].
    eapply triple_bind; [apply triple_keep; [apply _|apply _|done]|]. intros ?. cbn beta.
    apply triple_keep; [apply _|apply _|done]. }
  intros ?. cbn beta. intros w Hg [HKw ->].
  eapply outcome_mono; [by apply (IH (current ++ [c]))| |done].
  intros d w' (Hg' & HKw' & ->). by rewrite <-app_assoc.
Qed.

(** ** Publication *)

(** What is known of an object before its record is written. *)
Definition framed (id : ObjectId) (payload frame : list Z) : Prop :=
  ∃ o, oid_ok id = true ∧ is_bytes payload = true ∧
    AnyObject.decode_verified payload id bulk = Ok o ∧ encode_frame id o payload = Ok frame.

Lemma framed_holds w id payload frame i : framed id payload frame →
  recorded self (object_path self id) i frame w → holds self w id payload i.
Proof. intros (o & ? & ? & ? & ?) [[_ Ho] Hc]. by exists o, frame. Qed.

(** The place of an object, as the store walks to it. *)
Lemma object_path_walk id : let '(components, name) := path_components id in
  object_path self id = (loose self ++ components) ++ [name].
Proof. unfold object_path. destruct (path_components id). by rewrite <-app_assoc. Qed.

Lemma triple_rename_beside p name i frame dparent dname K `{!Stable self K} (Q : world → Prop) :
  p = temporary self ++ [name] → p ∉ markers self → beside i K →
  (∀ w w', good w → guarantee self process w w' → only_name w' (dparent ++ [dname]) i →
    files w' !! i = Some frame → K w' → Q w') →
  (loose self `prefix_of` dparent ++ [dname] → ∀ w, only_name w (dparent ++ [dname]) i →
    files w !! i = Some frame → published self w (dparent ++ [dname]) i) →
  triple any (λ w, mine self p i frame w ∧ K w) (rename_no_replace_at (temporary self) name dparent dname)
    (λ r w, match r with Ok _ => Q w | Err _ => mine self p i frame w ∧ K w end).
Proof.
  intros -> Hmark HK HQ Hpub. apply triple_call; [apply _|apply _|done| |by intros].
  intros w [] w' Hg [Hm HKw]. pose proof Hm as (_ & _ & Ho & Hc).
  assert (names w !! (temporary self ++ [name]) = Some (Regular i)) as Hsrc by by apply Ho.
  rewrite !entry_at_snoc, Hsrc. set (d := dparent ++ [dname]) in *.
  destruct (names w !! d) eqn:Hd; [done|]. destruct (entry_at w dparent) as [[]|] eqn:Hpar; try done.
  intros [= <-].
  destruct (rename_step self (temporary self ++ [name]) i frame d w Hmark Hm Hd) as (HG & Hon & Hfi).
  { subst d. unfold parent_of. by rewrite removelast_snoc. }
  { intros Hl Hon. by apply Hpub. }
  split; [done|]. eapply HQ; [done..|]. eapply HK; [|done]. intros j Hj. by eapply rename_frozen.
Qed.

Lemma triple_rename p name i frame dparent dname (Q : world → Prop) :
  p = temporary self ++ [name] → p ∉ markers self →
  (∀ w w', good w → guarantee self process w w' → only_name w' (dparent ++ [dname]) i →
    files w' !! i = Some frame → Q w') →
  (loose self `prefix_of` dparent ++ [dname] → ∀ w, only_name w (dparent ++ [dname]) i →
    files w !! i = Some frame → published self w (dparent ++ [dname]) i) →
  triple any (mine self p i frame) (rename_no_replace_at (temporary self) name dparent dname)
    (λ r w, match r with Ok _ => Q w | Err _ => mine self p i frame w end).
Proof.
  intros Hp Hmark HQ Hpub. eapply triple_conseq;
    [apply (triple_rename_beside p name i frame dparent dname any Q); eauto; done|done|].
  intros [[]|e] w; naive_solver.
Qed.

(** ** Incidents *)

Lemma triple_store_incident K : (∀ w w', (∀ j, frozen j w w') → K w → K w') →
  triple any K (store_incident true) (λ _ w, K w ∧ incident w = true).
Proof.
  intros HK w Hg HKw ticks fuse. cbn. destruct (incident_step self w) as [HG Hfr].
  split; [eapply good_step; [done|by right]|]. eauto.
Qed.

(** Writing the marker, done or failed, leaves everything else alone. *)
Lemma triple_persist_marker directory K `{!Stable self K} :
  (directory = temporary self ∨ directory = quarantine self) → unborn K →
  triple K K (persist_marker directory) (λ _, K).
Proof.
  intros Hdir HK. eapply triple_bind; [apply triple_create; [apply _|done|done|by apply Hapart]|].
  intros r. cbn beta. eapply triple_bind with (R := λ _, K).
  - destruct r as [i|e]; cbn beta iota.
    + intros w Hg [HKw Hm]. destruct (Hm i eq_refl) as [Hmi Hb].
      refine (triple_bind self w0 K (λ w, mine self _ i [] w ∧ K w) _ _ _ _ _ _ w Hg (conj Hmi HKw)).
      * by apply triple_write_complete.
      * intros ?. cbn beta. apply (triple_pre _ _ _ K); [naive_solver|].
        apply triple_keep; [apply _|apply _|done].
    + destruct e; try (apply triple_raise; naive_solver). apply triple_ret. naive_solver.
  - intros ?. cbn beta. apply triple_keep; [apply _|apply _|done].
Qed.

Lemma triple_persist_incident K `{!Stable self K} : unborn K →
  triple any K (attempt (persist_incident self)) (λ _, K).
Proof.
  intros HK. eapply triple_conseq with (Q' := λ r w, match r with Ok _ => K w | Err _ => K w end);
    [|done|by intros []].
  apply (triple_attempt self w0 any K); [|done|done].
  eapply triple_bind.
  - apply (triple_attempt self w0 K K); [apply triple_persist_marker; [apply _|by right|done]|done|done].
  - intros [[]|e]; cbn beta iota; [by apply triple_ret|].
    apply triple_persist_marker; [apply _|by left|done].
Qed.

Lemma triple_quarantine attempts name i frame :
  temporary self ++ [name] ∉ markers self →
  triple any (mine self (temporary self ++ [name]) i frame) (quarantine_loop attempts self name) (λ _, any).
Proof.
  intros Hmark. induction attempts as [|attempts IH]; cbn [quarantine_loop]; [by apply triple_raise|].
  eapply triple_bind; [apply triple_fill_random, _|]. intros entropy. cbn beta.
  eapply triple_bind; [eapply (triple_rename _ name i frame _ _ any); [done|done|done|]|].
  - intros Hl. by apply Hapart in Hl; [|right].
  - intros [[]|e]; cbn beta iota; [by apply triple_ret|].
    destruct e; try by apply triple_raise. apply IH.
Qed.

(** Removing a file of this process leaves what is published, and its other files. *)
Lemma triple_remove op name i frame K `{!Stable self K} :
  (∀ w w', guarantee self process w w' → (∀ j, j ≠ i → frozen j w w') → K w → K w') →
  temporary self ++ [name] ∉ markers self →
  triple any (λ w, mine self (temporary self ++ [name]) i frame w ∧ K w)
    (or_io op (remove_file_at (temporary self) name)) (λ _, K).
Proof.
  intros HK Hmark. apply triple_or_io.
  apply (triple_call self w0 any (λ w, mine self _ i frame w ∧ K w)
    _ (λ r w, match r with Ok _ => K w | Err _ => True end)); [done| |done].
  intros w [] w' Hg [Hm Hh]. destruct (entry_at w _) as [[]|]; try done;
    (intros [= <-]; pose proof (remove_step self _ i frame w Hmark Hm) as HG; split; [done|];
     apply (HK w); [done| |done]; intros j Hj; by eapply remove_frozen).
Qed.

(** ** The whole operation *)

Lemma triple_resolve_existing id payload frame name i parent final :
  framed id payload frame → object_path self id = parent ++ [final] →
  temporary self ++ [name] ∉ markers self →
  triple any (mine self (temporary self ++ [name]) i frame)
    (resolve_existing self id frame name i parent final)
    (λ _ w, ∃ j, holds self w id payload j).
Proof.
  intros Hfr Hpath Hmark. set (M := mine self (temporary self ++ [name]) i frame).
  assert (len frame ≤ ABSOLUTE_RECORD_MAX) as Hlen.
  { destruct Hfr as (o & Hid & Hb & [Hd _]%decode_verified_Ok & Henc).
    apply decode_schema in Hd as [Hs _]; [|done|apply bulk_limits_ok].
    by destruct (frame_len id o payload frame Hid Hs Henc). }
  pose proof (object_path_loose self id) as Hl. rewrite Hpath in Hl.
  eapply triple_bind; [apply triple_existing_matches; [apply _|done|done]|].
  intros [|]; cbn beta iota.
  - apply (triple_pre _ _ _ (λ w, ∃ j, M w ∧ holds self w id payload j)).
    { intros w _ [HM Hrec]. destruct (Hrec eq_refl) as [j Hj]. exists j. split; [done|].
      eapply framed_holds; [done|by rewrite Hpath]. }
    apply triple_exists. intros j.
    eapply triple_bind; [apply (triple_remove _ name i frame (λ w, holds self w id payload j)); [|done]; intros w w' [He _] _; by apply extends_holds|].
    intros ?. cbn beta.
    eapply triple_bind; [apply triple_keep; [apply _|apply _|done]|]. intros ?. cbn beta.
    eapply triple_bind; [apply triple_keep; [apply _|apply _|done]|]. intros ?. cbn beta.
    apply triple_ret. by exists j.
  - apply (triple_pre _ _ _ M); [naive_solver|].
    eapply triple_bind; [apply triple_verify; [apply _|done]|]. intros ?. cbn beta.
    eapply triple_bind; [apply triple_store_incident|].
    { intros w w' Hf. by apply frozen_mine. }
    intros ?. cbn beta. apply (triple_pre _ _ _ M); [naive_solver|].
    eapply triple_bind; [apply triple_persist_incident; [apply _|apply unborn_mine]|]. intros ?. cbn beta.
    eapply triple_bind; [by apply triple_quarantine|]. intros ?. cbn beta.
    eapply triple_bind; [apply triple_keep; [apply _|apply _|done]|]. intros ?. cbn beta.
    eapply triple_bind; [apply triple_keep; [apply _|apply _|done]|]. intros ?. cbn beta.
    by apply triple_raise.
Qed.

Lemma triple_confirm expected id payload i parent final :
  object_path self id = parent ++ [final] →
  triple any (λ w, holds self w id payload i) (confirm_publication self expected parent final)
    (λ _ w, holds self w id payload i).
Proof.
  intros Hpath. set (K := λ w, holds self w id payload i).
  pose proof (object_path_loose self id) as Hl. rewrite Hpath in Hl.
  eapply triple_bind; [by apply triple_injected|]. intros ?. cbn beta.
  eapply triple_bind; [apply triple_open_regular; [apply _|done|done]|]. intros j. cbn beta.
  apply (triple_pre _ _ _ K); [naive_solver|].
  eapply triple_bind with (R := λ _, K).
  { apply triple_or_io. eapply triple_bind; [apply triple_look; [apply _|apply _|done]|].
    intros r. apply triple_ret. intros w [HK _]. by destruct r. }
  intros [|]; cbn [negb].
  - do 2 (eapply triple_bind; [apply triple_keep; [apply _|apply _|done]|]; intros ?; cbn beta).
    eapply triple_bind; [by apply triple_injected|]. intros ?. cbn beta. by apply triple_ret.
  - apply (triple_pre _ _ _ any); [done|].
    eapply triple_bind; [by apply triple_store_incident|]. intros ?. cbn beta.
    apply (triple_pre _ _ _ any); [done|].
    eapply triple_bind; [apply triple_persist_incident; [apply _|apply unborn_any]|]. intros ?.
    by apply triple_raise.
Qed.

Lemma verified_oid_ok payload id limits o : is_bytes payload = true → limits_ok limits →
  AnyObject.decode_verified payload id limits = Ok o → oid_ok id = true.
Proof.
  intros Hb Hl [Hd Hi]%decode_verified_Ok. rewrite (decode_id payload limits o _ Hb Hl Hd) in Hi.
  injection Hi as <-. apply oid_ok_spec. unfold from_payload. cbn.
  destruct (algorithm id); (split; [done|]); [apply sha256_len|apply blake3_len].
Qed.

(** The temporary file from its creation to its publication. *)
Lemma triple_publish_temporary id payload frame name i :
  let p := temporary self ++ [name] in
  framed id payload frame → p ∉ markers self →
  triple any (mine self p i []) (publish_temporary self id frame name i)
    (λ _ w, ∃ i, holds self w id payload i).
Proof.
  intros p Hfr Hmark. set (M := mine self p i).
  eapply triple_bind; [by apply triple_injected|]. intros ?. cbn beta.
  eapply triple_bind with (R := λ _, M frame).
  { eapply triple_conseq; [by apply (triple_write_complete any _ p i frame any)|done|naive_solver]. }
  intros ?. cbn beta.
  eapply triple_bind; [by apply triple_injected|]. intros ?. cbn beta.
  eapply triple_bind; [apply triple_keep; [apply _|apply _|done]|]. intros ?. cbn beta.
  eapply triple_bind; [by apply triple_injected|]. intros ?. cbn beta.
  eapply triple_bind; [apply triple_keep; [apply _|apply _|done]|]. intros expected. cbn beta.
  eapply triple_bind; [apply triple_verify; [apply _|done]|]. intros ?. cbn beta.
  eapply triple_bind; [by apply triple_injected|]. intros ?. cbn beta.
  pose proof (object_path_walk id) as Hwalk. unfold create_fanout. destruct (path_components id) as [components final].
  eapply triple_bind with (R := λ r w, r = (loose self ++ components, final) ∧ M frame w).
  { eapply triple_bind; [apply (triple_or_io_look _ _ any _ (M frame)); done|].
    intros current. apply (triple_pre _ _ _ (λ w, current = loose self ∧ M frame w)); [naive_solver|].
    apply triple_given. intros ->.
    eapply triple_bind; [apply (triple_create_fanout _ _ (M frame))|].
    - intros w w' Hf. by apply frozen_mine.
    - intros parent. apply triple_ret. intros w [HM ->]. done. }
  intros [parent fin]. cbn beta iota. apply triple_given. intros [= -> ->].
  eapply triple_bind; [by apply triple_injected|]. intros ?. cbn beta.
  eapply triple_bind; [by apply triple_injected|]. intros ?. cbn beta.
  eapply triple_bind.
  { apply (triple_rename p name i frame _ _ (λ w, holds self w id payload i)); [done|done|..].
    - intros w w' _ _ Hon Hfi. eapply framed_holds; [done|]. rewrite Hwalk. split; [|done].
      split; [|done]. rewrite <-Hwalk. apply object_path_loose.
    - intros Hl w Hon Hfi. exists id, payload. split; [done|].
      eapply framed_holds; [done|]. by rewrite Hwalk. }
  intros [[]|e]; cbn beta iota.
  - eapply triple_conseq; [by apply (triple_confirm expected id payload i)|done|]. intros r w _ Hh. by exists i.
  - destruct e; try by apply triple_raise. by apply triple_resolve_existing.
Qed.

Lemma triple_put id payload : is_bytes payload = true →
  triple any any (put self id payload) (λ _ w, ∃ i, holds self w id payload i).
Proof.
  intros Hb. eapply triple_bind with (R := λ _, any); [by intros w Hg _ ticks fuse|].
  intros [|]; cbn beta iota; [by apply triple_raise|].
  eapply triple_bind; [by apply triple_pure|]. intros o. cbn beta.
  apply (triple_pre _ _ _ (λ w, AnyObject.decode_verified payload id bulk = Ok o ∧ True)).
  { by intros w _ [_ Hd%map_err_Ok]. }
  apply triple_given. intros Hdec. eapply triple_bind; [by apply triple_pure|]. intros frame. cbn beta.
  apply (triple_pre _ _ _ (λ w, encode_frame id o payload = Ok frame ∧ True)); [naive_solver|].
  apply triple_given. intros Henc.
  assert (framed id payload frame) as Hfr.
  { exists o. split_and!; try done. by eapply verified_oid_ok; [|apply bulk_limits_ok|]. }
  eapply triple_bind; [by apply triple_injected|]. intros ?. cbn beta.
  eapply triple_bind; [apply triple_create_temporary|]. intros [name i]. cbn [fst snd].
  apply (triple_pre _ _ _ (λ w, temporary self ++ [name] ∉ markers self ∧
    mine self (temporary self ++ [name]) i [] w)); [naive_solver|].
  apply triple_given. intros Hmark. by apply triple_publish_temporary.
Qed.
End operations.
