(* ===== verification/LooseOpen.v ===== *)
(** * Opening the loose-object store

    Opening creates the missing directories, probes whether the system can publish without
    replacing, and looks for the marker of an earlier incident. *)

From stdpp Require Import gmap.
From S2P Require Import Prelude Machine Order Utf8 Canonical ObjectId Types Objects Decode FileTree LooseFrame LoosePlatform LooseStore LooseFacts LooseRuns.
Import World LooseStoreError LooseObjectStore.

(** A call does not report that a name is missing unless it is. *)
Class Honest `{System} : Prop := honest n : denies n ≠ Some ErrorKind.NotFound.

Section opening.
Context `{Unicode, DigestLaws, System} (self : LooseObjectStore.t) `{!Others self} (w0 : world).
Context (Hapart : apart self).
Notation triple := (triple self w0).
Notation any := (λ _ : world, True).

Lemma probe_name_marker stem suffix : temporary self ++ [probe_name stem suffix] ∉ markers self.
Proof.
  unfold markers. rewrite !elem_of_cons.
  intros [[_ H']%app_inj_tail|[[_ H']%app_inj_tail|H'%not_elem_of_nil]]; done.
Qed.

Lemma triple_look_any {A} (f : world → result ErrorKind.t A) : triple any any (look f) (λ _, any).
Proof. eapply triple_conseq; [by apply (triple_look self w0 any any)|done|done]. Qed.

Lemma triple_keep_any {A} op (f : world → result ErrorKind.t A) : triple any any (or_io op (look f)) (λ _, any).
Proof. apply triple_keep; [apply _|apply _|done]. Qed.

Lemma mine_beside p i bytes j : j ≠ i → beside j (mine self p i bytes).
Proof. intros Hj w w' Hfr. apply frozen_mine, Hfr. congruence. Qed.

(** ** The probe *)

(** The two files of the probe, and what is done with them. *)
Lemma triple_probe_files source occupied published i j bytes :
  let p n := temporary self ++ [n] in
  (∀ n, n ∈ [source; occupied; published] → p n ∉ markers self) →
  i ≠ j →
  triple any (λ w, mine self (p source) i bytes w ∧ mine self (p occupied) j [] w)
    (do! collision := rename_no_replace_at (temporary self) source (temporary self) occupied in
     match collision with
     | Err ErrorKind.AlreadyExists =>
         do! _ := io_map_err (λ _, UnsupportedPlatform)
           (or_io "rename" (rename_no_replace_at (temporary self) source (temporary self) published)) in
         do! _ := io_map_err (λ _, UnsupportedPlatform) (or_io "sync" (sync_handle (temporary self))) in
         do! _ := io_each (λ name, or_io "remove capability probe" (remove_file_at (temporary self) name))
                    [occupied; published] in
         io_map_err (λ _, UnsupportedPlatform) (or_io "sync" (sync_handle (temporary self)))
     | _ => raise UnsupportedPlatform
     end) (λ _, any).
Proof.
  intros p Hmark Hij. set (K := mine self (p occupied) j []).
  assert (∀ n, ¬ loose self `prefix_of` p n) as Hp by (intros n; apply Hapart; by left).
  assert (beside i K) as HK by by apply mine_beside.
  apply (triple_pre _ _ _ (λ w, i.1 = process ∧ mine self (p source) i bytes w ∧ K w)).
  { intros w _ [Hm HKw]. split; [apply Hm|done]. }
  apply triple_given. intros Hi. eapply triple_bind.
  { apply (triple_rename_beside self w0 (p source) source i bytes (temporary self) occupied K any);
      [done|apply Hmark; set_solver|done|done|]. by intros ?%Hp. }
  intros [[]|[]]; cbn beta iota; try by apply triple_raise.
  eapply triple_bind with (R := λ _ w, mine self (p published) i bytes w ∧ K w).
  { apply triple_map_err, triple_or_io. eapply triple_conseq;
      [apply (triple_rename_beside self w0 (p source) source i bytes (temporary self) published K
         (λ w, mine self (p published) i bytes w ∧ K w)); [done|apply Hmark; set_solver|done| |]|done|].
    - intros w w' _ _ Hon Hf HKw. split; [|done]. split_and!; [done|apply Hp|done|done].
    - by intros ?%Hp.
    - intros [[]|e] w; naive_solver. }
  intros ?. cbn beta.
  eapply triple_bind; [apply triple_map_err, triple_keep; [apply _|apply _|done]|]. intros ?. cbn beta.
  eapply triple_bind with (R := λ _, any).
  { cbn [io_each]. eapply triple_bind.
    - eapply triple_pre; [|apply (triple_remove self w0 _ occupied j [] (mine self (p published) i bytes));
        [|apply Hmark; set_solver]]; [naive_solver|].
      intros w w' _ Hfr. by apply frozen_mine, Hfr.
    - intros ?. cbn beta. eapply triple_bind.
      + eapply triple_pre; [|apply (triple_remove self w0 _ published i bytes any);
          [done|apply Hmark; set_solver]]. naive_solver.
      + intros ?. by apply triple_ret. }
  intros ?. cbn beta. by apply triple_map_err, triple_keep_any.
Qed.

Lemma triple_probe : triple any any (probe_publication_capabilities (temporary self)) (λ _, any).
Proof.
  assert (∀ n, ¬ loose self `prefix_of` temporary self ++ [n]) as Hp by (intros n; apply Hapart; by left).
  eapply triple_bind; [by apply (triple_fill_random self w0 _ any)|]. intros entropy. cbn beta zeta.
  set (source := probe_name _ _). set (occupied := probe_name _ _). set (final := probe_name _ _).
  set (p n := temporary self ++ [n]).
  eapply triple_bind with (R := λ i, mine self (p source) i []).
  { apply triple_or_io. eapply triple_conseq; [apply (triple_create self w0 any _ _ any); [done|apply unborn_any|apply Hp]|done|].
    intros [i|e] w; naive_solver. }
  intros i. cbn beta.
  eapply triple_bind with (R := λ _, mine self (p source) i (lit "probe")).
  { eapply triple_conseq; [by apply (triple_write_complete self w0 any _ (p source) i (lit "probe") any)|done|naive_solver]. }
  intros ?. cbn beta.
  eapply triple_bind; [apply triple_keep; [apply _|apply _|done]|]. intros ?. cbn beta.
  eapply triple_bind with (R := λ j w, i ≠ j ∧ mine self (p source) i (lit "probe") w ∧ mine self (p occupied) j [] w).
  { apply triple_or_io. eapply triple_conseq;
      [apply (triple_create self w0 any _ _ (mine self (p source) i (lit "probe"))); [done|apply unborn_mine|apply Hp]|done|].
    intros [j|e] w _ [Hm Hj]; [|done]. destruct (Hj j eq_refl) as [Hj' _]. split_and!; [|done|done].
    intros <-. destruct Hm as (_ & _ & _ & Hf), Hj' as (_ & _ & _ & Hf'). by rewrite Hf in Hf'. }
  intros j. cbn beta. apply triple_given. intros Hij.
  eapply triple_bind; [apply triple_keep; [apply _|apply _|done]|]. intros ?. cbn beta.
  apply triple_probe_files; [|done]. intros n. rewrite !elem_of_cons.
  intros [->|[->|[->|?%not_elem_of_nil]]]; [apply probe_name_marker..|done].
Qed.

(** ** Opening *)

Lemma triple_open_or_create parent name :
  triple any any (open_or_create_directory parent name) (λ d _, d = parent ++ [name]).
Proof.
  eapply triple_bind; [by apply (triple_create_directory self w0 _ parent name any)|]. intros created. cbn beta.
  eapply triple_bind with (R := λ d _, d = parent ++ [name]).
  { eapply triple_conseq; [by apply (triple_or_io_look self w0 any _ any)|done|].
    intros d w _ [_ Hd]. destruct (entry_at w _) as [[]|]; naive_solver. }
  intros d. destruct created; [|by apply triple_ret].
  do 2 (eapply triple_bind; [by apply (triple_keep self w0 any _ (λ _, d = parent ++ [name]))|]; intros ?; cbn beta).
  by apply triple_ret.
Qed.

Lemma triple_reject_link p : triple any any (reject_link p) (λ _, any).
Proof.
  eapply triple_bind; [apply triple_keep_any|]. intros e. cbn beta.
  destruct e; first [by apply triple_ret|by apply triple_raise].
Qed.

Lemma triple_ensure_directory p op : triple any any (ensure_directory p op) (λ _, any).
Proof.
  pose proof (triple_reject_link p) as Hreject.
  eapply triple_bind; [apply triple_look_any|]. intros [[]|[]]; cbn beta iota;
    try first [by apply triple_ret|by apply triple_raise].
  eapply triple_bind with (R := λ _, any).
  { apply triple_call; [apply _|apply _|done| |done]. intros w [] w' Hg _ Hd. split; [|done].
    by destruct (mkdir_step self _ _ _ Hd). }
  intros [[]|[]]; cbn beta iota; try first [by apply triple_ret|by apply triple_raise].
  eapply triple_bind; [exact Hreject|]. intros ?. by apply triple_ret.
Qed.

Lemma triple_filesystems root children : triple any any (ensure_handle_filesystems root children) (λ _, any).
Proof.
  eapply triple_bind; [apply triple_keep_any|]. intros device. cbn beta.
  induction children as [|c children IH]; cbn [io_each]; [by apply triple_ret|].
  eapply triple_bind; [|intros ?; exact IH].
  eapply triple_bind; [apply triple_keep_any|]. intros d. cbn beta.
  destruct (negb _); first [by apply triple_raise|by apply triple_ret].
Qed.

(** A marker that was there at the start is found. *)
Lemma triple_marker `{!Honest} directory : directory ++ [INCIDENT] ∈ markers self →
  triple any any (marker_may_exist directory)
    (λ b _, is_Some (names w0 !! (directory ++ [INCIDENT])) → b = true).
Proof.
  intros Hmark w Hg _ ticks fuse. unfold marker_may_exist, open_file_at, look, call, io_bind.
  assert (good self w0 (interfere ticks w)) as Hg1.
  { eapply good_step; [done|left]. by apply others_rely, Hg. }
  pose proof (moves_extends _ _ _ _ (proj1 Hg1)) as He.
  destruct fuse as [[|n]|]; [done|..]; cbn -[INCIDENT];
    (destruct (denies ticks) as [e|] eqn:Hd;
     [cbn -[INCIDENT]; split; [done|]; intros _; destruct e; try done; by apply honest in Hd|]);
    rewrite entry_at_snoc;
    (destruct (names (interfere ticks w) !! (directory ++ [INCIDENT])) as [[]|] eqn:Hn; cbn -[INCIDENT];
     (split; [done|]); intros Hs; try done;
     apply (ext_markers _ _ _ He) in Hs; [|done]; rewrite Hn in Hs; by destruct Hs).
Qed.
End opening.

Lemma triple_open_layout `{Unicode, DigestLaws, System, !Honest} control w0 :
  let self := layout control in
  Others self →
  triple self w0 (λ _, True) (λ _, True) (open_layout control)
    (λ r _, r.1 = self ∧ ((∃ p, p ∈ markers self ∧ is_Some (names w0 !! p)) → r.2 = true)).
Proof.
  intros self Hot. pose proof (layout_apart control) as Hap. set (any := λ _ : world, True).
  assert (∀ {A B} (P : Prop) (m : lio A) R (k : A → lio B) Q, triple self w0 any any m R →
    (∀ a, triple self w0 any (R a) (k a) Q) → triple self w0 any (λ _, P) (io_bind m k) Q) as Hbind.
  { intros A B P m R k Q Hm Hk. eapply triple_bind; [|exact Hk]. by eapply triple_pre; [|exact Hm]. }
  eapply Hbind; [by apply triple_ensure_directory|]. intros ?. cbn beta.
  eapply Hbind; [by apply triple_reject_link|]. intros ?. cbn beta.
  eapply (triple_bind self w0 any) with (R := λ d _, d = control ∧ True).
  { eapply triple_conseq; [by apply (triple_or_io_look self w0 any _ any)|done|].
    intros d w _ [_ Hd]. destruct (entry_at w _) as [[]|]; naive_solver. }
  intros d. cbn beta. apply triple_given. intros ->.
  do 4 (eapply Hbind; [by apply triple_open_or_create|]; intros ?; cbn beta;
        eapply triple_pre; [intros ? _ Heq; exact (conj Heq Logic.I)|]; apply triple_given; intros ->).
  eapply Hbind; [by apply triple_filesystems|]. intros ?. cbn beta.
  eapply Hbind; [by apply (triple_probe self)|]. intros ?. cbn beta.
  eapply Hbind; [apply (triple_marker self); [done|left]|]. intros first. cbn beta.
  eapply triple_pre; [intros ? _ Heq; exact (conj Heq Logic.I)|]. apply triple_given. intros Hfirst.
  eapply (triple_bind self w0 any) with (R := λ found _,
    (∃ p, p ∈ markers self ∧ is_Some (names w0 !! p)) → found = true).
  - destruct first; [by apply triple_ret|].
    eapply triple_conseq; [apply (triple_marker self); [done|right; left]|done|].
    intros found w _ Hfound (p & Hp & Hs). unfold markers in Hp. rewrite !elem_of_cons in Hp.
    destruct Hp as [->|[->|?%not_elem_of_nil]]; [by discriminate Hfirst|by apply Hfound|done].
  - intros found. apply triple_ret. by intros w Hf.
Qed.
