(* ===== verification/LooseReturns.v ===== *)
(** * Runs of the loose-object store on a system that answers

    When no call fails and nothing cuts the run off, the operations return. The rules here
    are total: they establish that a run returns, and what it returns. *)

From stdpp Require Import gmap.
From S2P Require Import Prelude Machine Order Utf8 Canonical CanonicalFacts ObjectId Types Objects Decode DecodeFacts Storable ObjectSpec StoreModel FileTree LooseFrame LoosePlatform LooseStore LooseFacts LooseRuns.
Import World LooseStoreError LooseObjectStore.

(** The system answers: no call fails, no failure is injected, writes make progress. *)
Class Answers `{System} : Prop := {
  answers_calls n : denies n = None;
  answers_checks point : check point = Ok tt;
  answers_writes n : (0 < accepts n)%nat }.

Section rules.
Context `{System, !Answers}.

(** What others do not disturb before the next call. *)
Class Undisturbed (J : world → Prop) : Prop :=
  undisturbed n w : world_ok w → J w → world_ok (interfere n w) ∧ J (interfere n w).

(** From a world satisfying [P] the run of [m] returns, in [Q]. *)
Definition returns {A} (P : world → Prop) (m : lio A) (Q : A → world → Prop) : Prop :=
  ∀ w ticks, world_ok w → P w → ∃ a w' ticks',
    m (State.mk w ticks, None) = (Ok a, (State.mk w' ticks', None)) ∧ world_ok w' ∧ Q a w'.

Lemma returns_ret {A} (a : A) P (Q : A → world → Prop) : (∀ w, P w → Q a w) → returns P (ret a) Q.
Proof. intros HQ w ticks Hok HP. eexists _, _, _. split; [done|]. auto. Qed.

Lemma returns_bind {A B} P (m : lio A) (f : A → lio B) R Q :
  returns P m R → (∀ a, returns (R a) (f a) Q) → returns P (io_bind m f) Q.
Proof.
  intros Hm Hf w ticks Hok HP. destruct (Hm w ticks Hok HP) as (a & w1 & t1 & Hr & Hok1 & HR).
  destruct (Hf a w1 t1 Hok1 HR) as (b & w2 & t2 & Hr2 & Hok2 & HQ).
  exists b, w2, t2. split; [|done]. unfold io_bind. by rewrite Hr.
Qed.

Lemma returns_pre {A} (P' P : world → Prop) (m : lio A) Q :
  (∀ w, world_ok w → P w → P' w) → returns P' m Q → returns P m Q.
Proof. intros HP Hm w ticks Hok Hw. apply Hm; auto. Qed.

Lemma returns_post {A} P (m : lio A) (Q Q' : A → world → Prop) :
  returns P m Q' → (∀ a w, world_ok w → Q' a w → Q a w) → returns P m Q.
Proof.
  intros Hm HQ w ticks Hok HP. destruct (Hm w ticks Hok HP) as (a & w1 & t1 & Hr & Hok1 & HR). eauto 10.
Qed.

Lemma returns_given {A} (φ : Prop) P (m : lio A) Q :
  (φ → returns P m Q) → returns (λ w, φ ∧ P w) m Q.
Proof. intros Hm w ticks Hok [Hφ HP]. by apply Hm. Qed.

Lemma returns_pure {A} (r : result lerr A) (a : A) P (Q : A → world → Prop) :
  r = Ok a → (∀ w, P w → Q a w) → returns P (pure_result r) Q.
Proof. intros -> HQ w ticks Hok HP. eexists a, w, ticks. split; [done|]. auto. Qed.

Lemma returns_attempt {A} P (m : lio A) Q : returns P m Q →
  returns P (attempt m) (λ r w, ∃ a, r = Ok a ∧ Q a w).
Proof.
  intros Hm w ticks Hok HP. destruct (Hm w ticks Hok HP) as (a & w1 & t1 & Hr & Hok1 & HR).
  exists (Ok a), w1, t1. unfold attempt. rewrite Hr. eauto.
Qed.

(** A run that returns or raises an error, which [Q] tells. *)
Definition ends {A} (P : world → Prop) (m : lio A) (Q : result lerr A → world → Prop) : Prop :=
  returns P (attempt m) Q.

Lemma ends_bind {A B} P (m : lio A) (f : A → lio B) R Q :
  returns P m R → (∀ a, ends (R a) (f a) Q) → ends P (io_bind m f) Q.
Proof.
  intros Hm Hf w ticks Hok HP. destruct (Hm w ticks Hok HP) as (a & w1 & t1 & Hr & Hok1 & HR).
  destruct (Hf a w1 t1 Hok1 HR) as (b & w2 & t2 & Hr2 & HQ).
  exists b, w2, t2. split; [|done]. rewrite <-Hr2. unfold attempt, io_bind. by rewrite Hr.
Qed.

Lemma ends_raise {A} e P (Q : result lerr A → world → Prop) : (∀ w, P w → Q (Err e) w) → ends P (raise e) Q.
Proof. intros HQ w ticks Hok HP. eexists _, _, _. split; [done|]. auto. Qed.

Lemma ends_pure {A} (r : result lerr A) P (Q : result lerr A → world → Prop) :
  (∀ w, P w → Q r w) → ends P (pure_result r) Q.
Proof. intros HQ w ticks Hok HP. exists r, w, ticks. split; [by destruct r|]. auto. Qed.

Lemma returns_map_err {A} f P (m : lio A) Q : returns P m Q → returns P (io_map_err f m) Q.
Proof.
  intros Hm. eapply returns_bind; [by apply returns_attempt|]. intros r.
  intros w ticks Hok (a & -> & HQ). by apply (returns_ret a (λ w, Q a w) Q).
Qed.

Lemma returns_call {A} (J : world → Prop) `{!Undisturbed J} (f : world → result ErrorKind.t (A * world))
    (Q : result ErrorKind.t A → world → Prop) :
  (∀ w, world_ok w → J w → match f w with
                           | Ok (a, w') => world_ok w' ∧ Q (Ok a) w'
                           | Err e => Q (Err e) w
                           end) →
  returns J (call f) Q.
Proof.
  intros Hf w ticks Hok HJ. unfold call. rewrite answers_calls.
  destruct (undisturbed ticks w Hok HJ) as [Hok1 HJ1]. specialize (Hf _ Hok1 HJ1).
  destruct (f _) as [[a w']|e]; cbn; [destruct Hf|]; by eexists _, _, _.
Qed.

Lemma returns_look {A} (J : world → Prop) `{!Undisturbed J} (f : world → result ErrorKind.t A) :
  returns J (look f) (λ r w, r = f w ∧ J w).
Proof. apply returns_call; [done|]. intros w Hok HJ. by destruct (f w) eqn:Hf; cbn. Qed.

Lemma returns_or_io {A} op P (m : lio (result ErrorKind.t A)) (Q : A → world → Prop) :
  returns P m (λ r w, ∃ a, r = Ok a ∧ Q a w) → returns P (or_io op m) Q.
Proof.
  intros Hm. eapply returns_bind; [exact Hm|]. intros r w ticks Hok (a & -> & HQ).
  by apply (returns_ret a (λ w, Q a w) Q).
Qed.

(** A call that cannot fail on such worlds. *)
Lemma returns_or_io_look {A} op (J : world → Prop) `{!Undisturbed J} (f : world → result ErrorKind.t A)
    (Q : A → world → Prop) :
  (∀ w, world_ok w → J w → ∃ a, f w = Ok a ∧ Q a w) → returns J (or_io op (look f)) Q.
Proof.
  intros Hf. apply returns_or_io. eapply returns_post; [by apply returns_look|].
  intros r w Hok [-> HJ]. by apply Hf.
Qed.

Lemma returns_at_tick {A} P (m : nat → lio A) Q :
  (∀ tick, returns P (m tick) Q) → returns P (at_tick m) Q.
Proof. intros Hm w ticks Hok HP. by apply (Hm ticks). Qed.

Lemma returns_injected point P : returns P (injected point) (λ _, P).
Proof. by apply (returns_pure _ tt); [apply answers_checks|]. Qed.
End rules.

(** ** Reading what is published *)

Section reading.
Context `{Unicode, DigestLaws, System, !Answers} (self : LooseObjectStore.t).

(** A file that others leave alone, with a record that verifies. *)
Lemma returns_verify i p id payload o frame J `{!Undisturbed J} :
  (∀ w, world_ok w → J w → names w !! p = Some (Regular i) ∧ only_name w p i ∧ files w !! i = Some frame) →
  is_bytes payload = true → is_bytes frame = true → oid_ok id = true →
  AnyObject.decode_verified payload id bulk = Ok o → encode_frame id o payload = Ok frame →
  returns J (verify_open_file i (Some id) None) (λ r w, r = VerifiedRecord.mk payload o ∧ J w).
Proof.
  intros HJ Hb Hfb Hid Hdec Henc. apply decode_verified_Ok in Hdec as Hd. destruct Hd as [Hd _].
  apply decode_schema in Hd as [Hs _]; [|done|apply bulk_limits_ok].
  destruct (frame_len id o payload frame Hid Hs Henc) as [_ Hmax].
  eapply returns_bind with (R := λ r w, r = (len frame, 1%nat) ∧ J w).
  { apply returns_or_io_look; [done|]. intros w Hok HJw. destruct (HJ w Hok HJw) as (Hn & Ho & Hf).
    eexists. split; [done|]. rewrite Hf. split; [|done]. f_equal. by apply (nlink_one w p). }
  intros [length links]. cbn beta iota. apply returns_given. intros [= -> ->].
  rewrite (proj2 (Z.ltb_ge _ _)) by lia. rewrite bool_decide_true by done. cbn [negb].
  eapply returns_bind with (R := λ _, J); [by apply returns_or_io_look; [|eauto]|]. intros ?. cbn beta.
  eapply returns_bind with (R := λ r w, r = frame ∧ J w).
  { apply returns_map_err, returns_or_io_look; [done|]. intros w Hok HJw.
    destruct (HJ w Hok HJw) as (Hn & Ho & Hf). eexists. split; [done|]. by rewrite Hf. }
  intros content. cbn beta. apply returns_given. intros ->.
  eapply (returns_pure _ (VerifiedRecord.mk payload o)); [|done].
  apply parse_iff; [done|unfold u64_max, ABSOLUTE_RECORD_MAX in *; lia|]. exists id. split_and!; [done|by right|done..].
Qed.

Lemma returns_open_regular parent name op p i J `{!Undisturbed J} :
  p = parent ++ [name] →
  (∀ w, world_ok w → J w → names w !! p = Some (Regular i) ∧ only_name w p i) →
  returns J (open_regular_at parent name op) (λ j w, j = i ∧ J w).
Proof.
  intros -> HJ. eapply returns_bind with (R := λ r w, r = HFile i ∧ J w).
  { apply returns_or_io_look; [done|]. intros w Hok HJw. destruct (HJ w Hok HJw) as [Hn _].
    rewrite entry_at_snoc, Hn. by eexists. }
  intros r. cbn beta. apply returns_given. intros ->.
  eapply returns_bind with (R := λ r w, r.2 = 1%nat ∧ J w).
  { apply returns_or_io_look; [done|]. intros w Hok HJw. destruct (HJ w Hok HJw) as [Hn Ho].
    eexists. split; [done|]. split; [|done]. by apply (nlink_one w (parent ++ [name])). }
  intros [length links]. cbn beta iota. apply returns_given. cbn. intros ->.
  rewrite bool_decide_true by done. by apply returns_ret.
Qed.

(** The directories above an entry. *)
Lemma world_ok_above w p q e : world_ok w → q ≠ [] → names w !! (p ++ q) = Some e →
  entry_at w p = Some Directory.
Proof.
  intros Hok. revert e. induction q as [|n q IH] using rev_ind; intros e Hne He; [done|].
  rewrite app_assoc in He. apply (proj2 Hok) in He.
  destruct q as [|m q]; [by rewrite app_nil_r in He|].
  apply (IH Directory); [done|]. unfold entry_at in He. by destruct (p ++ m :: q) eqn:Hp; [destruct p|].
Qed.

Lemma returns_open_fanout current components rest e J `{!Undisturbed J} :
  rest ≠ [] → (∀ w, world_ok w → J w → names w !! (current ++ components ++ rest) = Some e) →
  returns J (open_fanout_loop current components) (λ d w, d = current ++ components ∧ J w).
Proof.
  intros Hne. revert current. induction components as [|c components IH]; intros current HJ; cbn [open_fanout_loop].
  { apply returns_ret. intros w HJw. by rewrite app_nil_r. }
  eapply returns_bind with (R := λ d w, d = current ++ [c] ∧ J w).
  { apply returns_or_io_look; [done|]. intros w Hok HJw. specialize (HJ w Hok HJw).
    rewrite (world_ok_above w (current ++ [c]) (components ++ rest) e); [by eexists|done| |].
    - by destruct components, rest.
    - by rewrite <-app_assoc. }
  intros d. cbn beta. apply returns_given. intros ->. eapply returns_post; [apply IH|].
  - intros w Hok HJw. rewrite <-app_assoc. by apply HJ.
  - intros d w _ [-> HJw]. by rewrite <-app_assoc.
Qed.

Lemma returns_clone op d J `{!Undisturbed J} : returns J (or_io op (try_clone d)) (λ r w, r = d ∧ J w).
Proof. apply returns_or_io_look; [done|]. eauto. Qed.

(** Reading a published object returns its payload. *)
Lemma returns_open_record id payload o frame i J `{!Undisturbed J} :
  (∀ w, world_ok w → J w → only_name w (object_path self id) i ∧ files w !! i = Some frame) →
  is_bytes payload = true → is_bytes frame = true → oid_ok id = true →
  AnyObject.decode_verified payload id bulk = Ok o → encode_frame id o payload = Ok frame →
  returns J (open_record self id) (λ r w, r = VerifiedRecord.mk payload o ∧ J w).
Proof.
  intros HJ Hb Hfb Hid Hdec Henc. unfold open_record, open_fanout.
  assert (∀ w, world_ok w → J w → names w !! object_path self id = Some (Regular i) ∧
    only_name w (object_path self id) i ∧ files w !! i = Some frame) as HJ'.
  { intros w Hok HJw. destruct (HJ w Hok HJw) as [Ho Hf]. split; [by apply Ho|done]. }
  pose proof (object_path_walk self id) as Hwalk.
  destruct (path_components id) as [components name] eqn:Hpc.
  eapply returns_bind with (R := λ r w, r = (loose self ++ components, name) ∧ J w).
  { apply returns_map_err. eapply returns_bind; [by apply returns_clone|].
    intros current. cbn beta. apply returns_given. intros ->. eapply returns_bind.
    - apply (returns_open_fanout _ _ [name] (Regular i) J); [done|]. intros w Hok HJw.
      rewrite app_assoc, <-Hwalk. by apply HJ'.
    - intros d. cbn beta. apply returns_given. intros ->. by apply returns_ret. }
  intros [d n]. cbn beta iota. apply returns_given. intros [= -> ->].
  eapply returns_bind with (R := λ j w, j = i ∧ J w).
  { apply returns_map_err, (returns_open_regular _ _ _ (object_path self id)); [done|done|].
    intros w Hok HJw. destruct (HJ' w Hok HJw) as (? & ? & _). done. }
  intros j. cbn beta. apply returns_given. intros ->. by eapply returns_verify.
Qed.
End reading.

(** Looking at what is there ends, whatever is found. *)
Section settles.
Context `{Unicode, Digests, System, !Answers}.

Lemma ends_or_io_look {A} op (J : world → Prop) `{!Undisturbed J} (f : world → result ErrorKind.t A) :
  ends J (or_io op (look f)) (λ _, J).
Proof.
  eapply ends_bind; [by apply returns_look|]. intros r. cbn beta.
  apply (returns_pre J); [naive_solver|]. destruct r; [|by apply ends_raise].
  eapply returns_post; [by apply returns_attempt, (returns_ret a J (λ _, J))|]. naive_solver.
Qed.

Lemma ends_bind_look {A B} op (J : world → Prop) `{!Undisturbed J} (f : world → result ErrorKind.t A)
    (k : A → lio B) Q :
  (∀ a, ends J (k a) Q) → (∀ e w, J w → Q (Err e) w) → ends J (io_bind (or_io op (look f)) k) Q.
Proof.
  intros Hk He w ticks Hok HJ. destruct (ends_or_io_look op J f w ticks Hok HJ) as (r & w1 & t1 & Hr & Hok1 & HJ1).
  destruct r as [a|e].
  - destruct (Hk a w1 t1 Hok1 HJ1) as (b & w2 & t2 & Hr2 & HQ). exists b, w2, t2. split; [|done].
    rewrite <-Hr2. revert Hr. unfold attempt, io_bind.
    destruct (or_io op (look f) _) as [[|[]] ?]; intros [=]; by subst.
  - exists (Err e), w1, t1. split; [|auto]. revert Hr. unfold attempt, io_bind.
    destruct (or_io op (look f) _) as [[|[]] ?]; intros [=]; by subst.
Qed.

Lemma ends_map_err {A} f (m : lio A) (J : world → Prop) : ends J m (λ _, J) → ends J (io_map_err f m) (λ _, J).
Proof.
  intros Hm. eapply ends_bind; [exact Hm|]. intros [a|e]; cbn beta; [|by apply ends_raise].
  eapply returns_post; [by apply returns_attempt, (returns_ret a J (λ _, J))|]. naive_solver.
Qed.

Lemma ends_open_regular parent name op J `{!Undisturbed J} : ends J (open_regular_at parent name op) (λ _, J).
Proof.
  apply ends_bind_look; [done| |done]. intros [i|].
  - apply ends_bind_look; [done| |done]. intros [length links]. cbn beta iota.
    destruct (negb _); [by apply ends_raise|].
    eapply returns_post; [by apply returns_attempt, (returns_ret i J (λ _, J))|]. naive_solver.
  - apply ends_bind_look; [done| |done]. intros ?. by apply ends_raise.
Qed.

Lemma ends_verify i expected J `{!Undisturbed J} : ends J (verify_open_file i expected None) (λ _, J).
Proof.
  apply ends_bind_look; [done| |done]. intros [length links]. cbn beta iota.
  destruct (_ <? _); [by apply ends_raise|]. destruct (negb _); [by apply ends_raise|].
  apply ends_bind_look; [done| |done]. intros ?.
  eapply ends_bind with (R := λ _, J).
  - apply returns_map_err, returns_or_io_look; [done|]. eauto.
  - intros content. by apply ends_pure.
Qed.

Lemma returns_existing_matches id frame parent name J `{!Undisturbed J} :
  returns J (existing_matches id frame parent name) (λ _, J).
Proof.
  eapply returns_bind; [apply ends_open_regular, _|]. intros [i|e]; cbn beta iota; [|by apply returns_ret].
  eapply returns_bind; [apply ends_verify, _|]. intros valid. cbn beta.
  eapply returns_bind with (R := λ _, J).
  { eapply returns_post; [by apply returns_look|]. naive_solver. }
  intros rewound. cbn beta. eapply returns_bind with (R := λ _, J); [|by intros; apply returns_ret].
  destruct rewound; [|by apply returns_ret]. eapply returns_post; [by apply returns_look|]. naive_solver.
Qed.
End settles.
