(* ===== verification/LoosePut.v ===== *)
(** * [put] on a system that answers, alone

    The three ways [put] ends when nothing fails: the object is new, it is already there, or
    something else is at its place. *)

From stdpp Require Import gmap.
From S2P Require Import Prelude Machine Order Utf8 Canonical CanonicalFacts ObjectId Types Objects Decode DecodeFacts Storable ObjectSpec StoreModel FileTree LooseFrame LoosePlatform LooseStore LooseFacts LooseRuns LooseReturns.
Import World LooseStoreError LooseObjectStore.

(** No other process acts. *)
Class Alone `{System} : Prop := alone n w : interfere n w = w.

#[global] Instance undisturbed_alone `{System, !Alone} J : Undisturbed J.
Proof. intros n w Hok HJ. by rewrite alone. Qed.

#[global] Instance others_alone `{Unicode, Digests, System, !Alone} self : Others self.
Proof. intros n w _. rewrite alone. apply rely_refl. Qed.

Section put.
Context `{Unicode, DigestLaws, System, !Answers, !Alone} (self : LooseObjectStore.t).
Context (Hapart : apart self).

Lemma returns_keep {A} op J (f : world → result ErrorKind.t A) :
  (∀ w, ∃ a, f w = Ok a) → returns J (or_io op (look f)) (λ _, J).
Proof.
  intros Hf. apply returns_or_io_look; [apply _|]. intros w _ HJ. destruct (Hf w) as [a Ha]. eauto.
Qed.

(** ** The temporary file *)

(** The world after this process has put [bytes] into a new file at [p]. *)
Definition with_file (w : world) (p : path) (i : ino) (bytes : list Z) : world :=
  set_files <[i := bytes]> (set_names <[p := Regular i]> w).

Lemma returns_create w parent name :
  ¬ loose self `prefix_of` parent ++ [name] → world_ok w →
  entry_at w (parent ++ [name]) = None → entry_at w parent = Some Directory →
  returns (λ w', w' = w) (create_file_at parent name)
    (λ r w', r = Ok (fresh_ino w) ∧ w' = with_file w (parent ++ [name]) (fresh_ino w) [] ∧
             mine self (parent ++ [name]) (fresh_ino w) [] w').
Proof.
  intros Hp Hok Hn Hd. apply returns_call; [apply _|]. intros w' _ ->. rewrite Hn, Hd.
  destruct (create_step self parent name w Hp Hok Hn Hd) as (HG & _ & Hm & _).
  split; [by apply HG|]. done.
Qed.

Lemma returns_write_loop w p i bytes rest fuel :
  (length rest ≤ fuel)%nat → mine self p i bytes (with_file w p i bytes) →
  returns (λ w', w' = with_file w p i bytes) (write_loop fuel i rest)
    (λ r w', r = Ok tt ∧ w' = with_file w p i (bytes ++ rest) ∧ mine self p i (bytes ++ rest) w').
Proof.
  revert bytes rest. induction fuel as [|fuel IH]; intros bytes [|b rest] Hf Hm;
    try (cbn in Hf; lia); cbn [write_loop].
  1,2: apply returns_ret; intros w' ->; by rewrite app_nil_r.
  eapply returns_bind with (R := λ r w', ∃ n, (0 < n ≤ length (b :: rest))%nat ∧ r = Ok (Z.of_nat n) ∧
    w' = with_file w p i (bytes ++ firstn n (b :: rest)) ∧
    mine self p i (bytes ++ firstn n (b :: rest)) w').
  { apply returns_at_tick. intros tick. apply returns_call; [apply _|]. intros w' Hok ->.
    set (n := Nat.min _ _). pose proof (answers_writes tick).
    destruct (write_step self p i bytes (firstn n (b :: rest)) _ Hm) as (HG & Hm' & _).
    assert (set_files (alter (λ content, content ++ firstn n (b :: rest)) i) (with_file w p i bytes)
      = with_file w p i (bytes ++ firstn n (b :: rest))) as Heq.
    { unfold with_file, set_files. cbn. f_equal. by rewrite alter_insert_eq. }
    split; [by apply HG|]. exists n. rewrite Heq in Hm' |- *. split; [cbn in *; lia|done]. }
  intros r w' ticks Hok (n & Hn & -> & -> & Hm').
  destruct (IH (bytes ++ firstn n (b :: rest)) (skipn n (b :: rest))) with (3 := Hok) (ticks := ticks)
    as (r & w2 & t2 & Hr & Hok2 & HQ); [rewrite length_skipn; cbn in *; lia|done|done|].
  exists r, w2, t2. rewrite <-app_assoc, take_drop in HQ. split; [|done]. rewrite <-Hr.
  destruct (Z.of_nat n) eqn:En; [lia| |lia]. by rewrite <-En, Nat2Z.id.
Qed.

(** Creating the temporary file: the first name is free. *)
Lemma returns_temporary w :
  world_ok w → entry_at w (temporary self) = Some Directory →
  (∀ n, entry_at w (temporary self ++ [temporary_name (random n)]) = None) →
  returns (λ w', w' = w) (create_temporary self)
    (λ r w', ∃ n, r = (temporary_name (random n), fresh_ino w) ∧
      w' = with_file w (temporary self ++ [temporary_name (random n)]) (fresh_ino w) [] ∧
      mine self (temporary self ++ [temporary_name (random n)]) (fresh_ino w) [] w').
Proof.
  intros Hok Hd Hfree. unfold create_temporary. cbn [create_temporary_loop TEMP_ATTEMPTS].
  eapply returns_bind with (R := λ r w', (∃ n, r = random n) ∧ w' = w).
  { apply returns_or_io, returns_at_tick. intros n. eapply returns_post; [apply returns_look, _|].
    intros r w' _ [-> ->]. eauto 10. }
  intros entropy. cbn beta. apply returns_given. intros [n ->].
  eapply returns_bind; [apply (returns_create w); [apply Hapart; by left|done|done|done]|].
  intros r. cbn beta. apply returns_given. intros ->. apply returns_ret. intros w' Hw'. by exists n.
Qed.

(** ** The directories *)

(** The way to an entry that exists is there already. *)
Lemma returns_fanout_present current components rest e J :
  rest ≠ [] → (∀ w, world_ok w → J w → names w !! (current ++ components ++ rest) = Some e) →
  returns J (create_fanout_loop current components) (λ d w, d = current ++ components ∧ J w).
Proof.
  intros Hne. revert current. induction components as [|c components IH]; intros current HJ;
    cbn [create_fanout_loop]. { apply returns_ret. intros w HJw. by rewrite app_nil_r. }
  assert (∀ w, world_ok w → J w → entry_at w (current ++ [c]) = Some Directory) as Hd.
  { intros w Hok HJw. specialize (HJ w Hok HJw).
    apply (world_ok_above w _ (components ++ rest) e); [done|by destruct components, rest|].
    by rewrite <-app_assoc. }
  eapply returns_bind with (R := λ r w, r = false ∧ J w).
  { apply returns_or_io. eapply returns_bind.
    - apply (returns_call J _ (λ r w, r = Err ErrorKind.AlreadyExists ∧ J w)). intros w Hok HJw.
      unfold mkdir. by rewrite (Hd w).
    - intros r. cbn beta. apply returns_given. intros ->. apply returns_ret. eauto. }
  intros r. cbn beta. apply returns_given. intros ->.
  eapply returns_bind with (R := λ d w, d = current ++ [c] ∧ J w).
  { apply returns_or_io_look; [apply _|]. intros w Hok HJw. rewrite (Hd w) by done. eauto. }
  intros d. cbn beta. apply returns_given. intros ->.
  eapply returns_bind; [by apply (returns_ret tt _ (λ _, J))|]. intros ?. cbn beta.
  eapply returns_post; [apply IH|].
  - intros w Hok HJw. rewrite <-app_assoc. by apply HJ.
  - intros d w _ [-> HJw]. by rewrite <-app_assoc.
Qed.

(** A way that is clear: directories, then nothing. *)
Definition clear_way (w : world) (current : path) (components : list str) (name : str) : Prop :=
  entry_at w current = Some Directory ∧
  (∀ d, d `prefix_of` components → entry_at w (current ++ d) = None ∨ entry_at w (current ++ d) = Some Directory) ∧
  names w !! (current ++ components ++ [name]) = None.

Lemma clear_way_next w current c components name :
  clear_way w current (c :: components) name →
  let w' := set_names <[current ++ [c] := Directory]> w in
  (entry_at w (current ++ [c]) = None → clear_way w' (current ++ [c]) components name) ∧
  (entry_at w (current ++ [c]) = Some Directory → clear_way w (current ++ [c]) components name).
Proof.
  intros (Hc & Hway & Hend) w'.
  assert (∀ d, d `prefix_of` components → entry_at w ((current ++ [c]) ++ d) = None ∨
    entry_at w ((current ++ [c]) ++ d) = Some Directory) as Hway'.
  { intros d Hd. rewrite <-app_assoc. apply (Hway (c :: d)). by apply prefix_cons. }
  assert (names w !! ((current ++ [c]) ++ components ++ [name]) = None) as Hend' by by rewrite <-app_assoc.
  split; intros Hn; (split; [|split]); try done.
  - rewrite entry_at_snoc. cbn. by rewrite lookup_insert_eq.
  - intros d Hd. destruct (Hway' d Hd) as [Hx|Hx].
    + destruct d as [|x d _] using rev_ind.
      * right. rewrite app_nil_r, entry_at_snoc. cbn. by rewrite lookup_insert_eq.
      * left. rewrite app_assoc, entry_at_snoc in Hx |- *. cbn. rewrite lookup_insert_ne; [done|].
        intros Heq%(f_equal length). rewrite !length_app in Heq. cbn in Heq. lia.
    + right. destruct ((current ++ [c]) ++ d) as [|y q] eqn:Hq; [done|]. cbn in Hx |- *.
      rewrite lookup_insert. by case_decide.
  - cbn. rewrite lookup_insert_ne; [done|]. intros Heq%(f_equal length).
    rewrite !length_app in Heq. cbn in Heq. lia.
Qed.

Lemma returns_fanout_clear current components name K :
  (∀ w w', (∀ j, frozen j w w') → K w → K w') →
  returns (λ w, K w ∧ clear_way w current components name) (create_fanout_loop current components)
    (λ d w, d = current ++ components ∧ K w ∧ clear_way w d [] name).
Proof.
  intros HK. revert current. induction components as [|c components IH]; intros current; cbn [create_fanout_loop].
  { apply returns_ret. intros w Hw. by rewrite app_nil_r. }
  set (J := λ w, K w ∧ clear_way w (current ++ [c]) components name).
  eapply returns_bind with (R := λ _, J).
  { apply returns_or_io. eapply returns_bind.
    - apply (returns_call _ _ (λ r w, (r = Ok tt ∨ r = Err ErrorKind.AlreadyExists) ∧ J w)).
      intros w Hok [HKw Hway]. destruct (clear_way_next _ _ _ _ _ Hway) as [Hnew Hold].
      destruct (mkdir (current ++ [c]) w) as [[[] w']|e] eqn:Hmk.
      + destruct (mkdir_step self _ _ _ Hmk) as (HG & Hfr & _). split; [by apply HG|].
        split; [by left|]. split; [by eapply HK|]. revert Hmk. unfold mkdir.
        destruct (entry_at w (current ++ [c])); [done|].
        destruct (entry_at w (parent_of _)) as [[]|]; try done. intros [= <-]. by apply Hnew.
      + revert Hmk. unfold mkdir. destruct Hway as (Hc & Hway & _).
        destruct (Hway [c]) as [Hx|Hx]; [by apply prefix_cons, prefix_nil|..]; rewrite Hx.
        * unfold parent_of. by rewrite removelast_snoc, Hc.
        * intros [= <-]. split; [by right|]. split; [done|]. by apply Hold.
    - intros r. apply returns_ret. intros w [[->| ->] HJw]; eauto. }
  intros created. cbn beta.
  eapply returns_bind with (R := λ d w, d = current ++ [c] ∧ J w).
  { apply returns_or_io_look; [apply _|]. intros w _ HJw. assert (J w) as (_ & Hc & _) by done.
    rewrite Hc. eauto. }
  intros d. cbn beta. apply returns_given. intros ->.
  eapply returns_bind with (R := λ _, J).
  { destruct created; [|by apply returns_ret].
    eapply returns_bind; [by apply returns_keep; eauto|]. intros ?. by apply returns_keep; eauto. }
  intros ?. cbn beta. eapply returns_post; [apply IH|]. intros d w _ (-> & Hw). by rewrite <-app_assoc in Hw |- *.
Qed.

(** ** Publication *)

(** From the temporary file to the rename, when the way to the object is made. *)
Lemma ends_publish w id payload o frame name i parent final J Q :
  let p := temporary self ++ [name] in
  is_bytes payload = true → oid_ok id = true →
  AnyObject.decode_verified payload id bulk = Ok o → encode_frame id o payload = Ok frame →
  mine self p i [] (with_file w p i []) →
  returns (λ w', w' = with_file w p i frame ∧ mine self p i frame w') (create_fanout self id)
    (λ r w', r = (parent, final) ∧ J w') →
  ends J
    (do! renamed := rename_no_replace_at (temporary self) name parent final in
     match renamed with
     | Ok _ => confirm_publication self (FileIdentity.mk (file_device i) i (len frame)) parent final
     | Err ErrorKind.AlreadyExists => resolve_existing self id frame name i parent final
     | Err error => raise (Io "publish object without replacement" error)
     end) Q →
  ends (λ w', w' = with_file w p i []) (publish_temporary self id frame name i) Q.
Proof.
  intros p Hb Hid Hdec Henc Hm Hfan Hren. set (K := λ w', w' = with_file w p i frame ∧ mine self p i frame w').
  eapply ends_bind; [apply returns_injected|]. intros ?. cbn beta.
  eapply ends_bind with (R := λ _, K).
  { apply returns_or_io. eapply returns_post; [apply (returns_write_loop w p i [] frame); [lia|done]|].
    intros r w' _ (-> & Hw). by exists tt. }
  intros ?. cbn beta. eapply ends_bind; [apply returns_injected|]. intros ?. cbn beta.
  eapply ends_bind; [by apply returns_keep; eauto|]. intros ?. cbn beta.
  eapply ends_bind; [apply returns_injected|]. intros ?. cbn beta.
  eapply ends_bind with (R := λ r w', r = FileIdentity.mk (file_device i) i (len frame) ∧ K w').
  { apply returns_or_io_look; [apply _|]. intros w' _ [-> HM]. eexists. split; [done|].
    destruct HM as (? & ? & ? & Hf). rewrite Hf. done. }
  intros expected. cbn beta. apply returns_given. intros ->.
  eapply ends_bind.
  { apply decode_verified_Ok in Hdec as Hd. destruct Hd as [Hd _].
    apply decode_schema in Hd as [Hs _]; [|done|apply bulk_limits_ok].
    apply (returns_verify i p id payload o frame K); try done; [|by eapply frame_is_bytes].
    intros w' _ [_ (_ & _ & Ho & Hf)]. split; [by apply Ho|done]. }
  intros ?. cbn beta. apply (returns_pre K); [naive_solver|].
  eapply ends_bind; [apply returns_injected|]. intros ?. cbn beta.
  eapply ends_bind; [exact Hfan|]. intros [d f]. cbn beta iota. apply returns_given. intros [= -> ->].
  eapply ends_bind; [apply returns_injected|]. intros ?. cbn beta.
  eapply ends_bind; [apply returns_injected|]. intros ?. cbn beta. exact Hren.
Qed.

(** The record lands where nothing was. *)
Lemma ends_new id payload frame name i parent final :
  let p := temporary self ++ [name] in
  framed id payload frame → object_path self id = parent ++ [final] → p ∉ markers self →
  ends (λ w, mine self p i frame w ∧ clear_way w parent [] final)
    (do! renamed := rename_no_replace_at (temporary self) name parent final in
     match renamed with
     | Ok _ => confirm_publication self (FileIdentity.mk (file_device i) i (len frame)) parent final
     | Err ErrorKind.AlreadyExists => resolve_existing self id frame name i parent final
     | Err error => raise (Io "publish object without replacement" error)
     end)
    (λ r w, r = Ok PutLooseOutcome.New ∧ ∃ j, holds self w id payload j).
Proof.
  intros p Hfr Hpath Hmark.
  set (H' := λ w, recorded self (parent ++ [final]) i frame w).
  eapply ends_bind with (R := λ r w, r = Ok tt ∧ H' w).
  { apply returns_call; [apply _|]. intros w Hok (Hm & Hd & _ & Hn). cbn in Hn.
    assert (names w !! p = Some (Regular i)) as Hp by (destruct Hm as (_ & _ & Ho & _); by apply Ho).
    rewrite Hd, !entry_at_snoc. fold p. rewrite Hp, Hn.
    destruct (rename_step self p i frame (parent ++ [final]) w Hmark Hm Hn) as (HG & Hon & Hf).
    - unfold parent_of. by rewrite removelast_snoc.
    - intros Hl Hon. exists id, payload. split; [done|]. eapply framed_holds; [done|].
      rewrite Hpath. split; [done|]. by destruct Hm as (_ & _ & _ & ?).
    - split; [by apply HG|]. split; [done|]. split; [|done]. split; [|done].
      rewrite <-Hpath. apply object_path_loose. }
  intros r. cbn beta. apply returns_given. intros ->.
  eapply ends_bind; [apply returns_injected|]. intros ?. cbn beta.
  eapply ends_bind.
  { apply (returns_open_regular _ _ _ (parent ++ [final]) i H'); [done|]. intros w _ [[_ Ho] _].
    split; [by apply Ho|done]. }
  intros j. cbn beta. apply returns_given. intros ->.
  eapply ends_bind with (R := λ b w, b = true ∧ H' w).
  { apply returns_or_io. eapply returns_bind; [apply returns_look, _|]. intros r. apply returns_ret.
    intros w [-> HH]. destruct HH as [Hl Hf] eqn:E. exists true. rewrite Hf. cbn.
    by rewrite bool_decide_true. }
  intros b. cbn beta. apply returns_given. intros ->. cbn [negb].
  do 2 (eapply ends_bind; [by apply returns_keep; eauto|]; intros ?; cbn beta).
  eapply ends_bind; [apply returns_injected|]. intros ?. cbn beta.
  eapply returns_post; [by apply returns_attempt, (returns_ret _ H' (λ r w, r = PutLooseOutcome.New ∧ H' w))|].
  intros r w _ (? & -> & -> & HH). split; [done|]. exists i. eapply framed_holds; [done|]. by rewrite Hpath.
Qed.

(** Something is there already: the rename reports it and changes nothing. *)
Lemma returns_rename_occupied p name i frame parent final e J :
  p = temporary self ++ [name] →
  (∀ w, J w → mine self p i frame w ∧ names w !! (parent ++ [final]) = Some e) →
  returns J (rename_no_replace_at (temporary self) name parent final)
    (λ r w, r = Err ErrorKind.AlreadyExists ∧ J w).
Proof.
  intros -> HJ. apply returns_call; [apply _|]. intros w Hok HJw. destruct (HJ w HJw) as [(_ & _ & Ho & _) He].
  assert (names w !! (temporary self ++ [name]) = Some (Regular i)) as Hp by by apply Ho.
  rewrite !entry_at_snoc, Hp, He. done.
Qed.

(** The same record is there. *)
Lemma ends_already_present id payload frame name i j parent final :
  let p := temporary self ++ [name] in
  framed id payload frame → object_path self id = parent ++ [final] → p ∉ markers self →
  ends (λ w, mine self p i frame w ∧ recorded self (parent ++ [final]) j frame w)
    (resolve_existing self id frame name i parent final)
    (λ r w, r = Ok PutLooseOutcome.AlreadyPresent ∧ ∃ j, holds self w id payload j).
Proof.
  intros p Hfr Hpath Hmark. destruct Hfr as (o & Hid & Hb & Hdec & Henc) eqn:E. clear E.
  apply decode_verified_Ok in Hdec as Hd. destruct Hd as [Hd _].
  apply decode_schema in Hd as [Hs _]; [|done|apply bulk_limits_ok].
  destruct (frame_len id o payload frame Hid Hs Henc) as [_ Hmax].
  set (J := λ w, mine self p i frame w ∧ recorded self (parent ++ [final]) j frame w).
  assert (∀ w, J w → names w !! (parent ++ [final]) = Some (Regular j) ∧
    only_name w (parent ++ [final]) j ∧ files w !! j = Some frame) as HJ.
  { intros w [_ [[_ Ho] Hf]]. split; [by apply Ho|done]. }
  eapply ends_bind with (R := λ b w, b = true ∧ J w).
  { eapply returns_bind; [apply returns_attempt, (returns_open_regular _ _ _ (parent ++ [final]) j J); [done|]|].
    { intros w _ HJw. by destruct (HJ w HJw) as (? & ? & _). }
    intros r. apply (returns_pre (λ w, r = Ok j ∧ J w)); [naive_solver|]. apply returns_given. intros ->.
    eapply returns_bind.
    { apply returns_attempt, (returns_verify j (parent ++ [final]) id payload o frame J); try done;
        [by intros; apply HJ|by eapply frame_is_bytes]. }
    intros valid. apply (returns_pre (λ w, (∃ v, valid = Ok v) ∧ J w)); [naive_solver|].
    apply returns_given. intros [v ->].
    eapply returns_bind; [apply returns_look, _|]. intros r. cbn beta.
    apply returns_given. intros ->.
    eapply returns_bind; [apply returns_look, _|]. intros bytes. apply returns_ret.
    intros w [-> HJw]. split; [|done]. destruct (HJ w HJw) as (_ & _ & Hf). rewrite Hf. change (default [] (Some frame)) with frame.
    apply bool_decide_eq_true. apply take_ge. unfold len, ABSOLUTE_RECORD_MAX in *. lia. }
  intros b. cbn beta. apply returns_given. intros ->.
  eapply ends_bind with (R := λ _ w, holds self w id payload j).
  { apply returns_or_io, returns_call; [apply _|]. intros w Hok HJw.
    assert (J w) as [Hm Hrec] by done.
    assert (names w !! p = Some (Regular i)) as Hp by (destruct Hm as (_ & _ & Ho & _); by apply Ho).
    rewrite entry_at_snoc. fold p. rewrite Hp.
    pose proof (remove_step self p i frame w Hmark Hm) as HG. split; [by apply HG|].
    exists tt. split; [done|]. eapply extends_holds; [apply HG|].
    eapply framed_holds; [by exists o|by rewrite Hpath]. }
  intros ?. cbn beta. do 2 (eapply ends_bind; [by apply returns_keep; eauto|]; intros ?; cbn beta).
  eapply returns_post; [apply returns_attempt, (returns_ret _ _ (λ r w, r = PutLooseOutcome.AlreadyPresent ∧
    holds self w id payload j)); done|]. intros r w _ (? & -> & -> & Hh). eauto.
Qed.

(** ** Collisions *)

(** The candidate of this process, something else at its place, and room in the quarantine. *)
Record collided (p : path) (i : ino) (frame : list Z) (place : path) (e : entry) (w : world) : Prop := {
  col_mine : mine self p i frame w;
  col_loose : loose self `prefix_of` place;
  col_place : names w !! place = Some e;
  col_dir : entry_at w (quarantine self) = Some Directory;
  col_free n : names w !! (quarantine self ++ [quarantine_name (random n)]) = None }.

Lemma collided_with_file p i frame place e w j bytes :
  let q := quarantine self ++ [INCIDENT] in
  collided p i frame place e w → names w !! q = None → files w !! j = None →
  collided p i frame place e (with_file w q j bytes).
Proof.
  intros q [(Hi & Hp & Ho & Hf) Hl He Hd Hfree] Hq Hj.
  assert (j ≠ i) as Hij by congruence.
  split; [|done|..].
  - split_and!; [done|done| |cbn; by rewrite lookup_insert_ne].
    intros r. cbn. rewrite lookup_insert. case_decide as Hr; [|apply Ho].
    subst r. split; [congruence|]. intros <-. exfalso.
    assert (names w !! q = Some (Regular i)) by by apply Ho. congruence.
  - cbn. rewrite lookup_insert_ne; [done|]. intros <-. congruence.
  - exact (dir_kept w _ q _ _ Hd Hq).
  - intros n. unfold with_file, set_files, set_names. cbn [names]. rewrite lookup_insert_ne; [done|]. by intros [_ ?]%app_inj_tail.
Qed.

Lemma returns_persist_marker p i frame place e (I : bool) :
  returns (λ w, collided p i frame place e w ∧ incident w = I) (persist_marker (quarantine self))
    (λ _ w, collided p i frame place e w ∧ incident w = I ∧
       is_Some (names w !! (quarantine self ++ [INCIDENT]))).
Proof.
  intros w ticks Hok [Hc HI]. set (q := quarantine self ++ [INCIDENT]).
  set (K := λ w, collided p i frame place e w ∧ incident w = I ∧ is_Some (names w !! q)).
  pose proof (col_dir _ _ _ _ _ _ Hc) as Hd.
  destruct (entry_at w q) as [e'|] eqn:Hq.
  - assert (returns (λ w', w' = w) (persist_marker (quarantine self)) (λ _, K)) as Hr; [|by apply Hr].
    eapply returns_bind with (R := λ r w', r = Err ErrorKind.AlreadyExists ∧ w' = w).
    { apply returns_call; [apply _|]. intros w' _ ->. fold q. by rewrite Hq. }
    intros r. cbn beta. apply returns_given. intros ->.
    eapply returns_bind; [by apply (returns_ret tt _ (λ _ w', w' = w))|]. intros ?. cbn beta.
    eapply returns_post; [by apply returns_keep; eauto|]. intros ? w' _ ->.
    split_and!; [done|done|]. exists e'. subst q. by rewrite entry_at_snoc in Hq.
  - assert (names w !! q = None) as Hqn by (subst q; by rewrite entry_at_snoc in Hq).
    assert (returns (λ w', w' = w) (persist_marker (quarantine self)) (λ _, K)) as Hr; [|by apply Hr].
    eapply returns_bind; [apply (returns_create w); [apply Hapart; by right|done|done|done]|].
    intros r. cbn beta. apply returns_given. intros ->. fold q. set (j := fresh_ino w) in *.
    eapply returns_bind with (R := λ _ w', w' = with_file w q j incident_text).
    { intros w' ticks' Hok' [-> Hm].
      assert (returns (λ w', w' = with_file w q j []) (
        do! _ := or_io "write incident marker" (write_complete j incident_text) in
        or_io "sync incident marker" (sync_all j)) (λ _ w', w' = with_file w q j incident_text)) as Hr;
        [|by apply Hr].
      eapply returns_bind with (R := λ _ w', w' = with_file w q j incident_text).
      - apply returns_or_io. eapply returns_post; [apply (returns_write_loop w q j []); [lia|done]|].
        intros r w'' _ (-> & -> & _). by exists tt.
      - intros ?. cbn beta. by apply returns_keep; eauto. }
    intros ?. cbn beta. eapply returns_post; [by apply returns_keep; eauto|]. intros ? w' _ ->.
    split_and!; [apply collided_with_file; [done|done|apply fresh_ino_new]|done|].
    cbn. rewrite lookup_insert_eq. by eexists.
Qed.

Lemma returns_quarantine p name i frame place e (I : bool) :
  p = temporary self ++ [name] → p ∉ markers self →
  returns (λ w, collided p i frame place e w ∧ incident w = I ∧
      is_Some (names w !! (quarantine self ++ [INCIDENT])))
    (quarantine_candidate self name)
    (λ _ w, names w !! place = Some e ∧ incident w = I ∧
      is_Some (names w !! (quarantine self ++ [INCIDENT])) ∧
      ∃ n, only_name w (quarantine self ++ [quarantine_name (random n)]) i ∧ files w !! i = Some frame).
Proof.
  intros -> Hmark. unfold quarantine_candidate. cbn [quarantine_loop TEMP_ATTEMPTS].
  set (J := λ w, collided (temporary self ++ [name]) i frame place e w ∧ incident w = I ∧
      is_Some (names w !! (quarantine self ++ [INCIDENT]))).
  eapply returns_bind with (R := λ r w, (∃ n, r = random n) ∧ J w).
  { apply returns_or_io, returns_at_tick. intros n. eapply returns_post; [apply returns_look, _|].
    intros r w' _ [-> HJ]. eauto 10. }
  intros entropy. cbn beta. apply returns_given. intros [n ->].
  eapply returns_bind with (R := λ r w, r = Ok tt ∧ names w !! place = Some e ∧ incident w = I ∧
    is_Some (names w !! (quarantine self ++ [INCIDENT])) ∧
    only_name w (quarantine self ++ [quarantine_name (random n)]) i ∧ files w !! i = Some frame).
  - apply returns_call; [apply _|]. intros w Hok ([Hm Hl He Hd Hfree] & HI & HM).
    assert (names w !! (temporary self ++ [name]) = Some (Regular i)) as Hp
      by (destruct Hm as (_ & _ & Ho & _); by apply Ho).
    rewrite !entry_at_snoc, Hp, Hfree, Hd.
    destruct (rename_step self _ i frame _ w Hmark Hm (Hfree n)) as (HG & Hon & Hf).
    + unfold parent_of. by rewrite removelast_snoc.
    + intros Hl'. by apply Hapart in Hl'; [|right].
    + split; [by apply HG|]. split_and!; try done; [by apply HG|].
      eapply ext_markers; [apply HG|left|done].
  - intros r. cbn beta. apply returns_given. intros ->. apply returns_ret. naive_solver.
Qed.

(** What a collision leaves behind. *)
Definition incident_recorded (i : ino) (frame : list Z) (place : path) (e : entry) (w : world) : Prop :=
  names w !! place = Some e ∧ incident w = true ∧
  is_Some (names w !! (quarantine self ++ [INCIDENT])) ∧
  ∃ n, only_name w (quarantine self ++ [quarantine_name (random n)]) i ∧ files w !! i = Some frame.

(** Something else is there. *)
Lemma ends_collision id payload o frame name i parent final e :
  let p := temporary self ++ [name] in
  is_bytes payload = true → oid_ok id = true →
  AnyObject.decode_verified payload id bulk = Ok o → encode_frame id o payload = Ok frame →
  object_path self id = parent ++ [final] → p ∉ markers self →
  ends (λ w, collided p i frame (parent ++ [final]) e w ∧ ∀ j, ¬ recorded self (parent ++ [final]) j frame w)
    (resolve_existing self id frame name i parent final)
    (λ r w, r = Err CollisionIncident ∧ incident_recorded i frame (parent ++ [final]) e w).
Proof.
  intros p Hb Hid Hdec Henc Hpath Hmark.
  apply decode_verified_Ok in Hdec as Hd. destruct Hd as [Hd _].
  apply decode_schema in Hd as [Hs _]; [|done|apply bulk_limits_ok].
  destruct (frame_len id o payload frame Hid Hs Henc) as [_ Hmax].
  pose proof (object_path_loose self id) as Hl. rewrite Hpath in Hl.
  set (C := collided p i frame (parent ++ [final]) e).
  set (J := λ w, C w ∧ ∀ j, ¬ recorded self (parent ++ [final]) j frame w).
  eapply ends_bind with (R := λ b w, b = false ∧ C w).
  { intros w ticks Hok HJ.
    destruct (returns_existing_matches id frame parent final J w ticks Hok HJ) as (b & w' & t' & Hr & Hok' & HJ').
    assert (good self w w) as Hg by (split; [apply rtc_refl|done]).
    pose proof (triple_existing_matches self w id frame parent final (λ _, True) Hl Hmax w Hg Logic.I ticks None) as Ht.
    rewrite Hr in Ht. destruct Ht as (_ & _ & Hb'). exists b, w', t'. split_and!; [done|done| |apply HJ'].
    destruct b; [|done]. destruct (Hb' eq_refl) as [j Hj]. destruct HJ' as [_ Hno]. by destruct (Hno j). }
  intros b. cbn beta. apply returns_given. intros ->.
  eapply ends_bind.
  { apply (returns_verify i p id payload o frame C); try done; [|by eapply frame_is_bytes].
    intros w _ [(_ & _ & Ho & Hf) _ _ _ _]. split; [by apply Ho|done]. }
  intros ?. cbn beta. apply (returns_pre C); [naive_solver|].
  eapply ends_bind with (R := λ _ w, C w ∧ incident w = true).
  { intros w ticks Hok HC. eexists tt, _, ticks. split; [done|].
    destruct (incident_step self w) as [HG _]. split; [by apply HG|]. split; [|done].
    destruct HC as [Hm Hl' He Hd' Hfree]. by split. }
  intros ?. cbn beta.
  eapply ends_bind with (R := λ _ w, C w ∧ incident w = true ∧
    is_Some (names w !! (quarantine self ++ [INCIDENT]))).
  { eapply returns_post with (Q' := λ r w, ∃ x, r = Ok x ∧ C w ∧ incident w = true ∧
      is_Some (names w !! (quarantine self ++ [INCIDENT]))); [|naive_solver].
    apply (returns_attempt _ _ (λ _ w, C w ∧ incident w = true ∧ is_Some (names w !! (quarantine self ++ [INCIDENT])))).
    eapply returns_bind; [apply returns_attempt, returns_persist_marker|]. intros r.
    apply (returns_pre (λ w, (∃ x, r = Ok x) ∧ C w ∧ incident w = true ∧
      is_Some (names w !! (quarantine self ++ [INCIDENT])))); [naive_solver|].
    apply returns_given. intros [x ->]. by apply returns_ret. }
  intros ?. cbn beta.
  eapply ends_bind; [by apply (returns_quarantine p name i frame)|]. intros ?. cbn beta.
  do 2 (eapply ends_bind; [by apply returns_keep; eauto|]; intros ?; cbn beta).
  by apply ends_raise.
Qed.

(** ** The whole operation *)

(** A store that can take an object: its directories are there, the names it makes up are free. *)
Record ready (w : world) : Prop := {
  ready_ok : world_ok w;
  ready_incident : incident w = false;
  ready_tmp : entry_at w (temporary self) = Some Directory;
  ready_quarantine : entry_at w (quarantine self) = Some Directory;
  ready_loose : entry_at w (loose self) = Some Directory;
  ready_names n : entry_at w (temporary self ++ [temporary_name (random n)]) = None;
  ready_records n : entry_at w (quarantine self ++ [quarantine_name (random n)]) = None }.

(** [put] with a ready store, once the temporary file is there. *)
Lemma ends_put w id payload o frame (Q : result lerr PutLooseOutcome.t → world → Prop) :
  ready w → AnyObject.decode_verified payload id bulk = Ok o → encode_frame id o payload = Ok frame →
  (∀ n, let p := temporary self ++ [temporary_name (random n)] in let i := fresh_ino w in
    mine self p i [] (with_file w p i []) →
    ends (λ w', w' = with_file w p i [])
      (publish_temporary self id frame (temporary_name (random n)) i) Q) →
  ends (λ w', w' = w) (put self id payload) Q.
Proof.
  intros [Hok Hinc Htmp _ _ Hnames _] Hdec Henc HQ.
  eapply ends_bind with (R := λ b w', b = false ∧ w' = w).
  { intros w' ticks _ ->. eexists _, _, _. split; [done|]. done. }
  intros b. cbn beta. apply returns_given. intros ->.
  eapply ends_bind with (R := λ r w', r = o ∧ w' = w).
  { eapply (returns_pure _ o); [by rewrite Hdec|done]. }
  intros r. cbn beta. apply returns_given. intros ->.
  eapply ends_bind with (R := λ r w', r = frame ∧ w' = w); [by eapply (returns_pure _ frame)|].
  intros r. cbn beta. apply returns_given. intros ->.
  eapply ends_bind; [apply returns_injected|]. intros ?. cbn beta.
  eapply ends_bind; [by apply (returns_temporary w)|]. intros [name i]. cbn beta iota.
  intros w' ticks Hok' (n & [= -> ->] & -> & Hm). by apply (HQ n Hm).
Qed.

(** ** The new file does not show among the published objects *)

Section with_file.
Context (w : world) (p : path) (i : ino) (bytes : list Z).
Context (Hok : world_ok w) (Hp : ¬ loose self `prefix_of` p) (Hfree : names w !! p = None)
  (Hnew : files w !! i = None).

Lemma with_file_loose q : loose self `prefix_of` q → names (with_file w p i bytes) !! q = names w !! q.
Proof. intros Hq. cbn. rewrite lookup_insert_ne; [done|]. by intros <-. Qed.

Lemma with_file_entry q : loose self `prefix_of` q → entry_at (with_file w p i bytes) q = entry_at w q.
Proof. intros Hq. destruct q; [done|]. by apply with_file_loose. Qed.

Lemma with_file_recorded q j f : recorded self q j f (with_file w p i bytes) ↔ recorded self q j f w.
Proof.
  assert (∀ r, names w !! r ≠ Some (Regular i)) as Hno.
  { intros r Hr. apply (proj1 Hok) in Hr. rewrite Hnew in Hr. by destruct Hr. }
  destruct (decide (j = i)) as [->|Hji].
  - split; intros [[Hq Ho] _]; exfalso.
    + assert (names (with_file w p i bytes) !! q = Some (Regular i)) as Hn by by apply Ho.
      rewrite with_file_loose in Hn by done. by apply Hno in Hn.
    + by apply (Hno q), Ho.
  - assert (frozen j w (with_file w p i bytes)) as Hfr.
    { split; cbn; [by rewrite lookup_insert_ne|]. intros r. rewrite lookup_insert.
      case_decide; [|done]. subst. split; congruence. }
    unfold recorded, linked, only_name. destruct Hfr as [-> Hn]. by setoid_rewrite Hn.
Qed.

Lemma with_file_clear components name : clear_way w (loose self) components name →
  clear_way (with_file w p i bytes) (loose self) components name.
Proof.
  intros (Hd & Hway & Hend). split_and!.
  - by rewrite with_file_entry.
  - intros d Hdp. rewrite with_file_entry by by eexists. by apply Hway.
  - rewrite with_file_loose by by eexists. done.
Qed.
End with_file.

(** ** The three outcomes *)

Section outcomes.
Context (w : world) (id : ObjectId) (payload : list Z) (o : AnyObject.t).
Context (Hready : ready w) (Hb : is_bytes payload = true)
  (Hdec : AnyObject.decode_verified payload id bulk = Ok o).

Lemma put_framed : ∃ frame, encode_frame id o payload = Ok frame ∧ framed id payload frame.
Proof.
  apply decode_verified_Ok in Hdec as Hd. destruct Hd as [Hd _].
  destruct (encode_frame_total payload id bulk o Hb bulk_limits_ok Hd) as [frame Hf].
  exists frame. split; [done|]. exists o. split_and!; try done.
  by eapply verified_oid_ok; [|apply bulk_limits_ok|].
Qed.

Lemma ready_name n : let p := temporary self ++ [temporary_name (random n)] in
  ¬ loose self `prefix_of` p ∧ names w !! p = None ∧ p ∉ markers self.
Proof.
  split_and!; [apply Hapart; by left| |apply temporary_name_marker].
  rewrite <-entry_at_snoc. apply Hready.
Qed.

Lemma put_new : let '(components, name) := path_components id in
  clear_way w (loose self) components name →
  ends (λ w', w' = w) (put self id payload)
    (λ r w', r = Ok PutLooseOutcome.New ∧ ∃ j, holds self w' id payload j).
Proof.
  pose proof (object_path_walk self id) as Hwalk.
  destruct (path_components id) as [components name] eqn:Hpc. intros Hclear.
  destruct put_framed as (frame & Henc & Hfr). apply (ends_put w id payload o frame); [done..|].
  intros n p i Hm. destruct (ready_name n) as (Hp & Hn & Hmark).
  eapply (ends_publish w id payload o frame); [done| |done|done|done| |by apply ends_new].
  { by destruct Hfr as (? & ? & _). }
  unfold create_fanout. rewrite Hpc. eapply returns_bind; [by apply returns_clone; apply _|].
  intros current. cbn beta. apply returns_given. intros ->. eapply returns_bind.
  - eapply returns_pre; [|apply (returns_fanout_clear _ components name (mine self p i frame))].
    + intros w' _ [-> Hm']. split; [done|]. apply with_file_clear; [apply Hp|done].
    + intros w1 w2 Hfz. by apply frozen_mine.
  - intros d. cbn beta. apply returns_given. intros ->. by apply returns_ret.
Qed.

(** Whatever is at the place of the object, the way to it is there. *)
Lemma put_occupied e frame Q : encode_frame id o payload = Ok frame → oid_ok id = true →
  names w !! object_path self id = Some e →
  (∀ n parent final, let p := temporary self ++ [temporary_name (random n)] in let i := fresh_ino w in
    object_path self id = parent ++ [final] → p ∉ markers self →
    ends (λ w', w' = with_file w p i frame ∧ mine self p i frame w')
      (resolve_existing self id frame (temporary_name (random n)) i parent final) Q) →
  ends (λ w', w' = w) (put self id payload) Q.
Proof.
  intros Henc Hid He HQ. pose proof (object_path_walk self id) as Hwalk.
  destruct (path_components id) as [components name] eqn:Hpc.
  apply (ends_put w id payload o frame); [done..|]. intros n p i Hm.
  destruct (ready_name n) as (Hp & Hn & Hmark).
  assert (∀ w', w' = with_file w p i frame ∧ mine self p i frame w' →
    mine self p i frame w' ∧ names w' !! object_path self id = Some e) as HJ.
  { intros w' [-> Hm']. split; [done|]. by rewrite (with_file_loose w p i frame Hp _ (object_path_loose self id)). }
  eapply (ends_publish w id payload o frame _ i (loose self ++ components) name
    (λ w', w' = with_file w p i frame ∧ mine self p i frame w')); [done|done|done|done|done|..].
  - unfold create_fanout. rewrite Hpc. eapply returns_bind; [by apply returns_clone; apply _|].
    intros current. cbn beta. apply returns_given. intros ->. eapply returns_bind.
    + apply (returns_fanout_present _ components [name] e (λ w', w' = with_file w p i frame ∧ mine self p i frame w')); [done|].
      intros w' _ Hw'. rewrite app_assoc, <-Hwalk. by apply HJ.
    + intros d. cbn beta. apply returns_given. intros ->. by apply returns_ret.
  - eapply ends_bind; [apply (returns_rename_occupied p _ i frame _ _ e)|].
    + done.
    + intros w' Hw'. rewrite <-Hwalk. by apply HJ.
    + intros r. cbn beta. apply returns_given. intros ->. by apply HQ.
Qed.

Lemma put_present j : holds self w id payload j →
  ends (λ w', w' = w) (put self id payload)
    (λ r w', r = Ok PutLooseOutcome.AlreadyPresent ∧ ∃ j, holds self w' id payload j).
Proof.
  intros Hh. destruct put_framed as (frame & Henc & Hfr).
  assert (oid_ok id = true) as Hid by (by destruct Hfr as (? & ? & _)).
  assert (recorded self (object_path self id) j frame w) as Hrec.
  { destruct Hh as (o' & f' & _ & _ & Hdec' & Henc' & Hf & Ho).
    split; [split; [apply object_path_loose|done]|]. congruence. }
  eapply (put_occupied (Regular j) frame); [done|done|by eapply holds_name|].
  intros n parent final p i Hpath Hmark. destruct (ready_name n) as (Hp & Hn & _).
  eapply returns_pre; [|by apply (ends_already_present id payload frame _ i j)].
  intros w' _ [-> Hm]. split; [done|]. rewrite <-Hpath.
  apply with_file_recorded; [apply Hready|done|done|apply fresh_ino_new|done].
Qed.

Lemma put_collides e : names w !! object_path self id = Some e → (∀ j, ¬ holds self w id payload j) →
  ends (λ w', w' = w) (put self id payload)
    (λ r w', r = Err CollisionIncident ∧ ∃ i frame, encode_frame id o payload = Ok frame ∧
       incident_recorded i frame (object_path self id) e w').
Proof.
  intros He Hno. destruct put_framed as (frame & Henc & Hfr).
  assert (oid_ok id = true) as Hid by (by destruct Hfr as (? & ? & _)).
  eapply (put_occupied e frame); [done..|].
  intros n parent final p i Hpath Hmark. destruct (ready_name n) as (Hp & Hn & _).
  eapply returns_post; [eapply returns_pre; [|by apply (ends_collision id payload o frame _ i parent final e)]|].
  - intros w' _ [-> Hm]. rewrite <-Hpath. split.
    + split; [done|apply object_path_loose|..].
      * by rewrite (with_file_loose w p i frame Hp _ (object_path_loose self id)).
      * exact (dir_kept w _ p _ _ (ready_quarantine _ Hready) Hn).
      * intros m. unfold with_file, set_files, set_names. cbn [names].
        rewrite lookup_insert_ne; [rewrite <-entry_at_snoc; apply Hready|].
        subst p. by intros [_ ?]%app_inj_tail.
    + intros j Hj. apply with_file_recorded in Hj; [|apply Hready|done|done|apply fresh_ino_new].
      apply (Hno j). by eapply framed_holds.
  - intros r w' _ [-> Hinc]. split; [done|]. exists i, frame. by rewrite Hpath.
Qed.
End outcomes.
End put.

Lemma with_file_ok w p n i bytes : world_ok w → names w !! (p ++ [n]) = None →
  entry_at w p = Some Directory → world_ok (with_file w (p ++ [n]) i bytes).
Proof.
  intros [Hok1 Hok2] Hn Hd. split.
  - intros q j Hj. cbn in Hj |- *. rewrite lookup_insert. case_decide; [by eexists|].
    rewrite lookup_insert in Hj. case_decide; [by simplify_eq|]. by eapply Hok1.
  - intros q m e He. cbn in He. rewrite lookup_insert in He.
    apply (dir_kept w q (p ++ [n]) (Regular i)); [|done]. case_decide as Heq.
    + by apply app_inj_tail in Heq as [<- _].
    + by eapply Hok2.
Qed.

(** ** A sample store *)

Definition quiet_system : System := {|
  process := 1; interfere := λ _ w, w; denies := λ _, None; accepts := λ _, 64%nat;
  random := λ n, replicate 16 (Z.of_nat n); directory_device := λ _, 0; file_device := λ _, 0;
  check := λ _, Ok tt; retries := 0 |}.

Definition sample_control : path := [lit ".rgit"].
Definition sample_store : LooseObjectStore.t := layout sample_control.
Definition sample_dirs : list path :=
  [sample_control; sample_control ++ [lit "objects"]; loose sample_store; temporary sample_store;
   quarantine sample_store].
Definition sample_world : world :=
  World.mk (list_to_map (map (λ p, (p, Directory)) sample_dirs)) ∅ false.

Lemma quiet_answers : @Answers quiet_system.
Proof. split; try done. intros n. cbn. lia. Qed.

Lemma quiet_alone : @Alone quiet_system.
Proof. done. Qed.

Lemma sample_names p e : names sample_world !! p = Some e → p ∈ sample_dirs ∧ e = Directory.
Proof.
  intros Hp%elem_of_list_to_map_2. apply list_elem_of_fmap in Hp as (q & [= -> ->] & Hq). done.
Qed.

Lemma sample_world_ok : world_ok sample_world.
Proof.
  split.
  - intros p i Hp. by apply sample_names in Hp as [_ ?].
  - intros p n e [Hp _]%sample_names. unfold sample_dirs in Hp.
    repeat (apply elem_of_cons in Hp as [Hp|Hp];
      [apply (f_equal (@removelast str)) in Hp; rewrite removelast_snoc in Hp; rewrite Hp; vm_compute; reflexivity|]).
    by apply not_elem_of_nil in Hp.
Qed.

Lemma sample_free p n : length p = 3%nat → entry_at sample_world (p ++ [n]) = None.
Proof.
  intros Hl. rewrite entry_at_snoc. destruct (names sample_world !! (p ++ [n])) as [e|] eqn:He; [|done].
  apply sample_names in He as [Hp _]. unfold sample_dirs in Hp.
  repeat (apply elem_of_cons in Hp as [Hp|Hp];
    [apply (f_equal (@length str)) in Hp; rewrite length_app, Hl in Hp; done|]).
  by apply not_elem_of_nil in Hp.
Qed.

Lemma sample_ready : @ready quiet_system sample_store sample_world.
Proof.
  split; try (vm_compute; reflexivity); [apply sample_world_ok|..]; intros n; by apply sample_free.
Qed.
