(* ===== verification/LooseInventory.v ===== *)
(** * The inventory of the loose-object store

    [inventory_audited] walks the directories of the store. On a quiet system it returns, and
    lists every remnant exactly once, in the order of the paths. *)

From stdpp Require Import gmap sorting.
From S2P Require Import Prelude Machine Order Utf8 ObjectId Decode FileTree LooseFrame LoosePlatform LooseStore LooseFacts LooseRuns LooseReturns LoosePut.
Import World LooseStoreError LooseObjectStore.

Section inventory.
Context `{System, !Answers, !Alone} (w : world) (Hok : world_ok w) (root : path).

(** The entries of a directory. *)
Definition children (d : path) : list (str * entry) :=
  omap (λ name, pair name <$> names w !! (d ++ [name])) (read_dir (names w) d).

Lemma children_elem d n e : (n, e) ∈ children d ↔ names w !! (d ++ [n]) = Some e.
Proof.
  unfold children. rewrite list_elem_of_omap. split.
  - intros (m & Hm & Hx). apply fmap_Some in Hx as (e' & He & [= <- <-]). done.
  - intros He. exists n. split; [apply read_dir_elem; by exists e|]. by rewrite He.
Qed.

Lemma children_nodup d : NoDup (map fst (children d)).
Proof.
  unfold children. pose proof (read_dir_nodup (names w) d) as Hnd.
  induction Hnd as [|n l Hn Hnd IH]; [constructor|]. cbn.
  destruct (names w !! (d ++ [n])) as [e|]; cbn; [|done]. constructor; [|done].
  rewrite list_elem_of_fmap. intros ([m e'] & -> & Hm).
  apply list_elem_of_omap in Hm as (k & Hk & Hx). apply fmap_Some in Hx as (? & _ & [= -> ->]). done.
Qed.

Lemma returns_list op d : entry_at w d = Some Directory →
  returns (λ w', w' = w) (list_directory op d) (λ r w', r = children d ∧ w' = w).
Proof.
  intros Hd. apply returns_or_io_look; [apply _|]. intros w' _ ->. rewrite Hd. by eexists.
Qed.

Lemma strip_root_app q : strip_root root (root ++ q) = Ok q.
Proof. unfold strip_root. by rewrite take_app_length, bool_decide_true, drop_app_length. Qed.

Lemma skip_root r n : skipn (length root) ((root ++ r) ++ [n]) = r ++ [n].
Proof. by rewrite <-app_assoc, drop_app_length. Qed.

(** ** One directory *)

Lemma returns_flat d k output :
  root `prefix_of` d → entry_at w d = Some Directory →
  returns (λ w', w' = w) (inventory_flat root d k output)
    (λ r w', r = output ++ map (λ e, InventoryEntry.mk k (skipn (length root) (d ++ [e.1]))) (children d) ∧ w' = w).
Proof.
  intros [r ->] Hd. eapply returns_bind; [by apply returns_list|]. intros es. cbn beta.
  apply returns_given. intros ->. eapply returns_pure; [|by intros w' ->].
  generalize (children (root ++ r)). intros es. revert output.
  induction es as [|[n e] es IH]; intros output; cbn [try_fold map]; [by rewrite app_nil_r|].
  rewrite <-(app_assoc root), strip_root_app. cbn [mbind result_bind]. rewrite IH, <-app_assoc. cbn [fst app].
  by rewrite skip_root.
Qed.

(** ** The walk *)

(** The item of an entry that is not a directory. *)
Definition item (q : path) (e : entry) : InventoryEntry.t :=
  InventoryEntry.mk
    (match e with Regular _ => InventoryEntryKind.UnindexedOrphan | _ => InventoryEntryKind.Unexpected end)
    (skipn (length root) q).

Definition dirs_of (d : path) : list path :=
  omap (λ x : str * entry, if decide (x.2 = Directory) then Some (d ++ [x.1]) else None) (children d).
Definition leaves_of (d : path) : list (path * entry) :=
  omap (λ x : str * entry, if decide (x.2 = Directory) then None else Some (d ++ [x.1], x.2)) (children d).

Lemma inventory_entries d pending output : root `prefix_of` d →
  try_fold (inventory_entry root d) (children d) (pending, output)
  = Ok (rev (dirs_of d) ++ pending, output ++ map (λ x, item x.1 x.2) (leaves_of d)).
Proof.
  intros [r ->]. unfold dirs_of, leaves_of. generalize (children (root ++ r)). intros es.
  revert pending output. induction es as [|[n e] es IH]; intros pending output; cbn [try_fold].
  { cbn. by rewrite app_nil_r. }
  cbn [inventory_entry]. destruct e; cbn [mbind result_bind].
  1: rewrite IH; cbn [omap list_omap fst snd]; rewrite decide_True, decide_True by done;
     cbn [rev]; by rewrite <-(app_assoc (rev _)).
  all: rewrite <-(app_assoc root), strip_root_app; cbn [mbind result_bind]; rewrite IH;
    cbn [omap list_omap fst snd]; rewrite decide_False, decide_False by done;
    cbn [map]; rewrite <-(app_assoc output); unfold item; cbn [fst snd app]; by rewrite skip_root.
Qed.

Lemma dirs_of_elem d q : q ∈ dirs_of d ↔ ∃ n, q = d ++ [n] ∧ names w !! q = Some Directory.
Proof.
  unfold dirs_of. rewrite list_elem_of_omap. split.
  - intros ([n e] & Hx%children_elem & Hq). cbn in Hq. case_decide; [|done]. simplify_eq. eauto.
  - intros (n & -> & Hn). exists (n, Directory). rewrite children_elem. split; [done|]. done.
Qed.

Lemma leaves_of_elem d q e : (q, e) ∈ leaves_of d ↔ ∃ n, q = d ++ [n] ∧ names w !! q = Some e ∧ e ≠ Directory.
Proof.
  unfold leaves_of. rewrite list_elem_of_omap. split.
  - intros ([n e'] & Hx%children_elem & Hq). cbn in Hq. case_decide; [done|]. simplify_eq. eauto.
  - intros (n & -> & Hn & He). exists (n, e). rewrite children_elem. split; [done|]. cbn. by rewrite decide_False.
Qed.

(** Directories of which none lies in another. *)
Definition antichain (ds : list path) : Prop :=
  NoDup ds ∧ ∀ a b, a ∈ ds → b ∈ ds → a `prefix_of` b → a = b.

Lemma dirs_of_nodup d : NoDup (dirs_of d).
Proof.
  unfold dirs_of. pose proof (children_nodup d) as Hnd. revert Hnd. generalize (children d).
  induction l as [|[n e] l IH]; cbn; [constructor|]. intros [Hn Hl]%NoDup_cons.
  case_decide; [|auto]. constructor; [|auto]. rewrite list_elem_of_omap.
  intros ([m e'] & Hm & Hx). cbn in Hx. case_decide; [|done]. simplify_eq.
  apply Hn, list_elem_of_fmap. by exists (n, Directory).
Qed.

Lemma leaves_of_nodup d : NoDup (map fst (leaves_of d)).
Proof.
  unfold leaves_of. pose proof (children_nodup d) as Hnd. revert Hnd. generalize (children d).
  induction l as [|[n e] l IH]; cbn; [constructor|]. intros [Hn Hl]%NoDup_cons.
  case_decide; [auto|]. cbn. constructor; [|auto]. rewrite list_elem_of_fmap.
  intros ([q e'] & Hq & Hx). apply list_elem_of_omap in Hx as ([m e''] & Hm & Hx). cbn in Hx, Hq.
  case_decide; [done|]. simplify_eq. apply Hn, list_elem_of_fmap. by exists (n, e').
Qed.

Lemma snoc_prefix (d q : path) n : (d ++ [n]) `prefix_of` q → d `prefix_of` q ∧ d ≠ q.
Proof.
  intros [r ->]. rewrite <-app_assoc. split; [by eexists|]. intros Heq%(f_equal length).
  rewrite length_app in Heq. cbn in Heq. lia.
Qed.

Lemma prefix_of_snoc (q d : path) n : q `prefix_of` d ++ [n] → q = d ++ [n] ∨ q `prefix_of` d.
Proof.
  intros [r Hr]. destruct r as [|x r _] using rev_ind; [left; by rewrite app_nil_r in Hr|].
  right. rewrite app_assoc in Hr. apply app_inj_tail in Hr as [-> _]. by eexists.
Qed.

Lemma antichain_next d ds : antichain (d :: ds) → antichain (rev (dirs_of d) ++ ds).
Proof.
  intros [[Hd Hnd]%NoDup_cons Hanti].
  assert (∀ n b, b ∈ ds → ¬ (d ++ [n]) `prefix_of` b) as Hdown.
  { intros n b Hb [Hp Hne]%snoc_prefix. apply Hne, Hanti; [left|by right|done]. }
  assert (∀ n b, b ∈ ds → ¬ b `prefix_of` d ++ [n]) as Hup.
  { intros n b Hb Hp. destruct (prefix_of_snoc _ _ _ Hp) as [->|Hp'].
    - apply (Hdown n _ Hb). done.
    - apply Hd. rewrite <-(Hanti b d); [done|by right|left|done]. }
  split.
  - apply NoDup_app. split_and!; [rewrite <-(Permutation_rev (dirs_of d)); apply dirs_of_nodup| |done].
    intros q [n [-> _]]%elem_of_rev%dirs_of_elem Hq. by apply (Hdown n _ Hq).
  - intros a b. rewrite !elem_of_app, !elem_of_rev, !dirs_of_elem.
    intros [(n & -> & _)|Ha] [(m & -> & _)|Hb] Hp.
    + apply prefix_length_eq; [done|]. rewrite !length_app. cbn. lia.
    + by apply Hdown in Hp.
    + by apply Hup in Hp.
    + apply Hanti; [by right|by right|done].
Qed.

(** What lies strictly below the pending directories. *)
Definition pending_leaf (pending : list path) (q : path) (e : entry) : Prop :=
  ∃ d, d ∈ pending ∧ d `prefix_of` q ∧ d ≠ q ∧ names w !! q = Some e ∧ e ≠ Directory.

Lemma pending_leaf_next d ds q e :
  pending_leaf (d :: ds) q e ↔ (q, e) ∈ leaves_of d ∨ pending_leaf (rev (dirs_of d) ++ ds) q e.
Proof.
  unfold pending_leaf. rewrite leaves_of_elem. split.
  - intros (x & [->|Hx]%elem_of_cons & [r ->] & Hne & He & Hd).
    + destruct r as [|n r]; [by rewrite app_nil_r in Hne|].
      destruct r as [|m r]; [left; eauto|right]. exists (d ++ [n]).
      assert (names w !! (d ++ [n]) = Some Directory) as Hn.
      { rewrite <-entry_at_snoc. apply (world_ok_above w _ (m :: r) e); [done|done|by rewrite <-app_assoc]. }
      split_and!; [|by exists (m :: r); rewrite <-app_assoc| |done|done].
      * apply elem_of_app. left. apply elem_of_rev, dirs_of_elem. eauto.
      * intros Heq%(f_equal length). rewrite !length_app in Heq. cbn in Heq. lia.
    + right. exists x. split_and!; try done; [apply elem_of_app; by right|by eexists].
  - intros [(n & -> & He & Hd)|(x & Hx & Hp & Hne & He & Hd)].
    + exists d. split_and!; try done; [left|by eexists|]. intros Heq%(f_equal length).
      rewrite length_app in Heq. cbn in Heq. lia.
    + apply elem_of_app in Hx as [(n & -> & _)%elem_of_rev%dirs_of_elem|Hx].
      * apply snoc_prefix in Hp as [Hp Hdq]. exists d. split_and!; try done. left.
      * exists x. split_and!; try done. by right.
Qed.

Lemma leaves_apart d ds q e : antichain (d :: ds) → (q, e) ∈ leaves_of d →
  ¬ ∃ e', pending_leaf (rev (dirs_of d) ++ ds) q e'.
Proof.
  intros [[Hd _]%NoDup_cons Hanti] (n & -> & He & Hne)%leaves_of_elem (e' & x & Hx & Hp & Hxq & _).
  apply prefix_of_snoc in Hp as [->|Hp]; [done|].
  apply elem_of_app in Hx as [(m & -> & _)%elem_of_rev%dirs_of_elem|Hx]; [by apply prefix_snoc_not in Hp|].
  apply Hd. rewrite <-(Hanti x d); [done|by right|left|done].
Qed.

(** The walk lists exactly what lies below, each once. *)
Lemma returns_loop fuel pending output :
  (∀ d, d ∈ pending → root `prefix_of` d ∧ names w !! d = Some Directory) →
  antichain pending → (sum_list_with (below (names w)) pending < fuel)%nat →
  ∃ ls, returns (λ w', w' = w) (inventory_loop fuel root pending output)
      (λ r w', r = output ++ map (λ x, item x.1 x.2) ls ∧ w' = w) ∧
    NoDup (map fst ls) ∧ ∀ q e, (q, e) ∈ ls ↔ pending_leaf pending q e.
Proof.
  revert pending output. induction fuel as [|fuel IH]; intros pending output Hp Hanti Hf; [lia|].
  destruct pending as [|d ds]; cbn [inventory_loop].
  { exists []. split_and!; [by apply returns_ret; rewrite app_nil_r|constructor|].
    intros q e. split; [by intros ?%not_elem_of_nil|]. intros (x & Hx & _). by apply not_elem_of_nil in Hx. }
  destruct (Hp d ltac:(left)) as [Hroot Hd].
  assert (entry_at w d = Some Directory) as Hdir by by destruct d.
  destruct (IH (rev (dirs_of d) ++ ds) (output ++ map (λ x, item x.1 x.2) (leaves_of d)))
    as (ls & Hls & Hnd & Hin).
  - intros q [(n & -> & Hn)%elem_of_rev%dirs_of_elem|Hq]%elem_of_app; [|apply Hp; by right].
    split; [|done]. by apply prefix_app_r.
  - by apply antichain_next.
  - rewrite sum_list_with_app. cbn [sum_list_with] in Hf.
    assert (∃ cs, NoDup cs ∧ dirs_of d = map (λ s, d ++ [s]) cs) as (cs & Hcs & ->).
    { exists (map (λ q, default [] (last q)) (dirs_of d)). split.
      - apply NoDup_fmap_2_strong; [|apply dirs_of_nodup].
        intros x y (n & -> & _)%dirs_of_elem (m & -> & _)%dirs_of_elem. rewrite !last_snoc. cbn. by intros ->.
      - rewrite map_map. symmetry. rewrite <-(map_id (dirs_of d)) at 2. apply map_ext_in.
        intros q (n & -> & _)%list_elem_of_In%dirs_of_elem. by rewrite last_snoc. }
    pose proof (below_children (names w) d cs Hcs) as Hb. rewrite bool_decide_true in Hb by by eexists.
    cbn in Hb. rewrite sum_rev_map. lia.
  - exists (leaves_of d ++ ls). split_and!.
    + eapply returns_bind; [by apply returns_list|]. intros es. cbn beta. apply returns_given. intros ->.
      eapply returns_bind with (R := λ r w', r = (rev (dirs_of d) ++ ds, output ++ map (λ x, item x.1 x.2) (leaves_of d)) ∧ w' = w).
      { eapply returns_pure; [by apply inventory_entries|]. by intros w' ->. }
      intros [pending' output']. cbn beta iota. apply returns_given. intros [= -> ->].
      by rewrite map_app, app_assoc.
    + rewrite map_app. apply NoDup_app. split_and!; [apply leaves_of_nodup| |done].
      intros q ([q' e] & -> & Hq)%list_elem_of_fmap ([q2 e2] & Heq & Hq2%Hin)%list_elem_of_fmap. cbn in Heq. subst q2.
      eapply leaves_apart; eauto.
    + intros q e. by rewrite elem_of_app, Hin, <-pending_leaf_next.
Qed.
End inventory.

(** ** Claims *)

(** What the recovery of a store is shown: entries of the temporary and the quarantine directory,
    and everything but directories below the published objects. *)
Definition remnant (self : LooseObjectStore.t) (w : world) (k : InventoryEntryKind.t) (q : path) : Prop :=
  ∃ e, names w !! q = Some e ∧
    ((∃ n, q = temporary self ++ [n] ∧ k = InventoryEntryKind.StaleTemporary) ∨
     (∃ n, q = quarantine self ++ [n] ∧ k = InventoryEntryKind.Quarantined) ∨
     (loose self `prefix_of` q ∧ loose self ≠ q ∧ e ≠ Directory ∧
      k = match e with Regular _ => InventoryEntryKind.UnindexedOrphan | _ => InventoryEntryKind.Unexpected end)).

(** The items of one flat directory, with full paths. *)
Definition flat_items (w : world) (d : path) (k : InventoryEntryKind.t) : list (InventoryEntryKind.t * path) :=
  map (λ x : str * entry, (k, d ++ [x.1])) (children w d).

Lemma flat_items_elem w d k k' q :
  (k', q) ∈ flat_items w d k ↔ k' = k ∧ ∃ n e, q = d ++ [n] ∧ names w !! q = Some e.
Proof.
  unfold flat_items. rewrite list_elem_of_fmap. split.
  - intros ([n e] & [= -> ->] & Hx%children_elem). eauto.
  - intros (-> & n & e & -> & He). exists (n, e). by rewrite children_elem.
Qed.

Lemma flat_items_nodup w d k : NoDup (map snd (flat_items w d k)).
Proof.
  unfold flat_items. rewrite map_map. pose proof (children_nodup w d) as Hnd.
  assert (map (λ x, (k, d ++ [x.1]).2) (children w d) = map (λ n, d ++ [n]) (map fst (children w d))) as ->
    by by rewrite map_map.
  apply NoDup_fmap_2; [|done]. intros x y. by intros [_ ?]%app_inj_tail.
Qed.

Definition leaf_items (ls : list (path * entry)) : list (InventoryEntryKind.t * path) :=
  map (λ x, (InventoryEntry.kind (item [] x.1 x.2), x.1)) ls.

Lemma layout_disjoint control n m :
  temporary (layout control) ++ [n] ≠ quarantine (layout control) ++ [m].
Proof. intros [Heq _]%app_inj_tail. by apply app_inj_tail in Heq as [_ ?]. Qed.

Lemma inventory_items `{System, !Answers, !Alone} control w : let self := layout control in
  world_ok w → entry_at w (temporary self) = Some Directory →
  entry_at w (quarantine self) = Some Directory → entry_at w (loose self) = Some Directory →
  ∃ items, returns (λ w', w' = w) (inventory_audited self)
      (λ r w', r = sort_by_key InventoryEntry.relative_path
                     (map (λ x, InventoryEntry.mk x.1 (skipn (length control) x.2)) items) ∧ w' = w) ∧
    NoDup (map snd items) ∧ (∀ k q, (k, q) ∈ items ↔ remnant self w k q) ∧
    ∀ k q, (k, q) ∈ items → control `prefix_of` q.
Proof.
  intros self Hok Ht Hq Hl.
  assert (∀ d, d ∈ [temporary self; quarantine self; loose self] → control `prefix_of` d) as Hroot.
  { intros d. rewrite !elem_of_cons. intros [->|[->|[->|Hd]]]; [..|by apply not_elem_of_nil in Hd];
      cbn; rewrite <-app_assoc; by eexists. }
  assert (names w !! loose self = Some Directory) as Hln by (cbn in Hl |- *; by rewrite entry_at_snoc in Hl).
  destruct (returns_loop w Hok control (S (size (names w))) [loose self]
    (map (λ x, InventoryEntry.mk x.1 (skipn (length control) x.2))
       (flat_items w (temporary self) InventoryEntryKind.StaleTemporary ++
        flat_items w (quarantine self) InventoryEntryKind.Quarantined))) as (ls & Hls & Hnd & Hin).
  { intros d ->%list_elem_of_singleton. split; [apply Hroot; set_solver|done]. }
  { split; [apply NoDup_singleton|]. by intros a b ->%list_elem_of_singleton ->%list_elem_of_singleton. }
  { cbn [sum_list_with]. pose proof (below_size (names w) (loose self)). lia. }
  set (tmp := flat_items w (temporary self) InventoryEntryKind.StaleTemporary) in *.
  set (quar := flat_items w (quarantine self) InventoryEntryKind.Quarantined) in *.
  assert (∀ k q, (k, q) ∈ leaf_items ls ↔ ∃ e, pending_leaf w [loose self] q e ∧
    k = match e with Regular _ => InventoryEntryKind.UnindexedOrphan | _ => InventoryEntryKind.Unexpected end) as Hleaf.
  { intros k q. unfold leaf_items. rewrite list_elem_of_fmap. setoid_rewrite <-Hin. split.
    - intros ([q' e] & [= -> ->] & Hx). eauto.
    - intros (e & He & ->). by exists (q, e). }
  assert (∀ k q, (k, q) ∈ tmp ++ quar ++ leaf_items ls ↔ remnant self w k q) as Hspec.
  { intros k q. rewrite !elem_of_app, Hleaf. unfold tmp, quar, remnant, pending_leaf. rewrite !flat_items_elem.
    setoid_rewrite list_elem_of_singleton. naive_solver. }
  exists (tmp ++ quar ++ leaf_items ls). split_and!; [|..|done|].
  - eapply returns_bind; [apply returns_flat; [apply Hroot; set_solver|done]|]. intros r1. cbn beta.
    apply returns_given. intros ->.
    eapply returns_bind; [apply returns_flat; [apply Hroot; set_solver|done]|]. intros r2. cbn beta.
    apply returns_given. intros ->. eapply returns_bind.
    + eapply returns_bind with (R := λ fuel w', fuel = S (size (names w)) ∧ w' = w).
      { intros w' ticks Hok' ->. by eexists _, _, _. }
      intros fuel. cbn beta. apply returns_given. intros ->.
      match type of Hls with returns _ (inventory_loop _ _ _ ?l) _ =>
        match goal with |- returns _ (inventory_loop _ _ _ ?l') _ => replace l' with l end end; [exact Hls|].
      unfold tmp, quar, flat_items. by rewrite map_app, !map_map.
    + intros r3. cbn beta. apply returns_given. intros ->. apply returns_ret. intros w' ->. split; [|done].
      f_equal. unfold leaf_items. rewrite !map_app, <-app_assoc, !map_map. done.
  - rewrite !map_app. apply NoDup_app. split_and!; [apply flat_items_nodup| |].
    + intros q ([k q'] & -> & (-> & n & e & -> & _)%flat_items_elem)%list_elem_of_fmap. cbn [snd].
      rewrite elem_of_app, !list_elem_of_fmap. intros [([k' q2] & Heq & Hx)|([k' q2] & Heq & Hx)]; cbn in Heq; subst q2.
      * apply flat_items_elem in Hx as (_ & m & e' & Heq & _). by apply layout_disjoint in Heq.
      * apply Hleaf in Hx as (e' & (d & ->%list_elem_of_singleton & Hp & _) & _).
        by apply (layout_apart control) in Hp; [|left].
    + apply NoDup_app. split_and!; [apply flat_items_nodup| |unfold leaf_items; by rewrite map_map].
      intros q ([k q'] & -> & (-> & n & e & -> & _)%flat_items_elem)%list_elem_of_fmap. cbn [snd].
      rewrite list_elem_of_fmap. intros ([k' q2] & Heq & Hx). cbn in Heq. subst q2.
      apply Hleaf in Hx as (e' & (d & ->%list_elem_of_singleton & Hp & _) & _).
      by apply (layout_apart control) in Hp; [|right].
  - intros k q (e & He & [(n & -> & _)|[(n & -> & _)|([r ->] & _)]])%Hspec; apply prefix_app_r, Hroot; set_solver.
Qed.

(** C31: The inventory is exact and always ends. On a quiet system the walk of the store returns,
    changes nothing, and lists every entry of the temporary and the quarantine directory and
    every entry below the published objects that is not a directory, each exactly once, with
    its kind, in the order of the paths. *)
Theorem inventory_exact `{System, !Answers, !Alone} control w ticks : let self := layout control in
  world_ok w → entry_at w (temporary self) = Some Directory →
  entry_at w (quarantine self) = Some Directory → entry_at w (loose self) = Some Directory →
  ∃ l s, inventory_audited self (State.mk w ticks, None) = (Ok l, (s, None)) ∧ State.world s = w ∧
    StronglySorted (key_lt InventoryEntry.relative_path) l ∧
    ∀ k p, InventoryEntry.mk k p ∈ l ↔ remnant self w k (control ++ p).
Proof.
  intros self Hok Ht Hq Hl.
  destruct (inventory_items control w Hok Ht Hq Hl) as (items & Hret & Hnd & Hspec & Hroot).
  destruct (Hret w ticks Hok eq_refl) as (l & w' & t' & Hr & _ & -> & ->).
  eexists _, _. split; [exact Hr|]. split; [done|]. split.
  - apply sort_by_key_nodup. rewrite map_map. cbn.
    assert (NoDup (map (skipn (length control)) (map snd items))) as Hm; [|by rewrite map_map in Hm].
    apply NoDup_fmap_2_strong; [|done].
    intros x y ([k q] & -> & [r Hx]%Hroot)%list_elem_of_fmap ([k2 q2] & -> & [r2 Hy]%Hroot)%list_elem_of_fmap.
    cbn. rewrite Hx, Hy, !drop_app_length. by intros ->.
  - intros k p. rewrite sort_by_key_perm, list_elem_of_fmap. split.
    + intros ([k' q] & [= -> ->] & Hx). destruct (Hroot _ _ Hx) as [r ->]. rewrite drop_app_length.
      by apply Hspec.
    + intros Hx%Hspec. exists (k, control ++ p). cbn. by rewrite drop_app_length.
Qed.

(** A temporary file left behind and an object, in the sample store. *)
Definition crashed_world : world :=
  with_file (with_file sample_world (temporary sample_store ++ [lit "put-00"]) (1, 0%nat) [1; 2])
    (loose sample_store ++ [lit "x.rgl"]) (1, 1%nat) [].

Lemma inventory_exact_witness :
  ∃ l s, @inventory_audited quiet_system sample_store (State.mk crashed_world 0, None) = (Ok l, (s, None)) ∧
    InventoryEntry.mk InventoryEntryKind.StaleTemporary [lit "objects"; lit "tmp"; lit "put-00"] ∈ l ∧
    InventoryEntry.mk InventoryEntryKind.UnindexedOrphan [lit "objects"; lit "loose"; lit "x.rgl"] ∈ l.
Proof.
  destruct (@inventory_exact quiet_system quiet_answers quiet_alone sample_control crashed_world 0)
    as (l & s & Hr & _ & _ & Hl).
  - apply with_file_ok; [apply with_file_ok; [apply sample_world_ok|..]|..]; vm_compute; reflexivity.
  - vm_compute. reflexivity.
  - vm_compute. reflexivity.
  - vm_compute. reflexivity.
  - exists l, s. split; [exact Hr|]. split; apply Hl.
    + exists (Regular (1, 0%nat)). split; [vm_compute; reflexivity|]. left. eexists. split; [|reflexivity]. reflexivity.
    + exists (Regular (1, 1%nat)). split; [vm_compute; reflexivity|]. right. right.
      split; [by exists [lit "x.rgl"]|]. split; [done|]. split; [done|reflexivity].
Defined.
