(* ===== verification/LooseSpec.v ===== *)
(** * The loose-object store: what it promises

    Safety of [put] under failures, interruptions and other processes; what a read returns;
    the exact effect of [put] on a system that answers; the incident across restarts. *)

From stdpp Require Import gmap.
From S2P Require Import Prelude Machine Order Utf8 Canonical CanonicalFacts ObjectId Types Objects Decode DecodeFacts Storable ObjectSpec StoreModel FileTree LooseFrame LoosePlatform LooseStore LooseFacts LooseRuns LooseOpen LooseReturns LoosePut.
Import World LooseStoreError LooseObjectStore.

(** ** Reading *)

(** Whatever the system does, what [verify_open_file] returns is verified. *)
Definition yields {A} (m : lio A) (Q : A → Prop) : Prop := ∀ s a s', m s = (Ok a, s') → Q a.

Lemma yields_bind {A B} (m : lio A) (f : A → lio B) R Q :
  yields m R → (∀ a, R a → yields (f a) Q) → yields (io_bind m f) Q.
Proof.
  intros Hm Hf s b s'. unfold io_bind. destruct (m s) as [[a|e] s1] eqn:Hms; [|done].
  intros Hb. eapply Hf; [by eapply Hm|exact Hb].
Qed.

Lemma yields_any {A} (m : lio A) : yields m (λ _, True).
Proof. done. Qed.

Lemma yields_map_err {A} f (m : lio A) Q : yields m Q → yields (io_map_err f m) Q.
Proof.
  intros Hm s a s'. unfold io_map_err, io_bind, attempt. specialize (Hm s).
  destruct (m s) as [[b|[]] s1]; cbn; try done. intros [= <- <-]. by eapply Hm.
Qed.

Section reading.
Context `{Unicode, Digests, System}.

(** The bytes of an object, as the verified decoder accepts them. *)
Definition verified (id : ObjectId) (payload : list Z) (o : AnyObject.t) : Prop :=
  AnyObject.decode_verified payload id (limits_for (kind (AnyObject.decoded o))) = Ok o.

Lemma validate_verified id kd schema payload expected r :
  validate_logical_record id kd schema payload (Some expected) None = Ok r →
  verified expected (VerifiedRecord.payload r) (VerifiedRecord.object r).
Proof.
  unfold validate_logical_record. intros (o & Ho%map_err_Ok & Hv)%bind_Ok.
  apply bail_Ok in Hv as [[Hk%negb_false_iff%bool_decide_eq_true _]%orb_false_iff Hv].
  apply bail_Ok in Hv as [He%negb_false_iff%bool_decide_eq_true [= <-]].
  unfold verified. cbn. by subst.
Qed.

#[local] Opaque validate_logical_record.

Lemma parse_verified content length id r :
  parse_record_stream content length (Some id) None = Ok r →
  verified id (VerifiedRecord.payload r) (VerifiedRecord.object r).
Proof.
  unfold parse_record_stream. intros Hp. cbv zeta in Hp.
  repeat first [apply bail_Ok in Hp as [_ Hp] | apply bind_Ok in Hp as ([? ?] & _ & Hp)
    | apply bind_Ok in Hp as (? & _ & Hp)].
  by eapply validate_verified.
Qed.

#[local] Transparent validate_logical_record.

Lemma verify_yields i id :
  yields (verify_open_file i (Some id) None)
    (λ r, verified id (VerifiedRecord.payload r) (VerifiedRecord.object r)).
Proof.
  eapply yields_bind; [apply yields_any|]. intros [length links] _. cbn beta iota.
  destruct (_ <? _); [done|]. destruct (negb _); [done|].
  eapply yields_bind; [apply yields_any|]. intros _ _.
  eapply yields_bind; [apply yields_any|]. intros content _ s r s'.
  unfold pure_result, inspect. destruct (parse_record_stream _ _ _ _) eqn:Hp; cbn; [|done].
  intros [= <- <-]. by eapply parse_verified.
Qed.

Lemma open_record_yields self id :
  yields (open_record self id) (λ r, verified id (VerifiedRecord.payload r) (VerifiedRecord.object r)).
Proof.
  eapply yields_bind; [apply yields_any|]. intros [parent name] _.
  eapply yields_bind; [apply yields_any|]. intros file _. apply verify_yields.
Qed.

Lemma read_audited_yields self id :
  yields (read_audited self id)
    (λ r, verified id (VerifiedReader.bytes r) (VerifiedReader.object r) ∧ VerifiedReader.position r = 0).
Proof.
  eapply yields_bind; [apply open_record_yields|]. intros r Hr s a s' [= <- <-]. done.
Qed.
End reading.

(** C15: No unverified byte is ever read. Whatever the disk holds, whatever other processes do
    while the file is read and however calls fail: if reading an object returns, plainly,
    typed or decoded, the bytes it returns decode, under the limits of their kind, to
    the returned object and hash to the identifier that was asked for; a typed read returns the
    kind that was asked for, and a decoded read the references of the object. *)
Theorem read_returns_verified `{Unicode, Digests, System} self id kd s :
  (∀ r s', read self id s = (Ok r, s') → verified id (VerifiedReader.bytes r) (VerifiedReader.object r)) ∧
  (∀ r s', read_typed self id kd s = (Ok r, s') →
     verified id (VerifiedReader.bytes r) (VerifiedReader.object r) ∧
     kind (AnyObject.decoded (VerifiedReader.object r)) = kd) ∧
  (∀ r s', read_object self id s = (Ok r, s') →
     StoredObject.id r = id ∧ verified id (StoredObject.bytes r) (StoredObject.object r) ∧
     References.references (AnyObject.decoded (StoredObject.object r)) = Ok (StoredObject.references r)).
Proof.
  split_and!.
  - intros r s'. apply (yields_map_err _ _ (λ r, verified id (VerifiedReader.bytes r) (VerifiedReader.object r))).
    intros ? ? ? Hr. by eapply read_audited_yields.
  - apply (yields_map_err _ _ (λ r, verified id (VerifiedReader.bytes r) (VerifiedReader.object r) ∧
      kind (AnyObject.decoded (VerifiedReader.object r)) = kd)).
    eapply yields_bind; [apply read_audited_yields|]. intros r [Hr _]. cbn beta.
    destruct (bool_decide _) eqn:Hk; cbn; [|done]. apply bool_decide_eq_true in Hk.
    by intros ? ? ? [= <- <-].
  - apply (yields_map_err _ _ (λ r, StoredObject.id r = id ∧ verified id (StoredObject.bytes r) (StoredObject.object r) ∧
      References.references (AnyObject.decoded (StoredObject.object r)) = Ok (StoredObject.references r))).
    eapply yields_bind; [apply open_record_yields|]. intros r Hr s1 o s2.
    unfold pure_result, inspect, StoredObject.new. cbn.
    destruct (References.references _) eqn:Href; cbn; [|done]. by intros [= <- <-].
Qed.

(** ** Safety of [put] *)

(** C14: Publication is safe under failures, interruptions and concurrency. Consider any run
    of [put] on a store whose other users keep to the rely: whichever calls fail, wherever the
    run is cut off and whatever the others do between its calls, every step of the run keeps
    to the guarantee that the others rely on. So no published entry is ever replaced, altered
    or linked elsewhere, every new entry among the published objects is a directory or a
    complete verified record under the path of its identifier, and an incident once
    raised stays raised. If [put] returns, its object is published. *)
Theorem put_safe `{Unicode, DigestLaws, System} control id payload w ticks fuse :
  let self := layout control in
  Others self → world_ok w → is_bytes payload = true →
  let '(r, (s, _)) := put self id payload (State.mk w ticks, fuse) in
  moves self process w (State.world s) ∧ extends self w (State.world s) ∧ world_ok (State.world s) ∧
  (∀ outcome, r = Ok outcome → ∃ i, holds self (State.world s) id payload i) ∧
  (∀ other a b, other ≠ process → guarantee self process a b → rely self other a b).
Proof.
  intros self Hothers Hok Hb.
  assert (good self w w) as Hg by (split; [apply rtc_refl|done]).
  pose proof (triple_put self w (layout_apart control) id payload Hb w Hg I ticks fuse) as Ht.
  destruct (put _ _ _ _) as [[o|e] [s fuse']]; destruct Ht as [[Hm Hw] HQ];
    (split_and!; [done|by eapply moves_extends|done|naive_solver|]);
    intros other a b Hne; by apply guarantee_rely.
Qed.

Lemma put_safe_witness :
  let run := @put ascii_unicode sample_digests quiet_system sample_store loose_id loose_payload
    (State.mk sample_world 0, None) in
  run.1 = Ok PutLooseOutcome.New ∧
  ∃ i, @holds ascii_unicode sample_digests sample_store (State.world run.2.1) loose_id loose_payload i.
Proof.
  intros run. assert (run.1 = Ok PutLooseOutcome.New) as Hrun by (vm_compute; reflexivity).
  split; [exact Hrun|].
  pose proof (@put_safe ascii_unicode sample_digests sample_digest_laws quiet_system sample_control
    loose_id loose_payload sample_world 0%nat None (@others_alone _ _ quiet_system quiet_alone _)
    sample_world_ok eq_refl) as Hsafe.
  cbv zeta in Hsafe. change (layout sample_control) with sample_store in Hsafe. fold run in Hsafe.
  destruct run as [r [s f]]. cbn [fst snd] in *. destruct Hsafe as (_ & _ & _ & Hq & _). by apply (Hq _ Hrun).
Defined.

(** ** Reading back *)

#[global] Instance stable_undisturbed `{Unicode, Digests, System} self J :
  Others self → Stable self J → Undisturbed J.
Proof.
  intros Hot HJ n w Hok HJw. pose proof (others_rely n w Hok) as Hr.
  split; [by apply Hr|by eapply HJ].
Qed.

Lemma holds_framed `{Unicode, DigestLaws} self w id payload i : holds self w id payload i →
  ∃ o frame, oid_ok id = true ∧ is_bytes payload = true ∧ is_bytes frame = true ∧
    AnyObject.decode_verified payload id bulk = Ok o ∧ encode_frame id o payload = Ok frame ∧
    recorded self (object_path self id) i frame w.
Proof.
  intros (o & frame & Hid & Hb & Hdec & Henc & Hf & Ho). exists o, frame. split_and!; try done.
  - apply decode_verified_Ok in Hdec as [Hd _].
    apply decode_schema in Hd as [Hs _]; [|done|apply bulk_limits_ok]. by eapply frame_is_bytes.
  - split; [split; [apply object_path_loose|done]|done].
Qed.

Lemma returns_read `{Unicode, DigestLaws, System, !Answers} self id payload i w : Others self →
  holds self w id payload i →
  returns (λ w', recorded self (object_path self id) i (default [] (files w !! i)) w') (read self id)
    (λ r _, VerifiedReader.bytes r = payload ∧ VerifiedReader.position r = 0).
Proof.
  intros Hot (o & frame & Hid & Hb & Hfb & Hdec & Henc & Hrec)%holds_framed.
  destruct Hrec as [Hl Hf]. rewrite Hf. cbn.
  assert (Stable self (recorded self (object_path self id) i frame)) by apply stable_recorded.
  apply returns_map_err. eapply returns_bind.
  - apply (returns_open_record self id payload o frame i); try done; [apply _|].
    intros w' _ [[_ Ho] Hf']. done.
  - intros r. cbn beta. apply returns_given. intros ->. by apply returns_ret.
Qed.

(** C16: Written objects are read back, forever. After a [put] has returned, in every later
    world that the steps of this or any other process lead to, reading the object returns
    exactly the bytes that were put, as soon as the system answers the calls of the read and whatever
    other processes do in the meantime. *)
Theorem put_then_read `{Unicode, DigestLaws} (S1 S2 : System) control id payload w ticks fuse outcome s fuse' w2 ticks2 :
  let self := layout control in
  @Others _ _ S1 self → world_ok w → is_bytes payload = true →
  @put _ _ S1 self id payload (State.mk w ticks, fuse) = (Ok outcome, (s, fuse')) →
  rtc (λ a b, ∃ p, guarantee self p a b) (State.world s) w2 →
  @Others _ _ S2 self → @Answers S2 →
  ∃ r s', @read _ _ S2 self id (State.mk w2 ticks2, None) = (Ok r, (s', None)) ∧
    VerifiedReader.bytes r = payload ∧ VerifiedReader.position r = 0.
Proof.
  intros self Ho1 Hok Hb Hput Hlater Ho2 Ha2.
  assert (@good _ _ S1 self w w) as Hg by (split; [apply rtc_refl|done]).
  pose proof (@triple_put _ _ _ S1 self Ho1 w (layout_apart control) id payload Hb w Hg I ticks fuse) as Ht.
  rewrite Hput in Ht. destruct Ht as [[Hm Hw] [i Hh]].
  assert (extends self (State.world s) w2) as He.
  { clear -Hlater. induction Hlater as [|a b c [p [Hg _]] _ IH]; [apply extends_refl|].
    by eapply extends_trans. }
  pose proof (extends_holds _ _ _ _ _ _ He Hh) as Hh2.
  destruct (holds_framed _ _ _ _ _ Hh2) as (o & frame & _ & _ & _ & _ & _ & Hrec).
  destruct (@returns_read _ _ _ S2 Ha2 self id payload i w2 Ho2 Hh2 w2 ticks2) as (r & w3 & t3 & Hr & _ & HQ).
  - by apply He.
  - destruct Hrec as [Hl Hf]. rewrite Hf. done.
  - eauto.
Qed.

Definition sample_run : result (stop lerr) PutLooseOutcome.t * (State.t * option nat) :=
  @put ascii_unicode sample_digests quiet_system sample_store loose_id loose_payload
    (State.mk sample_world 0, None).

Lemma put_then_read_witness :
  ∃ r s', @read ascii_unicode sample_digests quiet_system sample_store loose_id
            (State.mk (State.world sample_run.2.1) 7, None) = (Ok r, (s', None)) ∧
    VerifiedReader.bytes r = loose_payload ∧ VerifiedReader.position r = 0.
Proof.
  assert (sample_run.1 = Ok PutLooseOutcome.New) as Hrun by (vm_compute; reflexivity).
  apply (@put_then_read ascii_unicode sample_digests sample_digest_laws quiet_system quiet_system
    sample_control loose_id loose_payload sample_world 0%nat None PutLooseOutcome.New sample_run.2.1
    sample_run.2.2).
  - exact (@others_alone _ _ quiet_system quiet_alone _).
  - exact sample_world_ok.
  - vm_compute. reflexivity.
  - change (sample_run = (Ok PutLooseOutcome.New, (sample_run.2.1, sample_run.2.2))).
    rewrite <-Hrun. by destruct sample_run as [r [s f]].
  - apply rtc_refl.
  - exact (@others_alone _ _ quiet_system quiet_alone _).
  - exact quiet_answers.
Defined.

(** ** The exact outcome of [put] *)

Lemma ends_run {A} `{System} P (m : lio A) Q w ticks : ends P m Q → world_ok w → P w →
  ∃ r s, m (State.mk w ticks, None) = (map_err Raised r, (s, None)) ∧ Q r (State.world s).
Proof.
  intros Hm Hok HP. destruct (Hm w ticks Hok HP) as (r & w' & t' & Hr & _ & HQ).
  exists r, (State.mk w' t'). split; [|done]. revert Hr. unfold attempt.
  destruct (m _) as [[a|[]] ?]; by intros [= <- <-].
Qed.

(** C17: The outcome of [put] on a system that answers. With a ready store and a verified
    payload, [put] always ends: when the way to the place of the object is clear it reports a new object
    and the object is published; when the object is published already it reports that; and
    when anything else is at that place it reports the collision, leaves that entry alone, raises the incident,
    leaves the marker of the incident and keeps its complete record in the quarantine. *)
Theorem put_exact `{Unicode, DigestLaws, System, !Answers, !Alone} control id payload o w ticks :
  let self := layout control in
  let run := put self id payload (State.mk w ticks, None) in
  ready self w → is_bytes payload = true → AnyObject.decode_verified payload id bulk = Ok o →
  (clear_way w (loose self) (path_components id).1 (path_components id).2 →
    ∃ s, run = (Ok PutLooseOutcome.New, (s, None)) ∧ ∃ j, holds self (State.world s) id payload j) ∧
  (∀ j, holds self w id payload j →
    ∃ s, run = (Ok PutLooseOutcome.AlreadyPresent, (s, None)) ∧
      ∃ j, holds self (State.world s) id payload j) ∧
  (∀ e, names w !! object_path self id = Some e → (∀ j, ¬ holds self w id payload j) →
    ∃ s, run = (Err (Raised CollisionIncident), (s, None)) ∧
      ∃ i frame, encode_frame id o payload = Ok frame ∧
        incident_recorded self i frame (object_path self id) e (State.world s)).
Proof.
  intros self run Hready Hb Hdec. pose proof (ready_ok _ _ Hready) as Hok.
  pose proof (layout_apart control) as Hap. split_and!.
  - intros Hclear. pose proof (put_new self Hap w id payload o Hready Hb Hdec) as Hnew.
    destruct (path_components id) as [components name].
    destruct (ends_run _ _ _ w ticks (Hnew Hclear) Hok eq_refl) as (r & s & Hr & -> & Hh). eauto.
  - intros j Hj. destruct (ends_run _ _ _ w ticks (put_present self Hap w id payload o Hready Hb Hdec j Hj) Hok eq_refl)
      as (r & s & Hr & -> & Hh). eauto.
  - intros e He Hno. destruct (ends_run _ _ _ w ticks (put_collides self Hap w id payload o Hready Hb Hdec e He Hno) Hok eq_refl)
      as (r & s & Hr & -> & Hh). eauto.
Qed.

Lemma sample_clear :
  clear_way sample_world (loose sample_store) (path_components loose_id).1 (path_components loose_id).2.
Proof.
  split_and!; [vm_compute; reflexivity| |vm_compute; reflexivity].
  intros d Hd. destruct d as [|x d _] using rev_ind; [right; vm_compute; reflexivity|left].
  rewrite app_assoc. destruct d as [|y d].
  - apply (sample_free (loose sample_store ++ [])). done.
  - rewrite entry_at_snoc. destruct (names sample_world !! _) as [e|] eqn:He; [|done].
    apply sample_names in He as [Hp _]. unfold sample_dirs in Hp.
    repeat (apply elem_of_cons in Hp as [Hp|Hp];
      [apply (f_equal (@length str)) in Hp; rewrite !length_app in Hp; cbn in Hp; lia|]).
    by apply not_elem_of_nil in Hp.
Qed.

Lemma put_exact_witness :
  ∃ s, @put ascii_unicode sample_digests quiet_system sample_store loose_id loose_payload
         (State.mk sample_world 0, None) = (Ok PutLooseOutcome.New, (s, None)) ∧
    ∃ j, @holds ascii_unicode sample_digests sample_store (State.world s) loose_id loose_payload j.
Proof.
  apply (@put_exact ascii_unicode sample_digests sample_digest_laws quiet_system quiet_answers quiet_alone
    sample_control loose_id loose_payload loose_object sample_world 0%nat);
    [apply sample_ready|vm_compute; reflexivity|vm_compute; reflexivity|apply sample_clear].
Defined.

(** ** Incidents *)

(** C18: An incident survives restarts. If the marker of an incident is in the quarantine or the
    temporary directory, then whatever else happens while the store is opened (failing calls, provided
    none denies the existence of a name falsely, and other processes that keep to the rely), a store that opens has the
    incident flag raised, and refuses every [put] without a single call to the system. *)
Theorem incident_survives_restart `{Unicode, DigestLaws, System, !Honest} control w ticks fuse store s fuse' :
  let self := layout control in
  Others self → world_ok w → (∃ p, p ∈ markers self ∧ is_Some (names w !! p)) →
  open_with_injector control (State.mk w ticks, fuse) = (Ok store, (s, fuse')) →
  store = self ∧ incident (State.world s) = true ∧
  ∀ id payload fuse2, put store id payload (s, fuse2) = (Err (Raised ReadOnlyIncident), (s, fuse2)).
Proof.
  intros self Hot Hok Hmark. unfold open_with_injector, io_bind.
  assert (good self w w) as Hg by (split; [apply rtc_refl|done]).
  pose proof (triple_open_layout control w Hot w Hg Logic.I ticks fuse) as Ht.
  destruct (open_layout control _) as [[[st b]|e] [s1 f1]]; [|done].
  destruct Ht as (_ & Hst & Hb). cbn in Hst, Hb. rewrite (Hb Hmark). intros [= <- <- <-].
  split_and!; [done|done|]. intros id payload fuse2. done.
Qed.

Definition incident_world : world :=
  with_file sample_world (quarantine sample_store ++ [INCIDENT]) (1, 0%nat) incident_text.

Lemma incident_survives_restart_witness :
  let run := @open_with_injector quiet_system sample_control (State.mk incident_world 0, None) in
  run.1 = Ok sample_store ∧ incident (State.world run.2.1) = true.
Proof.
  intros run. assert (run.1 = Ok sample_store) as Hrun by (vm_compute; reflexivity).
  split; [exact Hrun|].
  assert (run = (Ok sample_store, (run.2.1, run.2.2))) as Heq.
  { rewrite <-Hrun. by destruct run as [r [s f]]. }
  apply (@incident_survives_restart ascii_unicode sample_digests sample_digest_laws quiet_system
    ltac:(done) sample_control incident_world 0%nat None sample_store run.2.1 run.2.2).
  - exact (@others_alone _ _ quiet_system quiet_alone _).
  - apply with_file_ok; [apply sample_world_ok|..]; vm_compute; reflexivity.
  - exists (quarantine sample_store ++ [INCIDENT]). split; [left|]. vm_compute. by eexists.
  - exact Heq.
Defined.
