(* ===== verification/WorkingPlan.v ===== *)
(** * Working-tree plans: [src/checkout_paths.rs], [src/transaction/working_plan.rs] and the
      working-file part of [src/transaction.rs]

    The file system is that of Unix: the branches for other platforms are left out. File
    names are Unicode text. *)

From stdpp Require Import gmap.
From S2P Require Import Prelude Machine Order Utf8 Path FileTree.

(** The failures, by their messages. *)
Module TxError.
Inductive t :=
  | UnsafePath | AliasedPaths | AliasesExisting | UnsafeParent | ShapeCollision
  | UntrackedDirectory | MissingFromPlan | EmptyPath
  | TraversesSymlink | NonDirectoryParent | NotRegular
  | LinkTarget | LinkTargetMissing | LinkMode
  | ChangedDuringCommand | EditedAfterInterruption | ChangedDuringRecovery
  | DirectoryChanged | PreservingUntracked | NotADirectory | UnsafeTarget
  | WouldOverwrite | LocalChanges
  | InvalidMetadataPath | NotJson | UnsafeMetadataPath | InvalidJournalPath | JournalConflict
  | DatabaseFormat | ReadFailed | Worktree
  | Io
  | PublicationIncomplete (source : t)
  | Unfinished.  (* a loop of the model out of fuel *)
#[global] Instance eq_dec : EqDecision t.
Proof. intros x y. unfold Decision. decide equality. Defined.
End TxError.

Module WorkingFlags.
Record t := mk { executable : bool; symlink : bool }.
Definition default : t := mk false false.
#[global] Instance eq_dec : EqDecision t.
Proof. solve_decision. Defined.
End WorkingFlags.

Module WorkingUpdate.
Record t := mk {
  before : option (list Z);
  after : option (list Z);
  before_executable : option bool;
  after_executable : option bool;
  before_symlink : option bool;
  after_symlink : option bool }.
End WorkingUpdate.

Notation updates := (BTreeMap str WorkingUpdate.t).

(** ** Keys *)

Definition to_ascii_lowercase (s : str) : str :=
  map (λ c, if (0x41 <=? c) && (c <=? 0x5a) then c + 32 else c) s.

Definition unsafe_part (part : str) : bool :=
  bool_decide (part = []) || bool_decide (part = lit ".") || bool_decide (part = lit "..")
  || bool_decide (to_ascii_lowercase part = lit ".git")
  || bool_decide (to_ascii_lowercase part = lit ".rgit").

(** A component that is not [Component::Normal] is a leading slash, [.] or [..], so the test
    of the parts covers it, as it covers the empty key. *)
Definition validate_working_key (key : str) : result TxError.t () :=
  bail_if existsb unsafe_part (split_slash key) with TxError.UnsafePath;
  Ok tt.

(** [if !prefix.is_empty() { prefix.push('/') } prefix.push_str(part)]. *)
Definition push_part (prefix part : str) : str :=
  match prefix with [] => part | _ => prefix ++ 0x2f :: part end.

(** ** [src/checkout_paths.rs] *)

Section paths.
Context `{Unicode}.

Definition fold (value : str) : str := nfc (case_fold value).

(** The loop over the parts of one path. *)
Fixpoint validate_parts (prefixes : BTreeMap str str) (prefix : str) (parts : list str) :
    result TxError.t (BTreeMap str str) :=
  match parts with
  | [] => Ok prefixes
  | part :: parts =>
      let prefix := push_part prefix part in
      let previous := bt_get (fold prefix) prefixes in
      bail_if match previous with Some p => negb (bool_decide (p = prefix)) | None => false end
        with TxError.AliasedPaths;
      validate_parts (bt_insert (fold prefix) prefix prefixes) prefix parts
  end.

Definition validate_path (prefixes : BTreeMap str str) (key : str) :
    result TxError.t (BTreeMap str str) :=
  _ ← validate_working_key key;
  validate_parts prefixes [] (split_slash key).

Definition validate (paths : list str) : result TxError.t () :=
  _ ← try_fold validate_path paths [];
  Ok tt.

(** Another spelling of [part] in the directory [parent]. The source caches the folded
    listings; the tree does not change while it runs. *)
Definition aliased (t : tree) (parent : path) (part : str) : bool :=
  existsb (λ name, bool_decide (fold name = fold part) && negb (bool_decide (name = part)))
    (read_dir t parent).

Fixpoint existing_parts (t : tree) (blocking_files : BTreeSet str) (parent : path) (prefix : str)
    (parts : list str) : result TxError.t () :=
  match parts with
  | [] => Ok tt
  | part :: rest =>
      bail_if aliased t parent part with TxError.AliasesExisting;
      let parent := parent ++ [part] in
      let prefix := push_part prefix part in
      match rest with
      | [] => Ok tt
      | _ =>
          match lstat t parent with
          | Some Dir => existing_parts t blocking_files parent prefix rest
          | Some _ => if set_contains prefix blocking_files then Ok tt else Err TxError.UnsafeParent
          | None => Ok tt
          end
      end
  end.

Definition validate_existing (t : tree) (paths : list str) (blocking_files : BTreeSet str) :
    result TxError.t () :=
  try_for_each (λ key,
    _ ← validate_working_key key;
    existing_parts t blocking_files [] [] (split_slash key)) paths.
End paths.

(** ** Files of the working tree *)

(** [mode & 0o111 != 0]. *)
Definition executable_mode (mode : Z) : bool := negb (Z.land mode 0x49 =? 0).

(** The permission bits of directories and special files are not kept: [current] asks for
    flags only where [read_working] succeeded, at files and links. *)
Definition is_executable (n : node) : bool :=
  match n with File _ mode => executable_mode mode | Link _ => false | Dir | Special => false end.

Definition working_flags (t : tree) (p : path) : WorkingFlags.t :=
  match lstat t p with
  | Some n => WorkingFlags.mk (is_executable n) (match n with Link _ => true | _ => false end)
  | None => WorkingFlags.default
  end.

(** [working_path]: every parent is a directory or missing, the last part a file or link. *)
Fixpoint check_working (t : tree) (dir : path) (parts : list str) : result TxError.t () :=
  match parts with
  | [] => Ok tt
  | part :: rest =>
      let p := dir ++ [part] in
      match lstat t p, rest with
      | Some (Link _), _ :: _ => Err TxError.TraversesSymlink
      | Some (File _ _ | Special), _ :: _ => Err TxError.NonDirectoryParent
      | Some (Dir | Special), [] => Err TxError.NotRegular
      | _, _ => check_working t p rest
      end
  end.

Definition working_path (t : tree) (key : str) : result TxError.t path :=
  _ ← validate_working_key key;
  _ ← check_working t [] (split_slash key);
  Ok (split_slash key).

Definition read_working (t : tree) (key : str) : result TxError.t (option (list Z)) :=
  p ← working_path t key;
  match lstat t p with
  | Some (Link target) => Ok (Some target)
  | Some (File bytes _) => Ok (Some bytes)
  | None => Ok None
  | Some (Dir | Special) => Err TxError.ReadFailed
  end.

Definition validate_link (bytes : list Z) : result TxError.t () :=
  bail_if bool_decide (bytes = []) || existsb (Z.eqb 0) bytes with TxError.LinkTarget;
  Ok tt.

(** ** Plans *)

Module Current.
Record t := mk { bytes : option (list Z); flags : WorkingFlags.t }.

Definition is_none_or (o : option bool) (value : bool) : bool :=
  match o with Some v => Bool.eqb v value | None => true end.

Definition matches (self : t) (expected : option (list Z)) (executable symlink : option bool) : bool :=
  if negb (bool_decide (bytes self = expected)) then false
  else
    match bytes self with
    | None => true
    | Some _ =>
        is_none_or executable (WorkingFlags.executable (flags self))
        && is_none_or symlink (WorkingFlags.symlink (flags self))
    end.

Definition absent : t := mk None WorkingFlags.default.

Definition matches_before (self : t) (u : WorkingUpdate.t) : bool :=
  matches self (WorkingUpdate.before u) (WorkingUpdate.before_executable u)
    (WorkingUpdate.before_symlink u).
Definition matches_after (self : t) (u : WorkingUpdate.t) : bool :=
  matches self (WorkingUpdate.after u) (WorkingUpdate.after_executable u)
    (WorkingUpdate.after_symlink u).
End Current.

(** [ShapePlan]: for each key, whether a file is there before and after. *)
Notation ShapePlan := (BTreeMap str (bool * bool)).

(** The proper prefixes of a key, as texts. *)
Fixpoint proper_prefixes (prefix : str) (parts : list str) : list str :=
  match parts with
  | [] | [_] => []
  | part :: rest => let prefix := push_part prefix part in prefix :: proper_prefixes prefix rest
  end.

Definition side_files (plan : ShapePlan) (after : bool) : BTreeSet str :=
  set_of_list (omap (λ e : str * (bool * bool), if if after then e.2.2 else e.2.1 then Some e.1 else None) plan).

Definition check_side (plan : ShapePlan) (after : bool) : result TxError.t () :=
  let files := side_files plan after in
  try_for_each (λ key,
    bail_if existsb (λ prefix, set_contains prefix files) (proper_prefixes [] (split_slash key))
      with TxError.ShapeCollision;
    Ok tt) (set_elems files).

Definition new_plan `{Unicode} (paths : list (str * bool * bool)) : result TxError.t ShapePlan :=
  let plan := fold_left (λ plan e, bt_insert e.1.1 (e.1.2, e.2) plan) paths [] in
  _ ← validate (bt_keys plan);
  _ ← try_for_each (check_side plan) [false; true];
  Ok plan.

Definition from_updates `{Unicode} (us : updates) : result TxError.t ShapePlan :=
  new_plan (map (λ e, (e.1, bool_decide (is_Some (WorkingUpdate.before e.2)),
                            bool_decide (is_Some (WorkingUpdate.after e.2)))) us).

Definition validate_aliases `{Unicode} (plan : ShapePlan) (t : tree) : result TxError.t () :=
  let blockers :=
    set_of_list (omap (λ e : str * (bool * bool), if e.2.1 || e.2.2 then Some e.1 else None) plan) in
  validate_existing t (bt_keys plan) blockers.

(** The traversal of a directory that a file is to replace. *)
Definition replaceable_entry (plan : ShapePlan) (t : tree) (p : path) :
    result TxError.t (option path) :=
  let key := join p in
  _ ← validate_working_key key;
  match lstat t p with
  | None => Err TxError.Io
  | Some Dir => Ok (Some p)
  | Some _ =>
      bail_if negb (bool_decide (bt_get key plan = Some (true, false)))
        with TxError.UntrackedDirectory;
      Ok None
  end.

Fixpoint replaceable_loop (plan : ShapePlan) (t : tree) (fuel : nat) (pending : list path) :
    result TxError.t () :=
  match fuel with
  | O => Err TxError.Unfinished
  | S fuel =>
      match pending with
      | [] => Ok tt
      | dir :: pending =>
          match lstat t dir with
          | Some Dir =>
              next ← try_map (λ name, replaceable_entry plan t (dir ++ [name])) (read_dir t dir);
              replaceable_loop plan t fuel (rev (omap id next) ++ pending)
          | _ => Err TxError.NotADirectory
          end
      end
  end.

(** Every node of the tree is pending at most once. *)
Definition directory_can_be_replaced (plan : ShapePlan) (t : tree) (p : path) :
    result TxError.t () :=
  replaceable_loop plan t (S (S (size t))) [p].

Fixpoint current_parts (plan : ShapePlan) (t : tree) (key : str) (before after : bool)
    (dir : path) (prefix : str) (parts : list str) : result TxError.t Current.t :=
  match parts with
  | [] => Err TxError.EmptyPath
  | part :: rest =>
      let p := dir ++ [part] in
      let prefix := push_part prefix part in
      match lstat t p with
      | None => Ok Current.absent
      | Some n =>
          match rest with
          | _ :: _ =>
              if is_dir n then current_parts plan t key before after p prefix rest
              else
                match bt_get prefix plan with
                | Some (parent_before, parent_after) =>
                    if (parent_before && negb before) || (parent_after && negb after)
                    then Ok Current.absent else Err TxError.UnsafeParent
                | None => Err TxError.UnsafeParent
                end
          | [] =>
              if is_dir n then
                _ ← (if after then directory_can_be_replaced plan t p else Ok tt);
                Ok Current.absent
              else
                bytes ← read_working t key;
                Ok (Current.mk bytes (working_flags t p))
          end
      end
  end.

Definition current (plan : ShapePlan) (t : tree) (key : str) : result TxError.t Current.t :=
  _ ← validate_working_key key;
  '(before, after) ← ok_or (bt_get key plan) TxError.MissingFromPlan;
  current_parts plan t key before after [] [] (split_slash key).

Definition validate_side (bytes : option (list Z)) (executable symlink : option bool) :
    result TxError.t () :=
  if bool_decide (symlink = Some true) then
    target ← ok_or bytes TxError.LinkTargetMissing;
    _ ← validate_link target;
    bail_if bool_decide (executable = Some true) with TxError.LinkMode;
    Ok tt
  else Ok tt.

Definition validate_updates (us : updates) : result TxError.t () :=
  try_for_each (λ u,
    _ ← validate_side (WorkingUpdate.before u) (WorkingUpdate.before_executable u)
          (WorkingUpdate.before_symlink u);
    validate_side (WorkingUpdate.after u) (WorkingUpdate.after_executable u)
      (WorkingUpdate.after_symlink u)) (bt_values us).
