(* ===== verification/Publication.v ===== *)
(** * Publishing files and working plans: [publish] of [src/transaction/working_plan.rs] and
      the file operations of [src/transaction.rs]

    Every call of the system can fail and the process can be killed in it ([FileTree.syscall]).
    Reads that belong together are one call; synchronisation is a call that can fail, and changes
    reach the disk in the order they are made. *)

From stdpp Require Import gmap.
From S2P Require Import Prelude Machine Order Utf8 Path FileTree WorkingPlan.

(** What the system supplies: the permission bits of a new file under the process's mask, and
    the random part of a temporary name. *)
Class Platform := {
  create_mode : Z;
  random_name : tree → path → str }.

Notation tio := (eff schedule TxError.t).

Section publication.
Context `{Platform}.

(** ** System calls *)

Definition ensure_directory (t : tree) (p : path) : result TxError.t () :=
  match lstat t p with
  | Some Dir => Ok tt
  | Some _ => Err TxError.NotADirectory
  | None => Err TxError.Io
  end.

(** A look at the disk, and a call that changes it entirely or not at all. *)
Definition observe {S A} (f : S → result TxError.t A) : tio S A := observe_call TxError.Io f.
Definition commit_change {S} (f : S → result TxError.t S) : tio S () :=
  commit_call TxError.Io (λ s, s' ← f s; Ok (tt, s')).

(** [file.sync_all()] and [sync_parent]. *)
Definition sync : tio tree () := observe (λ _, Ok tt).

(** [OpenOptions::new().write(true).create_new(true).open(p)] and [symlink(.., p)]. *)
Definition create_new (p : path) (n : node) : tio tree () :=
  commit_change (λ t, bail_if bool_decide (is_Some (lstat t p)) with TxError.Io; Ok (<[p := n]> t)).

(** Changing a file that this process has open. *)
Definition on_file (p : path) (f : list Z → Z → node) (t : tree) : tree :=
  alter (λ n, match n with File bytes mode => f bytes mode | n => n end) p t.

(** [file.set_permissions(..)]. *)
Definition set_permissions (p : path) (mode : Z) : tio tree () :=
  commit_change (λ t, Ok (on_file p (λ bytes _, File bytes mode) t)).

(** [file.metadata()?.permissions().mode()]. *)
Definition file_mode (p : path) : tio tree Z :=
  observe (λ t, match lstat t p with Some (File _ mode) => Ok mode | _ => Err TxError.Io end).

(** [file.write_all(bytes)]: what it wrote before it stops is in the file. *)
Definition append (p : path) (bytes : list Z) : tree → tree :=
  on_file p (λ content mode, File (content ++ bytes) mode).
Definition write_all (p : path) (bytes : list Z) : tio tree () :=
  syscall TxError.Io (λ k, append p (firstn k bytes)) (λ t, Ok (tt, append p bytes t)).

Definition remove_file (p : path) : tio tree () :=
  commit_change (λ t,
    match lstat t p with None | Some Dir => Err TxError.Io | Some _ => Ok (delete p t) end).

(** [fs::rename] of a file or link this process created. *)
Definition rename (from to : path) : tio tree () :=
  commit_change (λ t,
    n ← match lstat t to with
        | Some Dir => Err TxError.Io
        | _ => ok_or (lstat t from) TxError.Io
        end;
    Ok (<[to := n]> (delete from t))).

Definition remove_dir (p : path) : tio tree () :=
  commit_change (λ t,
    bail_if negb (bool_decide (read_dir t p = [])) with TxError.DirectoryChanged; Ok (delete p t)).

(** [fs::create_dir]; [false] is [ErrorKind::AlreadyExists]. *)
Definition mkdir (p : path) : tio tree bool :=
  commit_call TxError.Io (λ t,
    match lstat t p with
    | None => Ok (true, <[p := Dir]> t)
    | Some _ => Ok (false, t)
    end).

(** A new directory above the target, where an existing one is accepted. *)
Definition create_dir (p : path) : tio tree () :=
  do! created := mkdir p in
  if created : bool then sync else observe (λ t, ensure_directory t p).

(** ** Publishing one file or link *)

Definition temporary (t : tree) (parent : path) : path :=
  parent ++ [lit ".rgit-publish-" ++ random_name t parent].

Definition set_executable (executable : bool) (mode : Z) : Z :=
  if executable then Z.lor mode (Z.shiftr (Z.land mode 0x124) 2) else Z.land mode (Z.lnot 0x49).

(** The permission bits that the new file gets. *)
Definition target_mode (permissions : option Z) (executable : option bool) : Z :=
  let mode := default create_mode permissions in
  match executable with
  | Some executable => set_executable executable mode
  | None => mode
  end.

Definition publication_target (working : bool) (p : path) (t : tree) :
    result TxError.t (option Z * path) :=
  _ ← ensure_directory t (parent_of p);
  permissions ←
    match lstat t p with
    | Some (File _ mode) => Ok (Some mode)
    | Some (Link _) => if working then Ok None else Err TxError.UnsafeTarget
    | Some _ => Err TxError.UnsafeTarget
    | None => Ok None
    end;
  Ok (permissions, temporary t (parent_of p)).

(** Filling the temporary file and moving it to its place. *)
Definition write_temporary (temp p : path) (bytes : list Z) (permissions : option Z)
    (executable : option bool) : tio tree () :=
  do! _ := create_new temp (File [] create_mode) in
  do! _ := match permissions with
           | Some mode => set_permissions temp mode
           | None => ret tt
           end in
  do! _ := match executable with
           | Some executable =>
               do! mode := file_mode temp in
               set_permissions temp (set_executable executable mode)
           | None => ret tt
           end in
  do! _ := write_all temp bytes in
  do! _ := sync in
  do! _ := rename temp p in
  sync.

Definition publish_file_with_mode (p : path) (bytes : list Z) (executable : option bool)
    (working : bool) : tio tree () :=
  do! (permissions, temp) := observe (publication_target working p) in
  on_error (write_temporary temp p bytes permissions executable) (remove_file temp).

Definition publish_file (p : path) (bytes : list Z) : tio tree () :=
  publish_file_with_mode p bytes None false.

Definition publish_link (p : path) (bytes : list Z) : tio tree () :=
  do! _ := inspect (λ _, validate_link bytes) in
  do! temp := observe (λ t, _ ← ensure_directory t (parent_of p); Ok (temporary t (parent_of p))) in
  do! _ := create_new temp (Link bytes) in
  do! _ := on_error (rename temp p) (remove_file temp) in
  sync.

(** ** Publishing a plan *)

(** The loop of [remove_empty_tree]; [(p, true)] removes the directory [p]. *)
Fixpoint remove_tree_loop (fuel : nat) (stack : list (path * bool)) : tio tree () :=
  match fuel with
  | O => stuck
  | S fuel =>
      match stack with
      | [] => ret tt
      | (p, leaving) :: stack =>
          do! _ := observe (λ t, _ ← validate_working_key (join p); ensure_directory t p) in
          if leaving : bool then
            do! _ := remove_dir p in
            do! _ := sync in
            remove_tree_loop fuel stack
          else
            do! entries := observe (λ t,
              try_map (λ name,
                match lstat t (p ++ [name]) with
                | Some Dir => Ok (p ++ [name], false)
                | Some _ => Err TxError.PreservingUntracked
                | None => Err TxError.Io
                end) (read_dir t p)) in
            remove_tree_loop fuel (rev entries ++ (p, true) :: stack)
      end
  end.

(** Each directory is entered and left once. *)
Definition remove_empty_tree (p : path) : tio tree () :=
  λ s, remove_tree_loop (2 * (S (size s.1)) + 1) [(p, false)] s.

Definition check_current (plan : ShapePlan) (key : str) (u : WorkingUpdate.t) (t : tree) :
    result TxError.t bool :=
  current ← current plan t key;
  if Current.matches_after current u then Ok true
  else
    bail_if negb (Current.matches_before current u) with TxError.ChangedDuringRecovery;
    Ok false.

(** The body of the first loop: deletions. *)
Definition publish_deletion (us : updates) (plan : ShapePlan) (key : str) : tio tree () :=
  match bt_get key us with
  | None => ret tt
  | Some u =>
      do! done := observe (check_current plan key u) in
      if done : bool then ret tt
      else
        do! p := observe (λ t, working_path t key) in
        do! _ := remove_file p in
        sync
  end.

Fixpoint create_parents (dir : path) (parts : list str) : tio tree () :=
  match parts with
  | [] | [_] => ret tt
  | part :: parts =>
      do! _ := create_dir (dir ++ [part]) in
      create_parents (dir ++ [part]) parts
  end.

(** The body of the second loop: replacements. *)
Definition publish_replacement (us : updates) (plan : ShapePlan) (e : str * WorkingUpdate.t) :
    tio tree () :=
  let '(key, u) := e in
  match WorkingUpdate.after u with
  | None => ret tt
  | Some bytes =>
      do! done := observe (check_current plan key u) in
      if done : bool then ret tt
      else
        do! directory := or_else false
          (observe (λ t, Ok (bool_decide (lstat t (split_slash key) = Some Dir)))) in
        do! _ := (if directory : bool then remove_empty_tree (split_slash key) else ret tt) in
        do! p := observe (λ t, working_path t key) in
        do! _ := create_parents [] p in
        if bool_decide (WorkingUpdate.after_symlink u = Some true)
        then publish_link p bytes
        else publish_file_with_mode p bytes (WorkingUpdate.after_executable u) true
  end.

(** Deepest keys first. *)
Definition deletions (us : updates) : list str :=
  List.filter (λ key, match bt_get key us with
                      | Some u => negb (bool_decide (is_Some (WorkingUpdate.after u)))
                      | None => false
                      end)
    (sort_by_key (λ key, (- len (split_slash key), key)) (bt_keys us)).

Definition publish_working (us : updates) (plan : ShapePlan) : tio tree () :=
  do! _ := io_each (publish_deletion us plan) (deletions us) in
  io_each (publish_replacement us plan) us.
End publication.
