(* ===== verification/Transaction.v ===== *)
(** * Command transactions: [src/transaction.rs]

    A command stages records and working-file updates in memory, commits them to a journal
    in one database transaction and then publishes them; opening the repository publishes
    what a command that failed or was killed left in the journal. The database is its committed content; a
    transaction of it that fails has no effect. *)

From stdpp Require Import gmap.
From S2P Require Import Prelude Machine Order Utf8 Path FileTree WorkingPlan Publication.

(** ** The disk *)

Module Journal.
Record t := mk {
  context : option str;                     (* workspace_context *)
  pending : BTreeMap str (list Z);          (* pending *)
  working : updates }.                      (* working *)
Definition empty : t := mk None [] [].
End Journal.

(** The control directory and the working trees: [None] is the tree around the control
    directory, [Some root] a linked worktree. Keys with a [.rgit] part are refused, so
    working files never reach the control directory. *)
Module Disk.
Record t := mk { meta : tree; trees : gmap (option str) tree; journal : Journal.t }.
Definition tree_at (root : option str) (d : t) : tree := default ∅ (trees d !! root).
Definition set_tree (root : option str) (w : tree) (d : t) : t :=
  mk (meta d) (<[root := w]> (trees d)) (journal d).
Definition set_meta (m : tree) (d : t) : t := mk m (trees d) (journal d).
Definition set_journal (j : Journal.t) (d : t) : t := mk (meta d) (trees d) j.
End Disk.

(** [worktrees::resolve_root]: the registered root of a linked worktree, or one of its refusals. *)
Class Worktrees := { resolve_root : tree → str → option str }.

(** ** Opening a database *)

Module Header.
Record t := mk { application : Z; version : Z; tables : Z }.
End Header.

Definition open_header (h : Header.t) : result TxError.t Header.t :=
  if (Header.application h =? 0) && (Header.version h =? 0) then
    bail_if negb (Header.tables h =? 0) with TxError.DatabaseFormat;
    Ok (Header.mk 1380402004 6 0)
  else if (Header.application h =? 1380402004) && (1 <=? Header.version h)
          && (Header.version h <=? 6) then
    Ok (Header.mk 1380402004 6 (Header.tables h))
  else Err TxError.DatabaseFormat.

(** ** Metadata paths *)

Definition normal_part (part : str) : bool :=
  negb (bool_decide (part = []) || bool_decide (part = lit ".") || bool_decide (part = lit "..")
        || existsb (Z.eqb 0x2f) part).

(** [Path::extension] of a file name. *)
Fixpoint take_until_dot (s : str) : str :=
  match s with [] => [] | c :: s => if c =? 0x2e then [] else c :: take_until_dot s end.
Definition extension (name : str) : option str :=
  let ext := take_until_dot (rev name) in
  match drop (length ext) (rev name) with
  | [] | [_] => None
  | _ => Some (rev ext)
  end.

(** [key]: the text of a record's path, given its components below the control directory. *)
Definition key (p : path) : result TxError.t str :=
  bail_if negb (forallb normal_part p) || bool_decide (p = []) with TxError.InvalidMetadataPath;
  bail_if negb (bool_decide (extension (default [] (last p)) = Some (lit "json")))
    with TxError.NotJson;
  Ok (join p).

Definition skipped_part (part : str) : bool := bool_decide (part = []) || bool_decide (part = lit ".").

(** The check of a journal row: the components of [root.join(text)] below [root], whose text
    must be [text] again. An absolute [text] leaves the directory or has another text. *)
Definition journal_path (text : str) : result TxError.t path :=
  let parts := split_slash text in
  let components := List.filter (λ part, negb (skipped_part part)) parts in
  bail_if bool_decide (head text = Some 0x2f) with TxError.InvalidMetadataPath;
  _ ← key components;
  bail_if existsb skipped_part (option_list (head parts) ++ option_list (last parts))
    with TxError.InvalidJournalPath;
  Ok components.

(** [check_path]. *)
Fixpoint check_parts (m : tree) (dir : path) (parts : list str) : result TxError.t () :=
  match parts with
  | [] => Ok tt
  | part :: rest =>
      let p := dir ++ [part] in
      match lstat m p, rest with
      | Some Dir, _ :: _ => check_parts m p rest
      | Some (File _ _), [] => Ok tt
      | Some _, _ => Err TxError.UnsafeMetadataPath
      | None, [] => Ok tt
      | None, _ :: _ => Err TxError.Io
      end
  end.
Definition check_path (m : tree) (p : path) : result TxError.t () := check_parts m [] p.

(** ** The transaction *)

Module CommandTransaction.
Record t := mk {
  workspace_id : option str;
  pending : BTreeMap path (list Z);
  working : updates }.
End CommandTransaction.

Section transaction.
Context `{Unicode, Platform, Worktrees}.
Notation dio := (tio Disk.t).

Definition workspace_root (id : option str) (d : Disk.t) : result TxError.t (option str) :=
  match id with
  | Some id => Some <$> ok_or (resolve_root (Disk.meta d) id) TxError.Worktree
  | None => Ok None
  end.

(** The checks of [recover] on the journalled working files. *)
Definition check_recovery (j : Journal.t) (t : tree) : result TxError.t ShapePlan :=
  shape ← from_updates (Journal.working j);
  _ ← validate_aliases shape t;
  _ ← validate_updates (Journal.working j);
  _ ← try_for_each (λ e : str * WorkingUpdate.t,
        current ← current shape t e.1;
        bail_if negb (Current.matches_before current e.2) && negb (Current.matches_after current e.2)
          with TxError.EditedAfterInterruption;
        Ok tt) (Journal.working j);
  Ok shape.

(** The validation of the journalled records. *)
Definition check_record (m : tree) (text : str) : result TxError.t path :=
  p ← journal_path text;
  _ ← check_path m p;
  Ok p.

Definition journal_root (j : Journal.t) (d : Disk.t) : result TxError.t (option str) :=
  match Journal.working j, Journal.context j with
  | _ :: _, Some ((_ :: _) as id) => workspace_root (Some id) d
  | _, _ => Ok None
  end.

Definition is_empty (j : Journal.t) : bool :=
  match j with Journal.mk None [] [] => true | _ => false end.

Definition recover : dio () :=
  do! j := observe (λ d, Ok (Disk.journal d)) in
  do! root := observe (journal_root j) in
  do! shape := observe (λ d, check_recovery j (Disk.tree_at root d)) in
  do! records := observe (λ d,
    try_map (λ e : str * list Z, p ← check_record (Disk.meta d) e.1; Ok (p, e.2))
      (Journal.pending j)) in
  do! _ := zoom (Disk.tree_at root) (Disk.set_tree root)
             (publish_working (Journal.working j) shape) in
  do! _ := zoom Disk.meta Disk.set_meta
             (io_each (λ r : path * list Z, publish_file r.1 r.2) records) in
  if is_empty j then ret tt
  else commit_change (λ d, Ok (Disk.set_journal Journal.empty d)).

(** [open] and [open_for], after the databases are open. *)
Definition open (id : option str) : dio CommandTransaction.t :=
  do! _ := recover in
  do! _ := observe (workspace_root id) in
  ret (CommandTransaction.mk id [] []).

Definition read (tx : CommandTransaction.t) (p : path) (d : Disk.t) : result TxError.t (list Z) :=
  _ ← key p;
  match bt_get p (CommandTransaction.pending tx) with
  | Some bytes => Ok bytes
  | None =>
      _ ← check_path (Disk.meta d) p;
      match lstat (Disk.meta d) p with
      | Some (File bytes _) => Ok bytes
      | _ => Err TxError.ReadFailed
      end
  end.

Definition stage (tx : CommandTransaction.t) (p : path) (bytes : list Z) (d : Disk.t) :
    result TxError.t CommandTransaction.t :=
  _ ← key p;
  _ ← check_path (Disk.meta d) p;
  Ok (CommandTransaction.mk (CommandTransaction.workspace_id tx)
        (bt_insert p bytes (CommandTransaction.pending tx)) (CommandTransaction.working tx)).

Definition list_records (tx : CommandTransaction.t) (dir : path) (d : Disk.t) :
    result TxError.t (list path) :=
  _ ← ensure_directory (Disk.meta d) dir;
  let json name := bool_decide (extension name = Some (lit "json")) in
  let stored := map (λ name, dir ++ [name]) (List.filter json (read_dir (Disk.meta d) dir)) in
  let staged :=
    List.filter (λ p, bool_decide (parent_of p = dir)) (bt_keys (CommandTransaction.pending tx)) in
  Ok (set_elems (set_of_list (stored ++ staged))).

Definition stage_working (tx : CommandTransaction.t) (k : str) (before after : option (list Z))
    (before_flags after_flags : WorkingFlags.t) : result TxError.t CommandTransaction.t :=
  _ ← validate_working_key k;
  _ ← (if WorkingFlags.symlink after_flags then
         target ← ok_or after TxError.LinkTargetMissing; validate_link target
       else Ok tt);
  Ok (CommandTransaction.mk (CommandTransaction.workspace_id tx) (CommandTransaction.pending tx)
        (bt_insert k
           (WorkingUpdate.mk before after
              (Some (WorkingFlags.executable before_flags))
              (Some (WorkingFlags.executable after_flags))
              (Some (WorkingFlags.symlink before_flags))
              (Some (WorkingFlags.symlink after_flags)))
           (CommandTransaction.working tx))).

(** The body of the loop of [stage_checkout]; [(bytes, flags)] on either side. *)
Definition checkout_path (t : tree) (shape : ShapePlan)
    (before after : BTreeMap str (list Z * WorkingFlags.t)) (discard : bool)
    (tx : CommandTransaction.t) (k : str) : result TxError.t CommandTransaction.t :=
  current ← current shape t k;
  let previous := fst <$> bt_get k before in
  let target := fst <$> bt_get k after in
  let before_flags := default WorkingFlags.default (snd <$> bt_get k before) in
  let after_flags := default WorkingFlags.default (snd <$> bt_get k after) in
  let bytes := Current.bytes current in
  let flags := Current.flags current in
  bail_if negb (bool_decide (is_Some previous)) && bool_decide (is_Some bytes)
    with TxError.WouldOverwrite;
  bail_if negb discard && negb (bool_decide (bytes = previous) && bool_decide (flags = before_flags))
    with TxError.LocalChanges;
  if negb (bool_decide (bytes = target) && bool_decide (flags = after_flags))
  then stage_working tx k bytes target flags after_flags
  else Ok tx.

Definition stage_checkout (tx : CommandTransaction.t)
    (before after : BTreeMap str (list Z * WorkingFlags.t)) (discard : bool) (d : Disk.t) :
    result TxError.t CommandTransaction.t :=
  let paths := set_elems (set_of_list (bt_keys before ++ bt_keys after)) in
  shape ← new_plan (map (λ k, (k, bt_contains k before, bt_contains k after)) paths);
  root ← workspace_root (CommandTransaction.workspace_id tx) d;
  let t := Disk.tree_at root d in
  _ ← validate_aliases shape t;
  try_fold (checkout_path t shape before after discard) paths tx.

(** The checks of [commit]. *)
Definition check_commit (us : updates) (shape : ShapePlan) (t : tree) : result TxError.t () :=
  _ ← validate_aliases shape t;
  _ ← validate_updates us;
  try_for_each (λ e : str * WorkingUpdate.t,
    current ← current shape t e.1;
    bail_if negb (Current.matches_before current e.2) with TxError.ChangedDuringCommand;
    Ok tt) us.

(** The rows [commit] inserts; a row whose primary key is present is refused. *)
Definition insert_row {V} (table : BTreeMap str V) (row : str * V) :
    result TxError.t (BTreeMap str V) :=
  bail_if bt_contains row.1 table with TxError.JournalConflict;
  Ok (bt_insert row.1 row.2 table).

Definition journal_rows (tx : CommandTransaction.t) (j : Journal.t) : result TxError.t Journal.t :=
  bail_if bool_decide (is_Some (Journal.context j)) with TxError.JournalConflict;
  working ← try_fold insert_row (CommandTransaction.working tx) (Journal.working j);
  rows ← try_map (λ e, text ← key e.1; Ok (text, e.2)) (CommandTransaction.pending tx);
  pending ← try_fold insert_row rows (Journal.pending j);
  Ok (Journal.mk (Some (default [] (CommandTransaction.workspace_id tx))) pending working).

Definition nothing_staged (tx : CommandTransaction.t) : bool :=
  match CommandTransaction.pending tx, CommandTransaction.working tx with
  | [], [] => true
  | _, _ => false
  end.

Definition commit (tx : CommandTransaction.t) : dio () :=
  if nothing_staged tx then ret tt
  else
    let us := CommandTransaction.working tx in
    do! shape := inspect (λ _, from_updates us) in
    do! root := observe (workspace_root (CommandTransaction.workspace_id tx)) in
    do! _ := observe (λ d, check_commit us shape (Disk.tree_at root d)) in
    do! j := observe (λ d, journal_rows tx (Disk.journal d)) in
    do! _ := commit_change (λ d, Ok (Disk.set_journal j d)) in
    with_context TxError.PublicationIncomplete recover.
End transaction.
