(* ===== verification/WorkingFacts.v ===== *)
(** * Working-tree plans: what their checks establish *)

From stdpp Require Import gmap.
From S2P Require Import Prelude Machine Order Utf8 Path Explore FileTree WorkingPlan.

(** ** Keys and paths *)

Definition safe_part (s : str) : Prop := unsafe_part s = false ∧ name_ok s.
Definition safe (p : path) : Prop := p ≠ [] ∧ Forall safe_part p.

Lemma split_slash_nonempty text : split_slash text ≠ [].
Proof. destruct text as [|c text]; cbn; [done|]. destruct (c =? 0x2f); [done|]. by destruct (split_slash text). Qed.

Lemma join_split_slash text : join (split_slash text) = text.
Proof.
  induction text as [|c text IH]; [done|]. cbn [split_slash].
  pose proof (split_slash_nonempty text) as Hne. destruct (Z.eqb_spec c 0x2f) as [->|Hc].
  - rewrite join_cons by done. by rewrite IH.
  - destruct (split_slash text) as [|seg segs]; [done|].
    destruct segs as [|s segs]; cbn in IH |- *; by rewrite <-IH.
Qed.

Lemma split_slash_noslash text s : s ∈ split_slash text → existsb (Z.eqb 0x2f) s = false.
Proof.
  revert s. induction text as [|c text IH]; intros s; cbn [split_slash].
  { by intros ->%list_elem_of_singleton. }
  destruct (Z.eqb_spec c 0x2f) as [->|Hc].
  - intros [->|Hs]%elem_of_cons; [done|by apply IH].
  - pose proof (split_slash_nonempty text) as Hne. destruct (split_slash text) as [|seg segs]; [done|].
    intros [->|Hs]%elem_of_cons; [|apply IH; by right]. cbn [existsb].
    rewrite (proj2 (Z.eqb_neq 0x2f c)) by done. apply IH. left.
Qed.

Lemma split_slash_names p :
  p ≠ [] → Forall name_ok p → split_slash (join p) = p.
Proof.
  intros Hne Hp. apply split_slash_join; [done|]. eapply Forall_impl; [exact Hp|]. by intros s [].
Qed.

Lemma join_inj p q :
  p ≠ [] → q ≠ [] → Forall name_ok p → Forall name_ok q → join p = join q → p = q.
Proof.
  intros Hp Hq Hnp Hnq Heq. rewrite <-(split_slash_names p), <-(split_slash_names q) by done.
  by rewrite Heq.
Qed.

Lemma safe_names p : Forall safe_part p → Forall name_ok p.
Proof. intros Hp. eapply Forall_impl; [exact Hp|]. by intros s [_ ?]. Qed.

Lemma safe_part_split k s :
  s ∈ split_slash k → unsafe_part s = false → safe_part s.
Proof.
  intros Hs Hu. split; [done|]. split; [|by eapply split_slash_noslash].
  intros ->. done.
Qed.

Lemma validate_working_key_safe k : validate_working_key k = Ok tt ↔ safe (split_slash k).
Proof.
  unfold validate_working_key. rewrite bail_Ok. unfold safe.
  assert (existsb unsafe_part (split_slash k) = false ↔ Forall safe_part (split_slash k)) as ->.
  { rewrite Forall_forall. split.
    - intros Hx s Hs. apply (safe_part_split k); [done|]. by eapply existsb_false_elem.
    - intros Hs. apply existsb_false_intro. apply Forall_forall. intros s Hin. by apply Hs. }
  pose proof (split_slash_nonempty k). tauto.
Qed.

Lemma validate_working_key_join p :
  p ≠ [] → Forall name_ok p → validate_working_key (join p) = Ok tt ↔ Forall safe_part p.
Proof.
  intros Hne Hp. rewrite validate_working_key_safe, split_slash_names by done. unfold safe. tauto.
Qed.

Lemma join_nonempty p : p ≠ [] → Forall name_ok p → join p ≠ [].
Proof.
  intros Hne Hp. destruct p as [|s q]; [done|]. apply Forall_cons in Hp as [[Hs _] _]. destruct q; [exact Hs|].
  rewrite join_cons by done. by destruct s.
Qed.

Lemma push_part_join pre part : Forall name_ok pre → push_part (join pre) part = join (pre ++ [part]).
Proof.
  intros Hp. destruct (decide (pre = [])) as [->|Hne]; [done|].
  pose proof (join_nonempty pre Hne Hp) as Hj. unfold push_part.
  destruct (join pre) as [|c text] eqn:Heq; [done|]. rewrite <-Heq. clear -Hne.
  induction pre as [|s pre IH]; [done|]. destruct pre as [|s' pre]; [done|].
  change ((s :: s' :: pre) ++ [part]) with (s :: ((s' :: pre) ++ [part])).
  rewrite (join_cons s (s' :: pre)), (join_cons s ((s' :: pre) ++ [part])) by done.
  rewrite <-!app_assoc. do 2 f_equal. by apply IH.
Qed.

Create HintDb paths.
#[export] Hint Resolve safe_names join_nonempty split_slash_nonempty : paths.

(** ** One key in a tree *)

(** What is at a path, as the plan sees it. *)
Definition content (t : tree) (p : path) : Current.t :=
  match t !! p with
  | Some (File bytes mode) =>
      Current.mk (Some bytes) (WorkingFlags.mk (executable_mode mode) false)
  | Some (Link target) => Current.mk (Some target) (WorkingFlags.mk false true)
  | Some (Dir | Special) | None => Current.absent
  end.

Definition leaf (n : node) : Prop := n ≠ Dir.

(** Every file below [p] is a tracked file that the plan deletes. *)
Definition replaceable (plan : ShapePlan) (t : tree) (p : path) : Prop :=
  ∀ q n, q ≠ [] → t !! (p ++ q) = Some n →
    Forall safe_part (p ++ q) ∧ (leaf n → bt_get (join (p ++ q)) plan = Some (true, false)).

(** A file above a path is one the plan has on the other side only. *)
Definition unblocked (plan : ShapePlan) (t : tree) (before after : bool) (p : path) : Prop :=
  ∀ q r n, p = q ++ r → q ≠ [] → r ≠ [] → t !! q = Some n → leaf n →
    ∃ pb pa, bt_get (join q) plan = Some (pb, pa) ∧
      (pb && negb before) || (pa && negb after) = true.

(** ** Replaceable directories *)

Section replace.
Context (plan : ShapePlan) (t : tree) (t_wf : tree_wf t).

(** What the traversal asks of one entry. *)
Definition entry_ok (p : path) : Prop :=
  Forall safe_part p ∧ ∀ n, t !! p = Some n → leaf n → bt_get (join p) plan = Some (true, false).

Lemma replaceable_entry_spec p n r :
  p ≠ [] → t !! p = Some n →
  replaceable_entry plan t p = Ok r ↔ entry_ok p ∧ r = (if is_dir n then Some p else None).
Proof.
  intros Hne Hn. unfold replaceable_entry, entry_ok. rewrite bind_Ok. rewrite lstat_lookup, Hn by done.
  assert (Forall name_ok p) as Hp by (by eapply tree_wf_names). split.
  - intros ([] & Hv & Hr). apply validate_working_key_join in Hv; [|done..]. split.
    + split; [done|]. intros n' [= <-] Hl. destruct n; [done|..];
        apply bail_Ok in Hr as [Hb _]; apply negb_false_iff in Hb; by apply bool_decide_eq_true in Hb.
    + destruct n; [by injection Hr as <-|..]; apply bail_Ok in Hr as [_ Hr]; by injection Hr as <-.
  - intros [[Hs Hl] ->]. exists tt. split; [by apply validate_working_key_join|].
    specialize (Hl n eq_refl). destruct n; [done|..]; apply bail_Ok; cbn;
      (split; [|done]); apply negb_false_iff, bool_decide_eq_true, Hl; done.
Qed.

Lemma replaceable_children d :
  replaceable plan t d ↔
  ∀ s n, t !! (d ++ [s]) = Some n → entry_ok (d ++ [s]) ∧ (n = Dir → replaceable plan t (d ++ [s])).
Proof.
  split.
  - intros Hr s n Hn. split.
    + destruct (Hr [s] n) as [Hs Hl]; [done..|]. split; [done|]. intros n' Hn'. simplify_eq. auto.
    + intros _ q m Hq Hm. rewrite <-app_assoc in Hm |- *. by apply Hr.
  - intros Hc [|s q] n Hq Hn; [done|]. destruct q as [|x q].
    + destruct (Hc s n Hn) as [[Hs Hl] _]. split; [done|]. by apply Hl.
    + change (s :: x :: q) with ([s] ++ (x :: q)) in *. rewrite app_assoc in Hn |- *.
      pose proof (tree_wf_prefix _ _ _ _ t_wf Hn) as Hd. rewrite lstat_snoc in Hd.
      destruct (Hc s Dir) as [_ Hr]; [by apply Hd|]. by apply Hr.
Qed.

Lemma replaceable_entries d :
  lstat t d = Some Dir →
  match try_map (λ name, replaceable_entry plan t (d ++ [name])) (read_dir t d) with
  | Ok next =>
      omap id next = map (λ s, d ++ [s]) (List.filter (λ s, bool_decide (t !! (d ++ [s]) = Some Dir)) (read_dir t d))
      ∧ ∀ s, s ∈ read_dir t d → entry_ok (d ++ [s])
  | Err _ => ∃ s, s ∈ read_dir t d ∧ ¬ entry_ok (d ++ [s])
  end.
Proof.
  intros Hd. assert (∀ s, s ∈ read_dir t d → is_Some (t !! (d ++ [s]))) as Hin
    by (intros s; by rewrite read_dir_elem).
  induction (read_dir t d) as [|s l IH]; cbn [try_map].
  { split; [done|]. intros s Hs. by apply not_elem_of_nil in Hs. }
  destruct (Hin s) as [n Hn]; [left|].
  assert (d ++ [s] ≠ []) as Hne by (by destruct d).
  destruct (replaceable_entry plan t (d ++ [s])) as [r|e] eqn:Hr; cbn [mbind result_bind].
  - apply (replaceable_entry_spec _ n) in Hr as [Hok ->]; [|done..].
    specialize (IH ltac:(intros x Hx; apply Hin; by right)).
    destruct (try_map _ l) as [next|e]; cbn [mbind result_bind].
    + destruct IH as [IH1 IH2]. split.
      * cbn [List.filter]. rewrite Hn.
        destruct n; [rewrite bool_decide_true by done|rewrite bool_decide_false by done..];
          cbn; [by f_equal|done..].
      * intros x [->|Hx]%elem_of_cons; auto.
    + destruct IH as (x & Hx & Hnx). exists x. split; [by right|done].
  - exists s. split; [left|]. intros Hok.
    assert (replaceable_entry plan t (d ++ [s]) = Ok (if is_dir n then Some (d ++ [s]) else None))
      as Hr' by (by apply (replaceable_entry_spec _ n)).
    congruence.
Qed.

Lemma replaceable_loop_spec fuel pending :
  (∀ p, p ∈ pending → t !! p = Some Dir) → (sum_list_with (below t) pending < fuel)%nat →
  replaceable_loop plan t fuel pending = Ok tt ↔ ∀ p, p ∈ pending → replaceable plan t p.
Proof.
  revert pending. induction fuel as [|fuel IH]; intros pending Hp Hf; [lia|].
  destruct pending as [|d pending]; cbn [replaceable_loop].
  { split; [|done]. intros _ p Hn. by apply not_elem_of_nil in Hn. }
  pose proof (Hp d ltac:(left)) as Hd.
  assert (lstat t d = Some Dir) as Hl by (by destruct d). rewrite Hl.
  pose proof (replaceable_entries d Hl) as He.
  destruct (try_map _ (read_dir t d)) as [next|e]; cbn [mbind result_bind].
  2:{ split; [done|]. intros Hr. destruct He as (s & Hs & Hn). exfalso. apply Hn.
      apply read_dir_elem in Hs as [n Hs]. eapply replaceable_children; [apply Hr; left|exact Hs]. }
  destruct He as [-> Hok].
  set (cs := List.filter (λ s, bool_decide (t !! (d ++ [s]) = Some Dir)) (read_dir t d)).
  assert (∀ s, s ∈ cs ↔ t !! (d ++ [s]) = Some Dir) as Hcs.
  { intros s. unfold cs. rewrite list_elem_of_In, filter_In, <-list_elem_of_In, read_dir_elem,
      bool_decide_eq_true. split; [tauto|]. intros Hs. split; [by exists Dir|done]. }
  rewrite IH.
  - setoid_rewrite elem_of_app. setoid_rewrite elem_of_rev. setoid_rewrite list_elem_of_fmap.
    setoid_rewrite elem_of_cons. split.
    + intros Hr p [->|Hpp]; [|by apply Hr; right]. apply replaceable_children. intros s n Hn. split.
      * apply Hok, read_dir_elem. by exists n.
      * intros ->. apply Hr. left. exists s. by rewrite Hcs.
    + intros Hr p [(s & -> & Hs%Hcs)|Hpp]; [|by apply Hr; right].
      pose proof (Hr d ltac:(by left)) as Hrd. by apply (proj1 (replaceable_children d) Hrd s Dir).
  - intros p. rewrite elem_of_app, elem_of_rev, list_elem_of_fmap.
    intros [(s & -> & Hs%Hcs)|Hpp]; [done|]. apply Hp. by right.
  - rewrite sum_list_with_app. cbn [sum_list_with] in Hf.
    assert (NoDup cs) as Hnd by (apply NoDup_ListNoDup, List.NoDup_filter, NoDup_ListNoDup, read_dir_nodup).
    pose proof (below_children t d cs Hnd) as Hb. rewrite bool_decide_true in Hb by (by exists Dir).
    cbn in Hb. rewrite sum_rev_map. lia.
Qed.
End replace.

(** ** The state of one key *)

Lemma check_working_spec t dir parts :
  check_working t dir parts = Ok tt ↔
  (∀ q r n, parts = q ++ r → q ≠ [] → r ≠ [] → t !! (dir ++ q) = Some n → n = Dir) ∧
  (parts ≠ [] → t !! (dir ++ parts) ≠ Some Dir ∧ t !! (dir ++ parts) ≠ Some Special).
Proof.
  revert dir. induction parts as [|part rest IH]; intros dir; cbn [check_working].
  { split; [|done]. intros _. split; [|done]. intros q r n Hq. by apply symmetry, app_eq_nil in Hq as [-> _]. }
  rewrite lstat_snoc. destruct rest as [|part' rest].
  - split.
    + intros Hc. split; [|by destruct (t !! (dir ++ [part])) as [[]|]].
      intros [|? q] [|? r] n Hq ? ?; try done. injection Hq as _ Hq. by destruct q.
    + intros [_ Hn]. specialize (Hn ltac:(done)). destruct (t !! (dir ++ [part])) as [[]|]; naive_solver.
  - assert ((∀ n, t !! (dir ++ [part]) = Some n → n = Dir) ∧
      check_working t (dir ++ [part]) (part' :: rest) = Ok tt ↔
      match t !! (dir ++ [part]) with
      | Some (Link _) => Err TxError.TraversesSymlink
      | Some (File _ _ | Special) => Err TxError.NonDirectoryParent
      | _ => check_working t (dir ++ [part]) (part' :: rest)
      end = Ok tt) as <-.
    { destruct (t !! (dir ++ [part])) as [[]|]; naive_solver. }
    rewrite (prefix_nodes_cons t dir (λ _ n, n = Dir)), IH, <-app_assoc. cbn [app]. naive_solver.
Qed.

Section key_state.
Context (plan : ShapePlan) (t : tree) (t_wf : tree_wf t).

Lemma directory_can_be_replaced_spec p :
  t !! p = Some Dir → directory_can_be_replaced plan t p = Ok tt ↔ replaceable plan t p.
Proof.
  intros Hp. unfold directory_can_be_replaced. rewrite replaceable_loop_spec by
    (done || (cbn; pose proof (below_size t p); lia) || (intros q ->%list_elem_of_singleton; done)).
  setoid_rewrite list_elem_of_singleton. naive_solver.
Qed.

Lemma working_path_spec p p' :
  safe p →
  working_path t (join p) = Ok p' ↔
  p' = p ∧ (∀ q r n, p = q ++ r → q ≠ [] → r ≠ [] → t !! q = Some n → n = Dir) ∧
  t !! p ≠ Some Dir ∧ t !! p ≠ Some Special.
Proof.
  intros [Hne Hp]. unfold working_path.
  rewrite (proj2 (validate_working_key_join p Hne (safe_names _ Hp)) Hp). cbn [mbind result_bind].
  rewrite split_slash_names by auto with paths.
  pose proof (check_working_spec t [] p) as Hc. cbn [app] in Hc.
  destruct (check_working t [] p) as [[]|e]; cbn [mbind result_bind].
  - destruct Hc as [Hc _]. specialize (Hc eq_refl). naive_solver.
  - split; [done|]. intros (_ & Hx). assert (Err e = Ok tt) by (apply Hc; naive_solver). done.
Qed.

(** A missing or non-directory prefix has nothing below it. *)
Lemma nothing_below p r : lstat t p ≠ Some Dir → r ≠ [] → t !! (p ++ r) = None.
Proof.
  intros Hp Hr. destruct (t !! (p ++ r)) as [n|] eqn:Hn; [|done].
  by pose proof (tree_wf_prefix _ _ _ _ t_wf Hn Hr).
Qed.

Lemma read_working_leaf p :
  safe p → t !! p ≠ None → t !! p ≠ Some Dir → t !! p ≠ Some Special →
  read_working t (join p) = Ok (Current.bytes (content t p)) ∧
  working_flags t p = Current.flags (content t p).
Proof.
  intros Hs Hsome Hdir Hsp. unfold read_working.
  assert (working_path t (join p) = Ok p) as ->.
  { apply working_path_spec; [done|]. split; [done|]. split; [|done]. intros q r n -> Hq Hr Hn.
    destruct (t !! (q ++ r)) as [m|] eqn:Hm; [|done].
    pose proof (tree_wf_prefix _ _ _ _ t_wf Hm Hr) as Hd. rewrite lstat_lookup in Hd by done.
    by simplify_eq. }
  destruct Hs as [Hne _]. unfold working_flags, content. cbn [mbind result_bind].
  rewrite lstat_lookup by done. by destruct (t !! p) as [[]|].
Qed.

Definition key_ok (before after : bool) (p : path) : Prop :=
  unblocked plan t before after p ∧
  (t !! p = Some Dir → after = true → replaceable plan t p) ∧ t !! p ≠ Some Special.

Lemma current_parts_spec before after dir parts c :
  safe (dir ++ parts) → parts ≠ [] → lstat t dir = Some Dir →
  current_parts plan t (join (dir ++ parts)) before after dir (join dir) parts = Ok c ↔
  (∀ q r n, parts = q ++ r → q ≠ [] → r ≠ [] → t !! (dir ++ q) = Some n → leaf n →
    ∃ pb pa, bt_get (join (dir ++ q)) plan = Some (pb, pa) ∧
      (pb && negb before) || (pa && negb after) = true) ∧
  (t !! (dir ++ parts) = Some Dir → after = true → replaceable plan t (dir ++ parts)) ∧
  t !! (dir ++ parts) ≠ Some Special ∧ c = content t (dir ++ parts).
Proof.
  revert dir. induction parts as [|part rest IH]; intros dir Hs Hne Hd; [done|]. clear Hne.
  cbn [current_parts]. rewrite lstat_snoc.
  assert (Forall name_ok dir) as Hnames.
  { destruct Hs as [_ Hs]. apply Forall_app in Hs as [Hs _]. auto with paths. }
  rewrite (push_part_join dir part Hnames). destruct rest as [|part' rest].
  - assert (∀ q r : path, [part] = q ++ r → q ≠ [] → r ≠ [] → False) as Hno.
    { intros [|x q] r Hq ? ?; [done|]. injection Hq as _ Hq. destruct q; [by destruct r|done]. }
    destruct (t !! (dir ++ [part])) as [n|] eqn:Hn.
    2:{ unfold content. rewrite Hn. naive_solver. }
    destruct n as [|bytes mode|target|]; cbn [is_dir].
    + unfold content. rewrite Hn. destruct after; [|naive_solver].
      pose proof (directory_can_be_replaced_spec (dir ++ [part]) Hn) as Hr.
      destruct (directory_can_be_replaced plan t (dir ++ [part])) as [[]|e];
        cbn [mbind result_bind]; [naive_solver|]. split; [done|]. intros (_ & Hx & _).
      assert (Err e = Ok tt) by (apply Hr; naive_solver). done.
    + destruct (read_working_leaf (dir ++ [part])) as [-> ->]; [done|by rewrite Hn..|].
      cbn [mbind result_bind]. destruct (content t (dir ++ [part])); naive_solver.
    + destruct (read_working_leaf (dir ++ [part])) as [-> ->]; [done|by rewrite Hn..|].
      cbn [mbind result_bind]. destruct (content t (dir ++ [part])); naive_solver.
    + split; [|naive_solver]. intros (b & Hb & _)%bind_Ok. unfold read_working in Hb.
      apply bind_Ok in Hb as (q & Hq & _). apply working_path_spec in Hq as (_ & _ & _ & Hq); [|done].
      done.
  - rewrite (prefix_nodes_cons t dir (λ q n, leaf n → ∃ pb pa, bt_get (join (dir ++ q)) plan = Some (pb, pa) ∧
      (pb && negb before) || (pa && negb after) = true)).
    replace (dir ++ part :: part' :: rest) with ((dir ++ [part]) ++ part' :: rest) in *
      by (by rewrite <-app_assoc).
    destruct (t !! (dir ++ [part])) as [n|] eqn:Hn.
    + destruct (decide (n = Dir)) as [->|Hl].
      * cbn [is_dir]. rewrite IH by (done || by rewrite lstat_snoc).
        setoid_rewrite <-app_assoc. cbn [app]. unfold leaf. naive_solver.
      * assert (is_dir n = false) as -> by (by destruct n).
        assert (∀ q, q ≠ [] → t !! ((dir ++ [part]) ++ q) = None) as Hnone.
        { intros q Hq. apply nothing_below; [rewrite lstat_snoc; congruence|done]. }
        unfold content. rewrite Hnone by done.
        destruct (bt_get (join (dir ++ [part])) plan) as [[pb pa]|].
        -- destruct (_ || _) eqn:Hb.
           ++ split; [|naive_solver]. intros [= <-]. split_and!;
                [naive_solver| |done..]. intros q r n' Hq Hne Hr Hn'. by rewrite Hnone in Hn'.
           ++ split; [done|]. intros ((H1 & _) & _). destruct (H1 n eq_refl Hl) as (? & ? & [= <- <-] & ?).
              congruence.
        -- split; [done|]. intros ((H1 & _) & _). by destruct (H1 n eq_refl Hl) as (? & ? & ? & ?).
    + assert (∀ q, q ≠ [] → t !! ((dir ++ [part]) ++ q) = None) as Hnone.
      { intros q Hq. apply nothing_below; [rewrite lstat_snoc; congruence|done]. }
      unfold content. rewrite Hnone by done. split; [|naive_solver]. intros [= <-].
      split_and!; [done| |done..]. intros q r n' Hq Hne Hr Hn'. by rewrite Hnone in Hn'.
Qed.

(** [current] succeeds exactly on keys whose surroundings fit the plan, and then reports
    what is at the key. *)
Lemma current_spec p before after c :
  p ≠ [] → Forall name_ok p → bt_get (join p) plan = Some (before, after) →
  current plan t (join p) = Ok c ↔
  Forall safe_part p ∧ key_ok before after p ∧ c = content t p.
Proof.
  intros Hne Hp Hk. unfold current, key_ok, unblocked. rewrite bind_Ok, Hk. cbn [ok_or mbind result_bind].
  rewrite split_slash_names by done. split.
  - intros ([] & Hs & Hc). apply validate_working_key_join in Hs; [|done..]. apply (current_parts_spec _ _ [] p) in Hc; [|by split|done|done].
    cbn [app] in Hc. tauto.
  - intros (Hs & (Hu & Hr & Hsp) & ->). exists tt.
    split; [by apply validate_working_key_join|]. apply (current_parts_spec _ _ [] p); [by split|done|done|]. cbn [app]. done.
Qed.
End key_state.
