(* ===== verification/PlanFacts.v ===== *)
(** * Plans: what their validation establishes *)

From stdpp Require Import gmap.
From S2P Require Import Prelude Machine Order Utf8 Path Explore FileTree WorkingPlan WorkingFacts.

(** ** Aliases among the keys *)

Section aliases.
Context `{Unicode}.

Lemma validate_parts_spec prefixes dir parts prefixes' :
  Forall name_ok (dir ++ parts) →
  validate_parts prefixes (join dir) parts = Ok prefixes' →
  (∀ x, bt_get (fold x) prefixes = Some x → bt_get (fold x) prefixes' = Some x) ∧
  ∀ q r, parts = q ++ r → q ≠ [] → bt_get (fold (join (dir ++ q))) prefixes' = Some (join (dir ++ q)).
Proof.
  revert prefixes dir. induction parts as [|part parts IH]; intros prefixes dir Hn; cbn [validate_parts].
  { intros [= <-]. split; [done|]. intros q r Hq. by apply symmetry, app_eq_nil in Hq as [-> _]. }
  pose proof (proj1 (proj1 (Forall_app _ _ _) Hn)) as Hdir.
  rewrite (push_part_join dir part Hdir). intros [Hb Hv]%bail_Ok.
  replace (dir ++ part :: parts) with ((dir ++ [part]) ++ parts) in Hn by (by rewrite <-app_assoc).
  destruct (IH _ _ Hn Hv) as [Hold Hnew].
  assert (∀ x, bt_get (fold x) prefixes = Some x → bt_get (fold x) prefixes' = Some x) as Hkeep.
  { intros x Hx. apply Hold. rewrite bt_get_insert. case_decide as Hf; [|done].
    rewrite Hf, Hx in Hb. apply negb_false_iff, bool_decide_eq_true in Hb. by subst. }
  split; [done|]. intros [|s q] r Hq Hne; [done|]. injection Hq as <- Hq. destruct q as [|s q].
  - apply Hold. apply bt_get_insert_eq.
  - specialize (Hnew (s :: q) r Hq ltac:(done)). by rewrite <-app_assoc in Hnew.
Qed.

(** Distinct prefixes of valid keys stay distinct under portable comparison. *)
Lemma validate_spec paths :
  validate paths = Ok tt →
  (∀ k, k ∈ paths → safe (split_slash k)) ∧
  ∀ k1 k2 q1 r1 q2 r2, k1 ∈ paths → k2 ∈ paths → split_slash k1 = q1 ++ r1 →
    split_slash k2 = q2 ++ r2 → q1 ≠ [] → q2 ≠ [] → fold (join q1) = fold (join q2) → q1 = q2.
Proof.
  intros (prefixes & Hf & _)%bind_Ok.
  set (known (done : list str) (m : BTreeMap str str) :=
    (∀ k, k ∈ done → safe (split_slash k)) ∧
    ∀ k q r, k ∈ done → split_slash k = q ++ r → q ≠ [] → bt_get (fold (join q)) m = Some (join q)).
  assert (known paths prefixes) as [Hsafe Hk].
  { eapply (try_fold_inv validate_path known); [|split; intros k; intros; by destruct (not_elem_of_nil k)|exact Hf].
    intros done k m m' [Hs Hm] _ Hv. unfold validate_path in Hv.
    apply bind_Ok in Hv as ([] & Hvk & Hv). apply validate_working_key_safe in Hvk.
    apply (validate_parts_spec m []) in Hv as [Hold Hnew]; [|destruct Hvk; auto with paths].
    split.
    - intros k' [Hk'|Hk']%elem_of_app; [by apply Hs|]. by apply list_elem_of_singleton in Hk' as ->.
    - intros k' q r [Hk'|Hk']%elem_of_app Hq Hne; [by apply Hold; eapply Hm|].
      apply list_elem_of_singleton in Hk' as ->. by eapply Hnew. }
  split; [done|]. intros k1 k2 q1 r1 q2 r2 H1 H2 Hq1 Hq2 Hn1 Hn2 Hfold.
  pose proof (Hk _ _ _ H1 Hq1 Hn1) as Hg1. pose proof (Hk _ _ _ H2 Hq2 Hn2) as Hg2.
  rewrite Hfold, Hg2 in Hg1. injection Hg1 as Heq.
  assert (∀ k q r, k ∈ paths → split_slash k = q ++ r → Forall name_ok q) as Hnames.
  { intros k q r Hin Hq. destruct (Hsafe k Hin) as [_ Hs]. rewrite Hq in Hs.
    apply Forall_app in Hs as [Hs _]. auto with paths. }
  symmetry. apply join_inj; eauto.
Qed.
End aliases.

(** ** Shape collisions *)

Lemma proper_prefixes_spec dir parts x :
  Forall name_ok (dir ++ parts) →
  x ∈ proper_prefixes (join dir) parts ↔
  ∃ q r, parts = q ++ r ∧ q ≠ [] ∧ r ≠ [] ∧ x = join (dir ++ q).
Proof.
  revert dir. induction parts as [|part parts IH]; intros dir Hn.
  { cbn. split; [intros Hx; by apply not_elem_of_nil in Hx|].
    intros (q & r & Hq & Hne & _). by apply symmetry, app_eq_nil in Hq as [-> _]. }
  destruct parts as [|part' parts].
  { cbn. split; [intros Hx; by apply not_elem_of_nil in Hx|].
    intros ([|s q] & r & Hq & Hne & Hr & _); [done|]. injection Hq as _ Hq.
    by apply symmetry, app_eq_nil in Hq as [_ ->]. }
  change (proper_prefixes (join dir) (part :: part' :: parts)) with
    (push_part (join dir) part :: proper_prefixes (push_part (join dir) part) (part' :: parts)).
  pose proof (proj1 (proj1 (Forall_app _ _ _) Hn)) as Hdir. rewrite (push_part_join dir part Hdir).
  replace (dir ++ part :: part' :: parts) with ((dir ++ [part]) ++ part' :: parts) in Hn
    by (by rewrite <-app_assoc).
  rewrite elem_of_cons, IH by done. split.
  - intros [->|(q & r & Hq & Hne & Hr & ->)].
    + exists [part], (part' :: parts). done.
    + exists (part :: q), r. rewrite <-app_assoc. split_and!; [by rewrite Hq|done..].
  - intros ([|s q] & r & Hq & Hne & Hr & ->); [done|]. injection Hq as <- Hq.
    destruct q as [|s q]; [by left|right]. exists (s :: q), r. rewrite <-app_assoc. done.
Qed.

Lemma side_files_elem (plan : ShapePlan) after k :
  bt_wf plan →
  k ∈ set_elems (side_files plan after) ↔
  ∃ b a, bt_get k plan = Some (b, a) ∧ (if after then a else b) = true.
Proof.
  intros Hw. unfold side_files. rewrite set_of_list_elems, list_elem_of_omap. split.
  - intros ([k' [b a]] & Hin & Hk). cbn in Hk. exists b, a.
    apply (bt_get_elem_iff _ _ _ Hw) in Hin.
    destruct after; [destruct a|destruct b]; try done; by injection Hk as <-.
  - intros (b & a & Hg & Hs). exists (k, (b, a)). split; [by apply bt_get_elem|].
    cbn. by destruct after; subst.
Qed.

Lemma check_side_spec (plan : ShapePlan) after :
  bt_wf plan → (∀ k, k ∈ bt_keys plan → safe (split_slash k)) →
  check_side plan after = Ok tt →
  ∀ k q r, k ∈ set_elems (side_files plan after) → split_slash k = q ++ r → q ≠ [] → r ≠ [] →
    join q ∉ set_elems (side_files plan after).
Proof.
  intros Hw Hsafe Hc k q r Hk Hq Hne Hr Hin. unfold check_side in Hc.
  rewrite try_for_each_Ok, Forall_forall in Hc. specialize (Hc k Hk). apply bail_Ok in Hc as [Hb _].
  apply (existsb_false_elem _ _ (join q)) in Hb.
  - apply set_contains_false in Hb. done.
  - apply side_files_elem in Hk as (b & a & Hg & _); [|done].
    destruct (Hsafe k (bt_get_key _ _ _ Hg)) as [_ Hs].
    apply (proper_prefixes_spec []); [cbn; auto with paths|]. by exists q, r.
Qed.

(** ** Plans of updates *)

Definition shape (u : WorkingUpdate.t) : bool * bool :=
  (bool_decide (is_Some (WorkingUpdate.before u)), bool_decide (is_Some (WorkingUpdate.after u))).

Lemma collect_get (us : updates) (m : ShapePlan) k :
  bt_wf us →
  bt_get k (fold_left (λ plan (e : str * bool * bool), bt_insert e.1.1 (e.1.2, e.2) plan)
              (map (λ e, (e.1, (shape e.2).1, (shape e.2).2)) us) m)
  = match bt_get k us with Some u => Some (shape u) | None => bt_get k m end.
Proof.
  revert m. induction us as [|[k0 u0] us IH]; intros m Hw; [done|]. cbn [map fold_left].
  apply bt_wf_cons in Hw as [Hw Hlt]. rewrite IH by done. cbn [fst snd].
  destruct (decide (k0 = k)) as [->|Hne].
  - rewrite (bt_get_below k us Hlt), bt_get_insert_eq. cbn [bt_get]. rewrite cmp_refl.
    by destruct (shape u0).
  - rewrite bt_get_insert_ne by done. destruct (bt_get k us) as [u|] eqn:Hu.
    + rewrite (proj2 (bt_get_elem_iff k u ((k0, u0) :: us) ltac:(by constructor))); [done|].
      right. by apply bt_get_elem.
    + destruct (bt_get k ((k0, u0) :: us)) as [u|] eqn:Hu'; [|done].
      apply bt_get_elem, elem_of_cons in Hu' as [?|Hin]; [by simplify_eq|].
      apply bt_get_elem_iff in Hin; [|done]. congruence.
Qed.

Lemma collect_wf (l : list (str * bool * bool)) (m : ShapePlan) :
  bt_wf m → bt_wf (fold_left (λ plan e, bt_insert e.1.1 (e.1.2, e.2) plan) l m).
Proof.
  revert m. induction l as [|e l IH]; intros m Hm; [done|]. apply IH. by apply bt_insert_wf.
Qed.

Section valid.
Context `{Unicode}.

(** What a plan of updates guarantees, path by path. *)
Record plan_valid (us : updates) (plan : ShapePlan) : Prop := {
  pv_us : bt_wf us;
  pv_plan : bt_wf plan;
  pv_get : ∀ k, bt_get k plan = shape <$> bt_get k us;
  pv_safe : ∀ k u, bt_get k us = Some u → safe (split_slash k);
  pv_alias : ∀ k1 k2 u1 u2 q1 r1 q2 r2, bt_get k1 us = Some u1 → bt_get k2 us = Some u2 →
    split_slash k1 = q1 ++ r1 → split_slash k2 = q2 ++ r2 → q1 ≠ [] → q2 ≠ [] →
    fold (join q1) = fold (join q2) → q1 = q2;
  pv_before : ∀ q r u v, q ≠ [] → r ≠ [] → bt_get (join q) us = Some u →
    bt_get (join (q ++ r)) us = Some v → Forall name_ok (q ++ r) →
    is_Some (WorkingUpdate.before u) → WorkingUpdate.before v = None;
  pv_after : ∀ q r u v, q ≠ [] → r ≠ [] → bt_get (join q) us = Some u →
    bt_get (join (q ++ r)) us = Some v → Forall name_ok (q ++ r) →
    is_Some (WorkingUpdate.after u) → WorkingUpdate.after v = None }.

Lemma side_exclusive (us : updates) (plan : ShapePlan) (after : bool) :
  bt_wf plan → (∀ k, bt_get k plan = shape <$> bt_get k us) →
  (∀ k, k ∈ bt_keys plan → safe (split_slash k)) → check_side plan after = Ok tt →
  ∀ q r u v, q ≠ [] → r ≠ [] → bt_get (join q) us = Some u → bt_get (join (q ++ r)) us = Some v →
    Forall name_ok (q ++ r) → (if after then (shape u).2 else (shape u).1) = true →
    (if after then (shape v).2 else (shape v).1) = false.
Proof.
  intros Hw Hget Hsafe Hc q r u v Hq Hr Hu Hv Hn Hsu. apply not_true_iff_false. intros Hsv.
  assert (∀ k w, bt_get k us = Some w → (if after then (shape w).2 else (shape w).1) = true →
    k ∈ set_elems (side_files plan after)) as Hin.
  { intros k w Hk Hs. apply side_files_elem; [done|]. rewrite Hget, Hk. cbn.
    destruct (shape w) as [b a]. by exists b, a. }
  eapply (check_side_spec plan after Hw Hsafe Hc (join (q ++ r)) q r); eauto.
  apply split_slash_names; [by destruct q|done].
Qed.

Lemma from_updates_valid us plan : bt_wf us → from_updates us = Ok plan → plan_valid us plan.
Proof.
  intros Hw Hf. unfold from_updates, new_plan in Hf.
  match type of Hf with context [check_side ?m] => set (plan0 := m) in Hf end. apply bind_Ok in Hf as ([] & Hv & Hf).
  apply bind_Ok in Hf as ([] & Hs & Hf). injection Hf as <-.
  assert (bt_wf plan0) as Hpw by (apply collect_wf, bt_wf_nil).
  assert (∀ k, bt_get k plan0 = shape <$> bt_get k us) as Hget.
  { intros k. etransitivity; [apply (collect_get us [] k Hw)|]. by destruct (bt_get k us). }
  apply validate_spec in Hv as [Hsafe Hal].
  assert (∀ k u, bt_get k us = Some u → k ∈ bt_keys plan0) as Hkey.
  { intros k u Hk. apply (bt_get_key k (shape u)). by rewrite Hget, Hk. }
  rewrite try_for_each_Ok, Forall_forall in Hs.
  assert (∀ o : option (list Z), bool_decide (is_Some o) = false → o = None) as Hnone.
  { intros o Ho%bool_decide_eq_false. by apply eq_None_not_Some. }
  split; [done..| | | |].
  - intros k u Hk. by eapply Hsafe, Hkey.
  - intros k1 k2 u1 u2 q1 r1 q2 r2 H1 H2. eapply Hal; by eapply Hkey.
  - intros q r u v Hq Hr Hu Hvv Hn Hb. apply Hnone.
    apply (side_exclusive us plan0 false Hpw Hget Hsafe (Hs false ltac:(left)) q r u v); try done.
    by apply bool_decide_eq_true.
  - intros q r u v Hq Hr Hu Hvv Hn Hb. apply Hnone.
    apply (side_exclusive us plan0 true Hpw Hget Hsafe (Hs true ltac:(right; left)) q r u v); try done.
    by apply bool_decide_eq_true.
Qed.
End valid.

(** ** Aliases of existing entries *)

Section existing.
Context `{Unicode} (t : tree) (t_wf : tree_wf t).

Lemma aliased_spec parent part :
  aliased t parent part = false ↔
  ∀ name, is_Some (t !! (parent ++ [name])) → fold name = fold part → name = part.
Proof.
  unfold aliased. split.
  - intros Ha name Hn Hf. apply read_dir_elem in Hn.
    apply (existsb_false_elem _ _ name Ha), andb_false_iff in Hn as [Hn|Hn].
    + by apply bool_decide_eq_false in Hn.
    + apply negb_false_iff in Hn. by apply bool_decide_eq_true in Hn.
  - intros Hn. apply existsb_false_intro, Forall_forall. intros name Hin%read_dir_elem.
    apply andb_false_iff. case_bool_decide as Hf; [right|by left].
    rewrite (Hn name Hin Hf). by rewrite bool_decide_true.
Qed.

(** No entry along [parts] is another spelling of the part there. *)
Definition spelled (dir : path) (parts : list str) : Prop :=
  ∀ q part r name, parts = q ++ part :: r → is_Some (t !! (dir ++ q ++ [name])) →
    fold name = fold part → name = part.

Lemma spelled_cons dir part rest :
  spelled dir (part :: rest) ↔ aliased t dir part = false ∧ spelled (dir ++ [part]) rest.
Proof.
  rewrite aliased_spec. unfold spelled. setoid_rewrite <-app_assoc. split.
  - intros Hs. split.
    + intros name Hn. by apply (Hs [] part rest name).
    + intros q p r name -> Hn. by apply (Hs (part :: q) p r name).
  - intros [H1 H2] [|x q] p r name Hq Hn; injection Hq as <- Hq; [by apply H1|].
    by apply (H2 q p r name).
Qed.

Lemma existing_parts_spec blockers dir parts :
  Forall name_ok (dir ++ parts) → lstat t dir = Some Dir →
  existing_parts t blockers dir (join dir) parts = Ok tt ↔
  spelled dir parts ∧
  ∀ q r n, parts = q ++ r → q ≠ [] → r ≠ [] → t !! (dir ++ q) = Some n → leaf n →
    join (dir ++ q) ∈ set_elems blockers.
Proof.
  revert dir. induction parts as [|part rest IH]; intros dir Hn Hd; cbn [existing_parts].
  { split; [|done]. intros _. split; [by intros [|??] ???|].
    intros q r n Hq Hne. by apply symmetry, app_eq_nil in Hq as [-> _]. }
  pose proof (proj1 (proj1 (Forall_app _ _ _) Hn)) as Hdir.
  rewrite spelled_cons, bail_Ok, (push_part_join dir part Hdir), lstat_snoc.
  match goal with |- ?a ∧ ?k ↔ (?a ∧ ?s) ∧ ?b => enough (k ↔ s ∧ b) by tauto end.
  replace (dir ++ part :: rest) with ((dir ++ [part]) ++ rest) in Hn by (by rewrite <-app_assoc).
  destruct rest as [|part' rest].
  { split; [|done]. intros _. split; [by intros [|??] ???|].
    intros [|s q] r n Hq Hne Hr; [done|]. injection Hq as _ Hq.
    by apply symmetry, app_eq_nil in Hq as [_ ->]. }
  rewrite (prefix_nodes_cons t dir (λ q n, leaf n → join (dir ++ q) ∈ set_elems blockers)).
 destruct (t !! (dir ++ [part])) as [n|] eqn:Hp.
  - destruct (decide (n = Dir)) as [->|Hl].
    + rewrite IH by (done || by rewrite lstat_snoc). setoid_rewrite <-app_assoc. cbn [app].
      unfold leaf. naive_solver.
    + assert (∀ q, q ≠ [] → t !! ((dir ++ [part]) ++ q) = None) as Hnone.
      { intros q Hq. apply nothing_below; [done|rewrite lstat_snoc; congruence|done]. }
      assert (spelled (dir ++ [part]) (part' :: rest)) as Hsp.
      { intros q x r name _ [m Hm] _. rewrite Hnone in Hm by (by destruct q). done. }
      transitivity (join (dir ++ [part]) ∈ set_elems blockers).
      { rewrite <-set_contains_elem. by destruct n; [done|..]; destruct (set_contains _ blockers). }
      split.
      * intros Hin. split; [done|]. split; [done|]. intros q r m Hq Hne Hr Hm. by rewrite Hnone in Hm.
      * intros (_ & H1 & _). by apply (H1 n).
  - assert (∀ q, q ≠ [] → t !! ((dir ++ [part]) ++ q) = None) as Hnone.
    { intros q Hq. apply nothing_below; [done|rewrite lstat_snoc; congruence|done]. }
    split; [|done]. intros _. split_and!; [|done|].
    + intros q x r name _ [m Hm] _. rewrite Hnone in Hm by (by destruct q). done.
    + intros q r m Hq Hne Hr Hm. by rewrite Hnone in Hm.
Qed.
End existing.

(** ** Trees that fit a plan *)

Section fits.
Context `{Unicode} (us : updates) (plan : ShapePlan) (valid : plan_valid us plan).

(** The tree agrees with the plan around every key. *)
Definition fits (t : tree) : Prop :=
  ∀ k u, bt_get k us = Some u →
    key_ok plan t (shape u).1 (shape u).2 (split_slash k) ∧ spelled t [] (split_slash k).

Lemma plan_shape k u : bt_get k us = Some u → bt_get k plan = Some ((shape u).1, (shape u).2).
Proof. intros Hk. rewrite (pv_get _ _ valid), Hk. done. Qed.

Lemma current_key t k u c :
  tree_wf t → bt_get k us = Some u →
  current plan t k = Ok c ↔
  key_ok plan t (shape u).1 (shape u).2 (split_slash k) ∧ c = content t (split_slash k).
Proof.
  intros Hw Hk. destruct (pv_safe _ _ valid k u Hk) as [Hne Hs].
  pose proof (plan_shape k u Hk) as Hp. rewrite <-(join_split_slash k) in Hp.
  rewrite <-(join_split_slash k) at 1. rewrite (current_spec plan t Hw _ _ _ _ Hne (safe_names _ Hs) Hp).
  tauto.
Qed.

Lemma blocker_elem x :
  x ∈ set_elems (set_of_list (omap (λ e : str * (bool * bool),
    if e.2.1 || e.2.2 then Some e.1 else None) plan)) ↔
  ∃ b a, bt_get x plan = Some (b, a) ∧ b || a = true.
Proof.
  rewrite set_of_list_elems, list_elem_of_omap. split.
  - intros ([k [b a]] & Hin & Hk). cbn in Hk. exists b, a.
    apply (bt_get_elem_iff _ _ _ (pv_plan _ _ valid)) in Hin. destruct (b || a); [|done].
    by injection Hk as <-.
  - intros (b & a & Hg & Hba). exists (x, (b, a)). split; [by apply bt_get_elem|]. cbn. by rewrite Hba.
Qed.

Lemma fits_aliases t : tree_wf t → fits t → validate_aliases plan t = Ok tt.
Proof.
  intros Hw Hf. unfold validate_aliases, validate_existing. rewrite try_for_each_Ok, Forall_forall.
  intros k Hk. apply bt_contains_elem in Hk. unfold bt_contains in Hk. rewrite (pv_get _ _ valid) in Hk.
  destruct (bt_get k us) as [u|] eqn:Hu; [|done].
  pose proof (pv_safe _ _ valid k u Hu) as Hs. destruct (Hf k u Hu) as [[Hun _] Hsp].
  rewrite (proj2 (validate_working_key_safe k) Hs). cbn [mbind result_bind].
  apply (existing_parts_spec t Hw _ []); [destruct Hs; cbn; auto with paths|done|]. split; [done|].
  intros q r n Hq Hne Hr Hn Hl. destruct (Hun q r n) as (pb & pa & Hg & Hb); [done..|].
  apply blocker_elem. exists pb, pa. split; [done|]. by destruct pb, pa.
Qed.

Lemma checks_fit t :
  tree_wf t → validate_aliases plan t = Ok tt →
  (∀ k u, bt_get k us = Some u → ∃ c, current plan t k = Ok c) → fits t.
Proof.
  intros Hw Ha Hc k u Hk. destruct (Hc k u Hk) as [c Hcur].
  apply (current_key t k u c Hw Hk) in Hcur as [Hok _]. split; [done|].
  unfold validate_aliases, validate_existing in Ha. rewrite try_for_each_Ok, Forall_forall in Ha.
  pose proof (pv_safe _ _ valid k u Hk) as Hs.
  specialize (Ha k (bt_get_key _ _ _ (plan_shape k u Hk))).
  rewrite (proj2 (validate_working_key_safe k) Hs) in Ha. cbn [mbind result_bind] in Ha.
  apply (existing_parts_spec t Hw _ []) in Ha as [Hsp _]; [done| |done].
  destruct Hs; cbn; auto with paths.
Qed.
End fits.
