(* ===== verification/PublicationFacts.v ===== *)
(** * Publication: the effect of its file operations *)

From stdpp Require Import gmap.
From S2P Require Import Prelude Machine Order Utf8 Path Explore FileTree WorkingPlan Publication WorkingFacts.

Section files.
Context `{Platform}.

(** ** Single calls *)

Lemma runs_change {S} (f : S → result TxError.t S) s' (Q : () → S → Prop) (I : S → Prop) s :
  f s = Ok s' → Q tt s' → I s → runs (commit_change f) Q I s.
Proof. intros Hf HQ HI. apply (runs_commit _ _ tt s'); [by rewrite Hf|done..]. Qed.

Lemma preserves_change {S} (P : S → Prop) (f : S → result TxError.t S) s :
  P s → (∀ s', f s = Ok s' → P s') → preserves P (commit_change f) s.
Proof. intros Hs Hf. apply preserves_commit; [done|]. intros a s' (s1 & H1 & [= _ <-])%bind_Ok. auto. Qed.

Lemma runs_sync (Q : () → tree → Prop) (I : tree → Prop) t : Q tt t → I t → runs sync Q I t.
Proof. intros HQ HI. by apply (runs_observe _ _ tt). Qed.

Lemma on_file_insert temp f bytes mode t :
  on_file temp f (<[temp := File bytes mode]> t) = <[temp := f bytes mode]> t.
Proof. unfold on_file. by rewrite alter_insert_eq. Qed.

(** ** Writing beside the target and renaming *)

Lemma insert_delete_fresh (t : tree) (temp p : path) (n m : node) :
  t !! temp = None → temp ≠ p → <[p := n]> (delete temp (<[temp := m]> t)) = <[p := n]> t.
Proof. intros Ht _. by rewrite delete_insert_id. Qed.

Lemma runs_create_new (temp : path) (n : node) (Q : () → tree → Prop) (I : tree → Prop) (t : tree) :
  lstat t temp = None → I t → Q tt (<[temp := n]> t) → runs (create_new temp n) Q I t.
Proof. intros Hf HI HQ. apply (runs_change _ (<[temp := n]> t)); [by rewrite Hf|done..]. Qed.

Lemma runs_rename (temp p : path) (n : node) (Q : () → tree → Prop) (I : tree → Prop) (t : tree) :
  t !! temp = Some n → temp ≠ [] → lstat t p ≠ Some Dir → I t → Q tt (<[p := n]> (delete temp t)) →
  runs (rename temp p) Q I t.
Proof.
  intros Ht Hne Hp HI HQ. eapply (runs_change _ (<[p := n]> (delete temp t))); [|done..].
  rewrite (lstat_lookup t temp) by done. rewrite Ht. by destruct (lstat t p) as [[]|].
Qed.

Section publish.
Context (t : tree) (dir : path) (s : str) (I : tree → Prop).
Let p := dir ++ [s].
Let temp := temporary t dir.
Context (parent_dir : lstat t dir = Some Dir) (fresh : t !! temp = None) (distinct : temp ≠ p).
Context (target_free : t !! p ≠ Some Dir ∧ t !! p ≠ Some Special).
Context (stable : I t) (strays : ∀ n, n ≠ Dir → I (<[temp := n]> t)).

Lemma temp_nonempty : temp ≠ [].
Proof. unfold temp, temporary. by destruct dir. Qed.

Lemma target_lstat n : lstat (<[temp := n]> t) p ≠ Some Dir.
Proof.
  unfold p. rewrite lstat_snoc, lookup_insert_ne by done. apply target_free.
Qed.

(** Nothing yet, a temporary, or the finished target. *)
Definition in_place (node : node) (t' : tree) : Prop :=
  t' = t ∨ (∃ n, n ≠ Dir ∧ t' = <[temp := n]> t) ∨ t' = <[p := node]> t.

Lemma in_place_stray node n : n ≠ Dir → in_place node (<[temp := n]> t).
Proof. intros Hn. right. left. by exists n. Qed.

(** Clearing up after a failure. *)
Lemma clear_temporary node t' :
  I (<[p := node]> t) → in_place node t' → I t' ∧ preserves I (remove_file temp) t'.
Proof.
  intros Hp Ht'. assert (I t') as HI by (destruct Ht' as [->|[(n & ? & ->)| ->]]; auto).
  split; [done|]. apply preserves_change; [done|]. intros t2.
  rewrite (lstat_lookup t' temp) by apply temp_nonempty.
  destruct Ht' as [->|[(n & Hn & ->)| ->]].
  - by rewrite fresh.
  - rewrite lookup_insert_eq. destruct n; try done; intros [= <-]; by rewrite delete_insert_id.
  - by rewrite lookup_insert_ne, fresh.
Qed.

Lemma runs_rename_temporary (n : node) (Q : () → tree → Prop) :
  n ≠ Dir → Q tt (<[p := n]> t) → runs (rename temp p) Q (in_place n) (<[temp := n]> t).
Proof.
  intros Hn HQ. eapply runs_rename; [apply lookup_insert_eq|apply temp_nonempty|apply target_lstat|by apply in_place_stray|].
  by rewrite insert_delete_fresh.
Qed.

Lemma runs_write_temporary bytes permissions executable :
  let n := File bytes (target_mode permissions executable) in
  runs (write_temporary temp p bytes permissions executable) (λ _ t', t' = <[p := n]> t) (in_place n) t.
Proof.
  intros n. unfold write_temporary. set (mode := default create_mode permissions).
  eapply (runs_bind _ _ _ (λ _ t', t' = <[temp := File [] create_mode]> t)).
  { apply runs_create_new; [|by left|done]. rewrite lstat_lookup by apply temp_nonempty. done. }
  intros ? ? ->. eapply (runs_bind _ _ _ (λ _ t', t' = <[temp := File [] mode]> t)).
  { unfold mode. destruct permissions as [m|]; [|by apply runs_ret].
    eapply runs_change; [done|by rewrite on_file_insert|by apply in_place_stray]. }
  intros ? ? ->.
  eapply (runs_bind _ _ _ (λ _ t', t' = <[temp := File [] (target_mode permissions executable)]> t)).
  { unfold target_mode. fold mode. destruct executable as [x|]; [|by apply runs_ret].
    eapply (runs_bind _ _ _ (λ a t', a = mode ∧ t' = <[temp := File [] mode]> t)).
    - eapply (runs_observe _ _ mode); [|done|by apply in_place_stray].
      rewrite lstat_lookup by apply temp_nonempty. by rewrite lookup_insert_eq.
    - intros ? ? [-> ->]. eapply runs_change; [done|by rewrite on_file_insert|by apply in_place_stray]. }
  intros ? ? ->. eapply (runs_bind _ _ _ (λ _ t', t' = <[temp := n]> t)).
  { eapply runs_syscall; [done|unfold append; by rewrite on_file_insert|]. intros k. unfold append. rewrite on_file_insert.
    by apply in_place_stray. }
  intros ? ? ->. eapply (runs_bind _ _ _ (λ _ t', t' = <[temp := n]> t)).
  { apply runs_sync; [done|by apply in_place_stray]. }
  intros ? ? ->. eapply (runs_bind _ _ _ (λ _ t', t' = <[p := n]> t)); [by apply runs_rename_temporary|].
  intros ? ? ->. apply runs_sync; [done|]. by right; right.
Qed.

Lemma runs_publish_file bytes executable working :
  (working = false → ∀ l, t !! p ≠ Some (Link l)) →
  let n := File bytes (target_mode (match t !! p with Some (File _ m) => Some m | _ => None end) executable) in
  I (<[p := n]> t) →
  runs (publish_file_with_mode p bytes executable working) (λ _ t', t' = <[p := n]> t) I t.
Proof.
  intros Hw n HI. unfold publish_file_with_mode.
  set (permissions := match t !! p with Some (File _ m) => Some m | _ => None end) in *.
  eapply runs_bind.
  - eapply (runs_observe _ _ (permissions, temp) (λ a t', a = (permissions, temp) ∧ t' = t)); [|done..].
    unfold publication_target, ensure_directory, parent_of.
    replace (removelast p) with dir by (unfold p; by rewrite removelast_snoc).
    rewrite parent_dir. cbn [mbind result_bind]. unfold p. rewrite lstat_snoc. fold p.
    unfold permissions. destruct (t !! p) as [[|bytes' mode|link|]|] eqn:Hp; [tauto|done| |tauto|done].
    destruct working; [done|]. by destruct (Hw eq_refl link).
  - intros ? ? [-> ->]. cbn beta iota. eapply runs_on_error; [apply runs_write_temporary|].
    intros t'. by apply clear_temporary.
Qed.

Lemma runs_publish_link bytes :
  validate_link bytes = Ok tt → I (<[p := Link bytes]> t) →
  runs (publish_link p bytes) (λ _ t', t' = <[p := Link bytes]> t) I t.
Proof.
  intros Hv HI. unfold publish_link. eapply runs_bind.
  { eapply (runs_inspect _ tt (λ _ t', t' = t)); [exact Hv|done]. }
  intros ? ? ->. eapply runs_bind.
  { eapply (runs_observe _ _ temp (λ a t', a = temp ∧ t' = t)); [|done..].
    unfold ensure_directory, parent_of. replace (removelast p) with dir by (unfold p; by rewrite removelast_snoc).
    by rewrite parent_dir. }
  intros ? ? [-> ->]. eapply (runs_bind _ _ _ (λ _ t', t' = <[temp := Link bytes]> t)).
  { apply runs_create_new; [|done|done]. rewrite lstat_lookup by apply temp_nonempty. done. }
  intros ? ? ->. eapply (runs_bind _ _ _ (λ _ t', t' = <[p := Link bytes]> t)).
  { eapply runs_on_error; [by apply runs_rename_temporary|]. intros t'. by apply clear_temporary. }
  intros ? ? ->. by apply runs_sync.
Qed.
End publish.
End files.

(** ** Removing a tree of directories *)

Section remove.
Context `{Platform}.

(** The tree without [p] and everything below it. *)
Definition gone (p : path) (t : tree) : tree := filter (λ e : path * node, ¬ p `prefix_of` e.1) t.

Lemma gone_lookup (p : path) (t : tree) q : gone p t !! q = if decide (p `prefix_of` q) then None else t !! q.
Proof.
  unfold gone. rewrite map_lookup_filter. destruct (t !! q) as [n|]; cbn; repeat case_decide; try done; by case_guard.
Qed.

(** [t'] is [t] with some entries at or below [p] removed. *)
Definition thinned (p : path) (t t' : tree) : Prop :=
  tree_wf t' ∧ ∀ q, t' !! q = t !! q ∨ t' !! q = None ∧ p `prefix_of` q.

Definition only_dirs (t : tree) (p : path) : Prop :=
  ∀ q n, p `prefix_of` q → t !! q = Some n → n = Dir ∧ Forall safe_part q.

Lemma thinned_trans p q t t' t'' :
  p `prefix_of` q → thinned p t t' → thinned q t' t'' → thinned p t t''.
Proof.
  intros Hpq [_ H1] [Hw H2]. split; [done|]. intros x.
  destruct (H2 x) as [->|[-> Hx]]; [apply H1|]. right. split; [done|]. by transitivity q.
Qed.

Lemma thinned_sub p t t' q n : thinned p t t' → t' !! q = Some n → t !! q = Some n.
Proof. intros [_ Ht] Hq. destruct (Ht q) as [?|[? _]]; congruence. Qed.

Lemma thinned_dirs p t t' : thinned p t t' → only_dirs t p → only_dirs t' p.
Proof. intros Ht Hd q n Hq Hn. apply (Hd q n Hq). by eapply thinned_sub. Qed.

Lemma gone_thinned p t : p ≠ [] → tree_wf t → thinned p t (gone p t).
Proof.
  intros Hp Hw. split.
  - intros q s n. rewrite gone_lookup. case_decide as Hq; [done|]. intros Hn.
    pose proof (Hw _ _ _ Hn) as [Hd Hs]. split; [|done]. destruct q as [|x q]; [done|].
    rewrite lstat_lookup in * by done. rewrite gone_lookup, decide_False; [done|].
    intros Hx. apply Hq. etransitivity; [exact Hx|]. by apply prefix_app_r.
  - intros q. rewrite gone_lookup. case_decide; [by right|by left].
Qed.

Lemma below_mono (t t' : tree) p :
  (∀ q n, t' !! q = Some n → t !! q = Some n) → (below t' p ≤ below t p)%nat.
Proof.
  intros Hsub. unfold below.
  assert (tree_paths t' ⊆+ tree_paths t) as Hs.
  { apply NoDup_submseteq; [apply tree_paths_nodup|]. intros q. rewrite !tree_paths_elem.
    intros [n Hn]. exists n. by apply Hsub. }
  induction Hs; cbn; lia.
Qed.

Lemma tree_entries_dirs t p :
  (∀ s, s ∈ read_dir t p → t !! (p ++ [s]) = Some Dir) →
  try_map (λ name,
    match lstat t (p ++ [name]) with
    | Some Dir => Ok (p ++ [name], false)
    | Some _ => Err TxError.PreservingUntracked
    | None => Err TxError.Io
    end) (read_dir t p) = Ok (map (λ s, (p ++ [s], false)) (read_dir t p)).
Proof.
  induction (read_dir t p) as [|s l IH]; intros Hd; [done|]. cbn [try_map map].
  rewrite lstat_snoc, (Hd s) by left. cbn [mbind result_bind]. rewrite IH; [done|].
  intros x Hx. apply Hd. by right.
Qed.

Lemma check_dir t p :
  p ≠ [] → tree_wf t → only_dirs t p → t !! p = Some Dir →
  (_ ← validate_working_key (join p); ensure_directory t p) = Ok tt.
Proof.
  intros Hne Hw Hd Hp. destruct (Hd p Dir) as [_ Hs]; [done..|].
  rewrite (proj2 (validate_working_key_join p Hne (safe_names _ Hs)) Hs). cbn [mbind result_bind].
  unfold ensure_directory. by rewrite lstat_lookup, Hp by done.
Qed.

Definition no_children (t : tree) (p : path) : Prop := ∀ s, t !! (p ++ [s]) = None.

Lemma no_children_gone p t t' :
  p ≠ [] → thinned p t t' → no_children t' p → delete p t' = gone p t.
Proof.
  intros Hne [Hw Ht] Hc. apply map_eq. intros q. rewrite gone_lookup.
  destruct (decide (p = q)) as [<-|Hpq]; [by rewrite lookup_delete_eq, decide_True|].
  rewrite lookup_delete_ne by done. case_decide as Hx.
  - destruct Hx as [r ->]. destruct r as [|s r]; [by rewrite app_nil_r in Hpq|].
    change (s :: r) with ([s] ++ r). rewrite app_assoc.
    destruct r as [|x r]; [rewrite app_nil_r; apply Hc|]. apply nothing_below; [done| |done].
    rewrite lstat_snoc, Hc. done.
  - destruct (Ht q) as [?|[_ ?]]; [done|tauto].
Qed.

Section loop.
Context (I : tree → Prop) (Q : () → tree → Prop) (rest : list (path * bool)).

(** Leaving a directory that has become empty. *)
Lemma runs_leave p t t' fuel :
  p ≠ [] → thinned p t t' → only_dirs t' p → t' !! p = Some Dir → no_children t' p → (∀ u, thinned p t u → I u) →
  (1 ≤ fuel)%nat → runs (remove_tree_loop (pred fuel) rest) Q I (gone p t) →
  runs (remove_tree_loop fuel ((p, true) :: rest)) Q I t'.
Proof.
  intros Hne Ht Hd Hp Hc Hall Hf Hr. pose proof (Hall t' Ht) as HI.
  assert (I (gone p t)) as HIg.
  { apply Hall. split.
    - rewrite <-(no_children_gone p t t') by done. apply tree_wf_delete; [apply Ht|done].
    - intros q. rewrite gone_lookup. case_decide; [by right|by left]. }
  destruct fuel as [|fuel]; [lia|]. cbn [remove_tree_loop].
  eapply (runs_bind _ _ _ (λ _ u, u = t')).
  { eapply runs_observe; [|done..]. apply check_dir; try done. apply Ht. }
  intros ? ? ->. eapply (runs_bind _ _ _ (λ _ u, u = gone p t)).
  { unfold remove_dir. eapply (runs_change _ (delete p t')); [|by rewrite (no_children_gone p t t')|done].
    assert (read_dir t' p = []) as ->; [|done].
    destruct (read_dir t' p) as [|s l] eqn:Hrd; [done|].
    assert (s ∈ read_dir t' p) as Hs by (rewrite Hrd; left).
    apply read_dir_elem in Hs as [n Hn]. by rewrite Hc in Hn. }
  intros ? ? ->. eapply (runs_bind _ _ _ (λ _ u, u = gone p t)); [by apply runs_sync|]. by intros ? ? ->.
Qed.
End loop.

Lemma only_dirs_child t p s : only_dirs t p → only_dirs t (p ++ [s]).
Proof. intros Hd q n Hq. apply Hd. etransitivity; [|exact Hq]. by apply prefix_app_r. Qed.

Section tree_loop.
Context (I : tree → Prop) (Q : () → tree → Prop).

(** [remove_tree_loop] empties [p] and goes on with the rest of the stack. *)
Definition removes (m : nat) : Prop :=
  ∀ t p rest fuel, (below t p ≤ m)%nat → p ≠ [] → tree_wf t → t !! p = Some Dir → only_dirs t p →
    (∀ t', thinned p t t' → I t') → (2 * below t p ≤ fuel)%nat →
    (∀ fuel', (fuel ≤ fuel' + 2 * below t p)%nat → runs (remove_tree_loop fuel' rest) Q I (gone p t)) →
    runs (remove_tree_loop fuel ((p, false) :: rest)) Q I t.

Lemma removes_children m t p rest fuel cs t1 :
  removes m → p ≠ [] → thinned p t t1 → only_dirs t1 p → t1 !! p = Some Dir →
  (below t1 p ≤ S m)%nat → NoDup cs → (∀ s, s ∈ cs ↔ is_Some (t1 !! (p ++ [s]))) →
  (∀ t', thinned p t t' → I t') →
  (2 * sum_list_with (λ s, below t1 (p ++ [s])) cs + 1 ≤ fuel)%nat →
  (∀ fuel', (fuel ≤ S fuel' + 2 * sum_list_with (λ s, below t1 (p ++ [s])) cs)%nat →
    runs (remove_tree_loop fuel' rest) Q I (gone p t)) →
  runs (remove_tree_loop fuel (map (λ s, (p ++ [s], false)) cs ++ (p, true) :: rest)) Q I t1.
Proof.
  intros Hm Hne. revert t1 fuel.
  induction cs as [|c cs IH]; intros t1 fuel Ht Hd Hp Hb Hnd Hcs HI Hf Hr; cbn [map app].
  { apply (runs_leave I Q rest p t); [done..| |done|cbn in Hf; lia|].
    - intros s. apply eq_None_not_Some. intros Hs%Hcs. by apply not_elem_of_nil in Hs.
    - apply Hr. cbn in *. lia. }
  apply NoDup_cons in Hnd as [Hc Hnd]. cbn [sum_list_with] in *.
  assert (t1 !! (p ++ [c]) = Some Dir) as Hcd.
  { destruct (proj1 (Hcs c) ltac:(left)) as [n Hn]. rewrite Hn. f_equal.
    apply (Hd (p ++ [c]) n); [by apply prefix_app_r|done]. }
  pose proof (proj1 Ht) as Hw. assert (p ++ [c] ≠ []) as Hpc by (by destruct p).
  pose proof (gone_thinned (p ++ [c]) t1 Hpc Hw) as Hg.
  assert (∀ t', thinned (p ++ [c]) t1 t' → thinned p t t') as Htrans.
  { intros t'. by apply thinned_trans, Ht; apply prefix_app_r. }
  assert (below t1 (p ++ [c]) + 1 ≤ below t1 p)%nat as Hbc.
  { pose proof (below_children t1 p [c] ltac:(apply NoDup_singleton)) as Hx. cbn in Hx.
    rewrite bool_decide_true in Hx by (by exists Dir). cbn in Hx. lia. }
  apply Hm; try done; [lia|by apply only_dirs_child|by intros t' Ht'; apply HI, Htrans|lia|].
  intros fuel' Hf'.
  assert (∀ s, (below (gone (p ++ [c]) t1) (p ++ [s]) ≤ below t1 (p ++ [s]))%nat) as Hmono.
  { intros s. apply below_mono. intros q n. by apply (thinned_sub _ _ _ _ _ Hg). }
  assert (sum_list_with (λ s, below (gone (p ++ [c]) t1) (p ++ [s])) cs
    ≤ sum_list_with (λ s, below t1 (p ++ [s])) cs)%nat as Hsum.
  { clear -Hmono. induction cs as [|s cs IH]; cbn; [lia|]. specialize (Hmono s). lia. }
  apply IH; try done.
  - by apply Htrans.
  - apply (thinned_dirs p t1); [|done]. split; [apply Hg|]. intros q.
    destruct (proj2 Hg q) as [?|[? Hq]]; [by left|]. right. split; [done|].
    etransitivity; [|exact Hq]. by apply prefix_app_r.
  - rewrite gone_lookup, decide_False; [done|]. intros [r Hx%(f_equal length)].
    rewrite !length_app in Hx. cbn in Hx. lia.
  - etransitivity; [|exact Hb]. apply below_mono. intros q n. by apply (thinned_sub _ _ _ _ _ Hg).
  - intros s. rewrite gone_lookup. case_decide as Hs.
    + destruct Hs as [r Hs]. rewrite <-app_assoc in Hs. simplify_list_eq. split; [done|].
      by intros [? ?].
    + rewrite <-Hcs, elem_of_cons. split; [by right|]. intros [->|?]; [by destruct Hs|done].
  - lia.
  - intros fuel'' Hf''. apply Hr. lia.
Qed.

Lemma removes_all m : removes m.
Proof.
  induction m as [|m IH]; intros t p rest fuel Hb Hne Hw Hp Hd HI Hf Hr.
  { pose proof (below_pos t p ltac:(by exists Dir)). lia. }
  pose proof (below_pos t p ltac:(by exists Dir)) as Hpos. destruct fuel as [|fuel]; [lia|].
  cbn [remove_tree_loop]. eapply (runs_bind _ _ _ (λ _ u, u = t)).
  { eapply runs_observe; [|done|apply HI; split; [done|by left]]. by apply check_dir. }
  intros ? ? ->. cbn iota. eapply (runs_bind _ _ _ (λ a u, a = _ ∧ u = t)).
  { eapply (runs_observe _ _ (map (λ s, (p ++ [s], false)) (read_dir t p))); [|split; [done|done]|apply HI; split; [done|by left]].
    apply tree_entries_dirs. intros s [n Hn]%read_dir_elem. rewrite Hn. f_equal.
    apply (Hd (p ++ [s]) n); [by apply prefix_app_r|done]. }
  intros ? ? [-> ->]. rewrite <-map_rev.
  pose proof (below_children t p (rev (read_dir t p))) as Hc.
  assert (NoDup (rev (read_dir t p))) as Hnd.
  { rewrite <-(Permutation_rev (read_dir t p)). apply read_dir_nodup. }
  specialize (Hc Hnd). rewrite bool_decide_true in Hc by (by exists Dir). cbn in Hc.
  apply (removes_children m t p rest fuel (rev (read_dir t p)) t); try done.
  - split; [done|]. intros q. by left.
  - intros s. by rewrite elem_of_rev, read_dir_elem.
  - lia.
  - intros fuel' Hf'. apply Hr. lia.
Qed.
End tree_loop.

Lemma runs_remove_empty_tree (I : tree → Prop) p t :
  p ≠ [] → tree_wf t → t !! p = Some Dir → only_dirs t p → (∀ t', thinned p t t' → I t') →
  runs (remove_empty_tree p) (λ _ t', t' = gone p t) I t.
Proof.
  intros Hne Hw Hp Hd HI fuse. unfold remove_empty_tree. cbn [fst].
  pose proof (below_size t p) as Hs.
  apply (removes_all I (λ _ t', t' = gone p t) (below t p)); try done; [lia|].
  intros fuel' Hf. destruct fuel' as [|fuel']; [lia|]. cbn [remove_tree_loop]. by apply runs_ret.
Qed.
End remove.
