(* ===== verification/Recovery.v ===== *)
(** * Recovery: the states of a working tree between a journal commit and its publication

    [before] is the tree when the journal was committed. A recovery first deletes tracked
    files, then replaces; a run that fails or is killed leaves the tree in one of the two phases described
    here, and each of them passes all the checks of the next recovery. *)

From stdpp Require Import gmap.
From S2P Require Import Prelude Machine Order Utf8 Path Explore FileTree WorkingPlan Publication WorkingFacts PlanFacts PublicationFacts.

(** What is assumed of names and modes: a slash separates folded names, temporary names are
    new, and new files are readable by someone. *)
Class FoldLaws `{Unicode} : Prop := {
  fold_slash : ∀ a b c, fold b = fold c → fold (a ++ 0x2f :: b) = fold (a ++ 0x2f :: c) }.

Definition temporary_name `{Platform} (t : tree) (dir : path) : str :=
  lit ".rgit-publish-" ++ random_name t dir.

Definition readable_mode (mode : Z) : Prop := Z.land mode 0x124 ≠ 0.

Class PlatformLaws `{Platform} : Prop := {
  temporary_fresh : ∀ t dir, t !! (dir ++ [temporary_name t dir]) = None;
  temporary_plain : ∀ t dir, existsb (λ c, (c =? 0x2f) || (c =? 0x2e)) (random_name t dir) = false;
  create_readable : readable_mode create_mode }.

(** ** Permission bits *)

Lemma readable_bits mode :
  readable_mode mode ↔
  Z.testbit mode 2 = true ∨ Z.testbit mode 5 = true ∨ Z.testbit mode 8 = true.
Proof.
  unfold readable_mode. split.
  - intros Hne. destruct (Z.testbit mode 2) eqn:H2, (Z.testbit mode 5) eqn:H5, (Z.testbit mode 8) eqn:H8;
      auto. destruct Hne. apply Z.bits_inj'. intros j Hj. rewrite Z.land_spec, Z.bits_0.
    assert (j = 0 ∨ j = 1 ∨ j = 2 ∨ j = 3 ∨ j = 4 ∨ j = 5 ∨ j = 6 ∨ j = 7 ∨ j = 8 ∨ 9 ≤ j) as Hc by lia.
    destruct Hc as [->|[->|[->|[->|[->|[->|[->|[->|[->|Hc]]]]]]]]];
      rewrite ?H2, ?H5, ?H8, ?andb_false_r; try done.
    rewrite (Z.bits_above_log2 0x124 j), andb_false_r; [done|done|]. change (Z.log2 0x124) with 8. lia.
  - intros Hb Hz.
    assert (∀ j, Z.testbit 0x124 j = true → Z.testbit mode j = false) as Hj.
    { intros j Hj. apply (f_equal (λ z, Z.testbit z j)) in Hz.
      by rewrite Z.land_spec, Hj, andb_true_r, Z.bits_0 in Hz. }
    rewrite !Hj in Hb by reflexivity. naive_solver.
Qed.

Lemma executable_made mode :
  readable_mode mode → executable_mode (Z.lor mode (Z.shiftr (Z.land mode 0x124) 2)) = true.
Proof.
  intros Hr%readable_bits. unfold executable_mode. apply negb_true_iff, Z.eqb_neq. intros Hz.
  assert (∀ j, 0 ≤ j → Z.testbit 0x49 j = true → Z.testbit 0x124 (j + 2) = true →
    Z.testbit mode (j + 2) = false) as Hj.
  { intros j Hj H1 H2. apply (f_equal (λ z, Z.testbit z j)) in Hz.
    rewrite Z.land_spec, Z.lor_spec, Z.shiftr_spec, Z.land_spec, H1, H2, !andb_true_r, Z.bits_0 in Hz by done.
    by apply orb_false_iff in Hz as [_ ?]. }
  pose proof (Hj 0 ltac:(lia) eq_refl eq_refl). pose proof (Hj 3 ltac:(lia) eq_refl eq_refl).
  pose proof (Hj 6 ltac:(lia) eq_refl eq_refl). change (0 + 2) with 2 in *. change (3 + 2) with 5 in *.
  change (6 + 2) with 8 in *. destruct Hr as [?|[?|?]]; congruence.
Qed.

Lemma executable_cleared mode : executable_mode (Z.land mode (Z.lnot 0x49)) = false.
Proof.
  unfold executable_mode. apply negb_false_iff, Z.eqb_eq.
  rewrite <-Z.land_assoc, (Z.land_comm (Z.lnot 0x49)), Z.land_lnot_diag. apply Z.land_0_r.
Qed.

Lemma target_mode_spec `{Platform} permissions executable :
  readable_mode (default create_mode permissions) →
  readable_mode (target_mode permissions executable) ∧
  ∀ b, executable = Some b → executable_mode (target_mode permissions executable) = b.
Proof.
  unfold target_mode, set_executable. generalize (default create_mode permissions) as mode. intros mode Hr.
  destruct executable as [[|]|].
  - split; [|intros b [= <-]; by apply executable_made]. rewrite readable_bits in *.
    rewrite !Z.lor_spec. destruct Hr as [->|[->| ->]]; auto.
  - split; [|intros b [= <-]; apply executable_cleared]. rewrite readable_bits in *.
    rewrite !Z.land_spec. change (Z.testbit (Z.lnot 0x49) 2) with true.
    change (Z.testbit (Z.lnot 0x49) 5) with true. change (Z.testbit (Z.lnot 0x49) 8) with true.
    by rewrite !andb_true_r.
  - done.
Qed.

Section recovery.
Context `{FoldLaws, Platform}.
Context (us : updates) (plan : ShapePlan) (valid : plan_valid us plan).
Context (links : validate_updates us = Ok tt).
Context (before : tree) (before_wf : tree_wf before) (before_fits : fits us plan before).

(** [p] is the path of a key of the journal. *)
Definition tracks (p : path) (u : WorkingUpdate.t) : Prop :=
  ∃ k, bt_get k us = Some u ∧ p = split_slash k.

Definition readable (n : node) : Prop :=
  match n with File _ mode => readable_mode mode | _ => True end.

Context (before_matches : ∀ p u, tracks p u →
  Current.matches_before (content before p) u = true).
Context (before_readable : ∀ p u n, tracks p u → before !! p = Some n → readable n).

(** The name does not fold to a part of a key. *)
Definition strange (s : str) : Prop :=
  name_ok s ∧ ∀ p u part, tracks p u → part ∈ p → fold s ≠ fold part.

Definition node_content (n : node) : Current.t :=
  match n with
  | File bytes mode => Current.mk (Some bytes) (WorkingFlags.mk (executable_mode mode) false)
  | Link target => Current.mk (Some target) (WorkingFlags.mk false true)
  | Dir | Special => Current.absent
  end.

Definition replaces (u : WorkingUpdate.t) : Prop := is_Some (WorkingUpdate.after u).
Definition deletes (u : WorkingUpdate.t) : Prop := WorkingUpdate.after u = None.

(** [n] is what the update asks for. *)
Definition target (u : WorkingUpdate.t) (n : node) : Prop :=
  replaces u ∧ Current.matches_after (node_content n) u = true ∧ readable n.

(** A temporary file, beside a replaced one. *)
Definition stray (p : path) : Prop :=
  ∃ dir s r u, p = dir ++ [s] ∧ strange s ∧ r ≠ [] ∧ tracks (dir ++ r) u ∧ replaces u ∧
    ∃ t, s = temporary_name t dir.

Lemma content_node t p : content t p = default Current.absent (node_content <$> t !! p).
Proof. unfold content. by destruct (t !! p) as [[]|]. Qed.

Lemma tracks_get p u : tracks p u → bt_get (join p) us = Some u.
Proof. intros (k & Hk & ->). by rewrite join_split_slash. Qed.

Lemma tracks_fun p u v : tracks p u → tracks p v → u = v.
Proof. intros Hu%tracks_get Hv%tracks_get. congruence. Qed.

Lemma tracks_safe p u : tracks p u → safe p.
Proof. intros (k & Hk & ->). by eapply pv_safe. Qed.

Lemma tracks_names p u : tracks p u → Forall name_ok p.
Proof. intros Hp%tracks_safe. destruct Hp. auto with paths. Qed.

Lemma tracks_join p u : p ≠ [] → Forall name_ok p → bt_get (join p) us = Some u → tracks p u.
Proof. intros Hne Hp Hg. exists (join p). by rewrite split_slash_names. Qed.

Lemma tracks_fits p u :
  tracks p u → ∀ t, fits us plan t →
  key_ok plan t (shape u).1 (shape u).2 p ∧ spelled t [] p.
Proof. intros (k & Hk & ->) t Hf. by apply Hf. Qed.

(** Below a replaced file nothing is kept. *)
Lemma after_exclusive q r u v : tracks q u → tracks (q ++ r) v → replaces u → r ≠ [] → deletes v.
Proof.
  intros Hu Hv Hr Hne. pose proof (tracks_safe q u Hu) as [Hq _].
  apply (pv_after us plan valid q r u v); try done; [by apply tracks_get..|by eapply tracks_names].
Qed.

Lemma after_conflict q r u v :
  tracks q u → tracks (q ++ r) v → replaces u → replaces v → r ≠ [] → False.
Proof.
  intros Hu Hv Hru [x Hx] Hne. pose proof (after_exclusive q r u v Hu Hv Hru Hne) as Hd.
  unfold deletes in Hd. congruence.
Qed.

Lemma strange_part s q r u : strange s → ¬ tracks (q ++ s :: r) u.
Proof.
  intros [_ Hs] Hu. apply (Hs _ u s Hu); [|done]. apply elem_of_app. right. left.
Qed.

Lemma stray_tracks p u r : stray p → ¬ tracks (p ++ r) u.
Proof.
  intros (dir & s & ? & ? & -> & Hs & _) Ht. rewrite <-app_assoc in Ht. by apply strange_part in Ht.
Qed.

Lemma stray_below p r u : tracks p u → replaces u → ¬ stray (p ++ r).
Proof.
  intros Hp Hu (dir & s & r' & v & Heq & Hs & Hr & Hv & Hrv & _).
  destruct r as [|x r _] using rev_ind.
  { rewrite app_nil_r in Heq. subst p. by apply strange_part in Hp. }
  rewrite app_assoc in Heq. apply app_inj_tail in Heq as [<- <-]. rewrite <-app_assoc in Hv.
  eapply (after_conflict p (r ++ r') u v); try done. by destruct r.
Qed.

(** ** The two phases *)

(** Deleting: nothing has changed but some deleted files are gone. *)
Record deleting (t : tree) : Prop := {
  de_wf : tree_wf t;
  de_sub : ∀ p n, t !! p = Some n → before !! p = Some n;
  de_gone : ∀ p n, before !! p = Some n →
    t !! p = Some n ∨ t !! p = None ∧ leaf n ∧ ∃ u, tracks p u ∧ deletes u }.

(** Replacing: the deleted files are gone, the rest is before, after or a stray. *)
Record replacing (t : tree) : Prop := {
  re_wf : tree_wf t;
  re_leaf : ∀ p n, t !! p = Some n → leaf n →
    (before !! p = Some n ∧ ∀ u, tracks p u → replaces u) ∨
    (∃ u, tracks p u ∧ target u n) ∨ stray p;
  re_dir : ∀ p, t !! p = Some Dir →
    before !! p = Some Dir ∨ ∃ r u, r ≠ [] ∧ tracks (p ++ r) u ∧ replaces u;
  re_kept : ∀ p n, before !! p = Some n → leaf n →
    t !! p = Some n ∨ ∃ u, tracks p u ∧ (deletes u ∨ ∃ n', t !! p = Some n' ∧ target u n');
  re_dirs : ∀ p, before !! p = Some Dir →
    t !! p = Some Dir ∨ ∃ q r u, p = q ++ r ∧ tracks q u ∧ replaces u }.

Definition recovering (t : tree) : Prop := deleting t ∨ replacing t.

Lemma deleting_start : deleting before.
Proof. split; [done|done|]. intros p n Hn. by left. Qed.

Lemma recovering_wf t : recovering t → tree_wf t.
Proof. intros [[]|[]]; done. Qed.

(** *** Both phases fit the plan *)

Lemma deleting_fits t : deleting t → fits us plan t.
Proof.
  intros [Hw Hsub _] k u Hk. destruct (before_fits k u Hk) as [(Hu & Hr & Hsp) Hspell].
  split; [split_and!|].
  - intros q r n Hq Hne Hre Hn Hl. by apply (Hu q r n); [..|apply Hsub|].
  - intros Hd Ha q n Hne Hn. apply Hr; [by apply Hsub|done|done|by apply Hsub].
  - intros Hn%Hsub. done.
  - intros q part r name Hq [n Hn]. apply (Hspell q part r name Hq). exists n. by apply Hsub.
Qed.

Lemma replacing_dir t p u : replacing t → tracks p u → replaces u → t !! p = Some Dir → before !! p = Some Dir.
Proof.
  intros Hi Hp Hu Hd. destruct (re_dir t Hi p Hd) as [?|(r & v & Hr & Hv & Hrv)]; [done|].
  by destruct (after_conflict p r u v Hp Hv Hu Hrv Hr).
Qed.

(** Below a directory that a file replaces only directories are left. *)
Lemma replacing_below t p u r n :
  replacing t → tracks p u → replaces u → t !! p = Some Dir → r ≠ [] → t !! (p ++ r) = Some n →
  n = Dir ∧ before !! (p ++ r) = Some Dir ∧ Forall safe_part (p ++ r).
Proof.
  intros Hi Hp Hu Hd Hr Hn.
  pose proof (replacing_dir t p u Hi Hp Hu Hd) as Hb.
  destruct (tracks_fits p u Hp before before_fits) as [(_ & Hrep & _) _].
  specialize (Hrep Hb ltac:(by apply bool_decide_eq_true)).
  destruct (decide (n = Dir)) as [->|Hl].
  - destruct (re_dir t Hi _ Hn) as [Hbd|(r' & v & Hr' & Hv & Hrv)].
    + split_and!; [done|done|]. by apply (Hrep r Dir Hr Hbd).
    + rewrite <-app_assoc in Hv.
      destruct (after_conflict p (r ++ r') u v); try done. by destruct r.
  - destruct (re_leaf t Hi _ _ Hn Hl) as [[Hbn Hnd]|[(v & Hv & Htv)|Hs]].
    + destruct (Hrep r n Hr Hbn) as [Hs Hplan]. specialize (Hplan Hl).
      rewrite (pv_get us plan valid) in Hplan. apply fmap_Some in Hplan as (v & Hv & Hshape).
      assert (tracks (p ++ r) v) as Ht by (apply tracks_join; [by destruct r, p|auto with paths|done]).
      destruct (Hnd v Ht) as [x Hx]. unfold shape in Hshape. rewrite Hx in Hshape. done.
    + destruct Htv as [Hrv _]. by destruct (after_conflict p r u v Hp Hv Hu Hrv Hr).
    + by apply (stray_below p r u) in Hs.
Qed.

Lemma fold_last q s part : fold s = fold part → Forall name_ok q → fold (join (q ++ [s])) = fold (join (q ++ [part])).
Proof.
  intros Hf Hq. rewrite <-!push_part_join by done. unfold push_part.
  destruct (join q); [done|]. by apply fold_slash.
Qed.

Lemma replacing_fits t : replacing t → fits us plan t.
Proof.
  intros Hi k u Hk. assert (tracks (split_slash k) u) as Hp by (by exists k).
  set (p := split_slash k) in *. destruct (tracks_fits p u Hp before before_fits) as [(Hu & _ & Hsp) Hspell].
  split; [split_and!|].
  - intros q r n Hq Hne Hr Hn Hl. destruct (re_leaf t Hi _ _ Hn Hl) as [[Hb _]|[(v & Hv & Hrv & _)|Hs]].
    + by apply (Hu q r n).
    + rewrite Hq in Hp. pose proof (after_exclusive q r v u Hv Hp Hrv Hr) as Hd.
      exists (shape v).1, (shape v).2. split; [by apply (plan_shape us plan valid), tracks_get|].
      apply orb_true_iff. right. unfold shape, deletes, replaces in *. cbn. rewrite Hd.
      by rewrite bool_decide_true.
    + rewrite Hq in Hp. by apply (stray_tracks q u r) in Hs.
  - intros Hd Ha%bool_decide_eq_true q n Hne Hn.
    destruct (replacing_below t p u q n Hi Hp Ha Hd Hne Hn) as (-> & _ & Hs). split; [done|].
    intros Hl. by destruct Hl.
  - intros Hn. destruct (re_leaf t Hi _ _ Hn) as [[Hb _]|[(v & Hv & [x Hx] & Hm & _)|Hs]]; [done|done| |].
    + cbn in Hm. unfold Current.matches_after, Current.matches in Hm. by rewrite Hx in Hm.
    + rewrite <-(app_nil_r p) in Hp. by apply (stray_tracks p u []) in Hs.
  - intros q part r name Hq [n Hn] Hf.
    assert (∀ r' v, tracks ((q ++ [name]) ++ r') v → name = part) as Hkey.
    { intros r' v (k' & Hk' & Hq'). pose proof (tracks_names p u Hp) as Hnames. rewrite Hq in Hnames.
      apply Forall_app in Hnames as [Hnq _].
      assert (q ++ [name] = q ++ [part]) as Heq; [|by apply app_inj_tail in Heq as [_ ?]].
      apply (pv_alias us plan valid k' k v u _ r' _ r); try done; [by rewrite <-app_assoc|by destruct q..|].
      by apply fold_last. }
    cbn in Hn. destruct (decide (n = Dir)) as [->|Hl].
    + destruct (re_dir t Hi _ Hn) as [Hb|(r' & v & _ & Hv & _)]; [|by eapply Hkey].
      apply (Hspell q part r name Hq); [by exists Dir|done].
    + destruct (re_leaf t Hi _ _ Hn Hl) as [[Hb _]|[(v & Hv & _)|(dir & s & r' & v & Heq & Hs & _)]].
      * apply (Hspell q part r name Hq); [by exists n|done].
      * apply (Hkey [] v). by rewrite app_nil_r.
      * apply app_inj_tail in Heq as [<- <-]. destruct Hs as [_ Hs]. exfalso.
        apply (Hs p u part Hp); [rewrite Hq; apply elem_of_app; right; left|done].
Qed.

Lemma recovering_fits t : recovering t → fits us plan t.
Proof. intros [?|?]; [by apply deleting_fits|by apply replacing_fits]. Qed.

(** *** Every key is at one of its two sides *)

Lemma absent_matches b e s : Current.matches Current.absent b e s = true ↔ b = None.
Proof.
  unfold Current.matches. cbn. case_bool_decide; cbn; naive_solver.
Qed.

Lemma absent_after u : Current.matches_after Current.absent u = true ↔ deletes u.
Proof. apply absent_matches. Qed.

Lemma leaf_content n : leaf n → n ≠ Special → Current.bytes (node_content n) ≠ None.
Proof. by destruct n. Qed.

Lemma tracks_special t p u : fits us plan t → tracks p u → t !! p ≠ Some Special.
Proof. intros Hf Hp. by destruct (tracks_fits p u Hp t Hf) as [(_ & _ & ?) _]. Qed.

(** A replaced key without a file had none before. *)
Lemma replacing_absent t p u :
  replacing t → tracks p u → replaces u → (∀ n, t !! p = Some n → n = Dir) →
  content before p = Current.absent.
Proof.
  intros Hi Hp [x Hx] Hn. unfold content. destruct (before !! p) as [n|] eqn:Hb; [|done].
  assert (leaf n → False) as Hl; [|by destruct n; [|destruct Hl|destruct Hl|]].
  intros Hl. destruct (re_kept t Hi p n Hb Hl) as [Ht|(v & Hv & Hd)].
  - by apply Hl, Hn.
  - rewrite (tracks_fun p v u Hv Hp) in *. destruct Hd as [Hd|(n' & Ht & _ & Hm & _)].
    + unfold deletes in Hd. congruence.
    + rewrite (Hn n' Ht) in Hm. apply absent_after in Hm. unfold deletes in Hm. congruence.
Qed.

Lemma recovering_matches t p u :
  recovering t → tracks p u →
  Current.matches_before (content t p) u = true ∨ Current.matches_after (content t p) u = true.
Proof.
  intros Hi Hp. pose proof (before_matches p u Hp) as Hb. rewrite content_node in *.
  destruct Hi as [Hi|Hi].
  - destruct (t !! p) as [n|] eqn:Hn.
    + apply (de_sub t Hi) in Hn. rewrite Hn in Hb. by left.
    + destruct (before !! p) as [n|] eqn:Hn'; [|by left].
      destruct (de_gone t Hi p n Hn') as [?|(_ & _ & v & Hv & Hd)]; [congruence|].
      right. rewrite (tracks_fun p v u Hv Hp) in Hd. by apply absent_after.
  - destruct (t !! p) as [n|] eqn:Hn.
    + destruct (decide (n = Dir)) as [->|Hl].
      * cbn. destruct (decide (replaces u)) as [Hr|Hr]; [|right; by apply absent_after, eq_None_not_Some].
        left. rewrite <-content_node, (replacing_absent t p u) in Hb; [done..|].
        intros n Hn'. congruence.
      * destruct (re_leaf t Hi p n Hn Hl) as [[Hbn _]|[(v & Hv & _ & Hm & _)|Hs]].
        -- rewrite Hbn in Hb. by left.
        -- right. by rewrite (tracks_fun p v u Hv Hp) in Hm.
        -- rewrite <-(app_nil_r p) in Hp. by apply (stray_tracks p u []) in Hs.
    + cbn. destruct (decide (replaces u)) as [Hr|Hr]; [|right; by apply absent_after, eq_None_not_Some].
      left. rewrite <-content_node, (replacing_absent t p u) in Hb; [done..|]. congruence.
Qed.

(** ** Deletions *)

Lemma content_absent t p : Current.bytes (content t p) = None → content t p = Current.absent.
Proof. unfold content. by destruct (t !! p) as [[]|]. Qed.

Lemma deletes_matches c u : deletes u → Current.matches_after c u = true ↔ Current.bytes c = None.
Proof.
  unfold deletes, Current.matches_after, Current.matches. intros ->.
  case_bool_decide as Hb; cbn; [|naive_solver]. by rewrite Hb.
Qed.

Lemma check_current_ok t k u :
  recovering t → bt_get k us = Some u →
  check_current plan k u t = Ok (Current.matches_after (content t (split_slash k)) u).
Proof.
  intros Hi Hk. pose proof (recovering_fits t Hi k u Hk) as [Hok _].
  unfold check_current.
  rewrite (proj2 (current_key us plan valid t k u _ (recovering_wf t Hi) Hk) (conj Hok eq_refl)).
  cbn [mbind result_bind]. destruct (Current.matches_after _ u) eqn:Ha; [done|].
  destruct (recovering_matches t (split_slash k) u Hi) as [->|?]; [by exists k|done|congruence].
Qed.

Lemma replacing_deleted t p u :
  replacing t → tracks p u → deletes u → content t p = Current.absent.
Proof.
  intros Hi Hp Hd. pose proof (tracks_special t p u (replacing_fits t Hi) Hp) as Hsp.
  unfold content. destruct (t !! p) as [n|] eqn:Hn; [|done].
  assert (¬ leaf n) as Hl; [|by destruct n; [|destruct Hl|destruct Hl|]].
  intros Hl. destruct (re_leaf t Hi p n Hn Hl) as [[_ Hr]|[(v & Hv & [x Hx] & _)|Hs]].
  - destruct (Hr u Hp) as [x Hx]. unfold deletes in Hd. congruence.
  - rewrite (tracks_fun p v u Hv Hp) in Hx. unfold deletes in Hd. congruence.
  - rewrite <-(app_nil_r p) in Hp. by apply (stray_tracks p u []) in Hs.
Qed.

(** Once every deleted file is gone the second phase can begin. *)
Lemma deleting_done t :
  deleting t → (∀ p u, tracks p u → deletes u → content t p = Current.absent) → replacing t.
Proof.
  intros Hi Hgone. pose proof Hi as [Hw Hsub Hkept]. split; [done| | | |].
  - intros p n Hn Hl. left. split; [by apply Hsub|]. intros u Hp.
    destruct (WorkingUpdate.after u) eqn:Ha; [by eexists|].
    pose proof (tracks_special t p u (deleting_fits t Hi) Hp) as Hsp.
    specialize (Hgone p u Hp Ha). unfold content in Hgone. rewrite Hn in Hgone. by destruct n.
  - intros p Hn. left. by apply Hsub.
  - intros p n Hn Hl. destruct (Hkept p n Hn) as [?|(_ & _ & u & Hp & Hd)]; [by left|right; eauto].
  - intros p Hn. left. by destruct (Hkept p Dir Hn) as [?|(_ & Hl & _)]; [|destruct Hl].
Qed.

Lemma deleting_delete t p u n :
  deleting t → tracks p u → deletes u → t !! p = Some n → leaf n → deleting (delete p t).
Proof.
  intros [Hw Hsub Hkept] Hp Hd Hn Hl. split.
  - apply tree_wf_delete; [done|]. intros s. apply nothing_below; [done| |done].
    destruct (tracks_safe p u Hp) as [Hne _]. rewrite lstat_lookup by done. unfold leaf in Hl. congruence.
  - intros q m [_ Hm]%lookup_delete_Some. by apply Hsub.
  - intros q m Hm. destruct (decide (p = q)) as [<-|Hne].
    + right. rewrite lookup_delete_eq. rewrite (Hsub p n Hn) in Hm. injection Hm as <-. eauto.
    + rewrite lookup_delete_ne by done. by apply Hkept.
Qed.

(** The first loop. *)
Definition deletions_left (todo : list str) (t : tree) : Prop :=
  replacing t ∨
  deleting t ∧ ∀ p u, tracks p u → deletes u → join p ∈ todo ∨ content t p = Current.absent.

Lemma runs_deletion k todo t :
  deletions_left (k :: todo) t → k ∈ deletions us →
  runs (publish_deletion us plan k) (λ _, deletions_left todo) recovering t.
Proof.
  intros Hi Hk. assert (recovering t) as Hrec by (destruct Hi as [?|[? _]]; [by right|by left]).
  unfold publish_deletion, deletions in *. apply list_elem_of_In, filter_In in Hk as [_ Hk].
  destruct (bt_get k us) as [u|] eqn:Hu; [|done].
  assert (deletes u) as Hd.
  { apply negb_true_iff, bool_decide_eq_false in Hk. by apply eq_None_not_Some. }
  assert (tracks (split_slash k) u) as Hp by (by exists k). set (p := split_slash k) in *.
  eapply runs_bind.
  { eapply (runs_observe _ _ _ (λ b t', b = Current.matches_after (content t p) u ∧ t' = t));
      [by apply check_current_ok|done..]. }
  intros ? ? [-> ->]. destruct (Current.matches_after (content t p) u) eqn:Hm.
  - apply runs_ret. apply (deletes_matches _ _ Hd), content_absent in Hm.
    destruct Hi as [?|[Hdel Hleft]]; [by left|right]. split; [done|]. intros q v Hq Hdv.
    destruct (Hleft q v Hq Hdv) as [[Hj|?]%elem_of_cons|?]; auto. right.
    destruct Hq as (k' & Hk' & ->). rewrite join_split_slash in Hj. by subst k'.
  - destruct Hi as [Hre|[Hdel Hleft]].
    { rewrite (replacing_deleted t p u Hre Hp Hd) in Hm.
      assert (Current.matches_after Current.absent u = true) by (by apply absent_after). congruence. }
    pose proof (tracks_special t p u (deleting_fits t Hdel) Hp) as Hsp.
    assert (∃ n, t !! p = Some n ∧ leaf n) as (n & Hn & Hl).
    { destruct (t !! p) as [n|] eqn:Hn.
      - exists n. split; [done|]. intros ->. unfold content in Hm. rewrite Hn in Hm.
        assert (Current.matches_after Current.absent u = true) by (by apply absent_after). congruence.
      - unfold content in Hm. rewrite Hn in Hm.
        assert (Current.matches_after Current.absent u = true) by (by apply absent_after). congruence. }
    pose proof (de_wf t Hdel) as Hw. pose proof (tracks_safe p u Hp) as Hsafe.
    eapply runs_bind.
    { eapply (runs_observe _ _ p (λ q t', q = p ∧ t' = t)); [|done..].
      replace (working_path t k) with (working_path t (join p)) by (unfold p; by rewrite join_split_slash).
      apply working_path_spec; [done|]. split; [done|]. split.
      - intros q r m Hq Hne Hr Hm'. rewrite Hq in Hn.
        pose proof (tree_wf_prefix t q r n Hw Hn Hr) as Hx. rewrite lstat_lookup in Hx by done. congruence.
      - split; [|done]. unfold leaf in Hl. congruence. }
    intros ? ? [-> ->]. assert (deleting (delete p t)) as Hdel' by (by eapply deleting_delete).
    eapply (runs_bind _ _ _ (λ _ t', t' = delete p t)).
    { eapply runs_change; [|done|by left]. destruct Hsafe as [Hne _].
      rewrite lstat_lookup, Hn by done. by destruct n. }
    intros ? ? ->. apply runs_sync; [|by left]. right. split; [done|]. intros q v Hq Hdv.
    destruct (decide (q = p)) as [->|Hne].
    + right. unfold content. by rewrite lookup_delete_eq.
    + destruct (Hleft q v Hq Hdv) as [[Hj|?]%elem_of_cons|Ha]; auto.
      * destruct Hne. destruct Hq as (k' & Hk' & ->). rewrite join_split_slash in Hj. by subst k'.
      * right. unfold content in *. by rewrite lookup_delete_ne.
Qed.

Lemma runs_deletions t :
  recovering t → runs (io_each (publish_deletion us plan) (deletions us)) (λ _, replacing) recovering t.
Proof.
  intros Hi. eapply runs_mono.
  - apply (runs_each _ deletions_left); [intros; by apply runs_deletion|].
    destruct Hi as [Hi|Hi]; [right|by left]. split; [done|]. intros p u Hp Hd. left.
    unfold deletions. apply list_elem_of_In, filter_In. rewrite (tracks_get p u Hp). split.
    + apply list_elem_of_In. rewrite sort_by_key_perm. by eapply bt_get_key, tracks_get.
    + unfold deletes in Hd. by rewrite Hd.
  - intros _ t' [?|[Hdel Hall]]; [done|]. apply deleting_done; [done|]. intros p u Hp Hd.
    destruct (Hall p u Hp Hd) as [Hn|?]; [by apply not_elem_of_nil in Hn|done].
  - done.
Qed.

(** ** Replacements *)

Lemma target_leaf u n : target u n → leaf n.
Proof.
  intros ([x Hx] & Hm & _) ->. apply absent_after in Hm. unfold deletes in Hm. congruence.
Qed.

(** One new entry: a directory above a replaced key, a stray, or a finished key. *)
Lemma replacing_insert t dir s n :
  replacing t → lstat t dir = Some Dir → name_ok s → t !! (dir ++ [s]) ≠ Some Dir →
  (t !! (dir ++ [s]) = None ∧ n = Dir ∧ ∃ r u, r ≠ [] ∧ tracks ((dir ++ [s]) ++ r) u ∧ replaces u) ∨
  (t !! (dir ++ [s]) = None ∧ leaf n ∧ stray (dir ++ [s])) ∨
  (∃ u, tracks (dir ++ [s]) u ∧ target u n) →
  replacing (<[dir ++ [s] := n]> t).
Proof.
  intros Hi Hdir Hs Hnd Hnew. set (d := dir ++ [s]) in *. pose proof (re_wf t Hi) as Hw.
  assert (d ≠ []) as Hd by (unfold d; by destruct dir). split.
  - apply tree_wf_insert; [done..|]. intros x [m Hm]. fold d in Hm.
    rewrite nothing_below in Hm; [done|done| |done]. by rewrite lstat_lookup.
  - intros p m Hm Hl. destruct (decide (d = p)) as [<-|Hne].
    + rewrite lookup_insert_eq in Hm. injection Hm as <-.
      destruct Hnew as [(_ & -> & _)|[(_ & _ & ?)|?]]; [by destruct Hl|auto..].
    + rewrite lookup_insert_ne in Hm by done. by apply (re_leaf t Hi).
  - intros p Hp. destruct (decide (d = p)) as [<-|Hne].
    + rewrite lookup_insert_eq in Hp. injection Hp as ->.
      destruct Hnew as [(_ & _ & ?)|[(_ & Hl & _)|(u & _ & Ht)]]; [by right|by destruct Hl|].
      by apply target_leaf in Ht.
    + rewrite lookup_insert_ne in Hp by done. by apply (re_dir t Hi).
  - intros p m Hm Hl. destruct (decide (d = p)) as [<-|Hne].
    + rewrite lookup_insert_eq. destruct Hnew as [(Hn & _)|[(Hn & _ & Hst)|(u & Hu & Ht)]].
      * right. destruct (re_kept t Hi d m Hm Hl) as [?|(u & Hu & [?|(n' & ? & _)])]; [congruence|eauto|congruence].
      * exfalso. destruct (re_kept t Hi d m Hm Hl) as [?|(u & Hu & _)]; [congruence|].
        rewrite <-(app_nil_r d) in Hu. by apply (stray_tracks d u []) in Hst.
      * right. exists u. split; [done|]. right. by exists n.
    + rewrite lookup_insert_ne by done. by apply (re_kept t Hi).
  - intros p Hp. destruct (decide (d = p)) as [<-|Hne].
    + right. by destruct (re_dirs t Hi d Hp) as [?|?].
    + rewrite lookup_insert_ne by done. by apply (re_dirs t Hi).
Qed.

Lemma replacing_thinned t t' p u :
  replacing t → tracks p u → replaces u → t !! p = Some Dir → thinned p t t' → replacing t'.
Proof.
  intros Hi Hp Hu Hd Ht. pose proof Ht as [Hw Hthin].
  assert (∀ q n, t !! q = Some n → leaf n → t' !! q = Some n) as Hkeep.
  { intros q n Hn Hl. destruct (Hthin q) as [->|[_ [r ->]]]; [done|]. exfalso.
    destruct r as [|x r]; [rewrite app_nil_r in Hn; unfold leaf in Hl; congruence|].
    by destruct (replacing_below t p u (x :: r) n Hi Hp Hu Hd ltac:(done) Hn) as [-> _]. }
  split; [done| | | |].
  - intros q n Hn. apply (re_leaf t Hi). by eapply thinned_sub.
  - intros q Hn. apply (re_dir t Hi). by eapply thinned_sub.
  - intros q n Hn Hl. destruct (re_kept t Hi q n Hn Hl) as [?|(v & Hv & [?|(n' & Hn' & Ht')])]; [by auto| |].
    + right. eauto.
    + right. exists v. split; [done|]. right. exists n'. split; [|done].
      apply Hkeep; [done|by eapply target_leaf].
  - intros q Hq. destruct (re_dirs t Hi q Hq) as [Hn|?]; [|by right].
    destruct (Hthin q) as [->|[_ [r ->]]]; [by left|]. right. by exists p, r, u.
Qed.

Lemma tracks_links p u :
  tracks p u →
  validate_side (WorkingUpdate.after u) (WorkingUpdate.after_executable u) (WorkingUpdate.after_symlink u) = Ok tt.
Proof.
  intros (k & Hk & _). unfold validate_updates in links. rewrite try_for_each_Ok, Forall_forall in links.
  specialize (links u). apply bind_Ok in links as (_ & _ & Hl); [done|].
  unfold bt_values. apply list_elem_of_fmap. exists (k, u). split; [done|]. by apply bt_get_elem.
Qed.

Lemma replacing_readable t p u n : replacing t → tracks p u → t !! p = Some n → readable n.
Proof.
  intros Hi Hp Hn. destruct (decide (n = Dir)) as [->|Hl]; [done|].
  destruct (re_leaf t Hi p n Hn Hl) as [[Hb _]|[(v & _ & _ & _ & Hr)|Hs]]; [by eapply before_readable|done|].
  rewrite <-(app_nil_r p) in Hp. by apply (stray_tracks p u []) in Hs.
Qed.

(** The node that is published. *)
Definition published_node (t : tree) (p : path) (u : WorkingUpdate.t) (bytes : list Z) : node :=
  if bool_decide (WorkingUpdate.after_symlink u = Some true) then Link bytes
  else File bytes (target_mode (match t !! p with Some (File _ m) => Some m | _ => None end)
                     (WorkingUpdate.after_executable u)).

Lemma published_target (laws : PlatformLaws) t p u bytes :
  replacing t → tracks p u → WorkingUpdate.after u = Some bytes → target u (published_node t p u bytes).
Proof.
  intros Hi Hp Ha. split; [by exists bytes|]. unfold published_node.
  pose proof (tracks_links p u Hp) as Hl. unfold validate_side in Hl. rewrite Ha in Hl.
  unfold Current.matches_after, Current.matches. rewrite Ha.
  case_bool_decide as Hsym; cbn [node_content Current.bytes Current.flags WorkingFlags.executable WorkingFlags.symlink].
  - split; [|done]. rewrite bool_decide_true by done. cbn. cbn in Hl.
    apply bind_Ok in Hl as (_ & _ & Hl). apply bail_Ok in Hl as [Hx _]. apply bool_decide_eq_false in Hx.
    rewrite Hsym. by destruct (WorkingUpdate.after_executable u) as [[|]|].
  - set (permissions := match t !! p with Some (File _ m) => Some m | _ => None end).
    assert (readable_mode (default create_mode permissions)) as Hr.
    { unfold permissions. destruct (t !! p) as [[]|] eqn:Hn; cbn; try apply create_readable.
      by apply (replacing_readable t p u _ Hi Hp Hn). }
    destruct (target_mode_spec permissions (WorkingUpdate.after_executable u) Hr) as [Hread Hx].
    split; [|done]. rewrite bool_decide_true by done. cbn [negb].
    destruct (WorkingUpdate.after_executable u) as [b|]; cbn [Current.is_none_or].
    + rewrite (Hx b eq_refl). destruct (WorkingUpdate.after_symlink u) as [[|]|]; by destruct b.
    + by destruct (WorkingUpdate.after_symlink u) as [[|]|].
Qed.

(** Files kept by a step that works on [p]. *)
Definition keeps (p : path) (t t' : tree) : Prop :=
  ∀ q n, q ≠ p → leaf n → t !! q = Some n → t' !! q = Some n.

Lemma keeps_trans p t t' t'' : keeps p t t' → keeps p t' t'' → keeps p t t''.
Proof. intros Hk1 Hk2 q n Hq Hl Hn. eauto. Qed.

(** Nothing but directories above [dir ++ parts], from [dir] on. *)
Definition passable (t : tree) (dir : path) (parts : list str) : Prop :=
  ∀ q r n, parts = q ++ r → q ≠ [] → r ≠ [] → t !! (dir ++ q) = Some n → n = Dir.

Lemma passable_cons t dir part rest :
  passable t dir (part :: rest) → passable t (dir ++ [part]) rest.
Proof.
  intros Hp q r n -> Hq Hr Hn. rewrite <-app_assoc in Hn. by apply (Hp (part :: q) r n).
Qed.

Lemma runs_create_parents dir parts u t :
  tracks (dir ++ parts) u → replaces u → replacing t → parts ≠ [] → lstat t dir = Some Dir →
  passable t dir parts →
  runs (create_parents dir parts)
    (λ _ t', replacing t' ∧ lstat t' (dir ++ removelast parts) = Some Dir ∧
       t' !! (dir ++ parts) = t !! (dir ++ parts) ∧ ∀ q n, t !! q = Some n → t' !! q = Some n)
    replacing t.
Proof.
  revert dir t. induction parts as [|part rest IH]; intros dir t Hu Hr Hi Hne Hd Hp; [done|].
  destruct rest as [|part' rest]; cbn [create_parents].
  { apply runs_ret. split_and!; [done| |done|done]. cbn. by rewrite app_nil_r. }
  assert (name_ok part) as Hname.
  { pose proof (tracks_names _ _ Hu) as Hn. apply Forall_app in Hn as [_ Hn]. by apply Forall_cons in Hn as [? _]. }
  assert (tracks ((dir ++ [part]) ++ part' :: rest) u) as Hu' by (by rewrite <-app_assoc).
  eapply (runs_bind _ _ _ (λ _ t', replacing t' ∧ t' !! (dir ++ [part]) = Some Dir ∧
    passable t' (dir ++ [part]) (part' :: rest) ∧
    t' !! (dir ++ part :: part' :: rest) = t !! (dir ++ part :: part' :: rest) ∧
    ∀ q n, t !! q = Some n → t' !! q = Some n)).
  - unfold create_dir. destruct (t !! (dir ++ [part])) as [n|] eqn:Hn.
    + rewrite (Hp [part] (part' :: rest) n) in Hn by done.
      eapply (runs_bind _ _ _ (λ b t', b = false ∧ t' = t)).
      { eapply (runs_commit _ _ false t); [by rewrite lstat_snoc, Hn|done..]. }
      intros ? ? [-> ->]. eapply (runs_observe _ _ tt); [| |done].
      * unfold ensure_directory. by rewrite lstat_snoc, Hn.
      * split_and!; try done. by apply passable_cons.
    + assert (replacing (<[dir ++ [part] := Dir]> t)) as Hi'.
      { apply replacing_insert; try done; [congruence|]. left. split_and!; try done.
        exists (part' :: rest), u. done. }
      eapply (runs_bind _ _ _ (λ b t', b = true ∧ t' = <[dir ++ [part] := Dir]> t)).
      { eapply (runs_commit _ _ true); [by rewrite lstat_snoc, Hn|done..]. }
      intros ? ? [-> ->]. apply runs_sync; [|done]. split_and!.
      * done.
      * apply lookup_insert_eq.
      * intros q r n Hqr Hq Hrr Hm. rewrite lookup_insert_ne in Hm.
        -- rewrite <-app_assoc in Hm. apply (Hp (part :: q) r n); [by rewrite Hqr|done..].
        -- intros Heq%(f_equal length). rewrite !length_app in Heq. destruct q; [done|]. cbn in Heq. lia.
      * apply lookup_insert_ne. intros Heq. apply app_inv_head in Heq. done.
      * intros q n Hq. rewrite lookup_insert_ne; [done|]. congruence.
  - intros ? t1 (Hi1 & Hd1 & Hp1 & Heq1 & Hk1).
    eapply runs_mono; [apply (IH (dir ++ [part]) t1); try done; by rewrite lstat_snoc| |done].
    intros ? t2 (Hi2 & Hd2 & Heq2 & Hk2). rewrite <-app_assoc in Heq2, Hd2. cbn [app] in Heq2, Hd2.
    split_and!; [done| |congruence|auto].
    by change (removelast (part :: part' :: rest)) with (part :: removelast (part' :: rest)).
Qed.

Context (laws : PlatformLaws).
Context (strange_names : ∀ t dir, strange (temporary_name t dir)).

(** Writing the file itself. *)
Lemma runs_publish_key t p u bytes :
  replacing t → tracks p u → WorkingUpdate.after u = Some bytes →
  lstat t (removelast p) = Some Dir → t !! p ≠ Some Dir → t !! p ≠ Some Special →
  runs (if bool_decide (WorkingUpdate.after_symlink u = Some true) then publish_link p bytes
        else publish_file_with_mode p bytes (WorkingUpdate.after_executable u) true)
    (λ _ t', replacing t' ∧ (∃ n, t' !! p = Some n ∧ target u n) ∧ keeps p t t') replacing t.
Proof.
  intros Hi Hp Ha Hpar Hnd Hsp. pose proof (tracks_safe p u Hp) as [Hne _].
  destruct p as [|s dir _] using rev_ind; [done|]. clear Hne. rewrite removelast_snoc in Hpar.
  assert (name_ok s) as Hs.
  { pose proof (tracks_names _ _ Hp) as Hn. apply Forall_app in Hn as [_ Hn]. by apply Forall_cons in Hn as [? _]. }
  pose proof (published_target laws t (dir ++ [s]) u bytes Hi Hp Ha) as Htarget.
  assert (replaces u) as Hu by (by exists bytes).
  assert (stray (temporary t dir)) as Hstray.
  { exists dir, (temporary_name t dir), [s], u. split_and!; [done|apply strange_names|done..|by exists t]. }
  assert (t !! temporary t dir = None) as Hfresh by apply temporary_fresh.
  assert (temporary t dir ≠ dir ++ [s]) as Hdist.
  { intros Heq. rewrite Heq in Hstray. rewrite <-(app_nil_r (dir ++ [s])) in Hp. by apply (stray_tracks _ u []) in Hstray. }
  assert (∀ n, n ≠ Dir → replacing (<[temporary t dir := n]> t)) as Hstrays.
  { intros n Hn. apply replacing_insert; try done.
    - apply strange_names.
    - intros Hx. by pose proof (eq_trans (eq_sym Hfresh) Hx).
    - right. left. done. }
  assert (replacing (<[dir ++ [s] := published_node t (dir ++ [s]) u bytes]> t)) as Hdone.
  { apply replacing_insert; try done. right. right. by exists u. }
  eapply (runs_mono _ (λ _ t', t' = <[dir ++ [s] := published_node t (dir ++ [s]) u bytes]> t)); [| |done].
  - unfold published_node in *. case_bool_decide as Hsym.
    + apply runs_publish_link; try done.
      pose proof (tracks_links _ _ Hp) as Hl. unfold validate_side in Hl. rewrite Ha, Hsym in Hl.
      cbn in Hl. by apply bind_Ok in Hl as ([] & ? & _).
    + by apply runs_publish_file.
  - intros ? ? ->. split_and!.
    + done.
    + eexists. split; [apply lookup_insert_eq|done].
    + intros q n Hq _ Hn. by rewrite lookup_insert_ne.
Qed.

(** Between the removal of a directory and the new file. *)
Lemma runs_place t p u bytes :
  replacing t → tracks p u → WorkingUpdate.after u = Some bytes → t !! p ≠ Some Dir →
  runs (do! q := observe (λ t, working_path t (join p)) in
        do! _ := create_parents [] q in
        if bool_decide (WorkingUpdate.after_symlink u = Some true) then publish_link q bytes
        else publish_file_with_mode q bytes (WorkingUpdate.after_executable u) true)
    (λ _ t', replacing t' ∧ (∃ n, t' !! p = Some n ∧ target u n) ∧ keeps p t t') replacing t.
Proof.
  intros Hi Hp Ha Hnd. assert (replaces u) as Hu by (by exists bytes).
  pose proof (replacing_fits t Hi) as Hf. pose proof (tracks_special t p u Hf Hp) as Hsp.
  assert (passable t [] p) as Hpass.
  { intros q r n Hq Hne Hr Hn. destruct (decide (n = Dir)) as [?|Hl]; [done|exfalso]. cbn in Hn.
    rewrite Hq in Hp. destruct (re_leaf t Hi q n Hn Hl) as [[Hb Hnd']|[(v & Hv & Hrv & _)|Hs]].
    - destruct (tracks_fits _ _ Hp t Hf) as [[Hun _] _].
      destruct (Hun q r n eq_refl Hne Hr Hn Hl) as (pb & pa & Hplan & _).
      rewrite (pv_get us plan valid) in Hplan. apply fmap_Some in Hplan as (v & Hv & _).
      assert (tracks q v) as Htv.
      { apply tracks_join; [done| |done]. pose proof (tracks_names _ _ Hp) as Hnm. by apply Forall_app in Hnm as [? _]. }
      by destruct (after_conflict q r v u Htv Hp (Hnd' v Htv) Hu Hr).
    - by destruct (after_conflict q r v u Hv Hp Hrv Hu Hr).
    - by apply (stray_tracks q u r) in Hs. }
  eapply runs_bind.
  { eapply (runs_observe _ _ p (λ q t', q = p ∧ t' = t)); [|done..].
    apply working_path_spec; [by eapply tracks_safe|]. split; [done|]. split; [|done].
    intros q r n Hq Hne Hr Hn. by apply (Hpass q r n). }
  intros ? ? [-> ->]. pose proof (tracks_safe p u Hp) as [Hne _].
  eapply runs_bind; [by apply (runs_create_parents [] p u t)|].
  intros ? t1 (Hi1 & Hd1 & Heq1 & Hk1). cbn [app] in *.
  eapply runs_mono; [apply (runs_publish_key t1 p u bytes); try done; congruence| |done].
  intros ? t2 (Hi2 & Ht2 & Hk2). split_and!; [done..|]. intros q n Hq Hl Hn. apply Hk2; auto.
Qed.

Lemma runs_replacement t k u :
  replacing t → bt_get k us = Some u → replaces u →
  runs (publish_replacement us plan (k, u))
    (λ _ t', replacing t' ∧ (∃ n, t' !! split_slash k = Some n ∧ target u n) ∧ keeps (split_slash k) t t')
    replacing t.
Proof.
  intros Hi Hk [bytes Ha]. assert (tracks (split_slash k) u) as Hp by (by exists k).
  unfold publish_replacement. rewrite Ha. pose proof (join_split_slash k) as Hj.
  pose proof (check_current_ok t k u (or_intror Hi) Hk) as Hc. set (p := split_slash k) in *.
  eapply runs_bind.
  { eapply (runs_observe _ _ _ (λ b t', b = Current.matches_after (content t p) u ∧ t' = t)); [exact Hc|done..]. }
  intros ? ? [-> ->]. destruct (Current.matches_after (content t p) u) eqn:Hm.
  { apply runs_ret. split_and!; [done| |by intros ? ?]. rewrite content_node in Hm.
    destruct (t !! p) as [n|] eqn:Hn.
    - exists n. split; [done|]. split; [by exists bytes|]. split; [done|]. by eapply replacing_readable.
    - apply absent_after in Hm. unfold deletes in Hm. congruence. }
  assert (replaces u) as Hu by (by exists bytes). pose proof (tracks_safe p u Hp) as [Hne _].
  assert (∀ t1, replacing t1 → t1 !! p ≠ Some Dir → keeps p t t1 →
    runs (do! q := observe (λ t, working_path t k) in
          do! _ := create_parents [] q in
          if bool_decide (WorkingUpdate.after_symlink u = Some true) then publish_link q bytes
          else publish_file_with_mode q bytes (WorkingUpdate.after_executable u) true)
      (λ _ t', replacing t' ∧ (∃ n, t' !! p = Some n ∧ target u n) ∧ keeps p t t') replacing t1) as Hrest.
  { intros t1 Hi1 Hd1 Hk1. pose proof (runs_place t1 p u bytes Hi1 Hp Ha Hd1) as Hplace. rewrite Hj in Hplace.
    eapply runs_mono; [exact Hplace| |done].
    intros ? t2 (Hi2 & Ht2 & Hk2). split_and!; [done..|]. by eapply keeps_trans. }
  eapply (runs_or_else _ _ (bool_decide (t !! p = Some Dir))); [by rewrite lstat_lookup|done| |].
  2: { eapply ends_then; [by apply runs_ends, (runs_ret _ (λ _ t', t' = t))|]. intros ? ? ->.
       destruct (decide (t !! p = Some Dir)) as [Hd|Hd].
       - eapply ends_then; [apply (ends_observe _ _ (λ _ _, False)); [|done]|done].
         intros q Hq. rewrite <-Hj in Hq. apply working_path_spec in Hq as (_ & _ & Hx & _); [done|by eapply tracks_safe].
       - apply runs_ends, Hrest; [done..|]. by intros q n _ _ ?. }
  eapply (runs_bind _ _ _ (λ _ t', replacing t' ∧ t' !! p ≠ Some Dir ∧ keeps p t t')).
  - destruct (decide (t !! p = Some Dir)) as [Hd|Hd]; [rewrite bool_decide_true by done|rewrite bool_decide_false by done; by apply runs_ret; split_and!; [..|by intros ? ?]].
    assert (only_dirs t p) as Hod.
    { intros q n [r ->] Hn. destruct r as [|x r].
      - rewrite app_nil_r in *. split; [congruence|]. by eapply tracks_safe.
      - by destruct (replacing_below t p u (x :: r) n Hi Hp Hu Hd ltac:(done) Hn) as (? & _ & ?). }
    eapply runs_mono; [apply (runs_remove_empty_tree replacing); try done; [apply Hi|]| |done].
    + intros t' Ht. by apply (replacing_thinned t t' p u).
    + intros ? ? ->. split_and!.
      * apply (replacing_thinned t _ p u); try done. apply gone_thinned; [done|apply Hi].
      * by rewrite gone_lookup, decide_True.
      * intros q n Hq Hl Hn. rewrite gone_lookup, decide_False; [done|]. intros Hpre.
        by destruct (Hod q n Hpre Hn) as [-> _].
  - intros ? t1 (Hi1 & Hd1 & Hk1). by apply Hrest.
Qed.

(** The second loop. *)
Definition replacements_left (todo : updates) (t : tree) : Prop :=
  replacing t ∧ ∀ k u, bt_get k us = Some u → replaces u →
    (k, u) ∈ todo ∨ ∃ n, t !! split_slash k = Some n ∧ target u n.

Lemma runs_replacements t :
  replacing t → runs (io_each (publish_replacement us plan) us)
    (λ _ t', replacing t' ∧ ∀ p u, tracks p u → replaces u → ∃ n, t' !! p = Some n ∧ target u n)
    replacing t.
Proof.
  intros Hi. eapply runs_mono.
  - apply (runs_each _ replacements_left).
    + intros [k u] todo t' [Hi' Hleft] Hin. apply bt_get_elem_iff in Hin; [|by apply (pv_us us plan)].
      destruct (decide (replaces u)) as [Hu|Hu].
      * eapply runs_mono; [by apply runs_replacement| |done]. intros ? t2 (Hi2 & Ht2 & Hk2).
        split; [done|]. intros k' u' Hk' Hu'. destruct (decide (k' = k)) as [->|Hne].
        { right. by simplify_eq. }
        destruct (Hleft k' u' Hk' Hu') as [[?|?]%elem_of_cons|(n & Hn & Ht)]; [by simplify_eq|by left|].
        right. exists n. split; [|done]. apply Hk2; [|by eapply target_leaf|done].
        intros Heq%(f_equal join). by rewrite !join_split_slash in Heq.
      * unfold publish_replacement. apply eq_None_not_Some in Hu. rewrite Hu. apply runs_ret.
        split; [done|]. intros k' u' Hk' Hu'.
        destruct (Hleft k' u' Hk' Hu') as [[?|?]%elem_of_cons|?]; [|by left|by right].
        simplify_eq. destruct Hu'. congruence.
    + split; [exact Hi|]. intros k u Hk _. left. by apply bt_get_elem.
  - intros ? t' [Hi' Hall]. split; [done|]. intros p u (k & Hk & ->) Hu.
    destruct (Hall k u Hk Hu) as [Hn|?]; [by apply not_elem_of_nil in Hn|done].
  - done.
Qed.

(** ** The whole publication *)

(** What a finished publication leaves. *)
Definition settled (t : tree) : Prop :=
  replacing t ∧ ∀ p u, tracks p u → Current.matches_after (content t p) u = true.

Lemma runs_publish_working t :
  recovering t → runs (publish_working us plan) (λ _, settled) recovering t.
Proof.
  intros Hi. unfold publish_working. eapply runs_bind; [by apply runs_deletions|].
  intros ? t1 Hi1. eapply runs_mono; [by apply runs_replacements| |by right].
  intros ? t2 [Hi2 Hall]. split; [done|]. intros p u Hp. destruct (decide (replaces u)) as [Hu|Hu].
  - destruct (Hall p u Hp Hu) as (n & Hn & _ & Hm & _). by rewrite content_node, Hn.
  - rewrite (replacing_deleted t2 p u Hi2 Hp); [|by apply eq_None_not_Some].
    by apply absent_after, eq_None_not_Some.
Qed.
End recovery.
