(* ===== verification/TransactionFacts.v ===== *)
(** * Command transactions: records, recovery and commit *)

From stdpp Require Import gmap.
From S2P Require Import Prelude Machine Order Utf8 Path Explore FileTree WorkingPlan Publication Transaction WorkingFacts PlanFacts PublicationFacts Recovery.

(** ** Metadata paths *)

Lemma normal_part_spec s :
  normal_part s = true ↔ name_ok s ∧ s ≠ lit "." ∧ s ≠ lit "..".
Proof.
  unfold normal_part, name_ok. rewrite negb_true_iff, !orb_false_iff, !bool_decide_eq_false. tauto.
Qed.

Definition json_name (s : str) : Prop := extension s = Some (lit "json").

Lemma key_spec p text :
  key p = Ok text ↔
  p ≠ [] ∧ forallb normal_part p = true ∧ json_name (default [] (last p)) ∧ text = join p.
Proof.
  unfold key, json_name. rewrite !bail_Ok, orb_false_iff, negb_false_iff, bool_decide_eq_false,
    negb_false_iff, bool_decide_eq_true. split; [|naive_solver]. intros ([? ?] & ? & [= <-]). done.
Qed.

Lemma key_names p text : key p = Ok text → Forall name_ok p.
Proof.
  intros (_ & Hn & _)%key_spec. rewrite forallb_Forall in Hn. eapply Forall_impl; [exact Hn|].
  by intros s [? _]%normal_part_spec.
Qed.

Lemma key_split p text : key p = Ok text → split_slash text = p.
Proof.
  intros Hk. pose proof (key_names p text Hk) as Hn. apply key_spec in Hk as (Hne & _ & _ & ->).
  by apply split_slash_names.
Qed.

Lemma normal_not_skipped s : normal_part s = true → skipped_part s = false.
Proof.
  intros ([? _] & ? & _)%normal_part_spec. unfold skipped_part.
  by rewrite !bool_decide_eq_false_2.
Qed.

(** The text of a record names its path again. *)
Lemma journal_path_key p text : key p = Ok text → journal_path text = Ok p.
Proof.
  intros Hk. pose proof (key_split p text Hk) as Hsplit. pose proof (key_names p text Hk) as Hnames.
  pose proof Hk as (Hne & Hn & _ & Htext)%key_spec. unfold journal_path. rewrite Hsplit.
  rewrite forallb_Forall in Hn.
  assert (List.filter (λ part, negb (skipped_part part)) p = p) as ->.
  { clear -Hn. induction Hn as [|s p Hs _ IH]; [done|]. cbn.
    rewrite (normal_not_skipped s Hs). cbn. by rewrite IH. }
  assert (bool_decide (head text = Some 0x2f) = false) as ->.
  { apply bool_decide_eq_false. intros Hh. destruct p as [|s p]; [done|].
    apply Forall_cons in Hnames as [[Hs0 Hs] _]. destruct s as [|c s]; [done|].
    assert (head text = Some c) as Hc by (rewrite Htext; by destruct p).
    rewrite Hh in Hc. injection Hc as <-. done. }
  rewrite Hk. cbn [mbind result_bind].
  assert (existsb skipped_part (option_list (head p) ++ option_list (last p)) = false) as ->; [|done].
  apply existsb_false_intro, Forall_app. rewrite Forall_forall in Hn. split.
  - destruct p as [|s p]; [constructor|]. apply Forall_singleton, normal_not_skipped, Hn. left.
  - destruct (last p) as [s|] eqn:Hl; [|constructor]. apply Forall_singleton, normal_not_skipped, Hn.
    apply last_Some in Hl as [q ->]. apply elem_of_app. right. left.
Qed.

Lemma check_parts_spec m dir parts :
  check_parts m dir parts = Ok tt ↔
  (∀ q r, parts = q ++ r → q ≠ [] → r ≠ [] → m !! (dir ++ q) = Some Dir) ∧
  (parts ≠ [] → m !! (dir ++ parts) = None ∨ ∃ bytes mode, m !! (dir ++ parts) = Some (File bytes mode)).
Proof.
  revert dir. induction parts as [|part rest IH]; intros dir; cbn [check_parts].
  { split; [|done]. intros _. split; [|done]. intros q r Hq. by apply symmetry, app_eq_nil in Hq as [-> _]. }
  rewrite lstat_snoc. destruct rest as [|part' rest].
  - split.
    + intros Hc. split; [|intros _; destruct (m !! (dir ++ [part])) as [[]|]; naive_solver].
      intros [|? q] [|? r] Hq ? ?; try done. injection Hq as _ Hq. by destruct q.
    + intros [_ Hn]. destruct (Hn ltac:(done)) as [->|(? & ? & ->)]; done.
  - transitivity (m !! (dir ++ [part]) = Some Dir ∧ check_parts m (dir ++ [part]) (part' :: rest) = Ok tt).
    { destruct (m !! (dir ++ [part])) as [[]|]; naive_solver. }
    rewrite IH. setoid_rewrite <-app_assoc. cbn [app]. split.
    + intros (Hd & Hq & Hl). split; [|intros _; by apply Hl].
      intros [|x q] r Heq Hne Hr; [done|]. injection Heq as <- Heq.
      destruct q as [|y q]; [done|]. by apply (Hq (y :: q) r).
    + intros [Hq Hl]. split_and!.
      * by apply (Hq [part] (part' :: rest)).
      * intros q r Heq Hne Hr. apply (Hq (part :: q) r); [by rewrite Heq|done..].
      * intros _. by apply Hl.
Qed.

(** ** Records *)

Lemma extension_plain s : existsb (Z.eqb 0x2e) s = false → take_until_dot (rev s) = rev s.
Proof.
  intros Hs. assert (existsb (Z.eqb 0x2e) (rev s) = false) as Hr.
  { apply existsb_false_intro, Forall_forall. intros c Hc. rewrite elem_of_rev in Hc.
    by eapply existsb_false_elem. }
  clear Hs. induction (rev s) as [|c l IH]; [done|]. cbn [existsb take_until_dot] in Hr |- *.
  apply orb_false_iff in Hr as [Hc Hr].
  rewrite Z.eqb_sym, Hc. by rewrite IH.
Qed.

Lemma temporary_not_json `{PlatformLaws} t dir : ¬ json_name (temporary_name t dir).
Proof.
  unfold json_name, extension, temporary_name.
  pose proof (temporary_plain t dir) as Hp. set (r := random_name t dir) in *.
  set (rest := lit "rgit-publish-" ++ r).
  change (lit ".rgit-publish-" ++ r) with (0x2e :: rest).
  assert (existsb (Z.eqb 0x2e) rest = false) as Hd.
  { unfold rest. rewrite existsb_app. apply orb_false_iff. split; [done|].
    apply existsb_false_intro, Forall_forall. intros c Hc.
    pose proof (existsb_false_elem _ _ c Hp Hc) as Hx. apply orb_false_iff in Hx as [_ Hx].
    by rewrite Z.eqb_sym. }
  cbn [rev].
  assert (take_until_dot (rev rest ++ [0x2e]) = rev rest) as ->.
  { pose proof (extension_plain rest Hd) as He. revert He. generalize (rev rest) as l. clear.
    induction l as [|c l IH]; [done|]. cbn [app take_until_dot].
    destruct (c =? 0x2e); [done|]. intros [= Hl]. by rewrite IH. }
  rewrite drop_app_length. done.
Qed.

Lemma temporary_name_ok `{PlatformLaws} t dir : name_ok (temporary_name t dir).
Proof.
  split; [done|]. unfold temporary_name. rewrite existsb_app. apply orb_false_iff. split; [done|].
  apply existsb_false_intro, Forall_forall. intros c Hc.
  pose proof (existsb_false_elem _ _ c (temporary_plain t dir) Hc) as Hx.
  apply orb_false_iff in Hx as [Hx _]. by rewrite Z.eqb_sym.
Qed.

Section records.
Context `{PlatformLaws} (rows : BTreeMap str (list Z)) (rows_wf : bt_wf rows).
Context (m0 : tree) (m0_wf : tree_wf m0).

(** [p] is the path of the record [bytes]. *)
Definition record (p : path) (bytes : list Z) : Prop :=
  ∃ text, bt_get text rows = Some bytes ∧ key p = Ok text.

Context (rows_ok : ∀ text bytes, bt_get text rows = Some bytes →
  key (split_slash text) = Ok text ∧ check_path m0 (split_slash text) = Ok tt).

(** Records are as they were or published; besides, there are temporaries. *)
Definition recording (m : tree) : Prop :=
  tree_wf m ∧ ∀ q,
    m !! q = m0 !! q ∨
    (∃ bytes mode, record q bytes ∧ m !! q = Some (File bytes mode)) ∨
    (m0 !! q = None ∧ (∃ n, m !! q = Some n ∧ leaf n) ∧ ∃ t dir, q = dir ++ [temporary_name t dir]).

Lemma record_fun p b c : record p b → record p c → b = c.
Proof.
  intros (t1 & Hb & H1) (t2 & Hc & H2). rewrite H1 in H2. injection H2 as <-. congruence.
Qed.

Lemma record_check p bytes : record p bytes → check_path m0 p = Ok tt.
Proof.
  intros (text & Hb & Hk). rewrite <-(key_split p text Hk). by eapply rows_ok.
Qed.

Lemma record_json p bytes : record p bytes → ∃ dir s, p = dir ++ [s] ∧ json_name s ∧ name_ok s.
Proof.
  intros (text & _ & Hk). pose proof (key_names p text Hk) as Hn. apply key_spec in Hk as (Hne & _ & Hj & _).
  destruct p as [|s dir _] using rev_ind; [done|]. rewrite last_snoc in Hj. exists dir, s.
  apply Forall_app in Hn as [_ Hn]. by apply Forall_cons in Hn as [? _].
Qed.

Lemma record_not_temporary p bytes t dir : record p bytes → p ≠ dir ++ [temporary_name t dir].
Proof.
  intros (dir' & s & -> & Hj & _)%record_json Heq. apply app_inj_tail in Heq as [_ ->].
  by apply temporary_not_json in Hj.
Qed.

Lemma recording_check m p bytes : recording m → record p bytes → check_path m p = Ok tt.
Proof.
  intros [_ Hm] Hp. pose proof (record_check p bytes Hp) as Hc. unfold check_path in *.
  apply check_parts_spec in Hc as [Hd Hl]. cbn [app] in *. apply check_parts_spec. cbn [app]. split.
  - intros q r Heq Hq Hr. specialize (Hd q r Heq Hq Hr).
    destruct (Hm q) as [->|[(b & mode & Hb & _)|(Hn & _)]]; [done| |congruence].
    apply record_check in Hb. apply check_parts_spec in Hb as [_ Hx]. cbn [app] in Hx.
    destruct (Hx Hq) as [?|(? & ? & ?)]; congruence.
  - intros Hne. destruct (Hm p) as [->|[(b & mode & _ & ->)|(_ & _ & t & dir & ->)]]; [by apply Hl|by eauto|].
    by destruct (record_not_temporary _ _ t dir Hp).
Qed.

Lemma recording_insert m dir s n :
  recording m → lstat m dir = Some Dir → name_ok s → m !! (dir ++ [s]) ≠ Some Dir →
  (∃ bytes mode, record (dir ++ [s]) bytes ∧ n = File bytes mode) ∨
  (m !! (dir ++ [s]) = None ∧ leaf n ∧ ∃ t, s = temporary_name t dir) →
  recording (<[dir ++ [s] := n]> m).
Proof.
  intros [Hw Hm] Hd Hs Hnd Hnew. set (p := dir ++ [s]) in *. split.
  - apply tree_wf_insert; [done..|]. intros x [k Hk]. fold p in Hk.
    rewrite nothing_below in Hk; [done|done| |done]. unfold p. by rewrite lstat_snoc.
  - intros q. destruct (decide (p = q)) as [<-|Hne]; [|rewrite lookup_insert_ne by done; apply Hm].
    rewrite lookup_insert_eq. right. destruct Hnew as [(bytes & mode & Hr & ->)|(Hn & Hl & t & ->)]; [left; eauto|right].
    split; [|split; [by eauto|by exists t, dir]].
    destruct (Hm p) as [?|[(? & ? & _ & ?)|(? & _)]]; congruence.
Qed.

Lemma runs_publish_record m p bytes :
  recording m → record p bytes →
  runs (publish_file p bytes)
    (λ _ m', recording m' ∧ ∃ mode, m' = <[p := File bytes mode]> m) recording m.
Proof.
  intros Hi Hp. pose proof (recording_check m p bytes Hi Hp) as Hc. unfold check_path in Hc.
  apply check_parts_spec in Hc as [Hd Hl]. cbn [app] in *.
  pose proof (record_not_temporary p bytes) as Hnt.
  destruct (record_json p bytes Hp) as (dir & s & -> & Hj & Hs).
  assert (lstat m dir = Some Dir) as Hdir.
  { destruct dir as [|x dir]; [done|]. rewrite lstat_lookup by done. by apply (Hd _ [s]). }
  assert (m !! (dir ++ [s]) = None ∨ ∃ b mode, m !! (dir ++ [s]) = Some (File b mode)) as Hcur
    by (apply Hl; by destruct dir).
  assert (∀ mode, recording (<[dir ++ [s] := File bytes mode]> m)) as Hpublished.
  { intros mode. apply recording_insert; try done.
    - destruct Hcur as [->|(? & ? & ->)]; done.
    - left. by eexists _, _. }
  unfold publish_file.
  eapply runs_mono; [apply (runs_publish_file m dir s recording)| |done].
  - done.
  - apply temporary_fresh.
  - intros Heq. by apply (Hnt m dir Hp).
  - destruct Hcur as [->|(? & ? & ->)]; done.
  - done.
  - intros n Hn. apply recording_insert; try done; [apply temporary_name_ok| |].
    + intros Hx. by pose proof (eq_trans (eq_sym (temporary_fresh m dir)) Hx).
    + right. split_and!; [apply temporary_fresh|done|by exists m].
  - intros _ l Hx. destruct Hcur as [?|(? & ? & ?)]; congruence.
  - by apply Hpublished.
  - intros ? ? ->. split; [by apply Hpublished|by eexists].
Qed.

Definition record_list : list (path * list Z) := map (λ e : str * list Z, (split_slash e.1, e.2)) rows.

Lemma record_list_elem r : r ∈ record_list ↔ record r.1 r.2.
Proof.
  unfold record_list. rewrite list_elem_of_fmap. split.
  - intros ([text bytes] & -> & Hin). apply bt_get_elem_iff in Hin; [|done]. exists text. split; [done|].
    by apply rows_ok in Hin as [? _].
  - intros (text & Hb & Hk). exists (text, r.2). cbn [fst snd]. rewrite (key_split _ _ Hk).
    split; [by destruct r|].
    by apply bt_get_elem.
Qed.

Definition records_done (m : tree) : Prop :=
  recording m ∧ ∀ p bytes, record p bytes → ∃ mode, m !! p = Some (File bytes mode).

Lemma runs_records m :
  recording m →
  runs (io_each (λ r : path * list Z, publish_file r.1 r.2) record_list) (λ _, records_done) recording m.
Proof.
  intros Hi. eapply runs_mono.
  - apply (runs_each _ (λ todo m', recording m' ∧ ∀ p bytes, record p bytes →
      (p, bytes) ∈ todo ∨ ∃ mode, m' !! p = Some (File bytes mode))).
    + intros [p bytes] todo m' [Hi' Hleft] Hin%record_list_elem.
      eapply runs_mono; [by apply runs_publish_record| |done]. intros ? m2 [Hi2 (mode & ->)].
      split; [done|]. intros q b Hq. destruct (decide (p = q)) as [<-|Hne].
      * right. rewrite lookup_insert_eq. rewrite (record_fun p b bytes Hq Hin). by exists mode.
      * rewrite lookup_insert_ne by done.
        destruct (Hleft q b Hq) as [[?|?]%elem_of_cons|?]; [by simplify_eq|auto..].
    + split; [exact Hi|]. intros p bytes Hp. left. by apply record_list_elem.
  - intros ? m' [Hi' Hall]. split; [done|]. intros p bytes Hp.
    destruct (Hall p bytes Hp) as [Hn|?]; [by apply not_elem_of_nil in Hn|done].
  - done.
Qed.

Lemma check_records m :
  recording m →
  try_map (λ e : str * list Z, p ← check_record m e.1; Ok (p, e.2)) rows = Ok record_list.
Proof.
  intros Hi. unfold record_list.
  assert (∀ e, e ∈ rows → check_record m e.1 = Ok (split_slash e.1)) as Hall.
  { intros [text bytes] Hin. apply bt_get_elem_iff in Hin; [|done]. cbn.
    destruct (rows_ok text bytes Hin) as [Hk _]. unfold check_record.
    rewrite (journal_path_key _ _ Hk). cbn [mbind result_bind].
    rewrite (recording_check m (split_slash text) bytes Hi); [done|]. by exists text. }
  revert Hall. clear. induction rows as [|e l IH]; intros Hall; [done|]. cbn [try_map map].
  rewrite Hall by left. cbn [mbind result_bind]. rewrite IH; [done|]. intros x Hx. apply Hall. by right.
Qed.
End records.

(** ** Recovery *)

Lemma tree_at_set root w d : Disk.tree_at root (Disk.set_tree root w d) = w.
Proof. unfold Disk.tree_at, Disk.set_tree. cbn. by rewrite lookup_insert_eq. Qed.

Lemma tree_at_set_ne root r w d : r ≠ root → Disk.tree_at r (Disk.set_tree root w d) = Disk.tree_at r d.
Proof. intros Hr. unfold Disk.tree_at, Disk.set_tree. cbn. by rewrite lookup_insert_ne. Qed.

Section recover.
Context `{FoldLaws, PlatformLaws, Worktrees}.
Context (d0 : Disk.t) (j : Journal.t) (root : option str) (plan : ShapePlan).
Notation us := (Journal.working j).
Notation rows := (Journal.pending j).
Notation t0 := (Disk.tree_at root d0).
Notation m0 := (Disk.meta d0).

(** The journal was committed against [d0]. *)
Record committed : Prop := {
  co_plan : from_updates us = Ok plan;
  co_wf : bt_wf us;
  co_links : validate_updates us = Ok tt;
  co_tree : tree_wf t0;
  co_fits : fits us plan t0;
  co_before : ∀ p u, tracks us p u → Current.matches_before (content t0 p) u = true;
  co_readable : ∀ p u n, tracks us p u → t0 !! p = Some n → readable n;
  co_strange : ∀ t dir, strange us (temporary_name t dir);
  co_rows : bt_wf rows;
  co_meta : tree_wf m0;
  co_records : ∀ text bytes, bt_get text rows = Some bytes →
    key (split_slash text) = Ok text ∧ check_path m0 (split_slash text) = Ok tt;
  co_root : ∀ d, recording rows m0 (Disk.meta d) → journal_root j d = Ok root;
  co_nonempty : is_empty j = false }.

Context (co : committed).
Let valid : plan_valid us plan := from_updates_valid us plan (co_wf co) (co_plan co).

Definition recoverable (d : Disk.t) : Prop :=
  Disk.journal d = j ∧ recovering us t0 (Disk.tree_at root d) ∧ recording rows m0 (Disk.meta d) ∧
  ∀ r, r ≠ root → Disk.tree_at r d = Disk.tree_at r d0.

Definition recovered (d : Disk.t) : Prop :=
  Disk.journal d = Journal.empty ∧ settled us t0 (Disk.tree_at root d) ∧
  records_done rows m0 (Disk.meta d) ∧ ∀ r, r ≠ root → Disk.tree_at r d = Disk.tree_at r d0.

Lemma check_recovery_ok t : recovering us t0 t → check_recovery j t = Ok plan.
Proof.
  intros Hi. unfold check_recovery. rewrite (co_plan co). cbn [mbind result_bind].
  pose proof (recovering_wf us t0 t Hi) as Hw.
  assert (fits us plan t) as Hf by (by eapply recovering_fits; try apply co).
  rewrite (fits_aliases us plan valid t Hw Hf). cbn [mbind result_bind]. rewrite (co_links co).
  cbn [mbind result_bind].
  match goal with |- context [try_for_each ?f ?l] => assert (try_for_each f l = Ok tt) as -> end; [|done].
  apply try_for_each_Ok, Forall_forall. intros [k u] Hin. apply bt_get_elem_iff in Hin; [|apply co]. cbn.
  destruct (Hf k u Hin) as [Hok _].
  rewrite (proj2 (current_key us plan valid t k u _ Hw Hin) (conj Hok eq_refl)). cbn [mbind result_bind].
  assert (tracks us (split_slash k) u) as Hp by (by exists k).
  destruct (recovering_matches us t0 (co_before co) t (split_slash k) u Hi Hp) as [-> | ->];
    [done|by rewrite andb_false_r].
Qed.

Lemma runs_recover d : recoverable d → runs recover (λ _, recovered) recoverable d.
Proof.
  intros (Hj & Ht & Hm & Ho). unfold recover.
  assert (recoverable d) as Hd by done.
  eapply (runs_bind _ _ _ (λ a d', a = j ∧ d' = d)).
  { eapply runs_observe; [done| |done]. done. }
  intros ? ? [-> ->]. eapply (runs_bind _ _ _ (λ a d', a = root ∧ d' = d)).
  { eapply runs_observe; [by apply (co_root co)|done..]. }
  intros ? ? [-> ->]. eapply (runs_bind _ _ _ (λ a d', a = plan ∧ d' = d)).
  { eapply runs_observe; [by apply check_recovery_ok|done..]. }
  intros ? ? [-> ->]. eapply (runs_bind _ _ _ (λ a d', a = record_list rows ∧ d' = d)).
  { eapply runs_observe; [|done..]. apply (check_records rows (co_rows co) m0); [apply co|done]. }
  intros ? ? [-> ->]. eapply (runs_bind _ _ _ (λ _ d', ∃ t', settled us t0 t' ∧ d' = Disk.set_tree root t' d)).
  { apply runs_zoom. eapply runs_mono.
    - apply (runs_publish_working us plan valid (co_links co) t0 (co_fits co) (co_before co)
        (co_readable co) _ (co_strange co)). exact Ht.
    - intros ? t' Hs. by exists t'.
    - intros t' Ht'. split_and!; [done|by rewrite tree_at_set|done|].
      intros r Hr. rewrite tree_at_set_ne by done. by apply Ho. }
  intros ? ? (t' & Hs & ->).
  assert (recovering us t0 t') as Ht' by (right; apply Hs).
  eapply (runs_bind _ _ _ (λ _ d', ∃ m', records_done rows m0 m' ∧ d' = Disk.set_meta m' (Disk.set_tree root t' d))).
  { apply runs_zoom. eapply runs_mono.
    - apply (runs_records rows (co_rows co) m0 (co_records co)). exact Hm.
    - intros ? m' Hx. by exists m'.
    - intros m' Hm'. split_and!; [done|by rewrite <-(tree_at_set root t' d) in Ht'|done|].
      intros r Hr. rewrite <-(Ho r Hr). by apply (tree_at_set_ne root). }
  intros ? ? (m' & Hrec & ->). rewrite (co_nonempty co). eapply runs_change; [done| |].
  - split_and!; [done|by rewrite <-(tree_at_set root t' d) in Hs|done|].
    intros r Hr. rewrite <-(Ho r Hr). by apply (tree_at_set_ne root).
  - split_and!; [done|by rewrite <-(tree_at_set root t' d) in Ht'|apply Hrec|].
    intros r Hr. rewrite <-(Ho r Hr). by apply (tree_at_set_ne root).
Qed.
End recover.
