(* ===== verification/TransactionSpec.v ===== *)
(** * Command transactions: atomicity and recovery *)

From stdpp Require Import gmap.
From S2P Require Import Prelude Machine Order Utf8 Path Explore FileTree WorkingPlan Publication Transaction WorkingFacts PlanFacts PublicationFacts Recovery TransactionFacts.

(** ** Journal rows *)

Lemma insert_rows {V} (l : list (str * V)) (m m' : BTreeMap str V) :
  bt_wf m → try_fold insert_row l m = Ok m' →
  bt_wf m' ∧ ∀ k v, bt_get k m' = Some v ↔ bt_get k m = Some v ∨ (k, v) ∈ l.
Proof.
  revert m. induction l as [|[k0 v0] l IH]; intros m Hw; cbn [try_fold].
  { intros [= <-]. split; [done|]. intros k v. rewrite elem_of_nil. tauto. }
  intros (m1 & H1 & Hm)%bind_Ok. unfold insert_row in H1. cbn [fst snd] in H1.
  apply bail_Ok in H1 as [Hc H1]. injection H1 as <-.
  destruct (IH _ (bt_insert_wf _ _ _ Hw) Hm) as [Hw' Hg]. split; [done|]. intros k v.
  rewrite Hg, bt_get_insert, elem_of_cons. unfold bt_contains in Hc. case_decide as Hk.
  - subst k0. destruct (bt_get k m) eqn:Hx; [done|]. naive_solver.
  - naive_solver.
Qed.

Lemma try_map_elem {E A B} (f : A → result E B) l k :
  try_map f l = Ok k → ∀ y, y ∈ k ↔ ∃ x, x ∈ l ∧ f x = Ok y.
Proof.
  revert k. induction l as [|x l IH]; intros k; cbn [try_map].
  { intros [= <-] y. rewrite elem_of_nil. split; [done|]. intros (x & Hx & _). by apply not_elem_of_nil in Hx. }
  intros (y0 & Hy & Hk)%bind_Ok. apply bind_Ok in Hk as (ys & Hys & Hk). injection Hk as <-.
  intros y. rewrite elem_of_cons, (IH ys Hys). setoid_rewrite elem_of_cons. split; [intros [->|(z & Hz & Hf)]; eauto|intros (z & [->|Hz] & Hf); [left; congruence|eauto]].
Qed.

Lemma journal_rows_spec tx j :
  bt_wf (CommandTransaction.working tx) → bt_wf (CommandTransaction.pending tx) →
  journal_rows tx Journal.empty = Ok j →
  Journal.context j = Some (default [] (CommandTransaction.workspace_id tx)) ∧
  Journal.working j = CommandTransaction.working tx ∧ bt_wf (Journal.pending j) ∧
  ∀ text bytes, bt_get text (Journal.pending j) = Some bytes ↔
    ∃ p, bt_get p (CommandTransaction.pending tx) = Some bytes ∧ key p = Ok text.
Proof.
  intros Hw Hp Hj. unfold journal_rows in Hj. apply bail_Ok in Hj as [_ Hj].
  apply bind_Ok in Hj as (w & Hwk & Hj). apply bind_Ok in Hj as (rows & Hrows & Hj).
  apply bind_Ok in Hj as (pending & Hpend & Hj). injection Hj as <-. cbn [Journal.context Journal.working Journal.pending].
  apply insert_rows in Hwk as [Hww Hwg]; [|apply bt_wf_nil].
  apply insert_rows in Hpend as [Hpw Hpg]; [|apply bt_wf_nil]. split_and!; [done| |done|].
  - apply bt_ext; [done..|]. intros k. apply option_eq. intros u. rewrite Hwg. cbn.
    rewrite <-(bt_get_elem_iff k u _ Hw). naive_solver.
  - intros text bytes. rewrite Hpg. cbn. rewrite (try_map_elem _ _ _ Hrows). split.
    + intros [?|([p b] & Hin & Hk)]; [done|]. apply bind_Ok in Hk as (x & Hx & [= <- <-]).
      exists p. split; [by apply bt_get_elem_iff|done].
    + intros (p & Hb & Hk). right. exists (p, bytes). split; [by apply bt_get_elem|]. cbn.
      by rewrite Hk.
Qed.

(** ** Which errors say that the command is committed *)

(** The error is not [TxError.PublicationIncomplete]. *)
Definition plain {A} (r : result TxError.t A) : Prop :=
  match r with Err (TxError.PublicationIncomplete _) => False | _ => True end.

Section plain.
Context {A B : Type}.

Lemma plain_bind (r : result TxError.t A) (f : A → result TxError.t B) :
  plain r → (∀ a, plain (f a)) → plain (r ≫= f).
Proof. intros Hr Hf. destruct r as [a|e]; [apply Hf|exact Hr]. Qed.

Lemma plain_fmap (r : result TxError.t A) (f : A → B) : plain r → plain (f <$> r).
Proof. by destruct r as [a|e]. Qed.

Lemma plain_try_map (f : A → result TxError.t B) l : (∀ a, plain (f a)) → plain (try_map f l).
Proof.
  intros Hf. induction l as [|a l IH]; [done|]. cbn [try_map].
  specialize (Hf a). destruct (f a); [|exact Hf]. cbn. by destruct (try_map f l).
Qed.

Lemma plain_try_for_each (f : A → result TxError.t ()) l : (∀ a, plain (f a)) → plain (try_for_each f l).
Proof.
  intros Hf. induction l as [|a l IH]; [done|]. cbn [try_for_each].
  specialize (Hf a). destruct (f a); [exact IH|exact Hf].
Qed.

Lemma plain_try_fold (g : B → A → result TxError.t B) l b :
  (∀ b a, plain (g b a)) → plain (try_fold g l b).
Proof.
  intros Hg. revert b. induction l as [|a l IH]; intros b; [done|]. cbn [try_fold].
  specialize (Hg b a). destruct (g b a); [apply IH|exact Hg].
Qed.
End plain.

Create HintDb plain discriminated.
#[local] Hint Constants Opaque : plain.

Ltac plain :=
  repeat match goal with
    | |- plain (Ok _) => exact I
    | |- plain (Err _) => exact I
    | |- plain (_ ≫= _) => apply plain_bind; [|intros ?]
    | |- plain (_ <$> _) => apply plain_fmap
    | |- plain (try_map _ _) => apply plain_try_map; intros ?
    | |- plain (try_for_each _ _) => apply plain_try_for_each; intros ?
    | |- plain (try_fold _ _ _) => apply plain_try_fold; intros ? ?
    | |- plain (ok_or ?o _) => destruct o; cbn [ok_or]
    | |- plain (match ?x with _ => _ end) => destruct x
    end; auto with plain nocore.

Section checks.
Context `{Unicode}.

Lemma plain_key k : plain (validate_working_key k).
Proof. unfold validate_working_key. plain. Qed.

Lemma plain_link bytes : plain (validate_link bytes).
Proof. unfold validate_link. plain. Qed.
#[local] Hint Resolve plain_key plain_link : plain.

Lemma plain_validate_parts prefixes prefix parts : plain (validate_parts prefixes prefix parts).
Proof.
  revert prefixes prefix. induction parts as [|part parts IH]; intros prefixes prefix; cbn [validate_parts]; plain.
Qed.

Lemma plain_existing t blockers parent prefix parts : plain (existing_parts t blockers parent prefix parts).
Proof.
  revert parent prefix. induction parts as [|part parts IH]; intros parent prefix; cbn [existing_parts]; plain.
Qed.

Lemma plain_working t dir parts : plain (check_working t dir parts).
Proof. revert dir. induction parts as [|part parts IH]; intros dir; cbn [check_working]; plain. Qed.

Lemma plain_replaceable plan t fuel pending : plain (replaceable_loop plan t fuel pending).
Proof.
  revert pending. induction fuel as [|fuel IH]; intros pending; cbn [replaceable_loop]; [done|].
  unfold replaceable_entry. plain.
Qed.
#[local] Hint Resolve plain_validate_parts plain_existing plain_working plain_replaceable : plain.

Lemma plain_current_parts plan t key before after dir prefix parts :
  plain (current_parts plan t key before after dir prefix parts).
Proof.
  revert dir prefix. induction parts as [|part parts IH]; intros dir prefix; cbn [current_parts]; [done|].
  unfold directory_can_be_replaced, read_working, working_path. plain.
Qed.
#[local] Hint Resolve plain_current_parts : plain.

Lemma plain_from_updates us : plain (from_updates us).
Proof. unfold from_updates, new_plan, validate, validate_path, check_side. plain. Qed.

Lemma plain_check_commit us plan t : plain (check_commit us plan t).
Proof.
  unfold check_commit, validate_aliases, validate_existing, validate_updates, validate_side, current.
  plain.
Qed.

Lemma plain_journal_rows tx j : plain (journal_rows tx j).
Proof. unfold journal_rows, insert_row, key. plain. Qed.
End checks.

(** ** What a command may rely on and what it leaves *)

Section commit.
Context `{FoldLaws, PlatformLaws, Worktrees}.
Context (tx : CommandTransaction.t) (d0 : Disk.t).
Notation us := (CommandTransaction.working tx).
Notation pending := (CommandTransaction.pending tx).

(** The staged state: the journal is empty, the staged records passed the checks of
    [stage], names of temporaries fold to no part of a key, and the registry that
    resolves the worktree is not among the staged records. *)
Record staged : Prop := {
  st_journal : Disk.journal d0 = Journal.empty;
  st_trees : ∀ r, tree_wf (Disk.tree_at r d0);
  st_meta : tree_wf (Disk.meta d0);
  st_working : bt_wf us;
  st_pending : bt_wf pending;
  st_records : ∀ p bytes, bt_get p pending = Some bytes →
    (∃ text, key p = Ok text) ∧ check_path (Disk.meta d0) p = Ok tt;
  st_readable : ∀ r k bytes mode, bt_contains k us = true →
    Disk.tree_at r d0 !! split_slash k = Some (File bytes mode) → readable_mode mode;
  st_names : ∀ t dir k part, bt_contains k us = true → part ∈ split_slash k →
    fold (temporary_name t dir) ≠ fold part;
  st_id : CommandTransaction.workspace_id tx ≠ Some [];
  st_root : ∀ m id, CommandTransaction.workspace_id tx = Some id →
    (∀ q n, bt_get q pending = None → Disk.meta d0 !! q = Some n → m !! q = Some n) →
    resolve_root m id = resolve_root (Disk.meta d0) id }.

Definition tracked (q : path) : Prop := ∃ k, bt_contains k us = true ∧ q = split_slash k.

(** The command took effect in the tree [root]: every working file and record is as staged,
    everything else as before, up to temporaries. *)
Record published (root : option str) (d : Disk.t) : Prop := {
  pu_journal : Disk.journal d = Journal.empty;
  pu_working : ∀ k u, bt_get k us = Some u →
    Current.matches_after (content (Disk.tree_at root d) (split_slash k)) u = true;
  pu_kept : ∀ q n, leaf n → ¬ tracked q →
    Disk.tree_at root d0 !! q = Some n → Disk.tree_at root d !! q = Some n;
  pu_new : ∀ q n, leaf n → ¬ tracked q → Disk.tree_at root d !! q = Some n →
    Disk.tree_at root d0 !! q = Some n ∨ ∃ t dir, q = dir ++ [temporary_name t dir];
  pu_others : ∀ r, r ≠ root → Disk.tree_at r d = Disk.tree_at r d0;
  pu_records : ∀ p bytes, bt_get p pending = Some bytes →
    ∃ mode, Disk.meta d !! p = Some (File bytes mode);
  pu_meta : ∀ q, bt_get q pending = None →
    Disk.meta d !! q = Disk.meta d0 !! q ∨
    Disk.meta d0 !! q = None ∧ ∃ t dir, q = dir ++ [temporary_name t dir] }.

Definition unchanged (d : Disk.t) : Prop :=
  Disk.journal d = Journal.empty ∧ Disk.meta d = Disk.meta d0 ∧
  ∀ r, Disk.tree_at r d = Disk.tree_at r d0.

Context (ok : staged).

Lemma tracks_tracked p u : tracks us p u → tracked p.
Proof. intros (k & Hk & ->). exists k. unfold bt_contains. by rewrite Hk. Qed.

(** *** An empty journal *)

Lemma runs_empty d : unchanged d → runs recover (λ _, unchanged) unchanged d.
Proof.
  intros Hd. pose proof Hd as (Hj & Hm & Ht). unfold recover.
  eapply (runs_bind _ _ _ (λ j d', j = Journal.empty ∧ d' = d)); [by apply (runs_observe _ _ (Disk.journal d))|].
  intros ? ? [-> ->]. eapply (runs_bind _ _ _ (λ root d', root = None ∧ d' = d)); [by apply (runs_observe _ _ None)|].
  intros ? ? [-> ->]. eapply (runs_bind _ _ _ (λ _ d', d' = d)); [by apply (runs_observe _ _ [])|].
  intros plan ? ->. eapply (runs_bind _ _ _ (λ records d', records = [] ∧ d' = d)); [by apply (runs_observe _ _ [])|].
  intros ? ? [-> ->]. eapply (runs_bind _ _ _ (λ _ d', unchanged d')).
  { apply runs_zoom, runs_bind with (R := λ _ t, t = Disk.tree_at None d); [by apply runs_ret|].
    intros ? ? ->. apply runs_ret. split_and!; [done..|]. intros r. rewrite <-(Ht r).
    destruct (decide (r = None)) as [->|Hr]; [apply tree_at_set|by apply tree_at_set_ne]. }
  intros ? d' Hd'. eapply (runs_bind _ _ _ (λ _ d', unchanged d')); [|intros; by apply runs_ret].
  apply runs_zoom, runs_ret. exact Hd'.
Qed.

(** *** A committed journal *)

(** The tree recovery works on. *)
Definition recovery_root (root : option str) : option str :=
  match us with [] => None | _ => root end.

Lemma recording_agrees j m :
  journal_rows tx Journal.empty = Ok j → recording (Journal.pending j) (Disk.meta d0) m →
  ∀ q n, bt_get q pending = None → Disk.meta d0 !! q = Some n → m !! q = Some n.
Proof.
  intros Hj [_ Hm] q n Hq Hn.
  destruct (journal_rows_spec tx j (st_working ok) (st_pending ok) Hj) as (_ & _ & _ & Hrows).
  destruct (Hm q) as [->|[(bytes & mode & (text & Hb & Hk) & _)|(Hn' & _)]]; [done| |congruence].
  apply Hrows in Hb as (p & Hp & Hkp). rewrite <-(key_split p text Hkp), (key_split q text Hk) in Hp. congruence.
Qed.

Lemma commit_committed root plan j :
  from_updates us = Ok plan → workspace_root (CommandTransaction.workspace_id tx) d0 = Ok root →
  check_commit us plan (Disk.tree_at root d0) = Ok tt → journal_rows tx Journal.empty = Ok j →
  committed d0 j (recovery_root root) plan.
Proof.
  intros Hplan Hroot Hcheck Hj.
  destruct (journal_rows_spec tx j (st_working ok) (st_pending ok) Hj) as (Hctx & Hus & Hpw & Hrows).
  unfold check_commit in Hcheck. apply bind_Ok in Hcheck as ([] & Hal & Hcheck).
  apply bind_Ok in Hcheck as ([] & Hlinks & Hcheck). rewrite try_for_each_Ok, Forall_forall in Hcheck.
  pose proof (from_updates_valid us plan (st_working ok) Hplan) as Hvalid.
  pose proof (st_trees ok root) as Hwf.
  assert (∀ k u, bt_get k us = Some u → ∃ c, current plan (Disk.tree_at root d0) k = Ok c ∧
    Current.matches_before c u = true) as Hcur.
  { intros k u Hk. specialize (Hcheck (k, u) (bt_get_elem _ _ _ Hk)). cbn in Hcheck.
    apply bind_Ok in Hcheck as (c & Hc & Hb). apply bail_Ok in Hb as [Hb _].
    apply negb_false_iff in Hb. by exists c. }
  assert (fits us plan (Disk.tree_at root d0)) as Hfits.
  { apply (checks_fit us plan Hvalid); [done..|]. intros k u Hk. destruct (Hcur k u Hk) as (c & Hc & _). eauto. }
  assert (∀ k u, bt_get k us = Some u → recovery_root root = root) as Hsame.
  { intros k u Hk. unfold recovery_root. by destruct us. }
  split; rewrite ?Hus; try done; try apply ok.
  - intros k u Hk. rewrite (Hsame k u Hk). by apply Hfits.
  - intros p u (k & Hk & ->). rewrite (Hsame k u Hk). destruct (Hcur k u Hk) as (c & Hc & Hb).
    apply (current_key us plan Hvalid _ k u c Hwf Hk) in Hc as [_ ->]. done.
  - intros p u n (k & Hk & ->) Hn. destruct n as [|bytes mode| |]; try done.
    eapply (st_readable ok); [|exact Hn]. unfold bt_contains. by rewrite Hk.
  - intros t dir. split; [apply temporary_name_ok|]. intros p u part (k & Hk & ->) Hpart.
    apply (st_names ok t dir k part); [|done]. unfold bt_contains. by rewrite Hk.
  - intros text bytes Hb. apply Hrows in Hb as (p & Hp & Hk). rewrite (key_split p text Hk).
    split; [done|]. by apply (st_records ok) in Hp as [_ ?].
  - intros d Hm. pose proof (recording_agrees j _ Hj Hm) as Hagree. unfold journal_root.
    rewrite Hus, Hctx. unfold recovery_root, workspace_root in *. pose proof (st_id ok) as Hid.
    destruct us; [done|]. destruct (CommandTransaction.workspace_id tx) as [[|c id]|] eqn:Hwid; cbn; [done| |by injection Hroot as <-].
    rewrite (st_root ok _ _ Hwid Hagree). exact Hroot.
  - unfold is_empty. destruct j as [[c|] pe wo]; [done|]. cbn in Hctx. done.
Qed.

Lemma recovered_published root plan j d :
  journal_rows tx Journal.empty = Ok j → committed d0 j root plan →
  recovered d0 j root d → published root d.
Proof.
  intros Hj Hco (Hje & [Hre Hset] & [Hrec Hdone] & Hothers).
  destruct (journal_rows_spec tx j (st_working ok) (st_pending ok) Hj) as (_ & Hus & _ & Hrows).
  rewrite Hus in Hre, Hset. split; [done| | | |done| |].
  - intros k u Hk. apply Hset. by exists k.
  - intros q n Hl Hnt Hn. destruct (re_kept _ _ _ Hre q n Hn Hl) as [?|(u & Hu & _)]; [done|].
    by apply tracks_tracked in Hu.
  - intros q n Hl Hnt Hn.
    destruct (re_leaf _ _ _ Hre q n Hn Hl) as [[? _]|[(u & Hu & _)|(dir & s & r & u & -> & _ & _ & _ & _ & t & ->)]].
    + by left.
    + by apply tracks_tracked in Hu.
    + right. by exists t, dir.
  - intros p bytes Hp. apply Hdone. destruct (st_records ok p bytes Hp) as [[text Hk] _].
    exists text. split; [|done]. apply Hrows. by exists p.
  - intros q Hq. destruct (proj2 Hrec q) as [?|[(bytes & mode & (text & Hb & Hk) & _)|(Hn & _ & t & dir & ->)]].
    + by left.
    + apply Hrows in Hb as (p & Hp & Hkp).
      rewrite <-(key_split p text Hkp), (key_split q text Hk) in Hp. congruence.
    + right. split; [done|]. by exists t, dir.
Qed.

(** The tree the command works on: that of its worktree, if it stages working files. *)
Definition command_root (root : option str) : Prop :=
  match us with
  | [] => root = None
  | _ => workspace_root (CommandTransaction.workspace_id tx) d0 = Ok root
  end.

Definition in_effect (d : Disk.t) : Prop := ∃ root, command_root root ∧ published root d.

(** The command was committed to the journal of [d] and [d] is on the way. *)
Definition under_way (d : Disk.t) : Prop :=
  ∃ root plan j, command_root root ∧ journal_rows tx Journal.empty = Ok j ∧ committed d0 j root plan ∧
    recoverable d0 j root d.

Lemma runs_under_way d : under_way d → runs recover (λ _, in_effect) under_way d.
Proof.
  intros (root & plan & j & Hroot & Hj & Hco & Hd).
  eapply runs_mono; [by apply (runs_recover d0 j root plan Hco)| |].
  - intros ? d' Hr. exists root. split; [done|]. by eapply recovered_published.
  - intros d' Hd'. by exists root, plan, j.
Qed.

Lemma committed_start root plan j :
  committed d0 j root plan → recoverable d0 j root (Disk.set_journal j d0).
Proof.
  intros Hco. split_and!; [done| |split; [apply Hco|by left]|done].
  left. apply deleting_start. apply Hco.
Qed.

Lemma runs_recovery d :
  unchanged d ∨ under_way d →
  runs recover (λ _ d', unchanged d' ∨ in_effect d') (λ d', unchanged d' ∨ under_way d') d.
Proof.
  intros [Hd|Hd].
  - eapply runs_mono; [by apply runs_empty|..]; by left.
  - eapply runs_mono; [by apply runs_under_way|..]; by right.
Qed.

(** *** Commit *)

(** How a commit, or what is left of it, ends on the schedule [fates]. *)
Definition commit_outcome (fates : schedule) (end_ : result (stop TxError.t) () * (Disk.t * schedule)) : Prop :=
  match end_ with
  | (Ok _, (d, fates')) => in_effect d ∧ (calm fates → calm fates')
  | (Err (Raised (TxError.PublicationIncomplete _)), (d, _)) => under_way d ∧ ¬ calm fates
  | (Err (Raised _), (d, _)) => d = d0
  | (Err Interrupted, (d, _)) => (d = d0 ∨ under_way d) ∧ ¬ calm fates
  | (Err Stuck, _) => False
  end.

Lemma outcome_calm fates fates' r :
  (calm fates → calm fates') → commit_outcome fates' r → commit_outcome fates r.
Proof. intros Hc. destruct r as [[[]|[[]| |]] [d f]]; cbn; tauto. Qed.

(** A call before the commit. *)
Lemma outcome_observe {A} (f : Disk.t → result TxError.t A) k fates :
  plain (f d0) → (∀ a fates', f d0 = Ok a → commit_outcome fates' (k a (d0, fates'))) →
  commit_outcome fates (io_bind (observe f) k (d0, fates)).
Proof.
  intros Hp Hk. unfold io_bind, observe, observe_call, commit_call, syscall.
  assert (∀ fates, commit_outcome (tail fates) match map_err Raised (f d0) with
    | Ok a => k a (d0, tail fates) | Err e => (Err e, (d0, tail fates)) end) as Hgo.
  { intros fates'. destruct (f d0) as [a|e] eqn:Hf; cbn; [by apply Hk|]. by destruct e. }
  destruct fates as [|[|n|n] fates]; cbn.
  - specialize (Hgo []). by destruct (f d0).
  - specialize (Hgo (Done :: fates)). apply (outcome_calm _ fates); [apply (calm_tail (Done :: fates))|].
    by destruct (f d0).
  - done.
  - split; [by left|apply not_calm_killed].
Qed.

Lemma commit_cases fates : commit_outcome fates (commit tx (d0, fates)).
Proof.
  unfold commit. destruct (nothing_staged tx) eqn:Hns.
  { split; [|done]. exists None. unfold nothing_staged in Hns. unfold command_root.
    destruct pending eqn:Hp; [|done]. destruct us eqn:Hu; [|done]. split; [done|].
    split; try rewrite Hp; try rewrite Hu; try done; [apply ok|by left|by left]. }
  unfold io_bind at 1, inspect at 1. cbn [fst]. pose proof (plain_from_updates us) as Hpl.
  destruct (from_updates us) as [plan|e] eqn:Hplan; cbn [map_err]; [clear Hpl|by destruct e].
  apply outcome_observe.
  { unfold workspace_root. plain. }
  intros root fates1 Hroot. apply outcome_observe; [apply plain_check_commit|]. intros [] fates2 Hcheck.
  apply outcome_observe; [apply plain_journal_rows|]. intros j fates3. rewrite (st_journal ok). intros Hj.
  pose proof (commit_committed root plan j Hplan Hroot Hcheck Hj) as Hco.
  assert (under_way (Disk.set_journal j d0)) as Huw.
  { exists (recovery_root root), plan, j. split_and!; [|done..|by eapply committed_start].
    unfold command_root, recovery_root. by destruct us. }
  assert (∀ fates, commit_outcome fates
    (with_context TxError.PublicationIncomplete recover (Disk.set_journal j d0, fates))) as Hpub.
  { intros fates4. pose proof (runs_context TxError.PublicationIncomplete _ _ _ _ (runs_under_way _ Huw) fates4) as Hr.
    unfold with_context in *. destruct (recover _) as [[[]|[e| |]] [d f]]; try done.
    split; [right|]; apply Hr. }
  unfold io_bind, commit_change, commit_call, syscall.
  destruct fates3 as [|[|n|n] fates3]; cbn.
  - apply Hpub.
  - apply (outcome_calm _ fates3); [apply (calm_tail (Done :: fates3))|apply Hpub].
  - done.
  - split; [by left|apply not_calm_killed].
Qed.
End commit.

(** ** The theorems *)

(** The disks that a command and the recoveries after it can leave when they fail or are killed
    on the way: first the command does, then any number of recoveries do. *)
Inductive after_crashes `{Unicode, Platform, Worktrees} (tx : CommandTransaction.t) (d0 : Disk.t) :
    Disk.t → Prop :=
  | crash_commit fates e d fates' :
      commit tx (d0, fates) = (Err e, (d, fates')) → after_crashes tx d0 d
  | crash_recover d fates e d' fates' :
      after_crashes tx d0 d → recover (d, fates) = (Err e, (d', fates')) →
      after_crashes tx d0 d'.

Section outcomes.
Context `{FoldLaws, PlatformLaws, Worktrees} (tx : CommandTransaction.t) (d0 : Disk.t) (ok : staged tx d0).

Lemma unchanged_start : unchanged d0 d0.
Proof. by destruct ok. Qed.

Lemma after_crashes_state d : after_crashes tx d0 d → unchanged d0 d ∨ under_way tx d0 d.
Proof.
  induction 1 as [fates e d fates' Hc|d fates e d' fates' _ IH Hr].
  - pose proof (commit_cases tx d0 ok fates) as Hcases. rewrite Hc in Hcases.
    pose proof unchanged_start as Hs. cbn in Hcases.
    destruct e as [[]| |]; intuition (subst; auto).
  - pose proof (runs_recovery tx d0 ok d IH fates) as Hx. rewrite Hr in Hx. by destruct e; [apply Hx..|].
Qed.

(** On a calm schedule a run returns. *)
Lemma runs_calm {S A} (m : tio S A) Q I s fates :
  runs m Q I s → calm fates → ∃ a s' rest, m (s, fates) = (Ok a, (s', rest)) ∧ Q a s'.
Proof.
  intros Hm Hc. specialize (Hm fates). destruct (m (s, fates)) as [[a|[e| |]] [s' rest]]; [|naive_solver..].
  exists a, s', rest. split; [done|apply Hm].
Qed.
End outcomes.

(** C9: Crash recovery. However a command fails or is killed, at any call of the system, and
    however often the recoveries after it fail or are killed too, the next recovery that runs
    undisturbed succeeds and leaves the disk either exactly as before the command or with the
    whole command in effect: in the working tree of its worktree, which the registry of before
    the command names, every working file as staged and every other file as before; every record
    as staged; the journal empty. *)
Theorem crash_recovery `{FoldLaws, PlatformLaws, Worktrees} tx d0 d fates :
  staged tx d0 → after_crashes tx d0 d → calm fates →
  ∃ d' rest, recover (d, fates) = (Ok tt, (d', rest)) ∧ (unchanged d0 d' ∨ in_effect tx d0 d').
Proof.
  intros Hst Hd Hc. pose proof (runs_recovery tx d0 Hst d (after_crashes_state tx d0 Hst d Hd)) as Hr.
  destruct (runs_calm recover _ _ d fates Hr Hc) as ([] & d' & rest & Heq & Hq). eauto.
Qed.

(** C10: A commit is all or nothing, whatever calls of the system fail and wherever the process is
    killed. If it returns, the whole command is in effect. If it reports that the command is
    committed and its publication incomplete, the next undisturbed recovery brings the whole
    command into effect. With every other error the disk is untouched. If it is killed, the disk
    is one that [crash_recovery] is about. It never gets stuck, and only a failed or killed call
    makes it stop after the journal is committed. *)
Theorem command_atomic `{FoldLaws, PlatformLaws, Worktrees} tx d0 fates :
  staged tx d0 →
  match commit tx (d0, fates) with
  | (Ok _, (d, _)) => in_effect tx d0 d
  | (Err (Raised (TxError.PublicationIncomplete _)), (d, _)) =>
      ¬ calm fates ∧ after_crashes tx d0 d ∧
      ∀ later, calm later → ∃ d' rest, recover (d, later) = (Ok tt, (d', rest)) ∧ in_effect tx d0 d'
  | (Err (Raised _), (d, _)) => d = d0
  | (Err Interrupted, (d, _)) => ¬ calm fates ∧ after_crashes tx d0 d
  | (Err Stuck, _) => False
  end.
Proof.
  intros Hst. pose proof (commit_cases tx d0 Hst fates) as Hc. unfold commit_outcome in Hc.
  destruct (commit tx (d0, fates)) as [[[]|[e| |]] [d f]] eqn:Hr.
  - apply Hc.
  - destruct e; try exact Hc. destruct Hc as [Huw Hn]. split; [done|].
    split; [by eapply crash_commit|]. intros later Hlater.
    destruct (runs_calm recover _ _ d later (runs_under_way tx d0 Hst d Huw) Hlater)
      as ([] & d' & rest & Heq & Hq). eauto.
  - split; [apply Hc|by eapply crash_commit].
  - exact Hc.
Qed.

(** ** Witnesses *)

(** A platform whose random names are longer than every name in the tree. *)
Definition sample_platform : Platform := {|
  create_mode := 0x1a4;
  random_name t dir :=
    replicate (S (sum_list_with (λ p : path, length (default [] (last p))) (tree_paths t))) 0x78 |}.

Lemma sample_platform_laws : @PlatformLaws sample_platform.
Proof.
  split.
  - intros t dir. destruct (t !! _) as [n|] eqn:Hn; [|done]. exfalso.
    assert (dir ++ [@temporary_name sample_platform t dir] ∈ tree_paths t) as Hin
      by (apply tree_paths_elem; by exists n).
    apply (sum_list_with_in _ (λ p : path, length (default [] (last p)))) in Hin.
    rewrite last_snoc in Hin. cbn [from_option id] in Hin. unfold temporary_name in Hin.
    rewrite length_app in Hin. cbn [random_name sample_platform] in Hin. rewrite length_replicate in Hin. lia.
  - intros t dir. cbn [random_name sample_platform]. apply existsb_false_intro, Forall_replicate. done.
  - done.
Qed.

Lemma ascii_fold_laws : @FoldLaws ascii_unicode.
Proof.
  split. intros a b c Hf. unfold fold in *. cbn in *. rewrite !map_app. cbn. by rewrite Hf.
Qed.

Definition no_worktrees : Worktrees := {| resolve_root _ _ := None |}.

(** A file becomes a directory and a record moves with it. *)
Definition sample_tx : CommandTransaction.t :=
  CommandTransaction.mk None [([lit "workspace.json"], lit "new")]
    [(lit "shape", WorkingUpdate.mk (Some (lit "file")) None (Some false) (Some false) (Some false) (Some false));
     (lit "shape/two", WorkingUpdate.mk None (Some (lit "two")) (Some false) (Some true) (Some false) (Some false))].
Definition sample_disk : Disk.t :=
  Disk.mk {[ [lit "workspace.json"] := File (lit "old") 0x1a4 ]}
    {[ None := {[ [lit "shape"] := File (lit "file") 0x1a4 ]} ]} Journal.empty.

Lemma singleton_wf s n : name_ok s → tree_wf {[ [s] := n ]}.
Proof.
  intros Hs p x m Hm. apply lookup_singleton_Some in Hm as [Heq _].
  change [s] with ([] ++ [s]) in Heq. apply app_inj_tail in Heq as [<- <-]. done.
Qed.

Lemma sample_command_staged : @staged ascii_unicode sample_platform no_worktrees sample_tx sample_disk.
Proof.
  split; try done.
  - intros r. unfold Disk.tree_at. cbn. destruct (decide (r = None)) as [->|Hr].
    + rewrite lookup_singleton_eq. cbn. by apply singleton_wf.
    + rewrite lookup_singleton_ne by done. cbn. intros p x m Hm. by rewrite lookup_empty in Hm.
  - by apply singleton_wf.
  - repeat constructor.
  - repeat constructor.
  - intros p bytes Hp%bt_get_elem. apply list_elem_of_singleton in Hp as [= -> ->].
    split; [by eexists|done].
  - intros r k bytes mode _. unfold Disk.tree_at. cbn. destruct (decide (r = None)) as [->|Hr].
    + rewrite lookup_singleton_eq. cbn. intros [_ [= _ <-]]%lookup_singleton_Some. done.
    + rewrite lookup_singleton_ne by done. cbn. by rewrite lookup_empty.
  - intros t dir k part Hk Hpart Hf. apply (f_equal length) in Hf. unfold fold in Hf. cbn in Hf.
    rewrite !length_map in Hf. cbn in Hf.
    apply bt_contains_elem in Hk.
    apply elem_of_cons in Hk as [->|Hk]; [|apply list_elem_of_singleton in Hk as ->];
      repeat (apply elem_of_cons in Hpart as [->|Hpart]; [cbn in Hf; lia|]); by apply not_elem_of_nil in Hpart.
Qed.

#[local] Existing Instances sample_platform no_worktrees sample_platform_laws ascii_fold_laws.

(** The command is killed after its journal is committed and the old file deleted; and its
    recovery fails when it writes the new file. *)
Definition sample_kill : schedule := replicate 11 Done ++ [Killed 0].
Definition sample_failure : schedule := replicate 20 Done ++ [Failed 1].

Definition sample_crash : Disk.t :=
  (@commit ascii_unicode sample_platform no_worktrees sample_tx (sample_disk, sample_kill)).2.1.

Lemma crash_recovery_witness :
  Disk.tree_at None sample_crash !! [lit "shape"] = None ∧
  ∃ d' rest, @recover ascii_unicode sample_platform no_worktrees (sample_crash, []) = (Ok tt, (d', rest)) ∧
    (unchanged sample_disk d' ∨ in_effect sample_tx sample_disk d').
Proof.
  split; [vm_compute; reflexivity|].
  apply (@crash_recovery ascii_unicode ascii_fold_laws sample_platform sample_platform_laws no_worktrees
    sample_tx sample_disk sample_crash [] sample_command_staged); [|constructor].
  apply (crash_commit _ _ sample_kill Interrupted _ []). vm_compute. reflexivity.
Defined.

Lemma command_atomic_witness :
  (∃ d rest, @commit ascii_unicode sample_platform no_worktrees sample_tx (sample_disk, []) = (Ok tt, (d, rest)) ∧
    in_effect sample_tx sample_disk d) ∧
  ∃ d rest, @commit ascii_unicode sample_platform no_worktrees sample_tx (sample_disk, sample_failure)
    = (Err (Raised (TxError.PublicationIncomplete TxError.Io)), (d, rest)) ∧
    ∃ d' rest', @recover ascii_unicode sample_platform no_worktrees (d, []) = (Ok tt, (d', rest')) ∧
      in_effect sample_tx sample_disk d'.
Proof.
  split.
  - pose proof (@command_atomic ascii_unicode ascii_fold_laws sample_platform sample_platform_laws no_worktrees
      sample_tx sample_disk [] sample_command_staged) as Hc.
    destruct (@commit ascii_unicode sample_platform no_worktrees sample_tx (sample_disk, []))
      as [r [d rest]] eqn:Hr.
    assert (r = Ok tt) as ->.
    { apply (f_equal fst) in Hr. cbn [fst] in Hr. rewrite <-Hr. vm_compute. reflexivity. }
    exists d, rest. split; [reflexivity|exact Hc].
  - pose proof (@command_atomic ascii_unicode ascii_fold_laws sample_platform sample_platform_laws no_worktrees
      sample_tx sample_disk sample_failure sample_command_staged) as Hc.
    destruct (@commit ascii_unicode sample_platform no_worktrees sample_tx (sample_disk, sample_failure))
      as [r [d rest]] eqn:Hr.
    assert (r = Err (Raised (TxError.PublicationIncomplete TxError.Io))) as ->.
    { apply (f_equal fst) in Hr. cbn [fst] in Hr. rewrite <-Hr. vm_compute. reflexivity. }
    exists d, rest. split; [reflexivity|]. destruct Hc as (_ & _ & Hc). apply Hc. constructor.
Defined.
