(* ===== verification/Preservation.v ===== *)
(** * Recovery on any disk: what it never touches

    The other theorems assume the tree the command committed against; here the disk is
    arbitrary: edited, damaged or with a journal written by hand. *)

From stdpp Require Import gmap.
From S2P Require Import Prelude Machine Order Utf8 Path Explore FileTree WorkingPlan Publication Transaction WorkingFacts PlanFacts PublicationFacts Recovery TransactionFacts TransactionSpec.

(** ** Protected files *)

Section protected.
Context `{PlatformLaws} (base : tree) (free : path → Prop).

(** Every file of [base] whose path is not free is still there. *)
Definition intact (t : tree) : Prop :=
  ∀ q n, leaf n → ¬ free q → base !! q = Some n → t !! q = Some n.

(** Nothing protected is at [p]. *)
Definition open_path (p : path) : Prop := ¬ free p → ∀ n, leaf n → base !! p ≠ Some n.

Lemma open_free p : free p → open_path p.
Proof. by intros Hp Hn. Qed.

Lemma open_empty t p : intact t → t !! p = None → open_path p.
Proof. intros Ht Hp Hn n Hl Hb. by rewrite (Ht p n Hl Hn Hb) in Hp. Qed.

Lemma open_dir t p : intact t → t !! p = Some Dir → open_path p.
Proof. intros Ht Hp Hn n Hl Hb. rewrite (Ht p n Hl Hn Hb) in Hp. by injection Hp. Qed.

Lemma intact_insert t p n : open_path p → intact t → intact (<[p := n]> t).
Proof.
  intros Hp Ht q m Hl Hq Hb. destruct (decide (p = q)) as [<-|Hne]; [by destruct (Hp Hq m Hl)|].
  rewrite lookup_insert_ne by done. auto.
Qed.

Lemma intact_delete t p : open_path p → intact t → intact (delete p t).
Proof.
  intros Hp Ht q m Hl Hq Hb. destruct (decide (p = q)) as [<-|Hne]; [by destruct (Hp Hq m Hl)|].
  rewrite lookup_delete_ne by done. auto.
Qed.

Lemma intact_on_file t p f :
  open_path p → intact t → intact (on_file p f t).
Proof.
  intros Hp Ht q m Hl Hq Hb. destruct (decide (p = q)) as [<-|Hne]; [by destruct (Hp Hq m Hl)|].
  unfold on_file. rewrite lookup_alter_ne by done. auto.
Qed.

Lemma preserves_sync t : intact t → preserves intact sync t.
Proof. apply preserves_look. Qed.

Lemma preserves_create_new p n t : open_path p → intact t → preserves intact (create_new p n) t.
Proof. intros Hp Ht. apply preserves_change; [done|]. intros t' [_ [= <-]]%bail_Ok. by apply intact_insert. Qed.

Lemma preserves_set_permissions p mode t :
  open_path p → intact t → preserves intact (set_permissions p mode) t.
Proof. intros Hp Ht. apply preserves_change; [done|]. intros t' [= <-]. by apply intact_on_file. Qed.

Lemma preserves_write_all p bytes t : open_path p → intact t → preserves intact (write_all p bytes) t.
Proof.
  intros Hp Ht. apply preserves_syscall; [done|intros k; by apply intact_on_file|].
  intros ? t' [= _ <-]. by apply intact_on_file.
Qed.

Lemma preserves_remove_file p t : open_path p → intact t → preserves intact (remove_file p) t.
Proof.
  intros Hp Ht. apply preserves_change; [done|]. intros t' Heq.
  destruct (lstat t p) as [[]|]; try done; injection Heq as <-; by apply intact_delete.
Qed.

Lemma preserves_rename p q t :
  open_path p → open_path q → intact t → preserves intact (rename p q) t.
Proof.
  intros Hp Hq Ht. apply preserves_change; [done|]. intros t' (n & _ & [= <-])%bind_Ok.
  by apply intact_insert, intact_delete.
Qed.

Lemma preserves_create_dir p t : intact t → preserves intact (create_dir p) t.
Proof.
  intros Ht. apply preserves_bind.
  - apply preserves_commit; [done|]. intros a t' Heq. destruct (lstat t p) as [n|] eqn:Hl; injection Heq as _ <-; [done|].
    apply intact_insert; [|done]. destruct p as [|x p]; [done|]. by apply (open_empty t).
  - intros [|] t' Ht'; by apply preserves_look.
Qed.

Lemma temporary_open t dir : intact t → open_path (temporary t dir).
Proof. intros Ht. apply (open_empty t); [done|apply temporary_fresh]. Qed.

Lemma preserves_write_temporary temp p bytes permissions executable t :
  open_path temp → open_path p → intact t →
  preserves intact (write_temporary temp p bytes permissions executable) t.
Proof.
  intros Hq Hp Ht. apply preserves_bind; [by apply preserves_create_new|]. intros ? t1 Ht1.
  apply preserves_bind; [destruct permissions; [by apply preserves_set_permissions|by intros fates]|].
  intros ? t2 Ht2. apply preserves_bind.
  { destruct executable; [|by intros fates]. apply preserves_observe; [done|]. intros mode _.
    by apply preserves_set_permissions. }
  intros ? t3 Ht3. apply preserves_bind; [by apply preserves_write_all|]. intros ? t4 Ht4.
  apply preserves_bind; [by apply preserves_sync|]. intros ? t5 Ht5.
  apply preserves_bind; [by apply preserves_rename|]. intros ? t6 Ht6. by apply preserves_sync.
Qed.

Lemma preserves_publish_file p bytes executable working t :
  open_path p → intact t → preserves intact (publish_file_with_mode p bytes executable working) t.
Proof.
  intros Hp Ht. apply preserves_observe; [done|]. intros [permissions temp] Htarget.
  assert (open_path temp) as Htemp.
  { unfold publication_target in Htarget. apply bind_Ok in Htarget as (? & _ & Htarget).
    apply bind_Ok in Htarget as (? & _ & [= _ <-]). by apply temporary_open. }
  apply preserves_on_error; [by apply preserves_write_temporary|intros; by apply preserves_remove_file].
Qed.

Lemma preserves_publish_link p bytes t :
  open_path p → intact t → preserves intact (publish_link p bytes) t.
Proof.
  intros Hp Ht. apply preserves_inspect; [done|]. intros ? _.
  apply preserves_observe; [done|]. intros temp Htarget.
  assert (open_path temp) as Htemp.
  { apply bind_Ok in Htarget as (? & _ & [= <-]). by apply temporary_open. }
  apply preserves_bind; [by apply preserves_create_new|]. intros ? t1 Ht1.
  apply preserves_bind; [|intros; by apply preserves_sync].
  apply preserves_on_error; [by apply preserves_rename|intros; by apply preserves_remove_file].
Qed.

Lemma preserves_remove_tree fuel stack t :
  intact t → preserves intact (remove_tree_loop fuel stack) t.
Proof.
  revert stack t. induction fuel as [|fuel IH]; intros stack t Ht; [by intros fates|].
  destruct stack as [|[p leaving] stack]; cbn [remove_tree_loop]; [by intros fates|].
  apply preserves_observe; [done|]. intros ? Hcheck.
  apply bind_Ok in Hcheck as (? & Hv & Hd). unfold ensure_directory in Hd.
  assert (open_path p) as Hp.
  { destruct p as [|s p]; [done|]. rewrite lstat_lookup in Hd by done.
    destruct (t !! (s :: p)) as [[]|] eqn:Hx; try done. by apply (open_dir t). }
  destruct leaving.
  - apply preserves_bind.
    { apply preserves_change; [done|]. intros t' [_ [= <-]]%bail_Ok. by apply intact_delete. }
    intros ? t1 Ht1. apply preserves_bind; [by apply preserves_sync|]. intros ? t' Ht'. by apply IH.
  - apply preserves_observe; [done|]. intros entries _. by apply IH.
Qed.

Lemma preserves_create_parents dir parts t :
  intact t → preserves intact (create_parents dir parts) t.
Proof.
  revert dir t. induction parts as [|part parts IH]; intros dir t Ht; [by intros fates|].
  destruct parts as [|part' parts]; [by intros fates|].
  change (create_parents dir (part :: part' :: parts)) with
    (do! _ := create_dir (dir ++ [part]) in create_parents (dir ++ [part]) (part' :: parts)).
  apply preserves_bind; [by apply preserves_create_dir|]. intros ? t' Ht'. by apply IH.
Qed.

(** ** Publication *)

Context (us : updates) (plan : ShapePlan).
Context (keys_free : ∀ k u, bt_get k us = Some u → free (split_slash k)).

Lemma working_path_key t k p : working_path t k = Ok p → p = split_slash k.
Proof.
  unfold working_path. intros (? & _ & Hp)%bind_Ok. apply bind_Ok in Hp as (? & _ & Hp). by injection Hp.
Qed.

Lemma preserves_deletion k t : intact t → preserves intact (publish_deletion us plan k) t.
Proof.
  intros Ht. unfold publish_deletion. destruct (bt_get k us) as [u|] eqn:Hk; [|by intros fates].
  apply preserves_observe; [done|]. intros [|] _; [by intros fates|].
  apply preserves_observe; [done|]. intros p ->%working_path_key.
  apply preserves_bind; [|intros; by apply preserves_sync].
  apply preserves_remove_file; [|done]. by eapply open_free, keys_free.
Qed.

Lemma preserves_replacement k u t :
  bt_get k us = Some u → intact t → preserves intact (publish_replacement us plan (k, u)) t.
Proof.
  intros Hk Ht. unfold publish_replacement. destruct (WorkingUpdate.after u) as [bytes|]; [|by intros fates].
  apply preserves_observe; [done|]. intros [|] _; [by intros fates|].
  apply preserves_bind; [by apply preserves_or_else, preserves_look|]. intros directory t0 Ht0.
  apply preserves_bind.
  { destruct directory; [|by intros fates]. intros fates. by apply preserves_remove_tree. }
  intros ? t1 Ht1. apply preserves_observe; [done|]. intros p ->%working_path_key.
  apply preserves_bind; [by apply preserves_create_parents|]. intros ? t2 Ht2.
  assert (open_path (split_slash k)) as Hp by (by eapply open_free, keys_free).
  case_bool_decide; [by apply preserves_publish_link|by apply preserves_publish_file].
Qed.

Lemma preserves_publish_working t :
  bt_wf us → intact t → preserves intact (publish_working us plan) t.
Proof.
  intros Hw Ht. apply preserves_bind.
  - apply preserves_each; [|done]. intros k t' _ Ht'. by apply preserves_deletion.
  - intros ? t1 Ht1. apply preserves_each; [|done]. intros [k u] t' Hin Ht'.
    apply preserves_replacement; [|done]. by apply bt_get_elem_iff.
Qed.
End protected.

(** ** The theorem *)

Section recover.
Context `{Unicode, PlatformLaws, Worktrees} (d : Disk.t).
Notation j := (Disk.journal d).

(** The files a recovery of this journal may write. *)
Definition journalled (q : path) : Prop := ∃ k u, bt_get k (Journal.working j) = Some u ∧ q = split_slash k.
Definition journalled_record (q : path) : Prop :=
  ∃ text bytes, bt_get text (Journal.pending j) = Some bytes ∧ journal_path text = Ok q.

Definition untouched (d' : Disk.t) : Prop :=
  (∀ r, intact (Disk.tree_at r d) journalled (Disk.tree_at r d')) ∧
  intact (Disk.meta d) journalled_record (Disk.meta d').

Lemma intact_refl base free : intact base free base.
Proof. by intros q n _ _ ?. Qed.

Lemma recover_untouched :
  bt_wf (Journal.working j) → bt_wf (Journal.pending j) → preserves untouched recover d.
Proof.
  intros Hw Hp. assert (untouched d) as Hd by (split; [intros r|]; apply intact_refl).
  unfold recover. apply preserves_observe; [done|]. intros ? [= <-].
  apply preserves_observe; [done|]. intros root _. apply preserves_observe; [done|]. intros plan _.
  apply preserves_observe; [done|]. intros records Hrecords. apply preserves_bind.
  { apply preserves_zoom. intros fates.
    pose proof (preserves_publish_working (Disk.tree_at root d) journalled (Journal.working j) plan
      ltac:(intros k u Hk; by exists k, u) (Disk.tree_at root d) Hw (intact_refl _ _) fates) as Hpw.
    split; [|apply Hd]. intros r. destruct (decide (r = root)) as [->|Hr].
    - by rewrite tree_at_set.
    - rewrite tree_at_set_ne by done. apply Hd. }
  intros ? d1 [Ht1 Hm1]. apply preserves_bind.
  { apply preserves_zoom. intros fates.
    pose proof (preserves_each (intact (Disk.meta d) journalled_record)
      (λ r : path * list Z, publish_file r.1 r.2) records (Disk.meta d1)) as He.
    split; [done|]. cbn. apply He; [|done]. intros [p bytes] m Hin Hm.
    apply (preserves_publish_file _ _); [|done]. apply open_free.
    apply (try_map_elem _ _ _ Hrecords) in Hin as ([text b] & Hin & Hc).
    apply bind_Ok in Hc as (q & Hq & [= <- <-]). unfold check_record in Hq.
    apply bind_Ok in Hq as (q' & Hq' & Hq). apply bind_Ok in Hq as (? & _ & [= <-]).
    exists text, b. split; [by apply bt_get_elem_iff|done]. }
  intros ? d2 Hd2. destruct (is_empty j); [by intros fates|]. 
  apply preserves_change; [done|]. by intros d' [= <-].
Qed.
End recover.

(** The run stopped before any change: a call failed or was refused, or it is where the process
    was killed. *)
Definition stopped {S A} (s : S) (fates : schedule) (r : result (stop TxError.t) A) (s' : S) : Prop :=
  s' = s ∧ ((∃ e, r = Err (Raised e)) ∨ r = Err Interrupted ∧ ∃ n, Killed n ∈ fates).

Lemma stopped_mono {S A} (s : S) fates fates1 (r : result (stop TxError.t) A) s' :
  fates1 ⊆ fates → stopped s fates1 r s' → stopped s fates r s'.
Proof. intros Hsub [-> [?|[-> [n ?]]]]; (split; [done|]); [by left|]. right. split; [done|]. exists n. auto. Qed.

Lemma stopped_observe {S A B} (f : S → result TxError.t A) (k : A → tio S B) s fates r s' fates' :
  io_bind (observe f) k (s, fates) = (r, (s', fates')) →
  stopped s fates r s' ∨ ∃ a fates1, f s = Ok a ∧ k a (s, fates1) = (r, (s', fates')) ∧ fates1 ⊆ fates.
Proof.
  assert (tail fates ⊆ fates) as Htail by (destruct fates; [done|intros ?; by right]).
  unfold io_bind, observe, observe_call, commit_call, syscall. intros Hr.
  destruct fates as [|[|n|n] fates]; cbn in Hr.
  3: { injection Hr as <- <- _. left. split; [done|]. left. by eexists. }
  3: { injection Hr as <- <- _. left. split; [done|]. right. split; [done|]. exists n. left. }
  all: destruct (f s) as [a|e]; cbn in Hr; [right; eauto|].
  all: injection Hr as <- <- _; left; split; [done|]; left; by eexists.
Qed.

(** C11: Recovery never costs a file it does not own. On any disk, whatever the journal holds and
    wherever the run stops (success, refusal, a failed call or a kill), every file and link outside
    the journalled working paths and every record outside the journalled ones is still
    there unchanged; and if some journalled working file has neither the content from before
    nor from after the command, recovery refuses, unless it is killed before it has looked, and
    the disk is as it was. *)
Theorem recovery_preserves `{Unicode, PlatformLaws, Worktrees} d fates r d' fates' :
  bt_wf (Journal.working (Disk.journal d)) → bt_wf (Journal.pending (Disk.journal d)) →
  recover (d, fates) = (r, (d', fates')) →
  untouched d d' ∧
  ∀ root k u plan c, journal_root (Disk.journal d) d = Ok root →
    from_updates (Journal.working (Disk.journal d)) = Ok plan →
    bt_get k (Journal.working (Disk.journal d)) = Some u →
    current plan (Disk.tree_at root d) k = Ok c →
    Current.matches_before c u = false → Current.matches_after c u = false →
    d' = d ∧ ((∃ e, r = Err (Raised e)) ∨ r = Err Interrupted ∧ ∃ n, Killed n ∈ fates).
Proof.
  intros Hw Hp Hr. split.
  { pose proof (recover_untouched d Hw Hp fates) as Hu. by rewrite Hr in Hu. }
  intros root k u plan c Hroot Hplan Hk Hc Hb Ha. unfold recover in Hr.
  apply stopped_observe in Hr as [?|(? & fates1 & [= <-] & Hr & Hsub1)]; [done|].
  apply (stopped_mono _ _ fates1); [done|].
  apply stopped_observe in Hr as [?|(root' & fates2 & Hroot' & Hr & Hsub2)]; [done|].
  rewrite Hroot in Hroot'. injection Hroot' as <-. apply (stopped_mono _ _ fates2); [done|].
  apply stopped_observe in Hr as [?|(plan' & fates3 & Hcheck & _)]; [done|]. exfalso.
  unfold check_recovery in Hcheck. rewrite Hplan in Hcheck. cbn [mbind result_bind] in Hcheck.
  apply bind_Ok in Hcheck as (? & _ & Hcheck). apply bind_Ok in Hcheck as (? & _ & Hcheck).
  apply bind_Ok in Hcheck as ([] & Hall & _). rewrite try_for_each_Ok, Forall_forall in Hall.
  specialize (Hall (k, u) (bt_get_elem _ _ _ Hk)). cbn in Hall. rewrite Hc in Hall.
  cbn [mbind result_bind] in Hall. by rewrite Hb, Ha in Hall.
Qed.

(** ** Witness *)

(** The committed journal of the sample, after its new file was edited. *)
Definition sample_edited : Disk.t :=
  Disk.set_tree None {[ [lit "shape"] := File (lit "edited") 0x1a4; [lit "notes"] := File (lit "mine") 0x1a4 ]}
    sample_crash.

Lemma recovery_preserves_witness :
  ∃ r d' rest, @recover ascii_unicode sample_platform no_worktrees (sample_edited, []) = (r, (d', rest)) ∧
    @untouched sample_edited d' ∧ r = Err (Raised TxError.EditedAfterInterruption).
Proof.
  destruct (@recover ascii_unicode sample_platform no_worktrees (sample_edited, []))
    as [r [d' rest]] eqn:Hr.
  exists r, d', rest. split; [reflexivity|]. split.
  - apply (@recovery_preserves ascii_unicode sample_platform sample_platform_laws no_worktrees
      sample_edited [] r d' rest); [| |exact Hr]; vm_compute; repeat constructor.
  - apply (f_equal fst) in Hr. cbn [fst] in Hr. rewrite <-Hr. vm_compute. reflexivity.
Defined.
