(* ===== verification/EdgeTargets.v ===== *)
(** * Identifiers as they are read

    An identifier that [from_bytes] accepts has format 0 and a digest of 32 elements, and every
    identifier of that shape is written and read back unchanged; all the edges of a decoded object
    have targets of that shape. *)

From S2P Require Import Prelude Machine Order Utf8 Canonical ObjectId Types Objects Fields Decode References StoreModel MemoryStore StoreInv.

#[global] Arguments ObjectId.to_bytes : simpl never.

Definition addressed (id : oid) : Prop :=
  ObjectId.format_version id = 0 ∧ len (ObjectId.digest id) = 32.

#[export] Instance addressed_dec id : Decision (addressed id).
Proof. unfold addressed. apply _. Defined.

Lemma read_varint_loop_at shifts bytes start i acc n j :
  ObjectId.read_varint_loop shifts bytes start i acc = Ok (n, j) → i ≤ j.
Proof.
  revert i acc. induction shifts as [|shift shifts IH]; intros i acc; cbn; [done|].
  intros (b & _ & [_ Hb]%bail_Ok)%bind_Ok. revert Hb. case_match.
  - intros [_ [= <- <-]]%bail_Ok. lia.
  - intros Hr%IH. lia.
Qed.

Lemma from_bytes_addressed bytes id : ObjectId.from_bytes bytes = Ok id → addressed id.
Proof.
  unfold ObjectId.from_bytes. intros ([f a1] & H1%read_varint_loop_at & [Hf%negb_false_iff%Z.eqb_eq Hr]%bail_Ok)%bind_Ok.
  apply bind_Ok in Hr as ([code a2] & H2%read_varint_loop_at & Hr). apply bind_Ok in Hr as (alg & _ & Hr).
  apply bind_Ok in Hr as ([n a3] & H3%read_varint_loop_at & [_ [Hlen%negb_false_iff%Z.eqb_eq [= <-]]%bail_Ok]%bail_Ok).
  split; [done|]. cbn [ObjectId.digest]. unfold len in *. rewrite length_skipn. lia.
Qed.

Lemma addressed_bytes id :
  addressed id → ObjectId.to_bytes id = [0; HashAlgorithm.code (ObjectId.algorithm id); 32] ++ ObjectId.digest id.
Proof. intros [Hf _]. by apply ObjectId.to_bytes_eq. Qed.

Lemma from_to_addressed id : addressed id → ObjectId.from_bytes (ObjectId.to_bytes id) = Ok id.
Proof.
  intros Hid. rewrite addressed_bytes by done. destruct Hid as [Hf Hlen]. destruct id as [f alg d]. cbn in Hf, Hlen.
  subst f. unfold ObjectId.from_bytes. cbn [ObjectId.algorithm ObjectId.digest].
  assert (len ([0; HashAlgorithm.code alg; 32] ++ d) = 35) as -> by (rewrite len_app, Hlen; done).
  by destruct alg.
Qed.

Lemma to_bytes_addressed_inj a b :
  addressed a → addressed b → ObjectId.to_bytes a = ObjectId.to_bytes b → a = b.
Proof. intros Ha%from_to_addressed Hb%from_to_addressed Heq. congruence. Qed.

(** ** The targets of edges *)

Definition targets_ok (r : edges) : Prop := ∀ es, r = Ok es → Forall (λ e, addressed (edge_id e)) es.
Definition target_ok (r : result derr ReferenceEdge) : Prop := ∀ e, r = Ok e → addressed (edge_id e).

Lemma oid_addressed v key id : Fields.oid v key = Ok id → addressed id.
Proof.
  unfold Fields.oid. intros (b & _ & Hb%map_err_Ok)%bind_Ok. by apply from_bytes_addressed in Hb.
Qed.

Lemma then_targets a b : targets_ok a → targets_ok b → targets_ok (a +++ b).
Proof.
  intros Ha Hb es (x & Hx & (y & Hy & [= <-])%bind_Ok)%bind_Ok. apply Forall_app. auto.
Qed.

Lemma nil_targets : targets_ok (Ok []).
Proof. intros es [= <-]. constructor. Qed.

Lemma one_target r : target_ok r → targets_ok (e ← r; Ok [e]).
Proof. intros Hr es (e & He & [= <-])%bind_Ok. by apply Forall_singleton, Hr. Qed.

Lemma oid_targets r expected v key : targets_ok (i ← Fields.oid v key; Ok [mk_edge r expected i]).
Proof. intros es (i & Hi & [= <-])%bind_Ok. apply Forall_singleton. by apply oid_addressed in Hi. Qed.

Lemma bind_targets {A} (r : result derr A) k : (∀ a, r = Ok a → targets_ok (k a)) → targets_ok (a ← r; k a).
Proof. intros Hk es (a & Hr & Ha)%bind_Ok. by apply (Hk a). Qed.

Lemma bind_target {A} (r : result derr A) k : (∀ a, target_ok (k a)) → target_ok (a ← r; k a).
Proof. intros Hk es (a & _ & Ha)%bind_Ok. by apply (Hk a). Qed.

Lemma oid_target r expected v key : target_ok (i ← Fields.oid v key; Ok (mk_edge r expected i)).
Proof. intros e (i & Hi & [= <-])%bind_Ok. by apply oid_addressed in Hi. Qed.

Lemma err_targets e : targets_ok (Err e).
Proof. done. Qed.

Lemma for_targets {A} (f : A → result derr ReferenceEdge) items :
  (∀ x, target_ok (f x)) → targets_ok (for_edges f items).
Proof.
  intros Hf. unfold for_edges. induction items as [|x items IH]; cbn; [apply nil_targets|].
  intros es (e & He & (es' & Hes & [= <-])%bind_Ok)%bind_Ok. constructor; [by apply (Hf x)|by apply IH].
Qed.

Lemma concat_targets {A} (f : A → edges) items : (∀ x, targets_ok (f x)) → targets_ok (concat_edges f items).
Proof.
  intros Hf es. unfold concat_edges.
  apply (try_fold_inv _ (λ _ es, Forall (λ e, addressed (edge_id e)) es)); [|constructor].
  intros _ x st st' Hst _ (es' & Hes & [= <-])%bind_Ok. apply Forall_app. split; [done|]. by apply (Hf x).
Qed.

Lemma typed_target r key v : target_ok (typed_edge r key v).
Proof. unfold typed_edge. do 4 (apply bind_target; intros ?). apply oid_target. Qed.

Lemma policy_target r key v : target_ok (policy_edge r key v).
Proof. unfold policy_edge. do 2 (apply bind_target; intros ?). apply oid_target. Qed.

Lemma add_targets m key r expected : targets_ok (add m key r expected).
Proof. unfold add. repeat case_match; first [apply nil_targets|apply oid_targets]. Qed.

Lemma two_targets a b : addressed (edge_id a) → addressed (edge_id b) → targets_ok (Ok [a; b]).
Proof. intros Ha Hb es [= <-]. apply Forall_cons; split; [done|]. by apply Forall_singleton. Qed.

Create HintDb edge_targets.
#[export] Hint Resolve oid_addressed : edge_targets.
#[export] Hint Extern 1 (addressed (edge_id _)) => cbn [edge_id] : edge_targets.
#[export] Hint Resolve then_targets nil_targets one_target oid_targets err_targets for_targets concat_targets
  typed_target policy_target add_targets oid_target two_targets : edge_targets.

(** Walks through the monadic code of an extractor. *)
Ltac edge_targets :=
  repeat match goal with
    | |- ∀ _, _ => intros ?
    | |- targets_ok (_ +++ _) => apply then_targets
    | |- targets_ok (concat_edges _ _) => apply concat_targets
    | |- targets_ok (for_edges _ _) => apply for_targets
    | |- targets_ok (match _ with _ => _ end) => case_match
    | |- targets_ok (if _ then _ else _) => case_match
    | H : policy_edge _ _ _ = Ok _ |- _ => apply policy_target in H
    | |- _ => solve [eauto with edge_targets]
    | |- targets_ok (mbind _ _) => apply bind_targets
    | |- target_ok (mbind _ _) => apply bind_target
    end.

Lemma by_kind_targets kind m : targets_ok (Edges.by_kind kind m).
Proof.
  unfold Edges.by_kind, Edges.blob, Edges.manifest, Edges.manifest_entry, Edges.snapshot, Edges.change_revision,
    Edges.line_state, Edges.release, Edges.policy, Edges.conflict, Edges.operation, Edges.operation_action,
    Edges.transition, Edges.line_advance, Edges.repository_root, Edges.identity, Edges.key_bounds,
    Edges.group_membership, Edges.change_relation, Edges.conflict_resolution, Edges.evidence,
    Edges.projection_proof, Edges.build_provenance, Edges.view, Edges.migration, add_array, add_typed,
    add_typed_array.
  destruct kind; edge_targets.
Qed.

Lemma references_targets d : targets_ok (References.references d).
Proof.
  unfold References.references. apply bind_targets. intros m _ es (out & Hout & [= <-])%bind_Ok.
  assert (Forall (λ e, addressed (edge_id e)) out) as Hall.
  { revert Hout. apply then_targets; [|apply by_kind_targets]. unfold policy_edges. edge_targets. }
  clear Hout. unfold dedup. assert (Forall (λ e, addressed (edge_id e)) []) as Hnil by constructor. revert Hnil.
  generalize (@nil ReferenceEdge) as acc. induction out as [|e out IH]; intros acc Hacc; cbn; [done|].
  apply Forall_cons in Hall as [He Hall]. apply IH; [done|]. unfold push_unique.
  case_bool_decide; [done|]. apply Forall_app. split; [done|]. by apply Forall_singleton.
Qed.

(** The edges of a stored object that was decoded. *)
Lemma decoded_targets `{Unicode, Digests} id bytes o :
  decode id bytes = Ok o → Forall (λ e, addressed (edge_id e)) (StoredObject.references o).
Proof.
  unfold decode, StoredObject.new. intros (a & _ & Ho%map_err_Ok)%bind_Ok.
  apply bind_Ok in Ho as (es & Hes & [= <-]). by apply references_targets in Hes.
Qed.
