(* ===== verification/SqlSchema.v ===== *)
(** * The metadata database: [crates/rgit-store/migrations/0001_initial.sql]

    The tables of the first schema as finite maps from primary keys to rows, the conditions
    that the schema puts on them ([CHECK], [UNIQUE] and [FOREIGN KEY] clauses), and the
    statements that the store executes on them. A statement takes effect only if the
    database still satisfies the conditions afterwards, since foreign keys are enforced at the end of every
    statement. Columns that are the same in all rows the store can write (the default
    kinds of the parent tables, the pack columns of loose locations, the resolution columns of open
    incidents) are left out, and so are the tables that it never touches (packs, leases, tombstones). *)

From Stdlib Require Import Sorting.Sorted.
From S2P Require Import Prelude Machine Order Utf8 EdgeRoles.

Notation blob := (list Z) (only parsing).

Module ObjectRow.
Record t := mk {
  kind : option Z;
  object_schema : option Z;
  presence : Z;
  canonical_length : option Z;
  first_seen_revision : Z;
  unavailable_reason : option Z }.
End ObjectRow.

Module LocationRow.
Record t := mk {
  object_id : blob;
  location_kind : Z;
  relative_path : str;
  stored_length : Z;
  active : Z }.
End LocationRow.

Module EdgeRow.
Record t := mk { role : str; expected_kind : option Z; target_id : blob }.
End EdgeRow.

Module ReferenceRow.
Record t := mk { target_id : blob; target_kind : Z; generation : Z; operation_id : blob }.
End ReferenceRow.

Module IncidentRow.
Record t := mk {
  affected_object_id : blob;
  safe_identity_sha256 : blob;
  evidence_sha256 : blob;
  reason : Z;
  evidence_relative_path : str;
  fail_closed : Z;
  state : Z;
  created_revision : Z }.
End IncidentRow.

Module Database.
Record t := mk {
  revision : Z;
  incident_read_only : Z;
  objects : BTreeMap blob ObjectRow.t;
  object_locations : list LocationRow.t;
  object_edges : BTreeMap (blob * Z) EdgeRow.t;
  snapshot_parents : BTreeMap (blob * Z) blob;
  graph_generations : BTreeMap blob (Z * Z);
  operations : BTreeMap blob (Z * Z);
  operation_parents : BTreeMap (blob * Z) blob;
  references : BTreeMap (Z * blob) ReferenceRow.t;
  incidents : BTreeMap blob IncidentRow.t }.

(** The database after [initialize_schema]. *)
Definition initial : t := mk 0 0 [] [] [] [] [] [] [] [] [].

Definition set_revision (x : Z) (db : t) : t :=
  mk x (incident_read_only db) (objects db) (object_locations db) (object_edges db)
    (snapshot_parents db) (graph_generations db) (operations db) (operation_parents db)
    (references db) (incidents db).
Definition set_incident_read_only (x : Z) (db : t) : t :=
  mk (revision db) x (objects db) (object_locations db) (object_edges db)
    (snapshot_parents db) (graph_generations db) (operations db) (operation_parents db)
    (references db) (incidents db).
Definition set_objects (x : BTreeMap blob ObjectRow.t) (db : t) : t :=
  mk (revision db) (incident_read_only db) x (object_locations db) (object_edges db)
    (snapshot_parents db) (graph_generations db) (operations db) (operation_parents db)
    (references db) (incidents db).
Definition set_object_locations (x : list LocationRow.t) (db : t) : t :=
  mk (revision db) (incident_read_only db) (objects db) x (object_edges db)
    (snapshot_parents db) (graph_generations db) (operations db) (operation_parents db)
    (references db) (incidents db).
Definition set_object_edges (x : BTreeMap (blob * Z) EdgeRow.t) (db : t) : t :=
  mk (revision db) (incident_read_only db) (objects db) (object_locations db) x
    (snapshot_parents db) (graph_generations db) (operations db) (operation_parents db)
    (references db) (incidents db).
Definition set_snapshot_parents (x : BTreeMap (blob * Z) blob) (db : t) : t :=
  mk (revision db) (incident_read_only db) (objects db) (object_locations db) (object_edges db)
    x (graph_generations db) (operations db) (operation_parents db)
    (references db) (incidents db).
Definition set_graph_generations (x : BTreeMap blob (Z * Z)) (db : t) : t :=
  mk (revision db) (incident_read_only db) (objects db) (object_locations db) (object_edges db)
    (snapshot_parents db) x (operations db) (operation_parents db)
    (references db) (incidents db).
Definition set_operations (x : BTreeMap blob (Z * Z)) (db : t) : t :=
  mk (revision db) (incident_read_only db) (objects db) (object_locations db) (object_edges db)
    (snapshot_parents db) (graph_generations db) x (operation_parents db)
    (references db) (incidents db).
Definition set_operation_parents (x : BTreeMap (blob * Z) blob) (db : t) : t :=
  mk (revision db) (incident_read_only db) (objects db) (object_locations db) (object_edges db)
    (snapshot_parents db) (graph_generations db) (operations db) x
    (references db) (incidents db).
Definition set_references (x : BTreeMap (Z * blob) ReferenceRow.t) (db : t) : t :=
  mk (revision db) (incident_read_only db) (objects db) (object_locations db) (object_edges db)
    (snapshot_parents db) (graph_generations db) (operations db) (operation_parents db)
    x (incidents db).
Definition set_incidents (x : BTreeMap blob IncidentRow.t) (db : t) : t :=
  mk (revision db) (incident_read_only db) (objects db) (object_locations db) (object_edges db)
    (snapshot_parents db) (graph_generations db) (operations db) (operation_parents db)
    (references db) x.
End Database.

(** ** The conditions of the schema *)

Module Schema.
Import Database.

Definition between (low high x : Z) : bool := (low <=? x) && (x <=? high).
(** A condition on a column that may be [NULL]. *)
Definition null_or {A} (p : A → bool) (x : option A) : bool :=
  match x with None => true | Some x => p x end.
Definition not_null {A} (x : option A) : bool := match x with None => false | Some _ => true end.

(** [FOREIGN KEY (id) REFERENCES objects(object_id)]. *)
Definition names_object (db : t) (id : blob) : bool := bt_contains id (objects db).
(** [FOREIGN KEY (id, kind) REFERENCES objects(object_id, kind)]. *)
Definition names_kind (db : t) (id : blob) (kind : Z) : bool :=
  match bt_get id (objects db) with
  | Some row => bool_decide (ObjectRow.kind row = Some kind)
  | None => false
  end.

Definition object_ok (row : ObjectRow.t) : bool :=
  null_or (between 1 31) (ObjectRow.kind row)
  && null_or (Z.leb 0) (ObjectRow.object_schema row)
  && between 1 4 (ObjectRow.presence row)
  && null_or (Z.leb 0) (ObjectRow.canonical_length row)
  && (0 <=? ObjectRow.first_seen_revision row)
  && (((ObjectRow.presence row =? 1) && not_null (ObjectRow.kind row)
       && not_null (ObjectRow.object_schema row) && not_null (ObjectRow.canonical_length row))
      || (((ObjectRow.presence row =? 2) || (ObjectRow.presence row =? 3))
          && negb (not_null (ObjectRow.canonical_length row)))
      || ((ObjectRow.presence row =? 4) && not_null (ObjectRow.kind row)
          && not_null (ObjectRow.object_schema row)
          && negb (not_null (ObjectRow.canonical_length row)))).

Definition location_ok (db : t) (row : LocationRow.t) : bool :=
  between 1 2 (LocationRow.location_kind row) && (0 <? LocationRow.stored_length row)
  && between 0 1 (LocationRow.active row) && names_object db (LocationRow.object_id row).

(** The rows of the index [one_active_loose_location], in the order of the table. *)
Definition active_loose (rows : list LocationRow.t) : list LocationRow.t :=
  List.filter (λ row, (LocationRow.location_kind row =? 1) && (LocationRow.active row =? 1)) rows.

Definition edge_ok (db : t) (source : blob) (ordinal : Z) (row : EdgeRow.t) : bool :=
  (0 <=? ordinal) && null_or (between 1 31) (EdgeRow.expected_kind row)
  && names_object db source && bool_decide (EdgeRow.role row ∈ V1)
  && names_object db (EdgeRow.target_id row)
  && null_or (names_kind db (EdgeRow.target_id row)) (EdgeRow.expected_kind row).

Definition snapshot_parent_ok (db : t) (snapshot : blob) (position : Z) (parent : blob) : bool :=
  (0 <=? position) && names_kind db snapshot 6 && names_kind db parent 6.

Definition generation_ok (db : t) (id : blob) (kind generation : Z) : bool :=
  ((kind =? 6) || (kind =? 10)) && (0 <=? generation) && names_kind db id kind.

Definition operation_ok (db : t) (id : blob) (generation logical_time : Z) : bool :=
  (0 <=? generation) && (0 <=? logical_time) && names_kind db id 10.

Definition operation_parent_ok (db : t) (operation : blob) (position : Z) (parent : blob) : bool :=
  (0 <=? position) && bt_contains operation (operations db) && bt_contains parent (operations db).

Definition reference_ok (db : t) (ref_kind : Z) (stable_id : blob) (row : ReferenceRow.t) : bool :=
  between 1 5 ref_kind && (0 <=? ReferenceRow.generation row)
  && names_kind db (ReferenceRow.target_id row) (ReferenceRow.target_kind row)
  && names_kind db (ReferenceRow.operation_id row) 10
  && match ref_kind with
     | 1 => (len stable_id =? 16) && (ReferenceRow.target_kind row =? 8)
     | 2 => (len stable_id =? 16) && (ReferenceRow.target_kind row =? 7)
     | 3 => (len stable_id =? 0) && (ReferenceRow.target_kind row =? 10)
     | 4 => (len stable_id =? 16) && (ReferenceRow.target_kind row =? 12)
     | _ => (len stable_id =? 16) && (ReferenceRow.target_kind row =? 11)
     end.

Definition incident_ok (db : t) (id : blob) (row : IncidentRow.t) : bool :=
  (len id =? 16) && (len (IncidentRow.safe_identity_sha256 row) =? 32)
  && (len (IncidentRow.evidence_sha256 row) =? 32) && between 1 7 (IncidentRow.reason row)
  && between 0 1 (IncidentRow.fail_closed row) && (IncidentRow.state row =? 1)
  && (0 <=? IncidentRow.created_revision row)
  && names_object db (IncidentRow.affected_object_id row).

(** [UNIQUE (child, parent)] of the parent tables. *)
Definition unique_parents (rows : BTreeMap (blob * Z) blob) : bool :=
  bool_decide (NoDup (map (λ '((child, _), parent), (child, parent)) rows)).

Definition conditions (db : t) : bool :=
  (0 <=? revision db) && between 0 1 (incident_read_only db)
  && forallb (λ '(_, row), object_ok row) (objects db)
  && forallb (location_ok db) (object_locations db)
  && bool_decide (NoDup (map LocationRow.object_id (active_loose (object_locations db))))
  && forallb (λ '((source, ordinal), row), edge_ok db source ordinal row) (object_edges db)
  && forallb (λ '((snapshot, position), parent), snapshot_parent_ok db snapshot position parent)
       (snapshot_parents db)
  && unique_parents (snapshot_parents db)
  && forallb (λ '(id, (kind, generation)), generation_ok db id kind generation) (graph_generations db)
  && forallb (λ '(id, (generation, time)), operation_ok db id generation time) (operations db)
  && forallb (λ '((operation, position), parent), operation_parent_ok db operation position parent)
       (operation_parents db)
  && unique_parents (operation_parents db)
  && forallb (λ '((kind, stable), row), reference_ok db kind stable row) (references db)
  && forallb (λ '(id, row), incident_ok db id row) (incidents db).
End Schema.

(** ** Tables as ordered maps

    Deleting and selecting the rows of a key, adding a row under a free key, and the lists that a
    query in key order returns. *)

Section filter.
Context {K V : Type} `{OrdLaws K}.
Implicit Types (m : BTreeMap K V) (k : K).

Lemma bt_filter_wf (f : K * V → bool) m : bt_wf m → bt_wf (List.filter f m).
Proof.
  unfold bt_wf. induction m as [|[k v] m IH]; cbn; [done|].
  intros Hs. inversion Hs as [|? ? Hm Hk]; subst. destruct (f (k, v)); [|by apply IH]. cbn.
  constructor; [by apply IH|]. rewrite Forall_forall in Hk |- *. intros x Hx. apply Hk.
  apply list_elem_of_fmap in Hx as ([y w] & -> & Hy). apply list_elem_of_In, filter_In in Hy as [Hy _].
  apply list_elem_of_fmap. exists (y, w). split; [done|]. by apply list_elem_of_In.
Qed.

Lemma bt_get_filter (p : K → bool) m k :
  bt_get k (List.filter (λ e, p e.1) m) = if p k then bt_get k m else None.
Proof.
  induction m as [|[k' v] m IH]; cbn; [by destruct (p k)|].
  destruct (cmp k k') eqn:E.
  - apply cmp_eq_iff in E as <-. destruct (p k) eqn:Hp; cbn; [by rewrite cmp_refl|by rewrite IH].
  - destruct (p k'); cbn; rewrite ?E; apply IH.
  - destruct (p k'); cbn; rewrite ?E; apply IH.
Qed.
End filter.

(** A free key is added to a table. *)
Lemma bt_insert_perm {K V} `{OrdLaws K} k (v : V) (m : BTreeMap K V) :
  bt_get k m = None → bt_insert k v m ≡ₚ (k, v) :: m.
Proof.
  induction m as [|[k' v'] m IH]; cbn; [done|]. destruct (cmp k k'); [done|done|].
  intros Hk. rewrite (IH Hk). constructor.
Qed.

(** A table in the order of its keys. *)
Lemma sorted_rows {K V T} `{OrdLaws K, OrdLaws T} (f : K * V → T) (table rows : list (K * V)) :
  (∀ x y, lt x.1 y.1 → lt (f x) (f y)) → bt_wf table → table ≡ₚ rows →
  sort_by_key id (map f rows) = map f table.
Proof.
  intros Hf Hwf Hp.
  assert (StronglySorted (key_lt id) (map f table)) as Hs.
  { clear Hp. unfold bt_wf, bt_keys in Hwf. induction table as [|e table IH]; cbn in *; [constructor|].
    inversion Hwf as [|? ? Hw Hall]; subst. constructor; [by apply IH|].
    apply Forall_map. apply (Forall_map fst) in Hall. eapply Forall_impl; [exact Hall|]. intros y. apply Hf. }
  assert (map f table ≡ₚ map f rows) as Hm by (by apply Permutation_map).
  apply (key_lt_unique id); [|done|].
  - apply sort_by_key_nodup. rewrite map_id, <-Hm. apply strongly_sorted_nodup in Hs. by rewrite map_id in Hs.
  - rewrite sort_by_key_perm. by symmetry.
Qed.

Lemma pair_lt {A B} `{Ord A, Ord B} (a c : A) (b d : B) : lt a c → lt (a, b) (c, d).
Proof. unfold lt. intros Hac. rewrite pair_cmp. cbn. by rewrite Hac. Qed.
