(* ===== verification/SqliteIndex.v ===== *)
(** * The metadata of the durable store: [crates/rgit-store/src/sqlite.rs]

    How a snapshot of the store is written to the metadata database and read back: the
    statements that index an object, the derived graph tables, the conditional update of a reference,
    and [load_snapshot] with all its checks. *)

From Stdlib Require Import String.
From stdpp Require Import pretty.
From S2P Require Import Prelude Machine Order Utf8 Canonical ObjectId Types Objects Fields Decode References EdgeRoles StoreModel MemoryStore FileTree LooseFrame LooseStore SqlSchema.

#[global] Arguments ObjectId.to_bytes : simpl never.

(** ** The loose-object store, as its client sees it

    [put] can be interrupted like every change of the disk. [read_object_audited] only
    observes, and so does [fs::metadata] on the record of an object. *)
Class LooseObjects (L : Type) := {
  loose_put : oid → list Z → io LooseStoreError.t L PutLooseOutcome.t;
  loose_read : L → oid → result LooseStoreError.t StoredObject.t;
  loose_length : L → oid → option Z }.

(** ** Integers and keys *)

Definition MAX_SQLITE_INTEGER : Z := i64_max.

Definition to_sql_u64 (value : Z) : result StoreError.t Z :=
  bail_if MAX_SQLITE_INTEGER <? value with StoreError.RevisionOverflow;
  Ok value.
(** [i64::try_from]; lengths are never negative. *)
Definition to_sql_usize (value : Z) : result StoreError.t Z :=
  bail_if i64_max <? value with StoreError.RevisionOverflow;
  Ok value.
(** A [u64] as the parameter of a statement. *)
Definition sql_parameter (value : Z) : result StoreError.t Z :=
  bail_if i64_max <? value with StoreError.Database;
  Ok value.
(** [checked_add(1)] on a stored integer. *)
Definition sql_successor (value : Z) : option Z :=
  if value <? i64_max then Some (value + 1) else None.
(** [u64::try_from] on a stored integer. *)
Definition from_sql (value : Z) : result StoreError.t Z :=
  bail_if value <? 0 with StoreError.UnsupportedDatabase;
  Ok value.

Definition encode_reference_key (key : ReferenceKey.t) : Z * blob :=
  match key with
  | ReferenceKey.Line id => (1, id)
  | ReferenceKey.Change id => (2, id)
  | ReferenceKey.OperationHead => (3, [])
  | ReferenceKey.Release id => (4, id)
  | ReferenceKey.Marker id => (5, id)
  end.

Definition decode_reference_key (kind : Z) (stable : blob) : result StoreError.t ReferenceKey.t :=
  if (kind =? 3) && bool_decide (stable = []) then Ok ReferenceKey.OperationHead
  else
    bail_if negb (len stable =? 16) with StoreError.UnsupportedDatabase;
    match kind with
    | 1 => Ok (ReferenceKey.Line stable)
    | 2 => Ok (ReferenceKey.Change stable)
    | 4 => Ok (ReferenceKey.Release stable)
    | 5 => Ok (ReferenceKey.Marker stable)
    | _ => Err StoreError.UnsupportedDatabase
    end.

Definition loose_relative_path (id : oid) : str :=
  let digest := hex_encode (ObjectId.digest id) in
  lit "objects/loose/" ++ lit (pretty (ObjectId.format_version id)) ++ lit "/"
  ++ hex_encode [HashAlgorithm.code (ObjectId.algorithm id)] ++ lit "/"
  ++ firstn 2 digest ++ lit "/" ++ skipn 2 digest ++ lit ".rgl".

Definition value_unsigned_field (value : Value) (key : Z) : option Z :=
  match value with
  | Map m =>
      match List.find (λ e, e.1 =? key) m with
      | Some (_, Unsigned value) => Some value
      | _ => None
      end
  | _ => None
  end.

(** ** Statements

    A transaction is a computation on the database; its effects are kept only by the commit. *)
Definition transaction : Type := Database.t → result StoreError.t Database.t.

(** A statement that violates a condition of the schema fails. *)
Definition statement (f : Database.t → Database.t) : transaction := λ db,
  let db' := f db in
  bail_if negb (Schema.conditions db') with StoreError.Database;
  Ok db'.

(** A plain [INSERT] fails when its key is taken. *)
Definition insert {K V} `{Ord K} (table : Database.t → BTreeMap K V)
    (set : BTreeMap K V → Database.t → Database.t) (key : K) (row : V) : transaction := λ db,
  bail_if bt_contains key (table db) with StoreError.Database;
  statement (λ db, set (bt_insert key row (table db)) db) db.

Definition upsert_object (id : blob) (row : option ObjectRow.t → ObjectRow.t) : transaction :=
  statement (λ db, Database.set_objects
    (bt_insert id (row (bt_get id (Database.objects db))) (Database.objects db)) db).

(** The row of an object that is now present. *)
Definition present_row (kind schema length revision : Z) (old : option ObjectRow.t) : ObjectRow.t :=
  ObjectRow.mk (Some kind) (Some schema) 1 (Some length)
    (match old with Some old => ObjectRow.first_seen_revision old | None => revision end) None.

(** The row of an object that an edge names: a promise if the object is unknown, and otherwise
    the old row with the kind that the edge expects if it had none. *)
Definition named_row (kind : option Z) (revision : Z) (old : option ObjectRow.t) : ObjectRow.t :=
  match old with
  | None => ObjectRow.mk kind None 2 None revision None
  | Some old =>
      ObjectRow.mk (match ObjectRow.kind old with Some kind => Some kind | None => kind end)
        (ObjectRow.object_schema old) (ObjectRow.presence old) (ObjectRow.canonical_length old)
        (ObjectRow.first_seen_revision old) (ObjectRow.unavailable_reason old)
  end.

Definition kind_code (kind : option ObjectKind.t) : option Z := ObjectKind.code <$> kind.

(** [DELETE FROM object_edges WHERE source_id=?1]. *)
Definition delete_edges (source : blob) : transaction :=
  statement (λ db, Database.set_object_edges
    (List.filter (λ e, negb (bool_decide (e.1.1 = source))) (Database.object_edges db)) db).

Definition edge_row (edge : ReferenceEdge) : EdgeRow.t :=
  EdgeRow.mk (EdgeRoles.name (role edge)) (kind_code (expected_kind edge))
    (ObjectId.to_bytes (edge_id edge)).

Definition insert_edge (source : blob) (ordinal : Z) (edge : ReferenceEdge) : transaction :=
  insert Database.object_edges Database.set_object_edges (source, ordinal) (edge_row edge).

(** [for (ordinal, edge) in edges.iter().enumerate()], from a given ordinal. *)
Fixpoint insert_edges (source : blob) (ordinal : Z) (edges : list ReferenceEdge) : transaction := λ db,
  match edges with
  | [] => Ok db
  | edge :: edges =>
      n ← to_sql_usize ordinal;
      db ← insert_edge source n edge db;
      insert_edges source (ordinal + 1) edges db
  end.

Definition delete_locations (p : LocationRow.t → bool) : transaction :=
  statement (λ db, Database.set_object_locations
    (List.filter (λ row, negb (p row)) (Database.object_locations db)) db).

Definition insert_location (row : LocationRow.t) : transaction :=
  statement (λ db, Database.set_object_locations (Database.object_locations db ++ [row]) db).

Definition name_object (revision : Z) (edge : ReferenceEdge) : transaction := λ db,
  revision ← to_sql_u64 revision;
  upsert_object (ObjectId.to_bytes (edge_id edge))
    (named_row (kind_code (expected_kind edge)) revision) db.

Definition schema_version_of (object : StoredObject.t) : Z :=
  schema_version (AnyObject.decoded (StoredObject.object object)).

Definition index_object (stored_length : option Z) (object : StoredObject.t) (revision : Z) :
    transaction := λ db,
  let id := ObjectId.to_bytes (StoredObject.id object) in
  schema ← sql_parameter (schema_version_of object);
  length ← to_sql_usize (len (StoredObject.bytes object));
  first_seen ← to_sql_u64 revision;
  db ← upsert_object id
         (present_row (ObjectKind.code (StoredObject.kind object)) schema length first_seen) db;
  db ← try_fold (λ db edge, name_object revision edge db) (StoredObject.references object) db;
  db ← delete_edges id db;
  db ← insert_edges id 0 (StoredObject.references object) db;
  stored_length ← ok_or stored_length StoreError.ObjectStorage;
  db ← delete_locations (λ row, bool_decide (LocationRow.object_id row = id)
                                && (LocationRow.location_kind row =? 1)) db;
  stored_length ← to_sql_u64 stored_length;
  insert_location (LocationRow.mk id 1 (loose_relative_path (StoredObject.id object))
                     stored_length 1) db.

Definition set_revision (revision : Z) : transaction := λ db,
  revision ← to_sql_u64 revision;
  statement (Database.set_revision revision) db.

(** The conditional update of one reference; [ReferenceConflict] when no row changes. *)
Definition write_reference_cas (update : RefUpdate.t) (new_state : ReferenceState.t)
    (operation : oid) : transaction := λ db,
  let key := encode_reference_key (RefUpdate.key update) in
  let kind := ObjectKind.code (ReferenceKey.expected_kind (RefUpdate.key update)) in
  let target := ObjectId.to_bytes (ReferenceState.target new_state) in
  let write row := statement (λ db, Database.set_references
                     (bt_insert key row (Database.references db)) db) db in
  match RefUpdate.expected update with
  | ExpectedRef.Absent =>
      bail_if bt_contains key (Database.references db) with StoreError.ReferenceConflict;
      write (ReferenceRow.mk target kind 0 (ObjectId.to_bytes operation))
  | ExpectedRef.Exact expected =>
      generation ← to_sql_u64 (ReferenceState.generation expected);
      match bt_get key (Database.references db) with
      | Some row =>
          bail_if negb (bool_decide (ReferenceRow.target_id row
                          = ObjectId.to_bytes (ReferenceState.target expected))
                        && (ReferenceRow.generation row =? generation)
                        && bool_decide (ReferenceRow.operation_id row
                             = ObjectId.to_bytes (ReferenceState.operation expected))
                        && (ReferenceRow.generation row <? i64_max))
            with StoreError.ReferenceConflict;
          write (ReferenceRow.mk target kind (ReferenceRow.generation row + 1)
                   (ObjectId.to_bytes operation))
      | None => Err StoreError.ReferenceConflict
      end
  end.

Section metadata.
Context `{Unicode, Digests}.

(** ** Derived tables *)

(** [store.generation(id).ok()] on a store that holds the snapshot. *)
Definition generation_of (snapshot : MemorySnapshot) (id : oid) : option Z :=
  ok (MemoryStore.generation id snapshot).2.

Definition has_history (kind : ObjectKind.t) : bool :=
  match kind with ObjectKind.Snapshot | ObjectKind.Operation => true | _ => false end.

Definition history_of (snapshot : MemorySnapshot) (object : StoredObject.t) : option Z :=
  if has_history (StoredObject.kind object) then generation_of snapshot (StoredObject.id object)
  else None.

(** The rows of the first loop of [rebuild_graph_indexes]. *)
Definition rebuild_generations (snapshot : MemorySnapshot) (db : Database.t)
    (object : StoredObject.t) : result StoreError.t Database.t :=
  let id := ObjectId.to_bytes (StoredObject.id object) in
  let kind := ObjectKind.code (StoredObject.kind object) in
  db ← match history_of snapshot object with
       | Some generation =>
           generation ← to_sql_u64 generation;
           insert Database.graph_generations Database.set_graph_generations id (kind, generation) db
       | None => Ok db
       end;
  if bool_decide (StoredObject.kind object = ObjectKind.Operation) then
    logical_time ← ok_or (value_unsigned_field (StoredObject.value object) 6) StoreError.InvalidGraph;
    match generation_of snapshot (StoredObject.id object) with
    | Some generation =>
        generation ← to_sql_u64 generation;
        logical_time ← to_sql_u64 logical_time;
        insert Database.operations Database.set_operations id (generation, logical_time) db
    | None => Ok db
    end
  else Ok db.

(** The second loop: the parents of one object, from a given position. *)
Fixpoint insert_parents
    (insert_parent : Z → oid → transaction) (project : oid → bool) (position : Z) (parents : list oid) :
    transaction := λ db,
  match parents with
  | [] => Ok db
  | parent :: parents =>
      db ← (if project parent
            then n ← to_sql_usize position; insert_parent n parent db
            else Ok db);
      insert_parents insert_parent project (position + 1) parents db
  end.

Definition rebuild_parents (snapshot : MemorySnapshot) (db : Database.t)
    (object : StoredObject.t) : result StoreError.t Database.t :=
  let id := ObjectId.to_bytes (StoredObject.id object) in
  match StoredObject.kind object with
  | ObjectKind.Snapshot =>
      insert_parents (λ position parent,
        insert Database.snapshot_parents Database.set_snapshot_parents
          (id, position) (ObjectId.to_bytes parent))
        (λ _, true) 0 (role_targets ReferenceRole.SnapshotParent object) db
  | ObjectKind.Operation =>
      insert_parents (λ position parent,
        insert Database.operation_parents Database.set_operation_parents
          (id, position) (ObjectId.to_bytes parent))
        (λ parent, bool_decide (is_Some (generation_of snapshot (StoredObject.id object)))
                   && bool_decide (is_Some (generation_of snapshot parent)))
        0 (role_targets ReferenceRole.OperationParent object) db
  | _ => Ok db
  end.

Definition rebuild_graph_indexes (snapshot : MemorySnapshot) : transaction := λ db,
  db ← statement (Database.set_snapshot_parents []) db;
  db ← statement (Database.set_operation_parents []) db;
  db ← statement (Database.set_operations []) db;
  db ← statement (Database.set_graph_generations []) db;
  db ← try_fold (rebuild_generations snapshot) (bt_values (objects snapshot)) db;
  try_fold (rebuild_parents snapshot) (bt_values (objects snapshot)) db.

(** ** What the tables must contain *)

Definition blob_integer_integer : Type := blob * Z * Z.
Definition blob_integer_blob : Type := blob * Z * blob.

(** The rows that [verify_derived_indexes] expects: generations, operations, and the parents of
    snapshots and of operations. *)
Record Indexes := mk_indexes {
  expected_generations : list blob_integer_integer;
  expected_operations : list blob_integer_integer;
  expected_snapshot_parents : list blob_integer_blob;
  expected_operation_parents : list blob_integer_blob }.

(** [.filter(..).enumerate()] with the row of each parent, from a given position. *)
Fixpoint parent_rows (id : blob) (position : Z) (parents : list oid) :
    result StoreError.t (list (blob_integer_blob * oid)) :=
  match parents with
  | [] => Ok []
  | parent :: parents =>
      n ← to_sql_usize position;
      rows ← parent_rows id (position + 1) parents;
      Ok ((id, n, ObjectId.to_bytes parent, parent) :: rows)
  end.

(** The rows of one object. *)
Definition object_indexes (snapshot : MemorySnapshot) (object : StoredObject.t) :
    result StoreError.t Indexes :=
  let id := ObjectId.to_bytes (StoredObject.id object) in
  let kind := StoredObject.kind object in
  let generation := history_of snapshot object in
  '(generations, operations) ←
    match generation with
    | Some generation =>
        stored ← to_sql_u64 generation;
        operations ←
          (if bool_decide (kind = ObjectKind.Operation) then
             time ← ok_or (value_unsigned_field (StoredObject.value object) 6)
                      StoreError.UnsupportedDatabase;
             time ← to_sql_u64 time;
             Ok [(id, stored, time)]
           else Ok []);
        Ok ([(id, ObjectKind.code kind, stored)], operations)
    | None => Ok ([], [])
    end;
  match kind, generation with
  | ObjectKind.Snapshot, _ =>
      rows ← parent_rows id 0 (role_targets ReferenceRole.SnapshotParent object);
      Ok (mk_indexes generations operations (map fst rows) [])
  | ObjectKind.Operation, Some _ =>
      rows ← parent_rows id 0 (role_targets ReferenceRole.OperationParent object);
      Ok (mk_indexes generations operations []
            (map fst (List.filter (λ '(_, parent),
               bool_decide (is_Some (generation_of snapshot parent))) rows)))
  | _, _ => Ok (mk_indexes generations operations [] [])
  end.

Definition push_indexes (snapshot : MemorySnapshot) (acc : Indexes) (object : StoredObject.t) :
    result StoreError.t Indexes :=
  i ← object_indexes snapshot object;
  Ok (mk_indexes (expected_generations acc ++ expected_generations i)
        (expected_operations acc ++ expected_operations i)
        (expected_snapshot_parents acc ++ expected_snapshot_parents i)
        (expected_operation_parents acc ++ expected_operation_parents i)).

Definition expected_indexes (snapshot : MemorySnapshot) : result StoreError.t Indexes :=
  try_fold (push_indexes snapshot) (bt_values (objects snapshot)) (mk_indexes [] [] [] []).

(** [query_i64_triples] and [query_blob_i64_blob]: a table in the order of its key. *)
Definition query_i64_triples (table : BTreeMap blob (Z * Z)) : list blob_integer_integer :=
  map (λ '(id, (a, b)), (id, a, b)) table.
Definition query_blob_i64_blob (table : BTreeMap (blob * Z) blob) : list blob_integer_blob :=
  map (λ '((id, n), b), (id, n, b)) table.

Definition verify_derived_indexes (db : Database.t) (snapshot : MemorySnapshot) :
    result StoreError.t () :=
  expected ← expected_indexes snapshot;
  bail_if negb (bool_decide (sort_by_key id (expected_generations expected)
                             = query_i64_triples (Database.graph_generations db)))
          || negb (bool_decide (sort_by_key id (expected_operations expected)
                                = query_i64_triples (Database.operations db)))
          || negb (bool_decide (sort_by_key id (expected_snapshot_parents expected)
                                = query_blob_i64_blob (Database.snapshot_parents db)))
          || negb (bool_decide (sort_by_key id (expected_operation_parents expected)
                                = query_blob_i64_blob (Database.operation_parents db)))
    with StoreError.UnsupportedDatabase;
  Ok tt.

(** ** Reading the database back *)

(** The active loose location of an object. *)
Definition active_location (db : Database.t) (id : blob) : option (str * Z) :=
  match List.filter (λ row, bool_decide (LocationRow.object_id row = id))
          (Schema.active_loose (Database.object_locations db)) with
  | row :: _ => Some (LocationRow.relative_path row, LocationRow.stored_length row)
  | [] => None
  end.

(** The edges of an object, in the order of their ordinals. *)
Definition edges_of (db : Database.t) (id : blob) : list (Z * EdgeRow.t) :=
  map (λ '((_, ordinal), row), (ordinal, row))
    (List.filter (λ e, bool_decide (e.1.1 = id)) (Database.object_edges db)).

(** The comparison loop, from a given ordinal. *)
Fixpoint edges_match (ordinal : Z) (actual : list (Z * EdgeRow.t)) (expected : list ReferenceEdge) : bool :=
  match actual, expected with
  | [], [] => true
  | (n, row) :: actual, edge :: expected =>
      (n =? ordinal) && bool_decide (EdgeRow.role row = EdgeRoles.name (role edge))
      && bool_decide (EdgeRow.expected_kind row = kind_code (expected_kind edge))
      && bool_decide (EdgeRow.target_id row = ObjectId.to_bytes (edge_id edge))
      && edges_match (ordinal + 1) actual expected
  | _, _ => false
  end.

Definition verify_object_indexes (db : Database.t) (object : StoredObject.t) :
    result StoreError.t () :=
  let id := ObjectId.to_bytes (StoredObject.id object) in
  '(relative_path, stored_length) ← ok_or (active_location db id) StoreError.UnsupportedDatabase;
  bail_if negb (bool_decide (relative_path = loose_relative_path (StoredObject.id object)))
          || (stored_length <=? 0) with StoreError.UnsupportedDatabase;
  bail_if negb (edges_match 0 (edges_of db id) (StoredObject.references object))
    with StoreError.UnsupportedDatabase;
  Ok tt.

Context {L : Type} `{!LooseObjects L}.

Definition verify_durable_object (loose : L) (expected : StoredObject.t) : result StoreError.t () :=
  observed ← map_err (λ _, StoreError.ObjectStorage) (loose_read loose (StoredObject.id expected));
  bail_if negb (bool_decide (StoredObject.kind observed = StoredObject.kind expected))
          || negb (bool_decide (StoredObject.bytes observed = StoredObject.bytes expected))
    with StoreError.UnsupportedDatabase;
  Ok tt.

(** One row of the inventory. *)
Definition load_object (loose : L) (db : Database.t) (snapshot : MemorySnapshot)
    (entry : blob * ObjectRow.t) : result StoreError.t MemorySnapshot :=
  let '(bytes, row) := entry in
  id ← map_err (λ _, StoreError.UnsupportedDatabase) (ObjectId.from_bytes bytes);
  match ObjectRow.presence row with
  | 1 =>
      object ← map_err (λ _, StoreError.UnsupportedDatabase) (loose_read loose id);
      bail_if negb (bool_decide (ObjectRow.kind row = Some (ObjectKind.code (StoredObject.kind object))))
              || negb (bool_decide (ObjectRow.object_schema row = Some (schema_version_of object)))
              || negb (bool_decide (ObjectRow.canonical_length row
                                    = ok (to_sql_usize (len (StoredObject.bytes object)))))
        with StoreError.UnsupportedDatabase;
      _ ← verify_object_indexes db object;
      Ok (with_objects (bt_insert id object (objects snapshot)) snapshot)
  | 2 => Ok (with_promised (set_insert id (promised snapshot)) snapshot)
  | 3 => Ok (with_quarantined (set_insert id (quarantined snapshot)) snapshot)
  | 4 => Ok snapshot
  | _ => Err StoreError.UnsupportedDatabase
  end.

(** One row of the references. *)
Definition load_reference (snapshot : MemorySnapshot) (entry : (Z * blob) * ReferenceRow.t) :
    result StoreError.t MemorySnapshot :=
  let '((kind, stable), row) := entry in
  key ← decode_reference_key kind stable;
  target ← map_err (λ _, StoreError.UnsupportedDatabase) (ObjectId.from_bytes (ReferenceRow.target_id row));
  generation ← from_sql (ReferenceRow.generation row);
  operation ← map_err (λ _, StoreError.UnsupportedDatabase)
                (ObjectId.from_bytes (ReferenceRow.operation_id row));
  Ok (with_references (bt_insert key (ReferenceState.mk target generation operation)
                         (references snapshot)) snapshot).

(** The roots of the closure that a reference must have. *)
Definition checkpoint_roots (key : ReferenceKey.t) (state : ReferenceState.t) : list ReferenceEdge :=
  [mk_edge ReferenceRole.OperationAfter (Some (ReferenceKey.expected_kind key))
     (ReferenceState.target state);
   mk_edge ReferenceRole.OperationAfter (Some ObjectKind.Operation) (ReferenceState.operation state)].

(** [operation.references().iter().any(..)]: the operation has an edge to the target. *)
Definition names_target (key : ReferenceKey.t) (state : ReferenceState.t) (operation : StoredObject.t) : bool :=
  existsb (λ edge, bool_decide (edge_id edge = ReferenceState.target state)
                   && bool_decide (expected_kind edge = Some (ReferenceKey.expected_kind key)))
    (StoredObject.references operation).

Definition is_head (key : ReferenceKey.t) : bool :=
  match key with ReferenceKey.OperationHead => true | _ => false end.

Definition verify_reference (snapshot : MemorySnapshot)
    (entry : ReferenceKey.t * ReferenceState.t) : result StoreError.t () :=
  let '(key, state) := entry in
  target ← ok_or (bt_get (ReferenceState.target state) (objects snapshot)) StoreError.UnsupportedDatabase;
  operation ← ok_or (bt_get (ReferenceState.operation state) (objects snapshot))
                StoreError.UnsupportedDatabase;
  bail_if negb (bool_decide (StoredObject.kind target = ReferenceKey.expected_kind key))
          || negb (bool_decide (StoredObject.kind operation = ObjectKind.Operation))
          || negb (reference_identity_matches key target)
          || (is_head key
              && negb (bool_decide (ReferenceState.target state = ReferenceState.operation state)))
    with StoreError.UnsupportedDatabase;
  _ ← map_err (λ _, StoreError.UnsupportedDatabase)
        (closure_from snapshot (checkpoint_roots key state));
  bail_if negb (is_head key) && negb (names_target key state operation)
    with StoreError.UnsupportedDatabase;
  Ok tt.

Definition load_snapshot (loose : L) (db : Database.t) : result StoreError.t MemorySnapshot :=
  revision ← from_sql (Database.revision db);
  snapshot ← try_fold (load_object loose db) (Database.objects db)
               (with_revision revision MemoryStore.new);
  snapshot ← try_fold load_reference (Database.references db) snapshot;
  _ ← try_for_each (verify_reference snapshot) (references snapshot);
  _ ← verify_derived_indexes db snapshot;
  Ok snapshot.

Definition promise (snapshot : MemorySnapshot) (edge : ReferenceEdge) : MemorySnapshot :=
  if negb (bt_contains (edge_id edge) (objects snapshot))
     && negb (set_contains (edge_id edge) (quarantined snapshot))
     && negb (set_contains (edge_id edge) (promised snapshot))
  then with_promised (set_insert (edge_id edge) (promised snapshot)) snapshot
  else snapshot.

Definition add_edge_promises (snapshot : MemorySnapshot) (object : StoredObject.t) : MemorySnapshot :=
  fold_left promise (StoredObject.references object) snapshot.
End metadata.
