(* ===== verification/SqliteStore.v ===== *)
(** * The durable store: [crates/rgit-store/src/sqlite.rs]

    The operations of [SqliteStore]: every call first reloads the database; a writing
    call stages its effect on a copy of the in-memory store, makes the object bytes durable in
    the loose-object store, and then rewrites the database in one transaction, whose
    commit is a single change of the disk. The locks of the process and the
    repository make a writing call exclusive; a call of another process falls before or
    after it. *)

From Stdlib Require Import String.
From S2P Require Import Prelude Machine Order Utf8 Canonical ObjectId Types Objects Fields Decode References EdgeRoles Explore StoreModel MemoryStore FileTree LooseFrame LooseStore SqlSchema SqliteIndex.

Module SqliteFailurePoint.
Inductive t := AfterBegin | AfterInventory | AfterReferences | BeforeCommit | AfterCommit.
End SqliteFailurePoint.

(** What the file system and SQLite may refuse during a call: the writer lock, the identity of the
    database file and of its companions, opening a transaction, the commit, the checkpoint after
    it, and, when the store is opened, an evidence file and the transaction that adopts it. A call
    that reloads and then writes meets the gates of both phases, each of them once, so that the
    system may change its mind in between. *)
Module Phase.
Inductive t := Reading | Writing.
End Phase.
Module Gate.
Inductive t :=
  | WriterLock | DatabaseEntry (phase : Phase.t) | Sidecars | Begin (phase : Phase.t) | Commit | Checkpoint
  | Adoption (name : str).
End Gate.

(** The surroundings of one call: the injected failures, the refusals of the system and the
    random identifier that SQLite draws. *)
Class Environment := {
  check : SqliteFailurePoint.t → result StoreError.t ();
  permits : Gate.t → result StoreError.t ();
  randomblob : blob }.

Module State.
Record t {L : Type} := mk {
  database : Database.t;
  loose : L;
  evidence : BTreeMap str (list Z);
  memory : MemorySnapshot }.
Arguments t : clear implicits.
Definition set_database {L} (x : Database.t) (s : t L) : t L :=
  mk L x (loose s) (evidence s) (memory s).
Definition set_loose {L} (x : L) (s : t L) : t L := mk L (database s) x (evidence s) (memory s).
Definition set_evidence {L} (x : BTreeMap str (list Z)) (s : t L) : t L :=
  mk L (database s) (loose s) x (memory s).
Definition set_memory {L} (x : MemorySnapshot) (s : t L) : t L :=
  mk L (database s) (loose s) (evidence s) x.
End State.
Import State.

(** ** Incidents *)

(** [name.strip_suffix(suffix)]. *)
Definition strip_suffix (suffix s : list Z) : option (list Z) :=
  (λ s, rev s) <$> strip_prefix (rev s) (rev suffix).

(** [!name.is_empty() && !name.contains(['/', '\\', '\0'])]. *)
Definition plain_name (name : str) : bool :=
  negb (bool_decide (name = [])) && forallb (λ c, negb (bool_decide (c ∈ [0x2f; 0x5c; 0]))) name.

Definition EVIDENCE_PREFIX : list Z := lit "RGIT-RESTRICTED-INCIDENT" ++ [0].
Definition SAFE_PREFIX : list Z := lit "RGIT-SAFE-INCIDENT-IDENTITY" ++ [0].
(** [file.take(1024 * 1024).read_to_end(..)]. *)
Definition take_evidence (bytes : list Z) : list Z := firstn 1048576 bytes.

(** [hex::decode]. *)
Definition hex_value (c : Z) : option Z :=
  if (48 <=? c) && (c <=? 57) then Some (c - 48)
  else if (97 <=? c) && (c <=? 102) then Some (c - 87)
  else if (65 <=? c) && (c <=? 70) then Some (c - 55)
  else None.
Fixpoint hex_decode (s : str) : option (list Z) :=
  match s with
  | [] => Some []
  | [_] => None
  | a :: b :: s =>
      a ← hex_value a; b ← hex_value b; bytes ← hex_decode s;
      Some (16 * a + b :: bytes)
  end.

Section incidents.
Context `{Digests}.

(** One row of [verify_incidents]; the state is whether an open incident fails closed. *)
Definition verify_incident (db : Database.t) (evidence : BTreeMap str (list Z)) (open_fail_closed : bool)
    (entry : blob * IncidentRow.t) : result StoreError.t bool :=
  let row := entry.2 in
  name ← ok_or (strip_prefix (IncidentRow.evidence_relative_path row) (lit "incidents/"))
           StoreError.UnsupportedDatabase;
  bail_if negb (plain_name name) with StoreError.UnsupportedDatabase;
  bytes ← ok_or (bt_get name evidence) StoreError.UnsupportedDatabase;
  bail_if negb (bool_decide (sha256 (take_evidence bytes) = IncidentRow.evidence_sha256 row))
    with StoreError.UnsupportedDatabase;
  if IncidentRow.state row =? 1 then
    bail_if negb (bool_decide
      ((ObjectRow.presence <$> bt_get (IncidentRow.affected_object_id row) (Database.objects db))
       = Some 3)) with StoreError.UnsupportedDatabase;
    Ok (open_fail_closed || (IncidentRow.fail_closed row =? 1))
  else Ok open_fail_closed.

Definition verify_incidents (db : Database.t) (evidence : BTreeMap str (list Z)) :
    result StoreError.t () :=
  open_fail_closed ← try_fold (verify_incident db evidence) (Database.incidents db) false;
  bail_if negb (Database.incident_read_only db =? if open_fail_closed : bool then 1 else 0)
    with StoreError.UnsupportedDatabase;
  Ok tt.

(** [DELETE FROM object_locations WHERE object_id=?1]. *)
Definition delete_object_locations (id : blob) : transaction :=
  delete_locations (λ row, bool_decide (LocationRow.object_id row = id)).

Definition safe_hash (id : oid) : blob := sha256 (SAFE_PREFIX ++ ObjectId.to_bytes id).

Definition insert_incident (incident : blob) (id : oid) (evidence_hash : blob) (reason : Z)
    (relative : str) (revision : Z) : transaction :=
  insert Database.incidents Database.set_incidents incident
    (IncidentRow.mk (ObjectId.to_bytes id) (safe_hash id) evidence_hash reason relative 1 1 revision).

(** The transaction that adopts one evidence file without a row. *)
Definition adopt_evidence (incident : blob) (affected : oid) (evidence_hash : blob) (relative : str) :
    transaction := λ db,
  let id := ObjectId.to_bytes affected in
  revision ← ok_or (sql_successor (Database.revision db)) StoreError.RevisionOverflow;
  db ← upsert_object id (λ old,
         match old with
         | None => ObjectRow.mk None None 3 None revision None
         | Some old => ObjectRow.mk (ObjectRow.kind old) (ObjectRow.object_schema old) 3 None
                         (ObjectRow.first_seen_revision old) (ObjectRow.unavailable_reason old)
         end) db;
  db ← delete_object_locations id db;
  db ← insert_incident incident affected evidence_hash 4 relative revision db;
  statement (λ db, Database.set_incident_read_only 1 (Database.set_revision revision db)) db.

(** The database after the transaction for one entry of the incident directory; no transaction is
    opened for an entry that a row names. *)
Definition reconcile_entry (known : list str) (evidence : BTreeMap str (list Z)) (name : str)
    (db : Database.t) : result StoreError.t (option Database.t) :=
  incident_hex ← ok_or (strip_suffix (lit ".evidence") name) StoreError.UnsupportedDatabase;
  let relative := lit "incidents/" ++ name in
  if bool_decide (relative ∈ known) then Ok None else
  incident ← ok_or (hex_decode incident_hex) StoreError.UnsupportedDatabase;
  bail_if negb (len incident =? 16) with StoreError.UnsupportedDatabase;
  bytes ← ok_or (take_evidence <$> bt_get name evidence) StoreError.UnsupportedDatabase;
  object_bytes ← ok_or (strip_prefix bytes EVIDENCE_PREFIX) StoreError.UnsupportedDatabase;
  affected ← map_err (λ _, StoreError.UnsupportedDatabase) (ObjectId.from_bytes object_bytes);
  Some <$> adopt_evidence incident affected (sha256 bytes) relative db.

Definition known_evidence (db : Database.t) : list str :=
  map (λ '(_, row), IncidentRow.evidence_relative_path row) (Database.incidents db).
End incidents.

(** ** The store *)

Module SqliteStore.
Section store.
Context `{Unicode, Digests, Environment} {L : Type} `{!LooseObjects L}.

Notation sio := (io StoreError.t (State.t L)).

(** A result that does not depend on the disk. *)
Definition lift {A} (r : result StoreError.t A) : sio A := inspect (λ _, r).
(** Replacing the snapshot that the process keeps. *)
Definition assign (snapshot : MemorySnapshot) : sio () := λ '(s, fuse),
  (Ok tt, (State.set_memory snapshot s, fuse)).
(** An operation of an in-memory store on a snapshot of it. *)
Definition on_memory {A} (m : locked A) (snapshot : MemorySnapshot) : sio (MemorySnapshot * A) :=
  match m snapshot with
  | (s, Ok a) => ret (s, a)
  | (_, Err (Raise e)) => FileTree.raise e
  | (_, Err _) => stuck
  end.

Definition process_writer_lock : sio () := lift (permits Gate.WriterLock).

Definition refresh : sio () :=
  do! _ := lift (permits (Gate.DatabaseEntry Phase.Reading)) in
  do! _ := lift (permits Gate.Sidecars) in
  do! _ := lift (permits (Gate.Begin Phase.Reading)) in
  do! _ := inspect (λ s, verify_incidents (database s) (evidence s)) in
  do! snapshot := inspect (λ s, load_snapshot (loose s) (database s)) in
  assign snapshot.

Definition ensure_mutable : sio () :=
  inspect (λ s, bail_if negb (Database.incident_read_only (database s) =? 0)
                  with StoreError.IncidentReadOnly; Ok tt).

(** [self.stage()]: the snapshot, whose revision is the base of the call. *)
Definition stage : sio MemorySnapshot := inspect (λ s, Ok (memory s)).

(** [self.loose.put(id, bytes)], any failure of which is [ObjectStorage]. *)
Definition put_loose (id : oid) (bytes : list Z) : sio () := λ s,
  match zoom loose State.set_loose (loose_put id bytes) s with
  | (Ok _, s) => (Ok tt, s)
  | (Err (Raised _), s) => (Err (Raised StoreError.ObjectStorage), s)
  | (Err Interrupted, s) => (Err Interrupted, s)
  | (Err Stuck, s) => (Err Stuck, s)
  end.

(** [self.memory.replace_if_revision(..)]. *)
Definition replace_if_revision (base_revision : Z) (staged : MemorySnapshot) : sio () := λ '(s, fuse),
  if negb (revision (memory s) =? base_revision)
  then (Err (Raised StoreError.ReferenceConflict), (s, fuse))
  else (Ok tt, (State.set_memory staged s, fuse)).

(** [self.begin_checked(..)], the body of the transaction, and [self.finish(..)]: the commit is
    one change of the disk. *)
Definition transact (base_revision : Z) (body : L → transaction) (staged : MemorySnapshot) : sio () :=
  do! _ := lift (permits (Gate.DatabaseEntry Phase.Writing)) in
  do! _ := lift (permits (Gate.Begin Phase.Writing)) in
  do! _ := lift (check SqliteFailurePoint.AfterBegin) in
  do! _ := inspect (λ s, bail_if negb (Database.revision (database s) =? base_revision)
                           with StoreError.ReferenceConflict; Ok tt) in
  do! db := inspect (λ s, body (loose s) (database s)) in
  do! _ := lift (check SqliteFailurePoint.BeforeCommit) in
  do! _ := lift (permits Gate.Commit) in
  do! _ := change (State.set_database db) in
  match check SqliteFailurePoint.AfterCommit with
  | Err error =>
      do! _ := replace_if_revision base_revision staged in
      FileTree.raise error
  | Ok _ => replace_if_revision base_revision staged
  end.

Definition checkpoint : sio () := lift (permits Gate.Checkpoint).

(** A failure point inside a transaction. *)
Definition failure_point (point : SqliteFailurePoint.t) : transaction := λ db,
  _ ← check point; Ok db.

Definition put_body (object : StoredObject.t) (base_revision : Z) (staged : MemorySnapshot) (loose : L) :
    transaction := λ db,
  _ ← verify_durable_object loose object;
  db ← index_object (loose_length loose (StoredObject.id object)) object (base_revision + 1) db;
  db ← rebuild_graph_indexes staged db;
  db ← set_revision (revision staged) db;
  failure_point SqliteFailurePoint.AfterInventory db.

Definition put (id : oid) (bytes : list Z) : sio PutOutcome.t :=
  do! _ := process_writer_lock in
  do! _ := refresh in
  do! _ := ensure_mutable in
  do! base := stage in
  do! (staged_store, outcome) := on_memory (MemoryStore.put id bytes) base in
  match outcome with
  | PutOutcome.AlreadyPresent => ret PutOutcome.AlreadyPresent
  | PutOutcome.New =>
      do! _ := put_loose id bytes in
      do! (_, object) := on_memory (MemoryStore.get id) staged_store in
      let staged := add_edge_promises staged_store object in
      do! _ := transact (revision base) (put_body object (revision base) staged) staged in
      do! _ := checkpoint in
      ret PutOutcome.New
  end.

(** The calls that only read: reload, then ask the in-memory store. *)
Definition query {A} (m : locked A) : sio A :=
  do! _ := refresh in
  do! base := stage in
  do! (_, a) := on_memory m base in
  ret a.

Definition get (id : oid) : sio StoredObject.t := query (MemoryStore.get id).
Definition presence (id : oid) : sio (option ObjectPresence.t) := query (MemoryStore.presence id).
Definition reference (key : ReferenceKey.t) : sio (option ReferenceState.t) :=
  query (MemoryStore.reference key).
Definition closure (roots : list ReferenceEdge) : sio Closure := query (MemoryStore.closure roots).
Definition generation (id : oid) : sio Z := query (MemoryStore.generation id).
Definition is_reachable (ancestor descendant : oid) : sio bool :=
  query (MemoryStore.is_reachable ancestor descendant).

Definition promise_body (id : oid) (staged : MemorySnapshot) (_ : L) : transaction := λ db,
  first_seen ← to_sql_u64 (revision staged);
  db ← statement (λ db,
         if bt_contains (ObjectId.to_bytes id) (Database.objects db) then db
         else Database.set_objects
                (bt_insert (ObjectId.to_bytes id) (ObjectRow.mk None None 2 None first_seen None)
                   (Database.objects db)) db) db;
  db ← set_revision (revision staged) db;
  failure_point SqliteFailurePoint.AfterInventory db.

Definition mark_promised (id : oid) : sio () :=
  do! _ := process_writer_lock in
  do! _ := refresh in
  do! _ := ensure_mutable in
  do! base := stage in
  do! (staged, _) := on_memory (MemoryStore.mark_promised id) base in
  if revision staged =? revision base then ret tt
  else
    do! _ := transact (revision base) (promise_body id staged) staged in
    checkpoint.

(** [create_incident_evidence]: the evidence file is durable before any row names it. *)
Definition evidence_name (incident : blob) : str := hex_encode incident ++ lit ".evidence".
Definition evidence_bytes (id : oid) : list Z := EVIDENCE_PREFIX ++ ObjectId.to_bytes id.

Definition create_incident_evidence (id : oid) : sio (blob * str * blob) :=
  do! _ := lift (bail_if negb (len randomblob =? 16) with StoreError.UnsupportedDatabase; Ok tt) in
  let name := evidence_name randomblob in
  do! _ := inspect (λ s, bail_if bt_contains name (evidence s) with StoreError.ObjectStorage; Ok tt) in
  do! _ := change (λ s, State.set_evidence (bt_insert name [] (evidence s)) s) in
  do! _ := change (λ s, State.set_evidence (bt_insert name (evidence_bytes id) (evidence s)) s) in
  ret (randomblob, lit "incidents/" ++ name, sha256 (evidence_bytes id)).

(** [UPDATE objects SET presence=3, canonical_length=NULL WHERE object_id=?1]. *)
Definition quarantine_object (id : blob) : transaction :=
  statement (λ db,
    match bt_get id (Database.objects db) with
    | None => db
    | Some old =>
        Database.set_objects (bt_insert id
          (ObjectRow.mk (ObjectRow.kind old) (ObjectRow.object_schema old) 3 None
             (ObjectRow.first_seen_revision old) (ObjectRow.unavailable_reason old))
          (Database.objects db)) db
    end).

Definition quarantine_body (id : oid) (incident : blob * str * blob) (staged : MemorySnapshot) (_ : L) :
    transaction := λ db,
  let bytes := ObjectId.to_bytes id in
  let '(incident, relative, evidence_hash) := incident in
  db ← delete_object_locations bytes db;
  db ← delete_edges bytes db;
  db ← quarantine_object bytes db;
  db ← rebuild_graph_indexes staged db;
  created ← to_sql_u64 (revision staged);
  db ← insert_incident incident id evidence_hash 2 relative created db;
  db ← statement (Database.set_incident_read_only 1) db;
  db ← set_revision (revision staged) db;
  failure_point SqliteFailurePoint.AfterInventory db.

(** [staged.objects.remove(id); staged.promised.remove(id)]. *)
Definition forget (id : oid) (s : MemorySnapshot) : MemorySnapshot :=
  with_promised (set_remove id (promised s)) (with_objects (bt_remove id (objects s)) s).

Definition quarantine (id : oid) : sio () :=
  do! _ := process_writer_lock in
  do! _ := refresh in
  do! base := stage in
  do! (staged_store, _) := on_memory (MemoryStore.quarantine id) base in
  if revision staged_store =? revision base then ret tt
  else
    let staged := forget id staged_store in
    do! incident := create_incident_evidence id in
    do! _ := transact (revision base) (quarantine_body id incident staged) staged in
    checkpoint.

(** Every object of the publication is made durable. *)
Definition put_candidates : list PublicationObject.t → sio () :=
  io_each (λ candidate, put_loose (PublicationObject.id candidate) (PublicationObject.bytes candidate)).

(** [add_edge_promises(&mut staged, &staged_store.get(&candidate.id)?)] for each object. *)
Definition promise_candidates (staged_store : MemorySnapshot) (candidates : list PublicationObject.t) :
    result StoreError.t MemorySnapshot :=
  try_fold (λ staged candidate,
    object ← visible_object staged_store (PublicationObject.id candidate);
    Ok (add_edge_promises staged object)) candidates staged_store.

Definition index_candidate (loose : L) (staged : MemorySnapshot) (db : Database.t)
    (candidate : PublicationObject.t) : result StoreError.t Database.t :=
  object ← visible_object staged (PublicationObject.id candidate);
  _ ← verify_durable_object loose object;
  index_object (loose_length loose (StoredObject.id object)) object (revision staged) db.

Definition publish_body (publication : Publication.t) (results : list ReferenceState.t)
    (staged : MemorySnapshot) (loose : L) : transaction := λ db,
  db ← try_fold (index_candidate loose staged) (Publication.objects publication) db;
  db ← rebuild_graph_indexes staged db;
  db ← failure_point SqliteFailurePoint.AfterInventory db;
  db ← try_fold (λ db '(update, state),
         write_reference_cas update state (Publication.operation publication) db)
         (combine (Publication.updates publication) results) db;
  db ← failure_point SqliteFailurePoint.AfterReferences db;
  set_revision (revision staged) db.

Definition publish (publication : Publication.t) (validator : PublicationValidator) :
    sio (list ReferenceState.t) :=
  do! _ := process_writer_lock in
  do! _ := refresh in
  do! _ := ensure_mutable in
  do! base := stage in
  do! (staged_store, results) := on_memory (MemoryStore.publish publication validator) base in
  do! _ := put_candidates (Publication.objects publication) in
  do! staged := lift (promise_candidates staged_store (Publication.objects publication)) in
  do! _ := transact (revision base) (publish_body publication results staged) staged in
  do! _ := checkpoint in
  ret results.

Definition compare_and_swap (key : ReferenceKey.t) (expected : ExpectedRef.t) (target operation : oid)
    (validator : PublicationValidator) : sio ReferenceState.t :=
  do! results := publish (Publication.mk [] [RefUpdate.mk key expected target] operation) validator in
  lift (ok_or (head results) StoreError.ReferenceConflict).

(** ** Opening

    From the moment the database file is open and its header and schema are accepted: the
    evidence files without a row are adopted one transaction each, the incidents are
    verified and the snapshot is loaded. The probe of the write-ahead log in between restores the
    revision it changed. *)
Definition reconcile_orphan_evidence : sio () :=
  do! known := inspect (λ s, Ok (known_evidence (database s))) in
  do! names := inspect (λ s, Ok (bt_keys (evidence s))) in
  io_each (λ name,
    do! adopted := inspect (λ s, reconcile_entry known (evidence s) name (database s)) in
    match adopted with
    | Some db =>
        do! _ := lift (permits (Gate.Adoption name)) in
        change (State.set_database db)
    | None => ret tt
    end) names.

(** The end of [open_with_options], on a database whose configuration and schema were accepted:
    adopt the evidence that no incident knows, verify the incidents and load the snapshot. The
    second connection, which must see the identity and the revision that the first one sees, is
    left out. *)
Definition open_metadata : sio () :=
  do! _ := lift (permits Gate.WriterLock) in
  do! _ := reconcile_orphan_evidence in
  do! _ := inspect (λ s, verify_incidents (database s) (evidence s)) in
  do! _ := lift (permits Gate.Sidecars) in
  do! snapshot := inspect (λ s, load_snapshot (loose s) (database s)) in
  assign snapshot.
End store.
End SqliteStore.
