(* ===== verification/SqliteFacts.v ===== *)
(** * The statements of the durable store

    What the transactions of [SqliteIndex] do to the tables when they succeed: a
    statement that satisfies the schema has exactly its effect. *)

From S2P Require Import Prelude Machine Order Utf8 Canonical ObjectId Types Objects Fields Decode References EdgeRoles Explore StoreModel MemoryStore FileTree LooseFrame LooseStore SqlSchema SqliteIndex.

Lemma statement_Ok f db db' : statement f db = Ok db' → db' = f db ∧ Schema.conditions db' = true.
Proof. unfold statement. intros [Hc%negb_false_iff [= <-]]%bail_Ok. done. Qed.

Lemma insert_Ok {K V} `{Ord K} (table : Database.t → BTreeMap K V) set key row db db' :
  insert table set key row db = Ok db' →
  bt_get key (table db) = None ∧ db' = set (bt_insert key row (table db)) db.
Proof.
  unfold insert. intros [Hc [-> _]%statement_Ok]%bail_Ok. split; [|done].
  revert Hc. unfold bt_contains. by destruct (bt_get key (table db)).
Qed.

Lemma to_sql_Ok n m : to_sql_u64 n = Ok m ↔ m = n ∧ n ≤ i64_max.
Proof.
  unfold to_sql_u64, MAX_SQLITE_INTEGER. rewrite bail_Ok, Z.ltb_ge. naive_solver.
Qed.
Lemma to_usize_Ok n m : to_sql_usize n = Ok m ↔ m = n ∧ n ≤ i64_max.
Proof. unfold to_sql_usize. rewrite bail_Ok, Z.ltb_ge. naive_solver. Qed.

(** ** The inventory *)

Definition with_kind (kind : option Z) (r : ObjectRow.t) : ObjectRow.t :=
  ObjectRow.mk kind (ObjectRow.object_schema r) (ObjectRow.presence r) (ObjectRow.canonical_length r)
    (ObjectRow.first_seen_revision r) (ObjectRow.unavailable_reason r).

(** What naming an object in edges does to its row. *)
Definition named (hit : bool) (old new : option ObjectRow.t) : Prop :=
  match old with
  | Some r => ∃ k, new = Some (with_kind k r) ∧ ∀ x, ObjectRow.kind r = Some x → k = Some x
  | None => if hit then ∃ r, new = Some r ∧ ObjectRow.presence r = 2 else new = None
  end.

Lemma named_refl old : named false old old.
Proof. destruct old as [r|]; [|done]. exists (ObjectRow.kind r). by destruct r. Qed.

Lemma named_row_step hit old mid kind revision :
  named hit old mid → named true old (Some (named_row kind revision mid)).
Proof.
  destruct old as [r|]; cbn.
  - intros (k & -> & Hk). cbn. eexists. split; [done|]. intros x Hx. by rewrite (Hk x Hx).
  - intros Hmid. eexists. split; [done|]. destruct hit; [|by subst]. destruct Hmid as (r & -> & Hr).
    by destruct r.
Qed.

Definition targets (edges : list ReferenceEdge) : list blob :=
  map (λ e, ObjectId.to_bytes (edge_id e)) edges.
Definition targeted (edges : list ReferenceEdge) (key : blob) : bool :=
  bool_decide (key ∈ targets edges).

Lemma targeted_snoc edges e key :
  targeted (edges ++ [e]) key = targeted edges key || bool_decide (key = ObjectId.to_bytes (edge_id e)).
Proof.
  unfold targeted, targets. rewrite map_app. cbn [map].
  destruct (decide (key = ObjectId.to_bytes (edge_id e))) as [Hk|Hk].
  - rewrite (bool_decide_true (_ = _)), orb_true_r by done. apply bool_decide_true. set_solver.
  - rewrite (bool_decide_false (_ = _)), orb_false_r by done. apply bool_decide_ext. set_solver.
Qed.

(** The database after the edges of an object have been named: only the inventory changes. *)
Definition naming (db : Database.t) (edges : list ReferenceEdge) (db' : Database.t) : Prop :=
  db' = Database.set_objects (Database.objects db') db ∧
  (bt_wf (Database.objects db) → bt_wf (Database.objects db')) ∧
  ∀ key, named (targeted edges key)
           (bt_get key (Database.objects db)) (bt_get key (Database.objects db')).

Lemma name_objects_Ok revision edges db db' :
  try_fold (λ db edge, name_object revision edge db) edges db = Ok db' → naming db edges db'.
Proof.
  apply (try_fold_inv _ (naming db)).
  - intros done e st st' (Hst & Hwf & Hnamed) _ (n & _ & [-> _]%statement_Ok)%bind_Ok.
    split_and!; [by rewrite Hst|intros; apply bt_insert_wf; auto|]. intros key. cbn [Database.objects Database.set_objects].
    rewrite bt_get_insert, targeted_snoc. case_decide as Hk.
    + subst key. rewrite (bool_decide_true (_ = _)), orb_true_r by done. eapply named_row_step, Hnamed.
    + rewrite (bool_decide_false (_ = _)), orb_false_r by done. apply Hnamed.
  - split_and!; [by destruct db|done|]. intros key. apply named_refl.
Qed.

(** ** Edges *)

(** The rows that [insert_edges] writes, from a given ordinal. *)
Fixpoint edge_rows (ordinal : Z) (edges : list ReferenceEdge) : list (Z * EdgeRow.t) :=
  match edges with
  | [] => []
  | edge :: edges => (ordinal, edge_row edge) :: edge_rows (ordinal + 1) edges
  end.

Lemma edges_match_rows n edges : edges_match n (edge_rows n edges) edges = true.
Proof.
  revert n. induction edges as [|e edges IH]; intros n; cbn; [done|].
  rewrite Z.eqb_refl, !bool_decide_true by done. apply IH.
Qed.

Lemma edges_match_iff n actual edges : edges_match n actual edges = true ↔ actual = edge_rows n edges.
Proof.
  split; [|intros ->; apply edges_match_rows]. revert n edges.
  induction actual as [|[m [ro ki ta]] actual IH]; intros n [|e edges]; cbn; try done.
  intros [[[[->%Z.eqb_eq ->%bool_decide_eq_true]%andb_true_iff ->%bool_decide_eq_true]%andb_true_iff
    ->%bool_decide_eq_true]%andb_true_iff H%IH]%andb_true_iff. by rewrite H.
Qed.

(** The rows of one source, as a part of the table. *)
Definition sourced (source : blob) (rows : list (Z * EdgeRow.t)) : BTreeMap (blob * Z) EdgeRow.t :=
  map (λ '(n, row), ((source, n), row)) rows.

Lemma edge_rows_get source n edges k :
  bt_get (source, k) (sourced source (edge_rows n edges))
  = if k <? n then None else edge_row <$> edges !! Z.to_nat (k - n).
Proof.
  revert n. induction edges as [|e edges IH]; intros n; cbn [edge_rows sourced map bt_get].
  { destruct (Z.ltb_spec k n); [done|]. by rewrite lookup_nil. }
  rewrite pair_cmp. cbn [fst snd]. rewrite cmp_refl.
  change (cmp k n) with (k ?= n). destruct (Z.compare_spec k n) as [->|Hk|Hk].
  - rewrite Z.ltb_irrefl, Z.sub_diag. done.
  - change (bt_get (source, k) (sourced source (edge_rows (n + 1) edges)) = if k <? n then None else edge_row <$> (e :: edges) !! Z.to_nat (k - n)).
    rewrite IH. destruct (Z.ltb_spec k (n + 1)); [|lia]. by destruct (Z.ltb_spec k n); [|lia].
  - change (bt_get (source, k) (sourced source (edge_rows (n + 1) edges)) = if k <? n then None else edge_row <$> (e :: edges) !! Z.to_nat (k - n)).
    rewrite IH. destruct (Z.ltb_spec k (n + 1)); [lia|]. destruct (Z.ltb_spec k n); [lia|].
    replace (Z.to_nat (k - n)) with (S (Z.to_nat (k - (n + 1)))) by lia. done.
Qed.

Lemma edge_rows_other source source' n edges k :
  source ≠ source' → bt_get (source', k) (sourced source (edge_rows n edges)) = None.
Proof.
  intros Hne. apply bt_get_None. unfold bt_keys, sourced. rewrite map_map.
  intros ([m r] & Heq & _)%list_elem_of_fmap. cbn in Heq. naive_solver.
Qed.

Lemma edge_rows_wf source n edges : bt_wf (sourced source (edge_rows n edges)).
Proof.
  unfold bt_wf, bt_keys, sourced. rewrite map_map. revert n.
  induction edges as [|e edges IH]; intros n; cbn; constructor; [apply IH|].
  apply Forall_forall. intros x ([m r] & -> & Hm)%list_elem_of_fmap. unfold lt. rewrite pair_cmp. cbn.
  rewrite cmp_refl. apply Z.compare_lt_iff. clear IH. revert n Hm.
  induction edges as [|e' edges IH]; intros n; cbn; [set_solver|].
  intros [[= -> ->]|Hm]%elem_of_cons; [lia|]. apply IH in Hm. lia.
Qed.

(** The table after the edges of a source have been inserted. *)
Definition edging (db : Database.t) (source : blob) (rows : list (Z * EdgeRow.t)) (db' : Database.t) : Prop :=
  db' = Database.set_object_edges (Database.object_edges db') db ∧
  (bt_wf (Database.object_edges db) → bt_wf (Database.object_edges db')) ∧
  ∀ key, bt_get key (Database.object_edges db')
    = match bt_get key (sourced source rows) with
      | Some row => Some row
      | None => bt_get key (Database.object_edges db)
      end.

Lemma insert_edges_Ok source n edges db db' :
  insert_edges source n edges db = Ok db' → edging db source (edge_rows n edges) db'.
Proof.
  revert n db. induction edges as [|e edges IH]; intros n db; cbn [insert_edges].
  { intros [= <-]. split_and!; [by destruct db|done|done]. }
  intros (m & [-> _]%to_usize_Ok & (db1 & [Hfree ->]%insert_Ok & Hrest)%bind_Ok)%bind_Ok.
  apply IH in Hrest as (Heq & Hwf & Hget). split_and!; [by rewrite Heq| |].
  - intros Hdb. apply Hwf. by apply bt_insert_wf.
  - intros key. rewrite Hget. cbn [Database.object_edges Database.set_object_edges].
    cbn [edge_rows sourced map bt_get]. destruct (cmp key (source, n)) eqn:Ek.
    + apply cmp_eq_iff in Ek as ->. change (map _ (edge_rows (n + 1) edges)) with (sourced source (edge_rows (n + 1) edges)).
      rewrite edge_rows_get. destruct (Z.ltb_spec n (n + 1)); [|lia]. apply bt_get_insert_eq.
    + rewrite bt_get_insert_ne; [done|]. intros <-. by rewrite cmp_refl in Ek.
    + rewrite bt_get_insert_ne; [done|]. intros <-. by rewrite cmp_refl in Ek.
Qed.

Lemma insert_edges_count source n edges db db' :
  0 ≤ n ≤ i64_max + 1 → insert_edges source n edges db = Ok db' → n + len edges ≤ i64_max + 1.
Proof.
  revert n db. induction edges as [|e edges IH]; intros n db Hn; cbn [insert_edges].
  { rewrite len_nil. lia. }
  intros (m & [-> Hm]%to_usize_Ok & (db1 & _ & Hrest)%bind_Ok)%bind_Ok.
  apply IH in Hrest; [|lia]. rewrite len_cons. lia.
Qed.

(** Replacing the edges of a source. *)
Definition is_source (source : blob) (key : blob * Z) : bool := bool_decide (key.1 = source).
Definition from_source (source : blob) (e : blob * Z * EdgeRow.t) : bool := bool_decide (e.1.1 = source).

Lemma from_source_get source (m : BTreeMap (blob * Z) EdgeRow.t) x k :
  bt_get (x, k) (List.filter (from_source source) m)
  = if bool_decide (x = source) then bt_get (x, k) m else None.
Proof. exact (bt_get_filter (is_source source) m (x, k)). Qed.

Lemma edges_of_source db source :
  sourced source (edges_of db source) = List.filter (from_source source) (Database.object_edges db).
Proof.
  unfold edges_of, sourced. rewrite map_map. fold (from_source source).
  induction (Database.object_edges db) as [|[[s n] row] m IH]; cbn; [done|].
  destruct (from_source source (s, n, row)) eqn:Hs; cbn; [|done]. rewrite IH.
  unfold from_source in Hs. apply bool_decide_eq_true in Hs as <-. done.
Qed.

Lemma sourced_inj source rows rows' : sourced source rows = sourced source rows' → rows = rows'.
Proof.
  revert rows'. induction rows as [|[n r] rows IH]; intros [|[m q] rows'] [=]; [done|].
  subst. f_equal. by apply IH.
Qed.

Lemma edges_of_get db db' source :
  bt_wf (Database.object_edges db) → bt_wf (Database.object_edges db') →
  (∀ k, bt_get (source, k) (Database.object_edges db') = bt_get (source, k) (Database.object_edges db)) →
  edges_of db' source = edges_of db source.
Proof.
  intros Hwf Hwf' Hget. apply (sourced_inj source). rewrite !edges_of_source.
  apply bt_ext; [by apply bt_filter_wf..|]. intros [x k].
  rewrite !from_source_get. case_bool_decide; [subst; apply Hget|done].
Qed.

Lemma edges_of_rows db source edges :
  bt_wf (Database.object_edges db) →
  (∀ k, bt_get (source, k) (Database.object_edges db) = bt_get (source, k) (sourced source (edge_rows 0 edges))) →
  edges_of db source = edge_rows 0 edges.
Proof.
  intros Hwf Hget. apply (sourced_inj source). rewrite edges_of_source.
  apply bt_ext; [by apply bt_filter_wf|apply edge_rows_wf|]. intros [x k].
  rewrite from_source_get. case_bool_decide as Hx; [subst; apply Hget|].
  by rewrite edge_rows_other.
Qed.

Lemma delete_edges_Ok source db db' :
  delete_edges source db = Ok db' →
  db' = Database.set_object_edges (Database.object_edges db') db ∧
  (bt_wf (Database.object_edges db) → bt_wf (Database.object_edges db')) ∧
  ∀ x k, bt_get (x, k) (Database.object_edges db')
    = if bool_decide (x = source) then None else bt_get (x, k) (Database.object_edges db).
Proof.
  intros [-> _]%statement_Ok. split_and!; [done|apply bt_filter_wf|]. intros x k.
  etransitivity; [exact (bt_get_filter (λ key, negb (is_source source key)) _ (x, k))|].
  unfold is_source. cbn. by case_bool_decide.
Qed.

(** ** Locations *)

Definition located (id : blob) (row : LocationRow.t) : bool := bool_decide (LocationRow.object_id row = id).
Definition is_loose (row : LocationRow.t) : bool := LocationRow.location_kind row =? 1.

(** The rows of the index on active loose locations that are about one object. *)
Definition loose_rows (db : Database.t) (id : blob) : list LocationRow.t :=
  List.filter (located id) (Schema.active_loose (Database.object_locations db)).

Lemma active_location_rows db db' id : loose_rows db' id = loose_rows db id →
  active_location db' id = active_location db id.
Proof. unfold active_location, loose_rows. fold (located id). by intros ->. Qed.

(** Deleting rows of one object leaves the rows of the others. *)
Lemma delete_locations_other (p : LocationRow.t → bool) db db' id x :
  (∀ row, p row = true → LocationRow.object_id row = id) →
  delete_locations p db = Ok db' → x ≠ id → loose_rows db' x = loose_rows db x.
Proof.
  intros Hp [-> _]%statement_Ok Hx. unfold loose_rows, Schema.active_loose. cbn.
  induction (Database.object_locations db) as [|row rows IH]; cbn; [done|].
  destruct (p row) eqn:Hr; cbn [negb].
  - rewrite IH. destruct ((_ =? 1) && _); cbn; [|done]. unfold located at 2.
    rewrite bool_decide_false; [done|]. rewrite (Hp row Hr). congruence.
  - cbn. destruct ((_ =? 1) && _); cbn; by rewrite IH.
Qed.

Lemma insert_location_rows row db db' x :
  insert_location row db = Ok db' → LocationRow.location_kind row = 1 → LocationRow.active row = 1 →
  loose_rows db' x = loose_rows db x ++ (if bool_decide (x = LocationRow.object_id row) then [row] else []).
Proof.
  intros [-> _]%statement_Ok Hk Ha. unfold loose_rows, Schema.active_loose. cbn.
  rewrite !List.filter_app. cbn. rewrite Hk, Ha. cbn. unfold located at 2.
  case_bool_decide; case_bool_decide; by subst.
Qed.

Lemma delete_loose_rows id db db' :
  delete_locations (λ row, bool_decide (LocationRow.object_id row = id) && (LocationRow.location_kind row =? 1))
    db = Ok db' → loose_rows db' id = [].
Proof.
  intros [-> _]%statement_Ok. unfold loose_rows, Schema.active_loose. cbn.
  induction (Database.object_locations db) as [|row rows IH]; cbn; [done|].
  destruct (bool_decide (LocationRow.object_id row = id)) eqn:Hr; cbn.
  - destruct (LocationRow.location_kind row =? 1) eqn:Hk; cbn; [done|]. by rewrite Hk.
  - destruct ((_ =? 1) && _); cbn; [|done]. unfold located at 1. by rewrite Hr.
Qed.

Lemma conditions_rows db : Schema.conditions db = true →
  forallb (Schema.location_ok db) (Database.object_locations db) = true ∧
  forallb (λ '((kind, stable), row), Schema.reference_ok db kind stable row) (Database.references db) = true.
Proof.
  unfold Schema.conditions. intros [[Hc Hrefs]%andb_true_iff _]%andb_true_iff. split; [|done].
  do 8 apply andb_true_iff in Hc as [Hc _]. by apply andb_true_iff in Hc as [_ Hc].
Qed.

Lemma insert_location_positive row db db' : insert_location row db = Ok db' → 0 < LocationRow.stored_length row.
Proof.
  intros [-> [Hrows _]%conditions_rows]%statement_Ok. cbn in Hrows.
  rewrite forallb_app in Hrows. apply andb_true_iff in Hrows as [_ [Hrow _]%andb_true_iff].
  unfold Schema.location_ok in Hrow. do 2 apply andb_true_iff in Hrow as [Hrow _].
  apply andb_true_iff in Hrow as [_ Hpos]. by apply Z.ltb_lt.
Qed.

(** ** Indexing an object *)

Record indexed (db : Database.t) (o : StoredObject.t) (n : Z) (db' : Database.t) : Prop := {
  ix_revision : Database.revision db' = Database.revision db;
  ix_incident : Database.incident_read_only db' = Database.incident_read_only db;
  ix_incidents : Database.incidents db' = Database.incidents db;
  ix_references : Database.references db' = Database.references db;
  ix_wf_objects : bt_wf (Database.objects db) → bt_wf (Database.objects db');
  ix_wf_edges : bt_wf (Database.object_edges db) → bt_wf (Database.object_edges db');
  ix_self : ∃ row, bt_get (ObjectId.to_bytes (StoredObject.id o)) (Database.objects db') = Some row ∧
    ObjectRow.presence row = 1 ∧ ObjectRow.kind row = Some (ObjectKind.code (StoredObject.kind o)) ∧
    ObjectRow.object_schema row = Some (schema_version_of o) ∧
    ObjectRow.canonical_length row = Some (len (StoredObject.bytes o));
  ix_other : ∀ key, key ≠ ObjectId.to_bytes (StoredObject.id o) →
    named (targeted (StoredObject.references o) key)
      (bt_get key (Database.objects db)) (bt_get key (Database.objects db'));
  ix_edges : bt_wf (Database.object_edges db) →
    ∀ x, edges_of db' x = if bool_decide (x = ObjectId.to_bytes (StoredObject.id o))
                          then edge_rows 0 (StoredObject.references o) else edges_of db x;
  ix_location : ∀ x, active_location db' x
    = if bool_decide (x = ObjectId.to_bytes (StoredObject.id o))
      then Some (loose_relative_path (StoredObject.id o), n) else active_location db x;
  ix_positive : 0 < n;
  ix_length : len (StoredObject.bytes o) ≤ i64_max;
  ix_count : len (StoredObject.references o) ≤ i64_max + 1 }.

Lemma index_object_Ok length o revision db db' :
  index_object length o revision db = Ok db' → ∃ n, length = Some n ∧ indexed db o n db'.
Proof.
  unfold index_object. set (id := ObjectId.to_bytes (StoredObject.id o)).
  intros (schema & [_ [= <-]]%bail_Ok & H1)%bind_Ok.
  apply bind_Ok in H1 as (canonical & [-> Hlen]%to_usize_Ok & H1).
  apply bind_Ok in H1 as (first & _ & H1).
  apply bind_Ok in H1 as (db1 & [E1 _]%statement_Ok & H1).
  apply bind_Ok in H1 as (db2 & (E2 & Hwf2 & Hnamed)%name_objects_Ok & H1).
  apply bind_Ok in H1 as (db3 & (E3 & Hwf3 & Hget3)%delete_edges_Ok & H1).
  apply bind_Ok in H1 as (db4 & Hedges & H1).
  assert (len (StoredObject.references o) ≤ i64_max + 1) as Hcount.
  { apply insert_edges_count in Hedges; unfold i64_max in *; lia. }
  apply insert_edges_Ok in Hedges as (E4 & Hwf4 & Hget4).
  apply bind_Ok in H1 as (n & ->%ok_or_Ok & H1).
  apply bind_Ok in H1 as (db5 & Hdel & H1). apply bind_Ok in H1 as (m & [-> _]%to_sql_Ok & Hins).
  exists n. split; [done|].
  pose proof (delete_loose_rows _ _ _ Hdel) as Hself.
  assert (∀ x, x ≠ id → loose_rows db5 x = loose_rows db4 x) as Hother.
  { intros x Hx. eapply delete_locations_other; [|exact Hdel|done].
    by intros row [Hrow%bool_decide_eq_true _]%andb_true_iff. }
  assert (∀ x, loose_rows db4 x = loose_rows db x) as Hkeep.
  { intros x. by rewrite E4, E3, E2, E1. }
  pose proof (λ x, insert_location_rows _ _ _ x Hins eq_refl eq_refl) as Hrows. cbn in Hrows.
  pose proof (insert_location_positive _ _ _ Hins) as Hpos. cbn in Hpos.
  apply statement_Ok in Hdel as [E5 _], Hins as [E6 _].
  split.
  - by rewrite E6, E5, E4, E3, E2, E1.
  - by rewrite E6, E5, E4, E3, E2, E1.
  - by rewrite E6, E5, E4, E3, E2, E1.
  - by rewrite E6, E5, E4, E3, E2, E1.
  - intros Hwf. rewrite E6, E5, E4, E3. apply Hwf2. rewrite E1. by apply bt_insert_wf.
  - intros Hwf. rewrite E6, E5. apply Hwf4, Hwf3. by rewrite E2, E1.
  - pose proof (Hnamed id) as Hid. rewrite E1 in Hid. cbn in Hid. rewrite bt_get_insert_eq in Hid.
    destruct Hid as (k & Hrow & Hk). rewrite E6, E5, E4, E3. cbn. fold id. rewrite Hrow. eexists. split_and!; [done|done| |done|done].
    cbn. by apply Hk.
  - intros key Hkey. pose proof (Hnamed key) as Hid. rewrite E1 in Hid. cbn in Hid.
    rewrite bt_get_insert_ne in Hid by done. by rewrite E6, E5, E4, E3.
  - intros Hwf x. assert (bt_wf (Database.object_edges db3)) as W3 by (apply Hwf3; by rewrite E2, E1).
    assert (edges_of db' x = edges_of db4 x) as -> by (by rewrite E6, E5).
    case_bool_decide as Hx.
    + subst x. apply edges_of_rows; [by apply Hwf4|]. intros k. rewrite Hget4, Hget3.
      rewrite bool_decide_true by done. by destruct (bt_get _ (sourced _ _)).
    + transitivity (edges_of db2 x); [|by rewrite E2, E1].
      apply edges_of_get; [by rewrite E2, E1|by apply Hwf4|]. intros k.
      rewrite Hget4, Hget3, (edge_rows_other id x) by (intros Heq; by apply Hx; rewrite <-Heq). by rewrite bool_decide_false.
  - intros x. case_bool_decide as Hx.
    + subst x. unfold active_location. change (List.filter _ _) with (loose_rows db' id).
      rewrite Hrows, Hself, bool_decide_true by done. done.
    + apply active_location_rows. rewrite Hrows, bool_decide_false, app_nil_r by done.
      by rewrite Hother, Hkeep.
  - done.
  - done.
  - done.
Qed.
