(* ===== verification/SqliteDerived.v ===== *)
(** * The derived tables of the durable store

    [rebuild_graph_indexes] writes exactly the rows that [verify_derived_indexes] expects. *)

From S2P Require Import Prelude Machine Order Utf8 Canonical ObjectId Types Objects Fields Decode References EdgeRoles Explore StoreModel MemoryStore FileTree LooseFrame LooseStore SqlSchema SqliteIndex SqliteFacts.

(** The database with other derived tables. *)
Definition derived_only (db db' : Database.t) : Prop :=
  db' = Database.mk (Database.revision db) (Database.incident_read_only db) (Database.objects db)
          (Database.object_locations db) (Database.object_edges db) (Database.snapshot_parents db')
          (Database.graph_generations db') (Database.operations db') (Database.operation_parents db')
          (Database.references db) (Database.incidents db).

Section derived.
Context `{Unicode, Digests} (s : MemorySnapshot).
Implicit Types o : StoredObject.t.

Notation key o := (ObjectId.to_bytes (StoredObject.id o)).
Notation is_operation o := (bool_decide (StoredObject.kind o = ObjectKind.Operation)).

(** The rows of one object in each table. *)
Definition generation_rows o : BTreeMap blob (Z * Z) :=
  match history_of s o with
  | Some g => [(key o, (ObjectKind.code (StoredObject.kind o), g))]
  | None => []
  end.

Definition operation_rows o : BTreeMap blob (Z * Z) :=
  if is_operation o then
    match history_of s o, value_unsigned_field (StoredObject.value o) 6 with
    | Some g, Some t => [(key o, (g, t))]
    | _, _ => []
    end
  else [].

(** The parents that a predicate selects, with their positions. *)
Fixpoint positioned (id : blob) (select : oid → bool) (n : Z) (parents : list oid) :
    BTreeMap (blob * Z) blob :=
  match parents with
  | [] => []
  | p :: parents =>
      (if select p then [((id, n), ObjectId.to_bytes p)] else []) ++ positioned id select (n + 1) parents
  end.

Definition traced (p : oid) : bool := bool_decide (is_Some (generation_of s p)).

Definition snapshot_parent_rows o : BTreeMap (blob * Z) blob :=
  match StoredObject.kind o with
  | ObjectKind.Snapshot => positioned (key o) (λ _, true) 0 (role_targets ReferenceRole.SnapshotParent o)
  | _ => []
  end.

Definition operation_parent_rows o : BTreeMap (blob * Z) blob :=
  match StoredObject.kind o with
  | ObjectKind.Operation =>
      positioned (key o) (λ p, traced (StoredObject.id o) && traced p) 0
        (role_targets ReferenceRole.OperationParent o)
  | _ => []
  end.

Lemma history_operation o : StoredObject.kind o = ObjectKind.Operation →
  history_of s o = generation_of s (StoredObject.id o).
Proof. unfold history_of. by intros ->. Qed.

(** ** Writing *)

(** The integers of an object's rows can be stored, and operations have a logical time. *)
Definition storable_rows o : Prop :=
  (∀ g, history_of s o = Some g → g ≤ i64_max) ∧
  (StoredObject.kind o = ObjectKind.Operation → ∃ t, value_unsigned_field (StoredObject.value o) 6 = Some t ∧
     (is_Some (history_of s o) → t ≤ i64_max)).

Definition generations_done (db : Database.t) (done : list StoredObject.t) (db' : Database.t) : Prop :=
  derived_only db db' ∧ Database.snapshot_parents db' = Database.snapshot_parents db ∧
  Database.operation_parents db' = Database.operation_parents db ∧
  bt_wf (Database.graph_generations db') ∧ bt_wf (Database.operations db') ∧
  Database.graph_generations db' ≡ₚ flat_map generation_rows done ∧
  Database.operations db' ≡ₚ flat_map operation_rows done ∧
  Forall storable_rows done.

Lemma rebuild_generations_Ok db done o db1 db2 :
  generations_done db done db1 → rebuild_generations s db1 o = Ok db2 →
  generations_done db (done ++ [o]) db2.
Proof.
  intros (Hd & Hsp & Hop & Wg & Wo & Pg & Po & Hst). unfold rebuild_generations.
  intros (db3 & Hg & Ho)%bind_Ok.
  assert (∃ rows, rows = generation_rows o ∧ db3 = Database.set_graph_generations (Database.graph_generations db3) db1 ∧
    bt_wf (Database.graph_generations db3) ∧
    Database.graph_generations db3 ≡ₚ rows ++ Database.graph_generations db1 ∧
    (∀ g, history_of s o = Some g → g ≤ i64_max)) as (rows & -> & E3 & W3 & P3 & Hb).
  { exists (generation_rows o). split; [done|]. unfold generation_rows. revert Hg.
    destruct (history_of s o) as [g|].
    - intros (g' & [-> Hb]%to_sql_Ok & [Hfree ->]%insert_Ok)%bind_Ok. cbn.
      split_and!; [done|by apply bt_insert_wf|by apply bt_insert_perm|by intros ? [= <-]].
    - intros [= ->]. split_and!; [by destruct db3|done|done|done]. }
  assert (db2 = Database.set_operations (Database.operations db2) db3 ∧ bt_wf (Database.operations db2) ∧
    Database.operations db2 ≡ₚ operation_rows o ++ Database.operations db3 ∧
    (StoredObject.kind o = ObjectKind.Operation → ∃ t, value_unsigned_field (StoredObject.value o) 6 = Some t ∧
       (is_Some (history_of s o) → t ≤ i64_max))) as (E2 & W2 & P2 & Ht).
  { assert (bt_wf (Database.operations db3)) as W by (by rewrite E3).
    unfold operation_rows. revert Ho. case_bool_decide as Hk.
    2: { intros [= <-]. split_and!; [by destruct db3|done|done|done]. }
    intros (t & ->%ok_or_Ok & Ho)%bind_Ok. rewrite (history_operation o Hk).
    destruct (generation_of s (StoredObject.id o)) as [g|].
    - apply bind_Ok in Ho as (g' & [-> _]%to_sql_Ok & Ho).
      apply bind_Ok in Ho as (t' & [-> Hb']%to_sql_Ok & [Hfree ->]%insert_Ok). cbn.
      split_and!; [done|by apply bt_insert_wf|by apply bt_insert_perm|]. intros _. by exists t.
    - injection Ho as <-. split_and!; [by destruct db3|done|done|]. intros _. exists t. split; [done|].
      by intros []. }
  unfold generations_done. split_and!.
  - unfold derived_only. rewrite E2, E3, Hd. done.
  - by rewrite E2, E3.
  - by rewrite E2, E3.
  - by rewrite E2.
  - done.
  - rewrite E2. cbn. rewrite P3, Pg, flat_map_app. cbn. rewrite app_nil_r. apply Permutation_app_comm.
  - rewrite P2, E3. cbn. rewrite Po, flat_map_app. cbn. rewrite app_nil_r. apply Permutation_app_comm.
  - apply Forall_app. split; [done|]. by constructor.
Qed.

Section parents.
Context (table : Database.t → BTreeMap (blob * Z) blob).
Context (set : BTreeMap (blob * Z) blob → Database.t → Database.t).
Hypothesis table_set : ∀ x db, table (set x db) = x.
Hypothesis set_table : ∀ db, set (table db) db = db.
Hypothesis set_set : ∀ x y db, set x (set y db) = set x db.

Lemma insert_parents_Ok id select n parents db db' :
  insert_parents (λ position parent, insert table set (id, position) (ObjectId.to_bytes parent))
    select n parents db = Ok db' → bt_wf (table db) →
  db' = set (table db') db ∧ bt_wf (table db') ∧
  table db' ≡ₚ positioned id select n parents ++ table db.
Proof.
  revert n db. induction parents as [|p parents IH]; intros n db; cbn [insert_parents positioned].
  { intros [= <-] Hwf. by rewrite set_table. }
  intros (db1 & H1 & Hrest)%bind_Ok Hwf. destruct (select p).
  - apply bind_Ok in H1 as (m & [-> _]%to_usize_Ok & [Hfree ->]%insert_Ok).
    apply IH in Hrest as (E & W & P); [|rewrite table_set; by apply bt_insert_wf].
    rewrite set_set in E. split_and!; [done|done|]. etransitivity; [exact P|].
    rewrite table_set. etransitivity; [apply Permutation_app_head, (bt_insert_perm _ _ _ Hfree)|].
    symmetry. apply Permutation_middle.
  - injection H1 as <-. by apply IH in Hrest.
Qed.
End parents.

Definition parents_done (db : Database.t) (done : list StoredObject.t) (db' : Database.t) : Prop :=
  derived_only db db' ∧ Database.graph_generations db' = Database.graph_generations db ∧
  Database.operations db' = Database.operations db ∧
  bt_wf (Database.snapshot_parents db') ∧ bt_wf (Database.operation_parents db') ∧
  Database.snapshot_parents db' ≡ₚ flat_map snapshot_parent_rows done ∧
  Database.operation_parents db' ≡ₚ flat_map operation_parent_rows done.

Lemma rebuild_parents_Ok db done o db1 db2 :
  parents_done db done db1 → rebuild_parents s db1 o = Ok db2 → parents_done db (done ++ [o]) db2.
Proof.
  intros (Hd & Hg & Ho & Ws & Wp & Ps & Pp). unfold rebuild_parents, parents_done.
  rewrite !flat_map_app. cbn [flat_map]. unfold snapshot_parent_rows at 2, operation_parent_rows at 2.
  destruct (StoredObject.kind o); try (intros [= <-]; by rewrite !app_nil_r).
  - intros Hi. apply (insert_parents_Ok Database.snapshot_parents Database.set_snapshot_parents) in Hi
      as (E & W & P); [|done|by intros []|done|done].
    rewrite !app_nil_r. rewrite E. cbn. split_and!; try done; [unfold derived_only; by rewrite Hd|].
    rewrite P, Ps. apply Permutation_app_comm.
  - intros Hi. apply (insert_parents_Ok Database.operation_parents Database.set_operation_parents) in Hi
      as (E & W & P); [|done|by intros []|done|done].
    rewrite !app_nil_r. rewrite E. cbn. split_and!; try done; [unfold derived_only; by rewrite Hd|].
    rewrite P, Pp. apply Permutation_app_comm.
Qed.

(** All four tables. *)
Lemma rebuild_Ok db db' : let values := bt_values (objects s) in
  rebuild_graph_indexes s db = Ok db' →
  derived_only db db' ∧ Forall storable_rows values ∧
  (bt_wf (Database.graph_generations db') ∧ bt_wf (Database.operations db') ∧
   bt_wf (Database.snapshot_parents db') ∧ bt_wf (Database.operation_parents db')) ∧
  Database.graph_generations db' ≡ₚ flat_map generation_rows values ∧
  Database.operations db' ≡ₚ flat_map operation_rows values ∧
  Database.snapshot_parents db' ≡ₚ flat_map snapshot_parent_rows values ∧
  Database.operation_parents db' ≡ₚ flat_map operation_parent_rows values.
Proof.
  intros values. unfold rebuild_graph_indexes.
  intros (db1 & [E1 _]%statement_Ok & H1)%bind_Ok.
  apply bind_Ok in H1 as (db2 & [E2 _]%statement_Ok & H1).
  apply bind_Ok in H1 as (db3 & [E3 _]%statement_Ok & H1).
  apply bind_Ok in H1 as (db4 & [E4 _]%statement_Ok & H1).
  apply bind_Ok in H1 as (db5 & H5 & H6).
  apply (try_fold_inv _ (generations_done db4)) in H5 as (Hd & Hsp & Hop & Wg & Wo & Pg & Po & Hst).
  2: { intros done o st st' Hdone _. by apply rebuild_generations_Ok. }
  2: { unfold generations_done, derived_only. rewrite E4, E3, E2, E1. by cbn; repeat split; try constructor. }
  apply (try_fold_inv _ (parents_done db5)) in H6 as (Hd' & Hg & Ho & Ws & Wp & Ps & Pp).
  2: { intros done o st st' Hdone _. by apply rebuild_parents_Ok. }
  2: { unfold parents_done. rewrite Hsp, Hop, E4, E3, E2, E1. cbn. split_and!; try done; try constructor.
       unfold derived_only. by destruct db5. }
  rewrite Hg, Ho. split_and!; try done. unfold derived_only. rewrite Hd', Hd, E4, E3, E2, E1. done.
Qed.

(** ** What is expected *)

Fixpoint enumerated (id : blob) (n : Z) (parents : list oid) : list (blob_integer_blob * oid) :=
  match parents with
  | [] => []
  | p :: parents => (id, n, ObjectId.to_bytes p, p) :: enumerated id (n + 1) parents
  end.

Lemma parent_rows_Ok id n parents :
  0 ≤ n → n + len parents ≤ i64_max + 1 → parent_rows id n parents = Ok (enumerated id n parents).
Proof.
  revert n. induction parents as [|p parents IH]; intros n Hn; cbn [parent_rows enumerated]; [done|].
  rewrite len_cons. intros Hlen. pose proof (len_nonneg parents).
  rewrite (proj2 (to_usize_Ok n n)) by lia. cbn. rewrite IH by lia. done.
Qed.

Lemma enumerated_select id f n parents :
  map fst (List.filter (λ '(_, p), f p) (enumerated id n parents))
  = query_blob_i64_blob (positioned id f n parents).
Proof.
  revert n. induction parents as [|p parents IH]; intros n; cbn; [done|].
  destruct (f p); cbn; by rewrite IH.
Qed.

Lemma enumerated_all id n parents :
  map fst (enumerated id n parents) = query_blob_i64_blob (positioned id (λ _, true) n parents).
Proof.
  revert n. induction parents as [|p parents IH]; intros n; cbn; [done|]. by rewrite IH.
Qed.

Lemma positioned_none id f n parents : (∀ p, f p = false) → positioned id f n parents = [].
Proof. intros Hf. revert n. induction parents as [|p parents IH]; intros n; cbn; [done|]. rewrite Hf. apply IH. Qed.

Lemma role_targets_len r o : len (role_targets r o) ≤ len (StoredObject.references o).
Proof.
  unfold role_targets, len. rewrite length_map. apply inj_le, List.filter_length_le.
Qed.

Lemma object_indexes_Ok o : storable_rows o → len (StoredObject.references o) ≤ i64_max + 1 →
  object_indexes s o
  = Ok (mk_indexes (query_i64_triples (generation_rows o)) (query_i64_triples (operation_rows o))
          (query_blob_i64_blob (snapshot_parent_rows o)) (query_blob_i64_blob (operation_parent_rows o))).
Proof.
  intros [Hg Ht] Hlen. unfold object_indexes, generation_rows, operation_rows.
  assert (∀ r, parent_rows (key o) 0 (role_targets r o) = Ok (enumerated (key o) 0 (role_targets r o))) as Hrows.
  { intros r. apply parent_rows_Ok; [lia|]. pose proof (role_targets_len r o). lia. }
  assert (∀ p, StoredObject.kind o = ObjectKind.Operation → is_Some (history_of s o) →
    (traced (StoredObject.id o) && traced p) = traced p) as Htr.
  { intros p Hk Hh. unfold traced at 1. rewrite <-history_operation by done. by rewrite bool_decide_true. }
  case_bool_decide as Hk.
  - destruct (Ht Hk) as (t & -> & Hb). unfold snapshot_parent_rows, operation_parent_rows. rewrite Hk.
    destruct (history_of s o) as [g|] eqn:Hh; cbn [mbind result_bind].
    + rewrite (proj2 (to_sql_Ok g g)) by (split; [done|by apply Hg]). cbn [mbind result_bind ok_or].
      rewrite (proj2 (to_sql_Ok t t)) by (split; [done|by apply Hb]). cbn [mbind result_bind].
      rewrite Hrows. cbn [mbind result_bind]. do 2 f_equal.
      rewrite (enumerated_select _ traced). f_equal. clear -Htr Hk Hh.
      generalize 0. induction (role_targets _ o) as [|p ps IH]; intros n; cbn; [done|].
      rewrite IH, Htr by done. done.
    + rewrite positioned_none; [done|]. intros p. unfold traced at 1. rewrite <-history_operation by done.
      by rewrite Hh.
  - unfold snapshot_parent_rows, operation_parent_rows.
    destruct (history_of s o) as [g|] eqn:Hh; cbn [mbind result_bind].
    + rewrite (proj2 (to_sql_Ok g g)) by (split; [done|by apply Hg]). cbn [mbind result_bind].
      destruct (StoredObject.kind o); try done. rewrite Hrows. cbn [mbind result_bind].
      by rewrite enumerated_all.
    + destruct (StoredObject.kind o); try done. rewrite Hrows. cbn [mbind result_bind].
      by rewrite enumerated_all.
Qed.

Definition indexes_of (l : list StoredObject.t) : Indexes :=
  mk_indexes (query_i64_triples (flat_map generation_rows l)) (query_i64_triples (flat_map operation_rows l))
    (query_blob_i64_blob (flat_map snapshot_parent_rows l))
    (query_blob_i64_blob (flat_map operation_parent_rows l)).

Lemma expected_Ok :
  (∀ o, o ∈ bt_values (objects s) → storable_rows o ∧ len (StoredObject.references o) ≤ i64_max + 1) →
  expected_indexes s = Ok (indexes_of (bt_values (objects s))).
Proof.
  unfold expected_indexes. generalize (bt_values (objects s)) as l. intros l.
  change (mk_indexes [] [] [] []) with (indexes_of []).
  assert (∀ rest done, (∀ o, o ∈ rest → storable_rows o ∧ len (StoredObject.references o) ≤ i64_max + 1) →
    try_fold (push_indexes s) rest (indexes_of done) = Ok (indexes_of (done ++ rest))) as Hgen.
  { induction rest as [|o rest IH]; intros done Hall; cbn [try_fold]; [by rewrite app_nil_r|].
    destruct (Hall o) as [Hs Hl]; [set_solver|].
    assert (push_indexes s (indexes_of done) o = Ok (indexes_of (done ++ [o]))) as ->.
    { unfold push_indexes. rewrite object_indexes_Ok by done. cbn [mbind result_bind].
      unfold indexes_of, query_i64_triples, query_blob_i64_blob. rewrite !flat_map_app, !map_app.
      cbn [flat_map]. by rewrite !app_nil_r. }
    cbn [mbind result_bind]. rewrite IH by (intros; apply Hall; by constructor). by rewrite <-app_assoc. }
  intros Hall. exact (Hgen l [] Hall).
Qed.
End derived.

(** ** Tables in the order of their keys *)

Lemma sorted_triples table rows : bt_wf table → table ≡ₚ rows →
  sort_by_key id (query_i64_triples rows) = query_i64_triples table.
Proof.
  apply sorted_rows. intros [x [a b]] [y [c d]] Hxy. cbn in Hxy. by do 2 apply pair_lt.
Qed.

Lemma sorted_parents table rows : bt_wf table → table ≡ₚ rows →
  sort_by_key id (query_blob_i64_blob rows) = query_blob_i64_blob table.
Proof.
  apply sorted_rows. intros [[x a] b] [[y c] d] Hxy. by apply pair_lt.
Qed.

(** The rebuilt tables are the expected ones. *)
Lemma rebuild_verified `{Unicode, Digests} s db db' :
  (∀ o, o ∈ bt_values (objects s) → len (StoredObject.references o) ≤ i64_max + 1) →
  rebuild_graph_indexes s db = Ok db' → derived_only db db' ∧ verify_derived_indexes db' s = Ok tt.
Proof.
  intros Hlen (Hd & Hst & (Wg & Wo & Ws & Wp) & Pg & Po & Ps & Pp)%rebuild_Ok. split; [done|].
  unfold verify_derived_indexes. rewrite expected_Ok.
  2: { intros o Ho. rewrite Forall_forall in Hst. auto. }
  cbn [mbind result_bind indexes_of expected_generations expected_operations expected_snapshot_parents
       expected_operation_parents].
  rewrite (sorted_triples _ _ Wg Pg), (sorted_triples _ _ Wo Po), (sorted_parents _ _ Ws Ps),
    (sorted_parents _ _ Wp Pp). by rewrite !bool_decide_true.
Qed.

(** The objects that a verified table of generations has rows for. *)
Section generations.
Context `{Unicode, Digests} (s : MemorySnapshot).

Definition row_key (row : blob_integer_integer) : blob := row.1.1.

Lemma object_generations o ix :
  object_indexes s o = Ok ix →
  map row_key (expected_generations ix)
  = if history_of s o then [ObjectId.to_bytes (StoredObject.id o)] else [].
Proof.
  unfold object_indexes. intros ([generations operations] & Hg & Hix)%bind_Ok.
  assert (expected_generations ix = generations) as ->.
  { destruct (StoredObject.kind o), (history_of s o); try (by injection Hix as <-);
      by apply bind_Ok in Hix as (rows & _ & [= <-]). }
  destruct (history_of s o) as [g|]; [|by injection Hg as <- _].
  apply bind_Ok in Hg as (stored & _ & Hg). by apply bind_Ok in Hg as (ops & _ & [= <- _]).
Qed.

Lemma expected_generations_keys ix k :
  expected_indexes s = Ok ix →
  k ∈ map row_key (expected_generations ix) ↔
  ∃ o, o ∈ bt_values (objects s) ∧ is_Some (history_of s o) ∧ k = ObjectId.to_bytes (StoredObject.id o).
Proof.
  unfold expected_indexes.
  apply (try_fold_inv _ (λ done ix, k ∈ map row_key (expected_generations ix) ↔
    ∃ o, o ∈ done ∧ is_Some (history_of s o) ∧ k = ObjectId.to_bytes (StoredObject.id o))).
  - intros done o acc acc' IH _ (i & Hi%object_generations & [= <-])%bind_Ok. cbn [expected_generations].
    rewrite map_app, Hi, elem_of_app, IH. setoid_rewrite elem_of_app. setoid_rewrite list_elem_of_singleton.
    destruct (history_of s o) as [g|] eqn:Hh; rewrite ?list_elem_of_singleton, ?elem_of_nil; split.
    + intros [(o' & ? & ?)| ->]; [exists o'; auto|]. exists o. rewrite Hh. eauto.
    + intros (o' & [?| ->] & ? & ?); [left; exists o'; auto|by right].
    + intros [(o' & ? & ?)|[]]. exists o'. auto.
    + intros (o' & [?| ->] & Hs & ?); [left; exists o'; auto|]. rewrite Hh in Hs. by destruct Hs.
  - cbn. rewrite elem_of_nil. split; [done|]. intros (o & Ho & _). by apply not_elem_of_nil in Ho.
Qed.

Lemma verified_generations db k :
  verify_derived_indexes db s = Ok tt →
  k ∈ bt_keys (Database.graph_generations db) ↔
  ∃ o, o ∈ bt_values (objects s) ∧ is_Some (history_of s o) ∧ k = ObjectId.to_bytes (StoredObject.id o).
Proof.
  unfold verify_derived_indexes. intros (ix & Hix & [Hb _]%bail_Ok)%bind_Ok.
  rewrite <-(expected_generations_keys ix k Hix).
  apply orb_false_iff in Hb as [[[Hb _]%orb_false_iff _]%orb_false_iff _].
  apply negb_false_iff, bool_decide_eq_true in Hb.
  assert (bt_keys (Database.graph_generations db) = map row_key (query_i64_triples (Database.graph_generations db))) as ->.
  { unfold bt_keys, query_i64_triples. rewrite map_map. apply map_ext. by intros [? [? ?]]. }
  rewrite <-Hb. by rewrite sort_by_key_perm.
Qed.
End generations.
