(* ===== verification/SqliteLoad.v ===== *)
(** * Reading the metadata back

    What [load_snapshot] accepts and what it returns: a snapshot is loaded from the tables exactly
    when every row agrees with it. *)

From S2P Require Import Prelude Machine Order Utf8 Canonical ObjectId Types Objects Fields Decode References EdgeRoles Explore StoreModel MemoryStore MemoryFacts StoreInv FileTree LooseFrame LooseStore EdgeTargets SqlSchema SqliteIndex SqliteFacts.

(** What the durable store relies on: the loose store returns objects that decode under their
    identifier, and a [put], however it ends, leaves what could be read readable. *)
Class LooseLaws (L : Type) `{Unicode, Digests, LooseObjects L} := {
  loose_ok : L → Prop;
  loose_read_decodes l id o : loose_ok l → loose_read l id = Ok o → decode id (StoredObject.bytes o) = Ok o;
  loose_put_keeps id bytes l fuse r l' fuse' :
    loose_ok l → is_bytes bytes = true → loose_put id bytes (l, fuse) = (r, (l', fuse')) →
    r ≠ Err Stuck ∧ loose_ok l' ∧ ∀ x o, loose_read l x = Ok o → loose_read l' x = Ok o }.

(** ** Keys of references *)

Definition key_ok (key : ReferenceKey.t) : Prop :=
  match key with
  | ReferenceKey.Line id | ReferenceKey.Change id | ReferenceKey.Release id | ReferenceKey.Marker id =>
      len id = 16
  | ReferenceKey.OperationHead => True
  end.

Lemma decode_encode_key key :
  key_ok key → decode_reference_key (encode_reference_key key).1 (encode_reference_key key).2 = Ok key.
Proof. unfold decode_reference_key. destruct key as [id|id| |id|id]; cbn; [intros ->; done..|done|intros ->; done|intros ->; done]. Qed.

Lemma encode_key_inj a b : encode_reference_key a = encode_reference_key b → a = b.
Proof. destruct a, b; cbn; congruence. Qed.

(** ** Tables *)

Definition row_of (db : Database.t) (id : oid) : option ObjectRow.t :=
  bt_get (ObjectId.to_bytes id) (Database.objects db).
Definition presence_of (db : Database.t) (id : oid) : option Z := ObjectRow.presence <$> row_of db id.

(** The tables as the store keeps them: the rows are named by identifiers and reference keys, nothing is
    marked as erased, nothing is quarantined unless the store is read-only, and ordinals are integers of the
    database. *)
Record tables_ok (db : Database.t) : Prop := {
  tb_objects : bt_wf (Database.objects db);
  tb_edges : bt_wf (Database.object_edges db);
  tb_references : bt_wf (Database.references db);
  tb_ordinals : ∀ source n row, (n, row) ∈ edges_of db source → n ≤ i64_max;
  tb_named : ∀ key row, bt_get key (Database.objects db) = Some row →
    ∃ id, addressed id ∧ key = ObjectId.to_bytes id;
  tb_presence : ∀ key row, bt_get key (Database.objects db) = Some row →
    ObjectRow.presence row ∈ [1; 2; 3] ∧
    (Database.incident_read_only db = 0 → ObjectRow.presence row ≠ 3);
  tb_keys : ∀ key row, bt_get key (Database.references db) = Some row →
    0 ≤ ReferenceRow.generation row ∧
    ∃ k target operation, key_ok k ∧ key = encode_reference_key k ∧ addressed target ∧ addressed operation ∧
      ReferenceRow.target_id row = ObjectId.to_bytes target ∧
      ReferenceRow.operation_id row = ObjectId.to_bytes operation }.

(** The row of an object that is present. *)
Record described (db : Database.t) (row : ObjectRow.t) (o : StoredObject.t) : Prop := {
  ds_kind : ObjectRow.kind row = Some (ObjectKind.code (StoredObject.kind o));
  ds_schema : ObjectRow.object_schema row = Some (schema_version_of o);
  ds_length : ObjectRow.canonical_length row = ok (to_sql_usize (len (StoredObject.bytes o)));
  ds_indexes : verify_object_indexes db o = Ok tt }.

Section load.
Context `{Unicode, Digests} {L : Type} `{!LooseObjects L, !LooseLaws L}.
Implicit Types (l : L) (db : Database.t) (s : MemorySnapshot).

Definition reference_row (row : ReferenceRow.t) (state : ReferenceState.t) : Prop :=
  ReferenceRow.target_id row = ObjectId.to_bytes (ReferenceState.target state) ∧
  ReferenceRow.generation row = ReferenceState.generation state ∧
  ReferenceRow.operation_id row = ObjectId.to_bytes (ReferenceState.operation state) ∧
  addressed (ReferenceState.target state) ∧ addressed (ReferenceState.operation state).

(** The snapshot says what the tables and the loose store say. *)
Record loaded l db s : Prop := {
  ld_objects_wf : bt_wf (objects s);
  ld_promised_wf : bt_wf (promised s);
  ld_quarantined_wf : bt_wf (quarantined s);
  ld_references_wf : bt_wf (references s);
  ld_objects : ∀ id o, bt_get id (objects s) = Some o ↔
    addressed id ∧ presence_of db id = Some 1 ∧ loose_read l id = Ok o;
  ld_promised : ∀ id, set_contains id (promised s) = true ↔ addressed id ∧ presence_of db id = Some 2;
  ld_quarantined : ∀ id, set_contains id (quarantined s) = true ↔ addressed id ∧ presence_of db id = Some 3;
  ld_readable : ∀ id row, addressed id → row_of db id = Some row → ObjectRow.presence row = 1 →
    ∃ o, loose_read l id = Ok o ∧ described db row o;
  ld_references : ∀ k state, bt_get k (references s) = Some state ↔
    key_ok k ∧ ∃ row, bt_get (encode_reference_key k) (Database.references db) = Some row ∧
      reference_row row state;
  ld_revision : revision s = Database.revision db ∧ 0 ≤ Database.revision db }.

Lemma reference_row_inj row a b : reference_row row a → reference_row row b → a = b.
Proof.
  intros (T & G & O & At & Ao) (T' & G' & O' & At' & Ao'). destruct a as [t g o], b as [t' g' o']. cbn in *.
  f_equal; [..|congruence|]; apply to_bytes_addressed_inj; first [done|congruence].
Qed.

(** Tables determine the snapshot. *)
Lemma loaded_unique l db s s' : loaded l db s → loaded l db s' → s = s'.
Proof.
  intros Hs Hs'.
  assert (∀ (a b : BTreeSet oid), bt_wf a → bt_wf b →
    (∀ x, set_contains x a = true ↔ set_contains x b = true) → a = b) as Hset.
  { intros a b Ha Hb Hab. apply bt_ext; [done..|]. intros x. specialize (Hab x).
    unfold set_contains, bt_contains in Hab.
    destruct (bt_get x a) as [[]|], (bt_get x b) as [[]|]; naive_solver. }
  assert (objects s = objects s') as Ho.
  { apply bt_ext; [apply Hs|apply Hs'|]. intros x. apply option_eq. intros o.
    by rewrite (ld_objects _ _ _ Hs), (ld_objects _ _ _ Hs'). }
  assert (references s = references s') as Hr.
  { apply bt_ext; [apply Hs|apply Hs'|]. intros x. apply option_eq. intros o.
    by rewrite (ld_references _ _ _ Hs), (ld_references _ _ _ Hs'). }
  assert (promised s = promised s') as Hp.
  { apply Hset; [apply Hs|apply Hs'|]. intros x. by rewrite (ld_promised _ _ _ Hs), (ld_promised _ _ _ Hs'). }
  assert (quarantined s = quarantined s') as Hq.
  { apply Hset; [apply Hs|apply Hs'|]. intros x.
    by rewrite (ld_quarantined _ _ _ Hs), (ld_quarantined _ _ _ Hs'). }
  destruct (ld_revision _ _ _ Hs) as [Hn _], (ld_revision _ _ _ Hs') as [Hn' _].
  destruct s, s'. cbn in *. congruence.
Qed.

(** ** The inventory *)

Lemma load_object_Ok l db st id row st' :
  addressed id → load_object l db st (ObjectId.to_bytes id, row) = Ok st' →
  (∃ o, ObjectRow.presence row = 1 ∧ loose_read l id = Ok o ∧ described db row o ∧
     st' = with_objects (bt_insert id o (objects st)) st) ∨
  (ObjectRow.presence row = 2 ∧ st' = with_promised (set_insert id (promised st)) st) ∨
  (ObjectRow.presence row = 3 ∧ st' = with_quarantined (set_insert id (quarantined st)) st) ∨
  (ObjectRow.presence row = 4 ∧ st' = st).
Proof.
  intros Hid. unfold load_object. rewrite (from_to_addressed id Hid). cbn [map_err mbind result_bind].
  destruct (ObjectRow.presence row) as [|p|p] eqn:Hp; try done.
  destruct p as [[p|p|]|[p|[p|p|]|]|]; try done.
  - intros [= <-]. auto.
  - intros [= <-]. auto.
  - intros [= <-]. auto.
  - intros (o & Ho%map_err_Ok & [Hb Hr]%bail_Ok)%bind_Ok. left. exists o.
    apply bind_Ok in Hr as ([] & Hv & [= <-]).
    apply orb_false_iff in Hb as [[Hk Hs]%orb_false_iff Hl].
    apply negb_false_iff in Hk, Hs, Hl. apply bool_decide_eq_true in Hk, Hs, Hl. done.
Qed.

Lemma load_object_readable l db st id row o :
  addressed id → ObjectRow.presence row = 1 → loose_read l id = Ok o → described db row o →
  is_Some (ok (load_object l db st (ObjectId.to_bytes id, row))).
Proof.
  intros Hid Hp Ho [Hk Hs Hl Hi]. unfold load_object. rewrite (from_to_addressed id Hid).
  cbn [map_err mbind result_bind]. rewrite Hp, Ho. cbn [map_err mbind result_bind]. rewrite Hk, Hs, Hl, !bool_decide_true by done. cbn [negb orb]. by rewrite Hi.
Qed.

(** Some row gives the object the presence [n]. *)
Definition has_row (rows : list (blob * ObjectRow.t)) (n : Z) (id : oid) : Prop :=
  addressed id ∧ ∃ row, (ObjectId.to_bytes id, row) ∈ rows ∧ ObjectRow.presence row = n.

Lemma has_row_snoc rows n id id' row' : addressed id' →
  has_row (rows ++ [(ObjectId.to_bytes id', row')]) n id ↔
  has_row rows n id ∨ id = id' ∧ ObjectRow.presence row' = n.
Proof.
  intros Hid'. unfold has_row. setoid_rewrite elem_of_app. setoid_rewrite list_elem_of_singleton. split.
  - intros (Hid & row & [Hin|[= Heq ->]] & Hn); [by left; eauto|]. right.
    split; [by apply to_bytes_addressed_inj|done].
  - intros [(Hid & row & ? & ?)|[-> ?]]; eauto 6.
Qed.

Lemma has_row_presence db n id :
  bt_wf (Database.objects db) →
  has_row (Database.objects db) n id ↔ addressed id ∧ presence_of db id = Some n.
Proof.
  intros Hwf. unfold has_row, presence_of, row_of. setoid_rewrite <-(bt_get_elem_iff _ _ _ Hwf).
  destruct (bt_get (ObjectId.to_bytes id) (Database.objects db)); naive_solver.
Qed.

Record scanned l db (n : Z) (rows : list (blob * ObjectRow.t)) st : Prop := {
  sc_objects_wf : bt_wf (objects st);
  sc_promised_wf : bt_wf (promised st);
  sc_quarantined_wf : bt_wf (quarantined st);
  sc_objects : ∀ id o, bt_get id (objects st) = Some o ↔ has_row rows 1 id ∧ loose_read l id = Ok o;
  sc_promised : ∀ id, set_contains id (promised st) = true ↔ has_row rows 2 id;
  sc_quarantined : ∀ id, set_contains id (quarantined st) = true ↔ has_row rows 3 id;
  sc_readable : ∀ id row, addressed id → (ObjectId.to_bytes id, row) ∈ rows → ObjectRow.presence row = 1 →
    ∃ o, loose_read l id = Ok o ∧ described db row o;
  sc_rest : references st = [] ∧ revision st = n }.

Lemma set_insert_contains k x (m : BTreeSet oid) :
  set_contains x (set_insert k m) = bool_decide (x = k) || set_contains x m.
Proof.
  unfold set_contains, set_insert, bt_contains. rewrite bt_get_insert.
  destruct (decide (k = x)) as [->|Hne]; [by rewrite bool_decide_true|].
  rewrite bool_decide_false by congruence. done.
Qed.

Lemma scanned_step l db n rows st id row st' :
  addressed id → scanned l db n rows st → load_object l db st (ObjectId.to_bytes id, row) = Ok st' →
  scanned l db n (rows ++ [(ObjectId.to_bytes id, row)]) st'.
Proof.
  intros Hid [Wo Wp Wq Ho Hp Hq Hr Hrest] Hstep%load_object_Ok; [|done].
  assert (∀ x r, addressed x → (ObjectId.to_bytes x, r) ∈ rows ++ [(ObjectId.to_bytes id, row)] →
    ObjectRow.presence r = 1 → (ObjectRow.presence row = 1 → ∃ o, loose_read l id = Ok o ∧ described db row o) →
    ∃ o, loose_read l x = Ok o ∧ described db r o) as Hlast.
  { intros x r Hx [Hin|[= Heq ->]%list_elem_of_singleton]%elem_of_app Hone; [by eauto|].
    apply to_bytes_addressed_inj in Heq as ->; [|done..]. auto. }
  destruct Hstep as [(o & Hn & Hread & Hd & ->)|[[Hn ->]|[[Hn ->]|[Hn ->]]]];
    (split; cbn; try done; try by apply set_insert_wf);
    try (intros x; rewrite ?set_insert_contains, ?orb_true_iff, ?bool_decide_eq_true, has_row_snoc, ?Hp, ?Hq, Hn by done; naive_solver);
    try (intros x o'; rewrite has_row_snoc, Ho, Hn by done; naive_solver);
    try (intros x r Hx Hin Hone; apply (Hlast x r); [done..|]; rewrite Hn; naive_solver).
  - by apply bt_insert_wf.
  - intros x o'. rewrite has_row_snoc, bt_get_insert, Hn by done. case_decide as Hx.
    + subst x. rewrite Hread. split; [intros [= <-]; auto|by intros [_ [= <-]]].
    + rewrite Ho. split; [tauto|]. intros [[?|[-> _]] ?]; [auto|done].
Qed.

Lemma load_objects_scanned l db n rows st st' :
  (∀ key row, (key, row) ∈ rows → ∃ id, addressed id ∧ key = ObjectId.to_bytes id) →
  scanned l db n [] st → try_fold (load_object l db) rows st = Ok st' → scanned l db n rows st'.
Proof.
  intros Hnamed. apply try_fold_inv. intros done [key row] s1 s2 Hs Hin Hstep.
  destruct (Hnamed key row Hin) as (id & Hid & ->). by eapply scanned_step.
Qed.

Lemma scanned_nil l db n : scanned l db n [] (with_revision n MemoryStore.new).
Proof.
  assert (∀ m id, ¬ has_row [] m id) as Hno by (intros m id (_ & row & Hin & _); by apply not_elem_of_nil in Hin).
  split; cbn; [constructor..| | | | |done].
  - intros id o. split; [done|]. by intros [[]%Hno _].
  - intros id. split; [done|]. by intros []%Hno.
  - intros id. split; [done|]. by intros []%Hno.
  - intros id row _ Hin. by apply not_elem_of_nil in Hin.
Qed.

(** ** References *)

Lemma load_reference_Ok st k row state st' :
  key_ok k → 0 ≤ ReferenceRow.generation row → reference_row row state →
  load_reference st (encode_reference_key k, row) = Ok st' ↔
  st' = with_references (bt_insert k state (references st)) st.
Proof.
  intros Hk Hg (Ht & Hgen & Ho & At & Ao). unfold load_reference.
  pose proof (decode_encode_key k Hk) as Hd. destruct (encode_reference_key k) as [kind stable]. cbn in Hd.
  rewrite Hd, Ht, Ho, !from_to_addressed by done. cbn [map_err mbind result_bind]. unfold from_sql.
  destruct (Z.ltb_spec (ReferenceRow.generation row) 0); [lia|]. cbn. rewrite Hgen.
  destruct state. naive_solver.
Qed.

(** The state that a row describes. *)
Lemma row_state db key row :
  tables_ok db → bt_get key (Database.references db) = Some row →
  ∃ k state, key_ok k ∧ key = encode_reference_key k ∧ reference_row row state.
Proof.
  intros Hdb Hrow. destruct (tb_keys db Hdb key row Hrow) as (_ & k & t & o & Hk & -> & At & Ao & Ht & Ho).
  by exists k, (ReferenceState.mk t (ReferenceRow.generation row) o).
Qed.

Definition referenced (rows : list ((Z * blob) * ReferenceRow.t)) (base st : MemorySnapshot) : Prop :=
  st = with_references (references st) base ∧ bt_wf (references st) ∧
  ∀ k state, bt_get k (references st) = Some state ↔
    key_ok k ∧ ∃ row, (encode_reference_key k, row) ∈ rows ∧ reference_row row state.

Lemma load_references_Ok db base st :
  tables_ok db → references base = [] → try_fold load_reference (Database.references db) base = Ok st →
  referenced (Database.references db) base st.
Proof.
  intros Hdb Hbase. enough (NoDup (bt_keys (Database.references db)) →
    try_fold load_reference (Database.references db) base = Ok st → referenced (Database.references db) base st)
    as Hgen by (apply Hgen, bt_wf_nodup, Hdb).
  assert (∀ e, e ∈ Database.references db → ∃ k state, key_ok k ∧ 0 ≤ ReferenceRow.generation e.2 ∧
    e.1 = encode_reference_key k ∧ reference_row e.2 state) as Hall.
  { intros [key row] Hin%(bt_get_elem_iff _ _ _ (tb_references db Hdb)).
    destruct (tb_keys db Hdb key row Hin) as [Hg _]. destruct (row_state db key row Hdb Hin) as (k & state & ?).
    exists k, state. naive_solver. }
  revert Hall. generalize (Database.references db) as rows. intros rows Hall Hnd Hf.
  enough (NoDup (bt_keys rows) → referenced rows base st) by auto. revert Hf.
  apply (try_fold_inv _ (λ rows st, NoDup (bt_keys rows) → referenced rows base st)).
  - intros done [key row] s1 s2 IH Hin Hstep Hnd'.
    destruct (Hall _ Hin) as (k & state & Hk & Hg & Heq & Hr). cbn in Heq, Hg, Hr. subst key.
    apply (load_reference_Ok s1 k row state s2 Hk Hg Hr) in Hstep as ->.
    unfold bt_keys in Hnd'. rewrite map_app in Hnd'. cbn in Hnd'.
    apply NoDup_app in Hnd' as (Hnd1 & Hfresh & _). destruct (IH Hnd1) as (Hst & Hwf & Hget).
    split_and!; [by rewrite Hst|by apply bt_insert_wf|]. intros k' state'. cbn. rewrite bt_get_insert.
    setoid_rewrite elem_of_app. setoid_rewrite list_elem_of_singleton. case_decide as Hkk.
    + subst k'. split; [intros [= <-]; eauto 6|]. intros (_ & row' & [Hin'|[= ->]] & Hr').
      * exfalso. apply (Hfresh (encode_reference_key k)); [|set_solver]. apply list_elem_of_fmap.
        by exists (encode_reference_key k, row').
      * f_equal. by eapply reference_row_inj.
    + rewrite Hget. split; [naive_solver|]. intros (? & row' & [Hin'|[= Heq ->]] & Hr'); [by eauto|].
      by apply encode_key_inj in Heq.
  - intros _. split_and!; [by destruct base|by rewrite Hbase; constructor|]. rewrite Hbase. intros k state.
    split; [done|]. intros (_ & row & Hin & _). by apply not_elem_of_nil in Hin.
Qed.

(** ** The whole snapshot *)

(** [load_snapshot] before its checks of the references and of the derived tables. *)
Definition load_tables l db : result StoreError.t MemorySnapshot :=
  revision ← from_sql (Database.revision db);
  snapshot ← try_fold (load_object l db) (Database.objects db) (with_revision revision MemoryStore.new);
  try_fold load_reference (Database.references db) snapshot.

Lemma load_snapshot_tables l db :
  load_snapshot l db
  = (s ← load_tables l db;
     _ ← try_for_each (verify_reference s) (references s);
     _ ← verify_derived_indexes db s;
     Ok s).
Proof.
  unfold load_snapshot, load_tables. destruct (from_sql _); cbn; [|done].
  by destruct (try_fold (load_object l db) _ _).
Qed.

Lemma load_tables_loaded l db s : tables_ok db → load_tables l db = Ok s → loaded l db s.
Proof.
  intros Hdb. unfold load_tables. intros (n & [Hn [= <-]]%bail_Ok & (s1 & H1 & H2)%bind_Ok)%bind_Ok.
  apply Z.ltb_ge in Hn. pose proof (tb_objects db Hdb) as Hwf.
  apply (load_objects_scanned _ _ (Database.revision db)) in H1 as [Wo Wp Wq Ho Hp Hq Hr [Hrefs Hrev]].
  2: { intros key row Hin. apply (tb_named db Hdb key row), bt_get_elem_iff; done. }
  2: apply scanned_nil.
  apply load_references_Ok in H2 as (Hst & Wr & Hget); [|done..]. rewrite Hst.
  split; cbn; try done.
  - intros id o. rewrite Ho, has_row_presence by done. tauto.
  - intros id. by rewrite Hp, has_row_presence.
  - intros id. by rewrite Hq, has_row_presence.
  - intros id row Hid Hrow Hone. apply Hr; [done| |done]. by apply bt_get_elem_iff.
  - intros k state. rewrite Hget. by setoid_rewrite (bt_get_elem_iff _ _ _ (tb_references db Hdb)).
Qed.

Lemma try_fold_progress {E A S} (f : S → A → result E S) xs (s : S) :
  (∀ x st, x ∈ xs → is_Some (ok (f st x))) → ∃ s' : S, try_fold f xs s = Ok s'.
Proof.
  revert s. induction xs as [|x xs IH]; intros s Hf; cbn; [by eauto|].
  destruct (Hf x s) as [s' Hs']; [by left|]. destruct (f s x); [|done]. apply IH. intros y st Hy. apply Hf. by right.
Qed.

Lemma loaded_tables l db s : tables_ok db → loaded l db s → load_tables l db = Ok s.
Proof.
  intros Hdb Hl. enough (∃ s', load_tables l db = Ok s') as [s' Hs'].
  { rewrite Hs'. f_equal. eapply loaded_unique; [by apply load_tables_loaded|done]. }
  unfold load_tables, from_sql. destruct (ld_revision _ _ _ Hl) as [_ Hn]. apply Z.ltb_ge in Hn as ->.
  cbn [mbind result_bind].
  destruct (try_fold_progress (load_object l db) (Database.objects db)
    (with_revision (Database.revision db) MemoryStore.new)) as [s1 H1].
  { intros [key row] st Hin%(bt_get_elem_iff _ _ _ (tb_objects db Hdb)).
    destruct (tb_named db Hdb key row Hin) as (id & Hid & ->).
    destruct (tb_presence db Hdb _ row Hin) as [Hp _].
    assert (ObjectRow.presence row = 1 ∨ ObjectRow.presence row = 2 ∨ ObjectRow.presence row = 3) as Hcases
      by set_solver.
    destruct Hcases as [Hone|Hcases].
    - destruct (ld_readable _ _ _ Hl id row Hid Hin Hone) as (o & Ho & Hd).
      by eapply load_object_readable.
    - unfold load_object. rewrite (from_to_addressed id Hid). cbn [map_err mbind result_bind].
      destruct Hcases as [->| ->]; done. }
  rewrite H1. cbn [mbind result_bind]. apply try_fold_progress.
  intros [key row] st Hin%(bt_get_elem_iff _ _ _ (tb_references db Hdb)).
  destruct (row_state db key row Hdb Hin) as (k & state & Hk & -> & Hr).
  destruct (tb_keys db Hdb _ row Hin) as [Hg _].
  by rewrite (proj2 (load_reference_Ok st k row state _ Hk Hg Hr) eq_refl).
Qed.

Lemma load_snapshot_Ok l db s :
  tables_ok db → load_snapshot l db = Ok s →
  loaded l db s ∧ try_for_each (verify_reference s) (references s) = Ok tt ∧
  verify_derived_indexes db s = Ok tt.
Proof.
  intros Hdb. rewrite load_snapshot_tables. intros (s1 & H1 & ([] & H2 & ([] & H3 & [= <-])%bind_Ok)%bind_Ok)%bind_Ok.
  split; [by apply load_tables_loaded|done].
Qed.

Lemma loaded_snapshot l db s :
  tables_ok db → loaded l db s → verify_derived_indexes db s = Ok tt →
  load_snapshot l db = (_ ← try_for_each (verify_reference s) (references s); Ok s).
Proof.
  intros Hdb Hl Hd. rewrite load_snapshot_tables, (loaded_tables l db s) by done. cbn [mbind result_bind].
  by rewrite Hd.
Qed.
End load.
