(* ===== verification/SqliteLoose.v ===== *)
(** * The durable store over the loose-object store

    [LooseObjectStore], run on a system with other processes, failing calls and interruptions,
    keeps what the durable store asks of its loose store ([LooseLaws]): whatever a [put] meets,
    it never gets stuck, and every object that could be read stays readable. *)

From stdpp Require Import gmap.
From S2P Require Import Prelude Machine Order Utf8 Canonical ObjectId Types Objects Decode DecodeFacts Storable ObjectSpec StoreModel MemoryStore FileTree LooseFrame LoosePlatform LooseStore LooseFacts LooseRuns LooseReturns LoosePut LooseSpec SqliteIndex SqliteLoad.
Import World LooseStoreError LooseObjectStore.

(** ** Operations that never get stuck *)

Definition unstuck {A} (m : lio A) : Prop := ∀ s, (m s).1 ≠ Err Stuck.

Create HintDb unstuck.

Section unstuck.
Context `{Unicode, Digests, System}.

Lemma unstuck_ret {A} (a : A) : unstuck (ret a).
Proof. done. Qed.
Lemma unstuck_raise {A} e : unstuck (@raise (option nat) lerr State.t A e).
Proof. done. Qed.
Lemma unstuck_pure {A} (r : result lerr A) : unstuck (pure_result r).
Proof. intros s. by destruct r. Qed.
Lemma unstuck_bind {A B} (m : lio A) (f : A → lio B) : unstuck m → (∀ a, unstuck (f a)) → unstuck (io_bind m f).
Proof.
  intros Hm Hf s. unfold io_bind. specialize (Hm s). destruct (m s) as [[a|e] s']; [apply Hf|]. cbn in *. congruence.
Qed.
Lemma unstuck_attempt {A} (m : lio A) : unstuck m → unstuck (attempt m).
Proof. intros Hm s. unfold attempt. specialize (Hm s). by destruct (m s) as [[|[]] ?]. Qed.
Lemma unstuck_call {A} (f : world → result ErrorKind.t (A * world)) : unstuck (call f).
Proof.
  intros [s fuse]. unfold call. destruct fuse as [[|n]|]; [done|..];
    (destruct (denies _); [done|]; by destruct (f _) as [[]|]).
Qed.
Lemma unstuck_at_tick {A} (m : nat → lio A) : (∀ n, unstuck (m n)) → unstuck (at_tick m).
Proof. intros Hm [s fuse]. apply Hm. Qed.
Lemma unstuck_store_incident b : unstuck (store_incident b).
Proof. by intros []. Qed.
Lemma unstuck_load_incident : unstuck load_incident.
Proof. by intros []. Qed.
End unstuck.

#[export] Hint Resolve unstuck_ret unstuck_raise unstuck_pure unstuck_call unstuck_store_incident unstuck_load_incident : unstuck.

(** Following the program: the steps of a sequence, the branches of a decision. *)
Ltac unstuck_step :=
  first
    [ solve [eauto with unstuck]
    | apply unstuck_bind; [|intros]
    | apply unstuck_attempt
    | apply unstuck_at_tick; intros
    | match goal with |- unstuck (match ?x with _ => _ end) => destruct x end ].
Ltac unstuck_run := repeat unstuck_step.

(** A run sees no more interrupted writes than [retries]. *)
Definition interruptions `{System} (from n : nat) : nat :=
  length (filter (λ k, denies k = Some ErrorKind.Interrupted) (seq from n)).

Class Bounded `{System} : Prop := bounded from n : (interruptions from n ≤ retries)%nat.

Section puts.
Context `{Unicode, Digests, System, !Bounded}.

Lemma write_loop_unstuck fuel i bytes s fuse :
  (∀ n, interruptions (State.ticks s) n + length bytes ≤ fuel)%nat → (write_loop fuel i bytes (s, fuse)).1 ≠ Err Stuck.
Proof.
  revert bytes s fuse. induction fuel as [|fuel IH]; intros [|b bytes] s fuse Hfuel; try done.
  { specialize (Hfuel 0%nat). cbn in Hfuel. lia. }
  cbn [write_loop]. unfold io_bind at 1, write, at_tick, call.
  set (t := State.ticks s) in *.
  assert (∀ n, interruptions t (S n) = (if decide (denies t = Some ErrorKind.Interrupted) then 1 else 0) + interruptions (S t) n)%nat as Hstep.
  { intros n. unfold interruptions. cbn [seq]. rewrite filter_cons. by case_decide. }
  assert (∀ (s' : State.t) (rest : list Z) fuse', State.ticks s' = S t →
    ((if decide (denies t = Some ErrorKind.Interrupted) then 0 else 1) + length rest ≤ length (b :: bytes))%nat →
    (write_loop fuel i rest (s', fuse')).1 ≠ Err Stuck) as Hnext.
  { intros s' rest fuse' Ht Hl. apply IH. intros n. specialize (Hfuel (S n)). rewrite Hstep in Hfuel.
    rewrite Ht. case_decide; lia. }
  destruct fuse as [[|n]|]; [done|..].
  all: destruct (denies t) as [e|] eqn:Hden; [destruct e; try done; apply Hnext; [done|by rewrite decide_True]|].
  all: destruct (Nat.min (accepts t) (length (b :: bytes))) as [|k] eqn:Hmin; [done|].
  all: cbn [fst snd]; change (Z.of_nat (S k)) with (Z.pos (Pos.of_succ_nat k)); cbn iota.
  all: apply Hnext; [done|]; rewrite decide_False by done; rewrite length_skipn; cbn [length] in *; lia.
Qed.

Lemma write_complete_unstuck i bytes : unstuck (write_complete i bytes).
Proof.
  intros [s fuse]. apply write_loop_unstuck. intros n. pose proof (bounded (State.ticks s) n). lia.
Qed.
Hint Resolve write_complete_unstuck : unstuck.

Lemma create_temporary_unstuck attempts self : unstuck (create_temporary_loop attempts self).
Proof. induction attempts; cbn [create_temporary_loop]; unstuck_run. Qed.
Lemma quarantine_unstuck attempts self name : unstuck (quarantine_loop attempts self name).
Proof. induction attempts; cbn [quarantine_loop]; unstuck_run. Qed.
Lemma create_fanout_unstuck current components : unstuck (create_fanout_loop current components).
Proof. revert current. induction components; intros current; cbn [create_fanout_loop]; unstuck_run. Qed.
Hint Resolve create_temporary_unstuck quarantine_unstuck create_fanout_unstuck : unstuck.

Lemma verify_unstuck i id p : unstuck (verify_open_file i id p).
Proof. unfold verify_open_file. unstuck_run. Qed.
Lemma open_regular_unstuck parent name op : unstuck (open_regular_at parent name op).
Proof. unfold open_regular_at. unstuck_run. Qed.
Lemma persist_incident_unstuck self : unstuck (persist_incident self).
Proof. unfold persist_incident, persist_marker. unstuck_run. Qed.
Hint Resolve verify_unstuck open_regular_unstuck persist_incident_unstuck : unstuck.

Lemma resolve_existing_unstuck self id frame name i parent final : unstuck (resolve_existing self id frame name i parent final).
Proof. unfold resolve_existing, existing_matches, quarantine_candidate. unstuck_run. Qed.
Lemma confirm_unstuck self identity parent final : unstuck (confirm_publication self identity parent final).
Proof. unfold confirm_publication, injected, same_file. unstuck_run. Qed.
Hint Resolve resolve_existing_unstuck confirm_unstuck : unstuck.

(** A [put] always ends: it returns, raises an error, or is cut off. *)
Lemma put_unstuck self id payload : unstuck (put self id payload).
Proof.
  unfold put, publish_temporary, injected, create_temporary, create_fanout. unstuck_run.
Qed.
End puts.

(** ** Reading an undisturbed disk *)

(** The process of a system, on its own and without failures. *)
Definition undisturbed_system (S : System) : System := {|
  process := @process S; interfere := λ _ w, w; denies := λ _, None; accepts := λ _, 1%nat;
  random := @random S; directory_device := @directory_device S; file_device := @file_device S;
  check := λ _, Ok tt; retries := 0 |}.

#[global] Instance undisturbed_answers S : @Answers (undisturbed_system S).
Proof. split; cbn; [done|done|lia]. Qed.
#[global] Instance undisturbed_system_alone S : @Alone (undisturbed_system S).
Proof. done. Qed.

(** What an operation finds on the disk. *)
Definition observe {A} (m : lio A) (s : State.t) : result lerr A :=
  match (m (s, None)).1 with
  | Ok a => Ok a
  | Err (Raised e) => Err e
  | Err _ => Err Unavailable
  end.

Section observing.
Context `{System, !Answers, !Alone}.

Lemma look_here {A} (f : world → result ErrorKind.t A) w t :
  look f (State.mk w t, None) = (Ok (f w), (State.mk w (S t), None)).
Proof. unfold look, call. rewrite answers_calls, alone. cbn. by destruct (f w). Qed.

(** Operations that leave the disk alone, and what a result tells about it. *)
Definition finds {A} (w : world) (m : lio A) (Q : A → Prop) : Prop :=
  ∀ t a st, m (State.mk w t, None) = (Ok a, st) → (∃ t', st = (State.mk w t', None)) ∧ Q a.

Lemma finds_ret {A} w (a : A) Q : Q a → finds w (ret a) Q.
Proof. intros HQ t b st [= <- <-]. eauto. Qed.
Lemma finds_raise {A} w e (Q : A → Prop) : finds w (raise e) Q.
Proof. by intros t b st [=]. Qed.
Lemma finds_pure {A} w (r : result lerr A) (Q : A → Prop) : (∀ a, r = Ok a → Q a) → finds w (pure_result r) Q.
Proof. intros HQ t a st. unfold pure_result, inspect. destruct r; cbn; [|done]. intros [= <- <-]. eauto. Qed.
Lemma finds_bind {A B} w (m : lio A) (f : A → lio B) R Q :
  finds w m R → (∀ a, R a → finds w (f a) Q) → finds w (io_bind m f) Q.
Proof.
  intros Hm Hf t b st. unfold io_bind. destruct (m _) as [[a|e] st1] eqn:He; [|done].
  apply Hm in He as [[t' ->] HR]. by apply Hf.
Qed.
Lemma finds_look {A} w op (f : world → result ErrorKind.t A) (Q : A → Prop) :
  (∀ a, f w = Ok a → Q a) → finds w (or_io op (look f)) Q.
Proof.
  intros HQ t a st. unfold or_io, io_bind. rewrite look_here. cbn. destruct (f w); cbn; [|done].
  intros [= <- <-]. eauto.
Qed.
Lemma finds_map_err {A} w g (m : lio A) Q : finds w m Q → finds w (io_map_err g m) Q.
Proof.
  intros Hm t a st. unfold io_map_err, io_bind, attempt. specialize (Hm t).
  destruct (m _) as [[b|[]] st1] eqn:He; cbn; try done. intros [= <- <-]. by apply Hm.
Qed.
End observing.

Section reading.
Context `{Unicode, DigestLaws, System, !Answers, !Alone} (self : LooseObjectStore.t).

Lemma finds_fanout w current components :
  finds w (open_fanout_loop current components) (λ d, d = current ++ components).
Proof.
  revert current. induction components as [|c components IH]; intros current; cbn [open_fanout_loop].
  { apply finds_ret. by rewrite app_nil_r. }
  eapply finds_bind with (R := λ d, d = current ++ [c]).
  { apply finds_look. intros d. by destruct (entry_at _ _) as [[]|]; intros [=]. }
  intros d ->. intros t a st Ha. apply IH in Ha as [Hst ->]. by rewrite <-app_assoc.
Qed.

(** What is published in bytes. *)
Definition records_bytes (w : world) : Prop :=
  ∀ p i content, loose self `prefix_of` p → names w !! p = Some (Regular i) →
    files w !! i = Some content → is_bytes content = true.

(** An object that is read is published. *)
Lemma finds_open_record w id : world_ok w → records_bytes w →
  finds w (open_record self id) (λ r,
    (∃ i, holds self w id (VerifiedRecord.payload r) i) ∧
    AnyObject.decode_verified (VerifiedRecord.payload r) id bulk = Ok (VerifiedRecord.object r)).
Proof.
  intros Hok Hbytes. unfold open_record, open_fanout. pose proof (object_path_walk self id) as Hwalk.
  pose proof (object_path_loose self id) as Hloose.
  destruct (path_components id) as [components name] eqn:Hpc.
  eapply finds_bind with (R := λ r, r = (loose self ++ components, name)).
  { apply finds_map_err. eapply finds_bind with (R := λ d, d = loose self).
    { apply finds_look. congruence. }
    intros d ->. eapply finds_bind; [apply finds_fanout|]. intros d ->. by apply finds_ret. }
  intros [d n] [= -> ->].
  eapply finds_bind with (R := λ i, names w !! object_path self id = Some (Regular i)).
  { apply finds_map_err. unfold open_regular_at. eapply finds_bind with (R := λ h, ∀ i, h = HFile i → names w !! object_path self id = Some (Regular i)).
    { apply finds_look. intros h. rewrite entry_at_snoc, <-Hwalk.
      destruct (names w !! _) as [[]|]; intros [= <-] j; congruence. }
    intros [i|] Hi; [|eapply finds_bind; [by apply (finds_look _ _ _ (λ _, True))|intros; apply finds_raise]].
    eapply finds_bind; [by apply (finds_look _ _ _ (λ _, True))|]. intros [length links] _. cbn beta iota.
    destruct (negb _); [apply finds_raise|]. apply finds_ret. auto. }
  intros i Hi. destruct (proj1 Hok _ _ Hi) as [content Hc]. pose proof (Hbytes _ _ _ Hloose Hi Hc) as Hb.
  unfold verify_open_file.
  eapply finds_bind with (R := λ r, r = (len content, nlink w i)).
  { apply finds_look. rewrite Hc. cbn. congruence. }
  intros r ->. cbn beta iota. destruct (Z.ltb_spec ABSOLUTE_RECORD_MAX (len content)) as [|Hmax]; [apply finds_raise|].
  destruct (negb _) eqn:Hone; [apply finds_raise|].
  apply negb_false_iff, bool_decide_eq_true, (nlink_one w (object_path self id)) in Hone; [|done].
  eapply finds_bind; [by apply (finds_look _ _ _ (λ _, True))|]. intros _ _.
  eapply finds_bind with (R := λ c, c = content).
  { apply finds_map_err, finds_look. rewrite Hc. cbn. congruence. }
  intros c ->. apply finds_pure. intros r Hr. apply parse_iff in Hr as (id' & Hid & [[=]|[= <-]] & _ & Hdec & Henc);
    [|done|unfold u64_max, ABSOLUTE_RECORD_MAX in *; lia].
  split; [|done]. exists i, (VerifiedRecord.object r), content. split_and!; try done.
  by eapply encode_frame_payload.
Qed.

Lemma observe_Ok {A} (m : lio A) s a : observe m s = Ok a → ∃ st, m (s, None) = (Ok a, st).
Proof. unfold observe. destruct (m (s, None)) as [[b|[]] st]; cbn; intros [= <-]. by eexists. Qed.

Lemma finds_read w id : world_ok w → records_bytes w →
  finds w (read_object_audited self id) (λ o,
    (∃ i, holds self w id (StoredObject.bytes o) i) ∧ decode id (StoredObject.bytes o) = Ok o).
Proof.
  intros Hok Hb. eapply finds_bind; [by apply finds_open_record|]. intros r [Hh Hdec].
  apply finds_pure. intros o Ho%map_err_Ok. pose proof Ho as Ho'. apply bind_Ok in Ho' as (refs & _ & [= Heq]).
  assert (StoredObject.bytes o = VerifiedRecord.payload r) as -> by by rewrite <-Heq.
  split; [done|]. unfold decode. apply bind_Ok. exists (VerifiedRecord.object r).
  split; by apply map_err_Ok.
Qed.

(** An object that is published is read. *)
Lemma read_published w t id o i : world_ok w →
  holds self w id (StoredObject.bytes o) i → decode id (StoredObject.bytes o) = Ok o →
  observe (read_object_audited self id) (State.mk w t) = Ok o.
Proof.
  intros Hok (a & frame & Hid & Hb & Hfb & Hdec & Henc & [[_ Hn] Hf])%holds_framed Ho.
  destruct (returns_open_record self id (StoredObject.bytes o) a frame i (λ w', w' = w)) with (w := w) (ticks := t)
    as (r & w' & t' & Hr & _ & -> & ->); try done; [by intros w' _ ->|].
  unfold decode in Ho. rewrite Hdec in Ho. apply map_err_Ok in Ho. unfold observe, read_object_audited, io_bind.
  rewrite Hr. cbn. by rewrite Ho.
Qed.

Lemma extends_records w w' : extends self w w' → records_bytes w → records_bytes w'.
Proof.
  intros He Hb p i content Hp Hi Hc. destruct (names w !! p) as [e|] eqn:Hw.
  - pose proof (ext_loose _ _ _ He p e Hp Hw) as Hi'. rewrite Hi in Hi'. injection Hi' as <-.
    destruct (ext_files _ _ _ He p i Hp Hw) as [Hf _]. rewrite Hf in Hc. by eapply Hb.
  - destruct (ext_new _ _ _ He p _ Hp Hw Hi) as [?|(j & [= <-] & id & payload & _ & Hh)]; [done|].
    apply holds_framed in Hh as (o & frame & _ & _ & Hfb & _ & _ & [_ Hf]). rewrite Hc in Hf. by injection Hf as ->.
Qed.
End reading.

(** ** The instance *)

Section instance.
Context `{Unicode, DigestLaws} (S : System) (control : path).
Let self := layout control.
Let reader := undisturbed_system S.

(** The loose store of a repository: [put] meets the system, and a read sees what the disk holds. *)
Definition loose_object_store : LooseObjects State.t := {|
  loose_put := @put _ _ S self;
  loose_read := λ s id, observe (@read_object_audited _ _ reader self id) s;
  loose_length := λ s id,
    match names (State.world s) !! object_path self id with
    | Some (Regular i) => len <$> files (State.world s) !! i
    | _ => None
    end |}.

Context `{!@Bounded S, !@Others _ _ S self}.

(** The loose store keeps what the durable store relies on. *)
Definition loose_object_laws : @LooseLaws State.t _ _ loose_object_store.
Proof.
  refine (@Build_LooseLaws _ _ _ loose_object_store
    (λ s, world_ok (State.world s) ∧ records_bytes self (State.world s)) _ _).
  - intros [w t] id o [Hok Hb] [st Hr]%observe_Ok.
    apply (@finds_read _ _ _ reader) in Hr as [_ [_ Hdec]]; [done|apply _..|done|done].
  - intros id bytes [w t] fuse r [w' t'] fuse' [Hok Hb] Hbytes Hput.
    assert (r ≠ Err Stuck) as Hns.
    { intros ->. pose proof (@put_unstuck _ _ S _ self id bytes (State.mk w t, fuse)) as Hu.
      change (loose_put id bytes (State.mk w t, fuse)) with (@put _ _ S self id bytes (State.mk w t, fuse)) in Hput.
      by rewrite Hput in Hu. }
    assert (extends self w w' ∧ world_ok w') as [He Hok'].
    { assert (@good _ _ S self w w) as Hg by (split; [apply rtc_refl|done]).
      pose proof (@triple_put _ _ _ S self _ w (layout_apart control) id bytes Hbytes w Hg I t fuse) as Ht.
      change (loose_put id bytes (State.mk w t, fuse)) with (@put _ _ S self id bytes (State.mk w t, fuse)) in Hput.
      rewrite Hput in Ht. destruct r; destruct Ht as [[Hm Hw] _]; split; try done; by eapply moves_extends. }
    split_and!; [done|done|by eapply extends_records|].
    intros x o [st Hr]%observe_Ok. apply (@finds_read _ _ _ reader) in Hr as [_ [[i Hh] Hdec]]; [|apply _..|done|done].
    eapply (@read_published _ _ _ reader); [apply _..|done|by eapply extends_holds|done].
Defined.
End instance.
