(* ===== verification/SqliteUpdate.v ===== *)
(** * Changing the metadata

    Each transaction turns tables that hold a snapshot into tables that hold the snapshot the
    in-memory store has staged. *)

From S2P Require Import Prelude Machine Order Utf8 Canonical ObjectId Types Objects Fields Decode References EdgeRoles Explore Traverse StoreModel MemoryStore MemoryFacts StoreInv StoreSteps FileTree LooseFrame LooseStore EdgeTargets SqlSchema SqliteIndex SqliteFacts SqliteDerived SqliteLoad SqliteStore.

(** ** Promises *)

Section promises.
Context `{Unicode, Digests}.
Implicit Types (s : MemorySnapshot) (o : StoredObject.t).

(** [x] is not known at all. *)
Definition unknown s (x : oid) : bool :=
  negb (bt_contains x (objects s)) && negb (set_contains x (quarantined s)).
Definition names_edge (edges : list ReferenceEdge) (x : oid) : bool := bool_decide (x ∈ map edge_id edges).

Definition promised_only s s' : Prop := s' = with_promised (promised s') s.

Lemma promise_spec s e :
  bt_wf (promised s) →
  promised_only s (promise s e) ∧ bt_wf (promised (promise s e)) ∧
  ∀ x, set_contains x (promised (promise s e))
    = set_contains x (promised s) || (bool_decide (x = edge_id e) && unknown s x).
Proof.
  intros Hwf. unfold promise, unknown, promised_only.
  destruct (negb _ && negb _ && negb _) eqn:Hc; cbn; split_and!; try done; [by apply set_insert_wf| |by destruct s|].
  - intros x. rewrite set_insert_contains. apply andb_true_iff in Hc as [[H1 H2]%andb_true_iff _].
    case_bool_decide as Hx; [subst; rewrite H1, H2; by rewrite orb_true_r|].
    by rewrite orb_false_r.
  - intros x. case_bool_decide as Hx; cbn; [subst|by rewrite orb_false_r].
    revert Hc. destruct (set_contains (edge_id e) (promised s)); [done|].
    cbn [negb orb]. rewrite andb_true_r. by intros ->.
Qed.

Lemma promises_spec edges s :
  bt_wf (promised s) →
  promised_only s (fold_left promise edges s) ∧ bt_wf (promised (fold_left promise edges s)) ∧
  ∀ x, set_contains x (promised (fold_left promise edges s))
    = set_contains x (promised s) || (names_edge edges x && unknown s x).
Proof.
  revert s. induction edges as [|e edges IH]; intros s Hwf; cbn [fold_left].
  { split_and!; [by destruct s|done|]. intros x. by rewrite orb_false_r. }
  destruct (promise_spec s e Hwf) as (Hs & Hwf' & Hget). destruct (IH _ Hwf') as (Hs2 & Hwf2 & Hget2).
  unfold promised_only in *. split_and!; [by rewrite Hs2, Hs|done|]. intros x.
  rewrite Hget2, Hget. assert (unknown (promise s e) x = unknown s x) as -> by (by rewrite Hs).
  unfold names_edge. cbn [map]. rewrite <-orb_assoc, <-andb_orb_distrib_l. do 2 f_equal.
  rewrite <-bool_decide_or. apply bool_decide_ext. by rewrite elem_of_cons.
Qed.

(** Storing an object and promising what it names. *)
Definition absorb s o : MemorySnapshot :=
  add_edge_promises (store_object (StoredObject.id o) o s) o.

Lemma absorb_spec s o :
  bt_wf (promised s) →
  objects (absorb s o) = bt_insert (StoredObject.id o) o (objects s) ∧
  quarantined (absorb s o) = quarantined s ∧ references (absorb s o) = references s ∧
  revision (absorb s o) = revision s ∧ bt_wf (promised (absorb s o)) ∧
  ∀ x, set_contains x (promised (absorb s o))
    = negb (bool_decide (x = StoredObject.id o))
      && (set_contains x (promised s) || (names_edge (StoredObject.references o) x && unknown s x)).
Proof.
  intros Hwf. unfold absorb, add_edge_promises.
  destruct (promises_spec (StoredObject.references o) (store_object (StoredObject.id o) o s))
    as (Hs & Hwf' & Hget); [by apply bt_remove_wf|].
  unfold promised_only in Hs. split_and!; try (rewrite Hs; done); try done.
  intros x. rewrite Hget. cbn [promised store_object with_promised with_objects].
  rewrite set_contains_remove by done. unfold unknown. cbn [objects quarantined store_object with_promised with_objects].
  unfold bt_contains at 1. rewrite bt_get_insert. case_bool_decide as Hx; cbn [negb andb].
  - subst x. rewrite decide_True by done. cbn. by rewrite andb_false_r.
  - rewrite decide_False by congruence. done.
Qed.

(** Promises do not change the history of what is stored. *)
Lemma traverse_ok {X K V E} `{Ord K} (f g : X → result E (K * V * list X)) fuel found pending :
  (∀ x, ok (f x) = ok (g x)) → ok (traverse f fuel found pending) = ok (traverse g fuel found pending).
Proof.
  intros Hfg. revert found pending. induction fuel as [|fuel IH]; intros found [|x pending]; cbn; try done.
  specialize (Hfg x). destruct (f x) as [[[k v] next]|], (g x) as [[[k' v'] next']|]; cbn in *; try done.
  injection Hfg as -> -> ->. apply IH.
Qed.

Lemma visible_promised p s x : ok (visible_object (with_promised p s) x) = ok (visible_object s x).
Proof.
  unfold visible_object. cbn. destruct (set_contains x (quarantined s)); [done|]. cbn.
  destruct (bt_get x (objects s)); [done|]. by repeat case_match.
Qed.

Lemma ok_bind {E A B} (r r' : result E A) (k : A → result E B) : ok r = ok r' → ok (a ← r; k a) = ok (a ← r'; k a).
Proof. destruct r, r'; cbn; intros [=]; by subst. Qed.

Lemma generation_promised p n s x :
  generation_of (with_revision n (with_promised p s)) x = generation_of s x.
Proof.
  unfold generation_of, generation, bind, state_ref, attempt. cbn.
  pose proof (visible_promised p s x) as Hv.
  change (visible_object (with_revision n (with_promised p s)) x) with (visible_object (with_promised p s) x).
  destruct (visible_object (with_promised p s) x) as [o|], (visible_object s x) as [o'|]; cbn in *; try done.
  injection Hv as ->.
  assert (ok (ancestry_closure (with_revision n (with_promised p s)) [x] (StoredObject.kind o'))
    = ok (ancestry_closure s [x] (StoredObject.kind o'))) as Ha.
  { unfold ancestry_closure. destruct (parent_role _) as [role|]; [|done]. apply (traverse_ok _ _ _ _ _). intros y.
    apply ok_bind, (visible_promised p s). }
  destruct (ancestry_closure (with_revision n (with_promised p s)) [x] (StoredObject.kind o')) as [c|],
    (ancestry_closure s [x] (StoredObject.kind o')) as [c'|]; cbn in *; try done. injection Ha as ->.
  by destruct (graph c' (StoredObject.kind o')).
Qed.

Lemma derived_promised p n db s :
  verify_derived_indexes db (with_revision n (with_promised p s)) = verify_derived_indexes db s.
Proof.
  assert (∀ o, object_indexes (with_revision n (with_promised p s)) o = object_indexes s o) as Ho.
  { intros o. unfold object_indexes, history_of. rewrite generation_promised.
    assert (∀ rows : list (blob_integer_blob * oid),
      List.filter (λ '(_, parent), bool_decide (is_Some (generation_of (with_revision n (with_promised p s)) parent))) rows
      = List.filter (λ '(_, parent), bool_decide (is_Some (generation_of s parent))) rows) as Hf.
    { intros rows. apply List.filter_ext. intros [_ parent]. by rewrite generation_promised. }
    repeat (case_match || f_equal); try done; unfold mbind, result_bind; repeat case_match; try done; by rewrite Hf. }
  assert (expected_indexes (with_revision n (with_promised p s)) = expected_indexes s) as He.
  { unfold expected_indexes. cbn [objects with_revision with_promised].
    generalize (mk_indexes [] [] [] []). induction (bt_values (objects s)) as [|o os IH]; intros acc; [done|].
    cbn [try_fold]. assert (push_indexes (with_revision n (with_promised p s)) acc o = push_indexes s acc o) as ->
      by (unfold push_indexes; by rewrite Ho).
    destruct (push_indexes s acc o); [|done]. apply IH. }
  unfold verify_derived_indexes. by rewrite He.
Qed.
End promises.

(** ** Tables *)

Lemma targeted_names edges x :
  Forall (λ e, addressed (edge_id e)) edges → addressed x →
  targeted edges (ObjectId.to_bytes x) = names_edge edges x.
Proof.
  rewrite Forall_forall. intros Hall Hx. unfold targeted, targets, names_edge. apply bool_decide_ext. split.
  - intros (e & Heq & He)%list_elem_of_fmap. apply list_elem_of_fmap. exists e. split; [|done].
    apply to_bytes_addressed_inj; auto.
  - intros (e & -> & He)%list_elem_of_fmap. apply list_elem_of_fmap. by exists e.
Qed.

(** Rows that agree on everything but the derived tables, the revision and the incidents. *)
Record same_rows (db db' : Database.t) : Prop := {
  sr_objects : Database.objects db' = Database.objects db;
  sr_locations : Database.object_locations db' = Database.object_locations db;
  sr_edges : Database.object_edges db' = Database.object_edges db;
  sr_references : Database.references db' = Database.references db;
  sr_incident : Database.incident_read_only db' = 0 → Database.incident_read_only db = 0 }.

Lemma same_rows_tables db db' : same_rows db db' → tables_ok db → tables_ok db'.
Proof.
  intros [Ho Hl He Hr Hi] [Wo We Wr Hord Hnamed Hpres Hkeys]. split.
  - by rewrite Ho.
  - by rewrite He.
  - by rewrite Hr.
  - unfold edges_of. rewrite He. exact Hord.
  - by rewrite Ho.
  - rewrite Ho. intros key row Hrow. destruct (Hpres key row Hrow) as [? Hn]. auto.
  - by rewrite Hr.
Qed.

Section update.
Context `{Unicode, Digests} {L : Type} `{!LooseObjects L, !LooseLaws L}.
Implicit Types (l : L) (db : Database.t) (s : MemorySnapshot) (o : StoredObject.t).

Lemma same_rows_indexes db db' o :
  same_rows db db' → verify_object_indexes db' o = verify_object_indexes db o.
Proof.
  intros [Ho Hl He Hr Hi]. unfold verify_object_indexes, active_location, edges_of. by rewrite Hl, He.
Qed.

Lemma same_rows_loaded l db db' s n :
  same_rows db db' → loaded l db s → n = Database.revision db' → 0 ≤ n → loaded l db' (with_revision n s).
Proof.
  intros Hsame Hl -> Hn. pose proof (λ o, same_rows_indexes db db' o Hsame) as Hix.
  destruct Hsame as [Ho _ _ Hr _]. destruct Hl as [Wo Wp Wq Wr Hobj Hprom Hquar Hread Href _].
  assert (∀ id, row_of db' id = row_of db id) as Hrow by (intros id; unfold row_of; by rewrite Ho).
  assert (∀ id, presence_of db' id = presence_of db id) as Hpres by (intros id; unfold presence_of; by rewrite Hrow).
  split; cbn; try done.
  - intros id o. by rewrite Hpres, Hobj.
  - intros id. by rewrite Hpres, Hprom.
  - intros id. by rewrite Hpres, Hquar.
  - intros id row Hid. rewrite Hrow. intros Hr1 Hone. destruct (Hread id row Hid Hr1 Hone) as (o & ? & [? ? ? Hv]).
    exists o. split; [done|]. split; [done..|]. by rewrite Hix.
  - intros k state. by rewrite Hr, Href.
Qed.

Lemma loaded_keeps l l' db s :
  (∀ x o, loose_read l x = Ok o → loose_read l' x = Ok o) → loaded l db s → loaded l' db s.
Proof.
  intros Hkeep [Wo Wp Wq Wr Hobj Hprom Hquar Hread Href Hrev]. split; try done.
  - intros id o. rewrite Hobj. split; [naive_solver|]. intros (Hid & Hp & Ho). split_and!; [done..|].
    unfold presence_of in Hp. destruct (row_of db id) as [row|] eqn:Hrow; [|done]. injection Hp as Hp.
    destruct (Hread id row Hid Hrow Hp) as (o' & Ho' & _). pose proof (Hkeep _ _ Ho'). congruence.
  - intros id row Hid Hrow Hone. destruct (Hread id row Hid Hrow Hone) as (o & Ho & Hd). eauto.
Qed.

(** ** Indexing *)

Lemma indexed_presence db o n db' x :
  indexed db o n db' → Forall (λ e, addressed (edge_id e)) (StoredObject.references o) →
  addressed (StoredObject.id o) → addressed x →
  presence_of db' x
  = if bool_decide (x = StoredObject.id o) then Some 1
    else match presence_of db x with
         | Some p => Some p
         | None => if names_edge (StoredObject.references o) x then Some 2 else None
         end.
Proof.
  intros Hix Hedges Hid Hx. unfold presence_of, row_of. case_bool_decide as Heq.
  - subst x. destruct (ix_self _ _ _ _ Hix) as (row & -> & Hp & _). cbn. by rewrite Hp.
  - assert (ObjectId.to_bytes x ≠ ObjectId.to_bytes (StoredObject.id o)) as Hne.
    { intros Hb. by apply to_bytes_addressed_inj in Hb. }
    pose proof (ix_other _ _ _ _ Hix _ Hne) as Hn. rewrite targeted_names in Hn by done.
    destruct (bt_get _ (Database.objects db)) as [r|]; cbn in *.
    + by destruct Hn as (k & -> & _).
    + destruct (names_edge _ x); [|by rewrite Hn]. destruct Hn as (r & -> & Hr). cbn. by rewrite Hr.
Qed.

Lemma edge_rows_bound n edges m row :
  (m, row) ∈ edge_rows n edges → n ≤ m < n + len edges.
Proof.
  revert n. induction edges as [|e edges IH]; intros n; cbn [edge_rows]; [by intros ?%not_elem_of_nil|].
  rewrite len_cons. pose proof (len_nonneg edges). intros [[= -> ->]|Hm%IH]%elem_of_cons; lia.
Qed.

Lemma indexed_tables db o n db' :
  indexed db o n db' → Forall (λ e, addressed (edge_id e)) (StoredObject.references o) →
  addressed (StoredObject.id o) → tables_ok db → tables_ok db'.
Proof.
  intros Hix Hedges Hid Hdb. rewrite Forall_forall in Hedges. split.
  - apply (ix_wf_objects _ _ _ _ Hix), Hdb.
  - apply (ix_wf_edges _ _ _ _ Hix), Hdb.
  - rewrite (ix_references _ _ _ _ Hix). apply Hdb.
  - intros x m row. rewrite (ix_edges _ _ _ _ Hix) by apply Hdb. case_bool_decide.
    + intros Hm%edge_rows_bound. pose proof (ix_count _ _ _ _ Hix). lia.
    + apply (tb_ordinals _ Hdb).
  - intros key row Hrow. destruct (decide (key = ObjectId.to_bytes (StoredObject.id o))) as [->|Hne]; [by eauto|].
    pose proof (ix_other _ _ _ _ Hix key Hne) as Hn. rewrite Hrow in Hn.
    destruct (bt_get key (Database.objects db)) as [r|] eqn:Hr; [by apply (tb_named _ Hdb) in Hr|].
    unfold named in Hn. destruct (targeted _ key) eqn:Ht; [|done].
    unfold targeted, targets in Ht. apply bool_decide_eq_true, list_elem_of_fmap in Ht as (e & -> & He). eauto.
  - intros key row Hrow. rewrite (ix_incident _ _ _ _ Hix).
    destruct (decide (key = ObjectId.to_bytes (StoredObject.id o))) as [->|Hne].
    + destruct (ix_self _ _ _ _ Hix) as (row' & Hrow' & Hp & _). rewrite Hrow in Hrow'. injection Hrow' as <-.
      rewrite Hp. split; [set_solver|done].
    + pose proof (ix_other _ _ _ _ Hix key Hne) as Hn. rewrite Hrow in Hn.
      destruct (bt_get key (Database.objects db)) as [r|] eqn:Hr; cbn in Hn.
      * destruct Hn as (k & [= ->] & _). by apply (tb_presence _ Hdb) in Hr.
      * destruct (targeted _ key); [|done]. destruct Hn as (r & [= <-] & ->). split; [set_solver|done].
  - rewrite (ix_references _ _ _ _ Hix). apply Hdb.
Qed.

Lemma contains_presence l db s x :
  loaded l db s → addressed x →
  bt_contains x (objects s) = bool_decide (presence_of db x = Some 1) ∧
  set_contains x (promised s) = bool_decide (presence_of db x = Some 2) ∧
  set_contains x (quarantined s) = bool_decide (presence_of db x = Some 3).
Proof.
  intros Hl Hx. split_and!; apply eq_bool_prop_intro; rewrite !Is_true_true, bool_decide_eq_true.
  - unfold bt_contains. split.
    + destruct (bt_get x (objects s)) as [o|] eqn:Ho; [|done]. by apply (ld_objects _ _ _ Hl) in Ho as (_ & ? & _).
    + unfold presence_of. destruct (row_of db x) as [row|] eqn:Hrow; [|done]. intros [= Hp].
      destruct (ld_readable _ _ _ Hl x row Hx Hrow Hp) as (o & Ho & _).
      rewrite (proj2 (ld_objects _ _ _ Hl x o)); [done|]. split_and!; [done| |done].
      unfold presence_of. rewrite Hrow. cbn. by rewrite Hp.
  - rewrite (ld_promised _ _ _ Hl). tauto.
  - rewrite (ld_quarantined _ _ _ Hl). tauto.
Qed.

Lemma presence_known db x p : tables_ok db → presence_of db x = Some p → p = 1 ∨ p = 2 ∨ p = 3.
Proof.
  intros Hdb. unfold presence_of, row_of. destruct (bt_get _ _) as [row|] eqn:Hrow; [|done].
  intros [= <-]. apply (tb_presence _ Hdb) in Hrow as [Hp _]. set_solver.
Qed.

Lemma presence_mutable db x : tables_ok db → Database.incident_read_only db = 0 → presence_of db x ≠ Some 3.
Proof.
  intros Hdb Hm. unfold presence_of, row_of. destruct (bt_get _ _) as [row|] eqn:Hrow; [|done].
  apply (tb_presence _ Hdb) in Hrow as [_ Hp]. intros [= Heq]. by apply Hp.
Qed.

(** An indexed object is described by its rows, and so are the others. *)
Lemma indexed_readable l db o n db' s x row :
  loose_ok l → indexed db o n db' → tables_ok db → loaded l db s →
  loose_read l (StoredObject.id o) = Ok o → addressed (StoredObject.id o) → addressed x →
  row_of db' x = Some row → ObjectRow.presence row = 1 →
  presence_of db x = Some 1 ∨ x = StoredObject.id o →
  ∃ o', loose_read l x = Ok o' ∧ described db' row o'.
Proof.
  intros Hlo Hix Hdb Hl Hread Hid Hx Hrow Hone Hold. destruct (decide (x = StoredObject.id o)) as [->|Hne].
  - exists o. split; [done|]. destruct (ix_self _ _ _ _ Hix) as (row' & Hrow' & _ & Hk & Hs & Hlen).
    unfold row_of in Hrow. rewrite Hrow in Hrow'. injection Hrow' as <-. split; [done|done| |].
    + rewrite (proj2 (to_usize_Ok _ _) (conj eq_refl (ix_length _ _ _ _ Hix))). done.
    + unfold verify_object_indexes. rewrite (ix_location _ _ _ _ Hix), bool_decide_true by done.
      cbn [ok_or mbind result_bind]. rewrite bool_decide_true by done.
      destruct (Z.leb_spec n 0); [pose proof (ix_positive _ _ _ _ Hix); lia|]. cbn [negb orb].
      rewrite (ix_edges _ _ _ _ Hix), bool_decide_true by (done || apply Hdb). by rewrite edges_match_rows.
  - destruct Hold as [Hp|]; [|done]. assert (ObjectId.to_bytes x ≠ ObjectId.to_bytes (StoredObject.id o)) as Hb.
    { intros Hb. by apply to_bytes_addressed_inj in Hb. }
    pose proof (ix_other _ _ _ _ Hix _ Hb) as Hn. unfold row_of in Hrow. rewrite Hrow in Hn.
    unfold presence_of in Hp. destruct (row_of db x) as [r|] eqn:Hr; [|done]. injection Hp as Hp.
    destruct (ld_readable _ _ _ Hl x r Hx Hr Hp) as (o' & Ho' & [Hk Hs Hlen Hv]).
    unfold row_of in Hr. rewrite Hr in Hn. destruct Hn as (k & [= ->] & Hkind). exists o'. split; [done|].
    pose proof (loose_read_decodes l x o' Hlo Ho') as Hd. apply decode_id_bytes in Hd as [Hxo _].
    split; [by apply Hkind|done|done|]. revert Hv. unfold verify_object_indexes. rewrite Hxo.
    by rewrite (ix_location _ _ _ _ Hix), (ix_edges _ _ _ _ Hix), bool_decide_false by (done || apply Hdb).
Qed.

Lemma index_loaded l db o n db' s :
  loose_ok l → indexed db o n db' → tables_ok db → loaded l db s → Database.incident_read_only db = 0 →
  loose_read l (StoredObject.id o) = Ok o → addressed (StoredObject.id o) →
  tables_ok db' ∧ loaded l db' (absorb s o) ∧ Database.incident_read_only db' = 0.
Proof.
  intros Hlo Hix Hdb Hl Hm Hread Hid.
  pose proof (decoded_targets _ _ _ (loose_read_decodes _ _ _ Hlo Hread)) as Hedges.
  assert (tables_ok db') as Hdb' by (by eapply indexed_tables).
  destruct (absorb_spec s o (ld_promised_wf _ _ _ Hl)) as (Eo & Eq & Er & En & Wp & Ep).
  pose proof (λ x, indexed_presence _ _ _ _ x Hix Hedges Hid) as Hpres.
  pose proof (presence_mutable db) as Hno.
  split_and!; [done| |by rewrite (ix_incident _ _ _ _ Hix)]. split.
  - rewrite Eo. apply bt_insert_wf, Hl.
  - done.
  - rewrite Eq. apply Hl.
  - rewrite Er. apply Hl.
  - intros x o'. rewrite Eo, bt_get_insert. case_decide as Hxo.
    + subst x. rewrite Hpres, bool_decide_true, Hread by done. naive_solver.
    + rewrite (ld_objects _ _ _ Hl). split; intros (Hx & Hp & Ho'); (split_and!; [done| |done]); revert Hp;
        rewrite Hpres, bool_decide_false by (done || congruence); [by intros ->|].
      destruct (presence_of db x); [done|]. by case_match.
  - intros x. rewrite Ep, andb_true_iff, negb_true_iff, bool_decide_eq_false, orb_true_iff, andb_true_iff.
    rewrite (ld_promised _ _ _ Hl). unfold names_edge. rewrite bool_decide_eq_true.
    rewrite Forall_forall in Hedges. split.
    + intros (Hxo & Hcase). assert (addressed x) as Hx.
      { destruct Hcase as [[? _]|[(e & -> & He)%list_elem_of_fmap _]]; auto. }
      split; [done|]. rewrite Hpres, bool_decide_false by done. destruct Hcase as [[_ ->]|[Hn Hu]]; [done|].
      destruct (contains_presence _ _ _ x Hl Hx) as (Ho & Hp & Hq). unfold unknown in Hu. rewrite Ho, Hq in Hu.
      destruct (presence_of db x) as [p|] eqn:Hpx.
      * destruct (presence_known db x p Hdb Hpx) as [->|[->| ->]]; done.
      * unfold names_edge. by rewrite bool_decide_true.
    + intros (Hx & Hp). rewrite Hpres in Hp by done. case_bool_decide as Hxo; [done|]. split; [done|].
      destruct (contains_presence _ _ _ x Hl Hx) as (Ho & _ & Hq). unfold unknown. rewrite Ho, Hq.
      destruct (presence_of db x) as [p|]; [left; split; [done|congruence]|]. right.
      unfold names_edge in Hp.
      destruct (decide (x ∈ map edge_id (StoredObject.references o))); [done|]. by rewrite bool_decide_false in Hp.
  - intros x. rewrite Eq, (ld_quarantined _ _ _ Hl). split; intros (Hx & Hp); [by apply Hno in Hp|].
    rewrite Hpres in Hp by done. case_bool_decide; [done|].
    destruct (presence_of db x) as [p|] eqn:Hpx; [by rewrite Hp in Hpx; apply Hno in Hpx|]. by case_match.
  - intros x row Hx Hrow Hone. eapply indexed_readable; try done.
    assert (presence_of db' x = Some 1) as Hp by (unfold presence_of; rewrite Hrow; cbn; by rewrite Hone).
    rewrite Hpres in Hp by done. case_bool_decide; [by right|]. left.
    destruct (presence_of db x); [done|]. by case_match.
  - intros k state. rewrite Er, (ix_references _ _ _ _ Hix). apply Hl.
  - rewrite En, (ix_revision _ _ _ _ Hix). apply Hl.
Qed.

(** ** Parts of transactions *)

Lemma verify_durable_Ok l o :
  loose_ok l → decode (StoredObject.id o) (StoredObject.bytes o) = Ok o →
  verify_durable_object l o = Ok tt → loose_read l (StoredObject.id o) = Ok o.
Proof.
  intros Hlo Hd (o' & Ho'%map_err_Ok & [Hb _]%bail_Ok)%bind_Ok.
  apply orb_false_iff in Hb as [_ Hb%negb_false_iff%bool_decide_eq_true].
  pose proof (loose_read_decodes _ _ _ Hlo Ho') as Hd'. rewrite Hb, Hd in Hd'. by injection Hd' as <-.
Qed.

Lemma verify_derived_same db db' s :
  Database.graph_generations db' = Database.graph_generations db → Database.operations db' = Database.operations db →
  Database.snapshot_parents db' = Database.snapshot_parents db →
  Database.operation_parents db' = Database.operation_parents db →
  verify_derived_indexes db' s = verify_derived_indexes db s.
Proof. unfold verify_derived_indexes. by intros -> -> -> ->. Qed.

Lemma loaded_counts l db s o :
  tables_ok db → loose_ok l → loaded l db s → o ∈ bt_values (objects s) →
  len (StoredObject.references o) ≤ i64_max + 1.
Proof.
  intros Hdb Hlo Hl ([id o'] & -> & Hin)%list_elem_of_fmap. cbn.
  apply (bt_get_elem_iff _ _ _ (ld_objects_wf _ _ _ Hl)), (ld_objects _ _ _ Hl) in Hin as (Hid & Hp & Ho).
  unfold presence_of in Hp. destruct (row_of db id) as [row|] eqn:Hrow; [|done]. injection Hp as Hp.
  destruct (ld_readable _ _ _ Hl id row Hid Hrow Hp) as (o2 & Ho2 & Hd). rewrite Ho in Ho2. injection Ho2 as <-.
  pose proof (ds_indexes _ _ _ Hd) as Hv. unfold verify_object_indexes in Hv.
  apply bind_Ok in Hv as ([path n] & _ & [_ [Hm%negb_false_iff%edges_match_iff _]%bail_Ok]%bail_Ok).
  pose proof (tb_ordinals _ Hdb (ObjectId.to_bytes (StoredObject.id o'))) as Hord. rewrite Hm in Hord.
  destruct (StoredObject.references o') as [|e edges] using rev_ind; [by rewrite len_nil|].
  rewrite len_snoc. pose proof (len_nonneg edges).
  assert (∀ k es, (k + len es, edge_row e) ∈ edge_rows k (es ++ [e])) as Hlast.
  { intros k es. revert k. induction es as [|x es IHe]; intros k; cbn [app edge_rows].
    - rewrite len_nil, Z.add_0_r. by left.
    - right. rewrite len_cons. replace (k + (1 + len es)) with (k + 1 + len es) by lia. apply IHe. }
  specialize (Hord _ _ (Hlast 0 edges)). lia.
Qed.

(** A rebuild keeps the rows. *)
Lemma rebuild_keeps l db s db' s' :
  tables_ok db → loose_ok l → loaded l db s' → objects s = objects s' → rebuild_graph_indexes s db = Ok db' →
  same_rows db db' ∧ verify_derived_indexes db' s = Ok tt ∧ Database.revision db' = Database.revision db ∧
  Database.incident_read_only db' = Database.incident_read_only db ∧ Database.incidents db' = Database.incidents db.
Proof.
  intros Hdb Hlo Hl Ho Hr. apply rebuild_verified in Hr as [Hd Hv].
  2: { rewrite Ho. intros o. by apply (loaded_counts l db). }
  unfold derived_only in Hd. split_and!; try done; [split|..]; by rewrite Hd.
Qed.

Lemma set_revision_Ok n db db' :
  SqliteIndex.set_revision n db = Ok db' → db' = Database.set_revision n db ∧ 0 ≤ n.
Proof.
  unfold SqliteIndex.set_revision. intros (m & [-> _]%to_sql_Ok & [-> Hc]%statement_Ok)%bind_Ok. split; [done|].
  unfold Schema.conditions in Hc. do 13 apply andb_true_iff in Hc as [Hc _]. by apply Z.leb_le.
Qed.

(** Tables that hold a snapshot, with the derived tables up to date. *)
Record stores l db s : Prop := {
  st_tables : tables_ok db;
  st_loaded : loaded l db s;
  st_derived : verify_derived_indexes db s = Ok tt }.

Lemma stores_load l db s :
  stores l db s → load_snapshot l db = (_ ← try_for_each (verify_reference s) (references s); Ok s).
Proof. intros [Ht Hl Hd]. by apply loaded_snapshot. Qed.

(** The last statements of a transaction. *)
Lemma set_revision_stores l n db db' s s' :
  SqliteIndex.set_revision n db = Ok db' → tables_ok db → loaded l db s → s' = with_revision n s →
  verify_derived_indexes db s' = Ok tt →
  stores l db' s' ∧ Database.incident_read_only db' = Database.incident_read_only db ∧
  Database.incidents db' = Database.incidents db.
Proof.
  intros [-> Hn]%set_revision_Ok Hdb Hl -> Hv. assert (same_rows db (Database.set_revision n db)) as Hsame by done.
  split_and!; [|done..]. split; [by eapply same_rows_tables|by eapply same_rows_loaded|].
  by rewrite (verify_derived_same db).
Qed.

Lemma try_unit {A} (r : result StoreError.t ()) (a b : A) : (_ ← r; Ok a) = Ok b → a = b.
Proof. by intros ([] & _ & [= ->])%bind_Ok. Qed.

Context {env : Environment}.

Lemma put_body_stores l db base o n db' :
  loose_ok l → tables_ok db → loaded l db base → Database.incident_read_only db = 0 →
  addressed (StoredObject.id o) → decode (StoredObject.id o) (StoredObject.bytes o) = Ok o →
  let staged := with_revision n (absorb base o) in
  SqliteStore.put_body o (revision base) staged l db = Ok db' →
  stores l db' staged ∧ Database.incident_read_only db' = 0 ∧ Database.incidents db' = Database.incidents db.
Proof.
  intros Hlo Hdb Hl Hm Hid Hd staged. unfold SqliteStore.put_body.
  intros ([] & Hread%verify_durable_Ok & H1)%bind_Ok; [|done..].
  apply bind_Ok in H1 as (db1 & (k & _ & Hix)%index_object_Ok & H1).
  destruct (index_loaded l db o k db1 base Hlo Hix Hdb Hl Hm Hread Hid) as (Hdb1 & Hl1 & Hm1).
  apply bind_Ok in H1 as (db2 & Hr & H1).
  apply (rebuild_keeps l db1 staged db2 (absorb base o)) in Hr as (Hsame & Hv & Hrev & Hinc & Hincs); [|done..].
  apply bind_Ok in H1 as (db3 & Hset & Hfp%try_unit). subst db3.
  assert (loaded l db2 (absorb base o)) as Hl2.
  { apply (same_rows_loaded _ _ _ _ (revision (absorb base o)) Hsame) in Hl1 as Hl2; [by destruct (absorb base o)| |];
      destruct (ld_revision _ _ _ Hl1); lia. }
  eapply set_revision_stores in Hset as (Hst & Hi & His); [|by eapply same_rows_tables|done|done|done].
  split_and!; [done|congruence|]. by rewrite His, Hincs, (ix_incidents _ _ _ _ Hix).
Qed.

Lemma promise_body_stores l db base id n db' :
  stores l db base → Database.incident_read_only db = 0 → addressed id →
  bt_contains id (objects base) = false → set_contains id (promised base) = false →
  let staged := with_revision n (with_promised (set_insert id (promised base)) base) in
  SqliteStore.promise_body id staged l db = Ok db' →
  stores l db' staged ∧ Database.incident_read_only db' = 0 ∧ Database.incidents db' = Database.incidents db.
Proof.
  intros [Hdb Hl Hv] Hm Hid Ho Hp staged. unfold SqliteStore.promise_body.
  intros (seen & _ & (db1 & [E1 _]%statement_Ok & (db2 & Hset & <-%try_unit)%bind_Ok)%bind_Ok)%bind_Ok.
  destruct (contains_presence l db base id Hl Hid) as (Ho' & Hp' & Hq'). rewrite Ho' in Ho. rewrite Hp' in Hp.
  assert (row_of db id = None) as Hnone.
  { pose proof (presence_known db id) as Hk. pose proof (presence_mutable db id Hdb Hm) as H3.
    unfold presence_of in *. destruct (row_of db id) as [row|]; [|done]. cbn in *.
    apply bool_decide_eq_false in Ho, Hp. destruct (Hk _ Hdb eq_refl) as [Hr|[Hr|Hr]]; rewrite Hr in *; done. }
  unfold row_of in Hnone. unfold bt_contains in E1. rewrite Hnone in E1.
  set (row := ObjectRow.mk None None 2 None seen None) in *.
  assert (∀ x, addressed x → row_of db1 x = if decide (id = x) then Some row else row_of db x) as Hrow.
  { intros x Hx. unfold row_of. rewrite E1. cbn. rewrite bt_get_insert.
    destruct (decide (id = x)) as [->|Hne]; [by rewrite decide_True|]. rewrite decide_False; [done|].
    intros Heq. by apply to_bytes_addressed_inj in Heq. }
  assert (∀ o, verify_object_indexes db1 o = verify_object_indexes db o) as Hix by (intros o; by rewrite E1).
  assert (tables_ok db1) as Hdb1.
  { destruct Hdb as [Wo We Wr Hord Hnamed Hpres Hkeys]. rewrite E1. split; cbn; try done.
    - by apply bt_insert_wf.
    - intros key r. rewrite bt_get_insert. destruct (decide (_ = key)); [|apply Hnamed]. subst key. eauto.
    - intros key r. rewrite bt_get_insert. destruct (decide (_ = key)); [|apply Hpres]. intros [= <-]. cbn. split; [set_solver|done]. }
  assert (loaded l db1 (with_promised (set_insert id (promised base)) base)) as Hl1.
  { destruct Hl as [Wo Wp Wq Wr Hobj Hprom Hquar Hread Href Hrev].
    assert (∀ x p, p ≠ 2 → addressed x → presence_of db1 x = Some p ↔ presence_of db x = Some p) as Hpres.
    { intros x p Hne Hx. unfold presence_of. rewrite Hrow by done. destruct (decide (id = x)); [|done]. subst x.
      unfold row_of. rewrite Hnone. cbn. split; [congruence|done]. }
    split; cbn; try done; [by apply set_insert_wf|..].
    - intros x o. rewrite Hobj. split; intros (? & Hpr & ?); (split_and!; [done| |done]); by apply Hpres.
    - intros x. rewrite set_insert_contains, orb_true_iff, bool_decide_eq_true, Hprom. unfold presence_of. split.
      + intros [->|[Hx Hpx]]; (split; [done|]); rewrite Hrow by done; [by rewrite decide_True|].
        by destruct (decide (id = x)).
      + intros [Hx Hpx]. rewrite Hrow in Hpx by done. destruct (decide (id = x)); [by left|]. by right.
    - intros x. rewrite Hquar. split; intros (? & Hpr); (split; [done|]); by apply Hpres.
    - intros x r Hx. rewrite Hrow by done. destruct (decide (id = x)); [by intros [= <-]|]. intros Hr Hone.
      destruct (Hread x r Hx Hr Hone) as (o & ? & [? ? ? Hvo]). exists o. split; [done|]. split; [done..|]. by rewrite Hix.
    - intros k state. rewrite E1. apply Href.
    - rewrite E1. done. }
  eapply set_revision_stores in Hset as (Hst & Hi & His); [|done|done|done|].
  - split_and!; [done|rewrite Hi, E1; done|by rewrite His, E1].
  - unfold staged. rewrite derived_promised, E1. done.
Qed.

(** ** Quarantine *)

Definition quarantined_row (old : ObjectRow.t) : ObjectRow.t :=
  ObjectRow.mk (ObjectRow.kind old) (ObjectRow.object_schema old) 3 None
    (ObjectRow.first_seen_revision old) (ObjectRow.unavailable_reason old).

(** The database after one object was quarantined. *)
Record quarantining db (id : oid) (old : ObjectRow.t) (n : Z) db' : Prop := {
  qt_objects : Database.objects db' = bt_insert (ObjectId.to_bytes id) (quarantined_row old) (Database.objects db);
  qt_edges_wf : bt_wf (Database.object_edges db');
  qt_edges : ∀ x, x ≠ ObjectId.to_bytes id → edges_of db' x = edges_of db x;
  qt_gone : edges_of db' (ObjectId.to_bytes id) = [];
  qt_location : ∀ x, x ≠ ObjectId.to_bytes id → active_location db' x = active_location db x;
  qt_references : Database.references db' = Database.references db;
  qt_revision : Database.revision db' = n ∧ 0 ≤ n;
  qt_incident : Database.incident_read_only db' = 1 }.

Lemma quarantine_body_Ok l db base id incident relative hash old n staged db' :
  tables_ok db → loose_ok l → loaded l db base → row_of db id = Some old →
  staged = SqliteStore.forget id (with_revision n (with_quarantined (set_insert id (quarantined base)) base)) →
  SqliteStore.quarantine_body id (incident, relative, hash) staged l db = Ok db' →
  quarantining db id old n db' ∧ verify_derived_indexes db' staged = Ok tt ∧
  bt_get incident (Database.incidents db) = None ∧
  Database.incidents db' = bt_insert incident
    (IncidentRow.mk (ObjectId.to_bytes id) (safe_hash id) hash 2 relative 1 1 n) (Database.incidents db).
Proof.
  intros Hdb Hlo Hl Hold Hst. assert (revision staged = n) as Hrev by (by rewrite Hst).
  unfold SqliteStore.quarantine_body. rewrite Hrev.
  intros (db1 & Hdel & (db2 & (E2 & W2 & G2)%delete_edges_Ok & (db3 & [E3 _]%statement_Ok & Hq)%bind_Ok)%bind_Ok)%bind_Ok.
  apply bind_Ok in Hq as (db4 & Hr & Hq).
  apply bind_Ok in Hq as (m & [-> _]%to_sql_Ok & Hq). apply bind_Ok in Hq as (db5 & [Hfree E5]%insert_Ok & Hq).
  apply bind_Ok in Hq as (db6 & [E6 _]%statement_Ok & Hq). apply bind_Ok in Hq as (db7 & [E7 Hn]%set_revision_Ok & <-%try_unit).
  assert (∀ x, x ≠ ObjectId.to_bytes id → loose_rows db1 x = loose_rows db x) as Hloc.
  { intros x Hx. eapply delete_locations_other; [|exact Hdel|done]. by intros row Hrow%bool_decide_eq_true. }
  apply statement_Ok in Hdel as [E1 _].
  assert (Database.objects db2 = Database.objects db) as Eo by (by rewrite E2, E1).
  unfold row_of in Hold. rewrite Eo, Hold in E3.
  apply rebuild_verified in Hr as [E4 Hv].
  2: { intros o Ho. apply (loaded_counts l db base o); [done..|]. rewrite Hst in Ho. unfold SqliteStore.forget in Ho. cbn in Ho.
       apply list_elem_of_fmap in Ho as ([x o'] & -> & Hin). apply list_elem_of_fmap. exists (x, o'). split; [done|].
       pose proof (ld_objects_wf _ _ _ Hl) as Wo.
       apply (bt_get_elem_iff _ _ _ (bt_remove_wf _ _ Wo)) in Hin. apply bt_get_elem_iff; [done|].
       destruct (decide (id = x)) as [->|Hne]; [by rewrite bt_get_remove_eq in Hin|]. by rewrite bt_get_remove_ne in Hin. }
  unfold derived_only in E4.
  assert (bt_wf (Database.object_edges db2)) as We by (apply W2; rewrite E1; apply Hdb).
  split_and!.
  - split.
    + rewrite E7, E6, E5, E4, E3. done.
    + by rewrite E7, E6, E5, E4, E3.
    + intros x Hx. transitivity (edges_of db2 x); [by rewrite E7, E6, E5, E4, E3|]. apply edges_of_get; [apply Hdb|done|].
      intros k. rewrite G2, bool_decide_false by done. by rewrite E1.
    + transitivity (edges_of db2 (ObjectId.to_bytes id)); [by rewrite E7, E6, E5, E4, E3|].
      apply (edges_of_rows _ _ []); [done|]. intros k. by rewrite G2, bool_decide_true.
    + intros x Hx. apply active_location_rows. rewrite <-Hloc by done. by rewrite E7, E6, E5, E4, E3, E2.
    + by rewrite E7, E6, E5, E4, E3, E2, E1.
    + by rewrite E7.
    + by rewrite E7, E6.
  - rewrite <-Hv. by apply verify_derived_same; rewrite E7, E6, E5.
  - rewrite E4, E3, E2, E1 in Hfree. done.
  - rewrite E7, E6, E5, E4, E3, E2, E1. done.
Qed.

Lemma quarantining_stores l db base id old n staged db' :
  stores l db base → loose_ok l → addressed id → row_of db id = Some old →
  staged = SqliteStore.forget id (with_revision n (with_quarantined (set_insert id (quarantined base)) base)) →
  quarantining db id old n db' → verify_derived_indexes db' staged = Ok tt → stores l db' staged.
Proof.
  intros [Hdb Hl _] Hlo Hid Hold Hst [Eo We He Hgone Hloc Er [En Hn] Hro] Hv.
  assert (∀ x, addressed x → x ≠ id → ObjectId.to_bytes x ≠ ObjectId.to_bytes id) as Hne.
  { intros x Hx Hne Heq. by apply to_bytes_addressed_inj in Heq. }
  assert (∀ x, addressed x → row_of db' x = if decide (id = x) then Some (quarantined_row old) else row_of db x) as Hrow.
  { intros x Hx. unfold row_of. rewrite Eo, bt_get_insert. destruct (decide (id = x)) as [->|Hd]; [by rewrite decide_True|].
    rewrite decide_False; [done|]. intros Heq. by apply to_bytes_addressed_inj in Heq. }
  assert (∀ x p, addressed x → presence_of db' x = Some p ↔ (x = id ∧ p = 3) ∨ (x ≠ id ∧ presence_of db x = Some p)) as Hpres.
  { intros x p Hx. unfold presence_of. rewrite Hrow by done. destruct (decide (id = x)); cbn; naive_solver. }
  split; [..|done].
  - destruct Hdb as [Wo Wed Wr Hord Hnamed Hpr Hkeys]. split; try done.
    + rewrite Eo. by apply bt_insert_wf.
    + by rewrite Er.
    + intros x m row. destruct (decide (x = ObjectId.to_bytes id)) as [->|Hx].
      * rewrite Hgone. by intros ?%not_elem_of_nil.
      * rewrite He by done. apply Hord.
    + intros key row. rewrite Eo, bt_get_insert. destruct (decide (_ = key)); [|apply Hnamed]. subst key. eauto.
    + intros key row. rewrite Eo, bt_get_insert, Hro. destruct (decide (_ = key)); [intros [= <-]; cbn; split; [set_solver|done]|].
      intros Hk%Hpr. split; [apply Hk|done].
    + by rewrite Er.
  - rewrite Hst. destruct Hl as [Wo Wp Wq Wr Hobj Hprom Hquar Hread Href Hrev].
    split; cbn [objects promised quarantined references revision SqliteStore.forget with_promised with_objects
      with_revision with_quarantined]; try done; [by apply bt_remove_wf|by apply bt_remove_wf|by apply set_insert_wf|..].
    + intros x o. destruct (decide (id = x)) as [<-|Hx].
      * rewrite bt_get_remove_eq by done. split; [done|]. intros (_ & Hp & _). apply Hpres in Hp; [naive_solver|done].
      * rewrite bt_get_remove_ne, Hobj by done. split; intros (? & Hp & ?); (split_and!; [done| |done]).
        -- apply Hpres; [done|]. right. by split.
        -- apply Hpres in Hp; [naive_solver|done].
    + intros x. rewrite set_contains_remove, andb_true_iff, negb_true_iff, bool_decide_eq_false, Hprom by done. split.
      * intros (Hx & Ha & Hp). split; [done|]. apply Hpres; [done|]. by right.
      * intros (Ha & Hp). apply Hpres in Hp; [naive_solver|done].
    + intros x. rewrite set_insert_contains, orb_true_iff, bool_decide_eq_true, Hquar. split.
      * intros Hc. assert (addressed x) as Ha by naive_solver. split; [done|]. apply Hpres; [done|].
        destruct (decide (x = id)); naive_solver.
      * intros (Ha & Hp). apply Hpres in Hp; [naive_solver|done].
    + intros x row Hx. rewrite Hrow by done. destruct (decide (id = x)) as [|Hd]; [by intros [= <-]|]. intros Hr Hone.
      destruct (Hread x row Hx Hr Hone) as (o & Ho & [? ? ? Hvo]). exists o. split; [done|]. split; [done..|].
      pose proof (loose_read_decodes l x o Hlo Ho) as Hdec. apply decode_id_bytes in Hdec as [Hxo _].
      revert Hvo. unfold verify_object_indexes. rewrite Hxo. by rewrite Hloc, He by (apply Hne; congruence).
    + intros k state. by rewrite Er, Href.
    + by rewrite En.
Qed.
End update.
