(* ===== verification/SqlitePublish.v ===== *)
(** * Publishing to the metadata

    The transaction of a publication leaves tables that hold exactly the snapshot the
    in-memory store staged, with the promises of the published objects. *)

From Stdlib Require Import Btauto.
From S2P Require Import Prelude Machine Order Utf8 Canonical ObjectId Types Objects Fields Decode References EdgeRoles Explore Traverse StoreModel MemoryStore MemoryFacts StoreInv StoreSteps FileTree LooseFrame LooseStore EdgeTargets SqlSchema SqliteIndex SqliteFacts SqliteDerived SqliteLoad SqliteStore SqliteUpdate.

Section publish.
Context `{Unicode, Digests} {L : Type} `{!LooseObjects L, !LooseLaws L} {env : Environment}.
Implicit Types (l : L) (db : Database.t) (s : MemorySnapshot) (o : StoredObject.t).

(** ** The objects of a publication *)

Definition identifies (os : list StoredObject.t) (x : oid) : bool := bool_decide (x ∈ map StoredObject.id os).
Definition names_any (os : list StoredObject.t) (x : oid) : bool :=
  existsb (λ o, names_edge (StoredObject.references o) x) os.

Lemma absorbs_spec (m : BTreeMap oid StoredObject.t) os s :
  bt_wf (promised s) → bt_wf (objects s) → (∀ o, o ∈ os → bt_get (StoredObject.id o) m = Some o) →
  let s' := fold_left absorb os s in
  bt_wf (objects s') ∧ bt_wf (promised s') ∧
  quarantined s' = quarantined s ∧ references s' = references s ∧ revision s' = revision s ∧
  (∀ x, bt_get x (objects s') = if identifies os x then bt_get x m else bt_get x (objects s)) ∧
  ∀ x, set_contains x (promised s')
    = negb (identifies os x) && (set_contains x (promised s) || (names_any os x && unknown s x)).
Proof.
  revert s. induction os as [|o os IH]; intros s Hp Ho Hm; cbn [fold_left].
  { split_and!; try done. intros x. cbn. by rewrite orb_false_r. }
  destruct (absorb_spec s o Hp) as (Eo & Eq & Er & En & Wp & Ep).
  destruct (IH (absorb s o)) as (W1 & W2 & Q & R & N & Hget & Hprom).
  { done. } { rewrite Eo. by apply bt_insert_wf. } { intros x Hx. apply Hm. by right. }
  assert (∀ x, identifies (o :: os) x = bool_decide (x = StoredObject.id o) || identifies os x) as Hid.
  { intros x. unfold identifies. rewrite <-bool_decide_or. apply bool_decide_ext. cbn. by rewrite elem_of_cons. }
  assert (∀ x, unknown (absorb s o) x = negb (bool_decide (x = StoredObject.id o)) && unknown s x) as Hun.
  { intros x. unfold unknown. rewrite Eo, Eq. unfold bt_contains at 1. rewrite bt_get_insert.
    destruct (decide (x = StoredObject.id o)) as [->|Hne]; [by rewrite decide_True, bool_decide_true|].
    by rewrite decide_False, bool_decide_false by congruence. }
  split_and!; [done|done|congruence..| |]; intros x.
  - rewrite Hget, Hid, Eo, bt_get_insert. destruct (identifies os x); [by rewrite orb_true_r|]. rewrite orb_false_r.
    destruct (decide (StoredObject.id o = x)) as [<-|Hne]; [|by rewrite bool_decide_false].
    rewrite bool_decide_true by done. symmetry. apply Hm. by left.
  - rewrite Hprom, Ep, Hun, Hid. cbn [names_any existsb]. fold (names_any os x). btauto.
Qed.

Lemma promise_all_spec os s :
  bt_wf (promised s) →
  let s' := fold_left add_edge_promises os s in
  promised_only s s' ∧ bt_wf (promised s') ∧
  ∀ x, set_contains x (promised s') = set_contains x (promised s) || (names_any os x && unknown s x).
Proof.
  revert s. induction os as [|o os IH]; intros s Hp; cbn [fold_left].
  { split_and!; [by destruct s|done|]. intros x. cbn. by rewrite orb_false_r. }
  destruct (promises_spec (StoredObject.references o) s Hp) as (H1 & H2 & H3). fold (add_edge_promises s o) in H1, H2, H3.
  destruct (IH (add_edge_promises s o) H2) as (H4 & H5 & H6). unfold promised_only in *.
  split_and!; [by rewrite H4, H1|done|]. intros x. rewrite H6, H3.
  assert (unknown (add_edge_promises s o) x = unknown s x) as -> by (by rewrite H1).
  cbn [names_any existsb]. fold (names_any os x). btauto.
Qed.

Definition candidate_objects (m : BTreeMap oid StoredObject.t) (candidates : list PublicationObject.t) :
    list StoredObject.t :=
  omap (λ c, bt_get (PublicationObject.id c) m) candidates.

Lemma candidate_objects_snoc m cs c o :
  bt_get (PublicationObject.id c) m = Some o → candidate_objects m (cs ++ [c]) = candidate_objects m cs ++ [o].
Proof. intros Ho. unfold candidate_objects. rewrite omap_app. cbn. by rewrite Ho. Qed.

(** [promise_candidates] promises what the published objects name. *)
Lemma promise_candidates_Ok s cs s' :
  SqliteStore.promise_candidates s cs = Ok s' →
  s' = fold_left add_edge_promises (candidate_objects (objects s) cs) s ∧
  ∀ c, c ∈ cs → is_Some (bt_get (PublicationObject.id c) (objects s)).
Proof.
  apply (try_fold_inv _ (λ cs s', s' = fold_left add_edge_promises (candidate_objects (objects s) cs) s ∧
    ∀ c, c ∈ cs → is_Some (bt_get (PublicationObject.id c) (objects s)))).
  - intros done c s1 s2 [-> Hall] _ (o & [_ Ho]%visible_Ok & [= <-])%bind_Ok. split.
    + by rewrite (candidate_objects_snoc _ _ _ o), fold_left_app.
    + intros c' [?| ->%list_elem_of_singleton]%elem_of_app; [auto|]. by rewrite Ho.
  - split; [done|]. intros c Hc. by apply not_elem_of_nil in Hc.
Qed.

Lemma stage_promised pub s st x :
  bt_wf (promised s) → stage pub s = Ok st →
  bt_wf (promised st) ∧
  set_contains x (promised st)
  = set_contains x (promised s) && negb (bool_decide (x ∈ map PublicationObject.id (Publication.objects pub))).
Proof.
  intros Hwf. unfold stage. intros (s1 & H1%raise_Ok & Hst)%bind_Ok.
  apply bind_Ok in Hst as (op & _ & [_ Hst]%bail_Ok). apply bind_Ok in Hst as (keys & _ & Hst).
  apply bind_Ok in Hst as ([] & _ & Hst). apply bind_Ok in Hst as (c & _ & Hst).
  apply bind_Ok in Hst as ([] & _ & Hst%raise_Ok).
  assert (promised st = promised s1) as ->.
  { revert Hst. apply (try_fold_inv _ (λ _ st, promised st = promised s1)); [|done].
    by intros _ u a b Ha _ (next & _ & [= <-])%bind_Ok. }
  pose (P := λ cs s1, bt_wf (promised s1) ∧ set_contains x (promised s1)
    = set_contains x (promised s) && negb (bool_decide (x ∈ map PublicationObject.id cs))).
  change (P (Publication.objects pub) s1). revert H1. apply (try_fold_inv _ P); unfold P.
  - intros done o a b [Ha Hx] _ (d & _ & (a1 & Ha1 & [= <-])%bind_Ok)%bind_Ok.
    assert (promised a1 = promised a) as E.
    { destruct (bt_get _ (objects a)); [by apply bail_Ok in Ha1 as [_ [= <-]]|by injection Ha1 as <-]. }
    cbn [promised with_promised]. rewrite E. split; [by apply bt_remove_wf|].
    rewrite set_contains_remove, Hx by done. rewrite (bool_decide_ext (x ∈ map PublicationObject.id (done ++ [o]))
      (x ∈ map PublicationObject.id done ∨ x = PublicationObject.id o)).
    { rewrite bool_decide_or. btauto. }
    rewrite map_app. cbn. rewrite elem_of_app, list_elem_of_singleton. done.
  - cbn. by rewrite andb_true_r.
Qed.

Lemma candidate_objects_elem m cs o :
  o ∈ candidate_objects m cs ↔ ∃ c, c ∈ cs ∧ bt_get (PublicationObject.id c) m = Some o.
Proof. unfold candidate_objects. by rewrite list_elem_of_omap. Qed.

(** What is staged, object by object. *)
Lemma staged_absorbs pub base st n staged :
  objects_ok base → stage pub base = Ok st →
  SqliteStore.promise_candidates (with_revision n st) (Publication.objects pub) = Ok staged →
  staged = with_revision n (with_references (references st)
             (fold_left absorb (candidate_objects (objects st) (Publication.objects pub)) base)).
Proof.
  intros Hbase Hst [Hs Hall]%promise_candidates_Ok.
  pose proof (stage_Ok pub base st Hbase Hst) as Hfrom. pose proof (sf_objects _ _ _ Hfrom) as Hok.
  cbn [objects with_revision] in Hs, Hall. set (os := candidate_objects _ _) in *.
  assert (∀ o, o ∈ os → bt_get (StoredObject.id o) (objects st) = Some o) as Hos.
  { intros o (c & _ & Ho)%candidate_objects_elem. by rewrite (objects_ok_keyed _ Hok _ _ Ho). }
  assert (∀ x, bool_decide (x ∈ map PublicationObject.id (Publication.objects pub)) = identifies os x) as Hids.
  { intros x. unfold identifies. apply bool_decide_ext. rewrite !list_elem_of_fmap. split.
    - intros (c & -> & Hc). destruct (Hall c Hc) as [o Ho]. exists o.
      split; [by rewrite (objects_ok_keyed _ Hok _ _ Ho)|]. apply candidate_objects_elem. eauto.
    - intros (o & -> & (c & Hc & Ho)%candidate_objects_elem). exists c.
      by rewrite (objects_ok_keyed _ Hok _ _ Ho). }
  destruct (absorbs_spec (objects st) os base (ok_promised_wf _ Hbase) (ok_objects_wf _ Hbase) Hos)
    as (Wo & Wp & Q & R & N & Hget & Hprom).
  destruct (stage_promised pub base st (Publication.operation pub) (ok_promised_wf _ Hbase) Hst) as [Wst _].
  destruct (promise_all_spec os (with_revision n st)) as (Honly & Wp' & Hprom'); [done|].
  unfold promised_only in Honly. rewrite <-Hs in Honly, Wp', Hprom'.
  assert (∀ x, identifies os x = false → bt_get x (objects st) = bt_get x (objects base)) as Hold.
  { intros x Hx. apply option_eq. intros o. rewrite (sf_added _ _ _ Hfrom). split; [|by left].
    intros [?|(c & Hc & Hcx & _)]; [done|]. rewrite <-Hids in Hx. apply bool_decide_eq_false in Hx.
    destruct Hx. apply list_elem_of_fmap. by exists c. }
  assert (objects (fold_left absorb os base) = objects st) as Eo.
  { apply bt_ext; [done|apply Hok|]. intros x. rewrite Hget. destruct (identifies os x) eqn:Hx; [done|]. by rewrite Hold. }
  assert (promised (fold_left absorb os base) = promised staged) as Ep.
  { apply bt_ext; [done..|]. intros x. enough (set_contains x (promised (fold_left absorb os base)) = set_contains x (promised staged)) as Hc.
    { unfold set_contains, bt_contains in Hc. by destruct (bt_get x _) as [[]|], (bt_get x _) as [[]|]. }
    rewrite Hprom, Hprom'. cbn [promised with_revision].
    destruct (stage_promised pub base st x (ok_promised_wf _ Hbase) Hst) as [_ ->]. rewrite Hids.
    assert (unknown (with_revision n st) x = negb (identifies os x) && unknown base x
      ∨ identifies os x = true ∧ unknown (with_revision n st) x = false) as Hu.
    { unfold unknown, bt_contains. cbn. rewrite (sf_quarantined _ _ _ Hfrom). destruct (identifies os x) eqn:Hx.
      - right. split; [done|]. unfold identifies in Hx. apply bool_decide_eq_true, list_elem_of_fmap in Hx as (o & -> & Ho).
        by rewrite (Hos o Ho).
      - left. by rewrite Hold. }
    destruct Hu as [->|[-> ->]]; cbn [negb]; [btauto|]. by rewrite !andb_false_r. }
  rewrite Honly. unfold with_revision, with_references, with_promised.
  cbn [objects promised quarantined references revision].
  by rewrite Eo, Ep, Q, (sf_quarantined _ _ _ Hfrom).
Qed.

Lemma index_candidates_loaded l db base st staged cs db' :
  loose_ok l → tables_ok db → loaded l db base → Database.incident_read_only db = 0 →
  objects staged = objects st → objects_ok st → (∀ c, c ∈ cs → addressed (PublicationObject.id c)) →
  try_fold (SqliteStore.index_candidate l staged) cs db = Ok db' →
  tables_ok db' ∧ loaded l db' (fold_left absorb (candidate_objects (objects st) cs) base) ∧
  Database.incident_read_only db' = 0 ∧ Database.incidents db' = Database.incidents db.
Proof.
  intros Hlo Hdb Hl Hm Ho Hok Haddr.
  apply (try_fold_inv _ (λ cs db', tables_ok db' ∧
    loaded l db' (fold_left absorb (candidate_objects (objects st) cs) base) ∧
    Database.incident_read_only db' = 0 ∧ Database.incidents db' = Database.incidents db)); [|done].
  intros done c db1 db2 (Hdb1 & Hl1 & Hm1 & Hi1) Hc (o & [_ Hget]%visible_Ok & Hrest)%bind_Ok.
  rewrite Ho in Hget. apply bind_Ok in Hrest as ([] & Hv & (n & _ & Hix)%index_object_Ok).
  pose proof (ok_verified _ Hok _ _ Hget) as Hd. destruct (decode_id_bytes _ _ _ Hd) as [Hid _]. rewrite <-Hid in Hd.
  apply verify_durable_Ok in Hv; [|done..].
  destruct (index_loaded l db1 o n db2 _ Hlo Hix Hdb1 Hl1 Hm1 Hv) as (? & ? & ?); [rewrite Hid; auto|].
  split_and!; [done| |done|by rewrite (ix_incidents _ _ _ _ Hix)].
  by rewrite (candidate_objects_snoc _ _ _ o), fold_left_app.
Qed.

(** ** The references of a publication *)

Lemma conditions_key db key row k :
  Schema.conditions db = true → bt_get key (Database.references db) = Some row → key = encode_reference_key k →
  key_ok k ∧ 0 ≤ ReferenceRow.generation row.
Proof.
  intros [_ Hrefs]%conditions_rows Hget%bt_get_elem%list_elem_of_In ->.
  rewrite forallb_forall in Hrefs. specialize (Hrefs _ Hget).
  assert (∀ kind stable, Schema.reference_ok db kind stable row = true → 0 ≤ ReferenceRow.generation row ∧
    (kind ≠ 3 → len stable = 16 ∨ kind ∉ [1; 2; 4; 5])) as Hok.
  { clear. intros kind stable. unfold Schema.reference_ok.
    intros [[[[_ Hg]%andb_true_iff _]%andb_true_iff _]%andb_true_iff Hk]%andb_true_iff.
    split; [by apply Z.leb_le|]. intros Hne. destruct (decide (kind ∈ [1; 2; 4; 5])) as [Hin|]; [left|by right].
    rewrite !elem_of_cons in Hin. destruct Hin as [->|[->|[->|[->|[]%not_elem_of_nil]]]];
      apply andb_true_iff in Hk as [Hk _]; by apply Z.eqb_eq. }
  destruct k as [id|id| |id|id]; cbn in Hrefs; apply Hok in Hrefs as [Hg Hlen]; (split; [|done]); cbn; try done;
    destruct Hlen as [?|Hlen]; try done; destruct Hlen; set_solver.
Qed.

Definition reference_next (old : option ReferenceState.t) (st : ReferenceState.t) : Prop :=
  ReferenceState.generation st = match old with Some old => ReferenceState.generation old + 1 | None => 0 end.

(** One conditional update. *)
Lemma reference_loaded l db s u st op db' :
  tables_ok db → loaded l db s → write_reference_cas u st op db = Ok db' →
  expectation_met (bt_get (RefUpdate.key u) (references s)) (RefUpdate.expected u) →
  reference_next (bt_get (RefUpdate.key u) (references s)) st → ReferenceState.operation st = op →
  addressed (ReferenceState.target st) → addressed op →
  tables_ok db' ∧ loaded l db' (with_references (bt_insert (RefUpdate.key u) st (references s)) s) ∧
  db' = Database.set_references (Database.references db') db.
Proof.
  intros Hdb Hl Hw Hexp Hnext Hop Ht Ho. set (key := encode_reference_key (RefUpdate.key u)).
  assert (∃ row, reference_row row st ∧ db' = Database.set_references (bt_insert key row (Database.references db)) db ∧
    Schema.conditions db' = true) as (row & Hrow & Hdb' & Hc).
  { revert Hw. unfold write_reference_cas. fold key. unfold reference_row, reference_next in *.
    destruct (RefUpdate.expected u) as [|e]; cbn in Hexp; rewrite Hexp in Hnext.
    - intros [_ [-> Hc]%statement_Ok]%bail_Ok. eexists. split; [|by split]. cbn. by rewrite Hop.
    - intros (g & [-> _]%to_sql_Ok & Hw)%bind_Ok. destruct (bt_get key (Database.references db)) as [row|]; [|done].
      apply bail_Ok in Hw as [Hcond [-> Hc]%statement_Ok]. eexists. split; [|by split]. cbn.
      apply negb_false_iff in Hcond. apply andb_true_iff in Hcond as [[[_ Hg%Z.eqb_eq]%andb_true_iff _]%andb_true_iff _].
      rewrite Hg, Hop. done. }
  assert (bt_get key (Database.references db') = Some row) as Hget by (rewrite Hdb'; cbn; apply bt_get_insert_eq).
  destruct (conditions_key db' key row (RefUpdate.key u) Hc Hget eq_refl) as [Hk Hg].
  assert (∀ x, bt_get x (Database.references db') = if decide (key = x) then Some row else bt_get x (Database.references db))
    as Hrefs by (intros x; rewrite Hdb'; cbn; apply bt_get_insert).
  split_and!; [| |by rewrite Hdb'].
  - destruct Hdb as [Wo We Wr Hord Hnamed Hpr Hkeys]. split; try (rewrite Hdb'; done).
    + rewrite Hdb'. cbn. by apply bt_insert_wf.
    + intros x r. rewrite Hrefs. destruct (decide (key = x)) as [<-|]; [|apply Hkeys]. intros [= <-]. split; [done|].
      exists (RefUpdate.key u), (ReferenceState.target st), (ReferenceState.operation st).
      destruct Hrow as (? & ? & ? & ? & ?). done.
  - destruct Hl as [Wo Wp Wq Wr Hobj Hprom Hquar Hread Href Hrev]. split; try done; try (rewrite Hdb'; done).
    + by apply bt_insert_wf.
    + intros x r Hx Hr Hone. rewrite Hdb' in Hr. destruct (Hread x r Hx Hr Hone) as (o & ? & [? ? ? Hvo]).
      exists o. split; [done|]. split; [done..|]. by rewrite Hdb'.
    + intros k state. cbn [references with_references]. rewrite bt_get_insert, Hrefs.
      destruct (decide (RefUpdate.key u = k)) as [<-|Hne].
      * rewrite decide_True by done. split; [intros [= <-]; eauto|]. intros (_ & r & [= <-] & Hr).
        f_equal. by eapply reference_row_inj.
      * rewrite decide_False; [apply Href|]. by intros Heq%encode_key_inj.
Qed.

(** All updates, which have different keys. *)
Definition bind_references (pub : Publication.t) (base : MemorySnapshot) (us : list RefUpdate.t)
    (m : BTreeMap ReferenceKey.t ReferenceState.t) : BTreeMap ReferenceKey.t ReferenceState.t :=
  fold_left (λ m u, bt_insert (RefUpdate.key u) (next_of base pub u) m) us m.

Lemma insert_references_bind s pub us st st' :
  try_fold (insert_reference s pub) us st = Ok st' → references st' = bind_references pub s us (references st).
Proof.
  revert st. induction us as [|u us IH]; intros st; cbn [try_fold]; [by intros [= <-]|].
  by intros (st1 & (n & (-> & _)%next_state_Ok & [= <-])%bind_Ok & Hf%IH)%bind_Ok.
Qed.

Lemma references_loaded l pub base us db s db' :
  tables_ok db → loaded l db s → NoDup (map RefUpdate.key us) →
  (∀ u, u ∈ us → bt_get (RefUpdate.key u) (references s) = bt_get (RefUpdate.key u) (references base) ∧
     expectation_met (bt_get (RefUpdate.key u) (references base)) (RefUpdate.expected u) ∧
     addressed (RefUpdate.target u)) →
  addressed (Publication.operation pub) →
  try_fold (λ db '(update, state), write_reference_cas update state (Publication.operation pub) db)
    (combine us (map (next_of base pub) us)) db = Ok db' →
  tables_ok db' ∧ loaded l db' (with_references (bind_references pub base us (references s)) s) ∧
  db' = Database.set_references (Database.references db') db.
Proof.
  revert db s. induction us as [|u us IH]; intros db s Hdb Hl Hnd Hall Hop; cbn [map combine try_fold].
  { intros [= <-]. split_and!; [done|by destruct s|by destruct db]. }
  intros (db1 & Hw & Hrest)%bind_Ok. cbn in Hnd. apply NoDup_cons in Hnd as [Hfresh Hnd].
  destruct (Hall u) as (Heq & Hexp & Ht); [by left|].
  destruct (reference_loaded l db s u (next_of base pub u) _ db1 Hdb Hl Hw) as (Hdb1 & Hl1 & E1); try done.
  { by rewrite Heq. } { unfold reference_next, next_of. by rewrite Heq. }
  apply (IH db1 (with_references (bt_insert (RefUpdate.key u) (next_of base pub u) (references s)) s)) in Hrest
    as (Hdb' & Hl' & E'); [|done|done|done| |done].
  - split_and!; [done|done|]. by rewrite E', E1.
  - intros u' Hu'. destruct (Hall u') as (Heq' & ? & ?); [by right|]. split_and!; [|done..].
    cbn [references with_references]. rewrite bt_get_insert_ne; [done|]. intros Hk. apply Hfresh. rewrite Hk.
    apply list_elem_of_fmap. by exists u'.
Qed.

(** ** The transaction *)

Lemma mutable_quarantined l db s :
  tables_ok db → loaded l db s → Database.incident_read_only db = 0 → ∀ x, set_contains x (quarantined s) = false.
Proof.
  intros Hdb Hl Hm x. destruct (set_contains x (quarantined s)) eqn:Hx; [|done].
  apply (ld_quarantined _ _ _ Hl) in Hx as [_ Hp]. by apply presence_mutable in Hp.
Qed.

Lemma loaded_objects_ok l db s :
  loose_ok l → tables_ok db → loaded l db s → Database.incident_read_only db = 0 → objects_ok s.
Proof.
  intros Hlo Hdb Hl Hm. split; [apply Hl..| | |].
  - intros id o (_ & _ & Ho)%(ld_objects _ _ _ Hl). by apply loose_read_decodes in Ho.
  - intros id [Hid Hp]%(ld_promised _ _ _ Hl). destruct (contains_presence _ _ _ id Hl Hid) as [Ho _].
    revert Ho. unfold bt_contains. destruct (bt_get id (objects s)); [|done]. rewrite Hp. by rewrite bool_decide_false.
  - intros id Hq. by rewrite (mutable_quarantined l db) in Hq.
Qed.

Lemma published_results pub validator s st results n :
  staged_from pub s st → publish_validate pub validator (mk_staged st (revision s) n) = Ok results →
  results = map (next_of s pub) (Publication.updates pub).
Proof.
  intros Hst ([] & _ & [= <-])%bind_Ok. cbn [staged_state]. pose proof (sf_references _ _ _ Hst) as Hget.
  induction (Publication.updates pub) as [|u us IH]; cbn; [done|].
  destruct (Hget u) as [-> _]; [by left|]. f_equal. apply IH. intros v Hv. apply Hget. by right.
Qed.

Lemma publish_body_stores l db base pub st n staged db' :
  loose_ok l → tables_ok db → loaded l db base → Database.incident_read_only db = 0 →
  (∀ c, c ∈ Publication.objects pub → addressed (PublicationObject.id c)) →
  stage pub base = Ok st →
  SqliteStore.promise_candidates (with_revision n st) (Publication.objects pub) = Ok staged →
  SqliteStore.publish_body pub (map (next_of base pub) (Publication.updates pub)) staged l db = Ok db' →
  stores l db' staged ∧ Database.incident_read_only db' = 0 ∧ Database.incidents db' = Database.incidents db.
Proof.
  intros Hlo Hdb Hl Hm Haddr Hstage Hprom. pose proof (loaded_objects_ok l db base Hlo Hdb Hl Hm) as Hok.
  pose proof (stage_Ok pub base st Hok Hstage) as Hfrom.
  pose proof (staged_absorbs pub base st n staged Hok Hstage Hprom) as Hst.
  set (os := candidate_objects _ _) in Hst. set (mid := fold_left absorb os base) in *.
  assert (objects staged = objects st) as Ho.
  { apply promise_candidates_Ok in Hprom as [-> _].
    destruct (promise_all_spec (candidate_objects (objects (with_revision n st)) (Publication.objects pub)) (with_revision n st))
      as [Honly _]; [apply Hfrom|]. unfold promised_only in Honly. by rewrite Honly. }
  unfold SqliteStore.publish_body. intros (db1 & Hindex & Hb)%bind_Ok.
  apply (index_candidates_loaded l db base st) in Hindex as (Hdb1 & Hl1 & Hm1 & Hi1); [|try done; apply Hfrom..].
  fold os mid in Hl1. apply bind_Ok in Hb as (db2 & Hr & Hb).
  assert (objects staged = objects mid) as Hom by (by rewrite Hst).
  apply (rebuild_keeps l db1 staged db2 mid) in Hr as (Hsame & Hv & Hrev & Hinc & Hincs); [|done..].
  apply bind_Ok in Hb as (db3 & <-%try_unit & Hb). apply bind_Ok in Hb as (db4 & Hrefs & Hb).
  apply bind_Ok in Hb as (db5 & <-%try_unit & Hset).
  assert (tables_ok db2) as Hdb2 by (by eapply same_rows_tables).
  assert (loaded l db2 mid) as Hl2.
  { apply (same_rows_loaded _ _ _ _ (revision mid) Hsame) in Hl1 as Hl2; [by destruct mid| |];
      destruct (ld_revision _ _ _ Hl1); lia. }
  assert (references mid = references base) as Hmr.
  { apply absorbs_spec with (m := objects st); [apply Hok..|].
    intros o (c & _ & Hc)%candidate_objects_elem. by rewrite (objects_ok_keyed _ (sf_objects _ _ _ Hfrom) _ _ Hc). }
  assert (∀ x o, visible_object st x = Ok o → addressed x) as Hvis.
  { intros x o [_ Hx]%visible_Ok. rewrite <-Ho, Hom in Hx. by apply (ld_objects _ _ _ Hl1) in Hx as [? _]. }
  destruct (sf_operation _ _ _ Hfrom) as (op & Hop%Hvis & _). pose proof (sf_updates _ _ _ Hfrom) as Hus.
  rewrite Forall_forall in Hus.
  apply (references_loaded l pub base _ db2 mid) in Hrefs as (Hdb4 & Hl4 & E4); [|done|done|apply Hfrom| |done].
  2: { intros u Hu. rewrite Hmr. split; [done|]. destruct (Hus u Hu) as (Hexp & o & Ht%Hvis & _). done. }
  assert (references st = bind_references pub base (Publication.updates pub) (references mid)) as Hbind.
  { rewrite Hmr. revert Hstage. unfold stage. intros (s1 & H1%raise_Ok & Hs)%bind_Ok.
    apply bind_Ok in Hs as (op' & _ & [_ Hs]%bail_Ok). apply bind_Ok in Hs as (keys & _ & Hs).
    apply bind_Ok in Hs as ([] & _ & Hs). apply bind_Ok in Hs as (c & _ & Hs).
    apply bind_Ok in Hs as ([] & _ & Hs%raise_Ok). apply insert_references_bind in Hs as ->.
    by destruct (stage_objects_spec _ _ _ Hok H1) as (_ & _ & -> & _). }
  rewrite <-Hbind in Hl4.
  assert (revision staged = n) as Hn by (by rewrite Hst). rewrite Hn in Hset.
  eapply set_revision_stores in Hset as (Hfinal & Hi & His); [|done|done|exact Hst|].
  - split_and!; [done|rewrite Hi, E4; cbn; congruence|]. rewrite His, E4. cbn. congruence.
  - rewrite <-Hv. by apply verify_derived_same; rewrite E4.
Qed.
End publish.
