(* ===== verification/SqliteCalls.v ===== *)
(** * The calls of the durable store

    What a reload checks, and that every call, however it ends, leaves on disk either what was there or
    exactly the snapshot that it staged. *)

From stdpp Require Import relations.
From Stdlib Require Import String.
From S2P Require Import Prelude Machine Order Utf8 Canonical ObjectId Types Objects Fields Decode References EdgeRoles Explore Traverse StoreModel MemoryStore MemoryFacts StoreInv StoreSteps StoreSpec FileTree LooseFrame LooseStore EdgeTargets SqlSchema SqliteIndex SqliteFacts SqliteDerived SqliteLoad SqliteStore SqliteUpdate SqlitePublish.
(** ** What a reload checks

    The references that [load_snapshot] accepts, and the incidents that [verify_incidents] accepts,
    as conditions that later snapshots inherit. *)

(** ** References *)

(** What is stored is not quarantined. *)
Definition unquarantined (s : MemorySnapshot) : Prop :=
  ∀ x o, bt_get x (objects s) = Some o → set_contains x (quarantined s) = false.

Lemma closure_complete s roots c :
  bt_wf (objects s) → closure_from s roots = Ok c → complete (objects s) roots.
Proof.
  intros Hwf Hc. pose proof (closure_from_spec s roots Hwf) as Hcl. rewrite Hc in Hcl.
  apply complete_of_reaches, Hcl.
Qed.

Lemma complete_closure s roots :
  bt_wf (objects s) → unquarantined s → complete (objects s) roots → ∃ c, closure_from s roots = Ok c.
Proof.
  intros Hwf Hq Hc. pose proof (closure_from_spec s roots Hwf) as Hcl.
  destruct (closure_from s roots) as [c|[error| |]]; [by exists c| |done|done].
  destruct Hcl as (e & (r & Hr & Hp) & He).
  assert (∀ e, rtc (edge_step s) r e → rtc (holds (objects s)) r e) as Hsub.
  { apply rtc_ind_r; [done|]. intros x y _ (o & [_ Ho]%visible_Ok & Hy) IH. eapply rtc_r; [exact IH|]. by exists o. }
  destruct (Hc r e Hr (Hsub e Hp)) as (o & Ho & Hk).
  assert (resolve_edge s e = Ok (edge_id e, o, StoredObject.references o)); [|congruence].
  apply resolve_edge_Ok. split_and!; [done| |done|done]. apply visible_Ok. eauto.
Qed.

(** What a reload demands of a reference: present objects of the right kinds, the identity in the
    target, a complete closure, and an edge from the operation to the target. *)
Definition checked (objs : object_map) (key : ReferenceKey.t) (state : ReferenceState.t) : Prop :=
  ∃ target operation,
    bt_get (ReferenceState.target state) objs = Some target ∧
    bt_get (ReferenceState.operation state) objs = Some operation ∧
    StoredObject.kind target = ReferenceKey.expected_kind key ∧
    StoredObject.kind operation = ObjectKind.Operation ∧ reference_identity_matches key target = true ∧
    (is_head key = true → ReferenceState.target state = ReferenceState.operation state) ∧
    complete objs (checkpoint_roots key state) ∧
    (is_head key = false → names_target key state operation = true).

Lemma checked_extends objs objs' key state :
  extends objs objs' → checked objs key state → checked objs' key state.
Proof.
  intros Hext (t & o & Ht & Ho & ? & ? & ? & ? & Hc & ?). exists t, o. split_and!; auto.
  by eapply complete_extends.
Qed.

Lemma verify_reference_checked s key state :
  bt_wf (objects s) → verify_reference s (key, state) = Ok tt → checked (objects s) key state.
Proof.
  intros Hwf. unfold verify_reference.
  intros (t & Ht%ok_or_Ok & (o & Ho%ok_or_Ok & [Hb Hr]%bail_Ok)%bind_Ok)%bind_Ok.
  apply bind_Ok in Hr as (c & Hc%map_err_Ok & [Hn _]%bail_Ok).
  apply orb_false_iff in Hb as [[[Hk%negb_false_iff Hop%negb_false_iff]%orb_false_iff Hi%negb_false_iff]%orb_false_iff Hh].
  apply bool_decide_eq_true in Hk, Hop. exists t, o. split_and!; try done.
  - intros Hhead. rewrite Hhead in Hh. by apply negb_false_iff, bool_decide_eq_true in Hh.
  - by eapply closure_complete.
  - intros Hhead. rewrite Hhead in Hn. by apply negb_false_iff in Hn.
Qed.

Lemma checked_verify_reference s key state :
  bt_wf (objects s) → unquarantined s → checked (objects s) key state → verify_reference s (key, state) = Ok tt.
Proof.
  intros Hwf Hq (t & o & Ht & Ho & Hk & Hop & Hi & Hh & Hc & Hn). unfold verify_reference. rewrite Ht, Ho.
  cbn [ok_or mbind result_bind]. rewrite Hi, !bool_decide_true by done.
  destruct (complete_closure s _ Hwf Hq Hc) as [c ->]. cbn [map_err].
  destruct (is_head key) eqn:Hhead; cbn [negb orb andb].
  - rewrite bool_decide_true by auto. done.
  - by rewrite Hn.
Qed.

Lemma try_for_each_all {E A} (f : A → result E ()) l :
  try_for_each f l = Ok tt ↔ ∀ x, x ∈ l → f x = Ok tt.
Proof.
  induction l as [|x l IH]; cbn; [split; [intros _ x Hx; by apply not_elem_of_nil in Hx|done]|].
  split.
  - intros ([] & Hx & Hl)%bind_Ok y [->|Hy]%elem_of_cons; [done|]. by apply IH.
  - intros Hall. rewrite (Hall x) by left. cbn. apply IH. intros y Hy. apply Hall. by right.
Qed.

Lemma verified_references s :
  bt_wf (objects s) → bt_wf (references s) → unquarantined s →
  try_for_each (verify_reference s) (references s) = Ok tt ↔
  ∀ key state, bt_get key (references s) = Some state → checked (objects s) key state.
Proof.
  intros Hwf Hr Hq. rewrite try_for_each_all. split.
  - intros Hall key state Hget%bt_get_elem. by apply verify_reference_checked, Hall.
  - intros Hall [key state] Hin. apply checked_verify_reference; [done..|]. by apply Hall, bt_get_elem_iff.
Qed.

(** ** Incidents *)

Section incidents.
Context `{Digests}.

(** The condition on one row. *)
Definition incident_holds (db : Database.t) (evidence : BTreeMap str (list Z)) (row : IncidentRow.t) : Prop :=
  ∃ (name : str) (bytes : list Z), strip_prefix (IncidentRow.evidence_relative_path row) (lit "incidents/") = Some name ∧
    plain_name name = true ∧ bt_get name evidence = Some bytes ∧
    sha256 (take_evidence bytes) = IncidentRow.evidence_sha256 row ∧
    (IncidentRow.state row = 1 →
     (ObjectRow.presence <$> bt_get (IncidentRow.affected_object_id row) (Database.objects db)) = Some 3).

Definition fails_closed (row : IncidentRow.t) : bool :=
  (IncidentRow.state row =? 1) && (IncidentRow.fail_closed row =? 1).

Lemma verify_incident_Ok db evidence b id row b' :
  verify_incident db evidence b (id, row) = Ok b' ↔ incident_holds db evidence row ∧ b' = b || fails_closed row.
Proof.
  unfold verify_incident, incident_holds, fails_closed. cbn [snd]. split.
  - intros (name & Hname%ok_or_Ok & [Hplain%negb_false_iff Hr]%bail_Ok)%bind_Ok.
    apply bind_Ok in Hr as (bytes & Hbytes%ok_or_Ok & [Hsha%negb_false_iff%bool_decide_eq_true Hr]%bail_Ok).
    destruct (IncidentRow.state row =? 1) eqn:Hs; cbn [andb].
    + apply bail_Ok in Hr as [Hp%negb_false_iff%bool_decide_eq_true [= <-]]. split; [|done]. exists name, bytes. done.
    + injection Hr as <-. rewrite orb_false_r. split; [|done]. exists name, bytes. split_and!; try done.
      apply Z.eqb_neq in Hs. done.
  - intros [(name & bytes & -> & Hplain & Hbytes & Hsha & Hp) ->]. cbn [ok_or mbind result_bind].
    rewrite Hplain, Hbytes. cbn [negb ok_or mbind result_bind]. rewrite Hsha, bool_decide_true by done. cbn [negb].
    destruct (Z.eqb_spec (IncidentRow.state row) 1) as [Hs|Hs]; cbn; [|by rewrite orb_false_r].
    rewrite (Hp Hs). by rewrite bool_decide_true.
Qed.

Lemma verify_incidents_Ok db evidence :
  verify_incidents db evidence = Ok tt ↔
  (∀ e, e ∈ Database.incidents db → incident_holds db evidence e.2) ∧
  Database.incident_read_only db = if existsb (λ e, fails_closed e.2) (Database.incidents db) then 1 else 0.
Proof.
  assert (∀ rows b b', try_fold (verify_incident db evidence) rows b = Ok b' ↔
    (∀ e, e ∈ rows → incident_holds db evidence e.2) ∧ b' = b || existsb (λ e, fails_closed e.2) rows) as Hfold.
  { induction rows as [|[id row] rows IH]; intros b b'; cbn [try_fold existsb].
    - rewrite orb_false_r. split; [intros [= <-]; split; [|done]; intros e He; by apply not_elem_of_nil in He|].
      by intros [_ ->].
    - setoid_rewrite elem_of_cons. split.
      + intros (b1 & [Hh ->]%verify_incident_Ok & [Hall ->]%IH)%bind_Ok. rewrite orb_assoc. split; [|done].
        intros e [->|He]; [done|auto].
      + intros [Hall ->]. rewrite (proj2 (verify_incident_Ok db evidence b id row (b || fails_closed row))); [|split; [apply (Hall (id, row)); by left|done]].
        cbn [mbind result_bind]. apply IH. rewrite orb_assoc. split; [|done]. auto. }
  unfold verify_incidents. split.
  - intros (b & [Hall ->]%Hfold & [Hr%negb_false_iff%Z.eqb_eq _]%bail_Ok)%bind_Ok. done.
  - intros [Hall Hr]. rewrite (proj2 (Hfold _ _ _) (conj Hall eq_refl)). cbn [mbind result_bind orb].
    rewrite Hr, Z.eqb_refl. done.
Qed.
End incidents.

(** ** Runs *)

Import State.

Lemma io_bind_inv {E S A B} (m : io E S A) (f : A → io E S B) st r st' :
  io_bind m f st = (r, st') →
  (∃ a st1, m st = (Ok a, st1) ∧ f a st1 = (r, st')) ∨ (∃ e, m st = (Err e, st') ∧ r = Err e).
Proof. unfold io_bind. destruct (m st) as [[a|e] st1]; naive_solver. Qed.

(** A step that only looks: it fails with an error of the program, or the run goes on. *)
Lemma inspect_bind {E S A B} (f : S → result E A) (k : A → io E S B) s fuse r s' fuse' :
  io_bind (inspect f) k (s, fuse) = (r, (s', fuse')) →
  (∃ a, f s = Ok a ∧ k a (s, fuse) = (r, (s', fuse'))) ∨ (s' = s ∧ ∃ e, r = Err (Raised e)).
Proof. unfold io_bind, inspect. cbn. destruct (f s); cbn; intros; simplify_eq; eauto. Qed.

Ltac look H x Hx :=
  apply inspect_bind in H as [(x & Hx & H)|H].

Section calls.
Context `{Unicode, Digests} {L : Type} `{!LooseObjects L, !LooseLaws L} {env : Environment}.
Implicit Types (s : State.t L) (base staged : MemorySnapshot).

(** What a process that opens the store reads. *)
Definition view s : result StoreError.t MemorySnapshot :=
  _ ← verify_incidents (database s) (evidence s);
  load_snapshot (loose s) (database s).

(** A snapshot whose references pass the checks of a reload. *)
Definition reload staged : result StoreError.t MemorySnapshot :=
  _ ← try_for_each (verify_reference staged) (references staged);
  Ok staged.

Definition durable s : Prop := tables_ok (database s) ∧ loose_ok (loose s).

(** Nothing that the old state names is lost. *)
Record kept s s' : Prop := {
  kp_database : database s' = database s;
  kp_loose_ok : loose_ok (loose s');
  kp_loose : ∀ x o, loose_read (loose s) x = Ok o → loose_read (loose s') x = Ok o;
  kp_evidence : ∀ name bytes, bt_get name (evidence s) = Some bytes → bt_get name (evidence s') = Some bytes }.

Lemma kept_refl s m : loose_ok (loose s) → kept s (State.set_memory m s).
Proof. by split. Qed.

Lemma kept_durable s s' : durable s → kept s s' → durable s'.
Proof. intros [Ht _] [Hdb Hlo _ _]. split; [by rewrite Hdb|done]. Qed.

Lemma view_Ok s base :
  durable s → view s = Ok base →
  stores (loose s) (database s) base ∧ verify_incidents (database s) (evidence s) = Ok tt ∧ reload base = Ok base.
Proof.
  intros [Ht _] ([] & Hi & (Hl & Hr & Hd)%load_snapshot_Ok)%bind_Ok; [|done]. split_and!; [done|done|].
  unfold reload. by rewrite Hr.
Qed.

Lemma view_stores s staged :
  stores (loose s) (database s) staged → verify_incidents (database s) (evidence s) = Ok tt →
  view s = reload staged.
Proof. intros Hs Hi. unfold view. rewrite Hi. by apply stores_load. Qed.

(** The disk holds exactly the snapshot. *)
Definition written s staged : Prop :=
  stores (loose s) (database s) staged ∧ verify_incidents (database s) (evidence s) = Ok tt.

Lemma incident_holds_evidence db evidence evidence' row :
  (∀ name bytes, bt_get (K:=str) name evidence = Some bytes → bt_get (K:=str) name evidence' = Some bytes) →
  incident_holds db evidence row → incident_holds db evidence' row.
Proof. intros He (name & bytes & ? & ? & ? & ? & ?). exists name, bytes. split_and!; auto. Qed.

Lemma written_view s staged : written s staged → view s = reload staged.
Proof. intros [Hs Hi]. by apply view_stores. Qed.

Lemma kept_written s s' staged : kept s s' → written s staged → written s' staged.
Proof.
  intros [Hdb Hlo Hloose Hev] [[Ht Hl Hder] Hi]. split; rewrite Hdb.
  - split; [done|by eapply loaded_keeps|done].
  - apply verify_incidents_Ok in Hi as [Hall Hro]. apply verify_incidents_Ok. split; [|done].
    intros e He. eapply incident_holds_evidence; [exact Hev|auto].
Qed.

Lemma kept_view s s' base : durable s → kept s s' → view s = Ok base → view s' = Ok base.
Proof.
  intros Hd Hk Hv. destruct (view_Ok s base Hd Hv) as (Hs & Hi & Hr).
  rewrite <-Hr. apply written_view, (kept_written s); [done|by split].
Qed.

(** ** Steps *)

Lemma put_loose_inv id bytes s fuse r s' fuse' :
  loose_ok (loose s) → is_bytes bytes = true → SqliteStore.put_loose id bytes (s, fuse) = (r, (s', fuse')) →
  r ≠ Err Stuck ∧ kept s s' ∧ memory s' = memory s ∧ evidence s' = evidence s.
Proof.
  intros Hlo Hb. unfold SqliteStore.put_loose, zoom. cbn [fst snd].
  destruct (loose_put id bytes (loose s, fuse)) as [r0 [l' f']] eqn:Hput.
  apply loose_put_keeps in Hput as (Hns & Hlo' & Hkeep); [|done..].
  destruct r0 as [a|[e| |]]; intros [= <- <- <-]; (split_and!; [done|by split|done|done]).
Qed.

Lemma put_candidates_inv cs s fuse r s' fuse' :
  loose_ok (loose s) → (∀ c, c ∈ cs → is_bytes (PublicationObject.bytes c) = true) →
  SqliteStore.put_candidates cs (s, fuse) = (r, (s', fuse')) →
  r ≠ Err Stuck ∧ kept s s' ∧ memory s' = memory s ∧ evidence s' = evidence s.
Proof.
  revert s fuse. induction cs as [|c cs IH]; intros s fuse Hlo Hb; cbn [SqliteStore.put_candidates io_each].
  { intros [= <- <- <-]. split_and!; [done|by split|done|done]. }
  intros [([] & [s1 f1] & H1 & H2)|(e & H1 & ->)]%io_bind_inv.
  - apply put_loose_inv in H1 as (_ & [K1 K2 K3 K4] & M1 & E1); [|done|apply Hb; left].
    apply IH in H2 as (Hn & [J1 J2 J3 J4] & M2 & E2); [|done|intros c' Hc; apply Hb; by right].
    split_and!; [done| |congruence|congruence]. split; [congruence|done|auto|auto].
  - apply put_loose_inv in H1 as (Hn & Hk & ?); [|done|apply Hb; left]. split; [|by split]. done.
Qed.

(** A transaction happens entirely or not at all. *)
Lemma transact_inv base body staged s fuse r s' fuse' :
  memory s = base → SqliteStore.transact (revision base) body staged (s, fuse) = (r, (s', fuse')) →
  (s' = s ∧ ((∃ e, r = Err (Raised e)) ∨ r = Err Interrupted)) ∨
  (∃ db, body (loose s) (database s) = Ok db ∧ s' = State.set_memory staged (State.set_database db s) ∧
     (r = Ok tt ∨ ∃ e, r = Err (Raised e))).
Proof.
  intros Hm Ht. unfold SqliteStore.transact in Ht.
  look Ht a Ha; [|naive_solver]. look Ht b Hb; [|naive_solver]. look Ht c Hc; [|naive_solver].
  look Ht d Hd; [|naive_solver]. look Ht db Hdb; [|naive_solver]. look Ht e He; [|naive_solver].
  look Ht f Hf; [|naive_solver]. unfold io_bind at 1, change in Ht. cbn [fst snd] in Ht.
  assert (∀ fuse1, (match check SqliteFailurePoint.AfterCommit with
    | Ok _ => SqliteStore.replace_if_revision (revision base) staged
    | Err error => do! _ := SqliteStore.replace_if_revision (revision base) staged in FileTree.raise error
    end) (State.set_database db s, fuse1) = (r, (s', fuse')) →
    s' = State.set_memory staged (State.set_database db s) ∧ (r = Ok tt ∨ ∃ e, r = Err (Raised e))) as Hend.
  { intros fuse1. unfold SqliteStore.replace_if_revision, io_bind, FileTree.raise. cbn.
    destruct (check SqliteFailurePoint.AfterCommit); cbn; rewrite Hm, Z.eqb_refl; intros [= <- <- <-]; eauto. }
  destruct fuse as [[|n]|]; [injection Ht as <- <- <-; by left; auto|..]; right; exists db; split; [done| |done|];
    eapply Hend; exact Ht.
Qed.

(** What every writing call does first. *)
Lemma refresh_inv s fuse r s' fuse' :
  SqliteStore.refresh (s, fuse) = (r, (s', fuse')) →
  (∃ base, view s = Ok base ∧ r = Ok tt ∧ s' = State.set_memory base s ∧ fuse' = fuse) ∨
  (s' = s ∧ ∃ e, r = Err (Raised e)).
Proof.
  intros Ht. unfold SqliteStore.refresh in Ht. look Ht a Ha; [|by right]. look Ht b Hb; [|by right].
  look Ht c Hc; [|by right]. look Ht d Hd; [|by right]. look Ht base Hbase; [|by right].
  unfold SqliteStore.assign in Ht. injection Ht as <- <- <-. left. exists base. split_and!; try done.
  unfold view. by rewrite Hd.
Qed.

Lemma prologue_inv {A} (k : MemorySnapshot → io StoreError.t (State.t L) A) s fuse r s' fuse' :
  loose_ok (loose s) →
  (do! _ := SqliteStore.process_writer_lock in
   do! _ := SqliteStore.refresh in
   do! _ := SqliteStore.ensure_mutable in
   do! base := SqliteStore.stage in
   k base) (s, fuse) = (r, (s', fuse')) →
  (kept s s' ∧ ∃ e, r = Err (Raised e)) ∨
  (∃ base, view s = Ok base ∧ Database.incident_read_only (database s) = 0 ∧
     k base (State.set_memory base s, fuse) = (r, (s', fuse'))).
Proof.
  intros Hlo Ht. look Ht a Ha; [|left; destruct Ht as [-> ?]; by split]. clear a Ha.
  apply io_bind_inv in Ht as [([] & [s1 f1] & [(base & Hv & _ & -> & ->)|[-> [e [=]]]]%refresh_inv & Ht)
    |(e & [(base & _ & [=] & _)|[-> [e' He]]]%refresh_inv & ->)]; [|left; split; [by split|]; naive_solver].
  look Ht a Ha; [|left; destruct Ht as [-> ?]; split; [by apply kept_refl|done]].
  apply bail_Ok in Ha as [Hm%negb_false_iff%Z.eqb_eq _].
  right. exists base. split_and!; [done|done|]. unfold SqliteStore.stage in Ht.
  exact Ht.
Qed.

Lemma commit_inv {A} base body staged (x : A) s fuse r s' fuse' :
  memory s = base →
  (do! _ := SqliteStore.transact (revision base) body staged in
   do! _ := SqliteStore.checkpoint in
   ret x) (s, fuse) = (r, (s', fuse')) →
  (s' = s ∧ ((∃ e, r = Err (Raised e)) ∨ r = Err Interrupted)) ∨
  (∃ db, body (loose s) (database s) = Ok db ∧ s' = State.set_memory staged (State.set_database db s) ∧
     (r = Ok x ∨ ∃ e, r = Err (Raised e))).
Proof.
  intros Hm [([] & [s1 f1] & Ht & Hrest)|(e & Ht & ->)]%io_bind_inv; apply transact_inv in Ht; [|done| |done].
  - destruct Ht as [[_ [[? [=]]|[=]]]|(db & Hdb & -> & _)]. right. exists db.
    look Hrest a Ha; [injection Hrest as <- <- <-; eauto|]. destruct Hrest as [-> Hr]. eauto.
  - destruct Ht as [[-> [[e' [= ->]]|[= ->]]]|(db & Hdb & -> & [[=]|[e' [= ->]]])]; naive_solver.
Qed.

(** ** What the calls are to do *)

Definition execute (c : call) : io StoreError.t (State.t L) () :=
  match c with
  | Put id bytes => do! _ := SqliteStore.put id bytes in ret tt
  | MarkPromised id => SqliteStore.mark_promised id
  | Quarantine id => SqliteStore.quarantine id
  | Publish publication validator => do! _ := SqliteStore.publish publication validator in ret tt
  | CompareAndSwap key expected target operation validator =>
      do! _ := SqliteStore.compare_and_swap key expected target operation validator in ret tt
  end.

Definition publish_effect_of (publication : Publication.t) (validator : PublicationValidator) base :
    option MemorySnapshot :=
  match publish publication validator base with
  | (s, Ok _) => ok (SqliteStore.promise_candidates s (Publication.objects publication))
  | (_, Err _) => None
  end.

(** The snapshot that a call stages, if it has to change anything. *)
Definition effect (c : call) base : option MemorySnapshot :=
  match c with
  | Put id bytes =>
      match put id bytes base with
      | (s, Ok PutOutcome.New) => (λ o, add_edge_promises s o) <$> ok (visible_object s id)
      | _ => None
      end
  | MarkPromised id =>
      let s := (mark_promised id base).1 in if revision s =? revision base then None else Some s
  | Quarantine id =>
      let s := (quarantine id base).1 in
      if revision s =? revision base then None else Some (SqliteStore.forget id s)
  | Publish publication validator => publish_effect_of publication validator base
  | CompareAndSwap key expected target operation validator =>
      publish_effect_of (single_update key expected target operation) validator base
  end.

Definition publication_ok (publication : Publication.t) s : Prop :=
  (∀ c, c ∈ Publication.objects publication →
     addressed (PublicationObject.id c) ∧ is_bytes (PublicationObject.bytes c) = true) ∧
  len (Database.objects (database s)) + len (Publication.objects publication) ≤ u64_max.

(** Identifiers are well formed, payloads consist of bytes, and the store is not larger than the machine. *)
Definition call_ok (c : call) s : Prop :=
  match c with
  | Put id bytes => addressed id ∧ is_bytes bytes = true
  | MarkPromised id | Quarantine id => addressed id ∧ is_bytes randomblob = true
  | Publish publication _ => publication_ok publication s
  | CompareAndSwap key expected target operation _ => publication_ok (single_update key expected target operation) s
  end.

(** Only quarantines are allowed while an incident is open. *)
Definition permitted (c : call) s : Prop :=
  match c with
  | Quarantine _ => True
  | _ => Database.incident_read_only (database s) = 0
  end.

(** The effect of a call is all or nothing, all if the call succeeds, and nothing unless it is allowed. *)
Definition atomic {A} (effect : MemorySnapshot → option MemorySnapshot) (allowed : Prop) s
    (r : result (stop StoreError.t) A) s' : Prop :=
  r ≠ Err Stuck ∧ durable s' ∧
  match r with
  | Ok _ =>
      ∃ base, view s = Ok base ∧
        match effect base with
        | Some staged => allowed ∧ written s' staged ∧ view s' = reload staged ∧ memory s' = staged
        | None => kept s s' ∧ memory s' = base
        end
  | Err _ =>
      kept s s' ∨
      ∃ base staged, view s = Ok base ∧ effect base = Some staged ∧ allowed ∧
        written s' staged ∧ view s' = reload staged
  end.

Lemma atomic_refused {A} effect allowed s s' (e : StoreError.t) :
  durable s → kept s s' → @atomic A effect allowed s (Err (Raised e)) s'.
Proof. intros Hd Hk. split_and!; [done|by eapply kept_durable|by left]. Qed.

Lemma atomic_stopped {A B} effect allowed s s' (e : stop StoreError.t) :
  durable s → kept s s' → @Err _ A e ≠ Err Stuck → @atomic B effect allowed s (Err e) s'.
Proof. intros Hd Hk He. split_and!; [congruence|by eapply kept_durable|by left]. Qed.

Lemma mutable_incidents db evidence db' :
  tables_ok db → Database.incident_read_only db = 0 → verify_incidents db evidence = Ok tt →
  Database.incident_read_only db' = 0 → Database.incidents db' = Database.incidents db →
  verify_incidents db' evidence = Ok tt.
Proof.
  intros Ht Hm [Hall Hro]%verify_incidents_Ok Hm' Hi. apply verify_incidents_Ok. rewrite Hi. split; [|congruence].
  intros e He. destruct (Hall e He) as (name & bytes & ? & ? & ? & ? & Hp). exists name, bytes. split_and!; try done.
  intros Hs. specialize (Hp Hs). destruct (bt_get _ (Database.objects db)) as [row|] eqn:Hrow; [|done].
  injection Hp as Hp. by apply (tb_presence _ Ht) in Hrow as [_ Hne]; apply Hne in Hm.
Qed.

(** A call that ends with a transaction on a store that accepts changes. *)
Lemma transaction_atomic {A} eff base body staged (x : A) s s1 fuse r s' fuse' :
  durable s → view s = Ok base → Database.incident_read_only (database s) = 0 →
  kept s s1 → memory s1 = base → evidence s1 = evidence s → eff base = Some staged →
  (∀ db, body (loose s1) (database s1) = Ok db →
     stores (loose s1) db staged ∧ Database.incident_read_only db = 0 ∧
     Database.incidents db = Database.incidents (database s1)) →
  (do! _ := SqliteStore.transact (revision base) body staged in
   do! _ := SqliteStore.checkpoint in
   ret x) (s1, fuse) = (r, (s', fuse')) →
  atomic eff (Database.incident_read_only (database s) = 0) s r s'.
Proof.
  intros Hd Hv Hm Hk Hmem Hev Heff Hbody [[-> Hr]|(db & Hdb & -> & Hr)]%commit_inv; [| |done].
  - destruct Hr as [[e ->]| ->]; [by apply atomic_refused|]. split_and!; [done|by eapply kept_durable|by left].
  - destruct (Hbody db Hdb) as (Hst & Hro & Hinc). destruct (view_Ok s base Hd Hv) as (_ & Hi & _).
    assert (written (State.set_memory staged (State.set_database db s1)) staged) as Hw.
    { split; [done|]. cbn. rewrite Hev. rewrite (kp_database _ _ Hk) in Hinc.
      by eapply mutable_incidents; [apply Hd| |done..]. }
    pose proof (written_view _ _ Hw) as Hview.
    assert (durable (State.set_memory staged (State.set_database db s1))) as Hd' by (split; [apply Hst|apply Hk]).
    destruct Hr as [->|[e ->]]; (split_and!; [done|done|]).
    + exists base. split; [done|]. by rewrite Heff.
    + right. by exists base, staged.
Qed.

(** ** The calls *)

Lemma promises_revision edges n base :
  fold_left promise edges (with_revision n base) = with_revision n (fold_left promise edges base).
Proof.
  revert base. induction edges as [|e edges IH]; intros base; cbn [fold_left]; [done|].
  assert (promise (with_revision n base) e = with_revision n (promise base e)) as ->; [|apply IH].
  unfold promise. cbn [objects promised quarantined with_revision]. by destruct (_ && _ && _).
Qed.

Lemma put_atomic id bytes s fuse r s' fuse' :
  durable s → addressed id → is_bytes bytes = true → SqliteStore.put id bytes (s, fuse) = (r, (s', fuse')) →
  atomic (effect (Put id bytes)) (permitted (Put id bytes) s) s r s'.
Proof.
  intros Hd Hid Hbytes [[Hk [e ->]]|(base & Hv & Hm & Ht)]%prologue_inv; [by apply atomic_refused| |apply Hd].
  destruct (view_Ok s base Hd Hv) as ([Htab Hl Hder] & Hi & Hr).
  assert (kept s (State.set_memory base s)) as Hk by (apply kept_refl, Hd).
  unfold SqliteStore.on_memory in Ht. rewrite put_cases in Ht.
  destruct (decode id bytes) as [o|] eqn:Hdec; [|injection Ht as <- <- <-; by apply atomic_refused].
  destruct (bt_get id (objects base)) as [old|] eqn:Hold.
  { destruct (bool_decide _) eqn:Hb; injection Ht as <- <- <-; [|by apply atomic_refused].
    split_and!; [done|by eapply kept_durable|]. exists base. split; [done|]. unfold effect. rewrite put_cases, Hdec, Hold, Hb. done. }
  unfold with_next_revision in Ht. destruct (checked_add (revision base) 1) as [n|] eqn:Hn;
    [|injection Ht as <- <- <-; by apply atomic_refused].
  unfold io_bind at 1, ret in Ht.
  apply io_bind_inv in Ht as [([] & [s1 f1] & Hput & Ht)|(e & Hput & ->)]; apply put_loose_inv in Hput
    as (Hns & [K1 K2 K3 K4] & M1 & E1); try apply Hd; try done; cbn in K1, K3, K4, M1, E1.
  2: { eapply atomic_stopped; [done| |exact Hns]. by split. }
  destruct (decode_id_bytes _ _ _ Hdec) as [Hio Hbo]. subst id bytes.
  set (store := with_revision n (store_object (StoredObject.id o) o base)) in *.
  assert (visible_object store (StoredObject.id o) = Ok o) as Hvis.
  { apply visible_Ok. split; [|cbn; apply bt_get_insert_eq]. exact (mutable_quarantined _ _ _ Htab Hl Hm _). }
  assert (add_edge_promises store o = with_revision n (absorb base o)) as Hst by apply promises_revision.
  unfold get, attempt, bind, state_ref in Ht. rewrite Hvis in Ht. unfold io_bind at 1, ret in Ht. cbn [MemoryStore.raise map_err] in Ht.
  rewrite Hst in Ht.
  eapply (transaction_atomic _ base _ _ PutOutcome.New s s1); [done|done|done|by split|done|done| | |exact Ht].
  - unfold effect. rewrite put_cases, Hdec, Hold. unfold with_next_revision. rewrite Hn. fold store. rewrite Hvis. cbn. by rewrite Hst.
  - intros db Hbody. rewrite K1 in Hbody |- *. eapply put_body_stores; [exact K2|done|by eapply loaded_keeps|done|done|done|exact Hbody].
Qed.

Lemma commit_unit (n : Z) body staged (st : State.t L * option nat) :
  (do! _ := SqliteStore.transact n body staged in SqliteStore.checkpoint) st
  = (do! _ := SqliteStore.transact n body staged in
     do! _ := SqliteStore.checkpoint in
     ret tt) st.
Proof.
  unfold io_bind. destruct (SqliteStore.transact n body staged st) as [[]  st1]; [|done].
  unfold SqliteStore.checkpoint, SqliteStore.lift, inspect, ret. by destruct (permits Gate.Checkpoint) as [[]|].
Qed.

Lemma mark_promised_atomic id s fuse r s' fuse' :
  durable s → addressed id → SqliteStore.mark_promised id (s, fuse) = (r, (s', fuse')) →
  atomic (effect (MarkPromised id)) (permitted (MarkPromised id) s) s r s'.
Proof.
  intros Hd Hid [[Hk [e ->]]|(base & Hv & Hm & Ht)]%prologue_inv; [by apply atomic_refused| |apply Hd].
  destruct (view_Ok s base Hd Hv) as (Hst & Hi & Hr).
  assert (kept s (State.set_memory base s)) as Hk by (apply kept_refl, Hd).
  unfold SqliteStore.on_memory in Ht. rewrite mark_promised_cases in Ht.
  destruct (negb _ && negb _) eqn:Hc.
  2: { unfold io_bind, ret in Ht. rewrite Z.eqb_refl in Ht. injection Ht as <- <- <-.
       split_and!; [done|by eapply kept_durable|]. exists base. split; [done|]. unfold effect.
       rewrite mark_promised_cases, Hc. cbn. by rewrite Z.eqb_refl. }
  unfold with_next_revision in Ht. destruct (checked_add (revision base) 1) as [n|] eqn:Hn;
    [|injection Ht as <- <- <-; by apply atomic_refused].
  unfold io_bind at 1, ret in Ht. cbn [revision with_revision] in Ht.
  pose proof (proj1 (checked_add_Some _ _ _) Hn) as [Hnn _].
  assert ((n =? revision base) = false) as Hne by (apply Z.eqb_neq; lia). rewrite Hne, commit_unit in Ht.
  apply andb_true_iff in Hc as Hc'. destruct Hc' as [Hno%negb_true_iff Hnp%negb_true_iff].
  eapply (transaction_atomic _ base _ _ tt s); [done|done|done|exact Hk|done|done| | |exact Ht].
  - unfold effect. rewrite mark_promised_cases, Hc. unfold with_next_revision. rewrite Hn. cbn. by rewrite Hne.
  - intros db Hbody. by eapply promise_body_stores.
Qed.

(** The number of objects is bounded by the rows of the inventory. *)
Lemma loaded_len l db base : tables_ok db → loaded l db base → len (objects base) ≤ len (Database.objects db).
Proof.
  intros Ht Hl. unfold len. rewrite <-(length_map fst (objects base)), <-(length_map ObjectId.to_bytes (map fst (objects base))),
    <-(length_map fst (Database.objects db)).
  assert (∀ x, x ∈ map fst (objects base) → addressed x ∧ presence_of db x = Some 1) as Hin.
  { intros x Hx. change (map fst (objects base)) with (bt_keys (objects base)) in Hx.
    apply bt_contains_elem in Hx. unfold bt_contains in Hx. destruct (bt_get x (objects base)) as [o|] eqn:Ho; [|done].
    by apply (ld_objects _ _ _ Hl) in Ho as (? & ? & _). }
  apply inj_le, submseteq_length, NoDup_submseteq.
  - pose proof (bt_wf_nodup _ (ld_objects_wf _ _ _ Hl)) as Hnd. unfold bt_keys in Hnd. revert Hnd Hin.
    induction (map fst (objects base)) as [|x xs IH]; cbn; [constructor|]. intros [Hx Hnd]%NoDup_cons Hin.
    apply NoDup_cons. split; [|apply IH; [done|]; intros y Hy; apply Hin; by right].
    intros (y & Heq & Hy)%list_elem_of_fmap. apply Hx.
    apply to_bytes_addressed_inj in Heq as ->; [done|by apply Hin; left|by apply Hin; right].
  - intros b (x & -> & Hx)%list_elem_of_fmap. destruct (Hin x Hx) as [_ Hp]. unfold presence_of, row_of in Hp.
    destruct (bt_get (ObjectId.to_bytes x) (Database.objects db)) as [row|] eqn:Hrow; [|done]. by apply bt_get_key in Hrow.
Qed.

Lemma publish_atomic pub validator s fuse r s' fuse' :
  durable s → publication_ok pub s → SqliteStore.publish pub validator (s, fuse) = (r, (s', fuse')) →
  atomic (publish_effect_of pub validator) (Database.incident_read_only (database s) = 0) s r s'.
Proof.
  intros Hd [Hobjects Hlen] [[Hk [e ->]]|(base & Hv & Hm & Ht)]%prologue_inv; [by apply atomic_refused| |apply Hd].
  destruct (view_Ok s base Hd Hv) as ([Htab Hl Hder] & Hi & Hr).
  assert (kept s (State.set_memory base s)) as Hk by (apply kept_refl, Hd).
  pose proof (loaded_objects_ok _ _ _ (proj2 Hd) Htab Hl Hm) as Hok. pose proof (loaded_len _ _ _ Htab Hl) as Hle.
  unfold SqliteStore.on_memory in Ht. rewrite publish_cases in Ht.
  unfold with_next_revision in Ht. destruct (checked_add (revision base) 1) as [n|] eqn:Hn;
    [|injection Ht as <- <- <-; by apply atomic_refused].
  destruct (MemoryStore.stage pub base) as [st|f] eqn:Hst.
  2: { apply stage_Err in Hst as [e ->]; [|done|lia]. injection Ht as <- <- <-. by apply atomic_refused. }
  destruct (publish_validate pub validator _) as [results|e] eqn:Hval; [|injection Ht as <- <- <-; by apply atomic_refused].
  unfold io_bind at 1, ret in Ht.
  pose proof (stage_Ok pub base st Hok Hst) as Hfrom. pose proof (published_results _ _ _ _ _ _ Hfrom Hval) as ->.
  apply io_bind_inv in Ht as [([] & [s1 f1] & Hput & Ht)|(e & Hput & ->)]; apply put_candidates_inv in Hput
    as (Hns & [K1 K2 K3 K4] & M1 & E1); try apply Hd; try (intros c Hc; by apply Hobjects); cbn in K1, K3, K4, M1, E1.
  2: { eapply atomic_stopped; [done| |exact Hns]. by split. }
  look Ht staged Hprom; [|destruct Ht as [-> [e ->]]; apply atomic_refused; [done|by split]].
  eapply (transaction_atomic _ base _ _ _ s s1); [done|done|done|by split|done|done| | |exact Ht].
  - unfold publish_effect_of. rewrite publish_cases. unfold with_next_revision. rewrite Hn, Hst, Hval. by rewrite Hprom.
  - intros db Hbody. rewrite K1 in Hbody |- *. eapply publish_body_stores;
      [exact K2|done|by eapply loaded_keeps|done|intros c Hc; by apply Hobjects|exact Hst|exact Hprom|exact Hbody].
Qed.

(** ** Quarantine *)

Lemma evidence_name_plain incident :
  is_bytes incident = true → plain_name (SqliteStore.evidence_name incident) = true.
Proof.
  intros Hb. unfold plain_name, SqliteStore.evidence_name. apply andb_true_iff. split.
  - apply negb_true_iff, bool_decide_eq_false. intros Heq%(f_equal length). rewrite length_app in Heq. cbn in Heq. lia.
  - rewrite forallb_app. apply andb_true_iff. split; [|done]. unfold hex_encode.
    assert (∀ n, 0 ≤ n < 16 → negb (bool_decide (hex_char n ∈ [0x2f; 0x5c; 0])) = true) as Hc.
    { intros n Hn. apply negb_true_iff, bool_decide_eq_false. unfold hex_char. rewrite !elem_of_cons.
      destruct (Z.ltb_spec n 10); intros [?|[?|[?|?%not_elem_of_nil]]]; lia || done. }
    induction incident as [|c incident IH]; cbn [flat_map app forallb]; [done|].
    rewrite is_bytes_cons in Hb. apply andb_true_iff in Hb as [Hc0 Hb]. unfold is_u8, u8_max in Hc0.
    rewrite !Hc, IH; [done|done|..].
    + apply Z.mod_pos_bound. lia.
    + pose proof (Z.div_lt_upper_bound c 16 16). pose proof (Z.div_pos c 16). lia.
Qed.

Lemma take_evidence_all id : addressed id → take_evidence (SqliteStore.evidence_bytes id) = SqliteStore.evidence_bytes id.
Proof.
  intros Hid. unfold take_evidence. apply firstn_all2. unfold SqliteStore.evidence_bytes.
  rewrite length_app, addressed_bytes by done. destruct Hid as [_ Hlen]. unfold len in Hlen.
  rewrite length_app. replace (length (ObjectId.digest id)) with 32%nat by lia. apply Nat.leb_le. by vm_compute.
Qed.

Lemma create_evidence_inv id s fuse r s' fuse' :
  loose_ok (loose s) → SqliteStore.create_incident_evidence id (s, fuse) = (r, (s', fuse')) →
  r ≠ Err Stuck ∧ kept s s' ∧ memory s' = memory s ∧
  ∀ x, r = Ok x →
    x = (randomblob, lit "incidents/" ++ SqliteStore.evidence_name randomblob, sha256 (SqliteStore.evidence_bytes id)) ∧
    bt_get (SqliteStore.evidence_name randomblob) (evidence s') = Some (SqliteStore.evidence_bytes id).
Proof.
  intros Hlo Ht. unfold SqliteStore.create_incident_evidence in Ht.
  assert (kept s s) as Hrefl by (by split).
  look Ht a Ha; [|destruct Ht as [-> [e ->]]; split_and!; done].
  look Ht b Hb; [|destruct Ht as [-> [e ->]]; split_and!; done].
  set (name := SqliteStore.evidence_name randomblob) in *.
  apply bail_Ok in Hb as [Hfree _]. unfold bt_contains in Hfree.
  assert (∀ ev bytes, (∀ x y, bt_get (K:=str) x (evidence s) = Some y → bt_get (K:=str) x ev = Some y) →
    ∀ x y, bt_get (K:=str) x (evidence s) = Some y → bt_get (K:=str) x (bt_insert name bytes ev) = Some y) as Hins.
  { intros ev bytes Hev x y Hx. rewrite bt_get_insert. destruct (decide (name = x)) as [<-|]; [|auto].
    by rewrite Hx in Hfree. }
  unfold io_bind, change, ret in Ht. cbn [fst snd] in Ht.
  destruct fuse as [[|[|n]]|]; cbn in Ht; injection Ht as <- <- <-.
  - split_and!; done.
  - split_and!; [done| |done|done]. split; [done|done|done|]. cbn. apply Hins. done.
  - split_and!; [done| |done|]. { split; [done|done|done|]. cbn. by apply Hins, Hins. }
    intros x [= <-]. split; [done|]. cbn. apply bt_get_insert_eq.
  - split_and!; [done| |done|]. { split; [done|done|done|]. cbn. by apply Hins, Hins. }
    intros x [= <-]. split; [done|]. cbn. apply bt_get_insert_eq.
Qed.

(** The incidents of a store with one more quarantined object. *)
Lemma quarantining_incidents db id old n db' evidence evidence' :
  addressed id → is_bytes randomblob = true → quarantining db id old n db' →
  verify_incidents db evidence = Ok tt →
  (∀ name bytes, bt_get (K:=str) name evidence = Some bytes → bt_get (K:=str) name evidence' = Some bytes) →
  bt_get (SqliteStore.evidence_name randomblob) evidence' = Some (SqliteStore.evidence_bytes id) →
  bt_get randomblob (Database.incidents db) = None →
  Database.incidents db' = bt_insert randomblob
    (IncidentRow.mk (ObjectId.to_bytes id) (safe_hash id) (sha256 (SqliteStore.evidence_bytes id)) 2
       (lit "incidents/" ++ SqliteStore.evidence_name randomblob) 1 1 n) (Database.incidents db) →
  verify_incidents db' evidence' = Ok tt.
Proof.
  intros Hid Hb Hq [Hall _]%verify_incidents_Ok Hsub Hget Hfree Hinc. apply verify_incidents_Ok. rewrite Hinc.
  assert (∀ key, bt_get key (Database.objects db')
    = if decide (ObjectId.to_bytes id = key) then Some (quarantined_row old) else bt_get key (Database.objects db)) as Hrow.
  { intros key. rewrite (qt_objects _ _ _ _ _ Hq), bt_get_insert. by repeat case_decide. }
  pose proof (bt_insert_perm _ (IncidentRow.mk (ObjectId.to_bytes id) (safe_hash id)
    (sha256 (SqliteStore.evidence_bytes id)) 2 (lit "incidents/" ++ SqliteStore.evidence_name randomblob) 1 1 n) _ Hfree) as Hperm.
  split.
  - intros e He. rewrite Hperm in He. apply elem_of_cons in He as [->|He].
    + exists (SqliteStore.evidence_name randomblob), (SqliteStore.evidence_bytes id).
      cbn [snd IncidentRow.evidence_relative_path IncidentRow.evidence_sha256 IncidentRow.affected_object_id].
      rewrite take_evidence_all by done.
      split_and!; [apply strip_prefix_app|by apply evidence_name_plain|exact Hget|reflexivity|].
      intros _. rewrite Hrow, decide_True by done. done.
    + destruct (Hall e He) as (name & bytes & ? & ? & ? & ? & Hp). exists name, bytes. split_and!; auto.
      intros Hs. rewrite Hrow. destruct (decide _); [done|auto].
  - rewrite (qt_incident _ _ _ _ _ Hq). rewrite (proj2 (existsb_exists _ _)); [done|].
    eexists (randomblob, _). split; [apply list_elem_of_In, bt_get_elem, bt_get_insert_eq|done].
Qed.

Lemma quarantine_atomic id s fuse r s' fuse' :
  durable s → addressed id → is_bytes randomblob = true → SqliteStore.quarantine id (s, fuse) = (r, (s', fuse')) →
  atomic (effect (Quarantine id)) (permitted (Quarantine id) s) s r s'.
Proof.
  intros Hd Hid Hrand Ht. unfold SqliteStore.quarantine in Ht. assert (kept s s) as Hrefl by (split; try done; apply Hd).
  look Ht a Ha; [|destruct Ht as [-> [e ->]]; by apply atomic_refused]. clear a Ha.
  apply io_bind_inv in Ht as [([] & [s1 f1] & [(base & Hv & _ & -> & ->)|[-> [e [=]]]]%refresh_inv & Ht)
    |(e & [(base & _ & [=] & _)|[-> [e' [= ->]]]]%refresh_inv & ->)]; [|by apply atomic_refused].
  change (io_bind SqliteStore.stage ?k (State.set_memory base s, fuse)) with (k base (State.set_memory base s, fuse)) in Ht.
  destruct (view_Ok s base Hd Hv) as (Hst & Hi & Hr). pose proof Hst as [Htab Hl _].
  assert (kept s (State.set_memory base s)) as Hk by (apply kept_refl, Hd).
  unfold SqliteStore.on_memory in Ht. rewrite quarantine_cases in Ht.
  destruct (negb _ && negb _) eqn:Hc; [injection Ht as <- <- <-; by apply atomic_refused|].
  destruct (negb (set_contains id (quarantined base))) eqn:Hq.
  2: { unfold io_bind, ret in Ht. rewrite Z.eqb_refl in Ht. injection Ht as <- <- <-.
       split_and!; [done|by eapply kept_durable|]. exists base. split; [done|]. unfold effect.
       rewrite quarantine_cases, Hc, Hq. cbn. by rewrite Z.eqb_refl. }
  unfold with_next_revision in Ht. destruct (checked_add (revision base) 1) as [n|] eqn:Hn;
    [|injection Ht as <- <- <-; by apply atomic_refused].
  unfold io_bind at 1, ret in Ht. cbn [revision with_revision] in Ht.
  pose proof (proj1 (checked_add_Some _ _ _) Hn) as [Hnn _].
  assert ((n =? revision base) = false) as Hne by (apply Z.eqb_neq; lia). rewrite Hne in Ht.
  set (staged := SqliteStore.forget id _) in Ht.
  assert (effect (Quarantine id) base = Some staged) as Heff.
  { unfold effect. rewrite quarantine_cases, Hc, Hq. unfold with_next_revision. rewrite Hn. cbn. by rewrite Hne. }
  apply io_bind_inv in Ht as [([[incident relative] hash] & [s1 f1] & Hev & Ht)|(e & Hev & ->)];
    apply create_evidence_inv in Hev as (Hns & [K1 K2 K3 K4] & M1 & Hx); try apply Hd; cbn in K1, K3, K4, M1.
  2: { eapply atomic_stopped; [done| |exact Hns]. by split. }
  destruct (Hx _ eq_refl) as [[= -> -> ->] Hget]. rewrite commit_unit in Ht.
  apply commit_inv in Ht as [[-> Hres]|(db & Hbody & -> & Hres)]; [|..|done].
  { assert (kept s s1) as Hk1 by (by split). destruct Hres as [[e ->]| ->]; [by apply atomic_refused|].
    split_and!; [done|by eapply kept_durable|by left]. }
  assert (∃ old, row_of (database s) id = Some old) as [old Hold].
  { destruct (contains_presence _ _ _ id Hl Hid) as (Ho & Hp & _). rewrite Ho, Hp in Hc.
    unfold presence_of in Hc. destruct (row_of (database s) id); [by eexists|done]. }
  rewrite K1 in Hbody.
  eapply (quarantine_body_Ok (loose s1) (database s) base id _ _ _ old n staged) in Hbody
    as (Hqt & Hv' & Hfree & Hinc); [|done|done|by eapply loaded_keeps|done|done].
  assert (stores (loose s1) db staged) as Hst'.
  { eapply (quarantining_stores (loose s1) (database s) base id old n); try done.
    split; [done|by eapply loaded_keeps|apply Hst]. }
  assert (written (State.set_memory staged (State.set_database db s1)) staged) as Hw.
  { split; [done|]. cbn. by eapply quarantining_incidents. }
  pose proof (written_view _ _ Hw) as Hview.
  assert (durable (State.set_memory staged (State.set_database db s1))) as Hd' by (split; [apply Hst'|done]).
  destruct Hres as [->|[e ->]]; (split_and!; [done|done|]).
  - exists base. split; [done|]. by rewrite Heff.
  - right. by exists base, staged.
Qed.
End calls.
