(* ===== verification/SqliteSpec.v ===== *)
(** * The durable store, specified

    The calls of [SqliteStore] against the in-memory store: all or nothing on disk, the
    answers of the queries, which of the states a call can leave behind a later process
    can still read, and two ways to a store that never can be used again: a published line and an
    abandoned quarantine. The theorems hold for every loose store with [LooseLaws]; the witness of the
    first one runs on the model of the loose-object store. *)

From stdpp Require Import relations.
From Stdlib Require Import String.
From S2P Require Import Prelude Machine Order Utf8 Canonical ObjectId Types Objects Fields Decode References Storable ObjectSpec ReferencesFacts EdgeRoles Explore Traverse LoosePlatform LooseFrame LooseStore LooseFacts LoosePut SqliteLoose StoreModel MemoryStore MemoryFacts StoreInv StoreSteps StoreSamples StoreSpec FileTree EdgeTargets SqlSchema SqliteIndex SqliteFacts SqliteDerived SqliteLoad SqliteStore SqliteUpdate SqlitePublish SqliteCalls.
Import State.

Section spec.
Context `{Unicode, Digests} {L : Type} `{!LooseObjects L, !LooseLaws L} {env : Environment}.
Implicit Types (s : State.t L) (base staged : MemorySnapshot).

(** A step after a call that leaves the disk alone. *)
Lemma atomic_then {A B} eff allowed s (m : io StoreError.t (State.t L) A) (k : A → io StoreError.t (State.t L) B) fuse r s' fuse' :
  io_bind m k (s, fuse) = (r, (s', fuse')) →
  (∀ r1 s1 fuse1, m (s, fuse) = (r1, (s1, fuse1)) → atomic eff allowed s r1 s1) →
  (∀ a s1 fuse1 r1 s2 fuse2, k a (s1, fuse1) = (r1, (s2, fuse2)) → s2 = s1 ∧ ((∃ b, r1 = Ok b) ∨ ∃ e, r1 = Err (Raised e))) →
  atomic eff allowed s r s'.
Proof.
  intros [(a & [s1 f1] & Hm & Hk)|(e & Hm & ->)]%io_bind_inv Hat Hend.
  - apply Hat in Hm as (_ & Hd & base & Hv & Heff). apply Hend in Hk as [-> Hr].
    destruct Hr as [[b ->]|[e ->]]; (split_and!; [done|done|]); [by exists base|].
    destruct (eff base) as [staged|] eqn:He; [|left; apply Heff]. right. exists base, staged. naive_solver.
  - apply Hat in Hm as (Hns & Hd & Hcase). split_and!; [congruence|done|done].
Qed.

(** ** What a reload accepts *)

Lemma reload_iff base :
  bt_wf (objects base) → bt_wf (references base) → unquarantined base →
  reload base = Ok base ↔
  ∀ key state, bt_get key (references base) = Some state → checked (objects base) key state.
Proof.
  intros Ho Hr Hq. rewrite <-verified_references by done. unfold reload.
  destruct (try_for_each _ _) as [[]|]; naive_solver.
Qed.

Lemma reload_cases base : reload base = Ok base ∨ reload base = Err StoreError.UnsupportedDatabase.
Proof.
  unfold reload. destruct (try_for_each (verify_reference base) (references base)) as [[]|e] eqn:He; [by left|]. right. cbn.
  apply try_for_each_Err in He as ([key state] & _ & He). f_equal. revert He. unfold verify_reference.
  destruct (bt_get (ReferenceState.target state) (objects base)) as [t|]; cbn [ok_or mbind result_bind map_err reject_if]; [|congruence].
  destruct (bt_get (ReferenceState.operation state) (objects base)) as [o|]; cbn [ok_or mbind result_bind map_err reject_if]; [|congruence].
  destruct (_ || _ || _ || _); cbn [ok_or mbind result_bind map_err reject_if]; [congruence|].
  destruct (closure_from base _); cbn [ok_or mbind result_bind map_err reject_if]; [|congruence]. destruct (_ && _); cbn [ok_or mbind result_bind map_err reject_if]; congruence.
Qed.

Lemma loaded_unquarantined l db base : loaded l db base → unquarantined base.
Proof.
  intros Hl x o (Hx & Hp & _)%(ld_objects _ _ _ Hl). destruct (contains_presence _ _ _ x Hl Hx) as (_ & _ & ->).
  by rewrite Hp, bool_decide_false.
Qed.

(** More objects keep the references that a reload accepted. *)
Lemma reload_extends base staged :
  bt_wf (objects base) → bt_wf (references base) → unquarantined base → reload base = Ok base →
  bt_wf (objects staged) → unquarantined staged → references staged = references base →
  extends (objects base) (objects staged) → reload staged = Ok staged.
Proof.
  intros Wo Wr Hq Hb Wo' Hq' Hr Hext. rewrite reload_iff in Hb by done. apply reload_iff; [done|by rewrite Hr|done|].
  rewrite Hr. intros key state Hk. eapply checked_extends; [done|auto].
Qed.

Lemma call_atomic (c : call) s fuse r s' fuse' :
  durable s → call_ok c s → execute c (s, fuse) = (r, (s', fuse')) →
  atomic (effect c) (permitted c s) s r s'.
Proof.
  intros Hd Hok. destruct c as [id bytes|id|id|pub validator|key expected target operation validator]; cbn [execute].
  - intros Hr. eapply atomic_then; [exact Hr| |].
    + intros r1 s1 f1. apply put_atomic; [done|apply Hok..].
    + intros a s1 f1 r1 s2 f2 [= <- <- <-]. eauto.
  - apply mark_promised_atomic; [done|apply Hok].
  - apply quarantine_atomic; [done|apply Hok..].
  - intros Hr. eapply atomic_then; [exact Hr| |].
    + intros r1 s1 f1. by apply publish_atomic.
    + intros a s1 f1 r1 s2 f2 [= <- <- <-]. eauto.
  - intros Hr. eapply atomic_then; [exact Hr| |].
    + intros r1 s1 f1 Hc. eapply atomic_then; [exact Hc| |].
      * intros r2 s2 f2. by apply publish_atomic.
      * intros a s2 f2 r2 s3 f3. unfold SqliteStore.lift, inspect. destruct (ok_or (head a) _); intros [= <- <- <-]; eauto.
    + intros a s1 f1 r1 s2 f2 [= <- <- <-]. eauto.
Qed.

(** C12: The durable store implements the in-memory store atomically. Whatever the system refuses and
    wherever the process is interrupted, a call never gets stuck; it leaves the database as it was, with every
    record and evidence file still readable, or the disk holds exactly the snapshot that the in-memory
    store staged, as far as a reload accepts it; if the call succeeds, the effect has happened and
    the process has the new snapshot. While an incident is open only a quarantine has an effect. *)
Theorem durable_call_atomic (c : call) s fuse r s' fuse' :
  durable s → call_ok c s → execute c (s, fuse) = (r, (s', fuse')) →
  atomic (effect c) (permitted c s) s r s'.
Proof. apply call_atomic. Qed.

(** The queries. When the system lets the process reload, a query of the durable store answers what
    the in-memory store answers on the snapshot that the disk holds, and the disk does not change; a
    disk that cannot be read is reported. *)
Theorem durable_queries {A} (m : locked A) s fuse :
  (∀ gate, permits gate = Ok tt) →
  SqliteStore.query m (s, fuse)
  = match view s with
    | Err e => (Err (Raised e), (s, fuse))
    | Ok base =>
        (match (m base).2 with
         | Ok a => Ok a
         | Err (Raise e) => Err (Raised e)
         | Err _ => Err Stuck
         end, (State.set_memory base s, fuse))
    end.
Proof.
  intros Hp. unfold SqliteStore.query, SqliteStore.refresh, SqliteStore.lift, io_bind, inspect. cbn. rewrite !Hp. cbn.
  unfold view. destruct (verify_incidents _ _) as [[]|e]; cbn; [|done].
  destruct (load_snapshot _ _) as [base|e]; cbn; [|done]. unfold SqliteStore.on_memory.
  by destruct (m base) as [base' [a|[e| |]]].
Qed.

(** The operation of a publication has an edge to each target that it publishes, the head of the
    operations apart. *)
Definition targets_named (pub : Publication.t) base staged : Prop :=
  ∀ u o, u ∈ Publication.updates pub → is_head (RefUpdate.key u) = false →
    bt_get (Publication.operation pub) (objects staged) = Some o →
    names_target (RefUpdate.key u) (next_of base pub u) o = true.

(** No reference needs the object. *)
Definition unreferenced base (id : oid) : Prop :=
  ∀ key state r e, bt_get key (references base) = Some state → r ∈ checkpoint_roots key state →
    rtc (holds (objects base)) r e → edge_id e ≠ id.

Lemma publish_effect_cases pub validator base staged :
  publish_effect_of pub validator base = Some staged →
  ∃ st n, MemoryStore.stage pub base = Ok st ∧
    SqliteStore.promise_candidates (with_revision n st) (Publication.objects pub) = Ok staged.
Proof.
  unfold publish_effect_of. rewrite publish_cases. unfold with_next_revision.
  destruct (checked_add _ _) as [n|]; [|done]. destruct (MemoryStore.stage pub base) as [st|]; [|done].
  destruct (publish_validate _ _ _); [|done]. intros Hp. exists st, n. split; [done|].
  by destruct (SqliteStore.promise_candidates _ _); [injection Hp as ->|].
Qed.

(** The head of the operations points at the operation that is published. *)
Lemma head_target pub o st u :
  validate_operation pub o st = Ok tt → u ∈ Publication.updates pub → is_head (RefUpdate.key u) = true →
  RefUpdate.target u = Publication.operation pub.
Proof.
  unfold validate_operation. intros (m & _ & (v & _ & (actions & _ & (consumed & Hf & _)%bind_Ok)%bind_Ok)%bind_Ok)%bind_Ok.
  intros Hu Hh. apply list_elem_of_split in Hu as (pre & post & Heq). rewrite Heq, try_fold_app in Hf.
  apply bind_Ok in Hf as (c1 & _ & (c2 & Ha & _)%bind_Ok). unfold authorize in Ha.
  destruct (RefUpdate.key u); try done. apply bail_Ok in Ha as [Ha _]. by apply negb_false_iff, bool_decide_eq_true in Ha.
Qed.

Lemma publish_reload l db pub validator base staged :
  loose_ok l → tables_ok db → loaded l db base → Database.incident_read_only db = 0 → reload base = Ok base →
  publish_effect_of pub validator base = Some staged → reload staged = Ok staged ↔ targets_named pub base staged.
Proof.
  intros Hlo Htab Hl Hm Hb (st & n & Hstage & Hprom)%publish_effect_cases.
  pose proof (loaded_objects_ok l db base Hlo Htab Hl Hm) as Hok. pose proof (stage_Ok pub base st Hok Hstage) as Hfrom.
  apply promise_candidates_Ok in Hprom as [Hst _].
  destruct (promise_all_spec (candidate_objects (objects (with_revision n st)) (Publication.objects pub)) (with_revision n st))
    as [Honly _]; [apply Hfrom|]. rewrite <-Hst in Honly. unfold promised_only in Honly. clear Hst.
  assert (objects staged = objects st) as Eo by (by rewrite Honly). assert (references staged = references st) as Er by (by rewrite Honly).
  assert (unquarantined staged) as Hq.
  { intros x o _. rewrite Honly. cbn. rewrite (sf_quarantined _ _ _ Hfrom). by apply (mutable_quarantined l db). }
  rewrite reload_iff; [|rewrite Eo; apply Hfrom|rewrite Er; apply Hfrom, Hl|done].
  rewrite reload_iff in Hb; [|apply Hl|apply Hl|by eapply loaded_unquarantined].
  unfold targets_named. rewrite Eo, Er. destruct (sf_operation _ _ _ Hfrom) as (op & [_ Hop]%visible_Ok & Hkop & Hval).
  pose proof (sf_updates _ _ _ Hfrom) as Hus. rewrite Forall_forall in Hus. split.
  - intros Hall u o Hu Hh Ho. destruct (sf_references _ _ _ Hfrom u Hu) as [Hget _].
    destruct (Hall _ _ Hget) as (t & o' & _ & Ho' & _ & _ & _ & _ & _ & Hn). cbn in Ho'. rewrite Ho in Ho'.
    injection Ho' as <-. auto.
  - intros Hnamed key state Hget. destruct (decide (key ∈ map RefUpdate.key (Publication.updates pub)))
      as [(u & -> & Hu)%list_elem_of_fmap|Hnot].
    + destruct (sf_references _ _ _ Hfrom u Hu) as [Hu' _]. rewrite Hget in Hu'. injection Hu' as ->.
      destruct (Hus u Hu) as (_ & t & [_ Ht]%visible_Ok & Hk & Hi). exists t, op. cbn. split_and!; try done.
      * intros Hh. by eapply head_target.
      * intros r e Hr. apply (sf_complete _ _ _ Hfrom). unfold checkpoint_roots in Hr. cbn in Hr. unfold publication_roots.
        rewrite !elem_of_cons in Hr. destruct Hr as [->|[->|[]%not_elem_of_nil]]; [right|left].
        apply list_elem_of_fmap. by exists u.
      * intros Hh. by apply Hnamed.
    + rewrite (sf_others _ _ _ Hfrom key Hnot) in Hget. eapply checked_extends; [by eapply staged_extends|auto].
Qed.

Lemma put_reload l db id bytes base staged :
  loose_ok l → tables_ok db → loaded l db base → Database.incident_read_only db = 0 → reload base = Ok base →
  effect (Put id bytes) base = Some staged → reload staged = Ok staged.
Proof.
  intros Hlo Htab Hl Hm Hb. unfold effect. rewrite put_cases. destruct (decode id bytes) as [o|] eqn:Hdec; [|done].
  destruct (bt_get id (objects base)) eqn:Hold; [by case_bool_decide|]. unfold with_next_revision.
  destruct (checked_add _ _) as [n|]; [|done]. destruct (visible_object _ id) as [o'|]; [|done]. intros [= <-].
  destruct (promises_spec (StoredObject.references o') (with_revision n (store_object id o base))) as (Honly & _).
  { apply bt_remove_wf, Hl. }
  unfold promised_only in Honly. apply (reload_extends base); try apply Hl; [by eapply loaded_unquarantined|done|..];
    unfold add_edge_promises; rewrite Honly.
  - apply bt_insert_wf, Hl.
  - intros x o2 _. cbn. by apply (mutable_quarantined l db).
  - done.
  - by apply bt_insert_extends.
Qed.

Lemma promise_reload l db id base staged :
  loaded l db base → reload base = Ok base → effect (MarkPromised id) base = Some staged → reload staged = Ok staged.
Proof.
  intros Hl Hb. unfold effect. rewrite mark_promised_cases.
  destruct (negb _ && negb _); [|cbn; by rewrite Z.eqb_refl]. unfold with_next_revision.
  destruct (checked_add _ _) as [n|]; [|cbn; by rewrite Z.eqb_refl]. cbn [fst revision with_revision].
  destruct (n =? _); [done|]. intros [= <-].
  pose proof (loaded_unquarantined _ _ _ Hl) as Hq.
  apply (reload_extends base); [apply Hl|apply Hl|exact Hq|done|apply Hl|exact Hq|done|by intros ??].
Qed.

Lemma remove_path objs id r e :
  bt_wf objs → rtc (holds (bt_remove id objs)) r e → rtc (holds objs) r e.
Proof.
  intros Hwf. revert e. apply rtc_ind_r; [done|]. intros x y _ (o & Ho & Hy) IH. eapply rtc_r; [exact IH|]. exists o.
  split; [|done]. destruct (decide (id = edge_id x)) as [->|Hne]; [by rewrite bt_get_remove_eq in Ho|].
  by rewrite bt_get_remove_ne in Ho.
Qed.

(** A reference survives the removal of an object exactly when it does not need it. *)
Lemma checked_remove objs id key state :
  bt_wf objs → checked objs key state →
  checked (bt_remove id objs) key state ↔
  ∀ r e, r ∈ checkpoint_roots key state → rtc (holds objs) r e → edge_id e ≠ id.
Proof.
  intros Hwf (t & o & Ht & Ho & Hk & Hop & Hi & Hh & Hc & Hn). split.
  - intros (t' & o' & _ & _ & _ & _ & _ & _ & Hc' & _) r e Hr Hp.
    assert (∀ e, rtc (holds objs) r e → rtc (holds (bt_remove id objs)) r e) as Hsub.
    { apply rtc_ind_r; [done|]. intros x y _ (ox & Hox & Hy) IH. eapply rtc_r; [exact IH|].
      destruct (Hc' r x Hr IH) as (ox' & Hox' & _). exists ox'. split; [done|].
      destruct (decide (id = edge_id x)) as [->|Hne]; [by rewrite bt_get_remove_eq in Hox'|].
      rewrite bt_get_remove_ne in Hox' by done. rewrite Hox in Hox'. by injection Hox' as <-. }
    destruct (Hc' r e Hr (Hsub e Hp)) as (oe & Hoe & _). intros Heq. rewrite Heq, bt_get_remove_eq in Hoe; done.
  - intros Hall. assert (∀ r, r ∈ checkpoint_roots key state → edge_id r ≠ id) as Hroot.
    { intros r Hr. by apply (Hall r r). }
    exists t, o. split_and!; try done.
    + rewrite bt_get_remove_ne; [done|]. intros Heq. eapply Hroot; [left|done].
    + rewrite bt_get_remove_ne; [done|]. intros Heq. eapply Hroot; [right; left|done].
    + intros r e Hr Hp%remove_path; [|done]. destruct (Hc r e Hr Hp) as (oe & Hoe & Hke). exists oe. split; [|done].
      rewrite bt_get_remove_ne; [done|]. intros Heq. by eapply Hall.
Qed.

Lemma quarantine_reload l db id base staged :
  loaded l db base → reload base = Ok base → effect (Quarantine id) base = Some staged →
  reload staged = Ok staged ↔ unreferenced base id.
Proof.
  intros Hl Hb. unfold effect. rewrite quarantine_cases. destruct (negb _ && negb _); [cbn; by rewrite Z.eqb_refl|].
  destruct (negb _); [|cbn; by rewrite Z.eqb_refl]. unfold with_next_revision.
  destruct (checked_add _ _) as [n|]; [|cbn; by rewrite Z.eqb_refl]. cbn [fst revision with_revision].
  destruct (n =? _); [done|]. intros [= <-]. pose proof (ld_objects_wf _ _ _ Hl) as Wo.
  rewrite reload_iff in Hb; [|done|apply Hl|by eapply loaded_unquarantined].
  rewrite reload_iff; unfold SqliteStore.forget; cbn [objects references quarantined with_promised with_objects with_revision with_quarantined].
  - unfold unreferenced. split.
    + intros Hall key state r e Hk. by apply checked_remove; auto.
    + intros Hun key state Hk. apply checked_remove; [done|auto|]. intros r e. by eapply Hun.
  - by apply bt_remove_wf.
  - apply Hl.
  - intros x o Hx. cbn in Hx |- *. destruct (decide (id = x)) as [->|Hne]; [by rewrite bt_get_remove_eq in Hx|].
    rewrite bt_get_remove_ne in Hx by done. rewrite set_insert_contains, bool_decide_false by done.
    by eapply loaded_unquarantined.
Qed.

(** When the state that a call stages can be read back. *)
Definition readable (c : call) base staged : Prop :=
  match c with
  | Put _ _ | MarkPromised _ => True
  | Quarantine id => unreferenced base id
  | Publish pub _ => targets_named pub base staged
  | CompareAndSwap key expected target operation _ => targets_named (single_update key expected target operation) base staged
  end.

Lemma reload_exact (c : call) s base staged :
  durable s → view s = Ok base → effect c base = Some staged → permitted c s →
  reload staged = Ok staged ↔ readable c base staged.
Proof.
  intros Hd Hv Heff Hm. destruct (view_Ok s base Hd Hv) as ([Htab Hl _] & _ & Hr).
  destruct c as [id bytes|id|id|pub validator|key expected target operation validator]; cbn [readable].
  - split; [done|]. intros _. eapply put_reload; [apply Hd|done..].
  - split; [done|]. intros _. by eapply promise_reload.
  - by eapply quarantine_reload.
  - eapply publish_reload; [apply Hd|done..].
  - eapply publish_reload; [apply Hd|done..].
Qed.

(** C26: Which states can be read back. A store that a process could read stays readable after an object
    was added or promised; after a publication exactly if its operation has an edge to every new target, and after a
    quarantine exactly if no reference needs the object. Otherwise every later call reports
    [UnsupportedDatabase]. *)
Theorem durable_reload_exact (c : call) s base staged :
  durable s → view s = Ok base → effect c base = Some staged → permitted c s →
  (reload staged = Ok staged ↔ readable c base staged) ∧
  (reload staged = Ok staged ∨ reload staged = Err StoreError.UnsupportedDatabase).
Proof. intros Hd Hv He Hp. split; [by eapply reload_exact|apply reload_cases]. Qed.

(** ** A published line

    The state of a line names the operation that advances it, so the operation cannot name the
    state: identifiers are digests of contents, and no two objects name each other. *)

Definition names (o : StoredObject.t) (id : oid) : bool :=
  existsb (λ e, bool_decide (edge_id e = id)) (StoredObject.references o).

Definition one_way (objs : object_map) : bool :=
  forallb (λ '(id, o), forallb (λ e,
    match bt_get (edge_id e) objs with Some o' => negb (names o' id) | None => true end)
    (StoredObject.references o)) objs.

Lemma one_way_spec objs a b o o' :
  one_way objs = true → bt_get a objs = Some o → bt_get b objs = Some o' →
  names o b = true → names o' a = false.
Proof.
  unfold one_way. rewrite forallb_Forall, Forall_forall. intros Hall Ho%bt_get_elem Ho' Hn.
  specialize (Hall _ Ho). cbn in Hall. rewrite forallb_Forall, Forall_forall in Hall.
  unfold names in Hn. apply existsb_exists in Hn as (e & He%list_elem_of_In & Heq%bool_decide_eq_true).
  specialize (Hall e He). rewrite Heq, Ho' in Hall. by apply negb_true_iff.
Qed.

Lemma value_field_optional m k : value_field m k = optional_field m k.
Proof.
  unfold value_field. induction m as [|[k' v] m IH]; [done|]. cbn. by destruct (k' =? k).
Qed.

Lemma then_elem (a b : edges) es e :
  (a +++ b) = Ok es → (∃ x, a = Ok x ∧ e ∈ x) ∨ (∃ y, b = Ok y ∧ e ∈ y) → e ∈ es.
Proof.
  intros (x & Hx & (y & Hy & [= <-])%bind_Ok)%bind_Ok [(x' & Hx' & He)|(y' & Hy' & He)]; rewrite elem_of_app;
    [left|right]; congruence.
Qed.

Lemma by_kind_line m : Edges.by_kind ObjectKind.LineState m = Edges.line_state m.
Proof. done. Qed.

Lemma then_Ok (a b : edges) es : (a +++ b) = Ok es → ∃ x y, a = Ok x ∧ b = Ok y.
Proof. intros (x & Hx & (y & Hy & _)%bind_Ok)%bind_Ok. eauto. Qed.

Lemma add_edge m k r expected i :
  object_id_field m k = Some i → add m k r expected = Ok [mk_edge r expected i].
Proof.
  unfold object_id_field, add. rewrite value_field_optional. intros (v & -> & Hi)%bind_Some.
  unfold object_id in Hi. apply bind_Some in Hi as (b & Hb & Hi%ok_Some).
  destruct v as [| |b'| | | | |]; try done. injection Hb as ->. unfold Fields.oid. cbn [Fields.bytes mbind result_bind].
  by rewrite Hi.
Qed.

Lemma line_state_edge m op es :
  object_id_field m 12 = Some op → Edges.line_state m = Ok es →
  mk_edge ReferenceRole.LineTransactionOperation (Some ObjectKind.Operation) op ∈ es.
Proof.
  intros Hop Hes. unfold Edges.line_state in Hes. rewrite (add_edge m 12 _ _ op Hop) in Hes.
  pose proof Hes as (x & y & _ & Hy)%then_Ok.
  eapply then_elem; [exact Hes|]. right. exists y. split; [exact Hy|].
  eapply then_elem; [exact Hy|]. right. eexists. split; [reflexivity|]. by left.
Qed.

(** A line state has an edge to its operation. *)
Lemma references_line d m op es :
  Decode.kind d = ObjectKind.LineState → Decode.value d = Map m → object_id_field m 12 = Some op →
  References.references d = Ok es →
  mk_edge ReferenceRole.LineTransactionOperation (Some ObjectKind.Operation) op ∈ es.
Proof.
  unfold References.references. intros -> -> Hop (m' & [= <-] & Hes)%bind_Ok.
  apply bind_Ok in Hes as (out & Hout & [= <-]). rewrite by_kind_line in Hout.
  apply (proj2 (dedup_spec out)). pose proof Hout as (x & y & _ & Hy)%then_Ok.
  eapply then_elem; [exact Hout|]. right. exists y. split; [exact Hy|]. by apply (line_state_edge m).
Qed.

Lemma line_state_names id bytes o m op :
  decode id bytes = Ok o → StoredObject.kind o = ObjectKind.LineState →
  value_map (StoredObject.value o) = Some m → object_id_field m 12 = Some op → names o op = true.
Proof.
  unfold decode, StoredObject.new. intros (a & _ & Ho%map_err_Ok)%bind_Ok Hk Hm Hop.
  apply bind_Ok in Ho as (es & Hes & [= <-]). unfold StoredObject.kind, StoredObject.value in *.
  destruct (Decode.value _) as [| | | | |m'| |] eqn:Hv; try done. injection Hm as ->.
  apply (references_line _ m op) in Hes; [|done..]. apply existsb_exists. eexists.
  split; [by apply list_elem_of_In, Hes|]. by apply bool_decide_eq_true.
Qed.

(** The state of a line that a publication advances names the operation. *)
Lemma line_names_operation pub base st u line :
  staged_from pub base st → u ∈ Publication.updates pub → RefUpdate.key u = ReferenceKey.Line line →
  ∃ o, bt_get (RefUpdate.target u) (objects st) = Some o ∧ names o (Publication.operation pub) = true.
Proof.
  intros Hfrom Hu Hkey. destruct (sf_operation _ _ _ Hfrom) as (op & _ & _ & Hval).
  pose proof (sf_updates _ _ _ Hfrom) as Hus. rewrite Forall_forall in Hus.
  destruct (Hus u Hu) as (_ & o & Hvis & Hk & _). rewrite Hkey in Hk.
  pose proof Hvis as [_ Ho]%visible_Ok. exists o. split; [done|].
  revert Hval. unfold validate_operation.
  intros (m & _ & (v & _ & (actions & _ & (consumed & Hf & _)%bind_Ok)%bind_Ok)%bind_Ok)%bind_Ok.
  apply list_elem_of_split in Hu as (pre & post & Heq). rewrite Heq, try_fold_app in Hf.
  apply bind_Ok in Hf as (c1 & _ & (c2 & Ha & _)%bind_Ok). unfold authorize in Ha. rewrite Hkey, Hvis in Ha.
  cbn [mbind result_bind] in Ha. apply bind_Ok in Ha as (state & Hstate%ok_or_Ok & Ha).
  apply bind_Ok in Ha as (w & _ & [_ Ha]%bail_Ok). apply bail_Ok in Ha as [Hop%negb_false_iff%bool_decide_eq_true _].
  eapply line_state_names; [by apply (ok_verified _ (sf_objects _ _ _ Hfrom))|done|exact Hstate|exact Hop].
Qed.

Lemma line_not_named l db pub validator base staged u line :
  loose_ok l → tables_ok db → loaded l db base → Database.incident_read_only db = 0 →
  publish_effect_of pub validator base = Some staged → one_way (objects staged) = true →
  u ∈ Publication.updates pub → RefUpdate.key u = ReferenceKey.Line line → ¬ targets_named pub base staged.
Proof.
  intros Hlo Htab Hl Hm (st & n & Hstage & Hprom)%publish_effect_cases Hone Hu Hkey Hnamed.
  pose proof (loaded_objects_ok l db base Hlo Htab Hl Hm) as Hok. pose proof (stage_Ok pub base st Hok Hstage) as Hfrom.
  apply promise_candidates_Ok in Hprom as [Hst _].
  destruct (promise_all_spec (candidate_objects (objects (with_revision n st)) (Publication.objects pub)) (with_revision n st))
    as [Honly _]; [apply Hfrom|]. rewrite <-Hst in Honly. unfold promised_only in Honly. clear Hst.
  assert (objects staged = objects st) as Eo by (by rewrite Honly). unfold targets_named in Hnamed. rewrite Eo in *.
  destruct (line_names_operation pub base st u line Hfrom Hu Hkey) as (o & Ho & Hn).
  destruct (sf_operation _ _ _ Hfrom) as (op & [_ Hop]%visible_Ok & _).
  specialize (Hnamed u op Hu ltac:(by rewrite Hkey) Hop).
  pose proof (one_way_spec _ _ _ _ _ Hone Ho Hop Hn) as Hnot. unfold names_target, names in *.
  apply existsb_exists in Hnamed as (e & He & [Heq%bool_decide_eq_true _]%andb_true_iff).
  assert (existsb (λ e, bool_decide (edge_id e = RefUpdate.target u)) (StoredObject.references op) = true); [|congruence].
  apply existsb_exists. exists e. split; [done|]. by apply bool_decide_eq_true.
Qed.

End spec.

Section history.
Context `{Unicode, Digests} {L : Type} `{!LooseObjects L, !LooseLaws L}.
Implicit Types (s : State.t L) (base : MemorySnapshot).

(** One call, in any surroundings and ending in any way, whose effect can be read back. *)
Definition durable_step s s' : Prop :=
  ∃ (env : Environment) c fuse r fuse', call_ok c s ∧ execute c (s, fuse) = (r, (s', fuse')) ∧
    ∀ base staged, view s = Ok base → effect c base = Some staged → readable c base staged.

Definition effect_step base base' : Prop := ∃ c, effect c base = Some base'.

(** C13: Histories of the durable store. From a store that can be read, any sequence of calls, each
    refused, interrupted or completed, whose publications name their targets and whose quarantines spare
    what references need, ends in a store that can be read, and what it holds is the result of a sequence of
    complete effects of in-memory calls on what it held. *)
Theorem durable_history s s' base :
  durable s → view s = Ok base → rtc durable_step s s' →
  durable s' ∧ ∃ base', view s' = Ok base' ∧ rtc effect_step base base'.
Proof.
  intros Hd Hv Hsteps. revert base Hd Hv. induction Hsteps as [s|s s1 s2 Hstep _ IH]; intros base Hd Hv.
  { split; [done|]. by exists base. }
  destruct Hstep as (env & c & fuse & r & fuse' & Hok & Hex & Hread).
  pose proof (call_atomic c s fuse r s1 fuse' Hd Hok Hex) as (_ & Hd1 & Hcase).
  assert (view s1 = Ok base ∨ ∃ staged, effect c base = Some staged ∧ view s1 = Ok staged) as [Hv1|(staged & He & Hv1)].
  { assert (∀ staged, effect c base = Some staged → permitted c s → reload staged = Ok staged) as Hre.
    { intros staged He Hp. apply (reload_exact c s base staged); auto. }
    destruct r as [[]|e].
    - destruct Hcase as (base' & Hv' & Hcase). rewrite Hv in Hv'. injection Hv' as <-.
      destruct (effect c base) as [staged|] eqn:He; [right|left; destruct Hcase as [Hk _]; by apply (kept_view s)].
      destruct Hcase as (Hp & _ & Hvs & _). exists staged. split; [done|]. rewrite Hvs. auto.
    - destruct Hcase as [Hk|(base' & staged & Hv' & He & Hp & _ & Hvs)]; [left; by apply (kept_view s)|].
      rewrite Hv in Hv'. injection Hv' as <-. right. exists staged. split; [done|]. rewrite Hvs. auto. }
  - by apply IH.
  - destruct (IH staged Hd1 Hv1) as [Hd2 (base2 & Hv2 & Hr)]. split; [done|]. exists base2. split; [done|].
    eapply rtc_l; [|exact Hr]. by exists c.
Qed.
(** One call, in any surroundings and ending in any way. *)
Definition any_step s s' : Prop :=
  ∃ (env : Environment) c fuse r fuse', call_ok c s ∧ execute c (s, fuse) = (r, (s', fuse')).

(** The store cannot be read, and no call and no query succeeds, whatever the surroundings. *)
Definition unreadable s : Prop :=
  view s = Err StoreError.UnsupportedDatabase ∧
  (∀ (env : Environment) c fuse, call_ok c s → (execute c (s, fuse)).1 ≠ Ok tt) ∧
  (∀ (env : Environment) A (m : locked A) fuse a, (SqliteStore.query m (s, fuse)).1 ≠ Ok a).

Lemma query_view {env : Environment} {A} (m : locked A) s fuse a :
  (SqliteStore.query m (s, fuse)).1 = Ok a → ∃ base, view s = Ok base.
Proof.
  destruct (SqliteStore.query m (s, fuse)) as [r [s' fuse']] eqn:Hq. cbn. intros ->.
  apply io_bind_inv in Hq as [([] & [s1 f1] & [(base & Hv & _)|[_ [e [=]]]]%refresh_inv & _)|(e & _ & [=])].
  by exists base.
Qed.

Lemma execute_view {env : Environment} (c : call) s fuse :
  durable s → call_ok c s → (execute c (s, fuse)).1 = Ok tt → ∃ base, view s = Ok base.
Proof.
  intros Hd Hok. destruct (execute c (s, fuse)) as [r [s' fuse']] eqn:Hx. cbn. intros ->.
  destruct (call_atomic c s fuse _ s' fuse' Hd Hok Hx) as (_ & _ & base & Hv & _). by exists base.
Qed.

Lemma written_unreadable s staged :
  durable s → written s staged → reload staged = Err StoreError.UnsupportedDatabase → unreadable s.
Proof.
  intros Hd Hw Hr. pose proof (written_view s staged Hw) as Hv. rewrite Hr in Hv. split_and!; [done|..].
  - intros env c fuse Hok Hx. destruct (execute_view c s fuse Hd Hok Hx) as [base ?]. congruence.
  - intros env A m fuse a Hx. destruct (query_view m s fuse a Hx) as [base ?]. congruence.
Qed.

(** An unreadable store stays as it is. *)
Lemma unreadable_steps s s' staged :
  durable s → written s staged → reload staged = Err StoreError.UnsupportedDatabase → rtc any_step s s' →
  durable s' ∧ written s' staged.
Proof.
  intros Hd Hw Hr Hsteps. revert Hd Hw. induction Hsteps as [s|s s1 s2 Hstep _ IH]; intros Hd Hw; [done|].
  pose proof (written_view s staged Hw) as Hv. rewrite Hr in Hv.
  destruct Hstep as (env & c & fuse & r & fuse' & Hok & Hx).
  destruct (call_atomic c s fuse r s1 fuse' Hd Hok Hx) as (_ & Hd1 & Hcase). apply IH; [done|].
  destruct r as [[]|e]; [destruct Hcase as (base & ? & _); congruence|].
  destruct Hcase as [Hk|(base & ? & ? & _)]; [by eapply kept_written|congruence].
Qed.

(** C27: A published line makes the store unreadable for good. On any store that can be read,
    every publication that advances a line and succeeds, in any surroundings, leaves a store that no
    later call reads: the state of the line must name the operation, so the operation has no edge
    to it (no two objects name each other), and a reload demands that edge. From then on, whatever
    calls are made, the store reports [UnsupportedDatabase] and no call and no query succeeds. *)
Theorem line_publication_unreadable {env : Environment} pub validator s base staged u line fuse s' fuse' :
  durable s → publication_ok pub s → view s = Ok base →
  effect (Publish pub validator) base = Some staged → one_way (objects staged) = true →
  u ∈ Publication.updates pub → RefUpdate.key u = ReferenceKey.Line line →
  execute (Publish pub validator) (s, fuse) = (Ok tt, (s', fuse')) →
  ∀ s2, rtc any_step s' s2 → unreadable s2.
Proof.
  intros Hd Hok Hv Heff Hone Hu Hkey Hx s2 Hsteps.
  destruct (call_atomic (Publish pub validator) s fuse _ s' fuse' Hd Hok Hx) as (_ & Hd' & base' & Hv' & Hcase).
  rewrite Hv in Hv'. injection Hv' as <-. rewrite Heff in Hcase. destruct Hcase as (Hp & Hw & _).
  destruct (view_Ok s base Hd Hv) as ([Htab Hl _] & _).
  assert (reload staged = Err StoreError.UnsupportedDatabase) as Hr.
  { destruct (reload_cases staged) as [Hr|]; [exfalso|done].
    apply (reload_exact (Publish pub validator) s base staged Hd Hv Heff Hp) in Hr. revert Hr.
    eapply line_not_named; [apply Hd|done..]. }
  destruct (unreadable_steps s' s2 staged Hd' Hw Hr Hsteps) as [Hd2 Hw2]. by eapply written_unreadable.
Qed.
End history.

(** ** An abandoned quarantine

    The evidence of a quarantine is durable before its transaction. If the transaction does not
    happen, the next process that opens the store adopts the evidence: it marks the object as
    quarantined, but does not rebuild the derived tables, so that loading fails for an object with a
    place in the history; an evidence file that is still empty is refused before. *)
Section openings.
Context `{Unicode, Digests} {L : Type} `{!LooseObjects L, !LooseLaws L}.
Implicit Types (s : State.t L) (base : MemorySnapshot).

(** What the adoption of an evidence file does. *)
Record adopted (known : list str) (files : BTreeMap str (list Z)) (name : str) db (affected : oid) db' : Prop := {
  ad_unknown : (lit "incidents/" ++ name) ∉ known;
  ad_named : ∃ bytes, bt_get name files = Some bytes ∧
    ∃ rest, strip_prefix (take_evidence bytes) EVIDENCE_PREFIX = Some rest ∧ ObjectId.from_bytes rest = Ok affected;
  ad_objects : ∃ row, ObjectRow.presence row = 3 ∧
    Database.objects db' = bt_insert (ObjectId.to_bytes affected) row (Database.objects db);
  ad_edges : Database.object_edges db' = Database.object_edges db;
  ad_references : Database.references db' = Database.references db;
  ad_generations : Database.graph_generations db' = Database.graph_generations db;
  ad_incident : Database.incident_read_only db' = 1;
  ad_known : ∀ path, path ∈ known_evidence db' → path = lit "incidents/" ++ name ∨ path ∈ known_evidence db }.

Lemma known_insert incident row db path :
  path ∈ known_evidence (Database.set_incidents (bt_insert incident row (Database.incidents db)) db) →
  bt_get incident (Database.incidents db) = None →
  path = IncidentRow.evidence_relative_path row ∨ path ∈ known_evidence db.
Proof.
  unfold known_evidence. cbn [Database.incidents Database.set_incidents]. intros Hp Hfree.
  rewrite (bt_insert_perm _ _ _ Hfree) in Hp. cbn in Hp. by apply elem_of_cons in Hp.
Qed.

Lemma reconcile_adopted known files name db db' :
  reconcile_entry known files name db = Ok (Some db') → ∃ affected, adopted known files name db affected db'.
Proof.
  unfold reconcile_entry. intros (hex & _ & Hr)%bind_Ok. case_bool_decide as Hk; [done|].
  apply bind_Ok in Hr as (incident & _ & [_ Hr]%bail_Ok).
  apply bind_Ok in Hr as (bytes & Hbytes%ok_or_Ok & Hr). apply bind_Ok in Hr as (rest & Hrest%ok_or_Ok & Hr).
  apply bind_Ok in Hr as (affected & Haff%map_err_Ok & Hr). apply fmap_Ok in Hr as (db1 & Hadopt & [= <-]).
  unfold adopt_evidence in Hadopt. apply bind_Ok in Hadopt as (revision & _ & Hadopt).
  apply bind_Ok in Hadopt as (db2 & [E2 _]%statement_Ok & Hadopt).
  apply bind_Ok in Hadopt as (db3 & [E3 _]%statement_Ok & Hadopt).
  apply bind_Ok in Hadopt as (db4 & [Hfree E4]%insert_Ok & [E5 _]%statement_Ok).
  apply fmap_Some in Hbytes as (content & Hcontent & ->). exists affected. subst db1 db4 db3 db2. split; try done.
  - exists content. split; [done|]. by exists rest.
  - eexists. split; [|reflexivity]. by destruct (bt_get _ (Database.objects db)).
  - intros path Hp. eapply (known_insert incident) in Hp; [|exact Hfree]. exact Hp.
Qed.

Lemma adopted_tables known files name db affected db' :
  adopted known files name db affected db' → tables_ok db → tables_ok db'.
Proof.
  intros Ha Ht. destruct (ad_objects _ _ _ _ _ _ Ha) as (row & Hrow & Ho).
  destruct (ad_named _ _ _ _ _ _ Ha) as (bytes & _ & rest & _ & Haddr%from_bytes_addressed).
  assert (∀ key r, bt_get key (Database.objects db') = Some r →
    (key = ObjectId.to_bytes affected ∧ r = row) ∨ bt_get key (Database.objects db) = Some r) as Hget.
  { intros key r. rewrite Ho, bt_get_insert. case_decide as Hk; [|by right]. intros [= <-]. by left. }
  split.
  - rewrite Ho. apply bt_insert_wf, Ht.
  - rewrite (ad_edges _ _ _ _ _ _ Ha). apply Ht.
  - rewrite (ad_references _ _ _ _ _ _ Ha). apply Ht.
  - unfold edges_of. rewrite (ad_edges _ _ _ _ _ _ Ha). apply (tb_ordinals _ Ht).
  - intros key r [[-> ->]|Hr]%Hget; [by exists affected|by apply (tb_named _ Ht) in Hr].
  - intros key r Hr. rewrite (ad_incident _ _ _ _ _ _ Ha). split; [|done].
    apply Hget in Hr as [[_ ->]|Hr]; [rewrite Hrow; set_solver|by apply (tb_presence _ Ht) in Hr as [? _]].
  - rewrite (ad_references _ _ _ _ _ _ Ha). apply (tb_keys _ Ht).
Qed.

Lemma adopted_presence known files name db affected db' x :
  adopted known files name db affected db' → addressed x →
  presence_of db' x = if decide (x = affected) then Some 3 else presence_of db x.
Proof.
  intros Ha Hx. destruct (ad_objects _ _ _ _ _ _ Ha) as (row & Hrow & Ho).
  destruct (ad_named _ _ _ _ _ _ Ha) as (bytes & _ & rest & _ & Haddr%from_bytes_addressed).
  unfold presence_of, row_of. rewrite Ho, bt_get_insert. case_decide as Hk.
  - apply to_bytes_addressed_inj in Hk as ->; [|done..]. rewrite decide_True by done. cbn. by rewrite Hrow.
  - rewrite decide_False; [done|]. by intros ->.
Qed.

(** The quarantine of [id] was abandoned after it created the evidence file [name]: the file is
    unknown to the database, or it has been adopted. *)
Definition abandoned (id : oid) (name : str) s : Prop :=
  durable s ∧ addressed id ∧
  ObjectId.to_bytes id ∈ bt_keys (Database.graph_generations (database s)) ∧
  (presence_of (database s) id = Some 3 ∨
   (lit "incidents/" ++ name) ∉ known_evidence (database s) ∧
   (bt_get name (evidence s) = Some [] ∨ bt_get name (evidence s) = Some (SqliteStore.evidence_bytes id))).

Lemma adopted_abandoned id name s known x affected db' :
  abandoned id name s → adopted known (evidence s) x (database s) affected db' →
  abandoned id name (State.set_database db' s) ∧
  (x = name ∨ presence_of (database s) id = Some 3 → presence_of db' id = Some 3).
Proof.
  intros ([Ht Hlo] & Hid & Hg & Hcase) Ha. pose proof (adopted_presence _ _ _ _ _ _ id Ha Hid) as Hp.
  assert (x = name → bt_get name (evidence s) = Some (SqliteStore.evidence_bytes id) → id = affected) as Hsame.
  { intros -> Hget. destruct (ad_named _ _ _ _ _ _ Ha) as (bytes & Hbytes & rest & Hrest & Hfrom).
    rewrite Hget in Hbytes. injection Hbytes as <-. rewrite take_evidence_all in Hrest by done.
    unfold SqliteStore.evidence_bytes in Hrest. rewrite strip_prefix_app in Hrest. injection Hrest as <-.
    rewrite from_to_addressed in Hfrom by done. by injection Hfrom. }
  assert (x = name → bt_get name (evidence s) ≠ Some []) as Hfull.
  { intros -> Hget. destruct (ad_named _ _ _ _ _ _ Ha) as (bytes & Hbytes & rest & Hrest & _).
    rewrite Hget in Hbytes. injection Hbytes as <-. done. }
  split.
  - unfold abandoned. cbn [database evidence State.set_database]. split_and!; [split; [by eapply adopted_tables|done]|done| |].
    + by rewrite (ad_generations _ _ _ _ _ _ Ha).
    + rewrite Hp. case_decide as Heq; [by left|]. destruct Hcase as [?|[Hnew Hfile]]; [by left|]. right.
      split; [|done]. intros [Hin|?]%(ad_known _ _ _ _ _ _ Ha); [|done]. apply app_inv_head in Hin as <-.
      destruct Hfile as [?|Hfile]; [by apply Hfull|]. by apply Heq, Hsame.
  - intros Hx. rewrite Hp. case_decide as Heq; [done|]. destruct Hx as [Hx|?]; [|done].
    destruct Hcase as [?|[_ [Hfile|Hfile]]]; [done|by destruct (Hfull Hx)|by destruct Heq; apply Hsame].
Qed.

Lemma reconcile_none known files name db :
  (lit "incidents/" ++ name) ∉ known → reconcile_entry known files name db ≠ Ok None.
Proof.
  intros Hn. unfold reconcile_entry. intros (hex & _ & Hr)%bind_Ok. rewrite bool_decide_false in Hr by done.
  apply bind_Ok in Hr as (incident & _ & [_ Hr]%bail_Ok).
  apply bind_Ok in Hr as (bytes & _ & Hr). apply bind_Ok in Hr as (rest & _ & Hr).
  apply bind_Ok in Hr as (affected & _ & Hr). by apply fmap_Ok in Hr as (db1 & _ & [=]).
Qed.

(** A name that is not among the evidence files is unknown to the incidents. *)
Lemma fresh_unknown s base name :
  view s = Ok base → bt_get name (evidence s) = None → (lit "incidents/" ++ name) ∉ known_evidence (database s).
Proof.
  intros ([] & [Hall _]%verify_incidents_Ok & _)%bind_Ok Hfree Hin. unfold known_evidence in Hin.
  apply list_elem_of_fmap in Hin as ([incident row] & Hpath & Hrow).
  destruct (Hall _ Hrow) as (x & bytes & Hx & _ & Hget & _). cbn beta iota delta [snd] in Hx, Hpath. rewrite <-Hpath, strip_prefix_app in Hx.
  injection Hx as <-. congruence.
Qed.

(** An object with a place in the history has a row in the table of generations. *)
Lemma history_row s s1 base id o :
  durable s → view s = Ok base → database s1 = database s → bt_get id (objects base) = Some o →
  is_Some (history_of base o) → ObjectId.to_bytes id ∈ bt_keys (Database.graph_generations (database s1)).
Proof.
  intros Hd Hv -> Ho Hh. destruct (view_Ok s base Hd Hv) as ([_ Hl Hder] & _).
  apply (verified_generations _ _ _ Hder). exists o. split_and!; [|done|].
  - apply list_elem_of_fmap. exists (id, o). split; [done|by apply bt_get_elem].
  - apply (ld_objects _ _ _ Hl) in Ho as (_ & _ & Hread). apply loose_read_decodes in Hread; [|apply Hd].
    by apply decode_id_bytes in Hread as [-> _].
Qed.

Section run.
Context {env : Environment}.

(** The loop of [reconcile_orphan_evidence]. *)
Lemma reconcile_each id name known names s fuse r s' fuse' :
  abandoned id name s →
  io_each (λ x,
    do! adopted := inspect (λ s, reconcile_entry known (evidence s) x (database s)) in
    match adopted with
    | Some db =>
        do! _ := SqliteStore.lift (permits (Gate.Adoption x)) in
        change (State.set_database db)
    | None => ret tt
    end) names (s, fuse) = (r, (s', fuse')) →
  abandoned id name s' ∧
  (presence_of (database s) id = Some 3 ∨ r = Ok tt ∧ name ∈ names ∧ (lit "incidents/" ++ name) ∉ known →
   presence_of (database s') id = Some 3).
Proof.
  revert s fuse. induction names as [|x names IH]; intros s fuse Hab; cbn [io_each].
  { intros [= <- <- <-]. split; [done|]. intros [?|(_ & Hn & _)]; [done|by apply not_elem_of_nil in Hn]. }
  intros [([] & [s1 f1] & Hx & Hrest)|(e & Hx & ->)]%io_bind_inv; look Hx found Hf.
  - destruct found as [db|].
    + apply reconcile_adopted in Hf as (affected & Ha). destruct (adopted_abandoned id name s _ _ _ _ Hab Ha) as [Hab1 Hp1].
      look Hx a Hg; [|destruct Hx as [_ [e [=]]]]. unfold change in Hx. cbn [fst snd] in Hx.
      assert (s1 = State.set_database db s) as -> by (by destruct fuse as [[|n]|]; injection Hx).
      apply IH in Hrest as [Hab' Hp']; [|done]. split; [done|]. intros Hor. apply Hp'. cbn [database State.set_database].
      destruct Hor as [?|(Hr & [->|Hin]%elem_of_cons & Hn)]; [left; auto|left; auto|right; auto].
    + injection Hx as <- <-. apply IH in Hrest as [Hab' Hp']; [|done]. split; [done|]. intros Hor. apply Hp'.
      destruct Hor as [?|(Hr & [->|Hin]%elem_of_cons & Hn)]; [by left| |by right].
      by apply reconcile_none in Hf.
  - destruct Hx as [_ [e [=]]].
  - destruct found as [db|]; [|done].
    look Hx a Hg; [|destruct Hx as [-> _]; split; [done|]; intros [?|([=] & _)]; done].
    unfold change in Hx. cbn [fst snd] in Hx. destruct fuse as [[|n]|]; [|done..]. injection Hx as _ <- _.
    split; [done|]. intros [?|([=] & _)]; done.
  - destruct Hx as [-> _]. split; [done|]. intros [?|([=] & _)]; done.
Qed.

(** An object with a row in the table of generations that is marked as quarantined cannot be loaded. *)
Lemma abandoned_unloadable id name s base :
  abandoned id name s → presence_of (database s) id = Some 3 → load_snapshot (loose s) (database s) ≠ Ok base.
Proof.
  intros ([Ht Hlo] & Hid & Hg & _) Hp (Hl & _ & Hder)%load_snapshot_Ok; [|done].
  apply (verified_generations _ _ _ Hder) in Hg as (o & Ho & _ & Heq).
  apply list_elem_of_fmap in Ho as ([x o'] & -> & Hin). cbn in Heq.
  apply bt_get_elem_iff in Hin; [|apply Hl]. apply (ld_objects _ _ _ Hl) in Hin as (Hx & Hp1 & Hread).
  apply loose_read_decodes in Hread; [|done]. apply decode_id_bytes in Hread as [Hid' _]. rewrite Hid' in Heq.
  apply to_bytes_addressed_inj in Heq as ->; [|done..]. congruence.
Qed.

Lemma open_abandoned id name s fuse r s' fuse' :
  abandoned id name s → SqliteStore.open_metadata (s, fuse) = (r, (s', fuse')) → abandoned id name s' ∧ r ≠ Ok tt.
Proof.
  intros Hab Hr. unfold SqliteStore.open_metadata in Hr. look Hr a Ha; [|by destruct Hr as [-> [e ->]]].
  unfold SqliteStore.reconcile_orphan_evidence in Hr.
  apply io_bind_inv in Hr as [([] & [s1 f1] & Hrec & Hr)|(e & Hrec & ->)].
  - look Hrec known Hknown; [|by destruct Hrec as [_ [e [=]]]]. injection Hknown as <-.
    look Hrec listing Hnames; [|by destruct Hrec as [_ [e [=]]]]. injection Hnames as <-.
    apply (reconcile_each id name) in Hrec as [Hab1 Hp1]; [|done].
    assert (presence_of (database s1) id = Some 3) as Hp.
    { apply Hp1. destruct Hab as (_ & _ & _ & [?|[Hn Hfile]]); [by left|]. right. split_and!; [done| |done].
      apply bt_contains_elem. unfold bt_contains. by destruct Hfile as [-> | ->]. }
    look Hr b Hb; [|by destruct Hr as [-> [e ->]]]. look Hr c Hc; [|by destruct Hr as [-> [e ->]]].
    look Hr base Hbase; [|by destruct Hr as [-> [e ->]]]. by eapply abandoned_unloadable in Hbase.
  - look Hrec known Hknown; [|by destruct Hrec as [-> _]]. look Hrec listing Hnames; [|by destruct Hrec as [-> _]].
    apply (reconcile_each id name) in Hrec as [Hab1 _]; done.
Qed.

(** The evidence file that a quarantine leaves, if it creates one. *)
Definition evidence_left (id : oid) s s1 : Prop :=
  evidence s1 = evidence s ∨
  bt_get (SqliteStore.evidence_name randomblob) (evidence s) = None ∧
  (bt_get (SqliteStore.evidence_name randomblob) (evidence s1) = Some [] ∨
   bt_get (SqliteStore.evidence_name randomblob) (evidence s1) = Some (SqliteStore.evidence_bytes id)).

Lemma create_evidence_left id s fuse r s' fuse' :
  SqliteStore.create_incident_evidence id (s, fuse) = (r, (s', fuse')) → evidence_left id s s'.
Proof.
  intros Ht. unfold SqliteStore.create_incident_evidence in Ht. unfold evidence_left.
  look Ht a Ha; [|destruct Ht as [-> _]; by left]. look Ht b Hb; [|destruct Ht as [-> _]; by left].
  apply bail_Ok in Hb as [Hfree _]. unfold bt_contains in Hfree.
  destruct (bt_get (SqliteStore.evidence_name randomblob) (evidence s)); [done|].
  unfold io_bind, change, ret in Ht. cbn [fst snd] in Ht.
  destruct fuse as [[|[|n]]|]; cbn in Ht; injection Ht as <- <- <-; cbn [evidence State.set_evidence]; [by left|right..];
    (split; [done|]); rewrite bt_get_insert_eq; auto.
Qed.

(** Where a quarantine can stop without its transaction. *)
Lemma quarantine_stops id s fuse e s1 fuse1 :
  durable s → execute (Quarantine id) (s, fuse) = (Err e, (s1, fuse1)) → database s1 = database s →
  kept s s1 ∧ evidence_left id s s1.
Proof.
  intros Hd Ht Hdb. cbn [execute] in Ht. unfold SqliteStore.quarantine in Ht.
  assert (∀ m, kept s (State.set_memory m s) ∧ evidence_left id s (State.set_memory m s)) as Hm.
  { intros m. split; [by apply kept_refl, Hd|by left]. }
  assert (kept s s ∧ evidence_left id s s) as Hrefl by (split; [split; [done|apply Hd|done|done]|by left]).
  look Ht a Ha; [|by destruct Ht as [-> _]].
  apply io_bind_inv in Ht as [([] & [s2 f2] & [(base & Hv & _ & -> & ->)|[-> [e' [=]]]]%refresh_inv & Ht)
    |(e' & [(base & _ & [=] & _)|[-> _]]%refresh_inv & _)]; [|done].
  change (io_bind SqliteStore.stage ?k (State.set_memory base s, fuse)) with (k base (State.set_memory base s, fuse)) in Ht.
  unfold SqliteStore.on_memory in Ht. rewrite quarantine_cases in Ht.
  destruct (negb _ && negb _); [by injection Ht as _ <- _|].
  destruct (negb (set_contains id (quarantined base))).
  2: { unfold io_bind, ret in Ht. by rewrite Z.eqb_refl in Ht. }
  unfold with_next_revision in Ht. destruct (checked_add (revision base) 1) as [n|]; [|by injection Ht as _ <- _].
  unfold io_bind at 1, ret in Ht. cbn [revision with_revision] in Ht. destruct (n =? revision base); [done|].
  apply io_bind_inv in Ht as [([[incident relative] hash] & [s2 f2] & Hev & Ht)|(e' & Hev & _)];
    pose proof (create_evidence_left _ _ _ _ _ _ Hev) as Hleft;
    apply create_evidence_inv in Hev as (_ & [K1 K2 K3 K4] & M1 & _); try apply Hd; [|by split].
  rewrite commit_unit in Ht. apply commit_inv in Ht as [[-> _]|(db & _ & -> & _)]; [by split; [split|]| |done].
  split; [by split|done].
Qed.
End run.

(** One attempt to open the store, in any surroundings and ending in any way. *)
Definition opening s s' : Prop :=
  ∃ (env : Environment) fuse r fuse', SqliteStore.open_metadata (s, fuse) = (r, (s', fuse')).

(** C28: An abandoned quarantine makes the store impossible to open. Take any store that can be
    read and an object in it with a place in the history (a snapshot or an operation whose ancestors
    are there). If its quarantine stops, killed or refused, after it created the evidence file and
    without its transaction, the store can still be read; but no process can open it any more: however
    often it is tried, in whatever surroundings and wherever the attempts are interrupted, no attempt
    succeeds. *)
Theorem interrupted_quarantine_unopenable {env : Environment} id o s base fuse e s1 fuse1 :
  durable s → view s = Ok base → addressed id → is_bytes randomblob = true →
  bt_get id (objects base) = Some o → is_Some (history_of base o) →
  execute (Quarantine id) (s, fuse) = (Err e, (s1, fuse1)) →
  database s1 = database s → evidence s1 ≠ evidence s →
  view s1 = Ok base ∧
  ∀ s2, rtc opening s1 s2 → ∀ (env2 : Environment) fuse2, (SqliteStore.open_metadata (s2, fuse2)).1 ≠ Ok tt.
Proof.
  intros Hd Hv Hid Hrand Ho Hh Hx Hdb Hev.
  destruct (quarantine_stops id s fuse e s1 fuse1 Hd Hx Hdb) as [Hk [?|[Hfresh Hfile]]]; [done|].
  split; [by eapply kept_view|].
  assert (abandoned id (SqliteStore.evidence_name randomblob) s1) as Hab.
  { split_and!; [by eapply kept_durable|done| |].
    - by eapply history_row.
    - right. rewrite Hdb. split; [by eapply fresh_unknown|done]. }
  intros s2 Hsteps. assert (abandoned id (SqliteStore.evidence_name randomblob) s2) as Hab2.
  { clear -Hab Hsteps. induction Hsteps as [|s1 s3 s2 (env' & f & r & f' & Hop) _ IH]; [done|]. apply IH.
    by eapply open_abandoned in Hop as [? _]. }
  intros env2 fuse2 Hr. destruct (SqliteStore.open_metadata (s2, fuse2)) as [r [s3 fuse3]] eqn:Hop. cbn in Hr.
  by eapply open_abandoned in Hop as [_ ?].
Qed.
End openings.


(** ** A durable repository

    A loose store that keeps the bytes of every object, an undisturbed environment, and the
    objects that a first line needs: a manifest, a snapshot, the state of the line and the
    operation that declares it. *)

(** The map from identifiers to bytes, as a loose store. *)
Definition plain_objects `{Unicode, Digests} : LooseObjects (BTreeMap oid (list Z)) := {|
  loose_put := λ id bytes,
    do! present := inspect (λ l, Ok (bt_contains id l)) in
    if present : bool then ret PutLooseOutcome.AlreadyPresent
    else do! _ := change (bt_insert id bytes) in ret PutLooseOutcome.New;
  loose_read := λ l id,
    match bt_get id l with
    | None => Err LooseStoreError.Unavailable
    | Some bytes => map_err (λ _, LooseStoreError.Checksum) (MemoryStore.decode id bytes)
    end;
  loose_length := λ l id, (λ bytes, len bytes + 100) <$> bt_get id l |}.

#[local] Existing Instance ascii_unicode.
#[local] Existing Instance length_digests.
#[local] Existing Instance plain_objects.

Definition quiet : Environment := {|
  check := λ _, Ok tt; permits := λ _, Ok tt; randomblob := replicate 16 6 |}.

(** The run of an operation with unlimited fuse. *)
Definition sample_state : Type := State.t (BTreeMap oid (list Z)).
Definition empty_state : sample_state := State.mk _ Database.initial [] [] MemoryStore.new.
Definition run {A} (m : io StoreError.t sample_state A) (s : sample_state) :=
  let '(r, (s, _)) := m (s, None) in (r, s).

Definition line_id : list Z := replicate 16 0x21.
Definition root_manifest : PublicationObject.t := sample_object ObjectKind.Manifest
  (Manifest.canonical_map (Manifest.mk root_policy_ref [])).
Definition first_snapshot : PublicationObject.t := sample_object ObjectKind.Snapshot
  (Snapshot.canonical_map (Snapshot.mk root_policy_ref (PublicationObject.id root_manifest) []
     (replicate 16 3) (replicate 16 7) (replicate 16 8) 1 (WallTime.mk 0 0) None)).
Definition line_declaration : LineAdvanceDeclaration.t :=
  LineAdvanceDeclaration.mk root_policy_ref line_id (lit "main") (PublicationObject.id first_snapshot) 0 None
    root_policy_ref root_policy_ref root_policy_ref root_policy_ref.
Definition declare_line : PublicationObject.t :=
  operation_object [PublicationObject.id genesis] [OperationAction.LineAdvance line_declaration] "line".
Definition first_line : PublicationObject.t := sample_object ObjectKind.LineState
  (LineState.canonical_map (LineState.mk root_policy_ref line_id (lit "main")
     (PublicationObject.id first_snapshot) 0 None root_policy_ref root_policy_ref root_policy_ref root_policy_ref
     (PublicationObject.id declare_line) (sample_signature SignaturePurpose.LineState))).
Definition line_publication (head : ReferenceState.t) : Publication.t :=
  Publication.mk [root_manifest; first_snapshot; declare_line; first_line]
    [RefUpdate.mk ReferenceKey.OperationHead (ExpectedRef.Exact head) (PublicationObject.id declare_line);
     RefUpdate.mk (ReferenceKey.Line line_id) ExpectedRef.Absent (PublicationObject.id first_line)]
    (PublicationObject.id declare_line).

(** ** A small history *)

#[local] Existing Instance quiet.

(** The map of identifiers to bytes keeps what it holds. *)
#[local] Instance plain_laws : LooseLaws (BTreeMap oid (list Z)).
Proof.
  refine {| loose_ok := λ _, True |}.
  - intros l id o _. cbn. destruct (bt_get id l) as [bytes|]; [|done]. intros Ho%map_err_Ok.
    by destruct (decode_id_bytes _ _ _ Ho) as [_ ->].
  - intros id bytes l fuse r l' fuse' _ _. cbn. unfold io_bind, inspect, change, ret. cbn.
    unfold bt_contains. destruct (bt_get id l) as [old|] eqn:Hold; [intros [= <- <- <-]; done|].
    assert (∀ x o, loose_read l x = Ok o → loose_read (bt_insert id bytes l) x = Ok o) as Hkeep.
    { intros x o. cbn. rewrite bt_get_insert. destruct (decide (id = x)) as [<-|]; [by rewrite Hold|done]. }
    destruct fuse as [[|n]|]; intros [= <- <- <-]; done.
Defined.

(** The state of the disk after a call. *)
Definition next (c : call) (s : sample_state) : sample_state := (run (execute c) s).2.

Definition published_state : sample_state := next (Publish first_publication allow) empty_state.
Definition snapshot_state : sample_state :=
  next (Put (PublicationObject.id first_snapshot) (PublicationObject.bytes first_snapshot))
    (next (Put (PublicationObject.id root_manifest) (PublicationObject.bytes root_manifest)) published_state).

Lemma initial_durable : durable empty_state.
Proof.
  split; [|done]. split; cbn; [apply bt_wf_nil..| |done|done|done]. intros source n row Hin. by apply not_elem_of_nil in Hin.
Qed.

(** The publication of the first state of a line, with its snapshot, its operation and the new head. *)
Example line_publication_sample :
  let c := Publish (line_publication genesis_head) allow in
  (run (execute c) published_state).1 = Ok tt ∧
  view (next c published_state) = Err StoreError.UnsupportedDatabase.
Proof. vm_compute. split; reflexivity. Qed.

(** A process that is killed between writing the evidence and committing. *)
Definition killed_state : sample_state :=
  (execute (Quarantine (PublicationObject.id first_snapshot)) (snapshot_state, Some 2%nat)).2.1.

(** The quarantine of an object that a reference needs succeeds, and nothing can be read afterwards. *)
Example referenced_quarantine_unreadable :
  let c := Quarantine (PublicationObject.id genesis) in
  (run (execute c) published_state).1 = Ok tt ∧ view (next c published_state) = Err StoreError.UnsupportedDatabase.
Proof. vm_compute. split; reflexivity. Qed.

(** ** Witnesses *)

Lemma first_call_ok : call_ok (Publish first_publication allow) empty_state.
Proof.
  split; [|vm_compute; done]. intros c Hc. cbn in Hc. rewrite !elem_of_cons in Hc.
  destruct Hc as [->|[->|[->|[]%not_elem_of_nil]]]; (split; [split|]); vm_compute; reflexivity.
Qed.

(** The first publication, through the loose-object store on an empty disk. *)
Definition disk_objects : LooseObjects LoosePlatform.State.t := loose_object_store quiet_system sample_control.
Definition disk_state : State.t LoosePlatform.State.t :=
  State.mk _ Database.initial (LoosePlatform.State.mk sample_world 0) [] MemoryStore.new.
Definition disk_run := @execute _ _ _ disk_objects quiet (Publish first_publication allow) (disk_state, None).

Lemma length_digest_laws : DigestLaws.
Proof.
  destruct sample_digest_laws as [_ _ Hs Hi]. split; [..|exact Hs|exact Hi].
  all: intros bs; split; [done|]; apply is_bytes_spec, Forall_replicate; unfold len; zdiv.
Qed.

Lemma quiet_bounded : @SqliteLoose.Bounded quiet_system.
Proof.
  intros from n. unfold interruptions. induction (seq from n) as [|k l IH]; [done|]. by rewrite filter_cons, decide_False.
Qed.

Definition disk_laws : @LooseLaws LoosePlatform.State.t _ _ disk_objects :=
  @loose_object_laws _ _ length_digest_laws quiet_system sample_control quiet_bounded
    (@others_alone _ _ quiet_system quiet_alone _).

Lemma disk_durable : @durable _ _ _ disk_objects disk_laws disk_state.
Proof.
  destruct initial_durable as [[Htab Hev] _]. split; [done|]. split; [exact sample_world_ok|].
  intros p i content _ [_ [=]]%sample_names.
Qed.

Lemma durable_call_atomic_witness :
  disk_run.1 = Ok tt ∧
  @atomic _ _ _ disk_objects disk_laws () (effect (Publish first_publication allow))
    (permitted (Publish first_publication allow) disk_state) disk_state disk_run.1 disk_run.2.1.
Proof.
  split; [vm_compute; reflexivity|].
  apply (@durable_call_atomic _ _ _ disk_objects disk_laws quiet (Publish first_publication allow) disk_state None _ _
           disk_run.2.2).
  - exact disk_durable.
  - exact first_call_ok.
  - change (disk_run = (disk_run.1, (disk_run.2.1, disk_run.2.2))). by destruct disk_run as [r [s' fuse']].
Defined.

Lemma durable_reload_exact_witness :
  ∃ staged, effect (Publish first_publication allow) new = Some staged ∧
    (reload staged = Ok staged ↔ readable (Publish first_publication allow) new staged) ∧
    (reload staged = Ok staged ∨ reload staged = Err StoreError.UnsupportedDatabase).
Proof.
  destruct (effect (Publish first_publication allow) new) as [staged|] eqn:He; [|vm_compute in He; discriminate He].
  exists staged. split; [reflexivity|].
  apply (durable_reload_exact (Publish first_publication allow) empty_state new staged).
  - exact initial_durable.
  - vm_compute. reflexivity.
  - exact He.
  - reflexivity.
Defined.

Lemma durable_history_witness :
  durable published_state ∧ ∃ base', view published_state = Ok base' ∧ rtc effect_step new base'.
Proof.
  apply (durable_history empty_state published_state new).
  - exact initial_durable.
  - vm_compute. reflexivity.
  - apply rtc_once. exists quiet, (Publish first_publication allow), None, (Ok tt), None.
    split; [exact first_call_ok|]. split; [vm_compute; reflexivity|].
    intros base staged Hv He u o Hu Hh. exfalso. cbn in Hu. apply elem_of_cons in Hu as [->|Hu]; [discriminate Hh|].
    by apply not_elem_of_nil in Hu.
Defined.

Lemma next_durable c (s : sample_state) : durable s → call_ok c s → durable (next c s).
Proof.
  unfold next, run, sample_state. intros Hd Hok. destruct (execute c (s, None)) as [r [s' fuse']] eqn:Hx.
  destruct (call_atomic c s None r s' fuse' Hd Hok Hx) as (_ & Hd' & _).
  exact (@eq_ind_r _ (r, (s', fuse')) (λ x : result (stop StoreError.t) () * (sample_state * option nat), durable (let '(r, (s, _)) := x in (r, s)).2) Hd' _ Hx).
Qed.

Lemma published_durable : durable published_state.
Proof. apply next_durable; [exact initial_durable|exact first_call_ok]. Qed.

Lemma line_publication_unreadable_witness :
  unreadable (next (Publish (line_publication genesis_head) allow) published_state).
Proof.
  destruct (view published_state) as [base|] eqn:Hv; [|vm_compute in Hv; discriminate Hv].
  destruct (effect (Publish (line_publication genesis_head) allow) base) as [staged|] eqn:He;
    [|vm_compute in Hv; injection Hv as <-; vm_compute in He; discriminate He].
  apply (line_publication_unreadable (line_publication genesis_head) allow published_state base staged
    (RefUpdate.mk (ReferenceKey.Line line_id) ExpectedRef.Absent (PublicationObject.id first_line)) line_id
    None (next (Publish (line_publication genesis_head) allow) published_state) None).
  - exact published_durable.
  - split; [|vm_compute; done]. intros c Hc. cbn in Hc. rewrite !elem_of_cons in Hc.
    destruct Hc as [->|[->|[->|[->|[]%not_elem_of_nil]]]]; (split; [split|]); vm_compute; reflexivity.
  - exact Hv.
  - exact He.
  - vm_compute in Hv. injection Hv as <-. vm_compute in He. injection He as <-. vm_compute. reflexivity.
  - right. left.
  - reflexivity.
  - vm_compute. reflexivity.
  - apply rtc_refl.
Defined.

Lemma snapshot_durable : durable snapshot_state.
Proof.
  apply next_durable; [apply next_durable; [exact published_durable|]|]; (split; [split|]); vm_compute; reflexivity.
Qed.

Lemma interrupted_quarantine_unopenable_witness :
  is_Some (ok (view killed_state)) ∧ (SqliteStore.open_metadata (killed_state, None)).1 ≠ Ok tt.
Proof.
  destruct (view snapshot_state) as [base|] eqn:Hv; [|vm_compute in Hv; discriminate Hv].
  destruct (bt_get (PublicationObject.id first_snapshot) (objects base)) as [o|] eqn:Ho;
    [|vm_compute in Hv; injection Hv as <-; vm_compute in Ho; discriminate Ho].
  destruct (interrupted_quarantine_unopenable (PublicationObject.id first_snapshot) o snapshot_state base (Some 2%nat)
    Interrupted killed_state (Some 0%nat)) as [Hk Hopen].
  - exact snapshot_durable.
  - exact Hv.
  - split; vm_compute; reflexivity.
  - vm_compute. reflexivity.
  - exact Ho.
  - vm_compute in Hv. injection Hv as <-. vm_compute in Ho. injection Ho as <-. vm_compute. by eexists.
  - vm_compute. reflexivity.
  - vm_compute. reflexivity.
  - vm_compute. discriminate.
  - split; [rewrite Hk; by eexists|]. exact (Hopen killed_state (rtc_refl _ _) quiet None).
Defined.
